(* ===== verification/_CoqProject ===== *)
-Q . S2P
Prelude.v
Ieee.v
Rounding.v
RoundPack.v
Softfloat.v
Primitives.v
Machine.v
Contract.v
Interface.v
Laws.v
F32.v
F32Round.v
F32Arith.v
F32Mul.v
F64.v
F64Round.v
F64Arith.v
F64Mul.v
Convert.v
ToInt.v
Truncate.v
FromInt.v
Widen.v
Integral.v
Builtins.v
F16.v
F16Round.v
F16Arith.v
F16Mul.v
F16Convert.v
F16Integers.v
F128.v
F128Compare.v
F128Convert.v
F128Narrow.v
F128Ops.v
F128Round.v
F128Arith.v
F128Mul.v
Formats.v
Exceptions.v
Name.v
Memory.v
Host.v
HostProofs.v
HostCorrect.v
CompilerBuiltins.v
CompilerBuiltinsProofs.v
LongDoubles.v
Opcodes.v
Ops.v
OpsProofs.v
Injection.v
GasInjection.v
Linking.v
InjectCorrect.v
Validation.v
ValidationProofs.v
Serialization.v
SerializationProofs.v
IR.v
IRProofs.v
Utf8.v
Binary.v
BinaryProofs.v
ModuleProofs.v
ReadBack.v
InjectValid.v
InjectedBinary.v
Execute.v
ExecuteProofs.v
ExecuteCorrect.v
FloatApi.v
FloatBits.v
FloatTrick.v
FloatRound.v
FloatTrunc.v
FloatApiCorrect.v
FloatTyped.v
FloatCalls.v
