(* ===== verification/Prelude.v ===== *)
(** * Verification of fractal-wasm

    fractal-wasm runs WebAssembly contracts deterministically and against a gas
    limit.  Its parts, all under [src/libraries/]: SoftFloat ([softfloat/]), which computes
    floating point in software; the compiler runtime for 128-bit integers
    ([builtins/]); wasmlib ([wasmlib/]), which validates a contract, rewrites it
    so that it pays for its operations and calls the software floating point,
    prepares its memory, and answers its calls into the host; and the WAVM
    engine ([wasm-jit/]), which parses, compiles and runs the code.

    The path of a contract: [execute] parses it, injects
    (wasm_injection.hpp), hands the engine the new module, fills a memory image from
    the data segments, and calls [apply]; at run time the contract calls the
    intrinsics of wasm_interface.cpp through the transcription of arguments of
    wavm.hpp, and every floating-point instruction has become a call of
    softfloat_api, which calls SoftFloat.

    ** Floating point

    Models ([softfloat/source/*.c], the 8086-SSE specialisation; one definition per C
    function, with its name): [Softfloat] the thread-local state (rounding mode,
    tininess rule, flags) as a record threaded by a state monad; [Primitives] the
    shifts, leading-zero counts and reciprocal of [s_*.c] and primitives.h; [F16], [F32],
    [F64] rounding and packing, the arithmetic and the comparisons of each
    format; [Convert], [FromInt], [F16Convert] the conversions; [Integral] rounding to an
    integral value; the last three with their proofs.  Machine words are integers with each wrap written out.

    Theory: [Ieee] gives the value of an encoding as a real number and what
    it is to round a real to an encoding, and which flags that raises;
    [Rounding] and [RoundPack] how rounding is done on integers with guard bits;
    [Machine] the machine-word idioms.
    [Contract] says what each operation promises for every operand, NaNs,
    infinities and flags included, and that rounding is a function.  [Interface] is the type class of a format that
    meets the contracts, [Formats] its three instances, and [Laws] is
    proved against the class alone.

    Proofs: [F*Round] (rounding and packing), [F*Arith] (sums, comparisons), [F*Mul] (products,
    quotients), [ToInt], [Truncate], [FromInt], [Widen], [Integral] and their
    16-bit counterparts [F16Integers], [F16Convert]; the theorems are
    stated in [Formats] (sums, products, quotients, comparisons, rounding to an
    integral value, laws, order, conversions).  The only general hypothesis
    is that operands are encodings; 16-bit sums and the laws also ask for one of the five
    rounding modes.  Division by an approximate reciprocal ([F64Mul]) is proved
    correct, not assumed.

    ** The floating-point intrinsics

    [FloatApi] models softfloat_api (wasm_interface.cpp) and its registration; a
    [float] or [double] is its bit pattern.  [FloatBits]: the routines that work on the
    word, among them the masking ceil, floor and trunc; [FloatTrick]: rounding by adding and
    subtracting a power of two, against the interface; [FloatRound], [FloatTrunc]: both applied.  [FloatApiCorrect] states the three groups,
    [FloatTyped] that calls are well typed and keep the modes (a small program logic),
    and [FloatCalls] composes with injection: what every replaced instruction of a
    contract computes.  Several theorems ask for rounding to nearest, the initial mode;
    [FloatTyped] shows that no call changes it.

    ** 128-bit floats and integers: the compiler's runtime

    A compiler turns operations on [__int128] and [long double] into calls of runtime routines,
    which contracts import.  [Builtins] models fix*ti.c, fixuns*ti.c, float*tidf.c with int_t.h
    and fp*.h; it shows truncation and rounding, and agreement with SoftFloat.
    [F128] and [F128Ops] model the 128-bit format of SoftFloat as far as the runtime calls it, two
    64-bit words per number: comparisons ([F128Compare]), conversions from the integers and
    the narrower formats ([F128Convert]), and to them ([F128Narrow]), rounding and packing
    ([F128Round]), sums ([F128Arith]), products and quotients ([F128Mul]), against the
    contracts of the other formats.  [CompilerBuiltins] models the class compiler_builtins
    (wasm_interface.cpp) and its registration, on the host state of [Host];
    [CompilerBuiltinsProofs] shows that every call is metered and writes only its result, and what
    the integer ones compute, [LongDoubles] what those on long doubles compute.

    ** The contract and its host

    - [Exceptions]: the exception classes, a result is a value or one of them.
    - [Name]: the base-32 names of name.hpp, name.cpp, and their codec.
    - [Memory]: MemoryInstance of the engine (grow, shrink, reset), the
      image of wasm_interface.hpp, and the memory that a run starts with.
    - [Host], [HostProofs], [HostCorrect]: wasm_context, the transcription of
      arguments (array, string and reference parameters) and the intrinsics of the
      database, crypto, system, context-free system, action, memory and console APIs; what is printed is kept as it is inserted
      into the stream.  ftl_exit charges and does not come back; where it goes is in [Execute].  A host computation
      keeps its state when it throws.  A weakest-precondition calculus with one rule
      per primitive gives metering and memory safety of every call and of every
      sequence of calls.
    - [Opcodes], [Ops], [OpsProofs]: the operation codes, their prices, and the encoding
      of operations that WAVM hands to validation and injection, with its stream and decoder.
    - [Injection], [GasInjection], [Linking], [InjectCorrect]: the three passes of
      wasm_injection.hpp with the static maps of injector_utils as explicit state.
      [GasInjection]: every path pays for what it runs; [Linking]: an invariant relates the
      maps to the list of functions injected so far; [InjectCorrect]: the final
      module in terms of the submitted one.
    - [Validation], [ValidationProofs]: wasm_validation.hpp, wasm_constraints.hpp and the
      entry check of wavm.cpp; the accepted contracts, and what the limits do.
    - [Execute], [ExecuteProofs], [ExecuteCorrect]: execute (wasmlib.cpp), from the bytes of a module, through
      wasm_interface.hpp, wavm.cpp and, of the
      engine, its reader and writer, linkModule, createMemory, createTable, instantiateModule, invokeFunction, catchHardwareTraps and
      freeUnreferencedObjects, with
      the global variables of the process.  A run is in the start function of its module or in apply.  While a contract runs it may
      call another (call_action);
      a step relation has the steps of contracts, intrinsics and embedder as rules: a contract calls the intrinsics that its module
      imports, and its function ends by returning, by ftl_exit ([proceeds]), by a hardware trap, or by an exception
      ([unwinds]), which the handler of execute turns into a code or an embedder may catch.
      An invariant by rule induction says what the globals mean in every reachable
      state; from it, that a nested run leaves its callers alone.  Another says where ftl_exit and the handler of traps jump to, and
      when that is a frame that is gone ([jumps_reach_runs]).  [execute_correct] is what a call answers, by cases of the submitted bytes, and
      [validate_code_correct] what wasm_interface::validate does.

    ** The binary format of modules

    What the engine reads and writes of a module (wasm-jit/Source/WASM/WASMSerialization.cpp):

    - [Serialization], [SerializationProofs]: the streams of Inline/Serialization.h.  A function template
      with an output and an input instance is a codec, what it writes and what it reads; the laws, that
      what is written is read back ([survives]) and that whatever is read can be written so, in no more
      bytes ([canonical]), are proved for LEB128 numbers and kept by the combinators.
    - [Utf8]: Inline/UTF8.h, the names that are accepted.
    - [IR], [IRProofs]: the modules of IR/Module.h and their validation (IR/Validate.cpp), of the definitions
      and, operator by operator, of code: a stack of operand types under one of control structures, with its invariant.
    - [Binary], [BinaryProofs], [ModuleProofs]: types, names, operators, function bodies (validated while they are
      read), imports, the eleven sections and their order.  A section is a record, and its laws are proved
      for the list of all of them; [module_roundtrip] composes them.
    - [ReadBack]: conversely, a valid module whose parts can be written is read back as it was; and what is read
      can be written.
    - [InjectValid], [InjectedBinary]: injection and the engine composed.  A module that the engine accepts meets the
      conditions of [InjectCorrect], what injection makes of it is valid, and the engine reads it back once written.

    ** Fuel

    The decoding loop has the length of the code as fuel, and each round consumes two bytes or
    more; [OpsProofs] proves that more changes nothing.  So have the two loops of the reader of modules,
    over operators and over sections, the number of bytes ([reading_terminates]).  The loops over strings, buffers
    and lists are structural.  Nothing else is bounded.

    ** Assumed

    The engine: a call of an import passes values of the declared types, and in the theorems about
    injection and validation alone a parsed module is well formed ([ready] in [InjectCorrect], [parsed] in
    [ValidationProofs]: indices in range, code a sequence of operations); in those from the bytes of a module both are
    proved ([valid_ready], [read_parsed]), for modules whose functions all have code and none after its end.
    The embedding program: its callbacks stay inside
    the buffers they are given ([CallbackLaws] in [HostProofs]); they are otherwise arbitrary, and a
    parameter; only the callback of call_action executes contracts, and it returns, without an exception of its own.  For [execute_correct], the operating system commits
    the pages asked for.  The registry of intrinsics holds functions only, as in wasmlib.  Each assumption is met by the concrete modules and callbacks of the
    witnesses.  What C and C++ leave undefined (shifts by 128 or more, overflow of signed operations of __int128) is a
    parameter too, [Undefined]: the results concerned say nothing there, or what holds if overflow wraps ([overflow_wraps]).  A jump
    to a frame that is gone, or a trap whose handler has nowhere to store, has no step.

    ** Not modelled

    Square root, remainder and fused multiply-add of SoftFloat, and the 80-bit format, which
    only printqf of the console calls; the text that the standard library makes of a number that is printed; the generation of machine code
    by the engine, through LLVM, and what its instances hold besides the memory and the imports (globals,
    tables, code): in the step relation a contract may do anything to its own memory, and the state of SoftFloat is
    any; the text format of modules, which nothing here uses.

    This file: notation, the shared tactics, hints and lemmas on machine integers. *)
From Stdlib Require Import ZArith Bool Lia List.
Local Open Scope Z_scope.

Declare Scope c_scope.
Delimit Scope c_scope with C.
Notation "a << b" := (Z.shiftl a b) (at level 51, left associativity) : c_scope.
Notation "a >> b" := (Z.shiftr a b) (at level 51, left associativity) : c_scope.
Notation "a .& b" := (Z.land a b) (at level 52, left associativity) : c_scope.
Notation "a .^ b" := (Z.lxor a b) (at level 53, left associativity) : c_scope.
Notation "a .| b" := (Z.lor a b) (at level 54, left associativity) : c_scope.

(** ** Machine integers *)
Definition uwrap (w x : Z) : Z := x mod 2 ^ w.
Definition swrap (w x : Z) : Z := (x + 2 ^ (w - 1)) mod 2 ^ w - 2 ^ (w - 1).
Abbreviation u8 := (uwrap 8).
Abbreviation u16 := (uwrap 16).
Abbreviation u32 := (uwrap 32).
Abbreviation u64 := (uwrap 64).
Abbreviation u128 := (uwrap 128).
Abbreviation i8 := (swrap 8).
Abbreviation i32 := (swrap 32).
Abbreviation i64 := (swrap 64).
Abbreviation i128 := (swrap 128).
Abbreviation b2z := Z.b2z.
Definition z2b (x : Z) : bool := negb (x =? 0).
(** The C idiom [a >> d | (a & mask) != 0] *)
Definition jam (a d : Z) : Z := Z.lor (Z.shiftr a d) (b2z (negb (a mod 2 ^ d =? 0))).

(** [bits]: shifts by a constant or a bounded distance as products and quotients,
    and the bounds of wrapped words and powers. *)
Create HintDb bits.
Create Rewrite HintDb bits.

(** Turn divisions and remainders into linear facts, then [lia]. *)
Ltac zdm := Z.to_euclidean_division_equations; lia.

Lemma uwrap_small (w x : Z) : 0 <= x < 2 ^ w -> uwrap w x = x.
Proof. apply Z.mod_small. Qed.

Lemma uwrap_bound (w x : Z) : 0 <= w -> 0 <= uwrap w x < 2 ^ w.
Proof. intros. apply Z.mod_pos_bound. lia. Qed.

Lemma swrap_small (w x : Z) : 0 < w -> - 2 ^ (w - 1) <= x < 2 ^ (w - 1) -> swrap w x = x.
Proof.
  intros Hw H. unfold swrap.
  assert (E : 2 ^ w = 2 * 2 ^ (w - 1)) by (rewrite <- Z.pow_succ_r by lia; f_equal; lia).
  rewrite Z.mod_small; lia.
Qed.

Lemma shl_mul (a d : Z) : 0 <= d -> Z.shiftl a d = a * 2 ^ d.
Proof. apply Z.shiftl_mul_pow2. Qed.

Lemma shr_div (a d : Z) : 0 <= d -> Z.shiftr a d = a / 2 ^ d.
Proof. apply Z.shiftr_div_pow2. Qed.

Lemma two_pow_pos (k : Z) : 0 <= k -> 0 < 2 ^ k.
Proof. intros H. now apply Z.pow_pos_nonneg. Qed.

#[export] Hint Rewrite shl_mul shr_div using lia : bits.
#[export] Hint Resolve uwrap_bound two_pow_pos : bits.

Lemma land_low (a m k : Z) : 0 <= k -> m = Z.ones k -> Z.land a m = a mod 2 ^ k.
Proof. intros H ->. now apply Z.land_ones. Qed.

Lemma land_shiftl (a b k : Z) : 0 <= k -> 0 <= b < 2 ^ k -> Z.land (a * 2 ^ k) b = 0.
Proof.
  intros Hk Hb. apply Z.bits_inj'. intros i Hi.
  rewrite Z.land_spec, Z.bits_0, Z.mul_pow2_bits by lia.
  destruct (Z.lt_ge_cases i k).
  - rewrite Z.testbit_neg_r by lia. reflexivity.
  - replace b with (b mod 2 ^ k) by (apply Z.mod_small; lia).
    rewrite Z.mod_pow2_bits_high by lia. apply andb_false_r.
Qed.

(** A disjunction of disjoint bit fields is their sum. *)
Lemma lor_disjoint (a b k : Z) : 0 <= k -> 0 <= b < 2 ^ k -> Z.lor (a * 2 ^ k) b = a * 2 ^ k + b.
Proof.
  intros Hk Hb. pose proof (Z.add_lor_land (a * 2 ^ k) b) as E.
  rewrite land_shiftl in E by assumption. lia.
Qed.

Lemma lor_1 (a : Z) : Z.lor a 1 = 2 * (a / 2) + 1.
Proof.
  rewrite (Z.div_mod a 2) at 1 by lia.
  assert (H := Z.mod_pos_bound a 2 ltac:(lia)).
  assert (C : a mod 2 = 0 \/ a mod 2 = 1) by lia.
  assert (E := lor_disjoint (a / 2) 1 1 ltac:(lia) ltac:(lia)).
  change (2 ^ 1) with 2 in E. rewrite Z.mul_comm in E.
  destruct C as [-> | ->]; [rewrite Z.add_0_r; exact E|].
  rewrite <- E at 1. rewrite <- Z.lor_assoc, Z.lor_diag. exact E.
Qed.

Lemma jam_nonneg (a d : Z) : 0 <= a -> 0 <= jam a d.
Proof.
  intros H. unfold jam. apply Z.lor_nonneg. split; [now apply Z.shiftr_nonneg|].
  destruct (negb _); simpl; lia.
Qed.

Lemma jam_bound (a d n : Z) : 0 < n -> 0 <= d -> 0 <= a < 2 ^ n -> jam a d < 2 ^ n.
Proof.
  intros Hn Hd Ha. assert (E : 2 ^ n = 2 * 2 ^ (n - 1)) by (rewrite <- Z.pow_succ_r by lia; f_equal; lia).
  assert (0 < 2 ^ (n - 1)) by (apply Z.pow_pos_nonneg; lia).
  assert (1 <= 2 ^ d) by (apply (Z.pow_le_mono_r 2 0); lia).
  assert (Q : 0 <= a / 2 ^ d < 2 ^ n)
    by (split; [apply Z.div_pos; lia|apply Z.le_lt_trans with a; [apply Z.div_le_upper_bound; nia|lia]]).
  unfold jam. rewrite shr_div by lia. destruct (negb _); simpl b2z; [|rewrite Z.lor_0_r; lia].
  rewrite lor_1, E. set (q := a / 2 ^ d) in *. clearbody q. zdm.
Qed.
