(* ===== verification/Ieee.v ===== *)
(** Binary interchange formats over the reals: the value of an encoding and
    the rounding of a real number to an encoding. *)
From Stdlib Require Import ZArith Bool Lia Reals Lra.
From S2P Require Import Prelude.
Local Open Scope Z_scope.

Definition pow2 (e : Z) : R := powerRZ 2 e.

(** [mb] fraction bits and [eb] exponent bits. *)
Record format := { mb : Z; eb : Z }.
Definition F16 : format := {| mb := 10; eb := 5 |}.
Definition F32 : format := {| mb := 23; eb := 8 |}.
Definition F64 : format := {| mb := 52; eb := 11 |}.
Definition F128 : format := {| mb := 112; eb := 15 |}.

Class ValidFormat (f : format) : Prop := { mb_pos : 1 <= mb f; eb_ge2 : 2 <= eb f }.

Definition bias (f : format) : Z := 2 ^ (eb f - 1) - 1.
(** The weight of the least significant bit of the subnormal numbers is [2 ^ emin]. *)
Definition emin (f : format) : Z := 1 - bias f - mb f.
Definition inf_pattern (f : format) : Z := (2 ^ eb f - 1) * 2 ^ mb f.
Definition sign_weight (f : format) : Z := 2 ^ (mb f + eb f).

(** The magnitude of the pattern [b] (sign bit removed), in units of [2 ^ emin].
    The pattern of infinity counts as the number that follows the largest
    finite one. *)
Definition magZ (f : format) (b : Z) : Z :=
  let e := b / 2 ^ mb f in
  let m := b mod 2 ^ mb f in
  if e =? 0 then m else (2 ^ mb f + m) * 2 ^ (e - 1).
Definition mag (f : format) (b : Z) : R := (IZR (magZ f b) * pow2 (emin f))%R.

Definition sign_of (f : format) (z : Z) : bool := sign_weight f <=? z.
Definition pattern_of (f : format) (z : Z) : Z := z mod sign_weight f.
Definition with_sign (f : format) (s : bool) (b : Z) : Z := b2z s * sign_weight f + b.
Definition is_enc (f : format) (z : Z) : Prop := 0 <= z < 2 * sign_weight f.
Definition is_finite (f : format) (z : Z) : Prop := is_enc f z /\ pattern_of f z < inf_pattern f.
Definition is_inf (f : format) (z : Z) : Prop := is_enc f z /\ pattern_of f z = inf_pattern f.
Definition is_nan (f : format) (z : Z) : Prop := is_enc f z /\ inf_pattern f < pattern_of f z.
Definition signR (s : bool) (x : R) : R := if s then (- x)%R else x.
Definition value (f : format) (z : Z) : R := signR (sign_of f z) (mag f (pattern_of f z)).

(** What a rounding mode does to a magnitude. *)
Inductive direction := NearestEven | NearestAway | TowardZero | AwayFromZero.

(** Rounding a non-negative real to an integer. *)
Definition rint (d : direction) (y : R) (n : Z) : Prop :=
  match d with
  | NearestEven => (Rabs (y - IZR n) < / 2)%R \/ (Rabs (y - IZR n) = / 2)%R /\ Z.even n = true
  | NearestAway => (IZR n - / 2 <= y < IZR n + / 2)%R
  | TowardZero => (IZR n <= y < IZR n + 1)%R
  | AwayFromZero => (IZR n - 1 < y <= IZR n)%R
  end.

(** Rounding a non-negative real to a pattern of the format. *)
Definition rounds_to (f : format) (d : direction) (x : R) (b : Z) : Prop :=
  match d with
  | NearestEven =>
      0 <= b <= inf_pattern f /\
      forall b', 0 <= b' <= inf_pattern f -> b' <> b ->
        (Rabs (mag f b - x) < Rabs (mag f b' - x))%R \/
        (Rabs (mag f b - x) = Rabs (mag f b' - x))%R /\ Z.even b = true
  | NearestAway =>
      0 <= b <= inf_pattern f /\
      forall b', 0 <= b' <= inf_pattern f -> b' <> b ->
        (Rabs (mag f b - x) < Rabs (mag f b' - x))%R \/
        (Rabs (mag f b - x) = Rabs (mag f b' - x))%R /\ b' < b
  | TowardZero =>
      0 <= b < inf_pattern f /\ (mag f b <= x)%R /\
      forall b', 0 <= b' < inf_pattern f -> (mag f b' <= x)%R -> b' <= b
  | AwayFromZero =>
      0 <= b <= inf_pattern f /\ ((x <= mag f b)%R \/ b = inf_pattern f) /\
      forall b', 0 <= b' <= inf_pattern f -> (x <= mag f b')%R -> b <= b'
  end.

(** Tininess, detected before or after rounding: the number, rounded as if the
    exponent range had no lower bound, is below the smallest normal number. *)
Definition tiny (f : format) (d : direction) (before : bool) (x : R) : Prop :=
  if before then (x < mag f (2 ^ mb f))%R
  else exists n, rint d (x * pow2 (1 - emin f)) n /\ n < 2 * 2 ^ mb f.

(** The exception flags: bit 0 inexact, 1 underflow, 2 overflow, 3 infinite
    (division by zero), 4 invalid. [raises] says which ones the rounding of
    the magnitude [x] to the pattern [b] signals. *)
Record raises (f : format) (d : direction) (before : bool) (x : R) (b fl : Z) : Prop := {
  raises_inexact : Z.testbit fl 0 = true <-> ~ (b < inf_pattern f /\ mag f b = x);
  raises_underflow :
    Z.testbit fl 1 = true <-> tiny f d before x /\ ~ (b < inf_pattern f /\ mag f b = x);
  raises_overflow : Z.testbit fl 2 = true <-> b = inf_pattern f \/ (mag f (inf_pattern f) <= x)%R;
  raises_range : 0 <= fl < 8
}.

(** ** Powers of two *)
Lemma pow2_pos (e : Z) : (0 < pow2 e)%R.
Proof. apply powerRZ_lt. lra. Qed.

Lemma pow2_add (a b : Z) : pow2 (a + b) = (pow2 a * pow2 b)%R.
Proof. apply powerRZ_add. lra. Qed.

Lemma pow2_0 : pow2 0 = 1%R.
Proof. reflexivity. Qed.

Lemma pow2_IZR (e : Z) : 0 <= e -> pow2 e = IZR (2 ^ e).
Proof.
  intros H. unfold pow2. destruct e as [|p|p]; [reflexivity| |lia].
  symmetry. apply (Zpower_pos_powerRZ 2 p).
Qed.

Lemma pow2_opp (e : Z) : pow2 (- e) = (/ pow2 e)%R.
Proof.
  apply Rmult_eq_reg_l with (pow2 e); [|pose proof (pow2_pos e); lra].
  rewrite <- pow2_add, Z.add_opp_diag_r, pow2_0. field. pose proof (pow2_pos e). lra.
Qed.

Lemma pow2_m1 : pow2 (-1) = (/ 2)%R.
Proof. unfold pow2. simpl. lra. Qed.

Lemma pow2_1 : pow2 1 = 2%R.
Proof. unfold pow2. simpl. lra. Qed.

Lemma pow2_le (a b : Z) : a <= b -> (pow2 a <= pow2 b)%R.
Proof.
  intros H. replace b with (a + (b - a)) by lia. rewrite pow2_add.
  rewrite (pow2_IZR (b - a)) by lia.
  assert (1 <= 2 ^ (b - a)) by (apply (Z.pow_le_mono_r 2 0); lia).
  assert (1 <= IZR (2 ^ (b - a)))%R by (apply IZR_le; lia).
  pose proof (pow2_pos a). nra.
Qed.

Lemma pow2_neq0 (e : Z) : pow2 e <> 0%R.
Proof. pose proof (pow2_pos e). lra. Qed.

#[export] Hint Resolve pow2_pos pow2_neq0 : core.

(** ** The value of a pattern *)
Section Pattern.
Context (f : format) {V : ValidFormat f}.

Lemma pow_mb_pos : 1 < 2 ^ mb f.
Proof. destruct V. apply (Z.pow_lt_mono_r 2 0); lia. Qed.

(** A pattern is [q * 2 ^ mb + n] for the exponent [q] of its binade and
    the integral significand [n]. *)
Lemma magZ_pack (q n : Z) :
  0 <= q -> 0 <= n <= 2 * 2 ^ mb f -> q = 0 \/ 2 ^ mb f <= n ->
  magZ f (q * 2 ^ mb f + n) = n * 2 ^ q.
Proof.
  intros Hq Hn C. pose proof pow_mb_pos. unfold magZ.
  assert (Z.lt n (2 ^ mb f) \/ 2 ^ mb f <= n < 2 * 2 ^ mb f \/ n = 2 * 2 ^ mb f) as [L|[L|L]] by lia.
  - assert (q = 0) as -> by lia. rewrite Z.mul_0_l, Z.add_0_l, Z.div_small, Z.mod_small by lia.
    simpl Z.eqb. cbv iota. change (2 ^ 0) with 1. lia.
  - replace (q * 2 ^ mb f + n) with ((n - 2 ^ mb f) + (q + 1) * 2 ^ mb f) by lia.
    rewrite Z.div_add, Z.mod_add, Z.div_small, Z.mod_small by lia.
    replace (0 + (q + 1) =? 0) with false by (symmetry; apply Z.eqb_neq; lia).
    replace (0 + (q + 1) - 1) with q by lia. lia.
  - replace (q * 2 ^ mb f + n) with (0 + (q + 2) * 2 ^ mb f) by lia.
    rewrite Z.div_add, Z.mod_add, Z.div_small, Z.mod_small by lia.
    replace (0 + (q + 2) =? 0) with false by (symmetry; apply Z.eqb_neq; lia).
    replace (0 + (q + 2) - 1) with (Z.succ q) by lia. rewrite Z.pow_succ_r by lia. lia.
Qed.

Lemma unpack (b : Z) : 0 <= b -> exists q n,
  b = q * 2 ^ mb f + n /\ 0 <= q /\ 0 <= n < 2 * 2 ^ mb f /\ (q = 0 \/ 2 ^ mb f <= n).
Proof.
  intros Hb. pose proof pow_mb_pos.
  pose proof (Z.div_mod b (2 ^ mb f) ltac:(lia)).
  pose proof (Z.mod_pos_bound b (2 ^ mb f) ltac:(lia)).
  pose proof (Z.div_pos b (2 ^ mb f) ltac:(lia) ltac:(lia)).
  destruct (Z.eq_dec (b / 2 ^ mb f) 0) as [E|E].
  - exists 0, b. lia.
  - exists (b / 2 ^ mb f - 1), (b mod 2 ^ mb f + 2 ^ mb f). lia.
Qed.

Lemma magZ_lt (a b : Z) : 0 <= a < b -> magZ f a < magZ f b.
Proof.
  intros H. pose proof pow_mb_pos.
  destruct (unpack a) as (q & n & -> & Hq & Hn & C); [lia|].
  destruct (unpack b) as (q' & n' & -> & Hq' & Hn' & C'); [lia|].
  rewrite !magZ_pack by lia.
  pose proof (Z.pow_pos_nonneg 2 q ltac:(lia) ltac:(lia)).
  assert (q = q' \/ q < q') as [->|L] by nia; [nia|].
  assert (E : 2 ^ q' = 2 ^ q * 2 ^ (q' - q - 1) * 2).
  { rewrite <- Z.pow_add_r, Z.mul_comm, <- Z.pow_succ_r by lia. f_equal. lia. }
  assert (1 <= 2 ^ (q' - q - 1)) by (apply (Z.pow_le_mono_r 2 0); lia).
  rewrite E. nia.
Qed.

Lemma magZ_nonneg (b : Z) : 0 <= b -> 0 <= magZ f b.
Proof.
  intros Hb. destruct (unpack b Hb) as (q & n & -> & Hq & Hn & C).
  rewrite magZ_pack by lia. apply Z.mul_nonneg_nonneg; [lia|]. apply Z.pow_nonneg; lia.
Qed.

Lemma mag_lt (a b : Z) : 0 <= a < b -> (mag f a < mag f b)%R.
Proof.
  intros H. apply Rmult_lt_compat_r; [auto|]. apply IZR_lt. now apply magZ_lt.
Qed.

Lemma mag_le (a b : Z) : 0 <= a <= b -> (mag f a <= mag f b)%R.
Proof.
  intros H. destruct (Z.eq_dec a b) as [->|]; [lra|]. left. apply mag_lt. lia.
Qed.

Lemma mag_nonneg (b : Z) : 0 <= b -> (0 <= mag f b)%R.
Proof.
  intros H. apply Rmult_le_pos; [apply IZR_le; now apply magZ_nonneg|].
  pose proof (pow2_pos (emin f)). lra.
Qed.

Lemma inf_pattern_pos : 0 < inf_pattern f.
Proof.
  pose proof pow_mb_pos. destruct V. unfold inf_pattern.
  assert (2 ^ 2 <= 2 ^ eb f) by (apply Z.pow_le_mono_r; lia). nia.
Qed.
End Pattern.
