(* ===== verification/Rounding.v ===== *)
(** Rounding: how a pattern is found from its neighbours, and the integers
    with sticky bits that stand for a real number while it is being rounded. *)
From Stdlib Require Import ZArith Bool Lia Reals Lra.
From S2P Require Import Prelude Ieee.
Local Open Scope Z_scope.

(** [same g s y]: the integer [s] and the real [y] lie on the same side of,
    or on, every multiple of [g]: rounding at a multiple of [2 * g] cannot tell
    them apart. *)
Definition same (g s : Z) (y : R) : Prop :=
  forall m : Z, ((y < IZR (m * g))%R <-> s < m * g) /\ ((IZR (m * g) < y)%R <-> m * g < s).

(** The rounding increment for [g] guard bits. *)
Definition increment (d : direction) (g : Z) : Z :=
  match d with
  | NearestEven | NearestAway => 2 ^ (g - 1)
  | TowardZero => 0
  | AwayFromZero => 2 ^ g - 1
  end.

Definition is_nearest_even (d : direction) : bool :=
  match d with NearestEven => true | _ => false end.

(** Adding the increment, dropping the guard bits, clearing the last bit of a tie. *)
Definition round_sig (d : direction) (g s : Z) : Z :=
  let n := (s + increment d g) / 2 ^ g in
  if is_nearest_even d && (s mod 2 ^ g =? 2 ^ (g - 1)) then 2 * (n / 2) else n.

Ltac case_rabs := unfold Rabs in *; repeat destruct Rcase_abs.

Section Rounds.
Context (f : format) {V : ValidFormat f}.

(** A pattern is found by comparing with its two neighbours. *)
Lemma rounds_to_bracket (d : direction) (x : R) (l b : Z) :
  0 <= l < inf_pattern f -> (mag f l <= x < mag f (l + 1))%R ->
  match d with
  | NearestEven =>
      b = l /\ (2 * x < mag f l + mag f (l + 1) \/ 2 * x = mag f l + mag f (l + 1) /\ Z.even l = true)%R \/
      b = l + 1 /\ (mag f l + mag f (l + 1) < 2 * x \/ 2 * x = mag f l + mag f (l + 1) /\ Z.even (l + 1) = true)%R
  | NearestAway =>
      b = l /\ (2 * x < mag f l + mag f (l + 1))%R \/ b = l + 1 /\ (mag f l + mag f (l + 1) <= 2 * x)%R
  | TowardZero => b = l
  | AwayFromZero => b = l /\ x = mag f l \/ b = l + 1 /\ (mag f l < x)%R
  end ->
  rounds_to f d x b.
Proof.
  intros Hl Hx Hb.
  assert (Lo : forall b', 0 <= b' <= l -> (mag f b' <= mag f l)%R) by (intros; apply (mag_le f); lia).
  assert (Lo' : forall b', 0 <= b' < l -> (mag f b' < mag f l)%R) by (intros; apply (mag_lt f); lia).
  assert (Hi : forall b', l + 1 <= b' -> (mag f (l + 1) <= mag f b')%R) by (intros; apply (mag_le f); lia).
  assert (Hi' : forall b', l + 1 < b' -> (mag f (l + 1) < mag f b')%R) by (intros; apply (mag_lt f); lia).
  destruct d; simpl.
  - destruct Hb as [[-> Hb]|[-> Hb]]; (split; [lia|]); intros b' Hb' N;
      (assert (b' < l \/ b' = l \/ b' = l + 1 \/ l + 1 < b') as [C|[->|[->|C]]] by lia); try lia;
      try pose proof (Lo' b' ltac:(lia)); try pose proof (Hi' b' ltac:(lia)).
    all: try (left; case_rabs; lra).
    all: destruct Hb as [Hb|[Hb E]]; [left; case_rabs; lra|right; split; [case_rabs; lra|exact E]].
  - destruct Hb as [[-> Hb]|[-> Hb]]; (split; [lia|]); intros b' Hb' N;
      (assert (b' < l \/ b' = l \/ b' = l + 1 \/ l + 1 < b') as [C|[->|[->|C]]] by lia); try lia;
      try pose proof (Lo' b' ltac:(lia)); try pose proof (Hi' b' ltac:(lia)).
    all: try (left; case_rabs; lra).
    destruct (Req_dec (2 * x) (mag f l + mag f (l + 1))); [right; split; [case_rabs; lra|lia]|left; case_rabs; lra].
  - subst b. repeat split; try lia; try lra. intros b' Hb' Hx'.
    assert (~ l + 1 <= b') by (intros C; specialize (Hi b' C); lra). lia.
  - destruct Hb as [[-> Hb]|[-> Hb]]; repeat split; try lia; try lra.
    + intros b' Hb' Hx'. assert (~ b' < l) by (intros C; specialize (Lo' b' ltac:(lia)); lra). lia.
    + intros b' Hb' Hx'. assert (~ b' <= l) by (intros C; specialize (Lo b' ltac:(lia)); lra). lia.
Qed.

(** Beyond the largest finite number. *)
Lemma rounds_to_overflow (d : direction) (x : R) :
  (mag f (inf_pattern f) <= x)%R ->
  rounds_to f d x (match d with TowardZero => inf_pattern f - 1 | _ => inf_pattern f end).
Proof.
  intros Hx. pose proof (inf_pattern_pos f).
  assert (Lo : forall b', 0 <= b' < inf_pattern f -> (mag f b' < mag f (inf_pattern f))%R)
    by (intros; apply (mag_lt f); lia).
  destruct d; simpl.
  - split; [lia|]. intros b' Hb' N. specialize (Lo b' ltac:(lia)). left. case_rabs; lra.
  - split; [lia|]. intros b' Hb' N. specialize (Lo b' ltac:(lia)). left. case_rabs; lra.
  - specialize (Lo (inf_pattern f - 1) ltac:(lia)). repeat split; try lia; try lra. 
  - repeat split; try lia; auto. intros b' Hb' Hb''.
    assert (~ b' < inf_pattern f) by (intros C; specialize (Lo b' ltac:(lia)); lra). lia.
Qed.

Lemma rounds_to_exact (d : direction) (b : Z) :
  0 <= b < inf_pattern f -> rounds_to f d (mag f b) b.
Proof.
  intros Hb. pose proof (mag_lt f b (b + 1) ltac:(lia)).
  apply rounds_to_bracket with b; [lia|lra|].
  destruct d; try lra; try (left; split; [reflexivity|lra]). reflexivity.
Qed.

Lemma mag_pack (q n : Z) : 0 <= q -> 0 <= n <= 2 * 2 ^ mb f -> q = 0 \/ 2 ^ mb f <= n ->
  mag f (q * 2 ^ mb f + n) = (IZR n * pow2 (q + emin f))%R.
Proof.
  intros. unfold mag. rewrite (magZ_pack f), mult_IZR, <- pow2_IZR, pow2_add by lia. ring.
Qed.

(** Rounding the scaled significand to an integer and packing it rounds the
    number to the format: the carry of the significand moves into the exponent. *)
Lemma rounds_to_pack (d : direction) (q n : Z) (y : R) :
  0 <= q <= 2 ^ eb f - 3 -> (0 <= y)%R -> q = 0 \/ (IZR (2 ^ mb f) <= y)%R ->
  (y < IZR (2 * 2 ^ mb f))%R -> rint d y n ->
  rounds_to f d (y * pow2 (q + emin f)) (q * 2 ^ mb f + n).
Proof.
  intros Hq Hy Hlo Hhi Hn. pose proof (pow_mb_pos f) as P.
  destruct (archimed y) as [A1 A2]. set (k := up y - 1).
  assert (K : (IZR k <= y < IZR (k + 1))%R).
  { unfold k. rewrite Z.sub_add, minus_IZR. lra. }
  clearbody k.
  assert (0 <= k) by (assert (-1 < k)%Z by (apply lt_IZR; rewrite plus_IZR in K; lra); lia).
  assert (k < 2 * 2 ^ mb f) by (apply lt_IZR; lra).
  assert (q = 0 \/ 2 ^ mb f <= k).
  { destruct Hlo as [|Hlo]; [now left|right].
    assert (2 ^ mb f < k + 1) by (apply lt_IZR; lra). lia. }
  assert (N : n = k \/ n = k + 1).
  { rewrite plus_IZR in K. assert (k - 1 < n < k + 2).
    { split; apply lt_IZR; rewrite ?plus_IZR, ?minus_IZR; destruct d; simpl in Hn;
        try (destruct Hn as [Hn|[Hn _]]); case_rabs; lra. } lia. }
  assert (B : q * 2 ^ mb f + k < inf_pattern f) by (unfold inf_pattern; nia).
  pose proof (pow2_pos (q + emin f)) as U.
  rewrite plus_IZR in K.
  apply rounds_to_bracket with (q * 2 ^ mb f + k); [nia| |].
  - rewrite <- Z.add_assoc, !(mag_pack), plus_IZR by lia. split; nra.
  - rewrite <- Z.add_assoc, !(mag_pack), plus_IZR by lia.
    assert (E1 : Z.even (q * 2 ^ mb f + k) = Z.even k).
    { replace (mb f) with (Z.succ (mb f - 1)) by lia. rewrite Z.pow_succ_r by (destruct V; lia).
      rewrite Z.even_add, Z.even_mul, Z.even_mul. simpl. rewrite orb_true_r. now destruct (Z.even k). }
    assert (E2 : Z.even (q * 2 ^ mb f + (k + 1)) = Z.even (k + 1)).
    { now rewrite Z.add_assoc, (Z.even_add _ 1), (Z.even_add k 1), E1. }
    set (u := pow2 (q + emin f)) in *.
    assert (Lt : forall a b : R, (a < b -> a * u < b * u)%R) by (intros; now apply Rmult_lt_compat_r).
    assert (Y : (y < IZR k + / 2 \/ y = IZR k + / 2 \/ IZR k + / 2 < y)%R) by lra.
    destruct d; simpl in Hn.
    + destruct N as [-> | ->]; [left|right]; (split; [lia|]); rewrite ?E1, ?E2, ?plus_IZR in *;
        destruct Hn as [Hn|[Hn He]]; [left|right|left|right].
      * assert (y < IZR k + / 2)%R as L by (case_rabs; lra). apply Lt in L. lra.
      * split; [|exact He]. assert (y = IZR k + / 2)%R as -> by (case_rabs; lra). lra.
      * assert (IZR k + / 2 < y)%R as L by (case_rabs; lra). apply Lt in L. lra.
      * split; [|exact He]. assert (y = IZR k + / 2)%R as -> by (case_rabs; lra). lra.
    + destruct N as [-> | ->]; [left|right]; (split; [lia|]); rewrite ?plus_IZR in *.
      * assert (y < IZR k + / 2)%R as L by lra. apply Lt in L. lra.
      * destruct Y as [Y|[->|L]]; [lra|lra|]. apply Lt in L. lra.
    + destruct N as [-> | ->]; [reflexivity|rewrite plus_IZR in Hn; lra].
    + destruct N as [-> | ->]; [left|right]; (split; [lia|]); rewrite ?plus_IZR in *.
      * assert (y = IZR k) as -> by lra. ring.
      * assert (IZR k < y)%R as L by lra. apply Lt in L. lra.
Qed.
End Rounds.

(** ** Integers with sticky bits *)
Lemma same_exact (g s : Z) : same g s (IZR s).
Proof. intros m. split; split; intros H; try (apply lt_IZR; exact H); now apply IZR_lt. Qed.

Lemma same_mul (g c s : Z) (y : R) : same g s y -> same (g * c) s y.
Proof. intros H m. replace (m * (g * c)) with (m * c * g) by ring. apply H. Qed.

Lemma same_pow (j k s : Z) (y : R) : 0 <= j <= k -> same (2 ^ j) s y -> same (2 ^ k) s y.
Proof.
  intros H S. replace k with (j + (k - j)) by lia. rewrite Z.pow_add_r by lia. now apply same_mul.
Qed.

Lemma same_add (g a s : Z) (y : R) : (exists m, a = m * g) -> same g s y -> same g (a + s) (IZR a + y)%R.
Proof.
  intros [m0 ->] H m. specialize (H (m - m0)). rewrite Z.mul_sub_distr_r, minus_IZR in H.
  destruct H as [[A B] [C D]]. split; split; intros K.
  - assert (s < m * g - m0 * g) by (apply A; lra). lia.
  - assert (y < IZR (m * g) - IZR (m0 * g))%R by (apply B; lia). lra.
  - assert (m * g - m0 * g < s) by (apply C; lra). lia.
  - assert (IZR (m * g) - IZR (m0 * g) < y)%R by (apply D; lia). lra.
Qed.

Lemma same_opp (g s : Z) (y : R) : same g s y -> same g (- s) (- y)%R.
Proof.
  intros H m. specialize (H (- m)). rewrite Z.mul_opp_l, opp_IZR in H.
  destruct H as [[A B] [C D]].
  split; split; intros K.
  - assert (- (m * g) < s) by (apply C; lra). lia.
  - assert (- IZR (m * g) < y)%R by (apply D; lia). lra.
  - assert (s < - (m * g)) by (apply A; lra). lia.
  - assert (y < - IZR (m * g))%R by (apply B; lia). lra.
Qed.

Lemma same_sub (g a s : Z) (y : R) : (exists m, a = m * g) -> same g s y -> same g (a - s) (IZR a - y)%R.
Proof. intros H S. apply (same_add g a (- s) (- y)); [exact H|now apply same_opp]. Qed.

Lemma same_scale (g c s : Z) (y : R) : 0 < c -> same g s y -> same (g * c) (s * c) (y * IZR c)%R.
Proof.
  intros Hc H m. destruct (H m) as [[A B] [C D]]. assert (0 < IZR c)%R by (apply IZR_lt; lia).
  replace (m * (g * c)) with (m * g * c) by ring. rewrite mult_IZR.
  split; split; intros K.
  - apply Z.mul_lt_mono_pos_r; [lia|]. apply A. now apply Rmult_lt_reg_r with (IZR c).
  - apply Rmult_lt_compat_r; [assumption|]. apply B. nia.
  - apply Z.mul_lt_mono_pos_r; [lia|]. apply C. now apply Rmult_lt_reg_r with (IZR c).
  - apply Rmult_lt_compat_r; [assumption|]. apply D. nia.
Qed.

Lemma same_shl (k d s : Z) (y : R) : 0 <= k -> 0 <= d -> same (2 ^ k) s y -> same (2 ^ (k + d)) (s * 2 ^ d) (y * pow2 d)%R.
Proof.
  intros. rewrite pow2_IZR, Z.pow_add_r by lia. apply same_scale; [|assumption]. apply Z.pow_pos_nonneg; lia.
Qed.

Lemma same_lower (g m s : Z) (y : R) : same g s y -> m * g <= s -> (IZR (m * g) <= y)%R.
Proof. intros H L. apply Rnot_lt_le. intros C. apply H in C. lia. Qed.

Lemma same_upper (g m s : Z) (y : R) : same g s y -> s < m * g -> (y < IZR (m * g))%R.
Proof. intros H L. now apply H. Qed.

Lemma jam_eq (s d : Z) : 0 <= d ->
  jam s d = if s mod 2 ^ d =? 0 then s / 2 ^ d else 2 * (s / 2 ^ d / 2) + 1.
Proof.
  intros Hd. unfold jam. rewrite shr_div by lia. destruct (s mod 2 ^ d =? 0); simpl.
  - apply Z.lor_0_r.
  - apply lor_1.
Qed.

(** Jamming the bits shifted out keeps the side of every even number. *)
Lemma jam_compare (s d m : Z) : 0 <= d ->
  (s < 2 * m * 2 ^ d <-> jam s d < 2 * m) /\ (2 * m * 2 ^ d < s <-> 2 * m < jam s d).
Proof.
  intros Hd. rewrite jam_eq by lia. assert (P : 0 < 2 ^ d) by (apply Z.pow_pos_nonneg; lia).
  pose proof (Z.div_mod s (2 ^ d) ltac:(lia)) as E. pose proof (Z.mod_pos_bound s (2 ^ d) P) as B.
  set (q := s / 2 ^ d) in *. set (r := s mod 2 ^ d) in *. clearbody q r. subst s.
  pose proof (Z.div_mod q 2 ltac:(lia)). pose proof (Z.mod_pos_bound q 2 ltac:(lia)).
  destruct (Z.eqb_spec r 0); [subst r|]; (assert (q < 2 * m \/ 2 * m <= q) as [C|C] by lia);
    split; split; intros; try nia.
Qed.

Lemma same_jam (k d s : Z) (y : R) : 0 <= k -> 0 <= d -> same (2 ^ k) s y ->
  same (2 ^ Z.max 1 (k - d)) (jam s d) (y * pow2 (- d))%R.
Proof.
  intros Hk Hd H m.
  assert (P : 0 < 2 ^ d) by (apply Z.pow_pos_nonneg; lia).
  assert (PR : (0 < pow2 d)%R) by auto.
  set (e := Z.max 1 (k - d)).
  assert (E : m * 2 ^ e = 2 * (m * 2 ^ (e - 1))).
  { replace e with (Z.succ (e - 1)) at 1 by lia. rewrite Z.pow_succ_r by lia. ring. }
  assert (G : 2 * (m * 2 ^ (e - 1)) * 2 ^ d = m * 2 ^ (e + d - k) * 2 ^ k).
  { rewrite <- E, <- !Z.mul_assoc, <- !Z.pow_add_r by lia. do 2 f_equal. lia. }
  pose proof (jam_compare s d (m * 2 ^ (e - 1)) Hd) as J. rewrite <- E in *.
  specialize (H (m * 2 ^ (e + d - k))). rewrite <- G, E in H. rewrite E in *.
  set (M := 2 * (m * 2 ^ (e - 1))) in *. clearbody M. clear E G.
  assert (Q : (IZR (M * 2 ^ d) = IZR M * pow2 d)%R) by (rewrite mult_IZR, pow2_IZR by lia; ring).
  assert (Y : (y = y * pow2 (- d) * pow2 d)%R) by (rewrite pow2_opp; field; lra).
  set (z := (y * pow2 (- d))%R) in *. rewrite Y, Q in H. clearbody z.
  destruct H as [[A1 A2] [A3 A4]]. destruct J as [[J1 J2] [J3 J4]].
  split; split; intros K; [apply J1, A1; nra|apply Rmult_lt_reg_r with (pow2 d); auto
    |apply J3, A3; nra|apply Rmult_lt_reg_r with (pow2 d); auto].
Qed.

Lemma ratio_compare (n d k : Z) : 0 < d ->
  ((IZR n / IZR d < IZR k)%R <-> n < k * d) /\ ((IZR k < IZR n / IZR d)%R <-> k * d < n).
Proof.
  intros Hd. assert (0 < IZR d)%R by (apply IZR_lt; lia).
  assert (Q : (IZR n = IZR n / IZR d * IZR d)%R) by (field; lra).
  split; split; intros K.
  - apply lt_IZR. rewrite mult_IZR, Q. now apply Rmult_lt_compat_r.
  - apply IZR_lt in K. rewrite mult_IZR, Q in K. now apply Rmult_lt_reg_r in K.
  - apply lt_IZR. rewrite mult_IZR, Q. now apply Rmult_lt_compat_r.
  - apply IZR_lt in K. rewrite mult_IZR, Q in K. now apply Rmult_lt_reg_r in K.
Qed.

(** An integer quotient, made odd when it is inexact and its low bits are zero,
    stands for the quotient of the reals. *)
Lemma same_quotient (g n d s : Z) : 2 <= g -> 0 < d ->
  s = n / d /\ (n mod d = 0 \/ (n / d) mod g <> 0) \/
  s = n / d + 1 /\ n mod d <> 0 /\ (n / d) mod g = 0 ->
  same g s (IZR n / IZR d).
Proof.
  intros Hg Hd C m.
  assert (L : forall k, (IZR n / IZR d < IZR k)%R <-> n / d < k).
  { intros k. rewrite (proj1 (ratio_compare n d k Hd)).
    split; intros K; [apply Z.div_lt_upper_bound; lia|]. pose proof (Z.div_mod n d ltac:(lia)). pose proof (Z.mod_pos_bound n d Hd). nia. }
  assert (U : forall k, (IZR k < IZR n / IZR d)%R <-> k < n / d \/ k = n / d /\ n mod d <> 0).
  { intros k. rewrite (proj2 (ratio_compare n d k Hd)).
    pose proof (Z.div_mod n d ltac:(lia)). pose proof (Z.mod_pos_bound n d Hd).
    set (q := n / d) in *. set (r := n mod d) in *. clearbody q r. split; intros K; [|nia].
    assert (k < q \/ k = q \/ q < k) as [?|[->|?]] by lia; [tauto|right; split; [reflexivity|nia]|nia]. }
  rewrite L, U. pose proof (Z.div_mod (n / d) g ltac:(lia)). pose proof (Z.mod_pos_bound (n / d) g ltac:(lia)).
  set (q := n / d) in *. set (r := n mod d) in *. set (q' := q / g) in *. set (t := q mod g) in *. clearbody q r q' t.
  destruct C as [[-> C]|(-> & R & T)]; (split; [|split]).
  - tauto.
  - intros [K|[K R]]; [assumption|]. destruct C as [C|C]; [tauto|]. exfalso. apply C.
    assert (t = g * (m - q')) by nia. assert (0 < m - q' \/ m - q' <= 0) as [W|W] by lia; nia.
  - tauto.
  - split; [|lia]. intros K. assert (q' < m) by nia. nia.
  - lia.
  - lia.
Qed.

Lemma pow2_half (g : Z) : 1 <= g -> 2 ^ g = 2 * 2 ^ (g - 1) /\ 0 < 2 ^ (g - 1).
Proof.
  intros Hg. split; [|apply Z.pow_pos_nonneg; lia].
  rewrite <- Z.pow_succ_r by lia. f_equal. lia.
Qed.

Section RoundSig.
Context (g s : Z) (Hg : 1 <= g).
Let h := 2 ^ (g - 1).
Let q := s / 2 ^ g.
Let r := s mod 2 ^ g.

Lemma quot_rem : s = q * (2 * h) + r /\ 0 <= r < 2 * h.
Proof.
  destruct (pow2_half g Hg) as [E P]. fold h in E, P. unfold q, r. rewrite E.
  pose proof (Z.div_mod s (2 * h) ltac:(lia)). pose proof (Z.mod_pos_bound s (2 * h) ltac:(lia)). lia.
Qed.

(** Where the real number lies between two multiples of [2 ^ g]. *)
Lemma same_position (y : R) : same h s y ->
  r = 0 /\ (y * pow2 (- g) = IZR q)%R \/
  0 < r < h /\ (IZR q < y * pow2 (- g) < IZR q + / 2)%R \/
  r = h /\ (y * pow2 (- g) = IZR q + / 2)%R \/
  h < r /\ (IZR q + / 2 < y * pow2 (- g) < IZR q + 1)%R.
Proof.
  intros S. destruct quot_rem as [E B]. destruct (pow2_half g Hg) as [G P]. fold h in G, P.
  assert (Y : (y = y * pow2 (- g) * IZR (2 * h))%R).
  { rewrite <- G, <- pow2_IZR, pow2_opp by lia. field. pose proof (pow2_pos g). lra. }
  set (z := (y * pow2 (- g))%R) in *. clearbody z q r h. subst y s.
  assert (PR : (0 < IZR h)%R) by (apply IZR_lt; lia).
  assert (T : forall a, ((z < IZR q + IZR a / 2)%R <-> q * (2 * h) + r < (2 * q + a) * h) /\
                        ((IZR q + IZR a / 2 < z)%R <-> (2 * q + a) * h < q * (2 * h) + r)).
  { intros a. specialize (S (2 * q + a)). rewrite mult_IZR, mult_IZR, plus_IZR, mult_IZR in S.
    replace ((2 * IZR q + IZR a) * IZR h)%R with ((IZR q + IZR a / 2) * (2 * IZR h))%R in S by field.
    rewrite <- (proj1 S), <- (proj2 S).
    split; split; intros K; try (apply Rmult_lt_reg_r with (2 * IZR h)%R; lra); apply Rmult_lt_compat_r; lra. }
  assert (T0 := T 0). assert (T1 := T 1). assert (T2 := T 2). clear T S.
  assert (r = 0 \/ 0 < r < h \/ r = h \/ h < r) as [C|[C|[C|C]]] by lia.
  - left. split; [assumption|]. apply Rle_antisym; apply Rnot_lt_le; intros K.
    + assert ((2 * q + 0) * h < q * (2 * h) + r) by (apply T0; lra). lia.
    + assert (q * (2 * h) + r < (2 * q + 0) * h) by (apply T0; lra). lia.
  - right; left. split; [assumption|].
    assert (IZR q + 0 / 2 < z)%R by (apply T0; lia). assert (z < IZR q + 1 / 2)%R by (apply T1; lia). lra.
  - right; right; left. split; [assumption|]. apply Rle_antisym; apply Rnot_lt_le; intros K.
    + assert ((2 * q + 1) * h < q * (2 * h) + r) by (apply T1; lra). lia.
    + assert (q * (2 * h) + r < (2 * q + 1) * h) by (apply T1; lra). lia.
  - right; right; right. split; [assumption|].
    assert (IZR q + 1 / 2 < z)%R by (apply T1; lia). assert (z < IZR q + 2 / 2)%R by (apply T2; lia). lra.
Qed.

Lemma round_sig_value (d : direction) :
  round_sig d g s =
    match d with
    | NearestEven => if r <? h then q else if r =? h then 2 * ((q + 1) / 2) else q + 1
    | NearestAway => if r <? h then q else q + 1
    | TowardZero => q
    | AwayFromZero => if r =? 0 then q else q + 1
    end.
Proof.
  destruct quot_rem as [E B]. destruct (pow2_half g Hg) as [G P]. fold h in G, P.
  unfold round_sig. fold r. unfold increment, is_nearest_even. rewrite ?G. fold h.
  clearbody q r h. subst s.
  assert (D : forall c, 0 <= c < 2 * h -> (q * (2 * h) + c) / (2 * h) = q)
    by (intros; rewrite Z.div_add_l, Z.div_small by lia; lia).
  assert (D' : forall c, 2 * h <= c < 4 * h -> (q * (2 * h) + c) / (2 * h) = q + 1).
  { intros c Hc. replace (q * (2 * h) + c) with ((q + 1) * (2 * h) + (c - 2 * h)) by ring.
    rewrite Z.div_add_l, Z.div_small by lia. lia. }
  destruct d; cbn [andb rint]; rewrite <- ?Z.add_assoc;
    destruct (Z.ltb_spec r h); try destruct (Z.eqb_spec r h); try destruct (Z.eqb_spec r 0);
    try lia; first [rewrite D by lia|rewrite D' by lia]; reflexivity || lia.
Qed.

Lemma round_sig_between (d : direction) : q <= round_sig d g s <= q + 1.
Proof.
  rewrite round_sig_value. clearbody q r h.
  destruct d; try destruct (Z.ltb_spec r h); try destruct (Z.eqb_spec r h);
    try destruct (Z.eqb_spec r 0); zdm.
Qed.

(** The rounded significand is the real number rounded to an integer. *)
Lemma round_sig_rint (d : direction) (y : R) : same h s y -> rint d (y * pow2 (- g)) (round_sig d g s).
Proof.
  intros S. pose proof (same_position y S) as C. rewrite round_sig_value.
  set (z := (y * pow2 (- g))%R) in *. clearbody z.
  destruct (pow2_half g Hg) as [_ P]. fold h in P. clearbody h q r.
  assert (O : 2 * ((q + 1) / 2) = q /\ Z.even q = true \/ 2 * ((q + 1) / 2) = q + 1 /\ Z.even (q + 1) = true).
  { destruct (Z.even q) eqn:Ev; [left|right]; (split; [|rewrite ?Z.even_add, ?Ev; reflexivity]).
    - apply Z.even_spec in Ev as [k ->]. zdm.
    - rewrite <- Z.negb_odd in Ev. apply negb_false_iff, Z.odd_spec in Ev as [k ->]. zdm. }
  destruct C as [[Cr Cz]|[[Cr Cz]|[[Cr Cz]|[Cr Cz]]]].
  all: destruct d; cbn [andb rint]; destruct (Z.ltb_spec r h); try destruct (Z.eqb_spec r h);
    try destruct (Z.eqb_spec r 0); try lia; rewrite ?plus_IZR; try lra.
  all: try (left; case_rabs; lra).
  destruct O as [[-> O]|[-> O]]; right; (split; [|exact O]); rewrite ?plus_IZR; case_rabs; lra.
Qed.

(** Nothing is lost exactly when the guard bits are zero. *)
Lemma round_sig_exact (d : direction) (y : R) : same h s y ->
  (y * pow2 (- g) = IZR (round_sig d g s))%R <-> r = 0.
Proof.
  intros S. pose proof (same_position y S) as C. rewrite round_sig_value.
  set (z := (y * pow2 (- g))%R) in *. clearbody z.
  destruct (pow2_half g Hg) as [_ P]. fold h in P. clearbody h q r.
  assert (O : forall n, q <= n <= q + 1 -> (IZR q < z < IZR q + 1)%R -> z <> IZR n).
  { intros n Hn Hz ->. destruct Hz as [H1 H2]. apply lt_IZR in H1.
    rewrite <- plus_IZR in H2. apply lt_IZR in H2. lia. }
  destruct C as [[Cr Cz]|C].
  - split; [auto|intros _]. rewrite Cz. f_equal.
    destruct d; cbn [andb rint]; destruct (Z.ltb_spec r h); try destruct (Z.eqb_spec r 0); lia.
  - split; [|destruct C as [[? ?]|[[? ?]|[? ?]]]; lia]. intros K. exfalso. revert K. apply O.
    + destruct d; cbn [andb rint]; destruct (Z.ltb_spec r h); try destruct (Z.eqb_spec r h);
        try destruct (Z.eqb_spec r 0); zdm.
    + destruct C as [[? ?]|[[? ?]|[? ?]]]; lra.
Qed.
End RoundSig.
