(* ===== verification/RoundPack.v ===== *)
(** Rounding and packing, on integers and for every format: the exponent may
    be out of range, the significand carries [g] guard bits. *)
From Stdlib Require Import ZArith Bool Lia Reals Lra.
From S2P Require Import Prelude Ieee Rounding.
Local Open Scope Z_scope.

Definition rp_sig (exp sig : Z) : Z := if exp <? 0 then jam sig (- exp) else sig.

Definition rp_overflow (f : format) (d : direction) (g exp sig : Z) : bool :=
  (2 ^ eb f - 3 <? exp)
  || (exp =? 2 ^ eb f - 3) && (2 ^ (mb f + g + 1) <=? sig + increment d g).

Definition rp_tiny (f : format) (d : direction) (g : Z) (before : bool) (exp sig : Z) : bool :=
  (exp <? 0) && (before || (exp <? -1) || (sig + increment d g <? 2 ^ (mb f + g + 1))).

Definition round_pack (f : format) (d : direction) (g exp sig : Z) : Z :=
  if rp_overflow f d g exp sig
  then inf_pattern f - b2z (increment d g =? 0)
  else Z.max exp 0 * 2 ^ mb f + round_sig d g (rp_sig exp sig).

Definition round_pack_flags (f : format) (d : direction) (g : Z) (before : bool) (exp sig : Z) : Z :=
  if rp_overflow f d g exp sig then 5
  else if rp_sig exp sig mod 2 ^ g =? 0 then 0
  else if rp_tiny f d g before exp sig then 3 else 1.

Lemma rint_le (d : direction) (y y' : R) (n n' : Z) :
  (0 <= y)%R -> rint d y n -> rint d y' n' -> (y <= y')%R -> n <= n'.
Proof.
  intros P H H' L. assert (n < n' + 1 \/ n' + 1 <= n) as [|C] by lia; [lia|exfalso].
  assert (IZR n' + 1 <= IZR n)%R by (rewrite <- plus_IZR; now apply IZR_le).
  destruct d; simpl in H, H'; try lra.
  destruct H as [H|[H Hev]], H' as [H'|[H' Hev']]; try (case_rabs; lra).
  assert (IZR n = IZR (n' + 1)) as E%eq_IZR by (rewrite plus_IZR; case_rabs; lra).
  subst n. rewrite Z.even_add, Hev' in Hev. discriminate.
Qed.

Lemma rint_mono_Z (d : direction) (y : R) (n k : Z) : rint d y n ->
  ((IZR k <= y)%R -> k <= n) /\ ((y <= IZR k)%R -> n <= k).
Proof.
  intros H.
  assert (A : forall a b : Z, (IZR a < IZR b + 1)%R -> a <= b).
  { intros a b K. rewrite <- plus_IZR in K. apply lt_IZR in K. lia. }
  destruct d; simpl in H; split; intros K; apply A; try lra;
    destruct H as [H|[H _]]; case_rabs; lra.
Qed.

(** The significand carries into the next binade exactly when adding the
    increment does. *)
Lemma round_sig_carry (d : direction) (g s p : Z) :
  1 <= g -> 0 < p -> p * 2 ^ g <= s < 2 * p * 2 ^ g ->
  p <= round_sig d g s <= 2 * p /\
  (2 * p * 2 ^ g <= s + increment d g <-> round_sig d g s = 2 * p).
Proof.
  intros Hg Hp Hs. rewrite (round_sig_value g s Hg d).
  destruct (quot_rem g s Hg) as [E B]. destruct (pow2_half g Hg) as [G P].
  unfold increment. rewrite G in *. set (h := 2 ^ (g - 1)) in *.
  set (q := s / (2 * h)) in *. set (r := s mod (2 * h)) in *. clearbody q r h.
  assert (p <= q <= 2 * p - 1) by nia.
  assert (C : forall i, 0 <= i < 2 * h -> (2 * p * (2 * h) <= s + i <-> q = 2 * p - 1 /\ 2 * h <= r + i)).
  { intros i Hi. split; [|nia]. intros K. assert (q = 2 * p - 1) by nia. split; [assumption|nia]. }
  assert (O : 2 * ((q + 1) / 2) = q \/ 2 * ((q + 1) / 2) = q + 1) by zdm.
  assert (O' : q = 2 * p - 1 -> 2 * ((q + 1) / 2) = q + 1) by zdm.
  destruct d; rewrite C by lia; destruct (Z.ltb_spec r h); try destruct (Z.eqb_spec r h);
    try destruct (Z.eqb_spec r 0); lia.
Qed.

Section RoundPack.
Context (f : format) {V : ValidFormat f} (d : direction) (g exp sig : Z) (y : R).
Context (Hg : 2 <= g) (Hsig : 2 ^ (mb f + g) <= sig < 2 ^ (mb f + g + 1)).
Context (S : same (2 ^ (g - 1)) sig y).
Let x := (y * pow2 (exp - g + emin f))%R.

#[local] Lemma pows : 2 ^ (mb f + g) = 2 ^ mb f * 2 ^ g /\ 2 ^ (mb f + g + 1) = 2 * 2 ^ mb f * 2 ^ g
  /\ 2 ^ g = 2 * 2 ^ (g - 1) /\ 0 < 2 ^ (g - 1) /\ 1 < 2 ^ mb f.
Proof.
  pose proof (pow_mb_pos f). destruct V. repeat split; try assumption.
  - apply Z.pow_add_r; lia.
  - replace (mb f + g + 1) with (1 + mb f + g) by lia. rewrite !Z.pow_add_r by lia. lia.
  - apply (pow2_half g). lia.
  - apply (pow2_half g). lia.
Qed.

#[local] Lemma y_bounds : (IZR (2 ^ mb f) <= y * pow2 (- g) < IZR (2 * 2 ^ mb f))%R.
Proof.
  destruct pows as (P1 & P2 & P3 & P4 & P5).
  pose proof (same_lower _ (2 * 2 ^ mb f) _ _ S ltac:(lia)) as L.
  pose proof (same_upper _ (2 * (2 * 2 ^ mb f)) _ _ S ltac:(lia)) as U.
  replace (2 * 2 ^ mb f * 2 ^ (g - 1)) with (2 ^ mb f * 2 ^ g) in L by lia.
  replace (2 * (2 * 2 ^ mb f) * 2 ^ (g - 1)) with (2 * 2 ^ mb f * 2 ^ g) in U by lia.
  rewrite mult_IZR, <- (pow2_IZR g) in L by lia. rewrite mult_IZR, <- (pow2_IZR g) in U by lia.
  pose proof (pow2_pos g). rewrite pow2_opp.
  split; [apply Rmult_le_reg_r with (pow2 g)|apply Rmult_lt_reg_r with (pow2 g)]; auto;
    rewrite Rmult_assoc, Rinv_l by lra; lra.
Qed.

#[local] Lemma x_scaled : x = (y * pow2 (- g) * pow2 (exp + emin f))%R.
Proof.
  unfold x. rewrite Rmult_assoc, <- pow2_add. do 2 f_equal. lia.
Qed.

#[local] Lemma jammed : exp < 0 -> same (2 ^ (g - 1)) (rp_sig exp sig) (y * pow2 exp).
Proof.
  intros E. unfold rp_sig. destruct (Z.ltb_spec exp 0); [|lia].
  replace exp with (- - exp) at 2 by lia.
  apply same_pow with (Z.max 1 (g - 1 - - exp)); [lia|]. apply same_jam; auto; lia.
Qed.

#[local] Lemma rint_n : rint d (x * pow2 (- (Z.max exp 0 + emin f))) (round_sig d g (rp_sig exp sig)).
Proof.
  rewrite x_scaled. unfold rp_sig. destruct (Z.ltb_spec exp 0).
  - replace (y * pow2 (- g) * pow2 (exp + emin f) * pow2 (- (Z.max exp 0 + emin f)))%R
      with (y * pow2 exp * pow2 (- g))%R.
    + apply round_sig_rint; [lia|]. pose proof (jammed H) as J. unfold rp_sig in J.
      destruct (Z.ltb_spec exp 0); [exact J|lia].
    + rewrite !Rmult_assoc, <- !pow2_add. do 2 f_equal. lia.
  - replace (y * pow2 (- g) * pow2 (exp + emin f) * pow2 (- (Z.max exp 0 + emin f)))%R with (y * pow2 (- g))%R.
    + apply round_sig_rint; [lia|assumption].
    + rewrite !Rmult_assoc, <- !pow2_add. do 2 f_equal. lia.
Qed.

#[local] Lemma scaled_bounds : let z := (x * pow2 (- (Z.max exp 0 + emin f)))%R in
  (0 <= z)%R /\ (Z.max exp 0 = 0 \/ (IZR (2 ^ mb f) <= z)%R) /\ (z < IZR (2 * 2 ^ mb f))%R /\
  x = (z * pow2 (Z.max exp 0 + emin f))%R.
Proof.
  intros z. assert (Z' : z = (y * pow2 (- g) * pow2 (exp - Z.max exp 0))%R).
  { unfold z. rewrite x_scaled, !Rmult_assoc, <- !pow2_add. do 2 f_equal. lia. }
  pose proof y_bounds as [L U]. destruct pows as (P1 & P2 & P3 & P4 & P5).
  assert (0 <= IZR (2 ^ mb f))%R by (apply IZR_le; lia).
  pose proof (pow2_pos (exp - Z.max exp 0)) as PP.
  assert (pow2 (exp - Z.max exp 0) <= 1)%R by (rewrite <- pow2_0; apply pow2_le; lia).
  repeat split.
  - rewrite Z'. apply Rmult_le_pos; lra.
  - destruct (Z.ltb_spec exp 0); [left; lia|right].
    rewrite Z'. replace (exp - Z.max exp 0) with 0 by lia. rewrite pow2_0. lra.
  - rewrite Z'. nra.
  - unfold z. rewrite Rmult_assoc, <- pow2_add. rewrite Z.add_opp_diag_l, pow2_0. ring.
Qed.

#[local] Lemma carry : 
  2 ^ mb f <= round_sig d g sig <= 2 * 2 ^ mb f /\
  (2 ^ (mb f + g + 1) <= sig + increment d g <-> round_sig d g sig = 2 * 2 ^ mb f).
Proof.
  destruct pows as (P1 & P2 & P3 & P4 & P5). rewrite P2.
  apply round_sig_carry; lia.
Qed.

#[local] Lemma increment_0 : (increment d g =? 0) = match d with TowardZero => true | _ => false end.
Proof.
  destruct pows as (P1 & P2 & P3 & P4 & P5).
  destruct d; unfold increment; [| |reflexivity|]; apply Z.eqb_neq; lia.
Qed.

#[local] Lemma eb_pow : 4 <= 2 ^ eb f.
Proof. destruct V. apply (Z.pow_le_mono_r 2 2); lia. Qed.

#[local] Lemma inf_split : inf_pattern f = (2 ^ eb f - 3) * 2 ^ mb f + 2 * 2 ^ mb f.
Proof. unfold inf_pattern. ring. Qed.

#[local] Lemma overflow_big : 2 ^ eb f - 3 < exp -> (mag f (inf_pattern f) <= x)%R.
Proof.
  intros E. pose proof eb_pow. destruct pows as (P1 & P2 & P3 & P4 & P5).
  rewrite inf_split, (mag_pack f) by lia.
  rewrite x_scaled. pose proof y_bounds as [L _].
  replace (IZR (2 * 2 ^ mb f) * pow2 (2 ^ eb f - 3 + emin f))%R
    with (IZR (2 ^ mb f) * pow2 (2 ^ eb f - 2 + emin f))%R.
  - pose proof (pow2_le (2 ^ eb f - 2 + emin f) (exp + emin f) ltac:(lia)).
    pose proof (pow2_pos (2 ^ eb f - 2 + emin f)).
    assert (0 <= IZR (2 ^ mb f))%R by (apply IZR_le; lia). nra.
  - replace (2 ^ eb f - 2 + emin f) with (1 + (2 ^ eb f - 3 + emin f)) by lia.
    rewrite mult_IZR, (pow2_add 1). change (pow2 1) with (2 * 1)%R. ring.
Qed.

#[local] Lemma in_range_small : exp <= 2 ^ eb f - 3 -> (x < mag f (inf_pattern f))%R.
Proof.
  intros E. pose proof eb_pow. destruct pows as (P1 & P2 & P3 & P4 & P5).
  rewrite inf_split, (mag_pack f) by lia. destruct scaled_bounds as (A & B & C & X). rewrite X.
  pose proof (pow2_le (Z.max exp 0 + emin f) (2 ^ eb f - 3 + emin f) ltac:(lia)).
  pose proof (pow2_pos (Z.max exp 0 + emin f)). nra.
Qed.

(** What is packed when the exponent is in range. *)
#[local] Lemma packed_rounds : exp <= 2 ^ eb f - 3 ->
  rounds_to f d x (Z.max exp 0 * 2 ^ mb f + round_sig d g (rp_sig exp sig)).
Proof.
  intros E. pose proof eb_pow. destruct scaled_bounds as (A & B & C & X).
  rewrite X at 1. apply rounds_to_pack; try assumption; [lia|]. apply rint_n.
Qed.

#[local] Lemma overflow_full : exp = 2 ^ eb f - 3 -> 2 ^ (mb f + g + 1) <= sig + increment d g ->
  d <> TowardZero /\ Z.max exp 0 * 2 ^ mb f + round_sig d g (rp_sig exp sig) = inf_pattern f.
Proof.
  intros E O. pose proof eb_pow. split.
  - intros ->. simpl in O. lia.
  - unfold rp_sig. destruct (Z.ltb_spec exp 0); [lia|]. apply carry in O. rewrite O, inf_split. nia.
Qed.

Lemma round_pack_rounds : rounds_to f d x (round_pack f d g exp sig).
Proof.
  unfold round_pack, rp_overflow. destruct (Z.ltb_spec (2 ^ eb f - 3) exp) as [E|E]; cbn [orb].
  - pose proof (rounds_to_overflow f d x (overflow_big E)) as R. rewrite increment_0.
    destruct d; cbn [b2z]; rewrite ?Z.sub_0_r; exact R.
  - pose proof (packed_rounds E) as R.
    destruct (Z.eqb_spec exp (2 ^ eb f - 3)) as [Q|Q]; [|exact R]. cbn [andb].
    destruct (Z.leb_spec (2 ^ (mb f + g + 1)) (sig + increment d g)) as [O|O]; [|exact R].
    destruct (overflow_full Q O) as [D W]. rewrite W in R. rewrite increment_0.
    destruct d; cbn [b2z]; rewrite ?Z.sub_0_r; congruence || exact R.
Qed.

#[local] Lemma packed_finite : exp <= 2 ^ eb f - 3 ->
  exp <> 2 ^ eb f - 3 \/ sig + increment d g < 2 ^ (mb f + g + 1) ->
  0 <= Z.max exp 0 * 2 ^ mb f + round_sig d g (rp_sig exp sig) < inf_pattern f.
Proof.
  intros E C. pose proof eb_pow. destruct pows as (P1 & P2 & P3 & P4 & P5).
  destruct scaled_bounds as (A & B & C' & X). pose proof rint_n as N.
  apply rint_mono_Z with (k := 2 * 2 ^ mb f) in N as N2. destruct N2 as [_ N2]. specialize (N2 ltac:(lra)).
  apply rint_mono_Z with (k := 0) in N as N1. destruct N1 as [N1 _]. specialize (N1 ltac:(lra)).
  rewrite inf_split. split; [nia|].
  destruct (Z.eq_dec exp (2 ^ eb f - 3)) as [Q|Q].
  - assert (round_sig d g (rp_sig exp sig) <> 2 * 2 ^ mb f); [|nia].
    unfold rp_sig. destruct (Z.ltb_spec exp 0); [lia|]. intros K. apply carry in K. lia.
  - assert (Z.max exp 0 <= 2 ^ eb f - 4 \/ Z.max exp 0 = 0 /\ exp < 0) as [M|[M M']] by lia; [nia|].
    rewrite M. assert (round_sig d g (rp_sig exp sig) < 2 * 2 ^ mb f); [|nia].
    assert (rint d (x * pow2 (- (Z.max exp 0 + emin f))) (round_sig d g (rp_sig exp sig))) as N' by exact N.
    apply rint_mono_Z with (k := 2 ^ mb f) in N'. destruct N' as [_ N'].
    enough (x * pow2 (- (Z.max exp 0 + emin f)) <= IZR (2 ^ mb f))%R as K by (specialize (N' K); lia).
    replace (x * pow2 (- (Z.max exp 0 + emin f)))%R with (y * pow2 (- g) * pow2 exp)%R.
    + pose proof y_bounds as [Y1 Y2]. rewrite mult_IZR in Y2.
      pose proof (pow2_le exp (-1) ltac:(lia)) as PL. rewrite pow2_m1 in PL.
      pose proof (pow2_pos exp). nra.
    + rewrite x_scaled, !Rmult_assoc, <- !pow2_add. do 2 f_equal. lia.
Qed.

#[local] Lemma mag_packed : exp <= 2 ^ eb f - 3 ->
  (mag f (Z.max exp 0 * 2 ^ mb f + round_sig d g (rp_sig exp sig)) = x <-> rp_sig exp sig mod 2 ^ g = 0).
Proof.
  intros E. destruct scaled_bounds as (A & B & C' & X). pose proof rint_n as N.
  apply rint_mono_Z with (k := 2 * 2 ^ mb f) in N as N2. destruct N2 as [_ N2]. specialize (N2 ltac:(lra)).
  apply rint_mono_Z with (k := 0) in N as N1. destruct N1 as [N1 _]. specialize (N1 ltac:(lra)).
  rewrite (mag_pack f); [| |lia|]; cycle 1.
  { lia. }
  { destruct B as [B|B]; [now left|right].
    apply rint_mono_Z with (k := 2 ^ mb f) in N as N3. now apply N3. }
  set (z := (y * pow2 (Z.min exp 0))%R).
  assert (J : same (2 ^ (g - 1)) (rp_sig exp sig) z).
  { unfold z. destruct (Z.ltb_spec exp 0).
    - replace (Z.min exp 0) with exp by lia. now apply jammed.
    - replace (Z.min exp 0) with 0 by lia. rewrite pow2_0, Rmult_1_r.
      unfold rp_sig. destruct (Z.ltb_spec exp 0); [lia|assumption]. }
  rewrite <- (round_sig_exact g (rp_sig exp sig) ltac:(lia) d z J).
  assert (Z' : x = (z * pow2 (- g) * pow2 (Z.max exp 0 + emin f))%R).
  { unfold z. rewrite x_scaled, !Rmult_assoc, <- !pow2_add. do 2 f_equal. lia. }
  rewrite Z'. pose proof (pow2_pos (Z.max exp 0 + emin f)).
  split; intros K; [apply Rmult_eq_reg_r with (pow2 (Z.max exp 0 + emin f)); lra|now rewrite K].
Qed.

#[local] Lemma tiny_scaled : (x * pow2 (1 - emin f) = y * pow2 (exp + 1) * pow2 (- g))%R.
Proof. unfold x. rewrite !Rmult_assoc, <- !pow2_add. do 2 f_equal. lia. Qed.

#[local] Lemma tiny_rint : exp < 0 -> rint d (x * pow2 (1 - emin f)) (round_sig d g (rp_sig (exp + 1) sig)).
Proof.
  intros E. rewrite tiny_scaled. apply round_sig_rint; [lia|].
  unfold rp_sig. destruct (Z.ltb_spec (exp + 1) 0).
  - replace (exp + 1) with (- - (exp + 1)) at 2 by lia.
    apply same_pow with (Z.max 1 (g - 1 - - (exp + 1))); [lia|]. apply same_jam; auto; lia.
  - replace (exp + 1) with 0 by lia. now rewrite pow2_0, Rmult_1_r.
Qed.

#[local] Lemma tiny_bounds :
  (exp < -1 -> (x * pow2 (1 - emin f) <= IZR (2 ^ mb f))%R) /\
  (0 <= exp -> (IZR (2 * 2 ^ mb f) <= x * pow2 (1 - emin f))%R).
Proof.
  replace (x * pow2 (1 - emin f))%R with (y * pow2 (- g) * pow2 (exp + 1))%R
    by (rewrite tiny_scaled; ring).
  pose proof y_bounds as [L U]. destruct pows as (P1 & P2 & P3 & P4 & P5).
  assert (0 <= IZR (2 ^ mb f))%R by (apply IZR_le; lia). rewrite mult_IZR in *.
  pose proof (pow2_pos (exp + 1)). split; intros E.
  - pose proof (pow2_le (exp + 1) (-1) ltac:(lia)) as PL. rewrite pow2_m1 in PL. nra.
  - pose proof (pow2_le 1 (exp + 1) ltac:(lia)) as PL. rewrite pow2_1 in PL. nra.
Qed.

Lemma rp_tiny_spec (before : bool) : rp_tiny f d g before exp sig = true <-> tiny f d before x.
Proof.
  destruct pows as (P1 & P2 & P3 & P4 & P5). pose proof tiny_bounds as [T1 T2].
  unfold rp_tiny, tiny. destruct before; cbn [orb andb].
  - rewrite andb_true_r, Z.ltb_lt.
    replace (mag f (2 ^ mb f)) with (IZR (2 ^ mb f) * pow2 (emin f))%R
      by (pose proof (mag_pack f 0 (2 ^ mb f) ltac:(lia) ltac:(lia) ltac:(lia)) as M; simpl in M; now rewrite M).
    assert (X : (x = y * pow2 (- g) * pow2 exp * pow2 (emin f))%R)
      by (rewrite x_scaled, pow2_add; ring).
    pose proof y_bounds as [L U]. rewrite mult_IZR in U.
    assert (0 < IZR (2 ^ mb f))%R by (apply IZR_lt; lia). pose proof (pow2_pos (emin f)).
    rewrite X. split; intros K.
    + apply Rmult_lt_compat_r; [assumption|].
      pose proof (pow2_le exp (-1) ltac:(lia)) as PL. rewrite pow2_m1 in PL. pose proof (pow2_pos exp). nra.
    + apply Rmult_lt_reg_r in K; [|assumption]. apply Z.nle_gt. intros E.
      pose proof (pow2_le 0 exp E) as PL. rewrite pow2_0 in PL. nra.
  - rewrite andb_true_iff, orb_true_iff, !Z.ltb_lt. split.
    + intros [E C]. exists (round_sig d g (rp_sig (exp + 1) sig)). split; [now apply tiny_rint|].
      pose proof (tiny_rint E) as N. destruct (Z.eq_dec exp (-1)) as [Q|Q].
      * unfold rp_sig. destruct (Z.ltb_spec (exp + 1) 0); [lia|]. pose proof carry as [B K].
        assert (round_sig d g sig <> 2 * 2 ^ mb f) by (intros W; apply K in W; lia). lia.
      * apply rint_mono_Z with (k := 2 ^ mb f) in N. specialize (T1 ltac:(lia)). apply N in T1. lia.
    + intros (n & N & Hn). destruct (Z.lt_ge_cases exp 0) as [E|E].
      * split; [assumption|]. destruct (Z.eq_dec exp (-1)) as [Q|Q]; [right|left; lia].
        pose proof (tiny_rint E) as N'. unfold rp_sig in N'. destruct (Z.ltb_spec (exp + 1) 0); [lia|].
        assert (0 <= x * pow2 (1 - emin f))%R.
        { rewrite x_scaled. pose proof y_bounds as [L U]. assert (0 <= IZR (2 ^ mb f))%R by (apply IZR_le; lia).
          pose proof (pow2_pos (exp + emin f)). pose proof (pow2_pos (1 - emin f)).
          apply Rmult_le_pos; [apply Rmult_le_pos|]; lra. }
        assert (round_sig d g sig <= n) by (eapply rint_le with (d := d); eauto using Rle_refl).
        apply Z.nle_gt. intros K. apply carry in K. lia.
      * apply rint_mono_Z with (k := 2 * 2 ^ mb f) in N. apply N in T2; lia.
Qed.

Lemma round_pack_raises (before : bool) :
  raises f d before x (round_pack f d g exp sig) (round_pack_flags f d g before exp sig).
Proof.
  unfold round_pack, round_pack_flags. destruct (rp_overflow f d g exp sig) eqn:O.
  - assert (I : ~ (inf_pattern f - b2z (increment d g =? 0) < inf_pattern f /\
                   mag f (inf_pattern f - b2z (increment d g =? 0)) = x)).
    { rewrite increment_0. intros [A B]. destruct d; cbn [b2z] in A; try lia. cbn [b2z] in B.
      pose proof (inf_pattern_pos f). pose proof (mag_lt f (inf_pattern f - 1) (inf_pattern f) ltac:(lia)).
      unfold rp_overflow, increment in O.
      assert (2 ^ eb f - 3 < exp) as E by lia. apply overflow_big in E. lra. }
    assert (W : inf_pattern f - b2z (increment d g =? 0) = inf_pattern f \/ (mag f (inf_pattern f) <= x)%R).
    { unfold rp_overflow in O. destruct (Z.ltb_spec (2 ^ eb f - 3) exp) as [E|E]; [right; now apply overflow_big|].
      cbn [orb] in O. apply andb_true_iff in O as [O1 O2]. apply Z.eqb_eq in O1. apply Z.leb_le in O2.
      destruct (overflow_full O1 O2) as [D _]. left. rewrite increment_0. destruct d; cbn [b2z]; congruence || lia. }
    constructor; try (split; tauto || (intros; reflexivity)); try (simpl; lia).
    split; [discriminate|]. intros [T _]. apply rp_tiny_spec in T. unfold rp_tiny, rp_overflow in T, O.
    pose proof eb_pow. lia.
  - assert (E : exp <= 2 ^ eb f - 3) by (unfold rp_overflow in O; lia).
    assert (F : 0 <= Z.max exp 0 * 2 ^ mb f + round_sig d g (rp_sig exp sig) < inf_pattern f)
      by (apply packed_finite; unfold rp_overflow in O; lia).
    set (b := Z.max exp 0 * 2 ^ mb f + round_sig d g (rp_sig exp sig)) in *.
    pose proof (mag_packed E) as M. fold b in M.
    assert (Ovf : ~ (b = inf_pattern f \/ (mag f (inf_pattern f) <= x)%R)).
    { intros [K|K]; [lia|]. pose proof (in_range_small E). lra. }
    pose proof (rp_tiny_spec before) as T.
    destruct (Z.eqb_spec (rp_sig exp sig mod 2 ^ g) 0) as [Q|Q]; [|destruct (rp_tiny f d g before exp sig)];
      constructor; try lia; split; try discriminate; try tauto; try (intros; reflexivity).
Qed.
End RoundPack.
