(* ===== verification/Softfloat.v ===== *)
(** The thread-local state of the SoftFloat library and the monad its
    operations run in. *)
From Stdlib Require Import ZArith Bool Lia.
From S2P Require Import Prelude Ieee.
Local Open Scope Z_scope.
Local Open Scope c_scope.

Definition softfloat_tininess_beforeRounding : Z := 0.
Definition softfloat_tininess_afterRounding : Z := 1.

Definition softfloat_round_near_even : Z := 0.
Definition softfloat_round_minMag : Z := 1.
Definition softfloat_round_min : Z := 2.
Definition softfloat_round_max : Z := 3.
Definition softfloat_round_near_maxMag : Z := 4.

Definition softfloat_flag_inexact : Z := 1.
Definition softfloat_flag_underflow : Z := 2.
Definition softfloat_flag_overflow : Z := 4.
Definition softfloat_flag_infinite : Z := 8.
Definition softfloat_flag_invalid : Z := 16.

(** The global variables of [softfloat_state.c]. *)
Record env := mkEnv {
  softfloat_roundingMode : Z;
  softfloat_detectTininess : Z;
  softfloat_exceptionFlags : Z;
  extF80_roundingPrecision : Z
}.

Definition initial_env : env := {|
  softfloat_roundingMode := softfloat_round_near_even;
  softfloat_detectTininess := softfloat_tininess_afterRounding;
  softfloat_exceptionFlags := 0;
  extF80_roundingPrecision := 80
|}.

Definition M (A : Type) : Type := env -> A * env.
Definition ret {A : Type} (a : A) : M A := fun s => (a, s).
Definition bind {A B : Type} (m : M A) (k : A -> M B) : M B := fun s => let (a, s') := m s in k a s'.
Definition get : M env := fun s => (s, s).

Declare Scope M_scope.
Delimit Scope M_scope with M.
Notation "x <- m ;; k" := (bind m (fun x => k)) (at level 61, m at next level, right associativity) : M_scope.
Notation "m ;;; k" := (bind m (fun _ => k)) (at level 61, right associativity) : M_scope.
Local Open Scope M_scope.

Definition raised_env (flags : Z) (s : env) : env := {|
  softfloat_roundingMode := softfloat_roundingMode s;
  softfloat_detectTininess := softfloat_detectTininess s;
  softfloat_exceptionFlags := softfloat_exceptionFlags s .| flags;
  extF80_roundingPrecision := extF80_roundingPrecision s
|}.

Definition softfloat_raiseFlags (flags : Z) : M unit := fun s => (tt, raised_env flags s).

(** [if ( c ) statement] *)
Definition when (c : bool) (m : M unit) : M unit := if c then m else ret tt.

(** What a rounding mode means for a magnitude of the given sign.  A mode
    that is none of the five acts as [minMag], as in the code. *)
Definition mag_direction (mode : Z) (sign : bool) : direction :=
  if mode =? softfloat_round_near_even then NearestEven
  else if mode =? softfloat_round_near_maxMag then NearestAway
  else if mode =? (if sign then softfloat_round_min else softfloat_round_max) then AwayFromZero
  else TowardZero.

Definition env_direction (s : env) (sign : bool) : direction := mag_direction (softfloat_roundingMode s) sign.
Definition env_before (s : env) : bool := softfloat_detectTininess s =? softfloat_tininess_beforeRounding.

(** The five rounding modes the library defines. *)
Definition valid_mode (s : env) : Prop := 0 <= softfloat_roundingMode s <= 4.

Lemma raised_env_0 (s : env) : raised_env 0 s = s.
Proof. destruct s. unfold raised_env. simpl. now rewrite Z.lor_0_r. Qed.

Lemma raised_env_lor (a b : Z) (s : env) : raised_env b (raised_env a s) = raised_env (a .| b) s.
Proof. unfold raised_env. simpl. now rewrite Z.lor_assoc. Qed.

Lemma when_raise (c : bool) (flags : Z) (s : env) :
  when c (softfloat_raiseFlags flags) s = (tt, raised_env (if c then flags else 0) s).
Proof. destruct c; [reflexivity|]. now rewrite raised_env_0. Qed.

(** Raising flags never changes the modes. *)
Lemma raised_env_direction (flags : Z) (s : env) (sign : bool) :
  env_direction (raised_env flags s) sign = env_direction s sign.
Proof. reflexivity. Qed.
