(* ===== verification/Primitives.v ===== *)
(** The integer primitives of SoftFloat ([s_*.c], [primitives.h]). *)
From Stdlib Require Import ZArith Bool Lia List.
From S2P Require Import Prelude.
Import ListNotations.
Local Open Scope Z_scope.
Local Open Scope c_scope.

Definition softfloat_shortShiftRightJam64 (a dist : Z) : Z :=
  (a >> dist) .| b2z (z2b (a .& u64 (u64 (1 << dist) - 1))).

Definition softfloat_shiftRightJam32 (a dist : Z) : Z :=
  if dist <? 31 then (a >> dist) .| b2z (z2b (u32 (a << (u64 (- dist) .& 31)))) else b2z (z2b a).

Definition softfloat_shiftRightJam64 (a dist : Z) : Z :=
  if dist <? 63 then (a >> dist) .| b2z (z2b (u64 (a << (u64 (- dist) .& 63)))) else b2z (z2b a).

Record uint64_extra := { ue_v : Z; ue_extra : Z }.

Definition softfloat_shiftRightJam64Extra (a extra dist : Z) : uint64_extra :=
  let '(v, e) :=
    if dist <? 64 then (a >> dist, u64 (a << (u64 (- dist) .& 63)))
    else (0, if dist =? 64 then a else b2z (z2b a)) in
  {| ue_v := v; ue_extra := e .| b2z (z2b extra) |}.

Definition softfloat_countLeadingZeros8 : list Z := [
  8; 7; 6; 6; 5; 5; 5; 5; 4; 4; 4; 4; 4; 4; 4; 4;
  3; 3; 3; 3; 3; 3; 3; 3; 3; 3; 3; 3; 3; 3; 3; 3;
  2; 2; 2; 2; 2; 2; 2; 2; 2; 2; 2; 2; 2; 2; 2; 2;
  2; 2; 2; 2; 2; 2; 2; 2; 2; 2; 2; 2; 2; 2; 2; 2;
  1; 1; 1; 1; 1; 1; 1; 1; 1; 1; 1; 1; 1; 1; 1; 1;
  1; 1; 1; 1; 1; 1; 1; 1; 1; 1; 1; 1; 1; 1; 1; 1;
  1; 1; 1; 1; 1; 1; 1; 1; 1; 1; 1; 1; 1; 1; 1; 1;
  1; 1; 1; 1; 1; 1; 1; 1; 1; 1; 1; 1; 1; 1; 1; 1;
  0; 0; 0; 0; 0; 0; 0; 0; 0; 0; 0; 0; 0; 0; 0; 0;
  0; 0; 0; 0; 0; 0; 0; 0; 0; 0; 0; 0; 0; 0; 0; 0;
  0; 0; 0; 0; 0; 0; 0; 0; 0; 0; 0; 0; 0; 0; 0; 0;
  0; 0; 0; 0; 0; 0; 0; 0; 0; 0; 0; 0; 0; 0; 0; 0;
  0; 0; 0; 0; 0; 0; 0; 0; 0; 0; 0; 0; 0; 0; 0; 0;
  0; 0; 0; 0; 0; 0; 0; 0; 0; 0; 0; 0; 0; 0; 0; 0;
  0; 0; 0; 0; 0; 0; 0; 0; 0; 0; 0; 0; 0; 0; 0; 0;
  0; 0; 0; 0; 0; 0; 0; 0; 0; 0; 0; 0; 0; 0; 0; 0
].
Definition clz8 (a : Z) : Z := nth (Z.to_nat a) softfloat_countLeadingZeros8 0.

Definition softfloat_countLeadingZeros16 (a : Z) : Z :=
  let count := 8 in
  let '(count, a) := if 0x100 <=? a then (0, a >> 8) else (count, a) in
  u8 (count + clz8 a).

Definition softfloat_countLeadingZeros32 (a : Z) : Z :=
  let count := 0 in
  let '(count, a) := if a <? 0x10000 then (16, u32 (a << 16)) else (count, a) in
  let '(count, a) := if a <? 0x1000000 then (u8 (count + 8), u32 (a << 8)) else (count, a) in
  u8 (count + clz8 (a >> 24)).

Definition softfloat_countLeadingZeros64 (a : Z) : Z :=
  let count := 0 in
  let a32 := u32 (a >> 32) in
  let '(count, a32) := if negb (z2b a32) then (32, u32 a) else (count, a32) in
  let '(count, a32) := if a32 <? 0x10000 then (u8 (count + 16), u32 (a32 << 16)) else (count, a32) in
  let '(count, a32) := if a32 <? 0x1000000 then (u8 (count + 8), u32 (a32 << 8)) else (count, a32) in
  u8 (count + clz8 (a32 >> 24)).

Record uint128 := { v64 : Z; v0 : Z }.

Definition softfloat_mul64To128 (a b : Z) : uint128 :=
  let a32 := u32 (a >> 32) in
  let a0 := u32 a in
  let b32 := u32 (b >> 32) in
  let b0 := u32 b in
  let zv0 := u64 (a0 * b0) in
  let mid1 := u64 (a32 * b0) in
  let mid := u64 (mid1 + u64 (a0 * b32)) in
  let zv64 := u64 (a32 * b32) in
  let zv64 := u64 (zv64 + (u64 (b2z (mid <? mid1) << 32) .| (mid >> 32))) in
  let mid := u64 (mid << 32) in
  let zv0 := u64 (zv0 + mid) in
  let zv64 := u64 (zv64 + b2z (zv0 <? mid)) in
  {| v64 := zv64; v0 := zv0 |}.

(** [softfloat_approxRecip32_1] is a division in this configuration. *)
Definition softfloat_approxRecip32_1 (a : Z) : Z := u32 (0x7FFFFFFFFFFFFFFF / u32 a).

(** ** Jamming shifts *)
Lemma z2b_eqb (x : Z) : z2b x = negb (x =? 0).
Proof. reflexivity. Qed.

(** The bits shifted out are not all zero. *)
Lemma shl_wrap_zero (w a d : Z) : 0 < d < w -> 0 <= a < 2 ^ w ->
  (uwrap w (a << (w - d)) =? 0) = (a mod 2 ^ d =? 0).
Proof.
  intros Hd Ha. unfold uwrap. rewrite shl_mul by lia.
  replace (2 ^ w) with (2 ^ d * 2 ^ (w - d)) by (rewrite <- Z.pow_add_r by lia; f_equal; lia).
  assert (0 < 2 ^ d) by (apply Z.pow_pos_nonneg; lia).
  assert (0 < 2 ^ (w - d)) by (apply Z.pow_pos_nonneg; lia).
  rewrite Z.mul_mod_distr_r by lia.
  destruct (Z.eqb_spec (a mod 2 ^ d) 0) as [->|N]; [reflexivity|]. apply Z.eqb_neq. nia.
Qed.

Lemma neg_dist (k d : Z) : (k = 31 \/ k = 63) -> 0 < d <= k -> u64 (- d) .& k = k + 1 - d.
Proof.
  intros Hk Hd. unfold uwrap.
  replace (- d) with (2 ^ 64 - d + (-1) * 2 ^ 64) by lia. rewrite Z.mod_add by lia.
  rewrite Z.mod_small by lia.
  destruct Hk as [-> | ->]; [rewrite (land_low _ 31 5) by (reflexivity || lia)|rewrite (land_low _ 63 6) by (reflexivity || lia)].
  - replace (2 ^ 64 - d) with (32 - d + (2 ^ 59 - 1) * 2 ^ 5) by lia. rewrite Z.mod_add by lia. apply Z.mod_small. lia.
  - replace (2 ^ 64 - d) with (64 - d + (2 ^ 58 - 1) * 2 ^ 6) by lia. rewrite Z.mod_add by lia. apply Z.mod_small. lia.
Qed.

(** Past the top bit, jamming only tells whether the number was zero. *)
Lemma jam_all (w a d : Z) : 0 < w -> w - 1 <= d -> 0 <= a < 2 ^ w -> jam a d = b2z (z2b a).
Proof.
  intros Hw Hd Ha. unfold jam, z2b. rewrite shr_div by lia.
  assert (P : 2 ^ w = 2 * 2 ^ (w - 1)) by (rewrite <- Z.pow_succ_r by lia; f_equal; lia).
  assert (L : 2 ^ (w - 1) <= 2 ^ d) by (apply Z.pow_le_mono_r; lia).
  assert (0 < 2 ^ (w - 1)) by (apply Z.pow_pos_nonneg; lia).
  destruct (Z.lt_ge_cases a (2 ^ d)).
  - rewrite Z.div_small, Z.mod_small by lia. destruct (a =? 0); reflexivity.
  - assert (a / 2 ^ d = 1) as -> by (symmetry; apply Z.div_unique with (a - 2 ^ d); lia).
    destruct (Z.eqb_spec a 0); [lia|]. destruct (a mod 2 ^ d =? 0); reflexivity.
Qed.

Lemma softfloat_shiftRightJam32_jam (a dist : Z) :
  0 <= a < 2 ^ 32 -> 0 < dist -> softfloat_shiftRightJam32 a dist = jam a dist.
Proof.
  intros Ha Hd. unfold softfloat_shiftRightJam32. destruct (Z.ltb_spec dist 31).
  - unfold jam, z2b. rewrite neg_dist, shl_wrap_zero by lia. reflexivity.
  - symmetry. apply (jam_all 32); lia.
Qed.

Lemma softfloat_shiftRightJam64_jam (a dist : Z) :
  0 <= a < 2 ^ 64 -> 0 < dist -> softfloat_shiftRightJam64 a dist = jam a dist.
Proof.
  intros Ha Hd. unfold softfloat_shiftRightJam64. destruct (Z.ltb_spec dist 63).
  - unfold jam, z2b. rewrite neg_dist, shl_wrap_zero by lia. reflexivity.
  - symmetry. apply (jam_all 64); lia.
Qed.

Lemma softfloat_shortShiftRightJam64_jam (a dist : Z) :
  0 <= a < 2 ^ 64 -> 0 <= dist < 64 -> softfloat_shortShiftRightJam64 a dist = jam a dist.
Proof.
  intros Ha Hd. unfold softfloat_shortShiftRightJam64, jam, z2b.
  rewrite shl_mul, Z.mul_1_l by lia.
  assert (0 < 2 ^ dist <= 2 ^ 63) by (split; [apply Z.pow_pos_nonneg|apply Z.pow_le_mono_r]; lia).
  rewrite (uwrap_small 64 (2 ^ dist)), uwrap_small by lia.
  rewrite (land_low a (2 ^ dist - 1) dist); [reflexivity|lia|].
  rewrite Z.ones_equiv. lia.
Qed.

(** ** Leading zeros *)
Definition nlz (w a : Z) : Z := w - 1 - Z.log2 a.

Lemma clz8_spec (a : Z) : 0 < a < 256 -> clz8 a = nlz 8 a.
Proof.
  intros H.
  assert (A : forallb (fun n => clz8 (Z.of_nat (S n)) =? nlz 8 (Z.of_nat (S n))) (seq 0 255) = true) by (vm_compute; reflexivity).
  rewrite forallb_forall in A. specialize (A (Z.to_nat a - 1)%nat).
  replace (Z.of_nat (S (Z.to_nat a - 1))) with a in A by lia.
  apply Z.eqb_eq, A. apply in_seq. lia.
Qed.

Lemma nlz_shl (w a d : Z) : 0 < a -> 0 <= d -> nlz w a = nlz w (a * 2 ^ d) + d.
Proof. intros. unfold nlz. rewrite Z.log2_mul_pow2 by lia. lia. Qed.

Lemma log2_bounds (a n : Z) : 0 < a -> 0 <= n -> (a < 2 ^ n <-> Z.log2 a < n).
Proof. intros. apply Z.log2_lt_pow2; lia. Qed.

Lemma clz_top (a : Z) : 2 ^ 24 <= a < 2 ^ 32 -> clz8 (a >> 24) = nlz 32 a.
Proof.
  intros H. rewrite clz8_spec.
  - unfold nlz. rewrite Z.log2_shiftr by lia.
    pose proof (proj1 (Z.log2_le_pow2 a 24 ltac:(lia)) ltac:(lia)). lia.
  - rewrite shr_div by lia. zdm.
Qed.

Lemma clz_steps (c a : Z) : 0 <= c <= 32 -> 0 < a < 2 ^ 32 ->
  (let '(count, a) := if a <? 0x10000 then (u8 (c + 16), u32 (a << 16)) else (c, a) in
   let '(count, a) := if a <? 0x1000000 then (u8 (count + 8), u32 (a << 8)) else (count, a) in
   u8 (count + clz8 (a >> 24))) = c + nlz 32 a.
Proof.
  intros Hc Ha.
  assert (N : forall b, 0 < b < 2 ^ 32 -> 0 <= nlz 32 b < 32).
  { intros b Hb. unfold nlz. pose proof (Z.log2_nonneg b). pose proof (proj1 (log2_bounds b 32 ltac:(lia) ltac:(lia)) ltac:(lia)). lia. }
  assert (T : forall k b, 0 <= k <= 56 -> 2 ^ 24 <= b < 2 ^ 32 -> u8 (k + clz8 (b >> 24)) = k + nlz 32 b).
  { intros k b Hk Hb. rewrite clz_top by lia. apply uwrap_small. specialize (N b ltac:(lia)). lia. }
  assert (S : forall k b, 0 <= k <= 48 -> 2 ^ 16 <= b < 2 ^ 32 ->
    (let '(count, b) := if b <? 0x1000000 then (u8 (k + 8), u32 (b << 8)) else (k, b) in
     u8 (count + clz8 (b >> 24))) = k + nlz 32 b).
  { intros k b Hk Hb. destruct (Z.ltb_spec b 0x1000000).
    - rewrite (uwrap_small 8 (k + 8)), shl_mul, (uwrap_small 32 (b * _)) by lia.
      rewrite T by lia. rewrite (nlz_shl 32 b 8) by lia. lia.
    - apply T; lia. }
  destruct (Z.ltb_spec a 0x10000).
  - rewrite (uwrap_small 8 (c + 16)), shl_mul, (uwrap_small 32 (a * _)) by lia.
    specialize (N a Ha). rewrite (nlz_shl 32 a 16) by lia.
    destruct (Z.lt_ge_cases (a * 2 ^ 16) (2 ^ 24)) as [L|L].
    + destruct (Z.ltb_spec (a * 2 ^ 16) 0x1000000); [|lia].
      rewrite (uwrap_small 8 (c + 16 + 8)), shl_mul, (uwrap_small 32 (a * 2 ^ 16 * _)) by lia.
      rewrite T by lia. rewrite (nlz_shl 32 (a * 2 ^ 16) 8) by lia. lia.
    + destruct (Z.ltb_spec (a * 2 ^ 16) 0x1000000); [lia|]. rewrite T by lia. lia.
  - apply S; lia.
Qed.

Lemma softfloat_countLeadingZeros32_spec (a : Z) :
  0 < a < 2 ^ 32 -> softfloat_countLeadingZeros32 a = nlz 32 a.
Proof.
  intros Ha. pose proof (clz_steps 0 a ltac:(lia) Ha) as E. exact E.
Qed.

Lemma softfloat_countLeadingZeros64_spec (a : Z) :
  0 < a < 2 ^ 64 -> softfloat_countLeadingZeros64 a = nlz 64 a.
Proof.
  intros Ha. unfold softfloat_countLeadingZeros64. rewrite shr_div by lia.
  rewrite (uwrap_small 32 (a / 2 ^ 32)) by zdm. unfold z2b. rewrite negb_involutive.
  destruct (Z.eqb_spec (a / 2 ^ 32) 0) as [E|E].
  - assert (a < 2 ^ 32) by zdm. rewrite (uwrap_small 32 a) by lia.
    pose proof (clz_steps 32 a ltac:(lia) ltac:(lia)) as H'. rewrite H'. unfold nlz. lia.
  - pose proof (clz_steps 0 (a / 2 ^ 32) ltac:(lia) ltac:(zdm)) as H'. rewrite H'.
    unfold nlz. rewrite <- shr_div, Z.log2_shiftr by lia.
    assert (32 <= Z.log2 a) by (apply Z.log2_le_pow2; zdm). lia.
Qed.

Lemma softfloat_countLeadingZeros16_spec (a : Z) :
  0 < a < 2 ^ 16 -> softfloat_countLeadingZeros16 a = nlz 16 a.
Proof.
  intros Ha. unfold softfloat_countLeadingZeros16.
  assert (N : forall b, 0 < b < 2 ^ 8 -> 0 <= nlz 8 b < 8).
  { intros b Hb. unfold nlz. pose proof (Z.log2_nonneg b). pose proof (proj1 (log2_bounds b 8 ltac:(lia) ltac:(lia)) ltac:(lia)). lia. }
  destruct (Z.leb_spec 0x100 a).
  - rewrite shr_div by lia. assert (B : 0 < a / 2 ^ 8 < 2 ^ 8) by zdm.
    rewrite clz8_spec, uwrap_small by (specialize (N _ B); lia || zdm).
    unfold nlz. rewrite <- shr_div, Z.log2_shiftr by lia. assert (8 <= Z.log2 a) by (apply Z.log2_le_pow2; lia). lia.
  - specialize (N a ltac:(lia)). rewrite clz8_spec, uwrap_small by (rewrite ?clz8_spec by lia; lia). unfold nlz. lia.
Qed.

(** ** The product of two 64-bit words *)
Lemma softfloat_mul64To128_spec (a b : Z) : 0 <= a < 2 ^ 64 -> 0 <= b < 2 ^ 64 ->
  v64 (softfloat_mul64To128 a b) * 2 ^ 64 + v0 (softfloat_mul64To128 a b) = a * b
  /\ 0 <= v0 (softfloat_mul64To128 a b) < 2 ^ 64 /\ 0 <= v64 (softfloat_mul64To128 a b) < 2 ^ 64.
Proof.
  intros Ha Hb. unfold softfloat_mul64To128. rewrite !(shr_div _ 32), !(shl_mul _ 32) by lia.
  rewrite (uwrap_small 32 (a / 2 ^ 32)), (uwrap_small 32 (b / 2 ^ 32)) by zdm.
  pose proof (Z.div_mod a (2 ^ 32) ltac:(lia)) as Ea. pose proof (Z.mod_pos_bound a (2 ^ 32) ltac:(lia)) as Ba.
  pose proof (Z.div_mod b (2 ^ 32) ltac:(lia)) as Eb. pose proof (Z.mod_pos_bound b (2 ^ 32) ltac:(lia)) as Bb.
  change (u32 a) with (a mod 2 ^ 32). change (u32 b) with (b mod 2 ^ 32).
  set (ah := a / 2 ^ 32) in *. set (al := a mod 2 ^ 32) in *. set (bh := b / 2 ^ 32) in *. set (bl := b mod 2 ^ 32) in *.
  assert (Bh : 0 <= ah < 2 ^ 32 /\ 0 <= bh < 2 ^ 32) by lia.
  clearbody ah al bh bl. cbn [v64 v0].
  assert (P : forall x y, 0 <= x < 2 ^ 32 -> 0 <= y < 2 ^ 32 -> 0 <= x * y <= (2 ^ 32 - 1) * (2 ^ 32 - 1)) by (intros; nia).
  assert (E : a * b = ah * bh * 2 ^ 64 + (ah * bl + al * bh) * 2 ^ 32 + al * bl) by (subst a b; ring).
  rewrite E. pose proof (P al bl). pose proof (P ah bl). pose proof (P al bh). pose proof (P ah bh). clear P E Ea Eb Ha Hb.
  set (ll := al * bl) in *. set (hl := ah * bl) in *. set (lh := al * bh) in *. set (hh := ah * bh) in *. clearbody ll hl lh hh.
  rewrite !(uwrap_small 64 ll), !(uwrap_small 64 hl), !(uwrap_small 64 lh), !(uwrap_small 64 hh) by lia.
  unfold uwrap. set (mid := (hl + lh) mod 2 ^ 64).
  assert (M : mid = hl + lh /\ (mid <? hl) = false \/ mid = hl + lh - 2 ^ 64 /\ (mid <? hl) = true).
  { unfold mid. assert (hl + lh < 2 ^ 64 \/ 2 ^ 64 <= hl + lh) as [C|C] by lia.
    - left. rewrite Z.mod_small by lia. split; [reflexivity|]. apply Z.ltb_ge. lia.
    - right. replace ((hl + lh) mod 2 ^ 64) with (hl + lh - 2 ^ 64) by (apply Z.mod_unique with 1; lia).
      split; [reflexivity|]. apply Z.ltb_lt. lia. }
  assert (B : 0 <= mid < 2 ^ 64) by (apply Z.mod_pos_bound; lia). clearbody mid.
  rewrite (Z.mod_small (b2z _ * _)) by (destruct (mid <? hl); simpl b2z; lia).
  rewrite lor_disjoint by zdm.
  set (s := (ll + (mid * 2 ^ 32) mod 2 ^ 64) mod 2 ^ 64).
  assert (C : s = ll + mid mod 2 ^ 32 * 2 ^ 32 /\ (s <? (mid * 2 ^ 32) mod 2 ^ 64) = false \/
              s = ll + mid mod 2 ^ 32 * 2 ^ 32 - 2 ^ 64 /\ (s <? (mid * 2 ^ 32) mod 2 ^ 64) = true).
  { unfold s. replace (mid * 2 ^ 32 mod 2 ^ 64) with (mid mod 2 ^ 32 * 2 ^ 32)
      by (change (2 ^ 64) with (2 ^ 32 * 2 ^ 32); symmetry; apply Z.mul_mod_distr_r; lia).
    pose proof (Z.mod_pos_bound mid (2 ^ 32) ltac:(lia)).
    set (m := mid mod 2 ^ 32) in *. clearbody m.
    assert (ll + m * 2 ^ 32 < 2 ^ 64 \/ 2 ^ 64 <= ll + m * 2 ^ 32) as [C|C] by lia.
    - left. rewrite Z.mod_small by lia. split; [reflexivity|]. apply Z.ltb_ge. lia.
    - right. replace ((ll + m * 2 ^ 32) mod 2 ^ 64) with (ll + m * 2 ^ 32 - 2 ^ 64) by (apply Z.mod_unique with 1; lia).
      split; [reflexivity|]. apply Z.ltb_lt. lia. }
  assert (Bs : 0 <= s < 2 ^ 64) by (apply Z.mod_pos_bound; lia). clearbody s.
  pose proof (Z.div_mod mid (2 ^ 32) ltac:(lia)) as Em. pose proof (Z.mod_pos_bound mid (2 ^ 32) ltac:(lia)) as Bm.
  set (mh := mid / 2 ^ 32) in *. set (ml := mid mod 2 ^ 32) in *. clearbody mh ml.
  destruct M as [[M ->]|[M ->]], C as [[C ->]|[C ->]]; cbn [Z.b2z]; rewrite ?Z.mul_0_l, ?Z.mul_1_l, ?Z.add_0_l, ?Z.add_0_r.
  all: rewrite (Z.mod_small (hh + _) (2 ^ 64)) by lia; rewrite ?(Z.mod_small (hh + _) (2 ^ 64)), ?(Z.mod_small (hh + _ + _) (2 ^ 64)) by lia; lia.
Qed.

Lemma softfloat_mul64To128_hi (a b : Z) : 0 <= a < 2 ^ 64 -> 0 <= b < 2 ^ 64 ->
  v64 (softfloat_mul64To128 a b) = a * b / 2 ^ 64 /\ v0 (softfloat_mul64To128 a b) = (a * b) mod 2 ^ 64.
Proof.
  intros Ha Hb. destruct (softfloat_mul64To128_spec a b Ha Hb) as (E & B & _).
  split; [apply Z.div_unique_pos with (v0 (softfloat_mul64To128 a b))
         |apply Z.mod_unique_pos with (v64 (softfloat_mul64To128 a b))]; lia.
Qed.
