(* ===== verification/Machine.v ===== *)
(** What the three formats share: the machine-word idioms of rounding, packing
    and field extraction, as arithmetic. *)
From Stdlib Require Import ZArith Bool Lia Reals Lra.
From S2P Require Import Prelude Ieee Rounding RoundPack Softfloat Primitives.
Local Open Scope Z_scope.
Local Open Scope c_scope.

#[export] Instance F16_valid : ValidFormat F16.
Proof. constructor; simpl; lia. Qed.
#[export] Instance F32_valid : ValidFormat F32.
Proof. constructor; simpl; lia. Qed.
#[export] Instance F64_valid : ValidFormat F64.
Proof. constructor; simpl; lia. Qed.
#[export] Instance F128_valid : ValidFormat F128.
Proof. constructor; simpl; lia. Qed.

(** Evaluate the constants of a concrete format. *)
Ltac eval_pow :=
  repeat match goal with
  | |- context [2 ^ ?e] => is_ground e; let v := eval vm_compute in (2 ^ e) in progress change (2 ^ e) with v
  | H : context [2 ^ ?e] |- _ => is_ground e; let v := eval vm_compute in (2 ^ e) in progress change (2 ^ e) with v in H
  end.
Ltac fmt_lia := eval_pow; lia.

Lemma increment_code (g up half mode : Z) (sign : bool) : up = 2 ^ g - 1 -> half = 2 ^ (g - 1) ->
  (if negb (mode =? softfloat_round_near_even) && negb (mode =? softfloat_round_near_maxMag)
   then if mode =? (if sign then softfloat_round_min else softfloat_round_max) then up else 0
   else half) = increment (mag_direction mode sign) g.
Proof.
  intros -> ->.
  unfold mag_direction. destruct (mode =? softfloat_round_near_even); [reflexivity|].
  destruct (mode =? softfloat_round_near_maxMag); [reflexivity|]. simpl.
  destruct (mode =? _); reflexivity.
Qed.

Lemma nearest_even_code (mode : Z) (sign : bool) :
  (mode =? softfloat_round_near_even) = is_nearest_even (mag_direction mode sign).
Proof.
  unfold mag_direction. destruct (mode =? softfloat_round_near_even); [reflexivity|].
  destruct (mode =? softfloat_round_near_maxMag); [reflexivity|].
  destruct (mode =? _); reflexivity.
Qed.

Lemma lxor_zero (a b : Z) : negb (z2b (a .^ b)) = (a =? b).
Proof.
  unfold z2b. rewrite negb_involutive.
  destruct (Z.eqb_spec (a .^ b) 0) as [E|E], (Z.eqb_spec a b) as [Q|Q]; try reflexivity.
  - now apply Z.lxor_eq in E.
  - subst. rewrite Z.lxor_nilpotent in E. congruence.
Qed.

Lemma land_not_1 (w n : Z) : 0 < w -> 0 <= n < 2 ^ w -> n .& uwrap w (Z.lnot 1) = 2 * (n / 2).
Proof.
  intros Hw Hn. unfold uwrap. rewrite <- Z.land_ones by lia.
  rewrite Z.land_comm, <- Z.land_assoc, (Z.land_comm (Z.ones w)), (Z.land_ones n) by lia.
  rewrite Z.mod_small by lia. apply Z.bits_inj'. intros i Hi. rewrite Z.land_spec, Z.lnot_spec by lia.
  destruct (Z.eq_dec i 0) as [->|N].
  - rewrite Z.testbit_even_0. reflexivity.
  - replace i with (Z.succ (i - 1)) by lia. rewrite Z.testbit_even_succ by lia.
    rewrite Z.div2_bits by lia.
    change 1 with (2 * 0 + 1) at 1. rewrite Z.testbit_odd_succ, Z.bits_0 by lia. reflexivity.
Qed.

Lemma land_not_b2z (w n : Z) (c : bool) : 0 < w -> 0 <= n < 2 ^ w ->
  n .& uwrap w (Z.lnot (b2z c)) = if c then 2 * (n / 2) else n.
Proof.
  intros Hw Hn. destruct c; [now apply land_not_1|]. simpl b2z. unfold uwrap.
  change (Z.lnot 0) with (-1). rewrite <- Z.land_ones, Z.land_m1_l, Z.land_ones by lia.
  apply Z.mod_small. lia.
Qed.

(** The rounding of a significand as the code writes it. *)
Lemma round_sig_code (g half s mode : Z) (sign : bool) : half = 2 ^ (g - 1) ->
  1 <= g -> 0 <= s -> s + 2 ^ g <= 2 ^ 64 ->
  (u64 (s + increment (mag_direction mode sign) g) >> g)
    .& u64 (Z.lnot (b2z (negb (z2b (s mod 2 ^ g .^ half)) && (mode =? softfloat_round_near_even))))
  = round_sig (mag_direction mode sign) g s.
Proof.
  intros -> Hg Hs Hw. destruct (pow2_half g Hg) as [E P].
  rewrite lxor_zero, (nearest_even_code mode sign), andb_comm. unfold round_sig.
  assert (B : 0 <= increment (mag_direction mode sign) g < 2 ^ g) by (destruct (mag_direction mode sign); simpl; lia).
  rewrite (uwrap_small 64) by lia. rewrite shr_div by lia. apply land_not_b2z; [lia|].
  split; [apply Z.div_pos; lia|].
  apply Z.le_lt_trans with (s + increment (mag_direction mode sign) g); [|lia].
  apply Z.div_le_upper_bound; nia.
Qed.

Lemma increment_bound (d : direction) (g : Z) : 1 <= g -> 0 <= increment d g < 2 ^ g.
Proof. intros Hg. destruct (pow2_half g Hg). destruct d; simpl; lia. Qed.

(** Dropping the guard bits and packing, from label [packReturn] on, for a
    packing function [pk] of the format. *)
Section Tail.
Context (f : format) {V : ValidFormat f} (g half : Z) (pk : bool -> Z -> Z -> Z).
Context (Hg : 1 <= g) (Hhalf : half = 2 ^ (g - 1)) (Hwidth : mb f + g + 1 <= 63).
Context (Hpk : forall sign e n, 0 <= e <= 2 ^ eb f - 3 -> 0 <= n <= 2 * 2 ^ mb f ->
                 pk sign e n = with_sign f sign (e * 2 ^ mb f + n)).

Lemma round_pack_tail (sign : bool) (mode e sig : Z) (s : env) :
  let d := mag_direction mode sign in
  0 <= e <= 2 ^ eb f - 3 -> 0 <= sig < 2 ^ (mb f + g + 1) -> e = 0 \/ 2 ^ (mb f + g) <= sig ->
  (when (z2b (sig mod 2 ^ g)) (softfloat_raiseFlags softfloat_flag_inexact) ;;;
   let n := (u64 (sig + increment d g) >> g)
              .& u64 (Z.lnot (b2z (negb (z2b (sig mod 2 ^ g .^ half)) && (mode =? softfloat_round_near_even)))) in
   let e := if negb (z2b n) then 0 else e in
   ret (pk sign e n))%M s =
  (with_sign f sign (e * 2 ^ mb f + round_sig d g sig),
   raised_env (if sig mod 2 ^ g =? 0 then 0 else softfloat_flag_inexact) s).
Proof.
  intros d He Hs C. subst d. unfold bind. rewrite when_raise. cbv zeta.
  destruct V as [Vm Ve].
  assert (W : 2 ^ (mb f + g + 1) <= 2 ^ 63) by (apply Z.pow_le_mono_r; lia).
  assert (G : 2 ^ g <= 2 ^ 63) by (apply Z.pow_le_mono_r; lia).
  assert (P0 : 0 < 2 ^ g) by (apply Z.pow_pos_nonneg; lia).
  assert (P1 : 2 ^ (mb f + g) = 2 ^ mb f * 2 ^ g) by (apply Z.pow_add_r; lia).
  assert (P2 : 2 ^ (mb f + g + 1) = 2 * 2 ^ mb f * 2 ^ g)
    by (replace (mb f + g + 1) with (1 + mb f + g) by lia; rewrite !Z.pow_add_r by lia; lia).
  assert (P3 : 0 < 2 ^ mb f) by (apply Z.pow_pos_nonneg; lia).
  rewrite (round_sig_code g half sig mode sign) by (assumption || lia).
  pose proof (round_sig_between g sig ltac:(lia) (mag_direction mode sign)) as B.
  set (n := round_sig _ g sig) in *.
  assert (Q : 0 <= sig / 2 ^ g < 2 * 2 ^ mb f)
    by (split; [apply Z.div_pos; lia|apply Z.div_lt_upper_bound; lia]).
  assert (Q' : e = 0 \/ 2 ^ mb f <= sig / 2 ^ g)
    by (destruct C; [now left|right; apply Z.div_le_lower_bound; lia]).
  assert (N : 0 <= n <= 2 * 2 ^ mb f /\ (e = 0 \/ 0 < n)) by lia. clearbody n.
  unfold ret, z2b. rewrite !negb_involutive. f_equal.
  - destruct (Z.eqb_spec n 0) as [->|Z0]; rewrite Hpk by lia; [f_equal; lia|reflexivity].
  - f_equal. destruct (sig mod 2 ^ g =? 0); reflexivity.
Qed.
End Tail.

(** ** What an operation must deliver *)

(** The result [z] and final state [s'] for the exact magnitude [x] of a
    number of the given sign: the correctly rounded pattern and exactly the
    exception flags that go with it, raised on top of the earlier ones. *)
Definition rounded_result (f : format) (s : env) (sign : bool) (x : R) (r : Z * env) : Prop :=
  exists b fl,
    r = (with_sign f sign b, raised_env fl s) /\
    rounds_to f (env_direction s sign) x b /\
    raises f (env_direction s sign) (env_before s) x b fl.

(** The same for a signed exact result that is not zero. *)
Definition correctly_rounded (f : format) (s : env) (x : R) (r : Z * env) : Prop :=
  ((0 < x)%R -> rounded_result f s false x r) /\ ((x < 0)%R -> rounded_result f s true (- x) r).

Section Result.
Context (f : format) {V : ValidFormat f}.

Lemma rint_IZR (d : direction) (n : Z) : rint d (IZR n) n.
Proof. destruct d; simpl; [left; case_rabs; lra|lra|lra|lra]. Qed.

(** Rounding is total, and keeps above an integer bound. *)
Lemma rint_exists (d : direction) (y : R) : exists n, rint d y n.
Proof.
  destruct (archimed y) as [A1 A2]. set (k := up y - 1).
  assert (K : (IZR k <= y < IZR k + 1)%R) by (unfold k; rewrite minus_IZR; lra). clearbody k.
  destruct d; simpl.
  - destruct (Rtotal_order y (IZR k + / 2)) as [L|[E|G]].
    + exists k. left. unfold Rabs. destruct (Rcase_abs _); lra.
    + destruct (Z.even k) eqn:Ev.
      * exists k. right. split; [unfold Rabs; destruct (Rcase_abs _); lra|assumption].
      * exists (k + 1). right. rewrite plus_IZR, Z.even_add, Ev. split; [unfold Rabs; destruct (Rcase_abs _); lra|reflexivity].
    + exists (k + 1). left. rewrite plus_IZR. unfold Rabs. destruct (Rcase_abs _); lra.
  - destruct (Rlt_le_dec y (IZR k + / 2)); [exists k|exists (k + 1)]; rewrite ?plus_IZR; lra.
  - exists k. lra.
  - destruct (Req_dec y (IZR k)); [exists k|exists (k + 1)]; rewrite ?plus_IZR; lra.
Qed.

Lemma rint_above (d : direction) (y : R) (k : Z) : (IZR k <= y)%R -> exists n, rint d y n /\ k <= n.
Proof.
  intros L. destruct (rint_exists d y) as [n N]. exists n. split; [assumption|].
  apply Z.lt_succ_r, lt_IZR. rewrite succ_IZR. destruct d; simpl in N; try lra.
  destruct N as [N|[N _]]; unfold Rabs in N; destruct (Rcase_abs _); lra.
Qed.

(** An exact result raises nothing. *)
Lemma raises_exact (d : direction) (before : bool) (b : Z) :
  0 <= b < inf_pattern f -> raises f d before (mag f b) b 0.
Proof.
  intros Hb. pose proof (mag_lt f b (inf_pattern f) ltac:(lia)).
  assert (I : b < inf_pattern f /\ mag f b = mag f b) by (split; [lia|reflexivity]).
  constructor; try (split; [discriminate|tauto]); [|lia].
  split; [discriminate|]. intros [K|K]; [lia|lra].
Qed.

Lemma exact_result (s : env) (sign : bool) (b : Z) (x : R) :
  0 <= b < inf_pattern f -> mag f b = x -> rounded_result f s sign x (with_sign f sign b, s).
Proof.
  intros Hb <-. exists b, 0. rewrite raised_env_0. split; [reflexivity|].
  split; [now apply rounds_to_exact|now apply raises_exact].
Qed.

Lemma round_pack_result (s : env) (sign : bool) (g k exp sig : Z) (x y : R) :
  2 <= g -> 0 <= k <= g - 1 -> 2 ^ (mb f + g) <= sig < 2 ^ (mb f + g + 1) -> same (2 ^ k) sig y ->
  x = (y * pow2 (exp - g + emin f))%R ->
  let d := env_direction s sign in
  rounded_result f s sign x
    (with_sign f sign (round_pack f d g exp sig), raised_env (round_pack_flags f d g (env_before s) exp sig) s).
Proof.
  intros Hg Hk Hs S -> d. apply (same_pow k (g - 1)) in S; [|lia].
  exists (round_pack f d g exp sig), (round_pack_flags f d g (env_before s) exp sig).
  split; [reflexivity|]. split; [now apply round_pack_rounds|now apply round_pack_raises].
Qed.
Lemma mag_fields (e m : Z) : 0 <= e -> 0 <= m < 2 ^ mb f ->
  mag f (e * 2 ^ mb f + m) = (IZR (if e =? 0 then m else 2 ^ mb f + m) * pow2 (Z.max e 1 - 1 + emin f))%R.
Proof.
  intros He Hm. pose proof (pow_mb_pos f). destruct (Z.eqb_spec e 0) as [->|N].
  - apply (mag_pack f 0 m); lia.
  - replace (Z.max e 1 - 1) with (e - 1) by lia.
    replace (e * 2 ^ mb f + m) with ((e - 1) * 2 ^ mb f + (2 ^ mb f + m)) by ring.
    apply (mag_pack f); lia.
Qed.

Lemma mag_zero : mag f 0 = 0%R.
Proof.
  pose proof (pow_mb_pos f). pose proof (mag_fields 0 0 ltac:(lia) ltac:(lia)) as E.
  rewrite Z.mul_0_l, Z.add_0_l in E. rewrite E. cbn [Z.eqb]. ring.
Qed.

Lemma mag_pos (b : Z) : 0 < b -> (0 < mag f b)%R.
Proof. intros H. rewrite <- mag_zero. apply (mag_lt f). lia. Qed.

(** Zero is exact. *)
Lemma rounds_to_zero (d : direction) (b : Z) : rounds_to f d 0 b -> b = 0.
Proof.
  intros H. pose proof (inf_pattern_pos f) as I. pose proof mag_zero as Z0.
  assert (P : 0 < b -> (0 < mag f b)%R) by apply mag_pos.
  assert (C : 0 <= b) by (destruct d; simpl in H; lia).
  destruct (Z.eq_dec b 0) as [|N]; [assumption|]. specialize (P ltac:(lia)). exfalso.
  destruct d; simpl in H; destruct H as [Hb H].
  - destruct (H 0 ltac:(lia) ltac:(lia)) as [K|[K _]]; rewrite Z0 in K; unfold Rminus in K; rewrite Ropp_0, !Rplus_0_r, Rabs_R0, Rabs_pos_eq in K; lra.
  - destruct (H 0 ltac:(lia) ltac:(lia)) as [K|[K _]]; rewrite Z0 in K; unfold Rminus in K; rewrite Ropp_0, !Rplus_0_r, Rabs_R0, Rabs_pos_eq in K; lra.
  - destruct H as [K _]. lra.
  - destruct H as [_ K]. specialize (K 0 ltac:(lia)). rewrite Z0 in K. specialize (K (Rle_refl 0)). lia.
Qed.

Lemma rounded_result_zero (s : env) (sign : bool) (r : Z * env) :
  rounded_result f s sign 0 r -> r = (with_sign f sign 0, s).
Proof.
  intros (b & fl & -> & R & [A B C D]). apply rounds_to_zero in R as ->.
  pose proof (inf_pattern_pos f) as I. pose proof (mag_pos (inf_pattern f) I). rewrite mag_zero in *.
  assert (A0 : Z.testbit fl 0 = false) by (apply not_true_is_false; rewrite A; tauto).
  assert (B0 : Z.testbit fl 1 = false) by (apply not_true_is_false; rewrite B; tauto).
  assert (C0 : Z.testbit fl 2 = false) by (apply not_true_is_false; rewrite C; intros [K|K]; [lia|lra]).
  assert (fl = 0 \/ fl = 1 \/ fl = 2 \/ fl = 3 \/ fl = 4 \/ fl = 5 \/ fl = 6 \/ fl = 7) as F by lia.
  destruct F as [->|[->|[->|[->|[->|[->|[->| ->]]]]]]]; cbn in *; try discriminate. now rewrite raised_env_0.
Qed.
End Result.
