(* ===== verification/Contract.v ===== *)
(** What the operations on a format promise, for every operand: the results
    for NaN, infinite and zero operands, and correct rounding for the rest, which determines
    the result; and the tests of the code on the fields of an encoding, for any format. *)
From Stdlib Require Import ZArith Bool Lia Reals Lra.
From S2P Require Import Prelude Ieee Rounding RoundPack Softfloat Machine.
Local Open Scope Z_scope.
Local Open Scope c_scope.

Section Unique.
Context (f : format) {V : ValidFormat f}.

(** Between two patterns at the same distance there is a closer one. *)
#[local] Lemma even_tie (x : R) (b c : Z) : 0 <= b -> b < c <= inf_pattern f -> Z.even b = true -> Z.even c = true ->
  (Rabs (mag f b - x) = Rabs (mag f c - x))%R ->
  (forall b', 0 <= b' <= inf_pattern f -> b' <> b -> (Rabs (mag f b - x) <= Rabs (mag f b' - x))%R) -> False.
Proof.
  intros Hb Hc Eb Ec E H. assert (b + 1 <> c) by (intros <-; rewrite Z.even_add, Eb in Ec; discriminate).
  pose proof (mag_lt f b (b + 1) ltac:(lia)). pose proof (mag_lt f (b + 1) c ltac:(lia)).
  specialize (H (b + 1) ltac:(lia) ltac:(lia)). case_rabs; lra.
Qed.

Lemma rounds_to_unique (d : direction) (x : R) (b c : Z) : rounds_to f d x b -> rounds_to f d x c -> b = c.
Proof.
  intros B C. destruct (Z.eq_dec b c) as [|N]; [assumption|exfalso].
  assert (N' : c <> b) by congruence. destruct d; simpl in B, C.
  - destruct B as [Rb B], C as [Rc C]. pose proof (B c Rc N') as B1. pose proof (C b Rb N) as C1.
    destruct B1 as [B1|[B1 Eb]], C1 as [C1|[C1 Ec]]; try lra.
    assert (b < c \/ c < b) as [L|L] by lia; [apply (even_tie x b c)|apply (even_tie x c b)]; try assumption; try lia; intros b' Hb' Nb'.
    + destruct (B b' Hb' Nb') as [?|[? _]]; lra.
    + destruct (C b' Hb' Nb') as [?|[? _]]; lra.
  - destruct B as [Rb B], C as [Rc C]. specialize (B c Rc N'). specialize (C b Rb N).
    destruct B as [B|[B L]], C as [C|[C L']]; try lra. lia.
  - destruct B as (Rb & Mb & B), C as (Rc & Mc & C). specialize (B c Rc Mc). specialize (C b Rb Mb). lia.
  - destruct B as (Rb & Mb & B), C as (Rc & Mc & C).
    assert (c <= b) by (destruct Mb as [Mb| ->]; [now apply C|lia]).
    assert (b <= c) by (destruct Mc as [Mc| ->]; [now apply B|lia]). lia.
Qed.

Lemma raises_unique (d : direction) (before : bool) (x : R) (b fl fl' : Z) :
  raises f d before x b fl -> raises f d before x b fl' -> fl = fl'.
Proof.
  intros [A1 A2 A3 A4] [B1 B2 B3 B4]. apply Z.bits_inj'. intros i Hi.
  assert (T : forall n, 0 <= n < 8 -> 3 <= i -> Z.testbit n i = false).
  { intros n Hn L. replace n with (n mod 2 ^ 3) by (apply Z.mod_small; lia). apply Z.mod_pow2_bits_high. lia. }
  assert (i = 0 \/ i = 1 \/ i = 2 \/ 3 <= i) as [->|[->|[->|L]]] by lia; [apply eq_true_iff_eq; tauto..|].
  now rewrite !T.
Qed.

Lemma rounded_result_unique (s : env) (sign : bool) (x : R) (r r' : Z * env) :
  rounded_result f s sign x r -> rounded_result f s sign x r' -> r = r'.
Proof.
  intros (b & fl & -> & B & F) (c & fl' & -> & C & G).
  assert (b = c) as <- by (eapply rounds_to_unique; eassumption).
  now rewrite (raises_unique _ _ _ _ _ _ F G).
Qed.

(** Below half of the smallest subnormal number. *)
Definition tiny_result (s : env) (sign : bool) : Z * env :=
  (with_sign f sign (match env_direction s sign with AwayFromZero => 1 | _ => 0 end),
   raised_env (softfloat_flag_underflow .| softfloat_flag_inexact) s).

Lemma inf_pattern_gt1 : 1 < inf_pattern f /\ 1 < 2 ^ mb f.
Proof.
  pose proof (pow_mb_pos f). destruct V. unfold inf_pattern.
  assert (2 ^ 2 <= 2 ^ eb f) by (apply Z.pow_le_mono_r; lia). split; [nia|assumption].
Qed.

Lemma mag_one : mag f 1 = pow2 (emin f).
Proof.
  pose proof inf_pattern_gt1 as [_ P]. pose proof (mag_fields f 0 1 ltac:(lia) ltac:(lia)) as M.
  rewrite Z.mul_0_l, Z.add_0_l in M. rewrite M. cbn [Z.eqb]. change (Z.max 0 1 - 1) with 0. rewrite Z.add_0_l. ring.
Qed.

Lemma tiny_rounded (s : env) (sign : bool) (x : R) :
  (0 < x < pow2 (emin f - 1))%R -> rounded_result f s sign x (tiny_result s sign).
Proof.
  intros Hx. unfold tiny_result. set (d := env_direction s sign).
  pose proof inf_pattern_gt1 as [I P]. pose proof mag_one as M1. pose proof (mag_zero f) as M0.
  pose proof (pow2_pos (emin f)) as U.
  assert (H2 : (pow2 (emin f - 1) = pow2 (emin f) / 2)%R) by (unfold Z.sub; rewrite pow2_add; change (-(1)) with (-1); rewrite pow2_m1; reflexivity).
  assert (N : forall b, b = 0 \/ b = 1 -> mag f b <> x) by (intros b [-> | ->]; lra).
  assert (C : match d with AwayFromZero => 1 | _ => 0 end = 0 \/ match d with AwayFromZero => 1 | _ => 0 end = 1) by (destruct d; tauto).
  eexists _, _. split; [reflexivity|]. fold d. split.
  - apply (rounds_to_bracket f d x 0); [lia|change (0 + 1) with 1; lra|]. change (0 + 1) with 1. rewrite M0, M1.
    destruct d; try (left; split; [reflexivity|]; lra); [reflexivity|right; split; [reflexivity|lra]].
  - set (b := match d with AwayFromZero => 1 | _ => 0 end) in *. specialize (N b C).
    constructor; [split; [intros _ [_ K]; now apply N|reflexivity]|split; [intros _|reflexivity]| |cbn; lia].
    + split; [|intros [_ K]; now apply N]. unfold tiny.
      assert (T : (pow2 (emin f) <= mag f (2 ^ mb f))%R) by (rewrite <- M1; apply (mag_le f); lia).
      destruct (env_before s); [lra|].
      destruct (rint_exists d (x * pow2 (1 - emin f))) as [n Hn]. exists n. split; [assumption|].
      apply rint_mono_Z with (k := 1) in Hn. destruct Hn as [_ Hn].
      enough (x * pow2 (1 - emin f) <= 1)%R as K by (specialize (Hn K); lia).
      replace 1%R with (pow2 (emin f - 1) * pow2 (1 - emin f))%R
        by (rewrite <- pow2_add; replace (emin f - 1 + (1 - emin f)) with 0 by lia; apply pow2_0).
      apply Rmult_le_compat_r; [left; auto|lra].
    + split; [discriminate|]. intros [K|K]; [destruct C; lia|].
      pose proof (mag_le f 1 (inf_pattern f) ltac:(lia)). lra.
Qed.
End Unique.

(** ** What the operations on a format promise, for every operand *)

(** ** Classes of operands *)
Definition nanb (f : format) (z : Z) : bool := inf_pattern f <? pattern_of f z.
Definition infb (f : format) (z : Z) : bool := pattern_of f z =? inf_pattern f.
Definition zerob (f : format) (z : Z) : bool := pattern_of f z =? 0.
Definition signalingb (f : format) (z : Z) : bool := nanb f z && negb (Z.testbit z (mb f - 1)).

(** ** Special results *)
Definition quiet (f : format) (z : Z) : Z := z .| 2 ^ (mb f - 1).
Definition default_nan (f : format) : Z := quiet f (with_sign f true (inf_pattern f)).
Definition infinity (f : format) (sign : bool) : Z := with_sign f sign (inf_pattern f).
Definition invalid_result (f : format) (s : env) : Z * env :=
  (default_nan f, raised_env softfloat_flag_invalid s).

(** The first NaN operand, made quiet; a signaling operand is an invalid operation. *)
Definition nan_result (f : format) (a b : Z) (s : env) : Z * env :=
  (quiet f (if nanb f a then a else b),
   raised_env (if signalingb f a || signalingb f b then softfloat_flag_invalid else 0) s).

(** ** Arithmetic *)

(** The sum of [a] and of [b] with its sign replaced by [sb]. *)
Definition sum_spec (f : format) (s : env) (a b : Z) (sb : bool) (r : Z * env) : Prop :=
  let sa := sign_of f a in
  if nanb f a || nanb f b then r = nan_result f a b s
  else if infb f a then r = (if infb f b && xorb sa sb then invalid_result f s else (infinity f sa, s))
  else if infb f b then r = (infinity f sb, s)
  else
    let x := (value f a + signR sb (mag f (pattern_of f b)))%R in
    let zero_sign := if Bool.eqb sa sb then sa else softfloat_roundingMode s =? softfloat_round_min in
    (x = 0%R -> r = (with_sign f zero_sign 0, s)) /\ correctly_rounded f s x r.

Definition mul_spec (f : format) (s : env) (a b : Z) (r : Z * env) : Prop :=
  let sz := xorb (sign_of f a) (sign_of f b) in
  if nanb f a || nanb f b then r = nan_result f a b s
  else if infb f a || infb f b then
    r = (if zerob f a || zerob f b then invalid_result f s else (infinity f sz, s))
  else rounded_result f s sz (mag f (pattern_of f a) * mag f (pattern_of f b)) r.

Definition div_spec (f : format) (s : env) (a b : Z) (r : Z * env) : Prop :=
  let sz := xorb (sign_of f a) (sign_of f b) in
  if nanb f a || nanb f b then r = nan_result f a b s
  else if infb f a then r = (if infb f b then invalid_result f s else (infinity f sz, s))
  else if infb f b then r = (with_sign f sz 0, s)
  else if zerob f b then
    r = (if zerob f a then invalid_result f s
         else (infinity f sz, raised_env softfloat_flag_infinite s))
  else rounded_result f s sz (mag f (pattern_of f a) / mag f (pattern_of f b)) r.

(** ** Comparisons: false for unordered operands, which are an invalid
    operation if one is signaling, or always for the signaling comparisons *)
Definition compare_spec (f : format) (signaling : bool) (cmp : R -> R -> Prop) (s : env) (a b : Z)
    (r : bool * env) : Prop :=
  if nanb f a || nanb f b then
    r = (false, raised_env (if signaling || signalingb f a || signalingb f b then softfloat_flag_invalid else 0) s)
  else snd r = s /\ (fst r = true <-> cmp (value f a) (value f b)).

(** The six comparisons of a format. *)
Definition comparisons_spec (f : format) (eq_ eq_signaling le lt le_quiet lt_quiet : Z -> Z -> M bool)
    (s : env) (a b : Z) : Prop :=
  compare_spec f false eq s a b (eq_ a b s) /\ compare_spec f true eq s a b (eq_signaling a b s) /\
  compare_spec f true Rle s a b (le a b s) /\ compare_spec f true Rlt s a b (lt a b s) /\
  compare_spec f false Rle s a b (le_quiet a b s) /\ compare_spec f false Rlt s a b (lt_quiet a b s).

(** ** Rounding to an integral value *)
Definition integral_spec (f : format) (s : env) (d : direction) (exact : bool) (a : Z) (r : Z * env) : Prop :=
  if nanb f a then r = nan_result f a 0 s
  else if infb f a then r = (a, s)
  else exists b n,
    rint d (mag f (pattern_of f a)) n /\ mag f b = IZR n /\ 0 <= b < inf_pattern f /\
    exists fl, r = (with_sign f (sign_of f a) b, raised_env fl s) /\
      (fl = 0 /\ (exact = false \/ mag f b = mag f (pattern_of f a)) \/
       fl = softfloat_flag_inexact /\ exact = true /\ mag f b <> mag f (pattern_of f a)).

(** ** Conversion to an integer in the range [lo .. hi]; anything else is the
    invalid operation, with a code for a result *)
Definition inexact_flag (exact : bool) (x : R) (n fl : Z) : Prop :=
  fl = softfloat_flag_inexact /\ exact = true /\ IZR n <> x \/ fl = 0 /\ (exact = false \/ IZR n = x).

Definition to_int_spec (lo hi code : Z) (f : format) (s : env) (d : direction) (exact : bool) (a : Z)
    (r : Z * env) : Prop :=
  let invalid := (code, raised_env softfloat_flag_invalid s) in
  if nanb f a || infb f a then r = invalid
  else exists n,
    rint d (mag f (pattern_of f a)) n /\
    let v := if sign_of f a then - n else n in
    if (lo <=? v) && (v <=? hi) then
      exists fl, r = (v, raised_env fl s) /\ inexact_flag exact (mag f (pattern_of f a)) n fl
    else r = invalid.

(** ** Conversion from an integer and between formats *)
Definition from_int_spec (f : format) (s : env) (a : Z) (r : Z * env) : Prop :=
  (a = 0 -> r = (0, s)) /\ correctly_rounded f s (IZR a) r.

(** A NaN keeps its sign and the leading bits of its payload, and becomes quiet. *)
Definition convert_nan (f g : format) (a : Z) : Z :=
  let payload := pattern_of f a mod 2 ^ mb f in
  quiet g (with_sign g (sign_of f a) (inf_pattern g + payload * 2 ^ mb g / 2 ^ mb f)).

Definition convert_spec (f g : format) (s : env) (a : Z) (r : Z * env) : Prop :=
  if nanb f a then
    r = (convert_nan f g a, raised_env (if signalingb f a then softfloat_flag_invalid else 0) s)
  else if infb f a then r = (infinity g (sign_of f a), s)
  else rounded_result g s (sign_of f a) (mag f (pattern_of f a)) r.

(** The four integer types, with the codes of the 8086-SSE specialisation. *)
Definition to_ui32_spec := to_int_spec 0 (2 ^ 32 - 1) 0xFFFFFFFF.
Definition to_i32_spec := to_int_spec (- 2 ^ 31) (2 ^ 31 - 1) (- 2 ^ 31).
Definition to_ui64_spec := to_int_spec 0 (2 ^ 64 - 1) 0xFFFFFFFFFFFFFFFF.
Definition to_i64_spec := to_int_spec (- 2 ^ 63) (2 ^ 63 - 1) (- 2 ^ 63).

(** The conversions of a format to the four types, and from them. *)
Definition to_integers_spec (f : format) (to_ui32 to_i32 to_ui64 to_i64 : Z -> M Z)
    (s : env) (d : direction) (exact : bool) (a : Z) : Prop :=
  to_ui32_spec f s d exact a (to_ui32 a s) /\ to_i32_spec f s d exact a (to_i32 a s) /\
  to_ui64_spec f s d exact a (to_ui64 a s) /\ to_i64_spec f s d exact a (to_i64 a s).
Definition from_integers_spec (f : format) (of_ui32 of_i32 of_ui64 of_i64 : Z -> M Z) (s : env) (a : Z) : Prop :=
  (0 <= a < 2 ^ 32 -> from_int_spec f s a (of_ui32 a s)) /\
  (- 2 ^ 31 <= a < 2 ^ 31 -> from_int_spec f s a (of_i32 a s)) /\
  (0 <= a < 2 ^ 64 -> from_int_spec f s a (of_ui64 a s)) /\
  (- 2 ^ 63 <= a < 2 ^ 63 -> from_int_spec f s a (of_i64 a s)).

(** ** NaN, infinity and zero tests of the code on the fields of an encoding, for any format *)

Lemma z2b_lor (a b : Z) : 0 <= a -> 0 <= b -> z2b (a .| b) = z2b a || z2b b.
Proof.
  intros Ha Hb. unfold z2b. rewrite <- negb_andb. f_equal. apply eq_true_iff_eq.
  rewrite andb_true_iff, !Z.eqb_eq, Z.lor_eq_0_iff. reflexivity.
Qed.

Lemma z2b_shl (m k : Z) : 0 <= k <= 64 -> 0 <= m < 2 ^ (64 - k) -> z2b (u64 (m << k)) = z2b m.
Proof.
  intros Hk Hm. rewrite shl_mul by lia. assert (0 < 2 ^ k) by (apply Z.pow_pos_nonneg; lia).
  assert (2 ^ 64 = 2 ^ (64 - k) * 2 ^ k) by (rewrite <- Z.pow_add_r by lia; f_equal; lia).
  rewrite uwrap_small by nia. unfold z2b. f_equal. apply eq_true_iff_eq. rewrite !Z.eqb_eq. nia.
Qed.

(** Masking a field. *)
Lemma land_field (a mask k n : Z) : 0 <= k -> 0 <= n -> mask = Z.ones n * 2 ^ k ->
  a .& mask = (a / 2 ^ k) mod 2 ^ n * 2 ^ k.
Proof.
  intros Hk Hn ->. rewrite <- Z.shiftl_mul_pow2, <- Z.shiftl_mul_pow2 by lia.
  rewrite <- Z.land_ones, <- Z.shiftr_div_pow2 by lia. apply Z.bits_inj'. intros i Hi.
  rewrite Z.land_spec, !Z.shiftl_spec by lia. destruct (Z.lt_ge_cases i k).
  - rewrite !(Z.testbit_neg_r _ (i - k)) by lia. apply andb_false_r.
  - rewrite Z.land_spec, Z.shiftr_spec by lia. now replace (i - k + k) with i by lia.
Qed.

Lemma land_lnot (w a mask : Z) : 0 < w -> 0 <= mask < 2 ^ w -> uwrap w (Z.lnot a) .& mask = mask - (a .& mask).
Proof.
  intros Hw Hm. unfold uwrap. rewrite <- Z.land_ones, <- Z.land_assoc by lia.
  rewrite (Z.land_comm (Z.ones w)), Z.land_ones, Z.mod_small by lia.
  rewrite Z.land_comm, <- Z.ldiff_land. rewrite Z.sub_nocarry_ldiff.
  - apply Z.bits_inj'. intros i Hi. rewrite !Z.ldiff_spec, Z.land_spec. destruct (Z.testbit mask i), (Z.testbit a i); reflexivity.
  - apply Z.bits_inj'. intros i Hi. rewrite Z.ldiff_spec, Z.land_spec, Z.bits_0.
    destruct (Z.testbit mask i), (Z.testbit a i); reflexivity.
Qed.

Section Fields.
Context (f : format) {V : ValidFormat f}.

(** The classes of an encoding in terms of its fields. *)
Lemma classes (z e m : Z) : 0 <= e < 2 ^ eb f -> 0 <= m < 2 ^ mb f -> pattern_of f z = e * 2 ^ mb f + m ->
  nanb f z = (e =? 2 ^ eb f - 1) && z2b m /\ infb f z = (e =? 2 ^ eb f - 1) && negb (z2b m) /\
  zerob f z = negb (z2b e) && negb (z2b m) /\ (nanb f z = false -> infb f z = false -> e < 2 ^ eb f - 1).
Proof.
  intros He Hm P. unfold nanb, infb, zerob, inf_pattern, z2b. rewrite P, !negb_involutive.
  assert (H := pow_mb_pos f). set (B := 2 ^ mb f) in *. set (E := 2 ^ eb f - 1) in *.
  repeat split.
  - destruct (Z.eqb_spec e E) as [->|N], (Z.eqb_spec m 0); cbn [negb andb]; [apply Z.ltb_ge|apply Z.ltb_lt|apply Z.ltb_ge|apply Z.ltb_ge]; nia.
  - destruct (Z.eqb_spec e E) as [->|N], (Z.eqb_spec m 0); cbn [negb andb]; [apply Z.eqb_eq|apply Z.eqb_neq|apply Z.eqb_neq|apply Z.eqb_neq]; nia.
  - destruct (Z.eqb_spec e 0) as [->|N], (Z.eqb_spec m 0); cbn [negb andb]; [apply Z.eqb_eq|apply Z.eqb_neq|apply Z.eqb_neq|apply Z.eqb_neq]; nia.
  - intros N I. apply Z.ltb_ge in N. apply Z.eqb_neq in I. nia.
Qed.

Lemma finite_intro (z : Z) : is_enc f z -> nanb f z = false -> infb f z = false -> is_finite f z.
Proof. unfold nanb, infb. intros He N I. split; [assumption|]. apply Z.ltb_ge in N. apply Z.eqb_neq in I. lia. Qed.

(** The value of an encoding grows with its pattern, taken with the sign. *)
Definition key (z : Z) : Z := if sign_of f z then - pattern_of f z else pattern_of f z.

Lemma value_key (a b : Z) :
  ((value f a < value f b)%R <-> key a < key b) /\ ((value f a <= value f b)%R <-> key a <= key b) /\
  (value f a = value f b <-> key a = key b).
Proof.
  assert (P : forall z, 0 <= pattern_of f z) by (intros; apply Z.mod_pos_bound, Z.pow_pos_nonneg; destruct V; lia).
  assert (N : forall z, (0 <= mag f (pattern_of f z))%R) by (intros; apply (mag_nonneg f); apply P).
  assert (L : forall c d, key c < key d -> (value f c < value f d)%R).
  { intros c d K. unfold key, value, signR in *. pose proof (P c). pose proof (P d). pose proof (N c). pose proof (N d).
    destruct (sign_of f c), (sign_of f d).
    - pose proof (mag_lt f (pattern_of f d) (pattern_of f c) ltac:(lia)). lra.
    - assert (0 < pattern_of f c \/ 0 < pattern_of f d) as [M|M] by lia; apply (mag_pos f) in M; lra.
    - lia.
    - apply (mag_lt f). lia. }
  assert (E : forall c d, key c = key d -> value f c = value f d).
  { intros c d K. unfold key, value, signR in *. pose proof (P c). pose proof (P d).
    destruct (sign_of f c), (sign_of f d); [do 2 f_equal; lia| | |f_equal; lia].
    - assert (pattern_of f c = 0 /\ pattern_of f d = 0) as [-> ->] by lia. rewrite (mag_zero f). lra.
    - assert (pattern_of f c = 0 /\ pattern_of f d = 0) as [-> ->] by lia. rewrite (mag_zero f). lra. }
  pose proof (L a b). pose proof (L b a). pose proof (E a b).
  assert (key a < key b \/ key a = key b \/ key b < key a) as [C|[C|C]] by lia; repeat split; intros; try lia; try lra;
    try (specialize (H C)); try (specialize (H0 C)); try (specialize (H1 C)); try lia; lra.
Qed.
End Fields.

(** No bit below the sign bit is set in either operand. *)
Lemma magnitudes_zero (w a b : Z) : 0 < w -> (a .| b) mod 2 ^ w = 0 <-> a mod 2 ^ w = 0 /\ b mod 2 ^ w = 0.
Proof.
  intros Hw. rewrite <- !Z.land_ones, Z.land_lor_distr_l by lia. apply Z.lor_eq_0_iff.
Qed.

(** The cases of two signs. *)
Ltac signs f a b p q :=
  destruct (sign_of f a), (sign_of f b), (Z.eqb_spec a b), (Z.ltb_spec a b), (Z.eqb_spec p 0), (Z.eqb_spec q 0);
  cbn [Z.b2z xorb negb orb andb] in *; lia.
