(* ===== verification/Interface.v ===== *)
(** The interface of a binary floating-point format - its operations and the
    contract of each of them - and what follows from the contracts alone. *)
From Stdlib Require Import ZArith Bool Lia Reals Lra.
From S2P Require Import Prelude Ieee Rounding RoundPack Softfloat Machine Contract.
Local Open Scope Z_scope.
Local Open Scope c_scope.

(** The operations of a format. *)
Class FloatOps (f : format) := {
  fadd : Z -> Z -> M Z;
  fsub : Z -> Z -> M Z;
  fmul : Z -> Z -> M Z;
  fdiv : Z -> Z -> M Z;
  feq : Z -> Z -> M bool;
  fle : Z -> Z -> M bool;
  flt : Z -> Z -> M bool;
  feq_signaling : Z -> Z -> M bool;
  fle_quiet : Z -> Z -> M bool;
  flt_quiet : Z -> Z -> M bool;
  froundToInt : Z -> Z -> bool -> M Z
}.

(** What they promise, in any of the five rounding modes. *)
Class FloatLaws (f : format) {O : FloatOps f} : Prop := {
  laws_format : ValidFormat f;
  add_law (a b : Z) (s : env) : valid_mode s -> is_enc f a -> is_enc f b ->
    sum_spec f s a b (sign_of f b) (fadd a b s);
  sub_law (a b : Z) (s : env) : valid_mode s -> is_enc f a -> is_enc f b ->
    sum_spec f s a b (negb (sign_of f b)) (fsub a b s);
  mul_law (a b : Z) (s : env) : is_enc f a -> is_enc f b -> mul_spec f s a b (fmul a b s);
  div_law (a b : Z) (s : env) : is_enc f a -> is_enc f b -> div_spec f s a b (fdiv a b s);
  eq_law (a b : Z) (s : env) : is_enc f a -> is_enc f b ->
    compare_spec f false eq s a b (feq a b s) /\ compare_spec f true eq s a b (feq_signaling a b s);
  order_law (a b : Z) (s : env) : is_enc f a -> is_enc f b ->
    compare_spec f true Rle s a b (fle a b s) /\ compare_spec f true Rlt s a b (flt a b s) /\
    compare_spec f false Rle s a b (fle_quiet a b s) /\ compare_spec f false Rlt s a b (flt_quiet a b s);
  round_law (a mode : Z) (exact : bool) (s : env) : is_enc f a ->
    integral_spec f s (mag_direction mode (sign_of f a)) exact a (froundToInt a mode exact s)
}.
#[export] Existing Instance laws_format.

(** The operand with the other sign. *)
Definition negate (f : format) (z : Z) : Z := with_sign f (negb (sign_of f z)) (pattern_of f z).
Definition number (f : format) (z : Z) : Prop := is_enc f z /\ nanb f z = false.

(** ** Encodings *)
Section Encodings.
Context (f : format) {V : ValidFormat f}.

Lemma inf_lt_sign : 0 < inf_pattern f < sign_weight f.
Proof.
  pose proof (inf_pattern_pos f). split; [assumption|]. destruct V. unfold inf_pattern, sign_weight.
  assert (0 < 2 ^ mb f) by (apply Z.pow_pos_nonneg; lia). rewrite Z.pow_add_r by lia. nia.
Qed.

Lemma with_sign_fields (sg : bool) (b : Z) : 0 <= b < sign_weight f ->
  sign_of f (with_sign f sg b) = sg /\ pattern_of f (with_sign f sg b) = b /\ is_enc f (with_sign f sg b).
Proof.
  intros Hb. unfold sign_of, pattern_of, is_enc, with_sign. destruct sg; cbn [Z.b2z].
  - split; [apply Z.leb_le; lia|]. split; [symmetry; apply Z.mod_unique_pos with 1; lia|lia].
  - split; [apply Z.leb_gt; lia|]. split; [apply Z.mod_small; lia|lia].
Qed.

Lemma value_with_sign (sg : bool) (b : Z) : 0 <= b < sign_weight f -> value f (with_sign f sg b) = signR sg (mag f b).
Proof. intros Hb. unfold value. now destruct (with_sign_fields sg b Hb) as (-> & -> & _). Qed.

Lemma pattern_bounds (z : Z) : 0 <= pattern_of f z < sign_weight f.
Proof. apply Z.mod_pos_bound, Z.pow_pos_nonneg; destruct V; lia. Qed.

Lemma enc_split (z : Z) : is_enc f z -> z = with_sign f (sign_of f z) (pattern_of f z).
Proof.
  unfold is_enc, sign_of, pattern_of, with_sign. intros Hz. set (w := sign_weight f) in *.
  destruct (Z.leb_spec w z); cbn [Z.b2z].
  - rewrite <- (Z.mod_unique_pos z w 1 (z - w)); lia.
  - rewrite Z.mod_small; lia.
Qed.

Lemma negate_fields (z : Z) :
  sign_of f (negate f z) = negb (sign_of f z) /\ pattern_of f (negate f z) = pattern_of f z /\ is_enc f (negate f z).
Proof. apply with_sign_fields, pattern_bounds. Qed.

Lemma signR_add (sa sb : bool) (x y : R) : sa = sb -> (signR sa x + signR sb y)%R = signR sa (x + y).
Proof. intros ->. destruct sb; cbn; ring. Qed.

Lemma finite_classes (z : Z) : is_finite f z -> nanb f z = false /\ infb f z = false.
Proof. intros [_ F]. unfold nanb, infb. split; [apply Z.ltb_ge|apply Z.eqb_neq]; lia. Qed.

Lemma mag_inj (b c : Z) : 0 <= b -> 0 <= c -> mag f b = mag f c -> b = c.
Proof.
  intros Hb Hc E. destruct (Z.lt_trichotomy b c) as [L|[->|L]]; [|reflexivity|].
  - pose proof (mag_lt f b c ltac:(lia)). lra.
  - pose proof (mag_lt f c b ltac:(lia)). lra.
Qed.
End Encodings.
