(* ===== verification/Laws.v ===== *)
(** Consequences of the contracts, proved against the interface: algebraic laws,
    exactness, monotonicity and the order of the numbers, and that numbers a format
    represents exactly survive a conversion to it and back. *)
From Stdlib Require Import ZArith Bool Lia Reals Lra.
From S2P Require Import Prelude Ieee Rounding RoundPack Softfloat Machine Contract Interface.
Local Open Scope Z_scope.
Local Open Scope c_scope.

(** ** Rounding preserves the order *)
Section Monotone.
Context (f : format) {V : ValidFormat f}.

Lemma rounds_to_mono (d : direction) (x y : R) (b c : Z) :
  (x <= y)%R -> rounds_to f d x b -> rounds_to f d y c -> b <= c.
Proof.
  intros L B C. destruct (Z.le_gt_cases b c) as [|G]; [assumption|exfalso].
  assert (N : c <> b) by lia. assert (N' : b <> c) by lia.
  assert (x = y -> False) as Neq by (intros <-; apply N; now apply (rounds_to_unique f d x c b)).
  pose proof (mag_lt f c b) as M. destruct d; simpl in B, C.
  - destruct B as [Rb B], C as [Rc C]. specialize (M ltac:(lia)). specialize (B c Rc N). specialize (C b Rb N').
    apply Neq. destruct B as [B|[B _]], C as [C|[C _]]; revert B C; case_rabs; lra.
  - destruct B as [Rb B], C as [Rc C]. specialize (M ltac:(lia)). specialize (B c Rc N). specialize (C b Rb N').
    apply Neq. destruct B as [B|[B _]], C as [C|[C _]]; revert B C; case_rabs; lra.
  - destruct B as (Rb & Mb & B), C as (Rc & Mc & C). specialize (C b Rb ltac:(lra)). lia.
  - destruct B as (Rb & Mb & B), C as (Rc & Mc & C). destruct Mc as [Mc| ->]; [|lia].
    specialize (B c Rc ltac:(lra)). lia.
Qed.

(** The value of a result that is the rounding of the real [x]. *)
Definition value_rounds (s : env) (x v : R) : Prop :=
  exists sg b, 0 <= b < sign_weight f /\ v = signR sg (mag f b) /\
    (x = 0%R /\ b = 0 \/ (0 < x)%R /\ sg = false /\ rounds_to f (env_direction s false) x b \/
     (x < 0)%R /\ sg = true /\ rounds_to f (env_direction s true) (- x) b).

Lemma rounds_to_range (d : direction) (x : R) (b : Z) : rounds_to f d x b -> 0 <= b < sign_weight f.
Proof. pose proof (inf_lt_sign f). intros H0. destruct d; simpl in H0; lia. Qed.

Lemma correctly_rounded_value (s : env) (x : R) (r : Z * env) :
  (x = 0%R -> exists sg, r = (with_sign f sg 0, s)) -> correctly_rounded f s x r -> value_rounds s x (value f (fst r)).
Proof.
  intros Z0 [P N]. pose proof (inf_lt_sign f).
  destruct (Rtotal_order x 0) as [L|[->|L]].
  - destruct (N L) as (b & fl & -> & R & _). pose proof (rounds_to_range _ _ _ R) as Hb. exists true, b.
    cbn [fst]. rewrite value_with_sign by assumption. auto 7.
  - destruct (Z0 eq_refl) as [sg ->]. exists sg, 0. cbn [fst]. rewrite value_with_sign by lia.
    split; [lia|]. split; [reflexivity|]. now left.
  - destruct (P L) as (b & fl & -> & R & _). pose proof (rounds_to_range _ _ _ R) as Hb. exists false, b.
    cbn [fst]. rewrite value_with_sign by assumption. auto 7.
Qed.

Lemma value_rounds_mono (s : env) (x y v w : R) : (x <= y)%R -> value_rounds s x v -> value_rounds s y w -> (v <= w)%R.
Proof.
  intros L (sg & b & Hb & -> & B) (sg' & c & Hc & -> & C).
  pose proof (mag_nonneg f b ltac:(lia)). pose proof (mag_nonneg f c ltac:(lia)). pose proof (mag_zero f) as M0.
  destruct B as [[-> ->]|[(Px & -> & B)|(Nx & -> & B)]], C as [[-> ->]|[(Py & -> & C)|(Ny & -> & C)]];
    try (exfalso; lra); cbn [signR]; rewrite ?M0; try (destruct sg); try (destruct sg'); cbn [signR]; try lra.
  - apply (mag_le f). split; [lia|]. now apply (rounds_to_mono (env_direction s false) x y).
  - apply Ropp_le_contravar, (mag_le f). split; [lia|]. apply (rounds_to_mono (env_direction s true) (- y) (- x)); [lra|assumption..].
Qed.

Lemma correctly_rounded_unique (s : env) (x : R) (r r' : Z * env) : x <> 0%R ->
  correctly_rounded f s x r -> correctly_rounded f s x r' -> r = r'.
Proof.
  intros N [P1 N1] [P2 N2]. destruct (Rtotal_order x 0) as [G|[G|G]]; [|contradiction|].
  - exact (rounded_result_unique f _ _ _ _ _ (N1 G) (N2 G)).
  - exact (rounded_result_unique f _ _ _ _ _ (P1 G) (P2 G)).
Qed.

(** A result that the format can represent is exact, and raises nothing. *)
Lemma correctly_rounded_exact (s : env) (c : Z) (r : Z * env) : is_finite f c -> value f c <> 0%R ->
  correctly_rounded f s (value f c) r -> r = (c, s).
Proof.
  intros [Hc F] N C. refine (correctly_rounded_unique s _ _ _ N C _). pose proof (pattern_bounds f c) as B.
  pose proof (mag_nonneg f (pattern_of f c) ltac:(lia)) as M. pose proof (enc_split f c Hc) as E.
  unfold value in *. set (p := pattern_of f c) in *. destruct (sign_of f c); cbn [signR] in *; (split; intros K; [|]); try lra;
    rewrite E; apply (exact_result f); try lia; lra.
Qed.
End Monotone.

(** The laws of addition, subtraction and multiplication in a format *)
Definition laws_of (f : format) (add sub mul : Z -> Z -> M Z) (s : env) (a b c : Z) : Prop :=
  (number f a -> number f b -> add a b s = add b a s /\ mul a b s = mul b a s /\ sub a b s = add a (negate f b) s) /\
  (is_finite f a -> sub a a s = (with_sign f (softfloat_roundingMode s =? softfloat_round_min) 0, s)) /\
  (is_finite f a -> is_finite f b -> is_finite f c -> (value f a <= value f b)%R ->
   (value f (fst (add a c s)) <= value f (fst (add b c s)))%R).

Section Laws.
Context {f : format} {O : FloatOps f} {L : FloatLaws f}.

(** The contract of a sum determines its result. *)
Lemma sum_spec_unique (s : env) (a b : Z) (sb : bool) (r r' : Z * env) :
  sum_spec f s a b sb r -> sum_spec f s a b sb r' -> r = r'.
Proof.
  unfold sum_spec. destruct (_ || _); [congruence|]. destruct (infb f a); [congruence|]. destruct (infb f b); [congruence|].
  set (x := (value f a + _)%R). intros [Z1 C1] [Z2 C2]. destruct (Req_dec x 0) as [E|N].
  - now rewrite (Z1 E), (Z2 E).
  - exact (correctly_rounded_unique f s x _ _ N C1 C2).
Qed.

Lemma sum_spec_swap (s : env) (a b : Z) (r : Z * env) : nanb f a = false -> nanb f b = false ->
  sum_spec f s a b (sign_of f b) r -> sum_spec f s b a (sign_of f a) r.
Proof.
  intros Na Nb. unfold sum_spec. rewrite Na, Nb. cbn [orb].
  destruct (infb f a), (infb f b); cbn [andb].
  - intros ->. rewrite (xorb_comm (sign_of f b)). destruct (sign_of f a), (sign_of f b); reflexivity.
  - intros ->. reflexivity.
  - intros ->. reflexivity.
  - fold (value f b). fold (value f a). rewrite (Rplus_comm (value f b)). destruct (sign_of f a), (sign_of f b); exact (fun H => H).
Qed.

(** ** Commutativity *)
Lemma add_comm (a b : Z) (s : env) : valid_mode s -> number f a -> number f b -> fadd a b s = fadd b a s.
Proof.
  intros Hv [Ha Na] [Hb Nb]. apply (sum_spec_unique s b a (sign_of f a)); [|now apply add_law].
  apply sum_spec_swap; [assumption..|]. now apply add_law.
Qed.

Lemma mul_comm (a b : Z) (s : env) : number f a -> number f b -> fmul a b s = fmul b a s.
Proof.
  intros [Ha Na] [Hb Nb]. pose proof (mul_law a b s Ha Hb) as A. pose proof (mul_law b a s Hb Ha) as B. revert A B.
  unfold mul_spec. rewrite Na, Nb, (xorb_comm (sign_of f b)), (orb_comm (infb f b)), (orb_comm (zerob f b)). cbn [orb].
  destruct (_ || _); [congruence|]. rewrite (Rmult_comm (mag f (pattern_of f b))). apply (rounded_result_unique f).
Qed.

(** ** Subtraction is the addition of the operand with the other sign *)
Lemma sub_add_negate (a b : Z) (s : env) : valid_mode s -> number f a -> number f b ->
  fsub a b s = fadd a (negate f b) s.
Proof.
  intros Hv [Ha Na] [Hb Nb]. destruct (negate_fields f b) as (Sn & Pn & Hn).
  pose proof (sub_law a b s Hv Ha Hb) as A. pose proof (add_law a (negate f b) s Hv Ha Hn) as B.
  apply (sum_spec_unique s a b _ _ _ A). revert B. unfold sum_spec. assert (nanb f (negate f b) = nanb f b) as -> by (unfold nanb; now rewrite Pn).
  assert (infb f (negate f b) = infb f b) as -> by (unfold infb; now rewrite Pn).
  rewrite Sn, Pn, Na, Nb. exact (fun H => H).
Qed.

(** ** Finite operands *)
Lemma add_finite (a b : Z) (s : env) : valid_mode s -> is_finite f a -> is_finite f b ->
  let x := (value f a + value f b)%R in
  (x = 0%R -> fadd a b s = (with_sign f (if Bool.eqb (sign_of f a) (sign_of f b) then sign_of f a
                                         else softfloat_roundingMode s =? softfloat_round_min) 0, s)) /\
  correctly_rounded f s x (fadd a b s).
Proof.
  intros Hv Ha Hb. pose proof (add_law a b s Hv (proj1 Ha) (proj1 Hb)) as A. revert A. unfold sum_spec.
  destruct (finite_classes f a Ha) as [-> ->]. destruct (finite_classes f b Hb) as [-> ->]. exact (fun H => H).
Qed.

Lemma sub_finite (a b : Z) (s : env) : valid_mode s -> is_finite f a -> is_finite f b ->
  let x := (value f a - value f b)%R in
  (x = 0%R -> fsub a b s = (with_sign f (if Bool.eqb (sign_of f a) (sign_of f b)
                                         then softfloat_roundingMode s =? softfloat_round_min else sign_of f a) 0, s)) /\
  correctly_rounded f s x (fsub a b s).
Proof.
  intros Hv Ha Hb. pose proof (sub_law a b s Hv (proj1 Ha) (proj1 Hb)) as A. revert A. unfold sum_spec.
  destruct (finite_classes f a Ha) as [-> ->]. destruct (finite_classes f b Hb) as [-> ->]. cbn [orb]. cbv zeta.
  replace (value f a + signR (negb (sign_of f b)) (mag f (pattern_of f b)))%R with (value f a - value f b)%R
    by (unfold value; destruct (sign_of f b); cbn; ring).
  destruct (sign_of f a), (sign_of f b); exact (fun H => H).
Qed.

Lemma add_exact (a b c : Z) (s : env) : valid_mode s -> is_finite f a -> is_finite f b -> is_finite f c ->
  value f c <> 0%R -> (value f a + value f b)%R = value f c -> fadd a b s = (c, s).
Proof.
  intros Hv Ha Hb Hc N E. apply (correctly_rounded_exact f); [assumption..|]. rewrite <- E. now apply add_finite.
Qed.

Lemma sub_self (a : Z) (s : env) : valid_mode s -> is_finite f a ->
  fsub a a s = (with_sign f (softfloat_roundingMode s =? softfloat_round_min) 0, s).
Proof.
  intros Hv Ha. destruct (sub_finite a a s Hv Ha Ha) as [H _]. rewrite Bool.eqb_reflx in H. apply H. ring.
Qed.

(** ** Monotonicity *)
Lemma add_mono (a b c : Z) (s : env) : valid_mode s -> is_finite f a -> is_finite f b -> is_finite f c ->
  (value f a <= value f b)%R -> (value f (fst (fadd a c s)) <= value f (fst (fadd b c s)))%R.
Proof.
  intros Hv Ha Hb Hc Le. destruct (add_finite a c s Hv Ha Hc) as [Z1 C1]. destruct (add_finite b c s Hv Hb Hc) as [Z2 C2].
  apply (value_rounds_mono f s (value f a + value f c) (value f b + value f c)); [lra| |].
  - apply (correctly_rounded_value f); [intros K; eexists; exact (Z1 K)|exact C1].
  - apply (correctly_rounded_value f); [intros K; eexists; exact (Z2 K)|exact C2].
Qed.

(** ** The comparisons order the numbers *)
Lemma compare_number (sg : bool) (cmp : R -> R -> Prop) (s : env) (a b : Z) (r : bool * env) :
  nanb f a = false -> nanb f b = false -> compare_spec f sg cmp s a b r ->
  snd r = s /\ (fst r = true <-> cmp (value f a) (value f b)).
Proof. unfold compare_spec. intros -> ->. exact (fun H => H). Qed.

Lemma le_law (a b : Z) (s : env) : number f a -> number f b ->
  snd (fle a b s) = s /\ (fst (fle a b s) = true <-> (value f a <= value f b)%R).
Proof. intros [Ha Na] [Hb Nb]. apply (compare_number true Rle); [assumption..|]. now apply order_law. Qed.

Lemma lt_law (a b : Z) (s : env) : number f a -> number f b ->
  snd (flt a b s) = s /\ (fst (flt a b s) = true <-> (value f a < value f b)%R).
Proof. intros [Ha Na] [Hb Nb]. apply (compare_number true Rlt); [assumption..|]. now apply order_law. Qed.

Lemma eq_law_number (a b : Z) (s : env) : number f a -> number f b ->
  snd (feq a b s) = s /\ (fst (feq a b s) = true <-> value f a = value f b).
Proof. intros [Ha Na] [Hb Nb]. apply (compare_number false eq); [assumption..|]. now apply eq_law. Qed.

Definition order_laws (le lt eq : Z -> Z -> M bool) (s : env) (a b c : Z) : Prop :=
  le a a s = (true, s) /\
  (le a b s = (true, s) -> le b c s = (true, s) -> le a c s = (true, s)) /\
  (le a b s = (true, s) \/ le b a s = (true, s)) /\
  (le a b s = (true, s) -> le b a s = (true, s) -> eq a b s = (true, s)) /\
  (lt a b s = (true, s) <-> le a b s = (true, s) /\ eq a b s = (false, s)).

(** A comparison that leaves the state alone, as a proposition. *)
Lemma comparison_result (r : bool * env) (s : env) (P : Prop) : snd r = s /\ (fst r = true <-> P) ->
  (r = (true, s) <-> P) /\ (r = (false, s) <-> ~ P).
Proof.
  destruct r as [v s0]. cbn [fst snd]. intros [-> T]. split.
  - rewrite <- T. split; [now intros [= ->]|now intros ->].
  - rewrite <- T. destruct v; split; try congruence; tauto.
Qed.

Lemma order_numbers (a b c : Z) (s : env) : number f a -> number f b -> number f c -> order_laws fle flt feq s a b c.
Proof.
  intros Ha Hb Hc. unfold order_laws.
  assert (Le : forall x y, number f x -> number f y -> fle x y s = (true, s) <-> (value f x <= value f y)%R)
    by (intros x y Hx Hy; apply (comparison_result _ s _ (le_law x y s Hx Hy))).
  rewrite !Le by assumption. destruct (comparison_result _ s _ (eq_law_number a b s Ha Hb)) as [-> ->].
  destruct (comparison_result _ s _ (lt_law a b s Ha Hb)) as [-> _].
  split; [lra|]. split; [lra|]. split; [lra|]. split; [lra|]. lra.
Qed.

(** ** Rounding twice is rounding once *)
Lemma rint_integer (d : direction) (n m : Z) : rint d (IZR n) m -> m = n.
Proof. intros H. destruct (rint_mono_Z d (IZR n) m n H) as [A B]. specialize (A (Rle_refl _)). specialize (B (Rle_refl _)). lia. Qed.

Lemma round_idempotent (a mode mode' : Z) (exact exact' : bool) (s s' : env) : is_finite f a ->
  let z := fst (froundToInt a mode exact s) in
  froundToInt z mode' exact' s' = (z, s').
Proof.
  intros Ha z. pose proof (round_law a mode exact s (proj1 Ha)) as A. unfold integral_spec in A.
  destruct (finite_classes f a Ha) as [E1 E2]. rewrite E1, E2 in A.
  destruct A as (b & n & Hn & Mb & Hb & fl & Er & _). assert (E : z = with_sign f (sign_of f a) b) by (unfold z; now rewrite Er).
  pose proof (inf_lt_sign f) as Hi. destruct (with_sign_fields f (sign_of f a) b ltac:(lia)) as (Sz & Pz & Hz). rewrite <- E in Sz, Pz, Hz.
  pose proof (round_law z mode' exact' s' Hz) as B. unfold integral_spec, nanb, infb in B. rewrite Pz, Sz in B.
  replace (inf_pattern f <? b) with false in B by lia. replace (b =? inf_pattern f) with false in B by lia.
  destruct B as (b' & n' & Hn' & Mb' & Hb' & fl' & -> & F). rewrite Mb in Hn'.
  apply rint_integer in Hn' as ->. rewrite <- Mb in Mb'.
  apply (mag_inj f) in Mb'; [|lia|lia]. subst b'. rewrite E.
  destruct F as [[-> _]|(_ & _ & K)]; [now rewrite raised_env_0|now contradict K].
Qed.
(** The laws put together, as the formats state them. *)
Lemma laws_hold (a b c : Z) (s : env) : valid_mode s -> laws_of f fadd fsub fmul s a b c.
Proof.
  intros Hv. split; [|split; [now apply sub_self|now apply add_mono]].
  intros Ha Hb. split; [now apply add_comm|]. split; [now apply mul_comm|now apply sub_add_negate].
Qed.

Lemma compare_laws (a b : Z) (s : env) : is_enc f a -> is_enc f b ->
  comparisons_spec f feq feq_signaling fle flt fle_quiet flt_quiet s a b.
Proof.
  intros Ha Hb. destruct (eq_law a b s Ha Hb) as [E1 E2]. split; [exact E1|]. split; [exact E2|].
  exact (order_law a b s Ha Hb).
Qed.
End Laws.

(** ** Numbers that a format represents exactly survive a conversion to it, and the way back returns them *)

Section Represent.
Context (f : format) {V : ValidFormat f}.

(** [n * 2 ^ e] is a number of the format if [n] fits in the significand and
    the exponent is in range. *)
Lemma representable (n e : Z) : 0 < n < 2 ^ (mb f + 1) -> mb f - Z.log2 n + emin f <= e -> e + Z.log2 n <= bias f ->
  exists c, 0 < c < inf_pattern f /\ mag f c = (IZR n * pow2 e)%R.
Proof.
  intros Hn Le He. pose proof (Z.log2_spec n ltac:(lia)) as L. pose proof (Z.log2_nonneg n) as L0.
  assert (L1 : Z.log2 n < mb f + 1) by (apply Z.log2_lt_pow2; lia). assert (M := pow_mb_pos f).
  set (l := Z.log2 n) in *. clearbody l. set (k := mb f - l). set (q := e - k - emin f).
  assert (P : 0 < 2 ^ k) by (apply Z.pow_pos_nonneg; unfold k; lia).
  assert (E : 2 ^ mb f = 2 ^ l * 2 ^ k) by (rewrite <- Z.pow_add_r by lia; f_equal; lia).
  rewrite Z.pow_succ_r in L by lia. assert (B : 2 ^ mb f <= n * 2 ^ k < 2 * 2 ^ mb f) by nia.
  assert (Q : 0 <= q /\ q + 2 <= 2 ^ eb f - 1).
  { split; [unfold q, k; lia|]. destruct V. unfold q, k, emin, bias in *.
    assert (2 ^ eb f = 2 * 2 ^ (eb f - 1)) by (rewrite <- Z.pow_succ_r by lia; f_equal; lia). lia. }
  exists (q * 2 ^ mb f + n * 2 ^ k). split; [unfold inf_pattern; nia|].
  rewrite (mag_pack f) by lia. rewrite mult_IZR, <- (pow2_IZR k), Rmult_assoc, <- pow2_add by (unfold k; lia).
  do 2 f_equal. unfold q. lia.
Qed.

(** An integer that fits in the significand. *)
Lemma representable_int (n : Z) : 0 <= n <= 2 ^ (mb f + 1) -> emin f <= - mb f -> mb f + 1 <= bias f ->
  exists c, 0 <= c < inf_pattern f /\ mag f c = IZR n.
Proof.
  intros Hn E1 E2. pose proof (inf_pattern_pos f). destruct V.
  destruct (Z.eq_dec n 0) as [->|N0]; [exists 0; split; [lia|apply (mag_zero f)]|].
  destruct (Z.eq_dec n (2 ^ (mb f + 1))) as [->|N1].
  - destruct (representable 1 (mb f + 1)) as (c & Hc & M); cbn [Z.log2]; try lia;
      [split; [lia|]; apply (Z.pow_lt_mono_r 2 0); lia|].
    exists c. split; [lia|]. rewrite M, pow2_IZR by lia. ring.
  - assert (0 <= Z.log2 n < mb f + 1) by (split; [apply Z.log2_nonneg|apply Z.log2_lt_pow2; lia]).
    destruct (representable n 0) as (c & Hc & M); try lia. exists c. split; [lia|]. rewrite M, pow2_0. ring.
Qed.

(** A result that is exact is the encoding of the number. *)
Lemma rounded_result_exact (s : env) (sg : bool) (c : Z) (x : R) (r : Z * env) :
  0 <= c < inf_pattern f -> mag f c = x -> rounded_result f s sg x r -> r = (with_sign f sg c, s).
Proof. intros Hc E H. exact (rounded_result_unique f _ _ _ _ _ H (exact_result f s sg c x Hc E)). Qed.

Lemma finite_pattern (sg : bool) (c : Z) : 0 <= c < inf_pattern f ->
  is_finite f (with_sign f sg c) /\ sign_of f (with_sign f sg c) = sg /\ pattern_of f (with_sign f sg c) = c /\
  value f (with_sign f sg c) = signR sg (mag f c).
Proof.
  intros Hc. pose proof (inf_lt_sign f). destruct (with_sign_fields f sg c ltac:(lia)) as (S & P & E).
  unfold is_finite. rewrite P, (value_with_sign f) by lia. repeat split; try assumption; try lia; apply E.
Qed.

(** ** From the integers *)
Lemma from_int_exact (s : env) (a c : Z) (r : Z * env) : 0 <= c < inf_pattern f -> mag f c = IZR (Z.abs a) ->
  from_int_spec f s a r -> r = (with_sign f (a <? 0) c, s).
Proof.
  intros Hc M (Z0 & P & N). destruct (Z.ltb_spec a 0) as [L|G].
  - apply (rounded_result_exact s true c _ _ Hc M). rewrite Z.abs_neq, opp_IZR by lia. apply N. now apply IZR_lt.
  - rewrite Z.abs_eq in M by lia. destruct (Z.eq_dec a 0) as [->|Na].
    + rewrite (Z0 eq_refl). rewrite <- (mag_zero f) in M. apply (mag_inj f) in M as ->; [reflexivity|lia..].
    + apply (rounded_result_exact s false c _ _ Hc M). apply P. apply IZR_lt. lia.
Qed.

Lemma from_int_value (s : env) (a : Z) (r : Z * env) :
  emin f <= - mb f -> mb f + 1 <= bias f -> - 2 ^ (mb f + 1) <= a <= 2 ^ (mb f + 1) ->
  from_int_spec f s a r -> is_finite f (fst r) /\ value f (fst r) = IZR a /\ snd r = s.
Proof.
  intros E1 E2 Ha H. destruct (representable_int (Z.abs a)) as (c & Hc & M); [lia..|].
  rewrite (from_int_exact s a c r Hc M H). cbn [fst snd].
  destruct (finite_pattern (a <? 0) c Hc) as (F & _ & _ & ->). split; [exact F|]. split; [|reflexivity].
  rewrite M. destruct (Z.ltb_spec a 0); cbn [signR]; [rewrite Z.abs_neq, opp_IZR by lia; ring|now rewrite Z.abs_eq by lia].
Qed.

(** A number that is an integer in the range converts to it. *)
Lemma to_int_exact (lo hi code a n : Z) (s : env) (mode : Z) (exact : bool) (r : Z * env) : is_finite f a -> value f a = IZR n ->
  lo <= n <= hi -> to_int_spec lo hi code f s (mag_direction mode (sign_of f a)) exact a r -> r = (n, s).
Proof.
  intros Fa Va Hn H. unfold to_int_spec in H. destruct (finite_classes f a Fa) as [N1 I1]. rewrite N1, I1 in H. cbn [orb] in H.
  destruct H as (m & Hm & H). unfold value in Va.
  assert (M : mag f (pattern_of f a) = IZR (if sign_of f a then - n else n))
    by (destruct (sign_of f a); cbn [signR] in Va; [rewrite opp_IZR; lra|assumption]).
  rewrite M in Hm, H. apply rint_integer in Hm as ->.
  replace (if sign_of f a then - (if sign_of f a then - n else n) else (if sign_of f a then - n else n)) with n in H by (destruct (sign_of f a); lia).
  replace ((lo <=? n) && (n <=? hi)) with true in H by lia.
  destruct H as (fl & -> & [(_ & _ & K)|[-> _]]); [now contradict K|]. now rewrite raised_env_0.
Qed.
End Represent.

(** ** Between formats *)
Section Between.
Context (f g : format) {V : ValidFormat f} {W : ValidFormat g}.
Context (Fits : mb f <= mb g) (Range : bias f + mb f <= bias g).

(** The wider format holds every number of the narrower one. *)
Lemma embed (b : Z) : 0 <= b < inf_pattern f -> exists c, 0 <= c < inf_pattern g /\ mag g c = mag f b.
Proof.
  intros Hb. pose proof (inf_pattern_pos g). destruct (unpack f b ltac:(lia)) as (q & n & E & Hq & Hn & C).
  destruct (Z.eq_dec n 0) as [->|N].
  { exists 0. split; [lia|]. assert (0 < 2 ^ mb f) by (apply Z.pow_pos_nonneg; destruct V; lia).
    assert (q = 0) as -> by lia. replace b with 0 by lia. now rewrite !mag_zero by assumption. }
  destruct V, W. assert (P : 2 ^ (mb f + 1) = 2 * 2 ^ mb f) by (rewrite <- Z.pow_succ_r by lia; f_equal; lia).
  assert (L : 0 <= Z.log2 n < mb f + 1) by (split; [apply Z.log2_nonneg|apply Z.log2_lt_pow2; lia]).
  assert (Q : q < 2 ^ eb f - 2).
  { unfold inf_pattern in Hb. assert (0 < 2 ^ mb f) by (apply Z.pow_pos_nonneg; lia).
    assert (2 ^ 2 <= 2 ^ eb f) by (apply Z.pow_le_mono_r; lia). destruct C; nia. }
  destruct (representable g n (q + emin f)) as (c & Hc & M).
  - split; [lia|]. apply Z.lt_le_trans with (2 ^ (mb f + 1)); [lia|]. apply Z.pow_le_mono_r; lia.
  - unfold emin. lia.
  - unfold emin, bias in *. assert (2 ^ eb f = 2 * 2 ^ (eb f - 1)) by (rewrite <- Z.pow_succ_r by lia; f_equal; lia). lia.
  - exists c. split; [lia|]. rewrite M, E. symmetry. apply (mag_pack f); lia.
Qed.

Lemma infinity_fields (h : format) {X : ValidFormat h} (sg : bool) :
  nanb h (infinity h sg) = false /\ infb h (infinity h sg) = true /\ sign_of h (infinity h sg) = sg.
Proof.
  pose proof (inf_lt_sign h). destruct (with_sign_fields h sg (inf_pattern h) ltac:(lia)) as (S & P & _).
  unfold nanb, infb, infinity. rewrite P, S, Z.ltb_irrefl, Z.eqb_refl. auto.
Qed.

Lemma widen_narrow (widen narrow : Z -> M Z) (a : Z) (s : env) : number f a ->
  (forall b s, is_enc f b -> convert_spec f g s b (widen b s)) ->
  (forall b s, is_enc g b -> convert_spec g f s b (narrow b s)) ->
  (b <- widen a ;; narrow b)%M s = (a, s).
Proof.
  intros [Ha Na] HW HN. unfold bind. pose proof (HW a s Ha) as H. unfold convert_spec in H. rewrite Na in H.
  pose proof (enc_split f a Ha) as E. set (sg := sign_of f a) in *. destruct (infb f a) eqn:I.
  - rewrite H. pose proof (inf_lt_sign g) as B. destruct (infinity_fields g sg) as (N2 & I2 & S2).
    pose proof (HN (infinity g sg) s ltac:(apply (with_sign_fields g); lia)) as K. unfold convert_spec in K.
    rewrite N2, I2, S2 in K. rewrite K. unfold infinity. apply Z.eqb_eq in I. now rewrite <- I, <- E.
  - pose proof (finite_intro f a Ha Na I) as [_ F]. pose proof (pattern_bounds f a) as B0.
    destruct (embed (pattern_of f a) ltac:(lia)) as (c & Hc & M).
    rewrite (rounded_result_exact g _ _ c _ _ Hc M H). destruct (finite_pattern g sg c Hc) as (F2 & S2 & P2 & _).
    pose proof (HN _ s (proj1 F2)) as K. unfold convert_spec in K. destruct (finite_classes g _ F2) as [N2 I2].
    rewrite N2, I2, S2, P2 in K. rewrite (rounded_result_exact f s sg (pattern_of f a) _ _ ltac:(lia) (eq_sym M) K). now rewrite <- E.
Qed.
End Between.

(** ** Integers through a format *)
Section Integers.
Context (f : format) {V : ValidFormat f} (lo hi code : Z).
Context (from_int : Z -> M Z) (to_int : Z -> Z -> bool -> M Z).
Context (Emin : emin f <= - mb f) (Bias : mb f + 1 <= bias f).
Context (to_ok : forall a mode exact s, is_enc f a ->
  to_int_spec lo hi code f s (mag_direction mode (sign_of f a)) exact a (to_int a mode exact s)).

Lemma int_trip (a mode : Z) (exact : bool) (s : env) :
  - 2 ^ (mb f + 1) <= a <= 2 ^ (mb f + 1) -> lo <= a <= hi -> from_int_spec f s a (from_int a s) ->
  (b <- from_int a ;; to_int b mode exact)%M s = (a, s).
Proof.
  intros Ha Hr H. destruct (from_int_value f s a _ Emin Bias Ha H) as (F & Vr & S). unfold bind.
  destruct (from_int a s) as [b s']. cbn [fst snd] in *. subst s'.
  exact (to_int_exact f lo hi code b a s mode exact _ F Vr Hr (to_ok b mode exact s (proj1 F))).
Qed.

Context (add : Z -> Z -> M Z).
Context (from_ok : forall a s, - 2 ^ (mb f + 1) <= a <= 2 ^ (mb f + 1) -> from_int_spec f s a (from_int a s)).
Context (add_ok : forall a b s, valid_mode s -> is_finite f a -> is_finite f b ->
  let x := (value f a + value f b)%R in
  (x = 0%R -> add a b s = (with_sign f (if Bool.eqb (sign_of f a) (sign_of f b) then sign_of f a
                                        else softfloat_roundingMode s =? softfloat_round_min) 0, s)) /\
  correctly_rounded f s x (add a b s)).

Lemma int_addition (a b mode : Z) (exact : bool) (s : env) : valid_mode s ->
  - 2 ^ (mb f + 1) <= a <= 2 ^ (mb f + 1) -> - 2 ^ (mb f + 1) <= b <= 2 ^ (mb f + 1) ->
  - 2 ^ (mb f + 1) <= a + b <= 2 ^ (mb f + 1) -> lo <= a + b <= hi ->
  let sum := (x <- from_int a ;; y <- from_int b ;; add x y)%M in
  (a + b <> 0 -> sum s = from_int (a + b) s) /\ (z <- sum ;; to_int z mode exact)%M s = (a + b, s).
Proof.
  intros Hv Ha Hb Hs Hr sum.
  destruct (from_int_value f s a _ Emin Bias Ha (from_ok a s Ha)) as (Fa & Va & Sa).
  destruct (from_int_value f s b _ Emin Bias Hb (from_ok b s Hb)) as (Fb & Vb & Sb).
  destruct (from_int_value f s (a + b) _ Emin Bias Hs (from_ok (a + b) s Hs)) as (Fs & Vs & Ss).
  assert (E : sum s = add (fst (from_int a s)) (fst (from_int b s)) s).
  { unfold sum, bind. destruct (from_int a s) as [x s1]. cbn [fst snd] in *. subst s1. destruct (from_int b s) as [y s2]. cbn [fst snd] in *. now subst s2. }
  destruct (from_int (a + b) s) as [c s3]. cbn [fst snd] in *. subst s3.
  destruct (add_ok _ _ s Hv Fa Fb) as [Z0 C]. rewrite Va, Vb, <- plus_IZR in Z0, C. rewrite <- E in Z0, C.
  destruct (Z.eq_dec (a + b) 0) as [N|N].
  - split; [contradiction|]. rewrite N in Z0, Vs. rewrite N. unfold bind. rewrite (Z0 eq_refl).
    pose proof (inf_pattern_pos f). destruct (finite_pattern f (if Bool.eqb (sign_of f (fst (from_int a s))) (sign_of f (fst (from_int b s)))
      then sign_of f (fst (from_int a s)) else softfloat_roundingMode s =? softfloat_round_min) 0 ltac:(lia)) as (F0 & _ & _ & V0).
    rewrite N in Hr. refine (to_int_exact f lo hi code _ 0 s mode exact _ F0 _ Hr (to_ok _ mode exact s (proj1 F0))).
    rewrite V0, (mag_zero f). match goal with |- signR ?b _ = _ => destruct b; cbn [signR]; lra end.
  - rewrite <- Vs in C. apply (correctly_rounded_exact f s c) in C; [|assumption|rewrite Vs; now apply not_0_IZR].
    split; [intros _; exact C|]. unfold bind. rewrite C.
    exact (to_int_exact f lo hi code c (a + b) s mode exact _ Fs Vs Hr (to_ok c mode exact s (proj1 Fs))).
Qed.
End Integers.
