(* ===== verification/F32.v ===== *)
(** 32-bit floating point: the translation of [f32_*.c] and of the [*F32*.c]
    helpers of SoftFloat, in the 8086-SSE specialisation. *)
From Stdlib Require Import ZArith Bool Lia.
From S2P Require Import Prelude Ieee Softfloat Primitives.
Local Open Scope Z_scope.
Local Open Scope c_scope.
Local Open Scope M_scope.

(** ** Fields ([internals.h]) *)
Definition signF32UI (a : Z) : bool := z2b (u32 a >> 31).
Definition expF32UI (a : Z) : Z := (a >> 23) .& 0xFF.
Definition fracF32UI (a : Z) : Z := a .& 0x007FFFFF.
Definition packToF32UI (sign : bool) (exp sig : Z) : Z :=
  u64 (u32 (u32 (b2z sign << 31) + u32 (u32 exp << 23)) + sig).
Definition isNaNF32UI (a : Z) : bool := ((u64 (Z.lnot a) .& 0x7F800000) =? 0) && z2b (a .& 0x007FFFFF).

(** ** NaNs ([specialize.h]) *)
Definition defaultNaNF32UI : Z := 0xFFC00000.
Definition softfloat_isSigNaNF32UI (uiA : Z) : bool :=
  ((uiA .& 0x7FC00000) =? 0x7F800000) && z2b (uiA .& 0x003FFFFF).

Definition softfloat_propagateNaNF32UI (uiA uiB : Z) : M Z :=
  let isSigNaNA := softfloat_isSigNaNF32UI uiA in
  let last := ret ((if isNaNF32UI uiA then uiA else uiB) .| 0x00400000) in
  if isSigNaNA || softfloat_isSigNaNF32UI uiB then
    softfloat_raiseFlags softfloat_flag_invalid ;;;
    (if isSigNaNA then ret (uiA .| 0x00400000) else last)
  else last.

(** ** Normalisation, rounding and packing *)
Record exp16_sig32 := { e16s32_exp : Z; e16s32_sig : Z }.

Definition softfloat_normSubnormalF32Sig (sig : Z) : exp16_sig32 :=
  let shiftDist := i8 (softfloat_countLeadingZeros32 (u32 sig) - 8) in
  {| e16s32_exp := 1 - shiftDist; e16s32_sig := u64 (sig << shiftDist) |}.

Definition softfloat_roundPackToF32 (sign : bool) (exp sig : Z) : M Z :=
  s <- get ;;
  let roundingMode := softfloat_roundingMode s in
  let roundNearEven := roundingMode =? softfloat_round_near_even in
  let roundIncrement :=
    if negb roundNearEven && negb (roundingMode =? softfloat_round_near_maxMag) then
      if roundingMode =? (if sign then softfloat_round_min else softfloat_round_max) then 0x7F else 0
    else 0x40 in
  let roundBits := sig .& 0x7F in
  let pack exp sig roundBits :=
    let sig := u64 (sig + roundIncrement) >> 7 in
    when (z2b roundBits) (softfloat_raiseFlags softfloat_flag_inexact) ;;;
    let sig := sig .& u64 (Z.lnot (b2z (negb (z2b (roundBits .^ 0x40)) && roundNearEven))) in
    let exp := if negb (z2b sig) then 0 else exp in
    ret (u32 (packToF32UI sign exp sig)) in
  if 0xFD <=? u32 exp then
    if exp <? 0 then
      let isTiny :=
        (softfloat_detectTininess s =? softfloat_tininess_beforeRounding)
        || (exp <? -1) || (u64 (sig + roundIncrement) <? 0x80000000) in
      let sig := softfloat_shiftRightJam32 (u32 sig) (u64 (- exp)) in
      let exp := 0 in
      let roundBits := sig .& 0x7F in
      when (isTiny && z2b roundBits) (softfloat_raiseFlags softfloat_flag_underflow) ;;;
      pack exp sig roundBits
    else if (0xFD <? exp) || (0x80000000 <=? u64 (sig + roundIncrement)) then
      softfloat_raiseFlags (softfloat_flag_overflow .| softfloat_flag_inexact) ;;;
      ret (u32 (packToF32UI sign 0xFF 0 - b2z (negb (z2b roundIncrement))))
    else pack exp sig roundBits
  else pack exp sig roundBits.

Definition softfloat_normRoundPackToF32 (sign : bool) (exp sig : Z) : M Z :=
  let shiftDist := i8 (softfloat_countLeadingZeros32 (u32 sig) - 1) in
  let exp := exp - shiftDist in
  if (7 <=? shiftDist) && (u32 exp <? 0xFD) then
    ret (u32 (packToF32UI sign (if z2b sig then exp else 0) (u64 (sig << (shiftDist - 7)))))
  else
    softfloat_roundPackToF32 sign exp (u64 (sig << shiftDist)).

(** ** Addition and subtraction *)
Definition softfloat_addMagsF32 (uiA uiB : Z) : M Z :=
  let expA := expF32UI uiA in
  let sigA := fracF32UI uiA in
  let expB := expF32UI uiB in
  let sigB := fracF32UI uiB in
  let propagateNaN := uiZ <- softfloat_propagateNaNF32UI uiA uiB ;; ret (u32 uiZ) in
  let expDiff := expA - expB in
  if expDiff =? 0 then
    if expA =? 0 then ret (u32 (uiA + sigB))
    else if expA =? 0xFF then
      if z2b (sigA .| sigB) then propagateNaN else ret (u32 uiA)
    else
      let signZ := signF32UI uiA in
      let expZ := expA in
      let sigZ := u64 (0x01000000 + sigA + sigB) in
      if negb (z2b (sigZ .& 1)) && (expZ <? 0xFE) then
        ret (u32 (packToF32UI signZ expZ (sigZ >> 1)))
      else softfloat_roundPackToF32 signZ expZ (u64 (sigZ << 6))
  else
    let signZ := signF32UI uiA in
    let sigA := u64 (sigA << 6) in
    let sigB := u64 (sigB << 6) in
    let finish expZ sigA sigB :=
      let sigZ := u64 (0x20000000 + sigA + sigB) in
      let '(expZ, sigZ) := if sigZ <? 0x40000000 then (expZ - 1, u64 (sigZ << 1)) else (expZ, sigZ) in
      softfloat_roundPackToF32 signZ expZ sigZ in
    if expDiff <? 0 then
      if expB =? 0xFF then
        if z2b sigB then propagateNaN else ret (u32 (packToF32UI signZ 0xFF 0))
      else
        let expZ := expB in
        let sigA := u64 (sigA + (if z2b expA then 0x20000000 else sigA)) in
        let sigA := softfloat_shiftRightJam32 (u32 sigA) (u64 (- expDiff)) in
        finish expZ sigA sigB
    else
      if expA =? 0xFF then
        if z2b sigA then propagateNaN else ret (u32 uiA)
      else
        let expZ := expA in
        let sigB := u64 (sigB + (if z2b expB then 0x20000000 else sigB)) in
        let sigB := softfloat_shiftRightJam32 (u32 sigB) (u64 expDiff) in
        finish expZ sigA sigB.

Definition softfloat_subMagsF32 (uiA uiB : Z) : M Z :=
  let expA := expF32UI uiA in
  let sigA := fracF32UI uiA in
  let expB := expF32UI uiB in
  let sigB := fracF32UI uiB in
  let propagateNaN := uiZ <- softfloat_propagateNaNF32UI uiA uiB ;; ret (u32 uiZ) in
  let expDiff := expA - expB in
  if expDiff =? 0 then
    if expA =? 0xFF then
      if z2b (sigA .| sigB) then propagateNaN
      else softfloat_raiseFlags softfloat_flag_invalid ;;; ret (u32 defaultNaNF32UI)
    else
      let sigDiff := i64 (u64 (sigA - sigB)) in
      if sigDiff =? 0 then
        s <- get ;;
        ret (u32 (packToF32UI (softfloat_roundingMode s =? softfloat_round_min) 0 0))
      else
        let expA := if z2b expA then expA - 1 else expA in
        let signZ := signF32UI uiA in
        let '(signZ, sigDiff) := if sigDiff <? 0 then (negb signZ, - sigDiff) else (signZ, sigDiff) in
        let shiftDist := i8 (softfloat_countLeadingZeros32 (u32 sigDiff) - 8) in
        let expZ := expA - shiftDist in
        let '(shiftDist, expZ) := if expZ <? 0 then (i8 expA, 0) else (shiftDist, expZ) in
        ret (u32 (packToF32UI signZ expZ (u64 (sigDiff << shiftDist))))
  else
    let signZ := signF32UI uiA in
    let sigA := u64 (sigA << 7) in
    let sigB := u64 (sigB << 7) in
    let finish signZ expZ sigX sigY expDiff :=
      softfloat_normRoundPackToF32 signZ expZ
        (u64 (sigX - softfloat_shiftRightJam32 (u32 sigY) (u64 expDiff))) in
    if expDiff <? 0 then
      let signZ := negb signZ in
      if expB =? 0xFF then
        if z2b sigB then propagateNaN else ret (u32 (packToF32UI signZ 0xFF 0))
      else
        let expZ := expB - 1 in
        let sigX := sigB .| 0x40000000 in
        let sigY := u64 (sigA + (if z2b expA then 0x40000000 else sigA)) in
        finish signZ expZ sigX sigY (- expDiff)
    else
      if expA =? 0xFF then
        if z2b sigA then propagateNaN else ret (u32 uiA)
      else
        let expZ := expA - 1 in
        let sigX := sigA .| 0x40000000 in
        let sigY := u64 (sigB + (if z2b expB then 0x40000000 else sigB)) in
        finish signZ expZ sigX sigY expDiff.

Definition f32_add (a b : Z) : M Z :=
  if signF32UI (a .^ b) then softfloat_subMagsF32 a b else softfloat_addMagsF32 a b.

Definition f32_sub (a b : Z) : M Z :=
  if signF32UI (a .^ b) then softfloat_addMagsF32 a b else softfloat_subMagsF32 a b.

(** ** Multiplication *)
Definition f32_mul (a b : Z) : M Z :=
  let uiA := a in
  let signA := signF32UI uiA in
  let expA := expF32UI uiA in
  let sigA := fracF32UI uiA in
  let uiB := b in
  let signB := signF32UI uiB in
  let expB := expF32UI uiB in
  let sigB := fracF32UI uiB in
  let signZ := xorb signA signB in
  let propagateNaN := uiZ <- softfloat_propagateNaNF32UI uiA uiB ;; ret (u32 uiZ) in
  let infArg magBits :=
    if negb (z2b magBits) then
      softfloat_raiseFlags softfloat_flag_invalid ;;; ret (u32 defaultNaNF32UI)
    else ret (u32 (packToF32UI signZ 0xFF 0)) in
  let zero := ret (u32 (packToF32UI signZ 0 0)) in
  let multiply expA sigA expB sigB :=
    let expZ := expA + expB - 0x7F in
    let sigA := u64 ((sigA .| 0x00800000) << 7) in
    let sigB := u64 ((sigB .| 0x00800000) << 8) in
    let sigZ := softfloat_shortShiftRightJam64 (u64 (sigA * sigB)) 32 in
    let '(expZ, sigZ) := if sigZ <? 0x40000000 then (expZ - 1, u64 (sigZ << 1)) else (expZ, sigZ) in
    softfloat_roundPackToF32 signZ expZ sigZ in
  let normB expA sigA :=
    if negb (z2b expB) then
      if negb (z2b sigB) then zero
      else
        let normExpSig := softfloat_normSubnormalF32Sig sigB in
        multiply expA sigA (e16s32_exp normExpSig) (e16s32_sig normExpSig)
    else multiply expA sigA expB sigB in
  if expA =? 0xFF then
    if z2b sigA || ((expB =? 0xFF) && z2b sigB) then propagateNaN
    else infArg (expB .| sigB)
  else if expB =? 0xFF then
    if z2b sigB then propagateNaN else infArg (expA .| sigA)
  else if negb (z2b expA) then
    if negb (z2b sigA) then zero
    else
      let normExpSig := softfloat_normSubnormalF32Sig sigA in
      normB (e16s32_exp normExpSig) (e16s32_sig normExpSig)
  else normB expA sigA.

(** ** Division (with a 64-bit by 32-bit hardware division) *)
Definition f32_div (a b : Z) : M Z :=
  let uiA := a in
  let signA := signF32UI uiA in
  let expA := expF32UI uiA in
  let sigA := fracF32UI uiA in
  let uiB := b in
  let signB := signF32UI uiB in
  let expB := expF32UI uiB in
  let sigB := fracF32UI uiB in
  let signZ := xorb signA signB in
  let propagateNaN := uiZ <- softfloat_propagateNaNF32UI uiA uiB ;; ret (u32 uiZ) in
  let invalid := softfloat_raiseFlags softfloat_flag_invalid ;;; ret (u32 defaultNaNF32UI) in
  let infinity := ret (u32 (packToF32UI signZ 0xFF 0)) in
  let zero := ret (u32 (packToF32UI signZ 0 0)) in
  let divide expA sigA expB sigB :=
    let expZ := expA - expB + 0x7E in
    let sigA := sigA .| 0x00800000 in
    let sigB := sigB .| 0x00800000 in
    let '(expZ, sig64A) :=
      if sigA <? sigB then (expZ - 1, u64 (sigA << 31)) else (expZ, u64 (sigA << 30)) in
    let sigZ := sig64A / sigB in
    let sigZ :=
      if negb (z2b (sigZ .& 0x3F)) then sigZ .| b2z (negb (u64 (sigB * sigZ) =? sig64A)) else sigZ in
    softfloat_roundPackToF32 signZ expZ sigZ in
  let normA expB sigB :=
    if negb (z2b expA) then
      if negb (z2b sigA) then zero
      else
        let normExpSig := softfloat_normSubnormalF32Sig sigA in
        divide (e16s32_exp normExpSig) (e16s32_sig normExpSig) expB sigB
    else divide expA sigA expB sigB in
  if expA =? 0xFF then
    if z2b sigA then propagateNaN
    else if expB =? 0xFF then
      if z2b sigB then propagateNaN else invalid
    else infinity
  else if expB =? 0xFF then
    if z2b sigB then propagateNaN else zero
  else if negb (z2b expB) then
    if negb (z2b sigB) then
      if negb (z2b (expA .| sigA)) then invalid
      else softfloat_raiseFlags softfloat_flag_infinite ;;; infinity
    else
      let normExpSig := softfloat_normSubnormalF32Sig sigB in
      normA (e16s32_exp normExpSig) (e16s32_sig normExpSig)
  else normA expB sigB.

(** ** Comparisons *)
Definition f32_eq (a b : Z) : M bool :=
  let uiA := a in
  let uiB := b in
  if isNaNF32UI uiA || isNaNF32UI uiB then
    when (softfloat_isSigNaNF32UI uiA || softfloat_isSigNaNF32UI uiB)
      (softfloat_raiseFlags softfloat_flag_invalid) ;;;
    ret false
  else ret ((uiA =? uiB) || negb (z2b (u32 (u64 ((uiA .| uiB) << 1))))).

Definition f32_eq_signaling (a b : Z) : M bool :=
  let uiA := a in
  let uiB := b in
  if isNaNF32UI uiA || isNaNF32UI uiB then
    softfloat_raiseFlags softfloat_flag_invalid ;;; ret false
  else ret ((uiA =? uiB) || negb (z2b (u32 (u64 ((uiA .| uiB) << 1))))).

Definition f32_le (a b : Z) : M bool :=
  let uiA := a in
  let uiB := b in
  if isNaNF32UI uiA || isNaNF32UI uiB then
    softfloat_raiseFlags softfloat_flag_invalid ;;; ret false
  else
    let signA := signF32UI uiA in
    let signB := signF32UI uiB in
    ret (if xorb signA signB then signA || negb (z2b (u32 (u64 ((uiA .| uiB) << 1))))
         else (uiA =? uiB) || xorb signA (uiA <? uiB)).

Definition f32_lt (a b : Z) : M bool :=
  let uiA := a in
  let uiB := b in
  if isNaNF32UI uiA || isNaNF32UI uiB then
    softfloat_raiseFlags softfloat_flag_invalid ;;; ret false
  else
    let signA := signF32UI uiA in
    let signB := signF32UI uiB in
    ret (if xorb signA signB then signA && negb (u32 (u64 ((uiA .| uiB) << 1)) =? 0)
         else negb (uiA =? uiB) && xorb signA (uiA <? uiB)).

Definition f32_le_quiet (a b : Z) : M bool :=
  let uiA := a in
  let uiB := b in
  if isNaNF32UI uiA || isNaNF32UI uiB then
    when (softfloat_isSigNaNF32UI uiA || softfloat_isSigNaNF32UI uiB)
      (softfloat_raiseFlags softfloat_flag_invalid) ;;;
    ret false
  else
    let signA := signF32UI uiA in
    let signB := signF32UI uiB in
    ret (if xorb signA signB then signA || negb (z2b (u32 (u64 ((uiA .| uiB) << 1))))
         else (uiA =? uiB) || xorb signA (uiA <? uiB)).

Definition f32_lt_quiet (a b : Z) : M bool :=
  let uiA := a in
  let uiB := b in
  if isNaNF32UI uiA || isNaNF32UI uiB then
    when (softfloat_isSigNaNF32UI uiA || softfloat_isSigNaNF32UI uiB)
      (softfloat_raiseFlags softfloat_flag_invalid) ;;;
    ret false
  else
    let signA := signF32UI uiA in
    let signB := signF32UI uiB in
    ret (if xorb signA signB then signA && negb (u32 (u64 ((uiA .| uiB) << 1)) =? 0)
         else negb (uiA =? uiB) && xorb signA (uiA <? uiB)).

Definition f32_isSignalingNaN (a : Z) : bool := softfloat_isSigNaNF32UI a.
