(* ===== verification/F32Round.v ===== *)
(** Rounding and packing to 32 bits is correct rounding. *)
From Stdlib Require Import ZArith Bool Lia Reals Lra.
From S2P Require Import Prelude Ieee Rounding RoundPack Softfloat Primitives Machine F32.
Local Open Scope Z_scope.
Local Open Scope c_scope.

Lemma packToF32UI_eq (sign : bool) (exp sig : Z) :
  0 <= exp < 2 ^ 8 -> 0 <= sig -> exp * 2 ^ 23 + sig < 2 ^ 31 ->
  u32 (packToF32UI sign exp sig) = with_sign F32 sign (exp * 2 ^ 23 + sig).
Proof.
  intros He Hs Hb. unfold packToF32UI, with_sign. change (sign_weight F32) with (2 ^ 31).
  rewrite !shl_mul by lia. assert (0 <= b2z sign <= 1) by (destruct sign; cbn; lia).
  set (t := b2z sign) in *. clearbody t.
  rewrite (uwrap_small 32 exp), (uwrap_small 32 (exp * _)), (uwrap_small 32 (t * _)) by lia.
  rewrite (uwrap_small 32 (t * _ + _)), (uwrap_small 64) by lia.
  rewrite uwrap_small; lia.
Qed.

Lemma packToF32UI_overflow (sign : bool) (inc : Z) :
  u32 (packToF32UI sign 0xFF 0 - b2z (negb (z2b inc))) =
  with_sign F32 sign (inf_pattern F32 - b2z (inc =? 0)).
Proof.
  unfold z2b. rewrite negb_involutive. destruct sign, (inc =? 0); reflexivity.
Qed.

(** Dropping the guard bits and packing. *)
#[local] Definition tail32 := round_pack_tail F32 7 0x40 (fun sign e n => u32 (packToF32UI sign e n))
  ltac:(lia) eq_refl ltac:(simpl; lia)
  ltac:(cbn [mb eb F32]; intros; apply packToF32UI_eq; lia).

(** The C function computes the generic one. *)
Lemma softfloat_roundPackToF32_eq (sign : bool) (exp sig : Z) (s : env) :
  - 2 ^ 31 < exp < 2 ^ 31 -> 2 ^ 30 <= sig < 2 ^ 31 ->
  let d := env_direction s sign in
  softfloat_roundPackToF32 sign exp sig s =
    (with_sign F32 sign (round_pack F32 d 7 exp sig),
     raised_env (round_pack_flags F32 d 7 (env_before s) exp sig) s).
Proof.
  intros He Hs d. unfold softfloat_roundPackToF32.
  change (bind get ?k s) with (k s s). cbv beta zeta.
  rewrite (increment_code 7) by reflexivity.
  rewrite !(land_low _ 0x7F 7) by (reflexivity || lia).
  pose proof (increment_bound (mag_direction (softfloat_roundingMode s) sign) 7 ltac:(lia)) as I.
  unfold round_pack, round_pack_flags, rp_overflow, rp_tiny, rp_sig.
  fold (env_direction s sign) in I. fold d in I.
  change (2 ^ eb F32 - 3) with 0xFD. change (2 ^ (mb F32 + 7 + 1)) with 0x80000000.
  change (mb F32) with 23.
  destruct (Z.leb_spec 0xFD (u32 exp)) as [U|U].
  - destruct (Z.ltb_spec exp 0) as [E|E].
    + replace (0xFD <? exp) with false by (symmetry; apply Z.ltb_ge; lia).
      replace (exp =? 0xFD) with false by (symmetry; apply Z.eqb_neq; lia). cbn [orb andb].
      rewrite (uwrap_small 32 sig), (uwrap_small 64 (- exp)) by lia.
      rewrite softfloat_shiftRightJam32_jam by lia.
      assert (J : 0 <= jam sig (- exp) < 2 ^ 31) by (split; [apply jam_nonneg|apply jam_bound]; lia).
      unfold bind at 1. rewrite when_raise.
      rewrite (tail32 sign (softfloat_roundingMode s) 0 (jam sig (- exp))) by fmt_lia.
      rewrite raised_env_lor. fold (env_direction s sign). fold d.
      rewrite (uwrap_small 64 (sig + _)) by lia. unfold env_before, z2b.
      replace (Z.max exp 0) with 0 by lia. f_equal. f_equal.
      destruct (jam sig (- exp) mod 2 ^ 7 =? 0); cbn [negb]; rewrite ?andb_false_r, ?andb_true_r; [reflexivity|].
      destruct (_ || _); reflexivity.
    + rewrite (uwrap_small 32 exp) in U by lia.
      fold (env_direction s sign). fold d.
      replace (0x80000000 <=? u64 (sig + increment d 7)) with (0x80000000 <=? sig + increment d 7)
        by (rewrite uwrap_small by lia; reflexivity).
      replace (Z.max exp 0) with exp by lia.
      assert (O : (0xFD <? exp) || (exp =? 0xFD) && (0x80000000 <=? sig + increment d 7) =
                  (0xFD <? exp) || (0x80000000 <=? sig + increment d 7)).
      { destruct (Z.ltb_spec 0xFD exp); [reflexivity|]. now replace (exp =? 0xFD) with true by lia. }
      rewrite O. destruct ((0xFD <? exp) || (0x80000000 <=? sig + increment d 7)) eqn:X.
      * unfold bind, softfloat_raiseFlags, ret. f_equal. apply packToF32UI_overflow.
      * rewrite (tail32 sign (softfloat_roundingMode s) exp sig) by fmt_lia. reflexivity.
  - assert (E : 0 <= exp < 0xFD) by (unfold uwrap in U; destruct (Z.ltb_spec exp 0); zdm).
    replace (0xFD <? exp) with false by lia. replace (exp =? 0xFD) with false by lia.
    destruct (Z.ltb_spec exp 0); [lia|]. cbn [orb andb]. replace (Z.max exp 0) with exp by lia.
    rewrite (tail32 sign (softfloat_roundingMode s) exp sig) by fmt_lia. reflexivity.
Qed.

(** The result is the correct rounding of the real number that the significand
    stands for, with 7 guard bits of which the last may be sticky. *)
Lemma softfloat_roundPackToF32_rounds (sign : bool) (k exp sig : Z) (s : env) (x y : R) :
  - 2 ^ 31 < exp < 2 ^ 31 -> 2 ^ 30 <= sig < 2 ^ 31 -> 0 <= k <= 6 -> same (2 ^ k) sig y ->
  x = (y * pow2 (exp - 7 + emin F32))%R ->
  rounded_result F32 s sign x (softfloat_roundPackToF32 sign exp sig s).
Proof.
  intros He Hs Hk S X. rewrite softfloat_roundPackToF32_eq by assumption.
  apply (round_pack_result F32 s sign 7 k exp sig x y); try assumption; fmt_lia.
Qed.

(** ** Fields *)
Lemma F32_fields (a : Z) : is_enc F32 a ->
  signF32UI a = sign_of F32 a /\ 0 <= expF32UI a < 2 ^ 8 /\ 0 <= fracF32UI a < 2 ^ 23 /\
  pattern_of F32 a = expF32UI a * 2 ^ 23 + fracF32UI a /\ a = with_sign F32 (sign_of F32 a) (pattern_of F32 a).
Proof.
  unfold is_enc, signF32UI, expF32UI, fracF32UI, sign_of, pattern_of, with_sign.
  change (sign_weight F32) with (2 ^ 31). intros Ha.
  rewrite !shr_div, (land_low _ 0xFF 8), (land_low _ 0x007FFFFF 23) by (reflexivity || lia).
  rewrite uwrap_small by lia.
  assert (D : 0 <= a / 2 ^ 31 <= 1) by zdm.
  repeat split; try (apply Z.mod_pos_bound; lia).
  - unfold z2b. destruct (Z.eqb_spec (a / 2 ^ 31) 0), (Z.leb_spec (2 ^ 31) a); try reflexivity; zdm.
  - zdm.
  - destruct (Z.leb_spec (2 ^ 31) a); cbn [Z.b2z]; zdm.
Qed.

(** A sum of aligned significands, the smaller one shifted with a sticky bit. *)
Lemma align32_round (sign : bool) (e d sx sy sz : Z) (s : env) (x : R) :
  1 <= e <= 0xFE -> 0 < d < 2 ^ 31 -> 2 ^ 29 <= sx < 2 ^ 30 -> sx mod 2 = 0 -> 0 <= sy < 2 ^ 30 ->
  sz = sx + jam sy d ->
  x = (IZR sx * pow2 (e - 7 + emin F32) + IZR sy * pow2 (e - d - 7 + emin F32))%R ->
  rounded_result F32 s sign x
    ((let '(ez, sz) := if u64 sz <? 0x40000000 then (e - 1, u64 (u64 sz << 1)) else (e, u64 sz) in
      softfloat_roundPackToF32 sign ez sz) s).
Proof.
  intros He Hd Hx Hx2 Hy -> X.
  assert (X' : x = ((IZR sx + IZR sy * pow2 (- d)) * pow2 (e - 7 + emin F32))%R).
  { rewrite X, Rmult_plus_distr_r, Rmult_assoc, <- pow2_add. do 3 f_equal. lia. }
  clear X. set (sz := sx + jam sy d).
  assert (J : 0 <= jam sy d < 2 ^ 30) by (split; [apply jam_nonneg|apply jam_bound]; lia).
  assert (S : same 2 sz (IZR sx + IZR sy * pow2 (- d))).
  { apply same_add; [exists (sx / 2); zdm|]. change 2 with (2 ^ 1).
    apply same_pow with (Z.max 1 (0 - d)); [lia|]. apply same_jam; try lia. apply (same_exact 1). }
  set (y := (IZR sx + IZR sy * pow2 (- d))%R) in *. clearbody y.
  rewrite (uwrap_small 64 sz) by lia. rewrite shl_mul by lia.
  destruct (Z.ltb_spec sz 0x40000000).
  - rewrite uwrap_small by lia.
    apply softfloat_roundPackToF32_rounds with (k := 2) (y := (y * pow2 1)%R); try lia.
    + apply (same_shl 1 1); try lia. exact S.
    + rewrite X', Rmult_assoc, <- pow2_add. do 2 f_equal. lia.
  - apply softfloat_roundPackToF32_rounds with (k := 1) (y := y); try lia; [exact S|exact X'].
Qed.

(** Normalising first: either nothing was lost, or at most a few bits cancelled. *)
Lemma softfloat_normRoundPackToF32_rounds (sign : bool) (exp sig : Z) (s : env) (x y : R) :
  - 2 ^ 30 < exp <= 0xFD -> 0 < sig < 2 ^ 31 -> y = IZR sig \/ 2 ^ 26 <= sig /\ same 2 sig y ->
  x = (y * pow2 (exp - 7 + emin F32))%R ->
  rounded_result F32 s sign x (softfloat_normRoundPackToF32 sign exp sig s).
Proof.
  intros He Hs Hy X. unfold softfloat_normRoundPackToF32.
  rewrite (uwrap_small 32 sig), softfloat_countLeadingZeros32_spec by lia.
  pose proof (Z.log2_spec sig ltac:(lia)) as L. pose proof (Z.log2_nonneg sig) as L0.
  pose proof (proj1 (log2_bounds sig 31 ltac:(lia) ltac:(lia)) ltac:(lia)) as L1.
  replace (nlz 32 sig - 1) with (30 - Z.log2 sig) by (unfold nlz; lia).
  assert (L26 : 2 ^ 26 <= sig -> 26 <= Z.log2 sig) by (intros K; apply Z.log2_le_pow2 in K; lia).
  set (l := Z.log2 sig) in *. clearbody l. rewrite swrap_small by fmt_lia.
  assert (B : 2 ^ 30 <= sig * 2 ^ (30 - l) < 2 ^ 31).
  { rewrite Z.pow_succ_r in L by lia. assert (P : 0 < 2 ^ (30 - l)) by (apply Z.pow_pos_nonneg; lia).
    assert (2 ^ 30 = 2 ^ l * 2 ^ (30 - l)) by (rewrite <- Z.pow_add_r by lia; f_equal; lia). nia. }
  destruct (_ && _) eqn:C.
  - apply andb_true_iff in C as [C1%Z.leb_le C2%Z.ltb_lt].
    assert (C3 : 0 <= exp - (30 - l) < 0xFD) by (unfold uwrap in C2; destruct (Z.ltb_spec (exp - (30 - l)) 0); zdm).
    destruct Hy as [->|[Hy _]]; [|lia].
    replace (30 - l - 7) with (23 - l) by lia. rewrite shl_mul by lia.
    assert (P : 0 < 2 ^ (23 - l)) by (apply Z.pow_pos_nonneg; lia).
    assert (E : 2 ^ (30 - l) = 2 ^ 7 * 2 ^ (23 - l)) by (rewrite <- Z.pow_add_r by lia; f_equal; lia).
    assert (B' : 2 ^ 23 <= sig * 2 ^ (23 - l) < 2 ^ 24) by lia.
    rewrite (uwrap_small 64) by lia. unfold z2b at 1.
    replace (sig =? 0) with false by lia. cbn [negb].
    rewrite packToF32UI_eq by lia. subst x. unfold ret.
    apply exact_result; [typeclasses eauto|change (inf_pattern F32) with (0xFF * 2 ^ 23); lia|].
    rewrite (mag_pack F32 (exp - (30 - l))) by fmt_lia.
    rewrite mult_IZR, <- pow2_IZR, Rmult_assoc, <- pow2_add by lia. do 2 f_equal. lia.
  - rewrite shl_mul, (uwrap_small 64) by lia.
    apply softfloat_roundPackToF32_rounds with (k := if sig <? 2 ^ 26 then 0 else 1 + (30 - l)) (y := (y * pow2 (30 - l))%R);
      try lia; [destruct (Z.ltb_spec sig (2 ^ 26)); lia| |].
    + destruct Hy as [->|[Hy S]].
      * apply (same_pow 0); [destruct (Z.ltb_spec sig (2 ^ 26)); lia|].
        replace (IZR sig * pow2 (30 - l))%R with (IZR (sig * 2 ^ (30 - l))) by (rewrite mult_IZR, pow2_IZR by lia; ring).
        apply same_exact.
      * destruct (Z.ltb_spec sig (2 ^ 26)); [lia|]. apply (same_shl 1 (30 - l)); try lia. exact S.
    + rewrite X, Rmult_assoc, <- pow2_add. do 2 f_equal. lia.
Qed.

Lemma mag32_fields (e m : Z) : 0 <= e -> 0 <= m < 2 ^ 23 ->
  mag F32 (e * 2 ^ 23 + m) = (IZR (if e =? 0 then m else 2 ^ 23 + m) * pow2 (Z.max e 1 - 1 + emin F32))%R.
Proof. exact (mag_fields F32 e m). Qed.

Lemma mag32_pack (q n : Z) : 0 <= q -> 0 <= n <= 2 ^ 24 -> q = 0 \/ 2 ^ 23 <= n ->
  mag F32 (q * 2 ^ 23 + n) = (IZR n * pow2 (q + emin F32))%R.
Proof. exact (mag_pack F32 q n). Qed.

Lemma exact32_result (s : env) (sign : bool) (b : Z) (x : R) :
  0 <= b < 0xFF * 2 ^ 23 -> mag F32 b = x -> rounded_result F32 s sign x (with_sign F32 sign b, s).
Proof. exact (exact_result F32 s sign b x). Qed.

(** A difference of aligned significands. *)
Lemma cancel32_round (sign : bool) (e d sx sy : Z) (s : env) (x : R) :
  1 <= e <= 0xFE -> 0 < d < 2 ^ 31 -> 2 ^ 30 <= sx < 2 ^ 31 -> sx mod 2 = 0 ->
  0 <= sy < 2 ^ 31 -> sy mod 2 ^ 7 = 0 ->
  x = (IZR sx * pow2 (e - 8 + emin F32) - IZR sy * pow2 (e - d - 8 + emin F32))%R ->
  (0 < x)%R /\ rounded_result F32 s sign x (softfloat_normRoundPackToF32 sign (e - 1) (u64 (sx - jam sy d)) s).
Proof.
  intros He Hd Hx Hx2 Hy Hy7 X.
  assert (X' : x = ((IZR sx - IZR sy * pow2 (- d)) * pow2 (e - 8 + emin F32))%R).
  { rewrite X. unfold Rminus. rewrite Rmult_plus_distr_r, <- Ropp_mult_distr_l, Rmult_assoc, <- pow2_add. do 4 f_equal. lia. }
  clear X.
  assert (P : 2 <= 2 ^ d) by (apply (Z.pow_le_mono_r 2 1); lia).
  assert (Q : 0 <= sy / 2 ^ d < 2 ^ 30) by (split; [apply Z.div_pos; lia|apply Z.div_lt_upper_bound; nia]).
  assert (J : 0 <= jam sy d < 2 ^ 30) by (split; [apply jam_nonneg; lia|rewrite jam_eq by lia; destruct (_ =? 0); zdm]).
  assert (S : same 2 (sx - jam sy d) (IZR sx - IZR sy * pow2 (- d))).
  { apply same_sub; [exists (sx / 2); zdm|]. change 2 with (2 ^ 1).
    apply same_pow with (Z.max 1 (0 - d)); [lia|]. apply same_jam; try lia. apply (same_exact 1). }
  assert (E : (IZR sx - IZR sy * pow2 (- d))%R = IZR (sx - jam sy d) \/ 2 ^ 26 <= sx - jam sy d).
  { destruct (Z.le_gt_cases d 7) as [C|C]; [left|right].
    - assert (Z0 : sy mod 2 ^ d = 0).
      { apply Z.mod_divide in Hy7; [|lia]. apply Z.mod_divide; [lia|]. apply Z.divide_trans with (2 ^ 7); [|assumption].
        exists (2 ^ (7 - d)). rewrite <- Z.pow_add_r by lia. f_equal. lia. }
      rewrite jam_eq, Z0 by lia. cbn [Z.eqb]. rewrite minus_IZR. f_equal.
      rewrite (Z.div_mod sy (2 ^ d)) at 1 by lia. rewrite Z0, Z.add_0_r, mult_IZR, <- pow2_IZR, pow2_opp by lia.
      field. pose proof (pow2_pos d). lra.
    - assert (2 ^ 8 <= 2 ^ d) by (apply Z.pow_le_mono_r; lia).
      assert (sy / 2 ^ d < 2 ^ 23) by (apply Z.div_lt_upper_bound; nia).
      rewrite jam_eq by lia. destruct (_ =? 0); zdm. }
  set (y := (IZR sx - IZR sy * pow2 (- d))%R) in *. rewrite (uwrap_small 64) by lia. split.
  - rewrite X'. apply Rmult_lt_0_compat; [|auto]. destruct E as [->|E]; [apply IZR_lt; lia|].
    pose proof (same_lower 2 1 _ _ S ltac:(lia)) as L. simpl in L. lra.
  - apply softfloat_normRoundPackToF32_rounds with (y := y); try lia.
    + destruct E as [E|E]; [now left|right; now split].
    + rewrite X'. do 2 f_equal. lia.
Qed.
