(* ===== verification/F32Arith.v ===== *)
(** 32-bit addition and subtraction are correctly rounded and meet their contracts;
    the comparisons order the encodings by their value. *)
From Stdlib Require Import ZArith Bool Lia Reals Lra.
From S2P Require Import Prelude Ieee Rounding RoundPack Softfloat Primitives Machine Contract F32 F32Round.
Local Open Scope Z_scope.
Local Open Scope c_scope.

(** ** 32-bit addition and subtraction are correctly rounded *)

Lemma softfloat_addMagsF32_finite (a b : Z) (s : env) :
  is_finite F32 a -> is_finite F32 b ->
  rounded_result F32 s (sign_of F32 a) (mag F32 (pattern_of F32 a) + mag F32 (pattern_of F32 b))
    (softfloat_addMagsF32 a b s).
Proof.
  intros [Ha Fa] [Hb Fb].
  destruct (F32_fields a Ha) as (Sa & Ea & Ma & Pa & Wa). destruct (F32_fields b Hb) as (Sb & Eb & Mb & Pb & Wb).
  unfold softfloat_addMagsF32. rewrite Sa.
  set (eA := expF32UI a) in *. set (mA := fracF32UI a) in *. set (eB := expF32UI b) in *. set (mB := fracF32UI b) in *.
  set (sgn := sign_of F32 a) in *. rewrite Pa, Pb in *.
  change (inf_pattern F32) with (0xFF * 2 ^ 23) in Fa, Fb.
  assert (LA : eA < 0xFF) by lia. assert (LB : eB < 0xFF) by lia.
  clearbody eA mA eB mB sgn.
  rewrite !mag32_fields by lia.
  destruct (Z.eqb_spec (eA - eB) 0) as [D|D].
  - assert (eB = eA) as -> by lia. destruct (Z.eqb_spec eA 0) as [E|E].
    + rewrite E in *. replace (u32 (a + mB)) with (with_sign F32 sgn (mA + mB)).
      * apply exact32_result; [lia|]. etransitivity; [apply (mag32_pack 0 (mA + mB)); lia|]. rewrite plus_IZR.
        change (Z.max 0 1 - 1) with 0. ring.
      * rewrite Wa. unfold with_sign. change (sign_weight F32) with (2 ^ 31).
        rewrite uwrap_small; destruct sgn; cbn [Z.b2z]; lia.
    + destruct (Z.eqb_spec eA 0xFF); [lia|]. replace (Z.max eA 1) with eA by lia.
      rewrite !(uwrap_small 64 (_ + mA + mB)) by lia.
      rewrite (land_low _ 1 1) by (reflexivity || lia).
      assert (X : forall k, (IZR (2 ^ 23 + mA) * pow2 (eA - 1 + emin F32) + IZR (2 ^ 23 + mB) * pow2 (eA - 1 + emin F32))%R
                = (IZR (2 ^ 24 + mA + mB) * pow2 k * pow2 (eA - 1 - k + emin F32))%R).
      { intros k. rewrite Rmult_assoc, <- pow2_add, <- Rmult_plus_distr_r, <- plus_IZR. do 2 f_equal; lia. }
      destruct (_ && _) eqn:C.
      * apply andb_true_iff in C as [C1 C2]. unfold z2b in C1. rewrite negb_involutive in C1.
        apply Z.eqb_eq in C1. apply Z.ltb_lt in C2. rewrite shr_div by lia.
        set (h := (0x01000000 + mA + mB) / 2 ^ 1). assert (N : 2 ^ 24 + mA + mB = h * 2 ^ 1) by (unfold h; zdm).
        clearbody h. rewrite packToF32UI_eq by lia. apply exact32_result; [lia|].
        rewrite (mag32_pack eA) by lia. rewrite (X 0), N, mult_IZR, <- (pow2_IZR 1), pow2_0, Rmult_1_r by lia.
        rewrite Rmult_assoc, <- pow2_add. do 2 f_equal. lia.
      * rewrite shl_mul, uwrap_small by lia.
        apply softfloat_roundPackToF32_rounds with (k := 0) (y := IZR ((2 ^ 24 + mA + mB) * 2 ^ 6)); try lia.
        { apply (same_exact 1). }
        rewrite (X 6), mult_IZR, <- (pow2_IZR 6) by lia. do 2 f_equal. lia.
  - destruct (Z.eqb_spec eB 0xFF), (Z.eqb_spec eA 0xFF); try lia.
    rewrite !(shl_mul _ 6), (uwrap_small 64 (mA * _)), (uwrap_small 64 (mB * _)) by lia.
    assert (X : forall e m (q := if z2b e then 0x20000000 else m * 2 ^ 6), 0 <= e -> 0 <= m < 2 ^ 23 ->
      0 <= m * 2 ^ 6 + q < 2 ^ 30 /\
      (IZR (if e =? 0 then m else 2 ^ 23 + m) * pow2 (Z.max e 1 - 1 + emin F32) =
       IZR (m * 2 ^ 6 + q) * pow2 (e - 7 + emin F32))%R).
    { intros e m q He Hm. unfold q, z2b. destruct (Z.eqb_spec e 0) as [->|N]; cbn [negb]; (split; [lia|]).
      - replace (m * 2 ^ 6 + m * 2 ^ 6) with (m * 2 ^ 7) by lia.
        rewrite mult_IZR, <- (pow2_IZR 7), Rmult_assoc, <- pow2_add by lia. do 2 f_equal.
      - replace (m * 2 ^ 6 + 0x20000000) with ((2 ^ 23 + m) * 2 ^ 6) by lia.
        rewrite mult_IZR, <- (pow2_IZR 6), Rmult_assoc, <- pow2_add by lia. do 2 f_equal. lia. }
    destruct (X eA mA ltac:(lia) Ma) as [BA EA]. destruct (X eB mB ltac:(lia) Mb) as [BB EB].
    destruct (Z.ltb_spec (eA - eB) 0) as [L|L].
    + rewrite (uwrap_small 64 (- (eA - eB))), (uwrap_small 64 (_ + (if z2b eA then _ else _))), (uwrap_small 32) by lia.
      rewrite softfloat_shiftRightJam32_jam by lia. rewrite EA.
      apply align32_round with (d := - (eA - eB)) (sx := 0x20000000 + mB * 2 ^ 6)
        (sy := mA * 2 ^ 6 + (if z2b eA then 0x20000000 else mA * 2 ^ 6)); try lia; [zdm|].
      rewrite EB. unfold z2b. destruct (Z.eqb_spec eB 0); [lia|]. cbn [negb].
      rewrite Rplus_comm. do 2 f_equal; [f_equal; lia|f_equal; lia].
    + rewrite (uwrap_small 64 (eA - eB)), (uwrap_small 64 (_ + (if z2b eB then _ else _))), (uwrap_small 32) by lia.
      rewrite softfloat_shiftRightJam32_jam by lia. rewrite EB.
      apply align32_round with (d := eA - eB) (sx := 0x20000000 + mA * 2 ^ 6)
        (sy := mB * 2 ^ 6 + (if z2b eB then 0x20000000 else mB * 2 ^ 6)); try lia; [zdm|].
      rewrite EA. unfold z2b. destruct (Z.eqb_spec eA 0); [lia|]. cbn [negb].
      do 2 f_equal; [f_equal; lia|f_equal; lia].
Qed.

(** An exact difference in the same binade. *)
Lemma same_binade32 (sign : bool) (e n : Z) (s : env) (r : Z * env) :
  0 <= e < 0xFF -> 0 < n < 2 ^ 23 ->
  r = (let e := if z2b e then e - 1 else e in
       let shiftDist := i8 (softfloat_countLeadingZeros32 (u32 n) - 8) in
       let expZ := e - shiftDist in
       let '(shiftDist, expZ) := if expZ <? 0 then (i8 e, 0) else (shiftDist, expZ) in
       ret (u32 (packToF32UI sign expZ (u64 (n << shiftDist))))) s ->
  rounded_result F32 s sign (IZR n * pow2 (Z.max e 1 - 1 + emin F32)) r.
Proof.
  intros He Hn ->. cbv zeta. unfold ret.
  replace (if z2b e then e - 1 else e) with (Z.max e 1 - 1) by (unfold z2b; destruct (Z.eqb_spec e 0); cbn [negb]; lia).
  set (q := Z.max e 1 - 1). assert (Hq : 0 <= q < 0xFE) by lia. clearbody q.
  rewrite (uwrap_small 32 n), softfloat_countLeadingZeros32_spec by lia.
  pose proof (Z.log2_spec n ltac:(lia)) as L. pose proof (Z.log2_nonneg n) as L0.
  pose proof (proj1 (log2_bounds n 23 ltac:(lia) ltac:(lia)) ltac:(lia)) as L1.
  replace (nlz 32 n - 8) with (23 - Z.log2 n) by (unfold nlz; lia).
  set (l := Z.log2 n) in *. clearbody l. rewrite (swrap_small 8 (23 - l)) by fmt_lia.
  assert (F : forall h, 0 <= h <= 23 - l -> h <= q -> (q - h = 0 \/ h = 23 - l) ->
    rounded_result F32 s sign (IZR n * pow2 (q + emin F32)) (u32 (packToF32UI sign (q - h) (u64 (n << h))), s)).
  { intros h Hh Hq' C. rewrite shl_mul by lia.
    assert (P : 0 < 2 ^ h) by (apply Z.pow_pos_nonneg; lia).
    assert (U : n * 2 ^ h < 2 ^ 24).
    { apply Z.lt_le_trans with (2 ^ Z.succ l * 2 ^ h); [nia|]. rewrite <- Z.pow_add_r by lia. apply Z.pow_le_mono_r; lia. }
    assert (W : q - h = 0 \/ 2 ^ 23 <= n * 2 ^ h).
    { destruct C as [C|C]; [now left|right]. apply Z.le_trans with (2 ^ l * 2 ^ h); [|nia].
      rewrite <- Z.pow_add_r by lia. apply Z.pow_le_mono_r; lia. }
    rewrite (uwrap_small 64), packToF32UI_eq by lia. apply exact32_result; [lia|].
    rewrite mag32_pack by lia. rewrite mult_IZR, <- pow2_IZR, Rmult_assoc, <- pow2_add by lia. do 2 f_equal. lia. }
  destruct (Z.ltb_spec (q - (23 - l)) 0).
  - rewrite (swrap_small 8 q) by fmt_lia. replace 0 with (q - q) at 1 by lia. apply F; lia.
  - apply F; lia.
Qed.

(** What a difference of magnitudes delivers. *)
Definition sub_result32 (s : env) (sign : bool) (x : R) (r : Z * env) : Prop :=
  (x = 0%R -> r = (with_sign F32 (softfloat_roundingMode s =? softfloat_round_min) 0, s)) /\
  ((0 < x)%R -> rounded_result F32 s sign x r) /\
  ((x < 0)%R -> rounded_result F32 s (negb sign) (- x) r).

Lemma softfloat_subMagsF32_finite (a b : Z) (s : env) :
  is_finite F32 a -> is_finite F32 b ->
  sub_result32 s (sign_of F32 a) (mag F32 (pattern_of F32 a) - mag F32 (pattern_of F32 b))
    (softfloat_subMagsF32 a b s).
Proof.
  intros [Ha Fa] [Hb Fb].
  destruct (F32_fields a Ha) as (Sa & Ea & Ma & Pa & Wa). destruct (F32_fields b Hb) as (Sb & Eb & Mb & Pb & Wb).
  unfold softfloat_subMagsF32. rewrite Sa.
  set (eA := expF32UI a) in *. set (mA := fracF32UI a) in *. set (eB := expF32UI b) in *. set (mB := fracF32UI b) in *.
  set (sgn := sign_of F32 a) in *. rewrite Pa, Pb in *.
  change (inf_pattern F32) with (0xFF * 2 ^ 23) in Fa, Fb.
  assert (LA : eA < 0xFF) by lia. assert (LB : eB < 0xFF) by lia.
  clearbody eA mA eB mB sgn. rewrite !mag32_fields by lia.
  destruct (Z.eqb_spec (eA - eB) 0) as [D|D].
  - assert (eB = eA) as -> by lia. destruct (Z.eqb_spec eA 0xFF); [lia|].
    assert (W : i64 (u64 (mA - mB)) = mA - mB) by (unfold swrap, uwrap; eval_pow; zdm).
    rewrite W. clear W.
    assert (X : (IZR (if eA =? 0 then mA else 2 ^ 23 + mA) * pow2 (Z.max eA 1 - 1 + emin F32) -
                 IZR (if eA =? 0 then mB else 2 ^ 23 + mB) * pow2 (Z.max eA 1 - 1 + emin F32))%R
                = (IZR (mA - mB) * pow2 (Z.max eA 1 - 1 + emin F32))%R).
    { rewrite <- Rmult_minus_distr_r, <- minus_IZR. do 2 f_equal. destruct (eA =? 0); lia. }
    rewrite X. clear X. pose proof (pow2_pos (Z.max eA 1 - 1 + emin F32)) as PP.
    destruct (Z.eqb_spec (mA - mB) 0) as [Z0|Z0].
    + rewrite Z0, Rmult_0_l. split; [|split; intros; lra]. intros _.
      change (bind get ?k s) with (k s s). cbv beta. unfold ret. f_equal. rewrite packToF32UI_eq by lia. reflexivity.
    + destruct (Z.ltb_spec (mA - mB) 0) as [L|L].
      * assert (IZR (mA - mB) < 0)%R by (apply IZR_lt; lia).
        split; [intros; nra|split; [intros; nra|intros _]].
        rewrite Ropp_mult_distr_l, <- opp_IZR. eapply same_binade32; [lia|lia|reflexivity].
      * assert (0 < IZR (mA - mB))%R by (apply IZR_lt; lia).
        split; [intros; nra|split; [intros _|intros; nra]]. eapply same_binade32; [lia|lia|reflexivity].
  - destruct (Z.eqb_spec eB 0xFF), (Z.eqb_spec eA 0xFF); try lia.
    rewrite !(shl_mul _ 7), (uwrap_small 64 (mA * _)), (uwrap_small 64 (mB * _)) by lia.
    assert (O : forall m, 0 <= m < 2 ^ 23 -> (m * 2 ^ 7) .| 0x40000000 = (2 ^ 23 + m) * 2 ^ 7).
    { intros m Hm. rewrite Z.lor_comm. change 0x40000000 with (1 * 2 ^ 30). rewrite lor_disjoint; lia. }
    rewrite !O by lia.
    assert (X : forall e m (q := if z2b e then 0x40000000 else m * 2 ^ 7), 0 <= e -> 0 <= m < 2 ^ 23 ->
      0 <= m * 2 ^ 7 + q < 2 ^ 31 /\ (m * 2 ^ 7 + q) mod 2 ^ 7 = 0 /\
      (IZR (if e =? 0 then m else 2 ^ 23 + m) * pow2 (Z.max e 1 - 1 + emin F32) =
       IZR (m * 2 ^ 7 + q) * pow2 (e - 8 + emin F32))%R).
    { intros e m q He Hm. unfold q, z2b. destruct (Z.eqb_spec e 0) as [->|N]; cbn [negb]; (split; [lia|split; [zdm|]]).
      - replace (m * 2 ^ 7 + m * 2 ^ 7) with (m * 2 ^ 8) by lia.
        rewrite mult_IZR, <- (pow2_IZR 8), Rmult_assoc, <- pow2_add by lia. do 2 f_equal.
      - replace (m * 2 ^ 7 + 0x40000000) with ((2 ^ 23 + m) * 2 ^ 7) by lia.
        rewrite mult_IZR, <- (pow2_IZR 7), Rmult_assoc, <- pow2_add by lia. do 2 f_equal. lia. }
    destruct (X eA mA ltac:(lia) Ma) as (BA & DA & EA). destruct (X eB mB ltac:(lia) Mb) as (BB & DB & EB).
    rewrite EA, EB. clear X O EA EB.
    destruct (Z.ltb_spec (eA - eB) 0) as [L|L].
    + rewrite (uwrap_small 64 (- (eA - eB))), (uwrap_small 64 (_ + (if z2b eA then _ else _))), (uwrap_small 32) by lia.
      rewrite softfloat_shiftRightJam32_jam by lia.
      destruct (cancel32_round (negb sgn) eB (- (eA - eB)) ((2 ^ 23 + mB) * 2 ^ 7)
        (mA * 2 ^ 7 + (if z2b eA then 0x40000000 else mA * 2 ^ 7)) s
        (- (IZR (mA * 2 ^ 7 + (if z2b eA then 0x40000000 else mA * 2 ^ 7)) * pow2 (eA - 8 + emin F32) -
            IZR (mB * 2 ^ 7 + (if z2b eB then 0x40000000 else mB * 2 ^ 7)) * pow2 (eB - 8 + emin F32)))%R) as [P Q];
        try lia; [zdm| |].
      { rewrite Ropp_minus_distr. unfold z2b at 1. destruct (Z.eqb_spec eB 0); [lia|]. cbn [negb].
        f_equal; [do 2 f_equal; lia|do 2 f_equal; lia]. }
      split; [intros; lra|split; [intros; lra|intros _; exact Q]].
    + rewrite (uwrap_small 64 (eA - eB)), (uwrap_small 64 (_ + (if z2b eB then _ else _))), (uwrap_small 32) by lia.
      rewrite softfloat_shiftRightJam32_jam by lia.
      destruct (cancel32_round sgn eA (eA - eB) ((2 ^ 23 + mA) * 2 ^ 7)
        (mB * 2 ^ 7 + (if z2b eB then 0x40000000 else mB * 2 ^ 7)) s
        (IZR (mA * 2 ^ 7 + (if z2b eA then 0x40000000 else mA * 2 ^ 7)) * pow2 (eA - 8 + emin F32) -
            IZR (mB * 2 ^ 7 + (if z2b eB then 0x40000000 else mB * 2 ^ 7)) * pow2 (eB - 8 + emin F32))%R) as [P Q];
        try lia; [zdm| |].
      { unfold z2b at 1. destruct (Z.eqb_spec eA 0); [lia|]. cbn [negb].
        f_equal; [do 2 f_equal; lia|do 2 f_equal; lia]. }
      split; [intros; lra|split; [intros _; exact Q|intros; lra]].
Qed.

(** ** The 32-bit arithmetic operations and comparisons meet their contracts *)

(** ** NaN operands *)
Lemma isNaNF32UI_spec (a : Z) : is_enc F32 a -> isNaNF32UI a = nanb F32 a.
Proof.
  intros Ha. destruct (F32_fields a Ha) as (_ & He & Hm & P & _).
  destruct (classes F32 a _ _ He Hm P) as (-> & _). unfold isNaNF32UI. fold (fracF32UI a). f_equal.
  rewrite land_lnot by lia. rewrite (land_field a 0x7F800000 23 8) by (reflexivity || lia).
  unfold expF32UI. rewrite shr_div, (land_low _ 0xFF 8) by (reflexivity || lia).
  change (2 ^ eb F32 - 1) with 0xFF. apply eq_true_iff_eq. rewrite !Z.eqb_eq. lia.
Qed.

Lemma softfloat_isSigNaNF32UI_spec (a : Z) : is_enc F32 a -> softfloat_isSigNaNF32UI a = signalingb F32 a.
Proof.
  intros Ha. destruct (F32_fields a Ha) as (_ & He & Hm & P & _). unfold signalingb.
  destruct (classes F32 a _ _ He Hm P) as (-> & _). unfold softfloat_isSigNaNF32UI, z2b.
  rewrite (land_field a 0x7FC00000 22 9), (land_low _ 0x003FFFFF 22) by (reflexivity || lia).
  change (mb F32 - 1) with 22. rewrite Z.testbit_eqb by lia.
  change (2 ^ eb F32 - 1) with 0xFF. unfold expF32UI, fracF32UI in *.
  rewrite shr_div in *  by lia. rewrite (land_low _ 0xFF 8), (land_low _ 0x007FFFFF 23) in * by (reflexivity || lia).
  apply eq_true_iff_eq. rewrite !andb_true_iff, !negb_true_iff, !Z.eqb_eq, !Z.eqb_neq. unfold is_enc in Ha. change (sign_weight F32) with (2 ^ 31) in Ha. zdm.
Qed.

Lemma quiet32_bound (a : Z) : is_enc F32 a -> 0 <= quiet F32 a < 2 ^ 32.
Proof.
  unfold is_enc, quiet. change (2 * sign_weight F32) with (2 ^ 32). intros Ha.
  assert (0 <= a .| 2 ^ (mb F32 - 1)) by (apply Z.lor_nonneg; split; [lia|discriminate]). split; [assumption|].
  destruct (Z.eq_dec (a .| 2 ^ (mb F32 - 1)) 0) as [->|N]; [lia|]. apply Z.log2_lt_pow2; [lia|].
  rewrite Z.log2_lor by (lia || discriminate). apply Z.max_lub_lt; [|reflexivity].
  destruct (Z.eq_dec a 0) as [->|N']; [reflexivity|]. apply Z.log2_lt_pow2; lia.
Qed.

Lemma propagate32 (a b : Z) (s : env) : is_enc F32 a -> is_enc F32 b ->
  (uiZ <- softfloat_propagateNaNF32UI a b ;; ret (u32 uiZ))%M s = nan_result F32 a b s.
Proof.
  intros Ha Hb. pose proof (quiet32_bound a Ha). pose proof (quiet32_bound b Hb).
  unfold softfloat_propagateNaNF32UI, nan_result. rewrite isNaNF32UI_spec, !softfloat_isSigNaNF32UI_spec by assumption.
  change (a .| 0x00400000) with (quiet F32 a).
  change ((if nanb F32 a then a else b) .| 0x00400000) with (quiet F32 (if nanb F32 a then a else b)).
  assert (S : signalingb F32 a = true -> nanb F32 a = true) by (unfold signalingb; now intros [? _]%andb_true_iff).
  unfold bind, ret, softfloat_raiseFlags.
  destruct (signalingb F32 a); [rewrite (S eq_refl)|]; cbn [orb];
    [|destruct (signalingb F32 b)]; rewrite ?raised_env_0; destruct (nanb F32 a); rewrite uwrap_small by lia; reflexivity.
Qed.

(** ** Addition and subtraction *)
Lemma sign_xor32 (a b : Z) : is_enc F32 a -> is_enc F32 b ->
  signF32UI (a .^ b) = xorb (sign_of F32 a) (sign_of F32 b).
Proof.
  intros Ha Hb. destruct (F32_fields a Ha) as (<- & _). destruct (F32_fields b Hb) as (<- & _).
  unfold is_enc in *. change (2 * sign_weight F32) with (2 ^ 32) in *. unfold signF32UI.
  assert (X : 0 <= a .^ b < 2 ^ 32).
  { assert (N : 0 <= a .^ b) by (apply Z.lxor_nonneg; lia). split; [assumption|].
    destruct (Z.eq_dec (a .^ b) 0) as [->|Z0]; [lia|]. apply Z.log2_lt_pow2; [lia|].
    apply Z.le_lt_trans with (Z.max (Z.log2 a) (Z.log2 b)); [apply Z.log2_lxor; lia|].
    apply Z.max_lub_lt; match goal with |- Z.log2 ?c < _ => destruct (Z.eq_dec c 0) as [->|]; [reflexivity|apply Z.log2_lt_pow2; lia] end. }
  rewrite !(uwrap_small 32), Z.shiftr_lxor, !shr_div by lia.
  assert (0 <= a / 2 ^ 31 <= 1) by zdm. assert (0 <= b / 2 ^ 31 <= 1) by zdm.
  assert (C : a / 2 ^ 31 = 0 \/ a / 2 ^ 31 = 1) by lia. assert (D : b / 2 ^ 31 = 0 \/ b / 2 ^ 31 = 1) by lia.
  destruct C as [-> | ->], D as [-> | ->]; reflexivity.
Qed.


Lemma infinity32_eq (sign : bool) : u32 (packToF32UI sign 0xFF 0) = infinity F32 sign.
Proof. apply packToF32UI_eq; lia. Qed.

Lemma inf_enc32 (a : Z) : is_enc F32 a -> infb F32 a = true -> u32 a = infinity F32 (sign_of F32 a).
Proof.
  intros Ha I. unfold is_enc in Ha. change (2 * sign_weight F32) with (2 ^ 32) in Ha. rewrite uwrap_small by lia.
  destruct (F32_fields a Ha) as (_ & _ & _ & _ & W). apply Z.eqb_eq in I.
  unfold infinity. rewrite <- I. exact W.
Qed.

(** The cases where an operand is not finite. *)
Lemma special32 (a b : Z) : is_enc F32 a -> is_enc F32 b ->
  is_finite F32 a /\ is_finite F32 b /\ nanb F32 a || nanb F32 b = false /\ infb F32 a = false /\ infb F32 b = false \/
  expF32UI a = 0xFF \/ expF32UI b = 0xFF.
Proof.
  intros Ha Hb.
  destruct (F32_fields a Ha) as (_ & Ea & Ma & Pa & _). destruct (F32_fields b Hb) as (_ & Eb & Mb & Pb & _).
  destruct (Z.eq_dec (expF32UI a) 0xFF); [tauto|]. destruct (Z.eq_dec (expF32UI b) 0xFF); [tauto|].
  unfold is_finite, nanb, infb. rewrite Pa, Pb. change (inf_pattern F32) with (0xFF * 2 ^ 23). left.
  split; [split; [assumption|lia]|]. split; [split; [assumption|lia]|]. rewrite !(proj2 (Z.ltb_ge _ _)) by lia.
  split; [reflexivity|]. split; apply Z.eqb_neq; lia.
Qed.

Lemma softfloat_addMagsF32_spec (a b : Z) (s : env) : is_enc F32 a -> is_enc F32 b ->
  sum_spec F32 s a b (sign_of F32 a) (softfloat_addMagsF32 a b s).
Proof.
  intros Ha Hb. unfold sum_spec.
  destruct (special32 a b Ha Hb) as [(Fa & Fb & -> & -> & ->)|C].
  - pose proof (softfloat_addMagsF32_finite a b s Fa Fb) as H.
    pose proof (mag_nonneg F32 (pattern_of F32 a) (proj1 (Z.mod_pos_bound a (sign_weight F32) eq_refl))).
    pose proof (mag_nonneg F32 (pattern_of F32 b) (proj1 (Z.mod_pos_bound b (sign_weight F32) eq_refl))).
    unfold value, correctly_rounded, signR. rewrite Bool.eqb_reflx. set (x := (mag _ _ + mag _ _)%R) in H.
    split; [|split]; destruct (sign_of F32 a); intros X; try lra.
    all: try (apply (rounded_result_zero F32); replace 0%R with x by (unfold x; lra); exact H).
    + exact H.
    + replace (- (- _ + - _))%R with x by (unfold x; ring). exact H.
  - destruct (F32_fields a Ha) as (Sa & Ea & Ma & Pa & Wa). destruct (F32_fields b Hb) as (Sb & Eb & Mb & Pb & Wb).
    destruct (classes F32 a _ _ Ea Ma Pa) as (Na & Ia & _). destruct (classes F32 b _ _ Eb Mb Pb) as (Nb & Ib & _).
    pose proof (inf_enc32 a Ha) as IA. rewrite Ia in IA.
    rewrite Na, Nb, Ia, Ib, xorb_nilpotent, andb_false_r. clear Na Nb Ia Ib.
    unfold softfloat_addMagsF32. cbv zeta. rewrite Sa, infinity32_eq, z2b_lor, !z2b_shl by fmt_lia.
    change (2 ^ eb F32 - 1) with 0xFF in *.
    destruct (Z.eqb_spec (expF32UI a) 0xFF) as [EA|EA], (Z.eqb_spec (expF32UI b) 0xFF) as [EB|EB]; [| | |lia];
      destruct (z2b (fracF32UI a)) eqn:MA, (z2b (fracF32UI b)) eqn:MB; cbn [andb orb negb] in *.
    all: try destruct (Z.eqb_spec (expF32UI a - expF32UI b) 0); try lia.
    all: try destruct (Z.ltb_spec (expF32UI a - expF32UI b) 0); try lia.
    all: try destruct (Z.eqb_spec (expF32UI a) 0); try lia; try reflexivity.
    all: try exact (propagate32 a b s Ha Hb).
    all: unfold ret; rewrite IA; reflexivity.
Qed.

Lemma softfloat_subMagsF32_spec (a b : Z) (s : env) : is_enc F32 a -> is_enc F32 b ->
  sum_spec F32 s a b (negb (sign_of F32 a)) (softfloat_subMagsF32 a b s).
Proof.
  intros Ha Hb. unfold sum_spec.
  destruct (special32 a b Ha Hb) as [(Fa & Fb & -> & -> & ->)|C].
  - destruct (softfloat_subMagsF32_finite a b s Fa Fb) as (Z0 & P & N).
    unfold value, correctly_rounded, signR. rewrite Bool.eqb_negb2. set (x := (mag _ _ - mag _ _)%R) in *.
    destruct (sign_of F32 a); cbn [negb] in *.
    + replace (- mag F32 (pattern_of F32 a) + mag F32 (pattern_of F32 b))%R with (- x)%R by (unfold x; ring).
      split; [|split]; intros X; [apply Z0; lra|apply N; lra|]. rewrite Ropp_involutive. apply P. lra.
    + replace (mag F32 (pattern_of F32 a) + - mag F32 (pattern_of F32 b))%R with x by (unfold x; ring).
      split; [|split]; intros X; [apply Z0; lra|apply P; lra|apply N; lra].
  - destruct (F32_fields a Ha) as (Sa & Ea & Ma & Pa & Wa). destruct (F32_fields b Hb) as (Sb & Eb & Mb & Pb & Wb).
    destruct (classes F32 a _ _ Ea Ma Pa) as (Na & Ia & _). destruct (classes F32 b _ _ Eb Mb Pb) as (Nb & Ib & _).
    pose proof (inf_enc32 a Ha) as IA. rewrite Ia in IA.
    rewrite Na, Nb, Ia, Ib, <- negb_xorb_r, xorb_nilpotent, andb_true_r. clear Na Nb Ia Ib.
    unfold softfloat_subMagsF32. cbv zeta. rewrite Sa, infinity32_eq, z2b_lor, !z2b_shl by fmt_lia.
    change (2 ^ eb F32 - 1) with 0xFF in *.
    destruct (Z.eqb_spec (expF32UI a) 0xFF) as [EA|EA], (Z.eqb_spec (expF32UI b) 0xFF) as [EB|EB]; [| | |lia];
      destruct (z2b (fracF32UI a)) eqn:MA, (z2b (fracF32UI b)) eqn:MB; cbn [andb orb negb] in *.
    all: try destruct (Z.eqb_spec (expF32UI a - expF32UI b) 0); try lia.
    all: try destruct (Z.ltb_spec (expF32UI a - expF32UI b) 0); try lia; try reflexivity.
    all: try exact (propagate32 a b s Ha Hb).
    all: unfold ret; rewrite IA; reflexivity.
Qed.

(** f32_add is correct: for any two 32-bit encodings the result and the flags
    raised are those of IEEE addition in the current rounding mode - the first NaN
    operand made quiet, the invalid operation inf - inf, the sign of a zero sum, and
    otherwise the exact sum correctly rounded (overflow, underflow and inexact included). *)
Lemma f32_add_spec (a b : Z) (s : env) : is_enc F32 a -> is_enc F32 b ->
  sum_spec F32 s a b (sign_of F32 b) (f32_add a b s).
Proof.
  intros Ha Hb. unfold f32_add. rewrite sign_xor32 by assumption.
  pose proof (softfloat_addMagsF32_spec a b s Ha Hb) as A. pose proof (softfloat_subMagsF32_spec a b s Ha Hb) as B.
  destruct (sign_of F32 a), (sign_of F32 b); assumption.
Qed.

Lemma f32_sub_spec (a b : Z) (s : env) : is_enc F32 a -> is_enc F32 b ->
  sum_spec F32 s a b (negb (sign_of F32 b)) (f32_sub a b s).
Proof.
  intros Ha Hb. unfold f32_sub. rewrite sign_xor32 by assumption.
  pose proof (softfloat_addMagsF32_spec a b s Ha Hb) as A. pose proof (softfloat_subMagsF32_spec a b s Ha Hb) as B.
  destruct (sign_of F32 a), (sign_of F32 b); assumption.
Qed.

(** ** The 32-bit comparisons order the encodings by their value *)

(** The encoding from its key fields. *)
Lemma split32 (a : Z) : is_enc F32 a ->
  a = b2z (sign_of F32 a) * 2 ^ 31 + pattern_of F32 a /\ 0 <= pattern_of F32 a < 2 ^ 31.
Proof.
  intros Ha. destruct (F32_fields a Ha) as (_ & _ & _ & _ & W). split; [exact W|]. apply Z.mod_pos_bound. reflexivity.
Qed.

Lemma both_zero32 (a b : Z) :
  (u32 (u64 ((a .| b) << 1)) =? 0) = (pattern_of F32 a =? 0) && (pattern_of F32 b =? 0).
Proof.
  apply eq_true_iff_eq. rewrite andb_true_iff, !Z.eqb_eq. unfold pattern_of. change (sign_weight F32) with (2 ^ 31).
  rewrite <- magnitudes_zero by lia. rewrite shl_mul by lia. unfold uwrap. zdm.
Qed.

Lemma eq32 (a b : Z) : is_enc F32 a -> is_enc F32 b ->
  (a =? b) || negb (z2b (u32 (u64 ((a .| b) << 1)))) = true <-> value F32 a = value F32 b.
Proof.
  intros Ha Hb. destruct (value_key F32 a b) as (_ & _ & ->). unfold key, z2b. rewrite negb_involutive, both_zero32.
  destruct (split32 a Ha) as [A A']. destruct (split32 b Hb) as [B B'].
  set (p := pattern_of F32 a) in *. set (q := pattern_of F32 b) in *.
  destruct (sign_of F32 a), (sign_of F32 b); cbn [Z.b2z] in *; lia.
Qed.

Lemma le32 (a b : Z) : is_enc F32 a -> is_enc F32 b ->
  (if xorb (signF32UI a) (signF32UI b) then signF32UI a || negb (z2b (u32 (u64 ((a .| b) << 1))))
   else (a =? b) || xorb (signF32UI a) (a <? b)) = true <-> (value F32 a <= value F32 b)%R.
Proof.
  intros Ha Hb. destruct (value_key F32 a b) as (_ & -> & _). unfold key, z2b. rewrite negb_involutive, both_zero32.
  rewrite (proj1 (F32_fields a Ha)), (proj1 (F32_fields b Hb)).
  destruct (split32 a Ha) as [A A']. destruct (split32 b Hb) as [B B'].
  set (p := pattern_of F32 a) in *. set (q := pattern_of F32 b) in *.
  signs F32 a b p q.
Qed.

Lemma lt32 (a b : Z) : is_enc F32 a -> is_enc F32 b ->
  (if xorb (signF32UI a) (signF32UI b) then signF32UI a && negb (u32 (u64 ((a .| b) << 1)) =? 0)
   else negb (a =? b) && xorb (signF32UI a) (a <? b)) = true <-> (value F32 a < value F32 b)%R.
Proof.
  intros Ha Hb. destruct (value_key F32 a b) as (-> & _). unfold key. rewrite both_zero32.
  rewrite (proj1 (F32_fields a Ha)), (proj1 (F32_fields b Hb)).
  destruct (split32 a Ha) as [A A']. destruct (split32 b Hb) as [B B'].
  set (p := pattern_of F32 a) in *. set (q := pattern_of F32 b) in *.
  signs F32 a b p q.
Qed.

(** The quiet and the signaling way out for unordered operands. *)
Ltac compare32 Ha Hb op ordered :=
  unfold compare_spec, op; rewrite ?isNaNF32UI_spec, ?softfloat_isSigNaNF32UI_spec by assumption;
  destruct (nanb F32 _ || nanb F32 _); cbn [orb];
  [unfold bind; rewrite ?when_raise; reflexivity|split; [reflexivity|exact (ordered _ _ Ha Hb)]].

(** Equality. *)
Lemma f32_eq_spec (a b : Z) (s : env) : is_enc F32 a -> is_enc F32 b ->
  compare_spec F32 false eq s a b (f32_eq a b s) /\ compare_spec F32 true eq s a b (f32_eq_signaling a b s).
Proof. intros Ha Hb. split; [compare32 Ha Hb f32_eq eq32|compare32 Ha Hb f32_eq_signaling eq32]. Qed.

(** Order. *)
Lemma f32_order_spec (a b : Z) (s : env) : is_enc F32 a -> is_enc F32 b ->
  compare_spec F32 true Rle s a b (f32_le a b s) /\ compare_spec F32 true Rlt s a b (f32_lt a b s) /\
  compare_spec F32 false Rle s a b (f32_le_quiet a b s) /\ compare_spec F32 false Rlt s a b (f32_lt_quiet a b s).
Proof.
  intros Ha Hb. split; [compare32 Ha Hb f32_le le32|split; [compare32 Ha Hb f32_lt lt32|split]].
  - compare32 Ha Hb f32_le_quiet le32.
  - compare32 Ha Hb f32_lt_quiet lt32.
Qed.
