(* ===== verification/F32Mul.v ===== *)
(** 32-bit multiplication and division are correctly rounded. *)
From Stdlib Require Import ZArith Bool Lia Reals Lra.
From S2P Require Import Prelude Ieee Rounding RoundPack Softfloat Primitives Machine Contract F32 F32Round F32Arith.
Local Open Scope Z_scope.
Local Open Scope c_scope.

Lemma softfloat_normSubnormalF32Sig_spec (sig : Z) (n := softfloat_normSubnormalF32Sig sig) : 0 < sig < 2 ^ 23 ->
  -22 <= e16s32_exp n <= 0 /\ 2 ^ 23 <= e16s32_sig n < 2 ^ 24 /\
  (IZR sig * pow2 (emin F32))%R = (IZR (e16s32_sig n) * pow2 (e16s32_exp n - 1 + emin F32))%R.
Proof.
  intros Hs. subst n. unfold softfloat_normSubnormalF32Sig. cbn [e16s32_exp e16s32_sig].
  rewrite (uwrap_small 32 sig), softfloat_countLeadingZeros32_spec by lia.
  pose proof (Z.log2_spec sig ltac:(lia)) as L. pose proof (Z.log2_nonneg sig) as L0.
  pose proof (proj1 (log2_bounds sig 23 ltac:(lia) ltac:(lia)) ltac:(lia)) as L1.
  replace (nlz 32 sig - 8) with (23 - Z.log2 sig) by (unfold nlz; lia).
  set (l := Z.log2 sig) in *. clearbody l. rewrite (swrap_small 8 (23 - l)), shl_mul by fmt_lia.
  rewrite Z.pow_succ_r in L by lia. assert (P : 0 < 2 ^ (23 - l) <= 2 ^ 23) by (split; [apply Z.pow_pos_nonneg|apply Z.pow_le_mono_r]; lia).
  assert (2 ^ 23 = 2 ^ l * 2 ^ (23 - l)) by (rewrite <- Z.pow_add_r by lia; f_equal; lia).
  assert (B : 2 ^ 23 <= sig * 2 ^ (23 - l) < 2 ^ 24) by nia.
  rewrite uwrap_small by lia. split; [lia|]. split; [exact B|].
  rewrite mult_IZR, <- pow2_IZR, Rmult_assoc, <- pow2_add by lia. do 2 f_equal. lia.
Qed.

(** The significand with its leading bit. *)
Lemma lead32 (m : Z) : 0 <= m < 2 ^ 23 -> m .| 0x00800000 = 2 ^ 23 + m.
Proof. intros Hm. rewrite Z.lor_comm. change 0x00800000 with (1 * 2 ^ 23). rewrite lor_disjoint; lia. Qed.

Lemma lead32_idem (m : Z) : 2 ^ 23 <= m < 2 ^ 24 -> m .| 0x00800000 = m.
Proof.
  intros Hm. replace m with (1 * 2 ^ 23 + (m - 2 ^ 23)) by lia. rewrite <- lor_disjoint by lia.
  rewrite <- Z.lor_assoc, (Z.lor_comm _ 0x00800000), Z.lor_assoc. reflexivity.
Qed.

(** An operand other than zero, with the exponent and significand that the code
    computes with. *)
Definition operand32 (e m e' m' : Z) : Prop :=
  -22 <= e' <= 0xFE /\ 2 ^ 23 <= m' .| 0x00800000 < 2 ^ 24 /\
  mag F32 (e * 2 ^ 23 + m) = (IZR (m' .| 0x00800000) * pow2 (e' - 1 + emin F32))%R.

Lemma operand32_cases (e m : Z) (n := softfloat_normSubnormalF32Sig m) :
  0 <= e < 0xFF -> 0 <= m < 2 ^ 23 -> z2b e || z2b m = true ->
  z2b e = true /\ operand32 e m e m \/
  z2b e = false /\ z2b m = true /\ operand32 e m (e16s32_exp n) (e16s32_sig n).
Proof.
  intros He Hm N. unfold operand32. rewrite mag32_fields by lia. unfold z2b in *.
  destruct (Z.eqb_spec e 0) as [->|E]; cbn [negb orb] in *.
  - right. destruct (softfloat_normSubnormalF32Sig_spec m ltac:(lia)) as (B1 & B2 & X). fold n in B1, B2, X.
    rewrite lead32_idem by lia. repeat split; try lia. exact X.
  - left. rewrite lead32 by lia. repeat split; try lia. do 2 f_equal. lia.
Qed.

Lemma multiply32 (sign : bool) (eA eB wA wB : Z) (s : env) (x : R) :
  -22 <= eA <= 0xFE -> -22 <= eB <= 0xFE -> 2 ^ 23 <= wA < 2 ^ 24 -> 2 ^ 23 <= wB < 2 ^ 24 ->
  x = (IZR wA * pow2 (eA - 1 + emin F32) * (IZR wB * pow2 (eB - 1 + emin F32)))%R ->
  rounded_result F32 s sign x
    ((let expZ := eA + eB - 0x7F in
      let sigA := u64 (wA << 7) in
      let sigB := u64 (wB << 8) in
      let sigZ := softfloat_shortShiftRightJam64 (u64 (sigA * sigB)) 32 in
      let '(expZ, sigZ) := if sigZ <? 0x40000000 then (expZ - 1, u64 (sigZ << 1)) else (expZ, sigZ) in
      softfloat_roundPackToF32 sign expZ sigZ) s).
Proof.
  intros HeA HeB HA HB X. cbv zeta. rewrite (shl_mul wA), (shl_mul wB) by lia.
  rewrite (uwrap_small 64 (wA * _)), (uwrap_small 64 (wB * _)) by lia.
  assert (P : 2 ^ 61 <= wA * 2 ^ 7 * (wB * 2 ^ 8) < 2 ^ 63) by nia.
  rewrite (uwrap_small 64), softfloat_shortShiftRightJam64_jam by lia.
  assert (X' : x = (IZR (wA * 2 ^ 7 * (wB * 2 ^ 8)) * pow2 (-32) * pow2 (eA + eB - 0x7F - 7 + emin F32))%R).
  { rewrite X, !mult_IZR, <- (pow2_IZR 7), <- (pow2_IZR 8) by lia.
    replace (eA + eB - 0x7F - 7 + emin F32) with (- 7 + (- 8 + (32 + ((eA - 1 + emin F32) + (eB - 1 + emin F32)))))
      by (change (emin F32) with (-149); lia).
    rewrite !pow2_add. change (pow2 (-7)) with (pow2 (Z.opp 7)). change (pow2 (-8)) with (pow2 (Z.opp 8)).
    rewrite (pow2_opp 7), (pow2_opp 8). change (pow2 (-32)) with (pow2 (Z.opp 32)). rewrite (pow2_opp 32). field. auto. }
  set (p := wA * 2 ^ 7 * (wB * 2 ^ 8)) in *. clearbody p. clear X HA HB.
  assert (S : same (2 ^ 1) (jam p 32) (IZR p * pow2 (-32))).
  { apply same_pow with (Z.max 1 (0 - 32)); [lia|]. apply same_jam; try lia. apply (same_exact 1). }
  assert (J : 2 ^ 29 <= jam p 32 < 2 ^ 31) by (rewrite jam_eq by lia; destruct (_ =? 0); zdm).
  set (y := (IZR p * pow2 (-32))%R) in *. clearbody y. set (z := jam p 32) in *. clearbody z.
  rewrite shl_mul by lia. destruct (Z.ltb_spec z 0x40000000).
  - rewrite uwrap_small by lia.
    apply softfloat_roundPackToF32_rounds with (k := 2) (y := (y * pow2 1)%R); try lia.
    + apply (same_shl 1 1); try lia. exact S.
    + rewrite X', Rmult_assoc, <- pow2_add. do 2 f_equal. lia.
  - apply softfloat_roundPackToF32_rounds with (k := 1) (y := y); try lia; assumption.
Qed.

Lemma zero_result (s : env) (sign : bool) (x : R) : x = 0%R -> rounded_result F32 s sign x (u32 (packToF32UI sign 0 0), s).
Proof. intros ->. rewrite packToF32UI_eq by lia. apply exact32_result; [lia|]. apply (mag_zero F32). Qed.

(** The fields of an operand decide its class. *)
Lemma zero_mag32 (a : Z) : zerob F32 a = true -> mag F32 (pattern_of F32 a) = 0%R.
Proof. intros Z0%Z.eqb_eq. rewrite Z0. apply (mag_zero F32). Qed.

Lemma f32_mul_spec (a b : Z) (s : env) : is_enc F32 a -> is_enc F32 b ->
  mul_spec F32 s a b (f32_mul a b s).
Proof.
  intros Ha Hb. unfold mul_spec.
  destruct (F32_fields a Ha) as (Sa & Ea & Ma & Pa & Wa). destruct (F32_fields b Hb) as (Sb & Eb & Mb & Pb & Wb).
  destruct (classes F32 a _ _ Ea Ma Pa) as (Na & Ia & Za & _). destruct (classes F32 b _ _ Eb Mb Pb) as (Nb & Ib & Zb & _).
  pose proof (zero_mag32 a) as ZA. pose proof (zero_mag32 b) as ZB.
  pose proof (propagate32 a b s Ha Hb) as P.
  unfold f32_mul. rewrite !Sa, !Sb, !infinity32_eq, !z2b_lor by lia. cbv zeta.
  set (sz := xorb _ _). clearbody sz. rewrite Pa, Pb in *. rewrite Na, Nb, Ia, Ib, Za, Zb in *. clear Na Nb Ia Ib Za Zb.
  change (2 ^ eb F32 - 1) with 0xFF in *.
  set (eA := expF32UI a) in *. set (mA := fracF32UI a) in *. set (eB := expF32UI b) in *. set (mB := fracF32UI b) in *.
  change (2 ^ mb F32) with (2 ^ 23) in *. change (2 ^ eb F32) with (2 ^ 8) in *.
  clearbody eA mA eB mB.
  assert (FA : 0xFF = eA -> z2b eA = true) by (now intros <-).
  assert (FB : 0xFF = eB -> z2b eB = true) by (now intros <-).
  destruct (Z.eqb_spec eA 0xFF) as [EA|EA]; [rewrite FA by lia|]; (destruct (Z.eqb_spec eB 0xFF) as [EB|EB]; [rewrite FB by lia|]).
  1-3: destruct (z2b mA), (z2b mB), (z2b eA), (z2b eB); cbn [andb orb negb]; try exact P; reflexivity.
  cbn [andb orb negb].
  destruct (z2b eA || z2b mA) eqn:OA; cycle 1.
  { apply orb_false_iff in OA as [QA RA]. rewrite QA, RA in *. apply zero_result. rewrite ZA by reflexivity. ring. }
  destruct (z2b eB || z2b mB) eqn:OB; cycle 1.
  { apply orb_false_iff in OB as [QB RB]. rewrite QB, RB in *. cbn [negb].
    destruct (z2b eA); [|destruct (z2b mA); [|discriminate]]; apply zero_result; rewrite ZB by reflexivity; ring. }
  destruct (operand32_cases eA mA ltac:(lia) Ma OA) as [(QA & A1 & A2 & A3)|(QA & RA & A1 & A2 & A3)];
    destruct (operand32_cases eB mB ltac:(lia) Mb OB) as [(QB & B1 & B2 & B3)|(QB & RB & B1 & B2 & B3)];
    rewrite QA, QB, ?RA, ?RB; cbn [negb]; apply multiply32; try assumption; rewrite A3, B3; reflexivity.
Qed.

(** ** Division *)
Lemma sticky_quotient (n d q : Z) : 0 < d -> 0 <= n -> q = n / d -> d * q < 2 ^ 64 -> n < 2 ^ 64 ->
  same (2 ^ 6) (if negb (z2b (q .& 0x3F)) then q .| b2z (negb (u64 (d * q) =? n)) else q) (IZR n / IZR d).
Proof.
  intros Hd Hn Q L1 L2. rewrite (land_low _ 0x3F 6) by (reflexivity || lia).
  assert (0 <= q) by (subst q; apply Z.div_pos; lia).
  pose proof (Z.div_mod n d ltac:(lia)) as E. pose proof (Z.mod_pos_bound n d Hd) as B. rewrite <- Q in E.
  rewrite uwrap_small by nia. unfold z2b. rewrite negb_involutive.
  apply same_quotient; [lia|assumption|]. rewrite <- Q. change (2 ^ 6) with 64.
  destruct (Z.eqb_spec (q mod 64) 0) as [C|C]; [|left; split; [reflexivity|now right]].
  destruct (Z.eqb_spec (d * q) n) as [R|R]; cbn [negb Z.b2z].
  - left. rewrite Z.lor_0_r. split; [reflexivity|left; lia].
  - right. rewrite lor_1. split; [zdm|split; [lia|assumption]].
Qed.

Lemma divide32 (sign : bool) (eA eB wA wB : Z) (s : env) (x : R) :
  -22 <= eA <= 0xFE -> -22 <= eB <= 0xFE -> 2 ^ 23 <= wA < 2 ^ 24 -> 2 ^ 23 <= wB < 2 ^ 24 ->
  x = (IZR wA * pow2 (eA - 1 + emin F32) / (IZR wB * pow2 (eB - 1 + emin F32)))%R ->
  rounded_result F32 s sign x
    ((let expZ := eA - eB + 0x7E in
      let '(expZ, sig64A) := if wA <? wB then (expZ - 1, u64 (wA << 31)) else (expZ, u64 (wA << 30)) in
      let sigZ := sig64A / wB in
      let sigZ := if negb (z2b (sigZ .& 0x3F)) then sigZ .| b2z (negb (u64 (wB * sigZ) =? sig64A)) else sigZ in
      softfloat_roundPackToF32 sign expZ sigZ) s).
Proof.
  intros HeA HeB HA HB X. cbv zeta.
  assert (W : forall k e, (k = 30 /\ wB <= wA \/ k = 31 /\ wA < wB) -> e = eA - eB + 0x7E - (k - 30) ->
    rounded_result F32 s sign x
      (softfloat_roundPackToF32 sign e
        (if negb (z2b ((wA * 2 ^ k / wB) .& 0x3F))
         then (wA * 2 ^ k / wB) .| b2z (negb (u64 (wB * (wA * 2 ^ k / wB)) =? wA * 2 ^ k)) else wA * 2 ^ k / wB) s)).
  { intros k e C ->. assert (K : 2 ^ k = 2 ^ 30 \/ 2 ^ k = 2 ^ 31) by (destruct C as [[-> _]|[-> _]]; tauto).
    assert (N : wB * 2 ^ 30 <= wA * 2 ^ k < wB * 2 ^ 31) by (destruct C as [[-> C]|[-> C]]; lia).
    assert (Q : 2 ^ 30 <= wA * 2 ^ k / wB < 2 ^ 31)
      by (split; [apply Z.div_le_lower_bound; lia|apply Z.div_lt_upper_bound; lia]).
    pose proof (sticky_quotient (wA * 2 ^ k) wB _ ltac:(lia) ltac:(lia) eq_refl) as S.
    assert (D : wB * (wA * 2 ^ k / wB) <= wA * 2 ^ k) by (apply Z.mul_div_le; lia).
    specialize (S ltac:(lia) ltac:(lia)).
    apply softfloat_roundPackToF32_rounds with (k := 6) (y := (IZR (wA * 2 ^ k) / IZR wB)%R); try lia; [|exact S|].
    - destruct (negb (z2b _)) eqn:L; [|lia]. rewrite (land_low _ 0x3F 6) in L by (reflexivity || lia).
      unfold z2b in L. rewrite negb_involutive, Z.eqb_eq in L.
      destruct (negb (u64 _ =? _)); cbn [Z.b2z]; [rewrite lor_1; zdm|rewrite Z.lor_0_r; lia].
    - rewrite X, mult_IZR, <- (pow2_IZR k) by lia.
      replace (eA - 1 + emin F32) with (k + ((eA - eB + 0x7E - (k - 30) - 7 + emin F32) + (eB - 1 + emin F32)))
        by (change (emin F32) with (-149); lia).
      rewrite !pow2_add. field. repeat split; auto. apply not_0_IZR; lia. }
  rewrite !(shl_mul wA) by lia. destruct (Z.ltb_spec wA wB).
  - rewrite uwrap_small by lia. apply (W 31); lia.
  - rewrite uwrap_small by lia. apply (W 30); lia.
Qed.

Lemma f32_div_spec (a b : Z) (s : env) : is_enc F32 a -> is_enc F32 b ->
  div_spec F32 s a b (f32_div a b s).
Proof.
  intros Ha Hb. unfold div_spec.
  destruct (F32_fields a Ha) as (Sa & Ea & Ma & Pa & Wa). destruct (F32_fields b Hb) as (Sb & Eb & Mb & Pb & Wb).
  destruct (classes F32 a _ _ Ea Ma Pa) as (Na & Ia & Za & _). destruct (classes F32 b _ _ Eb Mb Pb) as (Nb & Ib & Zb & _).
  pose proof (zero_mag32 a) as ZA. pose proof (propagate32 a b s Ha Hb) as P.
  unfold f32_div. rewrite !Sa, !Sb, !infinity32_eq, !z2b_lor by lia. cbv zeta.
  set (sz := xorb _ _). clearbody sz. rewrite Pa, Pb in *. rewrite Na, Nb, Ia, Ib, Za, Zb in *. clear Na Nb Ia Ib Za Zb.
  change (2 ^ eb F32 - 1) with 0xFF in *.
  set (eA := expF32UI a) in *. set (mA := fracF32UI a) in *. set (eB := expF32UI b) in *. set (mB := fracF32UI b) in *.
  change (2 ^ mb F32) with (2 ^ 23) in *. change (2 ^ eb F32) with (2 ^ 8) in *.
  clearbody eA mA eB mB.
  assert (Z0 : u32 (packToF32UI sz 0 0) = with_sign F32 sz 0) by (apply packToF32UI_eq; lia).
  destruct (Z.eqb_spec eA 0xFF) as [EA|EA]; [|destruct (Z.eqb_spec eB 0xFF) as [EB|EB]].
  1: destruct (eB =? 0xFF), (z2b mA), (z2b mB); cbn [andb orb negb]; try exact P; reflexivity.
  1: destruct (z2b mA), (z2b mB); cbn [andb orb negb]; try exact P; unfold ret; now rewrite Z0.
  cbn [andb orb negb].
  destruct (z2b eB || z2b mB) eqn:OB; cycle 1.
  { apply orb_false_iff in OB as [QB RB]. rewrite QB, RB. destruct (z2b eA), (z2b mA); reflexivity. }
  replace (negb (z2b eB) && negb (z2b mB)) with false by (rewrite <- negb_orb, OB; reflexivity).
  destruct (z2b eA || z2b mA) eqn:OA; cycle 1.
  { apply orb_false_iff in OA as [QA RA]. rewrite QA, RA in *. rewrite ZA by reflexivity. unfold Rdiv. rewrite Rmult_0_l.
    destruct (z2b eB); [|destruct (z2b mB); [|discriminate]]; apply zero_result; reflexivity. }
  destruct (operand32_cases eA mA ltac:(lia) Ma OA) as [(QA & A1 & A2 & A3)|(QA & RA & A1 & A2 & A3)];
    destruct (operand32_cases eB mB ltac:(lia) Mb OB) as [(QB & B1 & B2 & B3)|(QB & RB & B1 & B2 & B3)];
    rewrite QA, QB, ?RA, ?RB; cbn [negb]; apply divide32; try assumption; rewrite A3, B3; reflexivity.
Qed.
