(* ===== verification/F64.v ===== *)
(** 64-bit floating point: the translation of [f64_*.c] and of the [*F64*.c]
    helpers of SoftFloat, in the 8086-SSE specialisation. *)
From Stdlib Require Import ZArith Bool Lia.
From S2P Require Import Prelude Ieee Softfloat Primitives.
Local Open Scope Z_scope.
Local Open Scope c_scope.
Local Open Scope M_scope.

(** ** Fields ([internals.h]) *)
Definition signF64UI (a : Z) : bool := z2b (u64 a >> 63).
Definition expF64UI (a : Z) : Z := i64 (a >> 52) .& 0x7FF.
Definition fracF64UI (a : Z) : Z := a .& 0x000FFFFFFFFFFFFF.
Definition packToF64UI (sign : bool) (exp sig : Z) : Z :=
  u64 (u64 (u64 (b2z sign << 63) + u64 (u64 exp << 52)) + sig).
Definition isNaNF64UI (a : Z) : bool :=
  ((u64 (Z.lnot a) .& 0x7FF0000000000000) =? 0) && z2b (a .& 0x000FFFFFFFFFFFFF).

(** ** NaNs ([specialize.h]) *)
Definition defaultNaNF64UI : Z := 0xFFF8000000000000.
Definition softfloat_isSigNaNF64UI (uiA : Z) : bool :=
  ((uiA .& 0x7FF8000000000000) =? 0x7FF0000000000000) && z2b (uiA .& 0x0007FFFFFFFFFFFF).

Definition softfloat_propagateNaNF64UI (uiA uiB : Z) : M Z :=
  let isSigNaNA := softfloat_isSigNaNF64UI uiA in
  let last := ret ((if isNaNF64UI uiA then uiA else uiB) .| 0x0008000000000000) in
  if isSigNaNA || softfloat_isSigNaNF64UI uiB then
    softfloat_raiseFlags softfloat_flag_invalid ;;;
    (if isSigNaNA then ret (uiA .| 0x0008000000000000) else last)
  else last.

(** ** Normalisation, rounding and packing *)
Record exp16_sig64 := { e16s64_exp : Z; e16s64_sig : Z }.

Definition softfloat_normSubnormalF64Sig (sig : Z) : exp16_sig64 :=
  let shiftDist := i8 (softfloat_countLeadingZeros64 sig - 11) in
  {| e16s64_exp := 1 - shiftDist; e16s64_sig := u64 (sig << shiftDist) |}.

Definition softfloat_roundPackToF64 (sign : bool) (exp sig : Z) : M Z :=
  s <- get ;;
  let roundingMode := softfloat_roundingMode s in
  let roundNearEven := roundingMode =? softfloat_round_near_even in
  let roundIncrement :=
    if negb roundNearEven && negb (roundingMode =? softfloat_round_near_maxMag) then
      if roundingMode =? (if sign then softfloat_round_min else softfloat_round_max) then 0x3FF else 0
    else 0x200 in
  let roundBits := sig .& 0x3FF in
  let pack exp sig roundBits :=
    let sig := u64 (sig + roundIncrement) >> 10 in
    when (z2b roundBits) (softfloat_raiseFlags softfloat_flag_inexact) ;;;
    let sig := sig .& u64 (Z.lnot (b2z (negb (z2b (roundBits .^ 0x200)) && roundNearEven))) in
    let exp := if negb (z2b sig) then 0 else exp in
    ret (packToF64UI sign exp sig) in
  if 0x7FD <=? u16 exp then
    if exp <? 0 then
      let isTiny :=
        (softfloat_detectTininess s =? softfloat_tininess_beforeRounding)
        || (exp <? -1) || (u64 (sig + roundIncrement) <? 0x8000000000000000) in
      let sig := softfloat_shiftRightJam64 sig (u64 (- exp)) in
      let exp := 0 in
      let roundBits := sig .& 0x3FF in
      when (isTiny && z2b roundBits) (softfloat_raiseFlags softfloat_flag_underflow) ;;;
      pack exp sig roundBits
    else if (0x7FD <? exp) || (0x8000000000000000 <=? u64 (sig + roundIncrement)) then
      softfloat_raiseFlags (softfloat_flag_overflow .| softfloat_flag_inexact) ;;;
      ret (u64 (packToF64UI sign 0x7FF 0 - b2z (negb (z2b roundIncrement))))
    else pack exp sig roundBits
  else pack exp sig roundBits.

Definition softfloat_normRoundPackToF64 (sign : bool) (exp sig : Z) : M Z :=
  let shiftDist := i8 (softfloat_countLeadingZeros64 sig - 1) in
  let exp := exp - shiftDist in
  if (10 <=? shiftDist) && (u32 exp <? 0x7FD) then
    ret (packToF64UI sign (if z2b sig then exp else 0) (u64 (sig << (shiftDist - 10))))
  else
    softfloat_roundPackToF64 sign exp (u64 (sig << shiftDist)).

(** ** Addition and subtraction *)
Definition softfloat_addMagsF64 (uiA uiB : Z) (signZ : bool) : M Z :=
  let expA := expF64UI uiA in
  let sigA := fracF64UI uiA in
  let expB := expF64UI uiB in
  let sigB := fracF64UI uiB in
  let propagateNaN := softfloat_propagateNaNF64UI uiA uiB in
  let expDiff := expA - expB in
  if expDiff =? 0 then
    if expA =? 0 then ret (u64 (uiA + sigB))
    else if expA =? 0x7FF then
      if z2b (sigA .| sigB) then propagateNaN else ret uiA
    else
      let expZ := expA in
      let sigZ := u64 (0x0020000000000000 + sigA + sigB) in
      let sigZ := u64 (sigZ << 9) in
      softfloat_roundPackToF64 signZ expZ sigZ
  else
    let sigA := u64 (sigA << 9) in
    let sigB := u64 (sigB << 9) in
    let finish expZ sigA sigB :=
      let sigZ := u64 (0x2000000000000000 + sigA + sigB) in
      let '(expZ, sigZ) :=
        if sigZ <? 0x4000000000000000 then (expZ - 1, u64 (sigZ << 1)) else (expZ, sigZ) in
      softfloat_roundPackToF64 signZ expZ sigZ in
    if expDiff <? 0 then
      if expB =? 0x7FF then
        if z2b sigB then propagateNaN else ret (packToF64UI signZ 0x7FF 0)
      else
        let expZ := expB in
        let sigA := if z2b expA then u64 (sigA + 0x2000000000000000) else u64 (sigA << 1) in
        let sigA := softfloat_shiftRightJam64 sigA (u64 (- expDiff)) in
        finish expZ sigA sigB
    else
      if expA =? 0x7FF then
        if z2b sigA then propagateNaN else ret uiA
      else
        let expZ := expA in
        let sigB := if z2b expB then u64 (sigB + 0x2000000000000000) else u64 (sigB << 1) in
        let sigB := softfloat_shiftRightJam64 sigB (u64 expDiff) in
        finish expZ sigA sigB.

Definition softfloat_subMagsF64 (uiA uiB : Z) (signZ : bool) : M Z :=
  let expA := expF64UI uiA in
  let sigA := fracF64UI uiA in
  let expB := expF64UI uiB in
  let sigB := fracF64UI uiB in
  let propagateNaN := softfloat_propagateNaNF64UI uiA uiB in
  let expDiff := expA - expB in
  if expDiff =? 0 then
    if expA =? 0x7FF then
      if z2b (sigA .| sigB) then propagateNaN
      else softfloat_raiseFlags softfloat_flag_invalid ;;; ret defaultNaNF64UI
    else
      let sigDiff := i64 (u64 (sigA - sigB)) in
      if sigDiff =? 0 then
        s <- get ;;
        ret (packToF64UI (softfloat_roundingMode s =? softfloat_round_min) 0 0)
      else
        let expA := if z2b expA then expA - 1 else expA in
        let '(signZ, sigDiff) := if sigDiff <? 0 then (negb signZ, - sigDiff) else (signZ, sigDiff) in
        let shiftDist := i8 (softfloat_countLeadingZeros64 (u64 sigDiff) - 11) in
        let expZ := expA - shiftDist in
        let '(shiftDist, expZ) := if expZ <? 0 then (i8 expA, 0) else (shiftDist, expZ) in
        ret (packToF64UI signZ expZ (u64 (sigDiff << shiftDist)))
  else
    let sigA := u64 (sigA << 10) in
    let sigB := u64 (sigB << 10) in
    if expDiff <? 0 then
      let signZ := negb signZ in
      if expB =? 0x7FF then
        if z2b sigB then propagateNaN else ret (packToF64UI signZ 0x7FF 0)
      else
        let sigA := u64 (sigA + (if z2b expA then 0x4000000000000000 else sigA)) in
        let sigA := softfloat_shiftRightJam64 sigA (u64 (- expDiff)) in
        let sigB := sigB .| 0x4000000000000000 in
        let expZ := expB in
        let sigZ := u64 (sigB - sigA) in
        softfloat_normRoundPackToF64 signZ (expZ - 1) sigZ
    else
      if expA =? 0x7FF then
        if z2b sigA then propagateNaN else ret uiA
      else
        let sigB := u64 (sigB + (if z2b expB then 0x4000000000000000 else sigB)) in
        let sigB := softfloat_shiftRightJam64 sigB (u64 expDiff) in
        let sigA := sigA .| 0x4000000000000000 in
        let expZ := expA in
        let sigZ := u64 (sigA - sigB) in
        softfloat_normRoundPackToF64 signZ (expZ - 1) sigZ.

Definition f64_add (a b : Z) : M Z :=
  let uiA := a in
  let signA := signF64UI uiA in
  let uiB := b in
  let signB := signF64UI uiB in
  if Bool.eqb signA signB then softfloat_addMagsF64 uiA uiB signA
  else softfloat_subMagsF64 uiA uiB signA.

Definition f64_sub (a b : Z) : M Z :=
  let uiA := a in
  let signA := signF64UI uiA in
  let uiB := b in
  let signB := signF64UI uiB in
  if Bool.eqb signA signB then softfloat_subMagsF64 uiA uiB signA
  else softfloat_addMagsF64 uiA uiB signA.

(** ** Multiplication *)
Definition f64_mul (a b : Z) : M Z :=
  let uiA := a in
  let signA := signF64UI uiA in
  let expA := expF64UI uiA in
  let sigA := fracF64UI uiA in
  let uiB := b in
  let signB := signF64UI uiB in
  let expB := expF64UI uiB in
  let sigB := fracF64UI uiB in
  let signZ := xorb signA signB in
  let propagateNaN := softfloat_propagateNaNF64UI uiA uiB in
  let infArg magBits :=
    if negb (z2b magBits) then
      softfloat_raiseFlags softfloat_flag_invalid ;;; ret defaultNaNF64UI
    else ret (packToF64UI signZ 0x7FF 0) in
  let zero := ret (packToF64UI signZ 0 0) in
  let multiply expA sigA expB sigB :=
    let expZ := expA + expB - 0x3FF in
    let sigA := u64 ((sigA .| 0x0010000000000000) << 10) in
    let sigB := u64 ((sigB .| 0x0010000000000000) << 11) in
    let sig128Z := softfloat_mul64To128 sigA sigB in
    let sigZ := v64 sig128Z .| b2z (negb (v0 sig128Z =? 0)) in
    let '(expZ, sigZ) :=
      if sigZ <? 0x4000000000000000 then (expZ - 1, u64 (sigZ << 1)) else (expZ, sigZ) in
    softfloat_roundPackToF64 signZ expZ sigZ in
  let normB expA sigA :=
    if negb (z2b expB) then
      if negb (z2b sigB) then zero
      else
        let normExpSig := softfloat_normSubnormalF64Sig sigB in
        multiply expA sigA (e16s64_exp normExpSig) (e16s64_sig normExpSig)
    else multiply expA sigA expB sigB in
  if expA =? 0x7FF then
    if z2b sigA || ((expB =? 0x7FF) && z2b sigB) then propagateNaN
    else infArg (expB .| sigB)
  else if expB =? 0x7FF then
    if z2b sigB then propagateNaN else infArg (expA .| sigA)
  else if negb (z2b expA) then
    if negb (z2b sigA) then zero
    else
      let normExpSig := softfloat_normSubnormalF64Sig sigA in
      normB (e16s64_exp normExpSig) (e16s64_sig normExpSig)
  else normB expA sigA.

(** ** Division *)
Definition f64_div (a b : Z) : M Z :=
  let uiA := a in
  let signA := signF64UI uiA in
  let expA := expF64UI uiA in
  let sigA := fracF64UI uiA in
  let uiB := b in
  let signB := signF64UI uiB in
  let expB := expF64UI uiB in
  let sigB := fracF64UI uiB in
  let signZ := xorb signA signB in
  let propagateNaN := softfloat_propagateNaNF64UI uiA uiB in
  let invalid := softfloat_raiseFlags softfloat_flag_invalid ;;; ret defaultNaNF64UI in
  let infinity := ret (packToF64UI signZ 0x7FF 0) in
  let zero := ret (packToF64UI signZ 0 0) in
  let divide expA sigA expB sigB :=
    let expZ := expA - expB + 0x3FE in
    let sigA := sigA .| 0x0010000000000000 in
    let sigB := sigB .| 0x0010000000000000 in
    let '(expZ, sigA) :=
      if sigA <? sigB then (expZ - 1, u64 (sigA << 11)) else (expZ, u64 (sigA << 10)) in
    let sigB := u64 (sigB << 11) in
    let recip32 := u32 (softfloat_approxRecip32_1 (sigB >> 32) - 2) in
    let sig32Z := u32 (u64 (u32 (sigA >> 32) * recip32) >> 32) in
    let doubleTerm := u32 (sig32Z << 1) in
    let rem :=
      u64 (u64 (u64 (sigA - u64 (doubleTerm * u32 (sigB >> 32))) << 28)
           - u64 (doubleTerm * (u32 sigB >> 4))) in
    let q := u32 ((u64 (u32 (rem >> 32) * recip32) >> 32) + 4) in
    let sigZ := u64 (u64 (sig32Z << 32) + u64 (q << 4)) in
    let sigZ :=
      if (sigZ .& 0x1FF) <? (4 << 4) then
        let q := q .& u32 (Z.lnot 7) in
        let sigZ := sigZ .& u64 (Z.lnot 0x7F) in
        let doubleTerm := u32 (q << 1) in
        let rem :=
          u64 (u64 (u64 (rem - u64 (doubleTerm * u32 (sigB >> 32))) << 28)
               - u64 (doubleTerm * (u32 sigB >> 4))) in
        if z2b (rem .& 0x8000000000000000) then u64 (sigZ - (1 << 7))
        else if z2b rem then sigZ .| 1 else sigZ
      else sigZ in
    softfloat_roundPackToF64 signZ expZ sigZ in
  let normA expB sigB :=
    if negb (z2b expA) then
      if negb (z2b sigA) then zero
      else
        let normExpSig := softfloat_normSubnormalF64Sig sigA in
        divide (e16s64_exp normExpSig) (e16s64_sig normExpSig) expB sigB
    else divide expA sigA expB sigB in
  if expA =? 0x7FF then
    if z2b sigA then propagateNaN
    else if expB =? 0x7FF then
      if z2b sigB then propagateNaN else invalid
    else infinity
  else if expB =? 0x7FF then
    if z2b sigB then propagateNaN else zero
  else if negb (z2b expB) then
    if negb (z2b sigB) then
      if negb (z2b (expA .| sigA)) then invalid
      else softfloat_raiseFlags softfloat_flag_infinite ;;; infinity
    else
      let normExpSig := softfloat_normSubnormalF64Sig sigB in
      normA (e16s64_exp normExpSig) (e16s64_sig normExpSig)
  else normA expB sigB.

(** ** Comparisons *)
Definition f64_eq (a b : Z) : M bool :=
  let uiA := a in
  let uiB := b in
  if isNaNF64UI uiA || isNaNF64UI uiB then
    when (softfloat_isSigNaNF64UI uiA || softfloat_isSigNaNF64UI uiB)
      (softfloat_raiseFlags softfloat_flag_invalid) ;;;
    ret false
  else ret ((uiA =? uiB) || negb (z2b ((uiA .| uiB) .& 0x7FFFFFFFFFFFFFFF))).

Definition f64_eq_signaling (a b : Z) : M bool :=
  let uiA := a in
  let uiB := b in
  if isNaNF64UI uiA || isNaNF64UI uiB then
    softfloat_raiseFlags softfloat_flag_invalid ;;; ret false
  else ret ((uiA =? uiB) || negb (z2b ((uiA .| uiB) .& 0x7FFFFFFFFFFFFFFF))).

Definition f64_le (a b : Z) : M bool :=
  let uiA := a in
  let uiB := b in
  if isNaNF64UI uiA || isNaNF64UI uiB then
    softfloat_raiseFlags softfloat_flag_invalid ;;; ret false
  else
    let signA := signF64UI uiA in
    let signB := signF64UI uiB in
    ret (if xorb signA signB then signA || negb (z2b ((uiA .| uiB) .& 0x7FFFFFFFFFFFFFFF))
         else (uiA =? uiB) || xorb signA (uiA <? uiB)).

Definition f64_lt (a b : Z) : M bool :=
  let uiA := a in
  let uiB := b in
  if isNaNF64UI uiA || isNaNF64UI uiB then
    softfloat_raiseFlags softfloat_flag_invalid ;;; ret false
  else
    let signA := signF64UI uiA in
    let signB := signF64UI uiB in
    ret (if xorb signA signB then signA && z2b ((uiA .| uiB) .& 0x7FFFFFFFFFFFFFFF)
         else negb (uiA =? uiB) && xorb signA (uiA <? uiB)).

Definition f64_le_quiet (a b : Z) : M bool :=
  let uiA := a in
  let uiB := b in
  if isNaNF64UI uiA || isNaNF64UI uiB then
    when (softfloat_isSigNaNF64UI uiA || softfloat_isSigNaNF64UI uiB)
      (softfloat_raiseFlags softfloat_flag_invalid) ;;;
    ret false
  else
    let signA := signF64UI uiA in
    let signB := signF64UI uiB in
    ret (if xorb signA signB then signA || negb (z2b ((uiA .| uiB) .& 0x7FFFFFFFFFFFFFFF))
         else (uiA =? uiB) || xorb signA (uiA <? uiB)).

Definition f64_lt_quiet (a b : Z) : M bool :=
  let uiA := a in
  let uiB := b in
  if isNaNF64UI uiA || isNaNF64UI uiB then
    when (softfloat_isSigNaNF64UI uiA || softfloat_isSigNaNF64UI uiB)
      (softfloat_raiseFlags softfloat_flag_invalid) ;;;
    ret false
  else
    let signA := signF64UI uiA in
    let signB := signF64UI uiB in
    ret (if xorb signA signB then signA && z2b ((uiA .| uiB) .& 0x7FFFFFFFFFFFFFFF)
         else negb (uiA =? uiB) && xorb signA (uiA <? uiB)).

Definition f64_isSignalingNaN (a : Z) : bool := softfloat_isSigNaNF64UI a.
