(* ===== verification/F64Round.v ===== *)
(** Rounding and packing to 64 bits is correct rounding. *)
From Stdlib Require Import ZArith Bool Lia Reals Lra.
From S2P Require Import Prelude Ieee Rounding RoundPack Softfloat Primitives Machine F64.
Local Open Scope Z_scope.
Local Open Scope c_scope.

Lemma packToF64UI_eq (sign : bool) (exp sig : Z) :
  0 <= exp < 2 ^ 11 -> 0 <= sig -> exp * 2 ^ 52 + sig < 2 ^ 63 ->
  packToF64UI sign exp sig = with_sign F64 sign (exp * 2 ^ 52 + sig).
Proof.
  intros He Hs Hb. unfold packToF64UI, with_sign. change (sign_weight F64) with (2 ^ 63).
  rewrite !shl_mul by lia. assert (0 <= b2z sign <= 1) by (destruct sign; cbn; lia).
  set (t := b2z sign) in *. clearbody t.
  rewrite (uwrap_small 64 exp), (uwrap_small 64 (exp * _)), (uwrap_small 64 (t * _)) by lia.
  rewrite (uwrap_small 64 (t * _ + _)), (uwrap_small 64) by lia. lia.
Qed.

Lemma packToF64UI_overflow (sign : bool) (inc : Z) :
  u64 (packToF64UI sign 0x7FF 0 - b2z (negb (z2b inc))) =
  with_sign F64 sign (inf_pattern F64 - b2z (inc =? 0)).
Proof.
  unfold z2b. rewrite negb_involutive. destruct sign, (inc =? 0); reflexivity.
Qed.

(** Dropping the guard bits and packing. *)
#[local] Definition tail64 := round_pack_tail F64 10 0x200 packToF64UI
  ltac:(lia) eq_refl ltac:(simpl; lia)
  ltac:(cbn [mb eb F64]; intros; apply packToF64UI_eq; lia).

(** The C function computes the generic one. *)
Lemma softfloat_roundPackToF64_eq (sign : bool) (exp sig : Z) (s : env) :
  - 2 ^ 15 < exp < 2 ^ 15 -> 2 ^ 62 <= sig < 2 ^ 63 ->
  let d := env_direction s sign in
  softfloat_roundPackToF64 sign exp sig s =
    (with_sign F64 sign (round_pack F64 d 10 exp sig),
     raised_env (round_pack_flags F64 d 10 (env_before s) exp sig) s).
Proof.
  intros He Hs d. unfold softfloat_roundPackToF64.
  change (bind get ?k s) with (k s s). cbv beta zeta.
  rewrite (increment_code 10) by reflexivity.
  rewrite !(land_low _ 0x3FF 10) by (reflexivity || lia).
  pose proof (increment_bound (mag_direction (softfloat_roundingMode s) sign) 10 ltac:(lia)) as I.
  unfold round_pack, round_pack_flags, rp_overflow, rp_tiny, rp_sig.
  fold (env_direction s sign) in I. fold d in I.
  change (2 ^ eb F64 - 3) with 0x7FD. change (2 ^ (mb F64 + 10 + 1)) with 0x8000000000000000.
  change (mb F64) with 52.
  destruct (Z.leb_spec 0x7FD (u16 exp)) as [U|U].
  - destruct (Z.ltb_spec exp 0) as [E|E].
    + replace (0x7FD <? exp) with false by (symmetry; apply Z.ltb_ge; lia).
      replace (exp =? 0x7FD) with false by (symmetry; apply Z.eqb_neq; lia). cbn [orb andb].
      rewrite (uwrap_small 64 (- exp)) by lia.
      rewrite softfloat_shiftRightJam64_jam by lia.
      assert (J : 0 <= jam sig (- exp) < 2 ^ 63) by (split; [apply jam_nonneg|apply jam_bound]; lia).
      unfold bind at 1. rewrite when_raise.
      rewrite (tail64 sign (softfloat_roundingMode s) 0 (jam sig (- exp))) by fmt_lia.
      rewrite raised_env_lor. fold (env_direction s sign). fold d.
      rewrite (uwrap_small 64 (sig + _)) by lia. unfold env_before, z2b.
      replace (Z.max exp 0) with 0 by lia. f_equal. f_equal.
      destruct (jam sig (- exp) mod 2 ^ 10 =? 0); cbn [negb]; rewrite ?andb_false_r, ?andb_true_r; [reflexivity|].
      destruct (_ || _); reflexivity.
    + rewrite (uwrap_small 16 exp) in U by lia.
      fold (env_direction s sign). fold d.
      replace (0x8000000000000000 <=? u64 (sig + increment d 10)) with (0x8000000000000000 <=? sig + increment d 10)
        by (rewrite uwrap_small by lia; reflexivity).
      replace (Z.max exp 0) with exp by lia.
      assert (O : (0x7FD <? exp) || (exp =? 0x7FD) && (0x8000000000000000 <=? sig + increment d 10) =
                  (0x7FD <? exp) || (0x8000000000000000 <=? sig + increment d 10)).
      { destruct (Z.ltb_spec 0x7FD exp); [reflexivity|]. now replace (exp =? 0x7FD) with true by lia. }
      rewrite O. destruct ((0x7FD <? exp) || (0x8000000000000000 <=? sig + increment d 10)) eqn:X.
      * unfold bind, softfloat_raiseFlags, ret. f_equal. apply packToF64UI_overflow.
      * rewrite (tail64 sign (softfloat_roundingMode s) exp sig) by fmt_lia. reflexivity.
  - assert (E : 0 <= exp < 0x7FD) by (unfold uwrap in U; destruct (Z.ltb_spec exp 0); zdm).
    replace (0x7FD <? exp) with false by lia. replace (exp =? 0x7FD) with false by lia.
    destruct (Z.ltb_spec exp 0); [lia|]. cbn [orb andb]. replace (Z.max exp 0) with exp by lia.
    rewrite (tail64 sign (softfloat_roundingMode s) exp sig) by fmt_lia. reflexivity.
Qed.

(** The result is the correct rounding of the real number that the significand
    stands for, with 10 guard bits of which the last may be sticky. *)
Lemma softfloat_roundPackToF64_rounds (sign : bool) (k exp sig : Z) (s : env) (x y : R) :
  - 2 ^ 15 < exp < 2 ^ 15 -> 2 ^ 62 <= sig < 2 ^ 63 -> 0 <= k <= 9 -> same (2 ^ k) sig y ->
  x = (y * pow2 (exp - 10 + emin F64))%R ->
  rounded_result F64 s sign x (softfloat_roundPackToF64 sign exp sig s).
Proof.
  intros He Hs Hk S X. rewrite softfloat_roundPackToF64_eq by assumption.
  apply (round_pack_result F64 s sign 10 k exp sig x y); try assumption; fmt_lia.
Qed.

(** ** Fields *)
Lemma expF64UI_eq (a : Z) : is_enc F64 a -> expF64UI a = (a / 2 ^ 52) mod 2 ^ 11.
Proof.
  unfold is_enc, expF64UI. change (sign_weight F64) with (2 ^ 63). intros Ha. rewrite shr_div by lia.
  rewrite (swrap_small 64 (a / 2 ^ 52)) by (eval_pow; zdm). apply (land_low _ 0x7FF 11); reflexivity || lia.
Qed.

Lemma F64_fields (a : Z) : is_enc F64 a ->
  signF64UI a = sign_of F64 a /\ 0 <= expF64UI a < 2 ^ 11 /\ 0 <= fracF64UI a < 2 ^ 52 /\
  pattern_of F64 a = expF64UI a * 2 ^ 52 + fracF64UI a /\ a = with_sign F64 (sign_of F64 a) (pattern_of F64 a).
Proof.
  unfold is_enc, signF64UI, expF64UI, fracF64UI, sign_of, pattern_of, with_sign.
  change (sign_weight F64) with (2 ^ 63). intros Ha.
  rewrite !shr_div by lia. rewrite (swrap_small 64 (a / 2 ^ 52)) by (eval_pow; zdm).
  rewrite (land_low _ 0x7FF 11), (land_low _ 0x000FFFFFFFFFFFFF 52) by (reflexivity || lia).
  rewrite uwrap_small by lia.
  assert (D : 0 <= a / 2 ^ 63 <= 1) by zdm.
  repeat split; try (apply Z.mod_pos_bound; lia).
  - unfold z2b. destruct (Z.eqb_spec (a / 2 ^ 63) 0), (Z.leb_spec (2 ^ 63) a); try reflexivity; zdm.
  - zdm.
  - destruct (Z.leb_spec (2 ^ 63) a); cbn [Z.b2z]; zdm.
Qed.

(** A sum of aligned significands, the smaller one shifted with a sticky bit. *)
Lemma align64_round (sign : bool) (e d sx sy sz : Z) (s : env) (x : R) :
  1 <= e <= 0x7FE -> 0 < d < 2 ^ 63 -> 2 ^ 61 <= sx < 2 ^ 62 -> sx mod 2 = 0 -> 0 <= sy < 2 ^ 62 ->
  sz = sx + jam sy d ->
  x = (IZR sx * pow2 (e - 10 + emin F64) + IZR sy * pow2 (e - d - 10 + emin F64))%R ->
  rounded_result F64 s sign x
    ((let '(ez, sz) := if u64 sz <? 0x4000000000000000 then (e - 1, u64 (u64 sz << 1)) else (e, u64 sz) in
      softfloat_roundPackToF64 sign ez sz) s).
Proof.
  intros He Hd Hx Hx2 Hy -> X.
  assert (X' : x = ((IZR sx + IZR sy * pow2 (- d)) * pow2 (e - 10 + emin F64))%R).
  { rewrite X, Rmult_plus_distr_r, Rmult_assoc, <- pow2_add. do 3 f_equal. lia. }
  clear X. set (sz := sx + jam sy d).
  assert (J : 0 <= jam sy d < 2 ^ 62) by (split; [apply jam_nonneg|apply jam_bound]; lia).
  assert (S : same 2 sz (IZR sx + IZR sy * pow2 (- d))).
  { apply same_add; [exists (sx / 2); zdm|]. change 2 with (2 ^ 1).
    apply same_pow with (Z.max 1 (0 - d)); [lia|]. apply same_jam; try lia. apply (same_exact 1). }
  set (y := (IZR sx + IZR sy * pow2 (- d))%R) in *. clearbody y.
  rewrite (uwrap_small 64 sz) by lia. rewrite shl_mul by lia.
  destruct (Z.ltb_spec sz 0x4000000000000000).
  - rewrite uwrap_small by lia.
    apply softfloat_roundPackToF64_rounds with (k := 2) (y := (y * pow2 1)%R); try lia.
    + apply (same_shl 1 1); try lia. exact S.
    + rewrite X', Rmult_assoc, <- pow2_add. do 2 f_equal. lia.
  - apply softfloat_roundPackToF64_rounds with (k := 1) (y := y); try lia; [exact S|exact X'].
Qed.

(** Normalising first: either nothing was lost, or at most a few bits cancelled. *)
Lemma softfloat_normRoundPackToF64_rounds (sign : bool) (exp sig : Z) (s : env) (x y : R) :
  - 2 ^ 14 < exp <= 0x7FD -> 0 < sig < 2 ^ 63 -> y = IZR sig \/ 2 ^ 57 <= sig /\ same 2 sig y ->
  x = (y * pow2 (exp - 10 + emin F64))%R ->
  rounded_result F64 s sign x (softfloat_normRoundPackToF64 sign exp sig s).
Proof.
  intros He Hs Hy X. unfold softfloat_normRoundPackToF64.
  rewrite softfloat_countLeadingZeros64_spec by lia.
  pose proof (Z.log2_spec sig ltac:(lia)) as L. pose proof (Z.log2_nonneg sig) as L0.
  pose proof (proj1 (log2_bounds sig 63 ltac:(lia) ltac:(lia)) ltac:(lia)) as L1.
  replace (nlz 64 sig - 1) with (62 - Z.log2 sig) by (unfold nlz; lia).
  assert (L57 : 2 ^ 57 <= sig -> 57 <= Z.log2 sig) by (intros K; apply Z.log2_le_pow2 in K; lia).
  set (l := Z.log2 sig) in *. clearbody l. rewrite swrap_small by fmt_lia.
  assert (B : 2 ^ 62 <= sig * 2 ^ (62 - l) < 2 ^ 63).
  { rewrite Z.pow_succ_r in L by lia. assert (P : 0 < 2 ^ (62 - l)) by (apply Z.pow_pos_nonneg; lia).
    assert (2 ^ 62 = 2 ^ l * 2 ^ (62 - l)) by (rewrite <- Z.pow_add_r by lia; f_equal; lia). nia. }
  destruct (_ && _) eqn:C.
  - apply andb_true_iff in C as [C1%Z.leb_le C2%Z.ltb_lt].
    assert (C3 : 0 <= exp - (62 - l) < 0x7FD) by (unfold uwrap in C2; destruct (Z.ltb_spec (exp - (62 - l)) 0); zdm).
    destruct Hy as [->|[Hy _]]; [|lia].
    replace (62 - l - 10) with (52 - l) by lia. rewrite shl_mul by lia.
    assert (P : 0 < 2 ^ (52 - l)) by (apply Z.pow_pos_nonneg; lia).
    assert (E : 2 ^ (62 - l) = 2 ^ 10 * 2 ^ (52 - l)) by (rewrite <- Z.pow_add_r by lia; f_equal; lia).
    assert (B' : 2 ^ 52 <= sig * 2 ^ (52 - l) < 2 ^ 53) by lia.
    rewrite (uwrap_small 64) by lia. unfold z2b at 1.
    replace (sig =? 0) with false by lia. cbn [negb].
    rewrite packToF64UI_eq by lia. subst x. unfold ret.
    apply exact_result; [typeclasses eauto|change (inf_pattern F64) with (0x7FF * 2 ^ 52); lia|].
    rewrite (mag_pack F64 (exp - (62 - l))) by fmt_lia.
    rewrite mult_IZR, <- pow2_IZR, Rmult_assoc, <- pow2_add by lia. do 2 f_equal. lia.
  - rewrite shl_mul, (uwrap_small 64) by lia.
    apply softfloat_roundPackToF64_rounds with (k := if sig <? 2 ^ 57 then 0 else 1 + (62 - l)) (y := (y * pow2 (62 - l))%R);
      try lia; [destruct (Z.ltb_spec sig (2 ^ 57)); lia| |].
    + destruct Hy as [->|[Hy S]].
      * apply (same_pow 0); [destruct (Z.ltb_spec sig (2 ^ 57)); lia|].
        replace (IZR sig * pow2 (62 - l))%R with (IZR (sig * 2 ^ (62 - l))) by (rewrite mult_IZR, pow2_IZR by lia; ring).
        apply same_exact.
      * destruct (Z.ltb_spec sig (2 ^ 57)); [lia|]. apply (same_shl 1 (62 - l)); try lia. exact S.
    + rewrite X, Rmult_assoc, <- pow2_add. do 2 f_equal. lia.
Qed.

Lemma mag64_fields (e m : Z) : 0 <= e -> 0 <= m < 2 ^ 52 ->
  mag F64 (e * 2 ^ 52 + m) = (IZR (if e =? 0 then m else 2 ^ 52 + m) * pow2 (Z.max e 1 - 1 + emin F64))%R.
Proof. exact (mag_fields F64 e m). Qed.

Lemma mag64_pack (q n : Z) : 0 <= q -> 0 <= n <= 2 ^ 53 -> q = 0 \/ 2 ^ 52 <= n ->
  mag F64 (q * 2 ^ 52 + n) = (IZR n * pow2 (q + emin F64))%R.
Proof. exact (mag_pack F64 q n). Qed.

Lemma exact64_result (s : env) (sign : bool) (b : Z) (x : R) :
  0 <= b < 0x7FF * 2 ^ 52 -> mag F64 b = x -> rounded_result F64 s sign x (with_sign F64 sign b, s).
Proof. exact (exact_result F64 s sign b x). Qed.

(** A difference of aligned significands. *)
Lemma cancel64_round (sign : bool) (e d sx sy : Z) (s : env) (x : R) :
  1 <= e <= 0x7FE -> 0 < d < 2 ^ 63 -> 2 ^ 62 <= sx < 2 ^ 63 -> sx mod 2 = 0 ->
  0 <= sy < 2 ^ 63 -> sy mod 2 ^ 10 = 0 ->
  x = (IZR sx * pow2 (e - 11 + emin F64) - IZR sy * pow2 (e - d - 11 + emin F64))%R ->
  (0 < x)%R /\ rounded_result F64 s sign x (softfloat_normRoundPackToF64 sign (e - 1) (u64 (sx - jam sy d)) s).
Proof.
  intros He Hd Hx Hx2 Hy Hy10 X.
  assert (X' : x = ((IZR sx - IZR sy * pow2 (- d)) * pow2 (e - 11 + emin F64))%R).
  { rewrite X. unfold Rminus. rewrite Rmult_plus_distr_r, <- Ropp_mult_distr_l, Rmult_assoc, <- pow2_add. do 4 f_equal. lia. }
  clear X.
  assert (P : 2 <= 2 ^ d) by (apply (Z.pow_le_mono_r 2 1); lia).
  assert (Q : 0 <= sy / 2 ^ d < 2 ^ 62) by (split; [apply Z.div_pos; lia|apply Z.div_lt_upper_bound; nia]).
  assert (J : 0 <= jam sy d < 2 ^ 62) by (split; [apply jam_nonneg; lia|rewrite jam_eq by lia; destruct (_ =? 0); zdm]).
  assert (S : same 2 (sx - jam sy d) (IZR sx - IZR sy * pow2 (- d))).
  { apply same_sub; [exists (sx / 2); zdm|]. change 2 with (2 ^ 1).
    apply same_pow with (Z.max 1 (0 - d)); [lia|]. apply same_jam; try lia. apply (same_exact 1). }
  assert (E : (IZR sx - IZR sy * pow2 (- d))%R = IZR (sx - jam sy d) \/ 2 ^ 57 <= sx - jam sy d).
  { destruct (Z.le_gt_cases d 10) as [C|C]; [left|right].
    - assert (Z0 : sy mod 2 ^ d = 0).
      { apply Z.mod_divide in Hy10; [|lia]. apply Z.mod_divide; [lia|]. apply Z.divide_trans with (2 ^ 10); [|assumption].
        exists (2 ^ (10 - d)). rewrite <- Z.pow_add_r by lia. f_equal. lia. }
      rewrite jam_eq, Z0 by lia. cbn [Z.eqb]. rewrite minus_IZR. f_equal.
      rewrite (Z.div_mod sy (2 ^ d)) at 1 by lia. rewrite Z0, Z.add_0_r, mult_IZR, <- pow2_IZR, pow2_opp by lia.
      field. pose proof (pow2_pos d). lra.
    - assert (2 ^ 11 <= 2 ^ d) by (apply Z.pow_le_mono_r; lia).
      assert (sy / 2 ^ d < 2 ^ 52) by (apply Z.div_lt_upper_bound; nia).
      rewrite jam_eq by lia. destruct (_ =? 0); zdm. }
  set (y := (IZR sx - IZR sy * pow2 (- d))%R) in *. rewrite (uwrap_small 64) by lia. split.
  - rewrite X'. apply Rmult_lt_0_compat; [|auto]. destruct E as [->|E]; [apply IZR_lt; lia|].
    pose proof (same_lower 2 1 _ _ S ltac:(lia)) as L. simpl in L. lra.
  - apply softfloat_normRoundPackToF64_rounds with (y := y); try lia.
    + destruct E as [E|E]; [now left|right; now split].
    + rewrite X'. do 2 f_equal. lia.
Qed.
