(* ===== verification/F64Arith.v ===== *)
(** 64-bit addition and subtraction are correctly rounded and meet their contracts;
    the comparisons order the encodings by their value. *)
From Stdlib Require Import ZArith Bool Lia Reals Lra.
From S2P Require Import Prelude Ieee Rounding RoundPack Softfloat Primitives Machine Contract F64 F64Round.
Local Open Scope Z_scope.
Local Open Scope c_scope.

(** ** 64-bit addition and subtraction are correctly rounded *)

Lemma softfloat_addMagsF64_finite (a b : Z) (s : env) :
  is_finite F64 a -> is_finite F64 b ->
  rounded_result F64 s (sign_of F64 a) (mag F64 (pattern_of F64 a) + mag F64 (pattern_of F64 b))
    (softfloat_addMagsF64 a b (sign_of F64 a) s).
Proof.
  intros [Ha Fa] [Hb Fb].
  destruct (F64_fields a Ha) as (Sa & Ea & Ma & Pa & Wa). destruct (F64_fields b Hb) as (Sb & Eb & Mb & Pb & Wb).
  unfold softfloat_addMagsF64.
  set (eA := expF64UI a) in *. set (mA := fracF64UI a) in *. set (eB := expF64UI b) in *. set (mB := fracF64UI b) in *.
  set (sgn := sign_of F64 a) in *. rewrite Pa, Pb in *.
  change (inf_pattern F64) with (0x7FF * 2 ^ 52) in Fa, Fb.
  assert (LA : eA < 0x7FF) by lia. assert (LB : eB < 0x7FF) by lia.
  clearbody eA mA eB mB sgn.
  rewrite !mag64_fields by lia.
  destruct (Z.eqb_spec (eA - eB) 0) as [D|D].
  - assert (eB = eA) as -> by lia. destruct (Z.eqb_spec eA 0) as [E|E].
    + rewrite E in *. replace (u64 (a + mB)) with (with_sign F64 sgn (mA + mB)).
      * apply exact64_result; [lia|]. etransitivity; [apply (mag64_pack 0 (mA + mB)); lia|]. rewrite plus_IZR.
        change (Z.max 0 1 - 1) with 0. ring.
      * rewrite Wa. unfold with_sign. change (sign_weight F64) with (2 ^ 63).
        rewrite uwrap_small; destruct sgn; cbn [Z.b2z]; lia.
    + destruct (Z.eqb_spec eA 0x7FF); [lia|]. replace (Z.max eA 1) with eA by lia.
      rewrite !(uwrap_small 64 (_ + mA + mB)) by lia.
      assert (X : (IZR (2 ^ 52 + mA) * pow2 (eA - 1 + emin F64) + IZR (2 ^ 52 + mB) * pow2 (eA - 1 + emin F64))%R
                = (IZR (2 ^ 53 + mA + mB) * pow2 9 * pow2 (eA - 1 - 9 + emin F64))%R).
      { rewrite Rmult_assoc, <- pow2_add, <- Rmult_plus_distr_r, <- plus_IZR. do 2 f_equal; lia. }
      rewrite shl_mul, uwrap_small by lia.
      apply softfloat_roundPackToF64_rounds with (k := 0) (y := IZR ((2 ^ 53 + mA + mB) * 2 ^ 9)); try lia.
      { apply (same_exact 1). }
      rewrite X, mult_IZR, <- (pow2_IZR 9) by lia. do 2 f_equal. lia.
  - destruct (Z.eqb_spec eB 0x7FF), (Z.eqb_spec eA 0x7FF); try lia.
    rewrite !(shl_mul _ 9), (uwrap_small 64 (mA * _)), (uwrap_small 64 (mB * _)) by lia.
    assert (X : forall e m (q := if z2b e then 0x2000000000000000 else m * 2 ^ 9), 0 <= e -> 0 <= m < 2 ^ 52 ->
      0 <= m * 2 ^ 9 + q < 2 ^ 62 /\
      (IZR (if e =? 0 then m else 2 ^ 52 + m) * pow2 (Z.max e 1 - 1 + emin F64) =
       IZR (m * 2 ^ 9 + q) * pow2 (e - 10 + emin F64))%R).
    { intros e m q He Hm. unfold q, z2b. destruct (Z.eqb_spec e 0) as [->|N]; cbn [negb]; (split; [lia|]).
      - replace (m * 2 ^ 9 + m * 2 ^ 9) with (m * 2 ^ 10) by lia.
        rewrite mult_IZR, <- (pow2_IZR 10), Rmult_assoc, <- pow2_add by lia. do 2 f_equal.
      - replace (m * 2 ^ 9 + 0x2000000000000000) with ((2 ^ 52 + m) * 2 ^ 9) by lia.
        rewrite mult_IZR, <- (pow2_IZR 9), Rmult_assoc, <- pow2_add by lia. do 2 f_equal. lia. }
    assert (widen : forall e m, 0 <= m < 2 ^ 52 ->
      (if z2b e then u64 (m * 2 ^ 9 + 0x2000000000000000) else u64 (m * 2 ^ 9 << 1)) =
      m * 2 ^ 9 + (if z2b e then 0x2000000000000000 else m * 2 ^ 9)).
    { intros e m Hm. rewrite shl_mul by lia. destruct (z2b e); rewrite uwrap_small by lia; lia. }
    destruct (X eA mA ltac:(lia) Ma) as [BA EA]. destruct (X eB mB ltac:(lia) Mb) as [BB EB].
    destruct (Z.ltb_spec (eA - eB) 0) as [L|L].
    + rewrite (uwrap_small 64 (- (eA - eB))), (widen eA mA) by lia.
      rewrite softfloat_shiftRightJam64_jam by lia. rewrite EA.
      apply align64_round with (d := - (eA - eB)) (sx := 0x2000000000000000 + mB * 2 ^ 9)
        (sy := mA * 2 ^ 9 + (if z2b eA then 0x2000000000000000 else mA * 2 ^ 9)); try lia; [zdm|].
      rewrite EB. unfold z2b. destruct (Z.eqb_spec eB 0); [lia|]. cbn [negb].
      rewrite Rplus_comm. do 2 f_equal; [f_equal; lia|f_equal; lia].
    + rewrite (uwrap_small 64 (eA - eB)), (widen eB mB) by lia.
      rewrite softfloat_shiftRightJam64_jam by lia. rewrite EB.
      apply align64_round with (d := eA - eB) (sx := 0x2000000000000000 + mA * 2 ^ 9)
        (sy := mB * 2 ^ 9 + (if z2b eB then 0x2000000000000000 else mB * 2 ^ 9)); try lia; [zdm|].
      rewrite EA. unfold z2b. destruct (Z.eqb_spec eA 0); [lia|]. cbn [negb].
      do 2 f_equal; [f_equal; lia|f_equal; lia].
Qed.

(** An exact difference in the same binade. *)
Lemma same_binade64 (sign : bool) (e n : Z) (s : env) (r : Z * env) :
  0 <= e < 0x7FF -> 0 < n < 2 ^ 52 ->
  r = (let e := if z2b e then e - 1 else e in
       let shiftDist := i8 (softfloat_countLeadingZeros64 (u64 n) - 11) in
       let expZ := e - shiftDist in
       let '(shiftDist, expZ) := if expZ <? 0 then (i8 e, 0) else (shiftDist, expZ) in
       ret (packToF64UI sign expZ (u64 (n << shiftDist)))) s ->
  rounded_result F64 s sign (IZR n * pow2 (Z.max e 1 - 1 + emin F64)) r.
Proof.
  intros He Hn ->. cbv zeta. unfold ret.
  replace (if z2b e then e - 1 else e) with (Z.max e 1 - 1) by (unfold z2b; destruct (Z.eqb_spec e 0); cbn [negb]; lia).
  set (q := Z.max e 1 - 1). assert (Hq : 0 <= q < 0x7FE) by lia. clearbody q.
  rewrite (uwrap_small 64 n), softfloat_countLeadingZeros64_spec by lia.
  pose proof (Z.log2_spec n ltac:(lia)) as L. pose proof (Z.log2_nonneg n) as L0.
  pose proof (proj1 (log2_bounds n 52 ltac:(lia) ltac:(lia)) ltac:(lia)) as L1.
  replace (nlz 64 n - 11) with (52 - Z.log2 n) by (unfold nlz; lia).
  set (l := Z.log2 n) in *. clearbody l. rewrite (swrap_small 8 (52 - l)) by fmt_lia.
  assert (F : forall h, 0 <= h <= 52 - l -> h <= q -> (q - h = 0 \/ h = 52 - l) ->
    rounded_result F64 s sign (IZR n * pow2 (q + emin F64)) (packToF64UI sign (q - h) (u64 (n << h)), s)).
  { intros h Hh Hq' C. rewrite shl_mul by lia.
    assert (P : 0 < 2 ^ h) by (apply Z.pow_pos_nonneg; lia).
    assert (U : n * 2 ^ h < 2 ^ 53).
    { apply Z.lt_le_trans with (2 ^ Z.succ l * 2 ^ h); [nia|]. rewrite <- Z.pow_add_r by lia. apply Z.pow_le_mono_r; lia. }
    assert (W : q - h = 0 \/ 2 ^ 52 <= n * 2 ^ h).
    { destruct C as [C|C]; [now left|right]. apply Z.le_trans with (2 ^ l * 2 ^ h); [|nia].
      rewrite <- Z.pow_add_r by lia. apply Z.pow_le_mono_r; lia. }
    rewrite (uwrap_small 64), packToF64UI_eq by lia. apply exact64_result; [lia|].
    rewrite mag64_pack by lia. rewrite mult_IZR, <- pow2_IZR, Rmult_assoc, <- pow2_add by lia. do 2 f_equal. lia. }
  destruct (Z.ltb_spec (q - (52 - l)) 0).
  - rewrite (swrap_small 8 q) by fmt_lia. replace 0 with (q - q) at 1 by lia. apply F; lia.
  - apply F; lia.
Qed.

(** What a difference of magnitudes delivers. *)
Definition sub_result64 (s : env) (sign : bool) (x : R) (r : Z * env) : Prop :=
  (x = 0%R -> r = (with_sign F64 (softfloat_roundingMode s =? softfloat_round_min) 0, s)) /\
  ((0 < x)%R -> rounded_result F64 s sign x r) /\
  ((x < 0)%R -> rounded_result F64 s (negb sign) (- x) r).

Lemma softfloat_subMagsF64_finite (a b : Z) (s : env) :
  is_finite F64 a -> is_finite F64 b ->
  sub_result64 s (sign_of F64 a) (mag F64 (pattern_of F64 a) - mag F64 (pattern_of F64 b))
    (softfloat_subMagsF64 a b (sign_of F64 a) s).
Proof.
  intros [Ha Fa] [Hb Fb].
  destruct (F64_fields a Ha) as (Sa & Ea & Ma & Pa & Wa). destruct (F64_fields b Hb) as (Sb & Eb & Mb & Pb & Wb).
  unfold softfloat_subMagsF64.
  set (eA := expF64UI a) in *. set (mA := fracF64UI a) in *. set (eB := expF64UI b) in *. set (mB := fracF64UI b) in *.
  set (sgn := sign_of F64 a) in *. rewrite Pa, Pb in *.
  change (inf_pattern F64) with (0x7FF * 2 ^ 52) in Fa, Fb.
  assert (LA : eA < 0x7FF) by lia. assert (LB : eB < 0x7FF) by lia.
  clearbody eA mA eB mB sgn. rewrite !mag64_fields by lia.
  destruct (Z.eqb_spec (eA - eB) 0) as [D|D].
  - assert (eB = eA) as -> by lia. destruct (Z.eqb_spec eA 0x7FF); [lia|].
    assert (W : i64 (u64 (mA - mB)) = mA - mB) by (unfold swrap, uwrap; eval_pow; zdm).
    rewrite W. clear W.
    assert (X : (IZR (if eA =? 0 then mA else 2 ^ 52 + mA) * pow2 (Z.max eA 1 - 1 + emin F64) -
                 IZR (if eA =? 0 then mB else 2 ^ 52 + mB) * pow2 (Z.max eA 1 - 1 + emin F64))%R
                = (IZR (mA - mB) * pow2 (Z.max eA 1 - 1 + emin F64))%R).
    { rewrite <- Rmult_minus_distr_r, <- minus_IZR. do 2 f_equal. destruct (eA =? 0); lia. }
    rewrite X. clear X. pose proof (pow2_pos (Z.max eA 1 - 1 + emin F64)) as PP.
    destruct (Z.eqb_spec (mA - mB) 0) as [Z0|Z0].
    + rewrite Z0, Rmult_0_l. split; [|split; intros; lra]. intros _.
      change (bind get ?k s) with (k s s). cbv beta. unfold ret. f_equal. rewrite packToF64UI_eq by lia. reflexivity.
    + destruct (Z.ltb_spec (mA - mB) 0) as [L|L].
      * assert (IZR (mA - mB) < 0)%R by (apply IZR_lt; lia).
        split; [intros; nra|split; [intros; nra|intros _]].
        rewrite Ropp_mult_distr_l, <- opp_IZR. eapply same_binade64; [lia|lia|reflexivity].
      * assert (0 < IZR (mA - mB))%R by (apply IZR_lt; lia).
        split; [intros; nra|split; [intros _|intros; nra]]. eapply same_binade64; [lia|lia|reflexivity].
  - destruct (Z.eqb_spec eB 0x7FF), (Z.eqb_spec eA 0x7FF); try lia.
    rewrite !(shl_mul _ 10), (uwrap_small 64 (mA * _)), (uwrap_small 64 (mB * _)) by lia.
    assert (O : forall m, 0 <= m < 2 ^ 52 -> (m * 2 ^ 10) .| 0x4000000000000000 = (2 ^ 52 + m) * 2 ^ 10).
    { intros m Hm. rewrite Z.lor_comm. change 0x4000000000000000 with (1 * 2 ^ 62). rewrite lor_disjoint; lia. }
    rewrite !O by lia.
    assert (X : forall e m (q := if z2b e then 0x4000000000000000 else m * 2 ^ 10), 0 <= e -> 0 <= m < 2 ^ 52 ->
      0 <= m * 2 ^ 10 + q < 2 ^ 63 /\ (m * 2 ^ 10 + q) mod 2 ^ 10 = 0 /\
      (IZR (if e =? 0 then m else 2 ^ 52 + m) * pow2 (Z.max e 1 - 1 + emin F64) =
       IZR (m * 2 ^ 10 + q) * pow2 (e - 11 + emin F64))%R).
    { intros e m q He Hm. unfold q, z2b. destruct (Z.eqb_spec e 0) as [->|N]; cbn [negb]; (split; [lia|split; [zdm|]]).
      - replace (m * 2 ^ 10 + m * 2 ^ 10) with (m * 2 ^ 11) by lia.
        rewrite mult_IZR, <- (pow2_IZR 11), Rmult_assoc, <- pow2_add by lia. do 2 f_equal.
      - replace (m * 2 ^ 10 + 0x4000000000000000) with ((2 ^ 52 + m) * 2 ^ 10) by lia.
        rewrite mult_IZR, <- (pow2_IZR 10), Rmult_assoc, <- pow2_add by lia. do 2 f_equal. lia. }
    destruct (X eA mA ltac:(lia) Ma) as (BA & DA & EA). destruct (X eB mB ltac:(lia) Mb) as (BB & DB & EB).
    rewrite EA, EB. clear X O EA EB.
    destruct (Z.ltb_spec (eA - eB) 0) as [L|L].
    + rewrite (uwrap_small 64 (- (eA - eB))), (uwrap_small 64 (_ + (if z2b eA then _ else _))) by lia.
      rewrite softfloat_shiftRightJam64_jam by lia.
      destruct (cancel64_round (negb sgn) eB (- (eA - eB)) ((2 ^ 52 + mB) * 2 ^ 10)
        (mA * 2 ^ 10 + (if z2b eA then 0x4000000000000000 else mA * 2 ^ 10)) s
        (- (IZR (mA * 2 ^ 10 + (if z2b eA then 0x4000000000000000 else mA * 2 ^ 10)) * pow2 (eA - 11 + emin F64) -
            IZR (mB * 2 ^ 10 + (if z2b eB then 0x4000000000000000 else mB * 2 ^ 10)) * pow2 (eB - 11 + emin F64)))%R) as [P Q];
        try lia; [zdm| |].
      { rewrite Ropp_minus_distr. unfold z2b at 1. destruct (Z.eqb_spec eB 0); [lia|]. cbn [negb].
        f_equal; [do 2 f_equal; lia|do 2 f_equal; lia]. }
      split; [intros; lra|split; [intros; lra|intros _; exact Q]].
    + rewrite (uwrap_small 64 (eA - eB)), (uwrap_small 64 (_ + (if z2b eB then _ else _))) by lia.
      rewrite softfloat_shiftRightJam64_jam by lia.
      destruct (cancel64_round sgn eA (eA - eB) ((2 ^ 52 + mA) * 2 ^ 10)
        (mB * 2 ^ 10 + (if z2b eB then 0x4000000000000000 else mB * 2 ^ 10)) s
        (IZR (mA * 2 ^ 10 + (if z2b eA then 0x4000000000000000 else mA * 2 ^ 10)) * pow2 (eA - 11 + emin F64) -
            IZR (mB * 2 ^ 10 + (if z2b eB then 0x4000000000000000 else mB * 2 ^ 10)) * pow2 (eB - 11 + emin F64))%R) as [P Q];
        try lia; [zdm| |].
      { unfold z2b at 1. destruct (Z.eqb_spec eA 0); [lia|]. cbn [negb].
        f_equal; [do 2 f_equal; lia|do 2 f_equal; lia]. }
      split; [intros; lra|split; [intros _; exact Q|intros; lra]].
Qed.

(** ** The 64-bit arithmetic operations and comparisons meet their contracts *)

(** ** NaN operands *)
Lemma isNaNF64UI_spec (a : Z) : is_enc F64 a -> isNaNF64UI a = nanb F64 a.
Proof.
  intros Ha. destruct (F64_fields a Ha) as (_ & He & Hm & P & _).
  destruct (classes F64 a _ _ He Hm P) as (-> & _). unfold isNaNF64UI. fold (fracF64UI a). f_equal.
  rewrite land_lnot by lia. rewrite (land_field a 0x7FF0000000000000 52 11) by (reflexivity || lia).
  rewrite (expF64UI_eq a Ha).
  change (2 ^ eb F64 - 1) with 0x7FF. apply eq_true_iff_eq. rewrite !Z.eqb_eq. lia.
Qed.

Lemma softfloat_isSigNaNF64UI_spec (a : Z) : is_enc F64 a -> softfloat_isSigNaNF64UI a = signalingb F64 a.
Proof.
  intros Ha. destruct (F64_fields a Ha) as (_ & He & Hm & P & _). unfold signalingb.
  destruct (classes F64 a _ _ He Hm P) as (-> & _). unfold softfloat_isSigNaNF64UI, z2b.
  rewrite (land_field a 0x7FF8000000000000 51 12), (land_low _ 0x0007FFFFFFFFFFFF 51) by (reflexivity || lia).
  change (mb F64 - 1) with 51. rewrite Z.testbit_eqb by lia.
  change (2 ^ eb F64 - 1) with 0x7FF. rewrite (expF64UI_eq a Ha) in *. unfold fracF64UI in *.
  rewrite (land_low _ 0x000FFFFFFFFFFFFF 52) in * by (reflexivity || lia).
  apply eq_true_iff_eq. rewrite !andb_true_iff, !negb_true_iff, !Z.eqb_eq, !Z.eqb_neq. unfold is_enc in Ha. change (sign_weight F64) with (2 ^ 63) in Ha. zdm.
Qed.

Lemma quiet64_bound (a : Z) : is_enc F64 a -> 0 <= quiet F64 a < 2 ^ 64.
Proof.
  unfold is_enc, quiet. change (2 * sign_weight F64) with (2 ^ 64). intros Ha.
  assert (0 <= a .| 2 ^ (mb F64 - 1)) by (apply Z.lor_nonneg; split; [lia|discriminate]). split; [assumption|].
  destruct (Z.eq_dec (a .| 2 ^ (mb F64 - 1)) 0) as [->|N]; [lia|]. apply Z.log2_lt_pow2; [lia|].
  rewrite Z.log2_lor by (lia || discriminate). apply Z.max_lub_lt; [|reflexivity].
  destruct (Z.eq_dec a 0) as [->|N']; [reflexivity|]. apply Z.log2_lt_pow2; lia.
Qed.

Lemma propagate64 (a b : Z) (s : env) : is_enc F64 a -> is_enc F64 b ->
  softfloat_propagateNaNF64UI a b s = nan_result F64 a b s.
Proof.
  intros Ha Hb. pose proof (quiet64_bound a Ha). pose proof (quiet64_bound b Hb).
  unfold softfloat_propagateNaNF64UI, nan_result. rewrite isNaNF64UI_spec, !softfloat_isSigNaNF64UI_spec by assumption.
  change (a .| 0x0008000000000000) with (quiet F64 a).
  change ((if nanb F64 a then a else b) .| 0x0008000000000000) with (quiet F64 (if nanb F64 a then a else b)).
  assert (S : signalingb F64 a = true -> nanb F64 a = true) by (unfold signalingb; now intros [? _]%andb_true_iff).
  unfold bind, ret, softfloat_raiseFlags.
  destruct (signalingb F64 a); [rewrite (S eq_refl)|]; cbn [orb];
    [|destruct (signalingb F64 b)]; rewrite ?raised_env_0; destruct (nanb F64 a); reflexivity.
Qed.

(** ** Addition and subtraction *)
Lemma infinity64_eq (sign : bool) : packToF64UI sign 0x7FF 0 = infinity F64 sign.
Proof. apply packToF64UI_eq; lia. Qed.

Lemma inf_enc64 (a : Z) : is_enc F64 a -> infb F64 a = true -> a = infinity F64 (sign_of F64 a).
Proof.
  intros Ha I. unfold is_enc in Ha.
  destruct (F64_fields a Ha) as (_ & _ & _ & _ & W). apply Z.eqb_eq in I.
  unfold infinity. rewrite <- I. exact W.
Qed.

(** The cases where an operand is not finite. *)
Lemma special64 (a b : Z) : is_enc F64 a -> is_enc F64 b ->
  is_finite F64 a /\ is_finite F64 b /\ nanb F64 a || nanb F64 b = false /\ infb F64 a = false /\ infb F64 b = false \/
  expF64UI a = 0x7FF \/ expF64UI b = 0x7FF.
Proof.
  intros Ha Hb.
  destruct (F64_fields a Ha) as (_ & Ea & Ma & Pa & _). destruct (F64_fields b Hb) as (_ & Eb & Mb & Pb & _).
  destruct (Z.eq_dec (expF64UI a) 0x7FF); [tauto|]. destruct (Z.eq_dec (expF64UI b) 0x7FF); [tauto|].
  unfold is_finite, nanb, infb. rewrite Pa, Pb. change (inf_pattern F64) with (0x7FF * 2 ^ 52). left.
  split; [split; [assumption|lia]|]. split; [split; [assumption|lia]|]. rewrite !(proj2 (Z.ltb_ge _ _)) by lia.
  split; [reflexivity|]. split; apply Z.eqb_neq; lia.
Qed.

Lemma softfloat_addMagsF64_spec (a b : Z) (s : env) : is_enc F64 a -> is_enc F64 b ->
  sum_spec F64 s a b (sign_of F64 a) (softfloat_addMagsF64 a b (sign_of F64 a) s).
Proof.
  intros Ha Hb. unfold sum_spec.
  destruct (special64 a b Ha Hb) as [(Fa & Fb & -> & -> & ->)|C].
  - pose proof (softfloat_addMagsF64_finite a b s Fa Fb) as H.
    pose proof (mag_nonneg F64 (pattern_of F64 a) (proj1 (Z.mod_pos_bound a (sign_weight F64) eq_refl))).
    pose proof (mag_nonneg F64 (pattern_of F64 b) (proj1 (Z.mod_pos_bound b (sign_weight F64) eq_refl))).
    unfold value, correctly_rounded, signR. rewrite Bool.eqb_reflx. set (x := (mag _ _ + mag _ _)%R) in H.
    split; [|split]; destruct (sign_of F64 a); intros X; try lra.
    all: try (apply (rounded_result_zero F64); replace 0%R with x by (unfold x; lra); exact H).
    + exact H.
    + replace (- (- _ + - _))%R with x by (unfold x; ring). exact H.
  - destruct (F64_fields a Ha) as (Sa & Ea & Ma & Pa & Wa). destruct (F64_fields b Hb) as (Sb & Eb & Mb & Pb & Wb).
    destruct (classes F64 a _ _ Ea Ma Pa) as (Na & Ia & _). destruct (classes F64 b _ _ Eb Mb Pb) as (Nb & Ib & _).
    pose proof (inf_enc64 a Ha) as IA. rewrite Ia in IA.
    rewrite Na, Nb, Ia, Ib, xorb_nilpotent, andb_false_r. clear Na Nb Ia Ib.
    unfold softfloat_addMagsF64. cbv zeta. rewrite infinity64_eq, z2b_lor, !z2b_shl by fmt_lia.
    change (2 ^ eb F64 - 1) with 0x7FF in *.
    destruct (Z.eqb_spec (expF64UI a) 0x7FF) as [EA|EA], (Z.eqb_spec (expF64UI b) 0x7FF) as [EB|EB]; [| | |lia];
      destruct (z2b (fracF64UI a)) eqn:MA, (z2b (fracF64UI b)) eqn:MB; cbn [andb orb negb] in *.
    all: try destruct (Z.eqb_spec (expF64UI a - expF64UI b) 0); try lia.
    all: try destruct (Z.ltb_spec (expF64UI a - expF64UI b) 0); try lia.
    all: try destruct (Z.eqb_spec (expF64UI a) 0); try lia; try reflexivity.
    all: try exact (propagate64 a b s Ha Hb).
    all: unfold ret; now rewrite IA at 1.
Qed.

Lemma softfloat_subMagsF64_spec (a b : Z) (s : env) : is_enc F64 a -> is_enc F64 b ->
  sum_spec F64 s a b (negb (sign_of F64 a)) (softfloat_subMagsF64 a b (sign_of F64 a) s).
Proof.
  intros Ha Hb. unfold sum_spec.
  destruct (special64 a b Ha Hb) as [(Fa & Fb & -> & -> & ->)|C].
  - destruct (softfloat_subMagsF64_finite a b s Fa Fb) as (Z0 & P & N).
    unfold value, correctly_rounded, signR. rewrite Bool.eqb_negb2. set (x := (mag _ _ - mag _ _)%R) in *.
    destruct (sign_of F64 a); cbn [negb] in *.
    + replace (- mag F64 (pattern_of F64 a) + mag F64 (pattern_of F64 b))%R with (- x)%R by (unfold x; ring).
      split; [|split]; intros X; [apply Z0; lra|apply N; lra|]. rewrite Ropp_involutive. apply P. lra.
    + replace (mag F64 (pattern_of F64 a) + - mag F64 (pattern_of F64 b))%R with x by (unfold x; ring).
      split; [|split]; intros X; [apply Z0; lra|apply P; lra|apply N; lra].
  - destruct (F64_fields a Ha) as (Sa & Ea & Ma & Pa & Wa). destruct (F64_fields b Hb) as (Sb & Eb & Mb & Pb & Wb).
    destruct (classes F64 a _ _ Ea Ma Pa) as (Na & Ia & _). destruct (classes F64 b _ _ Eb Mb Pb) as (Nb & Ib & _).
    pose proof (inf_enc64 a Ha) as IA. rewrite Ia in IA.
    rewrite Na, Nb, Ia, Ib, <- negb_xorb_r, xorb_nilpotent, andb_true_r. clear Na Nb Ia Ib.
    unfold softfloat_subMagsF64. cbv zeta. rewrite infinity64_eq, z2b_lor, !z2b_shl by fmt_lia.
    change (2 ^ eb F64 - 1) with 0x7FF in *.
    destruct (Z.eqb_spec (expF64UI a) 0x7FF) as [EA|EA], (Z.eqb_spec (expF64UI b) 0x7FF) as [EB|EB]; [| | |lia];
      destruct (z2b (fracF64UI a)) eqn:MA, (z2b (fracF64UI b)) eqn:MB; cbn [andb orb negb] in *.
    all: try destruct (Z.eqb_spec (expF64UI a - expF64UI b) 0); try lia.
    all: try destruct (Z.ltb_spec (expF64UI a - expF64UI b) 0); try lia; try reflexivity.
    all: try exact (propagate64 a b s Ha Hb).
    all: unfold ret; now rewrite IA at 1.
Qed.

(** f64_add is correct: for any two 64-bit encodings the result and the flags
    raised are those of IEEE addition in the current rounding mode - the first NaN
    operand made quiet, the invalid operation inf - inf, the sign of a zero sum, and
    otherwise the exact sum correctly rounded (overflow, underflow and inexact included). *)
Lemma f64_add_spec (a b : Z) (s : env) : is_enc F64 a -> is_enc F64 b ->
  sum_spec F64 s a b (sign_of F64 b) (f64_add a b s).
Proof.
  intros Ha Hb. unfold f64_add. rewrite (proj1 (F64_fields a Ha)), (proj1 (F64_fields b Hb)).
  pose proof (softfloat_addMagsF64_spec a b s Ha Hb) as A. pose proof (softfloat_subMagsF64_spec a b s Ha Hb) as B.
  destruct (sign_of F64 a), (sign_of F64 b); assumption.
Qed.

Lemma f64_sub_spec (a b : Z) (s : env) : is_enc F64 a -> is_enc F64 b ->
  sum_spec F64 s a b (negb (sign_of F64 b)) (f64_sub a b s).
Proof.
  intros Ha Hb. unfold f64_sub. rewrite (proj1 (F64_fields a Ha)), (proj1 (F64_fields b Hb)).
  pose proof (softfloat_addMagsF64_spec a b s Ha Hb) as A. pose proof (softfloat_subMagsF64_spec a b s Ha Hb) as B.
  destruct (sign_of F64 a), (sign_of F64 b); assumption.
Qed.

(** ** The 64-bit comparisons order the encodings by their value *)

(** The encoding from its key fields. *)
Lemma split64 (a : Z) : is_enc F64 a ->
  a = b2z (sign_of F64 a) * 2 ^ 63 + pattern_of F64 a /\ 0 <= pattern_of F64 a < 2 ^ 63.
Proof.
  intros Ha. destruct (F64_fields a Ha) as (_ & _ & _ & _ & W). split; [exact W|]. apply Z.mod_pos_bound. reflexivity.
Qed.

Lemma both_zero64 (a b : Z) :
  ((a .| b) .& 0x7FFFFFFFFFFFFFFF =? 0) = (pattern_of F64 a =? 0) && (pattern_of F64 b =? 0).
Proof.
  apply eq_true_iff_eq. rewrite andb_true_iff, !Z.eqb_eq. unfold pattern_of. change (sign_weight F64) with (2 ^ 63).
  rewrite <- magnitudes_zero by lia. rewrite (land_low _ 0x7FFFFFFFFFFFFFFF 63) by (reflexivity || lia). reflexivity.
Qed.

Lemma eq64 (a b : Z) : is_enc F64 a -> is_enc F64 b ->
  (a =? b) || negb (z2b ((a .| b) .& 0x7FFFFFFFFFFFFFFF)) = true <-> value F64 a = value F64 b.
Proof.
  intros Ha Hb. destruct (value_key F64 a b) as (_ & _ & ->). unfold key, z2b. rewrite negb_involutive, both_zero64.
  destruct (split64 a Ha) as [A A']. destruct (split64 b Hb) as [B B'].
  set (p := pattern_of F64 a) in *. set (q := pattern_of F64 b) in *.
  destruct (sign_of F64 a), (sign_of F64 b); cbn [Z.b2z] in *; lia.
Qed.

Lemma le64 (a b : Z) : is_enc F64 a -> is_enc F64 b ->
  (if xorb (signF64UI a) (signF64UI b) then signF64UI a || negb (z2b ((a .| b) .& 0x7FFFFFFFFFFFFFFF))
   else (a =? b) || xorb (signF64UI a) (a <? b)) = true <-> (value F64 a <= value F64 b)%R.
Proof.
  intros Ha Hb. destruct (value_key F64 a b) as (_ & -> & _). unfold key, z2b. rewrite negb_involutive, both_zero64.
  rewrite (proj1 (F64_fields a Ha)), (proj1 (F64_fields b Hb)).
  destruct (split64 a Ha) as [A A']. destruct (split64 b Hb) as [B B'].
  set (p := pattern_of F64 a) in *. set (q := pattern_of F64 b) in *.
  signs F64 a b p q.
Qed.

Lemma lt64 (a b : Z) : is_enc F64 a -> is_enc F64 b ->
  (if xorb (signF64UI a) (signF64UI b) then signF64UI a && z2b ((a .| b) .& 0x7FFFFFFFFFFFFFFF)
   else negb (a =? b) && xorb (signF64UI a) (a <? b)) = true <-> (value F64 a < value F64 b)%R.
Proof.
  intros Ha Hb. destruct (value_key F64 a b) as (-> & _). unfold key, z2b. rewrite both_zero64.
  rewrite (proj1 (F64_fields a Ha)), (proj1 (F64_fields b Hb)).
  destruct (split64 a Ha) as [A A']. destruct (split64 b Hb) as [B B'].
  set (p := pattern_of F64 a) in *. set (q := pattern_of F64 b) in *.
  signs F64 a b p q.
Qed.

(** The quiet and the signaling way out for unordered operands. *)
Ltac compare64 Ha Hb op ordered :=
  unfold compare_spec, op; rewrite ?isNaNF64UI_spec, ?softfloat_isSigNaNF64UI_spec by assumption;
  destruct (nanb F64 _ || nanb F64 _); cbn [orb];
  [unfold bind; rewrite ?when_raise; reflexivity|split; [reflexivity|exact (ordered _ _ Ha Hb)]].

(** Equality. *)
Lemma f64_eq_spec (a b : Z) (s : env) : is_enc F64 a -> is_enc F64 b ->
  compare_spec F64 false eq s a b (f64_eq a b s) /\ compare_spec F64 true eq s a b (f64_eq_signaling a b s).
Proof. intros Ha Hb. split; [compare64 Ha Hb f64_eq eq64|compare64 Ha Hb f64_eq_signaling eq64]. Qed.

(** Order. *)
Lemma f64_order_spec (a b : Z) (s : env) : is_enc F64 a -> is_enc F64 b ->
  compare_spec F64 true Rle s a b (f64_le a b s) /\ compare_spec F64 true Rlt s a b (f64_lt a b s) /\
  compare_spec F64 false Rle s a b (f64_le_quiet a b s) /\ compare_spec F64 false Rlt s a b (f64_lt_quiet a b s).
Proof.
  intros Ha Hb. split; [compare64 Ha Hb f64_le le64|split; [compare64 Ha Hb f64_lt lt64|split]].
  - compare64 Ha Hb f64_le_quiet le64.
  - compare64 Ha Hb f64_lt_quiet lt64.
Qed.
