(* ===== verification/F64Mul.v ===== *)
(** 64-bit multiplication and division are correctly rounded.  The quotient is
    estimated twice with an approximate reciprocal, and corrected when it could be close
    to a rounding boundary. *)
From Stdlib Require Import ZArith Bool Lia Reals Lra.
From S2P Require Import Prelude Ieee Rounding RoundPack Softfloat Primitives Machine Contract F64 F64Round F64Arith.
Local Open Scope Z_scope.
Local Open Scope c_scope.

(** ** 64-bit multiplication and division are correctly rounded *)

Lemma softfloat_normSubnormalF64Sig_spec (sig : Z) (n := softfloat_normSubnormalF64Sig sig) : 0 < sig < 2 ^ 52 ->
  -51 <= e16s64_exp n <= 0 /\ 2 ^ 52 <= e16s64_sig n < 2 ^ 53 /\
  (IZR sig * pow2 (emin F64))%R = (IZR (e16s64_sig n) * pow2 (e16s64_exp n - 1 + emin F64))%R.
Proof.
  intros Hs. subst n. unfold softfloat_normSubnormalF64Sig. cbn [e16s64_exp e16s64_sig].
  rewrite softfloat_countLeadingZeros64_spec by lia.
  pose proof (Z.log2_spec sig ltac:(lia)) as L. pose proof (Z.log2_nonneg sig) as L0.
  pose proof (proj1 (log2_bounds sig 52 ltac:(lia) ltac:(lia)) ltac:(lia)) as L1.
  replace (nlz 64 sig - 11) with (52 - Z.log2 sig) by (unfold nlz; lia).
  set (l := Z.log2 sig) in *. clearbody l. rewrite (swrap_small 8 (52 - l)), shl_mul by fmt_lia.
  rewrite Z.pow_succ_r in L by lia. assert (P : 0 < 2 ^ (52 - l) <= 2 ^ 52) by (split; [apply Z.pow_pos_nonneg|apply Z.pow_le_mono_r]; lia).
  assert (2 ^ 52 = 2 ^ l * 2 ^ (52 - l)) by (rewrite <- Z.pow_add_r by lia; f_equal; lia).
  assert (B : 2 ^ 52 <= sig * 2 ^ (52 - l) < 2 ^ 53) by nia.
  rewrite uwrap_small by lia. split; [lia|]. split; [exact B|].
  rewrite mult_IZR, <- pow2_IZR, Rmult_assoc, <- pow2_add by lia. do 2 f_equal. lia.
Qed.

(** The significand with its leading bit. *)
Lemma lead64 (m : Z) : 0 <= m < 2 ^ 52 -> m .| 0x0010000000000000 = 2 ^ 52 + m.
Proof. intros Hm. rewrite Z.lor_comm. change 0x0010000000000000 with (1 * 2 ^ 52). rewrite lor_disjoint; lia. Qed.

Lemma lead64_idem (m : Z) : 2 ^ 52 <= m < 2 ^ 53 -> m .| 0x0010000000000000 = m.
Proof.
  intros Hm. replace m with (1 * 2 ^ 52 + (m - 2 ^ 52)) by lia. rewrite <- lor_disjoint by lia.
  rewrite <- Z.lor_assoc, (Z.lor_comm _ 0x0010000000000000), Z.lor_assoc. reflexivity.
Qed.

(** An operand other than zero, with the exponent and significand that the code
    computes with. *)
Definition operand64 (e m e' m' : Z) : Prop :=
  -51 <= e' <= 0x7FE /\ 2 ^ 52 <= m' .| 0x0010000000000000 < 2 ^ 53 /\
  mag F64 (e * 2 ^ 52 + m) = (IZR (m' .| 0x0010000000000000) * pow2 (e' - 1 + emin F64))%R.

Lemma operand64_cases (e m : Z) (n := softfloat_normSubnormalF64Sig m) :
  0 <= e < 0x7FF -> 0 <= m < 2 ^ 52 -> z2b e || z2b m = true ->
  z2b e = true /\ operand64 e m e m \/
  z2b e = false /\ z2b m = true /\ operand64 e m (e16s64_exp n) (e16s64_sig n).
Proof.
  intros He Hm N. unfold operand64. rewrite mag64_fields by lia. unfold z2b in *.
  destruct (Z.eqb_spec e 0) as [->|E]; cbn [negb orb] in *.
  - right. destruct (softfloat_normSubnormalF64Sig_spec m ltac:(lia)) as (B1 & B2 & X). fold n in B1, B2, X.
    rewrite lead64_idem by lia. repeat split; try lia. exact X.
  - left. rewrite lead64 by lia. repeat split; try lia. do 2 f_equal. lia.
Qed.

Lemma multiply64 (sign : bool) (eA eB wA wB : Z) (s : env) (x : R) :
  -51 <= eA <= 0x7FE -> -51 <= eB <= 0x7FE -> 2 ^ 52 <= wA < 2 ^ 53 -> 2 ^ 52 <= wB < 2 ^ 53 ->
  x = (IZR wA * pow2 (eA - 1 + emin F64) * (IZR wB * pow2 (eB - 1 + emin F64)))%R ->
  rounded_result F64 s sign x
    ((let expZ := eA + eB - 0x3FF in
      let sigA := u64 (wA << 10) in
      let sigB := u64 (wB << 11) in
      let sig128Z := softfloat_mul64To128 sigA sigB in
      let sigZ := v64 sig128Z .| b2z (negb (v0 sig128Z =? 0)) in
      let '(expZ, sigZ) :=
        if sigZ <? 0x4000000000000000 then (expZ - 1, u64 (sigZ << 1)) else (expZ, sigZ) in
      softfloat_roundPackToF64 sign expZ sigZ) s).
Proof.
  intros HeA HeB HA HB X. cbv zeta. rewrite (shl_mul wA), (shl_mul wB) by lia.
  rewrite (uwrap_small 64 (wA * _)), (uwrap_small 64 (wB * _)) by lia.
  assert (P : 2 ^ 125 <= wA * 2 ^ 10 * (wB * 2 ^ 11) < 2 ^ 127) by nia.
  destruct (softfloat_mul64To128_hi (wA * 2 ^ 10) (wB * 2 ^ 11) ltac:(lia) ltac:(lia)) as [-> ->].
  assert (X' : x = (IZR (wA * 2 ^ 10 * (wB * 2 ^ 11)) * pow2 (-64) * pow2 (eA + eB - 0x3FF - 10 + emin F64))%R).
  { rewrite X, !mult_IZR, <- (pow2_IZR 10), <- (pow2_IZR 11) by lia.
    replace (eA + eB - 0x3FF - 10 + emin F64) with (- 10 + (- 11 + (64 + ((eA - 1 + emin F64) + (eB - 1 + emin F64)))))
      by (change (emin F64) with (-1074); lia).
    rewrite !pow2_add. change (pow2 (-10)) with (pow2 (Z.opp 10)). change (pow2 (-11)) with (pow2 (Z.opp 11)).
    rewrite (pow2_opp 10), (pow2_opp 11). change (pow2 (-64)) with (pow2 (Z.opp 64)). rewrite (pow2_opp 64). field. auto. }
  set (p := wA * 2 ^ 10 * (wB * 2 ^ 11)) in *. clearbody p. clear X HA HB.
  rewrite <- (shr_div p 64) by lia. fold (jam p 64).
  assert (S : same (2 ^ 1) (jam p 64) (IZR p * pow2 (-64))).
  { apply same_pow with (Z.max 1 (0 - 64)); [lia|]. apply same_jam; try lia. apply (same_exact 1). }
  assert (J : 2 ^ 61 <= jam p 64 < 2 ^ 63) by (rewrite jam_eq by lia; destruct (_ =? 0); zdm).
  set (y := (IZR p * pow2 (-64))%R) in *. clearbody y. set (z := jam p 64) in *. clearbody z.
  rewrite shl_mul by lia. destruct (Z.ltb_spec z 0x4000000000000000).
  - rewrite uwrap_small by lia.
    apply softfloat_roundPackToF64_rounds with (k := 2) (y := (y * pow2 1)%R); try lia.
    + apply (same_shl 1 1); try lia. exact S.
    + rewrite X', Rmult_assoc, <- pow2_add. do 2 f_equal. lia.
  - apply softfloat_roundPackToF64_rounds with (k := 1) (y := y); try lia; assumption.
Qed.

Lemma zero64_result (s : env) (sign : bool) (x : R) : x = 0%R -> rounded_result F64 s sign x (packToF64UI sign 0 0, s).
Proof. intros ->. rewrite packToF64UI_eq by lia. apply exact64_result; [lia|]. apply (mag_zero F64). Qed.

(** The fields of an operand decide its class. *)
Lemma zero_mag64 (a : Z) : zerob F64 a = true -> mag F64 (pattern_of F64 a) = 0%R.
Proof. intros Z0%Z.eqb_eq. rewrite Z0. apply (mag_zero F64). Qed.

Lemma f64_mul_spec (a b : Z) (s : env) : is_enc F64 a -> is_enc F64 b ->
  mul_spec F64 s a b (f64_mul a b s).
Proof.
  intros Ha Hb. unfold mul_spec.
  destruct (F64_fields a Ha) as (Sa & Ea & Ma & Pa & Wa). destruct (F64_fields b Hb) as (Sb & Eb & Mb & Pb & Wb).
  destruct (classes F64 a _ _ Ea Ma Pa) as (Na & Ia & Za & _). destruct (classes F64 b _ _ Eb Mb Pb) as (Nb & Ib & Zb & _).
  pose proof (zero_mag64 a) as ZA. pose proof (zero_mag64 b) as ZB.
  pose proof (propagate64 a b s Ha Hb) as P.
  unfold f64_mul. rewrite !Sa, !Sb, !infinity64_eq, !z2b_lor by lia. cbv zeta.
  set (sz := xorb _ _). clearbody sz. rewrite Pa, Pb in *. rewrite Na, Nb, Ia, Ib, Za, Zb in *. clear Na Nb Ia Ib Za Zb.
  change (2 ^ eb F64 - 1) with 0x7FF in *.
  set (eA := expF64UI a) in *. set (mA := fracF64UI a) in *. set (eB := expF64UI b) in *. set (mB := fracF64UI b) in *.
  change (2 ^ mb F64) with (2 ^ 52) in *. change (2 ^ eb F64) with (2 ^ 11) in *.
  clearbody eA mA eB mB.
  assert (FA : 0x7FF = eA -> z2b eA = true) by (now intros <-).
  assert (FB : 0x7FF = eB -> z2b eB = true) by (now intros <-).
  destruct (Z.eqb_spec eA 0x7FF) as [EA|EA]; [rewrite FA by lia|]; (destruct (Z.eqb_spec eB 0x7FF) as [EB|EB]; [rewrite FB by lia|]).
  1-3: destruct (z2b mA), (z2b mB), (z2b eA), (z2b eB); cbn [andb orb negb]; try exact P; reflexivity.
  cbn [andb orb negb].
  destruct (z2b eA || z2b mA) eqn:OA; cycle 1.
  { apply orb_false_iff in OA as [QA RA]. rewrite QA, RA in *. apply zero64_result. rewrite ZA by reflexivity. ring. }
  destruct (z2b eB || z2b mB) eqn:OB; cycle 1.
  { apply orb_false_iff in OB as [QB RB]. rewrite QB, RB in *. cbn [negb].
    destruct (z2b eA); [|destruct (z2b mA); [|discriminate]]; apply zero64_result; rewrite ZB by reflexivity; ring. }
  destruct (operand64_cases eA mA ltac:(lia) Ma OA) as [(QA & A1 & A2 & A3)|(QA & RA & A1 & A2 & A3)];
    destruct (operand64_cases eB mB ltac:(lia) Mb OB) as [(QB & B1 & B2 & B3)|(QB & RB & B1 & B2 & B3)];
    rewrite QA, QB, ?RA, ?RB; cbn [negb]; apply multiply64; try assumption; rewrite A3, B3; reflexivity.
Qed.

(** ** 64-bit division is correctly rounded *)

(** ** The estimate *)
Section Estimate.
Context (b : Z) (Hb : 2 ^ 63 <= b < 2 ^ 64).
Let bh := b / 2 ^ 32.
Let r := 0x7FFFFFFFFFFFFFFF / bh - 2.

Lemma recip_bounds : 2 ^ 31 <= bh < 2 ^ 32 /\ 0 <= r < 2 ^ 32 /\ r * bh <= 2 ^ 63 - 1 - 2 * bh /\ 2 ^ 63 <= (r + 3) * bh.
Proof.
  assert (B : 2 ^ 31 <= bh < 2 ^ 32) by (unfold bh; zdm). split; [exact B|]. clearbody bh.
  pose proof (Z.div_mod 0x7FFFFFFFFFFFFFFF bh ltac:(lia)) as D. pose proof (Z.mod_pos_bound 0x7FFFFFFFFFFFFFFF bh ltac:(lia)).
  set (k := 0x7FFFFFFFFFFFFFFF / bh) in *. clearbody k.
  unfold r. split; [split; nia|split; nia].
Qed.

(** A digit of the quotient [a / b], in units of [2 ^ -31]. *)
Lemma estimate (a : Z) (q := a / 2 ^ 32 * r / 2 ^ 32) : 0 < a < b -> 0 <= q < 2 ^ 31 /\ 0 < 2 ^ 31 * a - q * b < 5 * b.
Proof.
  intros Ha. destruct recip_bounds as (B & R & R1 & R2). subst q.
  pose proof (Z.div_mod b (2 ^ 32) ltac:(lia)) as Db. pose proof (Z.mod_pos_bound b (2 ^ 32) ltac:(lia)) as Mb.
  fold bh in Db. set (bl := b mod 2 ^ 32) in *. clearbody r bh bl.
  pose proof (Z.div_mod a (2 ^ 32) ltac:(lia)) as Da. pose proof (Z.mod_pos_bound a (2 ^ 32) ltac:(lia)) as Ma.
  set (ah := a / 2 ^ 32) in *. set (al := a mod 2 ^ 32) in *. assert (A : 0 <= ah <= bh) by lia. clearbody ah al.
  pose proof (Z.div_mod (ah * r) (2 ^ 32) ltac:(lia)) as Dq. pose proof (Z.mod_pos_bound (ah * r) (2 ^ 32) ltac:(lia)) as Mq.
  set (q := ah * r / 2 ^ 32) in *. set (t := ah * r mod 2 ^ 32) in *. clearbody q t.
  assert (Q0 : 0 <= ah * r <= bh * r) by nia.
  split; [lia|].
  assert (RB : r * b < 2 ^ 95) by (rewrite Db; nia).
  split.
  - assert (S1 : q * 2 ^ 32 * 2 ^ 32 <= ah * 2 ^ 32 * r) by lia.
    assert (S2 : ah * 2 ^ 32 * r <= a * r) by (apply Z.mul_le_mono_nonneg_r; lia).
    assert (S3 : q * 2 ^ 64 * b <= a * r * b) by (apply Z.mul_le_mono_nonneg_r; lia).
    assert (S4 : a * (r * b) < a * 2 ^ 95) by (apply Z.mul_lt_mono_pos_l; lia). lia.
  - assert (K : 2 ^ 63 * (ah + 1) <= (ah * r + 4 * 2 ^ 32) * bh).
    { assert (L1 : ah * 2 ^ 63 <= ah * ((r + 3) * bh)) by (apply Z.mul_le_mono_nonneg_l; lia).
      assert (L2 : ah * bh < 2 ^ 32 * bh) by (apply Z.mul_lt_mono_pos_r; lia). lia. }
    assert (K1 : (ah * r + 4 * 2 ^ 32) * bh < (q * 2 ^ 32 + 5 * 2 ^ 32) * bh) by (apply Z.mul_lt_mono_pos_r; lia).
    assert (K3 : (q * 2 ^ 32 + 5 * 2 ^ 32) * (bh * 2 ^ 32) <= (q * 2 ^ 32 + 5 * 2 ^ 32) * b)
      by (apply Z.mul_le_mono_nonneg_l; lia).
    lia.
Qed.
End Estimate.

(** ** The machine operations *)
Lemma wrapped_remainder (a x y : Z) :
  u64 (u64 (u64 (a - u64 x) << 28) - u64 y) = u64 ((a - x) * 2 ^ 28 - y).
Proof.
  rewrite shl_mul by lia. unfold uwrap.
  rewrite <- Zminus_mod. rewrite (Zminus_mod _ y), (Zminus_mod ((a - x) * 2 ^ 28) y). do 2 f_equal.
  now rewrite Zminus_mod_idemp_r, Zmult_mod_idemp_l.
Qed.

(** The remainder of one digit [q]. *)
Lemma remainder_step (a b q : Z) : 0 <= b < 2 ^ 64 -> b mod 2 ^ 11 = 0 -> 0 <= q < 2 ^ 31 ->
  u64 (u64 (u64 (a - u64 (u32 (q << 1) * (b / 2 ^ 32))) << 28) - u64 (u32 (q << 1) * (u32 b / 2 ^ 4)))
  = u64 (2 ^ 28 * a - q * (b / 8)).
Proof.
  intros Hb Hb11 Hq. rewrite wrapped_remainder, shl_mul by lia.
  rewrite (uwrap_small 32 (q * 2 ^ 1)) by lia.
  unfold uwrap at 2. f_equal. set (c := b / 2 ^ 11). assert (C : b = c * 2 ^ 11) by (unfold c; zdm). clearbody c.
  assert (E : b / 8 = b / 2 ^ 32 * 2 ^ 29 + b mod 2 ^ 32 / 2 ^ 4 * 2) by zdm.
  rewrite E. ring.
Qed.

Lemma land_clear (w x k : Z) : 0 < w -> 0 <= k <= w -> 0 <= x < 2 ^ w ->
  x .& uwrap w (Z.lnot (Z.ones k)) = x - x mod 2 ^ k.
Proof.
  intros Hw Hk Hx. rewrite Z.land_comm, land_lnot by lia. now rewrite Z.land_comm, Z.land_ones by lia.
Qed.

Lemma top_bit (x : Z) : 0 <= x < 2 ^ 64 -> z2b (x .& 0x8000000000000000) = (2 ^ 63 <=? x).
Proof.
  intros Hx. rewrite (land_field x 0x8000000000000000 63 1) by (reflexivity || lia). unfold z2b.
  apply eq_true_iff_eq. rewrite negb_true_iff, Z.eqb_neq, Z.leb_le. zdm.
Qed.

(** ** The sticky significand *)
Lemma sticky_correction (n b z w z' : Z) : 0 < b -> n = z * b + w -> z mod 512 = 0 -> -64 * b < w < 64 * b ->
  z' = (if w <? 0 then z - 128 else if w =? 0 then z else z + 1) -> same 512 z' (IZR n / IZR b).
Proof.
  intros Hb N Z5 Hw E m. rewrite (proj1 (ratio_compare n b (m * 512) Hb)), (proj2 (ratio_compare n b (m * 512) Hb)).
  set (k := z / 512). assert (K : z = k * 512) by (unfold k; zdm). clearbody k. subst n z.
  assert (C : m <= k - 1 \/ m = k \/ k + 1 <= m) by lia. destruct C as [C|[->|C]].
  - assert (m * 512 * b <= (k - 1) * 512 * b) by (apply Z.mul_le_mono_nonneg_r; lia).
    destruct (Z.ltb_spec w 0); [|destruct (Z.eqb_spec w 0)]; lia.
  - destruct (Z.ltb_spec w 0); [|destruct (Z.eqb_spec w 0)]; lia.
  - assert ((k + 1) * 512 * b <= m * 512 * b) by (apply Z.mul_le_mono_nonneg_r; lia).
    destruct (Z.ltb_spec w 0); [|destruct (Z.eqb_spec w 0)]; lia.
Qed.

Lemma far_from_boundary (n b z w : Z) : 0 < b -> n = z * b + w -> 64 <= z mod 512 <= 496 -> -64 * b < w < 16 * b ->
  same 512 z (IZR n / IZR b).
Proof.
  intros Hb N Z5 Hw m. rewrite (proj1 (ratio_compare n b (m * 512) Hb)), (proj2 (ratio_compare n b (m * 512) Hb)).
  pose proof (Z.div_mod z 512 ltac:(lia)) as D. set (k := z / 512) in *. set (j := z mod 512) in *. clearbody k j. subst n z.
  assert (64 * b <= j * b <= 496 * b) by (split; apply Z.mul_le_mono_nonneg_r; lia).
  assert (C : m <= k \/ k + 1 <= m) by lia. destruct C as [C|C].
  - assert (m * 512 * b <= k * 512 * b) by (apply Z.mul_le_mono_nonneg_r; lia). lia.
  - assert ((k + 1) * 512 * b <= m * 512 * b) by (apply Z.mul_le_mono_nonneg_r; lia). lia.
Qed.

(** ** The quotient *)
Definition quotient64 (sigA sigB : Z) : Z :=
  let recip32 := u32 (softfloat_approxRecip32_1 (sigB >> 32) - 2) in
  let sig32Z := u32 (u64 (u32 (sigA >> 32) * recip32) >> 32) in
  let doubleTerm := u32 (sig32Z << 1) in
  let rem :=
    u64 (u64 (u64 (sigA - u64 (doubleTerm * u32 (sigB >> 32))) << 28)
         - u64 (doubleTerm * (u32 sigB >> 4))) in
  let q := u32 ((u64 (u32 (rem >> 32) * recip32) >> 32) + 4) in
  let sigZ := u64 (u64 (sig32Z << 32) + u64 (q << 4)) in
  if (sigZ .& 0x1FF) <? (4 << 4) then
    let q := q .& u32 (Z.lnot 7) in
    let sigZ := sigZ .& u64 (Z.lnot 0x7F) in
    let doubleTerm := u32 (q << 1) in
    let rem :=
      u64 (u64 (u64 (rem - u64 (doubleTerm * u32 (sigB >> 32))) << 28)
           - u64 (doubleTerm * (u32 sigB >> 4))) in
    if z2b (rem .& 0x8000000000000000) then u64 (sigZ - (1 << 7))
    else if z2b rem then sigZ .| 1 else sigZ
  else sigZ.

Lemma quotient64_same (a b : Z) : 2 ^ 63 <= b < 2 ^ 64 -> b mod 2 ^ 11 = 0 -> 0 < a < b -> b <= 2 * a ->
  same (2 ^ 9) (quotient64 a b) (IZR (2 ^ 63 * a) / IZR b) /\ 2 ^ 62 <= quotient64 a b < 2 ^ 63.
Proof.
  intros Hb Hb11 Ha Hab.
  enough (S : same (2 ^ 9) (quotient64 a b) (IZR (2 ^ 63 * a) / IZR b)).
  { split; [exact S|]. destruct (S (2 ^ 53)) as [L _]. destruct (S (2 ^ 54)) as [U _].
    rewrite (proj1 (ratio_compare (2 ^ 63 * a) b _ ltac:(lia))) in L. rewrite (proj1 (ratio_compare (2 ^ 63 * a) b _ ltac:(lia))) in U. lia. }
  unfold quotient64, softfloat_approxRecip32_1. cbv zeta.
  destruct (recip_bounds b Hb) as (B & R & _ & _). rewrite !(shr_div _ 32), !(shr_div _ 4) by lia.
  rewrite !(uwrap_small 32 (b / 2 ^ 32)) by lia.
  assert (K : 0 <= 0x7FFFFFFFFFFFFFFF / (b / 2 ^ 32) < 2 ^ 32)
    by (split; [apply Z.div_pos; lia|apply Z.div_lt_upper_bound; lia]).
  rewrite (uwrap_small 32 (0x7FFFFFFFFFFFFFFF / (b / 2 ^ 32))) by exact K.
  rewrite (uwrap_small 32 (_ - 2)) by lia.
  destruct (estimate b Hb a Ha) as [Q1 E1].
  pose proof (fun a' => estimate b Hb a') as Est.
  set (r := 0x7FFFFFFFFFFFFFFF / (b / 2 ^ 32) - 2) in *. clearbody r. clear K.
  assert (Mul : forall x, 0 <= x < 2 ^ 32 -> u64 (x * r) = x * r) by (intros; apply uwrap_small; nia).
  rewrite (uwrap_small 32 (a / 2 ^ 32)), (Mul (a / 2 ^ 32)) by zdm.
  set (q1 := a / 2 ^ 32 * r / 2 ^ 32) in *. clearbody q1. rewrite (uwrap_small 32 q1) by lia.
  rewrite (remainder_step a b q1) by (assumption || lia).
  set (b8 := b / 8). assert (B8 : b = 8 * b8) by (unfold b8; zdm).
  rewrite (uwrap_small 64 (2 ^ 28 * a - q1 * b8)) by lia.
  set (r1 := 2 ^ 28 * a - q1 * b8). assert (R1 : 0 < 8 * r1 < 5 * b) by lia.
  destruct (Est r1 ltac:(lia)) as [Q2 E2].
  rewrite (uwrap_small 32 (r1 / 2 ^ 32)), (Mul (r1 / 2 ^ 32)) by zdm.
  set (q2 := r1 / 2 ^ 32 * r / 2 ^ 32) in *. clearbody q2.
  rewrite (uwrap_small 32 (q2 + 4)) by lia. set (q := q2 + 4) in *.
  assert (Q2' : q2 * b < 5 * 2 ^ 28 * b) by lia. apply Z.mul_lt_mono_pos_r in Q2'; [|lia].
  rewrite !(shl_mul _ 32), !(shl_mul q 4) by lia.
  rewrite (uwrap_small 64 (q1 * _)), (uwrap_small 64 (q * _)), (uwrap_small 64 (_ + _)) by lia.
  set (z := q1 * 2 ^ 32 + q * 2 ^ 4).
  assert (N : 2 ^ 63 * a = z * b + 16 * (2 ^ 31 * r1 - q2 * b - 4 * b)) by (unfold z, q, r1; rewrite B8; ring).
  rewrite (land_low _ 0x1FF 9) by (reflexivity || lia). change (4 << 4) with 64.
  destruct (Z.ltb_spec (z mod 2 ^ 9) 64) as [L|L]; [|apply far_from_boundary with (16 * (2 ^ 31 * r1 - q2 * b - 4 * b)); try lia; zdm].
  change 7 with (Z.ones 3). change 0x7F with (Z.ones 7). rewrite !land_clear by lia.
  remember (q / 32) as c eqn:Hc. remember (q mod 32) as j eqn:Hj.
  assert (J : q = 32 * c + j /\ 0 <= j < 4 /\ q mod 2 ^ 3 = j /\ z mod 2 ^ 7 = 16 * j) by zdm.
  destruct J as (J1 & J2 & -> & ->). clear Hc Hj.
  rewrite (remainder_step r1 b (q - j)) by (assumption || lia). fold b8.
  set (v := 2 ^ 28 * r1 - (q - j) * b8).
  assert (V : 8 * v = 2 ^ 31 * r1 - q2 * b - 4 * b + j * b) by (unfold v, q; rewrite B8; ring).
  assert (JB : 0 <= j * b <= 3 * b) by (split; [apply Z.mul_nonneg_nonneg; lia|apply Z.mul_le_mono_nonneg_r; lia]).
  apply sticky_correction with (z := z - 16 * j) (w := 128 * v); try lia; [zdm|].
  rewrite top_bit by (apply uwrap_bound; lia). unfold z2b. rewrite (eq_refl : u64 v = v mod 2 ^ 64).
  destruct (Z.ltb_spec (128 * v) 0) as [W|W].
  - replace (v mod 2 ^ 64) with (v + 2 ^ 64) by (apply Z.mod_unique with (-1); lia).
    replace (2 ^ 63 <=? v + 2 ^ 64) with true by lia. apply uwrap_small. change (1 << 7) with 128. lia.
  - rewrite Z.mod_small by lia. replace (2 ^ 63 <=? v) with false by lia.
    replace (128 * v =? 0) with (v =? 0) by lia. destruct (v =? 0); cbn [negb]; [reflexivity|].
    rewrite lor_1. zdm.
Qed.

Lemma divide64 (sign : bool) (eA eB wA wB : Z) (s : env) (x : R) :
  -51 <= eA <= 0x7FE -> -51 <= eB <= 0x7FE -> 2 ^ 52 <= wA < 2 ^ 53 -> 2 ^ 52 <= wB < 2 ^ 53 ->
  x = (IZR wA * pow2 (eA - 1 + emin F64) / (IZR wB * pow2 (eB - 1 + emin F64)))%R ->
  rounded_result F64 s sign x
    ((let expZ := eA - eB + 0x3FE in
      let '(expZ, sigA) := if wA <? wB then (expZ - 1, u64 (wA << 11)) else (expZ, u64 (wA << 10)) in
      softfloat_roundPackToF64 sign expZ (quotient64 sigA (u64 (wB << 11)))) s).
Proof.
  intros HeA HeB HA HB X. cbv zeta. rewrite !(shl_mul wA), (shl_mul wB), (uwrap_small 64 (wB * _)) by lia.
  assert (W : forall k e, (k = 10 /\ wB <= wA \/ k = 11 /\ wA < wB) -> e = eA - eB + 0x3FE - (k - 10) ->
    rounded_result F64 s sign x (softfloat_roundPackToF64 sign e (quotient64 (wA * 2 ^ k) (wB * 2 ^ 11)) s)).
  { intros k e C ->.
    assert (N : wB * 2 ^ 10 <= wA * 2 ^ k < wB * 2 ^ 11) by (destruct C as [[-> C]|[-> C]]; lia).
    destruct (quotient64_same (wA * 2 ^ k) (wB * 2 ^ 11)) as [S B]; try lia; [zdm|].
    apply softfloat_roundPackToF64_rounds with (k := 9) (y := (IZR (2 ^ 63 * (wA * 2 ^ k)) / IZR (wB * 2 ^ 11))%R); try lia; [exact S|].
    rewrite X, !mult_IZR, <- (pow2_IZR k), <- (pow2_IZR 63), <- (pow2_IZR 11) by lia.
    replace (eA - 1 + emin F64) with (63 + k + ((eA - eB + 0x3FE - (k - 10) - 10 + emin F64) + (eB - 1 + emin F64)) - 11)
      by (change (emin F64) with (-1074); lia).
    unfold Z.sub at 1. rewrite (pow2_add _ (- (11))), pow2_opp, !(pow2_add (63 + k)), (pow2_add 63 k), (pow2_add (eA - eB + _ - _ - _ + _)).
    field. repeat split; auto. apply not_0_IZR; lia. }
  destruct (Z.ltb_spec wA wB).
  - rewrite uwrap_small by lia. apply (W 11); lia.
  - rewrite uwrap_small by lia. apply (W 10); lia.
Qed.

Lemma f64_div_spec (a b : Z) (s : env) : is_enc F64 a -> is_enc F64 b ->
  div_spec F64 s a b (f64_div a b s).
Proof.
  intros Ha Hb. unfold div_spec.
  destruct (F64_fields a Ha) as (Sa & Ea & Ma & Pa & Wa). destruct (F64_fields b Hb) as (Sb & Eb & Mb & Pb & Wb).
  destruct (classes F64 a _ _ Ea Ma Pa) as (Na & Ia & Za & _). destruct (classes F64 b _ _ Eb Mb Pb) as (Nb & Ib & Zb & _).
  pose proof (zero_mag64 a) as ZA. pose proof (propagate64 a b s Ha Hb) as P.
  unfold f64_div. rewrite !Sa, !Sb, !infinity64_eq, !z2b_lor by lia. cbv zeta.
  set (sz := xorb _ _). clearbody sz. rewrite Pa, Pb in *. rewrite Na, Nb, Ia, Ib, Za, Zb in *. clear Na Nb Ia Ib Za Zb.
  change (2 ^ eb F64 - 1) with 0x7FF in *.
  set (eA := expF64UI a) in *. set (mA := fracF64UI a) in *. set (eB := expF64UI b) in *. set (mB := fracF64UI b) in *.
  change (2 ^ mb F64) with (2 ^ 52) in *. change (2 ^ eb F64) with (2 ^ 11) in *.
  clearbody eA mA eB mB.
  assert (Z0 : packToF64UI sz 0 0 = with_sign F64 sz 0) by (apply packToF64UI_eq; lia).
  destruct (Z.eqb_spec eA 0x7FF) as [EA|EA]; [|destruct (Z.eqb_spec eB 0x7FF) as [EB|EB]].
  1: destruct (eB =? 0x7FF), (z2b mA), (z2b mB); cbn [andb orb negb]; try exact P; reflexivity.
  1: destruct (z2b mA), (z2b mB); cbn [andb orb negb]; try exact P; unfold ret; now rewrite Z0.
  cbn [andb orb negb].
  destruct (z2b eB || z2b mB) eqn:OB; cycle 1.
  { apply orb_false_iff in OB as [QB RB]. rewrite QB, RB. destruct (z2b eA), (z2b mA); reflexivity. }
  replace (negb (z2b eB) && negb (z2b mB)) with false by (rewrite <- negb_orb, OB; reflexivity).
  destruct (z2b eA || z2b mA) eqn:OA; cycle 1.
  { apply orb_false_iff in OA as [QA RA]. rewrite QA, RA in *. rewrite ZA by reflexivity. unfold Rdiv. rewrite Rmult_0_l.
    destruct (z2b eB); [|destruct (z2b mB); [|discriminate]]; apply zero64_result; reflexivity. }
  destruct (operand64_cases eA mA ltac:(lia) Ma OA) as [(QA & A1 & A2 & A3)|(QA & RA & A1 & A2 & A3)];
    destruct (operand64_cases eB mB ltac:(lia) Mb OB) as [(QB & B1 & B2 & B3)|(QB & RB & B1 & B2 & B3)];
    rewrite QA, QB, ?RA, ?RB; cbn [negb]; apply divide64; try assumption; rewrite A3, B3; reflexivity.
Qed.
