(* ===== verification/Convert.v ===== *)
(** Conversions to integers: the translation of [s_roundToUI32.c], [s_roundToI32.c],
    [s_roundToUI64.c], [s_roundToI64.c], [f32_to_*.c] and [f64_to_*.c].  The
    constants for NaN and overflow are those of the 8086-SSE specialisation, where
    all three agree, so that the tests for NaN under [#if] are not compiled. *)
From Stdlib Require Import ZArith Bool Lia.
From S2P Require Import Prelude Ieee Softfloat Primitives F32 F64.
Local Open Scope Z_scope.
Local Open Scope c_scope.
Local Open Scope M_scope.

Definition ui32_fromPosOverflow : Z := 0xFFFFFFFF.
Definition ui32_fromNegOverflow : Z := 0xFFFFFFFF.
Definition ui32_fromNaN : Z := 0xFFFFFFFF.
Definition i32_fromPosOverflow : Z := - 0x7FFFFFFF - 1.
Definition i32_fromNegOverflow : Z := - 0x7FFFFFFF - 1.
Definition i32_fromNaN : Z := - 0x7FFFFFFF - 1.
Definition ui64_fromPosOverflow : Z := 0xFFFFFFFFFFFFFFFF.
Definition ui64_fromNegOverflow : Z := 0xFFFFFFFFFFFFFFFF.
Definition ui64_fromNaN : Z := 0xFFFFFFFFFFFFFFFF.
Definition i64_fromPosOverflow : Z := - 0x7FFFFFFFFFFFFFFF - 1.
Definition i64_fromNegOverflow : Z := - 0x7FFFFFFFFFFFFFFF - 1.
Definition i64_fromNaN : Z := - 0x7FFFFFFFFFFFFFFF - 1.

(** ** Rounding a fixed-point magnitude to an integer *)
Definition softfloat_roundToUI32 (sign : bool) (sig roundingMode : Z) (exact : bool) : M Z :=
  let invalid :=
    softfloat_raiseFlags softfloat_flag_invalid ;;;
    ret (if sign then ui32_fromNegOverflow else ui32_fromPosOverflow) in
  let finish roundIncrement :=
    let roundBits := sig .& 0xFFF in
    let sig := u64 (sig + roundIncrement) in
    if z2b (sig .& 0xFFFFF00000000000) then invalid
    else
      let z := sig >> 12 in
      let z :=
        if (roundBits =? 0x800) && (roundingMode =? softfloat_round_near_even)
        then z .& u64 (Z.lnot 1) else z in
      if sign && z2b z then invalid
      else
        when (z2b roundBits) (when exact (softfloat_raiseFlags softfloat_flag_inexact)) ;;;
        ret z in
  if negb (roundingMode =? softfloat_round_near_maxMag) && negb (roundingMode =? softfloat_round_near_even) then
    if sign then
      if negb (z2b sig) then ret 0
      else if roundingMode =? softfloat_round_min then invalid
      else finish 0
    else finish (if roundingMode =? softfloat_round_max then 0xFFF else 0)
  else finish 0x800.

Definition softfloat_roundToI32 (sign : bool) (sig roundingMode : Z) (exact : bool) : M Z :=
  let invalid :=
    softfloat_raiseFlags softfloat_flag_invalid ;;;
    ret (if sign then i32_fromNegOverflow else i32_fromPosOverflow) in
  let roundIncrement :=
    if negb (roundingMode =? softfloat_round_near_maxMag) && negb (roundingMode =? softfloat_round_near_even) then
      if (if sign then roundingMode =? softfloat_round_min else roundingMode =? softfloat_round_max)
      then 0xFFF else 0
    else 0x800 in
  let roundBits := sig .& 0xFFF in
  let sig := u64 (sig + roundIncrement) in
  if z2b (sig .& 0xFFFFF00000000000) then invalid
  else
    let sig32 := sig >> 12 in
    let sig32 :=
      if (roundBits =? 0x800) && (roundingMode =? softfloat_round_near_even)
      then sig32 .& u64 (Z.lnot 1) else sig32 in
    let z := i32 (u32 (if sign then u64 (- sig32) else sig32)) in
    if z2b z && xorb (z <? 0) sign then invalid
    else
      when (z2b roundBits) (when exact (softfloat_raiseFlags softfloat_flag_inexact)) ;;;
      ret z.

Definition softfloat_roundToUI64 (sign : bool) (sig sigExtra roundingMode : Z) (exact : bool) : M Z :=
  let invalid :=
    softfloat_raiseFlags softfloat_flag_invalid ;;;
    ret (if sign then ui64_fromNegOverflow else ui64_fromPosOverflow) in
  let finish sig :=
    if sign && z2b sig then invalid
    else
      when (z2b sigExtra) (when exact (softfloat_raiseFlags softfloat_flag_inexact)) ;;;
      ret sig in
  let increment :=
    let sig := u64 (sig + 1) in
    if negb (z2b sig) then invalid
    else
      finish
        (if (sigExtra =? 0x8000000000000000) && (roundingMode =? softfloat_round_near_even)
         then sig .& u64 (Z.lnot 1) else sig) in
  if (roundingMode =? softfloat_round_near_maxMag) || (roundingMode =? softfloat_round_near_even) then
    if 0x8000000000000000 <=? sigExtra then increment else finish sig
  else if sign then
    if negb (z2b (sig .| sigExtra)) then ret 0
    else if roundingMode =? softfloat_round_min then invalid
    else finish sig
  else if (roundingMode =? softfloat_round_max) && z2b sigExtra then increment
  else finish sig.

Definition softfloat_roundToI64 (sign : bool) (sig sigExtra roundingMode : Z) (exact : bool) : M Z :=
  let invalid :=
    softfloat_raiseFlags softfloat_flag_invalid ;;;
    ret (if sign then i64_fromNegOverflow else i64_fromPosOverflow) in
  let finish sig :=
    let z := i64 (if sign then u64 (- sig) else sig) in
    if z2b z && xorb (z <? 0) sign then invalid
    else
      when (z2b sigExtra) (when exact (softfloat_raiseFlags softfloat_flag_inexact)) ;;;
      ret z in
  let increment :=
    let sig := u64 (sig + 1) in
    if negb (z2b sig) then invalid
    else
      finish
        (if (sigExtra =? 0x8000000000000000) && (roundingMode =? softfloat_round_near_even)
         then sig .& u64 (Z.lnot 1) else sig) in
  if (roundingMode =? softfloat_round_near_maxMag) || (roundingMode =? softfloat_round_near_even) then
    if 0x8000000000000000 <=? sigExtra then increment else finish sig
  else if z2b sigExtra && (if sign then roundingMode =? softfloat_round_min else roundingMode =? softfloat_round_max)
  then increment
  else finish sig.

(** ** From 32-bit floating point to integers *)
Definition f32_to_ui32 (a roundingMode : Z) (exact : bool) : M Z :=
  let uiA := a in
  let sign := signF32UI uiA in
  let exp := expF32UI uiA in
  let sig := fracF32UI uiA in
  let sig := if z2b exp then sig .| 0x00800000 else sig in
  let sig64 := u64 (sig << 32) in
  let shiftDist := 0xAA - exp in
  let sig64 := if 0 <? shiftDist then softfloat_shiftRightJam64 sig64 shiftDist else sig64 in
  softfloat_roundToUI32 sign sig64 roundingMode exact.

Definition f32_to_i32 (a roundingMode : Z) (exact : bool) : M Z :=
  let uiA := a in
  let sign := signF32UI uiA in
  let exp := expF32UI uiA in
  let sig := fracF32UI uiA in
  let sig := if z2b exp then sig .| 0x00800000 else sig in
  let sig64 := u64 (sig << 32) in
  let shiftDist := 0xAA - exp in
  let sig64 := if 0 <? shiftDist then softfloat_shiftRightJam64 sig64 shiftDist else sig64 in
  softfloat_roundToI32 sign sig64 roundingMode exact.

Definition f32_to_ui64 (a roundingMode : Z) (exact : bool) : M Z :=
  let uiA := a in
  let sign := signF32UI uiA in
  let exp := expF32UI uiA in
  let sig := fracF32UI uiA in
  let shiftDist := 0xBE - exp in
  if shiftDist <? 0 then
    softfloat_raiseFlags softfloat_flag_invalid ;;;
    ret (if (exp =? 0xFF) && z2b sig then ui64_fromNaN
         else if sign then ui64_fromNegOverflow else ui64_fromPosOverflow)
  else
    let sig := if z2b exp then sig .| 0x00800000 else sig in
    let sig64 := u64 (sig << 40) in
    let extra := 0 in
    let '(sig64, extra) :=
      if z2b shiftDist then
        let sig64Extra := softfloat_shiftRightJam64Extra sig64 0 shiftDist in
        (ue_v sig64Extra, ue_extra sig64Extra)
      else (sig64, extra) in
    softfloat_roundToUI64 sign sig64 extra roundingMode exact.

Definition f32_to_i64 (a roundingMode : Z) (exact : bool) : M Z :=
  let uiA := a in
  let sign := signF32UI uiA in
  let exp := expF32UI uiA in
  let sig := fracF32UI uiA in
  let shiftDist := 0xBE - exp in
  if shiftDist <? 0 then
    softfloat_raiseFlags softfloat_flag_invalid ;;;
    ret (if (exp =? 0xFF) && z2b sig then i64_fromNaN
         else if sign then i64_fromNegOverflow else i64_fromPosOverflow)
  else
    let sig := if z2b exp then sig .| 0x00800000 else sig in
    let sig64 := u64 (sig << 40) in
    let extra := 0 in
    let '(sig64, extra) :=
      if z2b shiftDist then
        let sig64Extra := softfloat_shiftRightJam64Extra sig64 0 shiftDist in
        (ue_v sig64Extra, ue_extra sig64Extra)
      else (sig64, extra) in
    softfloat_roundToI64 sign sig64 extra roundingMode exact.

(** ** From 64-bit floating point to integers *)
Definition f64_to_ui32 (a roundingMode : Z) (exact : bool) : M Z :=
  let uiA := a in
  let sign := signF64UI uiA in
  let exp := expF64UI uiA in
  let sig := fracF64UI uiA in
  let sig := if z2b exp then sig .| 0x0010000000000000 else sig in
  let shiftDist := 0x427 - exp in
  let sig := if 0 <? shiftDist then softfloat_shiftRightJam64 sig shiftDist else sig in
  softfloat_roundToUI32 sign sig roundingMode exact.

Definition f64_to_i32 (a roundingMode : Z) (exact : bool) : M Z :=
  let uiA := a in
  let sign := signF64UI uiA in
  let exp := expF64UI uiA in
  let sig := fracF64UI uiA in
  let sig := if z2b exp then sig .| 0x0010000000000000 else sig in
  let shiftDist := 0x427 - exp in
  let sig := if 0 <? shiftDist then softfloat_shiftRightJam64 sig shiftDist else sig in
  softfloat_roundToI32 sign sig roundingMode exact.

Definition f64_to_ui64 (a roundingMode : Z) (exact : bool) : M Z :=
  let uiA := a in
  let sign := signF64UI uiA in
  let exp := expF64UI uiA in
  let sig := fracF64UI uiA in
  let sig := if z2b exp then sig .| 0x0010000000000000 else sig in
  let shiftDist := 0x433 - exp in
  if shiftDist <=? 0 then
    if shiftDist <? -11 then
      softfloat_raiseFlags softfloat_flag_invalid ;;;
      ret (if (exp =? 0x7FF) && z2b (fracF64UI uiA) then ui64_fromNaN
           else if sign then ui64_fromNegOverflow else ui64_fromPosOverflow)
    else
      softfloat_roundToUI64 sign (u64 (sig << (- shiftDist))) 0 roundingMode exact
  else
    let sigExtra := softfloat_shiftRightJam64Extra sig 0 shiftDist in
    softfloat_roundToUI64 sign (ue_v sigExtra) (ue_extra sigExtra) roundingMode exact.

Definition f64_to_i64 (a roundingMode : Z) (exact : bool) : M Z :=
  let uiA := a in
  let sign := signF64UI uiA in
  let exp := expF64UI uiA in
  let sig := fracF64UI uiA in
  let sig := if z2b exp then sig .| 0x0010000000000000 else sig in
  let shiftDist := 0x433 - exp in
  if shiftDist <=? 0 then
    if shiftDist <? -11 then
      softfloat_raiseFlags softfloat_flag_invalid ;;;
      ret (if (exp =? 0x7FF) && z2b (fracF64UI uiA) then i64_fromNaN
           else if sign then i64_fromNegOverflow else i64_fromPosOverflow)
    else
      softfloat_roundToI64 sign (u64 (sig << (- shiftDist))) 0 roundingMode exact
  else
    let sigExtra := softfloat_shiftRightJam64Extra sig 0 shiftDist in
    softfloat_roundToI64 sign (ue_v sigExtra) (ue_extra sigExtra) roundingMode exact.

(** ** Truncation to integers *)
Definition f32_to_ui32_r_minMag (a : Z) (exact : bool) : M Z :=
  let uiA := a in
  let exp := expF32UI uiA in
  let sig := fracF32UI uiA in
  let shiftDist := 0x9E - exp in
  if 32 <=? shiftDist then
    when (exact && z2b (exp .| sig)) (softfloat_raiseFlags softfloat_flag_inexact) ;;;
    ret 0
  else
    let sign := signF32UI uiA in
    if sign || (shiftDist <? 0) then
      softfloat_raiseFlags softfloat_flag_invalid ;;;
      ret (if (exp =? 0xFF) && z2b sig then ui32_fromNaN
           else if sign then ui32_fromNegOverflow else ui32_fromPosOverflow)
    else
      let sig := u64 ((sig .| 0x00800000) << 8) in
      let z := sig >> shiftDist in
      when (exact && negb (u64 (z << shiftDist) =? sig)) (softfloat_raiseFlags softfloat_flag_inexact) ;;;
      ret z.

Definition f32_to_i32_r_minMag (a : Z) (exact : bool) : M Z :=
  let uiA := a in
  let exp := expF32UI uiA in
  let sig := fracF32UI uiA in
  let shiftDist := 0x9E - exp in
  if 32 <=? shiftDist then
    when (exact && z2b (exp .| sig)) (softfloat_raiseFlags softfloat_flag_inexact) ;;;
    ret 0
  else
    let sign := signF32UI uiA in
    if shiftDist <=? 0 then
      if uiA =? packToF32UI true 0x9E 0 then ret (- 0x7FFFFFFF - 1)
      else
        softfloat_raiseFlags softfloat_flag_invalid ;;;
        ret (if (exp =? 0xFF) && z2b sig then i32_fromNaN
             else if sign then i32_fromNegOverflow else i32_fromPosOverflow)
    else
      let sig := u64 ((sig .| 0x00800000) << 8) in
      let absZ := i64 (sig >> shiftDist) in
      when (exact && negb (u64 (u64 absZ << shiftDist) =? sig)) (softfloat_raiseFlags softfloat_flag_inexact) ;;;
      ret (if sign then - absZ else absZ).

Definition f32_to_ui64_r_minMag (a : Z) (exact : bool) : M Z :=
  let uiA := a in
  let exp := expF32UI uiA in
  let sig := fracF32UI uiA in
  let shiftDist := 0xBE - exp in
  if 64 <=? shiftDist then
    when (exact && z2b (exp .| sig)) (softfloat_raiseFlags softfloat_flag_inexact) ;;;
    ret 0
  else
    let sign := signF32UI uiA in
    if sign || (shiftDist <? 0) then
      softfloat_raiseFlags softfloat_flag_invalid ;;;
      ret (if (exp =? 0xFF) && z2b sig then ui64_fromNaN
           else if sign then ui64_fromNegOverflow else ui64_fromPosOverflow)
    else
      let sig := sig .| 0x00800000 in
      let sig64 := u64 (sig << 40) in
      let z := sig64 >> shiftDist in
      let shiftDist := 40 - shiftDist in
      when (exact && (shiftDist <? 0) && z2b (u32 (u64 (sig << (shiftDist .& 31)))))
        (softfloat_raiseFlags softfloat_flag_inexact) ;;;
      ret z.

Definition f32_to_i64_r_minMag (a : Z) (exact : bool) : M Z :=
  let uiA := a in
  let exp := expF32UI uiA in
  let sig := fracF32UI uiA in
  let shiftDist := 0xBE - exp in
  if 64 <=? shiftDist then
    when (exact && z2b (exp .| sig)) (softfloat_raiseFlags softfloat_flag_inexact) ;;;
    ret 0
  else
    let sign := signF32UI uiA in
    if shiftDist <=? 0 then
      if uiA =? packToF32UI true 0xBE 0 then ret (- 0x7FFFFFFFFFFFFFFF - 1)
      else
        softfloat_raiseFlags softfloat_flag_invalid ;;;
        ret (if (exp =? 0xFF) && z2b sig then i64_fromNaN
             else if sign then i64_fromNegOverflow else i64_fromPosOverflow)
    else
      let sig := sig .| 0x00800000 in
      let sig64 := u64 (sig << 40) in
      let absZ := i64 (sig64 >> shiftDist) in
      let shiftDist := 40 - shiftDist in
      when (exact && (shiftDist <? 0) && z2b (u32 (u64 (sig << (shiftDist .& 31)))))
        (softfloat_raiseFlags softfloat_flag_inexact) ;;;
      ret (if sign then - absZ else absZ).

Definition f64_to_ui32_r_minMag (a : Z) (exact : bool) : M Z :=
  let uiA := a in
  let exp := expF64UI uiA in
  let sig := fracF64UI uiA in
  let shiftDist := 0x433 - exp in
  if 53 <=? shiftDist then
    when (exact && z2b (exp .| sig)) (softfloat_raiseFlags softfloat_flag_inexact) ;;;
    ret 0
  else
    let sign := signF64UI uiA in
    if sign || (shiftDist <? 21) then
      softfloat_raiseFlags softfloat_flag_invalid ;;;
      ret (if (exp =? 0x7FF) && z2b sig then ui32_fromNaN
           else if sign then ui32_fromNegOverflow else ui32_fromPosOverflow)
    else
      let sig := sig .| 0x0010000000000000 in
      let z := sig >> shiftDist in
      when (exact && negb (u64 (z << shiftDist) =? sig)) (softfloat_raiseFlags softfloat_flag_inexact) ;;;
      ret z.

Definition f64_to_i32_r_minMag (a : Z) (exact : bool) : M Z :=
  let uiA := a in
  let exp := expF64UI uiA in
  let sig := fracF64UI uiA in
  let shiftDist := 0x433 - exp in
  if 53 <=? shiftDist then
    when (exact && z2b (exp .| sig)) (softfloat_raiseFlags softfloat_flag_inexact) ;;;
    ret 0
  else
    let sign := signF64UI uiA in
    if shiftDist <? 22 then
      if sign && (exp =? 0x41E) && (sig <? 0x0000000000200000) then
        when (exact && z2b sig) (softfloat_raiseFlags softfloat_flag_inexact) ;;;
        ret (- 0x7FFFFFFF - 1)
      else
        softfloat_raiseFlags softfloat_flag_invalid ;;;
        ret (if (exp =? 0x7FF) && z2b sig then i32_fromNaN
             else if sign then i32_fromNegOverflow else i32_fromPosOverflow)
    else
      let sig := sig .| 0x0010000000000000 in
      let absZ := i64 (sig >> shiftDist) in
      when (exact && negb (u64 (u64 absZ << shiftDist) =? sig)) (softfloat_raiseFlags softfloat_flag_inexact) ;;;
      ret (if sign then - absZ else absZ).

Definition f64_to_ui64_r_minMag (a : Z) (exact : bool) : M Z :=
  let uiA := a in
  let exp := expF64UI uiA in
  let sig := fracF64UI uiA in
  let shiftDist := 0x433 - exp in
  if 53 <=? shiftDist then
    when (exact && z2b (exp .| sig)) (softfloat_raiseFlags softfloat_flag_inexact) ;;;
    ret 0
  else
    let sign := signF64UI uiA in
    let invalid :=
      softfloat_raiseFlags softfloat_flag_invalid ;;;
      ret (if (exp =? 0x7FF) && z2b sig then ui64_fromNaN
           else if sign then ui64_fromNegOverflow else ui64_fromPosOverflow) in
    if sign then invalid
    else if shiftDist <=? 0 then
      if shiftDist <? -11 then invalid
      else ret (u64 ((sig .| 0x0010000000000000) << (- shiftDist)))
    else
      let sig := sig .| 0x0010000000000000 in
      let z := sig >> shiftDist in
      when (exact && z2b (u64 (sig << ((- shiftDist) .& 63)))) (softfloat_raiseFlags softfloat_flag_inexact) ;;;
      ret z.

Definition f64_to_i64_r_minMag (a : Z) (exact : bool) : M Z :=
  let uiA := a in
  let sign := signF64UI uiA in
  let exp := expF64UI uiA in
  let sig := fracF64UI uiA in
  let shiftDist := 0x433 - exp in
  if shiftDist <=? 0 then
    if shiftDist <? -10 then
      if uiA =? packToF64UI true 0x43E 0 then ret (- 0x7FFFFFFFFFFFFFFF - 1)
      else
        softfloat_raiseFlags softfloat_flag_invalid ;;;
        ret (if (exp =? 0x7FF) && z2b sig then i64_fromNaN
             else if sign then i64_fromNegOverflow else i64_fromPosOverflow)
    else
      let sig := sig .| 0x0010000000000000 in
      let absZ := i64 (u64 (sig << (- shiftDist))) in
      ret (if sign then - absZ else absZ)
  else if 53 <=? shiftDist then
    when (exact && z2b (exp .| sig)) (softfloat_raiseFlags softfloat_flag_inexact) ;;;
    ret 0
  else
    let sig := sig .| 0x0010000000000000 in
    let absZ := i64 (sig >> shiftDist) in
    when (exact && negb (u64 (absZ << shiftDist) =? sig)) (softfloat_raiseFlags softfloat_flag_inexact) ;;;
    ret (if sign then - absZ else absZ).
