(* ===== verification/ToInt.v ===== *)
(** Conversions to integers round correctly and detect overflow. *)
From Stdlib Require Import ZArith Bool Lia Reals Lra.
From S2P Require Import Prelude Ieee Rounding RoundPack Softfloat Primitives Machine Contract F32 F32Round F32Mul F64 F64Round F64Mul Convert.
Local Open Scope Z_scope.
Local Open Scope c_scope.

(** ** The rounding functions compute this *)
Definition deliver (lo hi code : Z) (sign : bool) (n : Z) (inexact : bool) (s : env) : Z * env :=
  let v := if sign then - n else n in
  if (lo <=? v) && (v <=? hi) then (v, raised_env (if inexact then softfloat_flag_inexact else 0) s)
  else (code, raised_env softfloat_flag_invalid s).

Lemma when_when (b c : bool) (s : env) :
  when b (when c (softfloat_raiseFlags softfloat_flag_inexact)) s =
  (tt, raised_env (if c && b then softfloat_flag_inexact else 0) s).
Proof. destruct b, c; cbn [when andb]; rewrite ?raised_env_0; destruct s; reflexivity. Qed.

Lemma high_bits (x : Z) : 0 <= x < 2 ^ 64 -> z2b (x .& 0xFFFFF00000000000) = (2 ^ 44 <=? x).
Proof.
  intros Hx. rewrite (land_field x 0xFFFFF00000000000 44 20) by (reflexivity || lia). unfold z2b.
  apply eq_true_iff_eq. rewrite negb_true_iff, Z.eqb_neq, Z.leb_le. zdm.
Qed.

(** Adding the increment and clearing the last bit of a tie. *)
Lemma round_sig_split (d : direction) (g s : Z) :
  round_sig d g s =
  (let n := (s + increment d g) / 2 ^ g in
   if (s mod 2 ^ g =? 2 ^ (g - 1)) && is_nearest_even d then 2 * (n / 2) else n).
Proof. unfold round_sig. now rewrite andb_comm. Qed.

Lemma softfloat_roundToUI32_eq (sign : bool) (sig mode : Z) (exact : bool) (s : env) : 0 <= sig < 2 ^ 63 ->
  softfloat_roundToUI32 sign sig mode exact s =
  deliver 0 (2 ^ 32 - 1) 0xFFFFFFFF sign (round_sig (mag_direction mode sign) 12 sig)
    (exact && negb (sig mod 2 ^ 12 =? 0)) s.
Proof.
  intros Hs. set (d := mag_direction mode sign).
  assert (F : forall inc, inc = increment d 12 ->
    (if z2b (u64 (sig + inc) .& 0xFFFFF00000000000) then
       (bind (softfloat_raiseFlags softfloat_flag_invalid) (fun _ => ret (if sign then ui32_fromNegOverflow else ui32_fromPosOverflow)))
     else
      let z := u64 (sig + inc) >> 12 in
      let z := if (sig .& 0xFFF =? 0x800) && (mode =? softfloat_round_near_even) then z .& u64 (Z.lnot 1) else z in
      if sign && z2b z then
       (bind (softfloat_raiseFlags softfloat_flag_invalid) (fun _ => ret (if sign then ui32_fromNegOverflow else ui32_fromPosOverflow)))
      else bind (when (z2b (sig .& 0xFFF)) (when exact (softfloat_raiseFlags softfloat_flag_inexact))) (fun _ => ret z)) s =
    deliver 0 (2 ^ 32 - 1) 0xFFFFFFFF sign (round_sig d 12 sig) (exact && negb (sig mod 2 ^ 12 =? 0)) s).
  { intros inc ->. pose proof (increment_bound d 12 ltac:(lia)) as I. cbv zeta.
    rewrite (land_low _ 0xFFF 12), (uwrap_small 64), high_bits, shr_div by (reflexivity || lia).
    rewrite land_not_1 by (lia || zdm). rewrite round_sig_split, (nearest_even_code mode sign). fold d. cbv zeta.
    change (2 ^ (12 - 1)) with 0x800. set (tie := (sig mod 2 ^ 12 =? 0x800) && is_nearest_even d). set (x := sig + increment d 12) in *.
    set (n := if tie then 2 * (x / 2 ^ 12 / 2) else x / 2 ^ 12).
    assert (N : 0 <= n /\ (2 ^ 44 <= x <-> 2 ^ 32 <= n)) by (unfold n; destruct tie; zdm). clearbody n.
    unfold deliver. destruct (Z.leb_spec (2 ^ 44) x) as [L|L].
    - destruct sign; cbn [andb].
      + replace (0 <=? - n) with false by lia. reflexivity.
      + replace (n <=? 2 ^ 32 - 1) with false by lia. rewrite andb_false_r. reflexivity.
    - unfold z2b at 1. destruct sign; cbn [andb].
      + destruct (Z.eqb_spec n 0) as [->|N0]; cbn [negb].
        * unfold bind. rewrite when_when. reflexivity.
        * replace (0 <=? - n) with false by lia. reflexivity.
      + unfold bind. rewrite when_when. replace ((0 <=? n) && (n <=? 2 ^ 32 - 1)) with true by lia. reflexivity. }
  unfold softfloat_roundToUI32. cbv zeta in *. unfold d, mag_direction in *.
  destruct (Z.eqb_spec mode softfloat_round_near_even) as [E|E].
  { rewrite andb_false_r. apply F. reflexivity. }
  destruct (Z.eqb_spec mode softfloat_round_near_maxMag) as [E'|E']; [apply F; reflexivity|]. cbn [negb andb] in *.
  destruct sign.
  - unfold z2b at 1. destruct (Z.eqb_spec sig 0) as [->|N]; cbn [negb].
    + destruct (mode =? softfloat_round_min), exact; cbn; now rewrite raised_env_0.
    + destruct (Z.eqb_spec mode softfloat_round_min) as [E2|E2]; [|apply F; reflexivity].
      unfold deliver. pose proof (round_sig_value 12 sig ltac:(lia) AwayFromZero) as V. cbn [negb] in V.
      replace (0 <=? - round_sig AwayFromZero 12 sig) with false; [reflexivity|]. symmetry. apply Z.leb_gt.
      rewrite V. destruct (Z.eqb_spec (sig mod 2 ^ 12) 0); zdm.
  - destruct (mode =? softfloat_round_max); apply F; reflexivity.
Qed.

(** The sign test on a wrapped result finds every overflow. *)
Lemma wrapped_result (w n : Z) (sign : bool) (z := swrap w (uwrap w (if sign then u64 (- n) else n))) :
  w = 32 \/ w = 64 -> 0 <= n < 2 ^ w ->
  let v := if sign then - n else n in
  z2b z && xorb (z <? 0) sign = negb ((- 2 ^ (w - 1) <=? v) && (v <=? 2 ^ (w - 1) - 1)) /\
  ((- 2 ^ (w - 1) <=? v) && (v <=? 2 ^ (w - 1) - 1) = true -> z = v).
Proof.
  intros Hw Hn v. assert (P : 2 ^ w = 2 * 2 ^ (w - 1)) by (destruct Hw as [-> | ->]; reflexivity).
  assert (U : exists k, uwrap w (if sign then u64 (- n) else n) = v + k * 2 ^ w /\ 0 <= v + k * 2 ^ w < 2 ^ w).
  { unfold v. destruct sign.
    - assert (E : uwrap w (u64 (- n)) = uwrap w (- n)).
      { unfold uwrap. destruct Hw as [-> | ->]; [|now rewrite Zmod_mod]. apply Z.mod_mod_divide.
        exists (2 ^ 32). reflexivity. }
      rewrite E. unfold uwrap. exists (- (- n / 2 ^ w)). pose proof (Z.div_mod (- n) (2 ^ w) ltac:(lia)).
      pose proof (Z.mod_pos_bound (- n) (2 ^ w) ltac:(lia)). lia.
    - exists 0. rewrite uwrap_small by lia. lia. }
  destruct U as (k & U & B). subst z. rewrite U. unfold z2b.
  assert (S : swrap w (v + k * 2 ^ w) = v + k * 2 ^ w - (if 2 ^ (w - 1) <=? v + k * 2 ^ w then 2 ^ w else 0)).
  { unfold swrap. destruct (Z.leb_spec (2 ^ (w - 1)) (v + k * 2 ^ w)).
    - rewrite <- (Z.mod_add _ (-1)) by lia. rewrite Z.mod_small by lia. lia.
    - rewrite Z.mod_small by lia. lia. }
  rewrite S. clear S U. assert (0 < 2 ^ (w - 1)) by lia. set (h := 2 ^ (w - 1)) in *. rewrite P in *. clearbody h.
  unfold v in *. clear v. destruct sign.
  - assert (K' : 0 <= k < 2) by nia. assert (K : k = 0 /\ n = 0 \/ k = 1 /\ 0 < n) by (assert (C : k = 0 \/ k = 1) by lia; destruct C as [-> | ->]; lia). destruct K as [[-> ->]|[-> K]].
    + replace (- 0 + 0 * (2 * h)) with 0 by lia. replace (h <=? 0) with false by lia. cbn [Z.sub Z.opp Z.add Z.eqb negb andb]. lia.
    + destruct (Z.leb_spec h (- n + 1 * (2 * h))); split; rewrite ?xorb_true_r; lia.
  - assert (0 <= k < 1) by nia. assert (k = 0) as -> by lia. destruct (Z.leb_spec h (n + 0 * (2 * h))); split; rewrite ?xorb_false_r; lia.
Qed.

Lemma softfloat_roundToI32_eq (sign : bool) (sig mode : Z) (exact : bool) (s : env) : 0 <= sig < 2 ^ 63 ->
  softfloat_roundToI32 sign sig mode exact s =
  deliver (- 2 ^ 31) (2 ^ 31 - 1) (- 2 ^ 31) sign (round_sig (mag_direction mode sign) 12 sig)
    (exact && negb (sig mod 2 ^ 12 =? 0)) s.
Proof.
  intros Hs. set (d := mag_direction mode sign). unfold softfloat_roundToI32. cbv zeta.
  assert (I : forall b : bool, (if negb (mode =? softfloat_round_near_maxMag) && negb (mode =? softfloat_round_near_even) then
      if (if sign then mode =? softfloat_round_min else mode =? softfloat_round_max) then 0xFFF else 0
    else 0x800) = increment d 12).
  { intros _. unfold d. rewrite andb_comm, <- (increment_code 12 0xFFF 0x800) by reflexivity. destruct sign; reflexivity. }
  rewrite (I true). clear I. pose proof (increment_bound d 12 ltac:(lia)) as I.
  rewrite (land_low _ 0xFFF 12), (uwrap_small 64), high_bits, shr_div by (reflexivity || lia).
  rewrite land_not_1 by (lia || zdm). rewrite round_sig_split, (nearest_even_code mode sign). fold d. cbv zeta.
  change (2 ^ (12 - 1)) with 0x800. set (tie := (sig mod 2 ^ 12 =? 0x800) && is_nearest_even d). set (x := sig + increment d 12) in *.
  set (n := if tie then 2 * (x / 2 ^ 12 / 2) else x / 2 ^ 12).
  assert (N : 0 <= n /\ (2 ^ 44 <= x <-> 2 ^ 32 <= n)) by (unfold n; destruct tie; zdm). clearbody n.
  unfold deliver. destruct (Z.leb_spec (2 ^ 44) x) as [L|L].
  - destruct sign; [replace (- 2 ^ 31 <=? - n) with false by lia|replace (n <=? 2 ^ 31 - 1) with false by lia; rewrite andb_false_r]; reflexivity.
  - destruct (wrapped_result 32 n sign (or_introl eq_refl) ltac:(lia)) as [W1 W2]. cbv zeta in W1, W2.
    change (2 ^ (32 - 1)) with (2 ^ 31) in *. rewrite W1.
    set (ok := (_ <=? _) && (_ <=? _)) in *. destruct ok; cbn [negb]; [|destruct sign; reflexivity].
    unfold bind. rewrite when_when, W2 by reflexivity. reflexivity.
Qed.

(** The 64-bit functions round [sig + sigExtra / 2 ^ 64]. *)
Lemma round_sig_extra (d : direction) (sig extra : Z) : 0 <= extra < 2 ^ 64 ->
  round_sig d 64 (sig * 2 ^ 64 + extra) =
  match d with
  | NearestEven => if 2 ^ 63 <=? extra then if extra =? 2 ^ 63 then 2 * ((sig + 1) / 2) else sig + 1 else sig
  | NearestAway => if 2 ^ 63 <=? extra then sig + 1 else sig
  | TowardZero => sig
  | AwayFromZero => if extra =? 0 then sig else sig + 1
  end.
Proof.
  intros He. rewrite round_sig_value by lia.
  replace ((sig * 2 ^ 64 + extra) / 2 ^ 64) with sig by (apply Z.div_unique_pos with extra; lia).
  replace ((sig * 2 ^ 64 + extra) mod 2 ^ 64) with extra by (apply Z.mod_unique_pos with sig; lia).
  change (2 ^ (64 - 1)) with (2 ^ 63). destruct d; try reflexivity.
  - destruct (Z.ltb_spec extra (2 ^ 63)), (Z.leb_spec (2 ^ 63) extra); try lia; reflexivity.
  - destruct (Z.ltb_spec extra (2 ^ 63)), (Z.leb_spec (2 ^ 63) extra); try lia; reflexivity.
Qed.

(** What happens to the two tails of the 64-bit functions. *)
Section Tails.
Context (lo hi code : Z) (sign exact : bool) (sig extra mode : Z) (s : env).
Context (finish : Z -> M Z) (invalid : M Z).
Context (Hsig : 0 <= sig < 2 ^ 64) (Hextra : 0 <= extra < 2 ^ 64).
Context (Hinvalid : invalid s = (code, raised_env softfloat_flag_invalid s)).
Context (Hfinish : forall n, 0 <= n < 2 ^ 64 -> finish n s = deliver lo hi code sign n (exact && negb (extra =? 0)) s).
Context (Hhi : hi < 2 ^ 64) (Hlo : - 2 ^ 64 < lo).

Lemma increment_tail :
  (let sig := u64 (sig + 1) in
   if negb (z2b sig) then invalid
   else finish (if (extra =? 0x8000000000000000) && (mode =? softfloat_round_near_even)
                then sig .& u64 (Z.lnot 1) else sig)) s =
  deliver lo hi code sign
    (if (extra =? 2 ^ 63) && (mode =? softfloat_round_near_even) then 2 * ((sig + 1) / 2) else sig + 1)
    (exact && negb (extra =? 0)) s.
Proof.
  cbv zeta. destruct (Z.eq_dec sig (2 ^ 64 - 1)) as [E|E].
  - rewrite E. change (negb (z2b (u64 (2 ^ 64 - 1 + 1)))) with true. cbv iota. rewrite Hinvalid.
    assert (T : forall b : bool, (if b then 2 * ((2 ^ 64 - 1 + 1) / 2) else 2 ^ 64 - 1 + 1) = 2 ^ 64) by (intros []; reflexivity).
    rewrite T.
    unfold deliver. destruct sign; [replace (lo <=? - 2 ^ 64) with false by lia|replace (2 ^ 64 <=? hi) with false by lia; rewrite andb_false_r]; reflexivity.
  - rewrite (uwrap_small 64 (sig + 1)) by lia. unfold z2b. replace (sig + 1 =? 0) with false by lia. cbn [negb].
    change 0x8000000000000000 with (2 ^ 63). rewrite land_not_1 by lia. apply Hfinish. destruct ((extra =? 2 ^ 63) && _); zdm.
Qed.
End Tails.

Lemma softfloat_roundToUI64_eq (sign : bool) (sig extra mode : Z) (exact : bool) (s : env) :
  0 <= sig < 2 ^ 64 -> 0 <= extra < 2 ^ 64 ->
  softfloat_roundToUI64 sign sig extra mode exact s =
  deliver 0 (2 ^ 64 - 1) 0xFFFFFFFFFFFFFFFF sign (round_sig (mag_direction mode sign) 64 (sig * 2 ^ 64 + extra))
    (exact && negb (extra =? 0)) s.
Proof.
  intros Hs He. rewrite round_sig_extra by assumption.
  set (invalid := bind (softfloat_raiseFlags softfloat_flag_invalid)
    (fun _ => ret (if sign then ui64_fromNegOverflow else ui64_fromPosOverflow))).
  set (finish := fun n => if sign && z2b n then invalid
    else bind (when (z2b extra) (when exact (softfloat_raiseFlags softfloat_flag_inexact))) (fun _ => ret n)).
  assert (Inv : invalid s = (0xFFFFFFFFFFFFFFFF, raised_env softfloat_flag_invalid s)) by (destruct sign; reflexivity).
  assert (Fin : forall n, 0 <= n < 2 ^ 64 -> finish n s = deliver 0 (2 ^ 64 - 1) 0xFFFFFFFFFFFFFFFF sign n (exact && negb (extra =? 0)) s).
  { intros n Hn. unfold finish, deliver. destruct sign; unfold z2b at 1; cbn [andb].
    - destruct (Z.eqb_spec n 0) as [->|N0]; cbn [negb].
      + unfold bind. now rewrite when_when.
      + replace (0 <=? - n) with false by lia. apply Inv.
    - unfold bind. rewrite when_when. now replace ((0 <=? n) && (n <=? 2 ^ 64 - 1)) with true by lia. }
  pose proof (increment_tail 0 (2 ^ 64 - 1) _ sign exact sig extra mode s finish invalid Hs He Inv Fin ltac:(lia) ltac:(lia)) as Inc.
  unfold softfloat_roundToUI64. cbv zeta. fold invalid. cbv zeta in Inc. subst finish. cbv beta in *.
  unfold mag_direction. destruct (Z.eqb_spec mode softfloat_round_near_even) as [E|E].
  { rewrite orb_true_r. change 0x8000000000000000 with (2 ^ 63) in *. destruct (2 ^ 63 <=? extra); [|now apply Fin].
    etransitivity; [apply Inc|]. rewrite andb_true_r. destruct (extra =? 2 ^ 63); reflexivity. }
  rewrite !andb_false_r in Inc. rewrite orb_false_r.
  destruct (Z.eqb_spec mode softfloat_round_near_maxMag) as [E'|E'].
  { change 0x8000000000000000 with (2 ^ 63) in *. destruct (2 ^ 63 <=? extra); [|now apply Fin]. rewrite !andb_false_r. exact Inc. }
  rewrite !andb_false_r. destruct sign.
  - rewrite z2b_lor by lia. unfold z2b at 1 2. rewrite <- negb_andb, negb_involutive.
    destruct (Z.eqb_spec sig 0) as [S0|S0]; cbn [andb]; [destruct (Z.eqb_spec extra 0) as [E0|E0]|].
    + subst. destruct (mode =? softfloat_round_min), exact; cbn; now rewrite raised_env_0.
    + destruct (mode =? softfloat_round_min); [|now apply Fin].
      rewrite Inv. unfold deliver. now replace (0 <=? - (sig + 1)) with false by lia.
    + destruct (mode =? softfloat_round_min); [|now apply Fin].
      rewrite Inv. unfold deliver. destruct (extra =? 0); [now replace (0 <=? - sig) with false by lia|now replace (0 <=? - (sig + 1)) with false by lia].
  - destruct (mode =? softfloat_round_max); cbn [andb]; [|now apply Fin]. unfold z2b at 1.
    destruct (extra =? 0); [now apply Fin|exact Inc].
Qed.

Lemma softfloat_roundToI64_eq (sign : bool) (sig extra mode : Z) (exact : bool) (s : env) :
  0 <= sig < 2 ^ 64 -> 0 <= extra < 2 ^ 64 ->
  softfloat_roundToI64 sign sig extra mode exact s =
  deliver (- 2 ^ 63) (2 ^ 63 - 1) (- 2 ^ 63) sign (round_sig (mag_direction mode sign) 64 (sig * 2 ^ 64 + extra))
    (exact && negb (extra =? 0)) s.
Proof.
  intros Hs He. rewrite round_sig_extra by assumption.
  set (invalid := bind (softfloat_raiseFlags softfloat_flag_invalid)
    (fun _ => ret (if sign then i64_fromNegOverflow else i64_fromPosOverflow))).
  set (finish := fun n => let z := i64 (if sign then u64 (- n) else n) in
    if z2b z && xorb (z <? 0) sign then invalid
    else bind (when (z2b extra) (when exact (softfloat_raiseFlags softfloat_flag_inexact))) (fun _ => ret z)).
  assert (Inv : invalid s = (- 2 ^ 63, raised_env softfloat_flag_invalid s)) by (destruct sign; reflexivity).
  assert (Fin : forall n, 0 <= n < 2 ^ 64 -> finish n s = deliver (- 2 ^ 63) (2 ^ 63 - 1) (- 2 ^ 63) sign n (exact && negb (extra =? 0)) s).
  { intros n Hn. unfold finish, deliver.
    destruct (wrapped_result 64 n sign (or_intror eq_refl) Hn) as [W1 W2]. cbv zeta in *.
    assert (B : 0 <= (if sign then u64 (- n) else n) < 2 ^ 64) by (destruct sign; [apply uwrap_bound; lia|assumption]).
    rewrite (uwrap_small 64 _ B) in W1, W2. clear B.
    change (2 ^ (64 - 1)) with (2 ^ 63) in *. rewrite W1.
    set (ok := (_ <=? _) && (_ <=? _)) in *. destruct ok; cbn [negb]; [|exact Inv].
    unfold bind. rewrite when_when, W2 by reflexivity. reflexivity. }
  pose proof (increment_tail (- 2 ^ 63) (2 ^ 63 - 1) _ sign exact sig extra mode s finish invalid Hs He Inv Fin ltac:(lia) ltac:(lia)) as Inc.
  unfold softfloat_roundToI64. cbv zeta. fold invalid. cbv zeta in Inc. subst finish. cbv beta zeta in *.
  unfold mag_direction. destruct (Z.eqb_spec mode softfloat_round_near_even) as [E|E].
  { rewrite orb_true_r. change 0x8000000000000000 with (2 ^ 63) in *. destruct (2 ^ 63 <=? extra); [|now apply Fin].
    etransitivity; [apply Inc|]. rewrite andb_true_r. destruct (extra =? 2 ^ 63); reflexivity. }
  rewrite !andb_false_r in Inc. rewrite orb_false_r.
  destruct (Z.eqb_spec mode softfloat_round_near_maxMag) as [E'|E'].
  { change 0x8000000000000000 with (2 ^ 63) in *. destruct (2 ^ 63 <=? extra); [|now apply Fin]. rewrite !andb_false_r. exact Inc. }
  rewrite !andb_false_r. unfold z2b at 1.
  replace (if sign then mode =? softfloat_round_min else mode =? softfloat_round_max)
    with (mode =? (if sign then softfloat_round_min else softfloat_round_max)) by (destruct sign; reflexivity).
  destruct (mode =? (if sign then _ else _)); [rewrite andb_true_r|rewrite andb_false_r; now apply Fin].
  destruct (extra =? 0); cbn [negb]; [now apply Fin|exact Inc].
Qed.

(** ** From the rounded fixed-point number to the contract *)
Section Deliver.
Context (f : format) {V : ValidFormat f} (lo hi code a : Z) (d : direction) (exact : bool) (s : env).

Lemma deliver_to_int (g S : Z) (y : R) :
  is_finite f a -> 1 <= g -> same (2 ^ (g - 1)) S y -> mag f (pattern_of f a) = (y * pow2 (- g))%R ->
  to_int_spec lo hi code f s d exact a
    (deliver lo hi code (sign_of f a) (round_sig d g S) (exact && negb (S mod 2 ^ g =? 0)) s).
Proof.
  intros [Ha Fa] Hg HS M. unfold to_int_spec, nanb, infb.
  replace (inf_pattern f <? pattern_of f a) with false by lia. replace (pattern_of f a =? inf_pattern f) with false by lia.
  cbn [orb]. exists (round_sig d g S). pose proof (round_sig_exact g S Hg d y HS) as X. rewrite M. cbv zeta.
  split; [now apply round_sig_rint|]. unfold deliver. destruct ((lo <=? _) && _); [|reflexivity].
  eexists. split; [reflexivity|]. unfold inexact_flag. rewrite <- (Z.eqb_eq (S mod 2 ^ g)) in X.
  destruct exact; cbn [andb]; [|tauto]. destruct (S mod 2 ^ g =? 0); cbn [negb].
  - right. split; [reflexivity|]. right. symmetry. now apply X.
  - left. repeat split; try reflexivity. intros K. symmetry in K. apply X in K. discriminate.
Qed.

Lemma overflow_to_int : is_enc f a ->
  (is_finite f a -> exists N, (IZR N <= mag f (pattern_of f a))%R /\ if sign_of f a then - N < lo else hi < N) ->
  to_int_spec lo hi code f s d exact a (code, raised_env softfloat_flag_invalid s).
Proof.
  intros Ha H. unfold to_int_spec. destruct (nanb f a || infb f a) eqn:C; [reflexivity|].
  apply orb_false_iff in C as [C1 C2]. destruct (H (finite_intro f a Ha C1 C2)) as (N & M & B).
  destruct (rint_above d _ _ M) as (n & Hn & L). exists n. split; [exact Hn|]. cbv zeta.
  replace (_ && _) with false; [reflexivity|]. symmetry. apply andb_false_iff. destruct (sign_of f a); lia.
Qed.

(** Twelve guard bits in one word. *)
Definition fixed12 (S : Z) : Prop :=
  0 <= S < 2 ^ 63 /\
  (is_finite f a /\ same (2 ^ 11) S (mag f (pattern_of f a) * pow2 12) \/
   2 ^ 45 <= S /\ (is_finite f a -> (IZR (2 ^ 33) <= mag f (pattern_of f a))%R)).

Lemma fixed12_to_int (S : Z) : is_enc f a -> hi < 2 ^ 33 -> - 2 ^ 33 < lo -> fixed12 S ->
  to_int_spec lo hi code f s d exact a
    (deliver lo hi code (sign_of f a) (round_sig d 12 S) (exact && negb (S mod 2 ^ 12 =? 0)) s).
Proof.
  intros Ha Hhi Hlo [B [[Fa HS]|[L HN]]].
  - apply deliver_to_int with (y := (mag f (pattern_of f a) * pow2 12)%R); try assumption; [lia|].
    change (- (12)) with (Z.opp 12). rewrite pow2_opp. field. auto.
  - unfold deliver. pose proof (round_sig_between 12 S ltac:(lia) d) as N.
    assert (2 ^ 33 <= S / 2 ^ 12) by zdm. set (n := round_sig d 12 S) in *. clearbody n.
    replace ((lo <=? _) && _) with false by (symmetry; apply andb_false_iff; destruct (sign_of f a); lia).
    apply overflow_to_int; [assumption|]. intros Fa. exists (2 ^ 33). split; [now apply HN|destruct (sign_of f a); lia].
Qed.
End Deliver.

(** A tiny number sits between zero and the first multiple. *)
Lemma same_tiny (g : Z) (y : R) (s : Z) : 2 <= g -> s = 0 /\ y = 0%R \/ s = 1 /\ (0 < y < IZR g)%R -> same g s y.
Proof.
  intros Hg [[-> ->]|[-> Hy]]; [apply (same_exact g 0)|]. intros m.
  assert (C : m <= 0 \/ 1 <= m) by lia. destruct C as [C|C].
  - assert (IZR (m * g) <= 0)%R by (apply IZR_le; nia). split; split; intros; [lra|nia|nia|lra].
  - assert (IZR g <= IZR (m * g))%R by (apply IZR_le; nia). split; split; intros; [nia|lra|lra|nia].
Qed.

Lemma tiny_bound (w k e : Z) : 0 < w < 2 ^ k -> 0 <= k -> k + e <= 0 -> (0 < IZR w * pow2 e < 1)%R.
Proof.
  intros Hw Hk He. assert (0 < IZR w < IZR (2 ^ k))%R by (split; apply IZR_lt; lia). pose proof (pow2_pos e).
  split; [apply Rmult_lt_0_compat; lra|]. apply Rlt_le_trans with (IZR (2 ^ k) * pow2 e)%R; [apply Rmult_lt_compat_r; lra|].
  rewrite <- pow2_IZR, <- pow2_add, <- pow2_0 by lia. now apply pow2_le.
Qed.

(** Shifting everything out of a subnormal number. *)
Lemma same_flushed (g w k e : Z) (x : R) : 2 <= g -> 0 <= w < 2 ^ k -> 0 <= k -> k + e <= 0 -> x = (IZR w * pow2 e)%R ->
  same g (b2z (z2b w)) x.
Proof.
  intros Hg Hw Hk He ->. apply same_tiny; [assumption|]. unfold z2b.
  destruct (Z.eqb_spec w 0) as [->|N]; cbn [negb Z.b2z]; [left; split; [reflexivity|ring]|right; split; [reflexivity|]].
  pose proof (tiny_bound w k e ltac:(lia) Hk He). assert (1 <= IZR g)%R by (apply IZR_le; lia). lra.
Qed.

Lemma large_mag (n w k e : Z) : 2 ^ k <= w -> 0 <= k -> 0 <= n <= k + e -> (IZR (2 ^ n) <= IZR w * pow2 e)%R.
Proof.
  intros Hw Hk Hn. rewrite <- pow2_IZR by lia. apply Rle_trans with (pow2 k * pow2 e)%R.
  - rewrite <- pow2_add. apply pow2_le. lia.
  - apply Rmult_le_compat_r; [left; auto|]. rewrite pow2_IZR by lia. now apply IZR_le.
Qed.

(** ** 32-bit operands *)
Lemma shift_alignment (w k sd : Z) : 0 <= w -> 0 < sd -> w * 2 ^ k < 2 ^ 63 -> 0 <= k ->
  same (2 ^ 11) (jam (w * 2 ^ k) sd) (IZR w * pow2 (k - sd)).
Proof.
  intros Hw Hsd Hb Hk. apply same_pow with (Z.max 1 (0 - sd)); [lia|].
  replace (IZR w * pow2 (k - sd))%R with (IZR (w * 2 ^ k) * pow2 (- sd))%R
    by (rewrite mult_IZR, <- pow2_IZR, Rmult_assoc, <- pow2_add by lia; do 2 f_equal; lia).
  apply same_jam; [lia|lia|]. apply (same_exact 1).
Qed.

Lemma f32_fixed12 (a : Z) : is_enc F32 a ->
  let sig := if z2b (expF32UI a) then fracF32UI a .| 0x00800000 else fracF32UI a in
  let sig64 := u64 (sig << 32) in
  let shiftDist := 0xAA - expF32UI a in
  fixed12 F32 a (if 0 <? shiftDist then softfloat_shiftRightJam64 sig64 shiftDist else sig64).
Proof.
  intros Ha. destruct (F32_fields a Ha) as (_ & He & Hm & P & _).
  pose proof (mag32_fields (expF32UI a) (fracF32UI a) ltac:(lia) Hm) as M. rewrite <- P in M.
  assert (Fin : is_finite F32 a <-> expF32UI a < 0xFF)
    by (unfold is_finite; rewrite P; change (inf_pattern F32) with (0xFF * 2 ^ 23); split; [lia|intros; split; [assumption|lia]]).
  set (e := expF32UI a) in *. set (m := fracF32UI a) in *. clearbody e m. cbv zeta. unfold fixed12. rewrite M.
  replace (if z2b e then m .| 0x00800000 else m) with (if e =? 0 then m else 2 ^ 23 + m)
    by (unfold z2b; destruct (e =? 0); cbn [negb]; [reflexivity|]; symmetry; apply lead32; assumption).
  set (w := if e =? 0 then m else 2 ^ 23 + m).
  assert (W : 0 <= w < 2 ^ 24 /\ (e <> 0 -> 2 ^ 23 <= w)) by (unfold w; destruct (Z.eqb_spec e 0); lia).
  rewrite shl_mul, uwrap_small by lia. destruct (Z.ltb_spec 0 (0xAA - e)) as [L|L].
  - rewrite softfloat_shiftRightJam64_jam by lia.
    split; [split; [apply jam_nonneg; lia|apply jam_bound; lia]|]. left. split; [apply Fin; lia|].
    destruct (Z.eq_dec e 0) as [E|E].
    + rewrite E, (jam_all 64) by lia. replace (z2b (w * 2 ^ 32)) with (z2b w) by (unfold z2b; f_equal; lia).
      apply same_flushed with (k := 24) (e := -137); try lia. rewrite Rmult_assoc, <- pow2_add. reflexivity.
    + rewrite Rmult_assoc, <- pow2_add.
      replace (Z.max e 1 - 1 + emin F32 + 12) with (32 - (0xAA - e)) by (change (emin F32) with (-149); lia).
      apply shift_alignment; lia.
  - split; [lia|]. destruct (Z.eq_dec e 0xAA) as [E|E].
    + left. split; [apply Fin; lia|]. rewrite Rmult_assoc, <- pow2_add.
      replace (Z.max e 1 - 1 + emin F32 + 12) with 32 by (change (emin F32) with (-149); lia).
      rewrite pow2_IZR, <- mult_IZR by lia. apply same_exact.
    + right. split; [lia|]. intros _.
      apply large_mag with (k := 23); [lia|lia|change (emin F32) with (-149); lia].
Qed.

Lemma f32_to_ui32_spec (a mode : Z) (exact : bool) (s : env) : is_enc F32 a ->
  to_int_spec 0 (2 ^ 32 - 1) 0xFFFFFFFF F32 s (mag_direction mode (sign_of F32 a)) exact a (f32_to_ui32 a mode exact s).
Proof.
  intros Ha. pose proof (f32_fixed12 a Ha) as X. unfold f32_to_ui32. rewrite (proj1 (F32_fields a Ha)). cbv zeta in *.
  rewrite softfloat_roundToUI32_eq by apply X. apply fixed12_to_int; try assumption; lia || typeclasses eauto.
Qed.

Lemma f32_to_i32_spec (a mode : Z) (exact : bool) (s : env) : is_enc F32 a ->
  to_int_spec (- 2 ^ 31) (2 ^ 31 - 1) (- 2 ^ 31) F32 s (mag_direction mode (sign_of F32 a)) exact a (f32_to_i32 a mode exact s).
Proof.
  intros Ha. pose proof (f32_fixed12 a Ha) as X. unfold f32_to_i32. rewrite (proj1 (F32_fields a Ha)). cbv zeta in *.
  rewrite softfloat_roundToI32_eq by apply X. apply fixed12_to_int; try assumption; lia || typeclasses eauto.
Qed.

(** ** 64-bit operands *)
Lemma f64_fixed12 (a : Z) : is_enc F64 a ->
  let sig := if z2b (expF64UI a) then fracF64UI a .| 0x0010000000000000 else fracF64UI a in
  let shiftDist := 0x427 - expF64UI a in
  fixed12 F64 a (if 0 <? shiftDist then softfloat_shiftRightJam64 sig shiftDist else sig).
Proof.
  intros Ha. destruct (F64_fields a Ha) as (_ & He & Hm & P & _).
  pose proof (mag64_fields (expF64UI a) (fracF64UI a) ltac:(lia) Hm) as M. rewrite <- P in M.
  assert (Fin : is_finite F64 a <-> expF64UI a < 0x7FF)
    by (unfold is_finite; rewrite P; change (inf_pattern F64) with (0x7FF * 2 ^ 52); split; [lia|intros; split; [assumption|lia]]).
  set (e := expF64UI a) in *. set (m := fracF64UI a) in *. clearbody e m. cbv zeta. unfold fixed12. rewrite M.
  replace (if z2b e then m .| 0x0010000000000000 else m) with (if e =? 0 then m else 2 ^ 52 + m)
    by (unfold z2b; destruct (e =? 0); cbn [negb]; [reflexivity|]; symmetry; apply lead64; assumption).
  set (w := if e =? 0 then m else 2 ^ 52 + m).
  assert (W : 0 <= w < 2 ^ 53 /\ (e <> 0 -> 2 ^ 52 <= w)) by (unfold w; destruct (Z.eqb_spec e 0); lia).
  destruct (Z.ltb_spec 0 (0x427 - e)) as [L|L].
  - rewrite softfloat_shiftRightJam64_jam by lia.
    split; [split; [apply jam_nonneg; lia|apply jam_bound; lia]|]. left. split; [apply Fin; lia|].
    destruct (Z.eq_dec e 0) as [E|E].
    + rewrite E, (jam_all 64) by lia.
      apply same_flushed with (k := 53) (e := -1062); try lia. rewrite Rmult_assoc, <- pow2_add. reflexivity.
    + rewrite Rmult_assoc, <- pow2_add.
      replace (Z.max e 1 - 1 + emin F64 + 12) with (0 - (0x427 - e)) by (change (emin F64) with (-1074); lia).
      pose proof (shift_alignment w 0 (0x427 - e)) as S. rewrite Z.mul_1_r in S. apply S; lia.
  - split; [lia|]. destruct (Z.eq_dec e 0x427) as [E|E].
    + left. split; [apply Fin; lia|]. rewrite Rmult_assoc, <- pow2_add.
      replace (Z.max e 1 - 1 + emin F64 + 12) with 0 by (change (emin F64) with (-1074); lia).
      rewrite pow2_0, Rmult_1_r. apply (same_pow 0); [lia|]. apply (same_exact 1).
    + right. split; [lia|]. intros _.
      apply large_mag with (k := 52); [lia|lia|change (emin F64) with (-1074); lia].
Qed.

Lemma f64_to_ui32_spec (a mode : Z) (exact : bool) (s : env) : is_enc F64 a ->
  to_int_spec 0 (2 ^ 32 - 1) 0xFFFFFFFF F64 s (mag_direction mode (sign_of F64 a)) exact a (f64_to_ui32 a mode exact s).
Proof.
  intros Ha. pose proof (f64_fixed12 a Ha) as X. unfold f64_to_ui32. rewrite (proj1 (F64_fields a Ha)). cbv zeta in *.
  rewrite softfloat_roundToUI32_eq by apply X. apply fixed12_to_int; try assumption; lia || typeclasses eauto.
Qed.

Lemma f64_to_i32_spec (a mode : Z) (exact : bool) (s : env) : is_enc F64 a ->
  to_int_spec (- 2 ^ 31) (2 ^ 31 - 1) (- 2 ^ 31) F64 s (mag_direction mode (sign_of F64 a)) exact a (f64_to_i32 a mode exact s).
Proof.
  intros Ha. pose proof (f64_fixed12 a Ha) as X. unfold f64_to_i32. rewrite (proj1 (F64_fields a Ha)). cbv zeta in *.
  rewrite softfloat_roundToI32_eq by apply X. apply fixed12_to_int; try assumption; lia || typeclasses eauto.
Qed.

(** ** Results of 64 bits: the fraction is a second word *)
Lemma extra_shift (sig dist : Z) (r := softfloat_shiftRightJam64Extra sig 0 dist) :
  0 <= sig < 2 ^ 64 -> 0 < dist ->
  0 <= ue_v r < 2 ^ 64 /\ 0 <= ue_extra r < 2 ^ 64 /\
  same (2 ^ 63) (ue_v r * 2 ^ 64 + ue_extra r) (IZR sig * pow2 (64 - dist)).
Proof.
  intros Hs Hd. subst r. unfold softfloat_shiftRightJam64Extra. destruct (Z.ltb_spec dist 64) as [L|L].
  - cbn [ue_v ue_extra]. change (b2z (z2b 0)) with 0. rewrite Z.lor_0_r, neg_dist, shr_div, shl_mul by lia.
    replace (63 + 1 - dist) with (64 - dist) by lia.
    assert (P : 2 ^ 64 = 2 ^ dist * 2 ^ (64 - dist)) by (rewrite <- Z.pow_add_r by lia; f_equal; lia).
    assert (0 < 2 ^ dist /\ 0 < 2 ^ (64 - dist)) as [P1 P2] by (split; apply Z.pow_pos_nonneg; lia).
    assert (E : u64 (sig * 2 ^ (64 - dist)) = sig mod 2 ^ dist * 2 ^ (64 - dist))
      by (unfold uwrap; rewrite P; apply Z.mul_mod_distr_r; lia).
    pose proof (Z.div_mod sig (2 ^ dist) ltac:(lia)) as D.
    split; [split; [apply Z.div_pos; lia|apply Z.div_lt_upper_bound; nia]|]. split; [apply uwrap_bound; lia|].
    rewrite E. replace (sig / 2 ^ dist * 2 ^ 64 + sig mod 2 ^ dist * 2 ^ (64 - dist)) with (sig * 2 ^ (64 - dist)) by (rewrite P, D at 1; ring).
    rewrite pow2_IZR, <- mult_IZR by lia. apply (same_pow 0); [lia|]. apply (same_exact 1).
  - cbn [ue_v ue_extra]. change (b2z (z2b 0)) with 0. rewrite Z.lor_0_r, Z.mul_0_l, Z.add_0_l.
    destruct (Z.eqb_spec dist 64) as [->|N].
    + change (64 - 64) with 0. rewrite pow2_0, Rmult_1_r. split; [lia|]. split; [lia|].
      apply (same_pow 0); [lia|]. apply (same_exact 1).
    + split; [lia|]. split; [destruct (z2b sig); simpl; lia|].
      apply same_tiny; [lia|]. unfold z2b. destruct (Z.eqb_spec sig 0) as [->|S0]; cbn [negb Z.b2z]; [left; split; [reflexivity|ring]|].
      right. split; [reflexivity|]. replace (64 - dist) with (63 + (1 - dist)) by lia.
      pose proof (tiny_bound sig 64 (1 - dist) ltac:(lia) ltac:(lia) ltac:(lia)) as T.
      rewrite pow2_add, (pow2_IZR 63) by lia. assert (0 < IZR (2 ^ 63))%R by (apply IZR_lt; reflexivity).
      replace (IZR sig * (IZR (2 ^ 63) * pow2 (1 - dist)))%R with (IZR (2 ^ 63) * (IZR sig * pow2 (1 - dist)))%R by ring.
      split; [apply Rmult_lt_0_compat; lra|]. rewrite <- (Rmult_1_r (IZR (2 ^ 63))) at 2. apply Rmult_lt_compat_l; lra.
Qed.

Lemma extra_flush (sig dist : Z) : 64 < dist ->
  softfloat_shiftRightJam64Extra sig 0 dist = {| ue_v := 0; ue_extra := b2z (z2b sig) |}.
Proof.
  intros Hd. unfold softfloat_shiftRightJam64Extra. replace (dist <? 64) with false by lia. replace (dist =? 64) with false by lia.
  change (b2z (z2b 0)) with 0. now rewrite Z.lor_0_r.
Qed.

(** A number as [v + x / 2 ^ 64]. *)
Definition fixed64 (f : format) (a v x : Z) : Prop :=
  is_finite f a /\ 0 <= v < 2 ^ 64 /\ 0 <= x < 2 ^ 64 /\
  same (2 ^ 63) (v * 2 ^ 64 + x) (mag f (pattern_of f a) * pow2 64).

Lemma fixed64_to_int (f : format) (lo hi code a v x : Z) (d : direction) (exact : bool) (s : env) :
  fixed64 f a v x ->
  to_int_spec lo hi code f s d exact a
    (deliver lo hi code (sign_of f a) (round_sig d 64 (v * 2 ^ 64 + x)) (exact && negb (x =? 0)) s).
Proof.
  intros (Fa & Hv & Hx & S).
  replace (x =? 0) with ((v * 2 ^ 64 + x) mod 2 ^ 64 =? 0) by (f_equal; symmetry; apply Z.mod_unique_pos with v; lia).
  apply deliver_to_int with (y := (mag f (pattern_of f a) * pow2 64)%R); [assumption|lia|exact S|].
  rewrite pow2_opp. field. auto.
Qed.

Lemma f32_fixed64 (a : Z) : is_enc F32 a -> expF32UI a <= 0xBE ->
  let sig := if z2b (expF32UI a) then fracF32UI a .| 0x00800000 else fracF32UI a in
  let sig64 := u64 (sig << 40) in
  let shiftDist := 0xBE - expF32UI a in
  let r := if z2b shiftDist then
             let sig64Extra := softfloat_shiftRightJam64Extra sig64 0 shiftDist in
             (ue_v sig64Extra, ue_extra sig64Extra)
           else (sig64, 0) in
  fixed64 F32 a (fst r) (snd r).
Proof.
  intros Ha. destruct (F32_fields a Ha) as (_ & He & Hm & P & _).
  pose proof (mag32_fields (expF32UI a) (fracF32UI a) ltac:(lia) Hm) as M. rewrite <- P in M.
  assert (Fin : expF32UI a < 0xFF -> is_finite F32 a)
    by (unfold is_finite; rewrite P; change (inf_pattern F32) with (0xFF * 2 ^ 23); split; [assumption|lia]).
  set (e := expF32UI a) in *. set (m := fracF32UI a) in *. clearbody e m. cbv zeta. unfold fixed64. rewrite M.
  replace (if z2b e then m .| 0x00800000 else m) with (if e =? 0 then m else 2 ^ 23 + m)
    by (unfold z2b; destruct (e =? 0); cbn [negb]; [reflexivity|]; symmetry; apply lead32; assumption).
  set (w := if e =? 0 then m else 2 ^ 23 + m).
  assert (W : 0 <= w < 2 ^ 24 /\ (e <> 0 -> 2 ^ 23 <= w)) by (unfold w; destruct (Z.eqb_spec e 0); lia). clearbody w.
  intros Hbe. split; [apply Fin; lia|]. rewrite shl_mul, uwrap_small by lia.
  assert (E40 : (IZR w * pow2 40 = IZR (w * 2 ^ 40))%R) by (rewrite mult_IZR, pow2_IZR by lia; reflexivity).
  change (z2b (0xBE - e)) with (negb (0xBE - e =? 0)). destruct (Z.eqb_spec (0xBE - e) 0) as [E|E]; cbn [negb fst snd].
  - split; [lia|]. split; [lia|]. rewrite Rmult_assoc, <- pow2_add.
    replace (Z.max e 1 - 1 + emin F32 + 64) with (40 + 64) by (change (emin F32) with (-149); lia).
    rewrite pow2_add, <- Rmult_assoc, E40, pow2_IZR, <- mult_IZR, Z.add_0_r by lia.
    apply (same_pow 0); [lia|]. apply (same_exact 1).
  - destruct (Z.eq_dec e 0) as [E0|E0].
    + rewrite extra_flush by lia. cbn [ue_v ue_extra]. split; [lia|]. split; [destruct (z2b _); simpl; lia|].
      replace (z2b (w * 2 ^ 40)) with (z2b w) by (unfold z2b; f_equal; lia).
      apply same_flushed with (k := 24) (e := -85); try lia. rewrite E0, Rmult_assoc, <- pow2_add. reflexivity.
    + destruct (extra_shift (w * 2 ^ 40) (0xBE - e) ltac:(lia) ltac:(lia)) as (B1 & B2 & S).
      split; [exact B1|]. split; [exact B2|]. rewrite <- E40, Rmult_assoc, <- pow2_add in S. rewrite Rmult_assoc, <- pow2_add.
      replace (Z.max e 1 - 1 + emin F32 + 64) with (40 + (64 - (0xBE - e))) by (change (emin F32) with (-149); lia). exact S.
Qed.

Lemma f32_huge (a n : Z) : is_enc F32 a -> 0 <= n <= expF32UI a - 127 -> (IZR (2 ^ n) <= mag F32 (pattern_of F32 a))%R.
Proof.
  intros Ha Hn. destruct (F32_fields a Ha) as (_ & He & Hm & P & _).
  rewrite P, mag32_fields by lia. replace (expF32UI a =? 0) with false by lia.
  apply large_mag with (k := 23); [lia|lia|change (emin F32) with (-149); lia].
Qed.

Lemma f32_to_ui64_spec (a mode : Z) (exact : bool) (s : env) : is_enc F32 a ->
  to_int_spec 0 (2 ^ 64 - 1) 0xFFFFFFFFFFFFFFFF F32 s (mag_direction mode (sign_of F32 a)) exact a (f32_to_ui64 a mode exact s).
Proof.
  intros Ha. unfold f32_to_ui64. rewrite (proj1 (F32_fields a Ha)). cbv zeta. destruct (Z.ltb_spec (0xBE - expF32UI a) 0) as [L|L].
  - match goal with |- context [ret ?c] => replace c with 0xFFFFFFFFFFFFFFFF by (destruct (_ && _); [reflexivity|destruct (sign_of F32 a); reflexivity]) end.
    apply (overflow_to_int F32); [assumption|]. intros _. exists (2 ^ 64). split; [apply f32_huge; [assumption|lia]|destruct (sign_of F32 a); lia].
  - pose proof (f32_fixed64 a Ha ltac:(lia)) as X. cbv zeta in X.
    destruct (if z2b (0xBE - _) then _ else _) as [v x]. cbn [fst snd] in X.
    rewrite softfloat_roundToUI64_eq by apply X. now apply fixed64_to_int.
Qed.

Lemma f32_to_i64_spec (a mode : Z) (exact : bool) (s : env) : is_enc F32 a ->
  to_int_spec (- 2 ^ 63) (2 ^ 63 - 1) (- 2 ^ 63) F32 s (mag_direction mode (sign_of F32 a)) exact a (f32_to_i64 a mode exact s).
Proof.
  intros Ha. unfold f32_to_i64. rewrite (proj1 (F32_fields a Ha)). cbv zeta. destruct (Z.ltb_spec (0xBE - expF32UI a) 0) as [L|L].
  - match goal with |- context [ret ?c] => replace c with (- 2 ^ 63) by (destruct (_ && _); [reflexivity|destruct (sign_of F32 a); reflexivity]) end.
    apply (overflow_to_int F32); [assumption|]. intros _. exists (2 ^ 64). split; [apply f32_huge; [assumption|lia]|destruct (sign_of F32 a); lia].
  - pose proof (f32_fixed64 a Ha ltac:(lia)) as X. cbv zeta in X.
    destruct (if z2b (0xBE - _) then _ else _) as [v x]. cbn [fst snd] in X.
    rewrite softfloat_roundToI64_eq by apply X. now apply fixed64_to_int.
Qed.

Definition sig64_of (a : Z) : Z := if z2b (expF64UI a) then fracF64UI a .| 0x0010000000000000 else fracF64UI a.

Lemma f64_fixed64 (a : Z) : is_enc F64 a -> let shiftDist := 0x433 - expF64UI a in
  (-11 <= shiftDist <= 0 -> fixed64 F64 a (u64 (sig64_of a << (- shiftDist))) 0) /\
  (0 < shiftDist ->
     let r := softfloat_shiftRightJam64Extra (sig64_of a) 0 shiftDist in fixed64 F64 a (ue_v r) (ue_extra r)) /\
  (shiftDist < -11 -> (IZR (2 ^ 64) <= mag F64 (pattern_of F64 a))%R).
Proof.
  intros Ha. destruct (F64_fields a Ha) as (_ & He & Hm & P & _).
  pose proof (mag64_fields (expF64UI a) (fracF64UI a) ltac:(lia) Hm) as M. rewrite <- P in M.
  assert (Fin : expF64UI a < 0x7FF -> is_finite F64 a)
    by (unfold is_finite; rewrite P; change (inf_pattern F64) with (0x7FF * 2 ^ 52); split; [assumption|lia]).
  unfold sig64_of.
  set (e := expF64UI a) in *. set (m := fracF64UI a) in *. clearbody e m. cbv zeta. unfold fixed64. rewrite M.
  replace (if z2b e then m .| 0x0010000000000000 else m) with (if e =? 0 then m else 2 ^ 52 + m)
    by (unfold z2b; destruct (e =? 0); cbn [negb]; [reflexivity|]; symmetry; apply lead64; assumption).
  set (w := if e =? 0 then m else 2 ^ 52 + m).
  assert (W : 0 <= w < 2 ^ 53 /\ (e <> 0 -> 2 ^ 52 <= w)) by (unfold w; destruct (Z.eqb_spec e 0); lia). clearbody w.
  split; [|split]; intros L.
  - assert (B : 1 <= 2 ^ (- (0x433 - e)) <= 2 ^ 11) by (split; [apply (Z.pow_le_mono_r 2 0)|apply Z.pow_le_mono_r]; lia).
    assert (0 <= w * 2 ^ (- (0x433 - e)) < 2 ^ 64) by nia.
    rewrite shl_mul, uwrap_small by lia. split; [apply Fin; lia|]. split; [assumption|]. split; [lia|].
    rewrite Rmult_assoc, <- pow2_add.
    replace (Z.max e 1 - 1 + emin F64 + 64) with (- (0x433 - e) + 64) by (change (emin F64) with (-1074); lia).
    rewrite pow2_add, (pow2_IZR (- _)), (pow2_IZR 64), <- !mult_IZR, Z.add_0_r, Z.mul_assoc by lia.
    apply (same_pow 0); [lia|]. apply (same_exact 1).
  - split; [apply Fin; lia|]. destruct (Z.eq_dec e 0) as [E0|E0].
    + rewrite extra_flush by lia. cbn [ue_v ue_extra]. split; [lia|]. split; [destruct (z2b _); simpl; lia|].
      apply same_flushed with (k := 53) (e := -1010); try lia. rewrite E0, Rmult_assoc, <- pow2_add. reflexivity.
    + destruct (extra_shift w (0x433 - e) ltac:(lia) ltac:(lia)) as (B1 & B2 & S).
      split; [exact B1|]. split; [exact B2|]. rewrite Rmult_assoc, <- pow2_add.
      replace (Z.max e 1 - 1 + emin F64 + 64) with (64 - (0x433 - e)) by (change (emin F64) with (-1074); lia). exact S.
  - apply large_mag with (k := 52); [lia|lia|change (emin F64) with (-1074); lia].
Qed.

Lemma f64_to_ui64_spec (a mode : Z) (exact : bool) (s : env) : is_enc F64 a ->
  to_int_spec 0 (2 ^ 64 - 1) 0xFFFFFFFFFFFFFFFF F64 s (mag_direction mode (sign_of F64 a)) exact a (f64_to_ui64 a mode exact s).
Proof.
  intros Ha. unfold f64_to_ui64. rewrite (proj1 (F64_fields a Ha)). cbv zeta.
  destruct (f64_fixed64 a Ha) as (X1 & X2 & X3). cbv zeta in *. fold (sig64_of a).
  destruct (Z.leb_spec (0x433 - expF64UI a) 0); [destruct (Z.ltb_spec (0x433 - expF64UI a) (-11))|].
  - match goal with |- context [ret ?c] => replace c with 0xFFFFFFFFFFFFFFFF by (destruct (_ && _); [reflexivity|destruct (sign_of F64 a); reflexivity]) end.
    apply (overflow_to_int F64); [assumption|]. intros _. exists (2 ^ 64). split; [now apply X3|destruct (sign_of F64 a); lia].
  - rewrite softfloat_roundToUI64_eq by (try apply X1; lia). apply fixed64_to_int, X1. lia.
  - rewrite softfloat_roundToUI64_eq by (apply X2; lia). apply fixed64_to_int, X2. lia.
Qed.

Lemma f64_to_i64_spec (a mode : Z) (exact : bool) (s : env) : is_enc F64 a ->
  to_int_spec (- 2 ^ 63) (2 ^ 63 - 1) (- 2 ^ 63) F64 s (mag_direction mode (sign_of F64 a)) exact a (f64_to_i64 a mode exact s).
Proof.
  intros Ha. unfold f64_to_i64. rewrite (proj1 (F64_fields a Ha)). cbv zeta.
  destruct (f64_fixed64 a Ha) as (X1 & X2 & X3). cbv zeta in *. fold (sig64_of a).
  destruct (Z.leb_spec (0x433 - expF64UI a) 0); [destruct (Z.ltb_spec (0x433 - expF64UI a) (-11))|].
  - match goal with |- context [ret ?c] => replace c with (- 2 ^ 63) by (destruct (_ && _); [reflexivity|destruct (sign_of F64 a); reflexivity]) end.
    apply (overflow_to_int F64); [assumption|]. intros _. exists (2 ^ 64). split; [now apply X3|destruct (sign_of F64 a); lia].
  - rewrite softfloat_roundToI64_eq by (try apply X1; lia). apply fixed64_to_int, X1. lia.
  - rewrite softfloat_roundToI64_eq by (apply X2; lia). apply fixed64_to_int, X2. lia.
Qed.
