(* ===== verification/Truncate.v ===== *)
(** Truncating conversions to integers. *)
From Stdlib Require Import ZArith Bool Lia Reals Lra.
From S2P Require Import Prelude Ieee Rounding RoundPack Softfloat Primitives Machine Contract F32 F32Round F32Mul F64 F64Round F64Mul Convert ToInt.
Local Open Scope Z_scope.
Local Open Scope c_scope.

(** Dropping the low bits of the significand. *)
Lemma truncated_to_int (f : format) (lo hi code a w sd v : Z) (exact inexact : bool) (s : env) :
  is_finite f a -> 0 <= sd -> mag f (pattern_of f a) = (IZR w * pow2 (- sd))%R ->
  v = (if sign_of f a then - (w / 2 ^ sd) else w / 2 ^ sd) -> lo <= v <= hi -> inexact = negb (w mod 2 ^ sd =? 0) ->
  to_int_spec lo hi code f s TowardZero exact a
    (v, raised_env (if exact && inexact then softfloat_flag_inexact else 0) s).
Proof.
  intros [Ha Fa] Hsd M -> Hv ->. unfold to_int_spec, nanb, infb.
  replace (inf_pattern f <? pattern_of f a) with false by lia. replace (pattern_of f a =? inf_pattern f) with false by lia.
  cbn [orb]. exists (w / 2 ^ sd). cbv zeta. replace (_ && _) with true by lia. rewrite M.
  assert (P : 0 < 2 ^ sd) by (apply Z.pow_pos_nonneg; lia).
  assert (Y : (IZR w * pow2 (- sd) = IZR w / IZR (2 ^ sd))%R) by (rewrite pow2_opp, pow2_IZR by lia; reflexivity).
  assert (Y' : (IZR w / IZR (2 ^ sd) * IZR (2 ^ sd) = IZR w)%R) by (field; apply not_0_IZR; lia).
  rewrite Y. pose proof (Z.div_mod w (2 ^ sd) ltac:(lia)) as D. pose proof (Z.mod_pos_bound w (2 ^ sd) P) as B.
  assert (E : IZR (w / 2 ^ sd) = (IZR w / IZR (2 ^ sd))%R <-> w mod 2 ^ sd = 0).
  { split; intros K.
    - rewrite <- K, <- mult_IZR in Y'. apply eq_IZR in Y'. lia.
    - rewrite K, Z.add_0_r in D. rewrite D at 2. rewrite mult_IZR. field. apply not_0_IZR. lia. }
  split.
  - simpl. split.
    + apply Rnot_lt_le. intros K. apply (ratio_compare w (2 ^ sd) (w / 2 ^ sd) P) in K. lia.
    + rewrite <- plus_IZR. apply (ratio_compare w (2 ^ sd) _ P). lia.
  - eexists. split; [reflexivity|]. unfold inexact_flag. rewrite E.
    destruct exact; cbn [andb]; [|tauto]. destruct (Z.eqb_spec (w mod 2 ^ sd) 0); cbn [negb]; tauto.
Qed.

(** ** The operands *)
Lemma f32_view (a : Z) (e := expF32UI a) (m := fracF32UI a) (w := if e =? 0 then m else 2 ^ 23 + m) : is_enc F32 a ->
  0 <= e < 2 ^ 8 /\ 0 <= m < 2 ^ 23 /\ 0 <= w < 2 ^ 24 /\ (e <> 0 -> w = 2 ^ 23 + m /\ m .| 0x00800000 = w) /\
  mag F32 (pattern_of F32 a) = (IZR w * pow2 (- (150 - Z.max e 1)))%R /\ z2b (e .| m) = negb (w =? 0) /\
  (e < 0xFF -> is_finite F32 a).
Proof.
  intros Ha. destruct (F32_fields a Ha) as (_ & He & Hm & P & _). fold e in He, P. fold m in Hm, P.
  split; [exact He|]. split; [exact Hm|]. split; [unfold w; destruct (Z.eqb_spec e 0); lia|]. split.
  { intros N. unfold w. destruct (Z.eqb_spec e 0); [lia|]. split; [reflexivity|now apply lead32]. }
  split; [|split].
  - rewrite P, mag32_fields by lia. fold w. do 2 f_equal. change (emin F32) with (-149). lia.
  - rewrite z2b_lor by lia. unfold z2b, w. destruct (Z.eqb_spec e 0); cbn [negb orb]; [reflexivity|lia].
  - intros L. split; [assumption|]. rewrite P. change (inf_pattern F32) with (0xFF * 2 ^ 23). lia.
Qed.

Lemma f64_view (a : Z) (e := expF64UI a) (m := fracF64UI a) (w := if e =? 0 then m else 2 ^ 52 + m) : is_enc F64 a ->
  0 <= e < 2 ^ 11 /\ 0 <= m < 2 ^ 52 /\ 0 <= w < 2 ^ 53 /\ (e <> 0 -> w = 2 ^ 52 + m /\ m .| 0x0010000000000000 = w) /\
  mag F64 (pattern_of F64 a) = (IZR w * pow2 (- (1075 - Z.max e 1)))%R /\ z2b (e .| m) = negb (w =? 0) /\
  (e < 0x7FF -> is_finite F64 a).
Proof.
  intros Ha. destruct (F64_fields a Ha) as (_ & He & Hm & P & _). fold e in He, P. fold m in Hm, P.
  split; [exact He|]. split; [exact Hm|]. split; [unfold w; destruct (Z.eqb_spec e 0); lia|]. split.
  { intros N. unfold w. destruct (Z.eqb_spec e 0); [lia|]. split; [reflexivity|now apply lead64]. }
  split; [|split].
  - rewrite P, mag64_fields by lia. fold w. do 2 f_equal. change (emin F64) with (-1074). lia.
  - rewrite z2b_lor by lia. unfold z2b, w. destruct (Z.eqb_spec e 0); cbn [negb orb]; [reflexivity|lia].
  - intros L. split; [assumption|]. rewrite P. change (inf_pattern F64) with (0x7FF * 2 ^ 52). lia.
Qed.

(** Below one. *)
Lemma below_one (f : format) (lo hi code a w k e : Z) (exact : bool) (s : env) :
  is_finite f a -> 0 <= w < 2 ^ k -> 0 <= k <= e -> mag f (pattern_of f a) = (IZR w * pow2 (- e))%R -> lo <= 0 <= hi ->
  to_int_spec lo hi code f s TowardZero exact a
    (bind (when (exact && negb (w =? 0)) (softfloat_raiseFlags softfloat_flag_inexact)) (fun _ => ret 0) s).
Proof.
  intros Fa Hw Hk M Hr. assert (L : 2 ^ k <= 2 ^ e) by (apply Z.pow_le_mono_r; lia).
  unfold bind. rewrite when_raise. apply truncated_to_int with (w := w) (sd := e); try assumption; try lia.
  - rewrite Z.div_small by lia. destruct (sign_of f a); reflexivity.
  - rewrite Z.mod_small by lia. reflexivity.
Qed.

(** The test by shifting back. *)
Lemma shifted_back (z sd : Z) : 0 <= sd -> 0 <= z < 2 ^ 64 ->
  negb (u64 ((z / 2 ^ sd) << sd) =? z) = negb (z mod 2 ^ sd =? 0).
Proof.
  intros Hsd Hz. assert (P : 0 < 2 ^ sd) by (apply Z.pow_pos_nonneg; lia).
  pose proof (Z.div_mod z (2 ^ sd) ltac:(lia)) as D. pose proof (Z.mod_pos_bound z (2 ^ sd) P) as B.
  assert (0 <= z / 2 ^ sd) by (apply Z.div_pos; lia).
  rewrite shl_mul, uwrap_small by nia. f_equal. apply eq_true_iff_eq. rewrite !Z.eqb_eq. lia.
Qed.

(** Out of range. *)
Lemma beyond_range (f : format) {V : ValidFormat f} (lo hi code a n : Z) (exact : bool) (s : env) (k : Z) :
  is_enc f a -> (is_finite f a -> (IZR n <= mag f (pattern_of f a))%R) -> (if sign_of f a then - n < lo else hi < n) ->
  k = code -> to_int_spec lo hi code f s TowardZero exact a
    (bind (softfloat_raiseFlags softfloat_flag_invalid) (fun _ => ret k) s).
Proof.
  intros Ha H B ->. apply (overflow_to_int f); [assumption|]. intros Fa. exists n. split; [now apply H|assumption].
Qed.

(** A scaled significand as a lower bound. *)
Lemma scaled_bound (w n k e : Z) : 0 <= k -> e = k -> n <= w * 2 ^ k -> (IZR n <= IZR w * pow2 e)%R.
Proof. intros Hk -> Hn. rewrite pow2_IZR, <- mult_IZR by lia. now apply IZR_le. Qed.

Lemma fixed_bound (w n k e : Z) : 0 <= k -> e = - k -> n * 2 ^ k <= w -> (IZR n <= IZR w * pow2 e)%R.
Proof.
  intros Hk -> Hn. apply IZR_le in Hn. rewrite mult_IZR, <- pow2_IZR in Hn by lia. rewrite pow2_opp.
  apply Rmult_le_reg_r with (pow2 k); [auto|]. rewrite Rmult_assoc, Rinv_l by auto. lra.
Qed.

Lemma f32_at_least (a n : Z) : is_enc F32 a -> 0 <= n <= expF32UI a - 127 -> (IZR (2 ^ n) <= mag F32 (pattern_of F32 a))%R.
Proof. exact (f32_huge a n). Qed.

Lemma f64_at_least (a n : Z) : is_enc F64 a -> 0 <= n <= expF64UI a - 1023 -> (IZR (2 ^ n) <= mag F64 (pattern_of F64 a))%R.
Proof.
  intros Ha Hn. destruct (f64_view a Ha) as (He & Hm & Hw & Hn0 & -> & _). destruct (Hn0 ltac:(lia)) as [-> _].
  apply large_mag with (k := 52); lia.
Qed.

Ltac codes := repeat match goal with |- context [if ?b then _ else _] => destruct b end; reflexivity.

Lemma f32_to_ui32_r_minMag_spec (a : Z) (exact : bool) (s : env) : is_enc F32 a ->
  to_int_spec 0 (2 ^ 32 - 1) 0xFFFFFFFF F32 s TowardZero exact a (f32_to_ui32_r_minMag a exact s).
Proof.
  intros Ha. destruct (f32_view a Ha) as (He & Hm & Hw & Hn & M & Z0 & Fin). pose proof (f32_at_least a) as Big.
  unfold f32_to_ui32_r_minMag. rewrite (proj1 (F32_fields a Ha)), Z0. cbv zeta.
  set (e := expF32UI a) in *. set (m := fracF32UI a) in *. set (w := if e =? 0 then m else 2 ^ 23 + m) in *.
  destruct (Z.leb_spec 32 (0x9E - e)) as [L|L].
  { apply below_one with (k := 24) (e := 150 - Z.max e 1); try assumption; try lia. apply Fin. lia. }
  destruct (Hn ltac:(lia)) as [W ->]. clearbody w e m. destruct (sign_of F32 a) eqn:Sg; cbn [orb].
  { apply beyond_range with (n := 1); [typeclasses eauto|assumption| |rewrite Sg; lia|codes].
    intros _. apply (Big 0 Ha). lia. }
  destruct (Z.ltb_spec (0x9E - e) 0) as [L2|L2].
  { apply beyond_range with (n := 2 ^ 32); [typeclasses eauto|assumption| |rewrite Sg; lia|codes].
    intros _. apply (Big 32 Ha). lia. }
  assert (P : 0 < 2 ^ (0x9E - e)) by (apply Z.pow_pos_nonneg; lia).
  rewrite (shl_mul w), (uwrap_small 64 (w * _)), shr_div, shifted_back by lia. unfold bind. rewrite when_raise.
  apply truncated_to_int with (w := w * 2 ^ 8) (sd := 0x9E - e); try lia; try reflexivity; [apply Fin; lia| |rewrite Sg; reflexivity|].
  - rewrite M, mult_IZR, <- (pow2_IZR 8), Rmult_assoc, <- pow2_add by lia. do 2 f_equal. lia.
  - split; [apply Z.div_pos; lia|]. apply Z.le_trans with (w * 2 ^ 8); [apply Z.div_le_upper_bound; nia|lia].
Qed.

Lemma f32_to_i32_r_minMag_spec (a : Z) (exact : bool) (s : env) : is_enc F32 a ->
  to_int_spec (- 2 ^ 31) (2 ^ 31 - 1) (- 2 ^ 31) F32 s TowardZero exact a (f32_to_i32_r_minMag a exact s).
Proof.
  intros Ha. destruct (f32_view a Ha) as (He & Hm & Hw & Hn & M & Z0 & Fin). pose proof (f32_at_least a) as Big.
  destruct (F32_fields a Ha) as (Sa & _ & _ & P & _).
  unfold f32_to_i32_r_minMag. rewrite Sa, Z0. cbv zeta.
  set (e := expF32UI a) in *. set (m := fracF32UI a) in *. set (w := if e =? 0 then m else 2 ^ 23 + m) in *.
  destruct (Z.leb_spec 32 (0x9E - e)) as [L|L].
  { apply below_one with (k := 24) (e := 150 - Z.max e 1); try assumption; try lia. apply Fin. lia. }
  destruct (Hn ltac:(lia)) as [W ->]. clearbody w e m. destruct (Z.leb_spec (0x9E - e) 0) as [L2|L2].
  { change (packToF32UI true 0x9E 0) with 0xCF000000. destruct (Z.eqb_spec a 0xCF000000) as [E|E].
    - subst a. change (pattern_of F32 0xCF000000) with (0x9E * 2 ^ 23 + 0) in P. assert (e = 0x9E /\ m = 0) as [-> ->] by lia.
      rewrite W in *. unfold ret.
      replace s with (raised_env (if exact && false then softfloat_flag_inexact else 0) s) at 2
        by (rewrite andb_false_r; apply raised_env_0).
      apply truncated_to_int with (w := 2 ^ 31) (sd := 0); try reflexivity; try lia; [apply Fin; lia|].
      rewrite M. change (- (150 - Z.max 0x9E 1)) with 8. change (- 0) with 0. rewrite (pow2_IZR 8), <- mult_IZR, pow2_0, Rmult_1_r by lia. reflexivity.
    - apply beyond_range with (n := if sign_of F32 a then 2 ^ 31 + 1 else 2 ^ 31); [typeclasses eauto|assumption| |destruct (sign_of F32 a); lia|codes].
      intros _. destruct (sign_of F32 a) eqn:Sg; [|apply (Big 31 Ha); lia].
      assert (e = 0x9E /\ 0 < m \/ 0x9F <= e) as [[-> M0]|E2].
      { destruct (F32_fields a Ha) as (_ & _ & _ & _ & A). rewrite Sg, P in A. unfold with_sign in A.
        change (sign_weight F32) with (2 ^ 31) in A. cbn [Z.b2z] in A. lia. }
      + rewrite M, W. apply scaled_bound with (k := 8); lia.
      + apply Rle_trans with (IZR (2 ^ 32)); [apply IZR_le; lia|apply (Big 32 Ha); lia]. }
  assert (P2 : 2 <= 2 ^ (0x9E - e)) by (apply (Z.pow_le_mono_r 2 1); lia).
  assert (Q : 0 <= w * 2 ^ 8 / 2 ^ (0x9E - e) < 2 ^ 31) by (split; [apply Z.div_pos; lia|apply Z.div_lt_upper_bound; nia]).
  rewrite (shl_mul w), (uwrap_small 64 (w * _)), shr_div, swrap_small, (uwrap_small 64 (_ / _)), shifted_back by fmt_lia.
  unfold bind. rewrite when_raise.
  apply truncated_to_int with (w := w * 2 ^ 8) (sd := 0x9E - e); try lia; try reflexivity; [apply Fin; lia| |destruct (sign_of F32 a); lia].
  rewrite M, mult_IZR, <- (pow2_IZR 8), Rmult_assoc, <- pow2_add by lia. do 2 f_equal. lia.
Qed.

(** The test on the bits shifted out of the word. *)
Lemma lost_bits32 (w sd : Z) : 0 <= w < 2 ^ 24 -> 0 <= sd < 64 ->
  (40 - sd <? 0) && z2b (u32 (u64 (w << ((40 - sd) .& 31)))) = negb (w * 2 ^ 40 mod 2 ^ sd =? 0).
Proof.
  intros Hw Hsd. destruct (Z.ltb_spec (40 - sd) 0) as [L|L]; cbn [andb].
  - rewrite (land_low _ 31 5) by (reflexivity || lia).
    replace ((40 - sd) mod 2 ^ 5) with (32 - (sd - 40)) by (apply Z.mod_unique_pos with (-1); lia).
    replace (u32 (u64 (w << (32 - (sd - 40))))) with (u32 (w << (32 - (sd - 40))))
      by (symmetry; unfold uwrap; apply Z.mod_mod_divide; exists (2 ^ 32); reflexivity).
    unfold z2b. rewrite shl_wrap_zero by lia. f_equal.
    replace (2 ^ sd) with (2 ^ (sd - 40) * 2 ^ 40) by (rewrite <- Z.pow_add_r by lia; f_equal; lia).
    assert (0 < 2 ^ (sd - 40)) by (apply Z.pow_pos_nonneg; lia).
    rewrite Z.mul_mod_distr_r by lia. apply eq_true_iff_eq. rewrite !Z.eqb_eq. lia.
  - replace (2 ^ 40) with (2 ^ (40 - sd) * 2 ^ sd) by (rewrite <- Z.pow_add_r by lia; f_equal; lia).
    rewrite Z.mul_assoc, Z.mod_mul by (apply Z.pow_nonzero; lia). reflexivity.
Qed.

Lemma scaled40 (w sd e : Z) : 1 <= e -> sd = 0xBE - e ->
  (IZR w * pow2 (- (150 - Z.max e 1)) = IZR (w * 2 ^ 40) * pow2 (- sd))%R.
Proof.
  intros He ->. rewrite mult_IZR, <- (pow2_IZR 40), Rmult_assoc, <- pow2_add by lia. do 2 f_equal. lia.
Qed.

Lemma f32_to_ui64_r_minMag_spec (a : Z) (exact : bool) (s : env) : is_enc F32 a ->
  to_int_spec 0 (2 ^ 64 - 1) 0xFFFFFFFFFFFFFFFF F32 s TowardZero exact a (f32_to_ui64_r_minMag a exact s).
Proof.
  intros Ha. destruct (f32_view a Ha) as (He & Hm & Hw & Hn & M & Z0 & Fin). pose proof (f32_at_least a) as Big.
  unfold f32_to_ui64_r_minMag. rewrite (proj1 (F32_fields a Ha)), Z0. cbv zeta.
  set (e := expF32UI a) in *. set (m := fracF32UI a) in *. set (w := if e =? 0 then m else 2 ^ 23 + m) in *.
  destruct (Z.leb_spec 64 (0xBE - e)) as [L|L].
  { apply below_one with (k := 24) (e := 150 - Z.max e 1); try assumption; try lia. apply Fin. lia. }
  destruct (Hn ltac:(lia)) as [W ->]. clearbody w e m. destruct (sign_of F32 a) eqn:Sg; cbn [orb].
  { apply beyond_range with (n := 1); [typeclasses eauto|assumption| |rewrite Sg; lia|codes].
    intros _. apply (Big 0 Ha). lia. }
  destruct (Z.ltb_spec (0xBE - e) 0) as [L2|L2].
  { apply beyond_range with (n := 2 ^ 64); [typeclasses eauto|assumption| |rewrite Sg; lia|codes].
    intros _. apply (Big 64 Ha). lia. }
  rewrite <- (andb_assoc exact), (lost_bits32 w) by lia.
  assert (P : 0 < 2 ^ (0xBE - e)) by (apply Z.pow_pos_nonneg; lia).
  rewrite (shl_mul w 40), (uwrap_small 64 (w * _)), shr_div by lia. unfold bind. rewrite when_raise.
  apply truncated_to_int with (w := w * 2 ^ 40) (sd := 0xBE - e); try lia; try reflexivity; [apply Fin; lia| |rewrite Sg; reflexivity|].
  - rewrite M. apply scaled40; lia.
  - split; [apply Z.div_pos; lia|]. apply Z.le_trans with (w * 2 ^ 40); [apply Z.div_le_upper_bound; nia|lia].
Qed.

Lemma f32_to_i64_r_minMag_spec (a : Z) (exact : bool) (s : env) : is_enc F32 a ->
  to_int_spec (- 2 ^ 63) (2 ^ 63 - 1) (- 2 ^ 63) F32 s TowardZero exact a (f32_to_i64_r_minMag a exact s).
Proof.
  intros Ha. destruct (f32_view a Ha) as (He & Hm & Hw & Hn & M & Z0 & Fin). pose proof (f32_at_least a) as Big.
  destruct (F32_fields a Ha) as (Sa & _ & _ & P & _).
  unfold f32_to_i64_r_minMag. rewrite Sa, Z0. cbv zeta.
  set (e := expF32UI a) in *. set (m := fracF32UI a) in *. set (w := if e =? 0 then m else 2 ^ 23 + m) in *.
  destruct (Z.leb_spec 64 (0xBE - e)) as [L|L].
  { apply below_one with (k := 24) (e := 150 - Z.max e 1); try assumption; try lia. apply Fin. lia. }
  destruct (Hn ltac:(lia)) as [W ->]. clearbody w e m. destruct (Z.leb_spec (0xBE - e) 0) as [L2|L2].
  { change (packToF32UI true 0xBE 0) with 0xDF000000. destruct (Z.eqb_spec a 0xDF000000) as [E|E].
    - subst a. change (pattern_of F32 0xDF000000) with (0xBE * 2 ^ 23 + 0) in P. assert (e = 0xBE /\ m = 0) as [-> ->] by lia.
      rewrite W in *. unfold ret.
      replace s with (raised_env (if exact && false then softfloat_flag_inexact else 0) s) at 2
        by (rewrite andb_false_r; apply raised_env_0).
      apply truncated_to_int with (w := 2 ^ 63) (sd := 0); try reflexivity; try lia; [apply Fin; lia|].
      rewrite M. change (- (150 - Z.max 0xBE 1)) with 40. change (- 0) with 0. rewrite (pow2_IZR 40), <- mult_IZR, pow2_0, Rmult_1_r by lia. reflexivity.
    - apply beyond_range with (n := if sign_of F32 a then 2 ^ 63 + 1 else 2 ^ 63); [typeclasses eauto|assumption| |destruct (sign_of F32 a); lia|codes].
      intros _. destruct (sign_of F32 a) eqn:Sg; [|apply (Big 63 Ha); lia].
      assert (e = 0xBE /\ 0 < m \/ 0xBF <= e) as [[-> M0]|E2].
      { destruct (F32_fields a Ha) as (_ & _ & _ & _ & A). rewrite Sg, P in A. unfold with_sign in A.
        change (sign_weight F32) with (2 ^ 31) in A. cbn [Z.b2z] in A. lia. }
      + rewrite M, W. apply scaled_bound with (k := 40); lia.
      + apply Rle_trans with (IZR (2 ^ 64)); [apply IZR_le; lia|apply (Big 64 Ha); lia]. }
  rewrite <- (andb_assoc exact), (lost_bits32 w) by lia.
  assert (P2 : 2 <= 2 ^ (0xBE - e)) by (apply (Z.pow_le_mono_r 2 1); lia).
  assert (Q : 0 <= w * 2 ^ 40 / 2 ^ (0xBE - e) < 2 ^ 63) by (split; [apply Z.div_pos; lia|apply Z.div_lt_upper_bound; nia]).
  rewrite (shl_mul w 40), (uwrap_small 64 (w * _)), shr_div, swrap_small by fmt_lia.
  unfold bind. rewrite when_raise.
  apply truncated_to_int with (w := w * 2 ^ 40) (sd := 0xBE - e); try lia; try reflexivity; [apply Fin; lia| |destruct (sign_of F32 a); lia].
  rewrite M. apply scaled40; lia.
Qed.

(** ** 64-bit operands *)
Lemma f64_to_ui32_r_minMag_spec (a : Z) (exact : bool) (s : env) : is_enc F64 a ->
  to_int_spec 0 (2 ^ 32 - 1) 0xFFFFFFFF F64 s TowardZero exact a (f64_to_ui32_r_minMag a exact s).
Proof.
  intros Ha. destruct (f64_view a Ha) as (He & Hm & Hw & Hn & M & Z0 & Fin). pose proof (f64_at_least a) as Big.
  unfold f64_to_ui32_r_minMag. rewrite (proj1 (F64_fields a Ha)), Z0. cbv zeta.
  set (e := expF64UI a) in *. set (m := fracF64UI a) in *. set (w := if e =? 0 then m else 2 ^ 52 + m) in *.
  destruct (Z.leb_spec 53 (0x433 - e)) as [L|L].
  { apply below_one with (k := 53) (e := 1075 - Z.max e 1); try assumption; try lia. apply Fin. lia. }
  destruct (Hn ltac:(lia)) as [W ->]. clearbody w e m. destruct (sign_of F64 a) eqn:Sg; cbn [orb].
  { apply beyond_range with (n := 1); [typeclasses eauto|assumption| |rewrite Sg; lia|codes].
    intros _. apply (Big 0 Ha). lia. }
  destruct (Z.ltb_spec (0x433 - e) 21) as [L2|L2].
  { apply beyond_range with (n := 2 ^ 32); [typeclasses eauto|assumption| |rewrite Sg; lia|codes].
    intros _. apply (Big 32 Ha). lia. }
  assert (P : 2 ^ 21 <= 2 ^ (0x433 - e)) by (apply Z.pow_le_mono_r; lia).
  rewrite shr_div, shifted_back by lia. unfold bind. rewrite when_raise.
  apply truncated_to_int with (w := w) (sd := 0x433 - e); try lia; try reflexivity; [apply Fin; lia| |rewrite Sg; reflexivity|].
  - rewrite M. do 3 f_equal. lia.
  - split; [apply Z.div_pos; lia|]. apply Z.lt_le_pred, Z.div_lt_upper_bound; nia.
Qed.

Lemma f64_to_i32_r_minMag_spec (a : Z) (exact : bool) (s : env) : is_enc F64 a ->
  to_int_spec (- 2 ^ 31) (2 ^ 31 - 1) (- 2 ^ 31) F64 s TowardZero exact a (f64_to_i32_r_minMag a exact s).
Proof.
  intros Ha. destruct (f64_view a Ha) as (He & Hm & Hw & Hn & M & Z0 & Fin). pose proof (f64_at_least a) as Big.
  unfold f64_to_i32_r_minMag. rewrite (proj1 (F64_fields a Ha)), Z0. cbv zeta.
  set (e := expF64UI a) in *. set (m := fracF64UI a) in *. set (w := if e =? 0 then m else 2 ^ 52 + m) in *.
  destruct (Z.leb_spec 53 (0x433 - e)) as [L|L].
  { apply below_one with (k := 53) (e := 1075 - Z.max e 1); try assumption; try lia. apply Fin. lia. }
  destruct (Hn ltac:(lia)) as [W ->]. clearbody w e m. destruct (Z.ltb_spec (0x433 - e) 22) as [L2|L2].
  { destruct (sign_of F64 a && (e =? 0x41E) && (m <? 0x0000000000200000)) eqn:C.
    - apply andb_true_iff in C as [[Sg E%Z.eqb_eq]%andb_true_iff M0%Z.ltb_lt]. unfold bind. rewrite when_raise, E in *.
      apply truncated_to_int with (w := w) (sd := 21); try lia; [apply Fin; lia|rewrite M; do 3 f_equal; lia| |].
      + rewrite Sg. replace (w / 2 ^ 21) with (2 ^ 31) by zdm. reflexivity.
      + unfold z2b. f_equal. f_equal. zdm.
    - apply beyond_range with (n := if sign_of F64 a then 2 ^ 31 + 1 else 2 ^ 31); [typeclasses eauto|assumption| |destruct (sign_of F64 a); lia|codes].
      intros _. destruct (sign_of F64 a); [|apply (Big 31 Ha); lia]. cbn [andb] in C.
      assert (e = 0x41E /\ 0x200000 <= m \/ 0x41F <= e) as [[-> M0]|E2] by lia.
      + rewrite M, W. apply fixed_bound with (k := 21); lia.
      + apply Rle_trans with (IZR (2 ^ 32)); [apply IZR_le; lia|apply (Big 32 Ha); lia]. }
  assert (P2 : 2 ^ 22 <= 2 ^ (0x433 - e)) by (apply Z.pow_le_mono_r; lia).
  assert (Q : 0 <= w / 2 ^ (0x433 - e) < 2 ^ 31) by (split; [apply Z.div_pos; lia|apply Z.div_lt_upper_bound; nia]).
  rewrite shr_div, swrap_small, (uwrap_small 64 (_ / _)), shifted_back by fmt_lia.
  unfold bind. rewrite when_raise.
  apply truncated_to_int with (w := w) (sd := 0x433 - e); try lia; try reflexivity; [apply Fin; lia| |destruct (sign_of F64 a); lia].
  rewrite M. do 3 f_equal. lia.
Qed.

Lemma f64_to_ui64_r_minMag_spec (a : Z) (exact : bool) (s : env) : is_enc F64 a ->
  to_int_spec 0 (2 ^ 64 - 1) 0xFFFFFFFFFFFFFFFF F64 s TowardZero exact a (f64_to_ui64_r_minMag a exact s).
Proof.
  intros Ha. destruct (f64_view a Ha) as (He & Hm & Hw & Hn & M & Z0 & Fin). pose proof (f64_at_least a) as Big.
  unfold f64_to_ui64_r_minMag. rewrite (proj1 (F64_fields a Ha)), Z0. cbv zeta.
  set (e := expF64UI a) in *. set (m := fracF64UI a) in *. set (w := if e =? 0 then m else 2 ^ 52 + m) in *.
  destruct (Z.leb_spec 53 (0x433 - e)) as [L|L].
  { apply below_one with (k := 53) (e := 1075 - Z.max e 1); try assumption; try lia. apply Fin. lia. }
  destruct (Hn ltac:(lia)) as [W ->]. clearbody w e m. destruct (sign_of F64 a) eqn:Sg.
  { apply beyond_range with (n := 1); [typeclasses eauto|assumption| |rewrite Sg; lia|codes].
    intros _. apply (Big 0 Ha). lia. }
  destruct (Z.leb_spec (0x433 - e) 0) as [L1|L1]; [destruct (Z.ltb_spec (0x433 - e) (-11)) as [L2|L2]|].
  - apply beyond_range with (n := 2 ^ 64); [typeclasses eauto|assumption| |rewrite Sg; lia|codes].
    intros _. apply (Big 64 Ha). lia.
  - assert (B : 1 <= 2 ^ (- (0x433 - e)) <= 2 ^ 11) by (split; [apply (Z.pow_le_mono_r 2 0)|apply Z.pow_le_mono_r]; lia).
    rewrite shl_mul, uwrap_small by nia. unfold ret.
    replace s with (raised_env (if exact && false then softfloat_flag_inexact else 0) s) at 2
      by (rewrite andb_false_r; apply raised_env_0).
    apply truncated_to_int with (w := w * 2 ^ (- (0x433 - e))) (sd := 0); try lia; [apply Fin; lia| |rewrite Sg; symmetry; apply Z.div_1_r|nia|].
    + change (- 0) with 0. rewrite M, pow2_0, mult_IZR, <- pow2_IZR by lia. rewrite Rmult_1_r. do 2 f_equal. lia.
    + change (2 ^ 0) with 1. now rewrite Z.mod_1_r.
  - rewrite (land_low _ 63 6) by (reflexivity || lia).
    replace (- (0x433 - e) mod 2 ^ 6) with (64 - (0x433 - e)) by (apply Z.mod_unique_pos with (-1); lia).
    unfold z2b. rewrite shl_wrap_zero by lia. unfold bind. rewrite when_raise, shr_div by lia.
    assert (P : 0 < 2 ^ (0x433 - e)) by (apply Z.pow_pos_nonneg; lia).
    apply truncated_to_int with (w := w) (sd := 0x433 - e); try lia; try reflexivity; [apply Fin; lia| |rewrite Sg; reflexivity|].
    + rewrite M. do 3 f_equal. lia.
    + split; [apply Z.div_pos; lia|]. apply Z.le_trans with w; [apply Z.div_le_upper_bound; nia|lia].
Qed.

Lemma f64_to_i64_r_minMag_spec (a : Z) (exact : bool) (s : env) : is_enc F64 a ->
  to_int_spec (- 2 ^ 63) (2 ^ 63 - 1) (- 2 ^ 63) F64 s TowardZero exact a (f64_to_i64_r_minMag a exact s).
Proof.
  intros Ha. destruct (f64_view a Ha) as (He & Hm & Hw & Hn & M & Z0 & Fin). pose proof (f64_at_least a) as Big.
  destruct (F64_fields a Ha) as (Sa & _ & _ & P & A).
  unfold f64_to_i64_r_minMag. rewrite Sa, Z0. cbv zeta.
  set (e := expF64UI a) in *. set (m := fracF64UI a) in *. set (w := if e =? 0 then m else 2 ^ 52 + m) in *.
  destruct (Z.leb_spec (0x433 - e) 0) as [L1|L1]; [destruct (Z.ltb_spec (0x433 - e) (-10)) as [L2|L2]|destruct (Z.leb_spec 53 (0x433 - e)) as [L|L]].
  - destruct (Hn ltac:(lia)) as [W _]. clearbody w e m.
    change (packToF64UI true 0x43E 0) with 0xC3E0000000000000. destruct (Z.eqb_spec a 0xC3E0000000000000) as [E|E].
    + subst a. change (pattern_of F64 0xC3E0000000000000) with (0x43E * 2 ^ 52 + 0) in P. assert (e = 0x43E /\ m = 0) as [-> ->] by lia.
      rewrite W in *. unfold ret.
      replace s with (raised_env (if exact && false then softfloat_flag_inexact else 0) s) at 2
        by (rewrite andb_false_r; apply raised_env_0).
      apply truncated_to_int with (w := 2 ^ 63) (sd := 0); try reflexivity; try lia; [apply Fin; lia|].
      rewrite M. change (- (1075 - Z.max 0x43E 1)) with 11. change (- 0) with 0. rewrite (pow2_IZR 11), <- mult_IZR, pow2_0, Rmult_1_r by lia. reflexivity.
    + apply beyond_range with (n := if sign_of F64 a then 2 ^ 63 + 1 else 2 ^ 63); [typeclasses eauto|assumption| |destruct (sign_of F64 a); lia|codes].
      intros _. destruct (sign_of F64 a) eqn:Sg; [|apply (Big 63 Ha); lia].
      assert (e = 0x43E /\ 0 < m \/ 0x43F <= e) as [[-> M0]|E2].
      { rewrite P in A. unfold with_sign in A. change (sign_weight F64) with (2 ^ 63) in A. cbn [Z.b2z] in A. lia. }
      * rewrite M, W. apply scaled_bound with (k := 11); lia.
      * apply Rle_trans with (IZR (2 ^ 64)); [apply IZR_le; lia|apply (Big 64 Ha); lia].
  - destruct (Hn ltac:(lia)) as [W ->]. clearbody w e m.
    assert (B : 1 <= 2 ^ (- (0x433 - e)) <= 2 ^ 10) by (split; [apply (Z.pow_le_mono_r 2 0)|apply Z.pow_le_mono_r]; lia).
    rewrite shl_mul, uwrap_small, swrap_small by (eval_pow; nia). unfold ret.
    replace s with (raised_env (if exact && false then softfloat_flag_inexact else 0) s) at 2
      by (rewrite andb_false_r; apply raised_env_0).
    apply truncated_to_int with (w := w * 2 ^ (- (0x433 - e))) (sd := 0); try lia; [apply Fin; lia| |rewrite Z.div_1_r; reflexivity|destruct (sign_of F64 a); nia|].
    + change (- 0) with 0. rewrite M, pow2_0, mult_IZR, <- pow2_IZR by lia. rewrite Rmult_1_r. do 2 f_equal. lia.
    + change (2 ^ 0) with 1. now rewrite Z.mod_1_r.
  - apply below_one with (k := 53) (e := 1075 - Z.max e 1); try assumption; try lia. apply Fin. lia.
  - destruct (Hn ltac:(lia)) as [W ->]. clearbody w e m.
    assert (P2 : 2 <= 2 ^ (0x433 - e)) by (apply (Z.pow_le_mono_r 2 1); lia).
    assert (Q : 0 <= w / 2 ^ (0x433 - e) < 2 ^ 53) by (split; [apply Z.div_pos; lia|apply Z.div_lt_upper_bound; nia]).
    rewrite shr_div, swrap_small, shifted_back by fmt_lia.
    unfold bind. rewrite when_raise.
    apply truncated_to_int with (w := w) (sd := 0x433 - e); try lia; try reflexivity; [apply Fin; lia| |destruct (sign_of F64 a); lia].
    rewrite M. do 3 f_equal. lia.
Qed.
