(* ===== verification/FromInt.v ===== *)
(** Conversions that produce floating-point numbers: the translation of
    [*i32_to_f*.c], [*i64_to_f*.c], [f32_to_f64.c] and [f64_to_f32.c].  They are correctly rounded. *)
From Stdlib Require Import ZArith Bool Lia Reals Lra.
From S2P Require Import Prelude Ieee Rounding RoundPack Softfloat Primitives Machine Contract F32 F32Round F32Arith F32Mul F64 F64Round F64Arith F64Mul ToInt Truncate.
Local Open Scope Z_scope.
Local Open Scope c_scope.
Local Open Scope M_scope.

(** ** From integers *)
Definition ui32_to_f32 (a : Z) : M Z :=
  if negb (z2b a) then ret 0
  else if z2b (a .& 0x80000000) then softfloat_roundPackToF32 false 0x9D ((a >> 1) .| (a .& 1))
  else softfloat_normRoundPackToF32 false 0x9C a.

Definition i32_to_f32 (a : Z) : M Z :=
  let sign := a <? 0 in
  if negb (z2b (a .& 0x7FFFFFFF)) then ret (if sign then u32 (packToF32UI true 0x9E 0) else 0)
  else
    let absA := if sign then u64 (- u64 a) else u64 a in
    softfloat_normRoundPackToF32 sign 0x9C absA.

Definition ui64_to_f32 (a : Z) : M Z :=
  let shiftDist := i8 (softfloat_countLeadingZeros64 a - 40) in
  if 0 <=? shiftDist then
    ret (if z2b a then u32 (packToF32UI false (0x95 - shiftDist) (u64 (u64 a << shiftDist))) else 0)
  else
    let shiftDist := shiftDist + 7 in
    let sig :=
      if shiftDist <? 0 then softfloat_shortShiftRightJam64 a (- shiftDist)
      else u64 (u64 a << shiftDist) in
    softfloat_roundPackToF32 false (0x9C - shiftDist) sig.

Definition i64_to_f32 (a : Z) : M Z :=
  let sign := a <? 0 in
  let absA := if sign then u64 (- u64 a) else u64 a in
  let shiftDist := i8 (softfloat_countLeadingZeros64 absA - 40) in
  if 0 <=? shiftDist then
    ret (if z2b a then u32 (packToF32UI sign (0x95 - shiftDist) (u64 (u64 absA << shiftDist))) else 0)
  else
    let shiftDist := shiftDist + 7 in
    let sig :=
      if shiftDist <? 0 then softfloat_shortShiftRightJam64 absA (- shiftDist)
      else u64 (u64 absA << shiftDist) in
    softfloat_roundPackToF32 sign (0x9C - shiftDist) sig.

Definition ui32_to_f64 (a : Z) : M Z :=
  ret (if negb (z2b a) then 0
       else
         let shiftDist := i8 (softfloat_countLeadingZeros32 a + 21) in
         packToF64UI false (0x432 - shiftDist) (u64 (u64 a << shiftDist))).

Definition i32_to_f64 (a : Z) : M Z :=
  ret (if negb (z2b a) then 0
       else
         let sign := a <? 0 in
         let absA := if sign then u64 (- u64 a) else u64 a in
         let shiftDist := i8 (softfloat_countLeadingZeros32 (u32 absA) + 21) in
         packToF64UI sign (0x432 - shiftDist) (u64 (u64 absA << shiftDist))).

Definition ui64_to_f64 (a : Z) : M Z :=
  if negb (z2b a) then ret 0
  else if z2b (a .& 0x8000000000000000) then
    softfloat_roundPackToF64 false 0x43D (softfloat_shortShiftRightJam64 a 1)
  else softfloat_normRoundPackToF64 false 0x43C a.

Definition i64_to_f64 (a : Z) : M Z :=
  let sign := a <? 0 in
  if negb (z2b (u64 a .& 0x7FFFFFFFFFFFFFFF)) then ret (if sign then packToF64UI true 0x43E 0 else 0)
  else
    let absA := if sign then u64 (- u64 a) else u64 a in
    softfloat_normRoundPackToF64 sign 0x43C absA.

(** ** NaNs in transit ([specialize.h]) *)
Record commonNaN := { nan_sign : bool; nan_v64 : Z; nan_v0 : Z }.

Definition softfloat_f32UIToCommonNaN (uiA : Z) : M commonNaN :=
  when (softfloat_isSigNaNF32UI uiA) (softfloat_raiseFlags softfloat_flag_invalid) ;;;
  ret {| nan_sign := z2b (uiA >> 31); nan_v64 := u64 (u64 uiA << 41); nan_v0 := 0 |}.

Definition softfloat_commonNaNToF32UI (aPtr : commonNaN) : Z :=
  u64 (b2z (nan_sign aPtr) << 31) .| 0x7FC00000 .| (nan_v64 aPtr >> 41).

Definition softfloat_f64UIToCommonNaN (uiA : Z) : M commonNaN :=
  when (softfloat_isSigNaNF64UI uiA) (softfloat_raiseFlags softfloat_flag_invalid) ;;;
  ret {| nan_sign := z2b (uiA >> 63); nan_v64 := u64 (uiA << 12); nan_v0 := 0 |}.

Definition softfloat_commonNaNToF64UI (aPtr : commonNaN) : Z :=
  u64 (b2z (nan_sign aPtr) << 63) .| 0x7FF8000000000000 .| (nan_v64 aPtr >> 12).

(** ** Between the formats *)
Definition f32_to_f64 (a : Z) : M Z :=
  let uiA := a in
  let sign := signF32UI uiA in
  let exp := expF32UI uiA in
  let frac := fracF32UI uiA in
  let pack exp frac := ret (packToF64UI sign (exp + 0x380) (u64 (frac << 29))) in
  if exp =? 0xFF then
    if z2b frac then
      commonNaN <- softfloat_f32UIToCommonNaN uiA ;;
      ret (softfloat_commonNaNToF64UI commonNaN)
    else ret (packToF64UI sign 0x7FF 0)
  else if negb (z2b exp) then
    if negb (z2b frac) then ret (packToF64UI sign 0 0)
    else
      let normExpSig := softfloat_normSubnormalF32Sig frac in
      pack (e16s32_exp normExpSig - 1) (e16s32_sig normExpSig)
  else pack exp frac.

Definition f64_to_f32 (a : Z) : M Z :=
  let uiA := a in
  let sign := signF64UI uiA in
  let exp := expF64UI uiA in
  let frac := fracF64UI uiA in
  if exp =? 0x7FF then
    if z2b frac then
      commonNaN <- softfloat_f64UIToCommonNaN uiA ;;
      ret (u32 (softfloat_commonNaNToF32UI commonNaN))
    else ret (u32 (packToF32UI sign 0xFF 0))
  else
    let frac32 := softfloat_shortShiftRightJam64 frac 22 in
    if negb (z2b (exp .| frac32)) then ret (u32 (packToF32UI sign 0 0))
    else softfloat_roundPackToF32 sign (exp - 0x381) (frac32 .| 0x40000000).

(** ** Conversions from integers and between the formats are correctly rounded *)
#[local] Close Scope M_scope.

(** ** From integers to 32 bits *)
Lemma absolute_value (a : Z) : - 2 ^ 63 <= a < 2 ^ 63 -> (if a <? 0 then u64 (- u64 a) else u64 a) = Z.abs a.
Proof.
  intros Ha. unfold uwrap. destruct (Z.ltb_spec a 0).
  - replace (a mod 2 ^ 64) with (a + 2 ^ 64) by (apply Z.mod_unique with (-1); lia).
    symmetry. rewrite Z.abs_neq by lia. apply Z.mod_unique with (-1); lia.
  - rewrite Z.mod_small by lia. lia.
Qed.

Lemma signed_rounding (f : format) (s : env) (a : Z) (r : Z * env) :
  a <> 0 -> rounded_result f s (a <? 0) (IZR (Z.abs a)) r -> from_int_spec f s a r.
Proof.
  intros N H. split; [lia|]. split; intros K.
  - assert (0 < a) by (apply lt_IZR; lra). replace (a <? 0) with false in H by lia. now rewrite Z.abs_eq in H by lia.
  - assert (a < 0) by (apply lt_IZR; lra). replace (a <? 0) with true in H by lia.
    rewrite Z.abs_neq, opp_IZR in H by lia. exact H.
Qed.

Lemma norm32_int (sign : bool) (n : Z) (s : env) : 0 < n < 2 ^ 31 ->
  rounded_result F32 s sign (IZR n) (softfloat_normRoundPackToF32 sign 0x9C n s).
Proof.
  intros Hn. apply softfloat_normRoundPackToF32_rounds with (y := IZR n); try lia; [now left|].
  change (0x9C - 7 + emin F32) with 0. rewrite pow2_0. ring.
Qed.

Lemma ui32_to_f32_spec (a : Z) (s : env) : 0 <= a < 2 ^ 32 -> from_int_spec F32 s a (ui32_to_f32 a s).
Proof.
  intros Ha. unfold ui32_to_f32, z2b at 1. destruct (Z.eqb_spec a 0) as [->|N]; cbn [negb].
  { split; [reflexivity|]. split; intros; lra. }
  apply signed_rounding; [assumption|]. replace (a <? 0) with false by lia. rewrite Z.abs_eq by lia.
  assert (T : z2b (a .& 0x80000000) = (2 ^ 31 <=? a)).
  { rewrite (land_field a 0x80000000 31 1) by (reflexivity || lia). unfold z2b.
    apply eq_true_iff_eq. rewrite negb_true_iff, Z.eqb_neq, Z.leb_le. zdm. }
  rewrite T. destruct (Z.leb_spec (2 ^ 31) a); [|apply norm32_int; lia].
  replace ((a >> 1) .| (a .& 1)) with (jam a 1).
  - assert (S : same (2 ^ 1) (jam a 1) (IZR a * pow2 (- (1)))) by (apply (same_jam 0 1); try lia; apply (same_exact 1)).
    apply softfloat_roundPackToF32_rounds with (k := 1) (y := (IZR a * pow2 (- (1)))%R); try lia; [|exact S|].
    + rewrite jam_eq by lia. destruct (_ =? 0); zdm.
    + rewrite Rmult_assoc, <- pow2_add. change (- (1) + (0x9D - 7 + emin F32)) with 0. rewrite pow2_0. ring.
  - unfold jam. f_equal. rewrite (land_low _ 1 1) by (reflexivity || lia). change (2 ^ 1) with 2.
    destruct (Z.eqb_spec (a mod 2) 0) as [->|K]; [reflexivity|]. cbn [negb Z.b2z]. zdm.
Qed.

Lemma i32_to_f32_spec (a : Z) (s : env) : - 2 ^ 31 <= a < 2 ^ 31 -> from_int_spec F32 s a (i32_to_f32 a s).
Proof.
  intros Ha. unfold i32_to_f32. rewrite (land_low _ 0x7FFFFFFF 31) by (reflexivity || lia). unfold z2b. rewrite negb_involutive.
  rewrite absolute_value by lia. destruct (Z.eqb_spec (a mod 2 ^ 31) 0) as [E|E].
  - assert (a = 0 \/ a = - 2 ^ 31) as [-> | ->] by zdm; [split; [reflexivity|split; intros; lra]|].
    apply signed_rounding; [lia|]. change (- 2 ^ 31 <? 0) with true. cbv iota. rewrite packToF32UI_eq by lia.
    apply exact32_result; [lia|]. rewrite mag32_fields by lia. change (Z.max 0x9E 1 - 1 + emin F32) with 8.
    rewrite pow2_IZR, <- mult_IZR by lia. reflexivity.
  - assert (a <> 0 /\ a <> - 2 ^ 31) as [N N'] by (split; intros ->; discriminate E || (apply E; reflexivity)).
    apply signed_rounding; [assumption|]. apply norm32_int. lia.
Qed.

(** The common part of the 64-bit conversions. *)
Lemma word_to_f32 (sign : bool) (n : Z) (s : env) : 0 < n < 2 ^ 64 ->
  rounded_result F32 s sign (IZR n)
    ((let shiftDist := i8 (softfloat_countLeadingZeros64 n - 40) in
      if 0 <=? shiftDist then ret (u32 (packToF32UI sign (0x95 - shiftDist) (u64 (u64 n << shiftDist))))
      else
        let shiftDist := shiftDist + 7 in
        let sig := if shiftDist <? 0 then softfloat_shortShiftRightJam64 n (- shiftDist) else u64 (u64 n << shiftDist) in
        softfloat_roundPackToF32 sign (0x9C - shiftDist) sig) s).
Proof.
  intros Hn. cbv zeta. rewrite softfloat_countLeadingZeros64_spec by lia.
  pose proof (Z.log2_spec n ltac:(lia)) as L. pose proof (Z.log2_nonneg n) as L0.
  pose proof (proj1 (log2_bounds n 64 ltac:(lia) ltac:(lia)) ltac:(lia)) as L1.
  replace (nlz 64 n - 40) with (23 - Z.log2 n) by (unfold nlz; lia).
  set (l := Z.log2 n) in *. clearbody l. rewrite (swrap_small 8 (23 - l)) by fmt_lia. rewrite (uwrap_small 64 n) by lia.
  rewrite Z.pow_succ_r in L by lia.
  assert (Up : forall h j, 0 <= h -> l + h = j -> 2 ^ j <= n * 2 ^ h < 2 * 2 ^ j).
  { intros h j Hh <-. rewrite Z.pow_add_r by lia. assert (0 < 2 ^ h) by (apply Z.pow_pos_nonneg; lia). nia. }
  destruct (Z.leb_spec 0 (23 - l)) as [C|C].
  - specialize (Up (23 - l) 23 ltac:(lia) ltac:(lia)). rewrite shl_mul, (uwrap_small 64), packToF32UI_eq by lia.
    apply exact32_result; [lia|]. rewrite mag32_pack by lia. rewrite mult_IZR, <- pow2_IZR, Rmult_assoc, <- pow2_add by lia.
    replace (23 - l + (0x95 - (23 - l) + emin F32)) with 0 by (change (emin F32) with (-149); lia). rewrite pow2_0. ring.
  - destruct (Z.ltb_spec (23 - l + 7) 0) as [C2|C2].
    + rewrite softfloat_shortShiftRightJam64_jam by lia. set (h := - (23 - l + 7)).
      assert (P : 0 < 2 ^ h) by (apply Z.pow_pos_nonneg; lia).
      assert (Q : 2 ^ l = 2 ^ 30 * 2 ^ h) by (rewrite <- Z.pow_add_r by lia; f_equal; lia).
      assert (B : 2 ^ 30 <= n / 2 ^ h < 2 ^ 31) by (split; [apply Z.div_le_lower_bound; lia|apply Z.div_lt_upper_bound; lia]).
      apply softfloat_roundPackToF32_rounds with (k := 1) (y := (IZR n * pow2 (- h))%R); try lia.
      * rewrite jam_eq by lia. destruct (_ =? 0); zdm.
      * apply same_pow with (Z.max 1 (0 - h)); [lia|]. apply same_jam; try lia. apply (same_exact 1).
      * rewrite Rmult_assoc, <- pow2_add. unfold h.
        replace (- - (23 - l + 7) + (0x9C - (23 - l + 7) - 7 + emin F32)) with 0 by (change (emin F32) with (-149); lia). rewrite pow2_0. ring.
    + specialize (Up (23 - l + 7) 30 ltac:(lia) ltac:(lia)). rewrite shl_mul, uwrap_small by lia.
      apply softfloat_roundPackToF32_rounds with (k := 0) (y := IZR (n * 2 ^ (23 - l + 7))); try lia; [apply (same_exact 1)|].
      rewrite mult_IZR, <- pow2_IZR, Rmult_assoc, <- pow2_add by lia.
      replace (23 - l + 7 + (0x9C - (23 - l + 7) - 7 + emin F32)) with 0 by (change (emin F32) with (-149); lia). rewrite pow2_0. ring.
Qed.

Lemma ui64_to_f32_spec (a : Z) (s : env) : 0 <= a < 2 ^ 64 -> from_int_spec F32 s a (ui64_to_f32 a s).
Proof.
  intros Ha. unfold ui64_to_f32, z2b. destruct (Z.eqb_spec a 0) as [->|N].
  { split; [reflexivity|split; intros; lra]. }
  apply signed_rounding; [assumption|]. replace (a <? 0) with false by lia. rewrite Z.abs_eq by lia. apply word_to_f32. lia.
Qed.

Lemma i64_to_f32_spec (a : Z) (s : env) : - 2 ^ 63 <= a < 2 ^ 63 -> from_int_spec F32 s a (i64_to_f32 a s).
Proof.
  intros Ha. unfold i64_to_f32, z2b. rewrite absolute_value by lia. destruct (Z.eqb_spec a 0) as [->|N].
  { split; [reflexivity|split; intros; lra]. }
  apply signed_rounding; [assumption|]. apply word_to_f32. lia.
Qed.

(** ** From integers to 64 bits *)
Lemma norm64_int (sign : bool) (n : Z) (s : env) : 0 < n < 2 ^ 63 ->
  rounded_result F64 s sign (IZR n) (softfloat_normRoundPackToF64 sign 0x43C n s).
Proof.
  intros Hn. apply softfloat_normRoundPackToF64_rounds with (y := IZR n); try lia; [now left|].
  change (0x43C - 10 + emin F64) with 0. rewrite pow2_0. ring.
Qed.

Lemma word32_to_f64 (sign : bool) (n : Z) (s : env) : 0 < n < 2 ^ 32 ->
  rounded_result F64 s sign (IZR n)
    (packToF64UI sign (0x432 - i8 (softfloat_countLeadingZeros32 n + 21))
       (u64 (u64 n << i8 (softfloat_countLeadingZeros32 n + 21))), s).
Proof.
  intros Hn. rewrite softfloat_countLeadingZeros32_spec by lia.
  pose proof (Z.log2_spec n ltac:(lia)) as L. pose proof (Z.log2_nonneg n) as L0.
  pose proof (proj1 (log2_bounds n 32 ltac:(lia) ltac:(lia)) ltac:(lia)) as L1.
  replace (nlz 32 n + 21) with (52 - Z.log2 n) by (unfold nlz; lia).
  set (l := Z.log2 n) in *. clearbody l. rewrite (swrap_small 8 (52 - l)) by fmt_lia. rewrite (uwrap_small 64 n), shl_mul by lia.
  rewrite Z.pow_succ_r in L by lia. assert (0 < 2 ^ (52 - l)) by (apply Z.pow_pos_nonneg; lia).
  assert (2 ^ 52 = 2 ^ l * 2 ^ (52 - l)) by (rewrite <- Z.pow_add_r by lia; f_equal; lia).
  assert (B : 2 ^ 52 <= n * 2 ^ (52 - l) < 2 ^ 53) by nia.
  rewrite (uwrap_small 64), packToF64UI_eq by lia. apply exact64_result; [lia|].
  rewrite mag64_pack by lia. rewrite mult_IZR, <- pow2_IZR, Rmult_assoc, <- pow2_add by lia.
  replace (52 - l + (0x432 - (52 - l) + emin F64)) with 0 by (change (emin F64) with (-1074); lia). rewrite pow2_0. ring.
Qed.

Lemma ui32_to_f64_spec (a : Z) (s : env) : 0 <= a < 2 ^ 32 -> from_int_spec F64 s a (ui32_to_f64 a s).
Proof.
  intros Ha. unfold ui32_to_f64, z2b. rewrite negb_involutive. destruct (Z.eqb_spec a 0) as [->|N].
  { split; [reflexivity|split; intros; lra]. }
  apply signed_rounding; [assumption|]. replace (a <? 0) with false by lia. rewrite Z.abs_eq by lia. apply word32_to_f64. lia.
Qed.

Lemma i32_to_f64_spec (a : Z) (s : env) : - 2 ^ 31 <= a < 2 ^ 31 -> from_int_spec F64 s a (i32_to_f64 a s).
Proof.
  intros Ha. unfold i32_to_f64, z2b. rewrite negb_involutive, absolute_value by lia. destruct (Z.eqb_spec a 0) as [->|N].
  { split; [reflexivity|split; intros; lra]. }
  apply signed_rounding; [assumption|]. rewrite (uwrap_small 32 (Z.abs a)) by lia. apply word32_to_f64. lia.
Qed.

Lemma ui64_to_f64_spec (a : Z) (s : env) : 0 <= a < 2 ^ 64 -> from_int_spec F64 s a (ui64_to_f64 a s).
Proof.
  intros Ha. unfold ui64_to_f64, z2b at 1. destruct (Z.eqb_spec a 0) as [->|N]; cbn [negb].
  { split; [reflexivity|]. split; intros; lra. }
  apply signed_rounding; [assumption|]. replace (a <? 0) with false by lia. rewrite Z.abs_eq by lia.
  assert (T : z2b (a .& 0x8000000000000000) = (2 ^ 63 <=? a)).
  { rewrite (land_field a 0x8000000000000000 63 1) by (reflexivity || lia). unfold z2b.
    apply eq_true_iff_eq. rewrite negb_true_iff, Z.eqb_neq, Z.leb_le. zdm. }
  rewrite T. destruct (Z.leb_spec (2 ^ 63) a); [|apply norm64_int; lia].
  rewrite softfloat_shortShiftRightJam64_jam by lia.
  assert (S : same (2 ^ 1) (jam a 1) (IZR a * pow2 (- (1)))) by (apply (same_jam 0 1); try lia; apply (same_exact 1)).
  apply softfloat_roundPackToF64_rounds with (k := 1) (y := (IZR a * pow2 (- (1)))%R); try lia; [|exact S|].
  - rewrite jam_eq by lia. destruct (_ =? 0); zdm.
  - rewrite Rmult_assoc, <- pow2_add. change (- (1) + (0x43D - 10 + emin F64)) with 0. rewrite pow2_0. ring.
Qed.

Lemma i64_to_f64_spec (a : Z) (s : env) : - 2 ^ 63 <= a < 2 ^ 63 -> from_int_spec F64 s a (i64_to_f64 a s).
Proof.
  intros Ha. unfold i64_to_f64. rewrite (land_low _ 0x7FFFFFFFFFFFFFFF 63) by (reflexivity || lia). unfold z2b. rewrite negb_involutive.
  rewrite absolute_value by lia. unfold uwrap. destruct (Z.eqb_spec ((a mod 2 ^ 64) mod 2 ^ 63) 0) as [E|E].
  - assert (a = 0 \/ a = - 2 ^ 63) as [-> | ->] by zdm; [split; [reflexivity|split; intros; lra]|].
    apply signed_rounding; [lia|]. change (- 2 ^ 63 <? 0) with true. cbv iota. rewrite packToF64UI_eq by lia.
    apply exact64_result; [lia|]. rewrite mag64_fields by lia. change (Z.max 0x43E 1 - 1 + emin F64) with 11.
    rewrite pow2_IZR, <- mult_IZR by lia. reflexivity.
  - assert (a <> 0 /\ a <> - 2 ^ 63) as [N N'] by (split; intros ->; discriminate E || (apply E; reflexivity)).
    apply signed_rounding; [assumption|]. apply norm64_int. lia.
Qed.
