(* ===== verification/Widen.v ===== *)
(** Conversions between the 32-bit and the 64-bit format: widening is exact,
    narrowing is correctly rounded, NaNs keep their sign and leading payload. *)
From Stdlib Require Import ZArith Bool Lia Reals Lra.
From S2P Require Import Prelude Ieee Rounding RoundPack Softfloat Primitives Machine Contract F32 F32Round F32Arith F32Mul F64 F64Round F64Arith F64Mul FromInt ToInt Truncate.
Local Open Scope Z_scope.
Local Open Scope c_scope.

(** ** NaNs *)
Lemma lor_fields (top mid low k : Z) : 0 <= k -> 0 <= low < 2 ^ k -> 0 <= mid < 2 ^ k ->
  Z.lor (Z.lor (top * 2 ^ k) mid) low = Z.lor (top * 2 ^ k + low) mid.
Proof.
  intros Hk Hl Hm. rewrite <- (lor_disjoint top low k) by assumption.
  now rewrite <- !Z.lor_assoc, (Z.lor_comm mid low).
Qed.

(** A NaN goes from one format to the other through a 64-bit word that holds
    its payload at the top. *)
Lemma nan_payload (f g : format) (p : Z) : 0 <= mb f <= 64 -> 0 <= mb g <= 64 ->
  p * 2 ^ (64 - mb f) / 2 ^ (64 - mb g) = p * 2 ^ mb g / 2 ^ mb f.
Proof.
  intros Hf Hg. set (k := 2 ^ mb f). set (l := 2 ^ mb g). set (k' := 2 ^ (64 - mb f)). set (l' := 2 ^ (64 - mb g)).
  assert (K : k * k' = 2 ^ 64) by (unfold k, k'; rewrite <- Z.pow_add_r by lia; f_equal; lia).
  assert (L : l * l' = 2 ^ 64) by (unfold l, l'; rewrite <- Z.pow_add_r by lia; f_equal; lia).
  assert (0 < k /\ 0 < l /\ 0 < l') as (Hk & Hl & Hl') by (repeat split; apply Z.pow_pos_nonneg; lia).
  clearbody k l k' l'. rewrite <- (Z.div_mul_cancel_r (p * k') l' (k * l)) by nia.
  rewrite <- (Z.div_mul_cancel_r (p * l) k (2 ^ 64)) by lia. f_equal; [rewrite <- K|rewrite <- L]; ring.
Qed.

Lemma pack_nan (g : format) {V : ValidFormat g} (sign : bool) (low : Z) : 0 <= low < 2 ^ mb g ->
  (b2z sign * sign_weight g .| (inf_pattern g .| 2 ^ (mb g - 1))) .| low =
  quiet g (with_sign g sign (inf_pattern g + low)).
Proof.
  intros Hl. destruct V as [V1 V2]. unfold quiet, with_sign, inf_pattern, sign_weight.
  assert (P : 0 <= 2 ^ (mb g - 1) < 2 ^ mb g) by (split; [apply Z.pow_nonneg|apply Z.pow_lt_mono_r]; lia).
  assert (E : 0 < 2 ^ eb g) by (apply Z.pow_pos_nonneg; lia).
  rewrite Z.lor_assoc, Z.pow_add_r, (Z.mul_comm (2 ^ mb g)), Z.mul_assoc by lia.
  assert (X : b2z sign * 2 ^ eb g * 2 ^ mb g .| (2 ^ eb g - 1) * 2 ^ mb g = (b2z sign * 2 ^ eb g + (2 ^ eb g - 1)) * 2 ^ mb g).
  { rewrite <- !shl_mul, <- Z.shiftl_lor, !shl_mul by lia. f_equal. apply lor_disjoint; lia. }
  rewrite X, lor_fields by lia. f_equal. ring.
Qed.

Lemma convert_nan_fields (f g : format) (a e m : Z) : 0 <= mb f <= 64 -> 0 <= mb g <= 64 ->
  pattern_of f a = e * 2 ^ mb f + m -> 0 <= m < 2 ^ mb f ->
  convert_nan f g a = quiet g (with_sign g (sign_of f a) (inf_pattern g + m * 2 ^ (64 - mb f) / 2 ^ (64 - mb g))).
Proof.
  intros Hf Hg P Hm. unfold convert_nan. rewrite nan_payload, P by assumption.
  replace ((e * 2 ^ mb f + m) mod 2 ^ mb f) with m; [reflexivity|]. apply Z.mod_unique_pos with e; lia.
Qed.

Lemma common_nan32 (a : Z) (s : env) : is_enc F32 a ->
  softfloat_f32UIToCommonNaN a s =
  ({| nan_sign := sign_of F32 a; nan_v64 := fracF32UI a * 2 ^ 41; nan_v0 := 0 |},
   raised_env (if signalingb F32 a then softfloat_flag_invalid else 0) s).
Proof.
  intros Ha. unfold softfloat_f32UIToCommonNaN, bind. rewrite softfloat_isSigNaNF32UI_spec, when_raise by assumption.
  destruct (F32_fields a Ha) as (Sa & _). unfold is_enc in Ha. change (2 * sign_weight F32) with (2 ^ 32) in Ha.
  unfold ret. f_equal. f_equal.
  - rewrite <- Sa. unfold signF32UI. now rewrite uwrap_small by lia.
  - unfold fracF32UI. rewrite (land_low _ 0x007FFFFF 23), (uwrap_small 64 a), shl_mul by (reflexivity || lia). unfold uwrap. zdm.
Qed.

Lemma common_nan64 (a : Z) (s : env) : is_enc F64 a ->
  softfloat_f64UIToCommonNaN a s =
  ({| nan_sign := sign_of F64 a; nan_v64 := fracF64UI a * 2 ^ 12; nan_v0 := 0 |},
   raised_env (if signalingb F64 a then softfloat_flag_invalid else 0) s).
Proof.
  intros Ha. unfold softfloat_f64UIToCommonNaN, bind. rewrite softfloat_isSigNaNF64UI_spec, when_raise by assumption.
  destruct (F64_fields a Ha) as (Sa & _). unfold is_enc in Ha. change (2 * sign_weight F64) with (2 ^ 64) in Ha.
  unfold ret. f_equal. f_equal.
  - rewrite <- Sa. unfold signF64UI. now rewrite uwrap_small by lia.
  - unfold fracF64UI. rewrite (land_low _ 0x000FFFFFFFFFFFFF 52), shl_mul by (reflexivity || lia). unfold uwrap. zdm.
Qed.

Lemma nan_to64 (sign : bool) (v v0 : Z) : 0 <= v < 2 ^ 64 ->
  softfloat_commonNaNToF64UI {| nan_sign := sign; nan_v64 := v; nan_v0 := v0 |} =
  quiet F64 (with_sign F64 sign (inf_pattern F64 + v / 2 ^ 12)).
Proof.
  intros Hv. unfold softfloat_commonNaNToF64UI. cbn [nan_sign nan_v64]. rewrite shl_mul, shr_div by lia.
  rewrite uwrap_small by (destruct sign; cbn [Z.b2z]; lia). apply (pack_nan F64). change (mb F64) with 52. zdm.
Qed.

Lemma nan_to32 (sign : bool) (v v0 : Z) : 0 <= v < 2 ^ 64 ->
  u32 (softfloat_commonNaNToF32UI {| nan_sign := sign; nan_v64 := v; nan_v0 := v0 |}) =
  quiet F32 (with_sign F32 sign (inf_pattern F32 + v / 2 ^ 41)).
Proof.
  intros Hv. unfold softfloat_commonNaNToF32UI. cbn [nan_sign nan_v64]. rewrite shl_mul, shr_div by lia.
  rewrite (uwrap_small 64) by (destruct sign; cbn [Z.b2z]; lia).
  pose proof (pack_nan F32 sign (v / 2 ^ 41) ltac:(change (mb F32) with 23; zdm)) as E.
  change (inf_pattern F32 .| 2 ^ (mb F32 - 1)) with 0x7FC00000 in E. change (sign_weight F32) with (2 ^ 31) in E.
  rewrite E. apply uwrap_small, quiet32_bound. unfold is_enc, with_sign. change (sign_weight F32) with (2 ^ 31).
  change (inf_pattern F32) with (0xFF * 2 ^ 23). destruct sign; cbn [Z.b2z]; zdm.
Qed.

Lemma widen_nan (a : Z) (s : env) : is_enc F32 a ->
  (bind (softfloat_f32UIToCommonNaN a) (fun n => ret (softfloat_commonNaNToF64UI n))) s =
  (convert_nan F32 F64 a, raised_env (if signalingb F32 a then softfloat_flag_invalid else 0) s).
Proof.
  intros Ha. destruct (F32_fields a Ha) as (_ & _ & Hm & P & _). unfold bind, ret. rewrite common_nan32 by assumption.
  rewrite nan_to64 by lia. f_equal. symmetry. apply (convert_nan_fields F32 F64 a (expF32UI a)); [change (mb F32) with 23|change (mb F64) with 52|exact P|exact Hm]; lia.
Qed.

Lemma narrow_nan (a : Z) (s : env) : is_enc F64 a ->
  (bind (softfloat_f64UIToCommonNaN a) (fun n => ret (u32 (softfloat_commonNaNToF32UI n)))) s =
  (convert_nan F64 F32 a, raised_env (if signalingb F64 a then softfloat_flag_invalid else 0) s).
Proof.
  intros Ha. destruct (F64_fields a Ha) as (_ & _ & Hm & P & _). unfold bind, ret. rewrite common_nan64 by assumption.
  rewrite nan_to32 by lia. f_equal. symmetry. apply (convert_nan_fields F64 F32 a (expF64UI a)); [change (mb F64) with 52|change (mb F32) with 23|exact P|exact Hm]; lia.
Qed.

(** ** Widening *)
Lemma f32_to_f64_spec (a : Z) (s : env) : is_enc F32 a -> convert_spec F32 F64 s a (f32_to_f64 a s).
Proof.
  intros Ha. unfold convert_spec, f32_to_f64. pose proof (widen_nan a s Ha) as WN.
  destruct (F32_fields a Ha) as (Sa & Ea & Ma & Pa & Wa). destruct (classes F32 a _ _ Ea Ma Pa) as (-> & -> & _).
  rewrite Sa, Pa. cbv zeta. change (2 ^ eb F32 - 1) with 0xFF.
  set (e := expF32UI a) in *. set (m := fracF32UI a) in *. set (sgn := sign_of F32 a). clearbody e m sgn.
  destruct (Z.eqb_spec e 0xFF) as [E|E]; cbn [andb].
  { destruct (z2b m); cbn [negb]; [exact WN|]. unfold ret. now rewrite infinity64_eq. }
  destruct (z2b e || z2b m) eqn:O.
  - destruct (operand32_cases e m ltac:(lia) Ma O) as [(Q & H)|(Q & Q' & H)].
    + rewrite Q. cbn [negb]. rewrite mag32_fields by lia. unfold z2b in Q. apply negb_true_iff in Q. rewrite Q. apply Z.eqb_neq in Q.
      rewrite shl_mul, (uwrap_small 64), packToF64UI_eq by lia. apply exact64_result; [lia|].
      rewrite mag64_fields by lia. replace (e + 0x380 =? 0) with false by lia.
      replace (2 ^ 52 + m * 2 ^ 29) with ((2 ^ 23 + m) * 2 ^ 29) by lia.
      rewrite mult_IZR, <- (pow2_IZR 29), Rmult_assoc, <- pow2_add by lia. do 2 f_equal.
      change (emin F64) with (-1074). change (emin F32) with (-149). lia.
    + rewrite Q, Q'. cbn [negb]. destruct (softfloat_normSubnormalF32Sig_spec m) as (B1 & B2 & X).
      { unfold z2b in Q'. destruct (Z.eqb_spec m 0); [discriminate|lia]. }
      set (n := softfloat_normSubnormalF32Sig m) in *.
      rewrite mag32_fields by lia. unfold z2b in Q. apply negb_false_iff in Q. rewrite Q. apply Z.eqb_eq in Q. rewrite Q.
      change (Z.max 0 1 - 1 + emin F32) with (emin F32). rewrite X.
      rewrite shl_mul, (uwrap_small 64), packToF64UI_eq by lia. apply exact64_result; [lia|].
      rewrite mag64_pack by lia. rewrite mult_IZR, <- (pow2_IZR 29), Rmult_assoc, <- pow2_add by lia. do 2 f_equal.
      change (emin F64) with (-1074). change (emin F32) with (-149). lia.
  - apply orb_false_iff in O as [Q Q']. rewrite Q, Q'. cbn [negb]. apply zero64_result.
    unfold z2b in Q, Q'. apply negb_false_iff, Z.eqb_eq in Q. apply negb_false_iff, Z.eqb_eq in Q'. subst. apply (mag_zero F32).
Qed.

(** ** Narrowing *)
Lemma f64_to_f32_spec (a : Z) (s : env) : is_enc F64 a -> convert_spec F64 F32 s a (f64_to_f32 a s).
Proof.
  intros Ha. unfold convert_spec, f64_to_f32. pose proof (narrow_nan a s Ha) as WN.
  destruct (F64_fields a Ha) as (Sa & Ea & Ma & Pa & Wa). destruct (classes F64 a _ _ Ea Ma Pa) as (-> & -> & _).
  rewrite Sa, Pa. cbv zeta. change (2 ^ eb F64 - 1) with 0x7FF.
  set (e := expF64UI a) in *. set (m := fracF64UI a) in *. set (sgn := sign_of F64 a). clearbody e m sgn.
  destruct (Z.eqb_spec e 0x7FF) as [E|E]; cbn [andb].
  { destruct (z2b m); cbn [negb]; [exact WN|]. unfold ret. now rewrite infinity32_eq. }
  rewrite softfloat_shortShiftRightJam64_jam by lia.
  assert (J : 0 <= jam m 22 < 2 ^ 30 /\ (jam m 22 = 0 <-> m = 0)) by (rewrite jam_eq by lia; destruct (Z.eqb_spec (m mod 2 ^ 22) 0); zdm).
  rewrite z2b_lor by lia. rewrite mag64_fields by lia.
  assert (L : jam m 22 .| 0x40000000 = 2 ^ 30 + jam m 22)
    by (rewrite Z.lor_comm; change 0x40000000 with (1 * 2 ^ 30); rewrite lor_disjoint; lia).
  rewrite L. clear L. unfold z2b. destruct (Z.eqb_spec e 0) as [->|N]; cbn [negb orb].
  - destruct (Z.eqb_spec (jam m 22) 0) as [Q|Q]; cbn [negb].
    + assert (m = 0) as -> by lia. apply zero_result. ring.
    + set (j := jam m 22) in *. clearbody j.
      assert (H : rounded_result F32 s sgn (IZR (2 ^ 30 + j) * pow2 (-1053)) (softfloat_roundPackToF32 sgn (0 - 0x381) (2 ^ 30 + j) s)).
      { apply softfloat_roundPackToF32_rounds with (k := 0) (y := IZR (2 ^ 30 + j)); try lia; [apply (same_exact 1)|].
        do 2 f_equal. }
      assert (T : forall w, 0 < w < 2 ^ 53 -> forall t, t <= -1053 -> (0 < IZR w * pow2 t < pow2 (emin F32 - 1))%R).
      { intros w Hw t Ht. pose proof (tiny_bound w 53 (t + 150) Hw ltac:(lia) ltac:(lia)) as [T1 T2].
        replace t with (t + 150 + -150) by lia. rewrite pow2_add, <- Rmult_assoc. change (emin F32 - 1) with (-150).
        pose proof (pow2_pos (-150)). split; [now apply Rmult_lt_0_compat|].
        rewrite <- (Rmult_1_l (pow2 (-150))) at 2. now apply Rmult_lt_compat_r. }
      rewrite (rounded_result_unique F32 _ _ _ _ _ H (tiny_rounded F32 s sgn _ (T (2 ^ 30 + j) ltac:(lia) (-1053) ltac:(lia)))).
      apply (tiny_rounded F32). apply T; [lia|]. change (Z.max 0 1 - 1 + emin F64) with (-1074). lia.
  - assert (S : same (2 ^ 1) (2 ^ 30 + jam m 22) (IZR (2 ^ 30) + IZR m * pow2 (- (22)))).
    { apply same_add; [exists (2 ^ 29); reflexivity|]. apply same_pow with (Z.max 1 (0 - 22)); [lia|].
      apply same_jam; try lia. apply (same_exact 1). }
    apply softfloat_roundPackToF32_rounds with (k := 1) (y := (IZR (2 ^ 30) + IZR m * pow2 (- (22)))%R); try lia; [exact S|].
    replace (IZR (2 ^ 30) + IZR m * pow2 (- (22)))%R with (IZR (2 ^ 52 + m) * pow2 (- (22)))%R.
    + rewrite Rmult_assoc, <- pow2_add. do 2 f_equal. change (emin F64) with (-1074). change (emin F32) with (-149). lia.
    + rewrite plus_IZR, Rmult_plus_distr_r. f_equal. rewrite pow2_opp, (pow2_IZR 22) by lia.
      change (2 ^ 52) with (2 ^ 30 * 2 ^ 22). rewrite mult_IZR. field. apply not_0_IZR. discriminate.
Qed.
