(* ===== verification/Integral.v ===== *)
(** Rounding to an integral value: the translation of [f32_roundToInt.c] and
    [f64_roundToInt.c].  It is exact where it can be and correctly rounded elsewhere. *)
From Stdlib Require Import ZArith Bool Lia Reals Lra.
From S2P Require Import Prelude Ieee Rounding RoundPack Softfloat Primitives Machine Contract F32 F32Round F32Arith F64 F64Round F64Arith ToInt Truncate.
Local Open Scope Z_scope.
Local Open Scope c_scope.
Local Open Scope M_scope.

Definition f32_roundToInt (a roundingMode : Z) (exact : bool) : M Z :=
  let uiA := a in
  let exp := expF32UI uiA in
  if exp <=? 0x7E then
    if negb (z2b (u32 (u64 (uiA << 1)))) then ret a
    else
      when exact (softfloat_raiseFlags softfloat_flag_inexact) ;;;
      let uiZ := uiA .& packToF32UI true 0 0 in
      let near_maxMag := if exp =? 0x7E then uiZ .| packToF32UI false 0x7F 0 else uiZ in
      let uiZ :=
        if roundingMode =? softfloat_round_near_even then
          if negb (z2b (fracF32UI uiA)) then uiZ else near_maxMag
        else if roundingMode =? softfloat_round_near_maxMag then near_maxMag
        else if roundingMode =? softfloat_round_min then
          if z2b uiZ then packToF32UI true 0x7F 0 else uiZ
        else if roundingMode =? softfloat_round_max then
          if negb (z2b uiZ) then packToF32UI false 0x7F 0 else uiZ
        else uiZ in
      ret (u32 uiZ)
  else if 0x96 <=? exp then
    if (exp =? 0xFF) && z2b (fracF32UI uiA) then
      uiZ <- softfloat_propagateNaNF32UI uiA 0 ;; ret (u32 uiZ)
    else ret a
  else
    let uiZ := uiA in
    let lastBitMask := u64 (1 << (0x96 - exp)) in
    let roundBitsMask := u64 (lastBitMask - 1) in
    let uiZ :=
      if roundingMode =? softfloat_round_near_maxMag then u64 (uiZ + (lastBitMask >> 1))
      else if roundingMode =? softfloat_round_near_even then
        let uiZ := u64 (uiZ + (lastBitMask >> 1)) in
        if negb (z2b (uiZ .& roundBitsMask)) then uiZ .& u64 (Z.lnot lastBitMask) else uiZ
      else if roundingMode =? (if signF32UI uiZ then softfloat_round_min else softfloat_round_max) then
        u64 (uiZ + roundBitsMask)
      else uiZ in
    let uiZ := uiZ .& u64 (Z.lnot roundBitsMask) in
    when (negb (uiZ =? uiA)) (when exact (softfloat_raiseFlags softfloat_flag_inexact)) ;;;
    ret (u32 uiZ).

Definition f64_roundToInt (a roundingMode : Z) (exact : bool) : M Z :=
  let uiA := a in
  let exp := expF64UI uiA in
  if exp <=? 0x3FE then
    if negb (z2b (uiA .& 0x7FFFFFFFFFFFFFFF)) then ret a
    else
      when exact (softfloat_raiseFlags softfloat_flag_inexact) ;;;
      let uiZ := uiA .& packToF64UI true 0 0 in
      let near_maxMag := if exp =? 0x3FE then uiZ .| packToF64UI false 0x3FF 0 else uiZ in
      let uiZ :=
        if roundingMode =? softfloat_round_near_even then
          if negb (z2b (fracF64UI uiA)) then uiZ else near_maxMag
        else if roundingMode =? softfloat_round_near_maxMag then near_maxMag
        else if roundingMode =? softfloat_round_min then
          if z2b uiZ then packToF64UI true 0x3FF 0 else uiZ
        else if roundingMode =? softfloat_round_max then
          if negb (z2b uiZ) then packToF64UI false 0x3FF 0 else uiZ
        else uiZ in
      ret uiZ
  else if 0x433 <=? exp then
    if (exp =? 0x7FF) && z2b (fracF64UI uiA) then softfloat_propagateNaNF64UI uiA 0
    else ret a
  else
    let uiZ := uiA in
    let lastBitMask := u64 (1 << (0x433 - exp)) in
    let roundBitsMask := u64 (lastBitMask - 1) in
    let uiZ :=
      if roundingMode =? softfloat_round_near_maxMag then u64 (uiZ + (lastBitMask >> 1))
      else if roundingMode =? softfloat_round_near_even then
        let uiZ := u64 (uiZ + (lastBitMask >> 1)) in
        if negb (z2b (uiZ .& roundBitsMask)) then uiZ .& u64 (Z.lnot lastBitMask) else uiZ
      else if roundingMode =? (if signF64UI uiZ then softfloat_round_min else softfloat_round_max) then
        u64 (uiZ + roundBitsMask)
      else uiZ in
    let uiZ := uiZ .& u64 (Z.lnot roundBitsMask) in
    when (negb (uiZ =? uiA)) (when exact (softfloat_raiseFlags softfloat_flag_inexact)) ;;;
    ret uiZ.

(** ** Rounding to an integral value is exact where it can be and correctly rounded elsewhere *)
#[local] Close Scope M_scope.

(** ** Rounding inside a word *)
Lemma round_word (mode : Z) (sign : bool) (a k : Z) (last := u64 (1 << k)) (mask := u64 (last - 1)) :
  1 <= k <= 62 -> 0 <= a -> a + 2 ^ k <= 2 ^ 64 ->
  (let z :=
     if mode =? softfloat_round_near_maxMag then u64 (a + (last >> 1))
     else if mode =? softfloat_round_near_even then
       let z := u64 (a + (last >> 1)) in
       if negb (z2b (z .& mask)) then z .& u64 (Z.lnot last) else z
     else if mode =? (if sign then softfloat_round_min else softfloat_round_max) then u64 (a + mask)
     else a in
   z .& u64 (Z.lnot mask)) = 2 ^ k * round_sig (mag_direction mode sign) k a.
Proof.
  intros Hk Ha Hw. destruct (pow2_half k ltac:(lia)) as [P1 P2].
  assert (L : last = 2 ^ k).
  { unfold last. rewrite shl_mul, Z.mul_1_l by lia. apply uwrap_small. split; [lia|]. apply Z.pow_lt_mono_r; lia. }
  assert (Mk : mask = 2 ^ k - 1) by (unfold mask; rewrite L; apply uwrap_small; lia). clearbody mask last. subst last mask.
  assert (Clear : forall x, 0 <= x < 2 ^ 64 -> x .& u64 (Z.lnot (2 ^ k - 1)) = 2 ^ k * (x / 2 ^ k)).
  { intros x Hx. rewrite Z.land_comm, land_lnot, Z.land_comm, (land_low _ _ k) by (try (rewrite Z.ones_equiv); lia).
    pose proof (Z.div_mod x (2 ^ k) ltac:(lia)). lia. }
  assert (D : forall x, 0 <= x -> 0 <= x / 2 ^ k) by (intros; apply Z.div_pos; lia).
  rewrite shr_div by lia. replace (2 ^ k / 2 ^ 1) with (2 ^ (k - 1)) by (rewrite P1; change (2 ^ 1) with 2; symmetry; rewrite Z.mul_comm; apply Z.div_mul; lia).
  unfold round_sig, mag_direction. cbv zeta.
  destruct (Z.eqb_spec mode softfloat_round_near_maxMag) as [->|N1].
  { change (softfloat_round_near_maxMag =? softfloat_round_near_even) with false. cbn [is_nearest_even andb increment].
    rewrite uwrap_small, Clear by lia. reflexivity. }
  destruct (mode =? softfloat_round_near_even); cbn [is_nearest_even andb increment].
  - rewrite uwrap_small by lia. set (x := a + 2 ^ (k - 1)).
    rewrite (land_low x (2 ^ k - 1) k) by (try (rewrite Z.ones_equiv); lia).
    assert (T : negb (z2b (x mod 2 ^ k)) = (a mod 2 ^ k =? 2 ^ (k - 1))).
    { unfold z2b. rewrite negb_involutive. apply eq_true_iff_eq. rewrite !Z.eqb_eq. unfold x.
      pose proof (Z.div_mod a (2 ^ k) ltac:(lia)) as E. pose proof (Z.mod_pos_bound a (2 ^ k) ltac:(lia)) as B.
      set (q := a / 2 ^ k) in *. set (r := a mod 2 ^ k) in *. clearbody q r. subst a.
      destruct (Z.lt_ge_cases r (2 ^ (k - 1))).
      - replace ((2 ^ k * q + r + 2 ^ (k - 1)) mod 2 ^ k) with (r + 2 ^ (k - 1)) by (apply Z.mod_unique_pos with q; lia). lia.
      - replace ((2 ^ k * q + r + 2 ^ (k - 1)) mod 2 ^ k) with (r - 2 ^ (k - 1)) by (apply Z.mod_unique_pos with (q + 1); lia). lia. }
    rewrite T. destruct (Z.eqb_spec (a mod 2 ^ k) (2 ^ (k - 1))) as [E|E]; [|apply Clear; unfold x; lia].
    assert (C : x .& u64 (Z.lnot (2 ^ k)) = 2 ^ k * (2 * (x / 2 ^ k / 2))).
    { assert (X0 : x mod 2 ^ k = 0) by (unfold z2b in T; rewrite negb_involutive in T; lia).
      assert (2 ^ k < 2 ^ 64) by (apply Z.pow_lt_mono_r; lia).
      rewrite Z.land_comm, land_lnot, Z.land_comm, (land_field x (2 ^ k) k 1) by (try (change (Z.ones 1) with 1); unfold x; lia).
      pose proof (Z.div_mod x (2 ^ k) ltac:(lia)). pose proof (Z.div_mod (x / 2 ^ k) 2 ltac:(lia)). change (2 ^ 1) with 2. lia. }
    rewrite C. assert (0 <= x / 2 ^ k / 2) by (apply Z.div_pos; [apply D; unfold x; lia|lia]).
    rewrite Clear.
    + f_equal. rewrite Z.mul_comm. apply Z.div_mul. lia.
    + rewrite <- C. split; [rewrite C; lia|]. rewrite C.
      pose proof (Z.mul_div_le x (2 ^ k) ltac:(lia)). pose proof (Z.mul_div_le (x / 2 ^ k) 2 ltac:(lia)). unfold x in *. nia.
  - destruct (mode =? _).
    + rewrite uwrap_small, Clear by lia. cbn [is_nearest_even andb increment]. reflexivity.
    + rewrite Clear by lia. cbn [is_nearest_even andb increment]. now rewrite Z.add_0_r.
Qed.

(** An even multiple in front does not change the rounding. *)
Lemma round_sig_shift (d : direction) (k c w : Z) : 1 <= k ->
  round_sig d k (c * 2 * 2 ^ k + w) = c * 2 + round_sig d k w.
Proof.
  intros Hk. destruct (pow2_half k Hk) as [P1 P2]. unfold round_sig.
  replace (c * 2 * 2 ^ k + w + increment d k) with (w + increment d k + c * 2 * 2 ^ k) by ring.
  rewrite (Z.add_comm (c * 2 * 2 ^ k) w), Z.div_add, Z.mod_add by lia.
  set (n := (w + increment d k) / 2 ^ k). destruct (_ && _); [|lia].
  rewrite Z.div_add by lia. ring.
Qed.

(** ** Below one *)
Lemma rint_small (d : direction) (x : R) (n : Z) : (0 < x < 1)%R ->
  match d with
  | NearestEven => n = 0 /\ (x <= / 2)%R \/ n = 1 /\ (/ 2 < x)%R
  | NearestAway => n = 0 /\ (x < / 2)%R \/ n = 1 /\ (/ 2 <= x)%R
  | TowardZero => n = 0
  | AwayFromZero => n = 1
  end -> rint d x n.
Proof.
  intros Hx C. destruct d; simpl.
  - destruct C as [[-> C]|[-> C]].
    + destruct (Req_dec x (/ 2)) as [->|N]; [right; split; [|reflexivity]|left]; case_rabs; lra.
    + left. case_rabs; lra.
  - destruct C as [[-> C]|[-> C]]; lra.
  - subst n. lra.
  - subst n. lra.
Qed.

(** The three outcomes of rounding a finite number, in the form of the contract. *)
Section Outcome.
Context (f : format) {V : ValidFormat f} (s : env) (d : direction) (exact : bool) (a : Z).
Context (Ha : is_finite f a).

Lemma integral_outcome (b n : Z) (inexact : bool) (r : Z * env) :
  0 <= b < inf_pattern f -> rint d (mag f (pattern_of f a)) n -> mag f b = IZR n ->
  (inexact = true -> mag f b <> mag f (pattern_of f a)) -> (inexact = false -> mag f b = mag f (pattern_of f a)) ->
  r = (with_sign f (sign_of f a) b, raised_env (if exact && inexact then softfloat_flag_inexact else 0) s) ->
  integral_spec f s d exact a r.
Proof.
  intros Hb Hn M I1 I2 ->. unfold integral_spec, nanb, infb. destruct Ha as [_ F].
  replace (inf_pattern f <? pattern_of f a) with false by lia. replace (pattern_of f a =? inf_pattern f) with false by lia.
  exists b, n. split; [assumption|]. split; [assumption|]. split; [assumption|].
  eexists. split; [reflexivity|]. destruct exact, inexact; cbn [andb]; [right|left|left|left]; try tauto.
Qed.

Lemma integral_same (n : Z) (r : Z * env) : mag f (pattern_of f a) = IZR n ->
  r = (with_sign f (sign_of f a) (pattern_of f a), s) -> integral_spec f s d exact a r.
Proof.
  intros M ->. apply integral_outcome with (b := pattern_of f a) (n := n) (inexact := false);
    [|rewrite M; apply rint_IZR|exact M|discriminate|reflexivity|].
  - split; [apply Z.mod_pos_bound, Z.pow_pos_nonneg; destruct V; lia|apply Ha].
  - now rewrite andb_false_r, raised_env_0.
Qed.
End Outcome.

Lemma word_sign32 (sign : bool) : b2z sign * 2 ^ 31 = with_sign F32 sign 0.
Proof. destruct sign; reflexivity. Qed.

(** What the switch on the rounding mode computes for a number below one. *)
Lemma below_one32 (a mode : Z) (exact : bool) (s : env) : is_enc F32 a -> expF32UI a <= 0x7E -> pattern_of F32 a <> 0 ->
  integral_spec F32 s (mag_direction mode (sign_of F32 a)) exact a
    ((bind (when exact (softfloat_raiseFlags softfloat_flag_inexact)) (fun _ =>
      let uiZ := a .& packToF32UI true 0 0 in
      let near_maxMag := if expF32UI a =? 0x7E then uiZ .| packToF32UI false 0x7F 0 else uiZ in
      let uiZ :=
        if mode =? softfloat_round_near_even then
          if negb (z2b (fracF32UI a)) then uiZ else near_maxMag
        else if mode =? softfloat_round_near_maxMag then near_maxMag
        else if mode =? softfloat_round_min then
          if z2b uiZ then packToF32UI true 0x7F 0 else uiZ
        else if mode =? softfloat_round_max then
          if negb (z2b uiZ) then packToF32UI false 0x7F 0 else uiZ
        else uiZ in
      ret (u32 uiZ))) s).
Proof.
  intros Ha He0 Hp. destruct (f32_view a Ha) as (He & Hm & Hw & Hn & M & Z0 & Fin).
  destruct (F32_fields a Ha) as (_ & _ & _ & P & W).
  assert (S : a .& packToF32UI true 0 0 = b2z (sign_of F32 a) * 2 ^ 31).
  { change (packToF32UI true 0 0) with 0x80000000. rewrite (land_field a 0x80000000 31 1) by (reflexivity || lia).
    f_equal. rewrite W at 1. unfold with_sign. change (sign_weight F32) with (2 ^ 31).
    pose proof (Z.mod_pos_bound a (2 ^ 31) ltac:(lia)) as B. change (a mod 2 ^ 31) with (pattern_of F32 a) in B.
    rewrite Z.div_add_l, (Z.div_small (pattern_of F32 a)) by lia. destruct (sign_of F32 a); reflexivity. }
  rewrite S. cbv zeta.
  set (e := expF32UI a) in *. set (m := fracF32UI a) in *. set (w := if e =? 0 then m else 2 ^ 23 + m) in *.
  assert (W0 : 0 < w) by (unfold w in *; destruct (Z.eqb_spec e 0); nia).
  set (t := 150 - Z.max e 1) in *.
  assert (Mb : (0 < mag F32 (pattern_of F32 a) < 1)%R) by (rewrite M; apply (tiny_bound w 24); lia).
  assert (Half : (e = 0x7E /\ m = 0 -> mag F32 (pattern_of F32 a) = (/ 2)%R) /\
    (e = 0x7E /\ m <> 0 -> (/ 2 < mag F32 (pattern_of F32 a))%R) /\ (e < 0x7E -> (mag F32 (pattern_of F32 a) < / 2)%R)).
  { rewrite M. split; [|split].
    - intros [E Em]. destruct (Hn ltac:(lia)) as [W1 _]. rewrite W1, Em. unfold t. rewrite E, Z.add_0_r. change (- (150 - Z.max 0x7E 1)) with (- 24). rewrite <- (pow2_IZR 23), <- pow2_add by lia. apply pow2_m1.
    - intros [E Nm]. destruct (Hn ltac:(lia)) as [W1 _]. rewrite W1. unfold t. rewrite E. change (- (150 - Z.max 0x7E 1)) with (- 24).
      apply Rle_lt_trans with (IZR (2 ^ 23) * pow2 (- 24))%R; [rewrite <- (pow2_IZR 23), <- pow2_add by lia; right; symmetry; apply pow2_m1|].
      apply Rmult_lt_compat_r; [auto|]. apply IZR_lt. lia.
    - intros E. pose proof (tiny_bound w 24 (1 - t) ltac:(lia) ltac:(lia) ltac:(lia)) as [_ T].
      replace (- t) with (1 - t + -1) by lia. rewrite pow2_add, pow2_m1. lra. }
  unfold bind. rewrite when_raise.
  assert (Out : forall n, (n = 0 \/ n = 1) -> rint (mag_direction mode (sign_of F32 a)) (mag F32 (pattern_of F32 a)) n ->
    forall z, z = b2z (sign_of F32 a) * 2 ^ 31 + n * (0x7F * 2 ^ 23) ->
    integral_spec F32 s (mag_direction mode (sign_of F32 a)) exact a
      (ret (u32 z) (raised_env (if exact then softfloat_flag_inexact else 0) s))).
  { intros n C R z ->. assert (Mn : mag F32 (n * (0x7F * 2 ^ 23)) = IZR n).
    { destruct C as [-> | ->]; [apply (mag_zero F32)|]. pose proof (mag32_pack 0x7E (2 ^ 23) ltac:(lia) ltac:(lia) ltac:(lia)) as M1.
      change (1 * (0x7F * 2 ^ 23)) with (0x7E * 2 ^ 23 + 2 ^ 23). rewrite M1, <- (pow2_IZR 23), <- pow2_add by lia. reflexivity. }
    apply (integral_outcome F32 s _ exact a (Fin ltac:(lia)) (n * (0x7F * 2 ^ 23)) n true); [|exact R|exact Mn| |discriminate|].
    - change (inf_pattern F32) with (0xFF * 2 ^ 23). lia.
    - intros _. rewrite Mn. destruct C as [-> | ->]; lra.
    - rewrite andb_true_r. unfold ret, with_sign. change (sign_weight F32) with (2 ^ 31).
      rewrite uwrap_small; [reflexivity|]. destruct (sign_of F32 a); cbn [Z.b2z]; lia. }
  assert (One : b2z (sign_of F32 a) * 2 ^ 31 .| packToF32UI false 0x7F 0 = b2z (sign_of F32 a) * 2 ^ 31 + 1 * (0x7F * 2 ^ 23))
    by (destruct (sign_of F32 a); reflexivity).
  destruct Half as (H1 & H2 & H3). clearbody e m w t. clear W Z0 S Hn M.
  unfold mag_direction in *. destruct (mode =? softfloat_round_near_even); [|destruct (mode =? softfloat_round_near_maxMag)].
  - unfold z2b. destruct (Z.eqb_spec m 0) as [Em|Em]; cbn [negb].
    + apply (Out 0); [now left|apply rint_small; [assumption|]|ring]. left. split; [reflexivity|].
      destruct (Z.eq_dec e 0x7E) as [E|E]; [specialize (H1 (conj E Em)); lra|specialize (H3 ltac:(lia)); lra].
    + destruct (Z.eqb_spec e 0x7E) as [E|E].
      * apply (Out 1); [now right|apply rint_small; [assumption|]|exact One]. right. split; [reflexivity|]. apply H2. tauto.
      * apply (Out 0); [now left|apply rint_small; [assumption|]|ring]. left. split; [reflexivity|]. specialize (H3 ltac:(lia)). lra.
  - destruct (Z.eqb_spec e 0x7E) as [E|E].
    + apply (Out 1); [now right|apply rint_small; [assumption|]|exact One]. right. split; [reflexivity|].
      destruct (Z.eq_dec m 0); [specialize (H1 ltac:(tauto)); lra|specialize (H2 ltac:(tauto)); lra].
    + apply (Out 0); [now left|apply rint_small; [assumption|]|ring]. left. split; [reflexivity|]. apply H3. lia.
  - destruct (sign_of F32 a); cbn [Z.b2z] in *.
    + change (z2b (1 * 2 ^ 31)) with true. cbn [negb]. destruct (mode =? softfloat_round_min).
      * apply (Out 1); [now right|now apply rint_small|reflexivity].
      * destruct (mode =? softfloat_round_max); (apply (Out 0); [now left|now apply rint_small|ring]).
    + change (z2b (0 * 2 ^ 31)) with false. cbn [negb]. destruct (Z.eqb_spec mode softfloat_round_min) as [->|E].
      * change (softfloat_round_min =? softfloat_round_max) with false in *. apply (Out 0); [now left|now apply rint_small|ring].
      * destruct (mode =? softfloat_round_max); [apply (Out 1); [now right|now apply rint_small|reflexivity]|].
        apply (Out 0); [now left|now apply rint_small|ring].
Qed.

Lemma pow_split (a b c : Z) : 0 <= a -> 0 <= b -> c = a + 1 + b -> 2 ^ c = 2 ^ a * 2 * 2 ^ b.
Proof. intros Ha Hb ->. rewrite !Z.pow_add_r by lia. reflexivity. Qed.

(** From one up to where every number is integral. *)
Lemma middle32 (a mode : Z) (exact : bool) (s : env) : is_enc F32 a -> 0x7F <= expF32UI a < 0x96 ->
  let z := 2 ^ (0x96 - expF32UI a) * round_sig (mag_direction mode (sign_of F32 a)) (0x96 - expF32UI a) a in
  integral_spec F32 s (mag_direction mode (sign_of F32 a)) exact a
    (bind (when (negb (z =? a)) (when exact (softfloat_raiseFlags softfloat_flag_inexact))) (fun _ => ret (u32 z)) s).
Proof.
  intros Ha He0 z. destruct (f32_view a Ha) as (He & Hm & Hw & Hn & M & _ & Fin).
  destruct (F32_fields a Ha) as (_ & _ & _ & P & W). destruct (Hn ltac:(lia)) as [W1 _]. rewrite W1 in M.
  set (d := mag_direction mode (sign_of F32 a)) in *. specialize (Fin ltac:(lia)).
  subst z. set (e := expF32UI a) in *. set (m := fracF32UI a) in *. set (k := 0x96 - e).
  replace (- (150 - Z.max e 1)) with (- k) in M by lia.
  assert (K : 1 <= k <= 23) by lia.
  assert (Pk : 2 ^ 24 = 2 ^ (23 - k) * 2 * 2 ^ k) by (apply pow_split; lia).
  assert (C : exists c, a = c * 2 * 2 ^ k + (2 ^ 23 + m) /\ c * 2 * 2 ^ k = b2z (sign_of F32 a) * 2 ^ 31 + (e - 1) * 2 ^ 23).
  { destruct (Z.eq_dec k 23) as [E|E].
    - exists (b2z (sign_of F32 a) * 2 ^ 7 + (e - 1) / 2). replace e with 127 in * by lia. rewrite E.
      split; [rewrite W at 1; rewrite P; unfold with_sign; change (sign_weight F32) with (2 ^ 31)|]; change ((127 - 1) / 2) with 63; ring.
    - assert (Q : 2 ^ 23 = 2 ^ (22 - k) * 2 * 2 ^ k) by (apply pow_split; lia).
      exists ((b2z (sign_of F32 a) * 2 ^ 8 + (e - 1)) * 2 ^ (22 - k)).
      assert (X : (b2z (sign_of F32 a) * 2 ^ 8 + (e - 1)) * 2 ^ (22 - k) * 2 * 2 ^ k = b2z (sign_of F32 a) * 2 ^ 31 + (e - 1) * 2 ^ 23)
        by (rewrite <- !Z.mul_assoc, (Z.mul_assoc (2 ^ (22 - k))), <- Q; ring).
      split; [|exact X]. rewrite X. rewrite W at 1. rewrite P. unfold with_sign. change (sign_weight F32) with (2 ^ 31). ring. }
  destruct C as (c & A & C). set (n := round_sig d k (2 ^ 23 + m)).
  assert (R : 2 ^ k * round_sig d k a = b2z (sign_of F32 a) * 2 ^ 31 + ((e - 1) * 2 ^ 23 + n * 2 ^ k))
    by (rewrite A at 1; rewrite round_sig_shift by lia; fold n;
        replace (2 ^ k * (c * 2 + n)) with (c * 2 * 2 ^ k + n * 2 ^ k) by ring; rewrite C; ring).
  assert (Pos : 0 < 2 ^ k) by (apply Z.pow_pos_nonneg; lia).
  assert (B : 2 ^ 23 <= n * 2 ^ k <= 2 ^ 24).
  { pose proof (round_sig_between k (2 ^ 23 + m) ltac:(lia) d) as Bt. fold n in Bt.
    assert (Q : 2 ^ 23 = 2 ^ (23 - k) * 2 ^ k) by (rewrite <- Z.pow_add_r by lia; f_equal; lia).
    assert (2 ^ (23 - k) <= (2 ^ 23 + m) / 2 ^ k < 2 * 2 ^ (23 - k)) by (split; [apply Z.div_le_lower_bound; lia|apply Z.div_lt_upper_bound; lia]). nia. }
  assert (Mn : mag F32 ((e - 1) * 2 ^ 23 + n * 2 ^ k) = IZR n).
  { rewrite mag32_pack by lia. rewrite mult_IZR, <- pow2_IZR, Rmult_assoc, <- pow2_add by lia.
    replace (k + (e - 1 + emin F32)) with 0 by (change (emin F32) with (-149); lia). rewrite pow2_0. ring. }
  pose proof (same_exact 1 (2 ^ 23 + m)) as Sx. apply (same_pow 0 (k - 1)) in Sx; [|lia].
  unfold bind. rewrite when_when. rewrite R.
  pose proof (round_sig_exact k (2 ^ 23 + m) ltac:(lia) d _ Sx) as Ex. fold n in Ex.
  apply (integral_outcome F32 s d exact a Fin ((e - 1) * 2 ^ 23 + n * 2 ^ k) n (negb (b2z (sign_of F32 a) * 2 ^ 31 + ((e - 1) * 2 ^ 23 + n * 2 ^ k) =? a))).
  - change (inf_pattern F32) with (0xFF * 2 ^ 23). lia.
  - rewrite M. exact (round_sig_rint k (2 ^ 23 + m) ltac:(lia) d _ Sx).
  - exact Mn.
  - intros I. apply negb_true_iff, Z.eqb_neq in I. rewrite Mn, M. intros Eq. symmetry in Eq. apply Ex in Eq.
    apply I. rewrite A at 2. rewrite C. pose proof (round_sig_value k (2 ^ 23 + m) ltac:(lia) d) as V. fold n in V.
    rewrite Eq in V. assert (V' : n = (2 ^ 23 + m) / 2 ^ k).
    { assert (H0 : 0 < 2 ^ (k - 1)) by (apply Z.pow_pos_nonneg; lia). rewrite V. clear - H0.
      set (q := (2 ^ 23 + m) / 2 ^ k). set (h := 2 ^ (k - 1)) in *. clearbody q h.
      apply Z.ltb_lt in H0. destruct d; rewrite ?H0; reflexivity. }
    pose proof (Z.div_mod (2 ^ 23 + m) (2 ^ k) ltac:(lia)). rewrite V'. lia.
  - intros I. apply negb_false_iff, Z.eqb_eq in I. rewrite P. f_equal.
    rewrite P in W. unfold with_sign in W. change (sign_weight F32) with (2 ^ 31) in W. lia.
  - f_equal. unfold with_sign. change (sign_weight F32) with (2 ^ 31). unfold ret. rewrite uwrap_small; [reflexivity|].
    destruct (sign_of F32 a); cbn [Z.b2z]; lia.
Qed.

Lemma f32_roundToInt_spec (a mode : Z) (exact : bool) (s : env) : is_enc F32 a ->
  integral_spec F32 s (mag_direction mode (sign_of F32 a)) exact a (f32_roundToInt a mode exact s).
Proof.
  intros Ha. unfold f32_roundToInt. cbv zeta. destruct (F32_fields a Ha) as (Sa & Ea & Ma & Pa & Wa).
  assert (U : u32 a = a) by (apply uwrap_small; unfold is_enc in Ha; change (2 * sign_weight F32) with (2 ^ 32) in Ha; lia).
  destruct (Z.leb_spec (expF32UI a) 0x7E) as [L|L]; [|destruct (Z.leb_spec 0x96 (expF32UI a)) as [L2|L2]].
  - pose proof (both_zero32 a a) as Z0. rewrite Z.lor_diag, andb_diag in Z0. unfold z2b at 1. rewrite negb_involutive, Z0.
    destruct (Z.eqb_spec (pattern_of F32 a) 0) as [E|E]; [|now apply below_one32].
    destruct (f32_view a Ha) as (_ & _ & _ & _ & _ & _ & Fin).
    apply (integral_same F32 s _ exact a (Fin ltac:(lia)) 0); [rewrite E; apply (mag_zero F32)|]. unfold ret. f_equal. exact Wa.
  - destruct (classes F32 a _ _ Ea Ma Pa) as (Na & Ia & _). change (2 ^ eb F32 - 1) with 0xFF in *.
    destruct (f32_view a Ha) as (_ & _ & _ & Hn & M & _ & Fin). destruct (Hn ltac:(lia)) as [W1 _]. rewrite W1 in M.
    destruct ((expF32UI a =? 0xFF) && z2b (fracF32UI a)) eqn:N.
    + unfold integral_spec. rewrite Na. apply propagate32; [assumption|]. unfold is_enc. change (sign_weight F32) with (2 ^ 31). lia.
    + destruct (Z.eqb_spec (expF32UI a) 0xFF) as [E|E]; cbn [andb] in *.
      * unfold integral_spec. rewrite Na, Ia, N. reflexivity.
      * apply (integral_same F32 s _ exact a (Fin ltac:(lia)) ((2 ^ 23 + fracF32UI a) * 2 ^ (expF32UI a - 0x96))).
        -- rewrite M, mult_IZR, <- pow2_IZR by lia. do 2 f_equal. lia.
        -- unfold ret. f_equal. exact Wa.
  - pose proof (round_word mode (sign_of F32 a) a (0x96 - expF32UI a) ltac:(lia)) as R.
    assert (Ha' := Ha). unfold is_enc in Ha'. change (2 * sign_weight F32) with (2 ^ 32) in Ha'.
    assert (2 ^ (0x96 - expF32UI a) <= 2 ^ 23) by (apply Z.pow_le_mono_r; lia).
    specialize (R ltac:(lia) ltac:(lia)). cbv zeta in R. rewrite Sa.
    rewrite R. apply middle32; [assumption|lia].
Qed.

(** ** The 64-bit format *)
(** What the switch on the rounding mode computes for a number below one. *)
Lemma below_one64 (a mode : Z) (exact : bool) (s : env) : is_enc F64 a -> expF64UI a <= 0x3FE -> pattern_of F64 a <> 0 ->
  integral_spec F64 s (mag_direction mode (sign_of F64 a)) exact a
    ((bind (when exact (softfloat_raiseFlags softfloat_flag_inexact)) (fun _ =>
      let uiZ := a .& packToF64UI true 0 0 in
      let near_maxMag := if expF64UI a =? 0x3FE then uiZ .| packToF64UI false 0x3FF 0 else uiZ in
      let uiZ :=
        if mode =? softfloat_round_near_even then
          if negb (z2b (fracF64UI a)) then uiZ else near_maxMag
        else if mode =? softfloat_round_near_maxMag then near_maxMag
        else if mode =? softfloat_round_min then
          if z2b uiZ then packToF64UI true 0x3FF 0 else uiZ
        else if mode =? softfloat_round_max then
          if negb (z2b uiZ) then packToF64UI false 0x3FF 0 else uiZ
        else uiZ in
      ret uiZ)) s).
Proof.
  intros Ha He0 Hp. destruct (f64_view a Ha) as (He & Hm & Hw & Hn & M & Z0 & Fin).
  destruct (F64_fields a Ha) as (_ & _ & _ & P & W).
  assert (S : a .& packToF64UI true 0 0 = b2z (sign_of F64 a) * 2 ^ 63).
  { change (packToF64UI true 0 0) with 0x8000000000000000. rewrite (land_field a 0x8000000000000000 63 1) by (reflexivity || lia).
    f_equal. rewrite W at 1. unfold with_sign. change (sign_weight F64) with (2 ^ 63).
    pose proof (Z.mod_pos_bound a (2 ^ 63) ltac:(lia)) as B. change (a mod 2 ^ 63) with (pattern_of F64 a) in B.
    rewrite Z.div_add_l, (Z.div_small (pattern_of F64 a)) by lia. destruct (sign_of F64 a); reflexivity. }
  rewrite S. cbv zeta.
  set (e := expF64UI a) in *. set (m := fracF64UI a) in *. set (w := if e =? 0 then m else 2 ^ 52 + m) in *.
  assert (W0 : 0 < w) by (unfold w in *; destruct (Z.eqb_spec e 0); nia).
  set (t := 1075 - Z.max e 1) in *.
  assert (Mb : (0 < mag F64 (pattern_of F64 a) < 1)%R) by (rewrite M; apply (tiny_bound w 53); lia).
  assert (Half : (e = 0x3FE /\ m = 0 -> mag F64 (pattern_of F64 a) = (/ 2)%R) /\
    (e = 0x3FE /\ m <> 0 -> (/ 2 < mag F64 (pattern_of F64 a))%R) /\ (e < 0x3FE -> (mag F64 (pattern_of F64 a) < / 2)%R)).
  { rewrite M. split; [|split].
    - intros [E Em]. destruct (Hn ltac:(lia)) as [W1 _]. rewrite W1, Em. unfold t. rewrite E, Z.add_0_r. change (- (1075 - Z.max 0x3FE 1)) with (- 53). rewrite <- (pow2_IZR 52), <- pow2_add by lia. apply pow2_m1.
    - intros [E Nm]. destruct (Hn ltac:(lia)) as [W1 _]. rewrite W1. unfold t. rewrite E. change (- (1075 - Z.max 0x3FE 1)) with (- 53).
      apply Rle_lt_trans with (IZR (2 ^ 52) * pow2 (- 53))%R; [rewrite <- (pow2_IZR 52), <- pow2_add by lia; right; symmetry; apply pow2_m1|].
      apply Rmult_lt_compat_r; [auto|]. apply IZR_lt. lia.
    - intros E. pose proof (tiny_bound w 53 (1 - t) ltac:(lia) ltac:(lia) ltac:(lia)) as [_ T].
      replace (- t) with (1 - t + -1) by lia. rewrite pow2_add, pow2_m1. lra. }
  unfold bind. rewrite when_raise.
  assert (Out : forall n, (n = 0 \/ n = 1) -> rint (mag_direction mode (sign_of F64 a)) (mag F64 (pattern_of F64 a)) n ->
    forall z, z = b2z (sign_of F64 a) * 2 ^ 63 + n * (0x3FF * 2 ^ 52) ->
    integral_spec F64 s (mag_direction mode (sign_of F64 a)) exact a
      (ret z (raised_env (if exact then softfloat_flag_inexact else 0) s))).
  { intros n C R z ->. assert (Mn : mag F64 (n * (0x3FF * 2 ^ 52)) = IZR n).
    { destruct C as [-> | ->]; [apply (mag_zero F64)|]. pose proof (mag64_pack 0x3FE (2 ^ 52) ltac:(lia) ltac:(lia) ltac:(lia)) as M1.
      change (1 * (0x3FF * 2 ^ 52)) with (0x3FE * 2 ^ 52 + 2 ^ 52). rewrite M1, <- (pow2_IZR 52), <- pow2_add by lia. reflexivity. }
    apply (integral_outcome F64 s _ exact a (Fin ltac:(lia)) (n * (0x3FF * 2 ^ 52)) n true); [|exact R|exact Mn| |discriminate|].
    - change (inf_pattern F64) with (0x7FF * 2 ^ 52). lia.
    - intros _. rewrite Mn. destruct C as [-> | ->]; lra.
    - rewrite andb_true_r. reflexivity. }
  assert (One : b2z (sign_of F64 a) * 2 ^ 63 .| packToF64UI false 0x3FF 0 = b2z (sign_of F64 a) * 2 ^ 63 + 1 * (0x3FF * 2 ^ 52))
    by (destruct (sign_of F64 a); reflexivity).
  destruct Half as (H1 & H2 & H3). clearbody e m w t. clear W Z0 S Hn M.
  unfold mag_direction in *. destruct (mode =? softfloat_round_near_even); [|destruct (mode =? softfloat_round_near_maxMag)].
  - unfold z2b. destruct (Z.eqb_spec m 0) as [Em|Em]; cbn [negb].
    + apply (Out 0); [now left|apply rint_small; [assumption|]|ring]. left. split; [reflexivity|].
      destruct (Z.eq_dec e 0x3FE) as [E|E]; [specialize (H1 (conj E Em)); lra|specialize (H3 ltac:(lia)); lra].
    + destruct (Z.eqb_spec e 0x3FE) as [E|E].
      * apply (Out 1); [now right|apply rint_small; [assumption|]|exact One]. right. split; [reflexivity|]. apply H2. tauto.
      * apply (Out 0); [now left|apply rint_small; [assumption|]|ring]. left. split; [reflexivity|]. specialize (H3 ltac:(lia)). lra.
  - destruct (Z.eqb_spec e 0x3FE) as [E|E].
    + apply (Out 1); [now right|apply rint_small; [assumption|]|exact One]. right. split; [reflexivity|].
      destruct (Z.eq_dec m 0); [specialize (H1 ltac:(tauto)); lra|specialize (H2 ltac:(tauto)); lra].
    + apply (Out 0); [now left|apply rint_small; [assumption|]|ring]. left. split; [reflexivity|]. apply H3. lia.
  - destruct (sign_of F64 a); cbn [Z.b2z] in *.
    + change (z2b (1 * 2 ^ 63)) with true. cbn [negb]. destruct (mode =? softfloat_round_min).
      * apply (Out 1); [now right|now apply rint_small|reflexivity].
      * destruct (mode =? softfloat_round_max); (apply (Out 0); [now left|now apply rint_small|ring]).
    + change (z2b (0 * 2 ^ 63)) with false. cbn [negb]. destruct (Z.eqb_spec mode softfloat_round_min) as [->|E].
      * change (softfloat_round_min =? softfloat_round_max) with false in *. apply (Out 0); [now left|now apply rint_small|ring].
      * destruct (mode =? softfloat_round_max); [apply (Out 1); [now right|now apply rint_small|reflexivity]|].
        apply (Out 0); [now left|now apply rint_small|ring].
Qed.

(** From one up to where every number is integral. *)
Lemma middle64 (a mode : Z) (exact : bool) (s : env) : is_enc F64 a -> 0x3FF <= expF64UI a < 0x433 ->
  let z := 2 ^ (0x433 - expF64UI a) * round_sig (mag_direction mode (sign_of F64 a)) (0x433 - expF64UI a) a in
  integral_spec F64 s (mag_direction mode (sign_of F64 a)) exact a
    (bind (when (negb (z =? a)) (when exact (softfloat_raiseFlags softfloat_flag_inexact))) (fun _ => ret z) s).
Proof.
  intros Ha He0 z. destruct (f64_view a Ha) as (He & Hm & Hw & Hn & M & _ & Fin).
  destruct (F64_fields a Ha) as (_ & _ & _ & P & W). destruct (Hn ltac:(lia)) as [W1 _]. rewrite W1 in M.
  set (d := mag_direction mode (sign_of F64 a)) in *. specialize (Fin ltac:(lia)).
  subst z. set (e := expF64UI a) in *. set (m := fracF64UI a) in *. set (k := 0x433 - e).
  replace (- (1075 - Z.max e 1)) with (- k) in M by lia.
  assert (K : 1 <= k <= 52) by lia.
  assert (Pk : 2 ^ 53 = 2 ^ (52 - k) * 2 * 2 ^ k) by (apply pow_split; lia).
  assert (C : exists c, a = c * 2 * 2 ^ k + (2 ^ 52 + m) /\ c * 2 * 2 ^ k = b2z (sign_of F64 a) * 2 ^ 63 + (e - 1) * 2 ^ 52).
  { destruct (Z.eq_dec k 52) as [E|E].
    - exists (b2z (sign_of F64 a) * 2 ^ 10 + (e - 1) / 2). replace e with 1023 in * by lia. rewrite E.
      split; [rewrite W at 1; rewrite P; unfold with_sign; change (sign_weight F64) with (2 ^ 63)|]; change ((1023 - 1) / 2) with 511; ring.
    - assert (Q : 2 ^ 52 = 2 ^ (51 - k) * 2 * 2 ^ k) by (apply pow_split; lia).
      exists ((b2z (sign_of F64 a) * 2 ^ 11 + (e - 1)) * 2 ^ (51 - k)).
      assert (X : (b2z (sign_of F64 a) * 2 ^ 11 + (e - 1)) * 2 ^ (51 - k) * 2 * 2 ^ k = b2z (sign_of F64 a) * 2 ^ 63 + (e - 1) * 2 ^ 52)
        by (rewrite <- !Z.mul_assoc, (Z.mul_assoc (2 ^ (51 - k))), <- Q; ring).
      split; [|exact X]. rewrite X. rewrite W at 1. rewrite P. unfold with_sign. change (sign_weight F64) with (2 ^ 63). ring. }
  destruct C as (c & A & C). set (n := round_sig d k (2 ^ 52 + m)).
  assert (R : 2 ^ k * round_sig d k a = b2z (sign_of F64 a) * 2 ^ 63 + ((e - 1) * 2 ^ 52 + n * 2 ^ k))
    by (rewrite A at 1; rewrite round_sig_shift by lia; fold n;
        replace (2 ^ k * (c * 2 + n)) with (c * 2 * 2 ^ k + n * 2 ^ k) by ring; rewrite C; ring).
  assert (Pos : 0 < 2 ^ k) by (apply Z.pow_pos_nonneg; lia).
  assert (B : 2 ^ 52 <= n * 2 ^ k <= 2 ^ 53).
  { pose proof (round_sig_between k (2 ^ 52 + m) ltac:(lia) d) as Bt. fold n in Bt.
    assert (Q : 2 ^ 52 = 2 ^ (52 - k) * 2 ^ k) by (rewrite <- Z.pow_add_r by lia; f_equal; lia).
    assert (2 ^ (52 - k) <= (2 ^ 52 + m) / 2 ^ k < 2 * 2 ^ (52 - k)) by (split; [apply Z.div_le_lower_bound; lia|apply Z.div_lt_upper_bound; lia]). nia. }
  assert (Mn : mag F64 ((e - 1) * 2 ^ 52 + n * 2 ^ k) = IZR n).
  { rewrite mag64_pack by lia. rewrite mult_IZR, <- pow2_IZR, Rmult_assoc, <- pow2_add by lia.
    replace (k + (e - 1 + emin F64)) with 0 by (change (emin F64) with (-1074); lia). rewrite pow2_0. ring. }
  pose proof (same_exact 1 (2 ^ 52 + m)) as Sx. apply (same_pow 0 (k - 1)) in Sx; [|lia].
  unfold bind. rewrite when_when. rewrite R.
  pose proof (round_sig_exact k (2 ^ 52 + m) ltac:(lia) d _ Sx) as Ex. fold n in Ex.
  apply (integral_outcome F64 s d exact a Fin ((e - 1) * 2 ^ 52 + n * 2 ^ k) n (negb (b2z (sign_of F64 a) * 2 ^ 63 + ((e - 1) * 2 ^ 52 + n * 2 ^ k) =? a))).
  - change (inf_pattern F64) with (0x7FF * 2 ^ 52). lia.
  - rewrite M. exact (round_sig_rint k (2 ^ 52 + m) ltac:(lia) d _ Sx).
  - exact Mn.
  - intros I. apply negb_true_iff, Z.eqb_neq in I. rewrite Mn, M. intros Eq. symmetry in Eq. apply Ex in Eq.
    apply I. rewrite A at 2. rewrite C. pose proof (round_sig_value k (2 ^ 52 + m) ltac:(lia) d) as V. fold n in V.
    rewrite Eq in V. assert (V' : n = (2 ^ 52 + m) / 2 ^ k).
    { assert (H0 : 0 < 2 ^ (k - 1)) by (apply Z.pow_pos_nonneg; lia). rewrite V. clear - H0.
      set (q := (2 ^ 52 + m) / 2 ^ k). set (h := 2 ^ (k - 1)) in *. clearbody q h.
      apply Z.ltb_lt in H0. destruct d; rewrite ?H0; reflexivity. }
    pose proof (Z.div_mod (2 ^ 52 + m) (2 ^ k) ltac:(lia)). rewrite V'. lia.
  - intros I. apply negb_false_iff, Z.eqb_eq in I. rewrite P. f_equal.
    rewrite P in W. unfold with_sign in W. change (sign_weight F64) with (2 ^ 63) in W. lia.
  - reflexivity.
Qed.

Lemma f64_roundToInt_spec (a mode : Z) (exact : bool) (s : env) : is_enc F64 a ->
  integral_spec F64 s (mag_direction mode (sign_of F64 a)) exact a (f64_roundToInt a mode exact s).
Proof.
  intros Ha. unfold f64_roundToInt. cbv zeta. destruct (F64_fields a Ha) as (Sa & Ea & Ma & Pa & Wa).
  destruct (Z.leb_spec (expF64UI a) 0x3FE) as [L|L]; [|destruct (Z.leb_spec 0x433 (expF64UI a)) as [L2|L2]].
  - pose proof (both_zero64 a a) as Z0. rewrite Z.lor_diag, andb_diag in Z0. unfold z2b at 1. rewrite negb_involutive, Z0.
    destruct (Z.eqb_spec (pattern_of F64 a) 0) as [E|E]; [|now apply below_one64].
    destruct (f64_view a Ha) as (_ & _ & _ & _ & _ & _ & Fin).
    apply (integral_same F64 s _ exact a (Fin ltac:(lia)) 0); [rewrite E; apply (mag_zero F64)|]. unfold ret. f_equal. exact Wa.
  - destruct (classes F64 a _ _ Ea Ma Pa) as (Na & Ia & _). change (2 ^ eb F64 - 1) with 0x7FF in *.
    destruct (f64_view a Ha) as (_ & _ & _ & Hn & M & _ & Fin). destruct (Hn ltac:(lia)) as [W1 _]. rewrite W1 in M.
    destruct ((expF64UI a =? 0x7FF) && z2b (fracF64UI a)) eqn:N.
    + unfold integral_spec. rewrite Na. apply propagate64; [assumption|]. unfold is_enc. change (sign_weight F64) with (2 ^ 63). lia.
    + destruct (Z.eqb_spec (expF64UI a) 0x7FF) as [E|E]; cbn [andb] in *.
      * unfold integral_spec. rewrite Na, Ia, N. reflexivity.
      * apply (integral_same F64 s _ exact a (Fin ltac:(lia)) ((2 ^ 52 + fracF64UI a) * 2 ^ (expF64UI a - 0x433))).
        -- rewrite M, mult_IZR, <- pow2_IZR by lia. do 2 f_equal. lia.
        -- unfold ret. f_equal. exact Wa.
  - pose proof (round_word mode (sign_of F64 a) a (0x433 - expF64UI a) ltac:(lia)) as R.
    assert (Ha' := Ha). unfold is_enc in Ha'. change (2 * sign_weight F64) with (2 ^ 64) in Ha'.
    assert (2 ^ (0x433 - expF64UI a) <= 2 ^ 52) by (apply Z.pow_le_mono_r; lia).
    assert (a <= 2 ^ 63 + 0x433 * 2 ^ 52).
    { rewrite Wa. unfold with_sign. change (sign_weight F64) with (2 ^ 63). destruct (f64_view a Ha) as (_ & Hm & _). rewrite Pa.
      destruct (sign_of F64 a); cbn [b2z]; lia. }
    specialize (R ltac:(lia) ltac:(lia)). cbv zeta in R. rewrite Sa.
    rewrite R. apply middle64; [assumption|lia].
Qed.
