(* ===== verification/Builtins.v ===== *)
(** The 128-bit compiler runtime: the translation of [fix*ti.c],
    [float*tidf.c], [int_t.h] and [fp*.h] of [src/libraries/builtins], and its correctness: truncation of the three
    formats to 128-bit integers, and rounding of 128-bit integers to binary64. *)
From Stdlib Require Import ZArith Bool Lia Reals Lra.
From S2P Require Import Prelude Ieee Rounding RoundPack Softfloat Primitives Machine Contract FromInt.
Local Open Scope Z_scope.
Local Open Scope c_scope.

(** ** Leading zeros ([int_t.h]) *)

(** The compiler's builtin, whose result for zero is undefined. *)
Definition clzll (x : Z) : Z := 63 - Z.log2 x.

Definition __clzti2 (a : Z) : Z :=
  let high := i64 (a >> 64) in
  let low := u64 a in
  let f := i64 (- b2z (high =? 0)) in
  clzll (u64 (high .& Z.lnot f) .| (low .& u64 f)) + (i32 f .& 64).

(** ** Operations of C and C++ on [__int128]
    Shifting by 128 or more and an overflow of a signed operation are undefined: what the compiler makes of them
    is a parameter, [Undefined]. *)
Inductive operation : Type := Shl | Shr | Sub | Mul | Div | Rem.

Class Undefined : Type := undefined : operation -> Z -> Z -> Z.

Definition is_i128 (x : Z) : bool := (- 2 ^ 127 <=? x) && (x <? 2 ^ 127).

Section Operations.
Context {U : Undefined}.

Definition shl_u128 (x n : Z) : Z := if n <? 128 then u128 (x << n) else undefined Shl x n.
Definition shr_u128 (x n : Z) : Z := if n <? 128 then x >> n else undefined Shr x n.
(** Of a signed number, which may overflow *)
Definition shl_i128 (x n : Z) : Z := if (n <? 128) && is_i128 (x << n) then x << n else undefined Shl x n.
(** Of a negative number, with its sign *)
Definition shr_i128 (x n : Z) : Z := if n <? 128 then x >> n else undefined Shr x n.
Definition sub_i128 (x y : Z) : Z := if is_i128 (x - y) then x - y else undefined Sub x y.
Definition mul_i128 (x y : Z) : Z := if is_i128 (x * y) then x * y else undefined Mul x y.
Definition div_i128 (x y : Z) : Z := if is_i128 (Z.quot x y) then Z.quot x y else undefined Div x y.
Definition rem_i128 (x y : Z) : Z := if is_i128 (Z.quot x y) then Z.rem x y else undefined Rem x y.

(** Overflow in a shift by less than 128, a difference and a product keeps the low 128 bits, as in the code that compilers
    generate for them on machines of two's complement. *)
Definition overflow_wraps : Prop :=
  (forall x n, 0 <= n < 128 -> undefined Shl x n = i128 (x << n)) /\
  (forall x y, undefined Sub x y = i128 (x - y)) /\ (forall x y, undefined Mul x y = i128 (x * y)).

Lemma is_i128_spec (x : Z) : is_i128 x = true <-> - 2 ^ 127 <= x < 2 ^ 127.
Proof. unfold is_i128. rewrite andb_true_iff, Z.leb_le, Z.ltb_lt. reflexivity. Qed.

Lemma is_i128_wrap (x : Z) : is_i128 x = true -> x = i128 x.
Proof. intros H. apply is_i128_spec in H. symmetry. now apply swrap_small. Qed.

Lemma mul_wraps (x y : Z) : overflow_wraps -> mul_i128 x y = i128 (x * y).
Proof. intros (_ & _ & M). unfold mul_i128. destruct (is_i128 (x * y)) eqn:E; [now apply is_i128_wrap|apply M]. Qed.

Lemma sub_wraps (x y : Z) : overflow_wraps -> sub_i128 x y = i128 (x - y).
Proof. intros (_ & D & _). unfold sub_i128. destruct (is_i128 (x - y)) eqn:E; [now apply is_i128_wrap|apply D]. Qed.

Lemma sub_small (x y : Z) : - 2 ^ 127 <= x - y < 2 ^ 127 -> sub_i128 x y = x - y.
Proof. intros H. unfold sub_i128. apply is_i128_spec in H. now rewrite H. Qed.

Lemma shl_wraps (x n : Z) : overflow_wraps -> 0 <= n < 128 -> shl_i128 x n = i128 (x << n).
Proof.
  intros (S & _) Hn. unfold shl_i128. destruct (Z.ltb_spec n 128); [|lia]. cbn [andb].
  destruct (is_i128 (x << n)) eqn:E; [now apply is_i128_wrap|now apply S].
Qed.

Lemma mul_small (x y : Z) : - 2 ^ 127 <= x * y < 2 ^ 127 -> mul_i128 x y = x * y.
Proof. intros H. unfold mul_i128. apply is_i128_spec in H. now rewrite H. Qed.

Lemma shl_small (x n : Z) : n < 128 -> - 2 ^ 127 <= x << n < 2 ^ 127 -> shl_i128 x n = x << n.
Proof. intros Hn H. unfold shl_i128. apply is_i128_spec in H. apply Z.ltb_lt in Hn. now rewrite Hn, H. Qed.
End Operations.

(** A compiler that wraps *)
Definition wrapping : Undefined := fun op x y =>
  match op with
  | Shl => if y <? 128 then i128 (x << y) else 0
  | Sub => i128 (x - y)
  | Mul => i128 (x * y)
  | Div => i128 (Z.quot x y)
  | Rem | Shr => 0
  end.

Lemma wrapping_wraps : overflow_wraps (U := wrapping).
Proof. split; [|split; reflexivity]. intros x n Hn. unfold undefined, wrapping. destruct (Z.ltb_spec n 128); [reflexivity|lia]. Qed.

(** ** From binary64 ([fp64.h]) *)
Module fp64.
Definition significandBits : Z := 52.
Definition typeWidth : Z := 64.
Definition exponentBits : Z := typeWidth - significandBits - 1.
Definition maxExponent : Z := (1 << exponentBits) - 1.
Definition exponentBias : Z := maxExponent >> 1.
Definition implicitBit : Z := 1 << significandBits.
Definition significandMask : Z := implicitBit - 1.
Definition signBit : Z := 1 << (significandBits + exponentBits).
Definition absMask : Z := signBit - 1.
End fp64.

Definition ___fixdfti {U : Undefined} (a : Z) : Z :=
  let fixint_max := i128 (u128 (Z.lnot 0) / 2) in
  let fixint_min := - fixint_max - 1 in
  let aRep := a in
  let aAbs := aRep .& fp64.absMask in
  let sign := if z2b (aRep .& fp64.signBit) then -1 else 1 in
  let exponent := i32 (u64 ((aAbs >> fp64.significandBits) - fp64.exponentBias)) in
  let significand := (aAbs .& fp64.significandMask) .| fp64.implicitBit in
  if exponent <? 0 then 0
  else if 128 <=? u32 exponent then (if sign =? 1 then fixint_max else fixint_min)
  else if exponent <? fp64.significandBits then
    mul_i128 sign (significand >> (fp64.significandBits - exponent))
  else mul_i128 sign (shl_i128 significand (exponent - fp64.significandBits)).

Definition ___fixunsdfti (a : Z) : Z :=
  let aRep := a in
  let aAbs := aRep .& fp64.absMask in
  let sign := if z2b (aRep .& fp64.signBit) then -1 else 1 in
  let exponent := i32 (u64 ((aAbs >> fp64.significandBits) - fp64.exponentBias)) in
  let significand := (aAbs .& fp64.significandMask) .| fp64.implicitBit in
  if (sign =? -1) || (exponent <? 0) then 0
  else if 128 <=? u32 exponent then u128 (Z.lnot 0)
  else if exponent <? fp64.significandBits then
    u128 (significand >> (fp64.significandBits - exponent))
  else u128 (significand << (exponent - fp64.significandBits)).

(** ** From binary32 ([fp32.h]) *)
Module fp32.
Definition significandBits : Z := 23.
Definition typeWidth : Z := 32.
Definition exponentBits : Z := typeWidth - significandBits - 1.
Definition maxExponent : Z := (1 << exponentBits) - 1.
Definition exponentBias : Z := maxExponent >> 1.
Definition implicitBit : Z := 1 << significandBits.
Definition significandMask : Z := implicitBit - 1.
Definition signBit : Z := 1 << (significandBits + exponentBits).
Definition absMask : Z := signBit - 1.
End fp32.

Definition ___fixsfti {U : Undefined} (a : Z) : Z :=
  let fixint_max := i128 (u128 (Z.lnot 0) / 2) in
  let fixint_min := - fixint_max - 1 in
  let aRep := a in
  let aAbs := aRep .& fp32.absMask in
  let sign := if z2b (aRep .& fp32.signBit) then -1 else 1 in
  let exponent := i32 (u32 ((aAbs >> fp32.significandBits) - fp32.exponentBias)) in
  let significand := (aAbs .& fp32.significandMask) .| fp32.implicitBit in
  if exponent <? 0 then 0
  else if 128 <=? u32 exponent then (if sign =? 1 then fixint_max else fixint_min)
  else if exponent <? fp32.significandBits then
    mul_i128 sign (significand >> (fp32.significandBits - exponent))
  else mul_i128 sign (shl_i128 significand (exponent - fp32.significandBits)).

Definition ___fixunssfti (a : Z) : Z :=
  let aRep := a in
  let aAbs := aRep .& fp32.absMask in
  let sign := if z2b (aRep .& fp32.signBit) then -1 else 1 in
  let exponent := i32 (u32 ((aAbs >> fp32.significandBits) - fp32.exponentBias)) in
  let significand := (aAbs .& fp32.significandMask) .| fp32.implicitBit in
  if (sign =? -1) || (exponent <? 0) then 0
  else if 128 <=? u32 exponent then u128 (Z.lnot 0)
  else if exponent <? fp32.significandBits then
    u128 (significand >> (fp32.significandBits - exponent))
  else u128 (significand << (exponent - fp32.significandBits)).

(** ** From binary128 ([fp128.h]; a [float128_t] is two 64-bit words, the low one first) *)
Module fp128.
Definition significandBits : Z := 112.
Definition typeWidth : Z := 128.
Definition exponentBits : Z := typeWidth - significandBits - 1.
Definition maxExponent : Z := (1 << exponentBits) - 1.
Definition exponentBias : Z := maxExponent >> 1.
Definition implicitBit : Z := 1 << significandBits.
Definition significandMask : Z := implicitBit - 1.
Definition signBit : Z := 1 << (significandBits + exponentBits).
Definition absMask : Z := signBit - 1.

Record float128_t := { v0 : Z; v1 : Z }.
Definition toRep (x : float128_t) : Z := i128 ((v1 x << 64) .| v0 x).
End fp128.

Definition ___fixtfti {U : Undefined} (a : fp128.float128_t) : Z :=
  let fixint_max := i128 (u128 (Z.lnot 0) / 2) in
  let fixint_min := - fixint_max - 1 in
  let aRep := fp128.toRep a in
  let aAbs := i128 (u128 aRep .& fp128.absMask) in
  let sign := if z2b (u128 aRep .& fp128.signBit) then -1 else 1 in
  let exponent := i32 ((aAbs >> fp128.significandBits) - fp128.exponentBias) in
  let significand := i128 ((u128 aAbs .& fp128.significandMask) .| fp128.implicitBit) in
  if exponent <? 0 then 0
  else if 128 <=? u32 exponent then (if sign =? 1 then fixint_max else fixint_min)
  else if exponent <? fp128.significandBits then
    mul_i128 sign (significand >> (fp128.significandBits - exponent))
  else mul_i128 sign (shl_i128 significand (exponent - fp128.significandBits)).

Definition ___fixunstfti (a : fp128.float128_t) : Z :=
  let aRep := fp128.toRep a in
  let aAbs := i128 (u128 aRep .& fp128.absMask) in
  let sign := if z2b (u128 aRep .& fp128.signBit) then -1 else 1 in
  let exponent := i32 ((aAbs >> fp128.significandBits) - fp128.exponentBias) in
  let significand := i128 ((u128 aAbs .& fp128.significandMask) .| fp128.implicitBit) in
  if (sign =? -1) || (exponent <? 0) then 0
  else if 128 <=? u32 exponent then u128 (Z.lnot 0)
  else if exponent <? fp128.significandBits then
    u128 (significand >> (fp128.significandBits - exponent))
  else u128 (u128 significand << (exponent - fp128.significandBits)).

(** ** To binary64 *)

(** The union [double_bits] of [int_t.h], read as the encoding of the double. *)
Record double_bits := { high : Z; low : Z }.
Definition fb_f (fb : double_bits) : Z := (high fb << 32) .| low fb.

Definition DBL_MANT_DIG : Z := 53.

Definition ___floattidf {U : Undefined} (a : Z) : Z :=
  if a =? 0 then 0
  else
    let N := 128 in
    let s := a >> (N - 1) in
    let a := sub_i128 (a .^ s) s in
    let sd := i32 (N - __clzti2 a) in
    let e := sd - 1 in
    let '(a, e) :=
      if DBL_MANT_DIG <? sd then
        let a :=
          if sd =? DBL_MANT_DIG + 1 then i128 (a << 1)
          else if sd =? DBL_MANT_DIG + 2 then a
          else
            i128 ((u128 a >> (sd - (DBL_MANT_DIG + 2)))
                  .| b2z (z2b (u128 a .& (u128 (-1) >> (N + DBL_MANT_DIG + 2 - sd))))) in
        let a := a .| b2z (z2b (a .& 4)) in
        let a := i128 (a + 1) in
        let a := a >> 2 in
        if z2b (u128 a .& (1 << DBL_MANT_DIG)) then (a >> 1, e + 1) else (a, e)
      else (i128 (a << (DBL_MANT_DIG - sd)), e) in
    fb_f {| high := (u32 s .& 0x80000000) .| u32 ((e + 1023) << 20) .| (u32 (a >> 32) .& 0x000FFFFF);
            low := u32 a |}.

Definition ___floatuntidf (a : Z) : Z :=
  if a =? 0 then 0
  else
    let N := 128 in
    let sd := i32 (N - __clzti2 (i128 a)) in
    let e := sd - 1 in
    let '(a, e) :=
      if DBL_MANT_DIG <? sd then
        let a :=
          if sd =? DBL_MANT_DIG + 1 then u128 (a << 1)
          else if sd =? DBL_MANT_DIG + 2 then a
          else
            (a >> (sd - (DBL_MANT_DIG + 2)))
            .| b2z (z2b (a .& (u128 (-1) >> (N + DBL_MANT_DIG + 2 - sd)))) in
        let a := a .| b2z (z2b (a .& 4)) in
        let a := u128 (a + 1) in
        let a := a >> 2 in
        if z2b (a .& (1 << DBL_MANT_DIG)) then (a >> 1, e + 1) else (a, e)
      else (u128 (a << (DBL_MANT_DIG - sd)), e) in
    fb_f {| high := u32 ((e + 1023) << 20) .| (u32 (a >> 32) .& 0x000FFFFF); low := u32 a |}.

(** ** The 128-bit conversions of the compiler runtime *)

(** ** What the conversions to integers do *)

(** Truncation, saturating from [2 ^ 128] on; the numbers in between overflow, and wrap around if overflow does. *)
Definition fix_spec {U : Undefined} (f : format) (a r : Z) : Prop :=
  let saturated := if sign_of f a then - 2 ^ 127 else 2 ^ 127 - 1 in
  if nanb f a || infb f a then r = saturated
  else exists n,
    rint TowardZero (mag f (pattern_of f a)) n /\
    let v := if sign_of f a then - n else n in
    (n < 2 ^ 127 -> r = v) /\ (2 ^ 128 <= n -> r = saturated) /\
    (overflow_wraps -> 2 ^ 127 <= n < 2 ^ 128 -> r = i128 v).

(** Truncation, saturating at both ends of the range. *)
Definition fixuns_spec (f : format) (a r : Z) : Prop :=
  if sign_of f a then r = 0
  else if nanb f a || infb f a then r = 2 ^ 128 - 1
  else exists n, rint TowardZero (mag f (pattern_of f a)) n /\ r = Z.min n (2 ^ 128 - 1).

Lemma swrap_mul (w c x : Z) : 0 < w -> swrap w (c * swrap w x) = swrap w (c * x).
Proof.
  intros Hw. unfold swrap. set (h := 2 ^ (w - 1)). set (p := 2 ^ w).
  assert (P : 0 < p) by (apply Z.pow_pos_nonneg; lia). clearbody h p.
  pose proof (Z.div_mod (x + h) p ltac:(lia)) as D. set (k := (x + h) / p) in *. clearbody k. f_equal.
  replace (c * ((x + h) mod p - h) + h) with (c * x + h + (- (c * k)) * p) by nia. apply Z.mod_add. lia.
Qed.

Lemma saturated_128 : i128 (u128 (Z.lnot 0) / 2) = 2 ^ 127 - 1 /\ u128 (Z.lnot 0) = 2 ^ 128 - 1.
Proof. split; reflexivity. Qed.

Section Fix.
Context (f : format) {V : ValidFormat f} (Hbias : 127 <= bias f < 2 ^ 31) (a : Z).
#[local] Abbreviation e := (pattern_of f a / 2 ^ mb f).
#[local] Abbreviation m := (pattern_of f a mod 2 ^ mb f).
#[local] Abbreviation E := (e - bias f).
#[local] Abbreviation sig := (m .| 2 ^ mb f).
#[local] Abbreviation magnitude := (if E <? 0 then 0 else if E <? mb f then sig >> (mb f - E) else sig << (E - mb f)).

#[local] Lemma fields_bounds : 0 <= e <= 2 * bias f + 1 /\ 0 <= m < 2 ^ mb f /\ pattern_of f a = e * 2 ^ mb f + m /\ 0 < 2 ^ mb f.
Proof.
  pose proof (pow_mb_pos f) as P. destruct V.
  assert (W : sign_weight f = 2 ^ mb f * (2 * bias f + 2)).
  { unfold sign_weight, bias. rewrite Z.pow_add_r by lia. replace (eb f) with (Z.succ (eb f - 1)) at 1 by lia.
    rewrite Z.pow_succ_r by lia. ring. }
  assert (B : 0 <= pattern_of f a < sign_weight f) by (apply Z.mod_pos_bound; unfold sign_weight; apply Z.pow_pos_nonneg; lia).
  rewrite W in B. repeat split; try lia.
  - apply Z.div_pos; lia.
  - apply Z.lt_succ_r, Z.div_lt_upper_bound; lia.
  - apply Z.mod_pos_bound; lia.
  - apply Z.mod_pos_bound; lia.
  - pose proof (Z.div_mod (pattern_of f a) (2 ^ mb f) ltac:(lia)). lia.
Qed.

#[local] Lemma sig_sum : sig = 2 ^ mb f + m.
Proof.
  destruct fields_bounds as (_ & B & _). destruct V. rewrite Z.lor_comm.
  pose proof (lor_disjoint 1 m (mb f) ltac:(lia) B) as L. rewrite Z.mul_1_l in L. exact L.
Qed.

#[local] Lemma mag_sig : 0 < e -> mag f (pattern_of f a) = (IZR sig * pow2 (E - mb f))%R.
Proof.
  destruct fields_bounds as (Be & Bm & P & _). intros He.
  transitivity (mag f (e * 2 ^ mb f + m)); [now rewrite <- P|]. rewrite (mag_fields f) by lia. rewrite sig_sum.
  replace (e =? 0) with false by lia. do 2 f_equal. unfold emin. lia.
Qed.

#[local] Lemma magnitude_rint : rint TowardZero (mag f (pattern_of f a)) magnitude.
Proof.
  destruct fields_bounds as (Be & Bm & P & Q). pose proof sig_sum as S.
  destruct (Z.ltb_spec E 0) as [N|N]; [|destruct (Z.ltb_spec E (mb f)) as [L|L]].
  - assert (M0 : (0 <= mag f (pattern_of f a))%R) by (apply (mag_nonneg f); nia).
    enough (mag f (pattern_of f a) < 1)%R by (simpl; lra).
    apply Rlt_le_trans with (mag f (bias f * 2 ^ mb f)); [apply (mag_lt f); nia|].
    replace (bias f * 2 ^ mb f) with (bias f * 2 ^ mb f + 0) by ring. rewrite (mag_fields f) by lia.
    replace (bias f =? 0) with false by lia. destruct V.
    rewrite Z.add_0_r, <- pow2_IZR, <- pow2_add by lia.
    replace (mb f + (Z.max (bias f) 1 - 1 + emin f)) with 0 by (unfold emin; lia). rewrite pow2_0. lra.
  - rewrite mag_sig by lia. rewrite shr_div by lia.
    replace (E - mb f) with (- (mb f - E)) by lia.
    assert (0 < 2 ^ (mb f - E)) by (apply Z.pow_pos_nonneg; lia).
    rewrite pow2_opp, pow2_IZR by lia.
    pose proof (proj1 (ratio_compare sig (2 ^ (mb f - E)) (sig / 2 ^ (mb f - E) + 1) ltac:(lia))) as R1.
    pose proof (proj1 (ratio_compare sig (2 ^ (mb f - E)) (sig / 2 ^ (mb f - E)) ltac:(lia))) as R0.
    pose proof (Z.div_mod sig (2 ^ (mb f - E)) ltac:(lia)). pose proof (Z.mod_pos_bound sig (2 ^ (mb f - E)) ltac:(lia)).
    unfold Rdiv in *. simpl. split.
    + apply Rnot_lt_le. intros K. apply R0 in K. nia.
    + rewrite <- plus_IZR. apply R1. nia.
  - rewrite mag_sig by lia. rewrite shl_mul, pow2_IZR, <- mult_IZR by lia. apply rint_IZR.
Qed.

#[local] Lemma magnitude_bounds : 0 <= E -> 2 ^ E <= magnitude < 2 ^ (E + 1).
Proof.
  intros HE. destruct fields_bounds as (Be & Bm & P & Q). pose proof sig_sum as S. destruct V.
  replace (E <? 0) with false by lia. destruct (Z.ltb_spec E (mb f)) as [L|L].
  - assert (2 ^ mb f = 2 ^ E * 2 ^ (mb f - E)) by (rewrite <- Z.pow_add_r by lia; f_equal; lia).
    assert (2 ^ (E + 1) = 2 * 2 ^ E) by (rewrite Z.pow_add_r by lia; change (2 ^ 1) with 2; lia).
    assert (0 < 2 ^ (mb f - E)) by (apply Z.pow_pos_nonneg; lia).
    rewrite shr_div by lia. split; [apply Z.div_le_lower_bound; nia|apply Z.div_lt_upper_bound; nia].
  - assert (2 ^ E = 2 ^ mb f * 2 ^ (E - mb f)) by (rewrite <- Z.pow_add_r by lia; f_equal; lia).
    assert (2 ^ (E + 1) = 2 * 2 ^ E) by (rewrite Z.pow_add_r by lia; change (2 ^ 1) with 2; lia).
    assert (0 < 2 ^ (E - mb f)) by (apply Z.pow_pos_nonneg; lia).
    rewrite shl_mul by lia. nia.
Qed.

(** Exponents of 128 and more, those of infinity and NaN among them. *)
#[local] Lemma special_E : nanb f a || infb f a = (E =? bias f + 1).
Proof.
  destruct fields_bounds as (Be & Bm & P & Q). destruct V.
  assert (I : inf_pattern f = (2 * bias f + 1) * 2 ^ mb f).
  { unfold inf_pattern, bias. replace (eb f) with (Z.succ (eb f - 1)) at 1 by lia. rewrite Z.pow_succ_r by lia. ring. }
  unfold nanb, infb. rewrite I. set (x := pattern_of f a) in *. set (q := x / _) in *. set (r := x mod _) in *. clearbody q r x.
  apply eq_true_iff_eq. rewrite orb_true_iff, Z.ltb_lt, !Z.eqb_eq. nia.
Qed.

Lemma fix_core {U : Undefined} (sign := if sign_of f a then -1 else 1) :
  fix_spec f a
    (if E <? 0 then 0
     else if 128 <=? u32 E then (if sign =? 1 then 2 ^ 127 - 1 else - (2 ^ 127 - 1) - 1)
     else if E <? mb f then mul_i128 sign (sig >> (mb f - E))
     else mul_i128 sign (shl_i128 sig (E - mb f))).
Proof.
  assert (R := magnitude_rint). assert (B := magnitude_bounds). set (n := magnitude) in R, B. assert (Hs := special_E). destruct fields_bounds as (Be & _).
  assert (Sat : (if sign =? 1 then 2 ^ 127 - 1 else - (2 ^ 127 - 1) - 1) = if sign_of f a then - 2 ^ 127 else 2 ^ 127 - 1)
    by (subst sign; destruct (sign_of f a); reflexivity).
  rewrite Sat. unfold fix_spec. rewrite Hs. clear Sat Hs.
  destruct (Z.ltb_spec E 0) as [N|N].
  { replace (E =? bias f + 1) with false by lia. exists 0. unfold n in R. replace (E <? 0) with true in R by lia.
    split; [exact R|]. destruct (sign_of f a); lia. }
  specialize (B N). rewrite (uwrap_small 32 E) by lia. destruct (Z.leb_spec 128 E) as [L|L].
  - destruct (E =? bias f + 1); [reflexivity|]. exists n. split; [exact R|].
    assert (2 ^ 128 <= 2 ^ E) by (apply Z.pow_le_mono_r; lia). lia.
  - replace (E =? bias f + 1) with false by lia. exists n. split; [exact R|].
    assert (I : sign * n = if sign_of f a then - n else n) by (subst sign; destruct (sign_of f a); lia).
    assert (0 < 2 ^ E) by (apply Z.pow_pos_nonneg; lia). assert (2 ^ (E + 1) <= 2 ^ 128) by (apply Z.pow_le_mono_r; lia).
    rewrite <- I. unfold n in *. replace (E <? 0) with false in * by lia. clear I R.
    assert (Sg : sign = 1 \/ sign = -1) by (subst sign; destruct (sign_of f a); auto). clearbody sign.
    destruct V. destruct (Z.ltb_spec E (mb f)); (split; [intros Hn|split; [lia|intros Wr Hn]]).
    + apply mul_small. destruct Sg as [-> | ->]; lia.
    + now apply mul_wraps.
    + rewrite shl_small by lia. apply mul_small. destruct Sg as [-> | ->]; lia.
    + rewrite shl_wraps, mul_wraps by (assumption || lia). apply swrap_mul. lia.
Qed.

Lemma fixuns_core (sign := if sign_of f a then -1 else 1) :
  fixuns_spec f a
    (if (sign =? -1) || (E <? 0) then 0
     else if 128 <=? u32 E then 2 ^ 128 - 1
     else if E <? mb f then u128 (sig >> (mb f - E))
     else u128 (sig << (E - mb f))).
Proof.
  assert (R := magnitude_rint). assert (B := magnitude_bounds). set (n := magnitude) in R, B. assert (Hs := special_E). destruct fields_bounds as (Be & _).
  unfold fixuns_spec. rewrite Hs. clear Hs. subst sign.
  destruct (sign_of f a); [reflexivity|]. change (1 =? -1) with false. cbn [orb].
  destruct (Z.ltb_spec E 0) as [N|N].
  { replace (E =? bias f + 1) with false by lia. exists 0. unfold n in R. replace (E <? 0) with true in R by lia.
    split; [exact R|reflexivity]. }
  specialize (B N). rewrite (uwrap_small 32 E) by lia. destruct (Z.leb_spec 128 E) as [L|L].
  - destruct (E =? bias f + 1); [reflexivity|]. exists n. split; [exact R|].
    assert (2 ^ 128 <= 2 ^ E) by (apply Z.pow_le_mono_r; lia). lia.
  - replace (E =? bias f + 1) with false by lia. exists n. split; [exact R|].
    assert (2 ^ (E + 1) <= 2 ^ 128) by (apply Z.pow_le_mono_r; lia).
    assert (0 < 2 ^ E) by (apply Z.pow_pos_nonneg; lia).
    rewrite Z.min_l by lia. unfold n in *. replace (E <? 0) with false in * by lia.
    destruct (E <? mb f); apply uwrap_small; lia.
Qed.
End Fix.

(** ** The fields as the code reads them *)
Lemma swrap_uwrap (w w' x : Z) : 0 < w <= w' -> swrap w (uwrap w' x) = swrap w x.
Proof.
  intros H. unfold swrap, uwrap. f_equal. pose proof (Z.div_mod x (2 ^ w') ltac:(apply Z.pow_nonzero; lia)) as D.
  assert (P : 2 ^ w' = 2 ^ (w' - w) * 2 ^ w) by (rewrite <- Z.pow_add_r by lia; f_equal; lia).
  set (r := x mod 2 ^ w') in *. clearbody r. rewrite P in D.
  replace (x + 2 ^ (w - 1)) with (r + 2 ^ (w - 1) + (2 ^ (w' - w) * (x / 2 ^ w')) * 2 ^ w).
  - symmetry. apply Z.mod_add. apply Z.pow_nonzero; lia.
  - rewrite P. lia.
Qed.

Lemma uwrap_swrap (w x : Z) : 0 < w -> 0 <= x < 2 ^ w -> uwrap w (swrap w x) = x.
Proof.
  intros Hw Hx. destruct (pow2_half w ltac:(lia)) as [P Q]. unfold swrap, uwrap.
  pose proof (Z.div_mod (x + 2 ^ (w - 1)) (2 ^ w) ltac:(lia)) as D. set (k := (x + 2 ^ (w - 1)) / 2 ^ w) in *. clearbody k.
  replace ((x + 2 ^ (w - 1)) mod 2 ^ w - 2 ^ (w - 1)) with (x + (- k) * 2 ^ w) by lia.
  rewrite Z.mod_add by lia. now apply Z.mod_small.
Qed.

Lemma rep_abs (k m a : Z) : 0 <= k -> m = 2 ^ k - 1 -> a .& m = a mod 2 ^ k.
Proof. intros Hk ->. apply land_low; [assumption|]. rewrite Z.ones_equiv. lia. Qed.

Lemma rep_sign (k b a : Z) : 0 <= k -> b = 2 ^ k -> 0 <= a < 2 * 2 ^ k -> z2b (a .& b) = (2 ^ k <=? a).
Proof.
  intros Hk -> Ha. assert (P : 0 < 2 ^ k) by (apply Z.pow_pos_nonneg; lia).
  rewrite (land_field a (2 ^ k) k 1) by (reflexivity || lia || (change (Z.ones 1) with 1; lia)).
  unfold z2b. apply eq_true_iff_eq. rewrite negb_true_iff, Z.eqb_neq, Z.leb_le. change (2 ^ 1) with 2.
  set (p := 2 ^ k) in *. clearbody p. assert (a < p \/ p <= a) as [C|C] by lia.
  - rewrite Z.div_small by lia. change (0 mod 2) with 0. lia.
  - replace (a / p) with 1 by (apply Z.div_unique with (a - p); lia). change (1 mod 2) with 1. lia.
Qed.

Lemma exponent_code (w x b : Z) : 32 <= w -> 0 <= x < 2 ^ 31 -> 0 <= b < 2 ^ 31 -> i32 (uwrap w (x - b)) = x - b.
Proof. intros Hw Hx Hb. rewrite swrap_uwrap by lia. apply swrap_small; lia. Qed.

(** The pattern of an encoding, with its exponent below [2 ^ eb f]. *)
Lemma pattern_exponent (f : format) {V : ValidFormat f} (a : Z) : 0 <= pattern_of f a / 2 ^ mb f < 2 ^ eb f.
Proof.
  pose proof (pow_mb_pos f) as P. destruct V.
  assert (B : 0 <= pattern_of f a < sign_weight f) by (apply Z.mod_pos_bound; unfold sign_weight; apply Z.pow_pos_nonneg; lia).
  unfold sign_weight in B. rewrite Z.pow_add_r in B by lia.
  split; [apply Z.div_pos; lia|apply Z.div_lt_upper_bound; lia].
Qed.

(** Read the fields off the words of the code; the arguments are the width of
    the pattern, that of the fraction, and the format. *)
Ltac read_fields k mbits f absMask signBit significandBits significandMask implicitBit exponentBias :=
  rewrite ?(rep_abs k absMask), ?(rep_sign k signBit) by (reflexivity || lia);
  rewrite ?(shr_div _ significandBits), ?(rep_abs mbits significandMask) by (reflexivity || (vm_compute; discriminate));
  change (2 ^ significandBits) with (2 ^ mb f); change (2 ^ mbits) with (2 ^ mb f);
  change implicitBit with (2 ^ mb f); change significandBits with (mb f); change exponentBias with (bias f);
  rewrite ?(proj1 saturated_128), ?(proj2 saturated_128).

Lemma ___fixdfti_spec {U : Undefined} (a : Z) : is_enc F64 a -> fix_spec F64 a (___fixdfti a).
Proof.
  intros Ha. pose proof (fix_core F64 ltac:(cbn; lia) a) as C. pose proof (pattern_exponent F64 a) as B.
  unfold ___fixdfti. cbv zeta. unfold is_enc in Ha. change (sign_weight F64) with (2 ^ 63) in Ha.
  read_fields 63 52 F64 fp64.absMask fp64.signBit fp64.significandBits fp64.significandMask fp64.implicitBit fp64.exponentBias.
  change (a mod 2 ^ 63) with (pattern_of F64 a). change (2 ^ 63 <=? a) with (sign_of F64 a).
  change (2 ^ eb F64) with 2048 in B. rewrite exponent_code by (lia || (cbn; lia)). exact C.
Qed.

Lemma ___fixunsdfti_spec (a : Z) : is_enc F64 a -> fixuns_spec F64 a (___fixunsdfti a).
Proof.
  intros Ha. pose proof (fixuns_core F64 ltac:(cbn; lia) a) as C. pose proof (pattern_exponent F64 a) as B.
  unfold ___fixunsdfti. cbv zeta. unfold is_enc in Ha. change (sign_weight F64) with (2 ^ 63) in Ha.
  read_fields 63 52 F64 fp64.absMask fp64.signBit fp64.significandBits fp64.significandMask fp64.implicitBit fp64.exponentBias.
  change (a mod 2 ^ 63) with (pattern_of F64 a). change (2 ^ 63 <=? a) with (sign_of F64 a).
  change (2 ^ eb F64) with 2048 in B. rewrite exponent_code by (lia || (cbn; lia)). exact C.
Qed.

Lemma ___fixsfti_spec {U : Undefined} (a : Z) : is_enc F32 a -> fix_spec F32 a (___fixsfti a).
Proof.
  intros Ha. pose proof (fix_core F32 ltac:(cbn; lia) a) as C. pose proof (pattern_exponent F32 a) as B.
  unfold ___fixsfti. cbv zeta. unfold is_enc in Ha. change (sign_weight F32) with (2 ^ 31) in Ha.
  read_fields 31 23 F32 fp32.absMask fp32.signBit fp32.significandBits fp32.significandMask fp32.implicitBit fp32.exponentBias.
  change (a mod 2 ^ 31) with (pattern_of F32 a). change (2 ^ 31 <=? a) with (sign_of F32 a).
  change (2 ^ eb F32) with 256 in B. rewrite exponent_code by (lia || (cbn; lia)). exact C.
Qed.

Lemma ___fixunssfti_spec (a : Z) : is_enc F32 a -> fixuns_spec F32 a (___fixunssfti a).
Proof.
  intros Ha. pose proof (fixuns_core F32 ltac:(cbn; lia) a) as C. pose proof (pattern_exponent F32 a) as B.
  unfold ___fixunssfti. cbv zeta. unfold is_enc in Ha. change (sign_weight F32) with (2 ^ 31) in Ha.
  read_fields 31 23 F32 fp32.absMask fp32.signBit fp32.significandBits fp32.significandMask fp32.implicitBit fp32.exponentBias.
  change (a mod 2 ^ 31) with (pattern_of F32 a). change (2 ^ 31 <=? a) with (sign_of F32 a).
  change (2 ^ eb F32) with 256 in B. rewrite exponent_code by (lia || (cbn; lia)). exact C.
Qed.

(** *** The two words of a [float128_t] *)
Definition f128_enc (x : fp128.float128_t) : Z := fp128.v1 x * 2 ^ 64 + fp128.v0 x.
Definition f128_ok (x : fp128.float128_t) : Prop := 0 <= fp128.v0 x < 2 ^ 64 /\ 0 <= fp128.v1 x < 2 ^ 64.

Lemma toRep_bits (x : fp128.float128_t) : f128_ok x -> is_enc F128 (f128_enc x) /\ u128 (fp128.toRep x) = f128_enc x.
Proof.
  intros [H0 H1]. unfold fp128.toRep. rewrite shl_mul, lor_disjoint by lia.
  assert (B : 0 <= f128_enc x < 2 ^ 128) by (unfold f128_enc; lia).
  split; [exact B|]. apply uwrap_swrap; [lia|exact B].
Qed.

(** The fields of a binary128 number in the signed words the code keeps them in. *)
Lemma fields128 (a : Z) :
  i128 (pattern_of F128 a) = pattern_of F128 a /\ u128 (pattern_of F128 a) = pattern_of F128 a /\
  let sig := pattern_of F128 a mod 2 ^ mb F128 .| 2 ^ mb F128 in i128 sig = sig /\ u128 sig = sig.
Proof.
  assert (P : 0 <= pattern_of F128 a < 2 ^ 127) by (apply Z.mod_pos_bound; exact eq_refl).
  cbv zeta. rewrite (sig_sum F128). change (mb F128) with 112.
  pose proof (Z.mod_pos_bound (pattern_of F128 a) (2 ^ 112) ltac:(lia)).
  repeat split; (apply swrap_small || apply uwrap_small); lia.
Qed.

Lemma ___fixtfti_spec {U : Undefined} (x : fp128.float128_t) : f128_ok x -> fix_spec F128 (f128_enc x) (___fixtfti x).
Proof.
  intros Hx. destruct (toRep_bits x Hx) as [Ha E]. set (a := f128_enc x) in *. clearbody a.
  pose proof (fix_core F128 ltac:(cbn; lia) a) as C. pose proof (pattern_exponent F128 a) as B.
  unfold ___fixtfti. cbv zeta. rewrite E. unfold is_enc in Ha. change (sign_weight F128) with (2 ^ 127) in Ha.
  read_fields 127 112 F128 fp128.absMask fp128.signBit fp128.significandBits fp128.significandMask fp128.implicitBit fp128.exponentBias.
  change (a mod 2 ^ 127) with (pattern_of F128 a). change (2 ^ 127 <=? a) with (sign_of F128 a).
  destruct (fields128 a) as (-> & -> & -> & _).
  change (2 ^ eb F128) with 32768 in B. rewrite (swrap_small 32) by (change (bias F128) with 16383; lia). exact C.
Qed.

Lemma ___fixunstfti_spec (x : fp128.float128_t) : f128_ok x -> fixuns_spec F128 (f128_enc x) (___fixunstfti x).
Proof.
  intros Hx. destruct (toRep_bits x Hx) as [Ha E]. set (a := f128_enc x) in *. clearbody a.
  pose proof (fixuns_core F128 ltac:(cbn; lia) a) as C. pose proof (pattern_exponent F128 a) as B.
  unfold ___fixunstfti. cbv zeta. rewrite E. unfold is_enc in Ha. change (sign_weight F128) with (2 ^ 127) in Ha.
  read_fields 127 112 F128 fp128.absMask fp128.signBit fp128.significandBits fp128.significandMask fp128.implicitBit fp128.exponentBias.
  change (a mod 2 ^ 127) with (pattern_of F128 a). change (2 ^ 127 <=? a) with (sign_of F128 a).
  destruct (fields128 a) as (-> & -> & -> & ->).
  change (2 ^ eb F128) with 32768 in B. rewrite (swrap_small 32) by (change (bias F128) with 16383; lia). exact C.
Qed.

(** ** Leading zeros of a 128-bit word *)
Lemma __clzti2_spec (n : Z) : 0 < n < 2 ^ 128 -> __clzti2 (i128 n) = nlz 128 n.
Proof.
  intros Hn. unfold __clzti2.
  assert (H : exists k, i128 n = n + k * 2 ^ 128).
  { exists (- ((n + 2 ^ 127) / 2 ^ 128)). unfold swrap. change (128 - 1) with 127.
    pose proof (Z.div_mod (n + 2 ^ 127) (2 ^ 128) ltac:(lia)). lia. }
  destruct H as [k ->].
  assert (L : u64 (n + k * 2 ^ 128) = n mod 2 ^ 64).
  { unfold uwrap. replace (k * 2 ^ 128) with (k * 2 ^ 64 * 2 ^ 64) by ring. apply Z.mod_add. lia. }
  assert (H : (n + k * 2 ^ 128) >> 64 = n / 2 ^ 64 + k * 2 ^ 64).
  { rewrite shr_div by lia. replace (k * 2 ^ 128) with (k * 2 ^ 64 * 2 ^ 64) by ring. apply Z.div_add. lia. }
  rewrite L, H. assert (E : i64 (n / 2 ^ 64 + k * 2 ^ 64) = i64 (n / 2 ^ 64)).
  { unfold swrap. f_equal. rewrite <- Z.add_assoc, (Z.add_comm (k * _)), Z.add_assoc. apply Z.mod_add. lia. }
  rewrite E. assert (W : u64 (i64 (n / 2 ^ 64)) = n / 2 ^ 64).
  { apply uwrap_swrap; [lia|]. split; [apply Z.div_pos; lia|apply Z.div_lt_upper_bound; lia]. }
  assert (W0 : n / 2 ^ 64 = 0 -> i64 (n / 2 ^ 64) = 0) by (intros ->; reflexivity). clear E.
  set (high := i64 _) in *. unfold clzll, nlz. pose proof (Z.mod_pos_bound n (2 ^ 64) ltac:(lia)) as B.
  destruct (Z.eqb_spec high 0) as [E|E]; cbn [Z.b2z].
  - clear W0. rewrite E in W. change (u64 0) with 0 in W. rewrite E.
    change (u64 (0 .& Z.lnot (i64 (- (1))))) with 0. change (u64 (i64 (- (1)))) with (2 ^ 64 - 1). change (i32 (i64 (- (1))) .& 64) with 64.
    rewrite Z.lor_0_l, (rep_abs 64 (2 ^ 64 - 1)), Z.mod_mod by (reflexivity || lia).
    assert (n < 2 ^ 64) by (pose proof (Z.div_mod n (2 ^ 64) ltac:(lia)); lia). rewrite (Z.mod_small n) by lia. lia.
  - change (Z.lnot (i64 (- (0)))) with (-1). change (u64 (i64 (- (0)))) with 0. change (i32 (i64 (- (0))) .& 64) with 0.
    rewrite Z.land_m1_r, Z.land_0_r, Z.lor_0_r, W, <- shr_div by lia.
    assert (n / 2 ^ 64 <> 0) by tauto.
    rewrite Z.log2_shiftr by lia. assert (64 <= Z.log2 n) by (apply Z.log2_le_pow2; zdm). lia.
Qed.

(** ** Rounding to 53 bits *)
Lemma finish_round (s : Z) : 0 <= s -> ((s .| b2z (z2b (s .& 4))) + 1) >> 2 = round_sig NearestEven 2 s.
Proof.
  intros Hs. rewrite (land_field s 4 2 1), shr_div by (reflexivity || lia).
  rewrite round_sig_value by lia. change (2 ^ 2) with 4. change (2 ^ 1) with 2. change (2 ^ (2 - 1)) with 2.
  assert (C : s / 4 mod 2 = 0 \/ s / 4 mod 2 = 1) by zdm. unfold z2b.
  destruct C as [C|C]; rewrite C; change (0 * 4 =? 0) with true; change (1 * 4 =? 0) with false; cbn [negb Z.b2z]; [rewrite Z.lor_0_r|rewrite lor_1];
    destruct (Z.ltb_spec (s mod 4) 2); try destruct (Z.eqb_spec (s mod 4) 2); zdm.
Qed.

Lemma rounded53 (n l s : Z) : 0 < l <= 200 -> 2 ^ 54 <= s < 2 ^ 55 -> same 2 s (IZR n * pow2 (54 - l)) ->
  rounds_to F64 NearestEven (IZR n) ((l + 1022) * 2 ^ 52 + round_sig NearestEven 2 s).
Proof.
  intros Hl Hs S. pose proof (round_sig_rint 2 s ltac:(lia) NearestEven _ S) as R.
  replace (IZR n) with (IZR n * pow2 (54 - l) * pow2 (- (2)) * pow2 (l + 1022 + emin F64))%R.
  2:{ rewrite !Rmult_assoc, <- !pow2_add. change (emin F64) with (-1074).
      replace (54 - l + (- (2) + (l + 1022 + -1074))) with 0 by lia. rewrite pow2_0. ring. }
  assert (L := same_lower _ (2 ^ 53) _ _ S ltac:(lia)). assert (U := same_upper _ (2 ^ 54) _ _ S ltac:(lia)).
  rewrite pow2_opp. change (pow2 2) with (2 * (2 * 1))%R. change (2 ^ 52) with (2 ^ mb F64).
  change (IZR (2 ^ 53 * 2)) with (IZR (2 ^ 52 * 4)) in L. change (IZR (2 ^ 54 * 2)) with (IZR (2 ^ 53 * 4)) in U. rewrite mult_IZR in L, U.
  apply (rounds_to_pack F64).
  - change (2 ^ eb F64) with 2048. lia.
  - lra.
  - right. change (2 ^ mb F64) with (2 ^ 52). lra.
  - change (2 * 2 ^ mb F64) with (2 ^ 53). lra.
  - rewrite pow2_opp in R. exact R.
Qed.

(** Assembling the words of the double. *)
Lemma assemble (sign : bool) (E a : Z) : 0 <= E < 2 ^ 11 -> 2 ^ 52 <= a < 2 ^ 53 ->
  fb_f {| high := (b2z sign * 2 ^ 31) .| u32 (E << 20) .| (u32 (a >> 32) .& 0x000FFFFF); low := u32 a |}
  = with_sign F64 sign ((E - 1) * 2 ^ 52 + a).
Proof.
  intros HE Ha. unfold fb_f. cbn [high low]. rewrite (shl_mul E), (shr_div a), (land_low _ 0x000FFFFF 20) by (reflexivity || lia).
  rewrite (uwrap_small 32 (E * 2 ^ 20)), (uwrap_small 32 (a / 2 ^ 32)) by zdm.
  rewrite (lor_disjoint (b2z sign) (E * 2 ^ 20) 31) by lia.
  replace (b2z sign * 2 ^ 31 + E * 2 ^ 20) with ((b2z sign * 2 ^ 11 + E) * 2 ^ 20) by ring.
  rewrite lor_disjoint by (lia || (apply Z.mod_pos_bound; lia)).
  rewrite shl_mul, lor_disjoint by (lia || (apply Z.mod_pos_bound; lia)).
  unfold with_sign, uwrap. change (sign_weight F64) with (2 ^ 63).
  replace (a / 2 ^ 32 mod 2 ^ 20) with (a / 2 ^ 32 - 2 ^ 20) by (apply Z.mod_unique with 1; zdm).
  pose proof (Z.div_mod a (2 ^ 32) ltac:(lia)). lia.
Qed.

(** The 53 leading bits of [n], followed by two guard bits, the last one sticky. *)
Definition guarded (n l : Z) : Z :=
  if l =? 53 then n * 2 else if l =? 54 then n else jam n (l - 54).

Definition rounded_mantissa (n l : Z) : Z * Z :=
  if 52 <? l then
    let r := round_sig NearestEven 2 (guarded n l) in
    if z2b (r .& (1 << 53)) then (r >> 1, l + 1) else (r, l)
  else (n * 2 ^ (52 - l), l).

Lemma guarded_bounds (n l : Z) : 53 <= l -> 2 ^ l <= n < 2 ^ (l + 1) ->
  2 ^ 54 <= guarded n l < 2 ^ 55 /\ same 2 (guarded n l) (IZR n * pow2 (54 - l)).
Proof.
  intros Hl Hn. unfold guarded. destruct (Z.eqb_spec l 53) as [->|N3]; [|destruct (Z.eqb_spec l 54) as [->|N4]].
  - change (2 ^ (53 + 1)) with (2 ^ 54) in Hn. split; [lia|]. apply (same_shl 0 1 n (IZR n)); try lia. apply (same_exact 1).
  - change (2 ^ (54 + 1)) with (2 ^ 55) in Hn. split; [lia|]. change (54 - 54) with 0. rewrite pow2_0, Rmult_1_r. apply same_exact.
  - assert (Q : n / 2 ^ (l - 54) = 2 ^ 54 + (n / 2 ^ (l - 54) - 2 ^ 54)) by lia.
    assert (P : 2 ^ l = 2 ^ 54 * 2 ^ (l - 54)) by (rewrite <- Z.pow_add_r by lia; f_equal; lia).
    assert (P' : 2 ^ (l + 1) = 2 ^ 55 * 2 ^ (l - 54)) by (rewrite <- Z.pow_add_r by lia; f_equal; lia).
    assert (0 < 2 ^ (l - 54)) by (apply Z.pow_pos_nonneg; lia).
    assert (B : 2 ^ 54 <= n / 2 ^ (l - 54) < 2 ^ 55) by (split; [apply Z.div_le_lower_bound; lia|apply Z.div_lt_upper_bound; lia]).
    split.
    + rewrite jam_eq by lia. destruct (_ =? 0); zdm.
    + replace (54 - l) with (- (l - 54)) by lia. pose proof (same_jam 0 (l - 54) n (IZR n) ltac:(lia) ltac:(lia) (same_exact 1 n)) as S.
      replace (Z.max 1 (0 - (l - 54))) with 1 in S by lia. exact S.
Qed.

Lemma rounded_mantissa_spec (n l a e : Z) : 0 <= l <= 127 -> 2 ^ l <= n < 2 ^ (l + 1) -> rounded_mantissa n l = (a, e) ->
  0 <= e <= 128 /\ 2 ^ 52 <= a < 2 ^ 53 /\ rounds_to F64 NearestEven (IZR n) ((e + 1022) * 2 ^ 52 + a).
Proof.
  intros Hl Hn. unfold rounded_mantissa. destruct (Z.ltb_spec 52 l) as [L|L].
  - destruct (guarded_bounds n l ltac:(lia) Hn) as [G S]. pose proof (rounded53 n l _ ltac:(lia) G S) as R.
    pose proof (round_sig_between 2 (guarded n l) ltac:(lia) NearestEven) as B. set (r := round_sig _ _ _) in *. clearbody r.
    assert (Br : 2 ^ 52 <= r <= 2 ^ 53) by zdm. change (1 << 53) with (2 ^ 53).
    rewrite (rep_sign 53 (2 ^ 53)) by (reflexivity || lia). destruct (Z.leb_spec (2 ^ 53) r) as [C|C]; intros [= <- <-].
    + replace r with (2 ^ 53) in * by lia. change (2 ^ 53 >> 1) with (2 ^ 52). split; [lia|split; [lia|]].
      replace ((l + 1 + 1022) * 2 ^ 52 + 2 ^ 52) with ((l + 1022) * 2 ^ 52 + 2 ^ 53) by lia. exact R.
    + split; [lia|split; [lia|exact R]].
  - intros K. apply pair_equal_spec in K as [<- <-].
    assert (P : 2 ^ l * 2 ^ (52 - l) = 2 ^ 52) by (rewrite <- Z.pow_add_r by lia; f_equal; lia).
    assert (P' : 2 ^ (l + 1) * 2 ^ (52 - l) = 2 ^ 53) by (rewrite <- Z.pow_add_r by lia; f_equal; lia).
    assert (0 < 2 ^ (52 - l)) by (apply Z.pow_pos_nonneg; lia).
    assert (B : 2 ^ 52 <= n * 2 ^ (52 - l) < 2 ^ 53) by nia. split; [lia|split; [exact B|]].
    assert (M : mag F64 ((l + 1022) * 2 ^ 52 + n * 2 ^ (52 - l)) = IZR n).
    { change (2 ^ 52) with (2 ^ mb F64) at 1. rewrite mag_pack; [|exact F64_valid|lia|change (2 * 2 ^ mb F64) with (2 ^ 53); lia|right; change (2 ^ mb F64) with (2 ^ 52); lia].
      rewrite mult_IZR, <- pow2_IZR, Rmult_assoc, <- pow2_add by lia. change (emin F64) with (-1074).
      replace (52 - l + (l + 1022 + -1074)) with 0 by lia. rewrite pow2_0. ring. }
    rewrite <- M at 1. apply (rounds_to_exact F64). change (inf_pattern F64) with (2047 * 2 ^ 52). lia.
Qed.

(** The sticky bit of the bits below the guard bits. *)
Lemma sticky_code (n l : Z) : 54 < l <= 127 -> 0 <= n ->
  (n >> (l + 1 - (DBL_MANT_DIG + 2))) .| b2z (z2b (n .& (u128 (-1) >> (128 + DBL_MANT_DIG + 2 - (l + 1))))) = jam n (l - 54).
Proof.
  intros Hl Hn. change DBL_MANT_DIG with 53. unfold jam, z2b. replace (l + 1 - (53 + 2)) with (l - 54) by lia. do 2 f_equal.
  rewrite (rep_abs (l - 54)); [reflexivity|lia|]. rewrite shr_div by lia.
  change (u128 (-1)) with (2 ^ 128 - 1). replace (128 + 53 + 2 - (l + 1)) with (182 - l) by lia.
  assert (2 ^ 128 = 2 ^ (l - 54) * 2 ^ (182 - l)) by (rewrite <- Z.pow_add_r by lia; f_equal; lia).
  assert (0 < 2 ^ (182 - l)) by (apply Z.pow_pos_nonneg; lia).
  symmetry. apply Z.div_unique with (2 ^ (182 - l) - 1); lia.
Qed.

Lemma log2_word (w n : Z) : 0 <= w -> 0 < n < 2 ^ w -> 0 <= Z.log2 n <= w - 1 /\ 2 ^ Z.log2 n <= n < 2 ^ (Z.log2 n + 1).
Proof.
  intros Hw Hn. pose proof (Z.log2_spec n ltac:(lia)). pose proof (Z.log2_nonneg n).
  pose proof (proj1 (log2_bounds n w ltac:(lia) ltac:(lia)) ltac:(lia)). rewrite <- Z.add_1_r in *. lia.
Qed.

(** The steps of the code up to the mantissa, for the signed and the unsigned
    word that holds [n]. *)
Lemma mantissa_code (wrap wrap' wrap'' : Z -> Z) (n l : Z) : 0 <= l <= 127 -> 2 ^ l <= n < 2 ^ (l + 1) ->
  (forall x, 0 <= x < 2 ^ 127 -> wrap x = x /\ wrap' x = x /\ wrap'' x = x) ->
  (if DBL_MANT_DIG <? l + 1 then
     let a :=
       if l + 1 =? DBL_MANT_DIG + 1 then wrap (n << 1)
       else if l + 1 =? DBL_MANT_DIG + 2 then n
       else wrap' ((n >> (l + 1 - (DBL_MANT_DIG + 2)))
                  .| b2z (z2b (n .& (u128 (-1) >> (128 + DBL_MANT_DIG + 2 - (l + 1)))))) in
     let a := a .| b2z (z2b (a .& 4)) in
     let a := wrap (a + 1) in
     let a := a >> 2 in
     if z2b (wrap'' a .& (1 << DBL_MANT_DIG)) then (a >> 1, l + 1) else (a, l)
   else (wrap (n << (DBL_MANT_DIG - (l + 1))), l)) = rounded_mantissa n l.
Proof.
  intros Hl Hn Hw. unfold rounded_mantissa. replace (DBL_MANT_DIG <? l + 1) with (52 <? l) by (change DBL_MANT_DIG with 53; lia).
  destruct (Z.ltb_spec 52 l) as [L|L].
  - destruct (guarded_bounds n l ltac:(lia) Hn) as [B _].
    assert (G : (if l + 1 =? DBL_MANT_DIG + 1 then wrap (n << 1) else if l + 1 =? DBL_MANT_DIG + 2 then n
                 else wrap' ((n >> (l + 1 - (DBL_MANT_DIG + 2))) .| b2z (z2b (n .& (u128 (-1) >> (128 + DBL_MANT_DIG + 2 - (l + 1))))))) = guarded n l).
    { replace (l + 1 =? DBL_MANT_DIG + 1) with (l =? 53) by (change DBL_MANT_DIG with 53; lia).
      replace (l + 1 =? DBL_MANT_DIG + 2) with (l =? 54) by (change DBL_MANT_DIG with 53; lia).
      unfold guarded in *. change (2 ^ 1) with 2 in *. destruct (Z.eqb_spec l 53) as [->|]; [rewrite shl_mul by lia; apply (Hw (n * 2 ^ 1)); lia|].
      destruct (Z.eqb_spec l 54); [reflexivity|]. rewrite sticky_code by lia. apply Hw; lia. }
    rewrite G. clear G. set (g := guarded n l) in *. clearbody g. cbv zeta.
    assert (O : 0 <= g .| b2z (z2b (g .& 4)) < 2 ^ 127 - 1).
    { destruct (z2b (g .& 4)); cbn [Z.b2z]; [rewrite lor_1; zdm|rewrite Z.lor_0_r; lia]. }
    rewrite (proj1 (Hw ((g .| b2z (z2b (g .& 4))) + 1) ltac:(lia))), finish_round by lia.
    pose proof (round_sig_between 2 g ltac:(lia) NearestEven). set (r := round_sig _ _ g) in *.
    assert (W : wrap'' r = r) by (apply Hw; zdm). rewrite W. reflexivity.
  - rewrite shl_mul by (change DBL_MANT_DIG with 53; lia). change DBL_MANT_DIG with 53.
    replace (53 - (l + 1)) with (52 - l) by lia. f_equal. apply Hw.
    assert (P' : 2 ^ (l + 1) * 2 ^ (52 - l) = 2 ^ 53) by (rewrite <- Z.pow_add_r by lia; f_equal; lia).
    assert (0 < 2 ^ (52 - l)) by (apply Z.pow_pos_nonneg; lia). assert (0 < 2 ^ l) by (apply Z.pow_pos_nonneg; lia). nia.
Qed.

Lemma ___floatuntidf_spec (a : Z) : 0 <= a < 2 ^ 128 -> rounds_to F64 NearestEven (IZR a) (___floatuntidf a).
Proof.
  intros Ha. unfold ___floatuntidf. destruct (Z.eqb_spec a 0) as [->|N].
  { rewrite <- (mag_zero F64). apply (rounds_to_exact F64). split; [lia|reflexivity]. }
  cbv zeta. rewrite __clzti2_spec by lia. destruct (log2_word 128 a ltac:(lia) ltac:(lia)) as [Hl Hb].
  unfold nlz. set (l := Z.log2 a) in *. clearbody l. replace (128 - (128 - 1 - l)) with (l + 1) by lia.
  rewrite (swrap_small 32 (l + 1)) by lia. replace (l + 1 - 1) with l by lia.
  pose proof (mantissa_code u128 (fun x => x) (fun x => x) a l ltac:(lia) Hb) as C. cbv beta zeta in C.
  rewrite C by (intros; split; [apply uwrap_small; lia|split; reflexivity]).
  destruct (rounded_mantissa a l) as [x e] eqn:E. destruct (rounded_mantissa_spec a l x e ltac:(lia) Hb E) as (He & Hx & R).
  assert (A := assemble false (e + 1023) x ltac:(lia) Hx). cbn [Z.b2z] in A. rewrite Z.mul_0_l, Z.lor_0_l in A. rewrite A.
  unfold with_sign. cbn [Z.b2z]. rewrite Z.mul_0_l, Z.add_0_l. replace (e + 1023 - 1) with (e + 1022) by lia. exact R.
Qed.

(** The sign word and the magnitude of a signed 128-bit integer. *)
Lemma sign_word {U : Undefined} (a : Z) : - 2 ^ 127 <= a < 2 ^ 127 -> (a = - 2 ^ 127 -> overflow_wraps) ->
  u32 (a >> (128 - 1)) .& 0x80000000 = b2z (a <? 0) * 2 ^ 31 /\
  sub_i128 (a .^ (a >> (128 - 1))) (a >> (128 - 1)) = i128 (Z.abs a).
Proof.
  intros Ha Wr. rewrite shr_div by lia. change (128 - 1) with 127. destruct (Z.ltb_spec a 0) as [N|N].
  - replace (a / 2 ^ 127) with (-1) by (apply Z.div_unique with (a + 2 ^ 127); lia). split; [reflexivity|].
    rewrite Z.lxor_m1_r. unfold Z.lnot. replace (Z.abs a) with (Z.pred (- a) - -1) by lia.
    destruct (Z.eq_dec a (- 2 ^ 127)) as [E|E]; [now apply sub_wraps, Wr|].
    rewrite sub_small by lia. symmetry. apply swrap_small; [lia|]. change (128 - 1) with 127. lia.
  - rewrite Z.div_small by lia. split; [reflexivity|]. rewrite Z.lxor_0_r, sub_small, Z.sub_0_r, Z.abs_eq by lia.
    symmetry. apply swrap_small; [lia|]. change (128 - 1) with 127. lia.
Qed.

Lemma ___floattidf_spec {U : Undefined} (a : Z) : - 2 ^ 127 <= a < 2 ^ 127 -> (a = - 2 ^ 127 -> overflow_wraps) ->
  exists b, ___floattidf a = with_sign F64 (a <? 0) b /\ rounds_to F64 NearestEven (IZR (Z.abs a)) b.
Proof.
  intros Ha Wr. unfold ___floattidf. destruct (Z.eqb_spec a 0) as [->|N].
  { exists 0. split; [reflexivity|]. change (Z.abs 0) with 0. rewrite <- (mag_zero F64). apply (rounds_to_exact F64). split; [lia|reflexivity]. }
  cbv zeta. destruct (sign_word a Ha Wr) as [S M]. rewrite M, S. assert (Hn : 0 < Z.abs a <= 2 ^ 127) by lia.
  set (n := Z.abs a) in *. clearbody n. set (sign := a <? 0). clearbody sign. clear a S M Ha N Wr.
  assert (n = 2 ^ 127 \/ n < 2 ^ 127) as [->|L] by lia.
  { exists (1150 * 2 ^ 52). split; [destruct sign; vm_compute; reflexivity|].
    replace (IZR (2 ^ 127)) with (mag F64 (1149 * 2 ^ mb F64 + 2 ^ 52)).
    - apply (rounds_to_exact F64). split; [lia|reflexivity].
    - rewrite (mag_pack F64) by (cbn; lia). change (1149 + emin F64) with 75. rewrite pow2_IZR, <- mult_IZR by lia. reflexivity. }
  assert (W : forall x, 0 <= x < 2 ^ 127 -> i128 x = x /\ u128 x = x).
  { intros x Hx. split; [apply swrap_small; [lia|change (128 - 1) with 127; lia]|apply uwrap_small; lia]. }
  rewrite __clzti2_spec by lia. destruct (log2_word 128 n ltac:(lia) ltac:(lia)) as [Hl Hb].
  unfold nlz. set (l := Z.log2 n) in *. clearbody l. replace (128 - (128 - 1 - l)) with (l + 1) by lia.
  rewrite (swrap_small 32 (l + 1)) by lia. replace (l + 1 - 1) with l by lia.
  destruct (W n ltac:(lia)) as [-> ->].
  pose proof (mantissa_code i128 i128 u128 n l ltac:(lia) Hb (fun x Hx => conj (proj1 (W x Hx)) (W x Hx))) as C. cbv beta zeta in C.
  rewrite C. clear C. destruct (rounded_mantissa n l) as [x e] eqn:E.
  destruct (rounded_mantissa_spec n l x e ltac:(lia) Hb E) as (He & Hx & R).
  rewrite assemble by lia. exists ((e + 1022) * 2 ^ 52 + x). split; [|exact R]. do 2 f_equal. lia.
Qed.

Lemma ___floattidf_agrees {U : Undefined} (a : Z) (s : env) : - 2 ^ 63 <= a < 2 ^ 63 -> softfloat_roundingMode s = softfloat_round_near_even ->
  fst (i64_to_f64 a s) = ___floattidf a.
Proof.
  intros Ha Hm. destruct (i64_to_f64_spec a s Ha) as (Z0 & P & N).
  destruct (___floattidf_spec a ltac:(lia) ltac:(lia)) as (b & -> & R).
  assert (D : forall sign, env_direction s sign = NearestEven) by (intros; unfold env_direction; rewrite Hm; reflexivity).
  destruct (Z.lt_trichotomy a 0) as [L|[->|L]].
  - destruct (N (IZR_lt _ _ L)) as (c & fl & -> & R' & _). rewrite D in R'. rewrite Z.abs_neq, opp_IZR in R by lia.
    replace (a <? 0) with true by lia. cbn [fst]. f_equal. eapply (rounds_to_unique F64); eassumption.
  - rewrite Z0 by reflexivity. apply rounds_to_zero in R as ->; [reflexivity|exact F64_valid].
  - destruct (P (IZR_lt _ _ L)) as (c & fl & -> & R' & _). rewrite D in R'. rewrite Z.abs_eq in R by lia.
    replace (a <? 0) with false by lia. cbn [fst]. f_equal. eapply (rounds_to_unique F64); eassumption.
Qed.

(** ** The range in which the signed conversions do not saturate *)
Lemma fix_spec_wraps {U : Undefined} (f : format) {V : ValidFormat f} (a r : Z) : overflow_wraps -> is_enc f a -> sign_of f a = false -> is_finite f a ->
  (IZR (2 ^ 127) <= mag f (pattern_of f a) < IZR (2 ^ 128))%R -> fix_spec f a r -> - 2 ^ 127 <= r < 0.
Proof.
  intros Wr Ha Hs [_ Hf] [L Up]. unfold fix_spec. rewrite Hs.
  assert (C : nanb f a || infb f a = false).
  { apply orb_false_iff. unfold nanb, infb. rewrite Z.ltb_ge, Z.eqb_neq. lia. }
  rewrite C. intros (n & [R1 R2] & _ & _ & W).
  assert (n < 2 ^ 128) by (apply lt_IZR; lra).
  assert (2 ^ 127 <= n) by (apply Z.lt_succ_r, lt_IZR; rewrite succ_IZR; lra).
  rewrite W by (assumption || lia). unfold swrap. change (128 - 1) with 127.
  replace ((n + 2 ^ 127) mod 2 ^ 128) with (n + 2 ^ 127 - 2 ^ 128) by (apply Z.mod_unique with 1; lia). lia.
Qed.

Lemma fixti_does_not_saturate {U : Undefined} (Wr : overflow_wraps) :
  (forall a, is_enc F32 a -> sign_of F32 a = false -> is_finite F32 a ->
     (IZR (2 ^ 127) <= mag F32 (pattern_of F32 a) < IZR (2 ^ 128))%R -> - 2 ^ 127 <= ___fixsfti a < 0) /\
  (forall a, is_enc F64 a -> sign_of F64 a = false -> is_finite F64 a ->
     (IZR (2 ^ 127) <= mag F64 (pattern_of F64 a) < IZR (2 ^ 128))%R -> - 2 ^ 127 <= ___fixdfti a < 0) /\
  (forall x, f128_ok x -> sign_of F128 (f128_enc x) = false -> is_finite F128 (f128_enc x) ->
     (IZR (2 ^ 127) <= mag F128 (pattern_of F128 (f128_enc x)) < IZR (2 ^ 128))%R -> - 2 ^ 127 <= ___fixtfti x < 0).
Proof.
  repeat apply conj.
  - intros a Ha Hs Hf Hm. now apply (fix_spec_wraps F32 a); [..|apply ___fixsfti_spec].
  - intros a Ha Hs Hf Hm. now apply (fix_spec_wraps F64 a); [..|apply ___fixdfti_spec].
  - intros x Hx Hs Hf Hm. destruct (toRep_bits x Hx) as [He _].
    now apply (fix_spec_wraps F128 (f128_enc x)); [..|apply ___fixtfti_spec].
Qed.

(** ** Summary *)

(** C35. The conversions of compiler-rt between 128-bit integers and floating point. To the integers they
    truncate towards zero. The signed ones ([___fixsfti], [___fixdfti], [___fixtfti]) give the integer part of
    the operand when its magnitude is below 2^127 and the nearest end of the range for NaNs (by their sign),
    infinities and magnitudes from 2^128 on; in between the code overflows, which is undefined in C, and where the compiler
    wraps ([overflow_wraps]) the result is the integer part reduced to 128 bits, not the end of the range. The unsigned ones ([___fixunssfti], [___fixunsdfti], [___fixunstfti])
    saturate: 0 for anything with the sign bit set, 2^128 - 1 for the other NaNs, +inf and
    magnitudes from 2^128 on. From the integers, [___floattidf] and [___floatuntidf] give the nearest 64-bit
    number, ties to even, with its sign (for -2^127, the negation of which overflows in the code, where the compiler wraps); on 64-bit integers [___floattidf] returns what
    [i64_to_f64] of SoftFloat returns in the round-to-nearest mode. *)
Theorem int128_floats_correct {U : Undefined} :
  ((forall a, is_enc F32 a -> fix_spec F32 a (___fixsfti a) /\ fixuns_spec F32 a (___fixunssfti a)) /\
   (forall a, is_enc F64 a -> fix_spec F64 a (___fixdfti a) /\ fixuns_spec F64 a (___fixunsdfti a)) /\
   (forall x, f128_ok x -> fix_spec F128 (f128_enc x) (___fixtfti x) /\ fixuns_spec F128 (f128_enc x) (___fixunstfti x))) /\
  (forall a, - 2 ^ 127 <= a < 2 ^ 127 -> (a = - 2 ^ 127 -> overflow_wraps) ->
     exists b, ___floattidf a = with_sign F64 (a <? 0) b /\ rounds_to F64 NearestEven (IZR (Z.abs a)) b) /\
  (forall a, 0 <= a < 2 ^ 128 -> rounds_to F64 NearestEven (IZR a) (___floatuntidf a)) /\
  (forall a s, - 2 ^ 63 <= a < 2 ^ 63 -> softfloat_roundingMode s = softfloat_round_near_even ->
     fst (i64_to_f64 a s) = ___floattidf a).
Proof.
  split; [split; [|split]|].
  - intros a Ha. split; [exact (___fixsfti_spec a Ha)|exact (___fixunssfti_spec a Ha)].
  - intros a Ha. split; [exact (___fixdfti_spec a Ha)|exact (___fixunsdfti_spec a Ha)].
  - intros x Hx. split; [exact (___fixtfti_spec x Hx)|exact (___fixunstfti_spec x Hx)].
  - split; [exact ___floattidf_spec|]. split; [exact ___floatuntidf_spec|exact ___floattidf_agrees].
Qed.

(** -2.5 truncates to -2; 2^128 * 1.5 saturates; the largest integers round up to a power of two. *)
Lemma int128_floats_correct_witness :
  ___fixdfti (U := wrapping) 0xC004000000000000 = - 2 /\ ___fixunsdfti 0x47F8000000000000 = 2 ^ 128 - 1 /\
  ___floatuntidf (2 ^ 128 - 1) = 0x47F0000000000000 /\ ___floattidf (U := wrapping) (- 9007199254740993) = 0xC340000000000000 /\
  fix_spec (U := wrapping) F64 0xC004000000000000 (___fixdfti (U := wrapping) 0xC004000000000000) /\
  rounds_to F64 NearestEven (IZR (2 ^ 128 - 1)) (___floatuntidf (2 ^ 128 - 1)).
Proof.
  do 4 (split; [vm_compute; reflexivity|]). split.
  - refine (proj1 (proj1 (proj2 (proj1 (int128_floats_correct (U := wrapping)))) _ _)). split; [discriminate|reflexivity].
  - apply (proj1 (proj2 (proj2 (int128_floats_correct (U := wrapping))))). split; [discriminate|reflexivity].
Defined.
