(* ===== verification/F16.v ===== *)
(** 16-bit floating point: the translation of [f16_*.c] and of the [*F16*.c]
    helpers of SoftFloat, in the 8086-SSE specialisation. *)
From Stdlib Require Import ZArith Bool Lia.
From S2P Require Import Prelude Ieee Softfloat Primitives.
Local Open Scope Z_scope.
Local Open Scope c_scope.
Local Open Scope M_scope.

(** ** Fields ([internals.h]) *)
Definition signF16UI (a : Z) : bool := z2b (u16 a >> 15).
Definition expF16UI (a : Z) : Z := i8 (a >> 10) .& 0x1F.
Definition fracF16UI (a : Z) : Z := a .& 0x03FF.
Definition packToF16UI (sign : bool) (exp sig : Z) : Z :=
  u64 ((b2z sign << 15) + (u16 exp << 10) + sig).
Definition isNaNF16UI (a : Z) : bool := ((u64 (Z.lnot a) .& 0x7C00) =? 0) && z2b (a .& 0x03FF).

(** ** NaNs ([specialize.h]) *)
Definition defaultNaNF16UI : Z := 0xFE00.
Definition softfloat_isSigNaNF16UI (uiA : Z) : bool :=
  ((uiA .& 0x7E00) =? 0x7C00) && z2b (uiA .& 0x01FF).

Definition softfloat_propagateNaNF16UI (uiA uiB : Z) : M Z :=
  let isSigNaNA := softfloat_isSigNaNF16UI uiA in
  let last := ret ((if isNaNF16UI uiA then uiA else uiB) .| 0x0200) in
  if isSigNaNA || softfloat_isSigNaNF16UI uiB then
    softfloat_raiseFlags softfloat_flag_invalid ;;;
    (if isSigNaNA then ret (uiA .| 0x0200) else last)
  else last.

(** ** Normalisation, rounding and packing *)
Record exp8_sig16 := { e8s16_exp : Z; e8s16_sig : Z }.

Definition softfloat_normSubnormalF16Sig (sig : Z) : exp8_sig16 :=
  let shiftDist := i8 (softfloat_countLeadingZeros16 (u16 sig) - 5) in
  {| e8s16_exp := i8 (1 - shiftDist); e8s16_sig := u64 (sig << shiftDist) |}.

Definition softfloat_roundPackToF16 (sign : bool) (exp sig : Z) : M Z :=
  s <- get ;;
  let roundingMode := softfloat_roundingMode s in
  let roundNearEven := roundingMode =? softfloat_round_near_even in
  let roundIncrement :=
    if negb roundNearEven && negb (roundingMode =? softfloat_round_near_maxMag) then
      if roundingMode =? (if sign then softfloat_round_min else softfloat_round_max) then 0xF else 0
    else 0x8 in
  let roundBits := sig .& 0xF in
  let pack exp sig roundBits :=
    let sig := u64 (sig + roundIncrement) >> 4 in
    when (z2b roundBits) (softfloat_raiseFlags softfloat_flag_inexact) ;;;
    let sig := sig .& u64 (Z.lnot (b2z (negb (z2b (roundBits .^ 8)) && roundNearEven))) in
    let exp := if negb (z2b sig) then 0 else exp in
    ret (u16 (packToF16UI sign exp sig)) in
  if 0x1D <=? u32 exp then
    if exp <? 0 then
      let isTiny :=
        (softfloat_detectTininess s =? softfloat_tininess_beforeRounding)
        || (exp <? -1) || (u64 (sig + roundIncrement) <? 0x8000) in
      let sig := softfloat_shiftRightJam32 (u32 sig) (u64 (- exp)) in
      let exp := 0 in
      let roundBits := sig .& 0xF in
      when (isTiny && z2b roundBits) (softfloat_raiseFlags softfloat_flag_underflow) ;;;
      pack exp sig roundBits
    else if (0x1D <? exp) || (0x8000 <=? u64 (sig + roundIncrement)) then
      softfloat_raiseFlags (softfloat_flag_overflow .| softfloat_flag_inexact) ;;;
      ret (u16 (packToF16UI sign 0x1F 0 - b2z (negb (z2b roundIncrement))))
    else pack exp sig roundBits
  else pack exp sig roundBits.

Definition softfloat_normRoundPackToF16 (sign : bool) (exp sig : Z) : M Z :=
  let shiftDist := i8 (softfloat_countLeadingZeros16 (u16 sig) - 1) in
  let exp := exp - shiftDist in
  if (4 <=? shiftDist) && (u32 exp <? 0x1D) then
    ret (u16 (packToF16UI sign (if z2b sig then exp else 0) (u64 (sig << (shiftDist - 4)))))
  else
    softfloat_roundPackToF16 sign exp (u64 (sig << shiftDist)).

(** ** Addition and subtraction *)

(** The labels [addEpsilon] and [subEpsilon]: the smaller operand only nudges
    the larger one. *)
Definition addEpsilon (uiZ : Z) : M Z :=
  s <- get ;;
  let roundingMode := i8 (softfloat_roundingMode s) in
  (if negb (roundingMode =? softfloat_round_near_even) then
     if roundingMode =? (if signF16UI uiZ then softfloat_round_min else softfloat_round_max) then
       let uiZ := u64 (uiZ + 1) in
       when (u16 (u64 (uiZ << 1)) =? 0xF800)
         (softfloat_raiseFlags (softfloat_flag_overflow .| softfloat_flag_inexact)) ;;;
       softfloat_raiseFlags softfloat_flag_inexact ;;;
       ret (u16 uiZ)
     else softfloat_raiseFlags softfloat_flag_inexact ;;; ret (u16 uiZ)
   else softfloat_raiseFlags softfloat_flag_inexact ;;; ret (u16 uiZ)).

Definition subEpsilon (uiZ : Z) : M Z :=
  s <- get ;;
  let roundingMode := i8 (softfloat_roundingMode s) in
  let uiZ :=
    if negb (roundingMode =? softfloat_round_near_even) then
      if (roundingMode =? softfloat_round_minMag)
         || (roundingMode =? (if signF16UI uiZ then softfloat_round_max else softfloat_round_min))
      then u64 (uiZ - 1) else uiZ
    else uiZ in
  softfloat_raiseFlags softfloat_flag_inexact ;;;
  ret (u16 uiZ).

Definition softfloat_addMagsF16 (uiA uiB : Z) : M Z :=
  let expA := expF16UI uiA in
  let sigA := fracF16UI uiA in
  let expB := expF16UI uiB in
  let sigB := fracF16UI uiB in
  let propagateNaN := uiZ <- softfloat_propagateNaNF16UI uiA uiB ;; ret (u16 uiZ) in
  let expDiff := i8 (expA - expB) in
  if expDiff =? 0 then
    if expA =? 0 then ret (u16 (u64 (uiA + sigB)))
    else if expA =? 0x1F then
      if z2b (sigA .| sigB) then propagateNaN else ret (u16 uiA)
    else
      let signZ := signF16UI uiA in
      let expZ := expA in
      let sigZ := u64 (0x0800 + sigA + sigB) in
      if negb (z2b (sigZ .& 1)) && (expZ <? 0x1E) then
        ret (u16 (packToF16UI signZ expZ (sigZ >> 1)))
      else softfloat_roundPackToF16 signZ expZ (u64 (sigZ << 3))
  else
    let signZ := signF16UI uiA in
    let finish expZ sigX sigY shiftDist :=
      let sig32Z := u64 (u64 (sigX << 19) + u64 (sigY << shiftDist)) in
      let '(expZ, sig32Z) := if sig32Z <? 0x40000000 then (i8 (expZ - 1), u64 (sig32Z << 1)) else (expZ, sig32Z) in
      let sigZ := sig32Z >> 16 in
      if z2b (sig32Z .& 0xFFFF) then softfloat_roundPackToF16 signZ expZ (sigZ .| 1)
      else if negb (z2b (sigZ .& 0xF)) && (expZ <? 0x1E) then
        ret (u16 (packToF16UI signZ expZ (sigZ >> 4)))
      else softfloat_roundPackToF16 signZ expZ sigZ in
    if expDiff <? 0 then
      if expB =? 0x1F then
        if z2b sigB then propagateNaN else ret (u16 (packToF16UI signZ 0x1F 0))
      else if expDiff <=? -13 then
        let uiZ := packToF16UI signZ expB sigB in
        if z2b (expA .| sigA) then addEpsilon uiZ else ret (u16 uiZ)
      else
        finish expB (sigB .| 0x0400) (u64 (sigA + (if z2b expA then 0x0400 else sigA))) (i8 (19 + expDiff))
    else
      let uiZ := uiA in
      if expA =? 0x1F then
        if z2b sigA then propagateNaN else ret (u16 uiZ)
      else if 13 <=? expDiff then
        if z2b (expB .| sigB) then addEpsilon uiZ else ret (u16 uiZ)
      else
        finish expA (sigA .| 0x0400) (u64 (sigB + (if z2b expB then 0x0400 else sigB))) (i8 (19 - expDiff)).

Definition softfloat_subMagsF16 (uiA uiB : Z) : M Z :=
  let expA := expF16UI uiA in
  let sigA := fracF16UI uiA in
  let expB := expF16UI uiB in
  let sigB := fracF16UI uiB in
  let propagateNaN := uiZ <- softfloat_propagateNaNF16UI uiA uiB ;; ret (u16 uiZ) in
  let expDiff := i8 (expA - expB) in
  if expDiff =? 0 then
    if expA =? 0x1F then
      if z2b (sigA .| sigB) then propagateNaN
      else softfloat_raiseFlags softfloat_flag_invalid ;;; ret (u16 defaultNaNF16UI)
    else
      let sigDiff := i64 (u64 (sigA - sigB)) in
      if sigDiff =? 0 then
        s <- get ;;
        ret (u16 (packToF16UI (softfloat_roundingMode s =? softfloat_round_min) 0 0))
      else
        let expA := if z2b expA then expA - 1 else expA in
        let signZ := signF16UI uiA in
        let '(signZ, sigDiff) := if sigDiff <? 0 then (negb signZ, - sigDiff) else (signZ, sigDiff) in
        let shiftDist := i8 (softfloat_countLeadingZeros16 (u16 sigDiff) - 5) in
        let expZ := i8 (expA - shiftDist) in
        let '(shiftDist, expZ) := if expZ <? 0 then (expA, 0) else (shiftDist, expZ) in
        ret (u16 (packToF16UI signZ expZ (u64 (sigDiff << shiftDist))))
  else
    let signZ := signF16UI uiA in
    let finish signZ expZ sigX sigY expDiff :=
      let sig32Z := u64 (u64 (sigX << expDiff) - sigY) in
      let shiftDist := i8 (softfloat_countLeadingZeros32 (u32 sig32Z) - 1) in
      let sig32Z := u64 (sig32Z << shiftDist) in
      let expZ := i8 (expZ - shiftDist) in
      let sigZ := sig32Z >> 16 in
      if z2b (sig32Z .& 0xFFFF) then softfloat_roundPackToF16 signZ expZ (sigZ .| 1)
      else if negb (z2b (sigZ .& 0xF)) && (u32 expZ <? 0x1E) then
        ret (u16 (packToF16UI signZ expZ (sigZ >> 4)))
      else softfloat_roundPackToF16 signZ expZ sigZ in
    if expDiff <? 0 then
      let signZ := negb signZ in
      if expB =? 0x1F then
        if z2b sigB then propagateNaN else ret (u16 (packToF16UI signZ 0x1F 0))
      else if expDiff <=? -13 then
        let uiZ := packToF16UI signZ expB sigB in
        if z2b (expA .| sigA) then subEpsilon uiZ else ret (u16 uiZ)
      else
        finish signZ (i8 (expA + 19)) (sigB .| 0x0400) (u64 (sigA + (if z2b expA then 0x0400 else sigA))) (i8 (- expDiff))
    else
      let uiZ := uiA in
      if expA =? 0x1F then
        if z2b sigA then propagateNaN else ret (u16 uiZ)
      else if 13 <=? expDiff then
        if z2b (expB .| sigB) then subEpsilon uiZ else ret (u16 uiZ)
      else
        finish signZ (i8 (expB + 19)) (sigA .| 0x0400) (u64 (sigB + (if z2b expB then 0x0400 else sigB))) expDiff.

Definition f16_add (a b : Z) : M Z :=
  if signF16UI (a .^ b) then softfloat_subMagsF16 a b else softfloat_addMagsF16 a b.

Definition f16_sub (a b : Z) : M Z :=
  if signF16UI (a .^ b) then softfloat_addMagsF16 a b else softfloat_subMagsF16 a b.

(** ** Multiplication *)
Definition f16_mul (a b : Z) : M Z :=
  let uiA := a in
  let signA := signF16UI uiA in
  let expA := expF16UI uiA in
  let sigA := fracF16UI uiA in
  let uiB := b in
  let signB := signF16UI uiB in
  let expB := expF16UI uiB in
  let sigB := fracF16UI uiB in
  let signZ := xorb signA signB in
  let propagateNaN := uiZ <- softfloat_propagateNaNF16UI uiA uiB ;; ret (u16 uiZ) in
  let infArg magBits :=
    if negb (z2b magBits) then
      softfloat_raiseFlags softfloat_flag_invalid ;;; ret (u16 defaultNaNF16UI)
    else ret (u16 (packToF16UI signZ 0x1F 0)) in
  let zero := ret (u16 (packToF16UI signZ 0 0)) in
  let multiply expA sigA expB sigB :=
    let expZ := i8 (expA + expB - 0xF) in
    let sigA := u64 ((sigA .| 0x0400) << 4) in
    let sigB := u64 ((sigB .| 0x0400) << 5) in
    let sig32Z := u64 (sigA * sigB) in
    let sigZ := sig32Z >> 16 in
    let sigZ := if z2b (sig32Z .& 0xFFFF) then sigZ .| 1 else sigZ in
    let '(expZ, sigZ) := if sigZ <? 0x4000 then (i8 (expZ - 1), u64 (sigZ << 1)) else (expZ, sigZ) in
    softfloat_roundPackToF16 signZ expZ sigZ in
  let normB expA sigA :=
    if negb (z2b expB) then
      if negb (z2b sigB) then zero
      else
        let normExpSig := softfloat_normSubnormalF16Sig sigB in
        multiply expA sigA (e8s16_exp normExpSig) (e8s16_sig normExpSig)
    else multiply expA sigA expB sigB in
  if expA =? 0x1F then
    if z2b sigA || ((expB =? 0x1F) && z2b sigB) then propagateNaN
    else infArg (expB .| sigB)
  else if expB =? 0x1F then
    if z2b sigB then propagateNaN else infArg (expA .| sigA)
  else if negb (z2b expA) then
    if negb (z2b sigA) then zero
    else
      let normExpSig := softfloat_normSubnormalF16Sig sigA in
      normB (e8s16_exp normExpSig) (e8s16_sig normExpSig)
  else normB expA sigA.

(** ** Division (with a 32-bit by 16-bit hardware division) *)
Definition f16_div (a b : Z) : M Z :=
  let uiA := a in
  let signA := signF16UI uiA in
  let expA := expF16UI uiA in
  let sigA := fracF16UI uiA in
  let uiB := b in
  let signB := signF16UI uiB in
  let expB := expF16UI uiB in
  let sigB := fracF16UI uiB in
  let signZ := xorb signA signB in
  let propagateNaN := uiZ <- softfloat_propagateNaNF16UI uiA uiB ;; ret (u16 uiZ) in
  let invalid := softfloat_raiseFlags softfloat_flag_invalid ;;; ret (u16 defaultNaNF16UI) in
  let infinity := ret (u16 (packToF16UI signZ 0x1F 0)) in
  let zero := ret (u16 (packToF16UI signZ 0 0)) in
  let divide expA sigA expB sigB :=
    let expZ := i8 (expA - expB + 0xE) in
    let sigA := sigA .| 0x0400 in
    let sigB := sigB .| 0x0400 in
    let '(expZ, sig32A) :=
      if sigA <? sigB then (i8 (expZ - 1), u64 (sigA << 15)) else (expZ, u64 (sigA << 14)) in
    let sigZ := sig32A / sigB in
    let sigZ :=
      if negb (z2b (sigZ .& 7)) then sigZ .| b2z (negb (u64 (sigB * sigZ) =? sig32A)) else sigZ in
    softfloat_roundPackToF16 signZ expZ sigZ in
  let normA expB sigB :=
    if negb (z2b expA) then
      if negb (z2b sigA) then zero
      else
        let normExpSig := softfloat_normSubnormalF16Sig sigA in
        divide (e8s16_exp normExpSig) (e8s16_sig normExpSig) expB sigB
    else divide expA sigA expB sigB in
  if expA =? 0x1F then
    if z2b sigA then propagateNaN
    else if expB =? 0x1F then
      if z2b sigB then propagateNaN else invalid
    else infinity
  else if expB =? 0x1F then
    if z2b sigB then propagateNaN else zero
  else if negb (z2b expB) then
    if negb (z2b sigB) then
      if negb (z2b (expA .| sigA)) then invalid
      else softfloat_raiseFlags softfloat_flag_infinite ;;; infinity
    else
      let normExpSig := softfloat_normSubnormalF16Sig sigB in
      normA (e8s16_exp normExpSig) (e8s16_sig normExpSig)
  else normA expB sigB.

(** ** Comparisons *)
Definition f16_eq (a b : Z) : M bool :=
  let uiA := a in
  let uiB := b in
  if isNaNF16UI uiA || isNaNF16UI uiB then
    when (softfloat_isSigNaNF16UI uiA || softfloat_isSigNaNF16UI uiB)
      (softfloat_raiseFlags softfloat_flag_invalid) ;;;
    ret false
  else ret ((uiA =? uiB) || negb (z2b (u16 (u64 ((uiA .| uiB) << 1))))).

Definition f16_eq_signaling (a b : Z) : M bool :=
  let uiA := a in
  let uiB := b in
  if isNaNF16UI uiA || isNaNF16UI uiB then
    softfloat_raiseFlags softfloat_flag_invalid ;;; ret false
  else ret ((uiA =? uiB) || negb (z2b (u16 (u64 ((uiA .| uiB) << 1))))).

Definition f16_le (a b : Z) : M bool :=
  let uiA := a in
  let uiB := b in
  if isNaNF16UI uiA || isNaNF16UI uiB then
    softfloat_raiseFlags softfloat_flag_invalid ;;; ret false
  else
    let signA := signF16UI uiA in
    let signB := signF16UI uiB in
    ret (if xorb signA signB then signA || negb (z2b (u16 (u64 ((uiA .| uiB) << 1))))
         else (uiA =? uiB) || xorb signA (uiA <? uiB)).

Definition f16_lt (a b : Z) : M bool :=
  let uiA := a in
  let uiB := b in
  if isNaNF16UI uiA || isNaNF16UI uiB then
    softfloat_raiseFlags softfloat_flag_invalid ;;; ret false
  else
    let signA := signF16UI uiA in
    let signB := signF16UI uiB in
    ret (if xorb signA signB then signA && negb (u16 (u64 ((uiA .| uiB) << 1)) =? 0)
         else negb (uiA =? uiB) && xorb signA (uiA <? uiB)).

Definition f16_le_quiet (a b : Z) : M bool :=
  let uiA := a in
  let uiB := b in
  if isNaNF16UI uiA || isNaNF16UI uiB then
    when (softfloat_isSigNaNF16UI uiA || softfloat_isSigNaNF16UI uiB)
      (softfloat_raiseFlags softfloat_flag_invalid) ;;;
    ret false
  else
    let signA := signF16UI uiA in
    let signB := signF16UI uiB in
    ret (if xorb signA signB then signA || negb (z2b (u16 (u64 ((uiA .| uiB) << 1))))
         else (uiA =? uiB) || xorb signA (uiA <? uiB)).

Definition f16_lt_quiet (a b : Z) : M bool :=
  let uiA := a in
  let uiB := b in
  if isNaNF16UI uiA || isNaNF16UI uiB then
    when (softfloat_isSigNaNF16UI uiA || softfloat_isSigNaNF16UI uiB)
      (softfloat_raiseFlags softfloat_flag_invalid) ;;;
    ret false
  else
    let signA := signF16UI uiA in
    let signB := signF16UI uiB in
    ret (if xorb signA signB then signA && negb (u16 (u64 ((uiA .| uiB) << 1)) =? 0)
         else negb (uiA =? uiB) && xorb signA (uiA <? uiB)).

Definition f16_isSignalingNaN (a : Z) : bool := softfloat_isSigNaNF16UI a.
