(* ===== verification/F16Round.v ===== *)
(** Rounding and packing to 16 bits is correct rounding. *)
From Stdlib Require Import ZArith Bool Lia Reals Lra.
From S2P Require Import Prelude Ieee Rounding RoundPack Softfloat Primitives Machine F16.
Local Open Scope Z_scope.
Local Open Scope c_scope.

Lemma packToF16UI_eq (sign : bool) (exp sig : Z) :
  0 <= exp < 2 ^ 5 -> 0 <= sig -> exp * 2 ^ 10 + sig < 2 ^ 15 ->
  u16 (packToF16UI sign exp sig) = with_sign F16 sign (exp * 2 ^ 10 + sig).
Proof.
  intros He Hs Hb. unfold packToF16UI, with_sign. change (sign_weight F16) with (2 ^ 15).
  rewrite !shl_mul by lia. assert (0 <= b2z sign <= 1) by (destruct sign; cbn; lia).
  set (t := b2z sign) in *. clearbody t.
  rewrite (uwrap_small 16 exp), (uwrap_small 64) by lia. rewrite uwrap_small; lia.
Qed.

Lemma packToF16UI_overflow (sign : bool) (inc : Z) :
  u16 (packToF16UI sign 0x1F 0 - b2z (negb (z2b inc))) =
  with_sign F16 sign (inf_pattern F16 - b2z (inc =? 0)).
Proof.
  unfold z2b. rewrite negb_involutive. destruct sign, (inc =? 0); reflexivity.
Qed.

(** Dropping the guard bits and packing. *)
#[local] Definition tail16 := round_pack_tail F16 4 8 (fun sign e n => u16 (packToF16UI sign e n))
  ltac:(lia) eq_refl ltac:(simpl; lia)
  ltac:(cbn [mb eb F16]; intros; apply packToF16UI_eq; lia).

(** The C function computes the generic one. *)
Lemma softfloat_roundPackToF16_eq (sign : bool) (exp sig : Z) (s : env) :
  - 2 ^ 15 < exp < 2 ^ 15 -> 2 ^ 14 <= sig < 2 ^ 15 ->
  let d := env_direction s sign in
  softfloat_roundPackToF16 sign exp sig s =
    (with_sign F16 sign (round_pack F16 d 4 exp sig),
     raised_env (round_pack_flags F16 d 4 (env_before s) exp sig) s).
Proof.
  intros He Hs d. unfold softfloat_roundPackToF16.
  change (bind get ?k s) with (k s s). cbv beta zeta.
  rewrite (increment_code 4) by reflexivity.
  rewrite !(land_low _ 0xF 4) by (reflexivity || lia).
  pose proof (increment_bound (mag_direction (softfloat_roundingMode s) sign) 4 ltac:(lia)) as I.
  unfold round_pack, round_pack_flags, rp_overflow, rp_tiny, rp_sig.
  fold (env_direction s sign) in I. fold d in I.
  change (2 ^ eb F16 - 3) with 0x1D. change (2 ^ (mb F16 + 4 + 1)) with 0x8000.
  change (mb F16) with 10.
  destruct (Z.leb_spec 0x1D (u32 exp)) as [U|U].
  - destruct (Z.ltb_spec exp 0) as [E|E].
    + replace (0x1D <? exp) with false by (symmetry; apply Z.ltb_ge; lia).
      replace (exp =? 0x1D) with false by (symmetry; apply Z.eqb_neq; lia). cbn [orb andb].
      rewrite (uwrap_small 32 sig), (uwrap_small 64 (- exp)) by lia.
      rewrite softfloat_shiftRightJam32_jam by lia.
      assert (J : 0 <= jam sig (- exp) < 2 ^ 15) by (split; [apply jam_nonneg|apply jam_bound]; lia).
      unfold bind at 1. rewrite when_raise.
      rewrite (tail16 sign (softfloat_roundingMode s) 0 (jam sig (- exp))) by fmt_lia.
      rewrite raised_env_lor. fold (env_direction s sign). fold d.
      rewrite (uwrap_small 64 (sig + _)) by lia. unfold env_before, z2b.
      replace (Z.max exp 0) with 0 by lia. f_equal. f_equal.
      destruct (jam sig (- exp) mod 2 ^ 4 =? 0); cbn [negb]; rewrite ?andb_false_r, ?andb_true_r; [reflexivity|].
      destruct (_ || _); reflexivity.
    + rewrite (uwrap_small 32 exp) in U by lia.
      fold (env_direction s sign). fold d.
      replace (0x8000 <=? u64 (sig + increment d 4)) with (0x8000 <=? sig + increment d 4)
        by (rewrite uwrap_small by lia; reflexivity).
      replace (Z.max exp 0) with exp by lia.
      assert (O : (0x1D <? exp) || (exp =? 0x1D) && (0x8000 <=? sig + increment d 4) =
                  (0x1D <? exp) || (0x8000 <=? sig + increment d 4)).
      { destruct (Z.ltb_spec 0x1D exp); [reflexivity|]. now replace (exp =? 0x1D) with true by lia. }
      rewrite O. destruct ((0x1D <? exp) || (0x8000 <=? sig + increment d 4)) eqn:X.
      * unfold bind, softfloat_raiseFlags, ret. f_equal. apply packToF16UI_overflow.
      * rewrite (tail16 sign (softfloat_roundingMode s) exp sig) by fmt_lia. reflexivity.
  - assert (E : 0 <= exp < 0x1D) by (unfold uwrap in U; destruct (Z.ltb_spec exp 0); zdm).
    replace (0x1D <? exp) with false by lia. replace (exp =? 0x1D) with false by lia.
    destruct (Z.ltb_spec exp 0); [lia|]. cbn [orb andb]. replace (Z.max exp 0) with exp by lia.
    rewrite (tail16 sign (softfloat_roundingMode s) exp sig) by fmt_lia. reflexivity.
Qed.

(** The result is the correct rounding of the real number that the significand
    stands for, with 4 guard bits of which the last may be sticky. *)
Lemma softfloat_roundPackToF16_rounds (sign : bool) (k exp sig : Z) (s : env) (x y : R) :
  - 2 ^ 15 < exp < 2 ^ 15 -> 2 ^ 14 <= sig < 2 ^ 15 -> 0 <= k <= 3 -> same (2 ^ k) sig y ->
  x = (y * pow2 (exp - 4 + emin F16))%R ->
  rounded_result F16 s sign x (softfloat_roundPackToF16 sign exp sig s).
Proof.
  intros He Hs Hk S X. rewrite softfloat_roundPackToF16_eq by assumption.
  apply (round_pack_result F16 s sign 4 k exp sig x y); try assumption; fmt_lia.
Qed.

(** ** Fields *)
Lemma expF16UI_eq (a : Z) : is_enc F16 a -> expF16UI a = (a / 2 ^ 10) mod 2 ^ 5.
Proof.
  unfold is_enc, expF16UI. change (2 * sign_weight F16) with (2 ^ 16). intros Ha. rewrite shr_div by lia.
  rewrite swrap_small, (land_low _ 0x1F 5) by (reflexivity || lia || (change (2 ^ (8 - 1)) with 128; zdm)). reflexivity.
Qed.

Lemma F16_fields (a : Z) : is_enc F16 a ->
  signF16UI a = sign_of F16 a /\ 0 <= expF16UI a < 2 ^ 5 /\ 0 <= fracF16UI a < 2 ^ 10 /\
  pattern_of F16 a = expF16UI a * 2 ^ 10 + fracF16UI a /\ a = with_sign F16 (sign_of F16 a) (pattern_of F16 a).
Proof.
  unfold is_enc, signF16UI, expF16UI, fracF16UI, sign_of, pattern_of, with_sign.
  change (sign_weight F16) with (2 ^ 15). intros Ha.
  rewrite !shr_div, (swrap_small 8 (a / 2 ^ 10)), (land_low _ 0x1F 5), (land_low _ 0x03FF 10) by (reflexivity || lia || (change (2 ^ (8 - 1)) with 128; zdm)).
  rewrite uwrap_small by lia.
  assert (D : 0 <= a / 2 ^ 15 <= 1) by zdm.
  repeat split; try (apply Z.mod_pos_bound; lia).
  - unfold z2b. destruct (Z.eqb_spec (a / 2 ^ 15) 0), (Z.leb_spec (2 ^ 15) a); try reflexivity; zdm.
  - zdm.
  - destruct (Z.leb_spec (2 ^ 15) a); cbn [Z.b2z]; zdm.
Qed.

(** Normalising first: either nothing was lost, or at most a few bits cancelled. *)
Lemma softfloat_normRoundPackToF16_rounds (sign : bool) (exp sig : Z) (s : env) (x y : R) :
  - 2 ^ 14 < exp <= 0x1D -> 0 < sig < 2 ^ 15 -> y = IZR sig \/ 2 ^ 12 <= sig /\ same 2 sig y ->
  x = (y * pow2 (exp - 4 + emin F16))%R ->
  rounded_result F16 s sign x (softfloat_normRoundPackToF16 sign exp sig s).
Proof.
  intros He Hs Hy X. unfold softfloat_normRoundPackToF16.
  rewrite (uwrap_small 16 sig), softfloat_countLeadingZeros16_spec by lia.
  pose proof (Z.log2_spec sig ltac:(lia)) as L. pose proof (Z.log2_nonneg sig) as L0.
  pose proof (proj1 (log2_bounds sig 15 ltac:(lia) ltac:(lia)) ltac:(lia)) as L1.
  replace (nlz 16 sig - 1) with (14 - Z.log2 sig) by (unfold nlz; lia).
  assert (L12 : 2 ^ 12 <= sig -> 12 <= Z.log2 sig) by (intros K; apply Z.log2_le_pow2 in K; lia).
  set (l := Z.log2 sig) in *. clearbody l. rewrite swrap_small by fmt_lia.
  assert (B : 2 ^ 14 <= sig * 2 ^ (14 - l) < 2 ^ 15).
  { rewrite Z.pow_succ_r in L by lia. assert (P : 0 < 2 ^ (14 - l)) by (apply Z.pow_pos_nonneg; lia).
    assert (2 ^ 14 = 2 ^ l * 2 ^ (14 - l)) by (rewrite <- Z.pow_add_r by lia; f_equal; lia). nia. }
  destruct (_ && _) eqn:C.
  - apply andb_true_iff in C as [C1%Z.leb_le C2%Z.ltb_lt].
    assert (C3 : 0 <= exp - (14 - l) < 0x1D) by (unfold uwrap in C2; destruct (Z.ltb_spec (exp - (14 - l)) 0); zdm).
    destruct Hy as [->|[Hy _]]; [|lia].
    replace (14 - l - 4) with (10 - l) by lia. rewrite shl_mul by lia.
    assert (P : 0 < 2 ^ (10 - l)) by (apply Z.pow_pos_nonneg; lia).
    assert (E : 2 ^ (14 - l) = 2 ^ 4 * 2 ^ (10 - l)) by (rewrite <- Z.pow_add_r by lia; f_equal; lia).
    assert (B' : 2 ^ 10 <= sig * 2 ^ (10 - l) < 2 ^ 11) by lia.
    rewrite (uwrap_small 64) by lia. unfold z2b at 1.
    replace (sig =? 0) with false by lia. cbn [negb].
    rewrite packToF16UI_eq by lia. subst x. unfold ret.
    apply exact_result; [typeclasses eauto|change (inf_pattern F16) with (0x1F * 2 ^ 10); lia|].
    rewrite (mag_pack F16 (exp - (14 - l))) by fmt_lia.
    rewrite mult_IZR, <- pow2_IZR, Rmult_assoc, <- pow2_add by lia. do 2 f_equal. lia.
  - rewrite shl_mul, (uwrap_small 64) by lia.
    apply softfloat_roundPackToF16_rounds with (k := if sig <? 2 ^ 12 then 0 else 1 + (14 - l)) (y := (y * pow2 (14 - l))%R);
      try lia; [destruct (Z.ltb_spec sig (2 ^ 12)); lia| |].
    + destruct Hy as [->|[Hy S]].
      * apply (same_pow 0); [destruct (Z.ltb_spec sig (2 ^ 12)); lia|].
        replace (IZR sig * pow2 (14 - l))%R with (IZR (sig * 2 ^ (14 - l))) by (rewrite mult_IZR, pow2_IZR by lia; ring).
        apply same_exact.
      * destruct (Z.ltb_spec sig (2 ^ 12)); [lia|]. apply (same_shl 1 (14 - l)); try lia. exact S.
    + rewrite X, Rmult_assoc, <- pow2_add. do 2 f_equal. lia.
Qed.

Lemma mag16_fields (e m : Z) : 0 <= e -> 0 <= m < 2 ^ 10 ->
  mag F16 (e * 2 ^ 10 + m) = (IZR (if e =? 0 then m else 2 ^ 10 + m) * pow2 (Z.max e 1 - 1 + emin F16))%R.
Proof. exact (mag_fields F16 e m). Qed.

Lemma mag16_pack (q n : Z) : 0 <= q -> 0 <= n <= 2 ^ 11 -> q = 0 \/ 2 ^ 10 <= n ->
  mag F16 (q * 2 ^ 10 + n) = (IZR n * pow2 (q + emin F16))%R.
Proof. exact (mag_pack F16 q n). Qed.

Lemma exact16_result (s : env) (sign : bool) (b : Z) (x : R) :
  0 <= b < 0x1F * 2 ^ 10 -> mag F16 b = x -> rounded_result F16 s sign x (with_sign F16 sign b, s).
Proof. exact (exact_result F16 s sign b x). Qed.

