(* ===== verification/F16Arith.v ===== *)
(** 16-bit addition and subtraction are correctly rounded (distant operands by a
    nudge, the others as an exact 32-bit sum), their contracts with those of the NaNs
    and infinities, and the comparisons, which order the encodings by their value. *)
From Stdlib Require Import ZArith Bool Lia Reals Lra.
From S2P Require Import Prelude Ieee Rounding RoundPack Softfloat Primitives Machine Contract F16 F16Round.
Local Open Scope Z_scope.
Local Open Scope c_scope.

(** ** 16-bit addition and subtraction of finite numbers are correctly rounded *)

(** ** Distant operands *)

(** Half the distance to the neighbours of a normal pattern. *)
Lemma gap16 (e m : Z) : 1 <= e < 0x1F -> 0 <= m < 2 ^ 10 ->
  let b := e * 2 ^ 10 + m in let u := pow2 (e - 1 + emin F16) in
  (mag F16 (b + 1) = mag F16 b + u)%R /\ (2 <= e -> (mag F16 (b - 1) + u / 2 <= mag F16 b)%R).
Proof.
  intros He Hm b u. subst b. assert (U : (0 < u)%R) by (unfold u; auto).
  assert (M : mag F16 (e * 2 ^ 10 + m) = (IZR (2 ^ 10 + m) * u)%R).
  { rewrite mag16_fields by lia. replace (e =? 0) with false by lia. unfold u. do 2 f_equal. lia. }
  assert (M1 : mag F16 (e * 2 ^ 10 + m + 1) = (IZR (2 ^ 10 + m + 1) * u)%R).
  { replace (e * 2 ^ 10 + m + 1) with ((e - 1) * 2 ^ 10 + (2 ^ 10 + m + 1)) by ring. apply mag16_pack; lia. }
  split; [rewrite M, M1, (plus_IZR _ 1); ring|]. intros He2. rewrite M. destruct (Z.eq_dec m 0) as [->|N].
  - replace (e * 2 ^ 10 + 0 - 1) with ((e - 2) * 2 ^ 10 + (2 ^ 11 - 1)) by ring. rewrite mag16_pack by lia.
    replace (e - 2 + emin F16) with ((e - 1 + emin F16) + -1) by lia. rewrite pow2_add, pow2_m1. fold u.
    change (2 ^ 11 - 1) with 2047. change (2 ^ 10 + 0) with 1024. lra.
  - replace (e * 2 ^ 10 + m - 1) with ((e - 1) * 2 ^ 10 + (2 ^ 10 + m - 1)) by ring. rewrite mag16_pack by lia. fold u.
    rewrite (minus_IZR _ 1). lra.
Qed.

(** A number strictly between two normal patterns raises the inexact flag, and
    the overflow flag exactly if it is rounded to infinity. *)
Lemma raises_between16 (d : direction) (before : bool) (l b : Z) (x : R) : 2 ^ 10 <= l < inf_pattern F16 -> b = l \/ b = l + 1 ->
  (mag F16 l < x < mag F16 (l + 1))%R ->
  raises F16 d before x b (if b =? inf_pattern F16 then softfloat_flag_overflow .| softfloat_flag_inexact else softfloat_flag_inexact).
Proof.
  intros Hl Hb Hx. change (inf_pattern F16) with 0x7C00 in *.
  assert (L1 : (mag F16 (2 ^ 10) <= mag F16 l)%R) by (apply (mag_le F16); lia).
  assert (L2 : (mag F16 (l + 1) <= mag F16 0x7C00)%R) by (apply (mag_le F16); lia).
  assert (N : ~ (b < 0x7C00 /\ mag F16 b = x)) by (intros [_ K]; destruct Hb; subst b; lra).
  assert (T : ~ tiny F16 d before x).
  { unfold tiny. destruct before; [change (mb F16) with 10; lra|]. intros (n & Hn & B).
    apply rint_mono_Z with (k := 2 * 2 ^ 10) in Hn. destruct Hn as [Hn _]. change (mb F16) with 10 in B. apply Z.lt_nge in B. apply B, Hn.
    assert (M : mag F16 (2 ^ 10) = (IZR (2 * 2 ^ 10) * pow2 (emin F16 - 1))%R).
    { change (2 ^ 10) with (0 * 2 ^ 10 + 2 ^ 10) at 1. rewrite mag16_pack by lia. change (0 + emin F16) with (1 + (emin F16 - 1)).
      rewrite pow2_add, pow2_1, mult_IZR. ring. }
    replace (IZR (2 * 2 ^ 10)) with (mag F16 (2 ^ 10) * pow2 (1 - emin F16))%R
      by (rewrite M, Rmult_assoc, <- pow2_add; change (emin F16 - 1 + (1 - emin F16)) with 0; rewrite pow2_0; ring).
    apply Rmult_le_compat_r; [left; auto|lra]. }
  change (inf_pattern F16) with 0x7C00. destruct (Z.eqb_spec b 0x7C00) as [E|E].
  - constructor; change (inf_pattern F16) with 0x7C00; [split; [tauto|reflexivity]|split; [discriminate|tauto]|split; [now left|reflexivity]|split; [discriminate|reflexivity]].
  - constructor; change (inf_pattern F16) with 0x7C00; [split; [tauto|reflexivity]|split; [discriminate|tauto]| |split; [discriminate|reflexivity]].
    split; [discriminate|]. intros [K|K]; [contradiction|lra].
Qed.

Lemma rounded_between16 (s : env) (sign : bool) (l b : Z) (x : R) : 2 ^ 10 <= l < inf_pattern F16 ->
  (mag F16 l < x < mag F16 (l + 1))%R ->
  match env_direction s sign with
  | NearestEven | NearestAway =>
      b = l /\ (2 * x < mag F16 l + mag F16 (l + 1))%R \/ b = l + 1 /\ (mag F16 l + mag F16 (l + 1) < 2 * x)%R
  | TowardZero => b = l
  | AwayFromZero => b = l + 1
  end ->
  rounded_result F16 s sign x
    (with_sign F16 sign b,
     raised_env (if b =? inf_pattern F16 then softfloat_flag_overflow .| softfloat_flag_inexact else softfloat_flag_inexact) s).
Proof.
  intros Hl Hx Hb. assert (I : 0 < 2 ^ 10) by lia.
  exists b, (if b =? inf_pattern F16 then softfloat_flag_overflow .| softfloat_flag_inexact else softfloat_flag_inexact).
  split; [reflexivity|]. split.
  - apply (rounds_to_bracket F16) with l; [lia|lra|]. destruct (env_direction s sign).
    + destruct Hb as [[-> Hb]|[-> Hb]]; [left|right]; (split; [reflexivity|now left]).
    + destruct Hb as [[-> Hb]|[-> Hb]]; [left|right]; (split; [reflexivity|lra]).
    + assumption.
    + right. split; [assumption|lra].
  - apply raises_between16 with l; [assumption| |assumption]. destruct (env_direction s sign); lia.
Qed.

Lemma with_sign16_bounds (sign : bool) (b : Z) : 0 <= b < 2 ^ 15 ->
  is_enc F16 (with_sign F16 sign b) /\ sign_of F16 (with_sign F16 sign b) = sign /\
  u16 (with_sign F16 sign b) = with_sign F16 sign b /\ pattern_of F16 (with_sign F16 sign b) = b.
Proof.
  intros Hb. unfold is_enc, sign_of, with_sign, pattern_of. change (sign_weight F16) with (2 ^ 15).
  destruct sign; cbn [b2z].
  - rewrite Z.mul_1_l. split; [lia|split; [lia|split; [apply uwrap_small; lia|]]].
    symmetry. apply Z.mod_unique with 1; lia.
  - rewrite Z.mul_0_l, Z.add_0_l. split; [lia|split; [lia|split; [apply uwrap_small; lia|apply Z.mod_small; lia]]].
Qed.

Lemma sign_code16 (sign : bool) (b : Z) : 0 <= b < 2 ^ 15 -> signF16UI (with_sign F16 sign b) = sign.
Proof.
  intros Hb. destruct (with_sign16_bounds sign b Hb) as (E & S & _).
  destruct (F16_fields _ E) as (-> & _). exact S.
Qed.

Lemma mode_word (s : env) : valid_mode s -> i8 (softfloat_roundingMode s) = softfloat_roundingMode s.
Proof. unfold valid_mode. intros. apply swrap_small; [lia|]. change (2 ^ (8 - 1)) with 128. lia. Qed.

Lemma valid_mode_cases (s : env) : valid_mode s ->
  softfloat_roundingMode s = 0 \/ softfloat_roundingMode s = 1 \/ softfloat_roundingMode s = 2 \/
  softfloat_roundingMode s = 3 \/ softfloat_roundingMode s = 4.
Proof. unfold valid_mode. lia. Qed.

Lemma addEpsilon_eq (s : env) (sign : bool) (l : Z) : valid_mode s -> 0 <= l < inf_pattern F16 ->
  let b := match env_direction s sign with AwayFromZero => l + 1 | _ => l end in
  addEpsilon (with_sign F16 sign l) s =
    (with_sign F16 sign b,
     raised_env (if b =? inf_pattern F16 then softfloat_flag_overflow .| softfloat_flag_inexact else softfloat_flag_inexact) s).
Proof.
  intros Hm Hl b. change (inf_pattern F16) with 0x7C00 in *.
  destruct (with_sign16_bounds sign l ltac:(lia)) as (_ & _ & W & _).
  unfold addEpsilon. change (bind get ?k s) with (k s s). cbv beta zeta. rewrite mode_word, sign_code16 by (assumption || lia).
  assert (D : (if negb (softfloat_roundingMode s =? softfloat_round_near_even)
               then softfloat_roundingMode s =? (if sign then softfloat_round_min else softfloat_round_max) else false)
              = match env_direction s sign with AwayFromZero => true | _ => false end).
  { unfold env_direction, mag_direction. destruct (valid_mode_cases s Hm) as [->|[->|[->|[->| ->]]]]; destruct sign; reflexivity. }
  destruct (negb _); [rewrite D|]; destruct (env_direction s sign); try discriminate; subst b; cbv iota.
  all: try (unfold bind, softfloat_raiseFlags, ret; rewrite W; replace (l =? 0x7C00) with false by lia; reflexivity).
  assert (V : u64 (with_sign F16 sign l + 1) = with_sign F16 sign (l + 1)).
  { unfold with_sign. change (sign_weight F16) with (2 ^ 15). rewrite uwrap_small by (destruct sign; cbn [Z.b2z]; lia). ring. }
  destruct (with_sign16_bounds sign (l + 1) ltac:(lia)) as (_ & _ & W1 & P1).
  assert (T : (u16 (u64 (u64 (with_sign F16 sign l + 1) << 1)) =? 0xF800) = (l + 1 =? 0x7C00)).
  { rewrite V. unfold with_sign. change (sign_weight F16) with (2 ^ 15). rewrite shl_mul, (uwrap_small 64) by (destruct sign; cbn [Z.b2z]; lia).
    unfold uwrap. replace ((b2z sign * 2 ^ 15 + (l + 1)) * 2 ^ 1) with ((l + 1) * 2 + b2z sign * 2 ^ 16) by ring.
    rewrite Z.mod_add, Z.mod_small by lia. lia. }
  unfold bind. rewrite T, V, when_raise, W1. unfold softfloat_raiseFlags, ret. rewrite raised_env_lor.
  destruct (l + 1 =? 0x7C00); reflexivity.
Qed.

Lemma addEpsilon_rounds (s : env) (sign : bool) (e m : Z) (x : R) : valid_mode s -> 13 <= e < 0x1F -> 0 <= m < 2 ^ 10 ->
  let l := e * 2 ^ 10 + m in
  (mag F16 l < x < mag F16 l + pow2 (e - 1 + emin F16) / 2)%R ->
  rounded_result F16 s sign x (addEpsilon (with_sign F16 sign l) s).
Proof.
  intros Hv He Hm l Hx. assert (Hl : 2 ^ 10 <= l < inf_pattern F16) by (change (inf_pattern F16) with (0x1F * 2 ^ 10); lia).
  destruct (gap16 e m ltac:(lia) Hm) as [G _]. fold l in G. pose proof (pow2_pos (e - 1 + emin F16)).
  rewrite addEpsilon_eq by (assumption || lia). apply rounded_between16 with (l := l); [assumption|lra|].
  destruct (env_direction s sign); try reflexivity; left; split; reflexivity || lra.
Qed.

Lemma subEpsilon_eq (s : env) (sign : bool) (l : Z) : valid_mode s -> 0 < l < inf_pattern F16 ->
  let b := match env_direction s sign with TowardZero => l - 1 | _ => l end in
  subEpsilon (with_sign F16 sign l) s = (with_sign F16 sign b, raised_env softfloat_flag_inexact s).
Proof.
  intros Hm Hl b. change (inf_pattern F16) with 0x7C00 in *.
  destruct (with_sign16_bounds sign l ltac:(lia)) as (_ & _ & W & _).
  unfold subEpsilon. change (bind get ?k s) with (k s s). cbv beta zeta. rewrite mode_word, sign_code16 by (assumption || lia).
  assert (D : (if negb (softfloat_roundingMode s =? softfloat_round_near_even)
               then (softfloat_roundingMode s =? softfloat_round_minMag)
                    || (softfloat_roundingMode s =? (if sign then softfloat_round_max else softfloat_round_min)) else false)
              = match env_direction s sign with TowardZero => true | _ => false end).
  { unfold env_direction, mag_direction. destruct (valid_mode_cases s Hm) as [->|[->|[->|[->| ->]]]]; destruct sign; reflexivity. }
  assert (V : u64 (with_sign F16 sign l - 1) = with_sign F16 sign (l - 1)).
  { unfold with_sign. change (sign_weight F16) with (2 ^ 15). rewrite uwrap_small by (destruct sign; cbn [Z.b2z]; lia). ring. }
  destruct (with_sign16_bounds sign (l - 1) ltac:(lia)) as (_ & _ & W1 & _).
  unfold bind, softfloat_raiseFlags, ret. rewrite V.
  destruct (negb _); [rewrite D|]; destruct (env_direction s sign); try discriminate; subst b; cbv iota; rewrite ?W, ?W1; reflexivity.
Qed.

Lemma subEpsilon_rounds (s : env) (sign : bool) (e m : Z) (x : R) : valid_mode s -> 13 <= e < 0x1F -> 0 <= m < 2 ^ 10 ->
  let l := e * 2 ^ 10 + m in
  (mag F16 l - pow2 (e - 1 + emin F16) / 4 < x < mag F16 l)%R ->
  rounded_result F16 s sign x (subEpsilon (with_sign F16 sign l) s).
Proof.
  intros Hv He Hm l Hx. assert (Hl : 2 ^ 10 < l < inf_pattern F16) by (change (inf_pattern F16) with (0x1F * 2 ^ 10); lia).
  destruct (gap16 e m ltac:(lia) Hm) as [_ G]. fold l in G. specialize (G ltac:(lia)). pose proof (pow2_pos (e - 1 + emin F16)).
  rewrite subEpsilon_eq by (assumption || lia). set (b := match env_direction s sign with TowardZero => l - 1 | _ => l end).
  replace softfloat_flag_inexact with (if b =? inf_pattern F16 then softfloat_flag_overflow .| softfloat_flag_inexact else softfloat_flag_inexact)
    by (replace (b =? inf_pattern F16) with false by (subst b; destruct (env_direction s sign); lia); reflexivity).
  apply rounded_between16 with (l := l - 1); [lia|replace (l - 1 + 1) with l by ring; lra|].
  subst b. replace (l - 1 + 1) with l by ring. destruct (env_direction s sign); try reflexivity; right; split; reflexivity || lra.
Qed.

(** ** Near operands: an exact sum of 31 significant bits, then rounded or packed *)
Lemma near16 (sign inrange : bool) (e sig : Z) (s : env) (x : R) : 2 ^ 30 <= sig < 2 ^ 31 -> -60 <= e <= 0x1E ->
  (inrange = true -> 0 <= e < 0x1E) -> x = (IZR sig * pow2 (e - 20 + emin F16))%R ->
  rounded_result F16 s sign x
    ((let sigZ := sig >> 16 in
      if z2b (sig .& 0xFFFF) then softfloat_roundPackToF16 sign e (sigZ .| 1)
      else if negb (z2b (sigZ .& 0xF)) && inrange then ret (u16 (packToF16UI sign e (sigZ >> 4)))
      else softfloat_roundPackToF16 sign e sigZ) s).
Proof.
  intros Hs He Hr X. cbv zeta. rewrite (land_low _ 0xFFFF 16) by (reflexivity || lia).
  set (y := (IZR sig * pow2 (- 16))%R).
  assert (Y : x = (y * pow2 (e - 4 + emin F16))%R).
  { unfold y. rewrite X, Rmult_assoc, <- pow2_add. do 2 f_equal. lia. }
  assert (J : same (2 ^ 1) (jam sig 16) y).
  { apply same_pow with (Z.max 1 (0 - 16)); [lia|]. apply (same_jam 0 16); try lia. apply (same_exact 1). }
  assert (B : 2 ^ 14 <= jam sig 16 < 2 ^ 15) by (rewrite jam_eq by lia; destruct (_ =? 0); zdm).
  unfold z2b at 1. destruct (Z.eqb_spec (sig mod 2 ^ 16) 0) as [Z0|Z0]; cbn [negb].
  - assert (JE : jam sig 16 = sig >> 16) by (rewrite jam_eq, Z0, shr_div by lia; reflexivity).
    rewrite (land_low (sig >> 16) 0xF 4) by (reflexivity || lia). unfold z2b. rewrite negb_involutive.
    destruct (_ && _) eqn:C; [|rewrite <- JE; now apply softfloat_roundPackToF16_rounds with (k := 1) (y := y); try lia].
    apply andb_true_iff in C as [C1%Z.eqb_eq C2]. specialize (Hr C2).
    rewrite !shr_div in * by lia. set (h := sig / 2 ^ 16 / 2 ^ 4). assert (N : sig = h * 2 ^ 20) by (unfold h; zdm). clearbody h.
    rewrite packToF16UI_eq by lia. apply exact16_result; [lia|]. rewrite (mag16_pack e) by lia.
    rewrite X, N, mult_IZR, <- (pow2_IZR 20), Rmult_assoc, <- pow2_add by lia. do 2 f_equal. lia.
  - replace ((sig >> 16) .| 1) with (jam sig 16) by (unfold jam; replace (sig mod 2 ^ 16 =? 0) with false by lia; reflexivity).
    now apply softfloat_roundPackToF16_rounds with (k := 1) (y := y); try lia.
Qed.

(** The aligned significand of an operand, in units of its exponent. *)
Definition aligned16 (e m : Z) : Z := m + (if z2b e then 2 ^ 10 else m).

Lemma aligned16_spec (e m : Z) : 0 <= e -> 0 <= m < 2 ^ 10 ->
  0 <= aligned16 e m < 2 ^ 11 /\ (1 <= e -> 2 ^ 10 <= aligned16 e m) /\
  mag F16 (e * 2 ^ 10 + m) = (IZR (aligned16 e m) * pow2 (e - 1 + emin F16))%R.
Proof.
  intros He Hm. rewrite mag16_fields by lia. unfold aligned16, z2b. destruct (Z.eqb_spec e 0) as [->|N]; cbn [negb].
  - split; [lia|]. split; [lia|]. replace (m + m) with (m * 2 ^ 1) by lia.
    rewrite mult_IZR, <- (pow2_IZR 1), Rmult_assoc, <- pow2_add by lia. do 2 f_equal.
  - split; [lia|]. split; [lia|]. replace (Z.max e 1) with e by lia. now rewrite Z.add_comm.
Qed.

Lemma lead16 (m : Z) : 0 <= m < 2 ^ 10 -> m .| 0x0400 = 2 ^ 10 + m.
Proof. intros Hm. rewrite Z.lor_comm. change 0x0400 with (1 * 2 ^ 10). rewrite lor_disjoint; lia. Qed.

(** A distant operand is below a quarter of the unit in the last place. *)
Lemma distant16 (e e' m' : Z) : 0 <= e' -> e' + 13 <= e -> 0 <= m' < 2 ^ 10 ->
  (mag F16 (e' * 2 ^ 10 + m') < pow2 (e - 1 + emin F16) / 4)%R.
Proof.
  intros He' He Hm. destruct (aligned16_spec e' m' He' Hm) as (B & _ & ->).
  replace (pow2 (e - 1 + emin F16) / 4)%R with (pow2 (e - e' - 2) * pow2 (e' - 1 + emin F16))%R.
  - apply Rmult_lt_compat_r; [auto|]. apply Rlt_le_trans with (IZR (2 ^ 11)); [apply IZR_lt; lia|].
    rewrite <- (pow2_IZR 11) by lia. apply pow2_le. lia.
  - rewrite <- pow2_add. replace (e - e' - 2 + (e' - 1 + emin F16)) with (e - 1 + emin F16 + - (2)) by lia.
    rewrite pow2_add, pow2_opp. change (pow2 2) with (2 * (2 * 1))%R. field.
Qed.

Lemma zero_fields16 (e m : Z) : 0 <= e -> 0 <= m < 2 ^ 10 -> z2b (e .| m) = z2b e || z2b m.
Proof.
  intros He Hm. apply eq_true_iff_eq. rewrite orb_true_iff. unfold z2b. rewrite !negb_true_iff, !Z.eqb_neq.
  rewrite Z.lor_eq_0_iff. lia.
Qed.

Lemma positive16 (e m : Z) : 0 <= e -> 0 <= m < 2 ^ 10 -> z2b e || z2b m = true -> (0 < mag F16 (e * 2 ^ 10 + m))%R.
Proof.
  intros He Hm H. apply (mag_pos F16). unfold z2b in H. destruct (Z.eqb_spec e 0), (Z.eqb_spec m 0); cbn in H; try discriminate; lia.
Qed.

Lemma null16 (e m : Z) : z2b e || z2b m = false -> mag F16 (e * 2 ^ 10 + m) = 0%R.
Proof.
  unfold z2b. destruct (Z.eqb_spec e 0) as [->|], (Z.eqb_spec m 0) as [->|]; cbn; try discriminate. intros _. apply (mag_zero F16).
Qed.

(** The sum of two aligned significands. *)
Lemma sum16 (sign : bool) (e d wx wy sd : Z) (s : env) (x : R) : 1 <= e <= 0x1E -> 0 < d < 13 -> 2 ^ 10 <= wx < 2 ^ 11 -> 0 <= wy < 2 ^ 11 ->
  sd = 19 - d -> x = (IZR wx * pow2 (e - 1 + emin F16) + IZR wy * pow2 (e - d - 1 + emin F16))%R ->
  rounded_result F16 s sign x
    ((let sig32Z := u64 (u64 (wx << 19) + u64 (wy << sd)) in
      let '(expZ, sig32Z) := if sig32Z <? 0x40000000 then (i8 (e - 1), u64 (sig32Z << 1)) else (e, sig32Z) in
      let sigZ := sig32Z >> 16 in
      if z2b (sig32Z .& 0xFFFF) then softfloat_roundPackToF16 sign expZ (sigZ .| 1)
      else if negb (z2b (sigZ .& 0xF)) && (expZ <? 0x1E) then ret (u16 (packToF16UI sign expZ (sigZ >> 4)))
      else softfloat_roundPackToF16 sign expZ sigZ) s).
Proof.
  intros He Hd Hx Hy -> X. assert (P : 0 < 2 ^ (19 - d) <= 2 ^ 18) by (split; [apply Z.pow_pos_nonneg|apply Z.pow_le_mono_r]; lia).
  cbv zeta. rewrite !shl_mul, (uwrap_small 64 (wx * _)), (uwrap_small 64 (wy * _)) by nia.
  set (w := wx * 2 ^ 19 + wy * 2 ^ (19 - d)). assert (B : 2 ^ 29 <= w < 2 ^ 31) by (unfold w; nia).
  assert (X' : x = (IZR w * pow2 (e - 20 + emin F16))%R).
  { unfold w. rewrite X, plus_IZR, !mult_IZR, <- !pow2_IZR, Rmult_plus_distr_r, !Rmult_assoc, <- !pow2_add by lia. f_equal; f_equal; f_equal; lia. }
  clearbody w. rewrite (uwrap_small 64 w) by lia.
  destruct (Z.ltb_spec w 0x40000000) as [L|L].
  - rewrite (swrap_small 8 (e - 1)), uwrap_small by fmt_lia.
    apply near16 with (inrange := e - 1 <? 0x1E); [lia|lia|lia|].
    rewrite X', mult_IZR, <- (pow2_IZR 1), Rmult_assoc, <- pow2_add by lia. do 2 f_equal. lia.
  - apply near16 with (inrange := e <? 0x1E); [lia|lia|lia|exact X'].
Qed.

Lemma softfloat_addMagsF16_finite (a b : Z) (s : env) : valid_mode s ->
  is_finite F16 a -> is_finite F16 b ->
  rounded_result F16 s (sign_of F16 a) (mag F16 (pattern_of F16 a) + mag F16 (pattern_of F16 b))
    (softfloat_addMagsF16 a b s).
Proof.
  intros Hv [Ha Fa] [Hb Fb].
  destruct (F16_fields a Ha) as (Sa & Ea & Ma & Pa & Wa). destruct (F16_fields b Hb) as (Sb & Eb & Mb & Pb & Wb).
  unfold softfloat_addMagsF16. rewrite Sa.
  set (eA := expF16UI a) in *. set (mA := fracF16UI a) in *. set (eB := expF16UI b) in *. set (mB := fracF16UI b) in *.
  set (sgn := sign_of F16 a) in *. rewrite Pa, Pb in *.
  change (inf_pattern F16) with (0x1F * 2 ^ 10) in Fa, Fb.
  assert (LA : eA < 0x1F) by lia. assert (LB : eB < 0x1F) by lia.
  clearbody eA mA eB mB sgn. cbv zeta. rewrite (swrap_small 8 (eA - eB)) by fmt_lia.
  destruct (Z.eqb_spec (eA - eB) 0) as [D|D].
  - assert (eB = eA) as -> by lia. rewrite !mag16_fields by lia. destruct (Z.eqb_spec eA 0) as [E|E].
    + rewrite E in *. replace (u16 (u64 (a + mB))) with (with_sign F16 sgn (mA + mB)).
      * apply exact16_result; [lia|]. etransitivity; [apply (mag16_pack 0 (mA + mB)); lia|]. rewrite plus_IZR.
        change (Z.max 0 1 - 1) with 0. ring.
      * rewrite Wa. unfold with_sign. change (sign_weight F16) with (2 ^ 15).
        rewrite (uwrap_small 64), uwrap_small; destruct sgn; cbn [Z.b2z]; lia.
    + destruct (Z.eqb_spec eA 0x1F); [lia|]. replace (Z.max eA 1) with eA by lia.
      rewrite !(uwrap_small 64 (_ + mA + mB)) by lia.
      rewrite (land_low _ 1 1) by (reflexivity || lia).
      assert (X : forall k, (IZR (2 ^ 10 + mA) * pow2 (eA - 1 + emin F16) + IZR (2 ^ 10 + mB) * pow2 (eA - 1 + emin F16))%R
                = (IZR (2 ^ 11 + mA + mB) * pow2 k * pow2 (eA - 1 - k + emin F16))%R).
      { intros k. rewrite Rmult_assoc, <- pow2_add, <- Rmult_plus_distr_r, <- plus_IZR. do 2 f_equal; lia. }
      destruct (_ && _) eqn:C.
      * apply andb_true_iff in C as [C1 C2]. unfold z2b in C1. rewrite negb_involutive in C1.
        apply Z.eqb_eq in C1. apply Z.ltb_lt in C2. rewrite shr_div by lia.
        set (h := (0x0800 + mA + mB) / 2 ^ 1). assert (N : 2 ^ 11 + mA + mB = h * 2 ^ 1) by (unfold h; zdm).
        clearbody h. rewrite packToF16UI_eq by lia. apply exact16_result; [lia|].
        rewrite (mag16_pack eA) by lia. rewrite (X 0), N, mult_IZR, <- (pow2_IZR 1), pow2_0, Rmult_1_r by lia.
        rewrite Rmult_assoc, <- pow2_add. do 2 f_equal. lia.
      * rewrite shl_mul, uwrap_small by lia.
        apply softfloat_roundPackToF16_rounds with (k := 0) (y := IZR ((2 ^ 11 + mA + mB) * 2 ^ 3)); try lia.
        { apply (same_exact 1). }
        rewrite (X 3), mult_IZR, <- (pow2_IZR 3) by lia. do 2 f_equal. lia.
  - destruct (Z.eqb_spec eB 0x1F), (Z.eqb_spec eA 0x1F); try lia. rewrite !zero_fields16 by lia.
    assert (AL : forall e m, 0 <= e -> 0 <= m < 2 ^ 10 -> u64 (m + (if z2b e then 0x0400 else m)) = aligned16 e m).
    { intros e m He Hm. destruct (aligned16_spec e m He Hm) as (B & _). unfold aligned16 in *. apply uwrap_small. lia. }
    assert (LD : forall e m, 0 < e -> 0 <= m < 2 ^ 10 -> m .| 0x0400 = aligned16 e m).
    { intros e m He Hm. rewrite lead16 by lia. unfold aligned16, z2b. replace (e =? 0) with false by lia. cbn [negb]. lia. }
    destruct (aligned16_spec eA mA ltac:(lia) Ma) as (BA & NA & MA). destruct (aligned16_spec eB mB ltac:(lia) Mb) as (BB & NB & MB).
    destruct (Z.ltb_spec (eA - eB) 0) as [L|L].
    + destruct (Z.leb_spec (eA - eB) (-13)) as [F|F].
      * rewrite Rplus_comm. assert (Q : packToF16UI sgn eB mB = with_sign F16 sgn (eB * 2 ^ 10 + mB)).
        { rewrite <- packToF16UI_eq by lia. unfold packToF16UI. rewrite !shl_mul, (uwrap_small 16 eB), (uwrap_small 64) by (destruct sgn; cbn [Z.b2z]; lia).
          symmetry. apply uwrap_small. destruct sgn; cbn [Z.b2z]; lia. }
        rewrite Q. destruct (z2b eA || z2b mA) eqn:O.
        -- pose proof (positive16 eA mA ltac:(lia) Ma O). pose proof (distant16 eB eA mA ltac:(lia) ltac:(lia) Ma).
           pose proof (pow2_pos (eB - 1 + emin F16)). apply addEpsilon_rounds; [assumption|lia|lia|lra].
        -- rewrite (null16 _ _ O), Rplus_0_r. destruct (with_sign16_bounds sgn (eB * 2 ^ 10 + mB) ltac:(lia)) as (_ & _ & -> & _).
           apply exact16_result; [lia|reflexivity].
      * rewrite AL, (LD eB) by lia. rewrite (swrap_small 8 (19 + (eA - eB))) by fmt_lia.
        apply sum16 with (d := eB - eA); try lia. rewrite MA, MB, Rplus_comm. f_equal; f_equal; f_equal; lia.
    + destruct (Z.leb_spec 13 (eA - eB)) as [F|F].
      * rewrite Wa. destruct (z2b eB || z2b mB) eqn:O.
        -- pose proof (positive16 eB mB ltac:(lia) Mb O). pose proof (distant16 eA eB mB ltac:(lia) ltac:(lia) Mb).
           pose proof (pow2_pos (eA - 1 + emin F16)). apply addEpsilon_rounds; [assumption|lia|lia|lra].
        -- rewrite (null16 _ _ O), Rplus_0_r. destruct (with_sign16_bounds sgn (eA * 2 ^ 10 + mA) ltac:(lia)) as (_ & _ & -> & _).
           apply exact16_result; [lia|reflexivity].
      * rewrite AL, (LD eA) by lia. rewrite (swrap_small 8 (19 - (eA - eB))) by fmt_lia.
        apply sum16 with (d := eA - eB); try lia. rewrite MA, MB. f_equal; f_equal; f_equal; lia.
Qed.

(** ** Differences *)

(** An exact difference in the same binade. *)
Lemma same_binade16 (sign : bool) (e n : Z) (s : env) (r : Z * env) :
  0 <= e < 0x1F -> 0 < n < 2 ^ 10 ->
  r = (let e := if z2b e then e - 1 else e in
       let shiftDist := i8 (softfloat_countLeadingZeros16 (u16 n) - 5) in
       let expZ := i8 (e - shiftDist) in
       let '(shiftDist, expZ) := if expZ <? 0 then (e, 0) else (shiftDist, expZ) in
       ret (u16 (packToF16UI sign expZ (u64 (n << shiftDist))))) s ->
  rounded_result F16 s sign (IZR n * pow2 (Z.max e 1 - 1 + emin F16)) r.
Proof.
  intros He Hn ->. cbv zeta. unfold ret.
  replace (if z2b e then e - 1 else e) with (Z.max e 1 - 1) by (unfold z2b; destruct (Z.eqb_spec e 0); cbn [negb]; lia).
  set (q := Z.max e 1 - 1). assert (Hq : 0 <= q < 0x1E) by lia. clearbody q.
  rewrite (uwrap_small 16 n), softfloat_countLeadingZeros16_spec by lia.
  destruct (Z.log2_spec n ltac:(lia)) as [L L2]. pose proof (Z.log2_nonneg n) as L0.
  pose proof (proj1 (log2_bounds n 10 ltac:(lia) ltac:(lia)) ltac:(lia)) as L1.
  replace (nlz 16 n - 5) with (10 - Z.log2 n) by (unfold nlz; lia).
  set (l := Z.log2 n) in *. clearbody l. rewrite (swrap_small 8 (10 - l)), (swrap_small 8 (q - (10 - l))) by fmt_lia.
  assert (F : forall h, 0 <= h <= 10 - l -> h <= q -> (q - h = 0 \/ h = 10 - l) ->
    rounded_result F16 s sign (IZR n * pow2 (q + emin F16)) (u16 (packToF16UI sign (q - h) (u64 (n << h))), s)).
  { intros h Hh Hq' C. rewrite shl_mul by lia.
    assert (P : 0 < 2 ^ h) by (apply Z.pow_pos_nonneg; lia).
    assert (U : n * 2 ^ h < 2 ^ 11).
    { apply Z.lt_le_trans with (2 ^ Z.succ l * 2 ^ h); [nia|]. rewrite <- Z.pow_add_r by lia. apply Z.pow_le_mono_r; lia. }
    assert (W : q - h = 0 \/ 2 ^ 10 <= n * 2 ^ h).
    { destruct C as [C|C]; [now left|right]. apply Z.le_trans with (2 ^ l * 2 ^ h); [|nia].
      rewrite <- Z.pow_add_r by lia. apply Z.pow_le_mono_r; lia. }
    rewrite (uwrap_small 64), packToF16UI_eq by lia. apply exact16_result; [lia|].
    rewrite mag16_pack by lia. rewrite mult_IZR, <- pow2_IZR, Rmult_assoc, <- pow2_add by lia. do 2 f_equal. lia. }
  destruct (Z.ltb_spec (q - (10 - l)) 0).
  - replace 0 with (q - q) at 1 by lia. apply F; lia.
  - apply F; lia.
Qed.

(** The difference of two aligned significands. *)
Lemma difference16 (sign : bool) (e d wx wy : Z) (s : env) (x : R) : 0 <= e -> e + d <= 0x1E -> 0 < d < 13 ->
  2 ^ 10 <= wx < 2 ^ 11 -> 0 <= wy < 2 ^ 11 ->
  x = (IZR wx * pow2 (e + d - 1 + emin F16) - IZR wy * pow2 (e - 1 + emin F16))%R ->
  (0 < x)%R /\ rounded_result F16 s sign x
    ((let sig32Z := u64 (u64 (wx << d) - wy) in
      let shiftDist := i8 (softfloat_countLeadingZeros32 (u32 sig32Z) - 1) in
      let sig32Z := u64 (sig32Z << shiftDist) in
      let expZ := i8 (i8 (e + 19) - shiftDist) in
      let sigZ := sig32Z >> 16 in
      if z2b (sig32Z .& 0xFFFF) then softfloat_roundPackToF16 sign expZ (sigZ .| 1)
      else if negb (z2b (sigZ .& 0xF)) && (u32 expZ <? 0x1E) then ret (u16 (packToF16UI sign expZ (sigZ >> 4)))
      else softfloat_roundPackToF16 sign expZ sigZ) s).
Proof.
  intros He Hed Hd Hx Hy X. assert (P : 2 <= 2 ^ d <= 2 ^ 12) by (split; [apply (Z.pow_le_mono_r 2 1)|apply Z.pow_le_mono_r]; lia).
  rewrite (shl_mul wx), (uwrap_small 64 (wx * _)) by nia. set (w := wx * 2 ^ d - wy). assert (B : 0 < w < 2 ^ 23) by (unfold w; nia).
  assert (Bd : w < 2 ^ (11 + d)) by (rewrite Z.pow_add_r by lia; unfold w; nia).
  assert (X' : x = (IZR w * pow2 (e - 1 + emin F16))%R).
  { unfold w. rewrite X, minus_IZR, mult_IZR, <- pow2_IZR by lia. unfold Rminus.
    rewrite Rmult_plus_distr_r, <- Ropp_mult_distr_l, Rmult_assoc, <- pow2_add. f_equal. f_equal. f_equal. lia. }
  clearbody w. split.
  { rewrite X'. apply Rmult_lt_0_compat; [apply IZR_lt; lia|auto]. }
  cbv zeta. rewrite (uwrap_small 64 w), (uwrap_small 32 w), softfloat_countLeadingZeros32_spec by lia.
  destruct (Z.log2_spec w ltac:(lia)) as [L L2]. pose proof (Z.log2_nonneg w) as L0.
  pose proof (proj1 (log2_bounds w 23 ltac:(lia) ltac:(lia)) ltac:(lia)) as L1. pose proof (proj1 (log2_bounds w (11 + d) ltac:(lia) ltac:(lia)) ltac:(lia)) as L3.
  rewrite Z.pow_succ_r in L2 by lia.
  replace (nlz 32 w - 1) with (30 - Z.log2 w) by (unfold nlz; lia). set (l := Z.log2 w) in *. clearbody l.
  rewrite (swrap_small 8 (30 - l)), (swrap_small 8 (e + 19)), (swrap_small 8 (e + 19 - (30 - l))), shl_mul by fmt_lia.
  assert (Q : 2 ^ 30 = 2 ^ l * 2 ^ (30 - l)) by (rewrite <- Z.pow_add_r by lia; f_equal; lia).
  assert (P0 : 0 < 2 ^ (30 - l)) by (apply Z.pow_pos_nonneg; lia).
  assert (B' : 2 ^ 30 <= w * 2 ^ (30 - l) < 2 ^ 31) by nia. rewrite uwrap_small by lia.
  apply near16 with (inrange := u32 (e + 19 - (30 - l)) <? 0x1E); [exact B'|lia| |].
  - intros I%Z.ltb_lt. unfold uwrap in I. zdm.
  - rewrite X', mult_IZR, <- pow2_IZR, Rmult_assoc, <- pow2_add by lia. do 2 f_equal. lia.
Qed.

(** What a difference of magnitudes delivers. *)
Definition sub_result16 (s : env) (sign : bool) (x : R) (r : Z * env) : Prop :=
  (x = 0%R -> r = (with_sign F16 (softfloat_roundingMode s =? softfloat_round_min) 0, s)) /\
  ((0 < x)%R -> rounded_result F16 s sign x r) /\
  ((x < 0)%R -> rounded_result F16 s (negb sign) (- x) r).

Lemma softfloat_subMagsF16_finite (a b : Z) (s : env) : valid_mode s ->
  is_finite F16 a -> is_finite F16 b ->
  sub_result16 s (sign_of F16 a) (mag F16 (pattern_of F16 a) - mag F16 (pattern_of F16 b))
    (softfloat_subMagsF16 a b s).
Proof.
  intros Hv [Ha Fa] [Hb Fb].
  destruct (F16_fields a Ha) as (Sa & Ea & Ma & Pa & Wa). destruct (F16_fields b Hb) as (Sb & Eb & Mb & Pb & Wb).
  unfold softfloat_subMagsF16. rewrite Sa.
  set (eA := expF16UI a) in *. set (mA := fracF16UI a) in *. set (eB := expF16UI b) in *. set (mB := fracF16UI b) in *.
  set (sgn := sign_of F16 a) in *. rewrite Pa, Pb in *.
  change (inf_pattern F16) with (0x1F * 2 ^ 10) in Fa, Fb.
  assert (LA : eA < 0x1F) by lia. assert (LB : eB < 0x1F) by lia.
  clearbody eA mA eB mB sgn. cbv zeta. rewrite (swrap_small 8 (eA - eB)) by fmt_lia.
  destruct (Z.eqb_spec (eA - eB) 0) as [D|D].
  - assert (eB = eA) as -> by lia. rewrite !mag16_fields by lia. destruct (Z.eqb_spec eA 0x1F); [lia|].
    assert (W : i64 (u64 (mA - mB)) = mA - mB) by (unfold swrap, uwrap; eval_pow; zdm).
    rewrite W. clear W.
    assert (X : (IZR (if eA =? 0 then mA else 2 ^ 10 + mA) * pow2 (Z.max eA 1 - 1 + emin F16) -
                 IZR (if eA =? 0 then mB else 2 ^ 10 + mB) * pow2 (Z.max eA 1 - 1 + emin F16))%R
                = (IZR (mA - mB) * pow2 (Z.max eA 1 - 1 + emin F16))%R).
    { rewrite <- Rmult_minus_distr_r, <- minus_IZR. do 2 f_equal. destruct (eA =? 0); lia. }
    rewrite X. clear X. pose proof (pow2_pos (Z.max eA 1 - 1 + emin F16)) as PP.
    destruct (Z.eqb_spec (mA - mB) 0) as [Z0|Z0].
    + rewrite Z0, Rmult_0_l. split; [|split; intros; lra]. intros _.
      change (bind get ?k s) with (k s s). cbv beta. unfold ret. f_equal. rewrite packToF16UI_eq by lia. reflexivity.
    + destruct (Z.ltb_spec (mA - mB) 0) as [L|L].
      * assert (IZR (mA - mB) < 0)%R by (apply IZR_lt; lia).
        split; [intros; nra|split; [intros; nra|intros _]].
        rewrite Ropp_mult_distr_l, <- opp_IZR. eapply same_binade16; [lia|lia|reflexivity].
      * assert (0 < IZR (mA - mB))%R by (apply IZR_lt; lia).
        split; [intros; nra|split; [intros _|intros; nra]]. eapply same_binade16; [lia|lia|reflexivity].
  - destruct (Z.eqb_spec eB 0x1F), (Z.eqb_spec eA 0x1F); try lia. rewrite !zero_fields16 by lia.
    assert (AL : forall e m, 0 <= e -> 0 <= m < 2 ^ 10 -> u64 (m + (if z2b e then 0x0400 else m)) = aligned16 e m).
    { intros e m He Hm. destruct (aligned16_spec e m He Hm) as (B & _). unfold aligned16 in *. apply uwrap_small. lia. }
    assert (LD : forall e m, 0 < e -> 0 <= m < 2 ^ 10 -> m .| 0x0400 = aligned16 e m).
    { intros e m He Hm. rewrite lead16 by lia. unfold aligned16, z2b. replace (e =? 0) with false by lia. cbn [negb]. lia. }
    destruct (aligned16_spec eA mA ltac:(lia) Ma) as (BA & NA & MA). destruct (aligned16_spec eB mB ltac:(lia) Mb) as (BB & NB & MB).
    destruct (Z.ltb_spec (eA - eB) 0) as [L|L].
    + assert (Fl : forall r, (mag F16 (eA * 2 ^ 10 + mA) < mag F16 (eB * 2 ^ 10 + mB))%R ->
        rounded_result F16 s (negb sgn) (mag F16 (eB * 2 ^ 10 + mB) - mag F16 (eA * 2 ^ 10 + mA)) r ->
        sub_result16 s sgn (mag F16 (eA * 2 ^ 10 + mA) - mag F16 (eB * 2 ^ 10 + mB)) r).
      { intros r K H. split; [intros; lra|split; [intros; lra|intros _]]. rewrite Ropp_minus_distr. exact H. }
      apply Fl; [apply (mag_lt F16); lia|]. clear Fl.
      destruct (Z.leb_spec (eA - eB) (-13)) as [F|F].
      * assert (Q : packToF16UI (negb sgn) eB mB = with_sign F16 (negb sgn) (eB * 2 ^ 10 + mB)).
        { rewrite <- packToF16UI_eq by lia. unfold packToF16UI. rewrite !shl_mul, (uwrap_small 16 eB), (uwrap_small 64) by (destruct sgn; cbn [Z.b2z negb]; lia).
          symmetry. apply uwrap_small. destruct sgn; cbn [Z.b2z negb]; lia. }
        rewrite Q. destruct (z2b eA || z2b mA) eqn:O.
        -- pose proof (positive16 eA mA ltac:(lia) Ma O). pose proof (distant16 eB eA mA ltac:(lia) ltac:(lia) Ma).
           apply subEpsilon_rounds; [assumption|lia|lia|lra].
        -- rewrite (null16 _ _ O), Rminus_0_r. destruct (with_sign16_bounds (negb sgn) (eB * 2 ^ 10 + mB) ltac:(lia)) as (_ & _ & -> & _).
           apply exact16_result; [lia|reflexivity].
      * rewrite AL, (LD eB) by lia. rewrite (swrap_small 8 (- (eA - eB))) by fmt_lia.
        apply difference16; try lia. rewrite MA, MB. do 3 f_equal. lia.
    + assert (Fl : forall r, (mag F16 (eB * 2 ^ 10 + mB) < mag F16 (eA * 2 ^ 10 + mA))%R ->
        rounded_result F16 s sgn (mag F16 (eA * 2 ^ 10 + mA) - mag F16 (eB * 2 ^ 10 + mB)) r ->
        sub_result16 s sgn (mag F16 (eA * 2 ^ 10 + mA) - mag F16 (eB * 2 ^ 10 + mB)) r).
      { intros r K H. split; [intros; lra|split; [intros _; exact H|intros; lra]]. }
      apply Fl; [apply (mag_lt F16); lia|]. clear Fl.
      destruct (Z.leb_spec 13 (eA - eB)) as [F|F].
      * rewrite Wa. destruct (z2b eB || z2b mB) eqn:O.
        -- pose proof (positive16 eB mB ltac:(lia) Mb O). pose proof (distant16 eA eB mB ltac:(lia) ltac:(lia) Mb).
           apply subEpsilon_rounds; [assumption|lia|lia|lra].
        -- rewrite (null16 _ _ O), Rminus_0_r. destruct (with_sign16_bounds sgn (eA * 2 ^ 10 + mA) ltac:(lia)) as (_ & _ & -> & _).
           apply exact16_result; [lia|reflexivity].
      * rewrite AL, (LD eA) by lia.
        apply difference16; try lia. rewrite MA, MB. do 3 f_equal. lia.
Qed.

(** ** The 16-bit arithmetic operations and comparisons meet their contracts *)

(** ** NaN operands *)
Lemma isNaNF16UI_spec (a : Z) : is_enc F16 a -> isNaNF16UI a = nanb F16 a.
Proof.
  intros Ha. destruct (F16_fields a Ha) as (_ & He & Hm & P & _).
  destruct (classes F16 a _ _ He Hm P) as (-> & _). unfold isNaNF16UI. fold (fracF16UI a). f_equal.
  rewrite land_lnot by lia. rewrite (land_field a 0x7C00 10 5) by (reflexivity || lia).
  rewrite expF16UI_eq by assumption.
  change (2 ^ eb F16 - 1) with 0x1F. apply eq_true_iff_eq. rewrite !Z.eqb_eq. lia.
Qed.

Lemma softfloat_isSigNaNF16UI_spec (a : Z) : is_enc F16 a -> softfloat_isSigNaNF16UI a = signalingb F16 a.
Proof.
  intros Ha. destruct (F16_fields a Ha) as (_ & He & Hm & P & _). unfold signalingb.
  destruct (classes F16 a _ _ He Hm P) as (-> & _). unfold softfloat_isSigNaNF16UI, z2b.
  rewrite (land_field a 0x7E00 9 6), (land_low _ 0x01FF 9) by (reflexivity || lia).
  change (mb F16 - 1) with 9. rewrite Z.testbit_eqb by lia.
  change (2 ^ eb F16 - 1) with 0x1F. rewrite expF16UI_eq in * by assumption. unfold fracF16UI in *.
  rewrite (land_low _ 0x03FF 10) in * by (reflexivity || lia).
  apply eq_true_iff_eq. rewrite !andb_true_iff, !negb_true_iff, !Z.eqb_eq, !Z.eqb_neq. unfold is_enc in Ha. change (sign_weight F16) with (2 ^ 15) in Ha. zdm.
Qed.

Lemma quiet16_bound (a : Z) : is_enc F16 a -> 0 <= quiet F16 a < 2 ^ 16.
Proof.
  unfold is_enc, quiet. change (2 * sign_weight F16) with (2 ^ 16). intros Ha.
  assert (0 <= a .| 2 ^ (mb F16 - 1)) by (apply Z.lor_nonneg; split; [lia|discriminate]). split; [assumption|].
  destruct (Z.eq_dec (a .| 2 ^ (mb F16 - 1)) 0) as [->|N]; [lia|]. apply Z.log2_lt_pow2; [lia|].
  rewrite Z.log2_lor by (lia || discriminate). apply Z.max_lub_lt; [|reflexivity].
  destruct (Z.eq_dec a 0) as [->|N']; [reflexivity|]. apply Z.log2_lt_pow2; lia.
Qed.

Lemma propagate16 (a b : Z) (s : env) : is_enc F16 a -> is_enc F16 b ->
  (uiZ <- softfloat_propagateNaNF16UI a b ;; ret (u16 uiZ))%M s = nan_result F16 a b s.
Proof.
  intros Ha Hb. pose proof (quiet16_bound a Ha). pose proof (quiet16_bound b Hb).
  unfold softfloat_propagateNaNF16UI, nan_result. rewrite isNaNF16UI_spec, !softfloat_isSigNaNF16UI_spec by assumption.
  change (a .| 0x0200) with (quiet F16 a).
  change ((if nanb F16 a then a else b) .| 0x0200) with (quiet F16 (if nanb F16 a then a else b)).
  assert (S : signalingb F16 a = true -> nanb F16 a = true) by (unfold signalingb; now intros [? _]%andb_true_iff).
  unfold bind, ret, softfloat_raiseFlags.
  destruct (signalingb F16 a); [rewrite (S eq_refl)|]; cbn [orb];
    [|destruct (signalingb F16 b)]; rewrite ?raised_env_0; destruct (nanb F16 a); rewrite uwrap_small by lia; reflexivity.
Qed.

(** ** Addition and subtraction *)
Lemma sign_xor16 (a b : Z) : is_enc F16 a -> is_enc F16 b ->
  signF16UI (a .^ b) = xorb (sign_of F16 a) (sign_of F16 b).
Proof.
  intros Ha Hb. destruct (F16_fields a Ha) as (<- & _). destruct (F16_fields b Hb) as (<- & _).
  unfold is_enc in *. change (2 * sign_weight F16) with (2 ^ 16) in *. unfold signF16UI.
  assert (X : 0 <= a .^ b < 2 ^ 16).
  { assert (N : 0 <= a .^ b) by (apply Z.lxor_nonneg; lia). split; [assumption|].
    destruct (Z.eq_dec (a .^ b) 0) as [->|Z0]; [lia|]. apply Z.log2_lt_pow2; [lia|].
    apply Z.le_lt_trans with (Z.max (Z.log2 a) (Z.log2 b)); [apply Z.log2_lxor; lia|].
    apply Z.max_lub_lt; match goal with |- Z.log2 ?c < _ => destruct (Z.eq_dec c 0) as [->|]; [reflexivity|apply Z.log2_lt_pow2; lia] end. }
  rewrite !(uwrap_small 16), Z.shiftr_lxor, !shr_div by lia.
  assert (0 <= a / 2 ^ 15 <= 1) by zdm. assert (0 <= b / 2 ^ 15 <= 1) by zdm.
  assert (C : a / 2 ^ 15 = 0 \/ a / 2 ^ 15 = 1) by lia. assert (D : b / 2 ^ 15 = 0 \/ b / 2 ^ 15 = 1) by lia.
  destruct C as [-> | ->], D as [-> | ->]; reflexivity.
Qed.


Lemma infinity16_eq (sign : bool) : u16 (packToF16UI sign 0x1F 0) = infinity F16 sign.
Proof. apply packToF16UI_eq; lia. Qed.

Lemma inf_enc16 (a : Z) : is_enc F16 a -> infb F16 a = true -> u16 a = infinity F16 (sign_of F16 a).
Proof.
  intros Ha I. unfold is_enc in Ha. change (2 * sign_weight F16) with (2 ^ 16) in Ha. rewrite uwrap_small by lia.
  destruct (F16_fields a Ha) as (_ & _ & _ & _ & W). apply Z.eqb_eq in I.
  unfold infinity. rewrite <- I. exact W.
Qed.

(** The cases where an operand is not finite. *)
Lemma special16 (a b : Z) : is_enc F16 a -> is_enc F16 b ->
  is_finite F16 a /\ is_finite F16 b /\ nanb F16 a || nanb F16 b = false /\ infb F16 a = false /\ infb F16 b = false \/
  expF16UI a = 0x1F \/ expF16UI b = 0x1F.
Proof.
  intros Ha Hb.
  destruct (F16_fields a Ha) as (_ & Ea & Ma & Pa & _). destruct (F16_fields b Hb) as (_ & Eb & Mb & Pb & _).
  destruct (Z.eq_dec (expF16UI a) 0x1F); [tauto|]. destruct (Z.eq_dec (expF16UI b) 0x1F); [tauto|].
  unfold is_finite, nanb, infb. rewrite Pa, Pb. change (inf_pattern F16) with (0x1F * 2 ^ 10). left.
  split; [split; [assumption|lia]|]. split; [split; [assumption|lia]|]. rewrite !(proj2 (Z.ltb_ge _ _)) by lia.
  split; [reflexivity|]. split; apply Z.eqb_neq; lia.
Qed.

Lemma softfloat_addMagsF16_spec (a b : Z) (s : env) : valid_mode s -> is_enc F16 a -> is_enc F16 b ->
  sum_spec F16 s a b (sign_of F16 a) (softfloat_addMagsF16 a b s).
Proof.
  intros Hv Ha Hb. unfold sum_spec.
  destruct (special16 a b Ha Hb) as [(Fa & Fb & -> & -> & ->)|C].
  - pose proof (softfloat_addMagsF16_finite a b s Hv Fa Fb) as H.
    pose proof (mag_nonneg F16 (pattern_of F16 a) (proj1 (Z.mod_pos_bound a (sign_weight F16) eq_refl))).
    pose proof (mag_nonneg F16 (pattern_of F16 b) (proj1 (Z.mod_pos_bound b (sign_weight F16) eq_refl))).
    unfold value, correctly_rounded, signR. rewrite Bool.eqb_reflx. set (x := (mag _ _ + mag _ _)%R) in H.
    split; [|split]; destruct (sign_of F16 a); intros X; try lra.
    all: try (apply (rounded_result_zero F16); replace 0%R with x by (unfold x; lra); exact H).
    + exact H.
    + replace (- (- _ + - _))%R with x by (unfold x; ring). exact H.
  - destruct (F16_fields a Ha) as (Sa & Ea & Ma & Pa & Wa). destruct (F16_fields b Hb) as (Sb & Eb & Mb & Pb & Wb).
    destruct (classes F16 a _ _ Ea Ma Pa) as (Na & Ia & _). destruct (classes F16 b _ _ Eb Mb Pb) as (Nb & Ib & _).
    pose proof (inf_enc16 a Ha) as IA. rewrite Ia in IA.
    rewrite Na, Nb, Ia, Ib, xorb_nilpotent, andb_false_r. clear Na Nb Ia Ib.
    unfold softfloat_addMagsF16. cbv zeta. rewrite Sa, (swrap_small 8 (_ - _)), infinity16_eq, !z2b_lor by fmt_lia.
    change (2 ^ eb F16 - 1) with 0x1F in *.
    destruct (Z.eqb_spec (expF16UI a) 0x1F) as [EA|EA], (Z.eqb_spec (expF16UI b) 0x1F) as [EB|EB]; [| | |lia];
      destruct (z2b (fracF16UI a)) eqn:MA, (z2b (fracF16UI b)) eqn:MB; cbn [andb orb negb] in *.
    all: try destruct (Z.eqb_spec (expF16UI a - expF16UI b) 0); try lia.
    all: try destruct (Z.ltb_spec (expF16UI a - expF16UI b) 0); try lia.
    all: try destruct (Z.eqb_spec (expF16UI a) 0); try lia; try reflexivity.
    all: try exact (propagate16 a b s Ha Hb).
    all: unfold ret; rewrite IA; reflexivity.
Qed.

Lemma softfloat_subMagsF16_spec (a b : Z) (s : env) : valid_mode s -> is_enc F16 a -> is_enc F16 b ->
  sum_spec F16 s a b (negb (sign_of F16 a)) (softfloat_subMagsF16 a b s).
Proof.
  intros Hv Ha Hb. unfold sum_spec.
  destruct (special16 a b Ha Hb) as [(Fa & Fb & -> & -> & ->)|C].
  - destruct (softfloat_subMagsF16_finite a b s Hv Fa Fb) as (Z0 & P & N).
    unfold value, correctly_rounded, signR. rewrite Bool.eqb_negb2. set (x := (mag _ _ - mag _ _)%R) in *.
    destruct (sign_of F16 a); cbn [negb] in *.
    + replace (- mag F16 (pattern_of F16 a) + mag F16 (pattern_of F16 b))%R with (- x)%R by (unfold x; ring).
      split; [|split]; intros X; [apply Z0; lra|apply N; lra|]. rewrite Ropp_involutive. apply P. lra.
    + replace (mag F16 (pattern_of F16 a) + - mag F16 (pattern_of F16 b))%R with x by (unfold x; ring).
      split; [|split]; intros X; [apply Z0; lra|apply P; lra|apply N; lra].
  - destruct (F16_fields a Ha) as (Sa & Ea & Ma & Pa & Wa). destruct (F16_fields b Hb) as (Sb & Eb & Mb & Pb & Wb).
    destruct (classes F16 a _ _ Ea Ma Pa) as (Na & Ia & _). destruct (classes F16 b _ _ Eb Mb Pb) as (Nb & Ib & _).
    pose proof (inf_enc16 a Ha) as IA. rewrite Ia in IA.
    rewrite Na, Nb, Ia, Ib, <- negb_xorb_r, xorb_nilpotent, andb_true_r. clear Na Nb Ia Ib.
    unfold softfloat_subMagsF16. cbv zeta. rewrite Sa, (swrap_small 8 (_ - _)), infinity16_eq, !z2b_lor by fmt_lia.
    change (2 ^ eb F16 - 1) with 0x1F in *.
    destruct (Z.eqb_spec (expF16UI a) 0x1F) as [EA|EA], (Z.eqb_spec (expF16UI b) 0x1F) as [EB|EB]; [| | |lia];
      destruct (z2b (fracF16UI a)) eqn:MA, (z2b (fracF16UI b)) eqn:MB; cbn [andb orb negb] in *.
    all: try destruct (Z.eqb_spec (expF16UI a - expF16UI b) 0); try lia.
    all: try destruct (Z.ltb_spec (expF16UI a - expF16UI b) 0); try lia; try reflexivity.
    all: try exact (propagate16 a b s Ha Hb).
    all: unfold ret; rewrite IA; reflexivity.
Qed.

(** f16_add is correct: for any two 16-bit encodings the result and the flags
    raised are those of IEEE addition in the current rounding mode - the first NaN
    operand made quiet, the invalid operation inf - inf, the sign of a zero sum, and
    otherwise the exact sum correctly rounded (overflow, underflow and inexact included). *)
Lemma f16_add_spec (a b : Z) (s : env) : valid_mode s -> is_enc F16 a -> is_enc F16 b ->
  sum_spec F16 s a b (sign_of F16 b) (f16_add a b s).
Proof.
  intros Hv Ha Hb. unfold f16_add. rewrite sign_xor16 by assumption.
  pose proof (softfloat_addMagsF16_spec a b s Hv Ha Hb) as A. pose proof (softfloat_subMagsF16_spec a b s Hv Ha Hb) as B.
  destruct (sign_of F16 a), (sign_of F16 b); assumption.
Qed.

Lemma f16_sub_spec (a b : Z) (s : env) : valid_mode s -> is_enc F16 a -> is_enc F16 b ->
  sum_spec F16 s a b (negb (sign_of F16 b)) (f16_sub a b s).
Proof.
  intros Hv Ha Hb. unfold f16_sub. rewrite sign_xor16 by assumption.
  pose proof (softfloat_addMagsF16_spec a b s Hv Ha Hb) as A. pose proof (softfloat_subMagsF16_spec a b s Hv Ha Hb) as B.
  destruct (sign_of F16 a), (sign_of F16 b); assumption.
Qed.

(** ** The 16-bit comparisons order the encodings by their value *)

(** The encoding from its key fields. *)
Lemma split16 (a : Z) : is_enc F16 a ->
  a = b2z (sign_of F16 a) * 2 ^ 15 + pattern_of F16 a /\ 0 <= pattern_of F16 a < 2 ^ 15.
Proof.
  intros Ha. destruct (F16_fields a Ha) as (_ & _ & _ & _ & W). split; [exact W|]. apply Z.mod_pos_bound. reflexivity.
Qed.

Lemma both_zero16 (a b : Z) :
  (u16 (u64 ((a .| b) << 1)) =? 0) = (pattern_of F16 a =? 0) && (pattern_of F16 b =? 0).
Proof.
  apply eq_true_iff_eq. rewrite andb_true_iff, !Z.eqb_eq. unfold pattern_of. change (sign_weight F16) with (2 ^ 15).
  rewrite <- magnitudes_zero by lia. rewrite shl_mul by lia. unfold uwrap. zdm.
Qed.

Lemma eq16 (a b : Z) : is_enc F16 a -> is_enc F16 b ->
  (a =? b) || negb (z2b (u16 (u64 ((a .| b) << 1)))) = true <-> value F16 a = value F16 b.
Proof.
  intros Ha Hb. destruct (value_key F16 a b) as (_ & _ & ->). unfold key, z2b. rewrite negb_involutive, both_zero16.
  destruct (split16 a Ha) as [A A']. destruct (split16 b Hb) as [B B'].
  set (p := pattern_of F16 a) in *. set (q := pattern_of F16 b) in *.
  destruct (sign_of F16 a), (sign_of F16 b); cbn [Z.b2z] in *; lia.
Qed.

Lemma le16 (a b : Z) : is_enc F16 a -> is_enc F16 b ->
  (if xorb (signF16UI a) (signF16UI b) then signF16UI a || negb (z2b (u16 (u64 ((a .| b) << 1))))
   else (a =? b) || xorb (signF16UI a) (a <? b)) = true <-> (value F16 a <= value F16 b)%R.
Proof.
  intros Ha Hb. destruct (value_key F16 a b) as (_ & -> & _). unfold key, z2b. rewrite negb_involutive, both_zero16.
  rewrite (proj1 (F16_fields a Ha)), (proj1 (F16_fields b Hb)).
  destruct (split16 a Ha) as [A A']. destruct (split16 b Hb) as [B B'].
  set (p := pattern_of F16 a) in *. set (q := pattern_of F16 b) in *.
  signs F16 a b p q.
Qed.

Lemma lt16 (a b : Z) : is_enc F16 a -> is_enc F16 b ->
  (if xorb (signF16UI a) (signF16UI b) then signF16UI a && negb (u16 (u64 ((a .| b) << 1)) =? 0)
   else negb (a =? b) && xorb (signF16UI a) (a <? b)) = true <-> (value F16 a < value F16 b)%R.
Proof.
  intros Ha Hb. destruct (value_key F16 a b) as (-> & _). unfold key. rewrite both_zero16.
  rewrite (proj1 (F16_fields a Ha)), (proj1 (F16_fields b Hb)).
  destruct (split16 a Ha) as [A A']. destruct (split16 b Hb) as [B B'].
  set (p := pattern_of F16 a) in *. set (q := pattern_of F16 b) in *.
  signs F16 a b p q.
Qed.

(** The quiet and the signaling way out for unordered operands. *)
Ltac compare16 Ha Hb op ordered :=
  unfold compare_spec, op; rewrite ?isNaNF16UI_spec, ?softfloat_isSigNaNF16UI_spec by assumption;
  destruct (nanb F16 _ || nanb F16 _); cbn [orb];
  [unfold bind; rewrite ?when_raise; reflexivity|split; [reflexivity|exact (ordered _ _ Ha Hb)]].

(** Equality. *)
Lemma f16_eq_spec (a b : Z) (s : env) : is_enc F16 a -> is_enc F16 b ->
  compare_spec F16 false eq s a b (f16_eq a b s) /\ compare_spec F16 true eq s a b (f16_eq_signaling a b s).
Proof. intros Ha Hb. split; [compare16 Ha Hb f16_eq eq16|compare16 Ha Hb f16_eq_signaling eq16]. Qed.

(** Order. *)
Lemma f16_order_spec (a b : Z) (s : env) : is_enc F16 a -> is_enc F16 b ->
  compare_spec F16 true Rle s a b (f16_le a b s) /\ compare_spec F16 true Rlt s a b (f16_lt a b s) /\
  compare_spec F16 false Rle s a b (f16_le_quiet a b s) /\ compare_spec F16 false Rlt s a b (f16_lt_quiet a b s).
Proof.
  intros Ha Hb. split; [compare16 Ha Hb f16_le le16|split; [compare16 Ha Hb f16_lt lt16|split]].
  - compare16 Ha Hb f16_le_quiet le16.
  - compare16 Ha Hb f16_lt_quiet lt16.
Qed.
