(* ===== verification/F16Mul.v ===== *)
(** 16-bit multiplication and division are correctly rounded. *)
From Stdlib Require Import ZArith Bool Lia Reals Lra.
From S2P Require Import Prelude Ieee Rounding RoundPack Softfloat Primitives Machine Contract F16 F16Round F16Arith.
Local Open Scope Z_scope.
Local Open Scope c_scope.

Lemma softfloat_normSubnormalF16Sig_spec (sig : Z) (n := softfloat_normSubnormalF16Sig sig) : 0 < sig < 2 ^ 10 ->
  -9 <= e8s16_exp n <= 0 /\ 2 ^ 10 <= e8s16_sig n < 2 ^ 11 /\
  (IZR sig * pow2 (emin F16))%R = (IZR (e8s16_sig n) * pow2 (e8s16_exp n - 1 + emin F16))%R.
Proof.
  intros Hs. subst n. unfold softfloat_normSubnormalF16Sig. cbn [e8s16_exp e8s16_sig].
  rewrite (uwrap_small 16 sig), softfloat_countLeadingZeros16_spec by lia.
  pose proof (Z.log2_spec sig ltac:(lia)) as L. pose proof (Z.log2_nonneg sig) as L0.
  pose proof (proj1 (log2_bounds sig 10 ltac:(lia) ltac:(lia)) ltac:(lia)) as L1.
  replace (nlz 16 sig - 5) with (10 - Z.log2 sig) by (unfold nlz; lia).
  set (l := Z.log2 sig) in *. clearbody l. rewrite (swrap_small 8 (10 - l)), (swrap_small 8 (1 - (10 - l))), shl_mul by fmt_lia.
  rewrite Z.pow_succ_r in L by lia. assert (P : 0 < 2 ^ (10 - l) <= 2 ^ 10) by (split; [apply Z.pow_pos_nonneg|apply Z.pow_le_mono_r]; lia).
  assert (2 ^ 10 = 2 ^ l * 2 ^ (10 - l)) by (rewrite <- Z.pow_add_r by lia; f_equal; lia).
  assert (B : 2 ^ 10 <= sig * 2 ^ (10 - l) < 2 ^ 11) by nia.
  rewrite uwrap_small by lia. split; [lia|]. split; [exact B|].
  rewrite mult_IZR, <- pow2_IZR, Rmult_assoc, <- pow2_add by lia. do 2 f_equal. lia.
Qed.

Lemma lead16_idem (m : Z) : 2 ^ 10 <= m < 2 ^ 11 -> m .| 0x0400 = m.
Proof.
  intros Hm. replace m with (1 * 2 ^ 10 + (m - 2 ^ 10)) by lia. rewrite <- lor_disjoint by lia.
  rewrite <- Z.lor_assoc, (Z.lor_comm _ 0x0400), Z.lor_assoc. reflexivity.
Qed.

(** An operand other than zero, with the exponent and significand that the code
    computes with. *)
Definition operand16 (e m e' m' : Z) : Prop :=
  -9 <= e' <= 0x1E /\ 2 ^ 10 <= m' .| 0x0400 < 2 ^ 11 /\
  mag F16 (e * 2 ^ 10 + m) = (IZR (m' .| 0x0400) * pow2 (e' - 1 + emin F16))%R.

Lemma operand16_cases (e m : Z) (n := softfloat_normSubnormalF16Sig m) :
  0 <= e < 0x1F -> 0 <= m < 2 ^ 10 -> z2b e || z2b m = true ->
  z2b e = true /\ operand16 e m e m \/
  z2b e = false /\ z2b m = true /\ operand16 e m (e8s16_exp n) (e8s16_sig n).
Proof.
  intros He Hm N. unfold operand16. rewrite mag16_fields by lia. unfold z2b in *.
  destruct (Z.eqb_spec e 0) as [->|E]; cbn [negb orb] in *.
  - right. destruct (softfloat_normSubnormalF16Sig_spec m ltac:(lia)) as (B1 & B2 & X). fold n in B1, B2, X.
    rewrite lead16_idem by lia. repeat split; try lia. exact X.
  - left. rewrite lead16 by lia. repeat split; try lia. do 2 f_equal. lia.
Qed.

Lemma multiply16 (sign : bool) (eA eB wA wB : Z) (s : env) (x : R) :
  -9 <= eA <= 0x1E -> -9 <= eB <= 0x1E -> 2 ^ 10 <= wA < 2 ^ 11 -> 2 ^ 10 <= wB < 2 ^ 11 ->
  x = (IZR wA * pow2 (eA - 1 + emin F16) * (IZR wB * pow2 (eB - 1 + emin F16)))%R ->
  rounded_result F16 s sign x
    ((let expZ := i8 (eA + eB - 0xF) in
      let sigA := u64 (wA << 4) in
      let sigB := u64 (wB << 5) in
      let sig32Z := u64 (sigA * sigB) in
      let sigZ := sig32Z >> 16 in
      let sigZ := if z2b (sig32Z .& 0xFFFF) then sigZ .| 1 else sigZ in
      let '(expZ, sigZ) := if sigZ <? 0x4000 then (i8 (expZ - 1), u64 (sigZ << 1)) else (expZ, sigZ) in
      softfloat_roundPackToF16 sign expZ sigZ) s).
Proof.
  intros HeA HeB HA HB X. cbv zeta. rewrite (shl_mul wA), (shl_mul wB) by lia.
  rewrite (uwrap_small 64 (wA * _)), (uwrap_small 64 (wB * _)) by lia.
  assert (P : 2 ^ 29 <= wA * 2 ^ 4 * (wB * 2 ^ 5) < 2 ^ 31) by nia.
  rewrite (uwrap_small 64 (_ * (wB * _))) by lia.
  assert (X' : x = (IZR (wA * 2 ^ 4 * (wB * 2 ^ 5)) * pow2 (- (16)) * pow2 (eA + eB - 0xF - 4 + emin F16))%R).
  { rewrite X, !mult_IZR, <- (pow2_IZR 4), <- (pow2_IZR 5) by lia.
    replace (eA + eB - 0xF - 4 + emin F16) with (- (4) + (- (5) + (16 + ((eA - 1 + emin F16) + (eB - 1 + emin F16)))))
      by (change (emin F16) with (-24); lia).
    rewrite !pow2_add, !pow2_opp. field. auto. }
  set (p := wA * 2 ^ 4 * (wB * 2 ^ 5)) in *. clearbody p. clear X HA HB.
  assert (Jm : (if z2b (p .& 0xFFFF) then (p >> 16) .| 1 else p >> 16) = jam p 16).
  { rewrite (land_low _ 0xFFFF 16) by (reflexivity || lia). unfold jam, z2b.
    destruct (p mod 2 ^ 16 =? 0); cbn [negb Z.b2z]; [now rewrite Z.lor_0_r|reflexivity]. }
  rewrite Jm. clear Jm.
  assert (S : same (2 ^ 1) (jam p 16) (IZR p * pow2 (- (16)))).
  { apply same_pow with (Z.max 1 (0 - 16)); [lia|]. apply same_jam; try lia. apply (same_exact 1). }
  assert (J : 2 ^ 13 <= jam p 16 < 2 ^ 15) by (rewrite jam_eq by lia; destruct (_ =? 0); zdm).
  set (y := (IZR p * pow2 (- (16)))%R) in *. clearbody y. set (z := jam p 16) in *. clearbody z.
  rewrite (swrap_small 8 (eA + eB - 0xF)), (swrap_small 8 (eA + eB - 0xF - 1)), shl_mul by fmt_lia. destruct (Z.ltb_spec z 0x4000).
  - rewrite uwrap_small by lia.
    apply softfloat_roundPackToF16_rounds with (k := 2) (y := (y * pow2 1)%R); try lia.
    + apply (same_shl 1 1); try lia. exact S.
    + rewrite X', Rmult_assoc, <- pow2_add. do 2 f_equal. lia.
  - apply softfloat_roundPackToF16_rounds with (k := 1) (y := y); try lia; assumption.
Qed.

Lemma zero_result16 (s : env) (sign : bool) (x : R) : x = 0%R -> rounded_result F16 s sign x (u16 (packToF16UI sign 0 0), s).
Proof. intros ->. rewrite packToF16UI_eq by lia. apply exact16_result; [lia|]. apply (mag_zero F16). Qed.

(** The fields of an operand decide its class. *)
Lemma zero_mag16 (a : Z) : zerob F16 a = true -> mag F16 (pattern_of F16 a) = 0%R.
Proof. intros Z0%Z.eqb_eq. rewrite Z0. apply (mag_zero F16). Qed.

Lemma f16_mul_spec (a b : Z) (s : env) : is_enc F16 a -> is_enc F16 b ->
  mul_spec F16 s a b (f16_mul a b s).
Proof.
  intros Ha Hb. unfold mul_spec.
  destruct (F16_fields a Ha) as (Sa & Ea & Ma & Pa & Wa). destruct (F16_fields b Hb) as (Sb & Eb & Mb & Pb & Wb).
  destruct (classes F16 a _ _ Ea Ma Pa) as (Na & Ia & Za & _). destruct (classes F16 b _ _ Eb Mb Pb) as (Nb & Ib & Zb & _).
  pose proof (zero_mag16 a) as ZA. pose proof (zero_mag16 b) as ZB.
  pose proof (propagate16 a b s Ha Hb) as P.
  unfold f16_mul. rewrite !Sa, !Sb, !infinity16_eq, !z2b_lor by lia. cbv zeta.
  set (sz := xorb _ _). clearbody sz. rewrite Pa, Pb in *. rewrite Na, Nb, Ia, Ib, Za, Zb in *. clear Na Nb Ia Ib Za Zb.
  change (2 ^ eb F16 - 1) with 0x1F in *.
  set (eA := expF16UI a) in *. set (mA := fracF16UI a) in *. set (eB := expF16UI b) in *. set (mB := fracF16UI b) in *.
  change (2 ^ mb F16) with (2 ^ 10) in *. change (2 ^ eb F16) with (2 ^ 5) in *.
  clearbody eA mA eB mB.
  assert (FA : 0x1F = eA -> z2b eA = true) by (now intros <-).
  assert (FB : 0x1F = eB -> z2b eB = true) by (now intros <-).
  destruct (Z.eqb_spec eA 0x1F) as [EA|EA]; [rewrite FA by lia|]; (destruct (Z.eqb_spec eB 0x1F) as [EB|EB]; [rewrite FB by lia|]).
  1-3: destruct (z2b mA), (z2b mB), (z2b eA), (z2b eB); cbn [andb orb negb]; try exact P; reflexivity.
  cbn [andb orb negb].
  destruct (z2b eA || z2b mA) eqn:OA; cycle 1.
  { apply orb_false_iff in OA as [QA RA]. rewrite QA, RA in *. apply zero_result16. rewrite ZA by reflexivity. ring. }
  destruct (z2b eB || z2b mB) eqn:OB; cycle 1.
  { apply orb_false_iff in OB as [QB RB]. rewrite QB, RB in *. cbn [negb].
    destruct (z2b eA); [|destruct (z2b mA); [|discriminate]]; apply zero_result16; rewrite ZB by reflexivity; ring. }
  destruct (operand16_cases eA mA ltac:(lia) Ma OA) as [(QA & A1 & A2 & A3)|(QA & RA & A1 & A2 & A3)];
    destruct (operand16_cases eB mB ltac:(lia) Mb OB) as [(QB & B1 & B2 & B3)|(QB & RB & B1 & B2 & B3)];
    rewrite QA, QB, ?RA, ?RB; cbn [negb]; apply multiply16; try assumption; rewrite A3, B3; reflexivity.
Qed.

(** ** Division *)
Lemma sticky_quotient16 (n d q : Z) : 0 < d -> 0 <= n -> q = n / d -> d * q < 2 ^ 64 -> n < 2 ^ 64 ->
  same (2 ^ 3) (if negb (z2b (q .& 7)) then q .| b2z (negb (u64 (d * q) =? n)) else q) (IZR n / IZR d).
Proof.
  intros Hd Hn Q L1 L2. rewrite (land_low _ 7 3) by (reflexivity || lia).
  assert (0 <= q) by (subst q; apply Z.div_pos; lia).
  pose proof (Z.div_mod n d ltac:(lia)) as E. pose proof (Z.mod_pos_bound n d Hd) as B. rewrite <- Q in E.
  rewrite uwrap_small by nia. unfold z2b. rewrite negb_involutive.
  apply same_quotient; [lia|assumption|]. rewrite <- Q. change (2 ^ 3) with 8.
  destruct (Z.eqb_spec (q mod 8) 0) as [C|C]; [|left; split; [reflexivity|now right]].
  destruct (Z.eqb_spec (d * q) n) as [R|R]; cbn [negb Z.b2z].
  - left. rewrite Z.lor_0_r. split; [reflexivity|left; lia].
  - right. rewrite lor_1. split; [zdm|split; [lia|assumption]].
Qed.

Lemma divide16 (sign : bool) (eA eB wA wB : Z) (s : env) (x : R) :
  -9 <= eA <= 0x1E -> -9 <= eB <= 0x1E -> 2 ^ 10 <= wA < 2 ^ 11 -> 2 ^ 10 <= wB < 2 ^ 11 ->
  x = (IZR wA * pow2 (eA - 1 + emin F16) / (IZR wB * pow2 (eB - 1 + emin F16)))%R ->
  rounded_result F16 s sign x
    ((let expZ := i8 (eA - eB + 0xE) in
      let '(expZ, sig32A) := if wA <? wB then (i8 (expZ - 1), u64 (wA << 15)) else (expZ, u64 (wA << 14)) in
      let sigZ := sig32A / wB in
      let sigZ := if negb (z2b (sigZ .& 7)) then sigZ .| b2z (negb (u64 (wB * sigZ) =? sig32A)) else sigZ in
      softfloat_roundPackToF16 sign expZ sigZ) s).
Proof.
  intros HeA HeB HA HB X. cbv zeta.
  assert (W : forall k e, (k = 14 /\ wB <= wA \/ k = 15 /\ wA < wB) -> e = eA - eB + 0xE - (k - 14) ->
    rounded_result F16 s sign x
      (softfloat_roundPackToF16 sign e
        (if negb (z2b ((wA * 2 ^ k / wB) .& 7))
         then (wA * 2 ^ k / wB) .| b2z (negb (u64 (wB * (wA * 2 ^ k / wB)) =? wA * 2 ^ k)) else wA * 2 ^ k / wB) s)).
  { intros k e C ->. assert (K : 2 ^ k = 2 ^ 14 \/ 2 ^ k = 2 ^ 15) by (destruct C as [[-> _]|[-> _]]; tauto).
    assert (N : wB * 2 ^ 14 <= wA * 2 ^ k < wB * 2 ^ 15) by (destruct C as [[-> C]|[-> C]]; lia).
    assert (Q : 2 ^ 14 <= wA * 2 ^ k / wB < 2 ^ 15)
      by (split; [apply Z.div_le_lower_bound; lia|apply Z.div_lt_upper_bound; lia]).
    pose proof (sticky_quotient16 (wA * 2 ^ k) wB _ ltac:(lia) ltac:(lia) eq_refl) as S.
    assert (D : wB * (wA * 2 ^ k / wB) <= wA * 2 ^ k) by (apply Z.mul_div_le; lia).
    specialize (S ltac:(lia) ltac:(lia)).
    apply softfloat_roundPackToF16_rounds with (k := 3) (y := (IZR (wA * 2 ^ k) / IZR wB)%R); try lia; [|exact S|].
    - destruct (negb (z2b _)) eqn:L; [|lia]. rewrite (land_low _ 7 3) in L by (reflexivity || lia).
      unfold z2b in L. rewrite negb_involutive, Z.eqb_eq in L.
      destruct (negb (u64 _ =? _)); cbn [Z.b2z]; [rewrite lor_1; zdm|rewrite Z.lor_0_r; lia].
    - rewrite X, mult_IZR, <- (pow2_IZR k) by lia.
      replace (eA - 1 + emin F16) with (k + ((eA - eB + 0xE - (k - 14) - 4 + emin F16) + (eB - 1 + emin F16)))
        by (change (emin F16) with (-24); lia).
      rewrite !pow2_add. field. repeat split; auto. apply not_0_IZR; lia. }
  rewrite (swrap_small 8 (eA - eB + 0xE)), (swrap_small 8 (eA - eB + 0xE - 1)), !(shl_mul wA) by fmt_lia.
  destruct (Z.ltb_spec wA wB).
  - rewrite uwrap_small by lia. apply (W 15); lia.
  - rewrite uwrap_small by lia. apply (W 14); lia.
Qed.

Lemma f16_div_spec (a b : Z) (s : env) : is_enc F16 a -> is_enc F16 b ->
  div_spec F16 s a b (f16_div a b s).
Proof.
  intros Ha Hb. unfold div_spec.
  destruct (F16_fields a Ha) as (Sa & Ea & Ma & Pa & Wa). destruct (F16_fields b Hb) as (Sb & Eb & Mb & Pb & Wb).
  destruct (classes F16 a _ _ Ea Ma Pa) as (Na & Ia & Za & _). destruct (classes F16 b _ _ Eb Mb Pb) as (Nb & Ib & Zb & _).
  pose proof (zero_mag16 a) as ZA. pose proof (propagate16 a b s Ha Hb) as P.
  unfold f16_div. rewrite !Sa, !Sb, !infinity16_eq, !z2b_lor by lia. cbv zeta.
  set (sz := xorb _ _). clearbody sz. rewrite Pa, Pb in *. rewrite Na, Nb, Ia, Ib, Za, Zb in *. clear Na Nb Ia Ib Za Zb.
  change (2 ^ eb F16 - 1) with 0x1F in *.
  set (eA := expF16UI a) in *. set (mA := fracF16UI a) in *. set (eB := expF16UI b) in *. set (mB := fracF16UI b) in *.
  change (2 ^ mb F16) with (2 ^ 10) in *. change (2 ^ eb F16) with (2 ^ 5) in *.
  clearbody eA mA eB mB.
  assert (Z0 : u16 (packToF16UI sz 0 0) = with_sign F16 sz 0) by (apply packToF16UI_eq; lia).
  destruct (Z.eqb_spec eA 0x1F) as [EA|EA]; [|destruct (Z.eqb_spec eB 0x1F) as [EB|EB]].
  1: destruct (eB =? 0x1F), (z2b mA), (z2b mB); cbn [andb orb negb]; try exact P; reflexivity.
  1: destruct (z2b mA), (z2b mB); cbn [andb orb negb]; try exact P; unfold ret; now rewrite Z0.
  cbn [andb orb negb].
  destruct (z2b eB || z2b mB) eqn:OB; cycle 1.
  { apply orb_false_iff in OB as [QB RB]. rewrite QB, RB. destruct (z2b eA), (z2b mA); reflexivity. }
  replace (negb (z2b eB) && negb (z2b mB)) with false by (rewrite <- negb_orb, OB; reflexivity).
  destruct (z2b eA || z2b mA) eqn:OA; cycle 1.
  { apply orb_false_iff in OA as [QA RA]. rewrite QA, RA in *. rewrite ZA by reflexivity. unfold Rdiv. rewrite Rmult_0_l.
    destruct (z2b eB); [|destruct (z2b mB); [|discriminate]]; apply zero_result16; reflexivity. }
  destruct (operand16_cases eA mA ltac:(lia) Ma OA) as [(QA & A1 & A2 & A3)|(QA & RA & A1 & A2 & A3)];
    destruct (operand16_cases eB mB ltac:(lia) Mb OB) as [(QB & B1 & B2 & B3)|(QB & RB & B1 & B2 & B3)];
    rewrite QA, QB, ?RA, ?RB; cbn [negb]; apply divide16; try assumption; rewrite A3, B3; reflexivity.
Qed.
