(* ===== verification/F16Convert.v ===== *)
(** Conversions of the 16-bit format: the translation of [f16_to_*.c],
    [*_to_f16.c] and [f16_roundToInt.c].  Conversions between the 16-bit format and the wider ones: widening is
    exact, narrowing is correctly rounded, NaNs keep their sign and leading payload. *)
From Stdlib Require Import ZArith Bool Lia Reals Lra.
From S2P Require Import Prelude Ieee Rounding RoundPack Softfloat Primitives Machine Contract F32 F32Round F32Arith F32Mul F64 F64Round F64Arith F64Mul Convert FromInt ToInt Truncate Widen F16 F16Round F16Arith F16Mul.
Local Open Scope Z_scope.
Local Open Scope c_scope.
Local Open Scope M_scope.

(** ** To integers *)
Definition f16_to_ui32 (a roundingMode : Z) (exact : bool) : M Z :=
  let uiA := a in
  let sign := signF16UI uiA in
  let exp := expF16UI uiA in
  let frac := fracF16UI uiA in
  if exp =? 0x1F then
    softfloat_raiseFlags softfloat_flag_invalid ;;;
    ret (if z2b frac then ui32_fromNaN else if sign then ui32_fromNegOverflow else ui32_fromPosOverflow)
  else
    let sig32 := frac in
    if z2b exp then
      let sig32 := sig32 .| 0x0400 in
      let shiftDist := i8 (exp - 0x19) in
      if (0 <=? shiftDist) && negb sign then ret (u64 (sig32 << shiftDist))
      else
        let shiftDist := i8 (exp - 0x0D) in
        let sig32 := if 0 <? shiftDist then u64 (sig32 << shiftDist) else sig32 in
        softfloat_roundToUI32 sign sig32 roundingMode exact
    else softfloat_roundToUI32 sign sig32 roundingMode exact.

Definition f16_to_i32 (a roundingMode : Z) (exact : bool) : M Z :=
  let uiA := a in
  let sign := signF16UI uiA in
  let exp := expF16UI uiA in
  let frac := fracF16UI uiA in
  if exp =? 0x1F then
    softfloat_raiseFlags softfloat_flag_invalid ;;;
    ret (if z2b frac then i32_fromNaN else if sign then i32_fromNegOverflow else i32_fromPosOverflow)
  else
    let sig32 := frac in
    if z2b exp then
      let sig32 := sig32 .| 0x0400 in
      let shiftDist := i8 (exp - 0x19) in
      if 0 <=? shiftDist then
        let sig32 := sig32 << shiftDist in
        ret (if sign then - sig32 else sig32)
      else
        let shiftDist := i8 (exp - 0x0D) in
        let sig32 := if 0 <? shiftDist then sig32 << shiftDist else sig32 in
        softfloat_roundToI32 sign (u64 sig32) roundingMode exact
    else softfloat_roundToI32 sign (u64 sig32) roundingMode exact.

Definition f16_to_ui64 (a roundingMode : Z) (exact : bool) : M Z :=
  let uiA := a in
  let sign := signF16UI uiA in
  let exp := expF16UI uiA in
  let frac := fracF16UI uiA in
  if exp =? 0x1F then
    softfloat_raiseFlags softfloat_flag_invalid ;;;
    ret (if z2b frac then ui64_fromNaN else if sign then ui64_fromNegOverflow else ui64_fromPosOverflow)
  else
    let sig32 := frac in
    if z2b exp then
      let sig32 := sig32 .| 0x0400 in
      let shiftDist := i8 (exp - 0x19) in
      if (0 <=? shiftDist) && negb sign then ret (u64 (sig32 << shiftDist))
      else
        let shiftDist := i8 (exp - 0x0D) in
        let sig32 := if 0 <? shiftDist then u64 (sig32 << shiftDist) else sig32 in
        softfloat_roundToUI64 sign (sig32 >> 12) (u64 (sig32 << 52)) roundingMode exact
    else softfloat_roundToUI64 sign (sig32 >> 12) (u64 (sig32 << 52)) roundingMode exact.

Definition f16_to_i64 (a roundingMode : Z) (exact : bool) : M Z :=
  let uiA := a in
  let sign := signF16UI uiA in
  let exp := expF16UI uiA in
  let frac := fracF16UI uiA in
  if exp =? 0x1F then
    softfloat_raiseFlags softfloat_flag_invalid ;;;
    ret (if z2b frac then i64_fromNaN else if sign then i64_fromNegOverflow else i64_fromPosOverflow)
  else
    let sig32 := frac in
    if z2b exp then
      let sig32 := sig32 .| 0x0400 in
      let shiftDist := i8 (exp - 0x19) in
      if 0 <=? shiftDist then
        let sig32 := sig32 << shiftDist in
        ret (if sign then - sig32 else sig32)
      else
        let shiftDist := i8 (exp - 0x0D) in
        let sig32 := if 0 <? shiftDist then sig32 << shiftDist else sig32 in
        softfloat_roundToI32 sign (u64 sig32) roundingMode exact
    else softfloat_roundToI32 sign (u64 sig32) roundingMode exact.

Definition f16_to_ui32_r_minMag (a : Z) (exact : bool) : M Z :=
  let uiA := a in
  let exp := expF16UI uiA in
  let frac := fracF16UI uiA in
  let shiftDist := i8 (exp - 0x0F) in
  if shiftDist <? 0 then
    when (exact && z2b (exp .| frac)) (softfloat_raiseFlags softfloat_flag_inexact) ;;;
    ret 0
  else
    let sign := signF16UI uiA in
    if sign || (exp =? 0x1F) then
      softfloat_raiseFlags softfloat_flag_invalid ;;;
      ret (if (exp =? 0x1F) && z2b frac then ui32_fromNaN
           else if sign then ui32_fromNegOverflow else ui32_fromPosOverflow)
    else
      let alignedSig := u64 ((frac .| 0x0400) << shiftDist) in
      when (exact && z2b (alignedSig .& 0x3FF)) (softfloat_raiseFlags softfloat_flag_inexact) ;;;
      ret (alignedSig >> 10).

Definition f16_to_i32_r_minMag (a : Z) (exact : bool) : M Z :=
  let uiA := a in
  let exp := expF16UI uiA in
  let frac := fracF16UI uiA in
  let shiftDist := i8 (exp - 0x0F) in
  if shiftDist <? 0 then
    when (exact && z2b (exp .| frac)) (softfloat_raiseFlags softfloat_flag_inexact) ;;;
    ret 0
  else
    let sign := signF16UI uiA in
    if exp =? 0x1F then
      softfloat_raiseFlags softfloat_flag_invalid ;;;
      ret (if (exp =? 0x1F) && z2b frac then i32_fromNaN
           else if sign then i32_fromNegOverflow else i32_fromPosOverflow)
    else
      let alignedSig := (frac .| 0x0400) << shiftDist in
      when (exact && z2b (alignedSig .& 0x3FF)) (softfloat_raiseFlags softfloat_flag_inexact) ;;;
      let alignedSig := alignedSig >> 10 in
      ret (if sign then - alignedSig else alignedSig).

Definition f16_to_ui64_r_minMag (a : Z) (exact : bool) : M Z :=
  let uiA := a in
  let exp := expF16UI uiA in
  let frac := fracF16UI uiA in
  let shiftDist := i8 (exp - 0x0F) in
  if shiftDist <? 0 then
    when (exact && z2b (exp .| frac)) (softfloat_raiseFlags softfloat_flag_inexact) ;;;
    ret 0
  else
    let sign := signF16UI uiA in
    if sign || (exp =? 0x1F) then
      softfloat_raiseFlags softfloat_flag_invalid ;;;
      ret (if (exp =? 0x1F) && z2b frac then ui64_fromNaN
           else if sign then ui64_fromNegOverflow else ui64_fromPosOverflow)
    else
      let alignedSig := u64 ((frac .| 0x0400) << shiftDist) in
      when (exact && z2b (alignedSig .& 0x3FF)) (softfloat_raiseFlags softfloat_flag_inexact) ;;;
      ret (alignedSig >> 10).

Definition f16_to_i64_r_minMag (a : Z) (exact : bool) : M Z :=
  let uiA := a in
  let exp := expF16UI uiA in
  let frac := fracF16UI uiA in
  let shiftDist := i8 (exp - 0x0F) in
  if shiftDist <? 0 then
    when (exact && z2b (exp .| frac)) (softfloat_raiseFlags softfloat_flag_inexact) ;;;
    ret 0
  else
    let sign := signF16UI uiA in
    if exp =? 0x1F then
      softfloat_raiseFlags softfloat_flag_invalid ;;;
      ret (if (exp =? 0x1F) && z2b frac then i64_fromNaN
           else if sign then i64_fromNegOverflow else i64_fromPosOverflow)
    else
      let alignedSig := (frac .| 0x0400) << shiftDist in
      when (exact && z2b (alignedSig .& 0x3FF)) (softfloat_raiseFlags softfloat_flag_inexact) ;;;
      let alignedSig := alignedSig >> 10 in
      ret (if sign then - alignedSig else alignedSig).

(** ** From integers *)
Definition ui32_to_f16 (a : Z) : M Z :=
  let shiftDist := i8 (softfloat_countLeadingZeros32 a - 21) in
  if 0 <=? shiftDist then
    ret (if z2b a then u16 (packToF16UI false (0x18 - shiftDist) (u64 (u64 a << shiftDist))) else 0)
  else
    let shiftDist := i8 (shiftDist + 4) in
    let sig :=
      if shiftDist <? 0 then (a >> (- shiftDist)) .| b2z (z2b (u32 (a << (shiftDist .& 31))))
      else u64 (u64 a << shiftDist) in
    softfloat_roundPackToF16 false (0x1C - shiftDist) sig.

Definition i32_to_f16 (a : Z) : M Z :=
  let sign := a <? 0 in
  let absA := if sign then u64 (- u64 a) else u64 a in
  let shiftDist := i8 (softfloat_countLeadingZeros32 (u32 absA) - 21) in
  if 0 <=? shiftDist then
    ret (if z2b a then u16 (packToF16UI sign (0x18 - shiftDist) (u64 (u64 absA << shiftDist))) else 0)
  else
    let shiftDist := i8 (shiftDist + 4) in
    let sig :=
      if shiftDist <? 0 then (absA >> (- shiftDist)) .| b2z (z2b (u32 (u64 (absA << (shiftDist .& 31)))))
      else u64 (u64 absA << shiftDist) in
    softfloat_roundPackToF16 sign (0x1C - shiftDist) sig.

Definition ui64_to_f16 (a : Z) : M Z :=
  let shiftDist := i8 (softfloat_countLeadingZeros64 a - 53) in
  if 0 <=? shiftDist then
    ret (if z2b a then u16 (packToF16UI false (0x18 - shiftDist) (u64 (u64 a << shiftDist))) else 0)
  else
    let shiftDist := i8 (shiftDist + 4) in
    let sig :=
      if shiftDist <? 0 then softfloat_shortShiftRightJam64 a (- shiftDist)
      else u64 (u64 a << shiftDist) in
    softfloat_roundPackToF16 false (0x1C - shiftDist) sig.

Definition i64_to_f16 (a : Z) : M Z :=
  let sign := a <? 0 in
  let absA := if sign then u64 (- u64 a) else u64 a in
  let shiftDist := i8 (softfloat_countLeadingZeros64 absA - 53) in
  if 0 <=? shiftDist then
    ret (if z2b a then u16 (packToF16UI sign (0x18 - shiftDist) (u64 (u64 absA << shiftDist))) else 0)
  else
    let shiftDist := i8 (shiftDist + 4) in
    let sig :=
      if shiftDist <? 0 then softfloat_shortShiftRightJam64 absA (- shiftDist)
      else u64 (u64 absA << shiftDist) in
    softfloat_roundPackToF16 sign (0x1C - shiftDist) sig.

(** ** Between the formats *)
Definition softfloat_f16UIToCommonNaN (uiA : Z) : M commonNaN :=
  when (softfloat_isSigNaNF16UI uiA) (softfloat_raiseFlags softfloat_flag_invalid) ;;;
  ret {| nan_sign := z2b (uiA >> 15); nan_v64 := u64 (u64 uiA << 54); nan_v0 := 0 |}.

Definition softfloat_commonNaNToF16UI (aPtr : commonNaN) : Z :=
  u64 (b2z (nan_sign aPtr) << 15) .| 0x7E00 .| (nan_v64 aPtr >> 54).

Definition f16_to_f32 (a : Z) : M Z :=
  let uiA := a in
  let sign := signF16UI uiA in
  let exp := expF16UI uiA in
  let frac := fracF16UI uiA in
  let pack exp frac := ret (u32 (packToF32UI sign (exp + 0x70) (u64 (frac << 13)))) in
  if exp =? 0x1F then
    if z2b frac then
      commonNaN <- softfloat_f16UIToCommonNaN uiA ;;
      ret (u32 (softfloat_commonNaNToF32UI commonNaN))
    else ret (u32 (packToF32UI sign 0xFF 0))
  else if negb (z2b exp) then
    if negb (z2b frac) then ret (u32 (packToF32UI sign 0 0))
    else
      let normExpSig := softfloat_normSubnormalF16Sig frac in
      pack (i8 (e8s16_exp normExpSig - 1)) (e8s16_sig normExpSig)
  else pack exp frac.

Definition f16_to_f64 (a : Z) : M Z :=
  let uiA := a in
  let sign := signF16UI uiA in
  let exp := expF16UI uiA in
  let frac := fracF16UI uiA in
  let pack exp frac := ret (packToF64UI sign (exp + 0x3F0) (u64 (frac << 42))) in
  if exp =? 0x1F then
    if z2b frac then
      commonNaN <- softfloat_f16UIToCommonNaN uiA ;;
      ret (softfloat_commonNaNToF64UI commonNaN)
    else ret (packToF64UI sign 0x7FF 0)
  else if negb (z2b exp) then
    if negb (z2b frac) then ret (packToF64UI sign 0 0)
    else
      let normExpSig := softfloat_normSubnormalF16Sig frac in
      pack (i8 (e8s16_exp normExpSig - 1)) (e8s16_sig normExpSig)
  else pack exp frac.

Definition f32_to_f16 (a : Z) : M Z :=
  let uiA := a in
  let sign := signF32UI uiA in
  let exp := expF32UI uiA in
  let frac := fracF32UI uiA in
  if exp =? 0xFF then
    if z2b frac then
      commonNaN <- softfloat_f32UIToCommonNaN uiA ;;
      ret (u16 (softfloat_commonNaNToF16UI commonNaN))
    else ret (u16 (packToF16UI sign 0x1F 0))
  else
    let frac16 := (frac >> 9) .| b2z (z2b (frac .& 0x1FF)) in
    if negb (z2b (exp .| frac16)) then ret (u16 (packToF16UI sign 0 0))
    else softfloat_roundPackToF16 sign (exp - 0x71) (frac16 .| 0x4000).

Definition f64_to_f16 (a : Z) : M Z :=
  let uiA := a in
  let sign := signF64UI uiA in
  let exp := expF64UI uiA in
  let frac := fracF64UI uiA in
  if exp =? 0x7FF then
    if z2b frac then
      commonNaN <- softfloat_f64UIToCommonNaN uiA ;;
      ret (u16 (softfloat_commonNaNToF16UI commonNaN))
    else ret (u16 (packToF16UI sign 0x1F 0))
  else
    let frac16 := softfloat_shortShiftRightJam64 frac 38 in
    if negb (z2b (exp .| frac16)) then ret (u16 (packToF16UI sign 0 0))
    else softfloat_roundPackToF16 sign (exp - 0x3F1) (frac16 .| 0x4000).

(** ** Rounding to an integral value *)
Definition f16_roundToInt (a roundingMode : Z) (exact : bool) : M Z :=
  let uiA := a in
  let exp := expF16UI uiA in
  if exp <=? 0xE then
    if negb (z2b (u16 (u64 (uiA << 1)))) then ret a
    else
      when exact (softfloat_raiseFlags softfloat_flag_inexact) ;;;
      let uiZ := uiA .& packToF16UI true 0 0 in
      let near_maxMag := if exp =? 0xE then uiZ .| packToF16UI false 0xF 0 else uiZ in
      let uiZ :=
        if roundingMode =? softfloat_round_near_even then
          if negb (z2b (fracF16UI uiA)) then uiZ else near_maxMag
        else if roundingMode =? softfloat_round_near_maxMag then near_maxMag
        else if roundingMode =? softfloat_round_min then
          if z2b uiZ then packToF16UI true 0xF 0 else uiZ
        else if roundingMode =? softfloat_round_max then
          if negb (z2b uiZ) then packToF16UI false 0xF 0 else uiZ
        else uiZ in
      ret (u16 uiZ)
  else if 0x19 <=? exp then
    if (exp =? 0x1F) && z2b (fracF16UI uiA) then
      uiZ <- softfloat_propagateNaNF16UI uiA 0 ;; ret (u16 uiZ)
    else ret a
  else
    let uiZ := uiA in
    let lastBitMask := u64 (1 << (0x19 - exp)) in
    let roundBitsMask := u64 (lastBitMask - 1) in
    let uiZ :=
      if roundingMode =? softfloat_round_near_maxMag then u64 (uiZ + (lastBitMask >> 1))
      else if roundingMode =? softfloat_round_near_even then
        let uiZ := u64 (uiZ + (lastBitMask >> 1)) in
        if negb (z2b (uiZ .& roundBitsMask)) then uiZ .& u64 (Z.lnot lastBitMask) else uiZ
      else if roundingMode =? (if signF16UI uiZ then softfloat_round_min else softfloat_round_max) then
        u64 (uiZ + roundBitsMask)
      else uiZ in
    let uiZ := uiZ .& u64 (Z.lnot roundBitsMask) in
    when (negb (uiZ =? uiA)) (when exact (softfloat_raiseFlags softfloat_flag_inexact)) ;;;
    ret (u16 uiZ).

(** ** Conversions between the 16-bit format and the wider ones *)
#[local] Close Scope M_scope.

(** ** NaNs *)
Lemma common_nan16 (a : Z) (s : env) : is_enc F16 a ->
  softfloat_f16UIToCommonNaN a s =
  ({| nan_sign := sign_of F16 a; nan_v64 := fracF16UI a * 2 ^ 54; nan_v0 := 0 |},
   raised_env (if signalingb F16 a then softfloat_flag_invalid else 0) s).
Proof.
  intros Ha. unfold softfloat_f16UIToCommonNaN, bind. rewrite softfloat_isSigNaNF16UI_spec, when_raise by assumption.
  destruct (F16_fields a Ha) as (Sa & _). unfold is_enc in Ha. change (2 * sign_weight F16) with (2 ^ 16) in Ha.
  unfold ret. f_equal. f_equal.
  - rewrite <- Sa. unfold signF16UI. now rewrite uwrap_small by lia.
  - unfold fracF16UI. rewrite (land_low _ 0x03FF 10), (uwrap_small 64 a), shl_mul by (reflexivity || lia). unfold uwrap. zdm.
Qed.

Lemma nan_to16 (sign : bool) (v v0 : Z) : 0 <= v < 2 ^ 64 ->
  u16 (softfloat_commonNaNToF16UI {| nan_sign := sign; nan_v64 := v; nan_v0 := v0 |}) =
  quiet F16 (with_sign F16 sign (inf_pattern F16 + v / 2 ^ 54)).
Proof.
  intros Hv. unfold softfloat_commonNaNToF16UI. cbn [nan_sign nan_v64]. rewrite shl_mul, shr_div by lia.
  rewrite (uwrap_small 64) by (destruct sign; cbn [Z.b2z]; lia).
  pose proof (pack_nan F16 sign (v / 2 ^ 54) ltac:(change (mb F16) with 10; zdm)) as E.
  change (inf_pattern F16 .| 2 ^ (mb F16 - 1)) with 0x7E00 in E. change (sign_weight F16) with (2 ^ 15) in E.
  rewrite E. apply uwrap_small, quiet16_bound. unfold is_enc, with_sign. change (sign_weight F16) with (2 ^ 15).
  change (inf_pattern F16) with (0x1F * 2 ^ 10). destruct sign; cbn [Z.b2z]; zdm.
Qed.

(** What becomes of a NaN, for a destination [g] and its last step [k]. *)
Lemma nan_from16 (g : format) (k : commonNaN -> Z) (a : Z) (s : env) : is_enc F16 a -> 0 <= mb g <= 64 ->
  (forall sign v v0, 0 <= v < 2 ^ 64 ->
    k {| nan_sign := sign; nan_v64 := v; nan_v0 := v0 |} = quiet g (with_sign g sign (inf_pattern g + v / 2 ^ (64 - mb g)))) ->
  (bind (softfloat_f16UIToCommonNaN a) (fun n => ret (k n))) s =
  (convert_nan F16 g a, raised_env (if signalingb F16 a then softfloat_flag_invalid else 0) s).
Proof.
  intros Ha Hg K. destruct (F16_fields a Ha) as (_ & _ & Hm & P & _). unfold bind, ret. rewrite common_nan16 by assumption.
  rewrite K by lia. f_equal. symmetry. apply (convert_nan_fields F16 g a (expF16UI a)); [change (mb F16) with 10; lia|lia|exact P|exact Hm].
Qed.

(** ** Widening *)

(** The fields that the code repacks, for an operand other than zero. *)
Lemma widened16 (e m : Z) (n := softfloat_normSubnormalF16Sig m) :
  0 <= e < 0x1F -> 0 <= m < 2 ^ 10 -> z2b e || z2b m = true ->
  exists e' m', (if z2b e then (e, m) else (i8 (e8s16_exp n - 1), e8s16_sig n)) = (e', m') /\
    (1 <= e' <= 0x1E /\ 0 <= m' < 2 ^ 10 /\
     mag F16 (e * 2 ^ 10 + m) = (IZR (2 ^ 10 + m') * pow2 (e' - 1 + emin F16))%R \/
     -10 <= e' <= -1 /\ 2 ^ 10 <= m' < 2 ^ 11 /\
     mag F16 (e * 2 ^ 10 + m) = (IZR m' * pow2 (e' + emin F16))%R).
Proof.
  intros He Hm O. destruct (z2b e) eqn:Q.
  - exists e, m. split; [reflexivity|]. left. unfold z2b in Q. apply negb_true_iff in Q. rewrite mag16_fields, Q by lia.
    apply Z.eqb_neq in Q. replace (Z.max e 1) with e by lia. repeat split; lia || assumption.
  - destruct (z2b m) eqn:Q'; [|discriminate]. unfold z2b in Q, Q'. apply negb_false_iff, Z.eqb_eq in Q. apply negb_true_iff, Z.eqb_neq in Q'.
    destruct (softfloat_normSubnormalF16Sig_spec m ltac:(lia)) as (B1 & B2 & X). fold n in B1, B2, X.
    rewrite swrap_small by fmt_lia. exists (e8s16_exp n - 1), (e8s16_sig n). split; [reflexivity|]. right.
    split; [lia|]. split; [assumption|]. rewrite mag16_fields, Q by lia. cbn [Z.eqb]. exact X.
Qed.

(** Shifting the fields into their places and biasing the exponent anew is exact. *)
Lemma repack16 (g : format) {V : ValidFormat g} (e m k : Z) (x : R) (s : env) (sign : bool) :
  mb g = 10 + k -> 0 <= k -> emin g = emin F16 - k - (bias g - bias F16) -> 12 <= bias g - bias F16 -> bias g - bias F16 + 32 < 2 ^ eb g ->
  1 <= e <= 0x1E /\ 0 <= m < 2 ^ 10 /\ x = (IZR (2 ^ 10 + m) * pow2 (e - 1 + emin F16))%R \/
  -10 <= e <= -1 /\ 2 ^ 10 <= m < 2 ^ 11 /\ x = (IZR m * pow2 (e + emin F16))%R ->
  let b := (e + (bias g - bias F16)) * 2 ^ mb g + m * 2 ^ k in
  0 <= b < inf_pattern g /\ rounded_result g s sign x (with_sign g sign b, s).
Proof.
  intros Hk K0 Em B1 B2 H b. assert (P : 0 < 2 ^ k) by (apply Z.pow_pos_nonneg; lia).
  assert (E : 2 ^ mb g = 2 ^ 10 * 2 ^ k) by (rewrite Hk, Z.pow_add_r by lia; reflexivity).
  assert (N : exists q w, b = q * 2 ^ mb g + w /\ 0 <= q /\ q + 2 < 2 ^ eb g - 1 /\ 2 ^ mb g <= w < 2 * 2 ^ mb g /\ x = (IZR w * pow2 (q + emin g))%R).
  { destruct H as [(He & Hm & ->)|(He & Hm & ->)].
    - exists (e + (bias g - bias F16) - 1), ((2 ^ 10 + m) * 2 ^ k). split; [unfold b; rewrite E; ring|]. split; [lia|]. split; [lia|]. split; [nia|].
      rewrite mult_IZR, <- (pow2_IZR k), Rmult_assoc, <- pow2_add by lia. do 2 f_equal. lia.
    - exists (e + (bias g - bias F16)), (m * 2 ^ k). split; [unfold b; reflexivity|]. split; [lia|]. split; [lia|]. split; [nia|].
      rewrite mult_IZR, <- (pow2_IZR k), Rmult_assoc, <- pow2_add by lia. do 2 f_equal. lia. }
  destruct N as (q & w & -> & Hq & Hq2 & Hw & ->). unfold inf_pattern.
  assert (F : 0 <= q * 2 ^ mb g + w < (2 ^ eb g - 1) * 2 ^ mb g) by nia. split; [exact F|].
  apply exact_result; [assumption|exact F|]. apply (mag_pack g); lia.
Qed.

Lemma f16_to_f32_spec (a : Z) (s : env) : is_enc F16 a -> convert_spec F16 F32 s a (f16_to_f32 a s).
Proof.
  intros Ha. unfold convert_spec, f16_to_f32.
  pose proof (nan_from16 F32 (fun n => u32 (softfloat_commonNaNToF32UI n)) a s Ha ltac:(change (mb F32) with 23; lia) (fun sg v v0 => nan_to32 sg v v0)) as WN.
  destruct (F16_fields a Ha) as (Sa & Ea & Ma & Pa & Wa). destruct (classes F16 a _ _ Ea Ma Pa) as (-> & -> & _).
  rewrite Sa, Pa. cbv zeta. change (2 ^ eb F16 - 1) with 0x1F.
  set (e := expF16UI a) in *. set (m := fracF16UI a) in *. set (sgn := sign_of F16 a). clearbody e m sgn.
  destruct (Z.eqb_spec e 0x1F) as [E|E]; cbn [andb].
  { destruct (z2b m); cbn [negb]; [exact WN|]. unfold ret. now rewrite infinity32_eq. }
  destruct (z2b e || z2b m) eqn:O.
  - destruct (widened16 e m ltac:(lia) Ma O) as (e' & m' & D & H).
    pose proof (repack16 F32 e' m' 13 _ s sgn eq_refl ltac:(lia) eq_refl ltac:(discriminate) eq_refl H) as [B R].
    change (bias F32 - bias F16) with 0x70 in *. change (mb F32) with 23 in *. change (inf_pattern F32) with (0xFF * 2 ^ 23) in B.
    assert (Hb : - 10 <= e' <= 0x1E /\ 0 <= m' < 2 ^ 11) by (clear - H; lia).
    assert (T : rounded_result F32 s sgn (mag F16 (e * 2 ^ 10 + m)) (u32 (packToF32UI sgn (e' + 0x70) (u64 (m' << 13))), s))
      by (rewrite shl_mul, (uwrap_small 64), packToF32UI_eq by lia; exact R).
    destruct (z2b e); [|destruct (z2b m); [|discriminate]]; cbn [negb]; injection D as <- <-; exact T.
  - apply orb_false_iff in O as [Q Q']. rewrite Q, Q'. cbn [negb]. apply zero_result.
    apply null16. now rewrite Q, Q'.
Qed.

Lemma f16_to_f64_spec (a : Z) (s : env) : is_enc F16 a -> convert_spec F16 F64 s a (f16_to_f64 a s).
Proof.
  intros Ha. unfold convert_spec, f16_to_f64.
  pose proof (nan_from16 F64 softfloat_commonNaNToF64UI a s Ha ltac:(change (mb F64) with 52; lia) (fun sg v v0 => nan_to64 sg v v0)) as WN.
  destruct (F16_fields a Ha) as (Sa & Ea & Ma & Pa & Wa). destruct (classes F16 a _ _ Ea Ma Pa) as (-> & -> & _).
  rewrite Sa, Pa. cbv zeta. change (2 ^ eb F16 - 1) with 0x1F.
  set (e := expF16UI a) in *. set (m := fracF16UI a) in *. set (sgn := sign_of F16 a). clearbody e m sgn.
  destruct (Z.eqb_spec e 0x1F) as [E|E]; cbn [andb].
  { destruct (z2b m); cbn [negb]; [exact WN|]. unfold ret. now rewrite infinity64_eq. }
  destruct (z2b e || z2b m) eqn:O.
  - destruct (widened16 e m ltac:(lia) Ma O) as (e' & m' & D & H).
    pose proof (repack16 F64 e' m' 42 _ s sgn eq_refl ltac:(lia) eq_refl ltac:(discriminate) eq_refl H) as [B R].
    change (bias F64 - bias F16) with 0x3F0 in *. change (mb F64) with 52 in *. change (inf_pattern F64) with (0x7FF * 2 ^ 52) in B.
    assert (Hb : - 10 <= e' <= 0x1E /\ 0 <= m' < 2 ^ 11) by (clear - H; lia).
    assert (T : rounded_result F64 s sgn (mag F16 (e * 2 ^ 10 + m)) (packToF64UI sgn (e' + 0x3F0) (u64 (m' << 42)), s))
      by (rewrite shl_mul, (uwrap_small 64), packToF64UI_eq by lia; exact R).
    destruct (z2b e); [|destruct (z2b m); [|discriminate]]; cbn [negb]; injection D as <- <-; exact T.
  - apply orb_false_iff in O as [Q Q']. rewrite Q, Q'. cbn [negb]. apply zero64_result.
    apply null16. now rewrite Q, Q'.
Qed.

(** ** Narrowing *)

(** ** Narrowing *)

(** The common end of the two conversions: all but 14 bits of the fraction go
    into the sticky bit. *)
Lemma narrowed16 (f : format) {V : ValidFormat f} (k c e m : Z) (sgn : bool) (s : env) :
  1 <= k <= 42 -> mb f = 14 + k -> emin f = - 27 - k - c -> 100 <= c <= 2000 -> 0 <= e < 0x800 -> 0 <= m < 2 ^ (14 + k) ->
  rounded_result F16 s sgn (mag f (e * 2 ^ mb f + m))
    ((if negb (z2b (e .| jam m k)) then ret (u16 (packToF16UI sgn 0 0))
      else softfloat_roundPackToF16 sgn (e - c) (jam m k .| 0x4000)) s).
Proof.
  intros Hk Hmb Hemin Hc He Hm. assert (P : 0 < 2 ^ k) by (apply Z.pow_pos_nonneg; lia).
  rewrite Z.pow_add_r in Hm by lia.
  assert (J : 0 <= jam m k < 2 ^ 14 /\ (jam m k = 0 <-> m = 0)).
  { rewrite jam_eq by lia. assert (m / 2 ^ k < 2 ^ 14) by (apply Z.div_lt_upper_bound; lia).
    assert (0 <= m / 2 ^ k) by (apply Z.div_pos; lia). pose proof (Z.div_mod m (2 ^ k) ltac:(lia)).
    destruct (Z.eqb_spec (m mod 2 ^ k) 0) as [E|E]; [split; [lia|nia]|]. set (q := m / 2 ^ k) in *. clearbody q.
    pose proof (Z.mod_pos_bound m (2 ^ k) ltac:(lia)). split; [zdm|]. split; [zdm|]. intros ->. now rewrite Z.mod_0_l in E by lia. }
  rewrite z2b_lor by lia. rewrite (mag_fields f) by (rewrite ?Hmb, ?Z.pow_add_r; lia).
  assert (L : jam m k .| 0x4000 = 2 ^ 14 + jam m k)
    by (rewrite Z.lor_comm; change 0x4000 with (1 * 2 ^ 14); rewrite lor_disjoint; lia).
  rewrite L. clear L. unfold z2b. destruct (Z.eqb_spec e 0) as [->|N]; cbn [negb orb].
  - destruct (Z.eqb_spec (jam m k) 0) as [Q|Q]; cbn [negb].
    + assert (m = 0) as -> by lia. apply zero_result16. ring.
    + set (j := jam m k) in *. clearbody j.
      assert (H : rounded_result F16 s sgn (IZR (2 ^ 14 + j) * pow2 (- c - 28)) (softfloat_roundPackToF16 sgn (0 - c) (2 ^ 14 + j) s)).
      { apply softfloat_roundPackToF16_rounds with (k := 0) (y := IZR (2 ^ 14 + j)); try lia; [apply (same_exact 1)|].
        do 2 f_equal. change (emin F16) with (-24). lia. }
      assert (T : forall w n t, 0 < w < 2 ^ n -> 0 <= n -> n + t <= -25 -> (0 < IZR w * pow2 t < pow2 (emin F16 - 1))%R).
      { intros w n t Hw Hn Ht. pose proof (tiny_bound w n (t + 25) Hw Hn ltac:(lia)) as [T1 T2].
        replace t with (t + 25 + -25) by lia. rewrite pow2_add, <- Rmult_assoc. change (emin F16 - 1) with (-25).
        pose proof (pow2_pos (-25)). split; [now apply Rmult_lt_0_compat|].
        rewrite <- (Rmult_1_l (pow2 (-25))) at 2. now apply Rmult_lt_compat_r. }
      rewrite (rounded_result_unique F16 _ _ _ _ _ H (tiny_rounded F16 s sgn _ (T (2 ^ 14 + j) 15 (- c - 28) ltac:(lia) ltac:(lia) ltac:(lia)))).
      apply (tiny_rounded F16). apply T with (14 + k); [|lia|lia]. rewrite Z.pow_add_r by lia. lia.
  - assert (S : same (2 ^ 1) (2 ^ 14 + jam m k) (IZR (2 ^ 14) + IZR m * pow2 (- k))).
    { apply same_add; [exists (2 ^ 13); reflexivity|]. apply same_pow with (Z.max 1 (0 - k)); [lia|].
      apply same_jam; try lia. apply (same_exact 1). }
    apply softfloat_roundPackToF16_rounds with (k := 1) (y := (IZR (2 ^ 14) + IZR m * pow2 (- k))%R); try lia; [exact S|].
    replace (IZR (2 ^ 14) + IZR m * pow2 (- k))%R with (IZR (2 ^ mb f + m) * pow2 (- k))%R.
    + rewrite Rmult_assoc, <- pow2_add. do 2 f_equal. change (emin F16) with (-24). lia.
    + rewrite plus_IZR, Rmult_plus_distr_r. f_equal. rewrite Hmb, pow2_opp, (pow2_IZR k), Z.pow_add_r, mult_IZR by lia.
      field. apply not_0_IZR. lia.
Qed.

Lemma nan_into16 (common : Z -> M commonNaN) (f : format) (e m a : Z) (s : env) : 0 <= mb f <= 64 ->
  common a s = ({| nan_sign := sign_of f a; nan_v64 := m * 2 ^ (64 - mb f); nan_v0 := 0 |},
                raised_env (if signalingb f a then softfloat_flag_invalid else 0) s) ->
  pattern_of f a = e * 2 ^ mb f + m -> 0 <= m < 2 ^ mb f ->
  (bind (common a) (fun n => ret (u16 (softfloat_commonNaNToF16UI n)))) s =
  (convert_nan f F16 a, raised_env (if signalingb f a then softfloat_flag_invalid else 0) s).
Proof.
  intros Hf C P Hm. unfold bind, ret. rewrite C. rewrite nan_to16.
  - f_equal. symmetry. apply (convert_nan_fields f F16 a e); [lia|change (mb F16) with 10; lia|exact P|exact Hm].
  - assert (0 < 2 ^ (64 - mb f)) by (apply Z.pow_pos_nonneg; lia).
    replace (2 ^ 64) with (2 ^ mb f * 2 ^ (64 - mb f)) by (rewrite <- Z.pow_add_r by lia; f_equal; lia). nia.
Qed.

Lemma f32_to_f16_spec (a : Z) (s : env) : is_enc F32 a -> convert_spec F32 F16 s a (f32_to_f16 a s).
Proof.
  intros Ha. unfold convert_spec, f32_to_f16.
  destruct (F32_fields a Ha) as (Sa & Ea & Ma & Pa & Wa). destruct (classes F32 a _ _ Ea Ma Pa) as (-> & -> & _).
  pose proof (nan_into16 softfloat_f32UIToCommonNaN F32 _ _ a s ltac:(change (mb F32) with 23; lia) (common_nan32 a s Ha) Pa Ma) as WN.
  rewrite Sa, Pa. cbv zeta. change (2 ^ eb F32 - 1) with 0xFF.
  set (e := expF32UI a) in *. set (m := fracF32UI a) in *. set (sgn := sign_of F32 a). clearbody e m sgn.
  destruct (Z.eqb_spec e 0xFF) as [E|E]; cbn [andb].
  { destruct (z2b m); cbn [negb]; [exact WN|]. unfold ret. now rewrite infinity16_eq. }
  rewrite (land_low _ 0x1FF 9) by (reflexivity || lia).
  change ((m >> 9) .| b2z (z2b (m mod 2 ^ 9))) with (jam m 9). apply (narrowed16 F32 9 0x71); try lia; reflexivity.
Qed.

Lemma f64_to_f16_spec (a : Z) (s : env) : is_enc F64 a -> convert_spec F64 F16 s a (f64_to_f16 a s).
Proof.
  intros Ha. unfold convert_spec, f64_to_f16.
  destruct (F64_fields a Ha) as (Sa & Ea & Ma & Pa & Wa). destruct (classes F64 a _ _ Ea Ma Pa) as (-> & -> & _).
  pose proof (nan_into16 softfloat_f64UIToCommonNaN F64 _ _ a s ltac:(change (mb F64) with 52; lia) (common_nan64 a s Ha) Pa Ma) as WN.
  rewrite Sa, Pa. cbv zeta. change (2 ^ eb F64 - 1) with 0x7FF.
  set (e := expF64UI a) in *. set (m := fracF64UI a) in *. set (sgn := sign_of F64 a). clearbody e m sgn.
  destruct (Z.eqb_spec e 0x7FF) as [E|E]; cbn [andb].
  { destruct (z2b m); cbn [negb]; [exact WN|]. unfold ret. now rewrite infinity16_eq. }
  rewrite softfloat_shortShiftRightJam64_jam by lia. apply (narrowed16 F64 38 0x3F1); try lia; reflexivity.
Qed.
