(* ===== verification/F16Integers.v ===== *)
(** The 16-bit format and the integers: conversions to them (rounding, invalid operations
    and the inexact flag), conversions from them, and rounding to an integral value. *)
From Stdlib Require Import ZArith Bool Lia Reals Lra.
From S2P Require Import Prelude Ieee Rounding RoundPack Softfloat Primitives Machine Contract Convert ToInt Truncate FromInt Integral F16 F16Round F16Arith F16Mul F16Convert.
Local Open Scope Z_scope.
Local Open Scope c_scope.

(** ** 16-bit conversions to integers *)

Lemma f16_view (a : Z) (e := expF16UI a) (m := fracF16UI a) (w := if e =? 0 then m else 2 ^ 10 + m) : is_enc F16 a ->
  0 <= e < 2 ^ 5 /\ 0 <= m < 2 ^ 10 /\ 0 <= w < 2 ^ 11 /\ (e <> 0 -> w = 2 ^ 10 + m /\ m .| 0x0400 = w) /\
  mag F16 (pattern_of F16 a) = (IZR w * pow2 (- (25 - Z.max e 1)))%R /\ z2b (e .| m) = negb (w =? 0) /\
  (e < 0x1F -> is_finite F16 a) /\ (is_finite F16 a -> e < 0x1F).
Proof.
  intros Ha. destruct (F16_fields a Ha) as (_ & He & Hm & P & _). fold e in He, P. fold m in Hm, P.
  split; [exact He|]. split; [exact Hm|]. split; [unfold w; destruct (Z.eqb_spec e 0); lia|]. split.
  { intros N. unfold w. destruct (Z.eqb_spec e 0); [lia|]. split; [reflexivity|now apply lead16]. }
  split; [|split; [|split]].
  - rewrite P, mag16_fields by lia. fold w. do 2 f_equal. change (emin F16) with (-24). lia.
  - rewrite z2b_lor by lia. unfold z2b, w. destruct (Z.eqb_spec e 0); cbn [negb orb]; [reflexivity|lia].
  - intros L. split; [assumption|]. rewrite P. change (inf_pattern F16) with (0x1F * 2 ^ 10). lia.
  - intros [_ K]. rewrite P in K. change (inf_pattern F16) with (0x1F * 2 ^ 10) in K. lia.
Qed.

(** Two numbers in the first interval. *)
Lemma same_first (g s : Z) (y : R) : 0 < g -> 0 < s < g -> (0 < y < IZR g)%R -> same g s y.
Proof.
  intros Hg Hs Hy m. assert (C : m <= 0 \/ 1 <= m) by lia. destruct C as [C|C].
  - assert (IZR (m * g) <= 0)%R by (apply IZR_le; nia). split; split; intros; [lra|nia|nia|lra].
  - assert (IZR g <= IZR (m * g))%R by (apply IZR_le; nia). split; split; intros; [nia|lra|lra|nia].
Qed.

(** The fixed-point number with 12 fraction bits. *)
Definition fixed16 (a : Z) : Z :=
  let e := expF16UI a in
  let w := if e =? 0 then fracF16UI a else 2 ^ 10 + fracF16UI a in
  if 0 <? e - 13 then w * 2 ^ (e - 13) else w.

Lemma fixed16_spec (a : Z) : is_enc F16 a -> expF16UI a < 0x1F ->
  0 <= fixed16 a < 2 ^ 28 /\ (expF16UI a < 25 -> fixed16 a < 2 ^ 23) /\
  same (2 ^ 11) (fixed16 a) (mag F16 (pattern_of F16 a) * pow2 12).
Proof.
  intros Ha Hf. destruct (f16_view a Ha) as (He & Hm & Hw & Hn & -> & _). unfold fixed16.
  set (e := expF16UI a) in *. set (m := fracF16UI a) in *. set (w := if e =? 0 then m else 2 ^ 10 + m) in *. clearbody w m.
  rewrite Rmult_assoc, <- pow2_add. destruct (Z.ltb_spec 0 (e - 13)) as [L|L].
  - assert (P : 0 < 2 ^ (e - 13) <= 2 ^ 17) by (split; [apply Z.pow_pos_nonneg|apply Z.pow_le_mono_r]; lia).
    split; [nia|]. split.
    { intros L2. assert (2 ^ (e - 13) <= 2 ^ 11) by (apply Z.pow_le_mono_r; lia). nia. }
    replace (- (25 - Z.max e 1) + 12) with (e - 13) by lia. rewrite pow2_IZR, <- mult_IZR by lia.
    apply (same_pow 0); [lia|]. apply (same_exact 1).
  - split; [lia|]. split; [lia|]. destruct (Z.eq_dec w 0) as [->|N].
    + rewrite Rmult_0_l. apply same_exact.
    + assert (0 < IZR w < IZR (2 ^ 11))%R by (split; apply IZR_lt; lia).
      assert (0 < pow2 (- (25 - Z.max e 1) + 12) <= 1)%R by (split; [auto|rewrite <- pow2_0; apply pow2_le; lia]).
      apply same_first; [lia|lia|]. nra.
Qed.

Lemma fixed16_fixed12 (a : Z) : is_enc F16 a -> expF16UI a < 0x1F -> fixed12 F16 a (fixed16 a).
Proof.
  intros Ha Hf. destruct (fixed16_spec a Ha Hf) as (B & _ & S). split; [lia|]. left. split; [|exact S]. now apply (f16_view a Ha).
Qed.

(** An integral operand. *)
Lemma integral_to_int (f : format) (lo hi code a n v : Z) (d : direction) (exact : bool) (s : env) :
  is_finite f a -> mag f (pattern_of f a) = IZR n -> v = (if sign_of f a then - n else n) -> lo <= v <= hi ->
  to_int_spec lo hi code f s d exact a (v, s).
Proof.
  intros [Ha Fa] M -> Hv. unfold to_int_spec, nanb, infb.
  replace (inf_pattern f <? pattern_of f a) with false by lia. replace (pattern_of f a =? inf_pattern f) with false by lia.
  cbn [orb]. exists n. rewrite M. split; [apply rint_IZR|]. cbv zeta. replace (_ && _) with true by lia.
  exists 0. rewrite raised_env_0. split; [reflexivity|]. right. tauto.
Qed.

Lemma large16 (a : Z) : is_enc F16 a -> 25 <= expF16UI a < 0x1F ->
  let n := (fracF16UI a .| 0x0400) * 2 ^ (expF16UI a - 0x19) in
  is_finite F16 a /\ mag F16 (pattern_of F16 a) = IZR n /\ 0 <= n < 2 ^ 16.
Proof.
  intros Ha He. destruct (f16_view a Ha) as (_ & _ & Hw & Hn & M & _ & Fin & _). destruct (Hn ltac:(lia)) as [_ W]. rewrite W.
  set (w := if _ =? 0 then _ else _) in *. clearbody w. split; [apply Fin; lia|].
  assert (P : 0 < 2 ^ (expF16UI a - 0x19) <= 2 ^ 5) by (split; [apply Z.pow_pos_nonneg|apply Z.pow_le_mono_r]; lia).
  split; [|nia]. rewrite M, mult_IZR, <- pow2_IZR by lia. do 2 f_equal. lia.
Qed.

(** The shifts of the code. *)
Lemma fixed16_code (a : Z) : is_enc F16 a -> expF16UI a < 0x1F ->
  (if z2b (expF16UI a)
   then (if 0 <? i8 (expF16UI a - 0x0D) then (fracF16UI a .| 0x0400) << i8 (expF16UI a - 0x0D) else fracF16UI a .| 0x0400)
   else fracF16UI a) = fixed16 a /\
  (if z2b (expF16UI a)
   then (if 0 <? i8 (expF16UI a - 0x0D) then u64 ((fracF16UI a .| 0x0400) << i8 (expF16UI a - 0x0D)) else fracF16UI a .| 0x0400)
   else fracF16UI a) = fixed16 a.
Proof.
  intros Ha Hf. destruct (f16_view a Ha) as (He & Hm & Hw & Hn & _). pose proof (fixed16_spec a Ha Hf) as (B & _).
  unfold fixed16 in *. unfold z2b.
  rewrite (swrap_small 8 (expF16UI a - 0x0D)) by fmt_lia.
  destruct (Z.eqb_spec (expF16UI a) 0) as [E|E]; cbn [negb].
  - rewrite E. change (0 <? 0 - 13) with false. tauto.
  - destruct (Hn E) as [_ L]. rewrite L. destruct (Z.ltb_spec 0 (expF16UI a - 13)); [|tauto].
    rewrite shl_mul by lia. rewrite uwrap_small by lia. tauto.
Qed.

(** NaN and infinity. *)
Lemma not_finite16 (a lo hi code k : Z) (d : direction) (exact : bool) (s : env) : is_enc F16 a -> expF16UI a = 0x1F -> k = code ->
  to_int_spec lo hi code F16 s d exact a
    (bind (softfloat_raiseFlags softfloat_flag_invalid) (fun _ => ret k) s).
Proof.
  intros Ha E ->. apply (overflow_to_int F16); [assumption|]. intros Fa. apply (f16_view a Ha) in Fa. lia.
Qed.

Lemma small_or_large16 (a : Z) (sd := i8 (expF16UI a - 0x19)) : is_enc F16 a -> sd = expF16UI a - 0x19.
Proof. intros Ha. subst sd. destruct (f16_view a Ha) as (He & _). apply swrap_small; fmt_lia. Qed.

Lemma f16_to_ui32_spec (a mode : Z) (exact : bool) (s : env) : is_enc F16 a ->
  to_int_spec 0 (2 ^ 32 - 1) 0xFFFFFFFF F16 s (mag_direction mode (sign_of F16 a)) exact a (f16_to_ui32 a mode exact s).
Proof.
  intros Ha. unfold f16_to_ui32. rewrite (proj1 (F16_fields a Ha)). cbv zeta. pose proof (f16_view a Ha) as (He & _).
  destruct (Z.eqb_spec (expF16UI a) 0x1F) as [E|E]; [apply not_finite16; [assumption|assumption|codes]|].
  destruct (fixed16_code a Ha ltac:(lia)) as [_ C]. pose proof (fixed16_fixed12 a Ha ltac:(lia)) as F.
  assert (R : to_int_spec 0 (2 ^ 32 - 1) 0xFFFFFFFF F16 s (mag_direction mode (sign_of F16 a)) exact a
                (softfloat_roundToUI32 (sign_of F16 a) (fixed16 a) mode exact s)).
  { rewrite softfloat_roundToUI32_eq by apply F. apply fixed12_to_int; try assumption; lia || typeclasses eauto. }
  rewrite <- C in R. rewrite small_or_large16 by assumption. destruct (z2b (expF16UI a)); [|exact R].
  destruct (Z.leb_spec 0 (expF16UI a - 0x19)) as [L|L]; [|exact R].
  destruct (sign_of F16 a) eqn:Sg; cbn [andb negb]; [rewrite <- Sg in *; exact R|].
  destruct (large16 a Ha ltac:(lia)) as (Fa & M & B). rewrite shl_mul, uwrap_small by lia.
  eapply integral_to_int; [exact Fa|exact M|rewrite Sg; reflexivity|lia].
Qed.

Lemma f16_to_i32_spec (a mode : Z) (exact : bool) (s : env) : is_enc F16 a ->
  to_int_spec (- 2 ^ 31) (2 ^ 31 - 1) (- 2 ^ 31) F16 s (mag_direction mode (sign_of F16 a)) exact a (f16_to_i32 a mode exact s).
Proof.
  intros Ha. unfold f16_to_i32. rewrite (proj1 (F16_fields a Ha)). cbv zeta. pose proof (f16_view a Ha) as (He & _).
  destruct (Z.eqb_spec (expF16UI a) 0x1F) as [E|E]; [apply not_finite16; [assumption|assumption|codes]|].
  destruct (fixed16_code a Ha ltac:(lia)) as [C _]. pose proof (fixed16_fixed12 a Ha ltac:(lia)) as F.
  assert (R : to_int_spec (- 2 ^ 31) (2 ^ 31 - 1) (- 2 ^ 31) F16 s (mag_direction mode (sign_of F16 a)) exact a
                (softfloat_roundToI32 (sign_of F16 a) (u64 (fixed16 a)) mode exact s)).
  { rewrite uwrap_small by (destruct F; lia). rewrite softfloat_roundToI32_eq by apply F. apply fixed12_to_int; try assumption; lia || typeclasses eauto. }
  rewrite <- C in R. rewrite small_or_large16 by assumption. destruct (z2b (expF16UI a)); [|exact R].
  destruct (Z.leb_spec 0 (expF16UI a - 0x19)) as [L|L]; [|exact R].
  destruct (large16 a Ha ltac:(lia)) as (Fa & M & B). rewrite shl_mul by lia.
  eapply integral_to_int; [exact Fa|exact M|reflexivity|destruct (sign_of F16 a); lia].
Qed.

Lemma f16_to_ui64_spec (a mode : Z) (exact : bool) (s : env) : is_enc F16 a ->
  to_int_spec 0 (2 ^ 64 - 1) 0xFFFFFFFFFFFFFFFF F16 s (mag_direction mode (sign_of F16 a)) exact a (f16_to_ui64 a mode exact s).
Proof.
  intros Ha. unfold f16_to_ui64. rewrite (proj1 (F16_fields a Ha)). cbv zeta. pose proof (f16_view a Ha) as (He & _).
  destruct (Z.eqb_spec (expF16UI a) 0x1F) as [E|E]; [apply not_finite16; [assumption|assumption|codes]|].
  destruct (fixed16_code a Ha ltac:(lia)) as [_ C]. destruct (fixed16_spec a Ha ltac:(lia)) as (B & _ & S).
  assert (R : to_int_spec 0 (2 ^ 64 - 1) 0xFFFFFFFFFFFFFFFF F16 s (mag_direction mode (sign_of F16 a)) exact a
                (softfloat_roundToUI64 (sign_of F16 a) (fixed16 a >> 12) (u64 (fixed16 a << 52)) mode exact s)).
  { assert (F : fixed64 F16 a (fixed16 a / 2 ^ 12) (u64 (fixed16 a * 2 ^ 52))).
    { split; [now apply (f16_view a Ha); lia|]. split; [zdm|]. split; [apply uwrap_bound; lia|].
      replace (fixed16 a / 2 ^ 12 * 2 ^ 64 + u64 (fixed16 a * 2 ^ 52)) with (fixed16 a * 2 ^ 52) by (unfold uwrap; zdm).
      replace (mag F16 (pattern_of F16 a) * pow2 64)%R with (mag F16 (pattern_of F16 a) * pow2 12 * pow2 52)%R
        by (rewrite Rmult_assoc, <- pow2_add; reflexivity).
      apply (same_shl 11 52); [lia|lia|exact S]. }
    rewrite shr_div, shl_mul, softfloat_roundToUI64_eq by (lia || apply F). now apply fixed64_to_int. }
  rewrite <- C in R. rewrite small_or_large16 by assumption. destruct (z2b (expF16UI a)); [|exact R].
  destruct (Z.leb_spec 0 (expF16UI a - 0x19)) as [L|L]; [|exact R].
  destruct (sign_of F16 a) eqn:Sg; cbn [andb negb]; [rewrite <- Sg in *; exact R|].
  destruct (large16 a Ha ltac:(lia)) as (Fa & M & B'). rewrite shl_mul, uwrap_small by lia.
  eapply integral_to_int; [exact Fa|exact M|rewrite Sg; reflexivity|lia].
Qed.

(** The code rounds to 32 bits, which every 16-bit number fits. *)
Lemma f16_to_i64_spec (a mode : Z) (exact : bool) (s : env) : is_enc F16 a ->
  to_int_spec (- 2 ^ 63) (2 ^ 63 - 1) (- 2 ^ 63) F16 s (mag_direction mode (sign_of F16 a)) exact a (f16_to_i64 a mode exact s).
Proof.
  intros Ha. unfold f16_to_i64. rewrite (proj1 (F16_fields a Ha)). cbv zeta. pose proof (f16_view a Ha) as (He & _).
  destruct (Z.eqb_spec (expF16UI a) 0x1F) as [E|E]; [apply not_finite16; [assumption|assumption|codes]|].
  destruct (fixed16_code a Ha ltac:(lia)) as [C _]. pose proof (fixed16_fixed12 a Ha ltac:(lia)) as F.
  destruct (fixed16_spec a Ha ltac:(lia)) as (B & _).
  assert (R : to_int_spec (- 2 ^ 63) (2 ^ 63 - 1) (- 2 ^ 63) F16 s (mag_direction mode (sign_of F16 a)) exact a
                (softfloat_roundToI32 (sign_of F16 a) (u64 (fixed16 a)) mode exact s)).
  { rewrite uwrap_small by lia. rewrite softfloat_roundToI32_eq by apply F.
    set (d := mag_direction mode _). set (inexact := exact && _).
    assert (D : deliver (- 2 ^ 31) (2 ^ 31 - 1) (- 2 ^ 31) (sign_of F16 a) (round_sig d 12 (fixed16 a)) inexact s =
                deliver (- 2 ^ 63) (2 ^ 63 - 1) (- 2 ^ 63) (sign_of F16 a) (round_sig d 12 (fixed16 a)) inexact s).
    { pose proof (round_sig_between 12 (fixed16 a) ltac:(lia) d) as N. assert (fixed16 a / 2 ^ 12 < 2 ^ 16) by zdm. assert (0 <= fixed16 a / 2 ^ 12) by zdm.
      set (n := round_sig d 12 (fixed16 a)) in *. clearbody n. unfold deliver.
      replace ((- 2 ^ 31 <=? _) && _) with true by (destruct (sign_of F16 a); lia).
      replace ((- 2 ^ 63 <=? _) && _) with true by (destruct (sign_of F16 a); lia). reflexivity. }
    rewrite D. apply deliver_to_int with (y := (mag F16 (pattern_of F16 a) * pow2 12)%R);
      [now apply (f16_view a Ha); lia|lia|apply fixed16_spec; [assumption|lia]|rewrite pow2_opp; field; auto]. }
  rewrite <- C in R. rewrite small_or_large16 by assumption. destruct (z2b (expF16UI a)); [|exact R].
  destruct (Z.leb_spec 0 (expF16UI a - 0x19)) as [L|L]; [|exact R].
  destruct (large16 a Ha ltac:(lia)) as (Fa & M & B'). rewrite shl_mul by lia.
  eapply integral_to_int; [exact Fa|exact M|reflexivity|destruct (sign_of F16 a); lia].
Qed.

(** ** Truncation *)

(** The three outcomes the truncating conversions share. *)
Lemma trunc16_small (a lo hi code : Z) (exact : bool) (s : env) : is_enc F16 a -> expF16UI a < 0x0F -> lo <= 0 <= hi ->
  to_int_spec lo hi code F16 s TowardZero exact a
    (bind (when (exact && z2b (expF16UI a .| fracF16UI a)) (softfloat_raiseFlags softfloat_flag_inexact)) (fun _ => ret 0) s).
Proof.
  intros Ha L R. destruct (f16_view a Ha) as (He & Hm & Hw & Hn & M & -> & Fin & _).
  apply below_one with (k := 11) (e := 25 - Z.max (expF16UI a) 1); try assumption; [apply Fin; lia|lia].
Qed.

Lemma trunc16_middle (a lo hi code : Z) (exact : bool) (s : env) : is_enc F16 a -> 0x0F <= expF16UI a < 0x1F ->
  let z := (fracF16UI a .| 0x0400) << (expF16UI a - 0x0F) in
  0 <= z < 2 ^ 26 /\
  (lo <= (if sign_of F16 a then - (z >> 10) else z >> 10) <= hi ->
   to_int_spec lo hi code F16 s TowardZero exact a
     (bind (when (exact && z2b (z .& 0x3FF)) (softfloat_raiseFlags softfloat_flag_inexact))
        (fun _ => ret (if sign_of F16 a then - (z >> 10) else z >> 10)) s)).
Proof.
  intros Ha L. destruct (f16_view a Ha) as (He & Hm & Hw & Hn & M & _ & Fin & _). destruct (Hn ltac:(lia)) as [_ W]. rewrite W. cbv zeta.
  set (w := if _ =? 0 then _ else _) in *. clearbody w.
  assert (P : 0 < 2 ^ (expF16UI a - 0x0F) <= 2 ^ 15) by (split; [apply Z.pow_pos_nonneg|apply Z.pow_le_mono_r]; lia).
  rewrite shl_mul by lia. split; [nia|]. intros R. unfold bind. rewrite when_raise, (land_low _ 0x3FF 10), !shr_div in * by (reflexivity || lia).
  apply truncated_to_int with (w := w * 2 ^ (expF16UI a - 0x0F)) (sd := 10); [apply Fin; lia|lia| |reflexivity|exact R|reflexivity].
  rewrite M, mult_IZR, <- pow2_IZR, Rmult_assoc, <- pow2_add by lia. do 2 f_equal. lia.
Qed.

Lemma shift16 (a : Z) : is_enc F16 a -> i8 (expF16UI a - 0x0F) = expF16UI a - 0x0F.
Proof. intros Ha. destruct (f16_view a Ha) as (He & _). apply swrap_small; fmt_lia. Qed.

Lemma trunc16_unsigned (a hi : Z) (codes : Z) (exact : bool) (s : env) (k : Z) : is_enc F16 a -> 2 ^ 16 <= hi -> k = codes ->
  to_int_spec 0 hi codes F16 s TowardZero exact a
    ((if i8 (expF16UI a - 0x0F) <? 0 then
        bind (when (exact && z2b (expF16UI a .| fracF16UI a)) (softfloat_raiseFlags softfloat_flag_inexact)) (fun _ => ret 0)
      else if signF16UI a || (expF16UI a =? 0x1F) then bind (softfloat_raiseFlags softfloat_flag_invalid) (fun _ => ret k)
      else
        let alignedSig := u64 ((fracF16UI a .| 0x0400) << i8 (expF16UI a - 0x0F)) in
        bind (when (exact && z2b (alignedSig .& 0x3FF)) (softfloat_raiseFlags softfloat_flag_inexact))
          (fun _ => ret (alignedSig >> 10))) s).
Proof.
  intros Ha Hhi Hk. rewrite shift16, (proj1 (F16_fields a Ha)) by assumption. destruct (f16_view a Ha) as (He & _).
  destruct (Z.ltb_spec (expF16UI a - 0x0F) 0) as [L|L]; [apply trunc16_small; [assumption|lia|lia]|].
  destruct (Z.eqb_spec (expF16UI a) 0x1F) as [E|E]; [rewrite orb_true_r; now apply not_finite16|]. rewrite orb_false_r.
  destruct (trunc16_middle a 0 hi codes exact s Ha ltac:(lia)) as [B R]. cbv zeta.
  rewrite uwrap_small by lia. destruct (sign_of F16 a) eqn:Sg.
  - apply beyond_range with (n := 1); [typeclasses eauto|assumption| |rewrite Sg; lia|assumption].
    intros _. destruct (f16_view a Ha) as (_ & Hm & Hw & Hn & -> & _). apply (large_mag 0 _ 10); [destruct (Hn ltac:(lia)); lia|lia|lia].
  - apply R. rewrite shr_div by lia. zdm.
Qed.

Lemma trunc16_signed (a lo hi : Z) (codes : Z) (exact : bool) (s : env) (k : Z) : is_enc F16 a -> lo <= - 2 ^ 16 -> 2 ^ 16 <= hi -> k = codes ->
  to_int_spec lo hi codes F16 s TowardZero exact a
    ((if i8 (expF16UI a - 0x0F) <? 0 then
        bind (when (exact && z2b (expF16UI a .| fracF16UI a)) (softfloat_raiseFlags softfloat_flag_inexact)) (fun _ => ret 0)
      else if expF16UI a =? 0x1F then bind (softfloat_raiseFlags softfloat_flag_invalid) (fun _ => ret k)
      else
        let alignedSig := (fracF16UI a .| 0x0400) << i8 (expF16UI a - 0x0F) in
        bind (when (exact && z2b (alignedSig .& 0x3FF)) (softfloat_raiseFlags softfloat_flag_inexact))
          (fun _ => let alignedSig := alignedSig >> 10 in ret (if signF16UI a then - alignedSig else alignedSig))) s).
Proof.
  intros Ha Hlo Hhi Hk. rewrite shift16, (proj1 (F16_fields a Ha)) by assumption. destruct (f16_view a Ha) as (He & _).
  destruct (Z.ltb_spec (expF16UI a - 0x0F) 0) as [L|L]; [apply trunc16_small; [assumption|lia|lia]|].
  destruct (Z.eqb_spec (expF16UI a) 0x1F) as [E|E]; [now apply not_finite16|].
  destruct (trunc16_middle a lo hi codes exact s Ha ltac:(lia)) as [B R]. cbv zeta.
  apply R. rewrite shr_div by lia. destruct (sign_of F16 a); zdm.
Qed.

Lemma f16_r_minMag_spec (a : Z) (exact : bool) (s : env) : is_enc F16 a ->
  to_int_spec 0 (2 ^ 32 - 1) 0xFFFFFFFF F16 s TowardZero exact a (f16_to_ui32_r_minMag a exact s) /\
  to_int_spec (- 2 ^ 31) (2 ^ 31 - 1) (- 2 ^ 31) F16 s TowardZero exact a (f16_to_i32_r_minMag a exact s) /\
  to_int_spec 0 (2 ^ 64 - 1) 0xFFFFFFFFFFFFFFFF F16 s TowardZero exact a (f16_to_ui64_r_minMag a exact s) /\
  to_int_spec (- 2 ^ 63) (2 ^ 63 - 1) (- 2 ^ 63) F16 s TowardZero exact a (f16_to_i64_r_minMag a exact s).
Proof.
  intros Ha. repeat apply conj.
  - apply trunc16_unsigned; [assumption|lia|codes].
  - apply trunc16_signed; [assumption|lia|lia|codes].
  - apply trunc16_unsigned; [assumption|lia|codes].
  - apply trunc16_signed; [assumption|lia|lia|codes].
Qed.

(** ** Conversions from the integers *)

(** The common part of the conversions: [shiftDist] puts the leading bit of
    the integer in the place of the hidden bit. *)
Lemma word_to_f16 (sign : bool) (n shiftDist sticky : Z) (s : env) :
  0 < n < 2 ^ 64 -> shiftDist = 10 - Z.log2 n ->
  (shiftDist + 4 < 0 -> sticky = jam n (- (shiftDist + 4))) ->
  rounded_result F16 s sign (IZR n)
    ((if 0 <=? shiftDist then ret (u16 (packToF16UI sign (0x18 - shiftDist) (u64 (u64 n << shiftDist))))
      else
        let shiftDist := i8 (shiftDist + 4) in
        let sig := if shiftDist <? 0 then sticky else u64 (u64 n << shiftDist) in
        softfloat_roundPackToF16 sign (0x1C - shiftDist) sig) s).
Proof.
  intros Hn -> St. pose proof (Z.log2_spec n ltac:(lia)) as L. pose proof (Z.log2_nonneg n) as L0.
  pose proof (proj1 (log2_bounds n 64 ltac:(lia) ltac:(lia)) ltac:(lia)) as L1.
  set (l := Z.log2 n) in *. clearbody l. rewrite (uwrap_small 64 n) by lia. cbv zeta. rewrite swrap_small by fmt_lia.
  rewrite Z.pow_succ_r in L by lia.
  assert (Up : forall h j, 0 <= h -> l + h = j -> 2 ^ j <= n * 2 ^ h < 2 * 2 ^ j).
  { intros h j Hh <-. rewrite Z.pow_add_r by lia. assert (0 < 2 ^ h) by (apply Z.pow_pos_nonneg; lia). nia. }
  destruct (Z.leb_spec 0 (10 - l)) as [C|C].
  - specialize (Up (10 - l) 10 ltac:(lia) ltac:(lia)). rewrite shl_mul, (uwrap_small 64), packToF16UI_eq by lia.
    apply exact16_result; [lia|]. rewrite mag16_pack by lia. rewrite mult_IZR, <- pow2_IZR, Rmult_assoc, <- pow2_add by lia.
    replace (10 - l + (0x18 - (10 - l) + emin F16)) with 0 by (change (emin F16) with (-24); lia). rewrite pow2_0. ring.
  - destruct (Z.ltb_spec (10 - l + 4) 0) as [C2|C2].
    + rewrite (St C2). set (h := - (10 - l + 4)).
      assert (P : 0 < 2 ^ h) by (apply Z.pow_pos_nonneg; lia).
      assert (Q : 2 ^ l = 2 ^ 14 * 2 ^ h) by (rewrite <- Z.pow_add_r by lia; f_equal; lia).
      assert (B : 2 ^ 14 <= n / 2 ^ h < 2 ^ 15) by (split; [apply Z.div_le_lower_bound; lia|apply Z.div_lt_upper_bound; lia]).
      apply softfloat_roundPackToF16_rounds with (k := 1) (y := (IZR n * pow2 (- h))%R); try lia.
      * rewrite jam_eq by lia. destruct (_ =? 0); zdm.
      * apply same_pow with (Z.max 1 (0 - h)); [lia|]. apply same_jam; try lia. apply (same_exact 1).
      * rewrite Rmult_assoc, <- pow2_add. unfold h.
        replace (- - (10 - l + 4) + (0x1C - (10 - l + 4) - 4 + emin F16)) with 0 by (change (emin F16) with (-24); lia). rewrite pow2_0. ring.
    + specialize (Up (10 - l + 4) 14 ltac:(lia) ltac:(lia)). rewrite shl_mul, uwrap_small by lia.
      apply softfloat_roundPackToF16_rounds with (k := 0) (y := IZR (n * 2 ^ (10 - l + 4))); try lia; [apply (same_exact 1)|].
      rewrite mult_IZR, <- pow2_IZR, Rmult_assoc, <- pow2_add by lia.
      replace (10 - l + 4 + (0x1C - (10 - l + 4) - 4 + emin F16)) with 0 by (change (emin F16) with (-24); lia). rewrite pow2_0. ring.
Qed.

(** The shift distances of the C functions. *)
Lemma shift_dist16 (w n : Z) : w = 32 \/ w = 64 -> 0 < n < 2 ^ w -> i8 (nlz w n - (w - 11)) = 10 - Z.log2 n.
Proof.
  intros Hw Hn. pose proof (Z.log2_nonneg n) as L0.
  pose proof (proj1 (log2_bounds n w ltac:(lia) ltac:(lia)) ltac:(lia)) as L1.
  unfold nlz. destruct Hw as [-> | ->]; (rewrite swrap_small by fmt_lia; lia).
Qed.

(** The sticky bit of the 32-bit conversions: what is shifted out, shifted to the top. *)
Lemma sticky32 (n d : Z) : 0 <= n < 2 ^ 32 -> - 32 < d < 0 ->
  (n >> (- d)) .| b2z (z2b (u32 (n << (d .& 31)))) = jam n (- d).
Proof.
  intros Hn Hd. unfold jam. f_equal. f_equal. unfold z2b. f_equal. rewrite (land_low d 31 5) by (reflexivity || lia).
  replace (d mod 2 ^ 5) with (32 + d) by (apply Z.mod_unique_pos with (-1); lia).
  rewrite shl_mul by lia. unfold uwrap. replace (2 ^ 32) with (2 ^ (- d) * 2 ^ (32 + d)) by (rewrite <- Z.pow_add_r by lia; f_equal; lia).
  assert (0 < 2 ^ (32 + d)) by (apply Z.pow_pos_nonneg; lia). assert (0 < 2 ^ (- d)) by (apply Z.pow_pos_nonneg; lia).
  rewrite Z.mul_mod_distr_r by lia. apply eq_true_iff_eq. rewrite !Z.eqb_eq. nia.
Qed.

Lemma ui64_to_f16_spec (a : Z) (s : env) : 0 <= a < 2 ^ 64 -> from_int_spec F16 s a (ui64_to_f16 a s).
Proof.
  intros Ha. destruct (Z.eq_dec a 0) as [->|N]; [split; [reflexivity|split; intros; lra]|].
  apply signed_rounding; [assumption|]. replace (a <? 0) with false by lia. rewrite Z.abs_eq by lia.
  unfold ui64_to_f16, z2b. replace (a =? 0) with false by lia. cbn [negb]. cbv zeta.
  rewrite softfloat_countLeadingZeros64_spec, (shift_dist16 64) by lia.
  apply word_to_f16; try lia. intros C. pose proof (proj1 (log2_bounds a 64 ltac:(lia) ltac:(lia)) ltac:(lia)).
  rewrite swrap_small by fmt_lia. apply softfloat_shortShiftRightJam64_jam; lia.
Qed.

Lemma i64_to_f16_spec (a : Z) (s : env) : - 2 ^ 63 <= a < 2 ^ 63 -> from_int_spec F16 s a (i64_to_f16 a s).
Proof.
  intros Ha. destruct (Z.eq_dec a 0) as [->|N]; [split; [reflexivity|split; intros; lra]|].
  apply signed_rounding; [assumption|].
  unfold i64_to_f16, z2b. rewrite absolute_value by lia. replace (a =? 0) with false by lia. cbn [negb]. cbv zeta.
  set (n := Z.abs a). assert (Hn : 0 < n < 2 ^ 64) by lia. rewrite softfloat_countLeadingZeros64_spec, (shift_dist16 64) by lia.
  apply word_to_f16; try lia. intros C. pose proof (proj1 (log2_bounds n 64 ltac:(lia) ltac:(lia)) ltac:(lia)).
  rewrite swrap_small by fmt_lia. apply softfloat_shortShiftRightJam64_jam; lia.
Qed.

Lemma ui32_to_f16_spec (a : Z) (s : env) : 0 <= a < 2 ^ 32 -> from_int_spec F16 s a (ui32_to_f16 a s).
Proof.
  intros Ha. destruct (Z.eq_dec a 0) as [->|N]; [split; [reflexivity|split; intros; lra]|].
  apply signed_rounding; [assumption|]. replace (a <? 0) with false by lia. rewrite Z.abs_eq by lia.
  unfold ui32_to_f16, z2b at 1. replace (a =? 0) with false by lia. cbn [negb]. cbv zeta.
  rewrite softfloat_countLeadingZeros32_spec, (shift_dist16 32) by lia.
  apply word_to_f16; try lia. intros C. pose proof (proj1 (log2_bounds a 32 ltac:(lia) ltac:(lia)) ltac:(lia)).
  rewrite swrap_small by fmt_lia. apply sticky32; lia.
Qed.

Lemma i32_to_f16_spec (a : Z) (s : env) : - 2 ^ 31 <= a < 2 ^ 31 -> from_int_spec F16 s a (i32_to_f16 a s).
Proof.
  intros Ha. destruct (Z.eq_dec a 0) as [->|N]; [split; [reflexivity|split; intros; lra]|].
  apply signed_rounding; [assumption|].
  unfold i32_to_f16, z2b at 1. rewrite absolute_value by lia. replace (a =? 0) with false by lia. cbn [negb]. cbv zeta.
  set (n := Z.abs a). assert (Hn : 0 < n < 2 ^ 32) by lia. rewrite (uwrap_small 32 n), softfloat_countLeadingZeros32_spec, (shift_dist16 32) by lia.
  apply word_to_f16; try lia. intros C. pose proof (proj1 (log2_bounds n 32 ltac:(lia) ltac:(lia)) ltac:(lia)).
  rewrite swrap_small by fmt_lia. set (d := 10 - Z.log2 n + 4) in *. rewrite <- sticky32 by lia. do 3 f_equal.
  unfold uwrap. apply Z.mod_mod_divide. exists (2 ^ 32). reflexivity.
Qed.

(** ** Rounding a 16-bit number to an integral value *)

Lemma word_sign16 (sign : bool) : b2z sign * 2 ^ 15 = with_sign F16 sign 0.
Proof. destruct sign; reflexivity. Qed.

(** What the switch on the rounding mode computes for a number below one. *)
Lemma below_one16 (a mode : Z) (exact : bool) (s : env) : is_enc F16 a -> expF16UI a <= 0xE -> pattern_of F16 a <> 0 ->
  integral_spec F16 s (mag_direction mode (sign_of F16 a)) exact a
    ((bind (when exact (softfloat_raiseFlags softfloat_flag_inexact)) (fun _ =>
      let uiZ := a .& packToF16UI true 0 0 in
      let near_maxMag := if expF16UI a =? 0xE then uiZ .| packToF16UI false 0xF 0 else uiZ in
      let uiZ :=
        if mode =? softfloat_round_near_even then
          if negb (z2b (fracF16UI a)) then uiZ else near_maxMag
        else if mode =? softfloat_round_near_maxMag then near_maxMag
        else if mode =? softfloat_round_min then
          if z2b uiZ then packToF16UI true 0xF 0 else uiZ
        else if mode =? softfloat_round_max then
          if negb (z2b uiZ) then packToF16UI false 0xF 0 else uiZ
        else uiZ in
      ret (u16 uiZ))) s).
Proof.
  intros Ha He0 Hp. destruct (f16_view a Ha) as (He & Hm & Hw & Hn & M & Z0 & Fin & _).
  destruct (F16_fields a Ha) as (_ & _ & _ & P & W).
  assert (S : a .& packToF16UI true 0 0 = b2z (sign_of F16 a) * 2 ^ 15).
  { change (packToF16UI true 0 0) with 0x8000. rewrite (land_field a 0x8000 15 1) by (reflexivity || lia).
    f_equal. rewrite W at 1. unfold with_sign. change (sign_weight F16) with (2 ^ 15).
    pose proof (Z.mod_pos_bound a (2 ^ 15) ltac:(lia)) as B. change (a mod 2 ^ 15) with (pattern_of F16 a) in B.
    rewrite Z.div_add_l, (Z.div_small (pattern_of F16 a)) by lia. destruct (sign_of F16 a); reflexivity. }
  rewrite S. cbv zeta.
  set (e := expF16UI a) in *. set (m := fracF16UI a) in *. set (w := if e =? 0 then m else 2 ^ 10 + m) in *.
  assert (W0 : 0 < w) by (unfold w in *; destruct (Z.eqb_spec e 0); nia).
  set (t := 25 - Z.max e 1) in *.
  assert (Mb : (0 < mag F16 (pattern_of F16 a) < 1)%R) by (rewrite M; apply (tiny_bound w 11); lia).
  assert (Half : (e = 0xE /\ m = 0 -> mag F16 (pattern_of F16 a) = (/ 2)%R) /\
    (e = 0xE /\ m <> 0 -> (/ 2 < mag F16 (pattern_of F16 a))%R) /\ (e < 0xE -> (mag F16 (pattern_of F16 a) < / 2)%R)).
  { rewrite M. split; [|split].
    - intros [E Em]. destruct (Hn ltac:(lia)) as [W1 _]. rewrite W1, Em. unfold t. rewrite E, Z.add_0_r. change (- (25 - Z.max 0xE 1)) with (- 11). rewrite <- (pow2_IZR 10), <- pow2_add by lia. apply pow2_m1.
    - intros [E Nm]. destruct (Hn ltac:(lia)) as [W1 _]. rewrite W1. unfold t. rewrite E. change (- (25 - Z.max 0xE 1)) with (- 11).
      apply Rle_lt_trans with (IZR (2 ^ 10) * pow2 (- 11))%R; [rewrite <- (pow2_IZR 10), <- pow2_add by lia; right; symmetry; apply pow2_m1|].
      apply Rmult_lt_compat_r; [auto|]. apply IZR_lt. lia.
    - intros E. pose proof (tiny_bound w 11 (1 - t) ltac:(lia) ltac:(lia) ltac:(lia)) as [_ T].
      replace (- t) with (1 - t + -1) by lia. rewrite pow2_add, pow2_m1. lra. }
  unfold bind. rewrite when_raise.
  assert (Out : forall n, (n = 0 \/ n = 1) -> rint (mag_direction mode (sign_of F16 a)) (mag F16 (pattern_of F16 a)) n ->
    forall z, z = b2z (sign_of F16 a) * 2 ^ 15 + n * (0xF * 2 ^ 10) ->
    integral_spec F16 s (mag_direction mode (sign_of F16 a)) exact a
      (ret (u16 z) (raised_env (if exact then softfloat_flag_inexact else 0) s))).
  { intros n C R z ->. assert (Mn : mag F16 (n * (0xF * 2 ^ 10)) = IZR n).
    { destruct C as [-> | ->]; [apply (mag_zero F16)|]. pose proof (mag16_pack 0xE (2 ^ 10) ltac:(lia) ltac:(lia) ltac:(lia)) as M1.
      change (1 * (0xF * 2 ^ 10)) with (0xE * 2 ^ 10 + 2 ^ 10). rewrite M1, <- (pow2_IZR 10), <- pow2_add by lia. reflexivity. }
    apply (integral_outcome F16 s _ exact a (Fin ltac:(lia)) (n * (0xF * 2 ^ 10)) n true); [|exact R|exact Mn| |discriminate|].
    - change (inf_pattern F16) with (0x1F * 2 ^ 10). lia.
    - intros _. rewrite Mn. destruct C as [-> | ->]; lra.
    - rewrite andb_true_r. unfold ret, with_sign. change (sign_weight F16) with (2 ^ 15).
      rewrite uwrap_small; [reflexivity|]. destruct (sign_of F16 a); cbn [Z.b2z]; lia. }
  assert (One : b2z (sign_of F16 a) * 2 ^ 15 .| packToF16UI false 0xF 0 = b2z (sign_of F16 a) * 2 ^ 15 + 1 * (0xF * 2 ^ 10))
    by (destruct (sign_of F16 a); reflexivity).
  destruct Half as (H1 & H2 & H3). clearbody e m w t. clear W Z0 S Hn M.
  unfold mag_direction in *. destruct (mode =? softfloat_round_near_even); [|destruct (mode =? softfloat_round_near_maxMag)].
  - unfold z2b. destruct (Z.eqb_spec m 0) as [Em|Em]; cbn [negb].
    + apply (Out 0); [now left|apply rint_small; [assumption|]|ring]. left. split; [reflexivity|].
      destruct (Z.eq_dec e 0xE) as [E|E]; [specialize (H1 (conj E Em)); lra|specialize (H3 ltac:(lia)); lra].
    + destruct (Z.eqb_spec e 0xE) as [E|E].
      * apply (Out 1); [now right|apply rint_small; [assumption|]|exact One]. right. split; [reflexivity|]. apply H2. tauto.
      * apply (Out 0); [now left|apply rint_small; [assumption|]|ring]. left. split; [reflexivity|]. specialize (H3 ltac:(lia)). lra.
  - destruct (Z.eqb_spec e 0xE) as [E|E].
    + apply (Out 1); [now right|apply rint_small; [assumption|]|exact One]. right. split; [reflexivity|].
      destruct (Z.eq_dec m 0); [specialize (H1 ltac:(tauto)); lra|specialize (H2 ltac:(tauto)); lra].
    + apply (Out 0); [now left|apply rint_small; [assumption|]|ring]. left. split; [reflexivity|]. apply H3. lia.
  - destruct (sign_of F16 a); cbn [Z.b2z] in *.
    + change (z2b (1 * 2 ^ 15)) with true. cbn [negb]. destruct (mode =? softfloat_round_min).
      * apply (Out 1); [now right|now apply rint_small|reflexivity].
      * destruct (mode =? softfloat_round_max); (apply (Out 0); [now left|now apply rint_small|ring]).
    + change (z2b (0 * 2 ^ 15)) with false. cbn [negb]. destruct (Z.eqb_spec mode softfloat_round_min) as [->|E].
      * change (softfloat_round_min =? softfloat_round_max) with false in *. apply (Out 0); [now left|now apply rint_small|ring].
      * destruct (mode =? softfloat_round_max); [apply (Out 1); [now right|now apply rint_small|reflexivity]|].
        apply (Out 0); [now left|now apply rint_small|ring].
Qed.

(** From one up to where every number is integral. *)
Lemma middle16 (a mode : Z) (exact : bool) (s : env) : is_enc F16 a -> 0xF <= expF16UI a < 0x19 ->
  let z := 2 ^ (0x19 - expF16UI a) * round_sig (mag_direction mode (sign_of F16 a)) (0x19 - expF16UI a) a in
  integral_spec F16 s (mag_direction mode (sign_of F16 a)) exact a
    (bind (when (negb (z =? a)) (when exact (softfloat_raiseFlags softfloat_flag_inexact))) (fun _ => ret (u16 z)) s).
Proof.
  intros Ha He0 z. destruct (f16_view a Ha) as (He & Hm & Hw & Hn & M & _ & Fin & _).
  destruct (F16_fields a Ha) as (_ & _ & _ & P & W). destruct (Hn ltac:(lia)) as [W1 _]. rewrite W1 in M.
  set (d := mag_direction mode (sign_of F16 a)) in *. specialize (Fin ltac:(lia)).
  subst z. set (e := expF16UI a) in *. set (m := fracF16UI a) in *. set (k := 0x19 - e).
  replace (- (25 - Z.max e 1)) with (- k) in M by lia.
  assert (K : 1 <= k <= 10) by lia.
  assert (Pk : 2 ^ 11 = 2 ^ (10 - k) * 2 * 2 ^ k) by (apply pow_split; lia).
  assert (C : exists c, a = c * 2 * 2 ^ k + (2 ^ 10 + m) /\ c * 2 * 2 ^ k = b2z (sign_of F16 a) * 2 ^ 15 + (e - 1) * 2 ^ 10).
  { destruct (Z.eq_dec k 10) as [E|E].
    - exists (b2z (sign_of F16 a) * 2 ^ 4 + (e - 1) / 2). replace e with 15 in * by lia. rewrite E.
      split; [rewrite W at 1; rewrite P; unfold with_sign; change (sign_weight F16) with (2 ^ 15)|]; change ((15 - 1) / 2) with 7; ring.
    - assert (Q : 2 ^ 10 = 2 ^ (9 - k) * 2 * 2 ^ k) by (apply pow_split; lia).
      exists ((b2z (sign_of F16 a) * 2 ^ 5 + (e - 1)) * 2 ^ (9 - k)).
      assert (X : (b2z (sign_of F16 a) * 2 ^ 5 + (e - 1)) * 2 ^ (9 - k) * 2 * 2 ^ k = b2z (sign_of F16 a) * 2 ^ 15 + (e - 1) * 2 ^ 10)
        by (rewrite <- !Z.mul_assoc, (Z.mul_assoc (2 ^ (9 - k))), <- Q; ring).
      split; [|exact X]. rewrite X. rewrite W at 1. rewrite P. unfold with_sign. change (sign_weight F16) with (2 ^ 15). ring. }
  destruct C as (c & A & C). set (n := round_sig d k (2 ^ 10 + m)).
  assert (R : 2 ^ k * round_sig d k a = b2z (sign_of F16 a) * 2 ^ 15 + ((e - 1) * 2 ^ 10 + n * 2 ^ k))
    by (rewrite A at 1; rewrite round_sig_shift by lia; fold n;
        replace (2 ^ k * (c * 2 + n)) with (c * 2 * 2 ^ k + n * 2 ^ k) by ring; rewrite C; ring).
  assert (Pos : 0 < 2 ^ k) by (apply Z.pow_pos_nonneg; lia).
  assert (B : 2 ^ 10 <= n * 2 ^ k <= 2 ^ 11).
  { pose proof (round_sig_between k (2 ^ 10 + m) ltac:(lia) d) as Bt. fold n in Bt.
    assert (Q : 2 ^ 10 = 2 ^ (10 - k) * 2 ^ k) by (rewrite <- Z.pow_add_r by lia; f_equal; lia).
    assert (2 ^ (10 - k) <= (2 ^ 10 + m) / 2 ^ k < 2 * 2 ^ (10 - k)) by (split; [apply Z.div_le_lower_bound; lia|apply Z.div_lt_upper_bound; lia]). nia. }
  assert (Mn : mag F16 ((e - 1) * 2 ^ 10 + n * 2 ^ k) = IZR n).
  { rewrite mag16_pack by lia. rewrite mult_IZR, <- pow2_IZR, Rmult_assoc, <- pow2_add by lia.
    replace (k + (e - 1 + emin F16)) with 0 by (change (emin F16) with (-24); lia). rewrite pow2_0. ring. }
  pose proof (same_exact 1 (2 ^ 10 + m)) as Sx. apply (same_pow 0 (k - 1)) in Sx; [|lia].
  unfold bind. rewrite when_when. rewrite R.
  pose proof (round_sig_exact k (2 ^ 10 + m) ltac:(lia) d _ Sx) as Ex. fold n in Ex.
  apply (integral_outcome F16 s d exact a Fin ((e - 1) * 2 ^ 10 + n * 2 ^ k) n (negb (b2z (sign_of F16 a) * 2 ^ 15 + ((e - 1) * 2 ^ 10 + n * 2 ^ k) =? a))).
  - change (inf_pattern F16) with (0x1F * 2 ^ 10). lia.
  - rewrite M. exact (round_sig_rint k (2 ^ 10 + m) ltac:(lia) d _ Sx).
  - exact Mn.
  - intros I. apply negb_true_iff, Z.eqb_neq in I. rewrite Mn, M. intros Eq. symmetry in Eq. apply Ex in Eq.
    apply I. rewrite A at 2. rewrite C. pose proof (round_sig_value k (2 ^ 10 + m) ltac:(lia) d) as V. fold n in V.
    rewrite Eq in V. assert (V' : n = (2 ^ 10 + m) / 2 ^ k).
    { assert (H0 : 0 < 2 ^ (k - 1)) by (apply Z.pow_pos_nonneg; lia). rewrite V. clear - H0.
      set (q := (2 ^ 10 + m) / 2 ^ k). set (h := 2 ^ (k - 1)) in *. clearbody q h.
      apply Z.ltb_lt in H0. destruct d; rewrite ?H0; reflexivity. }
    pose proof (Z.div_mod (2 ^ 10 + m) (2 ^ k) ltac:(lia)). rewrite V'. lia.
  - intros I. apply negb_false_iff, Z.eqb_eq in I. rewrite P. f_equal.
    rewrite P in W. unfold with_sign in W. change (sign_weight F16) with (2 ^ 15) in W. lia.
  - f_equal. unfold with_sign. change (sign_weight F16) with (2 ^ 15). unfold ret. rewrite uwrap_small; [reflexivity|].
    destruct (sign_of F16 a); cbn [Z.b2z]; lia.
Qed.

Lemma f16_roundToInt_spec (a mode : Z) (exact : bool) (s : env) : is_enc F16 a ->
  integral_spec F16 s (mag_direction mode (sign_of F16 a)) exact a (f16_roundToInt a mode exact s).
Proof.
  intros Ha. unfold f16_roundToInt. cbv zeta. destruct (F16_fields a Ha) as (Sa & Ea & Ma & Pa & Wa).
  assert (U : u16 a = a) by (apply uwrap_small; unfold is_enc in Ha; change (2 * sign_weight F16) with (2 ^ 16) in Ha; lia).
  destruct (Z.leb_spec (expF16UI a) 0xE) as [L|L]; [|destruct (Z.leb_spec 0x19 (expF16UI a)) as [L2|L2]].
  - pose proof (both_zero16 a a) as Z0. rewrite Z.lor_diag, andb_diag in Z0. unfold z2b at 1. rewrite negb_involutive, Z0.
    destruct (Z.eqb_spec (pattern_of F16 a) 0) as [E|E]; [|now apply below_one16].
    destruct (f16_view a Ha) as (_ & _ & _ & _ & _ & _ & Fin & _).
    apply (integral_same F16 s _ exact a (Fin ltac:(lia)) 0); [rewrite E; apply (mag_zero F16)|]. unfold ret. f_equal. exact Wa.
  - destruct (classes F16 a _ _ Ea Ma Pa) as (Na & Ia & _). change (2 ^ eb F16 - 1) with 0x1F in *.
    destruct (f16_view a Ha) as (_ & _ & _ & Hn & M & _ & Fin & _). destruct (Hn ltac:(lia)) as [W1 _]. rewrite W1 in M.
    destruct ((expF16UI a =? 0x1F) && z2b (fracF16UI a)) eqn:N.
    + unfold integral_spec. rewrite Na. apply propagate16; [assumption|]. unfold is_enc. change (sign_weight F16) with (2 ^ 15). lia.
    + destruct (Z.eqb_spec (expF16UI a) 0x1F) as [E|E]; cbn [andb] in *.
      * unfold integral_spec. rewrite Na, Ia, N. reflexivity.
      * apply (integral_same F16 s _ exact a (Fin ltac:(lia)) ((2 ^ 10 + fracF16UI a) * 2 ^ (expF16UI a - 0x19))).
        -- rewrite M, mult_IZR, <- pow2_IZR by lia. do 2 f_equal. lia.
        -- unfold ret. f_equal. exact Wa.
  - pose proof (round_word mode (sign_of F16 a) a (0x19 - expF16UI a) ltac:(lia)) as R.
    assert (Ha' := Ha). unfold is_enc in Ha'. change (2 * sign_weight F16) with (2 ^ 16) in Ha'.
    assert (2 ^ (0x19 - expF16UI a) <= 2 ^ 10) by (apply Z.pow_le_mono_r; lia).
    specialize (R ltac:(lia) ltac:(lia)). cbv zeta in R. rewrite Sa.
    rewrite R. apply middle16; [assumption|lia].
Qed.
