(* ===== verification/F128.v ===== *)
(** 128-bit floating point: the translation of the comparisons [f128_eq.c],
    [f128_le.c], [f128_lt.c] with their signaling and quiet variants, and of the
    conversions [*_to_f128.c] and [f128_to_*.c] that the contract runtime
    calls.  A [float128_t] is that of [Builtins]: two 64-bit words. *)
From Stdlib Require Import ZArith Bool Lia.
From S2P Require Import Prelude Ieee Softfloat Primitives F32 F64 Convert FromInt Builtins.
Local Open Scope Z_scope.
Local Open Scope c_scope.
Local Open Scope M_scope.

Abbreviation float128_t := fp128.float128_t.

(** The union [ui128_f128]: the words of a float, and back. *)
Definition uA_v64 (f : float128_t) : Z := fp128.v1 f.
Definition uA_v0 (f : float128_t) : Z := fp128.v0 f.
Definition uZ_f (ui : uint128) : float128_t := {| fp128.v0 := v0 ui; fp128.v1 := v64 ui |}.

(** ** Fields ([internals.h]) *)
Definition signF128UI64 (a64 : Z) : bool := z2b (u64 a64 >> 63).
Definition expF128UI64 (a64 : Z) : Z := i64 (a64 >> 48) .& 0x7FFF.
Definition fracF128UI64 (a64 : Z) : Z := a64 .& 0x0000FFFFFFFFFFFF.
Definition packToF128UI64 (sign : bool) (exp sig64 : Z) : Z :=
  u64 (u64 (u64 (b2z sign << 63) + u64 (u64 exp << 48)) + sig64).
Definition isNaNF128UI (a64 a0 : Z) : bool :=
  ((u64 (Z.lnot a64) .& 0x7FFF000000000000) =? 0) && (z2b a0 || z2b (a64 .& 0x0000FFFFFFFFFFFF)).

(** ** Words ([primitives.h]) *)
Definition softfloat_lt128 (a64 a0 b64 b0 : Z) : bool := (a64 <? b64) || ((a64 =? b64) && (a0 <? b0)).

Definition softfloat_shortShiftLeft128 (a64 a0 dist : Z) : uint128 :=
  {| v64 := u64 (a64 << dist) .| (a0 >> (u64 (- dist) .& 63)); v0 := u64 (a0 << dist) |}.

Definition softfloat_shortShiftRight128 (a64 a0 dist : Z) : uint128 :=
  {| v64 := a64 >> dist; v0 := u64 (a64 << (u64 (- dist) .& 63)) .| (a0 >> dist) |}.

(** ** NaNs ([specialize.h]) *)
Definition softfloat_isSigNaNF128UI (uiA64 uiA0 : Z) : bool :=
  ((uiA64 .& 0x7FFF800000000000) =? 0x7FFF000000000000) && (z2b uiA0 || z2b (uiA64 .& 0x00007FFFFFFFFFFF)).

Definition softfloat_f128UIToCommonNaN (uiA64 uiA0 : Z) : M commonNaN :=
  when (softfloat_isSigNaNF128UI uiA64 uiA0) (softfloat_raiseFlags softfloat_flag_invalid) ;;;
  let NaNSig := softfloat_shortShiftLeft128 uiA64 uiA0 16 in
  ret {| nan_sign := z2b (uiA64 >> 63); nan_v64 := v64 NaNSig; nan_v0 := v0 NaNSig |}.

Definition softfloat_commonNaNToF128UI (aPtr : commonNaN) : uint128 :=
  let uiZ := softfloat_shortShiftRight128 (nan_v64 aPtr) (nan_v0 aPtr) 16 in
  {| v64 := v64 uiZ .| (u64 (b2z (nan_sign aPtr) << 63) .| 0x7FFF800000000000); v0 := v0 uiZ |}.

(** ** Comparisons *)
Definition f128_eq (a b : float128_t) : M bool :=
  let uiA64 := uA_v64 a in let uiA0 := uA_v0 a in
  let uiB64 := uA_v64 b in let uiB0 := uA_v0 b in
  if isNaNF128UI uiA64 uiA0 || isNaNF128UI uiB64 uiB0 then
    when (softfloat_isSigNaNF128UI uiA64 uiA0 || softfloat_isSigNaNF128UI uiB64 uiB0)
      (softfloat_raiseFlags softfloat_flag_invalid) ;;;
    ret false
  else
    ret ((uiA0 =? uiB0)
         && ((uiA64 =? uiB64) || (negb (z2b uiA0) && negb (z2b ((uiA64 .| uiB64) .& 0x7FFFFFFFFFFFFFFF))))).

Definition f128_eq_signaling (a b : float128_t) : M bool :=
  let uiA64 := uA_v64 a in let uiA0 := uA_v0 a in
  let uiB64 := uA_v64 b in let uiB0 := uA_v0 b in
  if isNaNF128UI uiA64 uiA0 || isNaNF128UI uiB64 uiB0 then
    softfloat_raiseFlags softfloat_flag_invalid ;;; ret false
  else
    ret ((uiA0 =? uiB0)
         && ((uiA64 =? uiB64) || (negb (z2b uiA0) && negb (z2b ((uiA64 .| uiB64) .& 0x7FFFFFFFFFFFFFFF))))).

Definition f128_le (a b : float128_t) : M bool :=
  let uiA64 := uA_v64 a in let uiA0 := uA_v0 a in
  let uiB64 := uA_v64 b in let uiB0 := uA_v0 b in
  if isNaNF128UI uiA64 uiA0 || isNaNF128UI uiB64 uiB0 then
    softfloat_raiseFlags softfloat_flag_invalid ;;; ret false
  else
    let signA := signF128UI64 uiA64 in
    let signB := signF128UI64 uiB64 in
    ret (if negb (Bool.eqb signA signB)
         then signA || negb (z2b (((uiA64 .| uiB64) .& 0x7FFFFFFFFFFFFFFF) .| uiA0 .| uiB0))
         else ((uiA64 =? uiB64) && (uiA0 =? uiB0)) || xorb signA (softfloat_lt128 uiA64 uiA0 uiB64 uiB0)).

Definition f128_lt (a b : float128_t) : M bool :=
  let uiA64 := uA_v64 a in let uiA0 := uA_v0 a in
  let uiB64 := uA_v64 b in let uiB0 := uA_v0 b in
  if isNaNF128UI uiA64 uiA0 || isNaNF128UI uiB64 uiB0 then
    softfloat_raiseFlags softfloat_flag_invalid ;;; ret false
  else
    let signA := signF128UI64 uiA64 in
    let signB := signF128UI64 uiB64 in
    ret (if negb (Bool.eqb signA signB)
         then signA && z2b (((uiA64 .| uiB64) .& 0x7FFFFFFFFFFFFFFF) .| uiA0 .| uiB0)
         else (negb (uiA64 =? uiB64) || negb (uiA0 =? uiB0)) && xorb signA (softfloat_lt128 uiA64 uiA0 uiB64 uiB0)).

Definition f128_le_quiet (a b : float128_t) : M bool :=
  let uiA64 := uA_v64 a in let uiA0 := uA_v0 a in
  let uiB64 := uA_v64 b in let uiB0 := uA_v0 b in
  if isNaNF128UI uiA64 uiA0 || isNaNF128UI uiB64 uiB0 then
    when (softfloat_isSigNaNF128UI uiA64 uiA0 || softfloat_isSigNaNF128UI uiB64 uiB0)
      (softfloat_raiseFlags softfloat_flag_invalid) ;;;
    ret false
  else
    let signA := signF128UI64 uiA64 in
    let signB := signF128UI64 uiB64 in
    ret (if negb (Bool.eqb signA signB)
         then signA || negb (z2b (((uiA64 .| uiB64) .& 0x7FFFFFFFFFFFFFFF) .| uiA0 .| uiB0))
         else ((uiA64 =? uiB64) && (uiA0 =? uiB0)) || xorb signA (softfloat_lt128 uiA64 uiA0 uiB64 uiB0)).

Definition f128_lt_quiet (a b : float128_t) : M bool :=
  let uiA64 := uA_v64 a in let uiA0 := uA_v0 a in
  let uiB64 := uA_v64 b in let uiB0 := uA_v0 b in
  if isNaNF128UI uiA64 uiA0 || isNaNF128UI uiB64 uiB0 then
    when (softfloat_isSigNaNF128UI uiA64 uiA0 || softfloat_isSigNaNF128UI uiB64 uiB0)
      (softfloat_raiseFlags softfloat_flag_invalid) ;;;
    ret false
  else
    let signA := signF128UI64 uiA64 in
    let signB := signF128UI64 uiB64 in
    ret (if negb (Bool.eqb signA signB)
         then signA && z2b (((uiA64 .| uiB64) .& 0x7FFFFFFFFFFFFFFF) .| uiA0 .| uiB0)
         else (negb (uiA64 =? uiB64) || negb (uiA0 =? uiB0)) && xorb signA (softfloat_lt128 uiA64 uiA0 uiB64 uiB0)).

Definition f128_isSignalingNaN (a : float128_t) : bool := softfloat_isSigNaNF128UI (uA_v64 a) (uA_v0 a).

(** [f128_is_nan] of softfloat.hpp *)
Definition f128_is_nan (f : float128_t) : bool :=
  ((u64 (Z.lnot (fp128.v1 f)) .& 0x7FFF000000000000) =? 0)
  && (z2b (fp128.v0 f) || z2b (fp128.v1 f .& 0x0000FFFFFFFFFFFF)).

(** ** From integers *)
Definition ui32_to_f128 (a : Z) : M float128_t :=
  let uiZ64 :=
    if z2b a then
      let shiftDist := i8 (softfloat_countLeadingZeros32 a + 17) in
      packToF128UI64 false (0x402E - shiftDist) (u64 (u64 a << shiftDist))
    else 0 in
  ret (uZ_f {| v64 := uiZ64; v0 := 0 |}).

Definition i32_to_f128 (a : Z) : M float128_t :=
  let uiZ64 :=
    if z2b a then
      let sign := a <? 0 in
      let absA := if sign then u64 (- u64 a) else u64 a in
      let shiftDist := i8 (softfloat_countLeadingZeros32 (u32 absA) + 17) in
      packToF128UI64 sign (0x402E - shiftDist) (u64 (u64 absA << shiftDist))
    else 0 in
  ret (uZ_f {| v64 := uiZ64; v0 := 0 |}).

Definition ui64_to_f128 (a : Z) : M float128_t :=
  ret (uZ_f (
    if negb (z2b a) then {| v64 := 0; v0 := 0 |}
    else
      let shiftDist := i8 (softfloat_countLeadingZeros64 a + 49) in
      let zSig :=
        if 64 <=? shiftDist then {| v64 := u64 (a << (shiftDist - 64)); v0 := 0 |}
        else softfloat_shortShiftLeft128 0 a shiftDist in
      {| v64 := packToF128UI64 false (0x406E - shiftDist) (v64 zSig); v0 := v0 zSig |})).

Definition i64_to_f128 (a : Z) : M float128_t :=
  ret (uZ_f (
    if negb (z2b a) then {| v64 := 0; v0 := 0 |}
    else
      let sign := a <? 0 in
      let absA := if sign then u64 (- u64 a) else u64 a in
      let shiftDist := i8 (softfloat_countLeadingZeros64 absA + 49) in
      let zSig :=
        if 64 <=? shiftDist then {| v64 := u64 (absA << (shiftDist - 64)); v0 := 0 |}
        else softfloat_shortShiftLeft128 0 absA shiftDist in
      {| v64 := packToF128UI64 sign (0x406E - shiftDist) (v64 zSig); v0 := v0 zSig |})).

(** ** From the narrower formats *)
Definition f32_to_f128 (a : Z) : M float128_t :=
  let uiA := a in
  let sign := signF32UI uiA in
  let exp := expF32UI uiA in
  let frac := fracF32UI uiA in
  let pack exp frac :=
    ret (uZ_f {| v64 := packToF128UI64 sign (exp + 0x3F80) (u64 (u64 frac << 25)); v0 := 0 |}) in
  if exp =? 0xFF then
    if z2b frac then
      commonNaN <- softfloat_f32UIToCommonNaN uiA ;;
      ret (uZ_f (softfloat_commonNaNToF128UI commonNaN))
    else ret (uZ_f {| v64 := packToF128UI64 sign 0x7FFF 0; v0 := 0 |})
  else if negb (z2b exp) then
    if negb (z2b frac) then ret (uZ_f {| v64 := packToF128UI64 sign 0 0; v0 := 0 |})
    else
      let normExpSig := softfloat_normSubnormalF32Sig frac in
      pack (e16s32_exp normExpSig - 1) (e16s32_sig normExpSig)
  else pack exp frac.

Definition f64_to_f128 (a : Z) : M float128_t :=
  let uiA := a in
  let sign := signF64UI uiA in
  let exp := expF64UI uiA in
  let frac := fracF64UI uiA in
  let pack exp frac :=
    let frac128 := softfloat_shortShiftLeft128 0 frac 60 in
    ret (uZ_f {| v64 := packToF128UI64 sign (exp + 0x3C00) (v64 frac128); v0 := v0 frac128 |}) in
  if exp =? 0x7FF then
    if z2b frac then
      commonNaN <- softfloat_f64UIToCommonNaN uiA ;;
      ret (uZ_f (softfloat_commonNaNToF128UI commonNaN))
    else ret (uZ_f {| v64 := packToF128UI64 sign 0x7FFF 0; v0 := 0 |})
  else if negb (z2b exp) then
    if negb (z2b frac) then ret (uZ_f {| v64 := packToF128UI64 sign 0 0; v0 := 0 |})
    else
      let normExpSig := softfloat_normSubnormalF64Sig frac in
      pack (e16s64_exp normExpSig - 1) (e16s64_sig normExpSig)
  else pack exp frac.

(** ** To integers *)
Definition f128_to_ui32 (a : float128_t) (roundingMode : Z) (exact : bool) : M Z :=
  let uiA64 := uA_v64 a in let uiA0 := uA_v0 a in
  let sign := signF128UI64 uiA64 in
  let exp := expF128UI64 uiA64 in
  let sig64 := fracF128UI64 uiA64 .| b2z (z2b uiA0) in
  let sig64 := if z2b exp then sig64 .| 0x0001000000000000 else sig64 in
  let shiftDist := 0x4023 - exp in
  let sig64 := if 0 <? shiftDist then softfloat_shiftRightJam64 sig64 shiftDist else sig64 in
  softfloat_roundToUI32 sign sig64 roundingMode exact.

Definition f128_to_i32 (a : float128_t) (roundingMode : Z) (exact : bool) : M Z :=
  let uiA64 := uA_v64 a in let uiA0 := uA_v0 a in
  let sign := signF128UI64 uiA64 in
  let exp := expF128UI64 uiA64 in
  let sig64 := fracF128UI64 uiA64 in
  let sig0 := uiA0 in
  let sig64 := if z2b exp then sig64 .| 0x0001000000000000 else sig64 in
  let sig64 := sig64 .| b2z (z2b sig0) in
  let shiftDist := 0x4023 - exp in
  let sig64 := if 0 <? shiftDist then softfloat_shiftRightJam64 sig64 shiftDist else sig64 in
  softfloat_roundToI32 sign sig64 roundingMode exact.

Definition f128_to_ui64 (a : float128_t) (roundingMode : Z) (exact : bool) : M Z :=
  let uiA64 := uA_v64 a in let uiA0 := uA_v0 a in
  let sign := signF128UI64 uiA64 in
  let exp := expF128UI64 uiA64 in
  let sig64 := fracF128UI64 uiA64 in
  let sig0 := uiA0 in
  let shiftDist := 0x402F - exp in
  if shiftDist <=? 0 then
    if shiftDist <? -15 then
      softfloat_raiseFlags softfloat_flag_invalid ;;;
      ret (if (exp =? 0x7FFF) && z2b (sig64 .| sig0) then ui64_fromNaN
           else if sign then ui64_fromNegOverflow else ui64_fromPosOverflow)
    else
      let sig64 := sig64 .| 0x0001000000000000 in
      let sig128 :=
        if z2b shiftDist then softfloat_shortShiftLeft128 sig64 sig0 (- shiftDist)
        else {| v64 := sig64; v0 := sig0 |} in
      softfloat_roundToUI64 sign (v64 sig128) (v0 sig128) roundingMode exact
  else
    let sig64 := if z2b exp then sig64 .| 0x0001000000000000 else sig64 in
    let sigExtra := softfloat_shiftRightJam64Extra sig64 sig0 shiftDist in
    softfloat_roundToUI64 sign (ue_v sigExtra) (ue_extra sigExtra) roundingMode exact.

Definition f128_to_i64 (a : float128_t) (roundingMode : Z) (exact : bool) : M Z :=
  let uiA64 := uA_v64 a in let uiA0 := uA_v0 a in
  let sign := signF128UI64 uiA64 in
  let exp := expF128UI64 uiA64 in
  let sig64 := fracF128UI64 uiA64 in
  let sig0 := uiA0 in
  let shiftDist := 0x402F - exp in
  if shiftDist <=? 0 then
    if shiftDist <? -15 then
      softfloat_raiseFlags softfloat_flag_invalid ;;;
      ret (if (exp =? 0x7FFF) && z2b (sig64 .| sig0) then i64_fromNaN
           else if sign then i64_fromNegOverflow else i64_fromPosOverflow)
    else
      let sig64 := sig64 .| 0x0001000000000000 in
      let sig128 :=
        if z2b shiftDist then softfloat_shortShiftLeft128 sig64 sig0 (- shiftDist)
        else {| v64 := sig64; v0 := sig0 |} in
      softfloat_roundToI64 sign (v64 sig128) (v0 sig128) roundingMode exact
  else
    let sig64 := if z2b exp then sig64 .| 0x0001000000000000 else sig64 in
    let sigExtra := softfloat_shiftRightJam64Extra sig64 sig0 shiftDist in
    softfloat_roundToI64 sign (ue_v sigExtra) (ue_extra sigExtra) roundingMode exact.

(** ** To the narrower formats
    [int_fast16_t] and [int_fast32_t] have the same size, so the clamp of the
    exponent is not compiled. *)
Definition f128_to_f64 (a : float128_t) : M Z :=
  let uiA64 := uA_v64 a in let uiA0 := uA_v0 a in
  let sign := signF128UI64 uiA64 in
  let exp := expF128UI64 uiA64 in
  let frac64 := fracF128UI64 uiA64 in
  let frac0 := uiA0 in
  if exp =? 0x7FFF then
    if z2b (frac64 .| frac0) then
      commonNaN <- softfloat_f128UIToCommonNaN uiA64 uiA0 ;;
      ret (softfloat_commonNaNToF64UI commonNaN)
    else ret (packToF64UI sign 0x7FF 0)
  else
    let frac128 := softfloat_shortShiftLeft128 frac64 frac0 14 in
    let frac64 := v64 frac128 .| b2z (z2b (v0 frac128)) in
    if negb (z2b (exp .| frac64)) then ret (packToF64UI sign 0 0)
    else softfloat_roundPackToF64 sign (exp - 0x3C01) (frac64 .| 0x4000000000000000).

Definition f128_to_f32 (a : float128_t) : M Z :=
  let uiA64 := uA_v64 a in let uiA0 := uA_v0 a in
  let sign := signF128UI64 uiA64 in
  let exp := expF128UI64 uiA64 in
  let frac64 := fracF128UI64 uiA64 .| b2z (z2b uiA0) in
  if exp =? 0x7FFF then
    if z2b frac64 then
      commonNaN <- softfloat_f128UIToCommonNaN uiA64 uiA0 ;;
      ret (u32 (softfloat_commonNaNToF32UI commonNaN))
    else ret (u32 (packToF32UI sign 0xFF 0))
  else
    let frac32 := softfloat_shortShiftRightJam64 frac64 18 in
    if negb (z2b (exp .| frac32)) then ret (u32 (packToF32UI sign 0 0))
    else softfloat_roundPackToF32 sign (exp - 0x3F81) (frac32 .| 0x40000000).
