(* ===== verification/F128Compare.v ===== *)
(** The fields of a binary128 number kept in two words, and the proof that
    the comparisons of [F128] order the numbers by value. *)
From Stdlib Require Import ZArith Bool Lia Reals Lra.
From S2P Require Import Prelude Ieee Softfloat Primitives Machine Contract Builtins F128.
Local Open Scope Z_scope.
Local Open Scope c_scope.

(** ** Fields *)
Lemma hi_word (x : float128_t) : f128_ok x ->
  sign_of F128 (f128_enc x) = (2 ^ 63 <=? uA_v64 x) /\
  pattern_of F128 (f128_enc x) = (uA_v64 x mod 2 ^ 63) * 2 ^ 64 + uA_v0 x.
Proof.
  intros [H0 H1]. unfold sign_of, pattern_of, f128_enc, uA_v64, uA_v0. change (sign_weight F128) with (2 ^ 127). split.
  - apply eq_true_iff_eq. rewrite !Z.leb_le. lia.
  - symmetry. apply Z.mod_unique_pos with (fp128.v1 x / 2 ^ 63); zdm.
Qed.

Lemma expF128UI64_eq (a : Z) : 0 <= a < 2 ^ 64 -> expF128UI64 a = (a / 2 ^ 48) mod 2 ^ 15.
Proof.
  unfold expF128UI64. intros Ha. rewrite shr_div by lia.
  rewrite (swrap_small 64 (a / 2 ^ 48)) by (eval_pow; zdm). apply (land_low _ 0x7FFF 15); reflexivity || lia.
Qed.

(** The significand of the code, with its low word. *)
Definition frac128 (x : float128_t) : Z := fracF128UI64 (uA_v64 x) * 2 ^ 64 + uA_v0 x.

Lemma F128_fields (x : float128_t) : f128_ok x -> let a := f128_enc x in
  signF128UI64 (uA_v64 x) = sign_of F128 a /\ 0 <= expF128UI64 (uA_v64 x) < 2 ^ 15 /\
  0 <= fracF128UI64 (uA_v64 x) < 2 ^ 48 /\ 0 <= uA_v0 x < 2 ^ 64 /\ 0 <= frac128 x < 2 ^ 112 /\
  pattern_of F128 a = expF128UI64 (uA_v64 x) * 2 ^ 112 + frac128 x.
Proof.
  intros Hx a. destruct (hi_word x Hx) as [S P]. subst a. rewrite S, P. destruct Hx as [H0 H1].
  unfold frac128, uA_v64, uA_v0 in *. set (h := fp128.v1 x) in *. set (l := fp128.v0 x) in *. clearbody h l.
  rewrite expF128UI64_eq by lia. unfold signF128UI64, fracF128UI64.
  rewrite (land_low _ 0x0000FFFFFFFFFFFF 48), shr_div, (uwrap_small 64 h) by (reflexivity || lia).
  assert (M : 0 <= h mod 2 ^ 48 < 2 ^ 48) by (apply Z.mod_pos_bound; lia).
  split; [|split; [apply Z.mod_pos_bound; lia|split; [exact M|split; [exact H0|split; [lia|]]]]].
  - unfold z2b. destruct (Z.eqb_spec (h / 2 ^ 63) 0), (Z.leb_spec (2 ^ 63) h); try reflexivity; zdm.
  - zdm.
Qed.

Lemma f128_enc_ok (x : float128_t) : f128_ok x -> is_enc F128 (f128_enc x).
Proof. intros Hx. apply (toRep_bits x Hx). Qed.

(** ** NaNs *)
Lemma z2b_words (h l : Z) : 0 <= h -> 0 <= l < 2 ^ 64 -> z2b (h * 2 ^ 64 + l) = z2b h || z2b l.
Proof.
  intros Hh Hl. unfold z2b. destruct (Z.eqb_spec h 0), (Z.eqb_spec l 0), (Z.eqb_spec (h * 2 ^ 64 + l) 0); try reflexivity; lia.
Qed.

Lemma classes128 (x : float128_t) (e := expF128UI64 (uA_v64 x)) : f128_ok x ->
  nanb F128 (f128_enc x) = (e =? 0x7FFF) && z2b (frac128 x) /\
  infb F128 (f128_enc x) = (e =? 0x7FFF) && negb (z2b (frac128 x)).
Proof.
  intros Hx. destruct (F128_fields x Hx) as (_ & He & _ & _ & Hm & P).
  destruct (classes F128 _ _ _ He Hm P) as (N & I & _). split; [exact N|exact I].
Qed.

Lemma isNaNF128UI_spec (x : float128_t) : f128_ok x -> isNaNF128UI (uA_v64 x) (uA_v0 x) = nanb F128 (f128_enc x).
Proof.
  intros Hx. destruct (classes128 x Hx) as [-> _]. destruct (F128_fields x Hx) as (_ & _ & Hf & Hl & _).
  unfold frac128. rewrite z2b_words, orb_comm by lia. unfold isNaNF128UI. fold (fracF128UI64 (uA_v64 x)). f_equal.
  rewrite land_lnot by lia. rewrite (land_field _ 0x7FFF000000000000 48 15) by (reflexivity || lia).
  rewrite (expF128UI64_eq (uA_v64 x)) by exact (proj2 Hx). apply eq_true_iff_eq. rewrite !Z.eqb_eq. lia.
Qed.

Lemma f128_is_nan_spec (x : float128_t) : f128_ok x -> f128_is_nan x = nanb F128 (f128_enc x).
Proof. exact (isNaNF128UI_spec x). Qed.

(** The quiet bit is bit 47 of the high word. *)
Lemma quiet_bit (x : float128_t) : f128_ok x -> Z.testbit (f128_enc x) 111 = Z.testbit (uA_v64 x) 47.
Proof.
  intros [H0 H1]. unfold f128_enc, uA_v64. rewrite !Z.testbit_eqb by lia. f_equal. f_equal.
  set (h := fp128.v1 x) in *. set (l := fp128.v0 x) in *. clearbody h l.
  change (2 ^ 111) with (2 ^ 64 * 2 ^ 47). rewrite <- Z.div_div by lia. f_equal.
  rewrite Z.div_add_l, (Z.div_small l) by lia. apply Z.add_0_r.
Qed.

Lemma softfloat_isSigNaNF128UI_spec (x : float128_t) : f128_ok x ->
  softfloat_isSigNaNF128UI (uA_v64 x) (uA_v0 x) = signalingb F128 (f128_enc x).
Proof.
  intros Hx. unfold signalingb. rewrite (proj1 (classes128 x Hx)). change (mb F128 - 1) with 111. rewrite quiet_bit by exact Hx.
  destruct (F128_fields x Hx) as (_ & _ & Hf & Hl & _). unfold frac128. rewrite z2b_words by lia.
  rewrite (expF128UI64_eq (uA_v64 x)) by exact (proj2 Hx). unfold softfloat_isSigNaNF128UI, fracF128UI64, z2b in *. destruct Hx as [_ Hh].
  unfold uA_v64 in *. set (h := fp128.v1 x) in *. set (l := uA_v0 x) in *. clearbody h l.
  rewrite (land_field h 0x7FFF800000000000 47 16), (land_low _ 0x00007FFFFFFFFFFF 47), (land_low _ 0x0000FFFFFFFFFFFF 48) in * by (reflexivity || lia).
  rewrite Z.testbit_eqb by lia.
  destruct (Z.eqb_spec l 0); cbn [negb orb]; rewrite ?orb_true_r, ?orb_false_r, ?andb_true_r;
    apply eq_true_iff_eq; rewrite ?andb_true_iff, ?negb_true_iff, ?Z.eqb_eq, ?Z.eqb_neq; zdm.
Qed.

(** ** Order *)
Lemma both_zero128 (x y : float128_t) : f128_ok x -> f128_ok y ->
  (((uA_v64 x .| uA_v64 y) .& 0x7FFFFFFFFFFFFFFF) =? 0) && (uA_v0 x =? 0) && (uA_v0 y =? 0) =
  (pattern_of F128 (f128_enc x) =? 0) && (pattern_of F128 (f128_enc y) =? 0).
Proof.
  intros Hx Hy. destruct (hi_word x Hx) as [_ ->]. destruct (hi_word y Hy) as [_ ->].
  rewrite (land_low _ 0x7FFFFFFFFFFFFFFF 63) by (reflexivity || lia).
  apply eq_true_iff_eq. rewrite !andb_true_iff, !Z.eqb_eq, magnitudes_zero by lia.
  destruct Hx as [Lx _], Hy as [Ly _]. unfold uA_v0.
  pose proof (Z.mod_pos_bound (uA_v64 x) (2 ^ 63) ltac:(lia)). pose proof (Z.mod_pos_bound (uA_v64 y) (2 ^ 63) ltac:(lia)). lia.
Qed.

(** The words of an operand in terms of its sign and its pattern. *)
Lemma split128 (x : float128_t) : f128_ok x -> exists h,
  uA_v64 x = b2z (sign_of F128 (f128_enc x)) * 2 ^ 63 + h /\ 0 <= h < 2 ^ 63 /\ 0 <= uA_v0 x < 2 ^ 64 /\
  pattern_of F128 (f128_enc x) = h * 2 ^ 64 + uA_v0 x.
Proof.
  intros Hx. destruct (hi_word x Hx) as [-> ->]. destruct Hx as [H0 H1]. exists (uA_v64 x mod 2 ^ 63). unfold uA_v64, uA_v0 in *.
  destruct (Z.leb_spec (2 ^ 63) (fp128.v1 x)); cbn [Z.b2z]; zdm.
Qed.

Section Operands.
Context (x y : float128_t) (Hx : f128_ok x) (Hy : f128_ok y).

Lemma eq128 :
  (uA_v0 x =? uA_v0 y) && ((uA_v64 x =? uA_v64 y)
    || (negb (z2b (uA_v0 x)) && negb (z2b ((uA_v64 x .| uA_v64 y) .& 0x7FFFFFFFFFFFFFFF)))) = true
  <-> value F128 (f128_enc x) = value F128 (f128_enc y).
Proof.
  destruct (value_key F128 (f128_enc x) (f128_enc y)) as (_ & _ & ->). unfold key, z2b. rewrite !negb_involutive.
  pose proof (both_zero128 x y Hx Hy) as B.
  destruct (split128 x Hx) as (h & Eh & Bh & Bl & P). destruct (split128 y Hy) as (k & Ek & Bk & Bm & Q).
  rewrite P, Q in *. set (z := (uA_v64 x .| uA_v64 y) .& 0x7FFFFFFFFFFFFFFF =? 0) in *. clearbody z. rewrite Eh, Ek. clear P Q Eh Ek Hx Hy.
  set (l := uA_v0 x) in *. set (m := uA_v0 y) in *. clearbody l m.
  destruct (sign_of F128 (f128_enc x)), (sign_of F128 (f128_enc y)), z; cbn [Z.b2z andb] in *;
    rewrite ?andb_true_r, ?andb_false_r, ?orb_false_r; lia.
Qed.

Ltac orders :=
  pose proof (both_zero128 x y Hx Hy) as B;
  destruct (split128 x Hx) as (h & Eh & Bh & Bl & P); destruct (split128 y Hy) as (k & Ek & Bk & Bm & Q);
  rewrite P, Q in *; unfold softfloat_lt128;
  rewrite Eh, Ek in *; clear P Q Eh Ek Hx Hy;
  set (l := uA_v0 x) in *; set (m := uA_v0 y) in *; clearbody l m.

(** The test for two zeros as the code writes it. *)
Lemma zero_code :
  z2b (((uA_v64 x .| uA_v64 y) .& 0x7FFFFFFFFFFFFFFF) .| uA_v0 x .| uA_v0 y) =
  negb ((pattern_of F128 (f128_enc x) =? 0) && (pattern_of F128 (f128_enc y) =? 0)).
Proof.
  rewrite <- (both_zero128 x y Hx Hy).
  assert (0 <= uA_v64 x .| uA_v64 y) by (apply Z.lor_nonneg; destruct Hx, Hy; unfold uA_v64; lia).
  assert (0 <= (uA_v64 x .| uA_v64 y) .& 0x7FFFFFFFFFFFFFFF) by (apply Z.land_nonneg; lia).
  assert (0 <= uA_v0 x /\ 0 <= uA_v0 y) as [] by (destruct Hx, Hy; unfold uA_v0; lia).
  rewrite !z2b_lor by (try apply Z.lor_nonneg; auto). unfold z2b. now rewrite !negb_andb.
Qed.

Lemma le128 :
  (if negb (Bool.eqb (signF128UI64 (uA_v64 x)) (signF128UI64 (uA_v64 y)))
   then signF128UI64 (uA_v64 x) || negb (z2b (((uA_v64 x .| uA_v64 y) .& 0x7FFFFFFFFFFFFFFF) .| uA_v0 x .| uA_v0 y))
   else ((uA_v64 x =? uA_v64 y) && (uA_v0 x =? uA_v0 y))
        || xorb (signF128UI64 (uA_v64 x)) (softfloat_lt128 (uA_v64 x) (uA_v0 x) (uA_v64 y) (uA_v0 y))) = true
  <-> (value F128 (f128_enc x) <= value F128 (f128_enc y))%R.
Proof.
  destruct (value_key F128 (f128_enc x) (f128_enc y)) as (_ & -> & _). unfold key. rewrite zero_code, negb_involutive.
  rewrite (proj1 (F128_fields x Hx)), (proj1 (F128_fields y Hy)). orders. clear B.
  destruct (sign_of F128 (f128_enc x)), (sign_of F128 (f128_enc y)); cbn [Z.b2z Bool.eqb negb orb]; rewrite ?xorb_true_l, ?xorb_false_l; lia.
Qed.

Lemma lt128 :
  (if negb (Bool.eqb (signF128UI64 (uA_v64 x)) (signF128UI64 (uA_v64 y)))
   then signF128UI64 (uA_v64 x) && z2b (((uA_v64 x .| uA_v64 y) .& 0x7FFFFFFFFFFFFFFF) .| uA_v0 x .| uA_v0 y)
   else (negb (uA_v64 x =? uA_v64 y) || negb (uA_v0 x =? uA_v0 y))
        && xorb (signF128UI64 (uA_v64 x)) (softfloat_lt128 (uA_v64 x) (uA_v0 x) (uA_v64 y) (uA_v0 y))) = true
  <-> (value F128 (f128_enc x) < value F128 (f128_enc y))%R.
Proof.
  destruct (value_key F128 (f128_enc x) (f128_enc y)) as (-> & _). unfold key. rewrite zero_code.
  rewrite (proj1 (F128_fields x Hx)), (proj1 (F128_fields y Hy)). orders. clear B.
  destruct (sign_of F128 (f128_enc x)), (sign_of F128 (f128_enc y)); cbn [Z.b2z Bool.eqb negb];
    try (destruct (Z.eqb_spec (1 * 2 ^ 63 + h) (1 * 2 ^ 63 + k)), (Z.ltb_spec (1 * 2 ^ 63 + h) (1 * 2 ^ 63 + k)), (Z.eqb_spec l m), (Z.ltb_spec l m));
    cbn [negb xorb andb orb]; lia.
Qed.

(** ** The six comparisons *)
Ltac compare128 op ordered :=
  unfold compare_spec, op; rewrite !isNaNF128UI_spec, ?softfloat_isSigNaNF128UI_spec by assumption;
  destruct (nanb F128 _ || nanb F128 _); cbn [orb];
  [unfold bind; rewrite ?when_raise; reflexivity|split; [reflexivity|exact ordered]].

Lemma f128_comparisons_spec (s : env) :
  compare_spec F128 false eq s (f128_enc x) (f128_enc y) (f128_eq x y s) /\
  compare_spec F128 true eq s (f128_enc x) (f128_enc y) (f128_eq_signaling x y s) /\
  compare_spec F128 true Rle s (f128_enc x) (f128_enc y) (f128_le x y s) /\
  compare_spec F128 true Rlt s (f128_enc x) (f128_enc y) (f128_lt x y s) /\
  compare_spec F128 false Rle s (f128_enc x) (f128_enc y) (f128_le_quiet x y s) /\
  compare_spec F128 false Rlt s (f128_enc x) (f128_enc y) (f128_lt_quiet x y s).
Proof.
  repeat match goal with |- _ /\ _ => split end.
  - compare128 f128_eq eq128.
  - compare128 f128_eq_signaling eq128.
  - compare128 f128_le le128.
  - compare128 f128_lt lt128.
  - compare128 f128_le_quiet le128.
  - compare128 f128_lt_quiet lt128.
Qed.
End Operands.
