(* ===== verification/F128Convert.v ===== *)
(** The conversions into binary128 are exact: integers of 32 and 64 bits and
    the two narrower formats. *)
From Stdlib Require Import ZArith Bool Lia Reals Lra.
From S2P Require Import Prelude Ieee Rounding RoundPack Softfloat Primitives Machine Contract F32 F32Round F32Arith F32Mul F64 F64Round F64Arith F64Mul FromInt ToInt Widen Builtins F128 F128Compare.
Local Open Scope Z_scope.
Local Open Scope c_scope.

(** ** Two-word shifts *)
Definition word_pair (z : uint128) : Z := v64 z * 2 ^ 64 + v0 z.
Definition words_ok (z : uint128) : Prop := 0 <= v0 z < 2 ^ 64 /\ 0 <= v64 z < 2 ^ 64.

Lemma neg_dist64 (d : Z) : 0 < d < 64 -> u64 (- d) .& 63 = 64 - d.
Proof. intros H. rewrite (neg_dist 63 d) by lia. lia. Qed.

Lemma shortShiftLeft128_spec (a64 a0 d : Z) : 0 < d < 64 -> 0 <= a64 -> 0 <= a0 < 2 ^ 64 -> a64 * 2 ^ d < 2 ^ 64 - 2 ^ d + 1 ->
  let z := softfloat_shortShiftLeft128 a64 a0 d in
  words_ok z /\ word_pair z = (a64 * 2 ^ 64 + a0) * 2 ^ d.
Proof.
  intros Hd H64 H0 Hb. unfold softfloat_shortShiftLeft128, words_ok, word_pair. cbn [v64 v0].
  rewrite neg_dist64, !shl_mul, shr_div by lia.
  assert (P : 2 ^ 64 = 2 ^ d * 2 ^ (64 - d)) by (rewrite <- Z.pow_add_r by lia; f_equal; lia).
  assert (P0 : 0 < 2 ^ d) by (apply Z.pow_pos_nonneg; lia). assert (P1 : 0 < 2 ^ (64 - d)) by (apply Z.pow_pos_nonneg; lia).
  assert (D : 0 <= a0 / 2 ^ (64 - d) < 2 ^ d) by (split; [apply Z.div_pos; lia|apply Z.div_lt_upper_bound; lia]).
  rewrite (uwrap_small 64 (a64 * 2 ^ d)) by lia. rewrite lor_disjoint by lia.
  assert (L : u64 (a0 * 2 ^ d) = (a0 mod 2 ^ (64 - d)) * 2 ^ d).
  { unfold uwrap. rewrite P, (Z.mul_comm (2 ^ d) (2 ^ (64 - d))). apply Z.mul_mod_distr_r; lia. }
  rewrite L. pose proof (Z.mod_pos_bound a0 (2 ^ (64 - d)) P1) as M. pose proof (Z.div_mod a0 (2 ^ (64 - d)) ltac:(lia)) as E.
  split; [split; nia|]. rewrite E at 3. rewrite P. ring.
Qed.

(** ** Packing *)
Definition exactly (s : env) (sign : bool) (x : R) (r : float128_t * env) : Prop :=
  exists z b, r = (z, s) /\ f128_ok z /\ f128_enc z = with_sign F128 sign b /\
    0 <= b < inf_pattern F128 /\ mag F128 b = x.

Lemma packToF128UI64_eq (sign : bool) (exp sig : Z) : 0 <= exp < 2 ^ 15 -> 0 <= sig -> exp * 2 ^ 48 + sig < 2 ^ 63 ->
  packToF128UI64 sign exp sig = b2z sign * 2 ^ 63 + (exp * 2 ^ 48 + sig).
Proof.
  intros He Hs Hb. unfold packToF128UI64. rewrite !shl_mul by lia.
  assert (0 <= b2z sign <= 1) by (destruct sign; cbn; lia). set (t := b2z sign) in *. clearbody t.
  rewrite (uwrap_small 64 exp), (uwrap_small 64 (exp * _)), (uwrap_small 64 (t * _)) by lia.
  rewrite (uwrap_small 64 (t * _ + _)), (uwrap_small 64) by lia. lia.
Qed.

Lemma packed128 (sign : bool) (e : Z) (w : uint128) (z := uZ_f {| v64 := packToF128UI64 sign e (v64 w); v0 := v0 w |}) :
  0 <= e < 2 ^ 15 -> words_ok w -> e * 2 ^ 112 + word_pair w < 2 ^ 127 ->
  f128_ok z /\ f128_enc z = with_sign F128 sign (e * 2 ^ 112 + word_pair w).
Proof.
  intros He [H0 H1] Hb. unfold word_pair in *. subst z. unfold uZ_f, f128_ok, f128_enc. cbn [fp128.v0 fp128.v1 v64 v0].
  rewrite packToF128UI64_eq by lia. unfold with_sign. change (sign_weight F128) with (2 ^ 127). destruct sign; cbn [Z.b2z]; lia.
Qed.

Lemma infinity128_eq (sign : bool) (z := uZ_f {| v64 := packToF128UI64 sign 0x7FFF 0; v0 := 0 |}) :
  f128_ok z /\ f128_enc z = infinity F128 sign.
Proof. apply (packed128 sign 0x7FFF {| v64 := 0; v0 := 0 |}); [lia|split; cbn; lia|cbn; lia]. Qed.

(** A normal number from its exponent field and its significand, the leading
    bit of which may still be there to be added to the exponent. *)
Lemma exactly_packed (s : env) (sign : bool) (e : Z) (w : uint128) (x : R) : 0 <= e < 0x7FFE -> words_ok w ->
  2 ^ 112 <= word_pair w < 2 ^ 113 -> x = (IZR (word_pair w) * pow2 (e + emin F128))%R ->
  exactly s sign x (uZ_f {| v64 := packToF128UI64 sign e (v64 w); v0 := v0 w |}, s).
Proof.
  intros He Hw Hm ->. destruct (packed128 sign e w ltac:(lia) Hw ltac:(lia)) as [O E].
  eexists; eexists. split; [reflexivity|]. split; [exact O|]. split; [exact E|].
  assert (B : e * 2 ^ 112 + word_pair w < inf_pattern F128) by (change (inf_pattern F128) with (0x7FFF * 2 ^ 112); lia).
  split; [lia|]. apply (mag_pack F128 e (word_pair w)); change (mb F128) with 112; lia.
Qed.

Lemma exactly_zero (s : env) (sign : bool) :
  exactly s sign 0 (uZ_f {| v64 := packToF128UI64 sign 0 0; v0 := 0 |}, s).
Proof.
  destruct (packed128 sign 0 {| v64 := 0; v0 := 0 |}) as [O E]; [lia|split; cbn; lia|reflexivity|].
  exists (uZ_f {| v64 := packToF128UI64 sign 0 0; v0 := 0 |}), 0. split; [reflexivity|]. split; [exact O|]. split; [exact E|].
  split; [split; [lia|reflexivity]|]. apply (mag_zero F128).
Qed.

(** ** From integers *)

(** The exact conversion of an integer: zero is positive. *)
Definition of_integer (s : env) (a : Z) (r : float128_t * env) : Prop := exactly s (a <? 0) (IZR (Z.abs a)) r.

Lemma leading (n w : Z) : 0 < n < 2 ^ w -> 0 <= w -> let l := Z.log2 n in 0 <= l < w /\ 2 ^ l <= n < 2 ^ (l + 1).
Proof.
  intros Hn Hw l. pose proof (Z.log2_spec n ltac:(lia)). pose proof (Z.log2_nonneg n).
  pose proof (proj1 (log2_bounds n w ltac:(lia) ltac:(lia)) ltac:(lia)). rewrite <- Z.add_1_r in *. subst l. lia.
Qed.

Lemma shifted_word (n l k : Z) : 0 <= l <= k -> 2 ^ l <= n < 2 ^ (l + 1) ->
  2 ^ k <= n * 2 ^ (k - l) < 2 ^ (k + 1) /\ IZR n = (IZR (n * 2 ^ (k - l)) * pow2 (l - k))%R.
Proof.
  intros Hl Hn. assert (E : 2 ^ k = 2 ^ l * 2 ^ (k - l)) by (rewrite <- Z.pow_add_r by lia; f_equal; lia).
  assert (E' : 2 ^ (k + 1) = 2 ^ (l + 1) * 2 ^ (k - l)) by (rewrite <- Z.pow_add_r by lia; f_equal; lia).
  assert (0 < 2 ^ (k - l)) by (apply Z.pow_pos_nonneg; lia). split; [nia|].
  rewrite mult_IZR, <- pow2_IZR, Rmult_assoc, <- pow2_add by lia. replace (k - l + (l - k)) with 0 by lia. rewrite pow2_0. ring.
Qed.

Lemma word32_to_f128 (sign : bool) (n : Z) (s : env) : 0 < n < 2 ^ 32 ->
  exactly s sign (IZR n)
    (uZ_f {| v64 := packToF128UI64 sign (0x402E - i8 (softfloat_countLeadingZeros32 n + 17))
                      (u64 (u64 n << i8 (softfloat_countLeadingZeros32 n + 17))); v0 := 0 |}, s).
Proof.
  intros Hn. rewrite softfloat_countLeadingZeros32_spec by lia. destruct (leading n 32 Hn ltac:(lia)) as [Hl Hb].
  replace (nlz 32 n + 17) with (48 - Z.log2 n) by (unfold nlz; lia). set (l := Z.log2 n) in *. clearbody l.
  rewrite (swrap_small 8 (48 - l)) by fmt_lia. rewrite (uwrap_small 64 n), shl_mul by lia.
  destruct (shifted_word n l 48 ltac:(lia) Hb) as [B V]. rewrite (uwrap_small 64) by lia. change (48 + 1) with 49 in B.
  apply (exactly_packed s sign _ {| v64 := n * 2 ^ (48 - l); v0 := 0 |}); [lia|split; cbn [v64 v0]; lia| |];
    unfold word_pair; cbn [v64 v0]; rewrite Z.add_0_r; [lia|].
  rewrite V, (mult_IZR (n * 2 ^ (48 - l)) (2 ^ 64)), <- (pow2_IZR 64), (Rmult_assoc _ (pow2 64)), <- pow2_add by lia. do 2 f_equal.
  change (emin F128) with (-16494). lia.
Qed.

Lemma word64_to_f128 (sign : bool) (n : Z) (s : env) (d := i8 (softfloat_countLeadingZeros64 n + 49))
    (z := if 64 <=? d then {| v64 := u64 (n << (d - 64)); v0 := 0 |} else softfloat_shortShiftLeft128 0 n d) :
  0 < n < 2 ^ 64 ->
  exactly s sign (IZR n) (uZ_f {| v64 := packToF128UI64 sign (0x406E - d) (v64 z); v0 := v0 z |}, s).
Proof.
  intros Hn. subst z d. rewrite softfloat_countLeadingZeros64_spec by lia. destruct (leading n 64 Hn ltac:(lia)) as [Hl Hb].
  replace (nlz 64 n + 49) with (112 - Z.log2 n) by (unfold nlz; lia). set (l := Z.log2 n) in *. clearbody l.
  rewrite (swrap_small 8 (112 - l)) by fmt_lia. destruct (shifted_word n l 112 ltac:(lia) Hb) as [B V].
  change (112 + 1) with 113 in B.
  set (z := if 64 <=? 112 - l then _ else _). assert (W : words_ok z /\ word_pair z = n * 2 ^ (112 - l)).
  { subst z. destruct (Z.leb_spec 64 (112 - l)) as [L|L].
    - rewrite shl_mul by lia. destruct (shifted_word n l 48 ltac:(lia) Hb) as [B' _]. change (48 + 1) with 49 in B'.
      replace (112 - l - 64) with (48 - l) by lia. rewrite (uwrap_small 64) by lia.
      split; [split; cbn [v64 v0]; lia|]. unfold word_pair. cbn [v64 v0].
      replace (112 - l) with (48 - l + 64) by lia. rewrite Z.pow_add_r by lia. ring.
    - assert (2 ^ (112 - l) <= 2 ^ 63) by (apply Z.pow_le_mono_r; lia).
      destruct (shortShiftLeft128_spec 0 n (112 - l)) as [O E]; [lia|lia|lia|lia|]. split; [exact O|]. rewrite E. ring. }
  destruct W as [O E]. apply (exactly_packed s sign _ z); [lia|exact O|lia|].
  rewrite E, V. do 2 f_equal. change (emin F128) with (-16494). lia.
Qed.

Lemma integers_to_f128_spec (a : Z) (s : env) :
  (0 <= a < 2 ^ 32 -> of_integer s a (ui32_to_f128 a s)) /\
  (- 2 ^ 31 <= a < 2 ^ 31 -> of_integer s a (i32_to_f128 a s)) /\
  (0 <= a < 2 ^ 64 -> of_integer s a (ui64_to_f128 a s)) /\
  (- 2 ^ 63 <= a < 2 ^ 63 -> of_integer s a (i64_to_f128 a s)).
Proof.
  unfold of_integer. repeat split; intros Ha; unfold ui32_to_f128, i32_to_f128, ui64_to_f128, i64_to_f128, ret, z2b;
    rewrite ?absolute_value by lia; (destruct (Z.eqb_spec a 0) as [->|N]; cbn [negb]; [exact (exactly_zero s false)|]).
  - replace (a <? 0) with false by lia. rewrite Z.abs_eq by lia. apply word32_to_f128. lia.
  - rewrite (uwrap_small 32) by lia. apply word32_to_f128. lia.
  - replace (a <? 0) with false by lia. rewrite Z.abs_eq by lia. apply word64_to_f128. lia.
  - apply word64_to_f128. lia.
Qed.

(** ** NaNs on their way in *)
Lemma nan_to128 (sign : bool) (v : Z) (z := uZ_f (softfloat_commonNaNToF128UI {| nan_sign := sign; nan_v64 := v; nan_v0 := 0 |})) :
  0 <= v < 2 ^ 64 -> f128_ok z /\ f128_enc z = quiet F128 (with_sign F128 sign (inf_pattern F128 + v * 2 ^ 48)).
Proof.
  intros Hv. subst z. unfold softfloat_commonNaNToF128UI, softfloat_shortShiftRight128. cbn [nan_sign nan_v64 nan_v0 v64 v0].
  change (u64 (- (16)) .& 63) with 48. change (0 >> 16) with 0. rewrite Z.lor_0_r, !shl_mul, shr_div by lia.
  rewrite (uwrap_small 64 (b2z sign * 2 ^ 63)) by (destruct sign; cbn [Z.b2z]; lia).
  set (y := b2z sign * 2 ^ 63 .| 0x7FFF800000000000). assert (Hy : 0 <= y < 2 ^ 64) by (subst y; destruct sign; cbn; lia).
  assert (L : u64 (v * 2 ^ 48) = v mod 2 ^ 16 * 2 ^ 48) by (unfold uwrap; change (2 ^ 64) with (2 ^ 16 * 2 ^ 48); apply Z.mul_mod_distr_r; lia).
  rewrite L. pose proof (Z.mod_pos_bound v (2 ^ 16) ltac:(lia)) as M.
  assert (H : 0 <= v / 2 ^ 16 .| y < 2 ^ 64).
  { split; [apply Z.lor_nonneg; split; [apply Z.div_pos|]; lia|]. apply Z.log2_lt_cancel. rewrite Z.log2_lor by (try apply Z.div_pos; lia).
    change (Z.log2 (2 ^ 64)) with 64. assert (0 <= v / 2 ^ 16 < 2 ^ 64) by zdm.
    apply Z.max_lub_lt; (destruct (Z.eq_dec (v / 2 ^ 16) 0) as [E0|]; [rewrite ?E0|]);
      try (apply Z.log2_lt_pow2; lia); try reflexivity; subst y; destruct sign; reflexivity. }
  unfold f128_ok, f128_enc, uZ_f. cbn [fp128.v0 fp128.v1 v64 v0]. split; [lia|].
  rewrite <- (lor_disjoint (v / 2 ^ 16 .| y)) by lia. rewrite <- shl_mul, Z.shiftl_lor, !shl_mul by lia.
  rewrite <- Z.lor_assoc, (Z.lor_comm (y * 2 ^ 64)), Z.lor_assoc, lor_disjoint by lia.
  replace (v / 2 ^ 16 * 2 ^ 64 + v mod 2 ^ 16 * 2 ^ 48) with (v * 2 ^ 48) by zdm.
  rewrite Z.lor_comm. rewrite <- (pack_nan F128 sign (v * 2 ^ 48)) by (change (mb F128) with 112; lia).
  f_equal. destruct sign; reflexivity.
Qed.

(** ** From the narrower formats *)
Definition widen128_spec (f : format) (s : env) (a : Z) (r : float128_t * env) : Prop :=
  if nanb f a then
    f128_ok (fst r) /\ f128_enc (fst r) = convert_nan f F128 a /\
    snd r = raised_env (if signalingb f a then softfloat_flag_invalid else 0) s
  else if infb f a then f128_ok (fst r) /\ f128_enc (fst r) = infinity F128 (sign_of f a) /\ snd r = s
  else exactly s (sign_of f a) (mag f (pattern_of f a)) r.

Lemma convert_nan_to128 (f : format) (a e m : Z) : 0 <= mb f <= 112 ->
  pattern_of f a = e * 2 ^ mb f + m -> 0 <= m < 2 ^ mb f ->
  convert_nan f F128 a = quiet F128 (with_sign F128 (sign_of f a) (inf_pattern F128 + m * 2 ^ (112 - mb f))).
Proof.
  intros Hf P Hm. unfold convert_nan. rewrite P. do 3 f_equal.
  replace ((e * 2 ^ mb f + m) mod 2 ^ mb f) with m by (apply Z.mod_unique_pos with e; lia).
  change (mb F128) with 112. replace 112 with (112 - mb f + mb f) at 1 by lia.
  rewrite Z.pow_add_r, Z.mul_assoc, Z.div_mul by (try apply Z.pow_nonzero; lia). reflexivity.
Qed.

Lemma widen_nan128 (f : format) (a e m v : Z) : 0 <= mb f <= 112 ->
  pattern_of f a = e * 2 ^ mb f + m -> 0 <= m < 2 ^ mb f -> 0 <= v < 2 ^ 64 -> v * 2 ^ 48 = m * 2 ^ (112 - mb f) ->
  let z := uZ_f (softfloat_commonNaNToF128UI {| nan_sign := sign_of f a; nan_v64 := v; nan_v0 := 0 |}) in
  f128_ok z /\ f128_enc z = convert_nan f F128 a.
Proof.
  intros Hf P Hm Hv E z. destruct (nan_to128 (sign_of f a) v Hv) as [O Q]. split; [exact O|].
  rewrite (convert_nan_to128 f a e m) by assumption. rewrite <- E. exact Q.
Qed.

(** The fraction field of a normal number. *)
Lemma exactly_fraction (s : env) (sign : bool) (e : Z) (w : uint128) (x : R) : 1 <= e < 0x7FFF -> words_ok w ->
  0 <= word_pair w < 2 ^ 112 -> x = (IZR (2 ^ 112 + word_pair w) * pow2 (e - 1 + emin F128))%R ->
  exactly s sign x (uZ_f {| v64 := packToF128UI64 sign e (v64 w); v0 := v0 w |}, s).
Proof.
  intros He Hw Hm ->. destruct (packed128 sign e w ltac:(lia) Hw ltac:(lia)) as [O E].
  eexists; eexists. split; [reflexivity|]. split; [exact O|]. split; [exact E|].
  split; [change (inf_pattern F128) with (0x7FFF * 2 ^ 112); lia|].
  replace (e * 2 ^ 112 + word_pair w) with ((e - 1) * 2 ^ mb F128 + (2 ^ 112 + word_pair w)) by (change (mb F128) with 112; lia).
  apply (mag_pack F128); change (mb F128) with 112; lia.
Qed.

(** A significand scaled into the wide format keeps its value. *)
Lemma scaled_value (n k e e' : Z) : 0 <= k -> e = k + e' -> (IZR n * pow2 e = IZR (n * 2 ^ k) * pow2 e')%R.
Proof. intros Hk ->. rewrite mult_IZR, <- pow2_IZR, Rmult_assoc, <- pow2_add by lia. reflexivity. Qed.

Lemma f32_to_f128_spec (a : Z) (s : env) : is_enc F32 a -> widen128_spec F32 s a (f32_to_f128 a s).
Proof.
  intros Ha. unfold widen128_spec, f32_to_f128. destruct (F32_fields a Ha) as (Sa & Ea & Ma & Pa & Wa).
  destruct (classes F32 a _ _ Ea Ma Pa) as (-> & -> & _). change (2 ^ eb F32 - 1) with 0xFF. cbv zeta.
  destruct (Z.eqb_spec (expF32UI a) 0xFF) as [E|E]; cbn [andb].
  { destruct (z2b (fracF32UI a)); cbn [negb].
    - unfold bind, ret. rewrite common_nan32 by assumption. cbn [fst snd].
      destruct (widen_nan128 F32 a (expF32UI a) (fracF32UI a) (fracF32UI a * 2 ^ 41)) as [O Q];
        [change (mb F32) with 23; lia|exact Pa|exact Ma|lia|change (mb F32) with 23; lia|]. auto.
    - unfold ret. cbn [fst snd]. rewrite Sa. destruct (infinity128_eq (sign_of F32 a)). auto. }
  rewrite Sa, Pa. set (e := expF32UI a) in *. set (m := fracF32UI a) in *. set (sgn := sign_of F32 a). clearbody e m sgn.
  change (2 ^ mb F32) with (2 ^ 23). rewrite mag32_fields by lia. unfold z2b, ret. rewrite !negb_involutive.
  destruct (Z.eqb_spec e 0) as [->|N].
  - destruct (Z.eqb_spec m 0) as [->|N']; [rewrite Rmult_0_l; apply exactly_zero|].
    destruct (softfloat_normSubnormalF32Sig_spec m ltac:(lia)) as (B1 & B2 & X).
    set (n := softfloat_normSubnormalF32Sig m) in *. change (Z.max 0 1 - 1 + emin F32) with (emin F32). rewrite X.
    rewrite shl_mul, !(uwrap_small 64) by (rewrite ?(uwrap_small 64); lia).
    apply (exactly_packed s sgn _ {| v64 := e16s32_sig n * 2 ^ 25; v0 := 0 |}); [lia|split; cbn [v64 v0]; lia|unfold word_pair; cbn [v64 v0]; lia|].
    unfold word_pair. cbn [v64 v0]. replace (e16s32_sig n * 2 ^ 25 * 2 ^ 64 + 0) with (e16s32_sig n * 2 ^ 89) by lia.
    apply scaled_value; [lia|]. change (emin F128) with (-16494). change (emin F32) with (-149). lia.
  - rewrite shl_mul, !(uwrap_small 64) by (rewrite ?(uwrap_small 64); lia).
    apply (exactly_fraction s sgn _ {| v64 := m * 2 ^ 25; v0 := 0 |}); [lia|split; cbn [v64 v0]; lia|unfold word_pair; cbn [v64 v0]; lia|].
    unfold word_pair. cbn [v64 v0]. replace (2 ^ 112 + (m * 2 ^ 25 * 2 ^ 64 + 0)) with ((2 ^ 23 + m) * 2 ^ 89) by lia.
    apply scaled_value; [lia|]. change (emin F128) with (-16494). change (emin F32) with (-149). lia.
Qed.

Lemma f64_to_f128_spec (a : Z) (s : env) : is_enc F64 a -> widen128_spec F64 s a (f64_to_f128 a s).
Proof.
  intros Ha. unfold widen128_spec, f64_to_f128. destruct (F64_fields a Ha) as (Sa & Ea & Ma & Pa & Wa).
  destruct (classes F64 a _ _ Ea Ma Pa) as (-> & -> & _). change (2 ^ eb F64 - 1) with 0x7FF. cbv zeta.
  destruct (Z.eqb_spec (expF64UI a) 0x7FF) as [E|E]; cbn [andb].
  { destruct (z2b (fracF64UI a)); cbn [negb].
    - unfold bind, ret. rewrite common_nan64 by assumption. cbn [fst snd].
      destruct (widen_nan128 F64 a (expF64UI a) (fracF64UI a) (fracF64UI a * 2 ^ 12)) as [O Q];
        [change (mb F64) with 52; lia|exact Pa|exact Ma|lia|change (mb F64) with 52; lia|]. auto.
    - unfold ret. cbn [fst snd]. rewrite Sa. destruct (infinity128_eq (sign_of F64 a)). auto. }
  rewrite Sa, Pa. set (e := expF64UI a) in *. set (m := fracF64UI a) in *. set (sgn := sign_of F64 a). clearbody e m sgn.
  change (2 ^ mb F64) with (2 ^ 52). rewrite mag64_fields by lia. unfold z2b, ret. rewrite !negb_involutive.
  destruct (Z.eqb_spec e 0) as [->|N].
  - destruct (Z.eqb_spec m 0) as [->|N']; [rewrite Rmult_0_l; apply exactly_zero|].
    destruct (softfloat_normSubnormalF64Sig_spec m ltac:(lia)) as (B1 & B2 & X).
    set (n := softfloat_normSubnormalF64Sig m) in *. change (Z.max 0 1 - 1 + emin F64) with (emin F64). rewrite X.
    destruct (shortShiftLeft128_spec 0 (e16s64_sig n) 60) as [O W]; [lia|lia|lia|lia|].
    apply exactly_packed; [lia|exact O|rewrite W; lia|]. rewrite W, Z.mul_0_l, Z.add_0_l.
    apply scaled_value; [lia|]. change (emin F128) with (-16494). change (emin F64) with (-1074). lia.
  - destruct (shortShiftLeft128_spec 0 m 60) as [O W]; [lia|lia|lia|lia|].
    apply exactly_fraction; [lia|exact O|rewrite W; lia|]. rewrite W, Z.mul_0_l, Z.add_0_l.
    replace (2 ^ 112 + m * 2 ^ 60) with ((2 ^ 52 + m) * 2 ^ 60) by lia.
    apply scaled_value; [lia|]. change (emin F128) with (-16494). change (emin F64) with (-1074). lia.
Qed.
