(* ===== verification/F128Narrow.v ===== *)
(** The conversions out of binary128: to the four integer types and to the two
    narrower formats. *)
From Stdlib Require Import ZArith Bool Lia Reals Lra.
From S2P Require Import Prelude Ieee Rounding RoundPack Softfloat Primitives Machine Contract F32 F32Round F32Arith F32Mul F64 F64Round F64Arith F64Mul Convert FromInt ToInt Widen Builtins F128 F128Compare F128Convert.
Local Open Scope Z_scope.
Local Open Scope c_scope.

(** ** The significand of an operand *)

(** [M] is the fraction, [W] the significand with its leading bit. *)
Definition significand128 (x : float128_t) : Z :=
  if expF128UI64 (uA_v64 x) =? 0 then frac128 x else 2 ^ 112 + frac128 x.

Lemma view128 (x : float128_t) (e := expF128UI64 (uA_v64 x)) (W := significand128 x) : f128_ok x ->
  is_enc F128 (f128_enc x) /\ 0 <= e < 2 ^ 15 /\ 0 <= W < 2 ^ 113 /\ (e <> 0 -> 2 ^ 112 <= W) /\
  (e = 0 -> W < 2 ^ 112) /\ (is_finite F128 (f128_enc x) <-> e < 0x7FFF) /\
  mag F128 (pattern_of F128 (f128_enc x)) = (IZR W * pow2 (Z.max e 1 - 1 + emin F128))%R.
Proof.
  intros Hx. destruct (F128_fields x Hx) as (_ & He & _ & _ & Hm & P). pose proof (f128_enc_ok x Hx) as Ha.
  fold e in He, P. unfold is_finite. rewrite P. subst W. unfold significand128. fold e. set (m := frac128 x) in *. clearbody e m.
  split; [exact Ha|]. split; [exact He|]. split; [destruct (e =? 0); lia|].
  split; [destruct (Z.eqb_spec e 0); lia|]. split; [destruct (Z.eqb_spec e 0); lia|].
  split; [change (inf_pattern F128) with (0x7FFF * 2 ^ 112); split; [lia|intros; split; [assumption|lia]]|].
  exact (mag_fields F128 e m ltac:(lia) Hm).
Qed.

(** The high word of the significand with a sticky bit for the low one. *)
Lemma sticky_word (h l : Z) : 0 <= l < 2 ^ 64 -> h .| b2z (z2b l) = jam (h * 2 ^ 64 + l) 64.
Proof.
  intros Hl. unfold jam. rewrite shr_div, Z.div_add_l, (Z.div_small l), Z.add_0_r by lia.
  do 2 f_equal. unfold z2b. do 2 f_equal. apply Z.mod_unique_pos with h; lia.
Qed.

Lemma lead128 (m : Z) : 0 <= m < 2 ^ 48 -> m .| 0x0001000000000000 = 2 ^ 48 + m.
Proof. intros Hm. rewrite Z.lor_comm. change 0x0001000000000000 with (1 * 2 ^ 48). rewrite lor_disjoint; lia. Qed.

(** The two words of the significand. *)
Lemma significand_words (x : float128_t) (e := expF128UI64 (uA_v64 x)) (f := fracF128UI64 (uA_v64 x)) : f128_ok x ->
  let h := if z2b e then f .| 0x0001000000000000 else f in
  0 <= h < 2 ^ 49 /\ 0 <= uA_v0 x < 2 ^ 64 /\ significand128 x = h * 2 ^ 64 + uA_v0 x.
Proof.
  intros Hx. destruct (F128_fields x Hx) as (_ & _ & Hf & Hl & _). unfold significand128, frac128, z2b. cbv zeta.
  fold e f. fold f in Hf. destruct (e =? 0); cbn [negb]; [|rewrite lead128 by exact Hf]; lia.
Qed.

Lemma jam64_bounds (w : Z) : 0 <= w < 2 ^ 113 -> 0 <= jam w 64 < 2 ^ 49 /\ (2 ^ 112 <= w -> 2 ^ 48 <= jam w 64).
Proof. intros Hw. rewrite jam_eq by lia. destruct (_ =? 0); zdm. Qed.

(** ** 32-bit results *)
Definition sticky12 (x : float128_t) : Z :=
  let sig64 := jam (significand128 x) 64 in
  let shiftDist := 0x4023 - expF128UI64 (uA_v64 x) in
  if 0 <? shiftDist then softfloat_shiftRightJam64 sig64 shiftDist else sig64.

Lemma f128_fixed12 (x : float128_t) : f128_ok x -> fixed12 F128 (f128_enc x) (sticky12 x).
Proof.
  intros Hx. destruct (view128 x Hx) as (_ & He & HW & HL & HZ & Fin & M). unfold fixed12, sticky12. rewrite M.
  set (e := expF128UI64 (uA_v64 x)) in *. set (w := significand128 x) in *. clearbody e w. cbv zeta.
  destruct (jam64_bounds w HW) as [B J].
  assert (S : same (2 ^ 1) (jam w 64) (IZR w * pow2 (- (64)))) by (apply (same_jam 0 64); try lia; apply (same_exact 1)).
  destruct (Z.ltb_spec 0 (0x4023 - e)) as [L|L].
  - rewrite softfloat_shiftRightJam64_jam by lia.
    split; [split; [apply jam_nonneg; lia|apply jam_bound; lia]|]. left. split; [apply Fin; lia|].
    destruct (Z.eq_dec e 0) as [E|E].
    + rewrite E, (jam_all 64) by lia.
      replace (b2z (z2b (jam w 64))) with (b2z (z2b w))
        by (unfold z2b; do 2 f_equal; rewrite jam_eq by lia; apply eq_true_iff_eq; rewrite !Z.eqb_eq; destruct (Z.eqb_spec (w mod 2 ^ 64) 0); zdm).
      apply same_flushed with (k := 113) (e := -16482); try lia. rewrite Rmult_assoc, <- pow2_add. reflexivity.
    + replace (IZR w * pow2 (Z.max e 1 - 1 + emin F128) * pow2 12)%R with (IZR w * pow2 (- (64)) * pow2 (- (0x4023 - e)))%R
        by (rewrite !Rmult_assoc, <- !pow2_add; do 2 f_equal; change (emin F128) with (-16494); lia).
      apply same_pow with (Z.max 1 (1 - (0x4023 - e))); [lia|]. apply same_jam; [lia|lia|exact S].
  - split; [lia|]. destruct (Z.eq_dec e 0x4023) as [E|E].
    + left. split; [apply Fin; lia|]. rewrite Rmult_assoc, <- pow2_add.
      replace (Z.max e 1 - 1 + emin F128 + 12) with (- (64)) by (change (emin F128) with (-16494); lia).
      apply (same_pow 1); [lia|exact S].
    + right. split; [lia|]. intros _. apply large_mag with (k := 112); [lia|lia|change (emin F128) with (-16494); lia].
Qed.

Lemma f128_to_ui32_spec (x : float128_t) (mode : Z) (exact : bool) (s : env) (a := f128_enc x) : f128_ok x ->
  to_int_spec 0 (2 ^ 32 - 1) 0xFFFFFFFF F128 s (mag_direction mode (sign_of F128 a)) exact a (f128_to_ui32 x mode exact s).
Proof.
  intros Hx. pose proof (f128_fixed12 x Hx) as X. destruct (significand_words x Hx) as (_ & Hl & E).
  unfold f128_to_ui32. rewrite (proj1 (F128_fields x Hx)). cbv zeta in *.
  match goal with |- context [if 0 <? _ then softfloat_shiftRightJam64 ?w _ else _] => replace w with (jam (significand128 x) 64) end.
  - fold (sticky12 x). rewrite softfloat_roundToUI32_eq by apply X. apply fixed12_to_int; try exact X; (apply f128_enc_ok; exact Hx) || lia || typeclasses eauto.
  - rewrite E, <- sticky_word by exact Hl. destruct (z2b (expF128UI64 (uA_v64 x))); [|reflexivity].
    now rewrite <- !Z.lor_assoc, (Z.lor_comm (b2z _)).
Qed.

Lemma f128_to_i32_spec (x : float128_t) (mode : Z) (exact : bool) (s : env) (a := f128_enc x) : f128_ok x ->
  to_int_spec (- 2 ^ 31) (2 ^ 31 - 1) (- 2 ^ 31) F128 s (mag_direction mode (sign_of F128 a)) exact a (f128_to_i32 x mode exact s).
Proof.
  intros Hx. pose proof (f128_fixed12 x Hx) as X. destruct (significand_words x Hx) as (_ & Hl & E).
  unfold f128_to_i32. rewrite (proj1 (F128_fields x Hx)). cbv zeta in *. rewrite sticky_word, <- E by exact Hl.
  fold (sticky12 x). rewrite softfloat_roundToI32_eq by apply X. apply fixed12_to_int; try exact X; (apply f128_enc_ok; exact Hx) || lia || typeclasses eauto.
Qed.

(** ** 64-bit results *)
Lemma extra_shift128 (h l dist : Z) (r := softfloat_shiftRightJam64Extra h l dist) :
  0 <= h < 2 ^ 49 -> 0 <= l < 2 ^ 64 -> 0 < dist ->
  0 <= ue_v r < 2 ^ 64 /\ 0 <= ue_extra r < 2 ^ 64 /\
  same (2 ^ 63) (ue_v r * 2 ^ 64 + ue_extra r) (IZR (h * 2 ^ 64 + l) * pow2 (- dist)).
Proof.
  intros Hh Hl Hd. subst r. unfold softfloat_shiftRightJam64Extra. destruct (Z.ltb_spec dist 64) as [L|L].
  - cbn [ue_v ue_extra]. rewrite neg_dist, shr_div, shl_mul by lia. replace (63 + 1 - dist) with (64 - dist) by lia.
    assert (P : 2 ^ 64 = 2 ^ dist * 2 ^ (64 - dist)) by (rewrite <- Z.pow_add_r by lia; f_equal; lia).
    assert (0 < 2 ^ dist /\ 0 < 2 ^ (64 - dist)) as [P1 P2] by (split; apply Z.pow_pos_nonneg; lia).
    assert (E : u64 (h * 2 ^ (64 - dist)) = h mod 2 ^ dist * 2 ^ (64 - dist))
      by (unfold uwrap; rewrite P; apply Z.mul_mod_distr_r; lia).
    rewrite E. pose proof (Z.div_mod h (2 ^ dist) ltac:(lia)) as D. pose proof (Z.mod_pos_bound h (2 ^ dist) P1) as Q.
    assert (T : 2 <= 2 ^ (64 - dist)) by (apply (Z.pow_le_mono_r 2 1); lia).
    assert (b2z (z2b l) < 2) by (destruct (z2b l); cbn; lia). assert (0 <= b2z (z2b l)) by (destruct (z2b l); cbn; lia).
    rewrite lor_disjoint by lia.
    split; [split; [apply Z.div_pos; lia|apply Z.div_lt_upper_bound; nia]|]. split; [nia|].
    replace (h / 2 ^ dist * 2 ^ 64 + (h mod 2 ^ dist * 2 ^ (64 - dist) + b2z (z2b l))) with (h * 2 ^ (64 - dist) + b2z (z2b l)) by (rewrite P, D at 1; ring).
    apply (same_pow (64 - dist) 63); [lia|].
    replace (IZR (h * 2 ^ 64 + l) * pow2 (- dist))%R with (IZR (h * 2 ^ (64 - dist)) + IZR l * pow2 (- dist))%R.
    + apply same_add; [exists h; reflexivity|]. apply same_tiny; [lia|]. unfold z2b.
      destruct (Z.eqb_spec l 0) as [->|N]; cbn [negb Z.b2z]; [left; split; [reflexivity|ring]|right; split; [reflexivity|]].
      pose proof (pow2_pos (- dist)). split; [apply Rmult_lt_0_compat; [apply IZR_lt; lia|assumption]|].
      apply Rlt_le_trans with (IZR (2 ^ 64) * pow2 (- dist))%R; [apply Rmult_lt_compat_r; [assumption|apply IZR_lt; lia]|].
      rewrite <- !pow2_IZR, <- pow2_add by lia. apply Req_le. reflexivity.
    + rewrite plus_IZR, Rmult_plus_distr_r. f_equal. rewrite !mult_IZR, <- !pow2_IZR, Rmult_assoc, <- pow2_add by lia. reflexivity.
  - cbn [ue_v ue_extra]. rewrite Z.mul_0_l, Z.add_0_l.
    assert (B : 0 <= b2z (z2b l) <= 1) by (destruct (z2b l); cbn; lia).
    destruct (Z.eqb_spec dist 64) as [->|N].
    + split; [lia|]. rewrite sticky_word by exact Hl. destruct (jam64_bounds (h * 2 ^ 64 + l)) as [J _]; [lia|]. split; [lia|].
      apply (same_pow 1); [lia|]. apply (same_jam 0 64); try lia. apply (same_exact 1).
    + split; [lia|]. assert (E : b2z (z2b h) .| b2z (z2b l) = b2z (z2b (h * 2 ^ 64 + l)))
        by (rewrite z2b_words by lia; destruct (z2b h), (z2b l); reflexivity).
      rewrite E. clear E. set (w := h * 2 ^ 64 + l) in *. assert (Hw : 0 <= w < 2 ^ 113) by (subst w; lia). clearbody w.
      split; [destruct (z2b w); cbn; lia|]. apply same_tiny; [lia|]. unfold z2b.
      destruct (Z.eqb_spec w 0) as [->|S0]; cbn [negb Z.b2z]; [left; split; [reflexivity|ring]|right; split; [reflexivity|]].
      replace (- dist) with (48 + (- dist - 48)) by lia. rewrite pow2_add.
      pose proof (tiny_bound w 113 (- dist - 48) ltac:(lia) ltac:(lia) ltac:(lia)) as T.
      replace (IZR w * (pow2 48 * pow2 (- dist - 48)))%R with (pow2 48 * (IZR w * pow2 (- dist - 48)))%R by ring.
      assert (pow2 48 = IZR (2 ^ 48)) as -> by (apply pow2_IZR; lia). assert (0 < IZR (2 ^ 48) < IZR (2 ^ 63))%R by (split; apply IZR_lt; reflexivity).
      split; [apply Rmult_lt_0_compat; lra|]. apply Rlt_trans with (IZR (2 ^ 48) * 1)%R; [apply Rmult_lt_compat_l; lra|lra].
Qed.

(** The two words of the significand shifted to the left. *)
Lemma shifted_words (x : float128_t) (shiftDist := 0x402F - expF128UI64 (uA_v64 x)) (sig64 := fracF128UI64 (uA_v64 x) .| 0x0001000000000000)
    (z := if z2b shiftDist then softfloat_shortShiftLeft128 sig64 (uA_v0 x) (- shiftDist) else {| v64 := sig64; v0 := uA_v0 x |}) :
  f128_ok x -> -15 <= shiftDist <= 0 -> fixed64 F128 (f128_enc x) (v64 z) (v0 z).
Proof.
  intros Hx. destruct (view128 x Hx) as (_ & He & HW & _ & _ & Fin & M).
  destruct (significand_words x Hx) as (Hh & Hl & E). unfold fixed64. rewrite M.
  subst sig64 shiftDist. intros Hd. replace (z2b (expF128UI64 (uA_v64 x))) with true in * by (unfold z2b; lia).
  set (h := fracF128UI64 _ .| _) in *. set (l := uA_v0 x) in *. set (e := expF128UI64 _) in *. set (w := significand128 x) in *.
  assert (Z : words_ok z /\ word_pair z = w * 2 ^ (e - 0x402F)).
  { subst z. unfold z2b. destruct (Z.eqb_spec (0x402F - e) 0) as [D|D]; cbn [negb].
    - replace (e - 0x402F) with 0 by lia. unfold words_ok, word_pair. cbn [v64 v0]. lia.
    - assert (2 ^ (e - 0x402F) <= 2 ^ 15) by (apply Z.pow_le_mono_r; lia).
      replace (- (0x402F - e)) with (e - 0x402F) by lia. rewrite E. apply shortShiftLeft128_spec; lia || nia. }
  destruct Z as [[O1 O2] Z]. split; [apply Fin; lia|]. split; [exact O2|]. split; [exact O1|].
  fold (word_pair z). rewrite Z. rewrite Rmult_assoc, <- pow2_add.
  replace (Z.max e 1 - 1 + emin F128 + 64) with (e - 0x402F) by (change (emin F128) with (-16494); lia).
  rewrite pow2_IZR, <- mult_IZR by lia. apply (same_pow 0); [lia|]. apply (same_exact 1).
Qed.

Lemma fractional_words (x : float128_t) (shiftDist := 0x402F - expF128UI64 (uA_v64 x)) (e := expF128UI64 (uA_v64 x))
    (z := softfloat_shiftRightJam64Extra (if z2b e then fracF128UI64 (uA_v64 x) .| 0x0001000000000000 else fracF128UI64 (uA_v64 x)) (uA_v0 x) shiftDist) :
  f128_ok x -> 0 < shiftDist -> fixed64 F128 (f128_enc x) (ue_v z) (ue_extra z).
Proof.
  intros Hx. destruct (view128 x Hx) as (_ & He & HW & _ & HZ & Fin & M).
  destruct (significand_words x Hx) as (Hh & Hl & E). unfold fixed64. rewrite M. fold e in He, HZ, Fin, M, Hh, E |- *. subst shiftDist. intros Hd.
  set (h := if z2b e then _ else _) in *. destruct (extra_shift128 h (uA_v0 x) (0x402F - e) Hh Hl Hd) as (B1 & B2 & S).
  split; [apply Fin; lia|]. split; [exact B1|]. split; [exact B2|]. rewrite <- E in S.
  destruct (Z.eq_dec e 0) as [E0|E0].
  - subst z. unfold softfloat_shiftRightJam64Extra. fold e. rewrite E0. change (0x402F - 0 <? 64) with false. cbn [ue_v ue_extra].
    change (0x402F - 0 =? 64) with false. rewrite Z.mul_0_l, Z.add_0_l.
    assert (E1 : b2z (z2b h) .| b2z (z2b (uA_v0 x)) = b2z (z2b (significand128 x)))
      by (rewrite E, z2b_words by lia; destruct (z2b h), (z2b (uA_v0 x)); reflexivity).
    rewrite E1. apply same_flushed with (k := 113) (e := -16430); try lia. rewrite Rmult_assoc, <- pow2_add. reflexivity.
  - rewrite Rmult_assoc, <- pow2_add.
    replace (Z.max e 1 - 1 + emin F128 + 64) with (- (0x402F - e)) by (change (emin F128) with (-16494); lia). exact S.
Qed.

Lemma f128_huge (x : float128_t) : f128_ok x -> 0x402F - expF128UI64 (uA_v64 x) < -15 ->
  (IZR (2 ^ 64) <= mag F128 (pattern_of F128 (f128_enc x)))%R.
Proof.
  intros Hx Hd. destruct (view128 x Hx) as (_ & He & _ & HL & _ & _ & ->).
  apply large_mag with (k := 112); [apply HL; lia|lia|change (emin F128) with (-16494); lia].
Qed.

(** The code of the overflow is the same for every operand. *)
Ltac code_is c :=
  match goal with |- context [ret ?v] =>
    replace v with c by (destruct (_ && _); [reflexivity|match goal with |- context [if ?b then _ else _] => destruct b end; reflexivity]) end.

Lemma f128_to_ui64_spec (x : float128_t) (mode : Z) (exact : bool) (s : env) (a := f128_enc x) : f128_ok x ->
  to_int_spec 0 (2 ^ 64 - 1) 0xFFFFFFFFFFFFFFFF F128 s (mag_direction mode (sign_of F128 a)) exact a (f128_to_ui64 x mode exact s).
Proof.
  intros Hx. subst a. unfold f128_to_ui64. rewrite (proj1 (F128_fields x Hx)). cbv zeta.
  destruct (Z.leb_spec (0x402F - expF128UI64 (uA_v64 x)) 0) as [L|L];
    [destruct (Z.ltb_spec (0x402F - expF128UI64 (uA_v64 x)) (-15)) as [L'|L']|].
  - code_is 0xFFFFFFFFFFFFFFFF. apply (overflow_to_int F128); [now apply f128_enc_ok|]. intros _. exists (2 ^ 64).
    split; [now apply f128_huge|destruct (sign_of F128 _); lia].
  - pose proof (shifted_words x Hx ltac:(lia)) as X. rewrite softfloat_roundToUI64_eq by apply X. now apply fixed64_to_int.
  - pose proof (fractional_words x Hx L) as X. rewrite softfloat_roundToUI64_eq by apply X. now apply fixed64_to_int.
Qed.

Lemma f128_to_i64_spec (x : float128_t) (mode : Z) (exact : bool) (s : env) (a := f128_enc x) : f128_ok x ->
  to_int_spec (- 2 ^ 63) (2 ^ 63 - 1) (- 2 ^ 63) F128 s (mag_direction mode (sign_of F128 a)) exact a (f128_to_i64 x mode exact s).
Proof.
  intros Hx. subst a. unfold f128_to_i64. rewrite (proj1 (F128_fields x Hx)). cbv zeta.
  destruct (Z.leb_spec (0x402F - expF128UI64 (uA_v64 x)) 0) as [L|L];
    [destruct (Z.ltb_spec (0x402F - expF128UI64 (uA_v64 x)) (-15)) as [L'|L']|].
  - code_is (- 2 ^ 63). apply (overflow_to_int F128); [now apply f128_enc_ok|]. intros _. exists (2 ^ 64).
    split; [now apply f128_huge|destruct (sign_of F128 _); lia].
  - pose proof (shifted_words x Hx ltac:(lia)) as X. rewrite softfloat_roundToI64_eq by apply X. now apply fixed64_to_int.
  - pose proof (fractional_words x Hx L) as X. rewrite softfloat_roundToI64_eq by apply X. now apply fixed64_to_int.
Qed.

(** ** NaNs on their way out *)
Lemma common_nan128 (x : float128_t) (s : env) : f128_ok x ->
  softfloat_f128UIToCommonNaN (uA_v64 x) (uA_v0 x) s =
  ({| nan_sign := sign_of F128 (f128_enc x); nan_v64 := frac128 x / 2 ^ 48; nan_v0 := u64 (uA_v0 x << 16) |},
   raised_env (if signalingb F128 (f128_enc x) then softfloat_flag_invalid else 0) s) /\ 0 <= frac128 x / 2 ^ 48 < 2 ^ 64.
Proof.
  intros Hx. destruct (F128_fields x Hx) as (Sa & _ & Hf & Hl & Hm & _). split; [|zdm].
  unfold softfloat_f128UIToCommonNaN, bind, ret. rewrite softfloat_isSigNaNF128UI_spec, when_raise by exact Hx. f_equal.
  assert (H1 : 0 <= uA_v64 x < 2 ^ 64) by exact (proj2 Hx). f_equal.
  - rewrite <- Sa. unfold signF128UI64. now rewrite uwrap_small by exact H1.
  - unfold softfloat_shortShiftLeft128. cbn [v64 v0]. rewrite neg_dist64, shl_mul, shr_div by lia. unfold frac128, fracF128UI64 in *.
    rewrite (land_low _ 0x0000FFFFFFFFFFFF 48) in * by (reflexivity || lia).
    set (h := uA_v64 x) in *. set (l := uA_v0 x) in *. clearbody h l.
    assert (E : u64 (h * 2 ^ 16) = h mod 2 ^ 48 * 2 ^ 16) by (unfold uwrap; change (2 ^ 64) with (2 ^ 48 * 2 ^ 16); apply Z.mul_mod_distr_r; lia).
    rewrite E. change (64 - 16) with 48. rewrite lor_disjoint by zdm. zdm.
Qed.

Lemma convert_nan_from128 (g : format) (x : float128_t) : 0 <= mb g <= 64 -> f128_ok x ->
  convert_nan F128 g (f128_enc x) =
  quiet g (with_sign g (sign_of F128 (f128_enc x)) (inf_pattern g + frac128 x / 2 ^ 48 / 2 ^ (64 - mb g))).
Proof.
  intros Hg Hx. destruct (F128_fields x Hx) as (_ & _ & _ & _ & Hm & P). unfold convert_nan. rewrite P. do 3 f_equal.
  change (mb F128) with 112. set (m := frac128 x) in *. set (e := expF128UI64 _) in *. clearbody m e.
  replace ((e * 2 ^ 112 + m) mod 2 ^ 112) with m by (apply Z.mod_unique_pos with e; lia).
  rewrite Z.div_div, <- Z.pow_add_r by (try apply Z.pow_nonzero; try apply Z.pow_pos_nonneg; lia).
  replace 112 with (48 + (64 - mb g) + mb g) by lia. rewrite Z.pow_add_r by lia.
  apply Z.div_mul_cancel_r; apply Z.pow_nonzero; lia.
Qed.

(** ** To the narrower formats *)

(** Everything below the smallest half-subnormal rounds alike. *)
Lemma tiny_product (f : format) (w n t : Z) : 0 < w < 2 ^ n -> 0 <= n -> n + t <= emin f - 1 ->
  (0 < IZR w * pow2 t < pow2 (emin f - 1))%R.
Proof.
  intros Hw Hn Ht. pose proof (tiny_bound w n (t - (emin f - 1)) Hw Hn ltac:(lia)) as [T1 T2].
  replace t with (t - (emin f - 1) + (emin f - 1)) by lia. rewrite pow2_add, <- Rmult_assoc.
  pose proof (pow2_pos (emin f - 1)). split; [now apply Rmult_lt_0_compat|].
  rewrite <- (Rmult_1_l (pow2 (emin f - 1))) at 2. now apply Rmult_lt_compat_r.
Qed.

(** The fraction with sticky bit against the significand, [k] bits lower. *)
Lemma sticky_significand (j m k : Z) : 0 <= m < 2 ^ 112 -> 0 <= k <= 110 -> same (2 ^ 1) j (IZR m * pow2 (- k)) ->
  same (2 ^ 1) (2 ^ (112 - k) + j) (IZR (2 ^ 112 + m) * pow2 (- k)).
Proof.
  intros Hm Hk S.
  replace (IZR (2 ^ 112 + m) * pow2 (- k))%R with (IZR (2 ^ (112 - k)) + IZR m * pow2 (- k))%R.
  - apply same_add; [|exact S]. exists (2 ^ (111 - k)). rewrite <- Z.pow_add_r by lia. f_equal. lia.
  - rewrite plus_IZR, Rmult_plus_distr_r. f_equal. rewrite <- !pow2_IZR, <- pow2_add by lia. f_equal.
Qed.

Lemma jam_zero (m d : Z) : 0 <= m -> 0 <= d -> jam m d = 0 <-> m = 0.
Proof.
  intros Hm Hd. assert (0 < 2 ^ d) by (apply Z.pow_pos_nonneg; lia).
  split; [|intros ->; unfold jam; rewrite Z.shiftr_0_l, Z.mod_0_l by lia; reflexivity]. rewrite jam_eq by lia.
  pose proof (Z.div_mod m (2 ^ d) ltac:(lia)) as D. destruct (Z.eqb_spec (m mod 2 ^ d) 0) as [E|_]; intros Q; [nia|].
  set (q := m / 2 ^ d) in *. clearbody q. zdm.
Qed.

Lemma f128_to_f64_spec (x : float128_t) (s : env) : f128_ok x -> convert_spec F128 F64 s (f128_enc x) (f128_to_f64 x s).
Proof.
  intros Hx. unfold convert_spec, f128_to_f64. destruct (classes128 x Hx) as [-> ->].
  destruct (F128_fields x Hx) as (Sa & He & Hf & Hl & Hm & P). rewrite Sa. cbv zeta.
  destruct (common_nan128 x s Hx) as [CN BN].
  destruct (Z.eqb_spec (expF128UI64 (uA_v64 x)) 0x7FFF) as [E|E]; cbn [andb].
  { assert (Z : z2b (fracF128UI64 (uA_v64 x) .| uA_v0 x) = z2b (frac128 x)) by (unfold frac128; rewrite z2b_lor, z2b_words by lia; reflexivity).
    rewrite Z. destruct (z2b (frac128 x)); cbn [negb]; [|unfold ret; now rewrite infinity64_eq].
    unfold bind, ret. rewrite CN, nan_to64, (convert_nan_from128 F64) by (assumption || (cbn; lia)). reflexivity. }
  assert (M : mag F128 (pattern_of F128 (f128_enc x)) = (IZR (significand128 x) * pow2 (Z.max (expF128UI64 (uA_v64 x)) 1 - 1 + emin F128))%R) by apply (view128 x Hx).
  rewrite M. unfold significand128.
  destruct (shortShiftLeft128_spec (fracF128UI64 (uA_v64 x)) (uA_v0 x) 14 ltac:(lia) ltac:(lia) Hl ltac:(lia)) as [[O1 O2] W].
  rewrite sticky_word by exact O1. fold (word_pair (softfloat_shortShiftLeft128 (fracF128UI64 (uA_v64 x)) (uA_v0 x) 14)). rewrite W. fold (frac128 x).
  set (e := expF128UI64 (uA_v64 x)) in *. set (m := frac128 x) in *. set (sgn := sign_of F128 (f128_enc x)).
  clearbody e m sgn. clear - He Hm E.
  assert (J : 0 <= jam (m * 2 ^ 14) 64 < 2 ^ 62) by (rewrite jam_eq by lia; destruct (_ =? 0); zdm).
  pose proof (jam_zero (m * 2 ^ 14) 64 ltac:(lia) ltac:(lia)) as JZ.
  assert (S : same (2 ^ 1) (jam (m * 2 ^ 14) 64) (IZR m * pow2 (- (50)))).
  { replace (IZR m * pow2 (- (50)))%R with (IZR (m * 2 ^ 14) * pow2 (- (64)))%R
      by (rewrite mult_IZR, <- pow2_IZR, Rmult_assoc, <- pow2_add by lia; reflexivity).
    apply (same_jam 0 64); try lia. apply (same_exact 1). }
  rewrite z2b_lor by lia. replace (jam (m * 2 ^ 14) 64 .| 0x4000000000000000) with (2 ^ 62 + jam (m * 2 ^ 14) 64)
    by (rewrite Z.lor_comm; change 0x4000000000000000 with (1 * 2 ^ 62); rewrite lor_disjoint; lia).
  set (j := jam (m * 2 ^ 14) 64) in *. clearbody j. unfold z2b. destruct (Z.eqb_spec e 0) as [->|N]; cbn [negb orb].
  - destruct (Z.eqb_spec j 0) as [Q|Q]; cbn [negb].
    + assert (m = 0) as -> by lia. apply zero64_result. ring.
    + assert (H : rounded_result F64 s sgn (IZR (2 ^ 62 + j) * pow2 (-16445)) (softfloat_roundPackToF64 sgn (0 - 0x3C01) (2 ^ 62 + j) s))
        by (apply softfloat_roundPackToF64_rounds with (k := 0) (y := IZR (2 ^ 62 + j)); try lia; [apply (same_exact 1)|reflexivity]).
      rewrite (rounded_result_unique F64 _ _ _ _ _ H (tiny_rounded F64 s sgn _ (tiny_product F64 (2 ^ 62 + j) 63 (-16445) ltac:(lia) ltac:(lia) ltac:(cbn; lia)))).
      apply (tiny_rounded F64). apply (tiny_product F64 m 112); [lia|lia|]. change (Z.max 0 1 - 1 + emin F128) with (-16494). cbn. lia.
  - apply softfloat_roundPackToF64_rounds with (k := 1) (y := (IZR (2 ^ 112 + m) * pow2 (- (50)))%R); try lia.
    + apply (sticky_significand j m 50); [lia|lia|exact S].
    + rewrite Rmult_assoc, <- pow2_add. do 2 f_equal. change (emin F64) with (-1074). change (emin F128) with (-16494). lia.
Qed.

Lemma f128_to_f32_spec (x : float128_t) (s : env) : f128_ok x -> convert_spec F128 F32 s (f128_enc x) (f128_to_f32 x s).
Proof.
  intros Hx. unfold convert_spec, f128_to_f32. destruct (classes128 x Hx) as [-> ->].
  destruct (F128_fields x Hx) as (Sa & He & Hf & Hl & Hm & P). rewrite Sa, sticky_word by exact Hl. fold (frac128 x). cbv zeta.
  destruct (common_nan128 x s Hx) as [CN BN].
  pose proof (jam_zero (frac128 x) 64 ltac:(lia) ltac:(lia)) as JZ.
  destruct (Z.eqb_spec (expF128UI64 (uA_v64 x)) 0x7FFF) as [E|E]; cbn [andb].
  { replace (z2b (jam (frac128 x) 64)) with (z2b (frac128 x)) by (unfold z2b; lia).
    destruct (z2b (frac128 x)); cbn [negb]; [|unfold ret; now rewrite infinity32_eq].
    unfold bind, ret. rewrite CN, nan_to32, (convert_nan_from128 F32) by (assumption || (cbn; lia)). reflexivity. }
  assert (M : mag F128 (pattern_of F128 (f128_enc x)) = (IZR (significand128 x) * pow2 (Z.max (expF128UI64 (uA_v64 x)) 1 - 1 + emin F128))%R) by apply (view128 x Hx).
  rewrite M. unfold significand128.
  set (e := expF128UI64 (uA_v64 x)) in *. set (m := frac128 x) in *. set (sgn := sign_of F128 (f128_enc x)).
  clearbody e m sgn. clear - He Hm E JZ.
  assert (B : 0 <= jam m 64 < 2 ^ 48) by (rewrite jam_eq by lia; destruct (_ =? 0); zdm).
  rewrite softfloat_shortShiftRightJam64_jam by lia.
  assert (J : 0 <= jam (jam m 64) 18 < 2 ^ 30) by (rewrite (jam_eq _ 18) by lia; destruct (_ =? 0); zdm).
  pose proof (jam_zero (jam m 64) 18 ltac:(lia) ltac:(lia)) as JJ.
  assert (S : same (2 ^ 1) (jam (jam m 64) 18) (IZR m * pow2 (- (82)))).
  { replace (IZR m * pow2 (- (82)))%R with (IZR m * pow2 (- (64)) * pow2 (- (18)))%R by (rewrite Rmult_assoc, <- pow2_add; reflexivity).
    apply (same_jam 1 18); try lia. apply (same_jam 0 64); try lia. apply (same_exact 1). }
  rewrite z2b_lor by lia. replace (jam (jam m 64) 18 .| 0x40000000) with (2 ^ 30 + jam (jam m 64) 18)
    by (rewrite Z.lor_comm; change 0x40000000 with (1 * 2 ^ 30); rewrite lor_disjoint; lia).
  set (j := jam (jam m 64) 18) in *. clearbody j. unfold z2b. destruct (Z.eqb_spec e 0) as [->|N]; cbn [negb orb].
  - destruct (Z.eqb_spec j 0) as [Q|Q]; cbn [negb].
    + assert (m = 0) as -> by lia. apply zero_result. ring.
    + assert (H : rounded_result F32 s sgn (IZR (2 ^ 30 + j) * pow2 (-16413)) (softfloat_roundPackToF32 sgn (0 - 0x3F81) (2 ^ 30 + j) s))
        by (apply softfloat_roundPackToF32_rounds with (k := 0) (y := IZR (2 ^ 30 + j)); try lia; [apply (same_exact 1)|reflexivity]).
      rewrite (rounded_result_unique F32 _ _ _ _ _ H (tiny_rounded F32 s sgn _ (tiny_product F32 (2 ^ 30 + j) 31 (-16413) ltac:(lia) ltac:(lia) ltac:(cbn; lia)))).
      apply (tiny_rounded F32). apply (tiny_product F32 m 112); [lia|lia|]. change (Z.max 0 1 - 1 + emin F128) with (-16494). cbn. lia.
  - apply softfloat_roundPackToF32_rounds with (k := 1) (y := (IZR (2 ^ 112 + m) * pow2 (- (82)))%R); try lia.
    + apply (sticky_significand j m 82); [lia|lia|exact S].
    + rewrite Rmult_assoc, <- pow2_add. do 2 f_equal. change (emin F32) with (-149). change (emin F128) with (-16494). lia.
Qed.
