(* ===== verification/F128Ops.v ===== *)
(** 128-bit floating point: the translation of the arithmetic, [f128_add.c],
    [f128_sub.c], [f128_mul.c], [f128_div.c], with rounding, normalisation and the
    two-word primitives that they call. *)
From Stdlib Require Import ZArith Bool Lia List.
From S2P Require Import Prelude Ieee Softfloat Primitives Builtins F128.
Import ListNotations.
Local Open Scope Z_scope.
Local Open Scope c_scope.
Local Open Scope M_scope.

(** ** Words ([primitives.h] and [s_*.c]) *)
Definition softfloat_eq128 (a64 a0 b64 b0 : Z) : bool := (a64 =? b64) && (a0 =? b0).

Definition softfloat_le128 (a64 a0 b64 b0 : Z) : bool := (a64 <? b64) || ((a64 =? b64) && (a0 <=? b0)).

Definition softfloat_add128 (a64 a0 b64 b0 : Z) : uint128 :=
  let zv0 := u64 (a0 + b0) in
  {| v64 := u64 (u64 (a64 + b64) + b2z (zv0 <? a0)); v0 := zv0 |}.

Definition softfloat_sub128 (a64 a0 b64 b0 : Z) : uint128 :=
  {| v64 := u64 (u64 (a64 - b64) - b2z (a0 <? b0)); v0 := u64 (a0 - b0) |}.

Definition softfloat_shiftRightJam128 (a64 a0 dist : Z) : uint128 :=
  if dist <? 64 then
    let u8NegDist := u8 (- dist) in
    {| v64 := a64 >> dist;
       v0 := u64 (a64 << (u8NegDist .& 63)) .| (a0 >> dist) .| b2z (z2b (u64 (a0 << (u8NegDist .& 63)))) |}
  else
    {| v64 := 0;
       v0 := if dist <? 127
             then (a64 >> (dist .& 63)) .| b2z (z2b ((a64 .& u64 (u64 (1 << (dist .& 63)) - 1)) .| a0))
             else b2z (z2b (a64 .| a0)) |}.

Record uint128_extra := { ue_v128 : uint128; ue_extra128 : Z }.

Definition softfloat_shortShiftRightJam128Extra (a64 a0 extra dist : Z) : uint128_extra :=
  let negDist := u8 (- dist) in
  {| ue_v128 := {| v64 := a64 >> dist; v0 := u64 (a64 << (negDist .& 63)) .| (a0 >> dist) |};
     ue_extra128 := u64 (a0 << (negDist .& 63)) .| b2z (z2b extra) |}.

Definition softfloat_shiftRightJam128Extra (a64 a0 extra dist : Z) : uint128_extra :=
  let u8NegDist := u8 (- dist) in
  let '(v, z_extra, extra) :=
    if dist <? 64 then
      ({| v64 := a64 >> dist; v0 := u64 (a64 << (u8NegDist .& 63)) .| (a0 >> dist) |},
       u64 (a0 << (u8NegDist .& 63)), extra)
    else if dist =? 64 then ({| v64 := 0; v0 := a64 |}, a0, extra)
    else
      let extra := extra .| a0 in
      if dist <? 128 then ({| v64 := 0; v0 := a64 >> (dist .& 63) |}, u64 (a64 << (u8NegDist .& 63)), extra)
      else ({| v64 := 0; v0 := 0 |}, if dist =? 128 then a64 else b2z (z2b a64), extra) in
  {| ue_v128 := v; ue_extra128 := z_extra .| b2z (z2b extra) |}.

(** The four words of the product, the low one first. *)
Definition softfloat_mul128To256M (a64 a0 b64 b0 : Z) : Z * Z * Z * Z :=
  let p0 := softfloat_mul64To128 a0 b0 in
  let p64 := softfloat_mul64To128 a64 b0 in
  let z64 := u64 (v0 p64 + v64 p0) in
  let z128 := u64 (v64 p64 + b2z (z64 <? v0 p64)) in
  let p128 := softfloat_mul64To128 a64 b64 in
  let z128 := u64 (z128 + v0 p128) in
  let z192 := u64 (v64 p128 + b2z (z128 <? v0 p128)) in
  let p64 := softfloat_mul64To128 a0 b64 in
  let z64 := u64 (z64 + v0 p64) in
  let p64_v64 := u64 (v64 p64 + b2z (z64 <? v0 p64)) in
  let z128 := u64 (z128 + p64_v64) in
  (v0 p0, z64, z128, u64 (z192 + b2z (z128 <? p64_v64))).

Definition softfloat_mul128By32 (a64 a0 b : Z) : uint128 :=
  let zv0 := u64 (a0 * b) in
  let mid := u64 (u32 (a0 >> 32) * b) in
  let carry := u32 (u64 ((zv0 >> 32) - mid)) in
  {| v64 := u64 (u64 (a64 * b) + (u64 (mid + carry) >> 32)); v0 := zv0 |}.

(** ** NaNs ([specialize.h], [s_propagateNaNF128UI.c]) *)
Definition defaultNaNF128UI64 : Z := 0xFFFF800000000000.
Definition defaultNaNF128UI0 : Z := 0.

Definition softfloat_propagateNaNF128UI (uiA64 uiA0 uiB64 uiB0 : Z) : M uint128 :=
  let isSigNaNA := softfloat_isSigNaNF128UI uiA64 uiA0 in
  let returnNonsigA := ret {| v64 := uiA64 .| 0x0000800000000000; v0 := uiA0 |} in
  let choose :=
    if isNaNF128UI uiA64 uiA0 then returnNonsigA
    else ret {| v64 := uiB64 .| 0x0000800000000000; v0 := uiB0 |} in
  if isSigNaNA || softfloat_isSigNaNF128UI uiB64 uiB0 then
    softfloat_raiseFlags softfloat_flag_invalid ;;;
    if isSigNaNA then returnNonsigA else choose
  else choose.

(** ** Rounding and packing *)
Definition softfloat_roundPackToF128 (sign : bool) (exp sig64 sig0 sigExtra : Z) : M float128_t :=
  s <- get ;;
  let roundingMode := softfloat_roundingMode s in
  let roundNearEven := roundingMode =? softfloat_round_near_even in
  let away := roundingMode =? (if sign then softfloat_round_min else softfloat_round_max) in
  let doIncrement_for sigExtra :=
    if negb roundNearEven && negb (roundingMode =? softfloat_round_near_maxMag) then away && z2b sigExtra
    else 0x8000000000000000 <=? sigExtra in
  let pack exp sig64 sig0 sigExtra doIncrement :=
    when (z2b sigExtra) (softfloat_raiseFlags softfloat_flag_inexact) ;;;
    let '(exp, sig64, sig0) :=
      if doIncrement : bool then
        let sig128 := softfloat_add128 sig64 sig0 0 1 in
        (exp, v64 sig128,
         v0 sig128 .& u64 (Z.lnot (b2z (negb (z2b (sigExtra .& 0x7FFFFFFFFFFFFFFF)) && roundNearEven))))
      else (if negb (z2b (sig64 .| sig0)) then 0 else exp, sig64, sig0) in
    ret (uZ_f {| v64 := packToF128UI64 sign exp sig64; v0 := sig0 |}) in
  let doIncrement := doIncrement_for sigExtra in
  if 0x7FFD <=? u32 exp then
    if exp <? 0 then
      let isTiny :=
        (softfloat_detectTininess s =? softfloat_tininess_beforeRounding) || (exp <? -1) || negb doIncrement
        || softfloat_lt128 sig64 sig0 0x0001FFFFFFFFFFFF 0xFFFFFFFFFFFFFFFF in
      let sig128Extra := softfloat_shiftRightJam128Extra sig64 sig0 sigExtra (u64 (- exp)) in
      let sig64 := v64 (ue_v128 sig128Extra) in
      let sig0 := v0 (ue_v128 sig128Extra) in
      let sigExtra := ue_extra128 sig128Extra in
      when (isTiny && z2b sigExtra) (softfloat_raiseFlags softfloat_flag_underflow) ;;;
      pack 0 sig64 sig0 sigExtra (doIncrement_for sigExtra)
    else if (0x7FFD <? exp)
            || ((exp =? 0x7FFD) && softfloat_eq128 sig64 sig0 0x0001FFFFFFFFFFFF 0xFFFFFFFFFFFFFFFF && doIncrement) then
      softfloat_raiseFlags (softfloat_flag_overflow .| softfloat_flag_inexact) ;;;
      if roundNearEven || (roundingMode =? softfloat_round_near_maxMag) || away then
        ret (uZ_f {| v64 := packToF128UI64 sign 0x7FFF 0; v0 := 0 |})
      else ret (uZ_f {| v64 := packToF128UI64 sign 0x7FFE 0x0000FFFFFFFFFFFF; v0 := 0xFFFFFFFFFFFFFFFF |})
    else pack exp sig64 sig0 sigExtra doIncrement
  else pack exp sig64 sig0 sigExtra doIncrement.

Definition softfloat_normRoundPackToF128 (sign : bool) (exp sig64 sig0 : Z) : M float128_t :=
  let '(exp, sig64, sig0) := if negb (z2b sig64) then (exp - 64, sig0, 0) else (exp, sig64, sig0) in
  let shiftDist := i8 (softfloat_countLeadingZeros64 sig64 - 15) in
  let exp := exp - shiftDist in
  if 0 <=? shiftDist then
    let sig128 :=
      if z2b shiftDist then softfloat_shortShiftLeft128 sig64 sig0 shiftDist else {| v64 := sig64; v0 := sig0 |} in
    let sig64 := v64 sig128 in
    let sig0 := v0 sig128 in
    if u32 exp <? 0x7FFD then
      ret (uZ_f {| v64 := packToF128UI64 sign (if z2b (sig64 .| sig0) then exp else 0) sig64; v0 := sig0 |})
    else softfloat_roundPackToF128 sign exp sig64 sig0 0
  else
    let sig128Extra := softfloat_shortShiftRightJam128Extra sig64 sig0 0 (u8 (- shiftDist)) in
    softfloat_roundPackToF128 sign exp (v64 (ue_v128 sig128Extra)) (v0 (ue_v128 sig128Extra)) (ue_extra128 sig128Extra).

Record exp32_sig128 := { e32s128_exp : Z; e32s128_sig : uint128 }.

Definition softfloat_normSubnormalF128Sig (sig64 sig0 : Z) : exp32_sig128 :=
  if negb (z2b sig64) then
    let shiftDist := i8 (softfloat_countLeadingZeros64 sig0 - 15) in
    {| e32s128_exp := -63 - shiftDist;
       e32s128_sig :=
         if shiftDist <? 0 then {| v64 := sig0 >> (- shiftDist); v0 := u64 (sig0 << (shiftDist .& 63)) |}
         else {| v64 := u64 (sig0 << shiftDist); v0 := 0 |} |}
  else
    let shiftDist := i8 (softfloat_countLeadingZeros64 sig64 - 15) in
    {| e32s128_exp := 1 - shiftDist; e32s128_sig := softfloat_shortShiftLeft128 sig64 sig0 shiftDist |}.

(** ** Addition and subtraction *)
Definition softfloat_addMagsF128 (uiA64 uiA0 uiB64 uiB0 : Z) (signZ : bool) : M float128_t :=
  let expA := expF128UI64 uiA64 in
  let sigA := {| v64 := fracF128UI64 uiA64; v0 := uiA0 |} in
  let expB := expF128UI64 uiB64 in
  let sigB := {| v64 := fracF128UI64 uiB64; v0 := uiB0 |} in
  let expDiff := expA - expB in
  let propagateNaN := uiZ <- softfloat_propagateNaNF128UI uiA64 uiA0 uiB64 uiB0 ;; ret (uZ_f uiZ) in
  let roundAndPack expZ sigZ sigZExtra := softfloat_roundPackToF128 signZ expZ (v64 sigZ) (v0 sigZ) sigZExtra in
  let shiftRight1 expZ sigZ sigZExtra :=
    let sig128Extra := softfloat_shortShiftRightJam128Extra (v64 sigZ) (v0 sigZ) sigZExtra 1 in
    roundAndPack expZ (ue_v128 sig128Extra) (ue_extra128 sig128Extra) in
  let newlyAligned expZ sigA sigB sigZExtra :=
    let sigZ := softfloat_add128 (v64 sigA .| 0x0001000000000000) (v0 sigA) (v64 sigB) (v0 sigB) in
    let expZ := expZ - 1 in
    if v64 sigZ <? 0x0002000000000000 then roundAndPack expZ sigZ sigZExtra
    else shiftRight1 (expZ + 1) sigZ sigZExtra in
  let lead sig := {| v64 := v64 sig .| 0x0001000000000000; v0 := v0 sig |} in
  if expDiff =? 0 then
    if expA =? 0x7FFF then
      if z2b (v64 sigA .| v0 sigA .| v64 sigB .| v0 sigB) then propagateNaN
      else ret (uZ_f {| v64 := uiA64; v0 := uiA0 |})
    else
      let sigZ := softfloat_add128 (v64 sigA) (v0 sigA) (v64 sigB) (v0 sigB) in
      if negb (z2b expA) then ret (uZ_f {| v64 := packToF128UI64 signZ 0 (v64 sigZ); v0 := v0 sigZ |})
      else shiftRight1 expA {| v64 := v64 sigZ .| 0x0002000000000000; v0 := v0 sigZ |} 0
  else if expDiff <? 0 then
    if expB =? 0x7FFF then
      if z2b (v64 sigB .| v0 sigB) then propagateNaN
      else ret (uZ_f {| v64 := packToF128UI64 signZ 0x7FFF 0; v0 := 0 |})
    else
      let expZ := expB in
      let align sigA expDiff :=
        let sig128Extra := softfloat_shiftRightJam128Extra (v64 sigA) (v0 sigA) 0 (u64 (- expDiff)) in
        newlyAligned expZ (ue_v128 sig128Extra) sigB (ue_extra128 sig128Extra) in
      if z2b expA then align (lead sigA) expDiff
      else
        let expDiff := expDiff + 1 in
        if negb (z2b expDiff) then newlyAligned expZ sigA sigB 0 else align sigA expDiff
  else
    if expA =? 0x7FFF then
      if z2b (v64 sigA .| v0 sigA) then propagateNaN else ret (uZ_f {| v64 := uiA64; v0 := uiA0 |})
    else
      let expZ := expA in
      let align sigB expDiff :=
        let sig128Extra := softfloat_shiftRightJam128Extra (v64 sigB) (v0 sigB) 0 (u64 expDiff) in
        newlyAligned expZ sigA (ue_v128 sig128Extra) (ue_extra128 sig128Extra) in
      if z2b expB then align (lead sigB) expDiff
      else
        let expDiff := expDiff - 1 in
        if negb (z2b expDiff) then newlyAligned expZ sigA sigB 0 else align sigB expDiff.

Definition softfloat_subMagsF128 (uiA64 uiA0 uiB64 uiB0 : Z) (signZ : bool) : M float128_t :=
  let expA := expF128UI64 uiA64 in
  let expB := expF128UI64 uiB64 in
  let sigA := softfloat_shortShiftLeft128 (fracF128UI64 uiA64) uiA0 4 in
  let sigB := softfloat_shortShiftLeft128 (fracF128UI64 uiB64) uiB0 4 in
  let expDiff := expA - expB in
  let propagateNaN := uiZ <- softfloat_propagateNaNF128UI uiA64 uiA0 uiB64 uiB0 ;; ret (uZ_f uiZ) in
  let normRoundPack signZ expZ sigZ := softfloat_normRoundPackToF128 signZ (expZ - 5) (v64 sigZ) (v0 sigZ) in
  let aBigger expZ sigA sigB :=
    normRoundPack signZ expZ (softfloat_sub128 (v64 sigA) (v0 sigA) (v64 sigB) (v0 sigB)) in
  let bBigger expZ sigA sigB :=
    let signZ := negb signZ in
    normRoundPack signZ expZ (softfloat_sub128 (v64 sigB) (v0 sigB) (v64 sigA) (v0 sigA)) in
  let lead sig := {| v64 := v64 sig .| 0x0010000000000000; v0 := v0 sig |} in
  if 0 <? expDiff then
    if expA =? 0x7FFF then
      if z2b (v64 sigA .| v0 sigA) then propagateNaN else ret (uZ_f {| v64 := uiA64; v0 := uiA0 |})
    else
      let newlyAlignedABigger sigB := aBigger expA (lead sigA) sigB in
      let align sigB expDiff := newlyAlignedABigger (softfloat_shiftRightJam128 (v64 sigB) (v0 sigB) (u64 expDiff)) in
      if z2b expB then align (lead sigB) expDiff
      else
        let expDiff := expDiff - 1 in
        if negb (z2b expDiff) then newlyAlignedABigger sigB else align sigB expDiff
  else if expDiff <? 0 then
    if expB =? 0x7FFF then
      if z2b (v64 sigB .| v0 sigB) then propagateNaN
      else ret (uZ_f {| v64 := packToF128UI64 (negb signZ) 0x7FFF 0; v0 := 0 |})
    else
      let newlyAlignedBBigger sigA := bBigger expB sigA (lead sigB) in
      let align sigA expDiff := newlyAlignedBBigger (softfloat_shiftRightJam128 (v64 sigA) (v0 sigA) (u64 (- expDiff))) in
      if z2b expA then align (lead sigA) expDiff
      else
        let expDiff := expDiff + 1 in
        if negb (z2b expDiff) then newlyAlignedBBigger sigA else align sigA expDiff
  else if expA =? 0x7FFF then
    if z2b (v64 sigA .| v0 sigA .| v64 sigB .| v0 sigB) then propagateNaN
    else
      softfloat_raiseFlags softfloat_flag_invalid ;;;
      ret (uZ_f {| v64 := defaultNaNF128UI64; v0 := defaultNaNF128UI0 |})
  else
    let expZ := if negb (z2b expA) then 1 else expA in
    if v64 sigB <? v64 sigA then aBigger expZ sigA sigB
    else if v64 sigA <? v64 sigB then bBigger expZ sigA sigB
    else if v0 sigB <? v0 sigA then aBigger expZ sigA sigB
    else if v0 sigA <? v0 sigB then bBigger expZ sigA sigB
    else
      s <- get ;;
      ret (uZ_f {| v64 := packToF128UI64 (softfloat_roundingMode s =? softfloat_round_min) 0 0; v0 := 0 |}).

Definition f128_add (a b : float128_t) : M float128_t :=
  let uiA64 := uA_v64 a in
  let uiA0 := uA_v0 a in
  let signA := signF128UI64 uiA64 in
  let uiB64 := uA_v64 b in
  let uiB0 := uA_v0 b in
  let signB := signF128UI64 uiB64 in
  if Bool.eqb signA signB then softfloat_addMagsF128 uiA64 uiA0 uiB64 uiB0 signA
  else softfloat_subMagsF128 uiA64 uiA0 uiB64 uiB0 signA.

Definition f128_sub (a b : float128_t) : M float128_t :=
  let uiA64 := uA_v64 a in
  let uiA0 := uA_v0 a in
  let signA := signF128UI64 uiA64 in
  let uiB64 := uA_v64 b in
  let uiB0 := uA_v0 b in
  let signB := signF128UI64 uiB64 in
  if Bool.eqb signA signB then softfloat_subMagsF128 uiA64 uiA0 uiB64 uiB0 signA
  else softfloat_addMagsF128 uiA64 uiA0 uiB64 uiB0 signA.

(** ** Multiplication *)
Definition f128_mul (a b : float128_t) : M float128_t :=
  let uiA64 := uA_v64 a in
  let uiA0 := uA_v0 a in
  let signA := signF128UI64 uiA64 in
  let expA := expF128UI64 uiA64 in
  let sigA := {| v64 := fracF128UI64 uiA64; v0 := uiA0 |} in
  let uiB64 := uA_v64 b in
  let uiB0 := uA_v0 b in
  let signB := signF128UI64 uiB64 in
  let expB := expF128UI64 uiB64 in
  let sigB := {| v64 := fracF128UI64 uiB64; v0 := uiB0 |} in
  let signZ := xorb signA signB in
  let propagateNaN := uiZ <- softfloat_propagateNaNF128UI uiA64 uiA0 uiB64 uiB0 ;; ret (uZ_f uiZ) in
  let infArg magBits :=
    if negb (z2b magBits) then
      softfloat_raiseFlags softfloat_flag_invalid ;;;
      ret (uZ_f {| v64 := defaultNaNF128UI64; v0 := defaultNaNF128UI0 |})
    else ret (uZ_f {| v64 := packToF128UI64 signZ 0x7FFF 0; v0 := 0 |}) in
  let zero := ret (uZ_f {| v64 := packToF128UI64 signZ 0 0; v0 := 0 |}) in
  let multiply expA sigA expB sigB :=
    let expZ := expA + expB - 0x4000 in
    let sigA := {| v64 := v64 sigA .| 0x0001000000000000; v0 := v0 sigA |} in
    let sigB := softfloat_shortShiftLeft128 (v64 sigB) (v0 sigB) 16 in
    let '(sig256Z_0, sig256Z_1, sig256Z_2, sig256Z_3) := softfloat_mul128To256M (v64 sigA) (v0 sigA) (v64 sigB) (v0 sigB) in
    let sigZExtra := sig256Z_1 .| b2z (z2b sig256Z_0) in
    let sigZ := softfloat_add128 sig256Z_3 sig256Z_2 (v64 sigA) (v0 sigA) in
    if 0x0002000000000000 <=? v64 sigZ then
      let sig128Extra := softfloat_shortShiftRightJam128Extra (v64 sigZ) (v0 sigZ) sigZExtra 1 in
      softfloat_roundPackToF128 signZ (expZ + 1) (v64 (ue_v128 sig128Extra)) (v0 (ue_v128 sig128Extra)) (ue_extra128 sig128Extra)
    else softfloat_roundPackToF128 signZ expZ (v64 sigZ) (v0 sigZ) sigZExtra in
  let normB expA sigA :=
    if negb (z2b expB) then
      if negb (z2b (v64 sigB .| v0 sigB)) then zero
      else
        let normExpSig := softfloat_normSubnormalF128Sig (v64 sigB) (v0 sigB) in
        multiply expA sigA (e32s128_exp normExpSig) (e32s128_sig normExpSig)
    else multiply expA sigA expB sigB in
  if expA =? 0x7FFF then
    if z2b (v64 sigA .| v0 sigA) || ((expB =? 0x7FFF) && z2b (v64 sigB .| v0 sigB)) then propagateNaN
    else infArg (expB .| v64 sigB .| v0 sigB)
  else if expB =? 0x7FFF then
    if z2b (v64 sigB .| v0 sigB) then propagateNaN else infArg (expA .| v64 sigA .| v0 sigA)
  else if negb (z2b expA) then
    if negb (z2b (v64 sigA .| v0 sigA)) then zero
    else
      let normExpSig := softfloat_normSubnormalF128Sig (v64 sigA) (v0 sigA) in
      normB (e32s128_exp normExpSig) (e32s128_sig normExpSig)
  else normB expA sigA.

(** ** Division *)

(** A step of long division: the quotient digit [q] leaves the remainder
    [rem * 2^29 - q * sigB], or one divisor more with the digit below. *)
Definition divide_step (sigB rem : uint128) (q : Z) : Z * uint128 :=
  let rem := softfloat_shortShiftLeft128 (v64 rem) (v0 rem) 29 in
  let term := softfloat_mul128By32 (v64 sigB) (v0 sigB) (u32 q) in
  let rem := softfloat_sub128 (v64 rem) (v0 rem) (v64 term) (v0 term) in
  if z2b (v64 rem .& 0x8000000000000000) then
    (u64 (q - 1), softfloat_add128 (v64 rem) (v0 rem) (v64 sigB) (v0 sigB))
  else (q, rem).

(** The loop [for (;;)], which starts with [ix] = 3: the last digit, the remainder that
    it is estimated from, and the digits [qs], the low one first. *)
Fixpoint divide_loop (ix : nat) (sigB : uint128) (recip32 : Z) (rem : uint128) (qs : list Z) : Z * uint128 * list Z :=
  let q64 := u64 (u32 (v64 rem >> 19) * recip32) in
  let q := u64 (q64 + 0x80000000) >> 32 in
  match ix with
  | O => (q, rem, qs)
  | S ix => let '(q, rem) := divide_step sigB rem q in divide_loop ix sigB recip32 rem (q :: qs)
  end.

Definition f128_div (a b : float128_t) : M float128_t :=
  let uiA64 := uA_v64 a in
  let uiA0 := uA_v0 a in
  let signA := signF128UI64 uiA64 in
  let expA := expF128UI64 uiA64 in
  let sigA := {| v64 := fracF128UI64 uiA64; v0 := uiA0 |} in
  let uiB64 := uA_v64 b in
  let uiB0 := uA_v0 b in
  let signB := signF128UI64 uiB64 in
  let expB := expF128UI64 uiB64 in
  let sigB := {| v64 := fracF128UI64 uiB64; v0 := uiB0 |} in
  let signZ := xorb signA signB in
  let propagateNaN := uiZ <- softfloat_propagateNaNF128UI uiA64 uiA0 uiB64 uiB0 ;; ret (uZ_f uiZ) in
  let invalid :=
    softfloat_raiseFlags softfloat_flag_invalid ;;;
    ret (uZ_f {| v64 := defaultNaNF128UI64; v0 := defaultNaNF128UI0 |}) in
  let infinity := ret (uZ_f {| v64 := packToF128UI64 signZ 0x7FFF 0; v0 := 0 |}) in
  let zero := ret (uZ_f {| v64 := packToF128UI64 signZ 0 0; v0 := 0 |}) in
  let divide expA sigA expB sigB :=
    let expZ := expA - expB + 0x3FFE in
    let sigA := {| v64 := v64 sigA .| 0x0001000000000000; v0 := v0 sigA |} in
    let sigB := {| v64 := v64 sigB .| 0x0001000000000000; v0 := v0 sigB |} in
    let '(expZ, rem) :=
      if softfloat_lt128 (v64 sigA) (v0 sigA) (v64 sigB) (v0 sigB)
      then (expZ - 1, softfloat_add128 (v64 sigA) (v0 sigA) (v64 sigA) (v0 sigA)) else (expZ, sigA) in
    let recip32 := softfloat_approxRecip32_1 (v64 sigB >> 17) in
    let '(q, rem, qs) := divide_loop 3 sigB recip32 rem [] in
    let q :=
      if (u64 (q + 1) .& 7) <? 2 then
        let rem := softfloat_shortShiftLeft128 (v64 rem) (v0 rem) 29 in
        let term := softfloat_mul128By32 (v64 sigB) (v0 sigB) (u32 q) in
        let rem := softfloat_sub128 (v64 rem) (v0 rem) (v64 term) (v0 term) in
        let '(q, rem) :=
          if z2b (v64 rem .& 0x8000000000000000) then
            (u64 (q - 1), softfloat_add128 (v64 rem) (v0 rem) (v64 sigB) (v0 sigB))
          else if softfloat_le128 (v64 sigB) (v0 sigB) (v64 rem) (v0 rem) then
            (u64 (q + 1), softfloat_sub128 (v64 rem) (v0 rem) (v64 sigB) (v0 sigB))
          else (q, rem) in
        if z2b (v64 rem .| v0 rem) then q .| 1 else q
      else q in
    let sigZExtra := u64 (q << 60) in
    let term := softfloat_shortShiftLeft128 0 (nth 1 qs 0) 54 in
    let sigZ :=
      softfloat_add128 (u64 (nth 2 qs 0 << 19)) (u64 (u64 (nth 0 qs 0 << 25) + (q >> 4))) (v64 term) (v0 term) in
    softfloat_roundPackToF128 signZ expZ (v64 sigZ) (v0 sigZ) sigZExtra in
  let normA expB sigB :=
    if negb (z2b expA) then
      if negb (z2b (v64 sigA .| v0 sigA)) then zero
      else
        let normExpSig := softfloat_normSubnormalF128Sig (v64 sigA) (v0 sigA) in
        divide (e32s128_exp normExpSig) (e32s128_sig normExpSig) expB sigB
    else divide expA sigA expB sigB in
  if expA =? 0x7FFF then
    if z2b (v64 sigA .| v0 sigA) then propagateNaN
    else if expB =? 0x7FFF then
      if z2b (v64 sigB .| v0 sigB) then propagateNaN else invalid
    else infinity
  else if expB =? 0x7FFF then
    if z2b (v64 sigB .| v0 sigB) then propagateNaN else zero
  else if negb (z2b expB) then
    if negb (z2b (v64 sigB .| v0 sigB)) then
      if negb (z2b (expA .| v64 sigA .| v0 sigA)) then invalid
      else softfloat_raiseFlags softfloat_flag_infinite ;;; infinity
    else
      let normExpSig := softfloat_normSubnormalF128Sig (v64 sigB) (v0 sigB) in
      normA (e32s128_exp normExpSig) (e32s128_sig normExpSig)
  else normA expB sigB.
