(* ===== verification/F128Round.v ===== *)
(** Two-word arithmetic as arithmetic on 128-bit numbers, and the proof that rounding
    and packing to binary128 is correct rounding. *)
From Stdlib Require Import ZArith Bool Lia Reals Lra.
From S2P Require Import Prelude Ieee Rounding RoundPack Softfloat Primitives Machine Contract Builtins F128 F128Compare F128Convert F128Ops.
Local Open Scope Z_scope.
Local Open Scope c_scope.

(** ** Sums, differences and order of pairs of words *)
Section Pairs.
Context (a64 a0 b64 b0 : Z) (Ha64 : 0 <= a64 < 2 ^ 64) (Ha0 : 0 <= a0 < 2 ^ 64) (Hb64 : 0 <= b64 < 2 ^ 64) (Hb0 : 0 <= b0 < 2 ^ 64).

Lemma add128_spec (z := softfloat_add128 a64 a0 b64 b0) :
  words_ok z /\ word_pair z = u128 (a64 * 2 ^ 64 + a0 + (b64 * 2 ^ 64 + b0)).
Proof.
  subst z. unfold softfloat_add128, words_ok, word_pair. cbn [v64 v0]. split; [split; apply uwrap_bound; lia|].
  unfold uwrap. destruct (Z.lt_ge_cases (a0 + b0) (2 ^ 64)).
  - rewrite (Z.mod_small (a0 + b0)) by lia. replace (a0 + b0 <? a0) with false by lia. cbn [Z.b2z]. zdm.
  - replace ((a0 + b0) mod 2 ^ 64) with (a0 + b0 - 2 ^ 64) by (apply Z.mod_unique with 1; lia).
    replace (a0 + b0 - 2 ^ 64 <? a0) with true by lia. cbn [Z.b2z]. zdm.
Qed.

Lemma sub128_spec (z := softfloat_sub128 a64 a0 b64 b0) :
  words_ok z /\ word_pair z = u128 (a64 * 2 ^ 64 + a0 - (b64 * 2 ^ 64 + b0)).
Proof.
  subst z. unfold softfloat_sub128, words_ok, word_pair. cbn [v64 v0]. split; [split; apply uwrap_bound; lia|].
  unfold uwrap. destruct (Z.ltb_spec a0 b0); cbn [Z.b2z].
  - replace ((a0 - b0) mod 2 ^ 64) with (a0 - b0 + 2 ^ 64) by (apply Z.mod_unique with (-1); lia). zdm.
  - rewrite (Z.mod_small (a0 - b0)) by lia. zdm.
Qed.

Lemma lt128_spec : softfloat_lt128 a64 a0 b64 b0 = (a64 * 2 ^ 64 + a0 <? b64 * 2 ^ 64 + b0).
Proof.
  unfold softfloat_lt128. destruct (Z.ltb_spec a64 b64), (Z.eqb_spec a64 b64), (Z.ltb_spec a0 b0);
    cbn [orb andb]; symmetry; (apply Z.ltb_lt || apply Z.ltb_ge); lia.
Qed.

Lemma le128_spec : softfloat_le128 a64 a0 b64 b0 = (a64 * 2 ^ 64 + a0 <=? b64 * 2 ^ 64 + b0).
Proof.
  unfold softfloat_le128. destruct (Z.ltb_spec a64 b64), (Z.eqb_spec a64 b64), (Z.leb_spec a0 b0);
    cbn [orb andb]; symmetry; (apply Z.leb_le || apply Z.leb_gt); lia.
Qed.

Lemma eq128_spec : softfloat_eq128 a64 a0 b64 b0 = (a64 * 2 ^ 64 + a0 =? b64 * 2 ^ 64 + b0).
Proof.
  unfold softfloat_eq128. destruct (Z.eqb_spec a64 b64), (Z.eqb_spec a0 b0);
    cbn [andb]; symmetry; (apply Z.eqb_eq || apply Z.eqb_neq); lia.
Qed.
End Pairs.

Lemma word_pair_bound (z : uint128) : words_ok z -> 0 <= word_pair z < 2 ^ 128.
Proof. unfold words_ok, word_pair. lia. Qed.

Lemma zero_words (a64 a0 : Z) : 0 <= a64 -> 0 <= a0 < 2 ^ 64 -> z2b (a64 .| a0) = z2b (a64 * 2 ^ 64 + a0).
Proof. intros. rewrite z2b_lor, z2b_words by lia. reflexivity. Qed.

Lemma neg_byte (d : Z) : 0 < d < 64 -> u8 (- d) .& 63 = 64 - d.
Proof.
  intros H. rewrite (land_low _ 63 6) by (reflexivity || lia). unfold uwrap.
  replace (- d) with (256 - d + (-1) * 256) by lia. change (2 ^ 8) with 256. rewrite Z.mod_add, (Z.mod_small (256 - d)) by lia.
  replace (256 - d) with (64 - d + 3 * 2 ^ 6) by lia. rewrite Z.mod_add by lia. apply Z.mod_small. lia.
Qed.

(** ** Shifts to the right *)

(** The bits of [a] that a shift by [d] moves out, at the top of a word. *)
Lemma shifted_out (a d : Z) : 0 < d < 64 -> u64 (a << (64 - d)) = a mod 2 ^ d * 2 ^ (64 - d).
Proof.
  intros Hd. rewrite shl_mul by lia. unfold uwrap. replace (2 ^ 64) with (2 ^ d * 2 ^ (64 - d)) by (rewrite <- Z.pow_add_r by lia; f_equal; lia).
  apply Z.mul_mod_distr_r; apply Z.pow_nonzero; lia.
Qed.

Lemma shift_pair (a64 a0 d : Z) : 0 < d < 64 -> 0 <= a64 < 2 ^ 64 -> 0 <= a0 < 2 ^ 64 ->
  let z := {| v64 := a64 >> d; v0 := u64 (a64 << (64 - d)) .| (a0 >> d) |} in
  words_ok z /\ word_pair z = (a64 * 2 ^ 64 + a0) / 2 ^ d.
Proof.
  intros Hd H64 H0 z. subst z. unfold words_ok, word_pair. cbn [v64 v0]. rewrite shifted_out, !shr_div by lia.
  assert (P : 2 ^ 64 = 2 ^ (64 - d) * 2 ^ d) by (rewrite <- Z.pow_add_r by lia; f_equal; lia).
  pose proof (two_pow_pos d ltac:(lia)) as P1. pose proof (two_pow_pos (64 - d) ltac:(lia)) as P2.
  assert (D : 0 <= a0 / 2 ^ d < 2 ^ (64 - d)) by (split; [apply Z.div_pos; lia|apply Z.div_lt_upper_bound; lia]).
  pose proof (Z.mod_pos_bound a64 (2 ^ d) P1) as M. rewrite lor_disjoint by lia.
  split; [split; [nia|split; [apply Z.div_pos; lia|apply Z.div_lt_upper_bound; nia]]|].
  apply Z.div_unique_pos with (a0 mod 2 ^ d); [apply Z.mod_pos_bound; lia|].
  pose proof (Z.div_mod a64 (2 ^ d) ltac:(lia)) as E64. pose proof (Z.div_mod a0 (2 ^ d) ltac:(lia)) as E0.
  rewrite E64 at 1. rewrite E0 at 1. rewrite P at 1 2. ring.
Qed.

Lemma shiftRightJam128_spec (a64 a0 d : Z) : 0 < d -> 0 <= a64 < 2 ^ 64 -> 0 <= a0 < 2 ^ 64 ->
  let z := softfloat_shiftRightJam128 a64 a0 d in
  words_ok z /\ word_pair z = jam (a64 * 2 ^ 64 + a0) d.
Proof.
  intros Hd H64 H0 z. subst z. unfold softfloat_shiftRightJam128. set (a := a64 * 2 ^ 64 + a0).
  assert (Ba : 0 <= a < 2 ^ 128) by (subst a; lia).
  destruct (Z.ltb_spec d 64) as [L|L].
  - rewrite neg_byte by lia. destruct (shift_pair a64 a0 d ltac:(lia) H64 H0) as [[O0 O64] E].
    fold a in E. unfold words_ok, word_pair in *. cbn [v64 v0] in *. unfold z2b. rewrite shl_wrap_zero by lia.
    replace (a0 mod 2 ^ d =? 0) with (a mod 2 ^ d =? 0).
    2:{ subst a. replace (2 ^ 64) with (2 ^ (64 - d) * 2 ^ d) by (rewrite <- Z.pow_add_r by lia; f_equal; lia).
        rewrite Z.mul_assoc, Z.add_comm, Z.mod_add by (apply Z.pow_nonzero; lia). reflexivity. }
    set (w := u64 (a64 << (64 - d)) .| (a0 >> d)) in *. unfold jam. rewrite (shr_div a) by lia. rewrite <- E.
    set (h := a64 >> d) in *. set (t := negb (a mod 2 ^ d =? 0)). clearbody w h t. clear E.
    assert (T : 0 <= w .| b2z t < 2 ^ 64) by (destruct t; cbn [Z.b2z]; [rewrite lor_1; zdm|rewrite Z.lor_0_r; lia]).
    split; [split; [exact T|exact O64]|]. rewrite <- (lor_disjoint h w), <- Z.lor_assoc, lor_disjoint by lia. reflexivity.
  - destruct (Z.ltb_spec d 127) as [L'|L'].
    + assert (K : d .& 63 = d - 64).
      { rewrite (land_low _ 63 6) by (reflexivity || lia). symmetry. apply Z.mod_unique_pos with 1; lia. }
      rewrite K, shl_mul, Z.mul_1_l by lia. pose proof (two_pow_pos (d - 64) ltac:(lia)) as P.
      assert (Q : 2 ^ (d - 64) <= 2 ^ 63) by (apply Z.pow_le_mono_r; lia).
      rewrite (uwrap_small 64 (2 ^ _)), (uwrap_small 64) by lia.
      rewrite (land_low a64 _ (d - 64)) by (rewrite ?Z.ones_equiv; lia).
      pose proof (Z.mod_pos_bound a64 (2 ^ (d - 64)) P) as M. rewrite zero_words by lia.
      assert (E : 2 ^ d = 2 ^ (d - 64) * 2 ^ 64) by (rewrite <- Z.pow_add_r by lia; f_equal; lia).
      assert (D : a / 2 ^ d = a64 / 2 ^ (d - 64) /\ a mod 2 ^ d = a64 mod 2 ^ (d - 64) * 2 ^ 64 + a0).
      { pose proof (Z.div_mod a64 (2 ^ (d - 64)) ltac:(lia)) as X.
        split; [symmetry; apply Z.div_unique_pos with (a64 mod 2 ^ (d - 64) * 2 ^ 64 + a0)
               |symmetry; apply Z.mod_unique_pos with (a64 / 2 ^ (d - 64))]; rewrite ?E; try (subst a; nia); lia. }
      unfold jam. rewrite !shr_div by lia. rewrite (proj1 D), (proj2 D). fold (z2b (a64 mod 2 ^ (d - 64) * 2 ^ 64 + a0)).
      unfold words_ok, word_pair. cbn [v64 v0]. rewrite Z.mul_0_l, Z.add_0_l. split; [|reflexivity]. split; [|lia].
      assert (B : 0 <= a64 / 2 ^ (d - 64) < 2 ^ 64) by (split; [apply Z.div_pos; lia|apply Z.div_lt_upper_bound; nia]).
      destruct (z2b _); cbn [Z.b2z]; [rewrite lor_1; zdm|rewrite Z.lor_0_r; lia].
    + rewrite zero_words by lia. fold a. rewrite <- (jam_all 128 a d) by lia. unfold words_ok, word_pair. cbn [v64 v0].
      split; [|lia]. split; [|lia]. rewrite (jam_all 128) by lia. destruct (z2b a); cbn; lia.
Qed.

(** ** Shifts with an extra word *)

(** The integer [N] stands for [s] shifted right by [d], as far as multiples of [2 ^ 63] can
    tell: the words and the extra word of a shift are such an integer. *)
Definition stands_for (s d N : Z) : Prop :=
  forall m, (s < m * 2 ^ (63 + d) <-> N < m * 2 ^ 63) /\ (m * 2 ^ (63 + d) < s <-> m * 2 ^ 63 < N).

Lemma same_stands (k s d N : Z) (y : R) : 0 <= d -> 0 <= k <= 63 + d -> stands_for s d N -> same (2 ^ k) s y ->
  same (2 ^ 63) N (y * pow2 (- d))%R.
Proof.
  intros Hd Hk H S m. specialize (H m).
  specialize (S (m * 2 ^ (63 + d - k))). rewrite <- Z.mul_assoc, <- Z.pow_add_r in S by lia. replace (63 + d - k + k) with (63 + d) in S by lia.
  assert (PR : (0 < pow2 d)%R) by auto.
  assert (E : (IZR (m * 2 ^ (63 + d)) = IZR (m * 2 ^ 63) * pow2 d)%R).
  { rewrite (pow2_IZR d), <- mult_IZR, <- Z.mul_assoc, <- Z.pow_add_r by lia. reflexivity. }
  assert (Y : (y = y * pow2 (- d) * pow2 d)%R) by (rewrite pow2_opp; field; lra).
  set (z := (y * pow2 (- d))%R) in *. clearbody z. rewrite E, Y in S. clear E Y.
  destruct S as [[A1 A2] [A3 A4]], H as [[B1 B2] [B3 B4]]. split; split; intros K.
  - apply B1, A1. now apply Rmult_lt_compat_r.
  - apply Rmult_lt_reg_r with (pow2 d); auto.
  - apply B3, A3. now apply Rmult_lt_compat_r.
  - apply Rmult_lt_reg_r with (pow2 d); auto.
Qed.

(** Keeping [64 - d] bits below the point of [a], and whether anything follows. *)
Lemma stands_for_jam (a e w d : Z) : 1 <= d <= 64 -> 64 <= w -> 0 <= e < 2 ^ w ->
  stands_for (a * 2 ^ w + e) (w - 64 + d) (a * 2 ^ (64 - d) .| b2z (z2b e)).
Proof.
  intros Hd Hw He m. set (x := a * 2 ^ (64 - d)).
  pose proof (two_pow_pos (64 - d) ltac:(lia)) as P1. pose proof (two_pow_pos (d - 1) ltac:(lia)) as P2. pose proof (two_pow_pos w ltac:(lia)) as P3.
  assert (E1 : m * 2 ^ 63 = m * 2 ^ (d - 1) * 2 ^ (64 - d)) by (rewrite <- Z.mul_assoc, <- Z.pow_add_r by lia; do 2 f_equal; lia).
  assert (E2 : m * 2 ^ (63 + (w - 64 + d)) = m * 2 ^ (d - 1) * 2 ^ w) by (rewrite <- Z.mul_assoc, <- Z.pow_add_r by lia; do 2 f_equal; lia).
  rewrite E2. assert (X : (x < m * 2 ^ 63 <-> a < m * 2 ^ (d - 1)) /\ (m * 2 ^ 63 < x <-> m * 2 ^ (d - 1) < a))
    by (rewrite E1; unfold x; split; split; nia).
  assert (S : (a * 2 ^ w + e < m * 2 ^ (d - 1) * 2 ^ w <-> a < m * 2 ^ (d - 1)) /\
              (m * 2 ^ (d - 1) * 2 ^ w < a * 2 ^ w + e <-> m * 2 ^ (d - 1) < a \/ m * 2 ^ (d - 1) = a /\ e <> 0)) by (split; split; nia).
  set (n := m * 2 ^ (d - 1)) in *. clearbody n. destruct S as [S1 S2], X as [X1 X2]. rewrite S1, S2.
  assert (Q : m * 2 ^ 63 = 2 * (m * 2 ^ 62)) by lia. set (h := m * 2 ^ 62) in *. clearbody h.
  assert (XE : a = n -> x = m * 2 ^ 63) by (intros ->; symmetry; exact E1).
  assert (XN : x = m * 2 ^ 63 -> a = n) by (intros XX; rewrite E1 in XX; unfold x in XX; nia).
  unfold z2b. destruct (Z.eqb_spec e 0) as [->|N]; cbn [negb Z.b2z].
  - rewrite Z.lor_0_r. tauto.
  - rewrite lor_1. pose proof (Z.div_mod x 2 ltac:(lia)). pose proof (Z.mod_pos_bound x 2 ltac:(lia)). clearbody x.
    split; [rewrite <- X1; lia|]. rewrite <- X2. split; [intros [K|[K _]]; [lia|specialize (XE (eq_sym K)); lia]|].
    intros K. destruct (Z.eq_dec x (m * 2 ^ 63)) as [EE|NE]; [right; split; [symmetry; auto|exact N]|left; lia].
Qed.

(** The number that three words stand for *)
Definition extra_value (z : uint128_extra) : Z := word_pair (ue_v128 z) * 2 ^ 64 + ue_extra128 z.
Definition extra_ok (z : uint128_extra) : Prop := words_ok (ue_v128 z) /\ 0 <= ue_extra128 z < 2 ^ 64.

Lemma sticky_bound (x : Z) (c : bool) : 0 <= x < 2 ^ 64 -> 0 <= x .| b2z c < 2 ^ 64.
Proof. intros Hx. destruct c; cbn [Z.b2z]; [rewrite lor_1; zdm|rewrite Z.lor_0_r; lia]. Qed.

Lemma sticky_extra (v : uint128) (x : Z) (c : bool) : 0 <= x < 2 ^ 64 ->
  extra_value {| ue_v128 := v; ue_extra128 := x .| b2z c |} = (word_pair v * 2 ^ 64 + x) .| b2z c.
Proof.
  intros Hx. unfold extra_value. cbn [ue_v128 ue_extra128]. pose proof (sticky_bound x c Hx).
  rewrite <- !lor_disjoint by lia. apply Z.lor_assoc.
Qed.

Section Extra.
Context (a64 a0 extra : Z) (H64 : 0 <= a64 < 2 ^ 64) (H0 : 0 <= a0 < 2 ^ 64) (He : 0 <= extra < 2 ^ 64).
Let a := a64 * 2 ^ 64 + a0.
Let s := a * 2 ^ 64 + extra.

Lemma short_extra_spec (d : Z) : 0 < d < 64 ->
  let z := {| ue_v128 := {| v64 := a64 >> d; v0 := u64 (a64 << (64 - d)) .| (a0 >> d) |};
              ue_extra128 := u64 (a0 << (64 - d)) .| b2z (z2b extra) |} in
  extra_ok z /\ stands_for s d (extra_value z).
Proof.
  intros Hd z. destruct (shift_pair a64 a0 d Hd H64 H0) as [O E]. fold a in E.
  pose proof (uwrap_bound 64 (a0 << (64 - d)) ltac:(lia)) as B.
  split; [split; [exact O|exact (sticky_bound _ _ B)]|]. subst z. rewrite sticky_extra by exact B. rewrite E, shifted_out by lia.
  assert (P : 2 ^ 64 = 2 ^ d * 2 ^ (64 - d)) by (rewrite <- Z.pow_add_r by lia; f_equal; lia).
  replace (a / 2 ^ d * 2 ^ 64 + a0 mod 2 ^ d * 2 ^ (64 - d)) with (a * 2 ^ (64 - d)).
  - replace d with (64 - 64 + d) at 1 by lia. apply stands_for_jam; lia.
  - pose proof (two_pow_pos d ltac:(lia)) as P1. pose proof (Z.div_mod a (2 ^ d) ltac:(lia)) as D.
    replace (a0 mod 2 ^ d) with (a mod 2 ^ d).
    2:{ unfold a. replace (a64 * 2 ^ 64) with (a64 * 2 ^ (64 - d) * 2 ^ d) by (rewrite P; ring). rewrite Z.add_comm. apply Z.mod_add. lia. }
    rewrite D at 1. rewrite P. ring.
Qed.

Lemma shortShiftRightJam128Extra_spec (d : Z) : 0 < d < 64 ->
  let z := softfloat_shortShiftRightJam128Extra a64 a0 extra d in extra_ok z /\ stands_for s d (extra_value z).
Proof. intros Hd. unfold softfloat_shortShiftRightJam128Extra. rewrite neg_byte by exact Hd. now apply short_extra_spec. Qed.

Lemma shiftRightJam128Extra_spec (d : Z) : 0 < d ->
  let z := softfloat_shiftRightJam128Extra a64 a0 extra d in extra_ok z /\ stands_for s d (extra_value z).
Proof.
  intros Hd z. subst z. unfold softfloat_shiftRightJam128Extra. destruct (Z.ltb_spec d 64) as [L|L].
  { rewrite neg_byte by lia. apply short_extra_spec. lia. }
  destruct (Z.eqb_spec d 64) as [->|N].
  { split; [split; [split; cbn; lia|exact (sticky_bound _ _ H0)]|]. rewrite sticky_extra by exact H0.
    pose proof (stands_for_jam a extra 64 64 ltac:(lia) ltac:(lia) ltac:(lia)) as K.
    change (2 ^ (64 - 64)) with 1 in K. rewrite Z.mul_1_r in K. exact K. }
  assert (Z2 : z2b (extra .| a0) = z2b (a0 * 2 ^ 64 + extra)) by (rewrite Z.lor_comm; apply zero_words; lia).
  replace s with (a64 * 2 ^ 128 + (a0 * 2 ^ 64 + extra)) by (unfold s, a; ring).
  destruct (Z.ltb_spec d 128) as [L'|L'].
  { set (k := d - 64). assert (Hk : 0 < k < 64) by lia.
    assert (K : d .& 63 = k) by (rewrite (land_low _ 63 6) by (reflexivity || lia); symmetry; apply Z.mod_unique_pos with 1; lia).
    assert (K' : u8 (- d) .& 63 = 64 - k).
    { rewrite (land_low _ 63 6) by (reflexivity || lia). unfold uwrap.
      replace (- d) with (256 - d + (-1) * 256) by lia. change (2 ^ 8) with 256. rewrite Z.mod_add, (Z.mod_small (256 - d)) by lia.
      symmetry. apply Z.mod_unique_pos with 2; lia. }
    rewrite K, K', Z2. pose proof (uwrap_bound 64 (a64 << (64 - k)) ltac:(lia)) as B.
    pose proof (two_pow_pos k ltac:(lia)) as P1. assert (Q : 0 <= a64 >> k < 2 ^ 64).
    { rewrite shr_div by lia. split; [apply Z.div_pos; lia|apply Z.div_lt_upper_bound; nia]. }
    split; [split; [split; cbn [ue_v128 v64 v0]; lia|exact (sticky_bound _ _ B)]|]. rewrite sticky_extra by exact B.
    unfold word_pair. cbn [v64 v0]. rewrite shifted_out, shr_div by lia.
    replace ((0 * 2 ^ 64 + a64 / 2 ^ k) * 2 ^ 64 + a64 mod 2 ^ k * 2 ^ (64 - k)) with (a64 * 2 ^ (64 - k)).
    - replace d with (128 - 64 + k) by lia. apply stands_for_jam; lia.
    - pose proof (Z.div_mod a64 (2 ^ k) ltac:(lia)) as D. rewrite D at 1.
      replace (2 ^ 64) with (2 ^ k * 2 ^ (64 - k)) by (rewrite <- Z.pow_add_r by lia; f_equal; lia). ring. }
  rewrite Z2. destruct (Z.eqb_spec d 128) as [->|N'].
  { split; [split; [split; cbn; lia|exact (sticky_bound _ _ H64)]|]. rewrite sticky_extra by exact H64.
    pose proof (stands_for_jam a64 (a0 * 2 ^ 64 + extra) 128 64 ltac:(lia) ltac:(lia) ltac:(lia)) as K.
    change (2 ^ (64 - 64)) with 1 in K. rewrite Z.mul_1_r in K. exact K. }
  assert (B : 0 <= b2z (z2b a64) < 2 ^ 64) by (destruct (z2b a64); cbn; lia).
  split; [split; [split; cbn; lia|exact (sticky_bound _ _ B)]|]. rewrite sticky_extra by exact B.
  set (t := a0 * 2 ^ 64 + extra). assert (T : 0 <= t < 2 ^ 128) by (subst t; lia).
  assert (S : 2 ^ 192 <= 2 ^ (63 + d)) by (apply Z.pow_le_mono_r; lia).
  replace ((word_pair {| v64 := 0; v0 := 0 |} * 2 ^ 64 + b2z (z2b a64)) .| b2z (z2b t)) with (b2z (z2b (a64 * 2 ^ 128 + t))).
  - assert (Q : 0 <= a64 * 2 ^ 128 + t < 2 ^ (63 + d)) by lia. set (q := a64 * 2 ^ 128 + t) in *. clearbody q.
    intros m. set (p := 2 ^ (63 + d)) in *. clearbody p. clear - Q. unfold z2b.
    assert (m <= -1 /\ m * p <= - p \/ m = 0 \/ 1 <= m /\ p <= m * p) as [M|[->|M]] by nia;
      destruct (Z.eqb_spec q 0); cbn [negb Z.b2z]; lia.
  - unfold word_pair, z2b. cbn [v64 v0].
    destruct (Z.eqb_spec a64 0), (Z.eqb_spec t 0), (Z.eqb_spec (a64 * 2 ^ 128 + t) 0); reflexivity || lia.
Qed.
End Extra.

(** ** Rounding *)

(** Rounding sees an integer with sticky bits only through its side of the half-way points. *)
Lemma stands_half (s d N : Z) : 0 <= d -> stands_for s d N ->
  N / 2 ^ 63 = s / 2 ^ (63 + d) /\ (N mod 2 ^ 63 = 0 <-> s mod 2 ^ (63 + d) = 0).
Proof.
  intros Hd H. pose proof (two_pow_pos (63 + d) ltac:(lia)) as P. set (p := 2 ^ (63 + d)) in *.
  pose proof (Z.div_mod N (2 ^ 63) ltac:(lia)) as E1. pose proof (Z.mod_pos_bound N (2 ^ 63) ltac:(lia)) as B1.
  pose proof (Z.div_mod s p ltac:(lia)) as E2. pose proof (Z.mod_pos_bound s p P) as B2.
  pose proof (H (N / 2 ^ 63)) as HA. pose proof (H (N / 2 ^ 63 + 1)) as HB. fold p in HA, HB. clear H. clearbody p.
  set (n := N / 2 ^ 63) in *. set (r := N mod 2 ^ 63) in *. set (q := s / p) in *. set (t := s mod p) in *. clearbody n r q t. subst N s.
  destruct HA as [HA1 HA2], HB as [HB1 _].
  assert (L : p * q + t < (n + 1) * p) by (apply HB1; lia).
  assert (U : n * p <= p * q + t) by (destruct (Z.lt_ge_cases (p * q + t) (n * p)) as [K|K]; [apply HA1 in K; lia|lia]).
  assert (Q : n = q) by nia. subst q. split; [reflexivity|]. split; intros K.
  - destruct (Z.eq_dec t 0); [assumption|]. assert (n * p < p * n + t) as X by lia. apply HA2 in X. lia.
  - destruct (Z.eq_dec r 0); [assumption|]. assert (n * 2 ^ 63 < 2 ^ 63 * n + r) as X by lia. apply HA2 in X. lia.
Qed.

Lemma stands_round (s d N : Z) (dir : direction) : 0 <= d -> stands_for s d N ->
  round_sig dir 64 N = round_sig dir 64 (jam s d) /\ (N mod 2 ^ 64 =? 0) = (jam s d mod 2 ^ 64 =? 0).
Proof.
  intros Hd H. destruct (stands_half s d N Hd H) as [Q R].
  assert (J : stands_for s d (jam s d)).
  { intros m. pose proof (jam_compare s d (m * 2 ^ 62) Hd) as K. replace (2 * (m * 2 ^ 62)) with (m * 2 ^ 63) in K by lia.
    rewrite Z.pow_add_r, Z.mul_assoc by lia. exact K. }
  destruct (stands_half s d _ Hd J) as [Q' R']. rewrite <- Q in Q'. rewrite <- R in R'. clear Q R J H. set (j := jam s d) in *. clearbody j.
  assert (E : N / 2 ^ 64 = j / 2 ^ 64 /\ (N mod 2 ^ 64 <? 2 ^ 63) = (j mod 2 ^ 64 <? 2 ^ 63) /\
              (N mod 2 ^ 64 =? 2 ^ 63) = (j mod 2 ^ 64 =? 2 ^ 63) /\ (N mod 2 ^ 64 =? 0) = (j mod 2 ^ 64 =? 0)).
  { split; [zdm|]. assert (B : forall b c : bool, (b = true <-> c = true) -> b = c) by (intros [] []; tauto || (intros [X Y]; discriminate (X eq_refl) || discriminate (Y eq_refl))).
    split; [|split]; apply B; rewrite ?Z.ltb_lt, ?Z.eqb_eq; zdm. }
  destruct E as (E1 & E2 & E3 & E4). split; [|exact E4]. rewrite !(round_sig_value 64) by lia. change (64 - 1) with 63.
  rewrite E1, E2, E3, E4. reflexivity.
Qed.

Lemma increment_bit (mode extra : Z) (sign : bool) : 0 <= extra < 2 ^ 64 ->
  (if negb (mode =? softfloat_round_near_even) && negb (mode =? softfloat_round_near_maxMag)
   then (mode =? (if sign then softfloat_round_min else softfloat_round_max)) && z2b extra
   else 0x8000000000000000 <=? extra) = (2 ^ 64 <=? extra + increment (mag_direction mode sign) 64).
Proof.
  intros He. unfold mag_direction, z2b.
  destruct (mode =? softfloat_round_near_even); [cbn [negb andb increment]; change (2 ^ (64 - 1)) with (2 ^ 63); apply eq_true_iff_eq; rewrite !Z.leb_le; lia|].
  destruct (mode =? softfloat_round_near_maxMag); [cbn [negb andb increment]; change (2 ^ (64 - 1)) with (2 ^ 63); apply eq_true_iff_eq; rewrite !Z.leb_le; lia|].
  cbn [negb andb]. destruct (mode =? _); cbn [increment andb].
  - apply eq_true_iff_eq. rewrite negb_true_iff, Z.eqb_neq, Z.leb_le. lia.
  - symmetry. apply Z.leb_gt. lia.
Qed.

(** The increment carries out of the extra word. *)
Lemma round_sig_words (d : direction) (w extra : Z) : 0 <= extra < 2 ^ 64 ->
  let c := 2 ^ 64 <=? extra + increment d 64 in
  round_sig d 64 (w * 2 ^ 64 + extra) =
    if c then (if negb (z2b (extra .& 0x7FFFFFFFFFFFFFFF)) && is_nearest_even d then 2 * ((w + 1) / 2) else w + 1) else w.
Proof.
  intros He c. pose proof (increment_bound d 64 ltac:(lia)) as I. unfold round_sig.
  replace ((w * 2 ^ 64 + extra) mod 2 ^ 64) with extra by (apply Z.mod_unique_pos with w; lia).
  assert (Q : (w * 2 ^ 64 + extra + increment d 64) / 2 ^ 64 = if c then w + 1 else w).
  { symmetry. subst c. destruct (Z.leb_spec (2 ^ 64) (extra + increment d 64)).
    - apply Z.div_unique_pos with (extra + increment d 64 - 2 ^ 64); lia.
    - apply Z.div_unique_pos with (extra + increment d 64); lia. }
  rewrite Q. rewrite (land_low _ 0x7FFFFFFFFFFFFFFF 63) by (reflexivity || lia). unfold z2b. rewrite negb_involutive.
  destruct (is_nearest_even d) eqn:N; cbn [andb]; [|rewrite andb_false_r; reflexivity].
  assert (ID : increment d 64 = 2 ^ 63) by (destruct d; discriminate N || reflexivity). rewrite andb_true_r. subst c. rewrite ID.
  destruct (Z.leb_spec (2 ^ 64) (extra + 2 ^ 63)), (Z.eqb_spec extra (2 ^ (64 - 1))), (Z.eqb_spec (extra mod 2 ^ 63) 0); try reflexivity; zdm.
Qed.

(** What a function that returns a float in two words delivers. *)
Definition packs (sign : bool) (b fl : Z) (s : env) (r : float128_t * env) : Prop :=
  f128_ok (fst r) /\ f128_enc (fst r) = with_sign F128 sign b /\ snd r = raised_env fl s.

(** From label [packReturn] back to the flags. *)
Lemma pack_tail128 (sign : bool) (mode e hi lo extra : Z) (s : env) (d := mag_direction mode sign) (w := hi * 2 ^ 64 + lo) :
  0 <= e <= 0x7FFD -> 0 <= hi < 2 ^ 49 -> 0 <= lo < 2 ^ 64 -> 0 <= extra < 2 ^ 64 -> e = 0 \/ 2 ^ 112 <= w ->
  packs sign (e * 2 ^ 112 + round_sig d 64 (w * 2 ^ 64 + extra)) (if extra =? 0 then 0 else softfloat_flag_inexact) s
    ((when (z2b extra) (softfloat_raiseFlags softfloat_flag_inexact) ;;;
      let '(exp, sig64, sig0) :=
        if 2 ^ 64 <=? extra + increment d 64 then
          let sig128 := softfloat_add128 hi lo 0 1 in
          (e, v64 sig128,
           v0 sig128 .& u64 (Z.lnot (b2z (negb (z2b (extra .& 0x7FFFFFFFFFFFFFFF)) && (mode =? softfloat_round_near_even)))))
        else (if negb (z2b (hi .| lo)) then 0 else e, hi, lo) in
      ret (uZ_f {| v64 := packToF128UI64 sign exp sig64; v0 := sig0 |}))%M s).
Proof.
  intros He Hh Hl Hx C. assert (W : 0 <= w < 2 ^ 113) by (subst w; lia). unfold packs, bind. rewrite when_raise.
  rewrite (round_sig_words d w extra Hx). rewrite (nearest_even_code mode sign). fold d.
  destruct (2 ^ 64 <=? extra + increment d 64).
  - destruct (add128_spec hi lo 0 1 ltac:(lia) ltac:(lia) ltac:(lia) ltac:(lia)) as [[Z0 Z64] ZE].
    set (z := softfloat_add128 hi lo 0 1) in *. clearbody z. fold w in ZE.
    replace (w + (0 * 2 ^ 64 + 1)) with (w + 1) in ZE by lia. rewrite (uwrap_small 128) in ZE by lia. unfold word_pair in ZE.
    set (t := negb _ && _). rewrite land_not_b2z by lia. cbn [ret fst snd].
    set (x := if t then 2 * (v0 z / 2) else v0 z).
    assert (B : 0 <= x < 2 ^ 64 /\ v64 z * 2 ^ 64 + x = if t then 2 * ((w + 1) / 2) else w + 1) by (subst x; destruct t; zdm).
    destruct (packed128 sign e {| v64 := v64 z; v0 := x |}) as [P1 P2]; [lia|split; cbn [v64 v0]; lia| |].
    { unfold word_pair. cbn [v64 v0]. destruct t; zdm. }
    unfold word_pair in P2. cbn [v64 v0] in P1, P2. rewrite (proj2 B) in P2. unfold ret. cbn [fst snd]. split; [exact P1|]. split; [exact P2|].
    unfold z2b. destruct (extra =? 0); reflexivity.
  - unfold ret. cbn [fst snd]. rewrite zero_words by lia. fold w.
    set (e' := if negb (z2b w) then 0 else e). assert (E : e' = e \/ e' = 0 /\ e = 0).
    { subst e'. unfold z2b. destruct (Z.eqb_spec w 0); cbn [negb]; lia. }
    destruct (packed128 sign e' {| v64 := hi; v0 := lo |}) as [P1 P2]; [lia|split; cbn [v64 v0]; lia| |].
    { unfold word_pair. cbn [v64 v0]. fold w. lia. }
    unfold word_pair in P2. cbn [v64 v0] in P1, P2. fold w in P2. replace e' with e in * by lia. split; [exact P1|]. split; [exact P2|].
    unfold z2b. destruct (extra =? 0); reflexivity.
Qed.

(** The code at the largest exponent and for subnormal results. *)
Lemma carry_out (d : direction) (w extra : Z) : 2 ^ 112 <= w < 2 ^ 113 -> 0 <= extra < 2 ^ 64 ->
  (2 ^ 177 <=? w * 2 ^ 64 + extra + increment d 64) = (w =? 2 ^ 113 - 1) && (2 ^ 64 <=? extra + increment d 64).
Proof.
  intros Hw Hx. pose proof (increment_bound d 64 ltac:(lia)). apply eq_true_iff_eq. rewrite andb_true_iff, !Z.leb_le, Z.eqb_eq. lia.
Qed.

Lemma overflow_words (sign : bool) (mode : Z) (s : env) (d := mag_direction mode sign) :
  packs sign (inf_pattern F128 - b2z (increment d 64 =? 0)) 5 s
    ((softfloat_raiseFlags (softfloat_flag_overflow .| softfloat_flag_inexact) ;;;
      if (mode =? softfloat_round_near_even) || (mode =? softfloat_round_near_maxMag)
         || (mode =? (if sign then softfloat_round_min else softfloat_round_max)) then
        ret (uZ_f {| v64 := packToF128UI64 sign 0x7FFF 0; v0 := 0 |})
      else ret (uZ_f {| v64 := packToF128UI64 sign 0x7FFE 0x0000FFFFFFFFFFFF; v0 := 0xFFFFFFFFFFFFFFFF |}))%M s).
Proof.
  subst d. destruct (infinity128_eq sign) as [I1 I2].
  destruct (packed128 sign 0x7FFE {| v64 := 0x0000FFFFFFFFFFFF; v0 := 0xFFFFFFFFFFFFFFFF |}) as [M1 M2];
    [lia|split; cbn; lia|unfold word_pair; cbn [v64 v0]; lia|].
  cbn [v64 v0] in M1, M2. unfold mag_direction, packs, bind, softfloat_raiseFlags, ret.
  destruct (mode =? softfloat_round_near_even); [|destruct (mode =? softfloat_round_near_maxMag); [|destruct (mode =? (if sign then _ else _))]];
    cbn [orb increment fst snd]; (split; [assumption|split; [|reflexivity]]); rewrite ?I2, ?M2; reflexivity.
Qed.

(** The C function computes the generic rounding on the three words taken together. *)
Lemma softfloat_roundPackToF128_eq (sign : bool) (exp hi lo extra : Z) (s : env) (d := env_direction s sign)
    (sig := (hi * 2 ^ 64 + lo) * 2 ^ 64 + extra) :
  - 2 ^ 20 < exp < 2 ^ 20 -> 0 <= lo < 2 ^ 64 -> 0 <= extra < 2 ^ 64 -> 2 ^ 176 <= sig < 2 ^ 177 ->
  packs sign (round_pack F128 d 64 exp sig) (round_pack_flags F128 d 64 (env_before s) exp sig) s
    (softfloat_roundPackToF128 sign exp hi lo extra s).
Proof.
  intros He Hl Hx Hs. unfold softfloat_roundPackToF128. change (bind get ?k s) with (k s s). cbv beta zeta.
  set (mode := softfloat_roundingMode s). assert (D : d = mag_direction mode sign) by reflexivity. clearbody d.
  set (w := hi * 2 ^ 64 + lo) in *. assert (Hw : 2 ^ 112 <= w < 2 ^ 113) by lia. assert (Hh : 0 <= hi < 2 ^ 49) by lia.
  rewrite !(increment_bit mode extra sign) by exact Hx. rewrite <- D.
  unfold round_pack, round_pack_flags, rp_overflow, rp_tiny, rp_sig.
  change (2 ^ eb F128 - 3) with 0x7FFD. change (mb F128 + 64 + 1) with 177. change (mb F128) with 112.
  rewrite eq128_spec, lt128_spec by lia. fold w. change (0x0001FFFFFFFFFFFF * 2 ^ 64 + 0xFFFFFFFFFFFFFFFF) with (2 ^ 113 - 1).
  assert (C := carry_out d w extra Hw Hx). fold sig in C. set (c := 2 ^ 64 <=? extra + increment d 64) in *.
  assert (X : sig mod 2 ^ 64 = extra) by (symmetry; apply Z.mod_unique_pos with w; subst sig; lia).
  destruct (Z.leb_spec 0x7FFD (u32 exp)) as [U|U].
  - destruct (Z.ltb_spec exp 0) as [E|E].
    + replace (0x7FFD <? exp) with false by (symmetry; apply Z.ltb_ge; lia).
      replace (exp =? 0x7FFD) with false by (symmetry; apply Z.eqb_neq; lia). cbn [orb andb].
      rewrite (uwrap_small 64 (- exp)) by lia.
      destruct (shiftRightJam128Extra_spec hi lo extra ltac:(lia) Hl Hx (- exp) ltac:(lia)) as [[Z1 Z2] Z3].
      fold w sig in Z3. set (z := softfloat_shiftRightJam128Extra hi lo extra (- exp)) in *. clearbody z.
      destruct (stands_round sig (- exp) _ d ltac:(lia) Z3) as [R1 R2]. unfold extra_value, word_pair in R1, R2.
      rewrite <- R1, <- R2. replace ((_ * 2 ^ 64 + ue_extra128 z) mod 2 ^ 64) with (ue_extra128 z)
        by (apply Z.mod_unique_pos with (v64 (ue_v128 z) * 2 ^ 64 + v0 (ue_v128 z)); lia).
      rewrite (increment_bit mode (ue_extra128 z) sign) by exact Z2. rewrite <- D.
      assert (T : 0 <= v64 (ue_v128 z) < 2 ^ 49).
      { destruct (stands_half sig (- exp) _ ltac:(lia) Z3) as [Q _]. assert (Q' : sig / 2 ^ (63 + - exp) < 2 ^ 113).
        { apply Z.div_lt_upper_bound; [apply two_pow_pos; lia|]. pose proof (Z.pow_le_mono_r 2 64 (63 + - exp) ltac:(lia) ltac:(lia)).
          set (p := 2 ^ (63 + - exp)) in *. clearbody p. lia. }
        rewrite <- Q in Q'. unfold extra_value, word_pair in Q'. destruct Z1. zdm. }
      set (tiny := (_ || _) || (w <? 2 ^ 113 - 1)).
      assert (I : tiny = env_before s || (exp <? -1) || (sig + increment d 64 <? 2 ^ 177)).
      { subst tiny. fold (env_before s).
        rewrite (Z.ltb_antisym (2 ^ 177) (sig + increment d 64)), C, <- orb_assoc. f_equal.
        destruct (Z.eqb_spec w (2 ^ 113 - 1)), (Z.ltb_spec w (2 ^ 113 - 1)), c; reflexivity || lia. }
      rewrite <- I. clearbody tiny. unfold bind at 1. rewrite when_raise.
      pose proof (pack_tail128 sign mode 0 (v64 (ue_v128 z)) (v0 (ue_v128 z)) (ue_extra128 z)
        (raised_env (if tiny && z2b (ue_extra128 z) then softfloat_flag_underflow else 0) s)) as P.
      rewrite <- D in P. replace (Z.max exp 0) with 0 by lia. destruct Z1 as [Z0 Z64].
      destruct P as (P1 & P2 & P3); [lia|exact T|exact Z0|exact Z2|left; reflexivity|]. split; [exact P1|]. split; [exact P2|].
      etransitivity; [exact P3|]. rewrite raised_env_lor. f_equal. unfold z2b. destruct (ue_extra128 z =? 0), tiny; reflexivity.
    + rewrite (uwrap_small 32 exp) in U by lia. replace (Z.max exp 0) with exp by lia.
      rewrite C, andb_assoc. destruct ((0x7FFD <? exp) || _) eqn:V.
      * rewrite D. apply overflow_words.
      * rewrite X. cbn [andb].
        pose proof (pack_tail128 sign mode exp hi lo extra s) as P. rewrite <- D in P. apply P; lia.
  - assert (E : 0 <= exp < 0x7FFD) by (unfold uwrap in U; destruct (Z.ltb_spec exp 0); zdm).
    replace (0x7FFD <? exp) with false by lia. replace (exp =? 0x7FFD) with false by lia.
    destruct (Z.ltb_spec exp 0); [lia|]. cbn [orb andb]. replace (Z.max exp 0) with exp by lia. rewrite X.
    pose proof (pack_tail128 sign mode exp hi lo extra s) as P. rewrite <- D in P. apply P; lia.
Qed.

(** ** What the operations deliver *)

(** A float in two words, as an encoding. *)
Definition encoded (r : float128_t * env) : Z * env := (f128_enc (fst r), snd r).
Definition rounded128 (s : env) (sign : bool) (x : R) (r : float128_t * env) : Prop :=
  f128_ok (fst r) /\ rounded_result F128 s sign x (encoded r).

Lemma softfloat_roundPackToF128_rounds (sign : bool) (k exp hi lo extra : Z) (s : env) (x y : R)
    (sig := (hi * 2 ^ 64 + lo) * 2 ^ 64 + extra) :
  - 2 ^ 20 < exp < 2 ^ 20 -> 0 <= lo < 2 ^ 64 -> 0 <= extra < 2 ^ 64 -> 2 ^ 176 <= sig < 2 ^ 177 ->
  0 <= k <= 63 -> same (2 ^ k) sig y -> x = (y * pow2 (exp - 64 + emin F128))%R ->
  rounded128 s sign x (softfloat_roundPackToF128 sign exp hi lo extra s).
Proof.
  intros He Hl Hx Hs Hk S X. destruct (softfloat_roundPackToF128_eq sign exp hi lo extra s He Hl Hx Hs) as (O & E & F).
  split; [exact O|]. unfold encoded. rewrite E, F.
  apply (round_pack_result F128 s sign 64 k exp sig x y); try assumption; try lia; change (mb F128) with 112; lia.
Qed.

Lemma exactly_rounded (s : env) (sign : bool) (x : R) (r : float128_t * env) : exactly s sign x r -> rounded128 s sign x r.
Proof.
  intros (z & b & -> & O & E & B & M). split; [exact O|]. unfold encoded. cbn [fst snd]. rewrite E.
  apply exact_result; [typeclasses eauto|exact B|exact M].
Qed.

(** Three words that stand for [s] shifted right by [d]. *)
Lemma shifted_rounds (sign : bool) (k d exp t : Z) (z : uint128_extra) (s : env) (x y : R) :
  - 2 ^ 20 < exp < 2 ^ 20 -> extra_ok z -> stands_for t d (extra_value z) -> 0 <= d -> 0 <= k <= 63 + d -> same (2 ^ k) t y ->
  2 ^ (176 + d) <= t < 2 ^ (177 + d) -> x = (y * pow2 (exp - 64 - d + emin F128))%R ->
  rounded128 s sign x (softfloat_roundPackToF128 sign exp (v64 (ue_v128 z)) (v0 (ue_v128 z)) (ue_extra128 z) s).
Proof.
  intros He [[Z0 Z64] Z2] Z3 Hd Hk S B X.
  apply softfloat_roundPackToF128_rounds with (k := 63) (y := (y * pow2 (- d))%R); try assumption; try lia.
  - pose proof (Z3 (2 ^ 113)) as [A1 A2]. pose proof (Z3 (2 ^ 114)) as [B1 B2].
    rewrite <- !Z.pow_add_r in A1, A2, B1, B2 by lia. replace (113 + (63 + d)) with (176 + d) in * by lia.
    replace (114 + (63 + d)) with (177 + d) in * by lia. unfold extra_value, word_pair in *. lia.
  - exact (same_stands k t d _ y Hd Hk Z3 S).
  - rewrite X, Rmult_assoc, <- pow2_add. do 2 f_equal. lia.
Qed.

(** Normalising first: either nothing was lost, or at most a few bits cancelled. *)
Lemma softfloat_normRoundPackToF128_rounds (sign : bool) (exp hi lo : Z) (s : env) (x y : R) (w := hi * 2 ^ 64 + lo) :
  - 2 ^ 19 < exp <= 0x7FFD -> 0 <= hi < 2 ^ 64 -> 0 <= lo < 2 ^ 64 -> 0 < w -> y = IZR w \/ 2 ^ 114 <= w /\ same 2 w y ->
  x = (y * pow2 (exp + emin F128))%R ->
  rounded128 s sign x (softfloat_normRoundPackToF128 sign exp hi lo s).
Proof.
  intros He Hh Hl Hw Hy X. unfold softfloat_normRoundPackToF128.
  set (p := if negb (z2b hi) then _ else _).
  assert (P : exists e h l, p = (e, h, l) /\ 0 < h < 2 ^ 64 /\ 0 <= l < 2 ^ 64 /\ - 2 ^ 19 - 64 < e <= 0x7FFD /\
    exists v, x = (v * pow2 (e + emin F128))%R /\ (v = IZR (h * 2 ^ 64 + l) \/ 2 ^ 50 <= h /\ same 2 (h * 2 ^ 64 + l) v)).
  { subst p. unfold z2b. destruct (Z.eqb_spec hi 0) as [->|N]; cbn [negb].
    - exists (exp - 64), lo, 0. split; [reflexivity|]. split; [lia|]. split; [lia|]. split; [lia|]. exists (y * pow2 64)%R. split.
      + rewrite X, Rmult_assoc, <- pow2_add. do 2 f_equal. lia.
      + left. destruct Hy as [->|[Hy _]]; [|lia]. rewrite (pow2_IZR 64), <- mult_IZR by lia. f_equal. lia.
    - exists exp, hi, lo. split; [reflexivity|]. split; [lia|]. split; [lia|]. split; [lia|]. exists y. split; [exact X|].
      fold w. destruct Hy as [Hy|[Hy S]]; [now left|right; split; [subst w; lia|exact S]]. }
  destruct P as (e & h & l & -> & Bh & Bl & Be & v & X' & Hv). clearbody w. clear X Hy Hw He Hh Hl.
  rewrite softfloat_countLeadingZeros64_spec by lia. destruct (leading h 64 Bh ltac:(lia)) as [L B].
  replace (nlz 64 h - 15) with (48 - Z.log2 h) by (unfold nlz; lia). set (g := Z.log2 h) in *. clearbody g.
  rewrite (swrap_small 8 (48 - g)) by fmt_lia. destruct (Z.leb_spec 0 (48 - g)) as [C|C].
  - assert (Ex : v = IZR (h * 2 ^ 64 + l)).
    { destruct Hv as [Hv|[Hv _]]; [exact Hv|]. pose proof (Z.pow_le_mono_r 2 (g + 1) 49 ltac:(lia) ltac:(lia)). lia. }
    assert (G : exists z, (if z2b (48 - g) then softfloat_shortShiftLeft128 h l (48 - g) else {| v64 := h; v0 := l |}) = z /\
                words_ok z /\ word_pair z = (h * 2 ^ 64 + l) * 2 ^ (48 - g) /\ 2 ^ 112 <= word_pair z < 2 ^ 113).
    { eexists. split; [reflexivity|].
      assert (E : 2 ^ 49 = 2 ^ (g + 1) * 2 ^ (48 - g)) by (rewrite <- Z.pow_add_r by lia; f_equal; lia).
      assert (E' : 2 ^ 48 = 2 ^ g * 2 ^ (48 - g)) by (rewrite <- Z.pow_add_r by lia; f_equal; lia).
      pose proof (two_pow_pos (48 - g) ltac:(lia)) as P.
      assert (Q : 2 ^ 112 <= (h * 2 ^ 64 + l) * 2 ^ (48 - g) < 2 ^ 113) by nia.
      unfold z2b. destruct (Z.eqb_spec (48 - g) 0) as [Z0|Z0]; cbn [negb].
      - rewrite Z0 in *. unfold words_ok, word_pair. cbn [v64 v0]. lia.
      - destruct (shortShiftLeft128_spec h l (48 - g)) as [O W]; [lia|lia|lia|nia|]. rewrite W. auto. }
    destruct G as (z & -> & [Z0 Z64] & ZE & ZB). rewrite zero_words by lia. fold (word_pair z).
    unfold z2b. destruct (Z.eqb_spec (word_pair z) 0) as [K|_]; [lia|]. cbn [negb].
    assert (Xz : x = (IZR (word_pair z) * pow2 (e - (48 - g) + emin F128))%R).
    { rewrite X', Ex, ZE, (mult_IZR _ (2 ^ _)), <- pow2_IZR, Rmult_assoc, <- pow2_add by lia. do 2 f_equal. lia. }
    destruct (Z.ltb_spec (u32 (e - (48 - g))) 0x7FFD) as [U|U].
    + apply exactly_rounded, exactly_packed; [|split; assumption|exact ZB|exact Xz].
      unfold uwrap in U. destruct (Z.ltb_spec (e - (48 - g)) 0); zdm.
    + unfold word_pair in *.
      apply softfloat_roundPackToF128_rounds with (k := 0) (y := IZR ((v64 z * 2 ^ 64 + v0 z) * 2 ^ 64 + 0)); try lia; [apply (same_exact 1)|].
      rewrite Xz, Z.add_0_r, (mult_IZR _ (2 ^ 64)), <- (pow2_IZR 64), Rmult_assoc, <- pow2_add by lia. do 2 f_equal. lia.
  - rewrite (uwrap_small 8 (- (48 - g))) by lia.
    destruct (shortShiftRightJam128Extra_spec h l 0 ltac:(lia) Bl ltac:(lia) (- (48 - g)) ltac:(lia)) as [O Z3].
    rewrite Z.add_0_r in Z3.
    apply shifted_rounds with (k := if 50 <=? g then 65 else 0) (d := - (48 - g)) (t := (h * 2 ^ 64 + l) * 2 ^ 64) (y := (v * pow2 64)%R);
      try assumption; try lia.
    + destruct (Z.leb_spec 50 g); lia.
    + destruct Hv as [->|[Hv S]].
      * apply (same_pow 0); [destruct (50 <=? g); lia|]. rewrite (pow2_IZR 64), <- mult_IZR by lia. apply (same_exact 1).
      * destruct (Z.leb_spec 50 g) as [G|G]; [exact (same_shl 1 64 _ _ ltac:(lia) ltac:(lia) S)|].
        pose proof (Z.pow_le_mono_r 2 (g + 1) 50 ltac:(lia) ltac:(lia)). lia.
    + replace (176 + - (48 - g)) with (g + 128) by lia. replace (177 + - (48 - g)) with (g + 1 + 128) by lia.
      rewrite !(Z.pow_add_r 2 _ 128) by lia. lia.
    + rewrite X', Rmult_assoc, <- pow2_add. do 2 f_equal. lia.
Qed.
