(* ===== verification/F128Arith.v ===== *)
(** Addition and subtraction of binary128 numbers are correctly rounded and meet
    the contract of the other formats. *)
From Stdlib Require Import ZArith Bool Lia Reals Lra.
From S2P Require Import Prelude Ieee Rounding RoundPack Softfloat Primitives Machine Contract Interface Builtins F128 F128Compare F128Convert F128Narrow F128Ops F128Round.
Local Open Scope Z_scope.
Local Open Scope c_scope.

(** ** Aligned operands *)

Lemma stands_for_self (t : Z) : stands_for t 0 t.
Proof. intros m. rewrite Z.add_0_r. tauto. Qed.

(** From label [newlyAligned] on: the significand [sx], the other one shifted by [d] with
    its extra word, and their sum in the words [z]. *)
Lemma aligned_sum (sign : bool) (e d sx sy v extra : Z) (z : uint128) (s : env) (x : R) :
  1 <= e <= 0x7FFE -> 0 <= d < 2 ^ 62 -> 2 ^ 112 <= sx < 2 ^ 113 -> 0 <= sy < 2 ^ 113 -> 0 <= v < 2 ^ 113 -> 0 <= extra < 2 ^ 64 ->
  stands_for (sy * 2 ^ 64) d (v * 2 ^ 64 + extra) -> words_ok z -> word_pair z = sx + v ->
  x = ((IZR sx + IZR sy * pow2 (- d)) * pow2 (e - 1 + emin F128))%R ->
  rounded128 s sign x
    ((if v64 z <? 0x0002000000000000 then softfloat_roundPackToF128 sign (e - 1) (v64 z) (v0 z) extra
      else
        let sig128Extra := softfloat_shortShiftRightJam128Extra (v64 z) (v0 z) extra 1 in
        softfloat_roundPackToF128 sign (e - 1 + 1) (v64 (ue_v128 sig128Extra)) (v0 (ue_v128 sig128Extra)) (ue_extra128 sig128Extra)) s).
Proof.
  intros He Hd Hx Hy Hv Hex S [Z0 Z64] W X. unfold word_pair in W. set (t := (v64 z * 2 ^ 64 + v0 z) * 2 ^ 64 + extra).
  assert (T : same (2 ^ 63) t ((IZR sx + IZR sy * pow2 (- d)) * pow2 64)%R).
  { replace t with (sx * 2 ^ 64 + (v * 2 ^ 64 + extra)) by (subst t; rewrite W; ring).
    replace ((IZR sx + IZR sy * pow2 (- d)) * pow2 64)%R with (IZR (sx * 2 ^ 64) + IZR (sy * 2 ^ 64) * pow2 (- d))%R
      by (rewrite !mult_IZR, <- !(pow2_IZR 64) by lia; ring).
    apply same_add; [exists (sx * 2); lia|]. apply same_stands with (k := 0) (s := sy * 2 ^ 64); try assumption; try lia. apply (same_exact 1). }
  set (y := ((IZR sx + IZR sy * pow2 (- d)) * pow2 64)%R) in *.
  assert (X' : forall n, x = (y * pow2 (e - 1 - 64 + emin F128 + n - n))%R).
  { intros n. subst y. rewrite X, !Rmult_assoc, <- pow2_add. do 2 f_equal. lia. }
  clearbody y. destruct (Z.ltb_spec (v64 z) 0x0002000000000000).
  - apply softfloat_roundPackToF128_rounds with (k := 63) (y := y); try assumption; try lia.
    rewrite (X' 0). do 2 f_equal. lia.
  - destruct (shortShiftRightJam128Extra_spec (v64 z) (v0 z) extra Z64 Z0 Hex 1 ltac:(lia)) as [O Z3].
    apply shifted_rounds with (k := 63) (d := 1) (t := t) (y := y); try assumption; try lia.
    rewrite (X' 0). do 2 f_equal. lia.
Qed.

(** The sum with the leading bit in either operand. *)
Lemma lead_sum (hs ls hf lf : Z) : 0 <= hs < 2 ^ 48 -> 0 <= ls < 2 ^ 64 -> 0 <= hf < 2 ^ 48 -> 0 <= lf < 2 ^ 64 ->
  let sum := 2 ^ 112 + (hf * 2 ^ 64 + lf) + (hs * 2 ^ 64 + ls) in
  let z := softfloat_add128 (hs .| 0x0001000000000000) ls hf lf in
  let z' := softfloat_add128 (hf .| 0x0001000000000000) lf hs ls in
  (words_ok z /\ word_pair z = sum) /\ words_ok z' /\ word_pair z' = sum.
Proof.
  intros Hs Ls Hf Lf sum z z'. subst z z'. rewrite !lead128 by assumption.
  destruct (add128_spec (2 ^ 48 + hs) ls hf lf) as [O E]; [lia..|]. destruct (add128_spec (2 ^ 48 + hf) lf hs ls) as [O' E']; [lia..|].
  rewrite (uwrap_small 128) in E, E' by lia. split; (split; [assumption|]); subst sum; lia.
Qed.

Lemma shifted_small (h l d : Z) : 0 <= h < 2 ^ 49 -> 0 <= l < 2 ^ 64 -> 0 < d < 2 ^ 62 ->
  let z := softfloat_shiftRightJam128Extra h l 0 (u64 d) in
  extra_ok z /\ v64 (ue_v128 z) < 2 ^ 48 /\ stands_for ((h * 2 ^ 64 + l) * 2 ^ 64) d (extra_value z).
Proof.
  intros Hh Hl Hd z. subst z. rewrite (uwrap_small 64 d) by lia.
  destruct (shiftRightJam128Extra_spec h l 0 ltac:(lia) Hl ltac:(lia) d ltac:(lia)) as [O S]. rewrite Z.add_0_r in S.
  split; [exact O|]. split; [|exact S]. destruct (stands_half _ d _ ltac:(lia) S) as [Q _]. destruct O as [[Z0 Z64] Z2].
  assert (Q' : (h * 2 ^ 64 + l) * 2 ^ 64 / 2 ^ (63 + d) < 2 ^ 113).
  { apply Z.div_lt_upper_bound; [apply two_pow_pos; lia|]. pose proof (Z.pow_le_mono_r 2 64 (63 + d) ltac:(lia) ltac:(lia)).
    set (p := 2 ^ (63 + d)) in *. clearbody p. lia. }
  rewrite <- Q in Q'. unfold extra_value, word_pair in Q'. zdm.
Qed.

(** The operand with the smaller exponent [e'], aligned and added by [sum] to the other. *)
Lemma align_smaller (sign : bool) (e e' h l w sx : Z) (sum : uint128 -> uint128) (s : env) (x : R) :
  1 <= e <= 0x7FFE -> 0 <= e' < e -> 0 <= h < 2 ^ 48 -> 0 <= l < 2 ^ 64 ->
  w = (if e' =? 0 then 0 else 2 ^ 112) + (h * 2 ^ 64 + l) -> 2 ^ 112 <= sx < 2 ^ 113 ->
  (forall z, words_ok z -> v64 z < 2 ^ 48 -> words_ok (sum z) /\ word_pair (sum z) = sx + word_pair z) ->
  x = (IZR sx * pow2 (e - 1 + emin F128) + IZR w * pow2 (Z.max e' 1 - 1 + emin F128))%R ->
  let newlyAligned z extra :=
    if v64 (sum z) <? 0x0002000000000000 then softfloat_roundPackToF128 sign (e - 1) (v64 (sum z)) (v0 (sum z)) extra
    else
      let sig128Extra := softfloat_shortShiftRightJam128Extra (v64 (sum z)) (v0 (sum z)) extra 1 in
      softfloat_roundPackToF128 sign (e - 1 + 1) (v64 (ue_v128 sig128Extra)) (v0 (ue_v128 sig128Extra)) (ue_extra128 sig128Extra) in
  let align z d :=
    let sig128Extra := softfloat_shiftRightJam128Extra (v64 z) (v0 z) 0 (u64 d) in
    newlyAligned (ue_v128 sig128Extra) (ue_extra128 sig128Extra) in
  rounded128 s sign x
    ((if z2b e' then align {| v64 := h .| 0x0001000000000000; v0 := l |} (e - e')
      else if negb (z2b (e - e' - 1)) then newlyAligned {| v64 := h; v0 := l |} 0 else align {| v64 := h; v0 := l |} (e - e' - 1)) s).
Proof.
  intros He He' Hh Hl W Hsx Hsum X newlyAligned align.
  assert (X' : forall d, d = e - Z.max e' 1 -> x = ((IZR sx + IZR w * pow2 (- d)) * pow2 (e - 1 + emin F128))%R).
  { intros d ->. rewrite X, Rmult_plus_distr_r, Rmult_assoc, <- pow2_add. do 3 f_equal. lia. }
  assert (Shift : forall h', 0 <= h' < 2 ^ 49 -> w = h' * 2 ^ 64 + l -> 0 < e - Z.max e' 1 ->
            rounded128 s sign x (align {| v64 := h'; v0 := l |} (e - Z.max e' 1) s)).
  { intros h' Hh' W' Hd. subst align newlyAligned. cbv beta zeta. cbn [v64 v0].
    destruct (shifted_small h' l (e - Z.max e' 1) Hh' Hl ltac:(lia)) as ([O B] & V & S). destruct (Hsum _ O V) as [O' E'].
    destruct O as [Z0 Z64]. eapply aligned_sum with (sx := sx) (sy := w); [exact He| |exact Hsx| | |exact B| |exact O'|exact E'|exact (X' _ eq_refl)].
    - lia.
    - destruct (e' =? 0); lia.
    - unfold word_pair. lia.
    - rewrite W'. exact S. }
  unfold z2b in *. destruct (Z.eqb_spec e' 0) as [->|N]; cbn [negb].
  - destruct (Z.eqb_spec (e - 0 - 1) 0) as [E|E]; cbn [negb].
    + subst newlyAligned. cbv beta.
      destruct (Hsum {| v64 := h; v0 := l |}) as [O' E']; [split; cbn [v64 v0]; lia|cbn [v64]; lia|].
      apply aligned_sum with (d := 0) (sx := sx) (sy := w) (v := word_pair {| v64 := h; v0 := l |}); unfold word_pair in *; cbn [v64 v0] in *; try assumption; try lia.
      * rewrite W, Z.add_0_r. apply stands_for_self.
      * apply X'. lia.
    + replace (e - 0 - 1) with (e - Z.max 0 1) by lia. apply Shift; lia.
  - rewrite lead128 by exact Hh. replace (e - e') with (e - Z.max e' 1) by lia. apply Shift; lia.
Qed.

(** ** Cancellation *)

Lemma lead_shifted (m : Z) : 0 <= m < 2 ^ 52 -> m .| 0x0010000000000000 = 2 ^ 52 + m.
Proof. intros Hm. rewrite Z.lor_comm. change 0x0010000000000000 with (1 * 2 ^ 52). rewrite lor_disjoint; lia. Qed.

Lemma jam_16 (w d : Z) : 0 <= w < 2 ^ 113 -> 0 < d -> 0 <= jam (16 * w) d < 2 ^ 116 /\
  ((IZR (16 * w) * pow2 (- d))%R = IZR (jam (16 * w) d) \/ jam (16 * w) d <= 2 ^ 113).
Proof.
  intros Hw Hd. pose proof (two_pow_pos d ltac:(lia)) as P. pose proof (Z.pow_le_mono_r 2 1 d ltac:(lia) ltac:(lia)) as P1.
  assert (Q : 0 <= 16 * w / 2 ^ d < 2 ^ 116) by (split; [apply Z.div_pos; lia|apply Z.div_lt_upper_bound; nia]).
  rewrite jam_eq by lia. split; [destruct (_ =? 0); zdm|].
  destruct (Z.le_gt_cases d 4) as [C|C]; [left|right].
  - assert (Z0 : 16 * w mod 2 ^ d = 0).
    { apply Z.mod_divide; [lia|]. apply Z.divide_mul_l. exists (2 ^ (4 - d)). rewrite <- Z.pow_add_r by lia. change 16 with (2 ^ 4). f_equal. lia. }
    rewrite Z0. cbn [Z.eqb]. rewrite (Z.div_mod (16 * w) (2 ^ d)) at 1 by lia. rewrite Z0, Z.add_0_r, mult_IZR, <- pow2_IZR, pow2_opp by lia.
    field. pose proof (pow2_pos d). lra.
  - pose proof (Z.pow_le_mono_r 2 5 d ltac:(lia) ltac:(lia)).
    assert (16 * w / 2 ^ d < 2 ^ 112) by (apply Z.div_lt_upper_bound; nia). destruct (_ =? 0); zdm.
Qed.

(** The operand with the smaller exponent [e'], aligned and subtracted by [diff] from the other. *)
Lemma cancel_smaller (sign : bool) (e e' h l w sx : Z) (diff : uint128 -> uint128) (s : env) (x : R) :
  1 <= e <= 0x7FFE -> 0 <= e' < e -> 0 <= h < 2 ^ 48 -> 0 <= l < 2 ^ 64 ->
  w = (if e' =? 0 then 0 else 2 ^ 112) + (h * 2 ^ 64 + l) -> 2 ^ 112 <= sx < 2 ^ 113 ->
  (forall z, words_ok z -> word_pair z < 2 ^ 116 -> words_ok (diff z) /\ word_pair (diff z) = 16 * sx - word_pair z) ->
  x = (IZR sx * pow2 (e - 1 + emin F128) - IZR w * pow2 (Z.max e' 1 - 1 + emin F128))%R ->
  let newlyAligned z := softfloat_normRoundPackToF128 sign (e - 5) (v64 (diff z)) (v0 (diff z)) in
  let align z d := newlyAligned (softfloat_shiftRightJam128 (v64 z) (v0 z) (u64 d)) in
  let z := softfloat_shortShiftLeft128 h l 4 in
  (0 < x)%R /\
  rounded128 s sign x
    ((if z2b e' then align {| v64 := v64 z .| 0x0010000000000000; v0 := v0 z |} (e - e')
      else if negb (z2b (e - e' - 1)) then newlyAligned z else align z (e - e' - 1)) s).
Proof.
  intros He He' Hh Hl W Hsx Hdiff X newlyAligned align z.
  assert (X' : forall d, d = e - Z.max e' 1 -> x = ((IZR (16 * sx) - IZR (16 * w) * pow2 (- d)) * pow2 (e - 5 + emin F128))%R).
  { intros d ->. rewrite X, !(mult_IZR 16). change 16%R with (IZR (2 ^ 4)). rewrite <- (pow2_IZR 4) by lia.
    replace (e - 1 + emin F128) with (4 + (e - 5 + emin F128)) by lia.
    replace (Z.max e' 1 - 1 + emin F128) with (4 + (- (e - Z.max e' 1) + (e - 5 + emin F128))) by lia. rewrite !pow2_add. ring. }
  assert (Done : forall y u, words_ok u -> word_pair u < 2 ^ 116 -> x = (y * pow2 (e - 5 + emin F128))%R -> same 2 (16 * sx - word_pair u) y ->
            y = IZR (16 * sx - word_pair u) \/ word_pair u <= 2 ^ 113 -> (0 < x)%R /\ rounded128 s sign x (newlyAligned u s)).
  { intros y u O V Xy S E. destruct (Hdiff u O V) as [[D0 D64] DE]. pose proof (word_pair_bound u O) as B.
    split.
    - rewrite Xy. apply Rmult_lt_0_compat; [|auto]. apply (S 0). lia.
    - subst newlyAligned. apply softfloat_normRoundPackToF128_rounds with (y := y); try assumption; try lia;
        change (v64 (diff u) * 2 ^ 64 + v0 (diff u)) with (word_pair (diff u)); rewrite DE; [lia|]. destruct E as [E|E]; [left; exact E|right; split; [lia|exact S]]. }
  assert (Shift : forall u, words_ok u -> word_pair u = 16 * w -> 0 < e - Z.max e' 1 -> 0 <= w < 2 ^ 113 ->
            (0 < x)%R /\ rounded128 s sign x (align u (e - Z.max e' 1) s)).
  { intros u O E Hd Hw. destruct O as [O0 O64]. unfold word_pair in E.
    destruct (shiftRightJam128_spec (v64 u) (v0 u) (e - Z.max e' 1) Hd O64 O0) as [O J]. rewrite E in J.
    destruct (jam_16 w _ Hw Hd) as [JB JE]. subst align. cbv beta. rewrite (uwrap_small 64 (e - _)) by lia.
    eapply Done; [exact O|lia|exact (X' _ eq_refl)| |]; rewrite J.
    - apply same_sub; [exists (8 * sx); lia|]. change 2 with (2 ^ 1).
      apply same_pow with (Z.max 1 (0 - (e - Z.max e' 1))); [lia|]. apply same_jam; try lia. apply (same_exact 1).
    - destruct JE as [->|JE]; [left; now rewrite minus_IZR|right; exact JE]. }
  destruct (shortShiftLeft128_spec h l 4 ltac:(lia) ltac:(lia) Hl ltac:(lia)) as [O E]. fold z in O, E. clearbody z.
  unfold z2b in *. destruct (Z.eqb_spec e' 0) as [->|N]; cbn [negb].
  - destruct (Z.eqb_spec (e - 0 - 1) 0) as [C|C]; cbn [negb].
    + apply Done with (y := IZR (16 * sx - word_pair z)); [exact O|lia| |apply same_exact|left; reflexivity].
      rewrite (X' 0), Z.opp_0, pow2_0, Rmult_1_r, <- minus_IZR by lia. do 3 f_equal. lia.
    + replace (e - 0 - 1) with (e - Z.max 0 1) by lia. apply Shift; [exact O|lia|lia|lia].
  - destruct O as [O0 O64]. unfold word_pair in *. rewrite lead_shifted by lia. replace (e - e') with (e - Z.max e' 1) by lia.
    apply Shift; [split; cbn [v64 v0]; lia|cbn [v64 v0]; lia|lia|lia].
Qed.

(** The fields of a finite operand, as the code reads them: the exponent, the words of the
    fraction, and the significand that they stand for. *)
Record operand (x : float128_t) (e h l w : Z) : Prop := {
  op_exp : expF128UI64 (uA_v64 x) = e;
  op_high : fracF128UI64 (uA_v64 x) = h;
  op_low : uA_v0 x = l;
  op_e : 0 <= e < 0x7FFF;
  op_h : 0 <= h < 2 ^ 48;
  op_l : 0 <= l < 2 ^ 64;
  op_w : w = (if e =? 0 then 0 else 2 ^ 112) + (h * 2 ^ 64 + l);
  op_mag : mag F128 (pattern_of F128 (f128_enc x)) = (IZR w * pow2 (Z.max e 1 - 1 + emin F128))%R
}.

Lemma finite_operand (x : float128_t) : f128_ok x -> is_finite F128 (f128_enc x) -> exists e h l w, operand x e h l w.
Proof.
  intros Hx Fx. destruct (view128 x Hx) as (_ & He & HW & _ & _ & Fin & M).
  destruct (F128_fields x Hx) as (_ & _ & Hf & Hl & _).
  eexists _, _, _, (significand128 x). split; try reflexivity; try assumption.
  - apply Fin in Fx. lia.
  - unfold significand128, frac128. destruct (_ =? 0); lia.
Qed.

Section Magnitudes.
Context (x y : float128_t) (sign : bool) (s : env) (Hx : f128_ok x) (Hy : f128_ok y).
Context (eA hA lA wA eB hB lB wB : Z) (A : operand x eA hA lA wA) (B : operand y eB hB lB wB).
Let a := f128_enc x.
Let b := f128_enc y.

Lemma addMags_finite128 :
  rounded128 s sign (mag F128 (pattern_of F128 a) + mag F128 (pattern_of F128 b))
    (softfloat_addMagsF128 (uA_v64 x) (uA_v0 x) (uA_v64 y) (uA_v0 y) sign s).
Proof.
  destruct A as [EA HA LA RA RhA RlA WA MA], B as [EB HB LB RB RhB RlB WB MB]. subst a b.
  unfold softfloat_addMagsF128. rewrite EA, EB, HA, HB, LA, LB, MA, MB. cbv zeta. cbn [v64 v0]. clear EA EB HA HB LA LB MA MB A B.
  unfold z2b. destruct (Z.eqb_spec (eA - eB) 0) as [D|D].
  - assert (eB = eA) as -> by lia. destruct (Z.eqb_spec eA 0x7FFF); [lia|].
    destruct (add128_spec hA lA hB lB ltac:(lia) RlA ltac:(lia) RlB) as [O E]. rewrite (uwrap_small 128) in E by lia.
    rewrite negb_involutive. destruct (Z.eqb_spec eA 0) as [->|N]; cbn [negb].
    + apply exactly_rounded. change (Z.max 0 1 - 1 + emin F128) with (emin F128).
      destruct (packed128 sign 0 _ ltac:(lia) O) as [P1 P2]; [lia|].
      eexists _, _. split; [reflexivity|]. split; [exact P1|]. split; [exact P2|]. rewrite E.
      split; [change (inf_pattern F128) with (0x7FFF * 2 ^ 112); cbn [Z.eqb] in *; lia|].
      etransitivity; [apply (mag_pack F128 0); change (mb F128) with 112; cbn [Z.eqb] in *; lia|].
      rewrite <- Rmult_plus_distr_r, <- plus_IZR. do 2 f_equal. cbn [Z.eqb] in *. lia.
    + set (z := softfloat_add128 hA lA hB lB) in *. clearbody z. destruct O as [Z0 Z64]. unfold word_pair in E.
      assert (V : 0 <= v64 z < 2 ^ 49) by lia.
      assert (L : v64 z .| 0x0002000000000000 = 2 ^ 49 + v64 z).
      { rewrite Z.lor_comm. change 0x0002000000000000 with (1 * 2 ^ 49). rewrite lor_disjoint; lia. }
      rewrite L. destruct (shortShiftRightJam128Extra_spec (2 ^ 49 + v64 z) (v0 z) 0 ltac:(lia) Z0 ltac:(lia) 1 ltac:(lia)) as [O Z3].
      rewrite Z.add_0_r in Z3. rewrite Z.max_l by lia.
      apply shifted_rounds with (k := 0) (d := 1) (t := ((2 ^ 49 + v64 z) * 2 ^ 64 + v0 z) * 2 ^ 64) (y := IZR (((2 ^ 49 + v64 z) * 2 ^ 64 + v0 z) * 2 ^ 64));
        try assumption; try lia; [apply (same_exact 1)|].
      rewrite <- Rmult_plus_distr_r, <- plus_IZR. rewrite (mult_IZR _ (2 ^ 64)), <- (pow2_IZR 64), Rmult_assoc, <- pow2_add by lia.
      f_equal; [f_equal; lia|f_equal; lia].
  - destruct (Z.ltb_spec (eA - eB) 0) as [L|L].
    + destruct (Z.eqb_spec eB 0x7FFF); [lia|]. destruct (Z.eqb_spec eB 0) as [|_]; [lia|].
      replace (eA - eB + 1 =? 0) with (eB - eA - 1 =? 0) by lia. replace (- (eA - eB)) with (eB - eA) by lia.
      replace (- (eA - eB + 1)) with (eB - eA - 1) by lia.
      refine (align_smaller sign eB eA hA lA wA wB (fun z => softfloat_add128 (v64 z .| 0x0001000000000000) (v0 z) hB lB) s _ _ _ RhA RlA WA _ _ _); try lia.
      * intros z [Z0 Z64] V. destruct (lead_sum (v64 z) (v0 z) hB lB ltac:(lia) Z0 RhB RlB) as [[O E] _]. split; [exact O|]. rewrite E, WB. reflexivity.
      * rewrite (Z.max_l eB 1) by lia. ring.
    + destruct (Z.eqb_spec eA 0x7FFF); [lia|]. destruct (Z.eqb_spec eA 0) as [|_]; [lia|].
      refine (align_smaller sign eA eB hB lB wB wA (fun z => softfloat_add128 (hA .| 0x0001000000000000) lA (v64 z) (v0 z)) s _ _ _ RhB RlB WB _ _ _); try lia.
      * intros z [Z0 Z64] V. destruct (lead_sum (v64 z) (v0 z) hA lA ltac:(lia) Z0 RhA RlA) as [_ [O E]]. split; [exact O|]. rewrite E, WA. reflexivity.
      * rewrite (Z.max_l eA 1) by lia. ring.
Qed.

(** What a difference of magnitudes delivers. *)
Definition sub_result128 (x : R) (r : float128_t * env) : Prop :=
  (x = 0%R -> f128_ok (fst r) /\ encoded r = (with_sign F128 (softfloat_roundingMode s =? softfloat_round_min) 0, s)) /\
  ((0 < x)%R -> rounded128 s sign x r) /\
  ((x < 0)%R -> rounded128 s (negb sign) (- x) r).

Lemma subMags_finite128 :
  sub_result128 (mag F128 (pattern_of F128 a) - mag F128 (pattern_of F128 b))
    (softfloat_subMagsF128 (uA_v64 x) (uA_v0 x) (uA_v64 y) (uA_v0 y) sign s).
Proof.
  destruct A as [EA HA LA RA RhA RlA WA MA], B as [EB HB LB RB RhB RlB WB MB]. subst a b.
  unfold softfloat_subMagsF128. rewrite EA, EB, HA, HB, LA, LB, MA, MB. cbv zeta. clear EA EB HA HB LA LB MA MB A B.
  destruct (shortShiftLeft128_spec hA lA 4 ltac:(lia) ltac:(lia) RlA ltac:(lia)) as [OA PA].
  destruct (shortShiftLeft128_spec hB lB 4 ltac:(lia) ltac:(lia) RlB ltac:(lia)) as [OB PB].
  destruct (Z.ltb_spec 0 (eA - eB)) as [L|L]; [|destruct (Z.ltb_spec (eA - eB) 0) as [L'|L']].
  - destruct (Z.eqb_spec eA 0x7FFF); [lia|]. destruct (Z.eqb_spec eA 0) as [|_]; [lia|]. rewrite (Z.max_l eA 1) by lia.
    set (zA := softfloat_shortShiftLeft128 hA lA 4) in *. clearbody zA. destruct OA as [OA0 OA64]. unfold word_pair in PA.
    eassert (K : _ /\ _); [refine (cancel_smaller sign eA eB hB lB wB wA
      (fun z => softfloat_sub128 (v64 zA .| 0x0010000000000000) (v0 zA) (v64 z) (v0 z)) s _ _ _ RhB RlB WB _ _ eq_refl); try lia|].
    + intros z [Z0 Z64] V. rewrite lead_shifted by lia.
      destruct (sub128_spec (2 ^ 52 + v64 zA) (v0 zA) (v64 z) (v0 z) ltac:(lia) OA0 Z64 Z0) as [O E]. split; [exact O|].
      rewrite E. fold (word_pair z). pose proof (word_pair_bound z (conj Z0 Z64)). rewrite uwrap_small by lia. lia.
    + destruct K as [P K]. split; [intros; lra|]. split; [intros _; exact K|intros; lra].
  - destruct (Z.eqb_spec eB 0x7FFF); [lia|]. destruct (Z.eqb_spec eB 0) as [|_]; [lia|]. rewrite (Z.max_l eB 1) by lia.
    replace (z2b (eA - eB + 1)) with (z2b (eB - eA - 1)) by (unfold z2b; f_equal; lia). replace (- (eA - eB)) with (eB - eA) by lia.
    replace (- (eA - eB + 1)) with (eB - eA - 1) by lia.
    set (zB := softfloat_shortShiftLeft128 hB lB 4) in *. clearbody zB. destruct OB as [OB0 OB64]. unfold word_pair in PB.
    eassert (K : _ /\ _); [refine (cancel_smaller (negb sign) eB eA hA lA wA wB
      (fun z => softfloat_sub128 (v64 zB .| 0x0010000000000000) (v0 zB) (v64 z) (v0 z)) s _ _ _ RhA RlA WA _ _ eq_refl); try lia|].
    + intros z [Z0 Z64] V. rewrite lead_shifted by lia.
      destruct (sub128_spec (2 ^ 52 + v64 zB) (v0 zB) (v64 z) (v0 z) ltac:(lia) OB0 Z64 Z0) as [O E]. split; [exact O|].
      rewrite E. fold (word_pair z). pose proof (word_pair_bound z (conj Z0 Z64)). rewrite uwrap_small by lia. lia.
    + destruct K as [P K]. split; [intros; lra|]. split; [intros; lra|intros _].
      match goal with |- rounded128 _ _ (- (?p - ?q)) _ => replace (- (p - q))%R with (q - p)%R by ring end. exact K.
  - assert (eB = eA) as -> by lia. destruct (Z.eqb_spec eA 0x7FFF); [lia|].
    set (zA := softfloat_shortShiftLeft128 hA lA 4) in *. set (zB := softfloat_shortShiftLeft128 hB lB 4) in *. clearbody zA zB.
    replace (if negb (z2b eA) then 1 else eA) with (Z.max eA 1) by (unfold z2b; destruct (Z.eqb_spec eA 0); cbn [negb]; lia).
    assert (X : (IZR wA * pow2 (Z.max eA 1 - 1 + emin F128) - IZR wB * pow2 (Z.max eA 1 - 1 + emin F128))%R =
                (IZR (word_pair zA - word_pair zB) * pow2 (Z.max eA 1 - 5 + emin F128))%R).
    { replace (word_pair zA - word_pair zB) with ((wA - wB) * 2 ^ 4) by (rewrite PA, PB, WA, WB; ring).
      rewrite <- Rmult_minus_distr_r, <- minus_IZR, (mult_IZR _ (2 ^ 4)), <- (pow2_IZR 4), Rmult_assoc, <- pow2_add by lia. do 2 f_equal. lia. }
    rewrite X. clear X. pose proof (pow2_pos (Z.max eA 1 - 5 + emin F128)) as PP.
    assert (Sub : forall sgn z z', words_ok z -> words_ok z' -> word_pair z' < word_pair z -> word_pair z < 2 ^ 117 ->
      rounded128 s sgn (IZR (word_pair z - word_pair z') * pow2 (Z.max eA 1 - 5 + emin F128))
        (softfloat_normRoundPackToF128 sgn (Z.max eA 1 - 5) (v64 (softfloat_sub128 (v64 z) (v0 z) (v64 z') (v0 z')))
           (v0 (softfloat_sub128 (v64 z) (v0 z) (v64 z') (v0 z'))) s)).
    { intros sgn z z' [Z0 Z64] [Z0' Z64'] Lt Hz. pose proof (word_pair_bound z' (conj Z0' Z64')).
      destruct (sub128_spec (v64 z) (v0 z) (v64 z') (v0 z') Z64 Z0 Z64' Z0') as [[O0 O64] E]. fold (word_pair z) (word_pair z') in E.
      rewrite uwrap_small in E by lia.
      apply softfloat_normRoundPackToF128_rounds with (y := IZR (word_pair z - word_pair z')); try assumption; try lia; try reflexivity;
        change (v64 ?u * 2 ^ 64 + v0 ?u) with (word_pair u); rewrite E; [lia|left; reflexivity]. }
    assert (BA : word_pair zA < 2 ^ 117) by lia. assert (BB : word_pair zB < 2 ^ 117) by lia.
    assert (Big : word_pair zB < word_pair zA -> sub_result128 (IZR (word_pair zA - word_pair zB) * pow2 (Z.max eA 1 - 5 + emin F128))
        (softfloat_normRoundPackToF128 sign (Z.max eA 1 - 5) (v64 (softfloat_sub128 (v64 zA) (v0 zA) (v64 zB) (v0 zB)))
           (v0 (softfloat_sub128 (v64 zA) (v0 zA) (v64 zB) (v0 zB))) s)).
    { intros C. assert (0 < IZR (word_pair zA - word_pair zB))%R by (apply IZR_lt; lia).
      split; [intros; nra|]. split; [intros _|intros; nra]. now apply Sub. }
    assert (Small : word_pair zA < word_pair zB -> sub_result128 (IZR (word_pair zA - word_pair zB) * pow2 (Z.max eA 1 - 5 + emin F128))
        (softfloat_normRoundPackToF128 (negb sign) (Z.max eA 1 - 5) (v64 (softfloat_sub128 (v64 zB) (v0 zB) (v64 zA) (v0 zA)))
           (v0 (softfloat_sub128 (v64 zB) (v0 zB) (v64 zA) (v0 zA))) s)).
    { intros C. assert (IZR (word_pair zA - word_pair zB) < 0)%R by (apply IZR_lt; lia).
      split; [intros; nra|]. split; [intros; nra|intros _]. rewrite Ropp_mult_distr_l, <- opp_IZR, Z.opp_sub_distr, Z.add_opp_l. now apply Sub. }
    destruct OA as [OA0 OA64], OB as [OB0 OB64].
    destruct (Z.ltb_spec (v64 zB) (v64 zA)); [apply Big; unfold word_pair; lia|]. destruct (Z.ltb_spec (v64 zA) (v64 zB)); [apply Small; unfold word_pair; lia|].
    destruct (Z.ltb_spec (v0 zB) (v0 zA)); [apply Big; unfold word_pair; lia|]. destruct (Z.ltb_spec (v0 zA) (v0 zB)); [apply Small; unfold word_pair; lia|].
    replace (word_pair zA - word_pair zB) with 0 by (unfold word_pair; lia). rewrite Rmult_0_l.
    split; [intros _|split; intros; lra]. change (bind get ?k s) with (k s s). cbv beta.
    destruct (packed128 (softfloat_roundingMode s =? softfloat_round_min) 0 {| v64 := 0; v0 := 0 |}) as [P1 P2]; [lia|split; cbn; lia|reflexivity|].
    split; [exact P1|]. unfold encoded, ret. cbn [fst snd]. f_equal. exact P2.
Qed.
End Magnitudes.

(** ** NaN and infinite operands *)

(** The float returned has the encoding and leaves the flags that [v] says. *)
Definition encodes (r : float128_t * env) (v : Z * env) : Prop := f128_ok (fst r) /\ encoded r = v.

Lemma quiet_words (x : float128_t) (z := uZ_f {| v64 := uA_v64 x .| 0x0000800000000000; v0 := uA_v0 x |}) : f128_ok x ->
  f128_ok z /\ f128_enc z = quiet F128 (f128_enc x).
Proof.
  intros [H0 H1]. subst z. unfold f128_ok, f128_enc, uZ_f, uA_v64, uA_v0, quiet. cbn [fp128.v0 fp128.v1 v64 v0].
  set (h := fp128.v1 x) in *. set (l := fp128.v0 x) in *. clearbody h l.
  assert (B : 0 <= h .| 0x0000800000000000 < 2 ^ 64).
  { split; [apply Z.lor_nonneg; lia|]. apply Z.log2_lt_cancel. rewrite Z.log2_lor by lia. change (Z.log2 (2 ^ 64)) with 64.
    apply Z.max_lub_lt; [|reflexivity]. destruct (Z.eq_dec h 0) as [->|]; [reflexivity|]. apply Z.log2_lt_pow2; lia. }
  split; [lia|]. rewrite <- (lor_disjoint h l), <- (lor_disjoint (h .| _) l) by lia.
  rewrite <- !shl_mul, Z.shiftl_lor, <- !Z.lor_assoc by lia. f_equal. apply Z.lor_comm.
Qed.

Lemma propagate128 (x y : float128_t) (s : env) : f128_ok x -> f128_ok y ->
  encodes ((uiZ <- softfloat_propagateNaNF128UI (uA_v64 x) (uA_v0 x) (uA_v64 y) (uA_v0 y) ;; ret (uZ_f uiZ))%M s)
    (nan_result F128 (f128_enc x) (f128_enc y) s).
Proof.
  intros Hx Hy. destruct (quiet_words x Hx) as [QX EX]. destruct (quiet_words y Hy) as [QY EY].
  unfold softfloat_propagateNaNF128UI, nan_result. rewrite isNaNF128UI_spec, !softfloat_isSigNaNF128UI_spec by assumption.
  set (a := f128_enc x) in *. set (b := f128_enc y) in *.
  assert (S : signalingb F128 a = true -> nanb F128 a = true) by (unfold signalingb; now intros [? _]%andb_true_iff).
  unfold encodes, encoded, bind, ret, softfloat_raiseFlags.
  destruct (signalingb F128 a); [rewrite (S eq_refl)|]; cbn [orb];
    [|destruct (signalingb F128 b)]; rewrite ?raised_env_0; destruct (nanb F128 a); cbn [fst snd]; rewrite ?EX, ?EY; split; assumption || reflexivity.
Qed.

Lemma default_nan128 (s : env) :
  encodes ((softfloat_raiseFlags softfloat_flag_invalid ;;;
            ret (uZ_f {| v64 := defaultNaNF128UI64; v0 := defaultNaNF128UI0 |}))%M s) (invalid_result F128 s).
Proof. split; [split; vm_compute; split; congruence|reflexivity]. Qed.

Lemma infinity128 (sign : bool) (s : env) :
  encodes (ret (uZ_f {| v64 := packToF128UI64 sign 0x7FFF 0; v0 := 0 |}) s) (infinity F128 sign, s).
Proof. destruct (infinity128_eq sign) as [O E]. split; [exact O|]. unfold encoded, ret. cbn [fst snd]. now rewrite E. Qed.

Lemma operand_words (x : float128_t) : uZ_f {| v64 := uA_v64 x; v0 := uA_v0 x |} = x.
Proof. destruct x. reflexivity. Qed.

Lemma inf_operand (x : float128_t) (s : env) : f128_ok x -> infb F128 (f128_enc x) = true ->
  encodes (ret x s) (infinity F128 (sign_of F128 (f128_enc x)), s).
Proof.
  intros Hx I. split; [exact Hx|]. unfold encoded, ret. cbn [fst snd]. f_equal. unfold infinity. apply Z.eqb_eq in I. rewrite <- I.
  apply (enc_split F128). apply f128_enc_ok, Hx.
Qed.


Lemma any_bit (z : uint128) : words_ok z -> z2b (v64 z .| v0 z) = z2b (word_pair z).
Proof. intros [Z0 Z64]. apply zero_words; lia. Qed.

Lemma any_bit2 (z z' : uint128) : words_ok z -> words_ok z' ->
  z2b (v64 z .| v0 z .| v64 z' .| v0 z') = z2b (word_pair z) || z2b (word_pair z').
Proof.
  intros O O'. rewrite <- !any_bit by assumption. destruct O, O'. rewrite <- Z.lor_assoc. apply z2b_lor; apply Z.lor_nonneg; split; lia.
Qed.

(** The words of the fraction, and the same shifted. *)
Lemma frac_words (x : float128_t) (z := {| v64 := fracF128UI64 (uA_v64 x); v0 := uA_v0 x |}) : f128_ok x ->
  words_ok z /\ word_pair z = frac128 x.
Proof. intros Hx. destruct (F128_fields x Hx) as (_ & _ & Hf & Hl & _). subst z. split; [split; cbn [v64 v0]; lia|reflexivity]. Qed.

Lemma frac_shifted (x : float128_t) (z := softfloat_shortShiftLeft128 (fracF128UI64 (uA_v64 x)) (uA_v0 x) 4) : f128_ok x ->
  words_ok z /\ z2b (word_pair z) = z2b (frac128 x).
Proof.
  intros Hx. destruct (F128_fields x Hx) as (_ & _ & Hf & Hl & _).
  destruct (shortShiftLeft128_spec (fracF128UI64 (uA_v64 x)) (uA_v0 x) 4) as [O W]; try lia. split; [exact O|].
  subst z. rewrite W. fold (frac128 x). unfold z2b. f_equal. apply eq_true_iff_eq. rewrite !Z.eqb_eq. lia.
Qed.

(** Either both operands are finite, or one has the largest exponent. *)
Lemma special128 (x y : float128_t) (a := f128_enc x) (b := f128_enc y) : f128_ok x -> f128_ok y ->
  is_finite F128 a /\ is_finite F128 b /\ nanb F128 a || nanb F128 b = false /\ infb F128 a = false /\ infb F128 b = false \/
  expF128UI64 (uA_v64 x) = 0x7FFF \/ expF128UI64 (uA_v64 y) = 0x7FFF.
Proof.
  intros Hx Hy. destruct (view128 x Hx) as (_ & He & _ & _ & _ & Fx & _). destruct (view128 y Hy) as (_ & He' & _ & _ & _ & Fy & _).
  destruct (Z.eq_dec (expF128UI64 (uA_v64 x)) 0x7FFF); [tauto|]. destruct (Z.eq_dec (expF128UI64 (uA_v64 y)) 0x7FFF); [tauto|]. left.
  split; [apply Fx; lia|]. split; [apply Fy; lia|]. subst a b. destruct (classes128 x Hx) as [-> ->]. destruct (classes128 y Hy) as [-> ->].
  destruct (Z.eqb_spec (expF128UI64 (uA_v64 x)) 0x7FFF); [lia|]. destruct (Z.eqb_spec (expF128UI64 (uA_v64 y)) 0x7FFF); [lia|]. auto.
Qed.

(** The float returned meets a contract of its encoding. *)
Definition meets (P : Z * env -> Prop) (r : float128_t * env) : Prop := f128_ok (fst r) /\ P (encoded r).

Lemma addMags_spec128 (x y : float128_t) (s : env) (a := f128_enc x) (b := f128_enc y) : f128_ok x -> f128_ok y ->
  meets (sum_spec F128 s a b (sign_of F128 a)) (softfloat_addMagsF128 (uA_v64 x) (uA_v0 x) (uA_v64 y) (uA_v0 y) (sign_of F128 a) s).
Proof.
  intros Hx Hy. unfold meets, sum_spec.
  destruct (special128 x y Hx Hy) as [(Fx & Fy & N & I & J)|C]; [fold a b in N, I, J|].
  - rewrite N, I, J. destruct (finite_operand x Hx Fx) as (eA & hA & lA & wA & A). destruct (finite_operand y Hy Fy) as (eB & hB & lB & wB & B).
    destruct (addMags_finite128 x y (sign_of F128 a) s _ _ _ _ _ _ _ _ A B) as [O H]. fold a b in H. split; [exact O|].
    pose proof (mag_nonneg F128 (pattern_of F128 a) (proj1 (Z.mod_pos_bound a (sign_weight F128) eq_refl))).
    pose proof (mag_nonneg F128 (pattern_of F128 b) (proj1 (Z.mod_pos_bound b (sign_weight F128) eq_refl))).
    unfold value, correctly_rounded, signR. rewrite Bool.eqb_reflx. set (v := (mag _ _ + mag _ _)%R) in H.
    split; [|split]; destruct (sign_of F128 a); intros X; try lra.
    all: try (apply (rounded_result_zero F128); replace 0%R with v by (unfold v; lra); exact H).
    + exact H.
    + replace (- (- _ + - _))%R with v by (unfold v; ring). exact H.
  - pose proof (propagate128 x y s Hx Hy) as P. pose proof (inf_operand x s Hx) as IX. pose proof (infinity128 (sign_of F128 a) s) as IZ.
    fold a b in P, IX. destruct (classes128 x Hx) as [Na Ia], (classes128 y Hy) as [Nb Ib]. fold a b in Na, Ia, Nb, Ib.
    rewrite Na, Nb, Ia, Ib, xorb_nilpotent, andb_false_r in *.
    destruct (frac_words x Hx) as [OX WX], (frac_words y Hy) as [OY WY]. pose proof (any_bit _ OX) as BX. pose proof (any_bit _ OY) as BY.
    pose proof (any_bit2 _ _ OX OY) as BXY. rewrite WX in BX, BXY. rewrite WY in BY, BXY. cbn [v64 v0] in BX, BY, BXY.
    unfold softfloat_addMagsF128. cbv zeta. cbn [v64 v0]. rewrite BX, BY, BXY, operand_words. clear Na Nb Ia Ib BX BY BXY OX OY WX WY.
    destruct (F128_fields x Hx) as (_ & RX & _), (F128_fields y Hy) as (_ & RY & _).
    destruct (Z.eqb_spec (expF128UI64 (uA_v64 x)) 0x7FFF) as [EA|EA], (Z.eqb_spec (expF128UI64 (uA_v64 y)) 0x7FFF) as [EB|EB]; [| | |lia];
      destruct (z2b (frac128 x)) eqn:MA, (z2b (frac128 y)) eqn:MB; cbn [andb orb negb] in *.
    all: try destruct (Z.eqb_spec (expF128UI64 (uA_v64 x) - expF128UI64 (uA_v64 y)) 0); try lia.
    all: try destruct (Z.ltb_spec (expF128UI64 (uA_v64 x) - expF128UI64 (uA_v64 y)) 0); try lia.
    all: first [exact P|exact IZ|exact (IX eq_refl)].
Qed.

Lemma subMags_spec128 (x y : float128_t) (s : env) (a := f128_enc x) (b := f128_enc y) : f128_ok x -> f128_ok y ->
  meets (sum_spec F128 s a b (negb (sign_of F128 a))) (softfloat_subMagsF128 (uA_v64 x) (uA_v0 x) (uA_v64 y) (uA_v0 y) (sign_of F128 a) s).
Proof.
  intros Hx Hy. unfold meets, sum_spec.
  destruct (special128 x y Hx Hy) as [(Fx & Fy & N & I & J)|C]; [fold a b in N, I, J|].
  - rewrite N, I, J. destruct (finite_operand x Hx Fx) as (eA & hA & lA & wA & A). destruct (finite_operand y Hy Fy) as (eB & hB & lB & wB & B).
    destruct (subMags_finite128 x y (sign_of F128 a) s _ _ _ _ _ _ _ _ A B) as (K0 & KP & KN). fold a b in K0, KP, KN.
    unfold value, correctly_rounded, signR. rewrite Bool.eqb_negb2. set (v := (mag _ _ - mag _ _)%R) in *.
    split; [destruct (Rtotal_order v 0) as [V|[V|V]]; [apply (KN V)|apply (K0 V)|apply (KP V)]|].
    destruct (sign_of F128 a); cbn [negb] in *.
    + replace (- mag F128 (pattern_of F128 a) + mag F128 (pattern_of F128 b))%R with (- v)%R by (unfold v; ring).
      split; [|split]; intros X; [apply K0; lra|apply KN; lra|]. rewrite Ropp_involutive. apply KP. lra.
    + replace (mag F128 (pattern_of F128 a) + - mag F128 (pattern_of F128 b))%R with v by (unfold v; ring).
      split; [|split]; intros X; [apply K0; lra|apply KP; lra|apply KN; lra].
  - pose proof (propagate128 x y s Hx Hy) as P. pose proof (inf_operand x s Hx) as IX. pose proof (infinity128 (negb (sign_of F128 a)) s) as IZ.
    pose proof (default_nan128 s) as DN.
    fold a b in P, IX. destruct (classes128 x Hx) as [Na Ia], (classes128 y Hy) as [Nb Ib]. fold a b in Na, Ia, Nb, Ib.
    rewrite Na, Nb, Ia, Ib, <- negb_xorb_r, xorb_nilpotent, andb_true_r in *.
    destruct (frac_shifted x Hx) as [OX WX], (frac_shifted y Hy) as [OY WY]. pose proof (any_bit _ OX) as BX. pose proof (any_bit _ OY) as BY.
    pose proof (any_bit2 _ _ OX OY) as BXY. rewrite WX in BX, BXY. rewrite WY in BY, BXY.
    unfold softfloat_subMagsF128. cbv zeta. rewrite BX, BY, BXY, operand_words. clear Na Nb Ia Ib BX BY BXY OX OY WX WY.
    destruct (F128_fields x Hx) as (_ & RX & _), (F128_fields y Hy) as (_ & RY & _).
    destruct (Z.eqb_spec (expF128UI64 (uA_v64 x)) 0x7FFF) as [EA|EA], (Z.eqb_spec (expF128UI64 (uA_v64 y)) 0x7FFF) as [EB|EB]; [| | |lia];
      destruct (z2b (frac128 x)) eqn:MA, (z2b (frac128 y)) eqn:MB; cbn [andb orb negb] in *.
    all: try destruct (Z.ltb_spec 0 (expF128UI64 (uA_v64 x) - expF128UI64 (uA_v64 y))); try lia.
    all: try destruct (Z.ltb_spec (expF128UI64 (uA_v64 x) - expF128UI64 (uA_v64 y)) 0); try lia.
    all: first [exact P|exact IZ|exact DN|exact (IX eq_refl)].
Qed.

Lemma f128_add_spec (x y : float128_t) (s : env) (a := f128_enc x) (b := f128_enc y) : f128_ok x -> f128_ok y ->
  meets (sum_spec F128 s a b (sign_of F128 b)) (f128_add x y s).
Proof.
  intros Hx Hy. unfold f128_add. rewrite (proj1 (F128_fields x Hx)), (proj1 (F128_fields y Hy)).
  pose proof (addMags_spec128 x y s Hx Hy) as A. pose proof (subMags_spec128 x y s Hx Hy) as B. fold a b in A, B |- *.
  destruct (sign_of F128 a), (sign_of F128 b); assumption.
Qed.

Lemma f128_sub_spec (x y : float128_t) (s : env) (a := f128_enc x) (b := f128_enc y) : f128_ok x -> f128_ok y ->
  meets (sum_spec F128 s a b (negb (sign_of F128 b))) (f128_sub x y s).
Proof.
  intros Hx Hy. unfold f128_sub. rewrite (proj1 (F128_fields x Hx)), (proj1 (F128_fields y Hy)).
  pose proof (addMags_spec128 x y s Hx Hy) as A. pose proof (subMags_spec128 x y s Hx Hy) as B. fold a b in A, B |- *.
  destruct (sign_of F128 a), (sign_of F128 b); assumption.
Qed.
