(* ===== verification/F128Mul.v ===== *)
(** Multiplication and division of binary128 numbers are correctly rounded: the product of
    the significands in four words, and a long division with digits of 29 bits, each estimated
    with the approximate reciprocal of the divisor, and corrected at the end when the quotient
    could be close to a rounding boundary. *)
From Stdlib Require Import ZArith Bool Lia Reals Lra List.
From S2P Require Import Prelude Ieee Rounding RoundPack Softfloat Primitives Machine Contract F64Mul Builtins F128 F128Compare F128Convert F128Narrow F128Ops F128Round F128Arith.
Import ListNotations.
Local Open Scope Z_scope.
Local Open Scope c_scope.

(** ** Operands other than zero *)

Lemma normalised128 (w k : Z) : 0 < w < 2 ^ 112 -> k = 112 - Z.log2 w -> 1 <= k <= 112 /\ 2 ^ 112 <= w * 2 ^ k < 2 ^ 113.
Proof.
  intros Hw ->. pose proof (Z.log2_spec w ltac:(lia)) as L. pose proof (Z.log2_nonneg w) as L0.
  pose proof (proj1 (log2_bounds w 112 ltac:(lia) ltac:(lia)) ltac:(lia)) as L1. set (l := Z.log2 w) in *. clearbody l. split; [lia|].
  rewrite Z.pow_succ_r in L by lia. pose proof (two_pow_pos (112 - l) ltac:(lia)).
  assert (2 ^ 112 = 2 ^ l * 2 ^ (112 - l)) by (rewrite <- Z.pow_add_r by lia; f_equal; lia). nia.
Qed.

Lemma softfloat_normSubnormalF128Sig_spec (h l : Z) (n := softfloat_normSubnormalF128Sig h l) (w := h * 2 ^ 64 + l) :
  0 <= h < 2 ^ 48 -> 0 <= l < 2 ^ 64 -> 0 < w ->
  -111 <= e32s128_exp n <= 0 /\ words_ok (e32s128_sig n) /\ 2 ^ 112 <= word_pair (e32s128_sig n) < 2 ^ 113 /\
  (IZR w * pow2 (emin F128))%R = (IZR (word_pair (e32s128_sig n)) * pow2 (e32s128_exp n - 1 + emin F128))%R.
Proof.
  intros Hh Hl Hw. destruct (normalised128 w _ ltac:(lia) eq_refl) as [Bk Bw].
  enough (E : words_ok (e32s128_sig n) /\ exists k, k = 112 - Z.log2 w /\ e32s128_exp n = 1 - k /\ word_pair (e32s128_sig n) = w * 2 ^ k).
  { destruct E as (O & k & Hk & -> & ->). rewrite <- Hk in Bk, Bw. split; [lia|]. split; [exact O|]. split; [exact Bw|].
    rewrite mult_IZR, <- pow2_IZR, Rmult_assoc, <- pow2_add by lia. do 2 f_equal. lia. }
  subst n. unfold softfloat_normSubnormalF128Sig, z2b. rewrite negb_involutive. destruct (Z.eqb_spec h 0) as [->|N].
  - replace w with l in * by lia. rewrite softfloat_countLeadingZeros64_spec by lia.
    replace (nlz 64 l - 15) with (48 - Z.log2 l) by (unfold nlz; lia).
    pose proof (Z.log2_nonneg l) as L0. pose proof (proj1 (log2_bounds l 64 ltac:(lia) ltac:(lia)) ltac:(lia)) as L1.
    rewrite (swrap_small 8 (48 - _)) by fmt_lia. set (k := 112 - Z.log2 l) in *. replace (48 - Z.log2 l) with (k - 64) by (subst k; lia). clearbody k.
    cbn [e32s128_exp e32s128_sig]. destruct (Z.ltb_spec (k - 64) 0) as [C|C].
    + replace ((k - 64) .& 63) with (64 - (64 - k)) by (rewrite (land_low _ 63 6) by (reflexivity || lia); replace (k - 64) with (k + (-1) * 2 ^ 6) by lia;
        rewrite Z.mod_add, Z.mod_small; lia).
      replace (- (k - 64)) with (64 - k) by lia.
      destruct (shift_pair l 0 (64 - k) ltac:(lia) Hl ltac:(lia)) as [O E]. rewrite Z.shiftr_0_l, Z.lor_0_r in O, E.
      split; [exact O|]. exists k. split; [reflexivity|]. split; [lia|]. rewrite E, Z.add_0_r.
      replace (2 ^ 64) with (2 ^ k * 2 ^ (64 - k)) by (rewrite <- Z.pow_add_r by lia; f_equal; lia).
      rewrite Z.mul_assoc. apply Z.div_mul. apply Z.pow_nonzero; lia.
    + assert (l * 2 ^ (k - 64) < 2 ^ 49).
      { assert (2 ^ k = 2 ^ (k - 64) * 2 ^ 64) by (rewrite <- Z.pow_add_r by lia; f_equal; lia). pose proof (two_pow_pos (k - 64) ltac:(lia)). nia. }
      pose proof (two_pow_pos (k - 64) ltac:(lia)). assert (0 <= l * 2 ^ (k - 64)) by (apply Z.mul_nonneg_nonneg; lia).
      rewrite shl_mul, uwrap_small by lia.
      unfold words_ok, word_pair. cbn [v64 v0]. split; [lia|].
      exists k. split; [reflexivity|]. split; [lia|]. rewrite Z.add_0_r, <- Z.mul_assoc, <- Z.pow_add_r by lia. do 2 f_equal. lia.
  - rewrite softfloat_countLeadingZeros64_spec by lia.
    assert (LW : Z.log2 w = 64 + Z.log2 h).
    { apply Z.log2_unique; [pose proof (Z.log2_nonneg h); lia|]. pose proof (Z.log2_spec h ltac:(lia)) as L. pose proof (Z.log2_nonneg h).
      rewrite <- Z.add_succ_r, !Z.pow_add_r by lia. subst w. nia. }
    replace (nlz 64 h - 15) with (112 - Z.log2 w) by (unfold nlz; lia).
    pose proof (proj1 (log2_bounds h 48 ltac:(lia) ltac:(lia)) ltac:(lia)) as L1. pose proof (Z.log2_nonneg h) as L0.
    rewrite swrap_small by fmt_lia. cbn [e32s128_exp e32s128_sig]. set (k := 112 - Z.log2 w) in *. assert (Bk' : 1 <= k <= 48) by (subst k; lia). clearbody k.
    assert (B : h * 2 ^ k < 2 ^ 49) by (pose proof (two_pow_pos k ltac:(lia)); subst w; nia).
    pose proof (Z.pow_le_mono_r 2 k 48 ltac:(lia) ltac:(lia)).
    destruct (shortShiftLeft128_spec h l k) as [O E]; try lia. split; [exact O|]. exists k. split; [reflexivity|]. split; [lia|exact E].
Qed.

(** The significand that the code computes with, which has its leading bit or lacks it. *)
Definition with_lead (z : uint128) : Z := word_pair {| v64 := v64 z .| 0x0001000000000000; v0 := v0 z |}.

Lemma lead_words (z : uint128) : words_ok z -> word_pair z < 2 ^ 113 ->
  let z' := {| v64 := v64 z .| 0x0001000000000000; v0 := v0 z |} in
  words_ok z' /\ v64 z' < 2 ^ 49 /\ 2 ^ 112 <= with_lead z < 2 ^ 113 /\ v64 z' mod 2 ^ 48 = v64 z mod 2 ^ 48 /\
  (2 ^ 112 <= word_pair z -> with_lead z = word_pair z) /\ (word_pair z < 2 ^ 112 -> with_lead z = 2 ^ 112 + word_pair z).
Proof.
  intros [Z0 Z64] B z'. subst z'. unfold with_lead, words_ok, word_pair in *. cbn [v64 v0].
  assert (L : v64 z .| 0x0001000000000000 = if v64 z <? 2 ^ 48 then 2 ^ 48 + v64 z else v64 z).
  { destruct (Z.ltb_spec (v64 z) (2 ^ 48)); [apply lead128; lia|].
    replace (v64 z) with (1 * 2 ^ 48 + (v64 z - 2 ^ 48)) by lia. rewrite <- lor_disjoint by lia.
    rewrite <- Z.lor_assoc, (Z.lor_comm _ 0x0001000000000000), Z.lor_assoc. reflexivity. }
  rewrite L. destruct (Z.ltb_spec (v64 z) (2 ^ 48)); repeat split; try lia.
  replace (2 ^ 48 + v64 z) with (v64 z + 1 * 2 ^ 48) by lia. apply Z.mod_add. lia.
Qed.

(** An operand other than zero: the exponent and the words that the code computes with. *)
Definition operand128 (x : R) (e : Z) (z : uint128) : Prop :=
  -111 <= e < 0x7FFF /\ words_ok z /\ word_pair z < 2 ^ 113 /\ x = (IZR (with_lead z) * pow2 (e - 1 + emin F128))%R.

Lemma operand128_cases (x : float128_t) (e := expF128UI64 (uA_v64 x)) (h := fracF128UI64 (uA_v64 x)) (l := uA_v0 x)
    (n := softfloat_normSubnormalF128Sig h l) (v := mag F128 (pattern_of F128 (f128_enc x))) :
  f128_ok x -> e < 0x7FFF ->
  e <> 0 /\ operand128 v e {| v64 := h; v0 := l |} \/
  e = 0 /\ frac128 x = 0 /\ v = 0%R \/
  e = 0 /\ frac128 x <> 0 /\ operand128 v (e32s128_exp n) (e32s128_sig n).
Proof.
  intros Hx He. subst v. destruct (view128 x Hx) as (_ & Re & _ & _ & _ & _ & ->). destruct (F128_fields x Hx) as (_ & _ & Hf & Hl & Hm & _).
  destruct (frac_words x Hx) as [O W]. unfold significand128. fold e in Re |- *. fold h in Hf, O, W. fold l in Hl, O, W. destruct (Z.eqb_spec e 0) as [E|E].
  - right. destruct (Z.eq_dec (frac128 x) 0) as [F|F].
    + left. split; [exact E|]. split; [exact F|]. rewrite F. ring.
    + right. split; [exact E|]. split; [exact F|]. replace (Z.max e 1 - 1 + emin F128) with (emin F128) by lia.
      destruct (softfloat_normSubnormalF128Sig_spec h l Hf Hl) as (B1 & O1 & B2 & X); [change (0 < frac128 x); lia|]. fold n in B1, O1, B2, X.
      split; [lia|]. split; [exact O1|]. split; [lia|]. destruct (lead_words _ O1 ltac:(lia)) as (_ & _ & _ & _ & -> & _); [exact X|lia].
  - left. split; [exact E|]. split; [lia|]. split; [exact O|]. rewrite W. split; [lia|].
    destruct (lead_words _ O ltac:(lia)) as (_ & _ & _ & _ & _ & ->); [|lia]. rewrite W. do 2 f_equal. lia.
Qed.

(** ** The product of two significands *)

(** A carry out of a sum of words, as the code detects it. *)
Lemma word_carry (a b : Z) (z := u64 (a + b)) : 0 <= a < 2 ^ 64 -> 0 <= b < 2 ^ 64 ->
  0 <= z < 2 ^ 64 /\ a + b = z + b2z (z <? b) * 2 ^ 64 /\ 0 <= b2z (z <? b) <= 1.
Proof.
  intros Ha Hb. subst z. unfold uwrap. destruct (Z.lt_ge_cases (a + b) (2 ^ 64)).
  - rewrite Z.mod_small by lia. destruct (Z.ltb_spec (a + b) b); cbn [Z.b2z]; lia.
  - replace ((a + b) mod 2 ^ 64) with (a + b - 2 ^ 64) by (apply Z.mod_unique with 1; lia).
    destruct (Z.ltb_spec (a + b - 2 ^ 64) b); cbn [Z.b2z]; lia.
Qed.

Lemma softfloat_mul128To256M_spec (a64 a0 b64 b0 : Z) :
  0 <= a64 < 2 ^ 64 -> 0 <= a0 < 2 ^ 64 -> 0 <= b64 < 2 ^ 64 -> 0 <= b0 < 2 ^ 64 ->
  let '(z0, z1, z2, z3) := softfloat_mul128To256M a64 a0 b64 b0 in
  0 <= z0 < 2 ^ 64 /\ 0 <= z1 < 2 ^ 64 /\ 0 <= z2 < 2 ^ 64 /\ 0 <= z3 < 2 ^ 64 /\
  ((z3 * 2 ^ 64 + z2) * 2 ^ 64 + z1) * 2 ^ 64 + z0 = (a64 * 2 ^ 64 + a0) * (b64 * 2 ^ 64 + b0).
Proof.
  intros Ha64 Ha0 Hb64 Hb0. unfold softfloat_mul128To256M. cbv zeta.
  destruct (softfloat_mul64To128_spec a0 b0 Ha0 Hb0) as (E0 & B00 & B01). destruct (softfloat_mul64To128_spec a64 b0 Ha64 Hb0) as (E1 & B10 & B11).
  destruct (softfloat_mul64To128_spec a64 b64 Ha64 Hb64) as (E2 & B20 & B21). destruct (softfloat_mul64To128_spec a0 b64 Ha0 Hb64) as (E3 & B30 & B31).
  assert (M : forall x y, 0 <= x < 2 ^ 64 -> 0 <= y < 2 ^ 64 -> x * y <= (2 ^ 64 - 1) * (2 ^ 64 - 1)) by (intros; apply Z.mul_le_mono_nonneg; lia).
  pose proof (M a64 b0 Ha64 Hb0) as M1. pose proof (M a64 b64 Ha64 Hb64) as M2. pose proof (M a0 b64 Ha0 Hb64) as M3. clear M.
  assert (T : (a64 * 2 ^ 64 + a0) * (b64 * 2 ^ 64 + b0) <= (2 ^ 128 - 1) * (2 ^ 128 - 1)) by (apply Z.mul_le_mono_nonneg; lia).
  replace ((a64 * 2 ^ 64 + a0) * (b64 * 2 ^ 64 + b0)) with (a64 * b64 * 2 ^ 128 + (a64 * b0 + a0 * b64) * 2 ^ 64 + a0 * b0) in * by ring.
  set (p0 := softfloat_mul64To128 a0 b0) in *. set (p1 := softfloat_mul64To128 a64 b0) in *.
  set (p2 := softfloat_mul64To128 a64 b64) in *. set (p3 := softfloat_mul64To128 a0 b64) in *. clearbody p0 p1 p2 p3.
  rewrite <- E0, <- E1, <- E2, <- E3 in *. clear E0 E1 E2 E3.
  destruct (word_carry (v64 p0) (v0 p1) B01 B10) as (C1 & D1 & K1). rewrite (Z.add_comm (v64 p0)) in C1, D1, K1.
  set (z64 := u64 (v0 p1 + v64 p0)) in *. set (c1 := b2z (z64 <? v0 p1)) in *. clearbody z64 c1.
  rewrite (uwrap_small 64 (v64 p1 + c1)) by lia.
  destruct (word_carry (v64 p1 + c1) (v0 p2) ltac:(lia) B20) as (C2 & D2 & K2).
  set (z128 := u64 (v64 p1 + c1 + v0 p2)) in *. set (c2 := b2z (z128 <? v0 p2)) in *. clearbody z128 c2.
  rewrite (uwrap_small 64 (v64 p2 + c2)) by lia.
  destruct (word_carry z64 (v0 p3) C1 B30) as (C3 & D3 & K3).
  set (z64' := u64 (z64 + v0 p3)) in *. set (c3 := b2z (z64' <? v0 p3)) in *. clearbody z64' c3.
  rewrite (uwrap_small 64 (v64 p3 + c3)) by lia.
  destruct (word_carry z128 (v64 p3 + c3) C2 ltac:(lia)) as (C4 & D4 & K4).
  set (z128' := u64 (z128 + (v64 p3 + c3))) in *. set (c4 := b2z (z128' <? v64 p3 + c3)) in *. clearbody z128' c4.
  rewrite (uwrap_small 64 (v64 p2 + c2 + c4)) by lia. repeat split; lia.
Qed.

(** A shift left loses the bits above the words. *)
Lemma shortShiftLeft128_mod (a64 a0 d : Z) : 0 < d < 64 -> 0 <= a64 -> 0 <= a0 < 2 ^ 64 ->
  let z := softfloat_shortShiftLeft128 a64 a0 d in words_ok z /\ word_pair z = u128 ((a64 * 2 ^ 64 + a0) * 2 ^ d).
Proof.
  intros Hd H64 H0. pose proof (two_pow_pos d ltac:(lia)) as P. pose proof (two_pow_pos (64 - d) ltac:(lia)) as P1.
  assert (E : 2 ^ 64 = 2 ^ (64 - d) * 2 ^ d) by (rewrite <- Z.pow_add_r by lia; f_equal; lia).
  assert (S : u64 (a64 << d) = u64 (a64 mod 2 ^ (64 - d) << d)).
  { rewrite !shl_mul by lia. unfold uwrap. rewrite E, !Z.mul_mod_distr_r, Z.mod_mod by lia. reflexivity. }
  pose proof (Z.mod_pos_bound a64 (2 ^ (64 - d)) P1) as M.
  destruct (shortShiftLeft128_spec (a64 mod 2 ^ (64 - d)) a0 d) as [O W]; try lia; [nia|]. cbv zeta. unfold softfloat_shortShiftLeft128 in *.
  rewrite <- S in O, W. split; [exact O|]. rewrite W. unfold uwrap. symmetry. change 128 with (64 + 64). rewrite Z.pow_add_r by lia.
  rewrite (Z.div_mod a64 (2 ^ (64 - d))) at 1 by lia. set (q := a64 / 2 ^ (64 - d)) in *. set (r := a64 mod 2 ^ (64 - d)) in *. clearbody q r.
  symmetry. set (p := 2 ^ d) in *. set (g := 2 ^ (64 - d)) in *. clearbody p g.
  apply Z.mod_unique with q; [left|].
  - assert ((r * 2 ^ 64 + a0) * p < g * 2 ^ 64 * p) by (apply Z.mul_lt_mono_pos_r; lia). split; [apply Z.mul_nonneg_nonneg|]; lia.
  - assert (K : q * (g * p) = q * 2 ^ 64) by now rewrite <- E.
    replace (((g * q + r) * 2 ^ 64 + a0) * p) with (q * (g * p) * 2 ^ 64 + (r * 2 ^ 64 + a0) * p) by ring. rewrite K. ring.
Qed.

Lemma multiply128 (sign : bool) (eA eB : Z) (sigA sigB : uint128) (s : env) (a b : R) :
  operand128 a eA sigA -> operand128 b eB sigB ->
  rounded128 s sign (a * b)
    ((let expZ := eA + eB - 0x4000 in
      let sigA := {| v64 := v64 sigA .| 0x0001000000000000; v0 := v0 sigA |} in
      let sigB := softfloat_shortShiftLeft128 (v64 sigB) (v0 sigB) 16 in
      let '(sig256Z_0, sig256Z_1, sig256Z_2, sig256Z_3) := softfloat_mul128To256M (v64 sigA) (v0 sigA) (v64 sigB) (v0 sigB) in
      let sigZExtra := sig256Z_1 .| b2z (z2b sig256Z_0) in
      let sigZ := softfloat_add128 sig256Z_3 sig256Z_2 (v64 sigA) (v0 sigA) in
      if 0x0002000000000000 <=? v64 sigZ then
        let sig128Extra := softfloat_shortShiftRightJam128Extra (v64 sigZ) (v0 sigZ) sigZExtra 1 in
        softfloat_roundPackToF128 sign (expZ + 1) (v64 (ue_v128 sig128Extra)) (v0 (ue_v128 sig128Extra)) (ue_extra128 sig128Extra)
      else softfloat_roundPackToF128 sign expZ (v64 sigZ) (v0 sigZ) sigZExtra) s).
Proof.
  intros (HeA & OA & BA & XA) (HeB & OB & BB & XB). cbv zeta.
  destruct (lead_words sigA OA BA) as (OA' & _ & WA & _). destruct (lead_words sigB OB BB) as (_ & _ & WB & _ & LB & LB').
  set (zA := {| v64 := v64 sigA .| 0x0001000000000000; v0 := v0 sigA |}) in *. assert (EA : word_pair zA = with_lead sigA) by reflexivity.
  set (wA := with_lead sigA) in *. set (wB := with_lead sigB) in *. clearbody zA wA wB.
  destruct OB as [OB0 OB64]. destruct (shortShiftLeft128_mod (v64 sigB) (v0 sigB) 16 ltac:(lia) ltac:(lia) OB0) as [[S0 S64] ES].
  fold (word_pair sigB) in ES. set (zB := softfloat_shortShiftLeft128 _ _ 16) in *. clearbody zB.
  assert (EB : word_pair zB = (wB - 2 ^ 112) * 2 ^ 16).
  { rewrite ES. destruct (Z.lt_ge_cases (word_pair sigB) (2 ^ 112)) as [C|C].
    - rewrite LB' by exact C. pose proof (word_pair_bound sigB (conj OB0 OB64)). rewrite uwrap_small by lia. lia.
    - rewrite LB by exact C. unfold uwrap. symmetry. apply Z.mod_unique with 1; [left; lia|lia]. }
  destruct OA' as [A0 A64]. pose proof (softfloat_mul128To256M_spec (v64 zA) (v0 zA) (v64 zB) (v0 zB) A64 A0 S64 S0) as M.
  fold (word_pair zA) (word_pair zB) in M. destruct (softfloat_mul128To256M _ _ _ _) as [[[z0 z1] z2] z3].
  destruct M as (B0 & B1 & B2 & B3 & EM). rewrite EB, EA in EM.
  assert (P : 2 ^ 240 <= wA * wB * 2 ^ 16 < 2 ^ 242) by nia.
  destruct (add128_spec z3 z2 (v64 zA) (v0 zA) B3 B2 A64 A0) as [O T]. fold (word_pair zA) in T.
  rewrite EA in T. set (sigZ := softfloat_add128 z3 z2 (v64 zA) (v0 zA)) in *. clearbody sigZ.
  assert (H : ((z3 * 2 ^ 64 + z2 + wA) * 2 ^ 64 + z1) * 2 ^ 64 + z0 = wA * wB * 2 ^ 16) by (rewrite Z.mul_sub_distr_r, Z.mul_sub_distr_l in EM; lia).
  rewrite uwrap_small in T by lia. rewrite <- T in H. clear EM T.
  pose proof (sticky_bound z1 (z2b z0) B1) as BX. set (extra := z1 .| b2z (z2b z0)) in *.
  assert (J : word_pair sigZ * 2 ^ 64 + extra = jam (wA * wB * 2 ^ 16) 64).
  { subst extra. pose proof (sticky_extra sigZ z1 (z2b z0) B1) as SE. unfold extra_value in SE. cbn [ue_v128 ue_extra128] in SE. rewrite SE.
    unfold jam. rewrite <- H, shr_div by lia. unfold z2b. f_equal; [apply Z.div_unique_pos with z0; lia|].
    do 3 f_equal. apply Z.mod_unique_pos with (word_pair sigZ * 2 ^ 64 + z1); lia. }
  clearbody extra. clear z0 z1 B0 B1 z2 z3 B2 B3 H.
  assert (Y : same (2 ^ 1) (word_pair sigZ * 2 ^ 64 + extra) (IZR (wA * wB * 2 ^ 16) * pow2 (- (64)))).
  { rewrite J. apply same_pow with (Z.max 1 (0 - 64)); [lia|]. apply same_jam; try lia. apply (same_exact 1). }
  assert (X : (a * b)%R = (IZR (wA * wB * 2 ^ 16) * pow2 (- (64)) * pow2 (eA + eB - 0x4000 - 64 + emin F128))%R).
  { rewrite XA, XB, !mult_IZR, <- (pow2_IZR 16) by lia.
    replace (eA - 1 + emin F128) with (16 + - (64) + (eA + eB - 0x4000 - 64 + emin F128) - (eB - 1 + emin F128)) by (change (emin F128) with (-16494); lia).
    unfold Z.sub at 1. rewrite !(pow2_add _ (- (eB - 1 + emin F128))), pow2_opp, !(pow2_add (16 + _)), (pow2_add 16). field. auto. }
  assert (JB : 2 ^ 176 <= word_pair sigZ * 2 ^ 64 + extra < 2 ^ 178) by (rewrite J, jam_eq by lia; destruct (_ =? 0); zdm).
  set (y := (IZR (wA * wB * 2 ^ 16) * pow2 (- (64)))%R) in *. clearbody y. destruct O as [Z0 Z64].
  unfold word_pair in Y, JB. destruct (Z.leb_spec 0x0002000000000000 (v64 sigZ)) as [C|C].
  - destruct (shortShiftRightJam128Extra_spec (v64 sigZ) (v0 sigZ) extra Z64 Z0 BX 1 ltac:(lia)) as [O3 Z3].
    apply shifted_rounds with (k := 1) (d := 1) (t := (v64 sigZ * 2 ^ 64 + v0 sigZ) * 2 ^ 64 + extra) (y := y); try assumption; try lia.
    rewrite X. do 2 f_equal. lia.
  - apply softfloat_roundPackToF128_rounds with (k := 1) (y := y); try assumption; lia.
Qed.

(** ** The operation *)
Lemma classes128_zero (x : float128_t) (e := expF128UI64 (uA_v64 x)) : f128_ok x ->
  zerob F128 (f128_enc x) = negb (z2b e) && negb (z2b (frac128 x)).
Proof.
  intros Hx. destruct (F128_fields x Hx) as (_ & He & _ & _ & Hm & P). apply (classes F128 _ _ _ He Hm P).
Qed.

(** Any bit of the exponent or of the fraction. *)
Lemma any_magnitude (x : float128_t) (e := expF128UI64 (uA_v64 x)) : f128_ok x ->
  z2b (e .| fracF128UI64 (uA_v64 x) .| uA_v0 x) = z2b e || z2b (frac128 x).
Proof.
  intros Hx. destruct (F128_fields x Hx) as (_ & He & Hf & Hl & _). destruct (frac_words x Hx) as [O W]. pose proof (any_bit _ O) as B.
  rewrite W in B. cbn [v64 v0] in B. rewrite <- B, <- Z.lor_assoc. apply z2b_lor; [lia|]. apply Z.lor_nonneg. split; lia.
Qed.

Lemma zero128 (s : env) (sign : bool) (x : R) : x = 0%R ->
  rounded128 s sign x (ret (uZ_f {| v64 := packToF128UI64 sign 0 0; v0 := 0 |}) s).
Proof. intros ->. apply exactly_rounded, exactly_zero. Qed.

Lemma f128_mul_spec (x y : float128_t) (s : env) (a := f128_enc x) (b := f128_enc y) : f128_ok x -> f128_ok y ->
  meets (mul_spec F128 s a b) (f128_mul x y s).
Proof.
  intros Hx Hy. unfold meets, mul_spec.
  pose proof (propagate128 x y s Hx Hy) as P. pose proof (infinity128 (xorb (sign_of F128 a) (sign_of F128 b)) s) as IZ.
  pose proof (default_nan128 s) as DN. fold a b in P.
  destruct (classes128 x Hx) as [Na Ia], (classes128 y Hy) as [Nb Ib]. pose proof (classes128_zero x Hx) as Za. pose proof (classes128_zero y Hy) as Zb.
  fold a b in Na, Ia, Nb, Ib, Za, Zb. rewrite Na, Nb, Ia, Ib, Za, Zb. clear Na Nb Ia Ib Za Zb.
  pose proof (operand128_cases x Hx) as CA. pose proof (operand128_cases y Hy) as CB. fold a in CA. fold b in CB.
  destruct (F128_fields x Hx) as (Sa & RX & _), (F128_fields y Hy) as (Sb & RY & _). fold a in Sa. fold b in Sb.
  destruct (frac_words x Hx) as [OX WX], (frac_words y Hy) as [OY WY]. pose proof (any_bit _ OX) as BX. pose proof (any_bit _ OY) as BY.
  rewrite WX in BX. rewrite WY in BY. cbn [v64 v0] in BX, BY. clear OX OY WX WY.
  unfold f128_mul. cbv zeta. cbn [v64 v0]. rewrite Sa, Sb, BX, BY, !any_magnitude by assumption. clear BX BY.
  set (sz := xorb _ _) in *. clearbody sz a b.
  set (eA := expF128UI64 (uA_v64 x)) in *. set (eB := expF128UI64 (uA_v64 y)) in *. set (mA := frac128 x) in *. set (mB := frac128 y) in *.
  clearbody eA eB mA mB. clear Sa Sb.
  assert (FA : eA = 0x7FFF -> z2b eA = true) by (now intros ->). assert (FB : eB = 0x7FFF -> z2b eB = true) by (now intros ->).
  destruct (Z.eqb_spec eA 0x7FFF) as [EA|EA]; [rewrite FA by lia|]; (destruct (Z.eqb_spec eB 0x7FFF) as [EB|EB]; [rewrite FB by lia|]).
  1-3: destruct (z2b mA), (z2b mB), (z2b eA), (z2b eB); cbn [andb orb negb]; first [exact P|exact IZ|exact DN].
  cbn [andb orb negb]. clear P IZ DN FA FB.
  destruct CA as [[NA A]|[(NA & MA & A)|(NA & MA & A)]]; [lia| | |].
  2: { rewrite NA, MA, A. cbn [z2b Z.eqb negb]. apply zero128. ring. }
  all: destruct CB as [[NB B]|[(NB & MB & B)|(NB & MB & B)]]; [lia| | |].
  all: try replace (z2b eA) with true by (unfold z2b; lia). all: try replace (z2b eB) with true by (unfold z2b; lia).
  all: try replace (z2b mA) with true by (unfold z2b; lia). all: try replace (z2b mB) with true by (unfold z2b; lia).
  all: rewrite ?NA, ?NB; cbn [z2b Z.eqb negb].
  all: try (rewrite MB, B; cbn [z2b Z.eqb negb]; apply zero128; ring).
  all: exact (multiply128 sz _ _ _ _ s _ _ A B).
Qed.

(** ** Division *)

(** *** The product by a digit *)
Lemma softfloat_mul128By32_spec (a64 a0 b : Z) : 0 <= a64 < 2 ^ 64 -> 0 <= a0 < 2 ^ 64 -> 0 <= b < 2 ^ 32 ->
  let z := softfloat_mul128By32 a64 a0 b in words_ok z /\ word_pair z = u128 ((a64 * 2 ^ 64 + a0) * b).
Proof.
  intros H64 H0 Hb z. subst z. unfold softfloat_mul128By32. cbv zeta. rewrite !shr_div by lia.
  set (h := a0 / 2 ^ 32). set (l := a0 mod 2 ^ 32).
  assert (D : a0 = h * 2 ^ 32 + l /\ 0 <= h < 2 ^ 32 /\ 0 <= l < 2 ^ 32) by (unfold h, l; zdm). destruct D as (D & Bh & Bl). clearbody h l.
  assert (HB : 0 <= h * b <= (2 ^ 32 - 1) * (2 ^ 32 - 1)) by (split; [apply Z.mul_nonneg_nonneg; lia|apply Z.mul_le_mono_nonneg; lia]).
  assert (LB : 0 <= l * b <= (2 ^ 32 - 1) * (2 ^ 32 - 1)) by (split; [apply Z.mul_nonneg_nonneg; lia|apply Z.mul_le_mono_nonneg; lia]).
  rewrite (uwrap_small 32 h), (uwrap_small 64 (h * b)) by lia.
  set (c := l * b / 2 ^ 32). assert (Dc : l * b = c * 2 ^ 32 + (l * b) mod 2 ^ 32 /\ 0 <= (l * b) mod 2 ^ 32 < 2 ^ 32) by (unfold c; zdm).
  set (m := (l * b) mod 2 ^ 32) in *. clearbody c m. set (v := a0 * b) in *. assert (V : v = (h * b + c) * 2 ^ 32 + m) by (unfold v; rewrite D; lia).
  assert (C : u32 (u64 (u64 v / 2 ^ 32 - h * b)) = c).
  { unfold uwrap. rewrite Z.mod_mod_divide by (exists (2 ^ 32); reflexivity). symmetry.
    apply Z.mod_unique_pos with ((v mod 2 ^ 64 / 2 ^ 32 - h * b - c) / 2 ^ 32); [lia|].
    assert (T : (v mod 2 ^ 64) / 2 ^ 32 = (h * b + c) mod 2 ^ 32).
    { apply Z.mod_unique_pos with (v / 2 ^ 64); zdm. }
    rewrite T. zdm. }
  rewrite C. rewrite (uwrap_small 64 (h * b + c)) by lia.
  assert (Q : (h * b + c) / 2 ^ 32 = v / 2 ^ 64) 
    by (change (2 ^ 64) with (2 ^ 32 * 2 ^ 32); rewrite <- Z.div_div by lia; f_equal; apply Z.div_unique_pos with m; lia).
  rewrite Q.
  split; [split; apply uwrap_bound; lia|]. unfold word_pair. cbn [v64 v0]. replace ((a64 * 2 ^ 64 + a0) * b) with (a64 * b * 2 ^ 64 + v) by (unfold v; ring).
  unfold uwrap. rewrite Z.add_mod_idemp_l by lia. zdm.
Qed.

(** *** A digit of the quotient *)

Section Divisor.
Context (sigB : uint128) (OB : words_ok sigB) (b := word_pair sigB) (HB : 2 ^ 112 <= b < 2 ^ 113).
Let bh := b / 2 ^ 81.
Let recip := softfloat_approxRecip32_1 (v64 sigB >> 17).

Lemma recip128 : 2 ^ 31 <= bh < 2 ^ 32 /\ 0 <= recip < 2 ^ 32 /\ 2 ^ 63 - bh <= recip * bh < 2 ^ 63.
Proof.
  assert (B : 2 ^ 31 <= bh < 2 ^ 32) by (unfold bh; zdm).
  assert (E : v64 sigB / 2 ^ 17 = bh).
  { unfold bh, b, word_pair. change (2 ^ 81) with (2 ^ 64 * 2 ^ 17). rewrite <- Z.div_div, Z.div_add_l by lia. destruct OB. rewrite (Z.div_small (v0 sigB)) by lia. now rewrite Z.add_0_r. }
  split; [exact B|]. unfold recip, softfloat_approxRecip32_1. rewrite shr_div, E, (uwrap_small 32 bh) by lia. clearbody bh.
  pose proof (Z.div_mod 0x7FFFFFFFFFFFFFFF bh ltac:(lia)) as D. pose proof (Z.mod_pos_bound 0x7FFFFFFFFFFFFFFF bh ltac:(lia)).
  set (k := 0x7FFFFFFFFFFFFFFF / bh) in *. clearbody k. assert (0 <= k < 2 ^ 32) by nia. rewrite uwrap_small by lia. lia.
Qed.

(** The digit that the code estimates from the remainder. *)
Definition estimate128 (rem : uint128) : Z := u64 (u64 (u32 (v64 rem >> 19) * recip) + 0x80000000) >> 32.

Lemma estimate128_spec (rem : uint128) (r := word_pair rem) : words_ok rem -> r < 2 * b ->
  0 <= estimate128 rem < 2 ^ 31 /\ - b < r * 2 ^ 29 - estimate128 rem * b < 2 * b.
Proof.
  intros O Hr. pose proof (word_pair_bound rem O) as Br. fold r in Br. destruct recip128 as (B & R & R1).
  assert (E : v64 rem / 2 ^ 19 = r / 2 ^ 83).
  { unfold r, word_pair. change (2 ^ 83) with (2 ^ 64 * 2 ^ 19). rewrite <- Z.div_div, Z.div_add_l by lia. destruct O. rewrite (Z.div_small (v0 rem)) by lia. now rewrite Z.add_0_r. }
  unfold estimate128. rewrite (shr_div _ 19), E, shr_div by lia. set (t := r / 2 ^ 83).
  assert (T : 0 <= t < 2 ^ 31 /\ t * 2 ^ 83 <= r < (t + 1) * 2 ^ 83) by (unfold t; zdm). destruct T as [T T1]. clearbody t.
  assert (T2 : 2 * t <= bh) by (unfold bh in *; zdm). assert (Hbh : bh * 2 ^ 81 <= b < (bh + 1) * 2 ^ 81) by (unfold bh in *; zdm).
  clearbody bh recip. clearbody b. clear E OB O. clearbody r.
  assert (TR : 0 <= t * recip /\ 2 * (t * recip) < 2 ^ 63) by nia.
  rewrite (uwrap_small 32 t), (uwrap_small 64 (t * recip)), (uwrap_small 64 (_ + _)) by lia.
  set (q := (t * recip + 0x80000000) / 2 ^ 32). assert (Q : 0 <= q < 2 ^ 31 /\ q * 2 ^ 32 <= t * recip + 2 ^ 31 < (q + 1) * 2 ^ 32) by (unfold q; zdm).
  clearbody q. split; [lia|].
  assert (TW : t * (2 ^ 63 - bh) <= t * (recip * bh) <= t * (2 ^ 63 - 1)) by (split; apply Z.mul_le_mono_nonneg_l; lia).
  assert (TB : t * (bh * 2 ^ 81) <= t * b <= (2 ^ 31 - 1) * b) by (split; [apply Z.mul_le_mono_nonneg_l|apply Z.mul_le_mono_nonneg_r]; lia).
  assert (UB : t * recip * (bh * 2 ^ 81) <= t * recip * b <= t * recip * ((bh + 1) * 2 ^ 81)) by (split; apply Z.mul_le_mono_nonneg_l; lia).
  assert (QB : q * 2 ^ 32 * b <= (t * recip + 2 ^ 31) * b /\ (t * recip + 2 ^ 31) * b <= (q + 1) * 2 ^ 32 * b)
    by (split; apply Z.mul_le_mono_nonneg_r; lia).
  replace (t * recip * (bh * 2 ^ 81)) with (t * (recip * bh) * 2 ^ 81) in UB by ring.
  replace (t * recip * ((bh + 1) * 2 ^ 81)) with ((t * (recip * bh) + t * recip) * 2 ^ 81) in UB by ring.
  assert (TT : 2 * (t * recip) <= bh * recip) by (rewrite Z.mul_assoc; apply Z.mul_le_mono_nonneg_r; lia). lia.
Qed.

(** The remainder that a digit leaves, in two words; its top bit is the sign. *)
Definition subtract_digit (rem : uint128) (q : Z) : uint128 :=
  let rem := softfloat_shortShiftLeft128 (v64 rem) (v0 rem) 29 in
  let term := softfloat_mul128By32 (v64 sigB) (v0 sigB) (u32 q) in
  softfloat_sub128 (v64 rem) (v0 rem) (v64 term) (v0 term).

Lemma subtract_digit_spec (rem : uint128) (q : Z) (d := word_pair rem * 2 ^ 29 - q * b) (z := subtract_digit rem q) :
  words_ok rem -> 0 <= q < 2 ^ 31 -> - b < d < 2 * b ->
  words_ok z /\ word_pair z = u128 d /\ z2b (v64 z .& 0x8000000000000000) = (d <? 0).
Proof.
  intros [R0 R64] Hq Hd. subst z. unfold subtract_digit. cbv zeta. destruct OB as [B0 B64].
  destruct (shortShiftLeft128_mod (v64 rem) (v0 rem) 29 ltac:(lia) ltac:(lia) R0) as [[S0 S64] ES].
  rewrite (uwrap_small 32 q) by lia. destruct (softfloat_mul128By32_spec (v64 sigB) (v0 sigB) q B64 B0 ltac:(lia)) as [[T0 T64] ET].
  set (z1 := softfloat_shortShiftLeft128 _ _ _) in *. set (z2 := softfloat_mul128By32 _ _ _) in *. clearbody z1 z2.
  destruct (sub128_spec (v64 z1) (v0 z1) (v64 z2) (v0 z2) S64 S0 T64 T0) as [O E]. set (z := softfloat_sub128 _ _ _ _) in *. clearbody z.
  fold (word_pair z1) (word_pair z2) in E. rewrite ES, ET in E. fold (word_pair rem) (word_pair sigB) in E. fold b in E.
  assert (E' : word_pair z = u128 d) by (rewrite E; unfold uwrap; rewrite <- Zminus_mod; f_equal; unfold d; ring).
  split; [exact O|]. split; [exact E'|]. destruct O as [Z0 Z64]. rewrite top_bit by exact Z64. unfold word_pair in E'. clearbody d b.
  destruct (Z.ltb_spec d 0).
  - replace (u128 d) with (d + 2 ^ 128) in E' by (apply Z.mod_unique with (-1); lia). apply Z.leb_le. lia.
  - rewrite uwrap_small in E' by lia. apply Z.leb_gt. lia.
Qed.

Lemma divide_step_spec (rem : uint128) (q : Z) (r := word_pair rem) : words_ok rem -> 0 <= r -> 0 <= q < 2 ^ 31 -> - b < r * 2 ^ 29 - q * b < 2 * b ->
  let '(q', rem') := divide_step sigB rem q in
  words_ok rem' /\ 0 <= word_pair rem' < 2 * b /\ 0 <= q' < 2 ^ 31 /\ r * 2 ^ 29 = q' * b + word_pair rem'.
Proof.
  intros O Hr Hq Hd. destruct (subtract_digit_spec rem q O Hq Hd) as (OZ & E & S). fold r in E, S.
  unfold divide_step. cbv zeta. change (softfloat_sub128 _ _ _ _) with (subtract_digit rem q). rewrite S. clear S.
  set (z := subtract_digit rem q) in *. clearbody z. set (d := r * 2 ^ 29 - q * b) in *. destruct (Z.ltb_spec d 0) as [C|C].
  - destruct OZ as [Z0 Z64], OB as [B0 B64]. destruct (add128_spec (v64 z) (v0 z) (v64 sigB) (v0 sigB) Z64 Z0 B64 B0) as [O' E'].
    fold (word_pair z) (word_pair sigB) in E'. fold b in E'. rewrite E in E'.
    assert (Q : 0 < q) by (destruct (Z.eq_dec q 0) as [->|]; [unfold d in C; lia|lia]).
    assert (W : u128 (u128 d + b) = d + b) by (clearbody b d; unfold uwrap; rewrite Z.add_mod_idemp_l by lia; apply Z.mod_small; lia).
    rewrite W in E'. rewrite uwrap_small by lia. split; [exact O'|]. rewrite E'. unfold d in *. lia.
  - rewrite uwrap_small in E by (clearbody b; lia). rewrite E. split; [exact OZ|]. unfold d. lia.
Qed.

(** The digits as a number, and the state of the division of [n] after them. *)
Fixpoint digits (qs : list Z) : Z := match qs with [] => 0 | q :: qs => q + 2 ^ 29 * digits qs end.

Definition divided (n : Z) (rem : uint128) (qs : list Z) : Prop :=
  words_ok rem /\ 0 <= word_pair rem < 2 * b /\ Forall (fun q => 0 <= q < 2 ^ 31) qs /\
  n * 2 ^ (29 * Z.of_nat (length qs)) = digits qs * b + word_pair rem.

Lemma divide_loop_spec (n : Z) (ix : nat) (rem : uint128) (qs : list Z) : divided n rem qs ->
  let '(q, rem', qs') := divide_loop ix sigB recip rem qs in
  q = estimate128 rem' /\ divided n rem' qs' /\ length qs' = (ix + length qs)%nat.
Proof.
  revert rem qs. induction ix as [|ix IH]; intros rem qs D; cbn [divide_loop].
  - split; [reflexivity|]. split; [exact D|reflexivity].
  - fold (estimate128 rem). destruct D as (O & B & F & N). destruct (estimate128_spec rem O ltac:(lia)) as [Q D].
    pose proof (divide_step_spec rem (estimate128 rem) O ltac:(lia) Q D) as S.
    destruct (divide_step sigB rem (estimate128 rem)) as [q' rem']. destruct S as (O' & B' & Q' & E).
    specialize (IH rem' (q' :: qs)). destruct (divide_loop ix sigB recip rem' (q' :: qs)) as [[q rem''] qs'].
    destruct IH as (I1 & I2 & I3); [|split; [exact I1|split; [exact I2|rewrite I3; cbn [length]; lia]]].
    split; [exact O'|]. split; [exact B'|]. split; [constructor; assumption|]. cbn [digits length].
    rewrite Nat2Z.inj_succ. replace (29 * Z.succ (Z.of_nat (length qs))) with (29 * Z.of_nat (length qs) + 29) by lia.
    rewrite Z.pow_add_r by lia. rewrite Z.mul_assoc, N. lia.
Qed.

(** The last digit, made exact but for a sticky bit when it is next to a multiple of 8. *)
Definition last_digit (rem : uint128) (q : Z) : Z :=
  if (u64 (q + 1) .& 7) <? 2 then
    let rem := subtract_digit rem q in
    let '(q, rem) :=
      if z2b (v64 rem .& 0x8000000000000000) then
        (u64 (q - 1), softfloat_add128 (v64 rem) (v0 rem) (v64 sigB) (v0 sigB))
      else if softfloat_le128 (v64 sigB) (v0 sigB) (v64 rem) (v0 rem) then
        (u64 (q + 1), softfloat_sub128 (v64 rem) (v0 rem) (v64 sigB) (v0 sigB))
      else (q, rem) in
    if z2b (v64 rem .| v0 rem) then q .| 1 else q
  else q.

Lemma sticky_digit (n q r k : Z) : 0 <= q -> 0 <= r < b -> n = q * b + r ->
  let q' := if z2b r then q .| 1 else q in
  (n < 8 * k * b <-> q' < 8 * k) /\ (8 * k * b < n <-> 8 * k < q').
Proof.
  intros Hq Hr N q'. clearbody b. assert (Q : q' = q /\ r = 0 \/ exists j, q' = 2 * j + 1 /\ q <= q' <= q + 1 /\ 0 < r).
  { subst q'. unfold z2b. destruct (Z.eqb_spec r 0); cbn [negb]; [auto|right; exists (q / 2)]. rewrite lor_1. zdm. }
  clearbody q'. assert (M : q <= 8 * k - 1 \/ q = 8 * k \/ 8 * k + 1 <= q) by lia. destruct M as [M|[->|M]].
  - pose proof (Z.mul_le_mono_nonneg_r _ _ b ltac:(lia) M). destruct Q as [Q|(j & Q)]; lia.
  - destruct Q as [Q|(j & Q)]; lia.
  - pose proof (Z.mul_le_mono_nonneg_r _ _ b ltac:(lia) M). destruct Q as [Q|(j & Q)]; lia.
Qed.

Lemma last_digit_spec (rem : uint128) (q k : Z) (r := word_pair rem) (q' := last_digit rem q) :
  words_ok rem -> 0 <= r < 2 * b -> 0 <= q < 2 ^ 31 -> - b < r * 2 ^ 29 - q * b < 2 * b ->
  0 <= q' < 2 ^ 32 /\ (r * 2 ^ 29 < 8 * k * b <-> q' < 8 * k) /\ (8 * k * b < r * 2 ^ 29 <-> 8 * k < q').
Proof.
  intros O Hr Hq Hd. subst q'. unfold last_digit. rewrite (land_low _ 7 3), (uwrap_small 64 (q + 1)) by (reflexivity || lia).
  destruct (Z.ltb_spec ((q + 1) mod 2 ^ 3) 2) as [C|C]; cycle 1.
  { split; [lia|]. set (n := r * 2 ^ 29) in *. clearbody n b. assert (M : q <= 8 * k - 2 \/ 8 * k + 1 <= q) by zdm.
    destruct M as [M|M]; pose proof (Z.mul_le_mono_nonneg_r _ _ b ltac:(lia) M); lia. }
  clear C. destruct (subtract_digit_spec rem q O Hq Hd) as (OZ & E & S). fold r in E, S. cbv zeta. rewrite S. clear S.
  set (z := subtract_digit rem q) in *. clearbody z. set (d := r * 2 ^ 29 - q * b) in *.
  assert (F : forall q' z', words_ok z' -> 0 <= q' < 2 ^ 31 + 1 -> 0 <= word_pair z' < b -> r * 2 ^ 29 = q' * b + word_pair z' ->
    0 <= (if z2b (v64 z' .| v0 z') then q' .| 1 else q') < 2 ^ 32 /\
    (r * 2 ^ 29 < 8 * k * b <-> (if z2b (v64 z' .| v0 z') then q' .| 1 else q') < 8 * k) /\
    (8 * k * b < r * 2 ^ 29 <-> 8 * k < (if z2b (v64 z' .| v0 z') then q' .| 1 else q'))).
  { intros q' z' O' Hq' Hz N. rewrite any_bit by exact O'. split; [destruct (z2b _); [rewrite lor_1; zdm|lia]|].
    apply sticky_digit with (r := word_pair z'); assumption || lia. }
  destruct OZ as [Z0 Z64], OB as [B0 B64]. destruct (Z.ltb_spec d 0) as [C|C].
  - destruct (add128_spec (v64 z) (v0 z) (v64 sigB) (v0 sigB) Z64 Z0 B64 B0) as [O' E']. fold (word_pair z) (word_pair sigB) in E'. fold b in E'.
    assert (Q : 0 < q) by (destruct (Z.eq_dec q 0) as [->|]; [unfold d in C; lia|lia]).
    assert (W : u128 (u128 d + b) = d + b) by (clearbody b d; unfold uwrap; rewrite Z.add_mod_idemp_l by lia; apply Z.mod_small; lia).
    rewrite E, W in E'. rewrite uwrap_small by lia. apply F; [exact O'|lia|rewrite E'; lia|rewrite E'; unfold d; lia].
  - rewrite uwrap_small in E by (clearbody b d; lia). rewrite le128_spec by assumption. fold (word_pair z) (word_pair sigB). fold b. rewrite E.
    destruct (Z.leb_spec b d) as [L|L]; [|apply F; [split; assumption|lia|lia|rewrite E; unfold d; lia]].
    destruct (sub128_spec (v64 z) (v0 z) (v64 sigB) (v0 sigB) Z64 Z0 B64 B0) as [O' E']. fold (word_pair z) (word_pair sigB) in E'. fold b in E'.
    rewrite E, uwrap_small in E' by (clearbody b d; lia).
    apply F; [exact O'|lia|rewrite E'; lia|rewrite E'; unfold d; lia].
Qed.
End Divisor.

(** *** The quotient *)
Lemma assembled (q0 q1 q2 q : Z) (term := softfloat_shortShiftLeft128 0 q1 54)
    (z := softfloat_add128 (u64 (q2 << 19)) (u64 (u64 (q0 << 25) + (q >> 4))) (v64 term) (v0 term)) :
  0 <= q0 < 2 ^ 31 -> 0 <= q1 < 2 ^ 31 -> 0 <= q2 < 2 ^ 31 -> 0 <= q < 2 ^ 32 ->
  words_ok z /\ word_pair z * 2 ^ 64 + u64 (q << 60) = (digits [q0; q1; q2] * 2 ^ 29 + q) * 2 ^ 60.
Proof.
  intros H0 H1 H2 Hq. destruct (shortShiftLeft128_spec 0 q1 54) as [[T0 T64] ET]; try lia. fold term in T0, T64, ET. clearbody term.
  subst z. rewrite !shl_mul, shr_div by lia. rewrite (uwrap_small 64 (q2 * _)), (uwrap_small 64 (q0 * _)), (uwrap_small 64 (_ + _)) by (zdm || lia).
  destruct (add128_spec (q2 * 2 ^ 19) (q0 * 2 ^ 25 + q / 2 ^ 4) (v64 term) (v0 term)) as [O E]; try lia; [zdm|].
  fold (word_pair term) in E. rewrite ET, uwrap_small in E by zdm. split; [exact O|]. rewrite E.
  assert (Q : u64 (q * 2 ^ 60) = q mod 2 ^ 4 * 2 ^ 60) by (unfold uwrap; change (2 ^ 64) with (2 ^ 4 * 2 ^ 60); apply Z.mul_mod_distr_r; lia).
  rewrite Q. cbn [digits]. zdm.
Qed.

Lemma divide128 (sign : bool) (eA eB : Z) (sigA sigB : uint128) (s : env) (a b : R) :
  operand128 a eA sigA -> operand128 b eB sigB ->
  rounded128 s sign (a / b)
    ((let expZ := eA - eB + 0x3FFE in
      let sigA := {| v64 := v64 sigA .| 0x0001000000000000; v0 := v0 sigA |} in
      let sigB := {| v64 := v64 sigB .| 0x0001000000000000; v0 := v0 sigB |} in
      let '(expZ, rem) :=
        if softfloat_lt128 (v64 sigA) (v0 sigA) (v64 sigB) (v0 sigB)
        then (expZ - 1, softfloat_add128 (v64 sigA) (v0 sigA) (v64 sigA) (v0 sigA)) else (expZ, sigA) in
      let recip32 := softfloat_approxRecip32_1 (v64 sigB >> 17) in
      let '(q, rem, qs) := divide_loop 3 sigB recip32 rem [] in
      let q := last_digit sigB rem q in
      let sigZExtra := u64 (q << 60) in
      let term := softfloat_shortShiftLeft128 0 (nth 1 qs 0) 54 in
      let sigZ :=
        softfloat_add128 (u64 (nth 2 qs 0 << 19)) (u64 (u64 (nth 0 qs 0 << 25) + (q >> 4))) (v64 term) (v0 term) in
      softfloat_roundPackToF128 sign expZ (v64 sigZ) (v0 sigZ) sigZExtra) s).
Proof.
  intros (HeA & OA & BA & XA) (HeB & OB & BB & XB). cbv zeta.
  destruct (lead_words sigA OA BA) as (OA' & _ & WA & _). destruct (lead_words sigB OB BB) as (OB' & _ & WB & _).
  set (zA := {| v64 := v64 sigA .| 0x0001000000000000; v0 := v0 sigA |}) in *. change (with_lead sigA) with (word_pair zA) in *.
  set (zB := {| v64 := v64 sigB .| 0x0001000000000000; v0 := v0 sigB |}) in *. change (with_lead sigB) with (word_pair zB) in *.
  clearbody zA zB. clear OA BA OB BB sigA sigB.
  assert (Main : forall e n rem, (e = eA - eB + 0x3FFE /\ n = word_pair zA \/ e = eA - eB + 0x3FFE - 1 /\ n = 2 * word_pair zA) ->
    words_ok rem -> word_pair rem = n -> word_pair zB <= n < 2 * word_pair zB ->
    rounded128 s sign (a / b)
      ((let '(q, rem, qs) := divide_loop 3 zB (softfloat_approxRecip32_1 (v64 zB >> 17)) rem [] in
        softfloat_roundPackToF128 sign e
          (v64 (softfloat_add128 (u64 (nth 2 qs 0 << 19)) (u64 (u64 (nth 0 qs 0 << 25) + (last_digit zB rem q >> 4)))
             (v64 (softfloat_shortShiftLeft128 0 (nth 1 qs 0) 54)) (v0 (softfloat_shortShiftLeft128 0 (nth 1 qs 0) 54))))
          (v0 (softfloat_add128 (u64 (nth 2 qs 0 << 19)) (u64 (u64 (nth 0 qs 0 << 25) + (last_digit zB rem q >> 4)))
             (v64 (softfloat_shortShiftLeft128 0 (nth 1 qs 0) 54)) (v0 (softfloat_shortShiftLeft128 0 (nth 1 qs 0) 54))))
          (u64 (last_digit zB rem q << 60))) s)).
  { intros e n rem C O En Bn.
    pose proof (divide_loop_spec zB OB' WB n 3 rem []) as L. destruct (divide_loop 3 zB _ rem []) as [[q rem'] qs].
    destruct L as (-> & (O' & R & F & N) & LQ); [repeat split; try apply O; try constructor; cbn [digits length]; lia|].
    destruct qs as [|q0 [|q1 [|q2 [|]]]]; try discriminate LQ. clear LQ. cbn [nth].
    inversion_clear F as [|? ? F0 F']. inversion_clear F' as [|? ? F1 F2]. inversion_clear F2 as [|? ? F3 _].
    destruct (estimate128_spec zB OB' WB rem' O' ltac:(lia)) as [Q D].
    pose proof (fun k => last_digit_spec zB OB' WB rem' _ k O' R Q D) as K.
    set (q := last_digit zB rem' _) in *. clearbody q. pose proof (proj1 (K 0)) as Bq.
    destruct (assembled q0 q1 q2 q F0 F1 F3 Bq) as [[Z0 Z64] E]. set (z := softfloat_add128 _ _ _ _) in *. clearbody z.
    set (qd := digits [q0; q1; q2]) in *. change (29 * Z.of_nat (length [q0; q1; q2])) with 87 in N. clearbody qd. clear F0 F1 F3 Q D q0 q1 q2.
    assert (S : same (2 ^ 63) (word_pair z * 2 ^ 64 + u64 (q << 60)) (IZR (n * 2 ^ 176) / IZR (word_pair zB))).
    { intros m. rewrite (proj1 (ratio_compare _ (word_pair zB) (m * 2 ^ 63) ltac:(lia))), (proj2 (ratio_compare _ (word_pair zB) (m * 2 ^ 63) ltac:(lia))).
      destruct (K (m - qd * 2 ^ 26)) as (_ & K1 & K2). rewrite E. replace (n * 2 ^ 176) with (n * 2 ^ 87 * 2 ^ 89) by ring. rewrite N.
      replace (8 * (m - qd * 2 ^ 26) * word_pair zB) with (m * 8 * word_pair zB - qd * word_pair zB * 2 ^ 29) in K1, K2 by ring.
      replace (m * 2 ^ 63 * word_pair zB) with (m * 8 * word_pair zB * 2 ^ 60) by ring. clear - K1 K2. split; lia. }
    assert (B : 2 ^ 176 <= word_pair z * 2 ^ 64 + u64 (q << 60) < 2 ^ 177).
    { destruct (S (2 ^ 113)) as [L _]. destruct (S (2 ^ 114)) as [U _].
      rewrite (proj1 (ratio_compare _ (word_pair zB) (2 ^ 113 * 2 ^ 63) ltac:(lia))) in L.
      rewrite (proj1 (ratio_compare _ (word_pair zB) (2 ^ 114 * 2 ^ 63) ltac:(lia))) in U. lia. }
    pose proof (uwrap_bound 64 (q << 60) ltac:(lia)) as X. set (extra := u64 (q << 60)) in *. clearbody extra.
    apply softfloat_roundPackToF128_rounds with (k := 63) (y := (IZR (n * 2 ^ 176) / IZR (word_pair zB))%R); try assumption; try lia.
    assert (NB : IZR (word_pair zB) <> 0%R) by (apply not_0_IZR; lia).
    rewrite XA, XB, mult_IZR, <- (pow2_IZR 176) by lia.
    assert (En' : IZR n = (IZR (word_pair zA) * pow2 (eA - eB + 0x3FFE - e))%R).
    { destruct C as [[-> ->]|[-> ->]]; [now rewrite Z.sub_diag, pow2_0, Rmult_1_r|].
      replace (eA - eB + 0x3FFE - (eA - eB + 0x3FFE - 1)) with 1 by lia. now rewrite mult_IZR, Rmult_comm, pow2_1. }
    rewrite En'. replace (eA - 1 + emin F128) with (eA - eB + 0x3FFE - e + (176 + (e - 64 + emin F128)) + (eB - 1 + emin F128)) by (change (emin F128) with (-16494); lia).
    rewrite !pow2_add. field. auto. }
  destruct OA' as [A0 A64], OB' as [B0 B64]. rewrite lt128_spec by assumption. fold (word_pair zA) (word_pair zB).
  destruct (Z.ltb_spec (word_pair zA) (word_pair zB)) as [C|C].
  - destruct (add128_spec (v64 zA) (v0 zA) (v64 zA) (v0 zA) A64 A0 A64 A0) as [O E]. fold (word_pair zA) in E. rewrite uwrap_small in E by lia.
    apply Main with (n := 2 * word_pair zA); [right; split; reflexivity|exact O|lia|lia].
  - apply Main with (n := word_pair zA); [left; split; reflexivity|split; assumption|reflexivity|lia].
Qed.

Lemma f128_div_spec (x y : float128_t) (s : env) (a := f128_enc x) (b := f128_enc y) : f128_ok x -> f128_ok y ->
  meets (div_spec F128 s a b) (f128_div x y s).
Proof.
  intros Hx Hy. unfold meets, div_spec.
  pose proof (propagate128 x y s Hx Hy) as P. pose proof (infinity128 (xorb (sign_of F128 a) (sign_of F128 b))) as IZ.
  pose proof (default_nan128 s) as DN. fold a b in P.
  destruct (classes128 x Hx) as [Na Ia], (classes128 y Hy) as [Nb Ib]. pose proof (classes128_zero x Hx) as Za. pose proof (classes128_zero y Hy) as Zb.
  fold a b in Na, Ia, Nb, Ib, Za, Zb. rewrite Na, Nb, Ia, Ib, Za, Zb. clear Na Nb Ia Ib Za Zb.
  pose proof (operand128_cases x Hx) as CA. pose proof (operand128_cases y Hy) as CB. fold a in CA. fold b in CB.
  destruct (F128_fields x Hx) as (Sa & RX & _), (F128_fields y Hy) as (Sb & RY & _). fold a in Sa. fold b in Sb.
  destruct (frac_words x Hx) as [OX WX], (frac_words y Hy) as [OY WY]. pose proof (any_bit _ OX) as BX. pose proof (any_bit _ OY) as BY.
  rewrite WX in BX. rewrite WY in BY. cbn [v64 v0] in BX, BY. clear OX OY WX WY.
  unfold f128_div. cbv zeta. cbn [v64 v0]. rewrite Sa, Sb, BX, BY, any_magnitude by assumption. clear BX BY.
  set (sz := xorb _ _) in *.
  assert (ZZ : encodes (ret (uZ_f {| v64 := packToF128UI64 sz 0 0; v0 := 0 |}) s) (with_sign F128 sz 0, s)).
  { destruct (packed128 sz 0 {| v64 := 0; v0 := 0 |}) as [O E]; [lia|split; cbn; lia|reflexivity|].
    split; [exact O|]. unfold encoded, ret. cbn [fst snd]. f_equal. exact E. }
  clearbody sz a b.
  set (eA := expF128UI64 (uA_v64 x)) in *. set (eB := expF128UI64 (uA_v64 y)) in *. set (mA := frac128 x) in *. set (mB := frac128 y) in *.
  clearbody eA eB mA mB. clear Sa Sb.
  assert (FB : eB = 0x7FFF -> z2b eB = true) by (now intros ->).
  destruct (Z.eqb_spec eA 0x7FFF) as [EA|EA]; (destruct (Z.eqb_spec eB 0x7FFF) as [EB|EB]; [rewrite ?FB by lia|]).
  1-3: destruct (z2b mA), (z2b mB); cbn [andb orb negb]; first [exact P|exact (IZ s)|exact DN|exact ZZ].
  cbn [andb orb negb]. clear P ZZ FB.
  destruct CB as [[NB B]|[(NB & MB & B)|(NB & MB & B)]]; [lia| | |].
  2: { rewrite NB, MB. cbn [z2b Z.eqb negb andb]. destruct (z2b eA), (z2b mA); cbn [negb orb andb]; first [exact DN|exact (IZ _)]. }
  all: destruct CA as [[NA A]|[(NA & MA & A)|(NA & MA & A)]]; [lia| | |].
  all: try replace (z2b eA) with true by (unfold z2b; lia). all: try replace (z2b eB) with true by (unfold z2b; lia).
  all: try replace (z2b mA) with true by (unfold z2b; lia). all: try replace (z2b mB) with true by (unfold z2b; lia).
  all: rewrite ?NA, ?NB; cbn [z2b Z.eqb negb andb].
  all: try (rewrite MA, A; cbn [z2b Z.eqb negb]; apply zero128; unfold Rdiv; ring).
  all: exact (divide128 sz _ _ _ _ s _ _ A B).
Qed.
