(* ===== verification/Formats.v ===== *)
(** The three formats of the library as instances of the interface, and the correctness
    theorems of the arithmetic operations, of the comparisons, of the rounding to
    integral values and of the conversions, with the laws and round trips that follow through the interface. *)
From Stdlib Require Import ZArith Bool Lia Reals Lra.
From S2P Require Import Prelude Ieee Softfloat Machine Contract Interface Laws F32 F32Arith F32Mul F64 F64Arith F64Mul Convert ToInt Truncate FromInt Widen Integral F16 F16Arith F16Mul F16Convert F16Integers.
Local Open Scope Z_scope.

#[export] Instance F32_ops : FloatOps F32 := {|
  fadd := f32_add; fsub := f32_sub; fmul := f32_mul; fdiv := f32_div;
  feq := f32_eq; fle := f32_le; flt := f32_lt;
  feq_signaling := f32_eq_signaling; fle_quiet := f32_le_quiet; flt_quiet := f32_lt_quiet;
  froundToInt := f32_roundToInt
|}.
#[export] Instance F64_ops : FloatOps F64 := {|
  fadd := f64_add; fsub := f64_sub; fmul := f64_mul; fdiv := f64_div;
  feq := f64_eq; fle := f64_le; flt := f64_lt;
  feq_signaling := f64_eq_signaling; fle_quiet := f64_le_quiet; flt_quiet := f64_lt_quiet;
  froundToInt := f64_roundToInt
|}.
#[export] Instance F16_ops : FloatOps F16 := {|
  fadd := f16_add; fsub := f16_sub; fmul := f16_mul; fdiv := f16_div;
  feq := f16_eq; fle := f16_le; flt := f16_lt;
  feq_signaling := f16_eq_signaling; fle_quiet := f16_le_quiet; flt_quiet := f16_lt_quiet;
  froundToInt := f16_roundToInt
|}.

#[export] Instance F32_laws : FloatLaws F32.
Proof.
  constructor; intros; [exact F32_valid|now apply f32_add_spec|now apply f32_sub_spec|now apply f32_mul_spec|now apply f32_div_spec|
    now apply f32_eq_spec|now apply f32_order_spec|now apply f32_roundToInt_spec].
Qed.
#[export] Instance F64_laws : FloatLaws F64.
Proof.
  constructor; intros; [exact F64_valid|now apply f64_add_spec|now apply f64_sub_spec|now apply f64_mul_spec|now apply f64_div_spec|
    now apply f64_eq_spec|now apply f64_order_spec|now apply f64_roundToInt_spec].
Qed.
#[export] Instance F16_laws : FloatLaws F16.
Proof.
  constructor; intros; [exact F16_valid|now apply f16_add_spec|now apply f16_sub_spec|now apply f16_mul_spec|now apply f16_div_spec|
    now apply f16_eq_spec|now apply f16_order_spec|now apply f16_roundToInt_spec].
Qed.

(** A literal is an encoding: the checks by evaluation. *)
Ltac encoding := repeat split; solve [discriminate | reflexivity | vm_compute; congruence].

(** ** The correctness theorems of the arithmetic operations, of the comparisons and of the rounding to integral values, for the three formats, and the laws that follow from them through the interface *)

(** The operations are used through their contracts only. *)
#[local] Opaque
  f32_add f32_sub f32_mul f32_div f32_eq f32_le f32_lt f32_eq_signaling f32_le_quiet f32_lt_quiet
  f32_roundToInt f64_add f64_sub f64_mul f64_div f64_eq f64_le f64_lt f64_eq_signaling f64_le_quiet
  f64_lt_quiet f64_roundToInt f16_add f16_sub f16_mul f16_div f16_eq f16_le f16_lt f16_eq_signaling
  f16_le_quiet f16_lt_quiet f16_roundToInt.

(** ** The 32- and 64-bit formats *)

(** C1. Addition and subtraction of the 32- and 64-bit formats are those of IEEE 754. For any two
    encodings, the result and the flags raised are: the first NaN operand made quiet
    (invalid if one is signaling); the invalid operation for infinities that cancel; the
    infinite operand; and for finite operands the exact sum (of the first operand and, in a
    subtraction, the second with the other sign), correctly rounded in the current mode
    with the overflow, underflow and inexact flags it calls for, a zero sum having
    the sign that the mode calls for. *)
Theorem sums_correct (a b : Z) (s : env) :
  (is_enc F32 a -> is_enc F32 b ->
   sum_spec F32 s a b (sign_of F32 b) (f32_add a b s) /\ sum_spec F32 s a b (negb (sign_of F32 b)) (f32_sub a b s)) /\
  (is_enc F64 a -> is_enc F64 b ->
   sum_spec F64 s a b (sign_of F64 b) (f64_add a b s) /\ sum_spec F64 s a b (negb (sign_of F64 b)) (f64_sub a b s)).
Proof.
  split; intros Ha Hb.
  - split; [exact (f32_add_spec a b s Ha Hb)|exact (f32_sub_spec a b s Ha Hb)].
  - split; [exact (f64_add_spec a b s Ha Hb)|exact (f64_sub_spec a b s Ha Hb)].
Qed.

(** The sum of 1 and half a unit in the last place ties to even and is inexact;
    inf - inf is the invalid operation. *)
Lemma sums_correct_witness :
  f32_add 0x3F800000 0x33800000 initial_env = (0x3F800000, raised_env softfloat_flag_inexact initial_env) /\
  f64_sub 0x7FF0000000000000 0x7FF0000000000000 initial_env = invalid_result F64 initial_env /\
  sum_spec F32 initial_env 0x3F800000 0x33800000 (sign_of F32 0x33800000) (f32_add 0x3F800000 0x33800000 initial_env) /\
  sum_spec F64 initial_env 0x3FF0000000000000 0x3CA0000000000000 (sign_of F64 0x3CA0000000000000)
    (f64_add 0x3FF0000000000000 0x3CA0000000000000 initial_env).
Proof.
  do 2 (split; [vm_compute; reflexivity|]). split.
  - refine (proj1 (proj1 (sums_correct 0x3F800000 0x33800000 initial_env) _ _)); encoding.
  - refine (proj1 (proj2 (sums_correct 0x3FF0000000000000 0x3CA0000000000000 initial_env) _ _)); encoding.
Defined.

(** C2. Multiplication of the 32- and 64-bit formats is that of IEEE 754: NaN operands as for the
    sum, 0 * inf invalid, infinities with the product of the signs, and otherwise the
    exact product correctly rounded, with its flags. *)
Theorem products_correct (a b : Z) (s : env) :
  (is_enc F32 a -> is_enc F32 b -> mul_spec F32 s a b (f32_mul a b s)) /\
  (is_enc F64 a -> is_enc F64 b -> mul_spec F64 s a b (f64_mul a b s)).
Proof. split; [exact (f32_mul_spec a b s)|exact (f64_mul_spec a b s)]. Qed.

(** The largest number, tripled, overflows. *)
Lemma products_correct_witness :
  f32_mul 0x7F7FFFFF 0x40400000 initial_env =
    (0x7F800000, raised_env (Z.lor softfloat_flag_overflow softfloat_flag_inexact) initial_env) /\
  mul_spec F32 initial_env 0x7F7FFFFF 0x40400000 (f32_mul 0x7F7FFFFF 0x40400000 initial_env) /\
  mul_spec F64 initial_env 0x7FEFFFFFFFFFFFFF 0x4008000000000000 (f64_mul 0x7FEFFFFFFFFFFFFF 0x4008000000000000 initial_env).
Proof.
  split; [vm_compute; reflexivity|]. split.
  - refine (proj1 (products_correct _ _ initial_env) _ _); encoding.
  - refine (proj2 (products_correct _ _ initial_env) _ _); encoding.
Defined.

(** C3. Division of the 32- and 64-bit formats is that of IEEE 754: NaN operands as for the sum,
    inf / inf and 0 / 0 invalid, x / 0 infinite with the division-by-zero flag, x / inf zero, and
    otherwise the exact quotient correctly rounded, with its flags. *)
Theorem quotients_correct (a b : Z) (s : env) :
  (is_enc F32 a -> is_enc F32 b -> div_spec F32 s a b (f32_div a b s)) /\
  (is_enc F64 a -> is_enc F64 b -> div_spec F64 s a b (f64_div a b s)).
Proof. split; [exact (f32_div_spec a b s)|exact (f64_div_spec a b s)]. Qed.

(** 1 / -0 is minus infinity. *)
Lemma quotients_correct_witness :
  f32_div 0x3F800000 0x80000000 initial_env = (infinity F32 true, raised_env softfloat_flag_infinite initial_env) /\
  div_spec F32 initial_env 0x3F800000 0x80000000 (f32_div 0x3F800000 0x80000000 initial_env) /\
  div_spec F64 initial_env 0x3FF0000000000000 0x4008000000000000 (f64_div 0x3FF0000000000000 0x4008000000000000 initial_env).
Proof.
  split; [vm_compute; reflexivity|]. split.
  - refine (proj1 (quotients_correct _ _ initial_env) _ _); encoding.
  - refine (proj2 (quotients_correct _ _ initial_env) _ _); encoding.
Defined.

(** ** The 16-bit format *)

(** C34. The four operations of the 16-bit format are those of IEEE 754, with the same
    contracts as in the wider formats.  In addition and subtraction the rounding mode
    has to be one of the five that the library defines: for operands far apart the
    code treats an undefined mode differently from [softfloat_roundPackToF16]. *)
Theorem f16_arithmetic_correct (a b : Z) (s : env) : valid_mode s -> is_enc F16 a -> is_enc F16 b ->
  sum_spec F16 s a b (sign_of F16 b) (f16_add a b s) /\
  sum_spec F16 s a b (negb (sign_of F16 b)) (f16_sub a b s) /\
  mul_spec F16 s a b (f16_mul a b s) /\ div_spec F16 s a b (f16_div a b s).
Proof.
  intros Hv Ha Hb. split; [exact (f16_add_spec a b s Hv Ha Hb)|]. split; [exact (f16_sub_spec a b s Hv Ha Hb)|].
  split; [exact (f16_mul_spec a b s Ha Hb)|exact (f16_div_spec a b s Ha Hb)].
Qed.

(** 1 + 2^-24 is inexact, 1 / 3 as well. *)
Lemma f16_arithmetic_correct_witness :
  f16_add 0x3C00 0x0001 initial_env = (0x3C00, raised_env softfloat_flag_inexact initial_env) /\
  f16_div 0x3C00 0x4200 initial_env = (0x3555, raised_env softfloat_flag_inexact initial_env) /\
  sum_spec F16 initial_env 0x3C00 0x0001 (sign_of F16 0x0001) (f16_add 0x3C00 0x0001 initial_env).
Proof.
  split; [vm_compute; reflexivity|]. split; [vm_compute; reflexivity|].
  refine (proj1 (f16_arithmetic_correct 0x3C00 0x0001 initial_env _ _ _)); encoding.
Defined.

(** C16. The six comparisons of each format compare the values of the operands (so -0 = +0),
    are false when one is a NaN, and raise the invalid flag exactly for a signaling NaN or,
    in the signaling ones ([eq_signaling], [le], [lt]), for any NaN. *)
Theorem comparisons_correct (a b : Z) (s : env) :
  (is_enc F32 a -> is_enc F32 b ->
   comparisons_spec F32 f32_eq f32_eq_signaling f32_le f32_lt f32_le_quiet f32_lt_quiet s a b) /\
  (is_enc F64 a -> is_enc F64 b ->
   comparisons_spec F64 f64_eq f64_eq_signaling f64_le f64_lt f64_le_quiet f64_lt_quiet s a b) /\
  (is_enc F16 a -> is_enc F16 b ->
   comparisons_spec F16 f16_eq f16_eq_signaling f16_le f16_lt f16_le_quiet f16_lt_quiet s a b).
Proof.
  split; [|split]; intros Ha Hb.
  - exact (compare_laws (f := F32) (O := F32_ops) a b s Ha Hb).
  - exact (compare_laws (f := F64) (O := F64_ops) a b s Ha Hb).
  - exact (compare_laws (f := F16) (O := F16_ops) a b s Ha Hb).
Qed.

(** -3 < 1, a quiet NaN is unordered, and -0 = +0. *)
Lemma comparisons_correct_witness :
  f64_lt 0xC008000000000000 0x3FF0000000000000 initial_env = (true, initial_env) /\
  f32_le 0x7FC00001 0x3F800000 initial_env = (false, raised_env softfloat_flag_invalid initial_env) /\
  f16_eq 0x8000 0 initial_env = (true, initial_env) /\
  comparisons_spec F32 f32_eq f32_eq_signaling f32_le f32_lt f32_le_quiet f32_lt_quiet initial_env 0x7FC00001 0x3F800000.
Proof.
  do 3 (split; [vm_compute; reflexivity|]). refine (proj1 (comparisons_correct 0x7FC00001 0x3F800000 initial_env) _ _); encoding.
Defined.

(** ** Rounding to an integral value *)

(** C32. [roundToInt] of each format rounds to an integral value in the direction asked for: a
    NaN is made quiet, an infinity or an integral number is returned as it is, and any other
    number gives the encoding, with its sign, of the integer that its magnitude rounds
    to; the inexact flag is raised exactly when asked for and the value changed.  It is
    idempotent: what it returned for a finite number it returns unchanged and raising
    nothing, whatever the mode. *)
Theorem roundToInt_correct (a mode : Z) (exact : bool) (s : env) :
  (is_enc F32 a -> integral_spec F32 s (mag_direction mode (sign_of F32 a)) exact a (f32_roundToInt a mode exact s)) /\
  (is_enc F64 a -> integral_spec F64 s (mag_direction mode (sign_of F64 a)) exact a (f64_roundToInt a mode exact s)) /\
  (is_enc F16 a -> integral_spec F16 s (mag_direction mode (sign_of F16 a)) exact a (f16_roundToInt a mode exact s)) /\
  forall mode' exact' s',
    (is_finite F32 a -> let z := fst (f32_roundToInt a mode exact s) in f32_roundToInt z mode' exact' s' = (z, s')) /\
    (is_finite F64 a -> let z := fst (f64_roundToInt a mode exact s) in f64_roundToInt z mode' exact' s' = (z, s')) /\
    (is_finite F16 a -> let z := fst (f16_roundToInt a mode exact s) in f16_roundToInt z mode' exact' s' = (z, s')).
Proof.
  split; [exact (f32_roundToInt_spec a mode exact s)|]. split; [exact (f64_roundToInt_spec a mode exact s)|].
  split; [exact (f16_roundToInt_spec a mode exact s)|]. intros mode' exact' s'. split; [|split]; intros Ha.
  - exact (round_idempotent (f := F32) (O := F32_ops) a mode mode' exact exact' s s' Ha).
  - exact (round_idempotent (f := F64) (O := F64_ops) a mode mode' exact exact' s s' Ha).
  - exact (round_idempotent (f := F16) (O := F16_ops) a mode mode' exact exact' s s' Ha).
Qed.

(** 2.5 rounds to 2. *)
Lemma roundToInt_correct_witness :
  f32_roundToInt 0x40200000 softfloat_round_near_even true initial_env = (0x40000000, raised_env softfloat_flag_inexact initial_env) /\
  f64_roundToInt 0x4004000000000000 softfloat_round_near_even true initial_env = (0x4000000000000000, raised_env softfloat_flag_inexact initial_env) /\
  integral_spec F32 initial_env (mag_direction softfloat_round_near_even (sign_of F32 0x40200000)) true 0x40200000
    (f32_roundToInt 0x40200000 softfloat_round_near_even true initial_env) /\
  f32_roundToInt (fst (f32_roundToInt 0x40200000 softfloat_round_max true initial_env)) softfloat_round_min true initial_env =
    (fst (f32_roundToInt 0x40200000 softfloat_round_max true initial_env), initial_env).
Proof.
  do 2 (split; [vm_compute; reflexivity|]). split.
  - refine (proj1 (roundToInt_correct 0x40200000 softfloat_round_near_even true initial_env) _); encoding.
  - refine (proj1 (proj2 (proj2 (proj2 (roundToInt_correct 0x40200000 softfloat_round_max true initial_env))) _ _ _) _); encoding.
Defined.

(** ** Laws *)

(** Laws of the arithmetic in each format. Addition and multiplication of numbers commute,
    flags included; subtraction is the addition of the second operand with the other sign;
    a finite number less itself is a zero, negative exactly when rounding down. Addition is monotone:
    rounding, overflow to infinity included, never reverses the order of two sums, in any rounding mode.
    And the comparisons order the numbers of a format: [le] is reflexive, transitive and
    total, antisymmetric up to [eq], and [lt] is its strict part. *)
Theorem arithmetic_laws (a b c : Z) (s : env) :
  (valid_mode s -> laws_of F32 f32_add f32_sub f32_mul s a b c) /\
  (valid_mode s -> laws_of F64 f64_add f64_sub f64_mul s a b c) /\
  (valid_mode s -> laws_of F16 f16_add f16_sub f16_mul s a b c) /\
  (number F32 a -> number F32 b -> number F32 c -> order_laws f32_le f32_lt f32_eq s a b c) /\
  (number F64 a -> number F64 b -> number F64 c -> order_laws f64_le f64_lt f64_eq s a b c) /\
  (number F16 a -> number F16 b -> number F16 c -> order_laws f16_le f16_lt f16_eq s a b c).
Proof.
  repeat apply conj.
  - exact (laws_hold (f := F32) (O := F32_ops) a b c s).
  - exact (laws_hold (f := F64) (O := F64_ops) a b c s).
  - exact (laws_hold (f := F16) (O := F16_ops) a b c s).
  - exact (order_numbers (f := F32) (O := F32_ops) a b c s).
  - exact (order_numbers (f := F64) (O := F64_ops) a b c s).
  - exact (order_numbers (f := F16) (O := F16_ops) a b c s).
Qed.

(** 1 - 3 is 1 + -3; a sum may overflow, and infinity is above; -3 is less than 1. *)
Lemma arithmetic_laws_witness :
  f64_sub 0x3FF0000000000000 0x4008000000000000 initial_env = f64_add 0x3FF0000000000000 (negate F64 0x4008000000000000) initial_env /\
  f32_add 0x7F7FFFFF 0x7F7FFFFF initial_env = (0x7F800000, raised_env 5 initial_env) /\
  (value F32 (fst (f32_add 0 0x7F7FFFFF initial_env)) <= value F32 (fst (f32_add 0x7F7FFFFF 0x7F7FFFFF initial_env)))%R /\
  order_laws f32_le f32_lt f32_eq initial_env 0xC0400000 0x3F800000 0x7F800000.
Proof.
  split; [|split; [vm_compute; reflexivity|split]].
  - refine (proj2 (proj2 (proj1 (proj1 (proj2 (arithmetic_laws 0x3FF0000000000000 0x4008000000000000 0 initial_env)) _) _ _))); encoding.
  - refine (proj2 (proj2 (proj1 (arithmetic_laws 0 0x7F7FFFFF 0x7F7FFFFF initial_env) _)) _ _ _ _); try solve [encoding].
    unfold value. change (sign_of F32 0) with false. change (sign_of F32 0x7F7FFFFF) with false. cbn [signR].
    apply (mag_le F32). vm_compute. split; congruence.
  - refine (proj1 (proj2 (proj2 (proj2 (arithmetic_laws 0xC0400000 0x3F800000 0x7F800000 initial_env)))) _ _ _); encoding.
Defined.

(** ** The correctness theorems of the conversions between the formats and the integer types, and the round trips that follow from them *)
Local Open Scope M_scope.

(** ** To the integers *)

(** C20. The conversions of the formats to integers round in the direction asked for
    (the [r_minMag] ones truncate), and give the rounded integer if it is in the range of the
    type, with the inexact flag exactly when asked for and the value is not an integer; a NaN,
    an infinity or an integer out of range gives the code of the 8086-SSE specialisation and
    the invalid flag alone. *)
Theorem floats_to_integers_correct (a mode : Z) (exact : bool) (s : env) :
  (is_enc F32 a ->
   to_integers_spec F32 (fun a => f32_to_ui32 a mode exact) (fun a => f32_to_i32 a mode exact)
     (fun a => f32_to_ui64 a mode exact) (fun a => f32_to_i64 a mode exact)
     s (mag_direction mode (sign_of F32 a)) exact a /\
   to_integers_spec F32 (fun a => f32_to_ui32_r_minMag a exact) (fun a => f32_to_i32_r_minMag a exact)
     (fun a => f32_to_ui64_r_minMag a exact) (fun a => f32_to_i64_r_minMag a exact) s TowardZero exact a) /\
  (is_enc F64 a ->
   to_integers_spec F64 (fun a => f64_to_ui32 a mode exact) (fun a => f64_to_i32 a mode exact)
     (fun a => f64_to_ui64 a mode exact) (fun a => f64_to_i64 a mode exact)
     s (mag_direction mode (sign_of F64 a)) exact a /\
   to_integers_spec F64 (fun a => f64_to_ui32_r_minMag a exact) (fun a => f64_to_i32_r_minMag a exact)
     (fun a => f64_to_ui64_r_minMag a exact) (fun a => f64_to_i64_r_minMag a exact) s TowardZero exact a) /\
  (is_enc F16 a ->
   to_integers_spec F16 (fun a => f16_to_ui32 a mode exact) (fun a => f16_to_i32 a mode exact)
     (fun a => f16_to_ui64 a mode exact) (fun a => f16_to_i64 a mode exact)
     s (mag_direction mode (sign_of F16 a)) exact a /\
   to_integers_spec F16 (fun a => f16_to_ui32_r_minMag a exact) (fun a => f16_to_i32_r_minMag a exact)
     (fun a => f16_to_ui64_r_minMag a exact) (fun a => f16_to_i64_r_minMag a exact) s TowardZero exact a).
Proof.
  split; [|split]; intros Ha; split.
  - split; [exact (f32_to_ui32_spec a mode exact s Ha)|]. split; [exact (f32_to_i32_spec a mode exact s Ha)|].
    split; [exact (f32_to_ui64_spec a mode exact s Ha)|exact (f32_to_i64_spec a mode exact s Ha)].
  - split; [exact (f32_to_ui32_r_minMag_spec a exact s Ha)|]. split; [exact (f32_to_i32_r_minMag_spec a exact s Ha)|].
    split; [exact (f32_to_ui64_r_minMag_spec a exact s Ha)|exact (f32_to_i64_r_minMag_spec a exact s Ha)].
  - split; [exact (f64_to_ui32_spec a mode exact s Ha)|]. split; [exact (f64_to_i32_spec a mode exact s Ha)|].
    split; [exact (f64_to_ui64_spec a mode exact s Ha)|exact (f64_to_i64_spec a mode exact s Ha)].
  - split; [exact (f64_to_ui32_r_minMag_spec a exact s Ha)|]. split; [exact (f64_to_i32_r_minMag_spec a exact s Ha)|].
    split; [exact (f64_to_ui64_r_minMag_spec a exact s Ha)|exact (f64_to_i64_r_minMag_spec a exact s Ha)].
  - split; [exact (f16_to_ui32_spec a mode exact s Ha)|]. split; [exact (f16_to_i32_spec a mode exact s Ha)|].
    split; [exact (f16_to_ui64_spec a mode exact s Ha)|exact (f16_to_i64_spec a mode exact s Ha)].
  - exact (f16_r_minMag_spec a exact s Ha).
Qed.

(** -2.5 rounds to -3 away from zero, and truncates to -2; it is out of the range of the unsigned types. *)
Lemma floats_to_integers_correct_witness :
  f32_to_i64_r_minMag 0xC0200000 true initial_env = (- 2, raised_env softfloat_flag_inexact initial_env) /\
  f64_to_ui64 0xC004000000000000 softfloat_round_min true initial_env = (2 ^ 64 - 1, raised_env softfloat_flag_invalid initial_env) /\
  to_i32_spec F32 initial_env (mag_direction softfloat_round_min (sign_of F32 0xC0200000)) true 0xC0200000
    (f32_to_i32 0xC0200000 softfloat_round_min true initial_env) /\
  to_i32_spec F64 initial_env (mag_direction softfloat_round_min (sign_of F64 0xC004000000000000)) true 0xC004000000000000
    (f64_to_i32 0xC004000000000000 softfloat_round_min true initial_env) /\
  to_i32_spec F16 initial_env (mag_direction softfloat_round_min (sign_of F16 0xC100)) true 0xC100
    (f16_to_i32 0xC100 softfloat_round_min true initial_env).
Proof.
  do 2 (split; [vm_compute; reflexivity|]). split; [|split].
  - refine (proj1 (proj2 (proj1 (proj1 (floats_to_integers_correct 0xC0200000 softfloat_round_min true initial_env) _)))); encoding.
  - refine (proj1 (proj2 (proj1 (proj1 (proj2 (floats_to_integers_correct 0xC004000000000000 softfloat_round_min true initial_env)) _)))); encoding.
  - refine (proj1 (proj2 (proj1 (proj2 (proj2 (floats_to_integers_correct 0xC100 softfloat_round_min true initial_env)) _)))); encoding.
Defined.

(** ** From the integers *)

(** C21. The conversions of the 32- and 64-bit integers to each format are correctly rounded in
    the current mode, with the flags of the rounding (overflow included, for the 16-bit
    format); zero gives +0 and raises nothing. *)
Theorem integers_to_floats_correct (a : Z) (s : env) :
  from_integers_spec F32 ui32_to_f32 i32_to_f32 ui64_to_f32 i64_to_f32 s a /\
  from_integers_spec F64 ui32_to_f64 i32_to_f64 ui64_to_f64 i64_to_f64 s a /\
  from_integers_spec F16 ui32_to_f16 i32_to_f16 ui64_to_f16 i64_to_f16 s a.
Proof.
  split; [|split].
  - split; [exact (ui32_to_f32_spec a s)|]. split; [exact (i32_to_f32_spec a s)|].
    split; [exact (ui64_to_f32_spec a s)|exact (i64_to_f32_spec a s)].
  - split; [exact (ui32_to_f64_spec a s)|]. split; [exact (i32_to_f64_spec a s)|].
    split; [exact (ui64_to_f64_spec a s)|exact (i64_to_f64_spec a s)].
  - split; [exact (ui32_to_f16_spec a s)|]. split; [exact (i32_to_f16_spec a s)|].
    split; [exact (ui64_to_f16_spec a s)|exact (i64_to_f16_spec a s)].
Qed.

(** 2^24 + 1 ties to even, 2^53 + 1 as well, and 100000 overflows the 16-bit format. *)
Lemma integers_to_floats_correct_witness :
  i64_to_f32 (- 16777217) initial_env = (0xCB800000, raised_env softfloat_flag_inexact initial_env) /\
  i64_to_f64 (- 9007199254740993) initial_env = (0xC340000000000000, raised_env softfloat_flag_inexact initial_env) /\
  i64_to_f16 100000 initial_env = (0x7C00, raised_env 5 initial_env) /\
  from_int_spec F16 initial_env 100000 (i64_to_f16 100000 initial_env).
Proof.
  do 3 (split; [vm_compute; reflexivity|]).
  refine (proj2 (proj2 (proj2 (proj2 (proj2 (integers_to_floats_correct 100000 initial_env))))) _); split; [discriminate|reflexivity].
Defined.

(** ** Between the formats *)

(** C22. The conversions between the formats: a number becomes the correct rounding of its value in
    the current mode, with the overflow, underflow and inexact flags (the value itself when
    widening) - also the subnormal numbers of [f64_to_f32], whose exponent the code reads as if
    they were normal -; an infinity of the same sign; or a quiet NaN with the sign and the
    leading bits of the payload, invalid if the operand was signaling. *)
Theorem format_conversions_correct (a : Z) (s : env) :
  (is_enc F32 a -> convert_spec F32 F64 s a (f32_to_f64 a s) /\ convert_spec F32 F16 s a (f32_to_f16 a s)) /\
  (is_enc F64 a -> convert_spec F64 F32 s a (f64_to_f32 a s) /\ convert_spec F64 F16 s a (f64_to_f16 a s)) /\
  (is_enc F16 a -> convert_spec F16 F32 s a (f16_to_f32 a s) /\ convert_spec F16 F64 s a (f16_to_f64 a s)).
Proof.
  split; [|split]; intros Ha.
  - split; [exact (f32_to_f64_spec a s Ha)|exact (f32_to_f16_spec a s Ha)].
  - split; [exact (f64_to_f32_spec a s Ha)|exact (f64_to_f16_spec a s Ha)].
  - split; [exact (f16_to_f32_spec a s Ha)|exact (f16_to_f64_spec a s Ha)].
Qed.

(** A signaling NaN; the smallest subnormal number underflows; 65520 overflows. *)
Lemma format_conversions_correct_witness :
  f32_to_f64 0x7F800001 initial_env = (0x7FF8000020000000, raised_env softfloat_flag_invalid initial_env) /\
  f64_to_f32 0x0000000000000001 initial_env = (0, raised_env 3 initial_env) /\
  f32_to_f16 0x477FF000 initial_env = (0x7C00, raised_env 5 initial_env) /\
  convert_spec F32 F16 initial_env 0x477FF000 (f32_to_f16 0x477FF000 initial_env).
Proof.
  do 3 (split; [vm_compute; reflexivity|]).
  refine (proj2 (proj1 (format_conversions_correct 0x477FF000 initial_env) _)); encoding.
Defined.

(** ** Round trips *)

(** Round trips that return what they were given and raise nothing.  Widening a number
    and narrowing it again, infinities and the sign of zero included.  An integer through a
    format whose significand holds it, in any rounding mode: every 32-bit integer, and every
    64-bit integer up to 2^53, through the 64-bit format; up to 2^24 through the 32-bit one. *)
Theorem conversion_round_trips (a mode : Z) (exact : bool) (s : env) :
  (number F32 a -> (b <- f32_to_f64 a ;; f64_to_f32 b) s = (a, s)) /\
  (number F16 a -> (b <- f16_to_f32 a ;; f32_to_f16 b) s = (a, s)) /\
  (number F16 a -> (b <- f16_to_f64 a ;; f64_to_f16 b) s = (a, s)) /\
  (0 <= a < 2 ^ 32 -> (b <- ui32_to_f64 a ;; f64_to_ui32 b mode exact) s = (a, s)) /\
  (- 2 ^ 31 <= a < 2 ^ 31 -> (b <- i32_to_f64 a ;; f64_to_i32 b mode exact) s = (a, s)) /\
  (- 2 ^ 53 <= a <= 2 ^ 53 -> (b <- i64_to_f64 a ;; f64_to_i64 b mode exact) s = (a, s)) /\
  (- 2 ^ 24 <= a <= 2 ^ 24 -> (b <- i32_to_f32 a ;; f32_to_i32 b mode exact) s = (a, s)).
Proof.
  split; [|split; [|split; [|split; [|split; [|split]]]]]; intros Ha.
  - apply (widen_narrow F32 F64); [discriminate|discriminate|exact Ha|exact f32_to_f64_spec|exact f64_to_f32_spec].
  - apply (widen_narrow F16 F32); [discriminate|discriminate|exact Ha|exact f16_to_f32_spec|exact f32_to_f16_spec].
  - apply (widen_narrow F16 F64); [discriminate|discriminate|exact Ha|exact f16_to_f64_spec|exact f64_to_f16_spec].
  - apply (int_trip F64 0 (2 ^ 32 - 1) 0xFFFFFFFF ui32_to_f64 f64_to_ui32); try discriminate;
      [exact f64_to_ui32_spec|change (mb F64 + 1) with 53; lia|lia|apply ui32_to_f64_spec; lia].
  - apply (int_trip F64 (- 2 ^ 31) (2 ^ 31 - 1) (- 2 ^ 31) i32_to_f64 f64_to_i32); try discriminate;
      [exact f64_to_i32_spec|change (mb F64 + 1) with 53; lia|lia|apply i32_to_f64_spec; lia].
  - apply (int_trip F64 (- 2 ^ 63) (2 ^ 63 - 1) (- 2 ^ 63) i64_to_f64 f64_to_i64); try discriminate;
      [exact f64_to_i64_spec|change (mb F64 + 1) with 53; lia|lia|apply i64_to_f64_spec; lia].
  - apply (int_trip F32 (- 2 ^ 31) (2 ^ 31 - 1) (- 2 ^ 31) i32_to_f32 f32_to_i32); try discriminate;
      [exact f32_to_i32_spec|change (mb F32 + 1) with 24; lia|lia|apply i32_to_f32_spec; lia].
Qed.

(** A subnormal number and an integer of 53 bits make the trip. *)
Lemma conversion_round_trips_witness :
  f32_to_f64 0x80000003 initial_env = (0xB6B8000000000000, initial_env) /\
  (b <- f32_to_f64 0x80000003 ;; f64_to_f32 b) initial_env = (0x80000003, initial_env) /\
  (b <- i64_to_f64 (- 9007199254740991) ;; f64_to_i64 b softfloat_round_max true) initial_env = (- 9007199254740991, initial_env).
Proof.
  split; [vm_compute; reflexivity|]. split.
  - apply (conversion_round_trips 0x80000003 0 false initial_env); encoding.
  - apply (conversion_round_trips (- 9007199254740991) softfloat_round_max true initial_env); split; discriminate.
Defined.

(** Integers add exactly in the 64-bit format: the sum of the conversions of two integers is
    the conversion of their sum, as long as all three are at most 2^53, in any rounding
    mode; and converting it back gives the integer sum, also when that is zero. *)
Theorem integer_addition_exact (a b mode : Z) (exact : bool) (s : env) : valid_mode s ->
  - 2 ^ 53 <= a <= 2 ^ 53 -> - 2 ^ 53 <= b <= 2 ^ 53 -> - 2 ^ 53 <= a + b <= 2 ^ 53 ->
  let sum := (x <- i64_to_f64 a ;; y <- i64_to_f64 b ;; f64_add x y) in
  (a + b <> 0 -> sum s = i64_to_f64 (a + b) s) /\
  (z <- sum ;; f64_to_i64 z mode exact) s = (a + b, s).
Proof.
  intros Hv Ha Hb Hs sum.
  apply (int_addition F64 (- 2 ^ 63) (2 ^ 63 - 1) (- 2 ^ 63) i64_to_f64 f64_to_i64 ltac:(discriminate) ltac:(discriminate) f64_to_i64_spec f64_add);
    [|exact (add_finite (f := F64) (O := F64_ops))|change (mb F64 + 1) with 53; (assumption || lia)..].
  intros n s0 Hn. apply i64_to_f64_spec. change (mb F64 + 1) with 53 in Hn. lia.
Qed.

Lemma integer_addition_exact_witness :
  (x <- i64_to_f64 9007199254740990 ;; y <- i64_to_f64 1 ;; f64_add x y) initial_env = (0x433FFFFFFFFFFFFF, initial_env) /\
  (x <- i64_to_f64 9007199254740990 ;; y <- i64_to_f64 1 ;; f64_add x y) initial_env = i64_to_f64 (9007199254740990 + 1) initial_env.
Proof.
  split; [vm_compute; reflexivity|].
  apply (integer_addition_exact 9007199254740990 1 0 true initial_env); solve [discriminate|split; discriminate].
Defined.
