(* ===== verification/Exceptions.v ===== *)
(** The exceptions of wasmlib (include/exceptions.hpp) and the result of code
    that throws them.  The text of a message is not modelled, the class is. *)
From Stdlib Require Import ZArith.
Local Open Scope Z_scope.

(** The classes declared with FTL_DECLARE_DERIVED_EXCEPTION, and the engine's
    [Exception::Cause::accessViolation], [outOfMemory], [invalidSegmentOffset] and [invokeSignatureMismatch],
    which are not of those classes. *)
Inductive exception : Type :=
  | invalid_name_exception
  | invalid_address_exception
  | wasm_runtime_exception
  | wasm_serialization_exception
  | overlapping_memory_error
  | crypto_api_exception
  | arithmetic_exception
  | accessViolation
  | outOfMemory
  | invalidSegmentOffset
  | invokeSignatureMismatch.

Inductive result (A : Type) : Type :=
  | Throw (e : exception)
  | Value (a : A).
Arguments Throw {A}.
Arguments Value {A}.

Definition rbind {A B} (m : result A) (k : A -> result B) : result B :=
  match m with
  | Throw e => Throw e
  | Value a => k a
  end.

(** FTL_ASSERT(expr, exc_type, ...) *)
Definition FTL_ASSERT (expr : bool) (exc_type : exception) : result unit :=
  if expr then Value tt else Throw exc_type.

Lemma assert_value (b : bool) (e : exception) (u : unit) : FTL_ASSERT b e = Value u <-> b = true.
Proof. destruct b, u; simpl; split; congruence. Qed.

Lemma rbind_value {A B} (m : result A) (k : A -> result B) (b : B) :
  rbind m k = Value b <-> exists a, m = Value a /\ k a = Value b.
Proof.
  split.
  - destruct m; [discriminate|eauto].
  - intros (a & -> & E). exact E.
Qed.

Declare Scope result_scope.
Delimit Scope result_scope with R.
Notation "'let!' x := m 'in' k" := (rbind m (fun x => k)) (at level 200, x name, m at level 100, k at level 200) : result_scope.
Notation "m ;! k" := (rbind m (fun _ => k)) (at level 95, right associativity) : result_scope.
