(* ===== verification/Name.v ===== *)
(** Account and action names: the base-32 codec of include/name.hpp and
    name.cpp.  A [string] is the characters of a C string before its
    terminator, so [nth i str NUL] is the C expression [str[i]].  The codec is a bijection
    between the 64-bit values and the normalized strings, and [set] accepts exactly the latter. *)
From Stdlib Require Import ZArith Bool Lia List Ascii.
From S2P Require Import Prelude Exceptions.
Import ListNotations.
Local Open Scope Z_scope.
Local Open Scope c_scope.

Definition char_code (c : ascii) : Z := Z.of_N (N_of_ascii c).
Definition string := list ascii.
Definition NUL : ascii := zero.

Definition char_to_symbol (c : ascii) : Z :=
  if (char_code "a" <=? char_code c) && (char_code c <=? char_code "z")
  then u64 (char_code c - char_code "a" + 6)
  else if (char_code "1" <=? char_code c) && (char_code c <=? char_code "5")
  then u64 (char_code c - char_code "1" + 1)
  else 0.

(** The loop of [string_to_name] from index [i] on, [str] being what is left
    of the string: the value so far and the character at the final index,
    when that index is 12. *)
Fixpoint string_to_name_loop (str : string) (i : Z) (name : Z) : Z :=
  match str with
  | c :: rest =>
      if i <? 12
      then string_to_name_loop rest (i + 1)
             (name .| u64 ((char_to_symbol c .& 31) << (64 - 5 * (i + 1))))
      else if i =? 12 then name .| (char_to_symbol c .& 15) else name
  | [] => if i =? 12 then name .| (char_to_symbol NUL .& 15) else name
  end.

Definition string_to_name (str : string) : Z := string_to_name_loop str 0 0.

Definition charmap : string :=
  [".";"1";"2";"3";"4";"5";"a";"b";"c";"d";"e";"f";"g";"h";"i";"j";
   "k";"l";"m";"n";"o";"p";"q";"r";"s";"t";"u";"v";"w";"x";"y";"z"]%char.

(** The loop of [operator string], from index [i], with [n] iterations left;
    [str] holds the characters already written, from position [13 - i]. *)
Fixpoint name_chars (n : nat) (i tmp : Z) (str : string) : string :=
  match n with
  | O => str
  | S n =>
      let c := nth (Z.to_nat (tmp .& (if i =? 0 then 15 else 31))) charmap NUL in
      name_chars n (i + 1) (tmp >> (if i =? 0 then 4 else 5)) (c :: str)
  end.

(** [boost::algorithm::trim_right_if] with the predicate [c == '.'] *)
Fixpoint trim_right (str : string) : string :=
  match str with
  | [] => []
  | c :: rest =>
      match trim_right rest with
      | [] => if Ascii.eqb c "." then [] else [c]
      | rest' => c :: rest'
      end
  end.

Definition to_string (value : Z) : string := trim_right (name_chars 13 0 value []).

Fixpoint string_eqb (a b : string) : bool :=
  match a, b with
  | [], [] => true
  | x :: a, y :: b => Ascii.eqb x y && string_eqb a b
  | _, _ => false
  end.

Definition strnlen (str : string) (n : nat) : nat := Nat.min (length str) n.

(** [name::set]: the value stored in the name. *)
Definition set (str : string) : result Z :=
  (let len := strnlen str 14 in
   FTL_ASSERT (Nat.leb len 13) invalid_name_exception ;!
   let value := string_to_name str in
   FTL_ASSERT (string_eqb (to_string value) str) invalid_name_exception ;!
   Value value)%R.

Definition good (value : Z) : bool := negb (value =? 0).

Example set_ok : set ["e";"o";"s";"i";"o"]%char = Value 0x5530EA0000000000.
Proof. reflexivity. Qed.

(** ** The name codec is a bijection between the 64-bit values and the normalized strings, and [set] accepts exactly the latter *)

(** The character of a symbol, and the symbols of a value from its most
    significant bits: twelve of five bits and one of four. *)
Definition symbol_char (d : Z) : ascii := nth (Z.to_nat d) charmap NUL.
Definition width (i : Z) : Z := if i =? 12 then 16 else 32.
Definition place (i : Z) : Z := if i =? 12 then 1 else 2 ^ (59 - 5 * i).
Definition symbol (v i : Z) : Z := v / place i mod width i.
Definition indices : list Z := [0;1;2;3;4;5;6;7;8;9;10;11;12].

(** What [set] demands of a name. *)
Definition normalized (s : string) : Prop :=
  (length s <= 13)%nat /\
  (forall i c, nth_error s i = Some c -> In c (firstn (Z.to_nat (width (Z.of_nat i))) charmap)) /\
  last s NUL <> "."%char.

Lemma char_symbol (d : Z) : 0 <= d < 32 -> char_to_symbol (symbol_char d) = d.
Proof.
  intros H. assert (A : forallb (fun n => char_to_symbol (symbol_char (Z.of_nat n)) =? Z.of_nat n) (seq 0 32) = true)
    by reflexivity.
  rewrite forallb_forall in A. specialize (A (Z.to_nat d)).
  rewrite Z2Nat.id in A by lia. apply Z.eqb_eq, A, in_seq. lia.
Qed.

Lemma char_of_symbol (c : ascii) (n : nat) : (n <= 32)%nat -> In c (firstn n charmap) ->
  exists d, 0 <= d < Z.of_nat n /\ c = symbol_char d.
Proof.
  intros Hn Hc. apply (In_nth _ _ NUL) in Hc. destruct Hc as (k & Hk & <-).
  assert (L : (k < n)%nat) by (rewrite length_firstn in Hk; lia).
  exists (Z.of_nat k). split; [lia|]. unfold symbol_char. rewrite Nat2Z.id.
  rewrite nth_firstn. apply Nat.ltb_lt in L. rewrite L. reflexivity.
Qed.

Lemma symbol_char_in (d : Z) (n : nat) : (n <= 32)%nat -> 0 <= d < Z.of_nat n -> In (symbol_char d) (firstn n charmap).
Proof.
  intros Hn Hd. unfold symbol_char.
  assert (L : (Z.to_nat d < n)%nat) by lia.
  pose proof (nth_firstn n charmap (Z.to_nat d) NUL) as E. apply Nat.ltb_lt in L as Lb. rewrite Lb in E.
  rewrite <- E. apply nth_In. rewrite length_firstn. change (length charmap) with 32%nat. lia.
Qed.

Lemma symbol_bound (v i : Z) : 0 <= symbol v i < width i.
Proof. apply Z.mod_pos_bound. unfold width. destruct (i =? 12); lia. Qed.

Lemma digit_div (k a d : Z) : 0 <= d < k -> (k * a + d) / k = a.
Proof. intros H. symmetry. apply (Z.div_unique _ _ _ d); lia. Qed.

Lemma digit_mod (k a d : Z) : 0 <= d < k -> (k * a + d) mod k = d.
Proof. intros H. symmetry. apply (Z.mod_unique _ _ a d); lia. Qed.

(** One step of the encoder: a symbol is appended to the value so far. *)
Lemma encode_step (a d i : Z) : 0 <= i < 12 -> 0 <= a < 2 ^ (5 * i) -> 0 <= d < 32 ->
  (a * 2 ^ (64 - 5 * i) .| u64 ((char_to_symbol (symbol_char d) .& 31) << (64 - 5 * (i + 1))))
  = (32 * a + d) * 2 ^ (64 - 5 * (i + 1)).
Proof.
  intros Hi Ha Hd. rewrite char_symbol by lia. rewrite (land_low d 31 5) by (reflexivity || lia).
  rewrite Z.mod_small by lia. rewrite shl_mul by lia.
  assert (P : 0 < 2 ^ (64 - 5 * (i + 1))) by (apply Z.pow_pos_nonneg; lia).
  assert (E : 2 ^ (64 - 5 * i) = 32 * 2 ^ (64 - 5 * (i + 1)))
    by (change 32 with (2 ^ 5); rewrite <- Z.pow_add_r by lia; f_equal; lia).
  assert (B : 2 ^ (64 - 5 * i) <= 2 ^ 64) by (apply Z.pow_le_mono_r; lia).
  rewrite (uwrap_small 64) by nia. rewrite (lor_disjoint a _ (64 - 5 * i)) by nia. nia.
Qed.

Lemma encode_last (a d : Z) : 0 <= a -> 0 <= d < 16 ->
  a * 16 .| (char_to_symbol (symbol_char d) .& 15) = 16 * a + d.
Proof.
  intros Ha Hd. rewrite char_symbol by lia. rewrite (land_low d 15 4) by (reflexivity || lia).
  rewrite Z.mod_small by lia. change 16 with (2 ^ 4). rewrite lor_disjoint by lia. lia.
Qed.

(** Encoding the symbols [ds] from index [i] on top of [a]: the result has [a]
    above, and the symbols in their places. *)
Lemma encode_symbols (ds : list Z) : forall i a, 0 <= i -> i + Z.of_nat (length ds) = 13 -> (1 <= length ds)%nat ->
  (forall j, (j < length ds)%nat -> 0 <= nth j ds 0 < width (i + Z.of_nat j)) ->
  0 <= a < 2 ^ (5 * i) ->
  let v := string_to_name_loop (map symbol_char ds) i (a * 2 ^ (64 - 5 * i)) in
  0 <= v < 2 ^ 64 /\ v / 2 ^ (64 - 5 * i) = a /\
  (forall j, (j < length ds)%nat -> symbol v (i + Z.of_nat j) = nth j ds 0).
Proof.
  induction ds as [|d ds IH]; intros i a Hi Hl Hn Hb Ha; [simpl in Hn; lia|].
  simpl length in *. cbn [map string_to_name_loop].
  pose proof (Hb 0%nat ltac:(lia)) as Hd. simpl nth in Hd. rewrite Z.add_0_r in Hd.
  destruct (i <? 12) eqn:Ei.
  - apply Z.ltb_lt in Ei. unfold width in Hd. destruct (Z.eqb_spec i 12); [lia|].
    rewrite encode_step by lia.
    assert (R : 0 <= 32 * a + d < 2 ^ (5 * (i + 1)))
      by (replace (5 * (i + 1)) with (5 + 5 * i) by lia; rewrite Z.pow_add_r by lia; lia).
    destruct (IH (i + 1) (32 * a + d)) as (B & T & Sy); try lia.
    { intros j Hj. replace (i + 1 + Z.of_nat j) with (i + Z.of_nat (S j)) by lia. apply (Hb (S j)). lia. }
    set (v := string_to_name_loop _ _ _) in *. clearbody v. cbv zeta.
    split; [exact B|]. split.
    + replace (64 - 5 * i) with (64 - 5 * (i + 1) + 5) by lia. rewrite Z.pow_add_r, <- Z.div_div by lia.
      rewrite T. change (2 ^ 5) with 32. now apply digit_div.
    + intros [|j] Hj; [|replace (i + Z.of_nat (S j)) with (i + 1 + Z.of_nat j) by lia; apply Sy; lia].
      rewrite Z.add_0_r. unfold symbol, place, width. destruct (Z.eqb_spec i 12); [lia|].
      replace (59 - 5 * i) with (64 - 5 * (i + 1)) by lia. rewrite T. now apply digit_mod.
  - apply Z.ltb_ge in Ei. destruct (Z.eqb_spec i 12); [|lia]. subst i. destruct ds; [|cbn [length] in Hl; lia].
    change (width 12) with 16 in Hd. change (2 ^ (64 - 5 * 12)) with 16. cbv zeta. rewrite encode_last by lia.
    change (2 ^ (5 * 12)) with (2 ^ 60) in Ha. change (2 ^ 64) with (2 ^ 60 * 16).
    split; [lia|]. split; [now apply digit_div|]. intros [|j] Hj; [|simpl in Hj; lia].
    unfold symbol. change (place (12 + Z.of_nat 0)) with 1. change (width (12 + Z.of_nat 0)) with 16.
    rewrite Z.div_1_r. now apply digit_mod.
Qed.

(** The twelve and a half symbols determine the value. *)
Lemma symbols_prefix (v w : Z) (n : nat) : (n <= 12)%nat -> 0 <= v < 2 ^ 64 -> 0 <= w < 2 ^ 64 ->
  (forall j, (j < n)%nat -> symbol v (Z.of_nat j) = symbol w (Z.of_nat j)) ->
  v / 2 ^ (64 - 5 * Z.of_nat n) = w / 2 ^ (64 - 5 * Z.of_nat n).
Proof.
  intros Hn Hv Hw. induction n as [|n IH]; intros H.
  - change (64 - 5 * Z.of_nat 0) with 64. rewrite !Z.div_small by lia. reflexivity.
  - specialize (IH ltac:(lia) (fun j Hj => H j ltac:(lia))).
    specialize (H n ltac:(lia)). unfold symbol, place, width in H.
    destruct (Z.eqb_spec (Z.of_nat n) 12); [lia|].
    replace (59 - 5 * Z.of_nat n) with (64 - 5 * Z.of_nat (S n)) in H by lia.
    replace (64 - 5 * Z.of_nat n) with (64 - 5 * Z.of_nat (S n) + 5) in IH by lia.
    rewrite Z.pow_add_r, <- !Z.div_div in IH by lia. change (2 ^ 5) with 32 in IH. zdm.
Qed.

Lemma symbols_injective (v w : Z) : 0 <= v < 2 ^ 64 -> 0 <= w < 2 ^ 64 ->
  (forall j, (j < 13)%nat -> symbol v (Z.of_nat j) = symbol w (Z.of_nat j)) -> v = w.
Proof.
  intros Hv Hw H. pose proof (symbols_prefix v w 12 ltac:(lia) Hv Hw (fun j Hj => H j ltac:(lia))) as P.
  specialize (H 12%nat ltac:(lia)). unfold symbol in H.
  change (place (Z.of_nat 12)) with 1 in H. change (width (Z.of_nat 12)) with 16 in H.
  change (2 ^ (64 - 5 * Z.of_nat 12)) with 16 in P. rewrite !Z.div_1_r in H. zdm.
Qed.

(** [operator string] writes the characters of the symbols. *)
Lemma name_chars_symbols (v : Z) : 0 <= v -> name_chars 13 0 v [] = map (fun i => symbol_char (symbol v i)) indices.
Proof.
  intros Hv. cbn [name_chars indices map]. unfold symbol_char, symbol.
  rewrite !(land_low _ 15 4), !(land_low _ 31 5) by (reflexivity || lia).
  rewrite !Z.shiftr_shiftr by (cbn; lia). cbn -[Z.shiftr Z.div Z.modulo Z.to_nat charmap nth].
  rewrite !shr_div by lia. rewrite !Z.div_1_r. reflexivity.
Qed.

Lemma trim_encode (s : string) : forall i name, 0 <= i -> i + Z.of_nat (length s) = 13 ->
  string_to_name_loop (trim_right s) i name = string_to_name_loop s i name.
Proof.
  induction s as [|c s IH]; intros i name Hi Hl; [reflexivity|].
  simpl length in Hl. cbn [trim_right].
  assert (N : forall k, string_to_name_loop [] k name = name)
    by (intros k; simpl; destruct (k =? 12); [apply Z.lor_0_r|reflexivity]).
  destruct (trim_right s) eqn:E.
  - destruct (Ascii.eqb_spec c ".") as [->|].
    + rewrite N. cbn [string_to_name_loop].
      change (char_to_symbol "." .& 31) with 0. change (char_to_symbol "." .& 15) with 0.
      rewrite Z.shiftl_0_l. change (u64 0) with 0. rewrite Z.lor_0_r. destruct (Z.ltb_spec i 12).
      * rewrite <- (IH (i + 1) name) by lia. symmetry. apply N.
      * destruct (i =? 12); reflexivity.
    + cbn [string_to_name_loop]. destruct (Z.ltb_spec i 12); [|reflexivity].
      apply (IH (i + 1)); lia.
  - cbn [string_to_name_loop]. destruct (Z.ltb_spec i 12); [|reflexivity].
    apply (IH (i + 1)); lia.
Qed.

Lemma trim_dots (s : string) (n : nat) : last s NUL <> "."%char -> trim_right (s ++ repeat "."%char n) = s.
Proof.
  intros H. induction s as [|c s IH]; simpl app.
  - induction n as [|n IHn]; [reflexivity|]. simpl. rewrite IHn. reflexivity.
  - cbn [trim_right]. destruct s as [|c' s].
    + rewrite IH by discriminate. simpl in H. destruct (Ascii.eqb_spec c "."); congruence.
    + rewrite IH by exact H. reflexivity.
Qed.

Lemma trim_last (s : string) : last (trim_right s) NUL <> "."%char.
Proof.
  induction s as [|c s IH]; [discriminate|]. simpl. destruct (trim_right s) as [|c' r].
  - destruct (Ascii.eqb_spec c "."); [discriminate|]. simpl. congruence.
  - exact IH.
Qed.

Lemma trim_prefix (s : string) : exists n, s = trim_right s ++ repeat "."%char n.
Proof.
  induction s as [|c s [n E]]; [now exists 0%nat|]. simpl. destruct (trim_right s) as [|c' r].
  - destruct (Ascii.eqb_spec c ".") as [->|].
    + exists (S n). simpl. simpl in E. congruence.
    + exists n. simpl in *. congruence.
  - exists n. simpl in *. congruence.
Qed.

Lemma string_eqb_eq (a b : string) : string_eqb a b = true <-> a = b.
Proof.
  revert b. induction a as [|x a IH]; destruct b as [|y b]; simpl; try (split; congruence).
  rewrite andb_true_iff, Ascii.eqb_eq, IH. split; [intros [-> ->]; reflexivity|intros E; injection E; auto].
Qed.

Lemma symbols_nth (v : Z) (j : nat) : (j < 13)%nat ->
  nth_error (map (fun i => symbol_char (symbol v i)) indices) j = Some (symbol_char (symbol v (Z.of_nat j))).
Proof. intros H. do 13 (destruct j as [|j]; [reflexivity|]). lia. Qed.

Lemma to_string_normalized (v : Z) : 0 <= v -> normalized (to_string v).
Proof.
  intros Hv. unfold to_string. rewrite name_chars_symbols by exact Hv.
  set (full := map _ indices). destruct (trim_prefix full) as [n E].
  assert (L : length full = 13%nat) by reflexivity. rewrite E, length_app in L at 1.
  split; [lia|]. split; [|apply trim_last].
  intros i c Hc. assert (Hi : (i < length (trim_right full))%nat) by (apply nth_error_Some; congruence).
  assert (F : nth_error full i = Some c) by (rewrite E, nth_error_app1; assumption).
  unfold full in F. rewrite symbols_nth in F by lia. injection F as <-.
  pose proof (symbol_bound v (Z.of_nat i)).
  apply symbol_char_in; [unfold width; destruct (_ =? 12); simpl; lia|lia].
Qed.

Lemma name_round_trip (v : Z) : 0 <= v < 2 ^ 64 -> string_to_name (to_string v) = v.
Proof.
  intros Hv. unfold to_string, string_to_name. rewrite name_chars_symbols by lia.
  rewrite trim_encode by (simpl; lia).
  rewrite <- (map_map (symbol v) symbol_char).
  destruct (encode_symbols (map (symbol v) indices) 0 0) as (B & _ & Sy); try (simpl; lia).
  { intros j Hj. simpl length in Hj. rewrite Z.add_0_l.
    do 13 (destruct j as [|j]; [apply symbol_bound|]). lia. }
  change (0 * 2 ^ (64 - 5 * 0)) with 0 in *. apply symbols_injective; [exact B|exact Hv|].
  intros j Hj. rewrite <- (Z.add_0_l (Z.of_nat j)) at 1. rewrite (Sy j Hj). do 13 (destruct j as [|j]; [reflexivity|]). lia.
Qed.

(** The symbols of a normalized string, padded with dots. *)
Lemma normalized_symbols (s : string) : normalized s ->
  exists ds, map symbol_char ds = s ++ repeat "."%char (13 - length s) /\ length ds = 13%nat /\
    forall j, (j < 13)%nat -> 0 <= nth j ds 0 < width (Z.of_nat j).
Proof.
  intros (L & C & _).
  assert (G : forall s k, (forall i c, nth_error s i = Some c -> In c (firstn (Z.to_nat (width (Z.of_nat (k + i)))) charmap)) ->
      exists ds, map symbol_char ds = s /\ forall j, (j < length s)%nat -> 0 <= nth j ds 0 < width (Z.of_nat (k + j))).
  { clear. induction s as [|c s IH]; intros k C; [exists []; split; [reflexivity|simpl; lia]|].
    destruct (IH (S k)) as (ds & E & B).
    { intros i c' H. rewrite Nat.add_succ_comm. apply C. exact H. }
    specialize (C 0%nat c eq_refl). rewrite Nat.add_0_r in C.
    apply char_of_symbol in C; [|unfold width; destruct (_ =? 12); simpl; lia].
    destruct C as (d & Hd & ->). exists (d :: ds). split; [simpl; congruence|].
    intros [|j] Hj; simpl; [rewrite Nat.add_0_r; unfold width in *; destruct (_ =? 12); simpl in Hd; lia|].
    rewrite <- Nat.add_succ_comm. apply B. simpl in Hj. lia. }
  destruct (G s 0%nat C) as (ds & E & B).
  assert (Ld : length ds = length s) by (rewrite <- E; now rewrite length_map).
  exists (ds ++ repeat 0 (13 - length s)). split; [|split].
  - rewrite map_app, E. f_equal. generalize (13 - length s)%nat. intros n.
    induction n as [|n IH]; [reflexivity|]. simpl. now rewrite IH.
  - rewrite length_app, repeat_length. lia.
  - intros j Hj. destruct (Nat.lt_ge_cases j (length s)) as [H|H].
    + rewrite app_nth1 by lia. apply (B j H).
    + rewrite app_nth2, nth_repeat by lia. unfold width. destruct (_ =? 12); lia.
Qed.

Lemma normalized_round_trip (s : string) : normalized s ->
  0 <= string_to_name s < 2 ^ 64 /\ to_string (string_to_name s) = s.
Proof.
  intros N. destruct (normalized_symbols s N) as (ds & E & L & B). destruct N as (Ls & _ & D).
  destruct (encode_symbols ds 0 0) as (V & _ & Sy); try lia.
  { intros j Hj. rewrite Z.add_0_l. apply B. lia. }
  assert (Q : string_to_name s = string_to_name_loop (map symbol_char ds) 0 0).
  { unfold string_to_name. rewrite E, <- (trim_dots s (13 - length s) D) at 1.
    apply trim_encode; [lia|]. rewrite length_app, repeat_length. lia. }
  change (0 * 2 ^ (64 - 5 * 0)) with 0 in *. rewrite <- Q in *. split; [exact V|].
  unfold to_string. rewrite name_chars_symbols by lia.
  apply (eq_trans (y := trim_right (s ++ repeat "."%char (13 - length s)))); [f_equal|apply trim_dots, D]. rewrite <- E.
  rewrite <- (map_map (symbol (string_to_name s)) symbol_char). f_equal.
  apply (nth_ext _ _ 0 0); [now rewrite L|].
  intros j Hj. change (length (map _ indices)) with 13%nat in Hj. rewrite <- (Sy j) by lia. rewrite Z.add_0_l.
  do 13 (destruct j as [|j]; [reflexivity|]). lia.
Qed.

Lemma encode_nonneg (s : string) : forall i name, 0 <= name -> 0 <= string_to_name_loop s i name.
Proof.
  induction s as [|c s IH]; intros i name H; cbn [string_to_name_loop].
  - destruct (i =? 12); [rewrite Z.lor_0_r|]; exact H.
  - destruct (i <? 12); [apply IH, Z.lor_nonneg; split; [exact H|apply uwrap_bound; lia]|].
    destruct (i =? 12); [|exact H]. apply Z.lor_nonneg. split; [exact H|].
    apply Z.land_nonneg. right. lia.
Qed.

Lemma set_value (s : string) (v : Z) : set s = Value v -> normalized s /\ v = string_to_name s /\ to_string v = s.
Proof.
  unfold set. intros H. apply rbind_value in H. destruct H as (u & A & H).
  apply rbind_value in H. destruct H as (u' & C & H). apply assert_value, string_eqb_eq in C.
  injection H as <-. split; [|auto]. rewrite <- C. apply to_string_normalized, encode_nonneg. lia.
Qed.

Lemma set_normalized (s : string) : normalized s -> set s = Value (string_to_name s).
Proof.
  intros N. pose proof (normalized_round_trip s N) as [_ R]. apply string_eqb_eq in R.
  destruct N as [L _]. unfold set, strnlen. apply Nat.leb_le in L as Lb.
  rewrite Nat.min_l, Lb by lia. simpl. rewrite R. reflexivity.
Qed.

Lemma set_outcomes (s : string) : (exists v, set s = Value v) \/ set s = Throw invalid_name_exception.
Proof.
  unfold set. destruct (Nat.leb _ _); simpl; [|auto]. destruct (string_eqb _ _); simpl; eauto.
Qed.

(** C31. The name codec (name.hpp, name.cpp): decoding and re-encoding any
    64-bit value gives it back and [name::set] accepts the decoded string;
    conversely [set] accepts exactly the normalized strings (at most 13
    characters of the alphabet, the thirteenth among its first sixteen, no
    trailing dot), the stored value fits in 64 bits and decodes to the string
    given, and every other string is refused with invalid_name_exception.
    Names and 64-bit values are thus in bijection. *)
Theorem name_codec_correct :
  (forall v, 0 <= v < 2 ^ 64 -> string_to_name (to_string v) = v /\ set (to_string v) = Value v) /\
  (forall s, normalized s ->
     set s = Value (string_to_name s) /\ 0 <= string_to_name s < 2 ^ 64 /\ to_string (string_to_name s) = s) /\
  (forall s, ~ normalized s -> set s = Throw invalid_name_exception).
Proof.
  split; [|split].
  - intros v Hv. pose proof (name_round_trip v Hv) as R. split; [exact R|].
    rewrite set_normalized by (apply to_string_normalized; lia). now rewrite R.
  - intros s N. split; [apply set_normalized, N|apply normalized_round_trip, N].
  - intros s N. destruct (set_outcomes s) as [[v E]|E]; [|exact E]. now apply set_value in E.
Qed.

Lemma name_codec_correct_witness :
  string_to_name (to_string 0x5530EA0000000000) = 0x5530EA0000000000 /\
  set ["e";"o";"s";"i";"o"]%char = Value 0x5530EA0000000000 /\
  set ["E";"o";"s"]%char = Throw invalid_name_exception.
Proof.
  destruct name_codec_correct as (A & B & C).
  split; [exact (proj1 (A 0x5530EA0000000000 ltac:(lia)))|]. split.
  - refine (proj1 (B ["e";"o";"s";"i";"o"]%char _)).
    split; [simpl; lia|]. split; [|discriminate].
    intros i c H. do 5 (destruct i as [|i]; [injection H as <-; simpl; tauto|]). destruct i; discriminate.
  - refine (C ["E";"o";"s"]%char _). intros (_ & D & _). specialize (D 0%nat "E"%char eq_refl).
    simpl in D. repeat (destruct D as [D|D]; [discriminate|]). exact D.
Defined.
