(* ===== verification/Memory.v ===== *)
(** Linear memories: the engine's MemoryInstance (wasm-jit Runtime/Memory.cpp),
    the memory image that wasmlib builds from the data segments
    (wasm_interface.hpp) and the reset that precedes every run (wavm.cpp); its primitives read back what they
    wrote, and the memory a run starts with depends on the module alone. *)
From Stdlib Require Import ZArith Bool Lia List.
From S2P Require Import Prelude Exceptions.
Import ListNotations.
Local Open Scope Z_scope.
Local Open Scope c_scope.

Definition numBytesPerPage : Z := 65536.
Definition numBytesPerPageLog2 : Z := 16.

(** The contents of an address space, and an instance: its committed pages and
    the limits of its type. *)
Definition bytes := Z -> Z.

Record MemoryInstance : Type := Memory {
  numPages : Z;
  size_min : Z;
  size_max : Z;
  contents : bytes
}.

Definition getMemoryNumPages (m : MemoryInstance) : Z := numPages m.
Definition memory_bytes (m : MemoryInstance) : Z := numBytesPerPage * getMemoryNumPages m.

(** ** libc: memset, memcpy, memmove and memcmp on contents *)
Definition within (a len i : Z) : bool := (a <=? i) && (i <? a + len).

Definition memset_bytes (m : bytes) (dest value len : Z) : bytes :=
  fun i => if within dest len i then u8 value else m i.

Definition load_bytes (m : bytes) (src len : Z) : list Z :=
  map (fun k => m (src + Z.of_nat k)) (seq 0 (Z.to_nat len)).

Definition store_bytes (m : bytes) (dest : Z) (l : list Z) : bytes :=
  fun i => if within dest (Z.of_nat (length l)) i then nth (Z.to_nat (i - dest)) l 0 else m i.

(** [memcpy] copies byte by byte, each read seeing the earlier writes;
    [memmove] as if through a temporary array. *)
Fixpoint memcpy_bytes (m : bytes) (dest src : Z) (n : nat) : bytes :=
  match n with
  | O => m
  | S n => memcpy_bytes (store_bytes m dest [m src]) (dest + 1) (src + 1) n
  end.

Definition memmove_bytes (m : bytes) (dest src len : Z) : bytes :=
  store_bytes m dest (load_bytes m src len).

Fixpoint memcmp_bytes (m : bytes) (p q : Z) (n : nat) : Z :=
  match n with
  | O => 0
  | S n => if m p =? m q then memcmp_bytes m (p + 1) (q + 1) n else m p - m q
  end.

(** ** Growing, shrinking and resetting
    [commit] is the answer of Platform::commitVirtualPages, the only thing the
    operating system decides. *)
Definition set_pages (m : MemoryInstance) (n : Z) (c : bytes) : MemoryInstance :=
  Memory n (size_min m) (size_max m) c.

Definition growMemory (commit : bool) (m : MemoryInstance) (numNewPages : Z) : Z * MemoryInstance :=
  let previousNumPages := numPages m in
  if 0 <? numNewPages then
    if (size_max m <? numNewPages) || (u64 (size_max m - numNewPages) <? numPages m) then (-1, m)
    else if negb commit then (-1, m)
    else
      let c := memset_bytes (contents m) (numPages m << numBytesPerPageLog2) 0
                 (numNewPages << numBytesPerPageLog2) in
      (previousNumPages, set_pages m (numPages m + numNewPages) c)
  else (previousNumPages, m).

Definition shrinkMemory (m : MemoryInstance) (numPagesToShrink : Z) : Z * MemoryInstance :=
  let previousNumPages := numPages m in
  if 0 <? numPagesToShrink then
    if (numPages m <? numPagesToShrink) || (u64 (numPages m - numPagesToShrink) <? size_min m) then (-1, m)
    else (previousNumPages, set_pages m (numPages m - numPagesToShrink) (contents m))
  else (previousNumPages, m).

(** [resetMemory]; [None] is causeException(outOfMemory). *)
Definition resetMemory (commit : bool) (m : MemoryInstance) (newmin newmax : Z) : option MemoryInstance :=
  let m := Memory (numPages m) 1 (size_max m) (contents m) in
  let (r, m) := shrinkMemory m (u64 (numPages m - 1)) in
  if r =? -1 then None
  else
    let c := memset_bytes (contents m) 0 0 (1 << numBytesPerPageLog2) in
    let m := Memory (numPages m) newmin newmax c in
    let (r, m) := growMemory commit m (u64 (size_min m - 1)) in
    if r =? -1 then None else Some m.

(** ** The initial memory image *)
Inductive InitializerExpression : Type :=
  | i32_const (i32 : Z)
  | i64_const (i64 : Z)
  | f32_const (f32 : Z)
  | f64_const (f64 : Z)
  | get_global (globalIndex : Z)
  | error.

Record DataSegment : Type := Segment {
  memoryIndex : Z;
  baseOffset : InitializerExpression;
  data : list Z
}.

(** [mem_image.resize(n, 0x00)] when [n] is larger, and the copy of a segment. *)
Definition resize (image : list Z) (n : Z) : list Z := image ++ repeat 0 (Z.to_nat n - length image).
Definition overwrite (image : list Z) (at_ : Z) (l : list Z) : list Z :=
  firstn (Z.to_nat at_) image ++ l ++ skipn (Z.to_nat at_ + length l) image.

Definition size (l : list Z) : Z := Z.of_nat (length l).

(** One round of the loop of [parse_initial_memory], [defs] being the minimal
    sizes of the memories defined by the module. *)
Definition parse_segment (defs : list Z) (mem_image : list Z) (data_segment : DataSegment) : result (list Z) :=
  match baseOffset data_segment with
  | i32_const base_offset =>
      match defs with
      | [] => Throw wasm_runtime_exception
      | min :: _ =>
          let memory_size := u64 (min << numBytesPerPageLog2) in
          let base_offset := u32 base_offset in
          let last := base_offset + size (data data_segment) in
          if (memory_size <=? base_offset) || (memory_size <? last) then Throw wasm_runtime_exception
          else
            let mem_image := if size mem_image <? last then resize mem_image last else mem_image in
            Value (overwrite mem_image base_offset (data data_segment))
      end
  | _ => Throw wasm_runtime_exception
  end.

Fixpoint parse_segments (defs : list Z) (segments : list DataSegment) (mem_image : list Z) : result (list Z) :=
  match segments with
  | [] => Value mem_image
  | s :: segments => rbind (parse_segment defs mem_image s) (parse_segments defs segments)
  end.

Definition parse_initial_memory (defs : list Z) (segments : list DataSegment) : result (list Z) :=
  parse_segments defs segments [].

(** The preparation of the memory in [wasm_instantiated_module::call]: reset to
    the declared limits, then copy the image to the start of the memory. *)
Definition prepare_memory (commit : bool) (default_mem : MemoryInstance) (newmin newmax : Z)
    (initial_memory : list Z) : option MemoryInstance :=
  match resetMemory commit default_mem newmin newmax with
  | None => None
  | Some m => Some (set_pages m (numPages m) (store_bytes (contents m) 0 initial_memory))
  end.

(** ** Memory primitives read back what they wrote, and the memory a run starts with depends on the module alone *)

Lemma within_spec (a len i : Z) : within a len i = true <-> a <= i < a + len.
Proof. unfold within. rewrite andb_true_iff, Z.leb_le, Z.ltb_lt. reflexivity. Qed.

Lemma within_false (a len i : Z) : i < a \/ a + len <= i -> within a len i = false.
Proof.
  intros H. destruct (within a len i) eqn:E; [|reflexivity]. apply within_spec in E. lia.
Qed.

Lemma withinP (a len i : Z) : reflect (a <= i < a + len) (within a len i).
Proof. apply iff_reflect. symmetry. apply within_spec. Qed.

Lemma load_length (m : bytes) (src len : Z) : length (load_bytes m src len) = Z.to_nat len.
Proof. unfold load_bytes. now rewrite length_map, length_seq. Qed.

Lemma load_nth (m : bytes) (src len : Z) (k : nat) : (k < Z.to_nat len)%nat ->
  nth k (load_bytes m src len) 0 = m (src + Z.of_nat k).
Proof.
  intros H. unfold load_bytes.
  rewrite (nth_indep _ 0 (m (src + Z.of_nat 0))) by (rewrite length_map, length_seq; lia).
  rewrite (map_nth (fun k => m (src + Z.of_nat k))), seq_nth by lia. reflexivity.
Qed.

Lemma store_inside (m : bytes) (dest i : Z) (l : list Z) : dest <= i < dest + Z.of_nat (length l) ->
  store_bytes m dest l i = nth (Z.to_nat (i - dest)) l 0.
Proof. intros H. unfold store_bytes. apply within_spec in H. now rewrite H. Qed.

Lemma store_outside (m : bytes) (dest i : Z) (l : list Z) : i < dest \/ dest + Z.of_nat (length l) <= i ->
  store_bytes m dest l i = m i.
Proof. intros H. unfold store_bytes. now rewrite within_false. Qed.

Lemma memset_value (m : bytes) (dest v len i : Z) :
  memset_bytes m dest v len i = if within dest len i then u8 v else m i.
Proof. reflexivity. Qed.

Lemma memmove_value (m : bytes) (dest src len i : Z) : 0 <= len ->
  memmove_bytes m dest src len i = if within dest len i then m (src + (i - dest)) else m i.
Proof.
  intros Hl. unfold memmove_bytes. destruct (within dest len i) eqn:E.
  - apply within_spec in E. rewrite store_inside by (rewrite load_length; lia).
    rewrite load_nth by lia. f_equal. lia.
  - rewrite store_outside; [reflexivity|]. rewrite load_length, Z2Nat.id by lia.
    destruct (Z.lt_ge_cases i dest); [auto|]. destruct (Z.lt_ge_cases i (dest + len)); [|lia].
    assert (T : within dest len i = true) by (apply within_spec; lia). congruence.
Qed.

(** When the regions do not overlap, copying byte by byte is copying through
    a temporary. *)
Lemma memcpy_value (n : nat) : forall (m : bytes) (dest src i : Z), Z.of_nat n <= Z.abs (dest - src) ->
  memcpy_bytes m dest src n i = if within dest (Z.of_nat n) i then m (src + (i - dest)) else m i.
Proof.
  induction n as [|n IH]; intros m dest src i H.
  - simpl. rewrite within_false by lia. reflexivity.
  - cbn [memcpy_bytes]. rewrite IH by lia.
    assert (W : forall j, store_bytes m dest [m src] j = if j =? dest then m src else m j).
    { intros j. destruct (Z.eqb_spec j dest) as [->|N].
      - rewrite store_inside by (simpl; lia). now rewrite Z.sub_diag.
      - apply store_outside. simpl. lia. }
    rewrite !W. destruct (withinP (dest + 1) (Z.of_nat n) i), (withinP dest (Z.of_nat (S n)) i); try lia.
    + destruct (Z.eqb_spec (src + 1 + (i - (dest + 1))) dest); [lia|]. f_equal. lia.
    + destruct (Z.eqb_spec i dest); [|lia]. f_equal. lia.
    + destruct (Z.eqb_spec i dest); [lia|reflexivity].
Qed.

(** [memcmp] finds the first difference. *)
Lemma memcmp_value (n : nat) : forall (m : bytes) (p q : Z),
  (memcmp_bytes m p q n = 0 /\ forall k, 0 <= k < Z.of_nat n -> m (p + k) = m (q + k)) \/
  (exists k, 0 <= k < Z.of_nat n /\ m (p + k) <> m (q + k) /\ memcmp_bytes m p q n = m (p + k) - m (q + k) /\
     forall j, 0 <= j < k -> m (p + j) = m (q + j)).
Proof.
  induction n as [|n IH]; intros m p q; cbn [memcmp_bytes]; [left; split; [reflexivity|lia]|].
  destruct (Z.eqb_spec (m p) (m q)) as [E|N].
  - assert (S : forall x k, x + 1 + k = x + (k + 1)) by (intros; lia).
    assert (P : forall k, k = 0 -> m (p + k) = m (q + k)) by (intros k ->; now rewrite !Z.add_0_r).
    destruct (IH m (p + 1) (q + 1)) as [[Z0 A]|(k & Hk & D & V & A)]; [left|right].
    + split; [exact Z0|]. intros k Hk. destruct (Z.eq_dec k 0) as [K|K]; [auto|].
      specialize (A (k - 1) ltac:(lia)). rewrite !S, !Z.sub_add in A. exact A.
    + exists (k + 1). rewrite !S in *. repeat split; try lia; auto.
      intros j Hj. destruct (Z.eq_dec j 0) as [K|K]; [auto|].
      specialize (A (j - 1) ltac:(lia)). rewrite !S, !Z.sub_add in A. exact A.
  - right. exists 0. rewrite !Z.add_0_r. repeat split; try lia; exact N || reflexivity.
Qed.

(** ** The image of the data segments *)

(** The byte of address [i] once the segments are loaded over zeros: that of
    the last segment covering it. *)
Definition segment_byte (i : Z) (b : Z) (s : DataSegment) : Z :=
  match baseOffset s with
  | i32_const base =>
      if within (u32 base) (size (data s)) i then nth (Z.to_nat (i - u32 base)) (data s) 0 else b
  | _ => b
  end.
Definition initial_byte (segments : list DataSegment) (i : Z) : Z := fold_left (segment_byte i) segments 0.

(** A segment that starts inside the memory and ends within it. *)
Definition segment_fits (min : Z) (s : DataSegment) : Prop :=
  exists base, baseOffset s = i32_const base /\ u32 base < min * numBytesPerPage /\
    u32 base + size (data s) <= min * numBytesPerPage.

Lemma nth_overwrite (image l : list Z) (a i : nat) : (a + length l <= length image)%nat ->
  nth i (overwrite image (Z.of_nat a) l) 0 =
  if Nat.leb a i && Nat.ltb i (a + length l) then nth (i - a) l 0 else nth i image 0.
Proof.
  intros H. unfold overwrite. rewrite Nat2Z.id.
  assert (La : length (firstn a image) = a) by (rewrite length_firstn; lia).
  destruct (Nat.leb_spec a i); simpl.
  - rewrite app_nth2, La by lia. destruct (Nat.ltb_spec i (a + length l)).
    + apply app_nth1. lia.
    + rewrite app_nth2, nth_skipn by lia. f_equal. lia.
  - rewrite app_nth1 by lia. rewrite nth_firstn. destruct (Nat.ltb_spec i a); [reflexivity|lia].
Qed.

Lemma nth_resize (image : list Z) (n : Z) (i : nat) : nth i (resize image n) 0 = nth i image 0.
Proof.
  unfold resize. destruct (Nat.lt_ge_cases i (length image)); [now apply app_nth1|].
  rewrite app_nth2, nth_repeat by lia. symmetry. now apply nth_overflow.
Qed.

Lemma parse_segment_fits (min : Z) (rest : list Z) (image : list Z) (s : DataSegment) :
  0 <= min <= 65536 -> size image <= min * numBytesPerPage -> segment_fits min s ->
  exists image', parse_segment (min :: rest) image s = Value image' /\ size image' <= min * numBytesPerPage /\
    forall i, nth i image' 0 = segment_byte (Z.of_nat i) (nth i image 0) s.
Proof.
  intros Hmin Him (base & E & H1 & H2). unfold parse_segment, segment_byte. rewrite E.
  pose proof (uwrap_bound 32 base ltac:(lia)) as Hb.
  assert (M : u64 (min << numBytesPerPageLog2) = min * numBytesPerPage).
  { unfold numBytesPerPageLog2. rewrite shl_mul by lia. change (2 ^ 16) with numBytesPerPage.
    apply uwrap_small. unfold numBytesPerPage. lia. }
  cbv zeta. rewrite M. destruct (Z.leb_spec (min * numBytesPerPage) (u32 base)); [lia|].
  destruct (Z.ltb_spec (min * numBytesPerPage) (u32 base + size (data s))); [lia|]. simpl orb.
  eexists; split; [reflexivity|].
  set (image' := if _ <? _ then _ else image).
  assert (L : u32 base + size (data s) <= size image' <= min * numBytesPerPage /\
              forall i, nth i image' 0 = nth i image 0).
  { unfold image'. destruct (Z.ltb_spec (size image) (u32 base + size (data s))) as [C|C].
    - split; [|intros; apply nth_resize]. unfold size, resize in *. rewrite length_app, repeat_length. lia.
    - split; [lia|reflexivity]. }
  destruct L as [L N]. clearbody image'. unfold size in *.
  set (a := Z.to_nat (u32 base)). replace (u32 base) with (Z.of_nat a) in * by lia.
  split.
  - unfold overwrite. rewrite !length_app, length_firstn, length_skipn, Nat2Z.id. lia.
  - intros i. rewrite nth_overwrite by lia. rewrite N.
    destruct (withinP (Z.of_nat a) (Z.of_nat (length (data s))) (Z.of_nat i)),
      (Nat.leb_spec a i), (Nat.ltb_spec i (a + length (data s))); try lia; simpl; try reflexivity.
    f_equal. lia.
Qed.

Lemma parse_segment_misfit (min : Z) (rest : list Z) (image : list Z) (s : DataSegment) :
  0 <= min <= 65536 -> ~ segment_fits min s ->
  parse_segment (min :: rest) image s = Throw wasm_runtime_exception.
Proof.
  intros Hmin H. unfold parse_segment. destruct (baseOffset s) as [base| | | | |] eqn:E; try reflexivity.
  assert (M : u64 (min << numBytesPerPageLog2) = min * numBytesPerPage).
  { unfold numBytesPerPageLog2. rewrite shl_mul by lia. change (2 ^ 16) with numBytesPerPage.
    apply uwrap_small. unfold numBytesPerPage. lia. }
  cbv zeta. rewrite M. destruct (Z.leb_spec (min * numBytesPerPage) (u32 base)); [reflexivity|].
  destruct (Z.ltb_spec (min * numBytesPerPage) (u32 base + size (data s))); [reflexivity|].
  exfalso. apply H. exists base. auto.
Qed.

Lemma parse_segments_fit (min : Z) (rest : list Z) (segments : list DataSegment) :
  0 <= min <= 65536 -> Forall (segment_fits min) segments -> forall image, size image <= min * numBytesPerPage ->
  exists image', parse_segments (min :: rest) segments image = Value image' /\ size image' <= min * numBytesPerPage /\
    forall i, nth i image' 0 = fold_left (segment_byte (Z.of_nat i)) segments (nth i image 0).
Proof.
  intros Hmin F. induction F as [|s segments Hs F IH]; intros image Him.
  - exists image. repeat split; auto.
  - destruct (parse_segment_fits min rest image s Hmin Him Hs) as (image1 & E & L & N).
    destruct (IH image1 L) as (image2 & E2 & L2 & N2).
    exists image2. cbn [parse_segments fold_left]. rewrite E. split; [exact E2|]. split; [exact L2|].
    intros i. now rewrite N2, N.
Qed.

Lemma parse_segments_misfit (min : Z) (rest : list Z) (segments : list DataSegment) :
  0 <= min <= 65536 -> ~ Forall (segment_fits min) segments -> forall image, size image <= min * numBytesPerPage ->
  parse_segments (min :: rest) segments image = Throw wasm_runtime_exception.
Proof.
  intros Hmin. induction segments as [|s segments IH]; intros F image Him; [exfalso; apply F; constructor|].
  cbn [parse_segments].
  destruct (parse_segment (min :: rest) image s) as [e|image1] eqn:E.
  - assert (N : ~ segment_fits min s).
    { intros C. destruct (parse_segment_fits min rest image s Hmin Him C) as (? & E' & _). congruence. }
    rewrite (parse_segment_misfit min rest image s Hmin N) in E. injection E as <-. reflexivity.
  - assert (C : segment_fits min s).
    { destruct (baseOffset s) as [base| | | | |] eqn:B;
        try (unfold parse_segment in E; rewrite B in E; discriminate).
      destruct (Z.lt_ge_cases (u32 base) (min * numBytesPerPage)) as [H1|H1];
        [destruct (Z.le_gt_cases (u32 base + size (data s)) (min * numBytesPerPage)) as [H2|H2];
           [exists base; auto|]|];
        rewrite (parse_segment_misfit min rest image s Hmin) in E; try discriminate;
        intros (b & B' & C1 & C2); rewrite B in B'; injection B' as <-; lia. }
    destruct (parse_segment_fits min rest image s Hmin Him C) as (image2 & E2 & L & _).
    rewrite E in E2. injection E2 as <-. simpl. apply IH; [|exact L].
    intros A. apply F. constructor; assumption.
Qed.

(** ** Resetting *)

(** Down to one page *)
Lemma shrink_one (n max : Z) (c : bytes) : 1 <= n <= 65536 ->
  shrinkMemory (Memory n 1 max c) (u64 (n - 1)) = (n, Memory 1 1 max c).
Proof.
  intros H. unfold shrinkMemory, set_pages. cbn [numPages size_min size_max contents]. rewrite (uwrap_small 64 (n - 1)) by lia.
  destruct (Z.ltb_spec 0 (n - 1)); [|now replace n with 1 by lia].
  destruct (Z.ltb_spec n (n - 1)); [lia|]. rewrite uwrap_small by lia. replace (n - (n - 1)) with 1 by lia. reflexivity.
Qed.

(** and up again *)
Lemma resetMemory_one (commit : bool) (m : MemoryInstance) (newmin newmax : Z) : 1 <= numPages m <= 65536 ->
  resetMemory commit m newmin newmax =
    let (r, m) := growMemory commit (Memory 1 newmin newmax (memset_bytes (contents m) 0 0 (1 << numBytesPerPageLog2)))
                    (u64 (newmin - 1)) in
    if r =? -1 then None else Some m.
Proof.
  intros H. unfold resetMemory. cbn [numPages size_min size_max contents]. rewrite shrink_one by exact H.
  destruct (Z.eqb_spec (numPages m) (-1)); [lia|reflexivity].
Qed.

Lemma reset_pages (commit : bool) (m : MemoryInstance) (newmin newmax : Z) :
  1 <= numPages m <= 65536 -> 1 <= newmin <= newmax -> newmax < 2 ^ 64 -> commit = true ->
  exists c, resetMemory commit m newmin newmax = Some (Memory newmin newmin newmax c) /\
    forall i, 0 <= i < newmin * numBytesPerPage -> c i = 0.
Proof.
  intros Hp Hn Hm ->. rewrite resetMemory_one by exact Hp. unfold growMemory, set_pages.
  cbn [numPages size_min size_max contents]. rewrite (uwrap_small 64 (newmin - 1)) by lia.
  destruct (Z.ltb_spec 0 (newmin - 1)) as [G|G];
    [destruct (Z.ltb_spec newmax (newmin - 1)); [lia|]; rewrite (uwrap_small 64 (_ - _)) by lia;
     destruct (Z.ltb_spec (newmax - (newmin - 1)) 1); [lia|]; cbn [orb negb Z.eqb];
     replace (1 + (newmin - 1)) with newmin by lia|replace newmin with 1 by lia; cbn [Z.eqb]];
    eexists; (split; [reflexivity|]); intros i Hi;
    rewrite !memset_value; unfold numBytesPerPageLog2, numBytesPerPage in *;
    rewrite ?shl_mul by lia; change (2 ^ 16) with 65536 in *;
    repeat match goal with |- context [within ?a ?b ?c] => destruct (withinP a b c) end; try reflexivity; lia.
Qed.

Lemma reset_zero (commit : bool) (m : MemoryInstance) (newmax : Z) :
  1 <= numPages m <= 65536 -> 0 <= newmax < 2 ^ 64 -> resetMemory commit m 0 newmax = None.
Proof.
  intros Hp Hm. rewrite resetMemory_one by exact Hp. unfold growMemory. cbn [numPages size_min size_max contents].
  change (u64 (0 - 1)) with (2 ^ 64 - 1). change (0 <? 2 ^ 64 - 1) with true. cbv iota.
  destruct (Z.ltb_spec newmax (2 ^ 64 - 1)); [reflexivity|]. replace (newmax - (2 ^ 64 - 1)) with 0 by lia. reflexivity.
Qed.

(** A limit that the declared minimum exceeds *)
Lemma reset_large (commit : bool) (m : MemoryInstance) (newmin newmax : Z) :
  1 <= numPages m <= 65536 -> 1 <= newmax < newmin -> newmin < 2 ^ 64 -> resetMemory commit m newmin newmax = None.
Proof.
  intros Hp Hm Hn. rewrite resetMemory_one by exact Hp. unfold growMemory. cbn [numPages size_min size_max contents].
  rewrite (uwrap_small 64 (newmin - 1)) by lia. destruct (Z.ltb_spec 0 (newmin - 1)); [|lia].
  destruct (Z.ltb_spec newmax (newmin - 1)); [reflexivity|]. rewrite uwrap_small by lia.
  destruct (Z.ltb_spec (newmax - (newmin - 1)) 1); [reflexivity|lia].
Qed.

(** A memory without pages *)
Lemma reset_none (commit : bool) (m : MemoryInstance) (newmin newmax : Z) :
  numPages m = 0 -> resetMemory commit m newmin newmax = None.
Proof. intros E. unfold resetMemory. cbn [numPages]. rewrite E. reflexivity. Qed.

(** The memory of a module whose segments fit *)
Lemma prepare_fit (old : MemoryInstance) (min max : Z) (rest : list Z) (segments : list DataSegment) :
  1 <= numPages old <= 65536 -> 1 <= min <= 65536 -> min <= max < 2 ^ 64 -> Forall (segment_fits min) segments ->
  exists image m, parse_initial_memory (min :: rest) segments = Value image /\
    size image <= min * numBytesPerPage /\
    prepare_memory true old min max image = Some m /\
    numPages m = min /\ size_min m = min /\ size_max m = max /\
    forall i, 0 <= i < memory_bytes m -> contents m i = initial_byte segments i.
Proof.
  intros Ho Hmin Hmax F. unfold parse_initial_memory.
  destruct (parse_segments_fit min rest segments ltac:(lia) F [] ltac:(unfold size, numBytesPerPage; simpl; lia))
    as (image & E & L & N).
  destruct (reset_pages true old min max Ho ltac:(lia) ltac:(lia) eq_refl) as (c & R & Z0).
  unfold prepare_memory. exists image. rewrite R. eexists. split; [exact E|]. split; [exact L|].
  split; [reflexivity|]. cbn. repeat split.
  intros i Hi. change (0 <= i < 65536 * min) in Hi. unfold numBytesPerPage in Z0.
  unfold initial_byte.
  transitivity (nth (Z.to_nat i) image 0).
  + destruct (Z.lt_ge_cases i (size image)).
    * rewrite store_inside by (unfold size in *; lia). now rewrite Z.sub_0_r.
    * rewrite store_outside by (unfold size in *; lia). rewrite Z0 by lia.
      symmetry. apply nth_overflow. unfold size in *. lia.
  + rewrite N, Z2Nat.id by lia. destruct (Z.to_nat i); reflexivity.
Qed.

(** C30. The memory a contract starts with (parse_initial_memory, resetMemory
    and wasm_instantiated_module::call): when every data segment lies inside
    the declared minimum, the image is built and, whatever the instance held
    before, the run starts with exactly the declared number of pages and every
    byte equal to that of the last segment covering it, or zero; the image
    never exceeds the memory.  A segment that does not lie inside is refused
    with wasm_runtime_exception, and a memory declared with zero pages cannot
    be prepared at all. *)
Theorem initial_memory_correct (old : MemoryInstance) (min max : Z) (rest : list Z) (segments : list DataSegment) :
  1 <= numPages old <= 65536 -> 0 <= min <= 65536 -> min <= max < 2 ^ 64 ->
  (1 <= min -> Forall (segment_fits min) segments ->
     exists image m, parse_initial_memory (min :: rest) segments = Value image /\
       size image <= min * numBytesPerPage /\
       prepare_memory true old min max image = Some m /\
       numPages m = min /\ size_min m = min /\ size_max m = max /\
       forall i, 0 <= i < memory_bytes m -> contents m i = initial_byte segments i) /\
  (~ Forall (segment_fits min) segments ->
     parse_initial_memory (min :: rest) segments = Throw wasm_runtime_exception) /\
  (min = 0 -> forall commit image, prepare_memory commit old min max image = None).
Proof.
  intros Ho Hmin Hmax. split; [|split].
  - intros H1 F. apply prepare_fit; (exact F || lia).
  - intros F. apply parse_segments_misfit; [exact Hmin|exact F|]. unfold size, numBytesPerPage. simpl. lia.
  - intros -> commit image. unfold prepare_memory. rewrite reset_zero by lia. reflexivity.
Qed.

Lemma initial_memory_correct_witness :
  (exists image m,
     parse_initial_memory [1] [Segment 0 (i32_const 4) [7; 8]; Segment 0 (i32_const 5) [9]] = Value image /\
     prepare_memory true (Memory 3 1 5 (fun i => 255)) 1 5 image = Some m /\
     contents m 4 = 7 /\ contents m 5 = 9 /\ contents m 6 = 0) /\
  parse_initial_memory [1] [Segment 0 (i32_const 65535) [1; 2]] = Throw wasm_runtime_exception /\
  prepare_memory true (Memory 3 1 5 (fun i => 255)) 0 5 [] = None.
Proof.
  split; [|split].
  - destruct (initial_memory_correct (Memory 3 1 5 (fun i => 255)) 1 5 []
      [Segment 0 (i32_const 4) [7; 8]; Segment 0 (i32_const 5) [9]]) as (A & _);
      try (split; (discriminate || reflexivity)).
    destruct A as (image & m & P & L & R & N & _ & _ & C); [discriminate| |].
    + repeat constructor; eexists; split; try reflexivity; split; (reflexivity || discriminate).
    + exists image, m. split; [exact P|]. split; [exact R|]. unfold memory_bytes, getMemoryNumPages in C. rewrite N in C.
      rewrite !C by (split; (discriminate || reflexivity)). repeat split.
  - refine (proj1 (proj2 (initial_memory_correct (Memory 3 1 5 (fun i => 255)) 1 5 []
      [Segment 0 (i32_const 65535) [1; 2]] _ _ _)) _); try (split; (discriminate || reflexivity)).
    intros F. inversion F as [|s l (b & E & _ & H) _]. injection E as <-. apply H. reflexivity.
  - refine (proj2 (proj2 (initial_memory_correct (Memory 3 1 5 (fun i => 255)) 0 5 [] [] _ _ _)) eq_refl true []);
      split; (discriminate || reflexivity).
Defined.
