(* ===== verification/Host.v ===== *)
(** The host side of a contract call: wasm_context (wasm_context.hpp), the
    transcription of intrinsic arguments (wavm.hpp) and the intrinsics that
    wasm_interface.cpp registers for the environment: memory, action, system,
    context-free system, database, crypto and console calls (those of compiler_builtins are in
    [CompilerBuiltins]).  A host computation keeps its state when it throws, as the C++ does. *)
From Stdlib Require Import ZArith Bool Lia List.
From S2P Require Import Prelude Exceptions Name Memory.
Import ListNotations.
Local Open Scope Z_scope.

(** ** Gas prices (wasm_gas_table.hpp) *)
Definition GAS_CALL_BASE : Z := 100.
Definition GAS_RECOVER_KEY : Z := 450000.
Definition GAS_SHA256_BASE : Z := 2400.
Definition GAS_SHA256_BYTE : Z := 3.
Definition GAS_LOG_0 : Z := 80000.
Definition GAS_LOG_1 : Z := 90000.
Definition GAS_LOG_2 : Z := 100000.
Definition GAS_LOG_DATA : Z := 1000.
Definition GAS_MEMOP_BYTE : Z := 3.
Definition GAS_TRANSFER : Z := 1000000.
Definition GAS_DBSTORE_BASE : Z := 1000000.
Definition GAS_DBSTORE_BYTE : Z := 100000.
Definition GAS_DBLOAD_BASE : Z := 1000000.
Definition GAS_DBLOAD_BYTE : Z := 100000.
Definition GAS_DB_HAS : Z := 500000.
Definition GAS_DB_RMV : Z := 500000.

(** ** The callbacks into the embedding program
    They are code of another program; each is a function of the bytes it is
    given and of the embedder's own state [W].  A callback that fills a buffer
    receives its contents and returns the new ones. *)
Class Callbacks (W : Type) : Type := {
  cb_store : Z -> Z -> list Z -> list Z -> W -> W;
  cb_load : Z -> Z -> list Z -> list Z -> W -> Z * list Z * W;
  cb_has_key : Z -> Z -> list Z -> W -> Z * W;
  cb_remove_key : Z -> Z -> list Z -> W -> W;
  cb_has_table : Z -> Z -> W -> Z * W;
  cb_remove_table : Z -> Z -> W -> W;
  cb_current_time : Z -> W -> Z * W;
  cb_current_height : Z -> W -> Z * W;
  cb_current_hash : Z -> list Z -> list Z -> W -> list Z * list Z * W;
  cb_add_log : Z -> list Z -> Z -> list Z -> W -> W;
  cb_transfer : Z -> list Z -> Z -> W -> W;
  cb_call_action : Z -> list Z -> list Z -> Z -> Z -> Z -> W -> Z * W;
  cb_call_result : Z -> list Z -> W -> Z * list Z * W;
  cb_set_result : Z -> list Z -> W -> Z * W
}.

(** What an embedder promises: a buffer it fills keeps its length. *)
Class CallbackLaws (W : Type) {C : Callbacks W} : Prop := {
  cb_load_length : forall k t key buf w r buf' w',
    cb_load k t key buf w = (r, buf', w') -> length buf' = length buf;
  cb_current_hash_length : forall k a b w a' b' w',
    cb_current_hash k a b w = (a', b', w') -> length a' = length a /\ length b' = length b;
  cb_call_result_length : forall k buf w r buf' w',
    cb_call_result k buf w = (r, buf', w') -> length buf' = length buf
}.

Section Host.
Context {W : Type} {C : Callbacks W}.

(** What has been inserted into the console stream: characters, integers, floating-point numbers as their
    bits (16 bytes for a long double).  What the stream makes of a number in the end, its text, is the formatting of the
    standard library. *)
Inductive printed : Type :=
  | Characters (l : list Z)
  | Integer (v : Z)
  | Float (bits : Z)
  | Double (bits : Z)
  | LongDouble (object : list Z)
  | NameText (s : Name.string).

(** ** wasm_context, and the memory of the running instance *)
Record wasm_context : Type := Context {
  act_data : list Z;
  from_addr_bytes : list Z;
  to_addr_bytes : list Z;
  owner_addr_bytes : list Z;
  user_addr_bytes : list Z;
  state_key : Z;
  transfer_amount : Z;
  remained_gas : Z;
  memory : option MemoryInstance;
  console : list printed;
  world : W
}.

Definition with_gas (g : Z) (c : wasm_context) : wasm_context :=
  Context (act_data c) (from_addr_bytes c) (to_addr_bytes c) (owner_addr_bytes c) (user_addr_bytes c)
    (state_key c) (transfer_amount c) g (memory c) (console c) (world c).
Definition with_contents (m : MemoryInstance) (b : bytes) (c : wasm_context) : wasm_context :=
  Context (act_data c) (from_addr_bytes c) (to_addr_bytes c) (owner_addr_bytes c) (user_addr_bytes c)
    (state_key c) (transfer_amount c) (remained_gas c) (Some (set_pages m (numPages m) b)) (console c) (world c).
Definition with_world (w : W) (c : wasm_context) : wasm_context :=
  Context (act_data c) (from_addr_bytes c) (to_addr_bytes c) (owner_addr_bytes c) (user_addr_bytes c)
    (state_key c) (transfer_amount c) (remained_gas c) (memory c) (console c) w.
Definition with_console (o : list printed) (c : wasm_context) : wasm_context :=
  Context (act_data c) (from_addr_bytes c) (to_addr_bytes c) (owner_addr_bytes c) (user_addr_bytes c)
    (state_key c) (transfer_amount c) (remained_gas c) (memory c) o (world c).

Definition Host (A : Type) : Type := wasm_context -> result A * wasm_context.
Definition hret {A} (a : A) : Host A := fun c => (Value a, c).
Definition hthrow {A} (e : exception) : Host A := fun c => (Throw e, c).
Definition hbind {A B} (m : Host A) (k : A -> Host B) : Host B :=
  fun c => match m c with
           | (Value a, c) => k a c
           | (Throw e, c) => (Throw e, c)
           end.
Definition hget {A} (f : wasm_context -> A) : Host A := fun c => (Value (f c), c).
Definition host_assert (expr : bool) (e : exception) : Host unit :=
  if expr then hret tt else hthrow e.

Local Notation "'let!' x := m 'in' k" := (hbind m (fun x => k))
  (at level 10, x name, m at level 100, k at level 200).
Local Notation "m ;! k" := (hbind m (fun _ => k)) (at level 95, right associativity).

(** [wasm_context::use_gas]: the int64 argument is compared with the uint64
    counter as an unsigned number. *)
Definition use_gas (gas : Z) : Host unit := fun c =>
  if remained_gas c <? u64 gas then (Throw wasm_runtime_exception, c)
  else (Value tt, with_gas (u64 (remained_gas c - u64 gas)) c).

(** ** Argument transcription *)

(** [array_ptr_impl<T>] with [sizeof T = sizeof_T] *)
Definition array_ptr_impl (sizeof_T ptr length : Z) : Host Z := fun c =>
  match memory c with
  | None => (Throw accessViolation, c)
  | Some mem =>
      let mem_total := memory_bytes mem in
      if (mem_total <=? ptr) || ((mem_total - ptr) / sizeof_T <? length) then (Throw accessViolation, c)
      else (Value ptr, c)
  end.

(** The length of the string at [p], when its terminator is below the top. *)
Fixpoint terminator (m : bytes) (p : Z) (n : nat) : option Z :=
  match n with
  | O => None
  | S n => if m p =? 0 then Some p else terminator m (p + 1) n
  end.

Definition null_terminated_ptr_impl (ptr : Z) : Host Z := fun c =>
  match memory c with
  | None => (Throw accessViolation, c)
  | Some mem =>
      match terminator (contents mem) ptr (Z.to_nat (memory_bytes mem - ptr)) with
      | Some _ => (Value ptr, c)
      | None => (Throw accessViolation, c)
      end
  end.

(** A reference parameter [T &] *)
Definition reference_impl (sizeof_T ptr : Z) : Host Z :=
  host_assert (negb (ptr =? 0)) wasm_runtime_exception ;!
  fun c =>
    match memory c with
    | None => (Throw accessViolation, c)
    | Some mem => if memory_bytes mem <=? ptr + sizeof_T then (Throw accessViolation, c) else (Value ptr, c)
    end.

(** [convert_native_to_wasm] of a [char *] into the memory *)
Definition convert_pointer (ptr : Z) : Host Z := fun c =>
  match memory c with
  | None => (Throw accessViolation, c)
  | Some mem =>
      if (ptr <? 0) || (memory_bytes mem <=? ptr) then (Throw accessViolation, c) else (Value (u32 ptr), c)
  end.

(** The transcribed length: an I32 converted to size_t. *)
Definition length_arg (size : Z) : Z := u64 (i32 size).
Definition array_arg (ptr size : Z) : Host Z := array_ptr_impl 1 (u32 ptr) (length_arg size).

(** Reading and writing the running instance's memory through a validated
    pointer. *)
Definition read (ptr len : Z) : Host (list Z) :=
  hget (fun c => match memory c with Some m => load_bytes (contents m) ptr len | None => [] end).
Definition update (f : bytes -> bytes) : Host unit := fun c =>
  match memory c with
  | Some m => (Value tt, with_contents m (f (contents m)) c)
  | None => (Value tt, c)
  end.
Definition write (ptr : Z) (l : list Z) : Host unit := update (fun b => store_bytes b ptr l).
Definition callback {A} (f : W -> A * W) : Host A := fun c =>
  let (a, w) := f (world c) in (Value a, with_world w c).
Definition notify (f : W -> W) : Host unit := fun c => (Value tt, with_world (f (world c)) c).

(** ** memory_api *)
Definition memory_gas (length : Z) : Z := i64 (u64 (GAS_CALL_BASE + GAS_MEMOP_BYTE * length)).

Definition memcpy (dest src length : Z) : Host Z :=
  use_gas (memory_gas length) ;!
  host_assert (length <=? Z.abs (dest - src)) overlapping_memory_error ;!
  update (fun b => memcpy_bytes b dest src (Z.to_nat length)) ;!
  hret dest.

Definition memmove (dest src length : Z) : Host Z :=
  use_gas (memory_gas length) ;!
  update (fun b => memmove_bytes b dest src length) ;!
  hret dest.

Definition memcmp (dest src length : Z) : Host Z :=
  use_gas (memory_gas length) ;!
  let! ret := hget (fun c => match memory c with
                             | Some m => memcmp_bytes (contents m) dest src (Z.to_nat length)
                             | None => 0 end) in
  hret (if ret <? 0 then -1 else if 0 <? ret then 1 else 0).

Definition memset (dest value length : Z) : Host Z :=
  use_gas (memory_gas length) ;!
  update (fun b => memset_bytes b dest value length) ;!
  hret dest.

(** ** action_api *)
Definition read_action_data (mem buffer_size : Z) : Host Z :=
  use_gas GAS_CALL_BASE ;!
  let! s := hget (fun c => size (act_data c)) in
  if buffer_size =? 0 then hret (i32 s)
  else
    use_gas (i64 (u64 (s * GAS_MEMOP_BYTE))) ;!
    let copy_size := Z.min buffer_size s in
    let! d := hget act_data in
    write mem (firstn (Z.to_nat copy_size) d) ;!
    hret (i32 copy_size).

Definition action_data_size : Host Z :=
  use_gas GAS_CALL_BASE ;! hget (fun c => i32 (size (act_data c))).

Definition get_address (which : wasm_context -> list Z) (address addr_size : Z) : Host unit :=
  use_gas (GAS_CALL_BASE + 20 * GAS_MEMOP_BYTE) ;!
  let len := if 20 <=? addr_size then 20 else addr_size in
  let! a := hget which in
  write address (firstn (Z.to_nat len) a).
Definition get_from := get_address from_addr_bytes.
Definition get_to := get_address to_addr_bytes.
Definition get_owner := get_address owner_addr_bytes.
Definition get_user := get_address user_addr_bytes.

Definition transfer (address addr_size amount : Z) : Host unit :=
  use_gas GAS_TRANSFER ;!
  host_assert (addr_size =? 20) invalid_address_exception ;!
  let! k := hget state_key in
  let! to := read address 20 in
  notify (cb_transfer k to amount).

Definition get_amount : Host Z := use_gas GAS_CALL_BASE ;! hget transfer_amount.

Definition call_action (address addr_size action action_size amount storage_delegate user_delegate : Z) : Host Z :=
  use_gas GAS_CALL_BASE ;!
  host_assert (addr_size =? 20) invalid_address_exception ;!
  let! k := hget state_key in
  let! to := read address 20 in
  let! act := read action action_size in
  callback (cb_call_action k to act amount storage_delegate user_delegate).

Definition call_result (result result_size : Z) : Host Z :=
  use_gas GAS_CALL_BASE ;!
  let! k := hget state_key in
  let! buf := read result result_size in
  let! r := callback (cb_call_result k buf) in
  write result (snd r) ;! hret (fst r).

Definition set_result (result result_size : Z) : Host Z :=
  use_gas GAS_CALL_BASE ;!
  let! k := hget state_key in
  let! buf := read result result_size in
  callback (cb_set_result k buf).

(** ** system_api *)
Definition current_time : Host Z :=
  use_gas GAS_CALL_BASE ;! let! k := hget state_key in callback (cb_current_time k).
Definition current_height : Host Z :=
  use_gas GAS_CALL_BASE ;! let! k := hget state_key in callback (cb_current_height k).

Definition current_hash (simple_hash full_hash : Z) : Host unit :=
  use_gas GAS_CALL_BASE ;!
  let! k := hget state_key in
  let! a := read simple_hash 32 in
  let! b := read full_hash 32 in
  let! r := callback (cb_current_hash k a b) in
  write simple_hash (fst r) ;! write full_hash (snd r).

(** [log_0], [log_1] and [log_2]: the topics are the hashes at [names]. *)
Definition log_n (base : Z) (data data_size : Z) (names : list Z) : Host unit :=
  use_gas (i64 (u64 (base + data_size * GAS_LOG_DATA))) ;!
  let! k := hget state_key in
  let! topics := hget (fun c => flat_map (fun p => match memory c with
                                                   | Some m => load_bytes (contents m) p 32
                                                   | None => [] end) names) in
  let! d := read data data_size in
  notify (cb_add_log k topics (size names) d).
Definition log_0 (data data_size name : Z) := log_n GAS_LOG_0 data data_size [name].
Definition log_1 (data data_size name param1 : Z) := log_n GAS_LOG_1 data data_size [name; param1].
Definition log_2 (data data_size name param1 param2 : Z) := log_n GAS_LOG_2 data data_size [name; param1; param2].

(** ** context_free_system_api *)
Definition abort : Host unit := hthrow wasm_runtime_exception.
Definition ftl_assert (condition : bool) : Host unit :=
  use_gas GAS_CALL_BASE ;! if negb condition then hthrow wasm_runtime_exception else hret tt.
(** After the charge, [wasm_interface::exit] jumps out of the contract ([siglongjmp]): nothing returns to the
    contract.  It has no effect on the context; [exits] below is for the jump. *)
Definition ftl_exit (code : Z) : Host unit := use_gas GAS_CALL_BASE ;! hret tt.

(** ** database_api *)
Definition db_store (table key key_size buffer buffer_size : Z) : Host unit :=
  use_gas (i64 (u64 (GAS_DBSTORE_BASE + buffer_size * GAS_DBSTORE_BYTE))) ;!
  let! k := hget state_key in
  let! key := read key key_size in
  let! value := read buffer buffer_size in
  notify (cb_store k table key value).

Definition db_load (table key key_size buffer buffer_size : Z) : Host Z :=
  use_gas (i64 (u64 (GAS_DBLOAD_BASE + buffer_size * GAS_DBLOAD_BYTE))) ;!
  let! k := hget state_key in
  let! key := read key key_size in
  let! buf := read buffer buffer_size in
  let! r := callback (cb_load k table key buf) in
  write buffer (snd r) ;! hret (fst r).

Definition db_has_key (table key key_size : Z) : Host Z :=
  use_gas GAS_DB_HAS ;!
  let! k := hget state_key in
  let! key := read key key_size in
  callback (cb_has_key k table key).

Definition db_remove_key (table key key_size : Z) : Host unit :=
  use_gas GAS_DB_RMV ;!
  let! k := hget state_key in
  let! key := read key key_size in
  notify (cb_remove_key k table key).

Definition db_has_table (table : Z) : Host Z :=
  use_gas GAS_DB_HAS ;! let! k := hget state_key in callback (cb_has_table k table).

Definition db_remove_table (table : Z) : Host unit :=
  use_gas GAS_DB_RMV ;! let! k := hget state_key in notify (cb_remove_table k table).

(** ** crypto_api: the bodies that remain once the commented-out code is gone *)
Definition assert_recover_key : Host unit := use_gas GAS_RECOVER_KEY.
Definition recover_key : Host Z := use_gas GAS_RECOVER_KEY ;! hret 0.
Definition sha256_gas (datalen : Z) : Z := i64 (u64 (GAS_SHA256_BASE + GAS_SHA256_BYTE * datalen)).
Definition assert_sha256 (datalen : Z) : Host unit := use_gas (sha256_gas datalen).
Definition sha256 (datalen : Z) : Host unit := use_gas (sha256_gas datalen).

(** ** console_api: nothing is charged *)
Definition ignore : bool := false.
Definition console_append (val : printed) : Host unit := fun c => (Value tt, with_console (console c ++ [val]) c).

(** The characters of the string at [p] *)
Definition c_string (p : Z) (c : wasm_context) : list Z :=
  match memory c with
  | Some m =>
      match terminator (contents m) p (Z.to_nat (memory_bytes m - p)) with
      | Some q => load_bytes (contents m) p (q - p)
      | None => []
      end
  | None => []
  end.

Definition prints (str : Z) : Host unit :=
  if negb ignore then let! s := hget (c_string str) in console_append (Characters s) else hret tt.
Definition prints_l (str str_len : Z) : Host unit :=
  if negb ignore then let! s := read str str_len in console_append (Characters s) else hret tt.
Definition printi (val : Z) : Host unit := if negb ignore then console_append (Integer val) else hret tt.
Definition printui (val : Z) : Host unit := if negb ignore then console_append (Integer val) else hret tt.
Definition printsf (val : Z) : Host unit := if negb ignore then console_append (Float val) else hret tt.
Definition printdf (val : Z) : Host unit := if negb ignore then console_append (Double val) else hret tt.
Definition printqf (val : Z) : Host unit :=
  if negb ignore then let! f := read val 16 in console_append (LongDouble f) else hret tt.
Definition printn (value : Z) : Host unit :=
  if negb ignore then console_append (NameText (to_string value)) else hret tt.
Definition printhex (data data_len : Z) : Host unit := if negb ignore then hret tt else hret tt.

(** ** The registered intrinsics, on wasm values
    One constructor per REGISTER_INTRINSICS entry of these classes, with its
    I32 and I64 arguments, floats as their bits; [run] transcribes them, the last one first, calls
    the method and converts the result (0 for a void one). *)
Inductive env_call : Type :=
  | E_memcpy (dest src size : Z)
  | E_memmove (dest src size : Z)
  | E_memcmp (dest src size : Z)
  | E_memset (dest value size : Z)
  | E_read_action_data (mem size : Z)
  | E_action_data_size
  | E_get_from (address size : Z)
  | E_get_to (address size : Z)
  | E_get_owner (address size : Z)
  | E_get_user (address size : Z)
  | E_transfer (address size amount : Z)
  | E_get_amount
  | E_call_action (address size action action_size amount storage_delegate user_delegate : Z)
  | E_call_result (result size : Z)
  | E_set_result (result size : Z)
  | E_current_time
  | E_current_height
  | E_current_hash (simple_hash full_hash : Z)
  | E_log_0 (data size name : Z)
  | E_log_1 (data size name param1 : Z)
  | E_log_2 (data size name param1 param2 : Z)
  | E_abort
  | E_ftl_assert (condition msg : Z)
  | E_ftl_assert_message (condition msg size : Z)
  | E_ftl_assert_code (condition error_code : Z)
  | E_ftl_exit (code : Z)
  | E_db_store (table key key_size buffer size : Z)
  | E_db_load (table key key_size buffer size : Z)
  | E_db_has_key (table key key_size : Z)
  | E_db_remove_key (table key key_size : Z)
  | E_db_has_table (table : Z)
  | E_db_remove_table (table : Z)
  | E_assert_recover_key (digest sig siglen pub publen : Z)
  | E_recover_key (digest sig siglen pub publen : Z)
  | E_assert_sha256 (data datalen hash_val : Z)
  | E_sha256 (data datalen hash_val : Z)
  | E_use_gas (gas : Z)
  | E_prints (str : Z)
  | E_prints_l (str size : Z)
  | E_printi (val : Z)
  | E_printui (val : Z)
  | E_printsf (val : Z)
  | E_printdf (val : Z)
  | E_printqf (val : Z)
  | E_printn (value : Z)
  | E_printhex (data size : Z).

(** The call does not come back to the contract. *)
Definition exits (call : env_call) : bool := match call with E_ftl_exit _ => true | _ => false end.

Definition void (m : Host unit) : Host Z := m ;! hret 0.
Definition sizeof_sha256 : Z := 32.
Definition hash_arg (ptr : Z) : Host Z := reference_impl sizeof_sha256 (u32 ptr).
Definition sizeof_float128 : Z := 16.
Definition float128_arg (ptr : Z) : Host Z := reference_impl sizeof_float128 (u32 ptr).

Definition run (call : env_call) : Host Z :=
  match call with
  | E_memcpy dest src size =>
      let! d := array_arg dest size in let! s := array_arg src size in
      let! r := memcpy d s (length_arg size) in convert_pointer r
  | E_memmove dest src size =>
      let! d := array_arg dest size in let! s := array_arg src size in
      let! r := memmove d s (length_arg size) in convert_pointer r
  | E_memcmp dest src size =>
      let! d := array_arg dest size in let! s := array_arg src size in memcmp d s (length_arg size)
  | E_memset dest value size =>
      let! d := array_arg dest size in
      let! r := memset d (i32 value) (length_arg size) in convert_pointer r
  | E_read_action_data mem size => let! p := array_arg mem size in read_action_data p (length_arg size)
  | E_action_data_size => action_data_size
  | E_get_from address size => let! p := array_arg address size in void (get_from p (length_arg size))
  | E_get_to address size => let! p := array_arg address size in void (get_to p (length_arg size))
  | E_get_owner address size => let! p := array_arg address size in void (get_owner p (length_arg size))
  | E_get_user address size => let! p := array_arg address size in void (get_user p (length_arg size))
  | E_transfer address size amount =>
      let! p := array_arg address size in void (transfer p (length_arg size) (u64 amount))
  | E_get_amount => get_amount
  | E_call_action address size action action_size amount storage_delegate user_delegate =>
      let! a := array_arg action action_size in let! p := array_arg address size in
      call_action p (length_arg size) a (length_arg action_size) (u64 amount)
        (i32 storage_delegate) (i32 user_delegate)
  | E_call_result result size => let! p := array_arg result size in call_result p (length_arg size)
  | E_set_result result size => let! p := array_arg result size in set_result p (length_arg size)
  | E_current_time => current_time
  | E_current_height => current_height
  | E_current_hash simple_hash full_hash =>
      let! f := hash_arg full_hash in let! s := hash_arg simple_hash in void (current_hash s f)
  | E_log_0 data size name =>
      let! n := hash_arg name in let! p := array_arg data size in void (log_0 p (length_arg size) n)
  | E_log_1 data size name param1 =>
      let! x := hash_arg param1 in let! n := hash_arg name in
      let! p := array_arg data size in void (log_1 p (length_arg size) n x)
  | E_log_2 data size name param1 param2 =>
      let! y := hash_arg param2 in let! x := hash_arg param1 in let! n := hash_arg name in
      let! p := array_arg data size in void (log_2 p (length_arg size) n x y)
  | E_abort => void abort
  | E_ftl_assert condition msg =>
      null_terminated_ptr_impl (u32 msg) ;! void (ftl_assert (z2b condition))
  | E_ftl_assert_message condition msg size =>
      array_arg msg size ;! void (ftl_assert (z2b condition))
  | E_ftl_assert_code condition error_code => void (ftl_assert (z2b condition))
  | E_ftl_exit code => void (ftl_exit (i32 code))
  | E_db_store table key key_size buffer size =>
      let! b := array_arg buffer size in let! k := array_arg key key_size in
      void (db_store (u64 table) k (length_arg key_size) b (length_arg size))
  | E_db_load table key key_size buffer size =>
      let! b := array_arg buffer size in let! k := array_arg key key_size in
      db_load (u64 table) k (length_arg key_size) b (length_arg size)
  | E_db_has_key table key key_size =>
      let! k := array_arg key key_size in db_has_key (u64 table) k (length_arg key_size)
  | E_db_remove_key table key key_size =>
      let! k := array_arg key key_size in void (db_remove_key (u64 table) k (length_arg key_size))
  | E_db_has_table table => db_has_table (u64 table)
  | E_db_remove_table table => void (db_remove_table (u64 table))
  | E_assert_recover_key digest sig siglen pub publen =>
      array_arg pub publen ;! array_arg sig siglen ;! hash_arg digest ;! void assert_recover_key
  | E_recover_key digest sig siglen pub publen =>
      array_arg pub publen ;! array_arg sig siglen ;! hash_arg digest ;! recover_key
  | E_assert_sha256 data datalen hash_val =>
      hash_arg hash_val ;! array_arg data datalen ;! void (assert_sha256 (length_arg datalen))
  | E_sha256 data datalen hash_val =>
      hash_arg hash_val ;! array_arg data datalen ;! void (sha256 (length_arg datalen))
  | E_use_gas gas => void (use_gas (i64 (u64 gas)))
  | E_prints str => let! p := null_terminated_ptr_impl (u32 str) in void (prints p)
  | E_prints_l str size => let! p := array_arg str size in void (prints_l p (length_arg size))
  | E_printi val => void (printi (i64 (u64 val)))
  | E_printui val => void (printui (u64 val))
  | E_printsf val => void (printsf val)
  | E_printdf val => void (printdf val)
  | E_printqf val => let! p := float128_arg val in void (printqf p)
  | E_printn value => void (printn (u64 value))
  | E_printhex data size => let! p := array_arg data size in void (printhex p (length_arg size))
  end.

(** A contract's calls in order, up to the first one that throws or exits, and what those that come back to it return. *)
Fixpoint run_all (calls : list env_call) : Host (list Z) :=
  match calls with
  | [] => hret []
  | call :: calls =>
      let! r := run call in
      if exits call then hret [] else let! rs := run_all calls in hret (r :: rs)
  end.

End Host.
