(* ===== verification/HostProofs.v ===== *)
(** Every intrinsic is metered and memory safe: a weakest-precondition calculus
    for host computations, one rule per primitive, and the theorems it gives
    for the whole environment interface. *)
From Stdlib Require Import ZArith Bool Lia List.
From S2P Require Import Prelude Exceptions Memory Host.
Import ListNotations.
Local Open Scope Z_scope.

Section Rules.
Context {W : Type} {C : Callbacks W}.
Abbreviation context := (@wasm_context W).

(** [Q] of a result and the state it is returned in, [E] of an exception and
    the state it is thrown in. *)
Definition wp {A} (m : Host A) (Q : A -> context -> Prop) (E : exception -> context -> Prop) (c : context) : Prop :=
  match m c with
  | (Value a, c') => Q a c'
  | (Throw e, c') => E e c'
  end.

Lemma wp_bind {A B} (m : Host A) (k : A -> Host B) Q E (c : context) :
  wp m (fun a => wp (k a) Q E) E c -> wp (hbind m k) Q E c.
Proof. unfold wp, hbind. destruct (m c) as [[e|a] c']; auto. Qed.

Lemma wp_ret {A} (a : A) (Q : A -> context -> Prop) E (c : context) : Q a c -> wp (hret a) Q E c.
Proof. exact (fun H => H). Qed.

Lemma wp_get {A} (f : context -> A) Q E (c : context) : Q (f c) c -> wp (hget f) Q E c.
Proof. exact (fun H => H). Qed.

Lemma wp_throw {A} (e : exception) (Q : A -> context -> Prop) E (c : context) : E e c -> wp (hthrow e) Q E c.
Proof. exact (fun H => H). Qed.

Lemma wp_assert (b : bool) (e : exception) Q E (c : context) :
  (b = true -> Q tt c) -> (b = false -> E e c) -> wp (host_assert b e) Q E c.
Proof. unfold host_assert. destruct b; [intros H _|intros _ H]; exact (H eq_refl). Qed.

Lemma wp_gas (g : Z) Q E (c : context) : 0 <= remained_gas c < 2 ^ 64 ->
  (0 <= u64 g <= remained_gas c -> Q tt (with_gas (remained_gas c - u64 g) c)) ->
  E wasm_runtime_exception c ->
  wp (use_gas g) Q E c.
Proof.
  intros Hr H1 H2. unfold wp, use_gas. pose proof (uwrap_bound 64 g ltac:(lia)).
  destruct (Z.ltb_spec (remained_gas c) (u64 g)); [exact H2|]. rewrite uwrap_small by lia. apply H1. lia.
Qed.

Lemma wp_array (n p l : Z) Q E (c : context) :
  E accessViolation c ->
  (forall m, memory c = Some m -> p < memory_bytes m -> l <= (memory_bytes m - p) / n -> Q p c) ->
  wp (array_ptr_impl n p l) Q E c.
Proof.
  intros HE HQ. unfold wp, array_ptr_impl. destruct (memory c) as [m|] eqn:M; [|exact HE].
  destruct (Z.leb_spec (memory_bytes m) p); [exact HE|].
  destruct (Z.ltb_spec ((memory_bytes m - p) / n) l); [exact HE|]. simpl. eauto.
Qed.

(** A validated array argument lies inside the memory. *)
Lemma wp_array_arg (p n : Z) Q E (c : context) :
  E accessViolation c ->
  (forall m, memory c = Some m -> 0 <= u32 p < memory_bytes m -> 0 <= length_arg n ->
     u32 p + length_arg n <= memory_bytes m -> Q (u32 p) c) ->
  wp (array_arg p n) Q E c.
Proof.
  intros HE HQ. apply wp_array; [exact HE|]. intros m M Hp Hl. rewrite Z.div_1_r in Hl.
  pose proof (uwrap_bound 32 p ltac:(lia)). pose proof (uwrap_bound 64 (i32 n) ltac:(lia)).
  apply (HQ m M); unfold length_arg in *; lia.
Qed.

(** A reference that has been validated *)
Lemma wp_reference (n p : Z) Q E (c : context) :
  E accessViolation c -> E wasm_runtime_exception c ->
  (forall m, memory c = Some m -> 0 < u32 p -> u32 p + n < memory_bytes m -> Q (u32 p) c) ->
  wp (reference_impl n (u32 p)) Q E c.
Proof.
  intros H1 H2 HQ. unfold wp, reference_impl, hbind, host_assert.
  pose proof (uwrap_bound 32 p ltac:(lia)).
  destruct (Z.eqb_spec (u32 p) 0); simpl; [exact H2|]. destruct (memory c) as [m|] eqn:M; [|exact H1].
  destruct (Z.leb_spec (memory_bytes m) (u32 p + n)); [exact H1|].
  apply (HQ m); [reflexivity|lia|assumption].
Qed.

Lemma wp_hash_arg (p : Z) Q E (c : context) :
  E accessViolation c -> E wasm_runtime_exception c ->
  (forall m, memory c = Some m -> 0 < u32 p -> u32 p + 32 < memory_bytes m -> Q (u32 p) c) ->
  wp (hash_arg p) Q E c.
Proof. apply wp_reference. Qed.

Lemma wp_float128_arg (p : Z) Q E (c : context) :
  E accessViolation c -> E wasm_runtime_exception c ->
  (forall m, memory c = Some m -> 0 < u32 p -> u32 p + 16 < memory_bytes m -> Q (u32 p) c) ->
  wp (float128_arg p) Q E c.
Proof. apply wp_reference. Qed.

Lemma wp_string (p : Z) Q E (c : context) :
  E accessViolation c -> Q p c -> wp (null_terminated_ptr_impl p) Q E c.
Proof.
  intros HE HQ. unfold wp, null_terminated_ptr_impl. destruct (memory c); [|exact HE].
  destruct (terminator _ _ _); assumption.
Qed.

Lemma wp_pointer (p : Z) Q E (c : context) (m : MemoryInstance) :
  memory c = Some m -> 0 <= p < memory_bytes m -> memory_bytes m <= 2 ^ 32 -> Q p c -> wp (convert_pointer p) Q E c.
Proof.
  intros M Hp Hb HQ. unfold wp, convert_pointer. rewrite M.
  destruct (Z.ltb_spec p 0); [lia|]. destruct (Z.leb_spec (memory_bytes m) p); [lia|]. simpl.
  rewrite uwrap_small by lia. exact HQ.
Qed.

Lemma wp_update (f : bytes -> bytes) Q E (c : context) (m : MemoryInstance) :
  memory c = Some m -> Q tt (with_contents m (f (contents m)) c) -> wp (update f) Q E c.
Proof. intros M HQ. unfold wp, update. rewrite M. exact HQ. Qed.

Lemma wp_read (p l : Z) Q E (c : context) :
  (forall b, (forall m, memory c = Some m -> b = load_bytes (contents m) p l) -> Q b c) -> wp (read p l) Q E c.
Proof.
  intros H. unfold wp, read, hget. apply H. intros m ->. reflexivity.
Qed.

Lemma wp_callback {A} (f : W -> A * W) Q E (c : context) :
  (forall a w, f (world c) = (a, w) -> Q a (with_world w c)) -> wp (callback f) Q E c.
Proof. intros H. unfold wp, callback. destruct (f (world c)) as [a w] eqn:F. auto. Qed.

Lemma wp_notify (f : W -> W) Q E (c : context) : Q tt (with_world (f (world c)) c) -> wp (notify f) Q E c.
Proof. exact (fun H => H). Qed.

Lemma wp_console (val : printed) Q E (c : context) : Q tt (with_console (console c ++ [val]) c) -> wp (console_append val) Q E c.
Proof. exact (fun H => H). Qed.

Lemma wp_mono {A} (m : Host A) (Q Q' : A -> context -> Prop) (E E' : exception -> context -> Prop) (c : context) :
  wp m Q E c -> (forall a c, Q a c -> Q' a c) -> (forall e c, E e c -> E' e c) -> wp m Q' E' c.
Proof. unfold wp. destruct (m c) as [[e|a] c']; auto. Qed.
End Rules.

(** ** The specification of a call: what it costs and where it writes *)
Section Spec.
Context {W : Type}.
Abbreviation context := (@wasm_context W).

Definition cost (call : env_call) (c : context) : Z :=
  match call with
  | E_memcpy _ _ n | E_memmove _ _ n | E_memcmp _ _ n | E_memset _ _ n => 100 + 3 * length_arg n
  | E_read_action_data _ n => if length_arg n =? 0 then 100 else 100 + 3 * size (act_data c)
  | E_get_from _ _ | E_get_to _ _ | E_get_owner _ _ | E_get_user _ _ => 160
  | E_transfer _ _ _ => 1000000
  | E_log_0 _ n _ => 80000 + 1000 * length_arg n
  | E_log_1 _ n _ _ => 90000 + 1000 * length_arg n
  | E_log_2 _ n _ _ _ => 100000 + 1000 * length_arg n
  | E_abort | E_prints _ | E_prints_l _ _ | E_printi _ | E_printui _ | E_printsf _ | E_printdf _ | E_printqf _ | E_printn _
  | E_printhex _ _ => 0
  | E_db_store _ _ _ _ n | E_db_load _ _ _ _ n => 1000000 + 100000 * length_arg n
  | E_db_has_key _ _ _ | E_db_remove_key _ _ _ | E_db_has_table _ | E_db_remove_table _ => 500000
  | E_assert_recover_key _ _ _ _ _ | E_recover_key _ _ _ _ _ => 450000
  | E_assert_sha256 _ n _ | E_sha256 _ n _ => 2400 + 3 * length_arg n
  | E_use_gas g => u64 g
  | _ => 100
  end.

(** The address ranges a call may write. *)
Definition writes (call : env_call) : list (Z * Z) :=
  match call with
  | E_memcpy d _ n | E_memmove d _ n | E_memset d _ n => [(u32 d, length_arg n)]
  | E_read_action_data d n => [(u32 d, length_arg n)]
  | E_get_from d n | E_get_to d n | E_get_owner d n | E_get_user d n => [(u32 d, Z.min 20 (length_arg n))]
  | E_call_result d n => [(u32 d, length_arg n)]
  | E_current_hash s f => [(u32 s, 32); (u32 f, 32)]
  | E_db_load _ _ _ d n => [(u32 d, length_arg n)]
  | _ => []
  end.

(** A context whose counters, buffers and memory have the sizes the program
    gives them. *)
Record valid (c : context) : Prop := {
  valid_gas : 0 <= remained_gas c < 2 ^ 64;
  valid_data : size (act_data c) < 2 ^ 31;
  valid_from : length (from_addr_bytes c) = 20%nat;
  valid_to : length (to_addr_bytes c) = 20%nat;
  valid_owner : length (owner_addr_bytes c) = 20%nat;
  valid_user : length (user_addr_bytes c) = 20%nat;
  valid_pages : forall m, memory c = Some m -> 0 <= numPages m <= 65536
}.

(** The memory after a call is the one before but for the ranges [ws], which
    lie inside it. *)
Definition frame (ws : list (Z * Z)) (before after : option MemoryInstance) : Prop :=
  match before, after with
  | None, None => ws = []
  | Some m, Some m' =>
      numPages m' = numPages m /\ size_min m' = size_min m /\ size_max m' = size_max m /\
      Forall (fun '(p, n) => 0 <= p /\ p + n <= memory_bytes m) ws /\
      forall i, Forall (fun '(p, n) => i < p \/ p + n <= i) ws -> contents m' i = contents m i
  | _, _ => False
  end.

Definition same_inputs (c c' : context) : Prop :=
  act_data c' = act_data c /\ from_addr_bytes c' = from_addr_bytes c /\ to_addr_bytes c' = to_addr_bytes c /\
  owner_addr_bytes c' = owner_addr_bytes c /\ user_addr_bytes c' = user_addr_bytes c /\
  state_key c' = state_key c /\ transfer_amount c' = transfer_amount c.

Lemma frame_refl (m : option MemoryInstance) : frame [] m m.
Proof. destruct m; [|reflexivity]. repeat split; auto. Qed.

Lemma frame_set (m : MemoryInstance) (b : bytes) (ws : list (Z * Z)) :
  Forall (fun '(p, n) => 0 <= p /\ p + n <= memory_bytes m) ws ->
  (forall i, Forall (fun '(p, n) => i < p \/ p + n <= i) ws -> b i = contents m i) ->
  frame ws (Some m) (Some (set_pages m (numPages m) b)).
Proof. intros H1 H2. repeat split; auto. Qed.
Lemma frame_same (m : MemoryInstance) (p n : Z) : 0 <= p -> p + n <= memory_bytes m ->
  frame [(p, n)] (Some m) (Some m).
Proof. intros H1 H2. repeat split; auto. Qed.

Lemma frame_store (m : MemoryInstance) (p n : Z) (l : list Z) :
  0 <= p -> p + n <= memory_bytes m -> Z.of_nat (length l) <= n ->
  frame [(p, n)] (Some m) (Some (set_pages m (numPages m) (store_bytes (contents m) p l))).
Proof.
  intros H1 H2 H3. apply frame_set; [auto|]. intros i F. inversion_clear F as [|? ? Hi _].
  apply store_outside. lia.
Qed.

Lemma frame_store_two (m : MemoryInstance) (p q n : Z) (l k : list Z) :
  0 <= p -> p + n <= memory_bytes m -> 0 <= q -> q + n <= memory_bytes m ->
  Z.of_nat (length l) <= n -> Z.of_nat (length k) <= n ->
  frame [(p, n); (q, n)] (Some m)
    (Some (set_pages m (numPages m) (store_bytes (store_bytes (contents m) p l) q k))).
Proof.
  intros H1 H2 H3 H4 H5 H6. apply frame_set; [auto|]. intros i F. inversion_clear F as [|? ? Hi F'].
  inversion_clear F' as [|? ? Hj _]. rewrite !store_outside by lia. reflexivity.
Qed.

Lemma frame_range (m : MemoryInstance) (p n : Z) (b : bytes) :
  0 <= p -> p + n <= memory_bytes m -> (forall i, within p n i = false -> b i = contents m i) ->
  frame [(p, n)] (Some m) (Some (set_pages m (numPages m) b)).
Proof.
  intros H1 H2 H. apply frame_set; [auto|]. intros i F. inversion_clear F as [|? ? Hi _].
  apply H, within_false. exact Hi.
Qed.
End Spec.

Lemma length_arg_bound (n : Z) : 0 <= length_arg n < 2 ^ 64.
Proof. apply uwrap_bound. lia. Qed.

Lemma swrap_mod (w x : Z) : 0 < w -> swrap w x mod 2 ^ w = x mod 2 ^ w.
Proof.
  intros Hw. unfold swrap. rewrite Zminus_mod, Z.mod_mod, <- Zminus_mod by (apply Z.pow_nonzero; lia).
  f_equal. lia.
Qed.

(** A price computed in size_t and passed as int64. *)
Lemma gas_price (x : Z) : u64 (i64 (u64 x)) = u64 x.
Proof. unfold uwrap at 1. rewrite swrap_mod by lia. apply Z.mod_mod. lia. Qed.

Section Calls.
Context {W : Type} {C : Callbacks W} {L : CallbackLaws W}.
Abbreviation context := (@wasm_context W).

(** What a call does when it returns and when it throws. *)
Definition returns (call : env_call) (c : context) (r : Z) (c' : context) : Prop :=
  cost call c <= remained_gas c /\ remained_gas c' = remained_gas c - cost call c /\
  same_inputs c c' /\ frame (writes call) (memory c) (memory c').

Definition throws (c : context) (e : exception) (c' : context) : Prop :=
  0 <= remained_gas c' <= remained_gas c /\ same_inputs c c' /\ memory c' = memory c /\ world c' = world c.

Lemma throws_here (c c' : context) (e : exception) :
  0 <= remained_gas c' <= remained_gas c -> same_inputs c c' -> memory c' = memory c -> world c' = world c ->
  throws c e c'.
Proof. unfold throws. auto. Qed.

End Calls.

Ltac context_cbn := cbn [remained_gas memory world act_data from_addr_bytes to_addr_bytes owner_addr_bytes
  user_addr_bytes state_key transfer_amount with_gas with_contents with_world with_console contents set_pages numPages fst snd].

(** One rule of the calculus. *)
Ltac wp_step :=
  lazymatch goal with
  | |- wp (void _) _ _ _ => unfold void
  | |- wp (hbind _ _) _ _ _ => apply wp_bind
  | |- wp (hret _) _ _ _ => apply wp_ret
  | |- wp (hget _) _ _ _ => apply wp_get; context_cbn
  | |- wp (hthrow _) _ _ _ => apply wp_throw
  | |- wp (host_assert _ _) _ _ _ => apply wp_assert; [intros ?|intros _]
  | |- wp (use_gas _) _ _ _ => apply wp_gas; [context_cbn|context_cbn; intros ?|]
  | |- wp (array_arg _ _) _ _ _ => apply wp_array_arg; [|intros ? ? ? ? ?; context_cbn]
  | |- wp (null_terminated_ptr_impl _) _ _ _ => apply wp_string
  | |- wp (hash_arg _) _ _ _ => apply wp_hash_arg; [| |intros ? ? ? ?]
  | |- wp (float128_arg _) _ _ _ => apply wp_float128_arg; [| |intros ? ? ? ?]
  | |- wp (console_append _) _ _ _ => apply wp_console; context_cbn
  | |- wp (read _ _) _ _ _ => apply wp_read; intros ? ?
  | |- wp (callback _) _ _ _ => apply wp_callback; intros ? ? ?; context_cbn
  | |- wp (notify _) _ _ _ => apply wp_notify; context_cbn
  | |- wp (write _ _) _ _ _ => unfold write
  | |- wp (update _) _ _ _ => eapply wp_update; [context_cbn; eassumption|context_cbn]
  | |- wp (convert_pointer _) _ _ _ => eapply wp_pointer; [context_cbn; reflexivity| | |]
  | |- wp (if ?b then _ else _) _ _ _ => destruct b eqn:?
  end.

(** What remains once a call has been stepped through. *)
Ltac gas_facts :=
  unfold cost, memory_gas, sha256_gas, GAS_CALL_BASE, GAS_RECOVER_KEY, GAS_SHA256_BASE, GAS_SHA256_BYTE, GAS_LOG_0,
    GAS_LOG_1, GAS_LOG_2, GAS_LOG_DATA, GAS_MEMOP_BYTE, GAS_TRANSFER, GAS_DBSTORE_BASE, GAS_DBSTORE_BYTE,
    GAS_DBLOAD_BASE, GAS_DBLOAD_BYTE, GAS_DB_HAS, GAS_DB_RMV in *;
  rewrite ?gas_price in *; rewrite ?(uwrap_small 64) in * by lia.
Ltac finish_throws := apply throws_here; context_cbn; [lia|repeat split; reflexivity|reflexivity|reflexivity].
Ltac same_memory :=
  repeat match goal with
  | H : memory ?c = Some ?m, H' : memory ?c = Some ?m' |- _ =>
      assert (m' = m) by congruence; subst m'; clear H'
  end.
Ltac run_call :=
  unfold memcpy, memmove, memcmp, memset, read_action_data, action_data_size, get_from, get_to, get_owner, get_user,
    get_address, transfer, get_amount, call_action, call_result, set_result, current_time, current_height, current_hash,
    log_0, log_1, log_2, log_n, abort, ftl_assert, db_store, db_load, db_has_key, db_remove_key, db_has_table,
    db_remove_table, assert_recover_key, recover_key, assert_sha256, sha256, ftl_exit, prints, prints_l, printi, printui,
    printsf, printdf, printqf, printn, printhex;
  repeat wp_step; same_memory; try lia; try solve [finish_throws].

(** The lengths of the buffers that a callback returned. *)
Ltac buffer_lengths :=
  repeat match goal with
  | H : cb_call_result _ _ _ = _ |- _ => apply cb_call_result_length in H
  | H : cb_load _ _ _ _ _ = _ |- _ => apply cb_load_length in H
  | H : cb_current_hash _ _ _ _ = _ |- _ => apply cb_current_hash_length in H; destruct H
  | M : memory ?c = Some ?m, H : forall m, _ = Some m -> ?b = _, E : context [length ?b] |- _ =>
      rewrite (H m M), load_length in E; clear H
  end.

Section Calls.
Context {W : Type} {C : Callbacks W} {L : CallbackLaws W}.
Abbreviation context := (@wasm_context W).

Lemma valid_memory (c : context) (m : MemoryInstance) : valid c -> memory c = Some m -> 0 <= memory_bytes m <= 2 ^ 32.
Proof.
  intros V M. pose proof (valid_pages c V m M). unfold memory_bytes, getMemoryNumPages, numBytesPerPage. lia.
Qed.

Lemma firstn_min (l : list Z) (n : Z) : 0 <= n -> Z.of_nat (length (firstn (Z.to_nat n) l)) <= n.
Proof. intros H. rewrite length_firstn. lia. Qed.

(** Every call, from a valid context: it either returns having been charged
    its cost and having written its ranges only, or throws. *)
Lemma run_spec (call : env_call) (c : context) : valid c -> wp (run call) (returns call c) (throws c) c.
Proof.
  intros V. pose proof (fun m => valid_memory c m V) as Hm. destruct V as [Hg Hd Hf Ht Ho Hu _].
  assert (Hs : 0 <= size (act_data c)) by apply Zle_0_nat.
  destruct call; cbn [run]; run_call.
  all: try match goal with M : memory ?c = Some ?m, Hm : forall m, memory ?c = Some m -> _ |- _ => pose proof (Hm m M) end.
  all: try match goal with |- context [memory_bytes (set_pages ?m _ ?b)] =>
             change (memory_bytes (set_pages m (numPages m) b)) with (memory_bytes m); lia end.
  all: unfold returns; cbn [cost];
    repeat match goal with H : (length_arg ?n =? 0) = _ |- context [length_arg ?n =? 0] => rewrite H end.
  all: split; [gas_facts; lia|split; [context_cbn; gas_facts; lia|split; [repeat split; reflexivity|]]].
  all: context_cbn; cbn [writes]; try apply frame_refl.
  all: match goal with M : memory ?c = Some ?m |- _ => rewrite M end.
  1-3: apply frame_range; [lia|lia|intros i Hi].
  1: rewrite memcpy_value by lia. 2: rewrite memmove_value by lia. 3: rewrite memset_value.
  1-3: rewrite ?Z2Nat.id by lia; now rewrite Hi.
  1: now apply frame_same.
  1: apply frame_store; [lia|lia|etransitivity; [apply firstn_min|]; lia].
  1-4: apply frame_store; [lia|lia|destruct (Z.leb_spec 20 (length_arg size)); (etransitivity; [apply firstn_min|]; lia)].
  all: match goal with a : _ * list Z |- _ => destruct a as [? ?] end; context_cbn; buffer_lengths.
  - apply frame_store; [lia|lia|]. lia.
  - refine (frame_store_two m _ _ 32 l l0 _ _ _ _ _ _); lia.
  - apply frame_store; [lia|lia|]. lia.
Qed.
End Calls.
