(* ===== verification/HostCorrect.v ===== *)
(** What the environment interface guarantees: metering and memory safety of
    every call and of every run, and the functions of memory_api. *)
From Stdlib Require Import ZArith Bool Lia List.
From S2P Require Import Prelude Exceptions Memory Host HostProofs.
Import ListNotations.
Local Open Scope Z_scope.

Section Runs.
Context {W : Type} {C : Callbacks W} {L : CallbackLaws W}.
Abbreviation context := (@wasm_context W).

Lemma cost_nonneg (call : env_call) (c : context) : 0 <= cost call c.
Proof.
  assert (S : 0 <= size (act_data c)) by apply Zle_0_nat.
  destruct call; cbn [cost];
    try match goal with |- context [length_arg ?n] => pose proof (length_arg_bound n) end;
    try (destruct (_ =? _)); try lia. apply uwrap_bound. lia.
Qed.

(** The calls that charge nothing *)
Definition free (call : env_call) : bool :=
  match call with
  | E_abort | E_prints _ | E_prints_l _ _ | E_printi _ | E_printui _ | E_printsf _ | E_printdf _ | E_printqf _ | E_printn _
  | E_printhex _ _ => true
  | _ => false
  end.

Lemma prices (call : env_call) (c : context) : (free call = true -> cost call c = 0) /\
  (free call = false -> (forall g, call <> E_use_gas g) -> 100 <= cost call c).
Proof.
  assert (S : 0 <= size (act_data c)) by apply Zle_0_nat.
  destruct call; split; cbn [free cost]; try reflexivity; try discriminate; intros _ N;
    try match goal with |- context [length_arg ?n] => pose proof (length_arg_bound n) end;
    try (destruct (_ =? _)); try lia. now destruct (N gas).
Qed.

(** The cost of a call depends on its arguments and on the action data only. *)
Lemma cost_inputs (call : env_call) (c c' : context) : same_inputs c c' -> cost call c' = cost call c.
Proof. intros (D & _). destruct call; cbn [cost]; try reflexivity. now rewrite D. Qed.

Lemma same_inputs_trans (a b c : context) : same_inputs a b -> same_inputs b c -> same_inputs a c.
Proof. unfold same_inputs. intuition congruence. Qed.

Lemma same_inputs_refl (c : context) : same_inputs c c.
Proof. repeat split. Qed.

(** Validity is an invariant. *)
Lemma valid_step (c c' : context) (ws : list (Z * Z)) : valid c -> 0 <= remained_gas c' <= remained_gas c ->
  same_inputs c c' -> frame ws (memory c) (memory c') -> valid c'.
Proof.
  intros [Vg Vd Vf Vt Vo Vu Vp] G (Sd & Sf & St & So & Su & _) F.
  constructor; try lia; try congruence. intros m' M'. rewrite M' in F.
  destruct (memory c) as [m|]; [|contradiction]. destruct F as (N & _). rewrite N. now apply Vp.
Qed.

Lemma run_returns (call : env_call) (c c' : context) (r : Z) : valid c -> run call c = (Value r, c') ->
  returns call c r c' /\ valid c'.
Proof.
  intros V E. pose proof (run_spec call c V) as P. unfold wp in P. rewrite E in P. split; [exact P|].
  destruct P as (H1 & H2 & H3 & H4). pose proof (cost_nonneg call c).
  apply (valid_step c c' (writes call)); try assumption. lia.
Qed.

Lemma run_throws (call : env_call) (c c' : context) (e : exception) : valid c -> run call c = (Throw e, c') ->
  throws c e c' /\ valid c'.
Proof.
  intros V E. pose proof (run_spec call c V) as P. unfold wp in P. rewrite E in P. split; [exact P|].
  destruct P as (H1 & H2 & H3 & H4). apply (valid_step c c' []); try assumption. rewrite H3. apply frame_refl.
Qed.

Definition total_cost (calls : list env_call) (c : context) : Z :=
  fold_right (fun call n => cost call c + n) 0 calls.

Lemma total_cost_inputs (calls : list env_call) (c c' : context) : same_inputs c c' ->
  total_cost calls c' = total_cost calls c.
Proof. intros S. induction calls as [|x l IH]; [reflexivity|]. simpl. now rewrite IH, (cost_inputs x c c' S). Qed.

(** The calls of a contract that are made, as far as exceptions go: up to the first one that exits *)
Fixpoint performed (calls : list env_call) : list env_call :=
  match calls with
  | [] => []
  | call :: calls => if exits call then [call] else call :: performed calls
  end.

Definition returning (calls : list env_call) : list env_call := filter (fun call => negb (exits call)) (performed calls).

Lemma run_all_spec (calls : list env_call) : forall c : context, valid c ->
  match run_all calls c with
  | (Value rs, c') => length rs = length (returning calls) /\ remained_gas c' = remained_gas c - total_cost (performed calls) c /\
      total_cost (performed calls) c <= remained_gas c /\ same_inputs c c' /\ valid c'
  | (Throw _, c') => 0 <= remained_gas c' <= remained_gas c /\ same_inputs c c' /\ valid c'
  end.
Proof.
  induction calls as [|x l IH]; intros c V; cbn [run_all].
  - cbn. pose proof (valid_gas c V). split; [reflexivity|]. split; [lia|]. split; [lia|].
    split; [apply same_inputs_refl|exact V].
  - unfold hbind. destruct (run x c) as [[e|r] c1] eqn:E1.
    + destruct (run_throws x c c1 e V E1) as [(G & S & _) V1]. auto.
    + destruct (run_returns x c c1 r V E1) as [(G1 & G2 & S & _) V1].
      pose proof (IH c1 V1) as P. pose proof (cost_nonneg x c). unfold returning in *. cbn [performed].
      destruct (exits x) eqn:Ex; [cbn; rewrite Ex; cbn; split; [reflexivity|split; [lia|split; [lia|auto]]]|].
      destruct (run_all l c1) as [[e|rs] c2] eqn:E2.
      * destruct P as (P1 & P2 & P3). split; [lia|]. split; [|exact P3]. exact (same_inputs_trans c c1 c2 S P2).
      * destruct P as (P0 & P1 & P2 & P3 & P4). rewrite (total_cost_inputs (performed l) c c1 S) in *.
        cbn [hret total_cost fold_right length filter]. rewrite Ex. cbn [negb length]. fold (total_cost (performed l) c).
        split; [now f_equal|]. split; [lia|]. split; [lia|]. split; [|exact P4].
        exact (same_inputs_trans c c1 c2 S P3).
Qed.

(** C4. The intrinsics of the memory, action, system, context-free system, database, crypto and console
    APIs and use_gas, ftl_exit included, are memory safe and charge exactly their price, which is nothing for abort and the nine of the
    console and at least 100 for the others but use_gas: from a
    valid context, with callbacks that stay inside their buffers, a call that
    returns (or, for ftl_exit, leaves the contract) has charged exactly its cost, which the counter could pay, leaves
    the inputs of the action alone and has changed no byte of the memory
    outside the ranges it may write, all of them inside the memory; a call
    that throws has charged no more than was there and has neither changed the
    memory nor reached the embedder.  Either way the context stays valid. *)
Theorem env_calls_safe (call : env_call) (c : context) : valid c ->
  (forall r c', run call c = (Value r, c') ->
     cost call c <= remained_gas c /\ remained_gas c' = remained_gas c - cost call c /\
     same_inputs c c' /\ frame (writes call) (memory c) (memory c') /\ valid c') /\
  (forall e c', run call c = (Throw e, c') ->
     0 <= remained_gas c' <= remained_gas c /\ same_inputs c c' /\
     memory c' = memory c /\ world c' = world c /\ valid c') /\
  (free call = true -> cost call c = 0) /\
  (free call = false -> (forall g, call <> E_use_gas g) -> 100 <= cost call c).
Proof.
  intros V. split; [|split; [|exact (prices call c)]].
  - intros r c' E. destruct (run_returns call c c' r V E) as [(H1 & H2 & H3 & H4) V']. auto.
  - intros e c' E. destruct (run_throws call c c' e V E) as [(H1 & H2 & H3 & H4) V']. auto.
Qed.

(** C28. A run of any sequence of calls of the intrinsics of C4 spends exactly the sum of the costs of those that are
    made, which are those up to the first ftl_exit, itself included, if there is one (it ends the run, and charges 100); so the
    run completes only when the gas limit covers that sum, each call but ftl_exit has then returned a value, and the run stays within
    the limit when it is cut short by an exception. *)
Theorem contract_gas_bounded (calls : list env_call) (c : context) : valid c ->
  (forall rs c', run_all calls c = (Value rs, c') ->
     length rs = length (returning calls) /\ remained_gas c' = remained_gas c - total_cost (performed calls) c /\
     total_cost (performed calls) c <= remained_gas c /\ valid c') /\
  (forall e c', run_all calls c = (Throw e, c') -> 0 <= remained_gas c' <= remained_gas c /\ valid c') /\
  (remained_gas c < total_cost (performed calls) c -> exists e c', run_all calls c = (Throw e, c')).
Proof.
  intros V. pose proof (run_all_spec calls c V) as P.
  destruct (run_all calls c) as [[e|rs] c'] eqn:E; (split; [|split]).
  - discriminate.
  - intros e' c'' H. injection H as <- <-. tauto.
  - eauto.
  - intros rs' c'' H. injection H as <- <-. tauto.
  - discriminate.
  - lia.
Qed.

(** ** memory_api *)
Definition fits (m : MemoryInstance) (p n : Z) : Prop :=
  u32 p < memory_bytes m /\ u32 p + length_arg n <= memory_bytes m.

Lemma array_fits (c : context) (m : MemoryInstance) (p n : Z) : memory c = Some m -> fits m p n ->
  array_arg p n c = (Value (u32 p), c).
Proof.
  intros M [H1 H2]. unfold array_arg, array_ptr_impl. rewrite M, Z.div_1_r.
  destruct (Z.leb_spec (memory_bytes m) (u32 p)); [lia|].
  destruct (Z.ltb_spec (memory_bytes m - u32 p) (length_arg n)); [lia|]. reflexivity.
Qed.

Lemma array_misfit (c : context) (m : MemoryInstance) (p n : Z) : memory c = Some m -> ~ fits m p n ->
  array_arg p n c = (Throw accessViolation, c).
Proof.
  intros M H. unfold fits in H. unfold array_arg, array_ptr_impl. rewrite M, Z.div_1_r.
  destruct (Z.leb_spec (memory_bytes m) (u32 p)); [reflexivity|].
  destruct (Z.ltb_spec (memory_bytes m - u32 p) (length_arg n)); [reflexivity|]. exfalso. apply H. lia.
Qed.

Lemma array_throws (c : context) (p n : Z) :
  array_arg p n c = (Throw accessViolation, c) \/ array_arg p n c = (Value (u32 p), c).
Proof.
  unfold array_arg, array_ptr_impl. destruct (memory c); [|auto]. destruct (_ || _); auto.
Qed.

Lemma gas_covers (c : context) (n : Z) : valid c -> 0 <= n <= 2 ^ 32 -> 100 + 3 * n <= remained_gas c ->
  use_gas (memory_gas n) c = (Value tt, with_gas (remained_gas c - (100 + 3 * n)) c).
Proof.
  intros V Hn H. pose proof (valid_gas c V). unfold use_gas, memory_gas, GAS_CALL_BASE, GAS_MEMOP_BYTE.
  rewrite gas_price, (uwrap_small 64) by lia. destruct (Z.ltb_spec (remained_gas c) (100 + 3 * n)); [lia|].
  rewrite uwrap_small by lia. reflexivity.
Qed.

Lemma pointer_inside (c : context) (m : MemoryInstance) (p : Z) : memory c = Some m -> 0 <= p < memory_bytes m ->
  memory_bytes m <= 2 ^ 32 -> convert_pointer p c = (Value p, c).
Proof.
  intros M Hp Hb. unfold convert_pointer. rewrite M. destruct (Z.ltb_spec p 0); [lia|].
  destruct (Z.leb_spec (memory_bytes m) p); [lia|]. simpl. now rewrite uwrap_small by lia.
Qed.

(** The bytes of [m'] are those of [m] with [n] of them at [d] taken from [s]. *)
Definition copied (m m' : MemoryInstance) (d s n : Z) : Prop :=
  numPages m' = numPages m /\
  forall i, contents m' i = if within d n i then contents m (s + (i - d)) else contents m i.

(** Charging, updating the memory and returning the destination. *)
Lemma charged_update (c : context) (m : MemoryInstance) (d n : Z) (f : bytes -> bytes) :
  valid c -> memory c = Some m -> fits m d n -> 100 + 3 * length_arg n <= remained_gas c ->
  exists c', hbind (hbind (use_gas (memory_gas (length_arg n))) (fun _ => hbind (update f) (fun _ => hret (u32 d)))) convert_pointer c
               = (Value (u32 d), c') /\ memory c' = Some (set_pages m (numPages m) (f (contents m))).
Proof.
  intros V M [F1 F2] G. pose proof (valid_memory c m V M) as B. pose proof (length_arg_bound n) as Hn.
  pose proof (uwrap_bound 32 d ltac:(lia)) as Hd.
  unfold hbind. rewrite (gas_covers c (length_arg n) V ltac:(lia) G).
  unfold update. cbn [memory with_gas]. rewrite M. unfold hret.
  rewrite (pointer_inside _ (set_pages m (numPages m) (f (contents m)))); [|reflexivity|split; [lia|exact F1]|apply B].
  eexists. split; reflexivity.
Qed.

Section Memory_api.
Context (c : context) (m : MemoryInstance) (d s n : Z) (V : valid c) (M : memory c = Some m).
Context (G : 100 + 3 * length_arg n <= remained_gas c) (Fd : fits m d n) (Fs : fits m s n).

Lemma memcpy_disjoint : length_arg n <= Z.abs (u32 d - u32 s) ->
  exists m' c', hbind (memcpy (u32 d) (u32 s) (length_arg n)) convert_pointer c = (Value (u32 d), c') /\
    memory c' = Some m' /\ copied m m' (u32 d) (u32 s) (length_arg n).
Proof.
  intros A. apply Z.leb_le in A as Ab. pose proof (length_arg_bound n) as Hn.
  destruct (charged_update c m d n (fun b => memcpy_bytes b (u32 d) (u32 s) (Z.to_nat (length_arg n))) V M Fd G)
    as (c' & E & M').
  eexists; exists c'. split; [|split; [exact M'|]].
  - rewrite <- E. unfold memcpy, hbind. destruct (use_gas _ c) as [[e|[]] c1]; [reflexivity|].
    unfold host_assert. rewrite Ab. reflexivity.
  - split; [reflexivity|]. intros i. cbn [contents set_pages]. rewrite memcpy_value by lia.
    now rewrite Z2Nat.id by lia.
Qed.

Lemma memcpy_overlap : Z.abs (u32 d - u32 s) < length_arg n ->
  exists c', hbind (memcpy (u32 d) (u32 s) (length_arg n)) convert_pointer c = (Throw overlapping_memory_error, c') /\
    memory c' = Some m.
Proof.
  intros A. pose proof (valid_memory c m V M) as B. pose proof (length_arg_bound n) as Hn.
  pose proof (uwrap_bound 32 d ltac:(lia)) as Hd. destruct Fd as [F1 F2].
  unfold memcpy, hbind. rewrite (gas_covers c (length_arg n) V ltac:(lia) G). unfold host_assert.
  destruct (Z.leb_spec (length_arg n) (Z.abs (u32 d - u32 s))); [lia|]. unfold hthrow. eauto.
Qed.

Lemma memmove_copies :
  exists m' c', hbind (memmove (u32 d) (u32 s) (length_arg n)) convert_pointer c = (Value (u32 d), c') /\
    memory c' = Some m' /\ copied m m' (u32 d) (u32 s) (length_arg n).
Proof.
  pose proof (length_arg_bound n) as Hn.
  destruct (charged_update c m d n (fun b => memmove_bytes b (u32 d) (u32 s) (length_arg n)) V M Fd G) as (c' & E & M').
  eexists; exists c'. split; [exact E|]. split; [exact M'|]. split; [reflexivity|].
  intros i. cbn [contents set_pages]. now rewrite memmove_value by lia.
Qed.

Lemma memset_fills (v : Z) :
  exists m' c', hbind (memset (u32 d) (i32 v) (length_arg n)) convert_pointer c = (Value (u32 d), c') /\
    memory c' = Some m' /\ numPages m' = numPages m /\
    forall i, contents m' i = if within (u32 d) (length_arg n) i then u8 (i32 v) else contents m i.
Proof.
  destruct (charged_update c m d n (fun b => memset_bytes b (u32 d) (i32 v) (length_arg n)) V M Fd G) as (c' & E & M').
  eexists; exists c'. split; [exact E|]. split; [exact M'|]. split; [reflexivity|]. intros i. reflexivity.
Qed.

Lemma memcmp_compares :
  exists r c', memcmp (u32 d) (u32 s) (length_arg n) c = (Value r, c') /\ memory c' = Some m /\
    ((r = 0 /\ forall k, 0 <= k < length_arg n -> contents m (u32 d + k) = contents m (u32 s + k)) \/
     (exists k, 0 <= k < length_arg n /\
        (forall j, 0 <= j < k -> contents m (u32 d + j) = contents m (u32 s + j)) /\
        (r = -1 /\ contents m (u32 d + k) < contents m (u32 s + k) \/
         r = 1 /\ contents m (u32 s + k) < contents m (u32 d + k)))).
Proof.
  pose proof (valid_memory c m V M) as B. pose proof (length_arg_bound n) as Hn.
  pose proof (uwrap_bound 32 d ltac:(lia)) as Hd. destruct Fd as [F1 F2].
  unfold memcmp, hbind. rewrite (gas_covers c (length_arg n) V ltac:(lia) G). unfold hget, hret.
  cbn [memory with_gas]. rewrite M. eexists; eexists. split; [reflexivity|]. split; [exact M|].
  destruct (memcmp_value (Z.to_nat (length_arg n)) (contents m) (u32 d) (u32 s))
    as [[-> A]|(k & Hk & D & -> & A)]; rewrite Z2Nat.id in * by lia; [left; auto|right].
  exists k. split; [exact Hk|]. split; [exact A|].
  destruct (Z.ltb_spec (contents m (u32 d + k) - contents m (u32 s + k)) 0); [left; split; [reflexivity|lia]|].
  destruct (Z.ltb_spec 0 (contents m (u32 d + k) - contents m (u32 s + k))); [right; split; [reflexivity|lia]|lia].
Qed.
End Memory_api.

(** C29. memory_api on a valid context whose counter covers the price.  With
    both ranges inside the memory: memcpy copies the source bytes when the
    ranges do not overlap and throws overlapping_memory_error otherwise;
    memmove copies them in every case; memset fills the destination with the
    low byte of the value; memcmp returns 0 when the ranges are equal and else
    -1 or 1 as the first differing byte is smaller or larger.  With a range
    outside the memory (or a negative length) each of them is an access
    violation and nothing changes, the gas included. *)
Theorem memory_api_correct (c : context) (m : MemoryInstance) (d s n : Z) :
  valid c -> memory c = Some m -> 100 + 3 * length_arg n <= remained_gas c ->
  (fits m d n -> fits m s n ->
     (length_arg n <= Z.abs (u32 d - u32 s) -> exists m' c', run (E_memcpy d s n) c = (Value (u32 d), c') /\
        memory c' = Some m' /\ copied m m' (u32 d) (u32 s) (length_arg n)) /\
     (Z.abs (u32 d - u32 s) < length_arg n -> exists c', run (E_memcpy d s n) c = (Throw overlapping_memory_error, c') /\
        memory c' = Some m) /\
     (exists m' c', run (E_memmove d s n) c = (Value (u32 d), c') /\ memory c' = Some m' /\
        copied m m' (u32 d) (u32 s) (length_arg n)) /\
     (exists r c', run (E_memcmp d s n) c = (Value r, c') /\ memory c' = Some m /\
        ((r = 0 /\ forall k, 0 <= k < length_arg n -> contents m (u32 d + k) = contents m (u32 s + k)) \/
         (exists k, 0 <= k < length_arg n /\
            (forall j, 0 <= j < k -> contents m (u32 d + j) = contents m (u32 s + j)) /\
            (r = -1 /\ contents m (u32 d + k) < contents m (u32 s + k) \/
             r = 1 /\ contents m (u32 s + k) < contents m (u32 d + k)))))) /\
  (fits m d n -> forall v, exists m' c', run (E_memset d v n) c = (Value (u32 d), c') /\ memory c' = Some m' /\
     numPages m' = numPages m /\
     forall i, contents m' i = if within (u32 d) (length_arg n) i then u8 (i32 v) else contents m i) /\
  (~ fits m d n \/ ~ fits m s n ->
     run (E_memcpy d s n) c = (Throw accessViolation, c) /\ run (E_memmove d s n) c = (Throw accessViolation, c) /\
     run (E_memcmp d s n) c = (Throw accessViolation, c)) /\
  (~ fits m d n -> forall v, run (E_memset d v n) c = (Throw accessViolation, c)).
Proof.
  intros V M G. split; [|split; [|split]].
  - intros Fd Fs. split; [|split; [|split]]; intros; cbn [run]; unfold hbind at 1 2;
      rewrite (array_fits c m d n M Fd), (array_fits c m s n M Fs).
    + now apply memcpy_disjoint.
    + eapply memcpy_overlap; eassumption.
    + now apply memmove_copies.
    + now apply memcmp_compares.
  - intros Fd v. cbn [run]. unfold hbind at 1. rewrite (array_fits c m d n M Fd). now apply memset_fills.
  - intros F. cbn [run]. unfold hbind. destruct (array_throws c d n) as [E|E]; [rewrite !E; auto|].
    rewrite !E. destruct F as [F|F]; [rewrite (array_misfit c m d n M F) in E; discriminate|].
    rewrite !(array_misfit c m s n M F). auto.
  - intros F v. cbn [run]. unfold hbind. now rewrite (array_misfit c m d n M F).
Qed.
End Runs.

(** ** A concrete embedder: a key-value store that answers the database calls
    and ignores the others. *)
Definition store := list (list Z * list Z).

Fixpoint bytes_eqb (a b : list Z) : bool :=
  match a, b with
  | [], [] => true
  | x :: a, y :: b => (x =? y) && bytes_eqb a b
  | _, _ => false
  end.

Fixpoint find (key : list Z) (w : store) : option (list Z) :=
  match w with
  | [] => None
  | (k, v) :: w => if bytes_eqb k key then Some v else find key w
  end.

Definition fill (buf v : list Z) : list Z := firstn (length buf) v ++ skipn (length v) buf.

#[export] Instance store_callbacks : Callbacks store := {
  cb_store _ _ key value w := (key, value) :: w;
  cb_load _ _ key buf w := match find key w with Some v => (size v, fill buf v, w) | None => (-1, buf, w) end;
  cb_has_key _ _ key w := (match find key w with Some _ => 1 | None => 0 end, w);
  cb_remove_key _ _ key w := filter (fun kv => negb (bytes_eqb (fst kv) key)) w;
  cb_has_table _ _ w := (1, w);
  cb_remove_table _ _ w := [];
  cb_current_time _ w := (0, w);
  cb_current_height _ w := (0, w);
  cb_current_hash _ a b w := (a, b, w);
  cb_add_log _ _ _ _ w := w;
  cb_transfer _ _ _ w := w;
  cb_call_action _ _ _ _ _ _ w := (0, w);
  cb_call_result _ buf w := (0, buf, w);
  cb_set_result _ _ w := (0, w)
}.

Lemma fill_length (buf v : list Z) : length (fill buf v) = length buf.
Proof. unfold fill. rewrite length_app, length_firstn, length_skipn. lia. Qed.

#[export] Instance store_laws : CallbackLaws store.
Proof.
  constructor; intros; cbn in *.
  - destruct (find key w); injection H as <- <- <-; [apply fill_length|reflexivity].
  - injection H as <- <- <-. auto.
  - injection H as <- <- <-. reflexivity.
Qed.

(** One page holding the bytes of their addresses, and two million gas. *)
Definition sample : @wasm_context store :=
  let address := repeat 7 20 in
  Context [1; 2; 3] address address address address 0 0 3000000 (Some (Memory 1 1 4 (fun i => i mod 256))) [] [].

Lemma sample_valid : valid sample.
Proof.
  constructor; try reflexivity; [split; (discriminate || reflexivity)|].
  intros m H. injection H as <-. split; discriminate.
Qed.

Lemma env_calls_safe_witness :
  let after := snd (run (E_memcpy 100 0 4) sample) in
  remained_gas after = 3000000 - 112 /\ frame [(100, 4)] (memory sample) (memory after) /\
  let failed := snd (run (E_memcpy 2 0 4) sample) in memory failed = memory sample /\ world failed = world sample.
Proof.
  destruct (proj1 (env_calls_safe (E_memcpy 100 0 4) sample sample_valid) 100 (snd (run (E_memcpy 100 0 4) sample)) eq_refl)
    as (_ & G & _ & F & _).
  destruct (proj1 (proj2 (env_calls_safe (E_memcpy 2 0 4) sample sample_valid)) overlapping_memory_error
    (snd (run (E_memcpy 2 0 4) sample)) eq_refl) as (_ & _ & M & N & _).
  split; [exact G|]. split; [exact F|]. split; [exact M|exact N].
Defined.

(** What follows an ftl_exit is not run, and not paid. *)
Lemma contract_gas_bounded_witness :
  remained_gas (snd (run_all [E_db_store 1 0 2 8 3; E_printi 5; E_db_has_key 1 0 2; E_memset 0 9 4; E_ftl_exit 7; E_db_remove_table 1] sample))
    = 3000000 - 1800212 /\
  exists e c', run_all [E_db_store 1 0 2 8 3; E_db_load 1 0 2 8 9] sample = (Throw e, c').
Proof.
  split.
  - pose (calls := [E_db_store 1 0 2 8 3; E_printi 5; E_db_has_key 1 0 2; E_memset 0 9 4; E_ftl_exit 7; E_db_remove_table 1]).
    destruct (contract_gas_bounded calls sample sample_valid) as (A & _).
    assert (E : fst (run_all calls sample) = Value [0; 0; 1; 0]) by (vm_compute; reflexivity). fold calls.
    destruct (run_all calls sample) as [r c']. cbn [fst] in E. subst r.
    destruct (A _ _ eq_refl) as (_ & G & _). cbn [snd]. rewrite G. vm_compute. reflexivity.
  - apply (contract_gas_bounded [E_db_store 1 0 2 8 3; E_db_load 1 0 2 8 9] sample sample_valid).
    vm_compute. reflexivity.
Defined.

Lemma memory_api_correct_witness :
  let m := Memory 1 1 4 (fun i => i mod 256) in
  (exists m' c', run (E_memmove 2 0 4) sample = (Value 2, c') /\ memory c' = Some m' /\ copied m m' 2 0 4) /\
  run (E_memcpy 65533 0 4) sample = (Throw accessViolation, sample).
Proof.
  cbv zeta. split.
  - destruct (memory_api_correct sample (Memory 1 1 4 (fun i => i mod 256)) 2 0 4 sample_valid eq_refl) as (A & _);
      [discriminate|].
    destruct A as (_ & _ & A & _); [split; (reflexivity || discriminate)|split; (reflexivity || discriminate)|exact A].
  - destruct (memory_api_correct sample (Memory 1 1 4 (fun i => i mod 256)) 65533 0 4 sample_valid eq_refl)
      as (_ & _ & A & _); [discriminate|].
    refine (proj1 (A _)). left. intros [_ H]. exact (H eq_refl).
Defined.
