(* ===== verification/CompilerBuiltins.v ===== *)
(** The intrinsics of compiler_builtins (wasm_interface.cpp): 128-bit integers,
    arithmetic, comparison and conversion of long doubles, and their registration.  They run
    on the host state of [Host], with the state of SoftFloat next to that of the
    embedder; a result of 16 bytes goes through a reference into the memory.  What C++ leaves undefined is a parameter, [Undefined] in [Builtins]. *)
From Stdlib Require Import ZArith Bool Lia List.
From S2P Require Import Prelude Exceptions Memory Host Softfloat FromInt Builtins F128 F128Ops.
Import ListNotations.
Local Open Scope Z_scope.
Local Open Scope c_scope.

(** [lhs = ha; lhs <<= 64; lhs |= la], signed and unsigned *)
Definition int128_of (l h : Z) : Z := i128 (i128 (h << 64) .| l).
Definition uint128_of (l h : Z) : Z := u128 (h << 64) .| l.

(** The bytes of an object of [n] bytes, the low one first *)
Fixpoint object_bytes (n : nat) (z : Z) : list Z :=
  match n with
  | O => []
  | S n => u8 z :: object_bytes n (z >> 8)
  end.

Section Builtins.
Context {W : Type} {U : Undefined}.
Abbreviation H A := (@Host (W * env) A).

Local Notation "'let!' x := m 'in' k" := (hbind m (fun x => k))
  (at level 10, x name, m at level 100, k at level 200).
Local Notation "m ;! k" := (hbind m (fun _ => k)) (at level 95, right associativity).

(** A function of SoftFloat, on its global state *)
Definition softfloat {A} (m : M A) : H A := callback (fun w => let (a, s) := m (snd w) in (a, (fst w, s))).

(** Assignment through a reference to a 16-byte object *)
Definition assign (ret z : Z) : H unit := write ret (object_bytes 16 z).
Definition assign_float128 (ret : Z) (f : float128_t) : H unit :=
  write ret (object_bytes 8 (fp128.v0 f) ++ object_bytes 8 (fp128.v1 f)).
(** [float128_t f = {{l, h}}] *)
Definition float128_of (l h : Z) : float128_t := {| fp128.v0 := l; fp128.v1 := h |}.

(** ** 128-bit integers *)
Definition __ashlti3 (ret low high shift : Z) : H unit :=
  use_gas GAS_CALL_BASE ;! let i := (high >> 64) .| low in assign ret (shl_u128 i shift).
Definition __ashrti3 (ret low high shift : Z) : H unit :=
  use_gas GAS_CALL_BASE ;! assign ret (shr_i128 (int128_of low high) shift).
Definition __lshlti3 (ret low high shift : Z) : H unit :=
  use_gas GAS_CALL_BASE ;! let i := (high >> 64) .| low in assign ret (shl_u128 i shift).
Definition __lshrti3 (ret low high shift : Z) : H unit :=
  use_gas GAS_CALL_BASE ;! let i := (high >> 64) .| low in assign ret (shr_u128 i shift).

Definition __divti3 (ret la ha lb hb : Z) : H unit :=
  use_gas GAS_CALL_BASE ;!
  let lhs := int128_of la ha in
  let rhs := int128_of lb hb in
  host_assert (negb (rhs =? 0)) arithmetic_exception ;! assign ret (div_i128 lhs rhs).
Definition __udivti3 (ret la ha lb hb : Z) : H unit :=
  use_gas GAS_CALL_BASE ;!
  let lhs := uint128_of la ha in
  let rhs := uint128_of lb hb in
  host_assert (negb (rhs =? 0)) arithmetic_exception ;! assign ret (lhs / rhs).
Definition __multi3 (ret la ha lb hb : Z) : H unit :=
  use_gas GAS_CALL_BASE ;!
  let lhs := int128_of la ha in
  let rhs := int128_of lb hb in
  assign ret (mul_i128 lhs rhs).
Definition __modti3 (ret la ha lb hb : Z) : H unit :=
  use_gas GAS_CALL_BASE ;!
  let lhs := int128_of la ha in
  let rhs := int128_of lb hb in
  host_assert (negb (rhs =? 0)) arithmetic_exception ;! assign ret (rem_i128 lhs rhs).
Definition __umodti3 (ret la ha lb hb : Z) : H unit :=
  use_gas GAS_CALL_BASE ;!
  let lhs := uint128_of la ha in
  let rhs := uint128_of lb hb in
  host_assert (negb (rhs =? 0)) arithmetic_exception ;! assign ret (lhs mod rhs).

(** ** Long doubles *)
Definition __addtf3 (ret la ha lb hb : Z) : H unit :=
  use_gas GAS_CALL_BASE ;!
  let a := float128_of la ha in
  let b := float128_of lb hb in
  let! r := softfloat (f128_add a b) in assign_float128 ret r.
Definition __subtf3 (ret la ha lb hb : Z) : H unit :=
  use_gas GAS_CALL_BASE ;!
  let a := float128_of la ha in
  let b := float128_of lb hb in
  let! r := softfloat (f128_sub a b) in assign_float128 ret r.
Definition __multf3 (ret la ha lb hb : Z) : H unit :=
  use_gas GAS_CALL_BASE ;!
  let a := float128_of la ha in
  let b := float128_of lb hb in
  let! r := softfloat (f128_mul a b) in assign_float128 ret r.
Definition __divtf3 (ret la ha lb hb : Z) : H unit :=
  use_gas GAS_CALL_BASE ;!
  let a := float128_of la ha in
  let b := float128_of lb hb in
  let! r := softfloat (f128_div a b) in assign_float128 ret r.
Definition __negtf2 (ret la ha : Z) : H unit :=
  use_gas GAS_CALL_BASE ;! assign_float128 ret (float128_of la (ha .^ u64 (1 << 63))).

Definition __extendsftf2 (ret f : Z) : H unit :=
  use_gas GAS_CALL_BASE ;! let! r := softfloat (f32_to_f128 f) in assign_float128 ret r.
Definition __extenddftf2 (ret d : Z) : H unit :=
  use_gas GAS_CALL_BASE ;! let! r := softfloat (f64_to_f128 d) in assign_float128 ret r.
Definition __trunctfdf2 (l h : Z) : H Z :=
  use_gas GAS_CALL_BASE ;! softfloat (f128_to_f64 (float128_of l h)).
Definition __trunctfsf2 (l h : Z) : H Z :=
  use_gas GAS_CALL_BASE ;! softfloat (f128_to_f32 (float128_of l h)).

Definition __fixtfsi (l h : Z) : H Z := use_gas GAS_CALL_BASE ;! softfloat (f128_to_i32 (float128_of l h) 0 false).
Definition __fixtfdi (l h : Z) : H Z := use_gas GAS_CALL_BASE ;! softfloat (f128_to_i64 (float128_of l h) 0 false).
Definition __fixtfti (ret l h : Z) : H unit := use_gas GAS_CALL_BASE ;! assign ret (___fixtfti (float128_of l h)).
Definition __fixunstfsi (l h : Z) : H Z := use_gas GAS_CALL_BASE ;! softfloat (f128_to_ui32 (float128_of l h) 0 false).
Definition __fixunstfdi (l h : Z) : H Z := use_gas GAS_CALL_BASE ;! softfloat (f128_to_ui64 (float128_of l h) 0 false).
Definition __fixunstfti (ret l h : Z) : H unit := use_gas GAS_CALL_BASE ;! assign ret (___fixunstfti (float128_of l h)).

Definition __fixsfti (ret a : Z) : H unit := use_gas GAS_CALL_BASE ;! assign ret (___fixsfti a).
Definition __fixdfti (ret a : Z) : H unit := use_gas GAS_CALL_BASE ;! assign ret (___fixdfti a).
Definition __fixunssfti (ret a : Z) : H unit := use_gas GAS_CALL_BASE ;! assign ret (___fixunssfti a).
Definition __fixunsdfti (ret a : Z) : H unit := use_gas GAS_CALL_BASE ;! assign ret (___fixunsdfti a).

Definition __floatsidf (i : Z) : H Z := use_gas GAS_CALL_BASE ;! softfloat (i32_to_f64 i).
Definition __floatsitf (ret i : Z) : H unit :=
  use_gas GAS_CALL_BASE ;! let! r := softfloat (i32_to_f128 i) in assign_float128 ret r.
Definition __floatditf (ret a : Z) : H unit :=
  use_gas GAS_CALL_BASE ;! let! r := softfloat (i64_to_f128 (i64 a)) in assign_float128 ret r.
Definition __floatunsitf (ret i : Z) : H unit :=
  use_gas GAS_CALL_BASE ;! let! r := softfloat (ui32_to_f128 i) in assign_float128 ret r.
Definition __floatunditf (ret a : Z) : H unit :=
  use_gas GAS_CALL_BASE ;! let! r := softfloat (ui64_to_f128 a) in assign_float128 ret r.
Definition __floattidf (l h : Z) : H Z :=
  use_gas GAS_CALL_BASE ;! let i := (h >> 64) .| l in hret (___floattidf (i128 i)).
Definition __floatuntidf (l h : Z) : H Z :=
  use_gas GAS_CALL_BASE ;! let i := (h >> 64) .| l in hret (___floatuntidf i).

(** *** Comparisons *)
Definition __unordtf2 (la ha lb hb : Z) : H Z :=
  use_gas GAS_CALL_BASE ;!
  let a := float128_of la ha in
  let b := float128_of lb hb in
  if f128_is_nan a || f128_is_nan b then hret 1 else hret 0.

Definition ___cmptf2 (la ha lb hb return_value_if_nan : Z) : H Z :=
  use_gas GAS_CALL_BASE ;!
  let a := float128_of la ha in
  let b := float128_of lb hb in
  let! unordered := __unordtf2 la ha lb hb in
  if z2b unordered then hret return_value_if_nan
  else
    let! lt := softfloat (f128_lt a b) in
    if lt : bool then hret (-1)
    else let! eq := softfloat (f128_eq a b) in if eq : bool then hret 0 else hret 1.

Definition __eqtf2 (la ha lb hb : Z) : H Z := use_gas GAS_CALL_BASE ;! ___cmptf2 la ha lb hb 1.
Definition __netf2 (la ha lb hb : Z) : H Z := use_gas GAS_CALL_BASE ;! ___cmptf2 la ha lb hb 1.
Definition __getf2 (la ha lb hb : Z) : H Z := use_gas GAS_CALL_BASE ;! ___cmptf2 la ha lb hb (-1).
Definition __gttf2 (la ha lb hb : Z) : H Z := use_gas GAS_CALL_BASE ;! ___cmptf2 la ha lb hb 0.
Definition __letf2 (la ha lb hb : Z) : H Z := use_gas GAS_CALL_BASE ;! ___cmptf2 la ha lb hb 1.
Definition __lttf2 (la ha lb hb : Z) : H Z := use_gas GAS_CALL_BASE ;! ___cmptf2 la ha lb hb 0.
Definition __cmptf2 (la ha lb hb : Z) : H Z := use_gas GAS_CALL_BASE ;! ___cmptf2 la ha lb hb 1.

(** ** The registered intrinsics, on wasm values
    As in [Host]: I32 and I64 arguments, floats as their bits, a reference
    transcribed first (the others cannot fail), 0 for the result of a void one. *)
Inductive builtin_call : Type :=
  | B_ashlti3 (ret low high shift : Z)
  | B_ashrti3 (ret low high shift : Z)
  | B_lshlti3 (ret low high shift : Z)
  | B_lshrti3 (ret low high shift : Z)
  | B_divti3 (ret la ha lb hb : Z)
  | B_udivti3 (ret la ha lb hb : Z)
  | B_modti3 (ret la ha lb hb : Z)
  | B_umodti3 (ret la ha lb hb : Z)
  | B_multi3 (ret la ha lb hb : Z)
  | B_addtf3 (ret la ha lb hb : Z)
  | B_subtf3 (ret la ha lb hb : Z)
  | B_multf3 (ret la ha lb hb : Z)
  | B_divtf3 (ret la ha lb hb : Z)
  | B_eqtf2 (la ha lb hb : Z)
  | B_netf2 (la ha lb hb : Z)
  | B_getf2 (la ha lb hb : Z)
  | B_gttf2 (la ha lb hb : Z)
  | B_lttf2 (la ha lb hb : Z)
  | B_letf2 (la ha lb hb : Z)
  | B_cmptf2 (la ha lb hb : Z)
  | B_unordtf2 (la ha lb hb : Z)
  | B_negtf2 (ret la ha : Z)
  | B_floatsitf (ret i : Z)
  | B_floatunsitf (ret i : Z)
  | B_floatditf (ret a : Z)
  | B_floatunditf (ret a : Z)
  | B_floattidf (l h : Z)
  | B_floatuntidf (l h : Z)
  | B_floatsidf (i : Z)
  | B_extendsftf2 (ret f : Z)
  | B_extenddftf2 (ret d : Z)
  | B_fixtfti (ret l h : Z)
  | B_fixtfdi (l h : Z)
  | B_fixtfsi (l h : Z)
  | B_fixunstfti (ret l h : Z)
  | B_fixunstfdi (l h : Z)
  | B_fixunstfsi (l h : Z)
  | B_fixsfti (ret a : Z)
  | B_fixdfti (ret a : Z)
  | B_fixunssfti (ret a : Z)
  | B_fixunsdfti (ret a : Z)
  | B_trunctfdf2 (l h : Z)
  | B_trunctfsf2 (l h : Z).

Definition sizeof_int128 : Z := 16.
Definition into (ret : Z) (k : Z -> H unit) : H Z :=
  let! p := reference_impl sizeof_int128 (u32 ret) in void (k p).

Definition run_builtin (call : builtin_call) : H Z :=
  match call with
  | B_ashlti3 ret low high shift => into ret (fun p => __ashlti3 p (u64 low) (u64 high) (u32 shift))
  | B_ashrti3 ret low high shift => into ret (fun p => __ashrti3 p (u64 low) (u64 high) (u32 shift))
  | B_lshlti3 ret low high shift => into ret (fun p => __lshlti3 p (u64 low) (u64 high) (u32 shift))
  | B_lshrti3 ret low high shift => into ret (fun p => __lshrti3 p (u64 low) (u64 high) (u32 shift))
  | B_divti3 ret la ha lb hb => into ret (fun p => __divti3 p (u64 la) (u64 ha) (u64 lb) (u64 hb))
  | B_udivti3 ret la ha lb hb => into ret (fun p => __udivti3 p (u64 la) (u64 ha) (u64 lb) (u64 hb))
  | B_modti3 ret la ha lb hb => into ret (fun p => __modti3 p (u64 la) (u64 ha) (u64 lb) (u64 hb))
  | B_umodti3 ret la ha lb hb => into ret (fun p => __umodti3 p (u64 la) (u64 ha) (u64 lb) (u64 hb))
  | B_multi3 ret la ha lb hb => into ret (fun p => __multi3 p (u64 la) (u64 ha) (u64 lb) (u64 hb))
  | B_addtf3 ret la ha lb hb => into ret (fun p => __addtf3 p (u64 la) (u64 ha) (u64 lb) (u64 hb))
  | B_subtf3 ret la ha lb hb => into ret (fun p => __subtf3 p (u64 la) (u64 ha) (u64 lb) (u64 hb))
  | B_multf3 ret la ha lb hb => into ret (fun p => __multf3 p (u64 la) (u64 ha) (u64 lb) (u64 hb))
  | B_divtf3 ret la ha lb hb => into ret (fun p => __divtf3 p (u64 la) (u64 ha) (u64 lb) (u64 hb))
  | B_eqtf2 la ha lb hb => __eqtf2 (u64 la) (u64 ha) (u64 lb) (u64 hb)
  | B_netf2 la ha lb hb => __netf2 (u64 la) (u64 ha) (u64 lb) (u64 hb)
  | B_getf2 la ha lb hb => __getf2 (u64 la) (u64 ha) (u64 lb) (u64 hb)
  | B_gttf2 la ha lb hb => __gttf2 (u64 la) (u64 ha) (u64 lb) (u64 hb)
  | B_lttf2 la ha lb hb => __lttf2 (u64 la) (u64 ha) (u64 lb) (u64 hb)
  | B_letf2 la ha lb hb => __letf2 (u64 la) (u64 ha) (u64 lb) (u64 hb)
  | B_cmptf2 la ha lb hb => __cmptf2 (u64 la) (u64 ha) (u64 lb) (u64 hb)
  | B_unordtf2 la ha lb hb => __unordtf2 (u64 la) (u64 ha) (u64 lb) (u64 hb)
  | B_negtf2 ret la ha => into ret (fun p => __negtf2 p (u64 la) (u64 ha))
  | B_floatsitf ret i => into ret (fun p => __floatsitf p (i32 i))
  | B_floatunsitf ret i => into ret (fun p => __floatunsitf p (u32 i))
  | B_floatditf ret a => into ret (fun p => __floatditf p (u64 a))
  | B_floatunditf ret a => into ret (fun p => __floatunditf p (u64 a))
  | B_floattidf l h => __floattidf (u64 l) (u64 h)
  | B_floatuntidf l h => __floatuntidf (u64 l) (u64 h)
  | B_floatsidf i => __floatsidf (i32 i)
  | B_extendsftf2 ret f => into ret (fun p => __extendsftf2 p f)
  | B_extenddftf2 ret d => into ret (fun p => __extenddftf2 p d)
  | B_fixtfti ret l h => into ret (fun p => __fixtfti p (u64 l) (u64 h))
  | B_fixtfdi l h => __fixtfdi (u64 l) (u64 h)
  | B_fixtfsi l h => __fixtfsi (u64 l) (u64 h)
  | B_fixunstfti ret l h => into ret (fun p => __fixunstfti p (u64 l) (u64 h))
  | B_fixunstfdi l h => let! r := __fixunstfdi (u64 l) (u64 h) in hret (i64 r)
  | B_fixunstfsi l h => let! r := __fixunstfsi (u64 l) (u64 h) in hret (i32 r)
  | B_fixsfti ret a => into ret (fun p => __fixsfti p a)
  | B_fixdfti ret a => into ret (fun p => __fixdfti p a)
  | B_fixunssfti ret a => into ret (fun p => __fixunssfti p a)
  | B_fixunsdfti ret a => into ret (fun p => __fixunsdfti p a)
  | B_trunctfdf2 l h => __trunctfdf2 (u64 l) (u64 h)
  | B_trunctfsf2 l h => __trunctfsf2 (u64 l) (u64 h)
  end.
End Builtins.
