(* ===== verification/CompilerBuiltinsProofs.v ===== *)
(** compiler_builtins: every call is metered and memory safe, and the values
    of the 128-bit integer operations, of the comparisons and of the
    conversions of long doubles. *)
From S2P Require Import Prelude Exceptions Memory Host.
From Stdlib Require Import ZArith Bool Lia List Reals Lra.
From S2P Require Import Ieee Softfloat Contract Memory Host HostProofs HostCorrect.
From S2P Require Import FromInt Builtins F128 F128Compare F128Convert F128Narrow CompilerBuiltins.
Import ListNotations.
Local Open Scope Z_scope.
Local Open Scope c_scope.

(** ** Objects in memory *)
Fixpoint bytes_value (l : list Z) : Z :=
  match l with
  | [] => 0
  | b :: l => b + 2 ^ 8 * bytes_value l
  end.

Lemma object_length (n : nat) : forall z, length (object_bytes n z) = n.
Proof. induction n as [|n IH]; intros z; [reflexivity|]. simpl. now rewrite IH. Qed.

Lemma object_value (n : nat) : forall z, bytes_value (object_bytes n z) = z mod 2 ^ (8 * Z.of_nat n).
Proof.
  induction n as [|n IH]; intros z; [symmetry; apply Z.mod_1_r|].
  cbn [object_bytes bytes_value]. rewrite IH, Z.shiftr_div_pow2 by lia. unfold uwrap.
  replace (8 * Z.of_nat (S n)) with (8 + 8 * Z.of_nat n) by lia. rewrite Z.pow_add_r by lia.
  rewrite Z.rem_mul_r by (try apply Z.pow_pos_nonneg; lia). ring.
Qed.

Lemma bytes_value_app (l k : list Z) : bytes_value (l ++ k) = bytes_value l + 2 ^ (8 * Z.of_nat (length l)) * bytes_value k.
Proof.
  induction l as [|b l IH]; [simpl (length _); change (2 ^ (8 * Z.of_nat 0)) with 1; cbn [app bytes_value]; ring|].
  cbn [app bytes_value length]. rewrite IH. replace (8 * Z.of_nat (S (length l))) with (8 + 8 * Z.of_nat (length l)) by lia.
  rewrite Z.pow_add_r by lia. ring.
Qed.

(** Reading back what was stored. *)
Lemma load_store (b : bytes) (p : Z) (l : list Z) : load_bytes (store_bytes b p l) p (Z.of_nat (length l)) = l.
Proof.
  apply nth_ext with (d := 0) (d' := 0); [now rewrite load_length, Nat2Z.id|].
  intros n Hn. rewrite load_length, Nat2Z.id in Hn. rewrite load_nth by lia. rewrite store_inside by lia. f_equal. lia.
Qed.

(** ** Metering and memory safety *)
Section Safety.
Context {W : Type} {U : Undefined}.
Abbreviation context := (@wasm_context (W * env)).

Definition builtin_cost (call : builtin_call) : Z :=
  match call with
  | B_eqtf2 _ _ _ _ | B_netf2 _ _ _ _ | B_getf2 _ _ _ _ | B_gttf2 _ _ _ _ | B_lttf2 _ _ _ _ | B_letf2 _ _ _ _
  | B_cmptf2 _ _ _ _ => 300
  | _ => 100
  end.

Definition builtin_writes (call : builtin_call) : list (Z * Z) :=
  match call with
  | B_ashlti3 p _ _ _ | B_ashrti3 p _ _ _ | B_lshlti3 p _ _ _ | B_lshrti3 p _ _ _
  | B_divti3 p _ _ _ _ | B_udivti3 p _ _ _ _ | B_modti3 p _ _ _ _ | B_umodti3 p _ _ _ _ | B_multi3 p _ _ _ _
  | B_addtf3 p _ _ _ _ | B_subtf3 p _ _ _ _ | B_multf3 p _ _ _ _ | B_divtf3 p _ _ _ _
  | B_negtf2 p _ _ | B_floatsitf p _ | B_floatunsitf p _ | B_floatditf p _ | B_floatunditf p _
  | B_extendsftf2 p _ | B_extenddftf2 p _ | B_fixtfti p _ _ | B_fixunstfti p _ _
  | B_fixsfti p _ | B_fixdfti p _ | B_fixunssfti p _ | B_fixunsdfti p _ => [(u32 p, 16)]
  | _ => []
  end.

Definition builtin_returns (call : builtin_call) (c : context) (r : Z) (c' : context) : Prop :=
  builtin_cost call <= remained_gas c /\ remained_gas c' = remained_gas c - builtin_cost call /\
  same_inputs c c' /\ frame (builtin_writes call) (memory c) (memory c') /\ fst (world c') = fst (world c).

Lemma wp_softfloat {A} (m : M A) Q E (c : context) :
  (forall a s, m (snd (world c)) = (a, s) -> Q a (with_world (fst (world c), s) c)) -> wp (softfloat m) Q E c.
Proof.
  intros H. unfold softfloat. apply wp_callback. intros a w K. destruct (m (snd (world c))) as [b s] eqn:F.
  injection K as <- <-. now apply H.
Qed.

(** What a method with a result of 16 bytes does after its reference. *)
Lemma frame_16 (m : MemoryInstance) (p : Z) (l : list Z) : 0 < p -> p + 16 < memory_bytes m -> length l = 16%nat ->
  frame [(p, 16)] (Some m) (Some (set_pages m (numPages m) (store_bytes (contents m) p l))).
Proof. intros H1 H2 H3. apply frame_store; lia. Qed.
End Safety.

Ltac builtin_step :=
  lazymatch goal with
  | |- wp (softfloat _) _ _ _ => apply wp_softfloat; intros ? ? _; context_cbn
  | |- wp (reference_impl sizeof_int128 _) _ _ _ => apply wp_reference; [| |intros ? ? ? ?]
  | |- wp (into _ _) _ _ _ => unfold into
  | |- wp (assign _ _) _ _ _ => unfold assign
  | |- wp (assign_float128 _ _) _ _ _ => unfold assign_float128
  | |- wp (if z2b _ then _ else _) _ _ _ => destruct (z2b _)
  | _ => wp_step
  end.
Ltac run_builtin_call :=
  unfold __ashlti3, __ashrti3, __lshlti3, __lshrti3, __divti3, __udivti3, __modti3, __umodti3, __multi3,
    __addtf3, __subtf3, __multf3, __divtf3, __eqtf2, __netf2, __getf2, __gttf2, __lttf2, __letf2, __cmptf2, ___cmptf2, __unordtf2, __negtf2, __floatsitf, __floatunsitf,
    __floatditf, __floatunditf, __floattidf, __floatuntidf, __floatsidf, __extendsftf2, __extenddftf2, __fixtfti, __fixtfdi,
    __fixtfsi, __fixunstfti, __fixunstfdi, __fixunstfsi, __fixsfti, __fixdfti, __fixunssfti, __fixunsdfti, __trunctfdf2, __trunctfsf2;
  repeat builtin_step; same_memory; gas_facts; try lia; try solve [finish_throws].

Section Safe.
Context {W : Type} {U : Undefined}.
Abbreviation context := (@wasm_context (W * env)).

Lemma run_builtin_spec (call : builtin_call) (c : context) : valid c ->
  wp (run_builtin call) (builtin_returns call c) (throws c) c.
Proof.
  intros V. pose proof (valid_gas c V) as Hg.
  destruct call; cbn [run_builtin]; run_builtin_call.
  all: unfold builtin_returns; cbn [builtin_cost builtin_writes].
  all: split; [lia|split; [context_cbn; gas_facts; lia|split; [repeat split; reflexivity|split; [|reflexivity]]]].
  all: context_cbn; try apply frame_refl.
  all: match goal with M : memory ?c = Some ?m |- _ => rewrite M end.
  all: apply frame_16; [assumption|assumption|rewrite ?length_app, !object_length; reflexivity].
Qed.

(** C23. Every intrinsic of compiler_builtins is metered and memory safe:
    from a valid context a call that returns has charged exactly its cost (100, or 300 for the
    comparisons, which charge in each of their three nested methods), has left the inputs of
    the action and the embedder's state alone, and has changed no byte of the memory but
    the 16 of its result, which lie inside it; a call that throws has charged no more than was
    there and changed nothing else.  Either way the context stays valid. *)
Theorem compiler_builtins_safe (call : builtin_call) (c : context) : valid c ->
  (forall r c', run_builtin call c = (Value r, c') ->
     builtin_cost call <= remained_gas c /\ remained_gas c' = remained_gas c - builtin_cost call /\
     same_inputs c c' /\ frame (builtin_writes call) (memory c) (memory c') /\
     fst (world c') = fst (world c) /\ valid c') /\
  (forall e c', run_builtin call c = (Throw e, c') ->
     0 <= remained_gas c' <= remained_gas c /\ same_inputs c c' /\
     memory c' = memory c /\ world c' = world c /\ valid c').
Proof.
  intros V. pose proof (run_builtin_spec call c V) as P. unfold wp in P.
  assert (K : 0 <= builtin_cost call) by (destruct call; discriminate). split.
  - intros r c' E. rewrite E in P. destruct P as (H1 & H2 & H3 & H4 & H5).
    do 5 (split; [assumption|]). apply (valid_step c c' (builtin_writes call)); try assumption. lia.
  - intros e c' E. rewrite E in P. destruct P as (H1 & H2 & H3 & H4).
    do 4 (split; [assumption|]). apply (valid_step c c' []); try assumption. rewrite H3. apply frame_refl.
Qed.

(** ** Values *)

(** The 16 bytes at [p], as an unsigned number. *)
Definition object_at (c : context) (p : Z) : Z :=
  match memory c with Some m => bytes_value (load_bytes (contents m) p 16) | None => 0 end.

(** A context with gas for a call and a reference that can be written. *)
Definition ready_for (ret : Z) (c : context) : Prop :=
  valid c /\ 100 <= remained_gas c /\
  exists m, memory c = Some m /\ u32 ret <> 0 /\ u32 ret + 16 < memory_bytes m.

Definition returns_object (m : Host Z) (ret v : Z) (c : context) : Prop :=
  exists c', m c = (Value 0, c') /\ object_at c' (u32 ret) = v.

Lemma reference_ok (ret : Z) (c : context) : ready_for ret c -> reference_impl sizeof_int128 (u32 ret) c = (Value (u32 ret), c).
Proof.
  intros (_ & _ & m & M & N & B). unfold reference_impl, hbind, host_assert.
  destruct (Z.eqb_spec (u32 ret) 0); [contradiction|]. cbn [negb hret]. unfold hret. rewrite M.
  destruct (Z.leb_spec (memory_bytes m) (u32 ret + sizeof_int128)); [unfold sizeof_int128 in *; lia|reflexivity].
Qed.

Lemma gas_charged (c : context) : 100 <= remained_gas c < 2 ^ 64 ->
  use_gas GAS_CALL_BASE c = (Value tt, with_gas (remained_gas c - 100) c).
Proof.
  intros G. unfold use_gas, GAS_CALL_BASE. rewrite (uwrap_small 64 100) by lia.
  destruct (Z.ltb_spec (remained_gas c) 100); [lia|]. rewrite uwrap_small by lia. reflexivity.
Qed.

Lemma gas_ok (c : context) : valid c -> 100 <= remained_gas c ->
  use_gas GAS_CALL_BASE c = (Value tt, with_gas (remained_gas c - 100) c).
Proof. intros V G. apply gas_charged. pose proof (valid_gas c V). lia. Qed.

Lemma into_writes (ret : Z) (c : context) (l : list Z) (k : Z -> Host unit) (w : W * env) : ready_for ret c -> length l = 16%nat ->
  k (u32 ret) c = write (u32 ret) l (with_world w (with_gas (remained_gas c - 100) c)) ->
  exists c', into ret k c = (Value 0, c') /\ object_at c' (u32 ret) = bytes_value l /\ world c' = w.
Proof.
  intros R Hl E. pose proof (reference_ok ret c R) as P. destruct R as (V & G & m & M & N & B).
  unfold into, void, hbind. rewrite P, E.
  unfold write, update, object_at. cbn [memory with_world with_gas]. rewrite M. eexists. split; [reflexivity|].
  cbn [memory with_contents contents set_pages with_world with_gas]. split; [|reflexivity]. f_equal.
  replace 16 with (Z.of_nat (length l)) by (rewrite Hl; reflexivity). apply load_store.
Qed.

Lemma into_returns (ret : Z) (c : context) (l : list Z) (k : Z -> Host unit) : ready_for ret c -> length l = 16%nat ->
  (forall p, exists w, k p c = write p l (with_world w (with_gas (remained_gas c - 100) c))) ->
  returns_object (into ret k) ret (bytes_value l) c.
Proof.
  intros R Hl K. destruct (K (u32 ret)) as [w E]. destruct (into_writes ret c l k w R Hl E) as (c' & E' & O & _). exists c'. auto.
Qed.

(** A method that charges and assigns a value. *)
Lemma assigns (ret v : Z) (c : context) : ready_for ret c ->
  returns_object (into ret (fun p => hbind (use_gas GAS_CALL_BASE) (fun _ => assign p v))) ret (u128 v) c.
Proof.
  intros R. replace (u128 v) with (bytes_value (object_bytes 16 v)) by apply (object_value 16).
  apply into_returns; [exact R|apply object_length|]. intros p. destruct R as (V & G & _). exists (world c).
  unfold hbind. rewrite gas_ok by assumption. reflexivity.
Qed.

Lemma assigns_word (ret v : Z) (c : context) : ready_for ret c -> 0 <= v < 2 ^ 128 ->
  returns_object (into ret (fun p => hbind (use_gas GAS_CALL_BASE) (fun _ => assign p v))) ret v c.
Proof. intros R Hv. pose proof (assigns ret v c R) as A. rewrite (uwrap_small 128 v Hv) in A. exact A. Qed.

(** A method that charges and throws instead. *)
Lemma refuses (ret : Z) (c : context) (e : exception) (k : Z -> Host unit) : ready_for ret c ->
  exists c', into ret (fun p => hbind (use_gas GAS_CALL_BASE) (fun _ => hbind (host_assert false e) (fun _ => k p))) c = (Throw e, c') /\
    memory c' = memory c /\ remained_gas c' = remained_gas c - 100.
Proof.
  intros R. pose proof (reference_ok ret c R) as P. destruct R as (V & G & _). unfold into, void, hbind.
  rewrite P, gas_ok by assumption. eexists. split; [reflexivity|]. split; reflexivity.
Qed.
End Safe.

(** ** The words of an operand *)
Lemma words_unsigned (l h : Z) : uint128_of (u64 l) (u64 h) = u64 l + 2 ^ 64 * u64 h.
Proof.
  pose proof (uwrap_bound 64 l ltac:(lia)). pose proof (uwrap_bound 64 h ltac:(lia)).
  unfold uint128_of. rewrite shl_mul, (uwrap_small 128), lor_disjoint by lia. lia.
Qed.

Lemma words_signed (l h : Z) : int128_of (u64 l) (u64 h) = i128 (u64 l + 2 ^ 64 * u64 h).
Proof.
  pose proof (uwrap_bound 64 l ltac:(lia)) as L. pose proof (uwrap_bound 64 h ltac:(lia)) as B. unfold int128_of. rewrite shl_mul by lia.
  set (a := u64 l) in *. set (b := u64 h) in *. clearbody a b. unfold swrap at 2. change (128 - 1) with 127.
  destruct (Z.lt_ge_cases b (2 ^ 63)).
  - rewrite (Z.mod_small (b * 2 ^ 64 + 2 ^ 127)) by lia. replace (b * 2 ^ 64 + 2 ^ 127 - 2 ^ 127) with (b * 2 ^ 64) by lia.
    rewrite lor_disjoint by lia. f_equal. lia.
  - replace ((b * 2 ^ 64 + 2 ^ 127) mod 2 ^ 128) with (b * 2 ^ 64 - 2 ^ 127) by (apply Z.mod_unique with 1; lia).
    replace (b * 2 ^ 64 - 2 ^ 127 - 2 ^ 127) with ((b - 2 ^ 64) * 2 ^ 64) by lia. rewrite lor_disjoint by lia.
    unfold swrap. f_equal. replace ((b - 2 ^ 64) * 2 ^ 64 + a + 2 ^ (128 - 1)) with (a + 2 ^ 64 * b + 2 ^ (128 - 1) + (-1) * 2 ^ 128) by lia.
    now rewrite Z.mod_add by lia.
Qed.

Lemma swrap_range (w x : Z) : 0 < w -> - 2 ^ (w - 1) <= swrap w x < 2 ^ (w - 1).
Proof.
  intros Hw. unfold swrap. assert (E : 2 ^ w = 2 * 2 ^ (w - 1)) by (rewrite <- Z.pow_succ_r by lia; f_equal; lia).
  pose proof (two_pow_pos (w - 1) ltac:(lia)). pose proof (Z.mod_pos_bound (x + 2 ^ (w - 1)) (2 ^ w) ltac:(lia)). lia.
Qed.


Lemma i128_zero (x : Z) : 0 <= x < 2 ^ 128 -> i128 x = 0 <-> x = 0.
Proof.
  intros Hx. unfold swrap. change (128 - 1) with 127. destruct (Z.lt_ge_cases x (2 ^ 127)).
  - rewrite Z.mod_small by lia. lia.
  - replace ((x + 2 ^ 127) mod 2 ^ 128) with (x - 2 ^ 127) by (apply Z.mod_unique with 1; lia). lia.
Qed.

(** A quotient of 128-bit integers overflows in one case only. *)
Lemma quotient_range (a b : Z) : - 2 ^ 127 <= a < 2 ^ 127 -> b <> 0 -> ~ (a = - 2 ^ 127 /\ b = -1) -> is_i128 (Z.quot a b) = true.
Proof.
  intros Ha Hb N. unfold is_i128. apply andb_true_iff. rewrite Z.leb_le, Z.ltb_lt.
  assert (A : Z.abs (Z.quot a b) = Z.abs a / Z.abs b) by (rewrite <- Z.quot_abs, Z.quot_div_nonneg by lia; reflexivity).
  destruct (Z.eq_dec (Z.abs b) 1) as [E|E].
  - assert (b = 1 \/ b = -1) as [-> | ->] by lia; [rewrite Z.quot_1_r; lia|].
    change (-1) with (- (1)). rewrite Z.quot_opp_r, Z.quot_1_r by lia. lia.
  - assert (Z.abs a / Z.abs b < 2 ^ 127) by (apply Z.div_lt_upper_bound; lia). lia.
Qed.

Section Integers.
Context {W : Type} {U : Undefined}.
Abbreviation context := (@wasm_context (W * env)).

(** C24. The 128-bit integer intrinsics, on operands given as two 64-bit words, from a context
    with gas and a valid reference for the result.  Shifts by less than 128: both left shifts
    and the logical right shift shift the low word alone (the high word is lost), the
    arithmetic one shifts the whole signed operand.  Quotients and remainders are those of
    truncated division, signed and unsigned, unless the signed quotient overflows; a zero
    divisor throws arithmetic_exception once the call has been charged.  A product that fits 128 bits is
    exact. *)
Theorem int128_builtins_correct (ret la ha lb hb n : Z) (c : context) : ready_for ret c ->
  let ua := u64 la + 2 ^ 64 * u64 ha in
  let ub := u64 lb + 2 ^ 64 * u64 hb in
  let sa := i128 ua in
  let sb := i128 ub in
  (u32 n < 128 ->
     returns_object (run_builtin (B_ashlti3 ret la ha n)) ret (u128 (u64 la * 2 ^ u32 n)) c /\
     returns_object (run_builtin (B_lshlti3 ret la ha n)) ret (u128 (u64 la * 2 ^ u32 n)) c /\
     returns_object (run_builtin (B_lshrti3 ret la ha n)) ret (u64 la / 2 ^ u32 n) c /\
     returns_object (run_builtin (B_ashrti3 ret la ha n)) ret (u128 (sa / 2 ^ u32 n)) c) /\
  (ub <> 0 ->
     returns_object (run_builtin (B_udivti3 ret la ha lb hb)) ret (ua / ub) c /\
     returns_object (run_builtin (B_umodti3 ret la ha lb hb)) ret (ua mod ub) c /\
     (~ (sa = - 2 ^ 127 /\ sb = -1) ->
        returns_object (run_builtin (B_divti3 ret la ha lb hb)) ret (u128 (Z.quot sa sb)) c /\
        returns_object (run_builtin (B_modti3 ret la ha lb hb)) ret (u128 (Z.rem sa sb)) c)) /\
  (ub = 0 -> Forall (fun call => exists c', run_builtin call c = (Throw arithmetic_exception, c') /\
                                   memory c' = memory c /\ remained_gas c' = remained_gas c - 100)
     [B_divti3 ret la ha lb hb; B_udivti3 ret la ha lb hb; B_modti3 ret la ha lb hb; B_umodti3 ret la ha lb hb]) /\
  (- 2 ^ 127 <= sa * sb < 2 ^ 127 ->
     returns_object (run_builtin (B_multi3 ret la ha lb hb)) ret (u128 (sa * sb)) c).
Proof.
  intros R ua ub sa sb. pose proof (uwrap_bound 64 la ltac:(lia)) as La. pose proof (uwrap_bound 64 ha ltac:(lia)) as Ha.
  pose proof (uwrap_bound 64 lb ltac:(lia)) as Lb. pose proof (uwrap_bound 64 hb ltac:(lia)) as Hb.
  pose proof (uwrap_bound 32 n ltac:(lia)) as Hn.
  assert (UA : 0 <= ua < 2 ^ 128) by (subst ua; lia). assert (UB : 0 <= ub < 2 ^ 128) by (subst ub; lia).
  assert (LOW : (u64 ha >> 64) .| u64 la = u64 la) by (rewrite shr_div, Z.div_small by lia; reflexivity).
  pose proof (i128_zero ub UB) as ZB. pose proof (swrap_range 128 ua ltac:(lia)) as SA.
  split; [|split; [|split]].
  - intros Hs. apply Z.ltb_lt in Hs as Hs'. pose proof (two_pow_pos (u32 n) ltac:(lia)) as P.
    cbn [run_builtin]. unfold __ashlti3, __lshlti3, __lshrti3, __ashrti3, shl_u128, shr_u128, shr_i128.
    rewrite Hs', LOW, words_signed. fold ua sa. rewrite shl_mul, !shr_div by lia.
    assert (D : u128 (u64 la / 2 ^ u32 n) = u64 la / 2 ^ u32 n)
      by (apply uwrap_small; split; [apply Z.div_pos; lia|apply Z.div_lt_upper_bound; nia]).
    repeat split; [apply (assigns_word ret)|apply (assigns_word ret)|apply (assigns_word ret)|apply (assigns ret)]; try exact R;
      try rewrite <- D; apply uwrap_bound; lia.
  - intros N. apply Z.eqb_neq in N as N'. assert (SN : sb <> 0) by (subst sb; rewrite ZB; exact N). apply Z.eqb_neq in SN as SN'.
    cbn [run_builtin]. unfold __udivti3, __umodti3, __divti3, __modti3. rewrite !words_unsigned, !words_signed.
    fold ua ub sa sb. rewrite N', SN'. cbn [negb host_assert].
    assert (D : u128 (ua / ub) = ua / ub) by (apply uwrap_small; split; [apply Z.div_pos; lia|apply Z.div_lt_upper_bound; nia]).
    assert (E : u128 (ua mod ub) = ua mod ub) by (pose proof (Z.mod_pos_bound ua ub ltac:(lia)); apply uwrap_small; lia).
    split; [apply (assigns_word ret _ c R); rewrite <- D; apply uwrap_bound; lia|].
    split; [apply (assigns_word ret _ c R); rewrite <- E; apply uwrap_bound; lia|].
    intros Q. apply quotient_range in Q; try assumption. unfold div_i128, rem_i128. rewrite Q.
    split; apply (assigns ret); exact R.
  - intros N. assert (SN : sb = 0) by (apply ZB; exact N).
    repeat (apply Forall_cons || apply Forall_nil); cbn [run_builtin];
      unfold __udivti3, __umodti3, __divti3, __modti3; rewrite !words_unsigned || rewrite !words_signed;
      fold ua ub sa sb; rewrite ?N, ?SN; apply refuses; exact R.
  - intros M. cbn [run_builtin]. unfold __multi3, mul_i128. rewrite !words_signed. fold ua ub sa sb.
    replace (is_i128 (sa * sb)) with true by (unfold is_i128; symmetry; apply andb_true_iff; lia).
    apply (assigns ret). exact R.
Qed.
End Integers.

(** ** A context: one page, three million gas, SoftFloat in its initial state *)
#[export] Existing Instance wrapping.

Definition builtin_sample : @wasm_context (unit * env) :=
  let address := repeat 7 20 in
  Context [1; 2; 3] address address address address 0 0 3000000 (Some (Memory 1 1 4 (fun i => i mod 256))) [] (tt, initial_env).

Lemma builtin_sample_valid : valid builtin_sample.
Proof.
  constructor; try reflexivity; [split; (discriminate || reflexivity)|].
  intros m H. injection H as <-. split; discriminate.
Qed.

Lemma builtin_sample_ready : ready_for 64 builtin_sample.
Proof.
  split; [exact builtin_sample_valid|]. split; [discriminate|]. exists (Memory 1 1 4 (fun i => i mod 256)).
  split; [reflexivity|]. split; [discriminate|reflexivity].
Qed.

Lemma compiler_builtins_safe_witness :
  let after := snd (run_builtin (B_divti3 64 100 0 7 0) builtin_sample) in
  remained_gas after = 2999900 /\ frame [(64, 16)] (memory builtin_sample) (memory after) /\
  let failed := snd (run_builtin (B_divti3 64 100 0 0 0) builtin_sample) in memory failed = memory builtin_sample.
Proof.
  destruct (proj1 (compiler_builtins_safe (B_divti3 64 100 0 7 0) builtin_sample builtin_sample_valid) 0
    (snd (run_builtin (B_divti3 64 100 0 7 0) builtin_sample)) eq_refl) as (_ & G & _ & F & _).
  destruct (proj2 (compiler_builtins_safe (B_divti3 64 100 0 0 0) builtin_sample builtin_sample_valid) arithmetic_exception
    (snd (run_builtin (B_divti3 64 100 0 0 0) builtin_sample)) eq_refl) as (_ & _ & M & _).
  split; [exact G|]. split; [exact F|exact M].
Defined.

(** -100 / 7 = -14; shifting 2^64 to the left by one loses its only bit. *)
Lemma int128_builtins_correct_witness :
  returns_object (run_builtin (B_divti3 64 (-100) (-1) 7 0)) 64 (2 ^ 128 - 14) builtin_sample /\
  returns_object (run_builtin (B_ashlti3 64 0 1 1)) 64 0 builtin_sample /\
  exists c', run_builtin (B_umodti3 64 5 0 0 0) builtin_sample = (Throw arithmetic_exception, c').
Proof.
  split; [|split].
  - refine (proj1 (proj2 (proj2 (proj1 (proj2 (int128_builtins_correct 64 (-100) (-1) 7 0 0 builtin_sample builtin_sample_ready)) _)) _)).
    + discriminate.
    + intros [H _]. discriminate H.
  - refine (proj1 (proj1 (int128_builtins_correct 64 0 1 0 0 1 builtin_sample builtin_sample_ready) _)). reflexivity.
  - pose proof (proj1 (proj2 (proj2 (int128_builtins_correct 64 5 0 0 0 0 builtin_sample builtin_sample_ready))) eq_refl) as F.
    inversion_clear F as [|? ? _ F1]. inversion_clear F1 as [|? ? _ F2]. inversion_clear F2 as [|? ? _ F3].
    inversion_clear F3 as [|? ? H _]. destruct H as (c' & H & _). exists c'. exact H.
Defined.
