(* ===== verification/LongDoubles.v ===== *)
(** The long double intrinsics of compiler_builtins: arithmetic, comparisons and
    conversions, in terms of the values of binary128. *)
From S2P Require Import Prelude Exceptions Memory Host.
From Stdlib Require Import ZArith Bool Lia List Reals Lra.
From S2P Require Import Ieee Softfloat Machine Contract HostProofs HostCorrect.
From S2P Require Import F64 F64Arith FromInt ToInt Builtins F128 F128Compare F128Convert F128Narrow F128Ops F128Round F128Arith F128Mul CompilerBuiltins CompilerBuiltinsProofs.
Import ListNotations.
Local Open Scope Z_scope.
Local Open Scope c_scope.

Lemma float128_ok (l h : Z) : f128_ok (float128_of (u64 l) (u64 h)).
Proof. split; apply uwrap_bound; lia. Qed.

(** The encoding of the operand in two words. *)
Definition long_double (l h : Z) : Z := u64 h * 2 ^ 64 + u64 l.
Lemma long_double_enc (l h : Z) : f128_enc (float128_of (u64 l) (u64 h)) = long_double l h.
Proof. reflexivity. Qed.

Section Comparisons.
Context {W : Type} {U : Undefined}.
Abbreviation context := (@wasm_context (W * env)).

(** The call returns a number with the property [P]. *)
Definition yields (call : builtin_call) (c : context) (P : Z -> Prop) : Prop :=
  exists r c', run_builtin call c = (Value r, c') /\ P r.

Lemma compared {x y : float128_t} (s : env) : f128_ok x -> f128_ok y -> nanb F128 (f128_enc x) || nanb F128 (f128_enc y) = false ->
  exists b b', f128_lt x y s = (b, s) /\ f128_eq x y s = (b', s) /\
    (b = true <-> (value F128 (f128_enc x) < value F128 (f128_enc y))%R) /\
    (b' = true <-> value F128 (f128_enc x) = value F128 (f128_enc y)).
Proof.
  intros Hx Hy N. destruct (f128_comparisons_spec x y Hx Hy s) as (E & _ & _ & L & _). unfold compare_spec in E, L. rewrite N in E, L.
  destruct (f128_lt x y s) as [b s1], (f128_eq x y s) as [b' s2]. cbn [fst snd] in *. destruct E as [-> E], L as [-> L].
  exists b, b'. auto.
Qed.

Section Operands.
Context (la ha lb hb : Z) (c : context) (V : valid c) (G : 300 <= remained_gas c).
Let x := long_double la ha.
Let y := long_double lb hb.
Let unordered := nanb F128 x || nanb F128 y.

Lemma cmptf2_spec (n : Z) : exists r c',
  hbind (use_gas GAS_CALL_BASE) (fun _ => ___cmptf2 (u64 la) (u64 ha) (u64 lb) (u64 hb) n) c = (Value r, c') /\
  (unordered = true /\ r = n \/
   unordered = false /\ (r = -1 /\ (value F128 x < value F128 y)%R \/ r = 0 /\ value F128 x = value F128 y \/
                         r = 1 /\ (value F128 y < value F128 x)%R)).
Proof.
  pose proof (valid_gas c V) as Hg. unfold ___cmptf2, __unordtf2, hbind.
  rewrite gas_charged by lia. rewrite gas_charged by (cbn [remained_gas with_gas]; lia). rewrite gas_charged by (cbn [remained_gas with_gas]; lia).
  rewrite !f128_is_nan_spec by apply float128_ok. rewrite !long_double_enc. fold x y unordered.
  destruct unordered eqn:N.
  - unfold hret. cbn [z2b Z.eqb negb]. eexists; eexists. split; [reflexivity|]. left. split; reflexivity.
  - unfold hret. cbn [z2b Z.eqb negb]. unfold softfloat, callback. cbn [world with_gas snd fst].
    destruct (compared (snd (world c)) (float128_ok la ha) (float128_ok lb hb) N) as (b & b' & Elt & Eeq & L & E).
    rewrite !long_double_enc in *. fold x y in L, E. rewrite Elt. cbn [fst snd]. destruct b; cbn [world with_world snd fst].
    + eexists; eexists. split; [reflexivity|]. right. split; [reflexivity|]. left. split; [reflexivity|now apply L].
    + rewrite Eeq. destruct b'; (eexists; eexists; split; [reflexivity|]); right; (split; [reflexivity|right]).
      * left. split; [reflexivity|now apply E].
      * right. split; [reflexivity|]. destruct (Rtotal_order (value F128 x) (value F128 y)) as [K|[K|K]]; [|apply E in K; discriminate|exact K].
        apply L in K. discriminate.
Qed.

Lemma yields_by (call : builtin_call) (n : Z) (P : Z -> Prop) :
  run_builtin (W := W) call = hbind (use_gas GAS_CALL_BASE) (fun _ => ___cmptf2 (u64 la) (u64 ha) (u64 lb) (u64 hb) n) ->
  (unordered = true -> P n) -> (unordered = false -> (value F128 x < value F128 y)%R -> P (-1)) ->
  (unordered = false -> value F128 x = value F128 y -> P 0) -> (unordered = false -> (value F128 y < value F128 x)%R -> P 1) ->
  yields call c P.
Proof.
  intros E H1 H2 H3 H4. destruct (cmptf2_spec n) as (r & c' & Q & C). exists r, c'. rewrite E. split; [exact Q|].
  destruct C as [[N ->]|[N [[-> L]|[[-> L]|[-> L]]]]]; auto.
Qed.
End Operands.

(** A relation is read off the sign of the answer. *)
Ltac relation V G k :=
  eapply yields_by with (n := k); [exact V|exact G|reflexivity|..]; intros N; intros; rewrite N;
  (split; [intros|intros []]); try (split; [reflexivity|]); first [lia | lra | discriminate | idtac ].

(** C26. The comparisons of long doubles answer as the compiler that calls them expects, each with the
    sign that its relation is tested by: [__eqtf2] is 0 exactly for equal operands, [__netf2] is not 0
    exactly for different or unordered ones, [__lttf2], [__letf2], [__gttf2] and [__getf2] are negative, not
    positive, positive and not negative exactly when the relation holds of the two values; a NaN
    makes all of these relations false and [__unordtf2] 1. *)
Theorem long_double_comparisons_correct (la ha lb hb : Z) (c : context) : valid c -> 300 <= remained_gas c ->
  let x := long_double la ha in
  let y := long_double lb hb in
  let ordered := nanb F128 x || nanb F128 y = false in
  yields (B_unordtf2 la ha lb hb) c (fun r => r = b2z (nanb F128 x || nanb F128 y)) /\
  yields (B_eqtf2 la ha lb hb) c (fun r => r = 0 <-> ordered /\ value F128 x = value F128 y) /\
  yields (B_netf2 la ha lb hb) c (fun r => r <> 0 <-> ~ ordered \/ value F128 x <> value F128 y) /\
  yields (B_lttf2 la ha lb hb) c (fun r => r < 0 <-> ordered /\ (value F128 x < value F128 y)%R) /\
  yields (B_letf2 la ha lb hb) c (fun r => r <= 0 <-> ordered /\ (value F128 x <= value F128 y)%R) /\
  yields (B_gttf2 la ha lb hb) c (fun r => 0 < r <-> ordered /\ (value F128 y < value F128 x)%R) /\
  yields (B_getf2 la ha lb hb) c (fun r => 0 <= r <-> ordered /\ (value F128 y <= value F128 x)%R).
Proof.
  intros V G x y ordered. subst ordered. split.
  { exists (b2z (nanb F128 x || nanb F128 y)), (with_gas (remained_gas c - 100) c). split; [|reflexivity].
    cbn [run_builtin]. unfold __unordtf2, hbind. rewrite gas_ok by (assumption || lia). rewrite !f128_is_nan_spec by apply float128_ok.
    rewrite !long_double_enc. fold x y. destruct (nanb F128 x || nanb F128 y); reflexivity. }
  subst x y. split; [|split; [|split; [|split; [|split]]]].
  - relation V G 1.
  - relation V G 1.
  - relation V G 0.
  - relation V G 1.
  - relation V G 0.
  - relation V G (-1).
Qed.
End Comparisons.

(** ** Conversions *)

(** The encoding [z] of the number [a] of a narrower format. *)
Definition widened (f : format) (a z : Z) : Prop :=
  if nanb f a then z = convert_nan f F128 a
  else if infb f a then z = infinity F128 (sign_of f a)
  else exists b, z = with_sign F128 (sign_of f a) b /\ 0 <= b < inf_pattern F128 /\ mag F128 b = mag f (pattern_of f a).

(** The encoding [z] of the integer [a]. *)
Definition integral (a z : Z) : Prop :=
  exists b, z = with_sign F128 (a <? 0) b /\ 0 <= b < inf_pattern F128 /\ mag F128 b = IZR (Z.abs a).

Lemma float_bytes (f : float128_t) : f128_ok f -> let l := object_bytes 8 (fp128.v0 f) ++ object_bytes 8 (fp128.v1 f) in
  bytes_value l = f128_enc f /\ length l = 16%nat.
Proof.
  intros [H0 H1] l. subst l. rewrite bytes_value_app, length_app, !object_value, !object_length. split; [|reflexivity].
  change (8 * Z.of_nat 8) with 64. rewrite !Z.mod_small by lia. unfold f128_enc. lia.
Qed.

Section Conversions.
Context {W : Type} {U : Undefined}.
Abbreviation context := (@wasm_context (W * env)).

(** A method that charges, calls SoftFloat and assigns. *)
Lemma assigns_float (ret : Z) (m : M float128_t) (c : context) (P : Z -> Prop) : ready_for ret c ->
  f128_ok (fst (m (snd (world c)))) -> P (f128_enc (fst (m (snd (world c))))) ->
  exists z, P z /\ returns_object (into ret (fun p => hbind (use_gas GAS_CALL_BASE) (fun _ => hbind (softfloat m) (fun r => assign_float128 p r)))) ret z c.
Proof.
  intros R O HP. exists (f128_enc (fst (m (snd (world c))))). split; [exact HP|]. destruct (float_bytes _ O) as [E L]. rewrite <- E.
  apply into_returns; [exact R|exact L|]. intros p. destruct R as (V & G & _).
  unfold hbind. rewrite gas_ok by assumption. unfold softfloat, callback. cbn [world with_gas].
  destruct (m (snd (world c))) as [r s]. exists (fst (world c), s). reflexivity.
Qed.

(** A method that charges and returns what SoftFloat computes. *)
Lemma answers (m : M Z) (c : context) : valid c -> 100 <= remained_gas c ->
  exists r s, m (snd (world c)) = (r, s) /\
    hbind (use_gas GAS_CALL_BASE) (fun _ => softfloat m) c = (Value r, with_world (fst (world c), s) (with_gas (remained_gas c - 100) c)).
Proof.
  intros V G. unfold hbind. rewrite gas_ok by assumption. unfold softfloat, callback. cbn [world with_gas].
  destruct (m (snd (world c))) as [r s]. exists r, s. split; reflexivity.
Qed.

Lemma widened_ok (f : format) (a : Z) (s : env) (r : float128_t * env) : widen128_spec f s a r ->
  f128_ok (fst r) /\ widened f a (f128_enc (fst r)).
Proof.
  unfold widen128_spec, widened. destruct (nanb f a); [tauto|]. destruct (infb f a); [tauto|].
  intros (z & b & -> & O & E & B & M). cbn [fst]. split; [exact O|]. exists b. auto.
Qed.

Lemma integer_float_ok (a : Z) (s : env) (r : float128_t * env) : of_integer s a r -> f128_ok (fst r) /\ integral a (f128_enc (fst r)).
Proof. intros (z & b & -> & O & E & B & M). cbn [fst]. split; [exact O|]. exists b. auto. Qed.

(** The call stores a number with the property [P] through its reference. *)
Definition stores (call : builtin_call) (ret : Z) (c : context) (P : Z -> Prop) : Prop :=
  exists z, P z /\ returns_object (run_builtin call) ret z c.

(** The call stores a number and leaves flags with the property [P]. *)
Definition stores_rounded (call : builtin_call) (ret : Z) (c : context) (P : Z * env -> Prop) : Prop :=
  exists c', run_builtin call c = (Value 0, c') /\ P (object_at c' (u32 ret), snd (world c')).

Lemma operated (call : builtin_call) (ret : Z) (m : M float128_t) (c : context) (P : Z * env -> Prop) : ready_for ret c ->
  run_builtin (W := W) call = into ret (fun p => hbind (use_gas GAS_CALL_BASE) (fun _ => hbind (softfloat m) (fun r => assign_float128 p r))) ->
  meets P (m (snd (world c))) -> stores_rounded call ret c P.
Proof.
  intros R E [O HP]. destruct (float_bytes _ O) as [EB L]. unfold stores_rounded. rewrite E.
  edestruct (into_writes ret c _ (fun p => hbind (use_gas GAS_CALL_BASE) (fun _ => hbind (softfloat m) (fun r => assign_float128 p r)))
    (fst (world c), snd (m (snd (world c)))) R L) as (c' & E' & B & Ew).
  - destruct R as (V & G & _). unfold hbind. rewrite gas_ok by assumption. unfold softfloat, callback. cbn [world with_gas].
    destruct (m (snd (world c))) as [r s]. reflexivity.
  - exists c'. split; [exact E'|]. rewrite B, EB, Ew. exact HP.
Qed.

(** C25. The arithmetic of long doubles, from a context with gas and a valid reference for the
    result: the 16 bytes stored and the flags raised are those of IEEE 754 addition,
    subtraction, multiplication and division of binary128 numbers in the current rounding
    mode, for every pair of operands - NaNs, infinities, zeros and subnormal numbers included,
    and otherwise the exact result correctly rounded. *)
Theorem long_double_arithmetic_correct (ret la ha lb hb : Z) (c : context) : ready_for ret c ->
  let x := long_double la ha in
  let y := long_double lb hb in
  let s := snd (world c) in
  stores_rounded (B_addtf3 ret la ha lb hb) ret c (sum_spec F128 s x y (sign_of F128 y)) /\
  stores_rounded (B_subtf3 ret la ha lb hb) ret c (sum_spec F128 s x y (negb (sign_of F128 y))) /\
  stores_rounded (B_multf3 ret la ha lb hb) ret c (mul_spec F128 s x y) /\
  stores_rounded (B_divtf3 ret la ha lb hb) ret c (div_spec F128 s x y).
Proof.
  intros R x y s. pose proof (float128_ok la ha) as OX. pose proof (float128_ok lb hb) as OY. subst x y.
  rewrite <- (long_double_enc la ha), <- (long_double_enc lb hb).
  split; [eapply operated; [exact R|reflexivity|exact (f128_add_spec _ _ s OX OY)]|].
  split; [eapply operated; [exact R|reflexivity|exact (f128_sub_spec _ _ s OX OY)]|].
  split; (eapply operated; [exact R|reflexivity|]); [exact (f128_mul_spec _ _ s OX OY)|exact (f128_div_spec _ _ s OX OY)].
Qed.

(** The call returns a number and leaves flags with the property [P]. *)
Definition computes (call : builtin_call) (c : context) (P : Z * env -> Prop) : Prop :=
  exists r c', run_builtin call c = (Value r, c') /\ memory c' = memory c /\ P (r, snd (world c')).

Lemma computes_by (call : builtin_call) (m : M Z) (f : Z -> Z) (c : context) (P : Z * env -> Prop) : valid c -> 100 <= remained_gas c ->
  run_builtin (W := W) call c = hbind (hbind (use_gas GAS_CALL_BASE) (fun _ => softfloat m)) (fun r => hret (f r)) c ->
  (forall r s, m (snd (world c)) = (r, s) -> P (f r, s)) -> computes call c P.
Proof.
  intros V G E H. destruct (answers m c V G) as (r & s & M & Q). exists (f r). rewrite E. unfold hbind at 1. rewrite Q.
  eexists. split; [reflexivity|]. split; [reflexivity|]. exact (H r s M).
Qed.

Lemma computes_directly (call : builtin_call) (m : M Z) (c : context) (P : Z * env -> Prop) : valid c -> 100 <= remained_gas c ->
  run_builtin (W := W) call = hbind (use_gas GAS_CALL_BASE) (fun _ => softfloat m) -> P (m (snd (world c))) -> computes call c P.
Proof.
  intros V G E H. destruct (answers m c V G) as (r & s & M & Q). exists r. rewrite E, Q.
  eexists. split; [reflexivity|]. split; [reflexivity|]. cbn [world with_world snd]. rewrite <- M. exact H.
Qed.

Lemma sign_flip (l h : Z) : let x := float128_of (u64 l) (u64 h .^ u64 (1 << 63)) in
  f128_ok x /\ f128_enc x = with_sign F128 (negb (sign_of F128 (long_double l h))) (pattern_of F128 (long_double l h)).
Proof.
  cbv zeta. destruct (split128 _ (float128_ok l h)) as (k & E & Bk & Bl & P). rewrite long_double_enc in *.
  change (uA_v64 (float128_of (u64 l) (u64 h))) with (u64 h) in E. change (uA_v0 (float128_of (u64 l) (u64 h))) with (u64 l) in *.
  rewrite P, E. change (u64 (1 << 63)) with (1 * 2 ^ 63).
  assert (X : (b2z (sign_of F128 (long_double l h)) * 2 ^ 63 + k) .^ 1 * 2 ^ 63 = b2z (negb (sign_of F128 (long_double l h))) * 2 ^ 63 + k).
  { rewrite <- !lor_disjoint by lia. set (t := sign_of F128 _). clearbody t. apply Z.bits_inj'. intros i Hi.
    rewrite Z.lxor_spec, !Z.lor_spec. destruct (Z.eq_dec i 63) as [->|N].
    - replace (Z.testbit k 63) with false; [destruct t; reflexivity|]. symmetry. rewrite Z.testbit_eqb, Z.div_small by lia. reflexivity.
    - assert (O : forall b, Z.testbit (b2z b * 2 ^ 63) i = false).
      { intros b. destruct b; cbn [Z.b2z]; [|apply Z.bits_0]. rewrite Z.mul_1_l. apply Z.pow2_bits_false. lia. }
      change (1 * 2 ^ 63) with (b2z true * 2 ^ 63). rewrite !O. now rewrite xorb_false_r. }
  rewrite X. unfold f128_ok, f128_enc, float128_of, with_sign. cbn [fp128.v0 fp128.v1]. change (sign_weight F128) with (2 ^ 127).
  destruct (negb _); cbn [Z.b2z]; lia.
Qed.

Lemma fixuns_word (x : float128_t) : 0 <= ___fixunstfti x < 2 ^ 128.
Proof.
  unfold ___fixunstfti. cbv zeta. destruct (_ || _); [lia|]. destruct (_ <=? _); [apply uwrap_bound; lia|].
  destruct (_ <? _); apply uwrap_bound; lia.
Qed.

(** The conversions, all of them on one operand *)
Definition conversions (ret l h a : Z) : list builtin_call :=
  [B_fixtfsi l h; B_fixtfdi l h; B_fixunstfsi l h; B_fixunstfdi l h; B_fixtfti ret l h; B_fixunstfti ret l h;
   B_trunctfdf2 l h; B_trunctfsf2 l h; B_extendsftf2 ret a; B_extenddftf2 ret a;
   B_floatsitf ret a; B_floatunsitf ret a; B_floatditf ret a; B_floatunditf ret a; B_negtf2 ret l h].

(** C27. The conversions of long doubles.  Narrowing is correctly rounded.  To integers of 32 and 64 bits ([__fixtfsi],
    [__fixtfdi], [__fixunstfsi], [__fixunstfdi]) they round to nearest, ties to even (a compiler that calls them expects
    truncation), with the code of the invalid operation out of range; to integers of 128 bits ([__fixtfti],
    [__fixunstfti]) they truncate and saturate as [___fixtfti] and [___fixunstfti] do; widening, the conversions
    of integers and the change of sign are exact.  Each charges 100, leaves the inputs of the action and the state of the
    embedder alone, and changes no byte of the memory but the 16 of its result, if it has one there. *)
Theorem long_double_conversions_correct (ret l h a : Z) (c : context) : ready_for ret c ->
  let x := long_double l h in
  let s := snd (world c) in
  computes (B_fixtfsi l h) c (to_i32_spec F128 s NearestEven false x) /\
  computes (B_fixtfdi l h) c (to_i64_spec F128 s NearestEven false x) /\
  computes (B_fixunstfsi l h) c (fun r => exists n, fst r = i32 n /\ to_ui32_spec F128 s NearestEven false x (n, snd r)) /\
  computes (B_fixunstfdi l h) c (fun r => exists n, fst r = i64 n /\ to_ui64_spec F128 s NearestEven false x (n, snd r)) /\
  stores (B_fixtfti ret l h) ret c (fun z => exists r, fix_spec F128 x r /\ z = u128 r) /\
  stores (B_fixunstfti ret l h) ret c (fixuns_spec F128 x) /\
  computes (B_trunctfdf2 l h) c (convert_spec F128 F64 s x) /\ computes (B_trunctfsf2 l h) c (convert_spec F128 F32 s x) /\
  (is_enc F32 a -> stores (B_extendsftf2 ret a) ret c (widened F32 a)) /\
  (is_enc F64 a -> stores (B_extenddftf2 ret a) ret c (widened F64 a)) /\
  stores (B_floatsitf ret a) ret c (integral (i32 a)) /\ stores (B_floatunsitf ret a) ret c (integral (u32 a)) /\
  stores (B_floatditf ret a) ret c (integral (i64 a)) /\ stores (B_floatunditf ret a) ret c (integral (u64 a)) /\
  stores (B_negtf2 ret l h) ret c (eq (with_sign F128 (negb (sign_of F128 x)) (pattern_of F128 x))) /\
  (forall call r c', In call (conversions ret l h a) -> run_builtin call c = (Value r, c') -> builtin_returns call c r c').
Proof.
  intros R x s. destruct R as (V & G & R'). pose proof (conj V (conj G R') : ready_for ret c) as R.
  pose proof (float128_ok l h) as O. subst x. rewrite <- (long_double_enc l h).
  split; [eapply computes_directly; [exact V|exact G|reflexivity|exact (f128_to_i32_spec _ 0 false s O)]|].
  split; [eapply computes_directly; [exact V|exact G|reflexivity|exact (f128_to_i64_spec _ 0 false s O)]|].
  split; [eapply computes_by; [exact V|exact G|reflexivity|intros n s' E; exists n; split; [reflexivity|]]|].
  { pose proof (f128_to_ui32_spec _ 0 false s O) as K. unfold s in K. rewrite E in K. exact K. }
  split; [eapply computes_by; [exact V|exact G|reflexivity|intros n s' E; exists n; split; [reflexivity|]]|].
  { pose proof (f128_to_ui64_spec _ 0 false s O) as K. unfold s in K. rewrite E in K. exact K. }
  split; [exists (u128 (___fixtfti (float128_of (u64 l) (u64 h)))); split; [eexists; split; [exact (___fixtfti_spec _ O)|reflexivity]|exact (assigns ret _ c R)]|].
  split; [eexists; split; [exact (___fixunstfti_spec _ O)|exact (assigns_word ret _ c R (fixuns_word _))]|].
  split; [eapply computes_directly; [exact V|exact G|reflexivity|exact (f128_to_f64_spec _ s O)]|].
  split; [eapply computes_directly; [exact V|exact G|reflexivity|exact (f128_to_f32_spec _ s O)]|].
  pose proof (swrap_range 32 a ltac:(lia)) as B1. pose proof (uwrap_bound 32 a ltac:(lia)) as B2.
  pose proof (swrap_range 64 (u64 a) ltac:(lia)) as B3. pose proof (uwrap_bound 64 a ltac:(lia)) as B4.
  split; [intros Ha; apply assigns_float; try exact R; apply (widened_ok F32 a s), f32_to_f128_spec, Ha|].
  split; [intros Ha; apply assigns_float; try exact R; apply (widened_ok F64 a s), f64_to_f128_spec, Ha|].
  pose proof (proj1 (proj2 (integers_to_f128_spec (i32 a) s)) B1) as I1. pose proof (proj1 (integers_to_f128_spec (u32 a) s) B2) as I2.
  pose proof (proj2 (proj2 (proj2 (integers_to_f128_spec (i64 (u64 a)) s))) B3) as I3.
  pose proof (proj1 (proj2 (proj2 (integers_to_f128_spec (u64 a) s))) B4) as I4.
  split; [apply assigns_float; [exact R|exact (proj1 (integer_float_ok _ s _ I1))|exact (proj2 (integer_float_ok _ s _ I1))]|].
  split; [apply assigns_float; [exact R|exact (proj1 (integer_float_ok _ s _ I2))|exact (proj2 (integer_float_ok _ s _ I2))]|].
  split; [rewrite <- (swrap_uwrap 64 64 a) by lia; apply assigns_float; [exact R|exact (proj1 (integer_float_ok _ s _ I3))|exact (proj2 (integer_float_ok _ s _ I3))]|].
  split; [apply assigns_float; [exact R|exact (proj1 (integer_float_ok _ s _ I4))|exact (proj2 (integer_float_ok _ s _ I4))]|].
  split; [|intros call r c' _ E; pose proof (run_builtin_spec call c V) as P; unfold wp in P; now rewrite E in P].
  destruct (sign_flip l h) as [F1 F2]. rewrite (long_double_enc l h). eexists. split; [reflexivity|]. cbn [run_builtin]. rewrite <- F2. destruct (float_bytes (float128_of (u64 l) (u64 h .^ u64 (1 << 63))) F1) as [B L]. rewrite <- B.
  apply into_returns; [exact R|exact L|]. intros p. exists (world c). unfold __negtf2, hbind. rewrite gas_ok by assumption. reflexivity.
Qed.
End Conversions.

(** 1 < 2, and a NaN is not at most 2. *)
Lemma long_double_comparisons_correct_witness :
  yields (B_lttf2 0 0x3FFF000000000000 0 0x4000000000000000) builtin_sample (fun r => r < 0) /\
  yields (B_letf2 1 0x7FFF800000000000 0 0x4000000000000000) builtin_sample (fun r => ~ r <= 0).
Proof.
  pose proof (long_double_comparisons_correct 0 0x3FFF000000000000 0 0x4000000000000000 builtin_sample builtin_sample_valid
    ltac:(discriminate)) as (_ & _ & _ & A & _).
  pose proof (long_double_comparisons_correct 1 0x7FFF800000000000 0 0x4000000000000000 builtin_sample builtin_sample_valid
    ltac:(discriminate)) as (_ & _ & _ & _ & B & _).
  split.
  - destruct A as (r & c' & E & H). exists r, c'. split; [exact E|]. apply H. split; [reflexivity|].
    apply (value_key F128). reflexivity.
  - destruct B as (r & c' & E & H). exists r, c'. split; [exact E|]. intros K. apply H in K as [K _]. discriminate K.
Defined.

(** 1 / 3, rounded down, and 1 - 1. *)
Lemma long_double_arithmetic_correct_witness :
  stores_rounded (B_divtf3 64 0 0x3FFF000000000000 0 0x4000800000000000) 64 builtin_sample
    (div_spec F128 initial_env (long_double 0 0x3FFF000000000000) (long_double 0 0x4000800000000000)) /\
  stores_rounded (B_subtf3 64 0 0x3FFF000000000000 0 0x3FFF000000000000) 64 builtin_sample
    (sum_spec F128 initial_env (long_double 0 0x3FFF000000000000) (long_double 0 0x3FFF000000000000) true) /\
  object_at (snd (run_builtin (B_divtf3 64 0 0x3FFF000000000000 0 0x4000800000000000) builtin_sample)) 64
    = 0x3FFD5555555555555555555555555555.
Proof.
  destruct (long_double_arithmetic_correct 64 0 0x3FFF000000000000 0 0x4000800000000000 builtin_sample builtin_sample_ready)
    as (_ & _ & _ & A).
  destruct (long_double_arithmetic_correct 64 0 0x3FFF000000000000 0 0x3FFF000000000000 builtin_sample builtin_sample_ready)
    as (_ & B & _).
  split; [exact A|]. split; [exact B|]. vm_compute. reflexivity.
Defined.

(** [__fixtfsi] of 1.75 is 2, where the conversion of C, and [__fixtfti], give 1. *)
Lemma long_double_conversions_correct_witness :
  fst (run_builtin (B_fixtfsi 0 0x3FFFC00000000000) builtin_sample) = Value 2 /\
  computes (B_fixtfsi 0 0x3FFFC00000000000) builtin_sample
    (to_i32_spec F128 initial_env NearestEven false (long_double 0 0x3FFFC00000000000)) /\
  stores (B_floatditf 64 (-3)) 64 builtin_sample (integral (-3)) /\
  object_at (snd (run_builtin (B_fixtfti 64 0 0x3FFFC00000000000) builtin_sample)) 64 = 1 /\
  stores (B_fixtfti 64 0 0x3FFFC00000000000) 64 builtin_sample
    (fun z => exists r, fix_spec F128 (long_double 0 0x3FFFC00000000000) r /\ z = u128 r).
Proof.
  split; [vm_compute; reflexivity|].
  destruct (long_double_conversions_correct 64 0 0x3FFFC00000000000 (-3) builtin_sample builtin_sample_ready)
    as (A & _ & _ & _ & T & _ & _ & _ & _ & _ & _ & _ & B & _).
  split; [exact A|]. split; [exact B|]. split; [vm_compute; reflexivity|exact T].
Defined.
