(* ===== verification/Opcodes.v ===== *)
(** The operation codes (enum code of include/wasm_binary_ops.hpp) and their
    prices (wasm_gas_table.cpp). *)
From Stdlib Require Import ZArith List.
Import ListNotations.
Local Open Scope Z_scope.

Definition unreachable_code : Z := 0x00.
Definition nop_code : Z := 0x01.
Definition block_code : Z := 0x02.
Definition loop_code : Z := 0x03.
Definition if__code : Z := 0x04.
Definition else__code : Z := 0x05.
Definition end_code : Z := 0x0B.
Definition br_code : Z := 0x0C.
Definition br_if_code : Z := 0x0D.
Definition br_table_code : Z := 0x0E.
Definition return__code : Z := 0x0F.
Definition call_code : Z := 0x10.
Definition call_indirect_code : Z := 0x11.
Definition drop_code : Z := 0x1A.
Definition select_code : Z := 0x1B.
Definition get_local_code : Z := 0x20.
Definition set_local_code : Z := 0x21.
Definition tee_local_code : Z := 0x22.
Definition get_global_code : Z := 0x23.
Definition set_global_code : Z := 0x24.
Definition i32_load_code : Z := 0x28.
Definition i64_load_code : Z := 0x29.
Definition f32_load_code : Z := 0x2A.
Definition f64_load_code : Z := 0x2B.
Definition i32_load8_s_code : Z := 0x2C.
Definition i32_load8_u_code : Z := 0x2D.
Definition i32_load16_s_code : Z := 0x2E.
Definition i32_load16_u_code : Z := 0x2F.
Definition i64_load8_s_code : Z := 0x30.
Definition i64_load8_u_code : Z := 0x31.
Definition i64_load16_s_code : Z := 0x32.
Definition i64_load16_u_code : Z := 0x33.
Definition i64_load32_s_code : Z := 0x34.
Definition i64_load32_u_code : Z := 0x35.
Definition i32_store_code : Z := 0x36.
Definition i64_store_code : Z := 0x37.
Definition f32_store_code : Z := 0x38.
Definition f64_store_code : Z := 0x39.
Definition i32_store8_code : Z := 0x3A.
Definition i32_store16_code : Z := 0x3B.
Definition i64_store8_code : Z := 0x3C.
Definition i64_store16_code : Z := 0x3D.
Definition i64_store32_code : Z := 0x3E.
Definition current_memory_code : Z := 0x3F.
Definition grow_memory_code : Z := 0x40.
Definition i32_const_code : Z := 0x41.
Definition i64_const_code : Z := 0x42.
Definition f32_const_code : Z := 0x43.
Definition f64_const_code : Z := 0x44.
Definition i32_eqz_code : Z := 0x45.
Definition i32_eq_code : Z := 0x46.
Definition i32_ne_code : Z := 0x47.
Definition i32_lt_s_code : Z := 0x48.
Definition i32_lt_u_code : Z := 0x49.
Definition i32_gt_s_code : Z := 0x4A.
Definition i32_gt_u_code : Z := 0x4B.
Definition i32_le_s_code : Z := 0x4C.
Definition i32_le_u_code : Z := 0x4D.
Definition i32_ge_s_code : Z := 0x4E.
Definition i32_ge_u_code : Z := 0x4F.
Definition i64_eqz_code : Z := 0x50.
Definition i64_eq_code : Z := 0x51.
Definition i64_ne_code : Z := 0x52.
Definition i64_lt_s_code : Z := 0x53.
Definition i64_lt_u_code : Z := 0x54.
Definition i64_gt_s_code : Z := 0x55.
Definition i64_gt_u_code : Z := 0x56.
Definition i64_le_s_code : Z := 0x57.
Definition i64_le_u_code : Z := 0x58.
Definition i64_ge_s_code : Z := 0x59.
Definition i64_ge_u_code : Z := 0x5A.
Definition f32_eq_code : Z := 0x5B.
Definition f32_ne_code : Z := 0x5C.
Definition f32_lt_code : Z := 0x5D.
Definition f32_gt_code : Z := 0x5E.
Definition f32_le_code : Z := 0x5F.
Definition f32_ge_code : Z := 0x60.
Definition f64_eq_code : Z := 0x61.
Definition f64_ne_code : Z := 0x62.
Definition f64_lt_code : Z := 0x63.
Definition f64_gt_code : Z := 0x64.
Definition f64_le_code : Z := 0x65.
Definition f64_ge_code : Z := 0x66.
Definition i32_clz_code : Z := 0x67.
Definition i32_ctz_code : Z := 0x68.
Definition i32_popcnt_code : Z := 0x69.
Definition i32_add_code : Z := 0x6A.
Definition i32_sub_code : Z := 0x6B.
Definition i32_mul_code : Z := 0x6C.
Definition i32_div_s_code : Z := 0x6D.
Definition i32_div_u_code : Z := 0x6E.
Definition i32_rem_s_code : Z := 0x6F.
Definition i32_rem_u_code : Z := 0x70.
Definition i32_and_code : Z := 0x71.
Definition i32_or_code : Z := 0x72.
Definition i32_xor_code : Z := 0x73.
Definition i32_shl_code : Z := 0x74.
Definition i32_shr_s_code : Z := 0x75.
Definition i32_shr_u_code : Z := 0x76.
Definition i32_rotl_code : Z := 0x77.
Definition i32_rotr_code : Z := 0x78.
Definition i64_clz_code : Z := 0x79.
Definition i64_ctz_code : Z := 0x7A.
Definition i64_popcnt_code : Z := 0x7B.
Definition i64_add_code : Z := 0x7C.
Definition i64_sub_code : Z := 0x7D.
Definition i64_mul_code : Z := 0x7E.
Definition i64_div_s_code : Z := 0x7F.
Definition i64_div_u_code : Z := 0x80.
Definition i64_rem_s_code : Z := 0x81.
Definition i64_rem_u_code : Z := 0x82.
Definition i64_and_code : Z := 0x83.
Definition i64_or_code : Z := 0x84.
Definition i64_xor_code : Z := 0x85.
Definition i64_shl_code : Z := 0x86.
Definition i64_shr_s_code : Z := 0x87.
Definition i64_shr_u_code : Z := 0x88.
Definition i64_rotl_code : Z := 0x89.
Definition i64_rotr_code : Z := 0x8A.
Definition f32_abs_code : Z := 0x8B.
Definition f32_neg_code : Z := 0x8C.
Definition f32_ceil_code : Z := 0x8D.
Definition f32_floor_code : Z := 0x8E.
Definition f32_trunc_code : Z := 0x8F.
Definition f32_nearest_code : Z := 0x90.
Definition f32_sqrt_code : Z := 0x91.
Definition f32_add_code : Z := 0x92.
Definition f32_sub_code : Z := 0x93.
Definition f32_mul_code : Z := 0x94.
Definition f32_div_code : Z := 0x95.
Definition f32_min_code : Z := 0x96.
Definition f32_max_code : Z := 0x97.
Definition f32_copysign_code : Z := 0x98.
Definition f64_abs_code : Z := 0x99.
Definition f64_neg_code : Z := 0x9A.
Definition f64_ceil_code : Z := 0x9B.
Definition f64_floor_code : Z := 0x9C.
Definition f64_trunc_code : Z := 0x9D.
Definition f64_nearest_code : Z := 0x9E.
Definition f64_sqrt_code : Z := 0x9F.
Definition f64_add_code : Z := 0xA0.
Definition f64_sub_code : Z := 0xA1.
Definition f64_mul_code : Z := 0xA2.
Definition f64_div_code : Z := 0xA3.
Definition f64_min_code : Z := 0xA4.
Definition f64_max_code : Z := 0xA5.
Definition f64_copysign_code : Z := 0xA6.
Definition i32_wrap_i64_code : Z := 0xA7.
Definition i32_trunc_s_f32_code : Z := 0xA8.
Definition i32_trunc_u_f32_code : Z := 0xA9.
Definition i32_trunc_s_f64_code : Z := 0xAA.
Definition i32_trunc_u_f64_code : Z := 0xAB.
Definition i64_extend_s_i32_code : Z := 0xAC.
Definition i64_extend_u_i32_code : Z := 0xAD.
Definition i64_trunc_s_f32_code : Z := 0xAE.
Definition i64_trunc_u_f32_code : Z := 0xAF.
Definition i64_trunc_s_f64_code : Z := 0xB0.
Definition i64_trunc_u_f64_code : Z := 0xB1.
Definition f32_convert_s_i32_code : Z := 0xB2.
Definition f32_convert_u_i32_code : Z := 0xB3.
Definition f32_convert_s_i64_code : Z := 0xB4.
Definition f32_convert_u_i64_code : Z := 0xB5.
Definition f32_demote_f64_code : Z := 0xB6.
Definition f64_convert_s_i32_code : Z := 0xB7.
Definition f64_convert_u_i32_code : Z := 0xB8.
Definition f64_convert_s_i64_code : Z := 0xB9.
Definition f64_convert_u_i64_code : Z := 0xBA.
Definition f64_promote_f32_code : Z := 0xBB.
Definition i32_reinterpret_f32_code : Z := 0xBC.
Definition i64_reinterpret_f64_code : Z := 0xBD.
Definition f32_reinterpret_i32_code : Z := 0xBE.
Definition f64_reinterpret_i64_code : Z := 0xBF.
Definition error_code : Z := 0xFF.

(** [gas_table]; the array has one entry per code up to 0xBF. *)
Definition gas_table : list Z :=
  [ 0; 1; 0; 0; 0; 2; 0; 0; 0; 0; 0; 0; 2; 3; 2; 2;
    2; 10; 0; 0; 0; 0; 0; 0; 0; 0; 3; 3; 0; 0; 0; 0;
    3; 3; 3; 3; 3; 0; 0; 0; 3; 3; 3; 3; 3; 3; 3; 3;
    3; 3; 3; 3; 3; 3; 3; 3; 3; 3; 3; 3; 3; 3; 3; 100;
    1000; 0; 0; 0; 0; 1; 1; 1; 1; 1; 1; 1; 1; 1; 1; 1;
    1; 1; 1; 1; 1; 1; 1; 1; 1; 1; 1; 100; 100; 100; 100; 100;
    100; 100; 100; 100; 100; 100; 100; 105; 105; 105; 1; 1; 3; 80; 80; 80;
    80; 1; 1; 1; 2; 2; 2; 2; 2; 150; 150; 150; 1; 1; 3; 80;
    80; 80; 80; 1; 1; 1; 2; 2; 2; 2; 2; 100; 100; 100; 100; 100;
    100; 2000; 200; 200; 400; 1000; 100; 100; 100; 100; 100; 100; 100; 100; 100; 2000;
    200; 200; 400; 1000; 100; 100; 100; 3; 100; 100; 100; 100; 3; 3; 100; 100;
    100; 100; 100; 100; 100; 100; 100; 100; 100; 100; 100; 100; 100; 100; 100; 100 ].

Definition gas_of (code : Z) : Z := nth (Z.to_nat code) gas_table 0.

Lemma gas_nonneg (code : Z) : 0 <= gas_of code.
Proof.
  unfold gas_of. assert (F : Forall (fun g => 0 <= g) gas_table)
    by (repeat constructor; apply Z.leb_le; reflexivity).
  destruct (nth_in_or_default (Z.to_nat code) gas_table 0) as [H| ->]; [|apply Z.le_refl].
  rewrite Forall_forall in F. now apply F.
Qed.

Lemma gas_bound (code : Z) : gas_of code <= 2000.
Proof.
  unfold gas_of. assert (F : Forall (fun g => g <= 2000) gas_table)
    by (repeat constructor; apply Z.leb_le; reflexivity).
  destruct (nth_in_or_default (Z.to_nat code) gas_table 0) as [H| ->]; [|discriminate].
  rewrite Forall_forall in F. now apply F.
Qed.
