(* ===== verification/Ops.v ===== *)
(** The operator encoding that validation and injection work on
    (include/wasm_binary_ops.hpp): two bytes of operation code, then the
    immediate field, little endian; the growing instruction_stream; the decoder. *)
From Stdlib Require Import ZArith Bool Lia List.
From S2P Require Import Prelude Exceptions Opcodes.
Import ListNotations.
Local Open Scope Z_scope.

(** ** Immediate fields *)
Inductive field_type : Type := voidtype | blocktype | uint32_field | uint64_field | memarg | branchtabletype.

Inductive field : Type :=
  | Void
  | Block (result : Z)
  | U32 (v : Z)
  | U64 (v : Z)
  | Memarg (a o : Z)
  | Branchtable (target_depth table_index : Z).

(** An operation with its code and field: the [instr] classes. *)
Record instr : Type := Instr { get_code : Z; op_field : field }.

Definition between (lo hi c : Z) : bool := (lo <=? c) && (c <=? hi).

(** The field type of each code: the subsequences of WASM_OP_SEQ over which
    CONSTRUCT_OP_HAS_DATA is expanded; [None] for a code that no operation has. *)
Definition field_type_of (c : Z) : option field_type :=
  if existsb (Z.eqb c) [end_code; unreachable_code; nop_code; else__code; return__code; drop_code; select_code;
                        grow_memory_code; current_memory_code]
     || between i32_eqz_code f64_reinterpret_i64_code c then Some voidtype
  else if existsb (Z.eqb c) [block_code; loop_code; if__code] then Some blocktype
  else if existsb (Z.eqb c) [br_code; br_if_code; call_code; call_indirect_code; get_local_code; set_local_code;
                             tee_local_code; get_global_code; set_global_code; i32_const_code; f32_const_code]
       then Some uint32_field
  else if between i32_load_code i64_store32_code c then Some memarg
  else if existsb (Z.eqb c) [i64_const_code; f64_const_code] then Some uint64_field
  else if c =? br_table_code then Some branchtabletype
  else None.

Definition sizeof_field (t : field_type) : nat :=
  match t with
  | voidtype => 0 | blocktype => 1 | uint32_field => 4 | uint64_field => 8 | memarg => 8 | branchtabletype => 16
  end.

(** [n] bytes of an integer, least significant first, and back. *)
Fixpoint to_bytes (n : nat) (v : Z) : list Z :=
  match n with
  | O => []
  | S n => u8 v :: to_bytes n (Z.shiftr v 8)
  end.
Fixpoint of_bytes (l : list Z) : Z :=
  match l with
  | [] => 0
  | b :: l => b + 256 * of_bytes l
  end.

(** [pack(stream, field)] and [unpack] *)
Definition pack_field (f : field) : list Z :=
  match f with
  | Void => []
  | Block result => to_bytes 1 result
  | U32 v => to_bytes 4 v
  | U64 v => to_bytes 8 v
  | Memarg a o => to_bytes 4 a ++ to_bytes 4 o
  | Branchtable target_depth table_index => to_bytes 8 target_depth ++ to_bytes 8 table_index
  end.
Definition unpack_field (t : field_type) (l : list Z) : field :=
  match t with
  | voidtype => Void
  | blocktype => Block (of_bytes (firstn 1 l))
  | uint32_field => U32 (of_bytes (firstn 4 l))
  | uint64_field => U64 (of_bytes (firstn 8 l))
  | memarg => Memarg (of_bytes (firstn 4 l)) (of_bytes (firstn 4 (skipn 4 l)))
  | branchtabletype => Branchtable (of_bytes (firstn 8 l)) (of_bytes (firstn 8 (skipn 8 l)))
  end.

(** ** instruction_stream *)
Record instruction_stream : Type := Stream { idx : nat; stream_data : list Z }.

Definition new_stream (size : nat) : instruction_stream := Stream 0 (repeat 0 size).
Definition vector_resize (l : list Z) (n : nat) : list Z := firstn n l ++ repeat 0 (n - length l).

(** [set(i, arr)]: append [i] bytes, doubling the vector when it is full. *)
Definition set_bytes (s : instruction_stream) (i : nat) (arr : list Z) : instruction_stream :=
  let data := if Nat.leb (length (stream_data s)) (i + idx s)
              then vector_resize (stream_data s) (length (stream_data s) * 2 + i) else stream_data s in
  Stream (idx s + i) (firstn (idx s) data ++ firstn i arr ++ skipn (idx s + i) data).

Definition get (s : instruction_stream) : list Z := vector_resize (stream_data s) (idx s).

(** [op->pack(&stream)] *)
Definition pack (op : instr) (s : instruction_stream) : instruction_stream :=
  let s := set_bytes s 2 (to_bytes 2 (get_code op)) in
  let packed := pack_field (op_field op) in
  set_bytes s (length packed) packed.

(** ** EOSIO_OperatorDecoderStream: the operation at the head of the code *)
Definition decodeOp (code : list Z) : result (instr * list Z) :=
  if Nat.ltb (length code) 2 then Throw wasm_runtime_exception
  else
    let opcode := of_bytes (firstn 2 code) in
    match field_type_of opcode with
    | Some t =>
        if Nat.ltb (length code) (2 + sizeof_field t) then Throw wasm_runtime_exception
        else Value (Instr opcode (unpack_field t (firstn (sizeof_field t) (skipn 2 code))), skipn (2 + sizeof_field t) code)
    | None => Value (Instr error_code Void, skipn 2 code)
    end.

(** [while (decoder) { op = decoder.decodeOp(); body }].  Every round consumes
    two bytes or more, so the length of the code is fuel enough. *)
Fixpoint decode_loop {S : Type} (fuel : nat) (body : instr -> S -> result S) (code : list Z) (s : S) : result S :=
  match fuel, code with
  | Datatypes.S fuel, _ :: _ =>
      match decodeOp code with
      | Throw e => Throw e
      | Value (op, rest) => rbind (body op s) (decode_loop fuel body rest)
      end
  | _, _ => Value s
  end.
Definition decode_while {S : Type} (body : instr -> S -> result S) (code : list Z) (s : S) : result S :=
  decode_loop (length code) body code s.
