(* ===== verification/OpsProofs.v ===== *)
(** Encoding and decoding operations are inverse, the stream is an append-only
    buffer, and a decoding loop folds its body over the operations. *)
From Stdlib Require Import ZArith Bool Lia List.
From S2P Require Import Prelude Exceptions Opcodes Ops.
Import ListNotations.
Local Open Scope Z_scope.

(** ** Bytes *)
Lemma to_bytes_length (n : nat) (v : Z) : length (to_bytes n v) = n.
Proof. revert v. induction n as [|n IH]; intros v; simpl; [reflexivity|now rewrite IH]. Qed.

Lemma of_to_bytes (n : nat) : forall v, 0 <= v < 2 ^ (8 * Z.of_nat n) -> of_bytes (to_bytes n v) = v.
Proof.
  induction n as [|n IH]; intros v Hv; cbn [to_bytes of_bytes]; [change (2 ^ (8 * Z.of_nat 0)) with 1 in Hv; lia|].
  rewrite Nat2Z.inj_succ, Z.mul_succ_r, Z.pow_add_r in Hv by lia.
  rewrite shr_div by lia. rewrite IH.
  - unfold uwrap. change (2 ^ 8) with 256. pose proof (Z.div_mod v 256). lia.
  - split; [apply Z.div_pos; lia|]. apply Z.div_lt_upper_bound; lia.
Qed.

(** ** Operations *)
Definition word (n v : Z) : Prop := 0 <= v < 2 ^ n.

Definition field_fits (t : field_type) (f : field) : Prop :=
  match t, f with
  | voidtype, Void => True
  | blocktype, Block r => word 8 r
  | uint32_field, U32 v => word 32 v
  | uint64_field, U64 v => word 64 v
  | memarg, Memarg a o => word 32 a /\ word 32 o
  | branchtabletype, Branchtable d i => word 64 d /\ word 64 i
  | _, _ => False
  end.

Definition well_formed (op : instr) : Prop :=
  word 16 (get_code op) /\ exists t, field_type_of (get_code op) = Some t /\ field_fits t (op_field op).

Definition encode (op : instr) : list Z := to_bytes 2 (get_code op) ++ pack_field (op_field op).

Lemma pack_field_length (t : field_type) (f : field) : field_fits t f -> length (pack_field f) = sizeof_field t.
Proof.
  destruct t, f; cbn [field_fits]; try contradiction; intros _; cbn [pack_field sizeof_field];
    rewrite ?length_app, ?to_bytes_length; reflexivity.
Qed.

Lemma firstn_exact {A} (n : nat) (l r : list A) : length l = n -> firstn n (l ++ r) = l.
Proof. intros <-. rewrite firstn_app, Nat.sub_diag, firstn_all. apply app_nil_r. Qed.

Lemma skipn_exact {A} (n : nat) (l r : list A) : length l = n -> skipn n (l ++ r) = r.
Proof. intros <-. rewrite skipn_app, Nat.sub_diag, skipn_all. reflexivity. Qed.

Lemma unpack_pack (t : field_type) (f : field) : field_fits t f -> unpack_field t (pack_field f) = f.
Proof.
  destruct t, f; cbn [field_fits]; try contradiction; unfold word; intros H; cbn [pack_field unpack_field];
    try reflexivity;
    rewrite ?(firstn_exact 4 (to_bytes 4 _)), ?(firstn_exact 8 (to_bytes 8 _)), ?(skipn_exact 4), ?(skipn_exact 8),
      ?(firstn_all2 (n := 1)), ?(firstn_all2 (n := 4)), ?(firstn_all2 (n := 8)), ?of_to_bytes
      by (rewrite ?to_bytes_length; (reflexivity || lia || (cbn; lia))); reflexivity.
Qed.

Lemma decode_encode (op : instr) (rest : list Z) : well_formed op -> decodeOp (encode op ++ rest) = Value (op, rest).
Proof.
  intros (Hc & t & Ht & Hf). unfold decodeOp, encode. rewrite <- app_assoc.
  assert (L2 : length (to_bytes 2 (get_code op)) = 2%nat) by apply to_bytes_length.
  destruct (Nat.ltb_spec (length (to_bytes 2 (get_code op) ++ pack_field (op_field op) ++ rest)) 2) as [L|_];
    [rewrite length_app in L; lia|].
  rewrite firstn_exact by exact L2. rewrite of_to_bytes by exact Hc. rewrite Ht.
  pose proof (pack_field_length t _ Hf) as Lf.
  destruct (Nat.ltb_spec (length (to_bytes 2 (get_code op) ++ pack_field (op_field op) ++ rest)) (2 + sizeof_field t))
    as [L|_]; [rewrite !length_app in L; lia|].
  rewrite skipn_exact by exact L2. rewrite firstn_exact by exact Lf. rewrite unpack_pack by exact Hf.
  rewrite app_assoc, skipn_exact by (rewrite length_app; lia). destruct op; reflexivity.
Qed.

(** ** The stream *)
Definition stream_ok (s : instruction_stream) : Prop := (idx s <= length (stream_data s))%nat.

Lemma get_firstn (s : instruction_stream) : stream_ok s -> get s = firstn (idx s) (stream_data s).
Proof. intros H. unfold get, vector_resize. replace (idx s - _)%nat with 0%nat by (unfold stream_ok in H; lia). apply app_nil_r. Qed.

Lemma new_stream_get (size : nat) : stream_ok (new_stream size) /\ get (new_stream size) = [].
Proof. split; [unfold stream_ok; simpl; lia|reflexivity]. Qed.

Lemma set_get (s : instruction_stream) (i : nat) (arr : list Z) : stream_ok s -> (i <= length arr)%nat ->
  stream_ok (set_bytes s i arr) /\ get (set_bytes s i arr) = get s ++ firstn i arr.
Proof.
  intros H Hi.
  assert (R : forall data, (idx s + i <= length data)%nat -> firstn (idx s) data = firstn (idx s) (stream_data s) ->
    let t := Stream (idx s + i) (firstn (idx s) data ++ firstn i arr ++ skipn (idx s + i) data) in
    stream_ok t /\ get t = get s ++ firstn i arr).
  { intros data L E t.
    assert (O : stream_ok t).
    { unfold stream_ok, t. cbn [idx stream_data]. rewrite !length_app, !length_firstn, length_skipn. lia. }
    split; [exact O|]. rewrite !get_firstn by assumption. unfold t. cbn [idx stream_data].
    rewrite app_assoc, firstn_exact, E; [reflexivity|]. rewrite length_app, !length_firstn. lia. }
  unfold set_bytes. unfold stream_ok in H. apply R; destruct (Nat.leb_spec (length (stream_data s)) (i + idx s)); try lia.
  - unfold vector_resize. rewrite length_app, length_firstn, repeat_length. lia.
  - unfold vector_resize. rewrite firstn_app, firstn_firstn, length_firstn.
    rewrite Nat.min_l by lia. replace (idx s - _)%nat with 0%nat by lia. apply app_nil_r.
  - reflexivity.
Qed.

Lemma pack_get (op : instr) (s : instruction_stream) : stream_ok s ->
  stream_ok (pack op s) /\ get (pack op s) = get s ++ encode op.
Proof.
  intros H. unfold pack, encode.
  destruct (set_get s 2 (to_bytes 2 (get_code op)) H) as [H1 E1]; [rewrite to_bytes_length; lia|].
  destruct (set_get _ (length (pack_field (op_field op))) (pack_field (op_field op)) H1 (le_n _)) as [H2 E2].
  split; [exact H2|]. rewrite E2, E1, firstn_all, (firstn_all2 (n := 2)), app_assoc by (rewrite to_bytes_length; lia).
  reflexivity.
Qed.

(** ** Loops *)
Fixpoint fold_ops {S} (body : instr -> S -> result S) (ops : list instr) (s : S) : result S :=
  match ops with
  | [] => Value s
  | op :: ops => rbind (body op s) (fold_ops body ops)
  end.

Definition encode_all (ops : list instr) : list Z := flat_map encode ops.

Lemma encode_length (op : instr) : (2 <= length (encode op))%nat.
Proof. unfold encode. rewrite length_app, to_bytes_length. lia. Qed.

Lemma decode_loop_fold {S} (body : instr -> S -> result S) (ops : list instr) : Forall well_formed ops ->
  forall fuel s, (length (encode_all ops) <= fuel)%nat ->
  decode_loop fuel body (encode_all ops) s = fold_ops body ops s.
Proof.
  intros F. induction F as [|op ops Hop F IH]; intros fuel s L.
  - destruct fuel; reflexivity.
  - cbn [encode_all flat_map] in *. fold (encode_all ops) in *. pose proof (encode_length op) as Le.
    rewrite length_app in L. destruct fuel as [|fuel]; [lia|].
    destruct (encode op ++ encode_all ops) as [|b code] eqn:E;
      [apply (f_equal (@length Z)) in E; rewrite length_app in E; simpl in E; lia|].
    cbn [decode_loop fold_ops]. rewrite <- E, decode_encode by exact Hop.
    destruct (body op s) as [e|s']; [reflexivity|]. simpl. apply IH. lia.
Qed.

Lemma decode_while_fold {S} (body : instr -> S -> result S) (ops : list instr) (s : S) : Forall well_formed ops ->
  decode_while body (encode_all ops) s = fold_ops body ops s.
Proof. intros F. apply decode_loop_fold; [exact F|apply le_n]. Qed.

Lemma encode_all_app (a b : list instr) : encode_all (a ++ b) = encode_all a ++ encode_all b.
Proof. apply flat_map_app. Qed.

Lemma fold_ops_app {S} (body : instr -> S -> result S) (a b : list instr) (s : S) :
  fold_ops body (a ++ b) s = rbind (fold_ops body a s) (fold_ops body b).
Proof.
  revert s. induction a as [|op a IH]; intros s; [reflexivity|]. cbn [app fold_ops].
  destruct (body op s); [reflexivity|apply IH].
Qed.

(** ** Truncated code, and termination *)
Lemma encode_full_length (op : instr) (t : field_type) : field_type_of (get_code op) = Some t ->
  field_fits t (op_field op) -> length (encode op) = (2 + sizeof_field t)%nat.
Proof. intros T F. unfold encode. rewrite length_app, to_bytes_length, (pack_field_length t) by exact F. reflexivity. Qed.

Lemma firstn_prefix {A} (n k : nat) (l r : list A) : (n <= k)%nat -> (n <= length l)%nat ->
  firstn n (firstn k (l ++ r)) = firstn n l.
Proof.
  intros H L. rewrite firstn_firstn, Nat.min_l by exact H. rewrite firstn_app.
  replace (n - length l)%nat with 0%nat by lia. apply app_nil_r.
Qed.

Lemma decode_truncated (op : instr) (k : nat) : well_formed op -> (k < length (encode op))%nat ->
  decodeOp (firstn k (encode op)) = Throw wasm_runtime_exception.
Proof.
  intros (Hc & t & Ht & Hf) Hk. pose proof (encode_full_length op t Ht Hf) as L. unfold decodeOp.
  rewrite length_firstn, Nat.min_l by lia. destruct (Nat.ltb_spec k 2) as [_|K]; [reflexivity|].
  unfold encode at 1. rewrite firstn_prefix by (rewrite ?to_bytes_length; lia).
  rewrite firstn_all2 by (rewrite to_bytes_length; lia). rewrite of_to_bytes by exact Hc. rewrite Ht.
  destruct (Nat.ltb_spec k (2 + sizeof_field t)); [reflexivity|lia].
Qed.

(** Every operation consumes two bytes at least, whatever the bytes are. *)
Lemma decode_progress (code rest : list Z) (op : instr) : decodeOp code = Value (op, rest) ->
  (length rest + 2 <= length code)%nat.
Proof.
  unfold decodeOp. destruct (Nat.ltb_spec (length code) 2); [discriminate|].
  destruct (field_type_of _) as [t|].
  - destruct (Nat.ltb_spec (length code) (2 + sizeof_field t)); [discriminate|].
    intros E. assert (R : rest = skipn (2 + sizeof_field t) code) by congruence. rewrite R, length_skipn. lia.
  - intros E. assert (R : rest = skipn 2 code) by congruence. rewrite R, length_skipn. lia.
Qed.

Lemma decode_loop_fuel {S} (body : instr -> S -> result S) (fuel : nat) : forall code s more,
  (length code <= fuel)%nat -> (length code <= more)%nat -> decode_loop fuel body code s = decode_loop more body code s.
Proof.
  induction fuel as [|fuel IH]; intros code s more L M.
  - destruct code; [|simpl in L; lia]. destruct more; reflexivity.
  - destruct code as [|b code]; [destruct more; reflexivity|]. destruct more as [|more]; [simpl in M; lia|].
    cbn [decode_loop]. destruct (decodeOp (b :: code)) as [e|[op rest]] eqn:E; [reflexivity|].
    apply decode_progress in E. destruct (body op s) as [e|s']; [reflexivity|]. cbn [rbind]. apply IH; simpl in *; lia.
Qed.

Lemma pack_all (ops : list instr) : forall s, stream_ok s ->
  stream_ok (fold_left (fun s op => pack op s) ops s) /\
  get (fold_left (fun s op => pack op s) ops s) = get s ++ encode_all ops.
Proof.
  induction ops as [|op ops IH]; intros s H; cbn [fold_left encode_all flat_map].
  - split; [exact H|]. now rewrite app_nil_r.
  - destruct (pack_get op s H) as [H1 E1]. destruct (IH _ H1) as [H2 E2]. split; [exact H2|].
    rewrite E2, E1, <- app_assoc. reflexivity.
Qed.

(** C36. The operator encoding round-trips.  Packing operations into an
    instruction_stream of any initial size, growing it as needed, gives the
    concatenation of their encodings; the decoder recovers from it exactly the
    operations packed, in order, so that a decoding loop folds its body over
    them; and an encoding cut short at any byte is refused with
    wasm_runtime_exception. *)
Theorem operator_codec_correct (ops : list instr) (size : nat) : Forall well_formed ops ->
  let code := get (fold_left (fun s op => pack op s) ops (new_stream size)) in
  code = encode_all ops /\
  (forall S (body : instr -> S -> result S) (s : S), decode_while body code s = fold_ops body ops s) /\
  (forall op k, In op ops -> (k < length (encode op))%nat ->
     decodeOp (firstn k (encode op)) = Throw wasm_runtime_exception).
Proof.
  intros F code. destruct (pack_all ops (new_stream size) (proj1 (new_stream_get size))) as [_ E].
  rewrite (proj2 (new_stream_get size)) in E. change (code = encode_all ops) in E. split; [exact E|]. split.
  - intros S body s. rewrite E. now apply decode_while_fold.
  - intros op k I. apply decode_truncated. rewrite Forall_forall in F. now apply F.
Qed.

Lemma operator_codec_correct_witness :
  let ops := [Instr i32_const_code (U32 0x01020304); Instr f64_add_code Void; Instr end_code Void] in
  get (fold_left (fun s op => pack op s) ops (new_stream 0)) = [0x41; 0; 4; 3; 2; 1; 0xa0; 0; 0x0b; 0] /\
  decodeOp (firstn 5 (encode (Instr i32_const_code (U32 0x01020304)))) = Throw wasm_runtime_exception.
Proof.
  intros ops. destruct (operator_codec_correct ops 0) as (A & _ & C).
  - repeat constructor; try discriminate; eexists; (split; [reflexivity|]); repeat split; discriminate.
  - split; [exact A|]. apply C; [left; reflexivity|]. simpl. lia.
Defined.

(** The decoding loops terminate on any code, well formed or not: each round
    consumes at least two bytes, so the bound that the model puts on the number
    of rounds is never what stops a loop: more rounds change nothing, and after
    a round the loop goes on with the rest of the code and the new state. *)
Theorem decoding_terminates {S : Type} (body : instr -> S -> result S) (code : list Z) (s : S) :
  (forall rest op, decodeOp code = Value (op, rest) -> (length rest + 2 <= length code)%nat) /\
  (forall fuel, (length code <= fuel)%nat -> decode_loop fuel body code s = decode_while body code s) /\
  (forall op rest s', decodeOp code = Value (op, rest) -> body op s = Value s' ->
     decode_while body code s = decode_while body rest s').
Proof.
  split; [intros rest op; apply decode_progress|]. split.
  - intros fuel L. apply decode_loop_fuel; [exact L|apply le_n].
  - intros op rest s' E B. pose proof (decode_progress _ _ _ E) as P. unfold decode_while at 1.
    destruct code as [|b code]; [simpl in P; lia|]. cbn [length decode_loop]. rewrite E, B. cbn [rbind].
    apply decode_loop_fuel; [simpl in P; lia|apply le_n].
Qed.

(** Junk: an unknown code, then half of one. *)
Lemma decoding_terminates_witness :
  let body := fun op n => Value (n + get_code op) in
  decode_while body [0xFE; 0xCA; 0x0b; 0; 1] 0 = Throw wasm_runtime_exception /\
  decode_loop 100 body [0xFE; 0xCA; 0x0b; 0; 1] 0 = decode_while body [0xFE; 0xCA; 0x0b; 0; 1] 0.
Proof.
  intros body. split; [vm_compute; reflexivity|].
  apply (decoding_terminates body [0xFE; 0xCA; 0x0b; 0; 1] 0). simpl. lia.
Defined.
