(* ===== verification/Injection.v ===== *)
(** The rewriting of a module before it runs (include/wasm_injection.hpp,
    wasm_injection.cpp): gas charges before every straight line of code,
    floating-point operations replaced by calls of the soft-float intrinsics,
    and the function indices renumbered for the imports that this adds. *)
From Stdlib Require Import ZArith Bool Lia String List.
From S2P Require Import Prelude Exceptions Opcodes Ops.
Import ListNotations.
Local Open Scope Z_scope.

(** ** The module, as far as injection reads and writes it (IR/Module.h) *)
Definition vt_any : Z := 0.
Definition vt_i32 : Z := 1.
Definition vt_i64 : Z := 2.
Definition vt_f32 : Z := 3.
Definition vt_f64 : Z := 4.
Definition vt_num : Z := 5.
Definition rt_none : Z := 0.

Record FunctionType : Type := Function { ret : Z; parameters : list Z }.
Record FunctionImport : Type := Import { import_type : Z; moduleName : string; exportName : string }.
Record FunctionDef : Type := Def { type_index : Z; nonParameterLocalTypes : list Z; code : list Z }.
Inductive ObjectKind : Type := function | table | memory | global.
Record Export : Type := MkExport { export_name : string; kind : ObjectKind; index : Z }.

Definition UINTPTR_MAX : Z := 2 ^ 64 - 1.

Record Module_ : Type := MkModule {
  types : list FunctionType;
  imports : list FunctionImport;
  defs : list FunctionDef;
  memories : list (Z * Z);
  exports : list Export;
  tableSegments : list (list Z);
  startFunctionIndex : Z
}.

(** ** injector_utils: its static maps, by association *)
Record injector_utils : Type := Utils {
  type_slots : list (list Z * Z);
  registered_injected : list (string * Z);
  injected_index_mapping : list (Z * Z);
  next_injected_index : Z
}.

Fixpoint list_eqb (a b : list Z) : bool :=
  match a, b with
  | [], [] => true
  | x :: a, y :: b => (x =? y) && list_eqb a b
  | _, _ => false
  end.

(** [std::map::find] and [emplace], which keeps an existing entry. *)
Fixpoint lookup {K V} (eqb : K -> K -> bool) (k : K) (m : list (K * V)) : option V :=
  match m with
  | [] => None
  | (k', v) :: m => if eqb k' k then Some v else lookup eqb k m
  end.
Definition emplace {K V} (eqb : K -> K -> bool) (k : K) (v : V) (m : list (K * V)) : list (K * V) :=
  match lookup eqb k m with
  | Some _ => m
  | None => m ++ [(k, v)]
  end.

Definition type_key (t : FunctionType) : list Z := ret t :: parameters t.

Fixpoint build_type_slots (i : Z) (ts : list FunctionType) (slots : list (list Z * Z)) : list (list Z * Z) :=
  match ts with
  | [] => slots
  | t :: ts => build_type_slots (i + 1) ts (emplace list_eqb (type_key t) i slots)
  end.

Definition init_utils (m : Module_) : injector_utils := Utils (build_type_slots 0 (types m) []) [] [] 0.

Definition size {A} (l : list A) : Z := Z.of_nat (length l).

Definition add_type_slot (t : FunctionType) (m : Module_) (u : injector_utils) : Module_ * injector_utils :=
  match lookup list_eqb (type_key t) (type_slots u) with
  | Some _ => (m, u)
  | None =>
      (MkModule (types m ++ [t]) (imports m) (defs m) (memories m) (exports m) (tableSegments m) (startFunctionIndex m),
       Utils (type_slots u ++ [(type_key t, size (types m))]) (registered_injected u)
         (injected_index_mapping u) (next_injected_index u))
  end.

Definition EOSIO_INJECTED_MODULE_NAME : string := "eosio_injection".

Definition insert_at {A} (n : nat) (x : A) (l : list A) : list A := firstn n l ++ x :: skipn n l.

Definition shift_export (e : Export) : Export :=
  match kind e with
  | function => MkExport (export_name e) (kind e) (index e + 1)
  | _ => e
  end.

(** [add_import]: the index of the injected function, counted after every
    function of the original module until the last pass renumbers it. *)
Definition add_import (t : FunctionType) (func_name : string) (m : Module_) (u : injector_utils)
    : Z * Module_ * injector_utils :=
  match imports m, lookup String.eqb func_name (registered_injected u) with
  | _ :: _, Some index => (index, m, u)
  | _, _ =>
      let (m, u) := add_type_slot t m u in
      let func_type_index := match lookup list_eqb (type_key t) (type_slots u) with Some i => i | None => 0 end in
      let index := size (imports m) + size (defs m) + size (registered_injected u) in
      let actual_index := next_injected_index u in
      let registered := emplace String.eqb func_name index (registered_injected u) in
      let new_import := Import func_type_index EOSIO_INJECTED_MODULE_NAME func_name in
      (index,
       MkModule (types m) (insert_at (length registered - 1) new_import (imports m)) (defs m) (memories m)
         (map shift_export (exports m)) (map (map (fun i => i + 1)) (tableSegments m))
         (if startFunctionIndex m =? UINTPTR_MAX then startFunctionIndex m else startFunctionIndex m + 1),
       Utils (type_slots u) registered (emplace Z.eqb index actual_index (injected_index_mapping u))
         (next_injected_index u + 1))
  end.

(** ** First pass: use_gas *)

(** The operations after which control may go elsewhere, or to which it may
    come: the cases of the switch in [inject]. *)
Definition flushes (c : Z) : bool :=
  existsb (Z.eqb c) [end_code; br_code; br_table_code; br_if_code; if__code; else__code; return__code; loop_code].

Record usegas_state : Type := Usegas { usegas_code : instruction_stream; tmp_stream : instruction_stream; gas : Z }.

Definition const_inst (gas : Z) : instr := Instr i64_const_code (U64 (u64 gas)).
Definition call_inst (idx : Z) : instr := Instr call_code (U32 (u32 idx)).

Definition usegas_step (use_gas_idx : Z) (op : instr) (s : usegas_state) : result usegas_state :=
  let code := get_code op in
  let gas := i64 (gas s + gas_of code) in
  if flushes code then
    let '(out, gas) :=
      if 0 <? gas
      then (pack (call_inst use_gas_idx) (pack (const_inst gas) (usegas_code s)), 0)
      else (usegas_code s, gas) in
    let tmp := tmp_stream s in
    let out := set_bytes out (idx tmp) (stream_data tmp) in
    Value (Usegas (pack op out) (Stream 0 (stream_data tmp)) gas)
  else Value (Usegas (usegas_code s) (pack op (tmp_stream s)) gas).

Definition with_code (fd : FunctionDef) (c : list Z) : FunctionDef :=
  Def (type_index fd) (nonParameterLocalTypes fd) c.

Definition usegas_pass (use_gas_idx : Z) (fd : FunctionDef) : result FunctionDef :=
  rbind (decode_while (usegas_step use_gas_idx) (code fd)
           (Usegas (new_stream (length (code fd) * 2)) (new_stream 0) 0))
    (fun s => Value (with_code fd (get (usegas_code s)))).

(** ** Second pass: floating-point operations *)
Definition inject_which_op (opcode : Z) : option string :=
  lookup Z.eqb opcode
    [(f32_add_code, "_eosio_f32_add"); (f32_sub_code, "_eosio_f32_sub"); (f32_mul_code, "_eosio_f32_mul");
     (f32_div_code, "_eosio_f32_div"); (f32_min_code, "_eosio_f32_min"); (f32_max_code, "_eosio_f32_max");
     (f32_copysign_code, "_eosio_f32_copysign"); (f32_abs_code, "_eosio_f32_abs"); (f32_neg_code, "_eosio_f32_neg");
     (f32_sqrt_code, "_eosio_f32_sqrt"); (f32_ceil_code, "_eosio_f32_ceil"); (f32_floor_code, "_eosio_f32_floor");
     (f32_trunc_code, "_eosio_f32_trunc"); (f32_nearest_code, "_eosio_f32_nearest");
     (f32_eq_code, "_eosio_f32_eq"); (f32_ne_code, "_eosio_f32_ne"); (f32_lt_code, "_eosio_f32_lt");
     (f32_le_code, "_eosio_f32_le"); (f32_gt_code, "_eosio_f32_gt"); (f32_ge_code, "_eosio_f32_ge");
     (f64_add_code, "_eosio_f64_add"); (f64_sub_code, "_eosio_f64_sub"); (f64_mul_code, "_eosio_f64_mul");
     (f64_div_code, "_eosio_f64_div"); (f64_min_code, "_eosio_f64_min"); (f64_max_code, "_eosio_f64_max");
     (f64_copysign_code, "_eosio_f64_copysign"); (f64_abs_code, "_eosio_f64_abs"); (f64_neg_code, "_eosio_f64_neg");
     (f64_sqrt_code, "_eosio_f64_sqrt"); (f64_ceil_code, "_eosio_f64_ceil"); (f64_floor_code, "_eosio_f64_floor");
     (f64_trunc_code, "_eosio_f64_trunc"); (f64_nearest_code, "_eosio_f64_nearest");
     (f64_eq_code, "_eosio_f64_eq"); (f64_ne_code, "_eosio_f64_ne"); (f64_lt_code, "_eosio_f64_lt");
     (f64_le_code, "_eosio_f64_le"); (f64_gt_code, "_eosio_f64_gt"); (f64_ge_code, "_eosio_f64_ge");
     (f64_promote_f32_code, "_eosio_f32_promote"); (f32_demote_f64_code, "_eosio_f64_demote");
     (i32_trunc_u_f32_code, "_eosio_f32_trunc_i32u"); (i32_trunc_s_f32_code, "_eosio_f32_trunc_i32s");
     (i32_trunc_u_f64_code, "_eosio_f64_trunc_i32u"); (i32_trunc_s_f64_code, "_eosio_f64_trunc_i32s");
     (i64_trunc_u_f32_code, "_eosio_f32_trunc_i64u"); (i64_trunc_s_f32_code, "_eosio_f32_trunc_i64s");
     (i64_trunc_u_f64_code, "_eosio_f64_trunc_i64u"); (i64_trunc_s_f64_code, "_eosio_f64_trunc_i64s");
     (f32_convert_s_i32_code, "_eosio_i32_to_f32"); (f32_convert_u_i32_code, "_eosio_ui32_to_f32");
     (f32_convert_s_i64_code, "_eosio_i64_f32"); (f32_convert_u_i64_code, "_eosio_ui64_to_f32");
     (f64_convert_s_i32_code, "_eosio_i32_to_f64"); (f64_convert_u_i32_code, "_eosio_ui32_to_f64");
     (f64_convert_s_i64_code, "_eosio_i64_to_f64"); (f64_convert_u_i64_code, "_eosio_ui64_to_f64")]%string.

Definition f32_binop_codes : list Z :=
  [f32_add_code; f32_sub_code; f32_div_code; f32_mul_code; f32_min_code; f32_max_code; f32_copysign_code].
Definition f32_unop_codes : list Z :=
  [f32_abs_code; f32_neg_code; f32_sqrt_code; f32_floor_code; f32_ceil_code; f32_trunc_code; f32_nearest_code].
Definition f32_relop_codes : list Z :=
  [f32_eq_code; f32_ne_code; f32_lt_code; f32_le_code; f32_gt_code; f32_ge_code].
Definition f64_binop_codes : list Z :=
  [f64_add_code; f64_sub_code; f64_div_code; f64_mul_code; f64_min_code; f64_max_code; f64_copysign_code].
Definition f64_unop_codes : list Z :=
  [f64_abs_code; f64_neg_code; f64_sqrt_code; f64_floor_code; f64_ceil_code; f64_trunc_code; f64_nearest_code].
Definition f64_relop_codes : list Z :=
  [f64_eq_code; f64_ne_code; f64_lt_code; f64_le_code; f64_gt_code; f64_ge_code].

(** [pre_op_injectors]: the type of the intrinsic that replaces an operation.
    The [f32_convert_*] and [f64_convert_*] aliases of the struct lack the
    suffix [_t], so the types that [cached_ops] selects for these codes are the
    inherited ones, with [pass_injector]. *)
Definition pre_op_injectors (c : Z) : option FunctionType :=
  let among := existsb (Z.eqb c) in
  if among f32_binop_codes then Some (Function vt_f32 [vt_f32; vt_f32])
  else if among f32_unop_codes then Some (Function vt_f32 [vt_f32])
  else if among f32_relop_codes then Some (Function vt_i32 [vt_f32; vt_f32])
  else if among f64_binop_codes then Some (Function vt_f64 [vt_f64; vt_f64])
  else if among f64_unop_codes then Some (Function vt_f64 [vt_f64])
  else if among f64_relop_codes then Some (Function vt_i32 [vt_f64; vt_f64])
  else if c =? f64_promote_f32_code then Some (Function vt_f64 [vt_f32])
  else if c =? f32_demote_f64_code then Some (Function vt_f32 [vt_f64])
  else if among [i32_trunc_s_f32_code; i32_trunc_u_f32_code] then Some (Function vt_i32 [vt_f32])
  else if among [i32_trunc_s_f64_code; i32_trunc_u_f64_code] then Some (Function vt_i32 [vt_f64])
  else if among [i64_trunc_s_f32_code; i64_trunc_u_f32_code] then Some (Function vt_i64 [vt_f32])
  else if among [i64_trunc_s_f64_code; i64_trunc_u_f64_code] then Some (Function vt_i64 [vt_f64])
  else None.

Record pre_state : Type := Pre { pre_module : Module_; pre_utils : injector_utils; pre_code : instruction_stream }.

Definition pre_step (op : instr) (s : pre_state) : result pre_state :=
  match pre_op_injectors (get_code op) with
  | Some t =>
      match inject_which_op (get_code op) with
      | Some name =>
          let '(idx, m, u) := add_import t name (pre_module s) (pre_utils s) in
          Value (Pre m u (pack (call_inst idx) (pre_code s)))
      | None => Throw wasm_runtime_exception
      end
  | None => Value (Pre (pre_module s) (pre_utils s) (pack op (pre_code s)))
  end.

Fixpoint pre_pass (fds : list FunctionDef) (m : Module_) (u : injector_utils)
    : result (list FunctionDef * Module_ * injector_utils) :=
  match fds with
  | [] => Value ([], m, u)
  | fd :: fds =>
      rbind (decode_while pre_step (code fd) (Pre m u (new_stream (length (code fd) * 2))))
        (fun s => rbind (pre_pass fds (pre_module s) (pre_utils s))
           (fun '(fds, m, u) => Value (with_code fd (get (pre_code s)) :: fds, m, u)))
  end.

(** ** Third pass: function indices *)
Definition fix_call_index (u : injector_utils) (op : instr) : instr :=
  match op_field op with
  | U32 f =>
      Instr (get_code op)
        (U32 (match lookup Z.eqb f (injected_index_mapping u) with
              | Some mapped => u32 mapped
              | None => u32 (f + size (registered_injected u))
              end))
  | _ => op
  end.

Definition post_step (u : injector_utils) (op : instr) (post_code : instruction_stream) : result instruction_stream :=
  Value (pack (if get_code op =? call_code then fix_call_index u op else op) post_code).

Definition post_pass (u : injector_utils) (fd : FunctionDef) : result FunctionDef :=
  rbind (decode_while (post_step u) (code fd) (new_stream (length (code fd) * 2)))
    (fun s => Value (with_code fd (get s))).

Fixpoint map_result {A B} (f : A -> result B) (l : list A) : result (list B) :=
  match l with
  | [] => Value []
  | x :: l => rbind (f x) (fun y => rbind (map_result f l) (fun l => Value (y :: l)))
  end.

(** ** The whole injection *)
Definition maximum_linear_memory : Z := 33 * 1024 * 1024.
Definition wasm_page_size : Z := 64 * 1024.

Definition max_memory_injection (mems : list (Z * Z)) : list (Z * Z) :=
  match mems with
  | (min, max) :: rest =>
      if maximum_linear_memory / wasm_page_size <? max then (min, maximum_linear_memory / wasm_page_size) :: rest
      else mems
  | [] => []
  end.

Definition with_defs (m : Module_) (ds : list FunctionDef) : Module_ :=
  MkModule (types m) (imports m) ds (memories m) (exports m) (tableSegments m) (startFunctionIndex m).
Definition with_memories (m : Module_) (mems : list (Z * Z)) : Module_ :=
  MkModule (types m) (imports m) (defs m) mems (exports m) (tableSegments m) (startFunctionIndex m).

Definition inject (m : Module_) : result Module_ :=
  let u := init_utils m in
  let m := with_memories m (max_memory_injection (memories m)) in
  let '(use_gas_idx, m, u) := add_import (Function rt_none [vt_i64]) "use_gas"%string m u in
  rbind (map_result (usegas_pass use_gas_idx) (defs m)) (fun ds =>
  rbind (pre_pass ds m u) (fun '(ds, m, u) =>
  rbind (map_result (post_pass u) ds) (fun ds =>
  Value (with_defs m ds)))).

(** ** The intrinsics to which the replaced operations are linked
    REGISTER_INJECTED_INTRINSICS(softfloat_api, ...) in wasm_interface.cpp: the
    registered names with their WebAssembly types. *)
Definition softfloat_intrinsics : list (string * FunctionType) :=
  [("_eosio_f32_add", Function vt_f32 [vt_f32; vt_f32]);
   ("_eosio_f32_sub", Function vt_f32 [vt_f32; vt_f32]);
   ("_eosio_f32_mul", Function vt_f32 [vt_f32; vt_f32]);
   ("_eosio_f32_div", Function vt_f32 [vt_f32; vt_f32]);
   ("_eosio_f32_min", Function vt_f32 [vt_f32; vt_f32]);
   ("_eosio_f32_max", Function vt_f32 [vt_f32; vt_f32]);
   ("_eosio_f32_copysign", Function vt_f32 [vt_f32; vt_f32]);
   ("_eosio_f32_abs", Function vt_f32 [vt_f32]);
   ("_eosio_f32_neg", Function vt_f32 [vt_f32]);
   ("_eosio_f32_sqrt", Function vt_f32 [vt_f32]);
   ("_eosio_f32_ceil", Function vt_f32 [vt_f32]);
   ("_eosio_f32_floor", Function vt_f32 [vt_f32]);
   ("_eosio_f32_trunc", Function vt_f32 [vt_f32]);
   ("_eosio_f32_nearest", Function vt_f32 [vt_f32]);
   ("_eosio_f32_eq", Function vt_i32 [vt_f32; vt_f32]);
   ("_eosio_f32_ne", Function vt_i32 [vt_f32; vt_f32]);
   ("_eosio_f32_lt", Function vt_i32 [vt_f32; vt_f32]);
   ("_eosio_f32_le", Function vt_i32 [vt_f32; vt_f32]);
   ("_eosio_f32_gt", Function vt_i32 [vt_f32; vt_f32]);
   ("_eosio_f32_ge", Function vt_i32 [vt_f32; vt_f32]);
   ("_eosio_f64_add", Function vt_f64 [vt_f64; vt_f64]);
   ("_eosio_f64_sub", Function vt_f64 [vt_f64; vt_f64]);
   ("_eosio_f64_mul", Function vt_f64 [vt_f64; vt_f64]);
   ("_eosio_f64_div", Function vt_f64 [vt_f64; vt_f64]);
   ("_eosio_f64_min", Function vt_f64 [vt_f64; vt_f64]);
   ("_eosio_f64_max", Function vt_f64 [vt_f64; vt_f64]);
   ("_eosio_f64_copysign", Function vt_f64 [vt_f64; vt_f64]);
   ("_eosio_f64_abs", Function vt_f64 [vt_f64]);
   ("_eosio_f64_neg", Function vt_f64 [vt_f64]);
   ("_eosio_f64_sqrt", Function vt_f64 [vt_f64]);
   ("_eosio_f64_ceil", Function vt_f64 [vt_f64]);
   ("_eosio_f64_floor", Function vt_f64 [vt_f64]);
   ("_eosio_f64_trunc", Function vt_f64 [vt_f64]);
   ("_eosio_f64_nearest", Function vt_f64 [vt_f64]);
   ("_eosio_f64_eq", Function vt_i32 [vt_f64; vt_f64]);
   ("_eosio_f64_ne", Function vt_i32 [vt_f64; vt_f64]);
   ("_eosio_f64_lt", Function vt_i32 [vt_f64; vt_f64]);
   ("_eosio_f64_le", Function vt_i32 [vt_f64; vt_f64]);
   ("_eosio_f64_gt", Function vt_i32 [vt_f64; vt_f64]);
   ("_eosio_f64_ge", Function vt_i32 [vt_f64; vt_f64]);
   ("_eosio_f32_promote", Function vt_f64 [vt_f32]);
   ("_eosio_f64_demote", Function vt_f32 [vt_f64]);
   ("_eosio_f32_trunc_i32s", Function vt_i32 [vt_f32]);
   ("_eosio_f64_trunc_i32s", Function vt_i32 [vt_f64]);
   ("_eosio_f32_trunc_i32u", Function vt_i32 [vt_f32]);
   ("_eosio_f64_trunc_i32u", Function vt_i32 [vt_f64]);
   ("_eosio_f32_trunc_i64s", Function vt_i64 [vt_f32]);
   ("_eosio_f64_trunc_i64s", Function vt_i64 [vt_f64]);
   ("_eosio_f32_trunc_i64u", Function vt_i64 [vt_f32]);
   ("_eosio_f64_trunc_i64u", Function vt_i64 [vt_f64]);
   ("_eosio_i32_to_f32", Function vt_f32 [vt_i32]);
   ("_eosio_i64_to_f32", Function vt_f32 [vt_i64]);
   ("_eosio_ui32_to_f32", Function vt_f32 [vt_i32]);
   ("_eosio_ui64_to_f32", Function vt_f32 [vt_i64]);
   ("_eosio_i32_to_f64", Function vt_f64 [vt_i32]);
   ("_eosio_i64_to_f64", Function vt_f64 [vt_i64]);
   ("_eosio_ui32_to_f64", Function vt_f64 [vt_i32]);
   ("_eosio_ui64_to_f64", Function vt_f64 [vt_i64])]%string.
