(* ===== verification/GasInjection.v ===== *)
(** What the use_gas pass produces: every straight line of code is preceded by
    the charge for the whole of it, and no path through a function runs
    operations it has not paid for. *)
From Stdlib Require Import ZArith Bool Lia List.
From S2P Require Import Prelude Exceptions Opcodes Ops OpsProofs Injection.
Import ListNotations.
Local Open Scope Z_scope.

(** ** Segments: the code cut after each operation that flushes *)
Definition flushing (op : instr) : bool := flushes (get_code op).

Fixpoint segments (pending ops : list instr) : list (list instr) :=
  match ops with
  | [] => []
  | op :: ops =>
      if flushing op then (pending ++ [op]) :: segments [] ops else segments (pending ++ [op]) ops
  end.

Definition segment_gas (ops : list instr) : Z := fold_right (fun op g => gas_of (get_code op) + g) 0 ops.

(** The charge for a segment, and the segment behind it. *)
Definition charge (use_gas_idx g : Z) : list instr :=
  if 0 <? g then [const_inst g; call_inst use_gas_idx] else [].
Definition charged (use_gas_idx : Z) (seg : list instr) : list instr := charge use_gas_idx (segment_gas seg) ++ seg.
Definition metered (use_gas_idx : Z) (ops : list instr) : list instr :=
  flat_map (charged use_gas_idx) (segments [] ops).

Lemma segment_gas_app (a b : list instr) : segment_gas (a ++ b) = segment_gas a + segment_gas b.
Proof. induction a as [|op a IH]; simpl; [reflexivity|rewrite IH; lia]. Qed.

Lemma segment_gas_bound (ops : list instr) : 0 <= segment_gas ops <= 2000 * Z.of_nat (length ops).
Proof.
  induction ops as [|op ops IH]; [simpl; lia|]. cbn [segment_gas fold_right length]. fold (segment_gas ops).
  pose proof (gas_nonneg (get_code op)). pose proof (gas_bound (get_code op)). lia.
Qed.

Lemma charge_get (idx g : Z) (s : instruction_stream) : stream_ok s ->
  let s' := if 0 <? g then pack (call_inst idx) (pack (const_inst g) s) else s in
  stream_ok s' /\ get s' = get s ++ encode_all (charge idx g).
Proof.
  intros H s'. unfold s', charge. destruct (0 <? g).
  - destruct (pack_get (const_inst g) s H) as [H1 E1]. destruct (pack_get (call_inst idx) _ H1) as [H2 E2].
    split; [exact H2|]. rewrite E2, E1. cbn [encode_all flat_map]. now rewrite app_nil_r, app_assoc.
  - split; [exact H|]. symmetry. apply app_nil_r.
Qed.

(** The state of the pass holds the output so far and the pending operations. *)
Definition usegas_inv (out pending : list instr) (s : usegas_state) : Prop :=
  stream_ok (usegas_code s) /\ stream_ok (tmp_stream s) /\
  get (usegas_code s) = encode_all out /\ get (tmp_stream s) = encode_all pending /\ gas s = segment_gas pending.

Lemma tmp_bytes (s : instruction_stream) : stream_ok s -> firstn (idx s) (stream_data s) = get s.
Proof. intros H. symmetry. now apply get_firstn. Qed.

Lemma usegas_flush (idx : Z) (op : instr) (out pending : list instr) (s : usegas_state) :
  usegas_inv out pending s -> flushing op = true -> segment_gas (pending ++ [op]) < 2 ^ 63 ->
  exists s', usegas_step idx op s = Value s' /\ usegas_inv (out ++ charged idx (pending ++ [op])) [] s'.
Proof.
  intros (H1 & H2 & E1 & E2 & Eg) F B. unfold flushing in F. unfold usegas_step. rewrite F, Eg.
  rewrite segment_gas_app in B. cbn [segment_gas fold_right] in B.
  pose proof (segment_gas_bound pending) as P. pose proof (gas_nonneg (get_code op)) as G.
  rewrite (swrap_small 64) by (try lia; change (64 - 1) with 63; lia).
  destruct (charge_get idx (segment_gas pending + gas_of (get_code op)) (usegas_code s) H1) as [H3 E3].
  assert (Z0 : forall g, (if 0 <? g then 0 else g) = 0 \/ g < 0) by (intros g; destruct (Z.ltb_spec 0 g); lia).
  assert (Q : (if 0 <? segment_gas pending + gas_of (get_code op)
               then (pack (call_inst idx) (pack (const_inst (segment_gas pending + gas_of (get_code op))) (usegas_code s)), 0)
               else (usegas_code s, segment_gas pending + gas_of (get_code op)))
            = (if 0 <? segment_gas pending + gas_of (get_code op)
               then pack (call_inst idx) (pack (const_inst (segment_gas pending + gas_of (get_code op))) (usegas_code s))
               else usegas_code s, 0)).
  { destruct (Z.ltb_spec 0 (segment_gas pending + gas_of (get_code op))); f_equal. lia. }
  rewrite Q. set (u := if 0 <? _ then _ else usegas_code s) in *. clearbody u. clear Q Z0.
  destruct (set_get u (Ops.idx (tmp_stream s)) (stream_data (tmp_stream s)) H3 H2) as [H4 E4].
  destruct (pack_get op _ H4) as [H5 E5].
  eexists. split; [reflexivity|]. repeat split; try assumption; cbn [usegas_code tmp_stream].
  - unfold stream_ok. simpl. lia.
  - rewrite E5, E4, E3, E1, tmp_bytes, E2 by exact H2. unfold charged.
    rewrite segment_gas_app. cbn [segment_gas fold_right]. rewrite Z.add_0_r, !encode_all_app.
    cbn [encode_all flat_map]. now rewrite app_nil_r, !app_assoc.
Qed.

Lemma usegas_keep (idx : Z) (op : instr) (out pending : list instr) (s : usegas_state) :
  usegas_inv out pending s -> flushing op = false -> segment_gas (pending ++ [op]) < 2 ^ 63 ->
  exists s', usegas_step idx op s = Value s' /\ usegas_inv out (pending ++ [op]) s'.
Proof.
  intros (H1 & H2 & E1 & E2 & Eg) F B. unfold flushing in F. unfold usegas_step. rewrite F, Eg.
  rewrite segment_gas_app in B. cbn [segment_gas fold_right] in B.
  pose proof (segment_gas_bound pending) as P. pose proof (gas_nonneg (get_code op)) as G.
  rewrite (swrap_small 64) by (try lia; change (64 - 1) with 63; lia).
  destruct (pack_get op _ H2) as [H3 E3].
  eexists. split; [reflexivity|]. repeat split; try assumption; cbn [usegas_code tmp_stream gas].
  - rewrite E3, E2, encode_all_app. cbn [encode_all flat_map]. now rewrite app_nil_r.
  - rewrite segment_gas_app. cbn [segment_gas fold_right]. lia.
Qed.

Lemma usegas_fold (idx : Z) (ops : list instr) : forall out pending s, usegas_inv out pending s ->
  2000 * Z.of_nat (length pending + length ops) < 2 ^ 63 ->
  exists s', fold_ops (usegas_step idx) ops s = Value s' /\
    stream_ok (usegas_code s') /\
    get (usegas_code s') = encode_all (out ++ flat_map (charged idx) (segments pending ops)).
Proof.
  induction ops as [|op ops IH]; intros out pending s I B.
  - exists s. split; [reflexivity|]. cbn [segments flat_map]. rewrite app_nil_r. split; apply I.
  - cbn [fold_ops segments length] in *.
    assert (G : segment_gas (pending ++ [op]) < 2 ^ 63).
    { pose proof (segment_gas_bound (pending ++ [op])) as P. rewrite length_app in P. cbn [length] in P. lia. }
    destruct (flushing op) eqn:F.
    + destruct (usegas_flush idx op out pending s I F G) as (s1 & E & I1). rewrite E. simpl rbind.
      destruct (IH _ _ s1 I1) as (s2 & E2 & H2 & R2); [cbn [length]; lia|]. exists s2.
      split; [exact E2|]. split; [exact H2|]. rewrite R2. cbn [flat_map]. now rewrite app_assoc.
    + destruct (usegas_keep idx op out pending s I F G) as (s1 & E & I1). rewrite E. simpl rbind.
      apply (IH _ _ s1 I1). rewrite length_app. cbn [length]. lia.
Qed.

Lemma usegas_pass_spec (idx : Z) (fd : FunctionDef) (ops : list instr) :
  code fd = encode_all ops -> Forall well_formed ops -> 2000 * Z.of_nat (length ops) < 2 ^ 63 ->
  usegas_pass idx fd = Value (with_code fd (encode_all (metered idx ops))).
Proof.
  intros E F B. unfold usegas_pass. rewrite E, decode_while_fold by exact F.
  destruct (new_stream_get (length (encode_all ops) * 2)) as [N1 N2].
  destruct (usegas_fold idx ops [] [] (Usegas (new_stream (length (encode_all ops) * 2)) (new_stream 0) 0))
    as (s & R & _ & G).
  - repeat split; try assumption; try reflexivity. unfold stream_ok. simpl. lia.
  - cbn [length]. lia.
  - rewrite R. simpl. now rewrite G.
Qed.

(** ** The segments of a function *)
Lemma segments_concat (ops : list instr) : forall pending op,
  concat (segments pending (ops ++ [op])) = if flushing op then pending ++ ops ++ [op] else concat (segments pending ops).
Proof.
  induction ops as [|x ops IH]; intros pending op; cbn [segments app concat].
  - destruct (flushing op); simpl; [now rewrite app_nil_r|reflexivity].
  - destruct (flushing x); [|rewrite IH; destruct (flushing op); [now rewrite <- app_assoc|reflexivity]].
    cbn [concat]. rewrite IH. destruct (flushing op); [|reflexivity]. now rewrite <- app_assoc.
Qed.

(** Only the last operation of a segment flushes. *)
Definition straight (seg : list instr) : Prop :=
  exists body op, seg = body ++ [op] /\ flushing op = true /\ Forall (fun o => flushing o = false) body.

Lemma segments_straight (ops : list instr) : forall pending, Forall (fun o => flushing o = false) pending ->
  Forall straight (segments pending ops).
Proof.
  induction ops as [|op ops IH]; intros pending F; cbn [segments]; [constructor|].
  destruct (flushing op) eqn:E.
  - constructor; [exists pending, op; auto|]. apply IH. constructor.
  - apply IH, Forall_app. auto.
Qed.

(** ** Paths through a function
    The gas of the line that starts at the head of [ops], to its first
    operation that flushes. *)
Fixpoint line_gas (ops : list instr) : Z :=
  match ops with
  | [] => 0
  | op :: ops => gas_of (get_code op) + (if flushing op then 0 else line_gas ops)
  end.

(** The operations in place, with a charge for the whole line wherever a line
    starts: at the beginning and behind each operation that flushes. *)
Fixpoint annotated (use_gas_idx : Z) (start : bool) (ops : list instr) : list instr :=
  match ops with
  | [] => []
  | op :: rest =>
      (if start then charge use_gas_idx (line_gas ops) else []) ++ op :: annotated use_gas_idx (flushing op) rest
  end.

Definition ends_flushing (ops : list instr) : Prop := exists body op, ops = body ++ [op] /\ flushing op = true.

Lemma annotated_segment (idx : Z) (ops : list instr) : forall pending, ops = [] \/ ends_flushing ops ->
  flat_map (charged idx) (segments pending ops) =
  match ops with
  | [] => []
  | _ => charge idx (segment_gas pending + line_gas ops) ++ pending ++ annotated idx false ops
  end.
Proof.
  induction ops as [|op ops IH]; intros pending E; [reflexivity|].
  cbn [segments line_gas annotated app].
  assert (T : ops = [] /\ flushing op = true \/ ends_flushing ops).
  { destruct E as [E|(body & o & E & F)]; [discriminate|]. destruct body as [|b body]; injection E as -> ->.
    - left. auto.
    - right. exists body, o. auto. }
  destruct (flushing op) eqn:Ef.
  - cbn [flat_map]. rewrite IH by (destruct T as [[-> _]|T]; auto). unfold charged at 1.
    rewrite segment_gas_app. cbn [segment_gas fold_right]. rewrite !Z.add_0_r, <- !app_assoc. do 3 f_equal.
    destruct ops as [|o ops]; [reflexivity|]. cbn [segment_gas fold_right annotated app]. reflexivity.
  - destruct T as [[_ T]|T]; [congruence|]. rewrite IH by auto. destruct ops as [|o ops].
    + destruct T as (body & op' & E' & _). destruct body; discriminate.
    + rewrite segment_gas_app. cbn [segment_gas fold_right]. rewrite Z.add_0_r, Z.add_assoc, <- app_assoc. reflexivity.
Qed.

Lemma metered_annotated (idx : Z) (ops : list instr) : ops = [] \/ ends_flushing ops ->
  metered idx ops = annotated idx true ops.
Proof.
  intros E. unfold metered. rewrite annotated_segment by exact E. destruct ops as [|op ops]; [reflexivity|].
  cbn [segment_gas fold_right annotated app]. reflexivity.
Qed.

Definition lands (op : instr) : bool := existsb (Z.eqb (get_code op)) [loop_code; else__code; end_code].
Definition jumps (op : instr) : bool :=
  existsb (Z.eqb (get_code op)) [br_code; br_if_code; br_table_code; if__code; else__code].

(** Control moves to the next operation, or from a branch to a place behind a
    [loop], an [else] or an [end], where every label of WebAssembly is. *)
Inductive moves (ops : list instr) (p : nat) : nat -> Prop :=
  | falls : moves ops p (S p)
  | branches op target q : nth_error ops p = Some op -> jumps op = true ->
      nth_error ops q = Some target -> lands target = true -> moves ops p (S q).

Inductive path (ops : list instr) : nat -> list nat -> Prop :=
  | stops p : (p < length ops)%nat -> path ops p [p]
  | continues p q l : (p < length ops)%nat -> moves ops p q -> path ops q l -> path ops p (p :: l).

Definition op_gas (ops : list instr) (p : nat) : Z :=
  match nth_error ops p with Some op => gas_of (get_code op) | None => 0 end.
(** A line starts at [p]. *)
Definition starts (ops : list instr) (p : nat) : bool :=
  match p with
  | O => true
  | S q => match nth_error ops q with Some op => flushing op | None => false end
  end.
Definition executed (ops : list instr) (l : list nat) : Z := fold_right (fun p g => op_gas ops p + g) 0 l.
Definition paid (ops : list instr) (l : list nat) : Z :=
  fold_right (fun p g => (if starts ops p then line_gas (skipn p ops) else 0) + g) 0 l.

Lemma line_gas_nonneg (ops : list instr) : 0 <= line_gas ops.
Proof.
  induction ops as [|op ops IH]; cbn [line_gas]; [lia|]. pose proof (gas_nonneg (get_code op)).
  destruct (flushing op); lia.
Qed.

Lemma skipn_nth (ops : list instr) (p : nat) (op : instr) : nth_error ops p = Some op ->
  skipn p ops = op :: skipn (S p) ops.
Proof.
  revert ops. induction p as [|p IH]; intros [|x ops] H; try discriminate; [injection H as ->; reflexivity|].
  apply IH, H.
Qed.

Lemma lands_flushing (op : instr) : lands op = true -> flushing op = true.
Proof.
  unfold lands, flushing, flushes. rewrite !existsb_exists. intros (c & H & E). exists c. split; [|exact E].
  simpl in *. tauto.
Qed.

Lemma jumps_flushing (op : instr) : jumps op = true -> flushing op = true.
Proof.
  unfold jumps, flushing, flushes. rewrite !existsb_exists. intros (c & H & E). exists c. split; [|exact E].
  simpl in *. tauto.
Qed.

(** From inside a line, what is left of it and the lines entered later pay for
    the path. *)
Lemma path_paid (ops : list instr) (p : nat) (l : list nat) : path ops p l ->
  executed ops l <= line_gas (skipn p ops) + paid ops (tl l).
Proof.
  induction 1 as [p Hp|p q l Hp M P IH].
  - destruct (nth_error ops p) as [op|] eqn:E; [|apply nth_error_None in E; lia].
    cbn [executed fold_right tl paid]. unfold op_gas. rewrite E, (skipn_nth _ _ _ E). cbn [line_gas].
    pose proof (line_gas_nonneg (skipn (S p) ops)). destruct (flushing op); lia.
  - destruct (nth_error ops p) as [op|] eqn:E; [|apply nth_error_None in E; lia].
    cbn [executed fold_right tl]. fold (executed ops l).
    assert (Hd : exists l', l = q :: l') by (inversion P; eauto). destruct Hd as [l' ->].
    cbn [paid fold_right tl] in *. fold (paid ops l') in *.
    unfold op_gas at 1. rewrite E, (skipn_nth _ _ _ E). cbn [line_gas].
    assert (S : starts ops q = flushing op \/ starts ops q = true /\ flushing op = true).
    { destruct M as [|o target r Eo J Et T]; [left; unfold starts; now rewrite E|right].
      rewrite E in Eo. injection Eo as <-. unfold starts. rewrite Et.
      split; [now apply lands_flushing|now apply jumps_flushing]. }
    destruct (flushing op) eqn:F.
    + assert (St : starts ops q = true) by (destruct S as [S|[S _]]; exact S). rewrite St. lia.
    + assert (St : starts ops q = false) by (destruct S as [S|[_ S]]; congruence). rewrite St.
      destruct M as [|o target r Eo J Et T]; [lia|]. rewrite E in Eo. injection Eo as <-.
      apply jumps_flushing in J. congruence.
Qed.

Lemma last_default {A} (x : A) (l : list A) : forall d d', last (x :: l) d = last (x :: l) d'.
Proof. revert x. induction l as [|y l IH]; intros x d d'; [reflexivity|]. apply (IH y). Qed.

(** When the path stops behind an operation that flushes nothing is overpaid. *)
Lemma path_exact (ops : list instr) (p : nat) (l : list nat) : path ops p l ->
  (forall op, nth_error ops (last l p) = Some op -> flushing op = true) ->
  executed ops l = line_gas (skipn p ops) + paid ops (tl l).
Proof.
  induction 1 as [p Hp|p q l Hp M P IH]; intros Lf.
  - destruct (nth_error ops p) as [op|] eqn:E; [|apply nth_error_None in E; lia].
    cbn [executed fold_right tl paid]. unfold op_gas. rewrite E, (skipn_nth _ _ _ E). cbn [line_gas].
    simpl in Lf. rewrite (Lf op E). lia.
  - destruct (nth_error ops p) as [op|] eqn:E; [|apply nth_error_None in E; lia].
    cbn [executed fold_right tl]. fold (executed ops l).
    assert (Hd : exists l', l = q :: l') by (inversion P; eauto). destruct Hd as [l' ->].
    rewrite IH by (intros o Ho; apply Lf; change (last (p :: q :: l') p) with (last (q :: l') p);
                   now rewrite (last_default q l' p q)).
    cbn [paid fold_right tl] in *. fold (paid ops l') in *.
    unfold op_gas at 1. rewrite E, (skipn_nth _ _ _ E). cbn [line_gas].
    destruct M as [|o target r Eo J Et T].
    + unfold starts. rewrite E. destruct (flushing op); lia.
    + rewrite E in Eo. injection Eo as <-. unfold starts. rewrite Et, (lands_flushing _ T), (jumps_flushing _ J). lia.
Qed.

Lemma paid_from_start (ops : list instr) (l : list nat) : path ops 0 l ->
  paid ops l = line_gas (skipn 0 ops) + paid ops (tl l).
Proof. intros P. inversion P; reflexivity. Qed.

(** C9. Metering is sound and exact.  On the code of a function that ends with
    a flushing operation (every function ends with [end]) the use_gas pass
    keeps the operations in order and puts, before the first operation of each
    straight line, the constant total price of the line and a call of use_gas.
    Along every path that control can take through the function, the prices of
    the operations executed never exceed the charges made on entering its
    lines, and equal them whenever the path stops behind a line. *)
Theorem usegas_pass_correct (use_gas_idx : Z) (fd : FunctionDef) (ops : list instr) :
  code fd = encode_all ops -> Forall well_formed ops -> ends_flushing ops ->
  2000 * Z.of_nat (length ops) < 2 ^ 63 ->
  usegas_pass use_gas_idx fd = Value (with_code fd (encode_all (annotated use_gas_idx true ops))) /\
  forall l, path ops 0 l ->
    executed ops l <= paid ops l /\
    ((forall op, nth_error ops (last l 0%nat) = Some op -> flushing op = true) -> executed ops l = paid ops l).
Proof.
  intros E F Ef B. split.
  - rewrite (usegas_pass_spec use_gas_idx fd ops E F B). rewrite metered_annotated by auto. reflexivity.
  - intros l P. rewrite (paid_from_start ops l P). split.
    + apply path_paid, P.
    + intros L. apply path_exact; assumption.
Qed.

(** A loop that counts: [loop], a line of three operations up to [br_if], and
    the two [end]s. *)
Definition sample_ops : list instr :=
  [Instr loop_code (Block 0x40); Instr get_local_code (U32 0); Instr i32_const_code (U32 1);
   Instr i32_sub_code Void; Instr br_if_code (U32 0); Instr end_code Void; Instr end_code Void].

Lemma sample_well_formed : Forall well_formed sample_ops.
Proof.
  repeat constructor; try discriminate; eexists; (split; [reflexivity|]); repeat split; discriminate.
Qed.

Lemma usegas_pass_correct_witness :
  usegas_pass 3 (Def 0 [] (encode_all sample_ops)) =
    Value (Def 0 [] (encode_all
      [Instr loop_code (Block 0x40); const_inst 7; call_inst 3; Instr get_local_code (U32 0);
       Instr i32_const_code (U32 1); Instr i32_sub_code Void; Instr br_if_code (U32 0);
       Instr end_code Void; Instr end_code Void])) /\
  executed sample_ops [0; 1; 2; 3; 4; 1; 2; 3; 4; 5; 6]%nat = 14.
Proof.
  assert (Ef : ends_flushing sample_ops)
    by (exists (firstn 6 sample_ops), (Instr end_code Void); split; reflexivity).
  destruct (usegas_pass_correct 3 (Def 0 [] (encode_all sample_ops)) sample_ops eq_refl sample_well_formed Ef eq_refl)
    as [A B].
  split; [exact A|].
  assert (P : path sample_ops 0 [0; 1; 2; 3; 4; 1; 2; 3; 4; 5; 6]%nat).
  { do 4 (eapply continues; [simpl; lia|apply falls|]).
    eapply continues; [simpl; lia|apply (branches _ _ (Instr br_if_code (U32 0)) (Instr loop_code (Block 0x40)) 0); reflexivity|].
    do 5 (eapply continues; [simpl; lia|apply falls|]). apply stops. simpl. lia. }
  rewrite (proj2 (B _ P)); [reflexivity|]. intros op H. injection H as <-. reflexivity.
Defined.
