(* ===== verification/Linking.v ===== *)
(** The renumbering of functions by injection: an invariant ties the module
    and the static maps of injector_utils to the list of functions injected so
    far, and every pass keeps it. *)
From Stdlib Require Import ZArith Bool Lia String List.
From S2P Require Import Prelude Exceptions Opcodes Ops OpsProofs Injection.
Import ListNotations.
Local Open Scope Z_scope.

(** ** Association lists *)
Section Maps.
Context {K V : Type} (eqb : K -> K -> bool) (eqb_eq : forall a b, eqb a b = true <-> a = b).

Lemma lookup_app (k : K) (a b : list (K * V)) :
  lookup eqb k (a ++ b) = match lookup eqb k a with Some v => Some v | None => lookup eqb k b end.
Proof. induction a as [|[k' v] a IH]; simpl; [reflexivity|]. destruct (eqb k' k); [reflexivity|exact IH]. Qed.

Lemma lookup_none (k : K) (m : list (K * V)) : lookup eqb k m = None <-> ~ In k (map fst m).
Proof.
  induction m as [|[k' v] m IH]; simpl; [intuition|]. destruct (eqb k' k) eqn:E.
  - apply eqb_eq in E. subst. split; [discriminate|intuition].
  - rewrite IH. assert (k' <> k) by (intros ->; rewrite (proj2 (eqb_eq k k) eq_refl) in E; discriminate). intuition.
Qed.

Lemma lookup_in (k : K) (v : V) (m : list (K * V)) : lookup eqb k m = Some v -> In (k, v) m.
Proof.
  induction m as [|[k' v'] m IH]; simpl; [discriminate|]. destruct (eqb k' k) eqn:E; [|auto].
  intros H. injection H as ->. apply eqb_eq in E. subst. auto.
Qed.
End Maps.

Lemma list_eqb_eq (a b : list Z) : list_eqb a b = true <-> a = b.
Proof.
  revert b. induction a as [|x a IH]; destruct b as [|y b]; simpl; try (split; congruence).
  rewrite andb_true_iff, Z.eqb_eq, IH. split; [intros [-> ->]; reflexivity|intros E; injection E; auto].
Qed.

Lemma type_key_injective (a b : FunctionType) : type_key a = type_key b -> a = b.
Proof. destruct a, b. unfold type_key. simpl. congruence. Qed.

(** ** The functions that may be injected *)
Abbreviation injected := (string * FunctionType)%type.

(** The name and type of the intrinsic that replaces an operation code. *)
Definition replacement (c : Z) : option injected :=
  match pre_op_injectors c, inject_which_op c with
  | Some t, Some n => Some (n, t)
  | _, _ => None
  end.

Definition use_gas_import : injected := ("use_gas"%string, Function rt_none [vt_i64]).

(** Every operation code has two hexadecimal digits. *)
Definition injectable : list injected :=
  use_gas_import :: flat_map (fun c => match replacement (Z.of_nat c) with Some i => [i] | None => [] end) (seq 0 256).

Lemma injector_named (c : Z) (t : FunctionType) : pre_op_injectors c = Some t -> exists n, inject_which_op c = Some n.
Proof.
  unfold pre_op_injectors. cbv zeta.
  repeat match goal with
  | |- context [existsb (Z.eqb c) ?l] => destruct (existsb (Z.eqb c) l) eqn:?
  | |- context [c =? ?k] => destruct (c =? k) eqn:?
  end; intros H; try discriminate;
  match goal with
  | E : existsb _ _ = true |- _ => apply existsb_exists in E; destruct E as (k & I & E); apply Z.eqb_eq in E; subst c
  | E : (c =? _) = true |- _ => apply Z.eqb_eq in E; subst c
  end;
  try (simpl in I; repeat destruct I as [<-|I]; try contradiction); eexists; reflexivity.
Qed.

Lemma named_code (c : Z) (n : string) : inject_which_op c = Some n -> 0 <= c < 256.
Proof.
  unfold inject_which_op. intros H. apply (lookup_in Z.eqb Z.eqb_eq) in H. simpl in H.
  repeat (destruct H as [H|H]; [injection H as <- <-; split; (discriminate || reflexivity)|]); contradiction.
Qed.

Lemma replacement_injectable (c : Z) (i : injected) : replacement c = Some i -> In i injectable.
Proof.
  intros H. right. apply in_flat_map. unfold replacement in H. destruct (pre_op_injectors c) as [t|] eqn:E1; [|discriminate].
  destruct (inject_which_op c) as [n|] eqn:E2; [|discriminate]. pose proof (named_code c n E2).
  exists (Z.to_nat c). split; [apply in_seq; lia|]. rewrite Z2Nat.id by lia. unfold replacement. rewrite E1, E2. injection H as <-.
  left. reflexivity.
Qed.

Fixpoint distinct (l : list string) : bool :=
  match l with
  | [] => true
  | x :: l => negb (existsb (String.eqb x) l) && distinct l
  end.

Lemma distinct_nodup (l : list string) : distinct l = true -> NoDup l.
Proof.
  induction l as [|x l IH]; simpl; [constructor|]. rewrite andb_true_iff, negb_true_iff. intros [H D].
  constructor; [|auto]. intros I. assert (E : existsb (String.eqb x) l = true)
    by (apply existsb_exists; exists x; split; [exact I|apply String.eqb_refl]). congruence.
Qed.

Lemma injectable_distinct : NoDup (map fst injectable).
Proof. apply distinct_nodup. vm_compute. reflexivity. Qed.

(** A name has one type. *)
Lemma injectable_type (a b : injected) : In a injectable -> In b injectable -> fst a = fst b -> a = b.
Proof.
  pose proof injectable_distinct as D. revert D. generalize injectable. intros l. induction l as [|x l IH]; [contradiction|].
  simpl. intros D. inversion_clear D as [|? ? N D']. intros [->|Ha] [->|Hb] E; auto.
  - exfalso. apply N. rewrite E. now apply in_map.
  - exfalso. apply N. rewrite <- E. now apply in_map.
Qed.

(** ** The invariant *)
Fixpoint index_of (n : string) (names : list injected) : Z :=
  match names with
  | [] => 0
  | i :: names => if String.eqb (fst i) n then 0 else 1 + index_of n names
  end.

(** The [k]-th injected function has the provisional index [base + 2 k]. *)
Fixpoint registry (base : Z) (names : list injected) : list (string * Z) :=
  match names with
  | [] => []
  | i :: names => (fst i, base) :: registry (base + 2) names
  end.
Fixpoint mapping (base k : Z) (names : list injected) : list (Z * Z) :=
  match names with
  | [] => []
  | _ :: names => (base, k) :: mapping (base + 2) (k + 1) names
  end.

Definition shift_export_by (k : Z) (e : Export) : Export :=
  match kind e with
  | function => MkExport (export_name e) (kind e) (index e + k)
  | _ => e
  end.
Definition shift_start (k : Z) (s : Z) : Z := if s =? UINTPTR_MAX then s else s + k.

(** An import of the intrinsic [i], in a module with the types [ts]. *)
Definition imports_intrinsic (ts : list FunctionType) (i : injected) (imp : FunctionImport) : Prop :=
  exportName imp = fst i /\ moduleName imp = EOSIO_INJECTED_MODULE_NAME /\ 0 <= import_type imp /\
  nth_error ts (Z.to_nat (import_type imp)) = Some (snd i).

Definition slots_ok (ts : list FunctionType) (slots : list (list Z * Z)) : Prop :=
  forall key i, lookup list_eqb key slots = Some i ->
    0 <= i /\ exists t, nth_error ts (Z.to_nat i) = Some t /\ type_key t = key.

Definition base_of (m : Module_) : Z := size (imports m) + size (defs m).

Record linked (m0 : Module_) (names : list injected) (m : Module_) (u : injector_utils) : Prop := {
  linked_names : NoDup (map fst names);
  linked_known : incl names injectable;
  linked_types : exists extra, types m = types m0 ++ extra /\ incl extra (map snd names) /\ (length extra <= length names)%nat;
  linked_imports : exists imps, imports m = imps ++ imports m0 /\ Forall2 (imports_intrinsic (types m)) names imps;
  linked_defs : defs m = defs m0;
  linked_memories : memories m = memories m0;
  linked_exports : exports m = map (shift_export_by (size names)) (exports m0);
  linked_tables : tableSegments m = map (map (fun i => i + size names)) (tableSegments m0);
  linked_start : startFunctionIndex m = shift_start (size names) (startFunctionIndex m0);
  linked_registry : registered_injected u = registry (base_of m0) names;
  linked_mapping : injected_index_mapping u = mapping (base_of m0) 0 names;
  linked_next : next_injected_index u = size names;
  linked_slots : slots_ok (types m) (type_slots u)
}.

Lemma size_app {A} (a b : list A) : size (a ++ b) = size a + size b.
Proof. unfold size. rewrite length_app. lia. Qed.
Lemma size_nonneg {A} (l : list A) : 0 <= size l.
Proof. apply Zle_0_nat. Qed.

Lemma names_bound (m0 : Module_) (names : list injected) : NoDup (map fst names) -> incl names injectable ->
  size names <= 64.
Proof.
  intros D I. assert (L : (length (map fst names) <= length (map fst injectable))%nat).
  { apply NoDup_incl_length; [exact D|]. intros n H. apply in_map_iff in H. destruct H as (i & <- & H).
    apply in_map, I, H. }
  assert (B : (length (map fst injectable) <= 64)%nat) by (apply Nat.leb_le; vm_compute; reflexivity).
  pose proof (Nat.le_trans _ _ _ L B) as H. rewrite length_map in H. unfold size. lia.
Qed.

Lemma registry_length (names : list injected) : forall base, length (registry base names) = length names.
Proof. induction names as [|i names IH]; intros base; simpl; [reflexivity|now rewrite IH]. Qed.

Lemma registry_fst (names : list injected) : forall base, map fst (registry base names) = map fst names.
Proof. induction names as [|i names IH]; intros base; simpl; [reflexivity|now rewrite IH]. Qed.

Lemma registry_app (a b : list injected) : forall base,
  registry base (a ++ b) = registry base a ++ registry (base + 2 * size a) b.
Proof.
  induction a as [|i a IH]; intros base; cbn [app registry]; [now rewrite Z.add_0_r|].
  rewrite IH. unfold size. cbn [length]. do 3 f_equal. lia.
Qed.

Lemma mapping_app (a b : list injected) : forall base k,
  mapping base k (a ++ b) = mapping base k a ++ mapping (base + 2 * size a) (k + size a) b.
Proof.
  induction a as [|i a IH]; intros base k; cbn [app mapping]; [unfold size; simpl; now rewrite !Z.add_0_r|].
  rewrite IH. unfold size. cbn [length]. do 3 f_equal; lia.
Qed.

Lemma registry_lookup (names : list injected) (n : string) : forall base, In n (map fst names) ->
  lookup String.eqb n (registry base names) = Some (base + 2 * index_of n names).
Proof.
  induction names as [|i names IH]; intros base; [contradiction|]. cbn [map registry lookup index_of].
  destruct (String.eqb_spec (fst i) n) as [E|N]; [intros _; f_equal; lia|].
  intros [E|H]; [contradiction|]. rewrite IH by exact H. f_equal. lia.
Qed.

Lemma mapping_lookup (names : list injected) (j : nat) : forall base k, (j < length names)%nat ->
  lookup Z.eqb (base + 2 * Z.of_nat j) (mapping base k names) = Some (k + Z.of_nat j).
Proof.
  revert j. induction names as [|i names IH]; intros j base k H; [simpl in H; lia|]. cbn [mapping lookup].
  destruct (Z.eqb_spec base (base + 2 * Z.of_nat j)) as [E|N]; [f_equal; lia|].
  destruct j as [|j]; [lia|]. simpl in H.
  replace (base + 2 * Z.of_nat (S j)) with (base + 2 + 2 * Z.of_nat j) by lia. rewrite IH by lia. f_equal. lia.
Qed.

Lemma mapping_below (names : list injected) (f : Z) : forall base k, f < base -> lookup Z.eqb f (mapping base k names) = None.
Proof.
  induction names as [|i names IH]; intros base k H; [reflexivity|]. cbn [mapping lookup].
  destruct (Z.eqb_spec base f); [lia|]. apply IH. lia.
Qed.

Lemma index_of_bound (n : string) (names : list injected) : In n (map fst names) -> 0 <= index_of n names < size names.
Proof.
  induction names as [|i names IH]; [contradiction|]. unfold size in *. cbn [map index_of length].
  destruct (String.eqb_spec (fst i) n) as [E|N]; [lia|]. intros [E|H]; [contradiction|]. specialize (IH H). lia.
Qed.

Lemma index_of_app (n : string) (a b : list injected) : In n (map fst a) -> index_of n (a ++ b) = index_of n a.
Proof.
  induction a as [|i a IH]; [contradiction|]. cbn [app map index_of].
  destruct (String.eqb_spec (fst i) n) as [E|N]; [reflexivity|]. intros [E|H]; [contradiction|]. now rewrite IH.
Qed.

Lemma index_of_last (i : injected) (names : list injected) : ~ In (fst i) (map fst names) ->
  index_of (fst i) (names ++ [i]) = size names.
Proof.
  induction names as [|x names IH]; cbn [app map index_of]; intros H; [now rewrite String.eqb_refl|].
  destruct (String.eqb_spec (fst x) (fst i)) as [E|N]; [exfalso; apply H; left; exact E|].
  rewrite IH by (intros I; apply H; right; exact I). unfold size. cbn [length]. lia.
Qed.

(** ** The operations keep the invariant *)
Lemma emplace_new {K V} (eqb : K -> K -> bool) (k : K) (v : V) (m : list (K * V)) :
  lookup eqb k m = None -> emplace eqb k v m = m ++ [(k, v)].
Proof. unfold emplace. intros ->. reflexivity. Qed.

Lemma slots_extend (ts : list FunctionType) (t : FunctionType) (slots : list (list Z * Z)) :
  slots_ok ts slots -> slots_ok (ts ++ [t]) (slots ++ [(type_key t, size ts)]).
Proof.
  intros S key i. rewrite lookup_app. destruct (lookup list_eqb key slots) as [j|] eqn:E.
  - intros H. injection H as <-. destruct (S key j E) as (Hj & t' & N & K). split; [exact Hj|]. exists t'.
    split; [|exact K]. rewrite nth_error_app1; [exact N|]. apply nth_error_Some. congruence.
  - cbn [lookup]. destruct (list_eqb (type_key t) key) eqn:Q; [|intros H; discriminate H]. intros H. injection H as <-.
    apply list_eqb_eq in Q. split; [apply size_nonneg|]. exists t. split; [|exact Q].
    unfold size. rewrite Nat2Z.id, nth_error_app2, Nat.sub_diag by lia. reflexivity.
Qed.

Lemma slots_weaken (ts extra : list FunctionType) (slots : list (list Z * Z)) :
  slots_ok ts slots -> slots_ok (ts ++ extra) slots.
Proof.
  intros S key i E. destruct (S key i E) as (Hi & t & N & K). split; [exact Hi|]. exists t. split; [|exact K].
  rewrite nth_error_app1; [exact N|]. apply nth_error_Some. congruence.
Qed.

Lemma build_slots (ts : list FunctionType) : forall done slots, slots_ok done slots ->
  slots_ok (done ++ ts) (build_type_slots (size done) ts slots).
Proof.
  induction ts as [|t ts IH]; intros done slots S; cbn [build_type_slots]; [now rewrite app_nil_r|].
  replace (size done + 1) with (size (done ++ [t])) by (rewrite size_app; reflexivity).
  replace (done ++ t :: ts) with ((done ++ [t]) ++ ts) by (now rewrite <- app_assoc).
  apply IH. unfold emplace. destruct (lookup list_eqb (type_key t) slots) eqn:E; [now apply slots_weaken|].
  now apply slots_extend.
Qed.

Lemma add_type_slot_spec (t : FunctionType) (m : Module_) (u : injector_utils) : slots_ok (types m) (type_slots u) ->
  exists extra slots i,
    add_type_slot t m u =
      (MkModule (types m ++ extra) (imports m) (defs m) (memories m) (exports m) (tableSegments m) (startFunctionIndex m),
       Utils slots (registered_injected u) (injected_index_mapping u) (next_injected_index u)) /\
    slots_ok (types m ++ extra) slots /\ lookup list_eqb (type_key t) slots = Some i /\
    0 <= i /\ nth_error (types m ++ extra) (Z.to_nat i) = Some t /\ incl extra [t] /\ (length extra <= 1)%nat.
Proof.
  intros S. unfold add_type_slot. destruct (lookup list_eqb (type_key t) (type_slots u)) as [i|] eqn:E.
  - destruct (S _ _ E) as (Hi & t' & N & K). apply type_key_injective in K. subst t'.
    exists [], (type_slots u), i. rewrite app_nil_r. split; [now destruct m, u|]. split; [exact S|]. split; [exact E|]. split; [exact Hi|]. split; [exact N|].
    split; [apply incl_nil_l|cbn; lia].
  - exists [t], (type_slots u ++ [(type_key t, size (types m))]), (size (types m)).
    split; [reflexivity|]. pose proof (slots_extend (types m) t _ S) as S'. split; [exact S'|].
    assert (L : lookup list_eqb (type_key t) (type_slots u ++ [(type_key t, size (types m))]) = Some (size (types m))).
    { rewrite lookup_app, E. cbn [lookup]. now rewrite (proj2 (list_eqb_eq _ _) eq_refl). }
    split; [exact L|]. destruct (S' _ _ L) as (Hi & t' & N & K). apply type_key_injective in K. subst t'.
    split; [exact Hi|]. split; [exact N|]. split; [apply incl_refl|cbn; lia].
Qed.

Lemma imports_weaken (ts extra : list FunctionType) (i : injected) (imp : FunctionImport) :
  imports_intrinsic ts i imp -> imports_intrinsic (ts ++ extra) i imp.
Proof.
  intros (E & M & H & N). repeat split; try assumption. rewrite nth_error_app1; [exact N|].
  apply nth_error_Some. congruence.
Qed.

Lemma Forall2_length {A B} (R : A -> B -> Prop) (l : list A) (k : list B) : Forall2 R l k -> length l = length k.
Proof. induction 1; simpl; congruence. Qed.

Lemma insert_between {A} (x : A) (a b : list A) (n : nat) : length a = n -> insert_at n x (a ++ b) = (a ++ [x]) ++ b.
Proof.
  intros <-. unfold insert_at. rewrite firstn_app, Nat.sub_diag, firstn_all, skipn_app, Nat.sub_diag, skipn_all.
  simpl. now rewrite app_nil_r, <- app_assoc.
Qed.

Lemma shift_export_next (k : Z) (e : Export) : shift_export (shift_export_by k e) = shift_export_by (k + 1) e.
Proof. unfold shift_export, shift_export_by. destruct (kind e) eqn:E; simpl; rewrite ?E; try reflexivity. f_equal. lia. Qed.

Section Add.
Context (m0 : Module_) (Hbase : base_of m0 < 2 ^ 31).
Context (Hstart : startFunctionIndex m0 = UINTPTR_MAX \/ 0 <= startFunctionIndex m0 < base_of m0).

Lemma shift_start_next (k : Z) : 0 <= k <= 64 ->
  (if shift_start k (startFunctionIndex m0) =? UINTPTR_MAX then shift_start k (startFunctionIndex m0)
   else shift_start k (startFunctionIndex m0) + 1) = shift_start (k + 1) (startFunctionIndex m0).
Proof.
  intros Hk. unfold shift_start. destruct Hstart as [-> | H].
  - rewrite Z.eqb_refl. now rewrite Z.eqb_refl.
  - assert (U : UINTPTR_MAX = 2 ^ 64 - 1) by reflexivity.
    destruct (Z.eqb_spec (startFunctionIndex m0) UINTPTR_MAX); [lia|].
    destruct (Z.eqb_spec (startFunctionIndex m0 + k) UINTPTR_MAX); lia.
Qed.

(** A new function. *)
Lemma add_import_new (i : injected) (names : list injected) (m : Module_) (u : injector_utils) :
  linked m0 names m u -> In i injectable -> ~ In (fst i) (map fst names) ->
  exists m' u', add_import (snd i) (fst i) m u = (base_of m0 + 2 * size names, m', u') /\
    linked m0 (names ++ [i]) m' u'.
Proof.
  intros L Hi N. destruct (add_type_slot_spec (snd i) m u (linked_slots _ _ _ _ L))
    as (extra & slots & j & ET & S' & LK & Hj & NT & Inc & Len).
  assert (R : lookup String.eqb (fst i) (registered_injected u) = None).
  { rewrite (linked_registry _ _ _ _ L). apply lookup_none; [apply String.eqb_eq|]. now rewrite registry_fst. }
  destruct (linked_imports _ _ _ _ L) as (imps & EI & FI). pose proof (Forall2_length _ _ _ FI) as LI.
  assert (A : forall X : Z * Module_ * injector_utils, match imports m with [] => X | _ :: _ => X end = X)
    by (intros; destruct (imports m); reflexivity).
  unfold add_import. rewrite R, A, ET. cbn [registered_injected imports defs type_slots injected_index_mapping types
    memories exports tableSegments startFunctionIndex next_injected_index]. rewrite LK.
  rewrite (emplace_new _ _ _ _ R).
  assert (Q : size (imports m) + size (defs m) + size (registered_injected u) = base_of m0 + 2 * size names).
  { rewrite EI, (linked_defs _ _ _ _ L), (linked_registry _ _ _ _ L), size_app. unfold base_of, size in *.
    rewrite registry_length. lia. }
  rewrite Q.
  assert (M : lookup Z.eqb (base_of m0 + 2 * size names) (injected_index_mapping u) = None).
  { rewrite (linked_mapping _ _ _ _ L). apply lookup_none; [apply Z.eqb_eq|].
    assert (B : forall ns b k, ~ In (b + 2 * size ns) (map fst (mapping b k ns))).
    { clear. induction ns as [|x ns IH]; intros b k H; [exact H|]. cbn [mapping map fst In] in H.
      unfold size in *. cbn [length] in H. destruct H as [H|H]; [lia|].
      replace (b + 2 * Z.of_nat (S (length ns))) with (b + 2 + 2 * Z.of_nat (length ns)) in H by lia. exact (IH _ _ H). }
    apply B. }
  rewrite (emplace_new _ _ _ _ M).
  set (new := Import j EOSIO_INJECTED_MODULE_NAME (fst i)).
  eexists; eexists; split; [reflexivity|].
  pose proof (names_bound m0 names (linked_names _ _ _ _ L) (linked_known _ _ _ _ L)) as B64.
  constructor; cbn [types imports defs memories exports tableSegments startFunctionIndex registered_injected
                         injected_index_mapping next_injected_index type_slots].
  all: try (rewrite map_app; apply NoDup_app; [apply (linked_names _ _ _ _ L)|repeat constructor; intros []|
              intros x Hx [<-|[]]; exact (N Hx)]).
  all: try (apply incl_app; [apply (linked_known _ _ _ _ L)|intros x [<-|[]]; exact Hi]).
  all: try (destruct (linked_types _ _ _ _ L) as (ex & Ex & Ix & Lx); exists (ex ++ extra); rewrite Ex, map_app, !length_app;
            split; [now rewrite app_assoc|split; [now apply incl_app; [apply incl_appl|apply incl_appr]|cbn; lia]]).
  all: try (exists (imps ++ [new]); split;
            [rewrite EI, length_app, (linked_registry _ _ _ _ L), registry_length; apply insert_between; simpl; lia
            |apply Forall2_app; [eapply Forall2_impl; [|exact FI]; intros; now apply imports_weaken|
                                 repeat constructor; assumption]]).
  all: try apply (linked_defs _ _ _ _ L); try apply (linked_memories _ _ _ _ L); try exact S'.
  all: try (rewrite (linked_exports _ _ _ _ L), map_map, size_app; apply map_ext; intros; apply shift_export_next).
  all: try (rewrite (linked_tables _ _ _ _ L), map_map, size_app; apply map_ext; intros l; rewrite map_map;
            apply map_ext; intros; unfold size; simpl; lia).
  all: try (rewrite (linked_start _ _ _ _ L), size_app; apply shift_start_next; pose proof (size_nonneg names); lia).
  all: try (rewrite registry_app, (linked_registry _ _ _ _ L); reflexivity).
  all: try (rewrite mapping_app, (linked_mapping _ _ _ _ L), (linked_next _ _ _ _ L); reflexivity).
  all: rewrite (linked_next _ _ _ _ L), size_app; reflexivity.
Qed.
End Add.
