(* ===== verification/InjectCorrect.v ===== *)
(** The three passes of injection composed: what the module that runs is, in
    terms of the module that was submitted. *)
From Stdlib Require Import ZArith Bool Lia String List.
From S2P Require Import Prelude Exceptions Opcodes Ops OpsProofs Injection GasInjection Linking.
Import ListNotations.
Local Open Scope Z_scope.

(** ** The finished code *)
Definition lower (names : list injected) (op : instr) : instr :=
  match replacement (get_code op) with
  | Some i => call_inst (index_of (fst i) names)
  | None =>
      if get_code op =? call_code
      then match op_field op with
           | U32 f => Instr call_code (U32 (f + size names))
           | _ => op
           end
      else op
  end.

(** The operations in order, floating-point ones replaced by calls, calls
    renumbered, and each line preceded by its charge to function 0, use_gas. *)
Fixpoint finished (names : list injected) (start : bool) (ops : list instr) : list instr :=
  match ops with
  | [] => []
  | op :: rest =>
      (if start then charge 0 (line_gas ops) else []) ++ lower names op :: finished names (flushing op) rest
  end.

(** A call operation names a function below [base]. *)
Definition calls_below (base : Z) (op : instr) : Prop :=
  get_code op = call_code -> exists f, op_field op = U32 f /\ f < base.

(** The functions a module can call: its imports, then its definitions. *)
Definition function_at (m : Module_) (f : Z) : option (FunctionImport + nat) :=
  if f <? size (imports m) then option_map inl (nth_error (imports m) (Z.to_nat f))
  else if f <? base_of m then Some (inr (Z.to_nat (f - size (imports m)))) else None.

Definition mentions (names : list injected) (op : instr) : Prop :=
  forall i, replacement (get_code op) = Some i -> In i names.

(** ** Second pass *)
Definition replace_op (base : Z) (names : list injected) (op : instr) : instr :=
  match replacement (get_code op) with
  | Some i => call_inst (base + 2 * index_of (fst i) names)
  | None => op
  end.

Lemma mentions_app (a b : list injected) (op : instr) : mentions a op -> mentions (a ++ b) op.
Proof. intros H i E. apply in_or_app. left. now apply H. Qed.

Lemma replace_stable (base : Z) (a b : list injected) (op : instr) : mentions a op ->
  replace_op base (a ++ b) op = replace_op base a op.
Proof.
  intros H. unfold replace_op. destruct (replacement (get_code op)) as [i|] eqn:E; [|reflexivity].
  rewrite index_of_app; [reflexivity|]. now apply in_map, H.
Qed.

Section Passes.
Context (m0 : Module_) (Hbase : base_of m0 < 2 ^ 31).
Context (Hstart : startFunctionIndex m0 = UINTPTR_MAX \/ 0 <= startFunctionIndex m0 < base_of m0).

Lemma base_nonneg : 0 <= base_of m0.
Proof. unfold base_of. pose proof (size_nonneg (imports m0)). pose proof (size_nonneg (defs m0)). lia. Qed.

Lemma add_import_known (i : injected) (names : list injected) (m : Module_) (u : injector_utils) :
  linked m0 names m u -> In (fst i) (map fst names) ->
  add_import (snd i) (fst i) m u = (base_of m0 + 2 * index_of (fst i) names, m, u).
Proof.
  intros L H. unfold add_import. rewrite (linked_registry _ _ _ _ L), registry_lookup by exact H.
  destruct (linked_imports _ _ _ _ L) as (imps & EI & FI). rewrite EI.
  destruct FI as [|x y names imps _ _]; [contradiction|]. reflexivity.
Qed.

Lemma add_import_spec (i : injected) (names : list injected) (m : Module_) (u : injector_utils) :
  linked m0 names m u -> In i injectable ->
  exists ext m' u', add_import (snd i) (fst i) m u = (base_of m0 + 2 * index_of (fst i) (names ++ ext), m', u') /\
    linked m0 (names ++ ext) m' u' /\ In i (names ++ ext).
Proof.
  intros L Hi. destruct (in_dec string_dec (fst i) (map fst names)) as [H|H].
  - exists [], m, u. rewrite app_nil_r. split; [now apply add_import_known|]. split; [exact L|].
    apply in_map_iff in H. destruct H as (j & E & Hj).
    rewrite (injectable_type i j Hi (linked_known _ _ _ _ L j Hj)) by congruence. exact Hj.
  - destruct (add_import_new m0 Hbase Hstart i names m u L Hi H) as (m' & u' & E & L').
    exists [i], m', u'. rewrite (index_of_last i names H). split; [exact E|]. split; [exact L'|].
    apply in_or_app. right. left. reflexivity.
Qed.

Lemma pre_fold (ops : list instr) : forall names m u s, linked m0 names m u -> stream_ok s ->
  exists ext m' u' s', fold_ops pre_step ops (Pre m u s) = Value (Pre m' u' s') /\
    linked m0 (names ++ ext) m' u' /\ stream_ok s' /\ Forall (mentions (names ++ ext)) ops /\
    get s' = get s ++ encode_all (map (replace_op (base_of m0) (names ++ ext)) ops).
Proof.
  induction ops as [|op ops IH]; intros names m u s L Hs.
  - exists [], m, u, s. cbn. rewrite !app_nil_r. auto.
  - cbn [fold_ops]. unfold pre_step at 1. destruct (pre_op_injectors (get_code op)) as [t|] eqn:E1.
    + destruct (injector_named _ _ E1) as [n E2]. rewrite E2.
      assert (R : replacement (get_code op) = Some (n, t)) by (unfold replacement; now rewrite E1, E2).
      destruct (add_import_spec (n, t) names m u L (replacement_injectable _ _ R)) as (ext1 & m1 & u1 & EA & L1 & I1).
      cbn [fst snd] in EA. cbn [pre_module pre_utils pre_code]. rewrite EA. cbn [rbind].
      destruct (pack_get (call_inst (base_of m0 + 2 * index_of n (names ++ ext1))) s Hs) as [Hs1 G1].
      destruct (IH (names ++ ext1) m1 u1 _ L1 Hs1) as (ext2 & m2 & u2 & s2 & EF & L2 & Hs2 & M2 & G2).
      exists (ext1 ++ ext2), m2, u2, s2. rewrite app_assoc. split; [exact EF|]. split; [exact L2|]. split; [exact Hs2|].
      assert (Mop : mentions (names ++ ext1) op) by (intros j Ej; rewrite R in Ej; injection Ej as <-; exact I1).
      split; [constructor; [now apply mentions_app|exact M2]|].
      rewrite G2, G1. cbn [map encode_all flat_map]. rewrite (replace_stable _ _ _ _ Mop). unfold replace_op at 2.
      rewrite R. cbn [fst]. now rewrite <- app_assoc.
    + cbn [rbind pre_module pre_utils pre_code]. destruct (pack_get op s Hs) as [Hs1 G1].
      destruct (IH names m u _ L Hs1) as (ext & m' & u' & s' & EF & L' & Hs' & M' & G').
      assert (R : replacement (get_code op) = None) by (unfold replacement; now rewrite E1).
      exists ext, m', u', s'. repeat (split; [assumption|]).
      split; [constructor; [intros j Ej; congruence|exact M']|].
      rewrite G', G1. cbn [map encode_all flat_map]. unfold replace_op at 2. rewrite R. now rewrite <- app_assoc.
Qed.

(** A definition holding the operations [ops]. *)
Definition holds (fd : FunctionDef) (ops : list instr) : Prop := code fd = encode_all ops /\ Forall well_formed ops.

Lemma pre_pass_spec (fds : list FunctionDef) (opss : list (list instr)) : Forall2 holds fds opss ->
  forall names m u, linked m0 names m u ->
  exists ext fds' m' u', pre_pass fds m u = Value (fds', m', u') /\ linked m0 (names ++ ext) m' u' /\
    Forall (Forall (mentions (names ++ ext))) opss /\
    fds' = map (fun '(fd, ops) => with_code fd (encode_all (map (replace_op (base_of m0) (names ++ ext)) ops)))
               (combine fds opss).
Proof.
  induction 1 as [|fd ops fds opss [Hc Hw] F IH]; intros names m u L.
  - exists [], [], m, u. rewrite app_nil_r. auto.
  - cbn [pre_pass combine map]. rewrite Hc, decode_while_fold by exact Hw.
    destruct (new_stream_get (length (encode_all ops) * 2)) as [N1 N2].
    destruct (pre_fold ops names m u _ L N1) as (ext1 & m1 & u1 & s1 & E1 & L1 & _ & M1 & G1).
    rewrite E1. cbn [rbind pre_module pre_utils pre_code].
    destruct (IH (names ++ ext1) m1 u1 L1) as (ext2 & fds2 & m2 & u2 & E2 & L2 & M2 & ->).
    rewrite E2. cbn [rbind]. rewrite <- app_assoc in *.
    exists (ext1 ++ ext2); eexists; exists m2, u2. split; [reflexivity|]. split; [exact L2|].
    split; [constructor; [|exact M2]; rewrite app_assoc; eapply Forall_impl; [|exact M1]; intros; now apply mentions_app|].
    f_equal. rewrite G1, N2. cbn [app]. do 2 f_equal. rewrite app_assoc. apply map_ext_in. intros op Hop.
    symmetry. apply replace_stable. rewrite Forall_forall in M1. now apply M1.
Qed.

(** ** Third pass *)
Definition post_op (u : injector_utils) (op : instr) : instr :=
  if get_code op =? call_code then fix_call_index u op else op.

Lemma post_pass_spec (u : injector_utils) (fd : FunctionDef) (ops : list instr) : holds fd ops ->
  post_pass u fd = Value (with_code fd (encode_all (map (post_op u) ops))).
Proof.
  intros [Hc Hw]. unfold post_pass. rewrite Hc, decode_while_fold by exact Hw.
  assert (G : forall ops s, stream_ok s -> exists s', fold_ops (post_step u) ops s = Value s' /\
            get s' = get s ++ encode_all (map (post_op u) ops)).
  { clear. induction ops as [|op ops IH]; intros s Hs; [exists s; cbn; rewrite app_nil_r; auto|].
    cbn [fold_ops]. unfold post_step at 1. cbn [rbind]. fold (post_op u op).
    destruct (pack_get (post_op u op) s Hs) as [H1 G1]. destruct (IH _ H1) as (s' & E & G').
    exists s'. split; [exact E|]. rewrite G', G1. cbn [map encode_all flat_map]. now rewrite <- app_assoc. }
  destruct (new_stream_get (length (encode_all ops) * 2)) as [N1 N2].
  destruct (G ops _ N1) as (s' & E & G'). rewrite E. cbn [rbind]. now rewrite G', N2.
Qed.

(** The provisional index of an injected function becomes its place in the list. *)
Lemma fix_injected (names : list injected) (m : Module_) (u : injector_utils) (n : string) :
  linked m0 names m u -> In n (map fst names) ->
  post_op u (call_inst (base_of m0 + 2 * index_of n names)) = call_inst (index_of n names).
Proof.
  intros L H. pose proof (index_of_bound n names H) as B.
  pose proof (names_bound m0 names (linked_names _ _ _ _ L) (linked_known _ _ _ _ L)) as B64.
  pose proof base_nonneg. unfold post_op, call_inst, fix_call_index. cbn [get_code op_field]. rewrite Z.eqb_refl.
  rewrite (uwrap_small 32) by lia. rewrite (linked_mapping _ _ _ _ L).
  rewrite <- (Z2Nat.id (index_of n names)) at 1 by lia.
  rewrite mapping_lookup by (unfold size in B; lia). now rewrite Z2Nat.id by lia.
Qed.

(** The function of an original call moves up by the number of injected ones. *)
Lemma fix_original (names : list injected) (m : Module_) (u : injector_utils) (f : Z) :
  linked m0 names m u -> 0 <= f < base_of m0 ->
  post_op u (Instr call_code (U32 f)) = Instr call_code (U32 (f + size names)).
Proof.
  intros L H. pose proof (names_bound m0 names (linked_names _ _ _ _ L) (linked_known _ _ _ _ L)) as B64.
  pose proof (size_nonneg names). unfold post_op, fix_call_index. cbn [get_code op_field]. rewrite Z.eqb_refl.
  rewrite (linked_mapping _ _ _ _ L), mapping_below by lia. rewrite (linked_registry _ _ _ _ L).
  unfold size at 1. rewrite registry_length. fold (size names). rewrite (uwrap_small 32) by lia. reflexivity.
Qed.

Lemma replacement_not_call (c : Z) (i : injected) : replacement c = Some i -> (c =? call_code) = false.
Proof.
  intros H. destruct (Z.eqb_spec c call_code) as [->|]; [|reflexivity]. vm_compute in H. discriminate.
Qed.

Lemma lower_passes (names : list injected) (m : Module_) (u : injector_utils) (op : instr) :
  linked m0 names m u -> mentions names op -> well_formed op -> calls_below (base_of m0) op ->
  post_op u (replace_op (base_of m0) names op) = lower names op.
Proof.
  intros L M W B. unfold replace_op, lower. destruct (replacement (get_code op)) as [i|] eqn:R.
  - apply (fix_injected names m u); [exact L|]. now apply in_map, M.
  - destruct (Z.eqb_spec (get_code op) call_code) as [E|N].
    + destruct (B E) as (f & Ef & Hf). rewrite Ef. destruct op as [c fl]. cbn in E, Ef. subst c fl.
      apply (fix_original names m u f L). split; [|exact Hf].
      destruct W as (_ & t & Ht & Hfit). vm_compute in Ht. injection Ht as <-. exact (proj1 Hfit).
    + unfold post_op. destruct (Z.eqb_spec (get_code op) call_code); [contradiction|reflexivity].
Qed.

Lemma charge_passes (names rest : list injected) (m : Module_) (u : injector_utils) (g : Z) :
  linked m0 names m u -> names = use_gas_import :: rest ->
  map (fun op => post_op u (replace_op (base_of m0) names op)) (charge (base_of m0) g) = charge 0 g.
Proof.
  intros L E. unfold charge. destruct (0 <? g); [|reflexivity]. cbn [map].
  assert (R1 : replace_op (base_of m0) names (const_inst g) = const_inst g) by reflexivity.
  assert (R2 : replace_op (base_of m0) names (call_inst (base_of m0)) = call_inst (base_of m0)) by reflexivity.
  rewrite R1, R2.
  assert (I0 : index_of "use_gas" names = 0) by (rewrite E; reflexivity).
  pose proof (fix_injected names m u "use_gas" L) as F. rewrite I0, Z.mul_0_r, Z.add_0_r in F.
  rewrite F by (rewrite E; left; reflexivity). reflexivity.
Qed.

Lemma finished_passes (names rest : list injected) (m : Module_) (u : injector_utils) (ops : list instr) :
  linked m0 names m u -> names = use_gas_import :: rest -> Forall (mentions names) ops -> Forall well_formed ops ->
  Forall (calls_below (base_of m0)) ops -> forall start,
  map (post_op u) (map (replace_op (base_of m0) names) (annotated (base_of m0) start ops)) = finished names start ops.
Proof.
  intros L E M W B. induction ops as [|op ops IH]; intros start; [reflexivity|].
  inversion_clear M as [|? ? M1 M2]. inversion_clear W as [|? ? W1 W2]. inversion_clear B as [|? ? B1 B2].
  specialize (IH M2 W2 B2). rewrite map_map in *. cbn [annotated finished]. rewrite map_app. cbn [map].
  rewrite (lower_passes names m u op L M1 W1 B1). rewrite <- IH, map_map. f_equal.
  destruct start; [apply (charge_passes names rest m u); assumption|reflexivity].
Qed.
End Passes.

(** ** All three passes *)
Lemma annotated_well_formed (idx : Z) (ops : list instr) : Forall well_formed ops ->
  forall start, Forall well_formed (annotated idx start ops).
Proof.
  induction 1 as [|op ops W F IH]; intros start; [constructor|]. cbn [annotated]. apply Forall_app. split; [|constructor; auto].
  destruct start; [|constructor]. unfold charge. destruct (0 <? _); [|constructor].
  repeat constructor; try discriminate; eexists; (split; [reflexivity|apply uwrap_bound; lia]).
Qed.

Lemma replaced_well_formed (base : Z) (names : list injected) (op : instr) : well_formed op ->
  well_formed (replace_op base names op).
Proof.
  intros W. unfold replace_op. destruct (replacement _); [|exact W].
  split; [split; [discriminate|reflexivity]|]. eexists. split; [reflexivity|apply uwrap_bound; lia].
Qed.

Lemma annotated_incl (idx : Z) (ops : list instr) : forall start, incl ops (annotated idx start ops).
Proof.
  induction ops as [|op ops IH]; intros start x H; [contradiction|]. cbn [annotated]. apply in_or_app. right.
  destruct H as [->|H]; [left; reflexivity|right; now apply IH].
Qed.

Lemma map_result_value {A B} (f : A -> result B) (g : A -> B) (l : list A) :
  Forall (fun x => f x = Value (g x)) l -> map_result f l = Value (map g l).
Proof. induction 1 as [|x l E F IH]; [reflexivity|]. cbn [map_result map]. rewrite E. cbn [rbind]. now rewrite IH. Qed.

Lemma linked_init (m : Module_) : linked m [] m (init_utils m).
Proof.
  constructor; try reflexivity.
  - constructor.
  - intros ? [].
  - exists []. rewrite app_nil_r. repeat split; [intros ? []|cbn; lia].
  - exists []. split; [reflexivity|constructor].
  - unfold shift_export_by. induction (exports m) as [|e l IH]; [reflexivity|]. cbn [map]. rewrite <- IH.
    destruct e as [n k i]. destruct k; try reflexivity. cbn. now rewrite Z.add_0_r.
  - induction (tableSegments m) as [|l ls IH]; [reflexivity|]. cbn [map]. rewrite <- IH. f_equal.
    induction l as [|x l IHl]; [reflexivity|]. cbn [map]. rewrite <- IHl. f_equal. cbn. lia.
  - unfold shift_start. destruct (_ =? _); cbn; lia.
  - apply (build_slots (types m) [] []). intros key i H. discriminate H.
Qed.

(** The conditions on the functions of a ready module. *)
Definition functions_ready (base : Z) : list FunctionDef -> list (list instr) -> Prop :=
  Forall2 (fun fd ops => holds fd ops /\ ends_flushing ops /\ 2000 * Z.of_nat (length ops) < 2 ^ 63 /\
             Forall (calls_below base) ops).

(** A module that the engine has parsed and validated, as far as injection
    relies on it. *)
Record ready (m : Module_) (opss : list (list instr)) : Prop := {
  ready_base : base_of m < 2 ^ 31;
  ready_start : startFunctionIndex m = UINTPTR_MAX \/ 0 <= startFunctionIndex m < base_of m;
  ready_code : functions_ready (base_of m) (defs m) opss
}.

(** The module that [inject] makes of [m] with the functions [names]. *)
Record rewritten (m : Module_) (opss : list (list instr)) (names : list injected) (m' : Module_) : Prop := {
  rewritten_types : exists extra, types m' = types m ++ extra /\ incl extra (map snd names) /\ (length extra <= length names)%nat;
  rewritten_imports : exists imps, imports m' = imps ++ imports m /\ Forall2 (imports_intrinsic (types m')) names imps;
  rewritten_defs : defs m' = map (fun '(fd, ops) => with_code fd (encode_all (finished names true ops)))
                                 (combine (defs m) opss);
  rewritten_memories : memories m' = max_memory_injection (memories m);
  rewritten_exports : exports m' = map (shift_export_by (size names)) (exports m);
  rewritten_tables : tableSegments m' = map (map (fun i => i + size names)) (tableSegments m);
  rewritten_start : startFunctionIndex m' = shift_start (size names) (startFunctionIndex m)
}.

Definition charged_def (base : Z) (fo : FunctionDef * list instr) : FunctionDef :=
  with_code (fst fo) (encode_all (annotated base true (snd fo))).

Lemma usegas_all (base : Z) (fds : list FunctionDef) (opss : list (list instr)) : functions_ready base fds opss ->
  map_result (usegas_pass base) fds = Value (map (charged_def base) (combine fds opss)) /\
  Forall2 holds (map (charged_def base) (combine fds opss)) (map (annotated base true) opss).
Proof.
  induction 1 as [|fd ops fds opss ([H1 H2] & H3 & H4 & _) F [IH1 IH2]]; [split; [reflexivity|constructor]|].
  cbn [map_result combine map]. rewrite (usegas_pass_spec _ fd ops H1 H2 H4), metered_annotated by auto.
  cbn [rbind]. rewrite IH1. split; [reflexivity|]. constructor; [|exact IH2].
  split; [reflexivity|]. now apply annotated_well_formed.
Qed.

Lemma post_all (m0 m : Module_) (u : injector_utils) (names rest : list injected) (fds : list FunctionDef)
    (opss : list (list instr)) :
  base_of m0 < 2 ^ 31 -> linked m0 names m u -> names = use_gas_import :: rest ->
  Forall (Forall (mentions names)) opss -> functions_ready (base_of m0) fds opss ->
  map_result (post_pass u)
    (map (fun '(fd, ops) => with_code fd (encode_all (map (replace_op (base_of m0) names) ops)))
       (combine (map (charged_def (base_of m0)) (combine fds opss)) (map (annotated (base_of m0) true) opss)))
  = Value (map (fun '(fd, ops) => with_code fd (encode_all (finished names true ops))) (combine fds opss)).
Proof.
  intros Hb L E M F. revert M. induction F as [|fd ops fds opss ([H1 H2] & _ & _ & H4) F IH]; intros M; [reflexivity|].
  inversion_clear M as [|? ? M1 M2]. cbn [combine map map_result].
  rewrite (post_pass_spec u _ (map (replace_op (base_of m0) names) (annotated (base_of m0) true ops))).
  - cbn [rbind]. rewrite (IH M2). cbn [rbind].
    now rewrite (finished_passes m0 Hb names rest m u ops L E M1 H2 H4).
  - split; [reflexivity|]. apply Forall_map. eapply Forall_impl; [apply replaced_well_formed|].
    now apply annotated_well_formed.
Qed.

Lemma annotated_mentions (names : list injected) (base : Z) (opss : list (list instr)) :
  Forall (Forall (mentions names)) (map (annotated base true) opss) -> Forall (Forall (mentions names)) opss.
Proof.
  induction opss as [|ops opss IH]; intros M; [constructor|]. inversion_clear M. constructor; auto.
  eapply incl_Forall; [apply annotated_incl|eassumption].
Qed.

Lemma inject_spec (m : Module_) (opss : list (list instr)) : ready m opss ->
  exists rest m', inject m = Value m' /\ rewritten m opss (use_gas_import :: rest) m' /\
    NoDup (map fst (use_gas_import :: rest)) /\ incl rest injectable /\
    Forall (Forall (mentions (use_gas_import :: rest))) opss.
Proof.
  intros [Hb Hs Hc]. set (m1 := with_memories m (max_memory_injection (memories m))).
  assert (HG : In use_gas_import injectable) by (left; reflexivity).
  destruct (add_import_new m1 Hb Hs use_gas_import [] m1 (init_utils m1) (linked_init m1) HG (fun x => x))
    as (m2 & u2 & E2 & L2).
  change (base_of m1 + 2 * size []) with (base_of m1 + 0) in E2. rewrite Z.add_0_r in E2.
  destruct (usegas_all (base_of m1) (defs m) opss Hc) as [E3 HH].
  destruct (pre_pass_spec m1 Hb Hs _ _ HH [use_gas_import] m2 u2 L2) as (rest & fds & m3 & u3 & E4 & L3 & M3 & Ef).
  cbn [app] in L3, M3, Ef. apply annotated_mentions in M3.
  pose proof (post_all m1 m3 u3 _ rest (defs m) opss Hb L3 eq_refl M3 Hc) as E5. rewrite <- Ef in E5.
  exists rest; eexists. split; [|split; [|split; [|split]]].
  - unfold inject. change (init_utils m) with (init_utils m1). fold m1.
    change (Function rt_none [vt_i64]) with (snd use_gas_import). change "use_gas"%string with (fst use_gas_import).
    rewrite E2. cbn [rbind]. rewrite (linked_defs _ _ _ _ L2). change (defs m1) with (defs m).
    rewrite E3. cbn [rbind]. rewrite E4. cbn [rbind]. rewrite E5. reflexivity.
  - constructor; try reflexivity; try apply L3.
  - apply L3.
  - intros x Hx. apply (linked_known _ _ _ _ L3). right. exact Hx.
  - exact M3.
Qed.

Lemma function_moved (m m' : Module_) (imps : list FunctionImport) (f : Z) :
  imports m' = imps ++ imports m -> size (defs m') = size (defs m) -> 0 <= f < base_of m ->
  function_at m' (f + size imps) = function_at m f.
Proof.
  intros EI ED Hf. unfold function_at, base_of in *. rewrite EI, ED, size_app.
  pose proof (size_nonneg imps) as P.
  destruct (Z.ltb_spec f (size (imports m))), (Z.ltb_spec (f + size imps) (size imps + size (imports m))); try lia.
  - rewrite nth_error_app2 by (unfold size in *; lia). do 2 f_equal. unfold size. lia.
  - destruct (Z.ltb_spec (f + size imps) (size imps + size (imports m) + size (defs m))); [|lia].
    destruct (Z.ltb_spec f (size (imports m) + size (defs m))); [|lia]. do 3 f_equal. lia.
Qed.

Lemma size_map_combine {A B C} (h : A * B -> C) (l : list A) (k : list B) : length l = length k ->
  size (map h (combine l k)) = size l.
Proof. intros E. unfold size. rewrite length_map, length_combine. lia. Qed.

(** The intrinsic at its place in the list is the import with its index. *)
Lemma index_of_nth (names : list injected) (i : injected) : NoDup (map fst names) -> In i names ->
  nth_error names (Z.to_nat (index_of (fst i) names)) = Some i.
Proof.
  induction names as [|x names IH]; [contradiction|]. cbn [map index_of]. intros D. inversion_clear D as [|? ? N D'].
  destruct (String.eqb_spec (fst x) (fst i)) as [E|E]; intros [->|H]; try reflexivity; try contradiction.
  - exfalso. apply N. rewrite E. now apply in_map.
  - pose proof (index_of_bound (fst i) names (in_map _ _ _ H)).
    replace (Z.to_nat (1 + index_of (fst i) names)) with (S (Z.to_nat (index_of (fst i) names))) by lia.
    now apply IH.
Qed.

Lemma Forall2_nth {A B} (R : A -> B -> Prop) (l : list A) (k : list B) : Forall2 R l k -> forall n a,
  nth_error l n = Some a -> exists b, nth_error k n = Some b /\ R a b.
Proof.
  induction 1 as [|x y l k H F IH]; intros [|n] a E; try discriminate; [injection E as ->; exists y; auto|]. exact (IH n a E).
Qed.

Lemma intrinsic_place (m m' : Module_) (names : list injected) (imps : list FunctionImport) (i : injected) :
  imports m' = imps ++ imports m -> Forall2 (imports_intrinsic (types m')) names imps ->
  NoDup (map fst names) -> In i names ->
  exists imp, function_at m' (index_of (fst i) names) = Some (inl imp) /\ imports_intrinsic (types m') i imp.
Proof.
  intros EI FI D H. destruct (Forall2_nth _ _ _ FI _ _ (index_of_nth names i D H)) as (imp & N & P).
  exists imp. split; [|exact P]. pose proof (index_of_bound (fst i) names (in_map _ _ _ H)) as B.
  pose proof (Forall2_length _ _ _ FI) as L. unfold function_at. rewrite EI, size_app.
  pose proof (size_nonneg (imports m)). unfold size in *.
  destruct (Z.ltb_spec (index_of (fst i) names) (Z.of_nat (length imps) + Z.of_nat (length (imports m)))); [|lia].
  rewrite nth_error_app1 by lia. now rewrite N.
Qed.

(** C5. Injection is a correct renumbering.  The module is [ready]: it has fewer than 2^31 functions and its start function is one
    of them, and the code of every function encodes a sequence of well-formed operations, not too many to be priced, that call functions of the module
    and the last of which flushes the pending charge, as an end does (ends_flushing).  These hold of a module that the engine has validated if every
    function has code and none after its final end; the engine accepts operations after the end, of which injection drops
    those that follow the last flush, and of these modules nothing is said here.  Then [inject] succeeds, and the module it produces differs from the
    submitted one exactly in this: a list of soft-float intrinsics with use_gas
    at its head is prepended to the imports, each from the module
    eosio_injection and with its own type in the type table; the code of every
    function is the finished code (charges to function 0, floating-point
    operations replaced by calls of their intrinsics, calls moved up by the
    number of intrinsics); exported functions, table elements and the start
    function move up by the same number; the memory limit is clamped.  Moving
    up preserves meaning: the index [f + size names] of the new module is the
    function [f] of the old one, and the place of each intrinsic in the list is
    its function index. *)
Theorem inject_correct (m : Module_) (opss : list (list instr)) : ready m opss ->
  exists names m', inject m = Value m' /\ rewritten m opss names m' /\
    hd_error names = Some use_gas_import /\ NoDup (map fst names) /\
    (forall f, 0 <= f < base_of m -> function_at m' (f + size names) = function_at m f) /\
    (forall ops op i, In ops opss -> In op ops -> replacement (get_code op) = Some i ->
       lower names op = call_inst (index_of (fst i) names) /\
       exists imp, function_at m' (index_of (fst i) names) = Some (inl imp) /\ imports_intrinsic (types m') i imp).
Proof.
  intros R. destruct (inject_spec m opss R) as (rest & m' & E & W & D & I & M).
  pose proof (Forall2_length _ _ _ (ready_code _ _ R)) as Hl.
  destruct (rewritten_imports _ _ _ _ W) as (imps & EI & FI). pose proof (Forall2_length _ _ _ FI) as LI.
  assert (Es : size (use_gas_import :: rest) = size imps) by (unfold size; now rewrite LI).
  exists (use_gas_import :: rest), m'. split; [exact E|]. split; [exact W|]. split; [reflexivity|]. split; [exact D|].
  split.
  - intros f Hf. rewrite Es. apply function_moved; try assumption.
    rewrite (rewritten_defs _ _ _ _ W). now apply size_map_combine.
  - intros ops op i Ho Hop Hr. split; [unfold lower; now rewrite Hr|].
    rewrite Forall_forall in M. specialize (M ops Ho). rewrite Forall_forall in M. specialize (M op Hop i Hr).
    apply (intrinsic_place m m' (use_gas_import :: rest) imps); assumption.
Qed.

(** A module with one import, and one function that adds two floats and calls
    the import. *)
Definition float_ops : list instr :=
  [Instr get_local_code (U32 0); Instr get_local_code (U32 1); Instr f32_add_code Void;
   Instr call_code (U32 0); Instr end_code Void].

Definition sample_module : Module_ :=
  MkModule [Function vt_f32 [vt_f32]; Function vt_f32 [vt_f32; vt_f32]]
    [Import 0 "env" "square"] [Def 1 [] (encode_all float_ops)] [(1, 2000)]
    [MkExport "norm" function 1; MkExport "memory" memory 0] [[1]] UINTPTR_MAX.

Lemma sample_ready : ready sample_module [float_ops].
Proof.
  constructor; [reflexivity|left; reflexivity|]. constructor; [|constructor]. split; [|split; [|split]].
  - split; [reflexivity|]. repeat constructor; try discriminate; eexists; (split; [reflexivity|]); repeat split; discriminate.
  - exists (firstn 4 float_ops), (Instr end_code Void). split; reflexivity.
  - reflexivity.
  - repeat constructor; intros H; try discriminate. exists 0. split; reflexivity.
Qed.

Lemma inject_correct_witness :
  exists names m', inject sample_module = Value m' /\
    function_at m' (0 + size names) = Some (inl (Import 0 "env" "square")) /\
    lower names (Instr f32_add_code Void) = call_inst (index_of "_eosio_f32_add" names).
Proof.
  destruct (inject_correct sample_module [float_ops] sample_ready) as (names & m' & E & _ & _ & _ & F & G).
  exists names, m'. split; [exact E|]. split; [exact (F 0 ltac:(split; [discriminate|reflexivity]))|].
  refine (proj1 (G float_ops (Instr f32_add_code Void) ("_eosio_f32_add"%string, Function vt_f32 [vt_f32; vt_f32]) _ _ eq_refl)).
  - left. reflexivity.
  - simpl. tauto.
Defined.

(** ** The floating-point operations *)
Definition integer_to_float : list Z :=
  [f32_convert_s_i32_code; f32_convert_u_i32_code; f32_convert_s_i64_code; f32_convert_u_i64_code;
   f64_convert_s_i32_code; f64_convert_u_i32_code; f64_convert_s_i64_code; f64_convert_u_i64_code].

Definition injected_eqb (a b : injected) : bool :=
  String.eqb (fst a) (fst b) && list_eqb (type_key (snd a)) (type_key (snd b)).

Lemma injected_eqb_eq (a b : injected) : injected_eqb a b = true <-> a = b.
Proof.
  unfold injected_eqb. rewrite andb_true_iff, String.eqb_eq, list_eqb_eq. destruct a as [x s], b as [y t]. simpl. split.
  - intros [-> E]. now rewrite (type_key_injective s t E).
  - intros E. injection E as -> ->. auto.
Qed.

Lemma code_cases (P : Z -> bool) : forallb (fun n => P (Z.of_nat n)) (seq 0 256) = true ->
  forall c, 0 <= c < 256 -> P c = true.
Proof.
  intros A c Hc. rewrite forallb_forall in A. specialize (A (Z.to_nat c) ltac:(apply in_seq; lia)).
  now rewrite Z2Nat.id in A by lia.
Qed.

Lemma replacement_code (c : Z) (i : injected) : replacement c = Some i -> 0 <= c < 256.
Proof.
  unfold replacement. destruct (pre_op_injectors c); [|discriminate]. destruct (inject_which_op c) eqn:E; [|discriminate].
  intros _. exact (named_code _ _ E).
Qed.

Definition float_operation (c : Z) : bool :=
  between f32_eq_code f64_ge_code c || between f32_abs_code f64_copysign_code c ||
  between i32_trunc_s_f32_code i32_trunc_u_f64_code c || between i64_trunc_s_f32_code f64_promote_f32_code c.

(** What injection does to floating point.  A floating-point operation
    (comparison, arithmetic, truncation, conversion) other than an
    integer-to-float conversion is replaced, by an intrinsic that
    softfloat_api registers under that name with that type, and no replaced
    operation is left in the finished code.  The eight integer-to-float
    conversions, however, are left to the native hardware, although each has
    an intrinsic meant for it; and the name meant for f32.convert_s/i64,
    _eosio_i64_f32, is not one that is registered. *)
Theorem float_operations_replaced :
  (forall c i, replacement c = Some i -> In i softfloat_intrinsics) /\
  (forall c, 0 <= c < 256 -> float_operation c = true -> ~ In c integer_to_float -> replacement c <> None) /\
  (forall names start ops op, In op (finished names start ops) -> replacement (get_code op) = None) /\
  (forall c, In c integer_to_float -> inject_which_op c <> None /\
     forall names rest, finished names false (Instr c Void :: rest) = Instr c Void :: finished names false rest) /\
  inject_which_op f32_convert_s_i64_code = Some "_eosio_i64_f32"%string /\
  ~ In "_eosio_i64_f32"%string (map fst softfloat_intrinsics).
Proof.
  split; [|split; [|split; [|split; [|split]]]].
  - intros c i H. pose proof (replacement_code c i H) as Hc.
    assert (A := code_cases (fun c => match replacement c with
                                      | Some i => existsb (injected_eqb i) softfloat_intrinsics | None => true end)
                   ltac:(vm_compute; reflexivity) c Hc). cbv beta in A. rewrite H in A.
    apply existsb_exists in A. destruct A as (j & Hj & E). apply injected_eqb_eq in E. now subst.
  - intros c Hc F N R.
    assert (A := code_cases (fun c => negb (float_operation c) || existsb (Z.eqb c) integer_to_float ||
                                      match replacement c with Some _ => true | None => false end)
                   ltac:(vm_compute; reflexivity) c Hc). cbv beta in A. rewrite F, R, orb_false_r in A.
    cbn [negb orb] in A. apply existsb_exists in A. destruct A as (k & Hk & E).
    apply Z.eqb_eq in E. subst k. contradiction.
  - intros names start ops. revert start. induction ops as [|op ops IH]; intros start x H; [contradiction|].
    cbn [finished] in H. apply in_app_or in H. destruct H as [H|[H|H]]; [|subst x|exact (IH _ _ H)].
    + destruct start; [|contradiction]. unfold charge in H. destruct (0 <? _); [|contradiction].
      destruct H as [<-|[<-|[]]]; reflexivity.
    + unfold lower. destruct (replacement (get_code op)) eqn:R; [reflexivity|].
      destruct (get_code op =? call_code); [|exact R]. destruct (op_field op); first [exact R|reflexivity].
  - intros c H. simpl in H. repeat destruct H as [<-|H]; try contradiction; (split; [discriminate|reflexivity]).
  - reflexivity.
  - vm_compute. intros H. repeat destruct H as [H|H]; try discriminate; exact H.
Qed.

Lemma float_operations_replaced_witness :
  In ("_eosio_f64_demote"%string, Function vt_f32 [vt_f64]) softfloat_intrinsics /\ replacement f64_sqrt_code <> None /\
  finished [] false [Instr f64_convert_u_i64_code Void] = [Instr f64_convert_u_i64_code Void].
Proof.
  destruct float_operations_replaced as (A & B & _ & D & _).
  split; [exact (A f32_demote_f64_code _ eq_refl)|]. split.
  - apply B; [split; [discriminate|reflexivity]|reflexivity|]. vm_compute. intros H.
    repeat destruct H as [H|H]; try discriminate; exact H.
  - refine (proj2 (D f64_convert_u_i64_code _) [] []). simpl. tauto.
Defined.
