(* ===== verification/Validation.v ===== *)
(** The constraints a contract is checked against (include/wasm_validation.hpp,
    wasm_validation.cpp, include/wasm_constraints.hpp), and the entry check of
    wasm_instantiated_module::call (wavm.cpp). *)
From Stdlib Require Import ZArith Bool Lia String List.
From S2P Require Import Prelude Exceptions Memory Opcodes Ops Injection.
Import ListNotations.
Local Open Scope Z_scope.

(** ** wasm_constraints *)
Definition maximum_mutable_globals : Z := 1024.
Definition maximum_table_elements : Z := 1024.
Definition maximum_linear_memory_init : Z := 64 * 1024.
Definition maximum_func_local_bytes : Z := 8192.

(** The module as validation reads it: besides what injection sees, the minimal
    sizes of the tables, the mutability and type of the globals and the data
    segments. *)
Record contract : Type := Contract {
  module : Module_;
  tables : list Z;
  globals : list (bool * Z);
  dataSegments : list DataSegment
}.

(** [FTL_THROW] when a condition holds. *)
Definition throw_if (b : bool) : result unit := if b then Throw wasm_runtime_exception else Value tt.

Fixpoint for_each {A} (f : A -> result unit) (l : list A) : result unit :=
  match l with
  | [] => Value tt
  | x :: l => rbind (f x) (fun _ => for_each f l)
  end.

(** ** The module visitors *)
Definition memories_validate (m : contract) : result unit :=
  match memories (module m) with
  | (min, _) :: _ => throw_if (maximum_linear_memory / (64 * 1024) <? min)
  | [] => Value tt
  end.

Definition data_segment_validate (ds : DataSegment) : result unit :=
  match baseOffset ds with
  | i32_const i32 => throw_if (maximum_linear_memory_init <? u64 (u32 i32 + Memory.size (data ds)))
  | _ => Throw wasm_runtime_exception
  end.
Definition data_segments_validate (m : contract) : result unit := for_each data_segment_validate (dataSegments m).

Definition tables_validate (m : contract) : result unit :=
  match tables m with
  | min :: _ => throw_if (maximum_table_elements <? min)
  | [] => Value tt
  end.

(** The switch over the value type falls through: eight bytes for i64 and f64,
    four for i32 and f32. *)
Fixpoint globals_total (gs : list (bool * Z)) (mutable_globals_total_size : Z) : result Z :=
  match gs with
  | [] => Value mutable_globals_total_size
  | (isMutable, valueType) :: gs =>
      if negb isMutable then globals_total gs mutable_globals_total_size
      else if (valueType =? vt_any) || (valueType =? vt_num) then Throw wasm_runtime_exception
      else
        let wide := (valueType =? vt_i64) || (valueType =? vt_f64) in
        let size := if wide then u32 (mutable_globals_total_size + 4) else mutable_globals_total_size in
        let narrow := (valueType =? vt_i32) || (valueType =? vt_f32) in
        globals_total gs (if wide || narrow then u32 (size + 4) else size)
  end.
Definition globals_validate (m : contract) : result unit :=
  rbind (globals_total (globals m) 0) (fun total => throw_if (maximum_mutable_globals <? total)).

Definition getTypeBitWidth (type : Z) : Z := if (type =? vt_i32) || (type =? vt_f32) then 32 else 64.

Definition stack_usage (usage : Z) (type : Z) : Z := u32 (usage + getTypeBitWidth type / 8).
Definition function_parameters (m : Module_) (fd : FunctionDef) : list Z :=
  match nth_error (types m) (Z.to_nat (type_index fd)) with Some t => parameters t | None => [] end.
Definition function_stack_validate (m : Module_) (fd : FunctionDef) : result unit :=
  let function_stack_usage := fold_left stack_usage (nonParameterLocalTypes fd) 0 in
  let function_stack_usage := fold_left stack_usage (function_parameters m fd) function_stack_usage in
  throw_if (maximum_func_local_bytes <? function_stack_usage).
Definition maximum_function_stack_validate (m : contract) : result unit :=
  for_each (function_stack_validate (module m)) (defs (module m)).

(** [functions.getType(index)], and the type it indexes. *)
Definition getType (m : Module_) (index : Z) : option FunctionType :=
  let type := if index <? Injection.size (imports m)
              then option_map import_type (nth_error (imports m) (Z.to_nat index))
              else option_map type_index (nth_error (defs m) (Z.to_nat (index - Injection.size (imports m)))) in
  match type with
  | Some i => nth_error (types m) (Z.to_nat i)
  | None => None
  end.

Definition is_function (e : Export) : bool := match kind e with function => true | _ => false end.
Definition apply_type : FunctionType := Function rt_none [vt_i64; vt_i64; vt_i64].

Definition exports_apply (m : Module_) (e : Export) : bool :=
  is_function e && String.eqb (export_name e) "apply" &&
  match getType m (index e) with
  | Some t => list_eqb (type_key t) (type_key apply_type)
  | None => false
  end.
Definition ensure_apply_exported (m : contract) : result unit :=
  throw_if (negb (existsb (exports_apply (module m)) (exports (module m)))).

(** ** The operation validators *)

(** [nested_validator::accept], on its static counter. *)
Definition nested_validator (code : Z) (depth : Z) : result Z :=
  if (code =? end_code) && (0 <? depth) then Value (u16 (depth - 1))
  else
    let depth := u16 (depth + 1) in
    rbind (FTL_ASSERT (depth <? 1024) wasm_runtime_exception) (fun _ => Value depth).

Definition large_offset_validator (f : field) : result unit :=
  match f with
  | Memarg _ o => throw_if (maximum_linear_memory <=? o)
  | _ => Value tt
  end.

(** [op_constrainers]: every operation is on the white list; the structured
    ones are also counted and the loads and stores checked. *)
Definition op_constrainers (op : instr) (depth : Z) : result Z :=
  match field_type_of (get_code op) with
  | None => Throw wasm_runtime_exception
  | Some memarg => rbind (large_offset_validator (op_field op)) (fun _ => Value depth)
  | Some _ =>
      if existsb (Z.eqb (get_code op)) [block_code; loop_code; if__code; else__code; end_code]
      then nested_validator (get_code op) depth
      else Value depth
  end.

Fixpoint validate_functions (fds : list FunctionDef) (depth : Z) : result Z :=
  match fds with
  | [] => Value depth
  | fd :: fds => rbind (decode_while op_constrainers (code fd) depth) (validate_functions fds)
  end.

(** [wasm_binary_validation::validate] *)
Definition validate (m : contract) : result unit :=
  rbind (memories_validate m) (fun _ =>
  rbind (data_segments_validate m) (fun _ =>
  rbind (tables_validate m) (fun _ =>
  rbind (globals_validate m) (fun _ =>
  rbind (maximum_function_stack_validate m) (fun _ =>
  rbind (ensure_apply_exported m) (fun _ =>
  rbind (validate_functions (defs (module m)) 0) (fun _ => Value tt))))))).

(** ** The entry point *)

(** [wasm_instantiated_module::call("apply", args)] up to the memory reset: the
    exported object named [apply]; a run without one is a no-op. *)
Definition check_entry (m : Module_) (args : list Z) : result unit :=
  match find (fun e => String.eqb (export_name e) "apply") (exports m) with
  | Some e =>
      if is_function e
      then match getType m (index e) with
           | Some t => FTL_ASSERT (Injection.size (parameters t) =? Injection.size args) wasm_runtime_exception
           | None => Value tt
           end
      else Value tt
  | None => Value tt
  end.

(** [wasm_instantiated_module::apply] passes the name of the action. *)
Definition apply (m : Module_) (action_name : Z) : result unit := check_entry m [u64 action_name].
