(* ===== verification/ValidationProofs.v ===== *)
(** What validation accepts, why a validated contract cannot be entered, and
    what the nesting counter counts. *)
From Stdlib Require Import ZArith Bool Lia String List Setoid Morphisms.
From S2P Require Import Prelude Exceptions Memory Opcodes Ops OpsProofs Injection GasInjection Linking InjectCorrect Validation.
Import ListNotations.
Local Open Scope Z_scope.

(** ** Checks: computations that return or throw wasm_runtime_exception *)
Definition checks {A} (r : result A) (a : A) (P : Prop) : Prop :=
  r = Value a /\ P \/ r = Throw wasm_runtime_exception /\ ~ P.

#[export] Instance checks_proper {A} (r : result A) (a : A) : Proper (iff ==> iff) (checks r a).
Proof. unfold checks. intros P Q H. now rewrite H. Qed.

Lemma checks_iff {A} (r : result A) (a : A) (P Q : Prop) : checks r a P -> (P <-> Q) -> checks r a Q.
Proof. unfold checks. tauto. Qed.

Lemma checks_then {A B} (r : result A) (k : A -> result B) (a : A) (b : B) (P Q : Prop) :
  checks r a P -> checks (k a) b Q -> checks (rbind r k) b (P /\ Q).
Proof. unfold checks. intros [[-> HP]|[-> HP]] H; cbn [rbind]; tauto. Qed.

Lemma checks_throw_if (b : bool) : checks (throw_if b) tt (b = false).
Proof. unfold checks. destruct b; [right|left]; split; (reflexivity || congruence). Qed.

Lemma checks_above (x y : Z) : checks (throw_if (x <? y)) tt (y <= x).
Proof. eapply checks_iff; [apply checks_throw_if|]. apply Z.ltb_ge. Qed.

Lemma checks_return {A} (a : A) (P : Prop) : P -> checks (Value a) a P.
Proof. intros H. now left. Qed.

Lemma checks_throws {A} (a : A) (P : Prop) : ~ P -> checks (Throw wasm_runtime_exception) a P.
Proof. intros H. now right. Qed.

Lemma checks_assert (b : bool) : checks (FTL_ASSERT b wasm_runtime_exception) tt (b = true).
Proof. unfold checks. destruct b; [left|right]; split; (reflexivity || discriminate). Qed.

Lemma checks_for_each {A} (f : A -> result unit) (P : A -> Prop) (l : list A) :
  (forall x, In x l -> checks (f x) tt (P x)) -> checks (for_each f l) tt (Forall P l).
Proof.
  induction l as [|x l IH]; intros H; [apply checks_return; constructor|].
  eapply checks_iff; [exact (checks_then _ (fun _ => for_each f l) _ _ _ _ (H x (or_introl eq_refl))
                              (IH (fun y Hy => H y (or_intror Hy))))|].
  now rewrite Forall_cons_iff.
Qed.

(** ** The module visitors *)
Definition memory_ok (m : contract) : Prop :=
  match memories (module m) with (min, _) :: _ => min <= 528 | [] => True end.
Definition segment_ok (ds : DataSegment) : Prop :=
  exists i, baseOffset ds = i32_const i /\ u32 i + Memory.size (data ds) <= maximum_linear_memory_init.
Definition table_ok (m : contract) : Prop :=
  match tables m with min :: _ => min <= maximum_table_elements | [] => True end.

(** The bytes a value of the type takes. *)
Definition width (t : Z) : Z := if (t =? vt_i64) || (t =? vt_f64) then 8 else 4.
Definition value_type (t : Z) : Prop := In t [vt_i32; vt_i64; vt_f32; vt_f64].
Definition total (ts : list Z) : Z := fold_right (fun t n => width t + n) 0 ts.
Definition mutables (gs : list (bool * Z)) : list Z := map snd (filter fst gs).

Lemma total_bounds (ts : list Z) : 0 <= total ts <= 8 * Injection.size ts.
Proof.
  unfold Injection.size. induction ts as [|t ts IH]; cbn [total fold_right length] in *; [lia|]. fold (total ts).
  rewrite Nat2Z.inj_succ. unfold width. destruct (_ || _); lia.
Qed.

Lemma memories_checks (m : contract) : checks (memories_validate m) tt (memory_ok m).
Proof.
  unfold memories_validate, memory_ok. destruct (memories (module m)) as [|[min max] l]; [now apply checks_return|].
  apply checks_above.
Qed.

Lemma segment_checks (ds : DataSegment) : Memory.size (data ds) < 2 ^ 63 ->
  checks (data_segment_validate ds) tt (segment_ok ds).
Proof.
  intros B. unfold data_segment_validate, segment_ok. destruct (baseOffset ds) as [i| | | | |];
    try (apply checks_throws; intros (j & E & _); discriminate).
  pose proof (uwrap_bound 32 i ltac:(lia)) as Hi. unfold Memory.size in *.
  rewrite uwrap_small by lia. eapply checks_iff; [apply checks_above|]. split; [intros H; now exists i|].
  intros (j & E & H). now injection E as ->.
Qed.

Lemma tables_checks (m : contract) : checks (tables_validate m) tt (table_ok m).
Proof. unfold tables_validate, table_ok. destruct (tables m); [now apply checks_return|apply checks_above]. Qed.

Lemma value_type_cases (t : Z) : value_type t -> t = vt_i32 \/ t = vt_i64 \/ t = vt_f32 \/ t = vt_f64.
Proof. unfold value_type. simpl. intuition congruence. Qed.

Lemma globals_total_step (isMutable : bool) (t : Z) (gs : list (bool * Z)) (n : Z) :
  t = vt_any \/ t = vt_num \/ value_type t ->
  globals_total ((isMutable, t) :: gs) n =
    if negb isMutable then globals_total gs n
    else if (t =? vt_any) || (t =? vt_num) then Throw wasm_runtime_exception
    else globals_total gs (u32 (n + width t)).
Proof.
  intros Ht. cbn [globals_total]. destruct isMutable; [|reflexivity]. cbn [negb].
  destruct Ht as [->|[->|H]]; [reflexivity|reflexivity|].
  apply value_type_cases in H. destruct H as [->|[->|[->| ->]]]; try reflexivity.
  - change (globals_total gs (u32 (u32 (n + 4) + 4)) = globals_total gs (u32 (n + 8))).
    unfold uwrap. rewrite Zplus_mod_idemp_l. now rewrite <- Z.add_assoc.
  - change (globals_total gs (u32 (u32 (n + 4) + 4)) = globals_total gs (u32 (n + 8))).
    unfold uwrap. rewrite Zplus_mod_idemp_l. now rewrite <- Z.add_assoc.
Qed.

(** Every type the parser produces is a value type or one of [any] and [num]. *)
Definition known_type (t : Z) : Prop := t = vt_any \/ t = vt_num \/ value_type t.

Lemma globals_total_checks (gs : list (bool * Z)) : forall n,
  Forall (fun g => known_type (snd g)) gs -> 0 <= n -> n + 8 * Injection.size gs < 2 ^ 32 ->
  checks (globals_total gs n) (n + total (mutables gs)) (Forall value_type (mutables gs)).
Proof.
  unfold Injection.size. induction gs as [|[b t] gs IH]; intros n F Hn B.
  - cbn. rewrite Z.add_0_r. apply checks_return. constructor.
  - inversion F as [|? ? Ht F']; subst. cbn [snd length] in *. rewrite Nat2Z.inj_succ in B.
    rewrite globals_total_step by exact Ht. unfold mutables. cbn [filter fst]. destruct b; cbn [negb].
    2: { apply IH; [exact F'|exact Hn|lia]. }
    cbn [map snd]. fold (mutables gs). destruct Ht as [->|[->|Hv]].
    1,2: apply checks_throws; intros H; inversion H as [|? ? C]; subst; apply value_type_cases in C;
      repeat destruct C as [C|C]; discriminate C.
    replace ((t =? vt_any) || (t =? vt_num)) with false
      by (apply value_type_cases in Hv; destruct Hv as [->|[->|[->| ->]]]; reflexivity).
    assert (W : 0 <= width t <= 8) by (unfold width; destruct (_ || _); lia).
    rewrite uwrap_small by lia. cbn [total fold_right]. fold (total (mutables gs)).
    rewrite Z.add_assoc. eapply checks_iff; [apply IH; [exact F'|lia|lia]|]. rewrite Forall_cons_iff. tauto.
Qed.

Definition globals_ok (m : contract) : Prop :=
  Forall value_type (mutables (globals m)) /\ total (mutables (globals m)) <= maximum_mutable_globals.

Lemma globals_checks (m : contract) : Forall (fun g => known_type (snd g)) (globals m) ->
  Injection.size (globals m) < 2 ^ 28 -> checks (globals_validate m) tt (globals_ok m).
Proof.
  intros F B. unfold globals_validate, globals_ok.
  apply (checks_then _ _ (0 + total (mutables (globals m)))); [apply globals_total_checks; [exact F|lia|lia]|].
  apply checks_above.
Qed.

(** ** Stack usage *)
Lemma stack_usage_fold (ts : list Z) : Forall value_type ts ->
  forall n, 0 <= n -> n + 8 * Injection.size ts < 2 ^ 32 -> fold_left stack_usage ts n = n + total ts.
Proof.
  unfold Injection.size. induction 1 as [|t ts Ht F IH]; intros n Hn B; cbn [fold_left total fold_right length] in *; [lia|].
  fold (total ts). rewrite Nat2Z.inj_succ in B.
  assert (E : getTypeBitWidth t / 8 = width t)
    by (apply value_type_cases in Ht; destruct Ht as [->|[->|[->| ->]]]; reflexivity).
  assert (W : 0 <= width t <= 8) by (unfold width; destruct (_ || _); lia).
  unfold stack_usage at 2. rewrite E, uwrap_small by lia. rewrite IH; lia.
Qed.

(** The locals and parameters of a function, as the parser bounds them. *)
Definition locals_ready (m : Module_) (fd : FunctionDef) : Prop :=
  Forall value_type (nonParameterLocalTypes fd) /\ Forall value_type (function_parameters m fd) /\
  Injection.size (nonParameterLocalTypes fd) + Injection.size (function_parameters m fd) < 2 ^ 28.
Definition stack_ok (m : Module_) (fd : FunctionDef) : Prop :=
  total (nonParameterLocalTypes fd) + total (function_parameters m fd) <= maximum_func_local_bytes.

Lemma stack_checks (m : Module_) (fd : FunctionDef) : locals_ready m fd ->
  checks (function_stack_validate m fd) tt (stack_ok m fd).
Proof.
  intros (F1 & F2 & B). unfold function_stack_validate, stack_ok.
  pose proof (total_bounds (nonParameterLocalTypes fd)).
  assert (0 <= Injection.size (function_parameters m fd)) by apply size_nonneg.
  rewrite (stack_usage_fold _ F1), (stack_usage_fold _ F2) by lia. rewrite Z.add_0_l. apply checks_above.
Qed.

(** ** The exported apply *)
Lemma exports_apply_spec (m : Module_) (e : Export) : exports_apply m e = true <->
  kind e = function /\ export_name e = "apply"%string /\ getType m (index e) = Some apply_type.
Proof.
  unfold exports_apply, is_function. rewrite !andb_true_iff, String.eqb_eq. split.
  - intros [[K N] T]. split; [destruct (kind e); congruence|]. split; [exact N|].
    destruct (getType m (index e)) as [t|]; [|discriminate]. apply list_eqb_eq in T. now rewrite (type_key_injective _ _ T).
  - intros (-> & -> & ->). repeat split; reflexivity.
Qed.

Definition apply_exported (m : contract) : Prop :=
  exists e, In e (exports (module m)) /\ kind e = function /\ export_name e = "apply"%string /\
            getType (module m) (index e) = Some apply_type.

Lemma apply_checks (m : contract) : checks (ensure_apply_exported m) tt (apply_exported m).
Proof.
  eapply checks_iff; [apply checks_throw_if|]. rewrite negb_false_iff, existsb_exists. unfold apply_exported.
  split; intros (e & I & H); exists e; rewrite exports_apply_spec in *; auto.
Qed.

(** ** The operations *)
Definition structured (c : Z) : bool := existsb (Z.eqb c) [block_code; loop_code; if__code; else__code; end_code].

(** What the counter does, without its width. *)
Definition count (d : Z) (op : instr) : Z :=
  if structured (get_code op) then
    if (get_code op =? end_code) && (0 <? d) then d - 1 else d + 1
  else d.
Definition depth_after (d : Z) (ops : list instr) : Z := fold_left count ops d.

Definition offset_ok (op : instr) : Prop :=
  match op_field op with Memarg _ o => o < maximum_linear_memory | _ => True end.

(** The counter stays below the limit, at every operation. *)
Definition shallow (d : Z) (ops : list instr) : Prop :=
  forall p q, ops = p ++ q -> depth_after d p < 1024.

Lemma count_nonneg (d : Z) (op : instr) : 0 <= d -> 0 <= count d op.
Proof.
  intros H. unfold count. destruct (structured _); [|exact H]. destruct (_ =? _); cbn [andb]; [|lia].
  destruct (Z.ltb_spec 0 d); lia.
Qed.

Lemma shallow_cons (d : Z) (op : instr) (ops : list instr) : d < 1024 ->
  shallow d (op :: ops) <-> shallow (count d op) ops.
Proof.
  intros Hd. split; intros H p q E.
  - apply (H (op :: p) q). now rewrite E.
  - destruct p as [|o p]; [exact Hd|]. injection E as <- ->. exact (H p q eq_refl).
Qed.

Lemma large_offset_checks (op : instr) : checks (large_offset_validator (op_field op)) tt (offset_ok op).
Proof.
  unfold large_offset_validator, offset_ok. destruct (op_field op) as [| | | |a o|]; try now apply checks_return.
  eapply checks_iff; [apply checks_throw_if|]. apply Z.leb_gt.
Qed.

Lemma nested_checks (c : Z) (f : field) (d : Z) : structured c = true -> 0 <= d < 1024 ->
  checks (nested_validator c d) (count d (Instr c f)) (count d (Instr c f) < 1024).
Proof.
  intros S Hd. unfold nested_validator, count. cbn [get_code]. rewrite S.
  destruct ((c =? end_code) && (0 <? d)) eqn:E.
  - apply andb_prop in E. destruct E as [_ E]. apply Z.ltb_lt in E. rewrite uwrap_small by lia.
    apply checks_return. lia.
  - rewrite uwrap_small by lia.
    eapply checks_iff; [eapply (checks_then _ _ tt _ _ True); [apply checks_assert|now apply checks_return]|].
    rewrite Z.ltb_lt. tauto.
Qed.

Lemma field_shape (op : instr) : well_formed op ->
  field_type_of (get_code op) = Some memarg \/
  (exists t, t <> memarg /\ field_type_of (get_code op) = Some t /\ offset_ok op).
Proof.
  intros (_ & t & T & F). unfold offset_ok. destruct t; try (now left); right;
    (eexists; split; [|split; [exact T|destruct (op_field op); (exact I || contradiction)]]; discriminate).
Qed.

Lemma structured_not_memarg (c : Z) : structured c = true -> field_type_of c <> Some memarg.
Proof.
  unfold structured. rewrite existsb_exists. intros (k & I & E). apply Z.eqb_eq in E. subst k. simpl in I.
  repeat destruct I as [<-|I]; try discriminate. contradiction.
Qed.

Lemma op_checks (op : instr) (d : Z) : well_formed op -> 0 <= d < 1024 ->
  checks (op_constrainers op d) (count d op) (offset_ok op /\ count d op < 1024).
Proof.
  intros W Hd. unfold op_constrainers. destruct (field_shape op W) as [T|(t & N & T & O)]; rewrite T.
  - assert (S : structured (get_code op) = false).
    { destruct (structured (get_code op)) eqn:S; [|reflexivity]. now destruct (structured_not_memarg _ S). }
    unfold count. rewrite S.
    apply (checks_then _ _ tt); [apply large_offset_checks|apply checks_return; lia].
  - assert (R : forall (r : result Z) a P, checks r a P -> checks r a (offset_ok op /\ P)).
    { intros r a P H. eapply checks_iff; [exact H|tauto]. }
    apply R. destruct op as [c f]. cbn [get_code] in *.
    destruct t; try contradiction; change (existsb (Z.eqb c) _) with (structured c);
      (destruct (structured c) eqn:S; [now apply nested_checks|
        unfold count; cbn [get_code]; rewrite S; apply checks_return; lia]).
Qed.

Lemma fold_checks (ops : list instr) : Forall well_formed ops -> forall d, 0 <= d < 1024 ->
  checks (fold_ops op_constrainers ops d) (depth_after d ops) (Forall offset_ok ops /\ shallow d ops).
Proof.
  induction 1 as [|op ops W F IH]; intros d Hd.
  - apply checks_return. split; [constructor|]. intros p q E. symmetry in E. apply app_eq_nil in E.
    destruct E as [-> _]. apply Hd.
  - cbn [fold_ops]. rewrite Forall_cons_iff, (shallow_cons d op ops) by apply Hd.
    pose proof (count_nonneg d op ltac:(lia)) as Hc.
    destruct (op_checks op d W Hd) as [[-> (O & L)]|[-> N]]; cbn [rbind].
    + eapply checks_iff; [apply (IH (count d op)); lia|]. tauto.
    + apply checks_throws. intros ((O & _) & S). apply N. split; [exact O|]. exact (S [] ops eq_refl).
Qed.

(** A list of functions with the operations their code encodes. *)
Definition decoded (fds : list FunctionDef) (opss : list (list instr)) : Prop :=
  Forall2 (fun fd ops => code fd = encode_all ops /\ Forall well_formed ops) fds opss.

Lemma validate_functions_fold (fds : list FunctionDef) (opss : list (list instr)) : decoded fds opss ->
  forall d, validate_functions fds d = fold_ops op_constrainers (concat opss) d.
Proof.
  induction 1 as [|fd ops fds opss (E & W) F IH]; intros d; [reflexivity|]. cbn [validate_functions concat].
  rewrite fold_ops_app, E, decode_while_fold by exact W. destruct (fold_ops _ ops d); [reflexivity|apply IH].
Qed.

Lemma decoded_well_formed (fds : list FunctionDef) (opss : list (list instr)) :
  decoded fds opss -> Forall well_formed (concat opss).
Proof.
  induction 1 as [|fd ops fds opss (E & W) F IH]; cbn [concat]; [constructor|]. apply Forall_app. split; assumption.
Qed.

(** ** The whole of validation *)

(** What the engine's parser guarantees. *)
Record parsed (m : contract) (opss : list (list instr)) : Prop := {
  parsed_code : decoded (defs (module m)) opss;
  parsed_globals : Forall (fun g => known_type (snd g)) (globals m);
  parsed_global_count : Injection.size (globals m) < 2 ^ 28;
  parsed_locals : Forall (locals_ready (module m)) (defs (module m));
  parsed_segments : Forall (fun ds => Memory.size (data ds) < 2 ^ 63) (dataSegments m)
}.

Definition acceptable (m : contract) (opss : list (list instr)) : Prop :=
  memory_ok m /\ Forall segment_ok (dataSegments m) /\ table_ok m /\ globals_ok m /\
  Forall (stack_ok (module m)) (defs (module m)) /\ apply_exported m /\
  Forall offset_ok (concat opss) /\ shallow 0 (concat opss).

Lemma validate_checks (m : contract) (opss : list (list instr)) : parsed m opss ->
  checks (validate m) tt (acceptable m opss).
Proof.
  intros [Pc Pg Pn Pl Ps]. unfold validate, acceptable.
  apply (checks_then _ _ tt); [apply memories_checks|].
  apply (checks_then _ _ tt).
  { apply checks_for_each. intros ds I. apply segment_checks. rewrite Forall_forall in Ps. now apply Ps. }
  apply (checks_then _ _ tt); [apply tables_checks|].
  apply (checks_then _ _ tt); [now apply globals_checks|].
  apply (checks_then _ _ tt).
  { apply checks_for_each. intros fd I. apply stack_checks. rewrite Forall_forall in Pl. now apply Pl. }
  apply (checks_then _ _ tt); [apply apply_checks|].
  rewrite (validate_functions_fold _ _ Pc).
  eapply checks_iff.
  - eapply (checks_then _ _ (depth_after 0 (concat opss)) tt _ True);
      [apply fold_checks; [exact (decoded_well_formed _ _ Pc)|lia]|now apply checks_return].
  - tauto.
Qed.

(** ** Nested code *)

(** Properly nested operations, with the depth of their nesting and the number
    of [else]s. *)
Inductive nested : Z -> Z -> list instr -> Prop :=
  | nested_nil : nested 0 0 []
  | nested_plain h e op ops : structured (get_code op) = false -> nested h e ops -> nested h e (op :: ops)
  | nested_block h e h' e' op body fin ops :
      In (get_code op) [block_code; loop_code; if__code] -> get_code fin = end_code ->
      nested h e body -> nested h' e' ops ->
      nested (Z.max (h + 1) h') (e + e') (op :: body ++ fin :: ops)
  | nested_if_else h1 e1 h2 e2 h' e' op body1 els body2 fin ops :
      get_code op = if__code -> get_code els = else__code -> get_code fin = end_code ->
      nested h1 e1 body1 -> nested h2 e2 body2 -> nested h' e' ops ->
      nested (Z.max (Z.max (h1 + 1) (h2 + 1)) h') (e1 + e2 + e' + 1)
        (op :: body1 ++ els :: body2 ++ fin :: ops).

Lemma depth_app (d : Z) (a b : list instr) : depth_after d (a ++ b) = depth_after (depth_after d a) b.
Proof. apply fold_left_app. Qed.

Lemma count_open (d : Z) (op : instr) : In (get_code op) [block_code; loop_code; if__code; else__code] -> count d op = d + 1.
Proof. unfold count. simpl. intros [<-|[<-|[<-|[<-|[]]]]]; reflexivity. Qed.

Lemma count_end (d : Z) (op : instr) : get_code op = end_code -> 0 < d -> count d op = d - 1.
Proof. intros E H. unfold count. rewrite E. cbn [structured existsb Z.eqb]. apply Z.ltb_lt in H. now rewrite H. Qed.

Lemma nested_nonneg (h e : Z) (ops : list instr) : nested h e ops -> 0 <= h /\ 0 <= e.
Proof. induction 1; lia. Qed.

(** The counter returns above its start by the number of [else]s. *)
Lemma nested_depth (h e : Z) (ops : list instr) : nested h e ops -> forall d, 0 <= d -> depth_after d ops = d + e.
Proof.
  induction 1 as [|h e op ops S N IH|h e h' e' op body fin ops O F N1 IH1 N2 IH2
                  |h1 e1 h2 e2 h' e' op b1 els b2 fin ops O L F N1 IH1 N2 IH2 N3 IH3]; intros d Hd.
  - cbn. lia.
  - change (depth_after (count d op) ops = d + e). unfold count. rewrite S. now apply IH.
  - pose proof (nested_nonneg _ _ _ N1). change (depth_after (count d op) (body ++ fin :: ops) = d + (e + e')).
    rewrite (count_open d op) by (simpl in *; tauto). rewrite depth_app, IH1 by lia.
    change (depth_after (count (d + 1 + e) fin) ops = d + (e + e')).
    rewrite (count_end _ fin F) by lia. rewrite IH2; lia.
  - pose proof (nested_nonneg _ _ _ N1). pose proof (nested_nonneg _ _ _ N2).
    change (depth_after (count d op) (b1 ++ els :: b2 ++ fin :: ops) = d + (e1 + e2 + e' + 1)).
    rewrite (count_open d op) by (rewrite O; simpl; tauto). rewrite depth_app, IH1 by lia.
    change (depth_after (count (d + 1 + e1) els) (b2 ++ fin :: ops) = d + (e1 + e2 + e' + 1)).
    rewrite (count_open _ els) by (rewrite L; simpl; tauto). rewrite depth_app, IH2 by lia.
    change (depth_after (count (d + 1 + e1 + 1 + e2) fin) ops = d + (e1 + e2 + e' + 1)).
    rewrite (count_end _ fin F) by lia. rewrite IH3; lia.
Qed.

(** [below k d ops]: the counter is at most [k] at every operation. *)
Definition below (k d : Z) (ops : list instr) : Prop := forall p q, ops = p ++ q -> depth_after d p <= k.

Lemma below_nil (k d : Z) : d <= k -> below k d [].
Proof. intros H p q E. symmetry in E. apply app_eq_nil in E. now destruct E as [-> _]. Qed.

Lemma below_cons (k d : Z) (op : instr) (ops : list instr) : d <= k -> below k (count d op) ops -> below k d (op :: ops).
Proof. intros Hd H [|o p] q E; [exact Hd|]. injection E as <- ->. exact (H p q eq_refl). Qed.

Lemma below_app (k d : Z) (a b : list instr) : below k d a -> below k (depth_after d a) b -> below k d (a ++ b).
Proof.
  intros Ha Hb. revert d Ha Hb. induction a as [|x a IH]; intros d Ha Hb; [exact Hb|].
  cbn [app]. apply below_cons; [exact (Ha [] (x :: a) eq_refl)|]. apply IH; [|exact Hb].
  intros p q E. apply (Ha (x :: p) q). now rewrite E.
Qed.

Lemma below_weaken (j k d : Z) (ops : list instr) : j <= k -> below j d ops -> below k d ops.
Proof. intros L H p q E. specialize (H p q E). lia. Qed.

Lemma nested_below (h e : Z) (ops : list instr) : nested h e ops -> forall d, 0 <= d -> below (d + h + e) d ops.
Proof.
  induction 1 as [|h e op ops S N IH|h e h' e' op body fin ops O F N1 IH1 N2 IH2
                  |h1 e1 h2 e2 h' e' op b1 els b2 fin ops O L F N1 IH1 N2 IH2 N3 IH3]; intros d Hd.
  - apply below_nil. lia.
  - pose proof (nested_nonneg _ _ _ N). apply below_cons; [lia|]. unfold count. rewrite S. now apply IH.
  - pose proof (nested_nonneg _ _ _ N1). pose proof (nested_nonneg _ _ _ N2). apply below_cons; [lia|].
    rewrite (count_open d op) by (simpl in *; tauto). apply below_app; [eapply below_weaken; [|apply IH1]; lia|].
    rewrite (nested_depth _ _ _ N1) by lia. apply below_cons; [lia|]. rewrite (count_end _ fin F) by lia.
    eapply below_weaken; [|apply IH2]; lia.
  - pose proof (nested_nonneg _ _ _ N1). pose proof (nested_nonneg _ _ _ N2). pose proof (nested_nonneg _ _ _ N3).
    apply below_cons; [lia|]. rewrite (count_open d op) by (rewrite O; simpl; tauto).
    apply below_app; [eapply below_weaken; [|apply IH1]; lia|].
    rewrite (nested_depth _ _ _ N1) by lia. apply below_cons; [lia|].
    rewrite (count_open _ els) by (rewrite L; simpl; tauto).
    apply below_app; [eapply below_weaken; [|apply IH2]; lia|].
    rewrite (nested_depth _ _ _ N2) by lia. apply below_cons; [lia|]. rewrite (count_end _ fin F) by lia.
    eapply below_weaken; [|apply IH3]; lia.
Qed.

(** [n] conditionals in a row, one level deep. *)
Definition conditional : list instr :=
  [Instr if__code (Block 0x40); Instr else__code Void; Instr end_code Void].
Fixpoint conditionals (n : nat) : list instr :=
  match n with
  | O => []
  | S n => conditional ++ conditionals n
  end.

Lemma conditionals_nested (n : nat) : nested (match n with O => 0 | S _ => 1 end) (Z.of_nat n) (conditionals n).
Proof.
  induction n as [|n IH]; [constructor|].
  pose proof (nested_if_else 0 0 0 0 _ _ (Instr if__code (Block 0x40)) [] (Instr else__code Void) []
                (Instr end_code Void) _ eq_refl eq_refl eq_refl nested_nil nested_nil IH) as H.
  rewrite Nat2Z.inj_succ. cbn [app] in H. destruct n; exact H.
Qed.

Lemma conditionals_well_formed (n : nat) : Forall well_formed (conditionals n).
Proof.
  induction n as [|n IH]; [constructor|]. cbn [conditionals]. apply Forall_app. split; [|exact IH].
  repeat constructor; try discriminate; eexists; (split; [reflexivity|]); repeat split; discriminate.
Qed.

(** ** Indices after injection *)
Lemma getType_moved (m m' : Module_) (opss : list (list instr)) (names : list injected) (f : Z) (t : FunctionType) :
  rewritten m opss names m' -> length (defs m) = length opss -> 0 <= f ->
  getType m f = Some t -> getType m' (f + Injection.size names) = Some t.
Proof.
  intros W Hl Hf. destruct (rewritten_types _ _ _ _ W) as (extra & Et & _).
  destruct (rewritten_imports _ _ _ _ W) as (imps & Ei & Fi). pose proof (Forall2_length _ _ _ Fi) as Li.
  assert (N : forall i x, nth_error (types m) i = Some x -> nth_error (types m') i = Some x).
  { intros i x E. rewrite Et, nth_error_app1; [exact E|]. apply nth_error_Some. congruence. }
  assert (Es : Injection.size names = Injection.size imps) by (unfold Injection.size; now rewrite Li).
  rewrite Es. unfold getType. rewrite Ei, size_app.
  replace (f + Injection.size imps <? Injection.size imps + Injection.size (imports m)) with (f <? Injection.size (imports m))
    by (destruct (Z.ltb_spec f (Injection.size (imports m))); symmetry; [apply Z.ltb_lt|apply Z.ltb_ge]; lia).
  pose proof (size_nonneg imps). unfold Injection.size in *.
  destruct (Z.ltb_spec f (Z.of_nat (length (imports m)))).
  - rewrite nth_error_app2 by lia. replace (Z.to_nat _ - length imps)%nat with (Z.to_nat f) by lia.
    destruct (nth_error (imports m) (Z.to_nat f)); [apply N|discriminate].
  - replace (f + _ - _) with (f - Z.of_nat (length (imports m))) by lia.
    rewrite (rewritten_defs _ _ _ _ W), nth_error_map.
    destruct (nth_error (defs m) _) as [fd|] eqn:E; [|discriminate]. cbn [option_map]. intros T.
    assert (C : exists o, nth_error (combine (defs m) opss) (Z.to_nat (f - Z.of_nat (length (imports m)))) = Some (fd, o)).
    { clear -E Hl. revert E Hl. generalize (Z.to_nat (f - Z.of_nat (length (imports m)))) as k, opss.
      induction (defs m) as [|x l IH]; intros [|k] [|o os] E Hl; try discriminate.
      - injection E as ->. now exists o.
      - apply (IH k os E). now injection Hl. }
    destruct C as (o & ->). cbn [option_map type_index with_code]. now apply N.
Qed.

Lemma find_apply (es : list Export) (e : Export) : NoDup (map export_name es) -> In e es ->
  export_name e = "apply"%string -> find (fun e => String.eqb (export_name e) "apply") es = Some e.
Proof.
  intros N I E. induction es as [|x es IH]; [contradiction|]. cbn [find map] in *. inversion N as [|? ? Nx N']; subst.
  destruct (String.eqb_spec (export_name x) "apply") as [X|X].
  - destruct I as [->|I]; [reflexivity|]. destruct Nx. rewrite X, <- E. now apply in_map.
  - destruct I as [->|I]; [congruence|auto].
Qed.

Lemma shifted_names (n : Z) (es : list Export) : map export_name (map (shift_export_by n) es) = map export_name es.
Proof. rewrite map_map. apply map_ext. intros e. unfold shift_export_by. destruct (kind e); reflexivity. Qed.

Lemma final_end : well_formed (Instr end_code Void).
Proof. split; [split; (discriminate || reflexivity)|]. exists voidtype. split; [reflexivity|exact I]. Qed.

Lemma nested_accepted (h e : Z) (ops : list instr) (fd : FunctionDef) :
  nested h e ops -> Forall well_formed ops -> Forall offset_ok ops -> h + e < 1024 ->
  code fd = encode_all (ops ++ [Instr end_code Void]) -> exists d, validate_functions [fd] 0 = Value d.
Proof.
  intros N W O L E. pose proof (nested_nonneg _ _ _ N).
  assert (F : Forall well_formed (ops ++ [Instr end_code Void]))
    by (apply Forall_app; split; [exact W|constructor; [exact final_end|constructor]]).
  rewrite (validate_functions_fold [fd] [ops ++ [Instr end_code Void]])
    by (constructor; [split; [exact E|exact F]|constructor]).
  cbn [concat]. rewrite app_nil_r. eexists.
  destruct (fold_checks _ F 0 ltac:(lia)) as [[G _]|[_ C]]; [exact G|].
  destruct C. split; [apply Forall_app; split; [exact O|repeat constructor]|].
  enough (B : below 1023 0 (ops ++ [Instr end_code Void])) by (intros p q Q; specialize (B p q Q); lia).
  apply below_app; [eapply below_weaken; [|apply (nested_below _ _ _ N)]; lia|].
  rewrite (nested_depth _ _ _ N) by lia. apply below_cons; [lia|]. apply below_nil.
  change (count (0 + e) (Instr end_code Void)) with (if true && (0 <? 0 + e) then 0 + e - 1 else 0 + e + 1).
  destruct (Z.ltb_spec 0 (0 + e)); cbn [andb]; lia.
Qed.

Lemma conditionals_split (k : nat) : forall n, (k < n)%nat ->
  conditionals n = conditionals k ++ conditional ++ conditionals (n - S k).
Proof.
  induction k as [|k IH]; intros [|n] Hn; try lia.
  - cbn [conditionals app]. now replace (S n - 1)%nat with n by lia.
  - cbn [conditionals]. rewrite (IH n) by lia. rewrite <- !app_assoc. reflexivity.
Qed.

Lemma conditionals_rejected (n : nat) (fd : FunctionDef) : (1023 <= n)%nat ->
  code fd = encode_all (conditionals n ++ [Instr end_code Void]) ->
  validate_functions [fd] 0 = Throw wasm_runtime_exception.
Proof.
  intros Hn E.
  assert (W : Forall well_formed (conditionals n ++ [Instr end_code Void]))
    by (apply Forall_app; split; [apply conditionals_well_formed|constructor; [exact final_end|constructor]]).
  rewrite (validate_functions_fold [fd] [conditionals n ++ [Instr end_code Void]])
    by (constructor; [split; [exact E|exact W]|constructor]).
  cbn [concat]. rewrite app_nil_r.
  destruct (fold_checks _ W 0 ltac:(lia)) as [[_ (_ & S)]|[G _]]; [exfalso|exact G].
  specialize (S (conditionals 1022 ++ firstn 2 conditional)
                (skipn 2 conditional ++ conditionals (n - 1023) ++ [Instr end_code Void])).
  rewrite depth_app, (nested_depth _ _ _ (conditionals_nested 1022)) in S by lia.
  specialize (S ltac:(rewrite (conditionals_split 1022 n) by lia; rewrite <- !app_assoc; reflexivity)).
  vm_compute in S. discriminate.
Qed.

(** ** Properties *)

(** Validation accepts exactly the contracts that meet its limits, and throws
    wasm_runtime_exception otherwise: the first memory starts with at most 528
    pages; every data segment has a constant offset and ends in the first 64
    KiB; the first table starts with at most 1024 elements; the mutable globals
    have value types and take at most 1024 bytes; the locals and parameters of
    each function take at most 8192; a function of type (i64, i64, i64) is
    exported as apply; every load and store has an offset below 33 MiB; and the
    nesting counter stays below 1024 through the code of all the functions. *)
Theorem validate_correct (m : contract) (opss : list (list instr)) : parsed m opss ->
  (acceptable m opss -> validate m = Value tt) /\
  (~ acceptable m opss -> validate m = Throw wasm_runtime_exception).
Proof.
  intros P. destruct (validate_checks m opss P) as [[E H]|[E H]]; split; intros A; (exact E || contradiction).
Qed.

(** A validated contract cannot be entered.  Validation demands that apply be
    exported with three parameters, and wasm_instantiated_module::apply calls
    it with one argument, which call asserts to be the number of parameters: on
    the module that injection makes of any validated contract, every call of
    apply throws wasm_runtime_exception before the memory is touched. *)
Theorem apply_never_runs (m : contract) (opss : list (list instr)) :
  parsed m opss -> ready (module m) opss -> NoDup (map export_name (exports (module m))) ->
  Forall (fun e => 0 <= index e) (exports (module m)) -> validate m = Value tt ->
  exists m', inject (module m) = Value m' /\ forall action, apply m' action = Throw wasm_runtime_exception.
Proof.
  intros P R N I V. destruct (validate_checks m opss P) as [[_ A]|[E _]]; [|congruence].
  destruct A as (_ & _ & _ & _ & _ & (e & Ie & K & En & T) & _).
  destruct (inject_spec (module m) opss R) as (rest & m' & E & W & _). exists m'. split; [exact E|]. intros action.
  assert (Ix : 0 <= index e) by (rewrite Forall_forall in I; now apply I).
  pose proof (Forall2_length _ _ _ (ready_code _ _ R)) as Hl.
  unfold apply, check_entry. set (e' := shift_export_by (Injection.size (use_gas_import :: rest)) e).
  assert (Ke : kind e' = function /\ index e' = index e + Injection.size (use_gas_import :: rest)).
  { unfold e', shift_export_by. rewrite K. split; reflexivity. }
  assert (Ne : export_name e' = "apply"%string).
  { unfold e', shift_export_by. rewrite K. exact En. }
  destruct Ke as [K' X'].
  rewrite (find_apply _ e'); [|rewrite (rewritten_exports _ _ _ _ W), shifted_names; exact N|
                               rewrite (rewritten_exports _ _ _ _ W); now apply in_map|exact Ne].
  unfold is_function. rewrite K', X', (getType_moved _ _ _ _ _ _ W Hl Ix T). reflexivity.
Qed.

(** What the nesting counter measures.  On properly nested code the counter
    ends above its start by the number of [else]s, since each increments it and
    none is decremented for, and stays within the depth of the nesting plus
    that number; so a function is accepted when the sum of the two is below
    1024.  But the check is not one of nesting: 1023 conditionals with an else
    in a row, nowhere nested, are rejected, and 1022 accepted. *)
Theorem nesting_counter :
  (forall h e ops d, nested h e ops -> 0 <= d -> depth_after d ops = d + e /\ below (d + h + e) d ops) /\
  (forall h e ops fd, nested h e ops -> Forall well_formed ops -> Forall offset_ok ops -> h + e < 1024 ->
     code fd = encode_all (ops ++ [Instr end_code Void]) -> exists d, validate_functions [fd] 0 = Value d) /\
  (forall n, nested (match n with O => 0 | S _ => 1 end) (Z.of_nat n) (conditionals n)) /\
  (forall n fd, (1023 <= n)%nat -> code fd = encode_all (conditionals n ++ [Instr end_code Void]) ->
     validate_functions [fd] 0 = Throw wasm_runtime_exception).
Proof.
  split; [|split; [exact nested_accepted|split; [exact conditionals_nested|exact conditionals_rejected]]].
  intros h e ops d N Hd. split; [now apply nested_depth with h|now apply nested_below].
Qed.

(** ** Witnesses *)

(** A contract whose apply adds two floats and drops the sum. *)
Definition apply_ops : list instr :=
  [Instr f32_const_code (U32 0x3F800000); Instr f32_const_code (U32 0x40000000); Instr f32_add_code Void;
   Instr drop_code Void; Instr end_code Void].
Definition sample_contract : contract :=
  Contract
    (MkModule [apply_type] [Import 0 "env" "abort"] [Def 0 [vt_i32] (encode_all apply_ops)] [(1, 2)]
       [MkExport "memory" memory 0; MkExport "apply" function 1] [] UINTPTR_MAX)
    [1] [(true, vt_i64); (false, vt_f32)] [Segment 0 (i32_const 16) [1; 2; 3]].

Lemma apply_ops_well_formed : Forall well_formed apply_ops.
Proof. repeat constructor; try discriminate; eexists; (split; [reflexivity|]); repeat split; discriminate. Qed.

Lemma sample_parsed : parsed sample_contract [apply_ops].
Proof.
  constructor; try reflexivity.
  - constructor; [|constructor]. split; [reflexivity|exact apply_ops_well_formed].
  - repeat constructor; right; right; unfold value_type; simpl; tauto.
  - repeat constructor; unfold value_type; simpl; tauto.
  - repeat constructor.
Qed.

Lemma sample_contract_ready : ready (module sample_contract) [apply_ops].
Proof.
  constructor; [reflexivity|left; reflexivity|]. constructor; [|constructor]. split; [|split; [|split]].
  - split; [reflexivity|exact apply_ops_well_formed].
  - exists (firstn 4 apply_ops), (Instr end_code Void). split; reflexivity.
  - reflexivity.
  - repeat constructor; intros H; discriminate.
Qed.

(** Accepted as it is, and rejected with a segment that crosses 64 KiB. *)
Lemma validate_correct_witness :
  validate sample_contract = Value tt /\
  let far := Contract (module sample_contract) [1] [] [Segment 0 (i32_const 65535) [1; 2]] in
  validate far = Throw wasm_runtime_exception.
Proof.
  split; [vm_compute; reflexivity|]. intros far.
  refine (proj2 (validate_correct far [apply_ops] _) _).
  - destruct sample_parsed. constructor; try assumption; try reflexivity; repeat constructor.
  - intros (_ & F & _). inversion F as [|? ? (i & E & B) _]; subst. injection E as <-. vm_compute in B. now apply B.
Defined.

Lemma apply_never_runs_witness :
  exists m', inject (module sample_contract) = Value m' /\
    forall action, apply m' action = Throw wasm_runtime_exception.
Proof.
  apply (apply_never_runs sample_contract [apply_ops] sample_parsed sample_contract_ready).
  - repeat constructor; simpl; intuition discriminate.
  - repeat constructor; discriminate.
  - vm_compute. reflexivity.
Defined.

Lemma nesting_counter_witness :
  depth_after 7 conditional = 8 /\
  (exists d, validate_functions [Def 0 [] (encode_all (conditional ++ [Instr end_code Void]))] 0 = Value d).
Proof.
  destruct nesting_counter as (A & B & C & _). split.
  - exact (proj1 (A 1 1 conditional 7 (C 1%nat) ltac:(discriminate))).
  - apply (B 1 1 conditional _ (C 1%nat)); [exact (conditionals_well_formed 1)|repeat constructor|reflexivity|reflexivity].
Defined.
