(* ===== verification/Serialization.v ===== *)
(** The byte streams of Inline/Serialization.h.  A function template that is instantiated at an
    output and at an input stream is a codec: what it writes for a value, or nothing
    when it throws FatalSerializationException, and what it reads from the
    bytes that are left. *)
From Stdlib Require Import ZArith Bool Lia List.
From S2P Require Import Prelude Exceptions Opcodes Ops.
Import ListNotations.
Local Open Scope Z_scope.

Record codec (A : Type) : Type := Codec {
  write : A -> option (list Z);
  read : list Z -> option (A * list Z)
}.
Arguments Codec {A}.
Arguments write {A}.
Arguments read {A}.

(** ** Streams *)

(** [InputStream::advance]: the bytes, if that many are left. *)
Definition advance (numBytes : Z) (stream : list Z) : option (list Z * list Z) :=
  if Z.of_nat (length stream) <? numBytes then None
  else Some (firstn (Z.to_nat numBytes) stream, skipn (Z.to_nat numBytes) stream).

(** One after the other. *)
Definition append (a b : option (list Z)) : option (list Z) :=
  match a, b with Some a, Some b => Some (a ++ b) | _, _ => None end.
Definition sequence {A B} (c : codec A) (d : A -> codec B) : codec (A * B) :=
  Codec (fun '(a, b) => append (write c a) (write (d a) b))
        (fun l => match read c l with
                  | Some (a, l) => match read (d a) l with Some (b, l) => Some ((a, b), l) | None => None end
                  | None => None
                  end).
(** The fields of an object, as the tuple of their values. *)
Definition fields {A B} (make : A -> B) (tuple : B -> A) (c : codec A) : codec B :=
  Codec (fun b => write c (tuple b))
        (fun l => match read c l with Some (a, l) => Some (make a, l) | None => None end).
(** A check in both directions, and one when reading. *)
Definition throw_unless {A} (p : A -> bool) (c : codec A) : codec A :=
  Codec (fun a => if p a then write c a else None)
        (fun l => match read c l with Some (a, l) => if p a then Some (a, l) else None | None => None end).
Definition check_read {A} (p : A -> bool) (c : codec A) : codec A :=
  Codec (write c)
        (fun l => match read c l with Some (a, l) => if p a then Some (a, l) else None | None => None end).

(** ** Native values *)
Definition serializeNativeValue (size : nat) : codec Z :=
  Codec (fun v => Some (to_bytes size v))
        (fun l => match advance (Z.of_nat size) l with Some (bytes, l) => Some (of_bytes bytes, l) | None => None end).

Definition serializeConstant (size : nat) (constant : Z) : codec unit :=
  Codec (fun _ => Some (to_bytes size constant))
        (fun l => match read (serializeNativeValue size) l with
                  | Some (saved, l) => if saved =? constant then Some (tt, l) else None
                  | None => None
                  end).

(** ** LEB128 *)

(** The loop of the output: [more] for a value already shifted. *)
Definition more (is_signed : bool) (value outputByte : Z) : bool :=
  if is_signed
  then (negb (value =? 0) && negb (value =? -1)) || ((0 <=? value) && z2b (Z.land outputByte 0x40))
       || ((value <? 0) && negb (z2b (Z.land outputByte 0x40)))
  else negb (value =? 0).
Fixpoint leb_bytes (fuel : nat) (is_signed : bool) (value : Z) : list Z :=
  match fuel with
  | O => []
  | S fuel =>
      let outputByte := Z.land value 127 in
      let value := Z.shiftr value 7 in
      if more is_signed value outputByte then Z.lor outputByte 0x80 :: leb_bytes fuel is_signed value
      else [outputByte]
  end.

(** The input: up to [maxBytes] bytes, the last one without the continuation bit; what is read, and the rest. *)
Fixpoint read_bytes (maxBytes : nat) (stream : list Z) : option (list Z * list Z) :=
  match maxBytes with
  | O => Some ([], stream)
  | S maxBytes =>
      match stream with
      | [] => None
      | byte :: stream =>
          if negb (z2b (Z.land byte 0x80)) then Some ([byte], stream)
          else match read_bytes maxBytes stream with
               | Some (bytes, stream) => Some (byte :: bytes, stream)
               | None => None
               end
      end
  end.

Fixpoint join (bytes : list Z) (shift : Z) : Z :=
  match bytes with
  | [] => 0
  | byte :: bytes => Z.lor (Z.shiftl (Z.land byte 127) shift) (join bytes (shift + 7))
  end.

(** The unused bits of the last byte: zero, or copies of the sign. *)
Definition unused_bits_ok (is_signed : bool) (numUsedBitsInLastByte lastByte : Z) : bool :=
  let numUnusedBitsInLast := 8 - numUsedBitsInLastByte in
  let lastBitUsedMask := u8 (Z.shiftl 1 (numUsedBitsInLastByte - 1)) in
  let lastByteUsedMask := u8 (Z.shiftl 1 numUsedBitsInLastByte) - 1 in
  let lastByteSignedMask := Z.land (u8 (Z.lnot (u8 lastByteUsedMask))) (u8 (Z.lnot 0x80)) in
  let unused := Z.land lastByte (Z.lnot lastByteUsedMask) in
  if is_signed then
    let signBit := i8 (Z.shiftl (Z.land lastByte lastBitUsedMask) numUnusedBitsInLast) in
    let signExtendedLastBit := Z.shiftr signBit numUnusedBitsInLast in
    unused =? Z.land signExtendedLastBit lastByteSignedMask
  else unused =? 0.

(** [serializeVarInt<Value, maxBits>] for a [Value] of [bits] bits.  The buffer of the input
    has zeros after the bytes read; the unused bits of its last byte are checked. *)
Definition serializeVarInt (is_signed : bool) (bits maxBits : Z) (minValue maxValue : Z) : codec Z :=
  let maxBytes := Z.to_nat ((maxBits + 6) / 7) in
  let in_range value := negb ((value <? minValue) || (maxValue <? value)) in
  Codec
    (fun value => if in_range value then Some (leb_bytes maxBytes is_signed value) else None)
    (fun l =>
       match read_bytes maxBytes l with
       | None => None
       | Some (bytes, l) =>
           let numUsedBitsInLastByte := maxBits - (Z.of_nat maxBytes - 1) * 7 in
           let lastByte := nth (maxBytes - 1) bytes 0 in
           if negb (unused_bits_ok is_signed numUsedBitsInLastByte lastByte) then None
           else
             let value := join bytes 0 in
             let shift := bits - 7 * Z.of_nat (length bytes) in
             let value :=
               if is_signed then
                 if 0 <? shift then Z.shiftr (swrap bits (Z.shiftl value shift)) shift else swrap bits value
               else uwrap bits value in
             if in_range value then Some (value, l) else None
       end).

Definition serializeVarUInt1 := serializeVarInt false 64 1 0 1.
Definition serializeVarUInt7 := serializeVarInt false 8 7 0 127.
Definition serializeVarUInt32 := serializeVarInt false 64 32 0 (2 ^ 32 - 1).
Definition serializeVarInt7 := serializeVarInt true 8 7 (-64) 63.
Definition serializeVarInt32 := serializeVarInt true 32 32 (- 2 ^ 31) (2 ^ 31 - 1).
Definition serializeVarInt64 := serializeVarInt true 64 64 (- 2 ^ 63) (2 ^ 63 - 1).

(** ** Containers *)
Definition max_size : Z := 8192.

Fixpoint write_all {A} (c : codec A) (l : list A) : option (list Z) :=
  match l with
  | [] => Some []
  | a :: l => append (write c a) (write_all c l)
  end.
Fixpoint read_all {A} (c : codec A) (n : nat) (l : list Z) : option (list A * list Z) :=
  match n with
  | O => Some ([], l)
  | S n =>
      match read c l with
      | Some (a, l) => match read_all c n l with Some (as_, l) => Some (a :: as_, l) | None => None end
      | None => None
      end
  end.

(** [serializeArray], and of bytes [serialize(stream, std::vector<U8>&)] *)
Definition serializeArray {A} (c : codec A) : codec (list A) :=
  Codec (fun v => append (write serializeVarUInt32 (Z.of_nat (length v))) (write_all c v))
        (fun l =>
           match read serializeVarUInt32 l with
           | Some (size, l) => if max_size <=? size then None else read_all c (Z.to_nat size) l
           | None => None
           end).

(** [serialize(stream, std::string&)] *)
Definition serializeString : codec (list Z) :=
  Codec (fun string => append (write serializeVarUInt32 (Z.of_nat (length string))) (Some string))
        (fun l =>
           match read serializeVarUInt32 l with
           | Some (size, l) =>
               match advance size l with
               | Some (bytes, l) => if max_size <=? size then None else Some (bytes, l)
               | None => None
               end
           | None => None
           end).
