(* ===== verification/SerializationProofs.v ===== *)
(** What a codec writes it reads, and what it reads it writes again in no more bytes:
    the two properties for LEB128 and for the ways of combining codecs. *)
From Stdlib Require Import ZArith Bool Lia List.
From S2P Require Import Prelude Exceptions Opcodes Ops OpsProofs.
From S2P Require Import Serialization.
Import ListNotations.
Local Open Scope Z_scope.

Definition is_byte (b : Z) : Prop := 0 <= b < 256.

(** [bs] is what is written for [a], and [a] what is read from it. *)
Definition survives {A} (c : codec A) (a : A) (bs : list Z) : Prop :=
  write c a = Some bs /\ Forall is_byte bs /\ forall rest, read c (bs ++ rest) = Some (a, rest).

(** What is read survives, in no more bytes. *)
Definition canonical {A} (c : codec A) : Prop := forall l a rest, Forall is_byte l -> read c l = Some (a, rest) ->
  exists pre bs, l = pre ++ rest /\ survives c a bs /\ (length bs <= length pre)%nat.

(** ** LEB128 *)
Definition fits (is_signed : bool) (n : nat) (v : Z) : Prop :=
  if is_signed then - 2 ^ (7 * Z.of_nat n - 1) <= v < 2 ^ (7 * Z.of_nat n - 1) else 0 <= v < 2 ^ (7 * Z.of_nat n).

(** A property of the bytes from 0 to 127, by evaluation *)
Lemma byte_cases (P : Z -> bool) : forallb P (map Z.of_nat (seq 0 128)) = true -> forall b, 0 <= b < 128 -> P b = true.
Proof.
  intros H b Hb. rewrite forallb_forall in H. apply H. apply in_map_iff. exists (Z.to_nat b). split; [lia|].
  apply in_seq. lia.
Qed.

Lemma low_byte (v : Z) : Z.land v 127 = v mod 128.
Proof. exact (Z.land_ones v 7 ltac:(lia)). Qed.

Lemma shift_byte (v : Z) : Z.shiftr v 7 = v / 128.
Proof. exact (Z.shiftr_div_pow2 v 7 ltac:(lia)). Qed.

Lemma continue_bit (b : Z) : 0 <= b < 128 -> z2b (Z.land b 0x80) = false /\ z2b (Z.land (Z.lor b 0x80) 0x80) = true /\
  Z.land (Z.lor b 0x80) 127 = b /\ Z.land b 127 = b /\ is_byte (Z.lor b 0x80).
Proof.
  intros H. assert (A := byte_cases (fun b => negb (z2b (Z.land b 0x80)) && z2b (Z.land (Z.lor b 0x80) 0x80) &&
    (Z.land (Z.lor b 0x80) 127 =? b) && (Z.land b 127 =? b) && (0 <=? Z.lor b 0x80) && (Z.lor b 0x80 <? 256)) eq_refl b H).
  cbv beta in A. rewrite !andb_true_iff, negb_true_iff, !Z.eqb_eq, Z.leb_le, Z.ltb_lt in A. unfold is_byte. tauto.
Qed.

Lemma sign_bit (b : Z) : 0 <= b < 128 -> z2b (Z.land b 0x40) = (64 <=? b).
Proof.
  intros H. apply eqb_prop. exact (byte_cases (fun b => Bool.eqb (z2b (Z.land b 0x40)) (64 <=? b)) eq_refl b H).
Qed.

(** The loop goes on when the value needs more than a byte. *)
Lemma more_fits (s : bool) (v : Z) : (s = false -> 0 <= v) ->
  more s (Z.shiftr v 7) (Z.land v 127) = negb (if s then (-64 <=? v) && (v <? 64) else v <? 128).
Proof.
  intros P. unfold more. rewrite low_byte, shift_byte. assert (0 <= v mod 128 < 128) by (apply Z.mod_pos_bound; lia).
  destruct s; [|].
  - rewrite sign_bit by assumption.
    destruct (Z.eqb_spec (v / 128) 0), (Z.eqb_spec (v / 128) (-1)), (Z.leb_spec 0 (v / 128)), (Z.ltb_spec (v / 128) 0),
      (Z.leb_spec 64 (v mod 128)), (Z.leb_spec (-64) v), (Z.ltb_spec v 64); cbn [negb andb orb]; try reflexivity;
      exfalso; zdm.
  - specialize (P eq_refl). destruct (Z.eqb_spec (v / 128) 0), (Z.ltb_spec v 128); cbn [negb]; try reflexivity; exfalso; zdm.
Qed.

Lemma pow7 (n : nat) : 2 ^ (7 * Z.of_nat (S n)) = 128 * 2 ^ (7 * Z.of_nat n).
Proof. replace (7 * Z.of_nat (S n)) with (7 + 7 * Z.of_nat n) by lia. rewrite Z.pow_add_r by lia. reflexivity. Qed.
Lemma pow7' (n : nat) : (1 <= n)%nat -> 2 ^ (7 * Z.of_nat (S n) - 1) = 128 * 2 ^ (7 * Z.of_nat n - 1).
Proof. intros H. replace (7 * Z.of_nat (S n) - 1) with (7 + (7 * Z.of_nat n - 1)) by lia. rewrite Z.pow_add_r by lia. reflexivity. Qed.

(** What remains after a byte fits in the bytes that remain. *)
Lemma fits_shift (s : bool) (n : nat) (v : Z) : (1 <= n)%nat -> fits s (S n) v <-> fits s n (v / 128).
Proof.
  intros H. unfold fits. destruct s; [rewrite pow7' by exact H|rewrite pow7]; set (p := 2 ^ _); clearbody p; split; intros B; zdm.
Qed.
Lemma fits_one (s : bool) (v : Z) : fits s 1 v <-> (if s then (-64 <=? v) && (v <? 64) else (0 <=? v) && (v <? 128)) = true.
Proof. unfold fits. destruct s; rewrite andb_true_iff, ?Z.leb_le, ?Z.ltb_lt; change (7 * Z.of_nat 1) with 7; cbn; lia. Qed.

(** The bytes of a value in range: at most [n], in its low 7 bits, and read as one group. *)
Lemma leb_spec (s : bool) (n : nat) : forall v, (1 <= n)%nat -> fits s n v ->
  let bs := leb_bytes n s v in
  (1 <= length bs <= n)%nat /\ Forall is_byte bs /\ fits s (length bs) v /\
  (forall m rest, (length bs <= m)%nat -> read_bytes m (bs ++ rest) = Some (bs, rest)) /\
  (forall sh, 0 <= sh -> join bs sh = (v mod 2 ^ (7 * Z.of_nat (length bs))) * 2 ^ sh) /\
  nth (length bs - 1) bs 0 = (v / 2 ^ (7 * (Z.of_nat (length bs) - 1))) mod 128 /\
  forall k, (1 <= k)%nat -> fits s k v -> (length bs <= k)%nat.
Proof.
  induction n as [|n IH]; intros v Hn F; [lia|]. cbn [leb_bytes].
  rewrite more_fits by (intros ->; apply F). rewrite low_byte, shift_byte.
  assert (Hb : 0 <= v mod 128 < 128) by (apply Z.mod_pos_bound; lia).
  destruct (continue_bit (v mod 128) Hb) as (C1 & C2 & C3 & C4 & C5).
  destruct (if s then (-64 <=? v) && (v <? 64) else v <? 128) eqn:M; cbn [negb].
  - assert (F1 : fits s 1 v) by (apply fits_one; destruct s; [exact M|]; rewrite M, andb_true_r; apply Z.leb_le, F).
    cbv zeta. cbn [length]. split; [lia|]. split; [constructor; [unfold is_byte; lia|constructor]|]. split; [exact F1|].
    split; [|split; [|split; [|lia]]].
    + intros [|m] rest Hm; [lia|]. cbn [read_bytes app]. now rewrite C1.
    + intros sh Hsh. cbn [join]. rewrite C4, Z.lor_0_r, Z.shiftl_mul_pow2 by lia. reflexivity.
    + change (7 * (Z.of_nat 1 - 1)) with 0. rewrite Z.pow_0_r, Z.div_1_r. reflexivity.
  - destruct n as [|n].
    { apply fits_one in F. destruct s; [congruence|]. rewrite M, andb_false_r in F. discriminate F. }
    specialize (IH (v / 128) ltac:(lia) (proj1 (fits_shift s (S n) v ltac:(lia)) F)). cbv zeta in *.
    set (bs := leb_bytes (S n) s (v / 128)) in *. destruct IH as (L & B & Fb & R & J & N & Min).
    cbn [length]. split; [lia|]. split; [constructor; assumption|]. split; [apply fits_shift; [lia|exact Fb]|].
    split; [|split; [|split]].
    + intros [|m] rest Hm; [lia|]. cbn [read_bytes app]. rewrite C2. cbn [negb]. rewrite R by lia. reflexivity.
    + intros sh Hsh. cbn [join]. rewrite C3, J by lia. rewrite Z.shiftl_mul_pow2 by lia. rewrite pow7.
      rewrite (Z.pow_add_r 2 sh 7), Z.mul_assoc, Z.lor_comm by lia.
      set (q := (v / 128) mod 2 ^ (7 * Z.of_nat (length bs))).
      replace (q * 2 ^ sh * 2 ^ 7) with (q * 2 ^ (sh + 7)) by (rewrite Z.pow_add_r by lia; ring).
      rewrite lor_disjoint; [|lia|rewrite Z.pow_add_r by lia; change (2 ^ 7) with 128; nia].
      rewrite Z.pow_add_r by lia. change (2 ^ 7) with 128. unfold q.
      rewrite Z.rem_mul_r by (try lia; apply Z.pow_pos_nonneg; lia). ring.
    + cbn [length]. replace (S (length bs) - 1)%nat with (S (length bs - 1)) by lia. cbn [nth]. rewrite N.
      rewrite Z.div_div by (try lia; apply Z.pow_pos_nonneg; lia). do 2 f_equal.
      replace (7 * (Z.of_nat (S (length bs)) - 1)) with (7 + 7 * (Z.of_nat (length bs) - 1)) by lia.
      rewrite Z.pow_add_r by lia. reflexivity.
    + intros [|[|k]] Hk Fk; [lia| |].
      * apply fits_one in Fk. destruct s; [congruence|]. rewrite M, andb_false_r in Fk. discriminate Fk.
      * specialize (Min (S k) ltac:(lia) (proj1 (fits_shift s (S k) v ltac:(lia)) Fk)). lia.
Qed.

(** The unused bits of a last byte that holds the top of a value in range *)
Lemma last_byte_ok (s : bool) (used t : Z) : 1 <= used <= 7 ->
  (if s then - 2 ^ (used - 1) <= t < 2 ^ (used - 1) else 0 <= t < 2 ^ used) -> unused_bits_ok s used (t mod 128) = true.
Proof.
  intros Hu Ht.
  assert (A : forallb (fun u => forallb (fun t =>
      (negb ((- 2 ^ (u - 1) <=? t) && (t <? 2 ^ (u - 1))) || unused_bits_ok true u (t mod 128)) &&
      (negb ((0 <=? t) && (t <? 2 ^ u)) || unused_bits_ok false u (t mod 128)))
      (map (fun k => Z.of_nat k - 64) (seq 0 192))) (map Z.of_nat (seq 1 7)) = true) by (vm_compute; reflexivity).
  rewrite forallb_forall in A. specialize (A used). rewrite in_map_iff in A.
  assert (I : exists k, Z.of_nat k = used /\ In k (seq 1 7)) by (exists (Z.to_nat used); split; [lia|apply in_seq; lia]).
  specialize (A I). clear I.
  rewrite forallb_forall in A. specialize (A t). rewrite in_map_iff in A.
  assert (Hp : 2 ^ (used - 1) <= 64 /\ 2 ^ used <= 128).
  { split; [change 64 with (2 ^ 6)|change 128 with (2 ^ 7)]; apply Z.pow_le_mono_r; lia. }
  assert (B : -64 <= t < 128) by (destruct s; lia).
  assert (I : exists k, Z.of_nat k - 64 = t /\ In k (seq 0 192)) by (exists (Z.to_nat (t + 64)); split; [lia|apply in_seq; lia]).
  specialize (A I). clear I.
  rewrite andb_true_iff, !orb_true_iff, !negb_true_iff, !andb_false_iff, !Z.leb_gt, !Z.ltb_ge in A.
  destruct s; [destruct A as [[A|A] _]|destruct A as [_ [A|A]]]; try exact A; lia.
Qed.

(** Parameters of [serializeVarInt] *)
Definition var_params (s : bool) (bits maxBits minValue maxValue : Z) : Prop :=
  1 <= maxBits <= bits /\
  (if s then - 2 ^ (maxBits - 1) <= minValue /\ maxValue < 2 ^ (maxBits - 1) else 0 <= minValue /\ maxValue < 2 ^ maxBits).

Lemma max_bytes (maxBits : Z) : 1 <= maxBits -> let n := Z.to_nat ((maxBits + 6) / 7) in
  (1 <= n)%nat /\ 7 * (Z.of_nat n - 1) < maxBits <= 7 * Z.of_nat n.
Proof. intros H n. subst n. rewrite Z2Nat.id by zdm. split; [|zdm]. assert (1 <= (maxBits + 6) / 7) by zdm. lia. Qed.

Lemma range_fits (s : bool) (bits maxBits lo hi v : Z) (n : nat) : var_params s bits maxBits lo hi ->
  maxBits <= 7 * Z.of_nat n -> lo <= v <= hi -> fits s n v.
Proof.
  intros [Hb P] Hn Hv. unfold fits. destruct s.
  - assert (2 ^ (maxBits - 1) <= 2 ^ (7 * Z.of_nat n - 1)) by (apply Z.pow_le_mono_r; lia). lia.
  - assert (2 ^ maxBits <= 2 ^ (7 * Z.of_nat n)) by (apply Z.pow_le_mono_r; lia). lia.
Qed.

Lemma swrap_mod_idem (w x : Z) : 0 < w -> swrap w (x mod 2 ^ w) = swrap w x.
Proof. intros H. unfold swrap. now rewrite Zplus_mod_idemp_l. Qed.

Lemma mod_pow_le (x a b : Z) : 0 <= b <= a -> (x mod 2 ^ a) mod 2 ^ b = x mod 2 ^ b.
Proof.
  intros H. apply Z.mod_mod_divide. exists (2 ^ (a - b)). rewrite <- Z.pow_add_r by lia. f_equal. lia.
Qed.

(** The value is put together again from its groups. *)
Lemma value_joined (s : bool) (bits v k : Z) : 1 <= bits -> 1 <= k ->
  (if s then - 2 ^ (7 * k - 1) <= v < 2 ^ (7 * k - 1) /\ - 2 ^ (bits - 1) <= v < 2 ^ (bits - 1)
   else 0 <= v < 2 ^ (7 * k) /\ v < 2 ^ bits) ->
  (if s then if 0 <? bits - 7 * k
             then Z.shiftr (swrap bits (Z.shiftl (v mod 2 ^ (7 * k)) (bits - 7 * k))) (bits - 7 * k)
             else swrap bits (v mod 2 ^ (7 * k))
   else uwrap bits (v mod 2 ^ (7 * k))) = v.
Proof.
  intros Hb Hk H. destruct s; [|unfold uwrap; rewrite !Z.mod_small by (try lia; rewrite Z.mod_small; lia); reflexivity].
  destruct H as [H1 H2]. destruct (Z.ltb_spec 0 (bits - 7 * k)) as [L|L].
  - rewrite Z.shiftl_mul_pow2, Z.shiftr_div_pow2 by lia.
    rewrite <- Z.mul_mod_distr_r by (apply Z.pow_nonzero; lia). rewrite <- Z.pow_add_r by lia.
    replace (7 * k + (bits - 7 * k)) with bits by lia. rewrite swrap_mod_idem by lia. rewrite swrap_small; [|lia|].
    + apply Z.div_mul, Z.pow_nonzero; lia.
    + replace (bits - 1) with ((7 * k - 1) + (bits - 7 * k)) by lia. rewrite Z.pow_add_r by lia.
      assert (0 < 2 ^ (bits - 7 * k)) by (apply Z.pow_pos_nonneg; lia). nia.
  - rewrite <- swrap_mod_idem, mod_pow_le, swrap_mod_idem by lia. apply swrap_small; lia.
Qed.

Lemma varint_survives (s : bool) (bits maxBits lo hi v : Z) : var_params s bits maxBits lo hi -> lo <= v <= hi ->
  survives (serializeVarInt s bits maxBits lo hi) v (leb_bytes (Z.to_nat ((maxBits + 6) / 7)) s v).
Proof.
  intros P Hv. pose proof P as [Hm Hr]. destruct (max_bytes maxBits ltac:(lia)) as [Hn1 Hn2]. cbv zeta in Hn1, Hn2.
  unfold survives, serializeVarInt. cbn [write read]. set (n := Z.to_nat ((maxBits + 6) / 7)) in *. clearbody n.
  assert (F : fits s n v) by (eapply range_fits; eauto; lia).
  destruct (leb_spec s n v Hn1 F) as (L & B & Fk & R & J & N & _). cbv zeta in *. set (bs := leb_bytes n s v) in *. clearbody bs.
  assert (In : negb ((v <? lo) || (hi <? v)) = true).
  { destruct (Z.ltb_spec v lo), (Z.ltb_spec hi v); cbn; try reflexivity; lia. }
  rewrite In. split; [reflexivity|]. split; [exact B|]. intros rest. rewrite R by lia.
  assert (U : unused_bits_ok s (maxBits - (Z.of_nat n - 1) * 7) (nth (n - 1) bs 0) = true).
  { destruct (Nat.eq_dec (length bs) n) as [E|E].
    - rewrite <- E at 2. rewrite N, E. apply last_byte_ok; [lia|]. unfold fits in F. set (e := 7 * (Z.of_nat n - 1)).
      replace (maxBits - (Z.of_nat n - 1) * 7) with (maxBits - e) by lia.
      assert (0 < 2 ^ e) by (apply Z.pow_pos_nonneg; lia). destruct s.
      + assert (Q : 2 ^ (maxBits - 1) = 2 ^ (maxBits - e - 1) * 2 ^ e) by (rewrite <- Z.pow_add_r by lia; f_equal; lia).
        assert (- 2 ^ (maxBits - 1) <= v < 2 ^ (maxBits - 1)) as V by lia. rewrite Q in V.
        split; [apply Z.div_le_lower_bound; lia|apply Z.div_lt_upper_bound; lia].
      + assert (Q : 2 ^ maxBits = 2 ^ (maxBits - e) * 2 ^ e) by (rewrite <- Z.pow_add_r by lia; f_equal; lia).
        assert (0 <= v < 2 ^ maxBits) as V by lia. rewrite Q in V.
        split; [apply Z.div_le_lower_bound; lia|apply Z.div_lt_upper_bound; lia].
    - rewrite nth_overflow by lia. change 0 with (0 mod 128). apply last_byte_ok; [lia|].
      assert (0 < 2 ^ (maxBits - (Z.of_nat n - 1) * 7)) by (apply Z.pow_pos_nonneg; lia).
      assert (0 < 2 ^ (maxBits - (Z.of_nat n - 1) * 7 - 1)) by (apply Z.pow_pos_nonneg; lia). destruct s; lia. }
  rewrite U. cbn [negb]. rewrite J by lia. rewrite Z.pow_0_r, Z.mul_1_r. cbv zeta.
  rewrite (value_joined s bits v (Z.of_nat (length bs))); [now rewrite In|lia|lia|].
  unfold fits in Fk. destruct s.
  - split; [exact Fk|]. assert (2 ^ (maxBits - 1) <= 2 ^ (bits - 1)) by (apply Z.pow_le_mono_r; lia). lia.
  - split; [exact Fk|]. assert (2 ^ maxBits <= 2 ^ bits) by (apply Z.pow_le_mono_r; lia). lia.
Qed.

Lemma read_bytes_spec (n : nat) : forall l bytes rest, (1 <= n)%nat -> read_bytes n l = Some (bytes, rest) ->
  l = bytes ++ rest /\ (1 <= length bytes)%nat.
Proof.
  induction n as [|n IH]; intros l bytes rest Hn H; [lia|]. cbn [read_bytes] in H. destruct l as [|b l]; [discriminate|].
  destruct (negb _); [injection H as <- <-; split; [reflexivity|cbn; lia]|].
  destruct n as [|n]; [injection H as <- <-; split; [reflexivity|cbn; lia]|].
  destruct (read_bytes (S n) l) as [[bs r]|] eqn:E; [|discriminate]. injection H as <- <-.
  destruct (IH l bs r ltac:(lia) E) as [-> _]. split; [reflexivity|cbn; lia].
Qed.

Lemma join_bounds (bytes : list Z) : forall sh, 0 <= sh ->
  exists j, join bytes sh = j * 2 ^ sh /\ 0 <= j < 2 ^ (7 * Z.of_nat (length bytes)).
Proof.
  induction bytes as [|b bytes IH]; intros sh Hsh; [exists 0; split; [reflexivity|cbn; lia]|].
  destruct (IH (sh + 7) ltac:(lia)) as (j & E & B). cbn [join]. rewrite E, low_byte, Z.shiftl_mul_pow2 by lia.
  assert (Hb : 0 <= b mod 128 < 128) by (apply Z.mod_pos_bound; lia). cbn [length].
  exists (j * 128 + b mod 128). rewrite pow7. split; [|lia].
  assert (0 < 2 ^ sh) by (apply Z.pow_pos_nonneg; lia).
  rewrite Z.lor_comm, lor_disjoint; rewrite ?Z.pow_add_r by lia; change (2 ^ 7) with 128; try lia; try nia.
Qed.

Lemma varint_range (s : bool) (bits maxBits lo hi : Z) (l rest : list Z) (v : Z) :
  read (serializeVarInt s bits maxBits lo hi) l = Some (v, rest) -> lo <= v <= hi.
Proof.
  unfold serializeVarInt. cbn [read]. destruct (read_bytes _ l) as [[bytes r]|]; [|discriminate].
  destruct (negb (unused_bits_ok _ _ _)); [discriminate|]. cbv zeta. set (w := if s then _ else _).
  destruct (negb ((w <? lo) || (hi <? w))) eqn:In; [|discriminate]. intros [= <- <-].
  rewrite negb_true_iff, orb_false_iff, !Z.ltb_ge in In. lia.
Qed.

Lemma varint_canonical (s : bool) (bits maxBits lo hi : Z) : var_params s bits maxBits lo hi ->
  canonical (serializeVarInt s bits maxBits lo hi).
Proof.
  intros P l v rest _ H. pose proof P as [Hm Hr]. destruct (max_bytes maxBits ltac:(lia)) as [Hn1 Hn2]. cbv zeta in Hn1, Hn2.
  unfold serializeVarInt in H. cbn [read] in H.
  destruct (read_bytes _ l) as [[bytes r]|] eqn:E; [|discriminate].
  destruct (read_bytes_spec _ _ _ _ Hn1 E) as [-> Lb].
  destruct (negb (unused_bits_ok _ _ _)); [discriminate|]. cbv zeta in H.
  set (k := Z.of_nat (length bytes)) in *. set (w := if s then _ else _) in *.
  destruct (negb ((w <? lo) || (hi <? w))) eqn:In; [|discriminate]. injection H as <- <-.
  rewrite negb_true_iff, orb_false_iff, !Z.ltb_ge in In.
  exists bytes, (leb_bytes (Z.to_nat ((maxBits + 6) / 7)) s w). split; [reflexivity|].
  split; [apply varint_survives; [exact P|lia]|].
  apply (leb_spec s _ w Hn1); [eapply range_fits; eauto; lia|exact Lb|].
  destruct (join_bounds bytes 0 ltac:(lia)) as (j & Ej & Bj). rewrite Z.pow_0_r, Z.mul_1_r in Ej. fold k in Bj.
  unfold fits. fold k. subst w. rewrite Ej in *. destruct s.
  - destruct (Z.ltb_spec 0 (bits - 7 * k)) as [L|L].
    + rewrite Z.shiftr_div_pow2 by lia. set (x := swrap bits _).
      assert (Hx : - 2 ^ (bits - 1) <= x < 2 ^ (bits - 1)).
      { unfold x, swrap. set (z := Z.shiftl j _). clearbody z. assert (Q : 2 ^ bits = 2 * 2 ^ (bits - 1))
          by (rewrite <- Z.pow_succ_r by lia; f_equal; lia).
        pose proof (Z.mod_pos_bound (z + 2 ^ (bits - 1)) (2 ^ bits) ltac:(apply Z.pow_pos_nonneg; lia)). lia. }
      assert (Q : 2 ^ (bits - 1) = 2 ^ (7 * k - 1) * 2 ^ (bits - 7 * k)) by (rewrite <- Z.pow_add_r by lia; f_equal; lia).
      rewrite Q in Hx. assert (0 < 2 ^ (bits - 7 * k)) by (apply Z.pow_pos_nonneg; lia).
      split; [apply Z.div_le_lower_bound; lia|apply Z.div_lt_upper_bound; lia].
    + assert (2 ^ (maxBits - 1) <= 2 ^ (7 * k - 1)) by (apply Z.pow_le_mono_r; lia). lia.
  - unfold uwrap. assert (0 < 2 ^ bits) by (apply Z.pow_pos_nonneg; lia).
    pose proof (Z.mod_pos_bound j (2 ^ bits)). pose proof (Z.mod_le j (2 ^ bits)). lia.
Qed.

(** ** Combinations *)
Lemma forall_app_byte (a b : list Z) : Forall is_byte a -> Forall is_byte b -> Forall is_byte (a ++ b).
Proof. intros. apply Forall_app. auto. Qed.

Lemma rest_bytes (pre rest : list Z) : Forall is_byte (pre ++ rest) -> Forall is_byte rest.
Proof. intros H. now apply Forall_app in H. Qed.

Lemma survives_sequence {A B} (c : codec A) (d : A -> codec B) (a : A) (b : B) (xs ys : list Z) :
  survives c a xs -> survives (d a) b ys -> survives (sequence c d) (a, b) (xs ++ ys).
Proof.
  intros (W1 & B1 & R1) (W2 & B2 & R2). split; [cbn; rewrite W1; cbn; now rewrite W2|].
  split; [now apply forall_app_byte|]. intros rest. cbn. now rewrite <- app_assoc, R1, R2.
Qed.

Lemma canonical_sequence {A B} (c : codec A) (d : A -> codec B) :
  canonical c -> (forall a, write c a <> None -> canonical (d a)) -> canonical (sequence c d).
Proof.
  intros Hc Hd l [a b] rest Hl H. cbn in H. destruct (read c l) as [[a' l1]|] eqn:E1; [|discriminate].
  destruct (read (d a') l1) as [[b' l2]|] eqn:E2; [|discriminate]. injection H as <- <- <-.
  destruct (Hc l a' l1 Hl E1) as (p1 & b1 & -> & S1 & L1). pose proof (rest_bytes _ _ Hl) as Hl1.
  destruct (Hd a' ltac:(destruct S1; congruence) l1 b' l2 Hl1 E2) as (p2 & b2 & -> & S2 & L2).
  exists (p1 ++ p2), (b1 ++ b2). split; [apply app_assoc|]. split; [now apply survives_sequence|].
  rewrite !length_app. lia.
Qed.

Lemma survives_fields {A B} (make : A -> B) (tuple : B -> A) (c : codec A) (b : B) (bs : list Z) :
  make (tuple b) = b -> survives c (tuple b) bs -> survives (fields make tuple c) b bs.
Proof. intros E (W & B' & R). split; [exact W|]. split; [exact B'|]. intros rest. cbn. rewrite R. now rewrite E. Qed.

Lemma canonical_fields_read {A B} (make : A -> B) (tuple : B -> A) (c : codec A) :
  (forall l a rest, Forall is_byte l -> read c l = Some (a, rest) -> tuple (make a) = a) -> canonical c ->
  canonical (fields make tuple c).
Proof.
  intros E Hc l b rest Hl H. cbn in H. destruct (read c l) as [[a l1]|] eqn:E1; [|discriminate]. injection H as <- <-.
  pose proof (E l a l1 Hl E1) as Ea.
  destruct (Hc l a l1 Hl E1) as (p & bs & -> & S & L). exists p, bs. split; [reflexivity|]. split; [|exact L].
  apply survives_fields; rewrite Ea; [reflexivity|exact S].
Qed.

Lemma canonical_fields {A B} (make : A -> B) (tuple : B -> A) (c : codec A) :
  (forall a, write c a <> None -> tuple (make a) = a) -> canonical c -> canonical (fields make tuple c).
Proof.
  intros E Hc. apply canonical_fields_read; [|exact Hc]. intros l a rest Hl H. apply E.
  destruct (Hc l a rest Hl H) as (_ & bs & _ & (W & _) & _). congruence.
Qed.

Lemma survives_throw_unless {A} (p : A -> bool) (c : codec A) (a : A) (bs : list Z) :
  p a = true -> survives c a bs -> survives (throw_unless p c) a bs.
Proof.
  intros E (W & B & R). split; [cbn; now rewrite E|]. split; [exact B|]. intros rest. cbn. now rewrite R, E.
Qed.

Lemma canonical_throw_unless {A} (p : A -> bool) (c : codec A) : canonical c -> canonical (throw_unless p c).
Proof.
  intros Hc l a rest Hl H. cbn in H. destruct (read c l) as [[a' l1]|] eqn:E1; [|discriminate].
  destruct (p a') eqn:P; [|discriminate]. injection H as <- <-.
  destruct (Hc l a' l1 Hl E1) as (q & bs & -> & S & L). exists q, bs. split; [reflexivity|]. split; [|exact L].
  now apply survives_throw_unless.
Qed.

Lemma survives_check_read {A} (p : A -> bool) (c : codec A) (a : A) (bs : list Z) :
  p a = true -> survives c a bs -> survives (check_read p c) a bs.
Proof. intros E (W & B & R). split; [exact W|]. split; [exact B|]. intros rest. cbn. now rewrite R, E. Qed.

Lemma canonical_check_read {A} (p : A -> bool) (c : codec A) : canonical c -> canonical (check_read p c).
Proof.
  intros Hc l a rest Hl H. cbn in H. destruct (read c l) as [[a' l1]|] eqn:E1; [|discriminate].
  destruct (p a') eqn:P; [|discriminate]. injection H as <- <-.
  destruct (Hc l a' l1 Hl E1) as (q & bs & -> & S & L). exists q, bs. split; [reflexivity|]. split; [|exact L].
  now apply survives_check_read.
Qed.

(** ** Native values *)
Lemma to_bytes_byte (n : nat) : forall v, Forall is_byte (to_bytes n v).
Proof.
  induction n as [|n IH]; intros v; cbn [to_bytes]; constructor; [|apply IH].
  unfold is_byte. change 256 with (2 ^ 8). apply uwrap_bound. lia.
Qed.

Lemma of_bytes_bounds (l : list Z) : Forall is_byte l -> 0 <= of_bytes l < 2 ^ (8 * Z.of_nat (length l)).
Proof.
  induction 1 as [|b l Hb _ IH]; [cbn; lia|]. cbn [of_bytes length].
  replace (8 * Z.of_nat (S (length l))) with (8 + 8 * Z.of_nat (length l)) by lia. rewrite Z.pow_add_r by lia.
  change (2 ^ 8) with 256. unfold is_byte in Hb. lia.
Qed.

Lemma advance_app (bs rest : list Z) (n : Z) : n = Z.of_nat (length bs) -> advance n (bs ++ rest) = Some (bs, rest).
Proof.
  intros ->. unfold advance. rewrite length_app. destruct (Z.ltb_spec (Z.of_nat (length bs + length rest)) (Z.of_nat (length bs))); [lia|].
  rewrite Nat2Z.id. now rewrite firstn_exact, skipn_exact.
Qed.

Lemma advance_spec (n : Z) (l bs rest : list Z) : 0 <= n -> advance n l = Some (bs, rest) ->
  l = bs ++ rest /\ Z.of_nat (length bs) = n.
Proof.
  unfold advance. intros Hn. destruct (Z.ltb_spec (Z.of_nat (length l)) n) as [L|L]; [discriminate|]. intros [= <- <-].
  split; [symmetry; apply firstn_skipn|]. rewrite length_firstn. lia.
Qed.

Lemma native_survives (n : nat) (v : Z) : 0 <= v < 2 ^ (8 * Z.of_nat n) ->
  survives (serializeNativeValue n) v (to_bytes n v).
Proof.
  intros H. split; [reflexivity|]. split; [apply to_bytes_byte|]. intros rest. cbn [read serializeNativeValue].
  rewrite advance_app by (now rewrite to_bytes_length). now rewrite of_to_bytes.
Qed.

Lemma native_canonical (n : nat) : canonical (serializeNativeValue n).
Proof.
  intros l v rest Hl H. cbn [read serializeNativeValue] in H. destruct (advance _ l) as [[bs r]|] eqn:E; [|discriminate].
  injection H as <- <-. destruct (advance_spec _ _ _ _ (Nat2Z.is_nonneg n) E) as [-> L]. apply Forall_app in Hl as [Hb _].
  exists bs, (to_bytes n (of_bytes bs)). split; [reflexivity|]. pose proof (of_bytes_bounds bs Hb) as B.
  split; [apply native_survives; now rewrite <- L|]. rewrite to_bytes_length. lia.
Qed.

Lemma constant_survives (n : nat) (k : Z) : 0 <= k < 2 ^ (8 * Z.of_nat n) -> survives (serializeConstant n k) tt (to_bytes n k).
Proof.
  intros H. destruct (native_survives n k H) as (_ & B & R). split; [reflexivity|]. split; [exact B|]. intros rest.
  unfold serializeConstant. cbn [read]. rewrite R, Z.eqb_refl. reflexivity.
Qed.

Lemma constant_canonical (n : nat) (k : Z) : 0 <= k < 2 ^ (8 * Z.of_nat n) -> canonical (serializeConstant n k).
Proof.
  intros Hk l [] rest Hl H. unfold serializeConstant in H. cbn [read] in H.
  destruct (read (serializeNativeValue n) l) as [[v r]|] eqn:E; [|discriminate].
  destruct (Z.eqb_spec v k) as [->|]; [|discriminate]. injection H as <-.
  destruct (native_canonical n l k r Hl E) as (pre & bs & -> & (W & _) & L). injection W as <-.
  exists pre, (to_bytes n k). split; [reflexivity|]. split; [now apply constant_survives|exact L].
Qed.

(** ** Containers *)
Lemma var32_survives (v : Z) : 0 <= v < 2 ^ 32 -> exists bs, survives serializeVarUInt32 v bs /\ (length bs <= 5)%nat.
Proof.
  intros H. exists (leb_bytes 5 false v). split; [apply (varint_survives false 64 32); [split; lia|lia]|].
  destruct (leb_spec false 5 v ltac:(lia)) as (L & _); [cbn; lia|exact (proj2 L)].
Qed.

Lemma var32_canonical : canonical serializeVarUInt32.
Proof. apply varint_canonical. split; lia. Qed.

Lemma var32_range (l : list Z) (v : Z) (rest : list Z) : Forall is_byte l -> read serializeVarUInt32 l = Some (v, rest) ->
  0 <= v < 2 ^ 32.
Proof.
  intros Hl H. destruct (var32_canonical l v rest Hl H) as (_ & bs & _ & (W & _) & _). unfold serializeVarUInt32, serializeVarInt in W.
  cbn [write] in W. destruct (negb _) eqn:E; [|discriminate]. rewrite negb_true_iff, orb_false_iff, !Z.ltb_ge in E. lia.
Qed.

(** The elements one after the other *)
Inductive survive_all {A} (c : codec A) : list A -> list Z -> Prop :=
  | all_nil : survive_all c [] []
  | all_cons (a : A) (l : list A) (xs ys : list Z) : survives c a xs -> survive_all c l ys -> survive_all c (a :: l) (xs ++ ys).

Lemma survive_all_spec {A} (c : codec A) (l : list A) (bs : list Z) : survive_all c l bs ->
  write_all c l = Some bs /\ Forall is_byte bs /\ forall rest, read_all c (length l) (bs ++ rest) = Some (l, rest).
Proof.
  induction 1 as [|a l xs ys (W & B & R) _ (IW & IB & IR)]; [repeat split; constructor|].
  cbn [write_all]. rewrite W, IW. split; [reflexivity|]. split; [now apply forall_app_byte|]. intros rest.
  cbn [read_all length]. now rewrite <- app_assoc, R, IR.
Qed.

Lemma read_all_canonical {A} (c : codec A) : canonical c -> forall n l as_ rest, Forall is_byte l ->
  read_all c n l = Some (as_, rest) ->
  exists pre bs, l = pre ++ rest /\ survive_all c as_ bs /\ (length bs <= length pre)%nat /\ length as_ = n.
Proof.
  intros Hc. induction n as [|n IH]; intros l as_ rest Hl H; cbn [read_all] in H.
  - injection H as <- <-. exists [], []. split; [reflexivity|]. split; [constructor|]. split; reflexivity.
  - destruct (read c l) as [[a l1]|] eqn:E; [|discriminate].
    destruct (read_all c n l1) as [[as1 l2]|] eqn:E2; [|discriminate]. injection H as <- <-.
    destruct (Hc l a l1 Hl E) as (p1 & b1 & -> & S & L). pose proof (rest_bytes _ _ Hl) as Hl1.
    destruct (IH l1 as1 l2 Hl1 E2) as (p2 & b2 & -> & S2 & L2 & N). exists (p1 ++ p2), (b1 ++ b2).
    split; [apply app_assoc|]. split; [now constructor|]. rewrite !length_app. cbn [length]. split; lia.
Qed.

Lemma array_survives {A} (c : codec A) (l : list A) (bs : list Z) : survive_all c l bs -> Z.of_nat (length l) < max_size ->
  exists n, survives (serializeArray c) l (n ++ bs) /\ survives serializeVarUInt32 (Z.of_nat (length l)) n.
Proof.
  intros S L. unfold max_size in L. destruct (var32_survives (Z.of_nat (length l)) ltac:(lia)) as (n & V & _).
  exists n. split; [|exact V]. destruct V as (W & B & R). destruct (survive_all_spec c l bs S) as (W2 & B2 & R2).
  split; [cbn [write serializeArray]; now rewrite W, W2|]. split; [now apply forall_app_byte|]. intros rest.
  cbn [read serializeArray]. rewrite <- app_assoc, R. unfold max_size.
  destruct (Z.leb_spec 8192 (Z.of_nat (length l))); [lia|]. now rewrite Nat2Z.id, R2.
Qed.

Lemma array_canonical {A} (c : codec A) : canonical c -> canonical (serializeArray c).
Proof.
  intros Hc l v rest Hl H. cbn [read serializeArray] in H.
  destruct (read serializeVarUInt32 l) as [[n l1]|] eqn:E; [|discriminate].
  pose proof (var32_range l n l1 Hl E) as Rn. destruct (var32_canonical l n l1 Hl E) as (p1 & b1 & -> & S1 & L1).
  destruct (Z.leb_spec max_size n); [discriminate|]. pose proof (rest_bytes _ _ Hl) as Hl1.
  destruct (read_all_canonical c Hc _ l1 v rest Hl1 H) as (p2 & b2 & -> & S2 & L2 & N).
  destruct (array_survives c v b2 S2 ltac:(lia)) as (b & S & V). rewrite N, Z2Nat.id in V by lia.
  assert (b = b1) as -> by (destruct S1 as (W1 & _), V as (W2 & _); congruence).
  exists (p1 ++ p2), (b1 ++ b2). split; [apply app_assoc|]. split; [exact S|]. rewrite !length_app. lia.
Qed.

Lemma string_survives (s : list Z) : Forall is_byte s -> Z.of_nat (length s) < max_size ->
  exists n, survives serializeString s (n ++ s) /\ survives serializeVarUInt32 (Z.of_nat (length s)) n.
Proof.
  intros Hs L. unfold max_size in L. destruct (var32_survives (Z.of_nat (length s)) ltac:(lia)) as (n & V & _).
  exists n. split; [|exact V]. destruct V as (W & B & R).
  split; [cbn [write serializeString]; now rewrite W|]. split; [now apply forall_app_byte|]. intros rest.
  cbn [read serializeString]. rewrite <- app_assoc, R, advance_app by reflexivity. unfold max_size.
  destruct (Z.leb_spec 8192 (Z.of_nat (length s))); [lia|reflexivity].
Qed.

Lemma string_canonical : canonical serializeString.
Proof.
  intros l v rest Hl H. cbn [read serializeString] in H.
  destruct (read serializeVarUInt32 l) as [[n l1]|] eqn:E; [|discriminate].
  pose proof (var32_range l n l1 Hl E) as Rn. destruct (var32_canonical l n l1 Hl E) as (p1 & b1 & -> & S1 & L1).
  pose proof (rest_bytes _ _ Hl) as Hl1. destruct (advance n l1) as [[bs l2]|] eqn:Ea; [|discriminate].
  destruct (advance_spec n l1 bs l2 ltac:(lia) Ea) as [-> Ln].
  destruct (Z.leb_spec max_size n); [discriminate|]. injection H as <- <-. apply Forall_app in Hl1 as [Hb _].
  destruct (string_survives bs Hb ltac:(lia)) as (b & S & V). rewrite Ln in V.
  assert (b = b1) as -> by (destruct S1 as (W1 & _), V as (W2 & _); congruence).
  exists (p1 ++ bs), (b1 ++ bs). split; [apply app_assoc|]. split; [exact S|]. rewrite !length_app. lia.
Qed.
