(* ===== verification/IR.v ===== *)
(** Modules of the engine and their validation (IR/Module.h, IR/Types.h, IR/Operators.h,
    Source/IR/Validate.cpp).  Validation throws or not: an answer or nothing; the code of a
    function is checked operator by operator, with a stack of operand types and one of control structures. *)
From Stdlib Require Import ZArith Bool Lia String List.
From S2P Require Import Prelude Exceptions Memory Opcodes Ops Injection.
Import ListNotations.
Local Open Scope Z_scope.

(** ** Modules *)
Record TableType : Type := Table { elementType : Z; table_size : Z * Z }.
Record TableSegment : Type := MkTableSegment { tableIndex : Z; table_offset : InitializerExpression; indices : list Z }.
Record UserSection : Type := User { user_name : string; user_data : list Z }.
(** [FunctionDef], with its branch tables *)
Record FunctionDefinition : Type := Definition_ { def : FunctionDef; branchTables : list (list Z) }.

Record ImportOf (Type_ : Type) : Type := MkImport { of_type : Type_; of_module : string; of_export : string }.
Arguments MkImport {Type_}.
Arguments of_type {Type_}.
Arguments of_module {Type_}.
Arguments of_export {Type_}.
Record IndexSpace (Definition_ Type_ : Type) : Type := Space { space_imports : list (ImportOf Type_); space_defs : list Definition_ }.
Arguments Space {Definition_ Type_}.
Arguments space_imports {Definition_ Type_}.
Arguments space_defs {Definition_ Type_}.

(** Sizes are pairs, of the minimum and the maximum; the type of a global, of its mutability
    and its value type. *)
Definition GlobalDef : Type := (bool * Z) * InitializerExpression.
Record Module : Type := IRModule {
  m_types : list FunctionType;
  m_functions : IndexSpace FunctionDefinition Z;
  m_tables : IndexSpace TableType TableType;
  m_memories : IndexSpace (Z * Z) (Z * Z);
  m_globals : IndexSpace GlobalDef (bool * Z);
  m_exports : list Export;
  m_dataSegments : list DataSegment;
  m_tableSegments : list TableSegment;
  m_start : Z
}.

Definition space_size {D T} (s : IndexSpace D T) : Z := size (space_imports s) + size (space_defs s).
(** [IndexSpace::getType] *)
Definition space_type {D T} (type_of : D -> T) (s : IndexSpace D T) (index : Z) : option T :=
  if index <? size (space_imports s)
  then option_map of_type (nth_error (space_imports s) (Z.to_nat index))
  else option_map type_of (nth_error (space_defs s) (Z.to_nat (index - size (space_imports s)))).

Definition maxMemoryPages : Z := 65536.
Definition UINT32_MAX : Z := 2 ^ 32 - 1.
Definition UINT64_MAX : Z := 2 ^ 64 - 1.
Definition rt_max : Z := 4.

(** ** Types *)
Definition validate_ValueType (valueType : Z) : bool := negb ((valueType =? vt_any) || (rt_max <? valueType)).
Definition validate_ResultType (returnType : Z) : bool := negb (rt_max <? returnType).
Definition validate_size (size : Z * Z) (maxMax : Z) : bool :=
  let max := if snd size =? UINT64_MAX then maxMax else snd size in
  negb (max <? fst size) && negb (maxMax <? max).
Definition anyfunc : Z := 0x70.
Definition validate_TableType (type : TableType) : bool :=
  (elementType type =? anyfunc) && validate_size (table_size type) UINT32_MAX.
Definition validate_MemoryType (type : Z * Z) : bool := validate_size type maxMemoryPages.
Definition validate_GlobalType (type : bool * Z) : bool := validate_ValueType (snd type).

(** [VALIDATE_INDEX] *)
Definition valid_index (index size : Z) : bool := negb (size <=? index).

Section Definitions.
Variable m : Module.

Definition validateGlobalIndex (globalIndex : Z) (mustBeMutable mustBeImmutable mustBeImport : bool) : option Z :=
  if negb (valid_index globalIndex (space_size (m_globals m))) then None
  else match space_type fst (m_globals m) globalIndex with
       | Some (isMutable, valueType) =>
           if mustBeMutable && negb isMutable then None
           else if mustBeImport && (size (space_imports (m_globals m)) <=? globalIndex) then None
           else if mustBeImmutable && isMutable then None
           else Some valueType
       | None => None
       end.

Definition validateFunctionIndex (functionIndex : Z) : option FunctionType :=
  if negb (valid_index functionIndex (space_size (m_functions m))) then None
  else match space_type (fun d => type_index (def d)) (m_functions m) functionIndex with
       | Some t => nth_error (m_types m) (Z.to_nat t)
       | None => None
       end.

Definition validateInitializer (expression : InitializerExpression) (expectedType : Z) : bool :=
  match expression with
  | i32_const _ => expectedType =? vt_i32
  | i64_const _ => expectedType =? vt_i64
  | f32_const _ => expectedType =? vt_f32
  | f64_const _ => expectedType =? vt_f64
  | get_global globalIndex =>
      match validateGlobalIndex globalIndex false true true with Some t => expectedType =? t | None => false end
  | error => false
  end.

Definition validate_FunctionType (t : FunctionType) : bool :=
  forallb validate_ValueType (parameters t) && validate_ResultType (ret t).
Definition validate_FunctionDef (d : FunctionDefinition) : bool :=
  valid_index (type_index (def d)) (size (m_types m)) && forallb validate_ValueType (nonParameterLocalTypes (def d)).
Definition validate_Export (e : Export) : bool :=
  match kind e with
  | function => valid_index (index e) (space_size (m_functions m))
  | table => valid_index (index e) (space_size (m_tables m))
  | memory => valid_index (index e) (space_size (m_memories m))
  | global => match validateGlobalIndex (index e) false true false with Some _ => true | None => false end
  end.
Fixpoint distinct_names (names : list string) (seen : list string) : bool :=
  match names with
  | [] => true
  | n :: names => negb (existsb (String.eqb n) seen) && distinct_names names (n :: seen)
  end.
Definition validate_start : bool :=
  if m_start m =? UINTPTR_MAX then true
  else match validateFunctionIndex (m_start m) with
       | Some t => (ret t =? rt_none) && match parameters t with [] => true | _ => false end
       | None => false
       end.

Definition validateDefinitions : bool :=
  forallb validate_FunctionType (m_types m)
  && forallb (fun i => valid_index (of_type i) (size (m_types m))) (space_imports (m_functions m))
  && forallb (fun i => validate_TableType (of_type i)) (space_imports (m_tables m))
  && forallb (fun i => validate_MemoryType (of_type i)) (space_imports (m_memories m))
  && forallb (fun i => validate_GlobalType (of_type i) && negb (fst (of_type i))) (space_imports (m_globals m))
  && forallb validate_FunctionDef (space_defs (m_functions m))
  && forallb (fun g => validate_GlobalType (fst g) && validateInitializer (snd g) (snd (fst g))) (space_defs (m_globals m))
  && forallb validate_TableType (space_defs (m_tables m))
  && negb (1 <? space_size (m_tables m))
  && forallb validate_MemoryType (space_defs (m_memories m))
  && negb (1 <? space_size (m_memories m))
  && forallb validate_Export (m_exports m) && distinct_names (map export_name (m_exports m)) []
  && validate_start
  && forallb (fun s => valid_index (memoryIndex s) (space_size (m_memories m)) && validateInitializer (baseOffset s) vt_i32)
       (m_dataSegments m)
  && forallb (fun s => valid_index (tableIndex s) (space_size (m_tables m)) && validateInitializer (table_offset s) vt_i32
                       && forallb (fun i => valid_index i (space_size (m_functions m))) (indices s)) (m_tableSegments m).
End Definitions.

(** ** Code *)
Inductive ControlType : Type := C_function | C_block | C_ifThen | C_ifElse | C_loop.
Record ControlContext : Type := Control {
  control_type : ControlType;
  outerStackSize : nat;
  branchArgumentType : Z;
  resultType : Z;
  isReachable : bool
}.
(** [FunctionValidationContext]: its stacks, the top first *)
Record context : Type := Checking { controlStack : list ControlContext; operands : list Z }.

(** [std::vector::resize] of the operands *)
Definition resize_operands (n : nat) (stack : list Z) : list Z :=
  if Nat.leb n (length stack) then skipn (length stack - n) stack else repeat vt_any (n - length stack) ++ stack.

Definition then_ {A B} (o : option A) (k : A -> option B) : option B := match o with Some a => k a | None => None end.

Definition pushControlStack (type : ControlType) (branchArgumentType resultType : Z) (c : context) : context :=
  Checking (Control type (length (operands c)) branchArgumentType resultType true :: controlStack c) (operands c).

Definition pushOperand (type : Z) (c : context) : context := Checking (controlStack c) (type :: operands c).
(** of a [ResultType] *)
Definition pushResult (type : Z) (c : context) : context := if type =? rt_none then c else pushOperand type c.

Definition popOperand (c : context) : option (Z * context) :=
  match controlStack c with
  | [] => None
  | back :: _ =>
      match operands c with
      | result :: stack =>
          if Nat.ltb (outerStackSize back) (length (operands c)) then Some (result, Checking (controlStack c) stack)
          else if isReachable back then None else Some (vt_any, c)
      | [] => if isReachable back then None else Some (vt_any, c)
      end
  end.

Definition operand_type_ok (expectedType actualType : Z) : bool :=
  negb (negb (expectedType =? actualType) && negb (expectedType =? vt_any) && negb (actualType =? vt_any)).

Definition popAndValidateOperand (expectedType : Z) (c : context) : option context :=
  then_ (popOperand c) (fun '(actualType, c) => if operand_type_ok expectedType actualType then Some c else None).
(** The operands in their order: the last is popped first. *)
Fixpoint pop_all (expectedTypes : list Z) (c : context) : option context :=
  match expectedTypes with
  | [] => Some c
  | t :: ts => then_ (popAndValidateOperand t c) (pop_all ts)
  end.
Definition popAndValidateOperands (expectedTypes : list Z) (c : context) : option context := pop_all (rev expectedTypes) c.
Definition popAndValidateResultType (expectedType : Z) (c : context) : option context :=
  if expectedType =? rt_none then Some c else popAndValidateOperand expectedType c.

Definition popControlStack (isElse : bool) (c : context) : option context :=
  match controlStack c with
  | [] => None
  | back :: rest =>
      if Nat.ltb (outerStackSize back) (length (operands c)) then None
      else
        match isElse, control_type back with
        | true, C_ifThen =>
            Some (Checking (Control C_ifElse (outerStackSize back) (branchArgumentType back) (resultType back) true :: rest)
                    (operands c))
        | true, _ => None
        | false, C_ifThen => if negb (resultType back =? rt_none) then None
            else match rest with
                 | [] => Some (Checking [] (operands c))
                 | _ => Some (pushResult (resultType back) (Checking rest (operands c)))
                 end
        | false, _ =>
            match rest with
            | [] => Some (Checking [] (operands c))
            | _ => Some (pushResult (resultType back) (Checking rest (operands c)))
            end
        end
  end.

Definition enterUnreachable (c : context) : option context :=
  match controlStack c with
  | [] => None
  | back :: rest =>
      Some (Checking (Control (control_type back) (outerStackSize back) (branchArgumentType back) (resultType back) false :: rest)
              (resize_operands (outerStackSize back) (operands c)))
  end.

Definition getBranchTargetByDepth (depth : Z) (c : context) : option ControlContext :=
  if negb (valid_index depth (size (controlStack c))) then None else nth_error (controlStack c) (Z.to_nat depth).

(** ** The operators that are not control or parametric: operands, result and alignment (Operators.h) *)
Definition unary (operand result : Z) : option (list Z * Z) := Some ([operand], result).
Definition binary (operand result : Z) : option (list Z * Z) := Some ([operand; operand], result).
Definition load (result : Z) : option (list Z * Z) := Some ([vt_i32], result).
Definition store_ (value : Z) : option (list Z * Z) := Some ([vt_i32; value], rt_none).
Definition nullary (result : Z) : option (list Z * Z) := Some ([], result).

(** The conversions, from i32_wrap_i64 on *)
Definition conversions : list (Z * Z) :=
  [ (vt_i64, vt_i32); (vt_f32, vt_i32); (vt_f32, vt_i32); (vt_f64, vt_i32); (vt_f64, vt_i32);
    (vt_i32, vt_i64); (vt_i32, vt_i64); (vt_f32, vt_i64); (vt_f32, vt_i64); (vt_f64, vt_i64); (vt_f64, vt_i64);
    (vt_i32, vt_f32); (vt_i32, vt_f32); (vt_i64, vt_f32); (vt_i64, vt_f32); (vt_f64, vt_f32);
    (vt_i32, vt_f64); (vt_i32, vt_f64); (vt_i64, vt_f64); (vt_i64, vt_f64); (vt_f32, vt_f64);
    (vt_f32, vt_i32); (vt_f64, vt_i64); (vt_i32, vt_f32); (vt_i64, vt_f64) ].

Definition signature (c : Z) : option (list Z * Z) :=
  if c =? nop_code then nullary rt_none
  else if c =? current_memory_code then nullary vt_i32
  else if c =? grow_memory_code then unary vt_i32 vt_i32
  else if c =? i64_load_code then load vt_i64
  else if c =? f32_load_code then load vt_f32
  else if c =? f64_load_code then load vt_f64
  else if between i32_load_code i32_load16_u_code c then load vt_i32
  else if between i64_load8_s_code i64_load32_u_code c then load vt_i64
  else if c =? i64_store_code then store_ vt_i64
  else if c =? f32_store_code then store_ vt_f32
  else if c =? f64_store_code then store_ vt_f64
  else if between i32_store_code i32_store16_code c then store_ vt_i32
  else if between i64_store8_code i64_store32_code c then store_ vt_i64
  else if c =? i32_const_code then nullary vt_i32
  else if c =? i64_const_code then nullary vt_i64
  else if c =? f32_const_code then nullary vt_f32
  else if c =? f64_const_code then nullary vt_f64
  else if c =? i32_eqz_code then unary vt_i32 vt_i32
  else if between i32_eq_code i32_ge_u_code c then binary vt_i32 vt_i32
  else if c =? i64_eqz_code then unary vt_i64 vt_i32
  else if between i64_eq_code i64_ge_u_code c then binary vt_i64 vt_i32
  else if between f32_eq_code f32_ge_code c then binary vt_f32 vt_i32
  else if between f64_eq_code f64_ge_code c then binary vt_f64 vt_i32
  else if between i32_clz_code i32_popcnt_code c then unary vt_i32 vt_i32
  else if between i32_add_code i32_rotr_code c then binary vt_i32 vt_i32
  else if between i64_clz_code i64_popcnt_code c then unary vt_i64 vt_i64
  else if between i64_add_code i64_rotr_code c then binary vt_i64 vt_i64
  else if between f32_abs_code f32_sqrt_code c then unary vt_f32 vt_f32
  else if between f32_add_code f32_copysign_code c then binary vt_f32 vt_f32
  else if between f64_abs_code f64_sqrt_code c then unary vt_f64 vt_f64
  else if between f64_add_code f64_copysign_code c then binary vt_f64 vt_f64
  else if between i32_wrap_i64_code f64_reinterpret_i64_code c then
    match nth_error conversions (Z.to_nat (c - i32_wrap_i64_code)) with Some (t, r) => unary t r | None => None end
  else None.

(** [naturalAlignmentLog2] of the loads and stores, from i32_load on *)
Definition naturalAlignmentLog2 (c : Z) : Z :=
  nth (Z.to_nat (c - i32_load_code)) [2; 3; 2; 3; 0; 0; 1; 1; 0; 0; 1; 1; 2; 2; 2; 3; 2; 3; 0; 1; 0; 1; 2] 0.

(** ** FunctionValidationContext: one operator *)
Section Code.
Variable m : Module.
Variable functionDef : FunctionDef.

Definition function_type : option FunctionType := nth_error (m_types m) (Z.to_nat (type_index functionDef)).
Definition locals (functionType : FunctionType) : list Z := parameters functionType ++ nonParameterLocalTypes functionDef.
Definition validateLocalIndex (functionType : FunctionType) (localIndex : Z) : option Z :=
  if negb (valid_index localIndex (size (locals functionType))) then None
  else nth_error (locals functionType) (Z.to_nat localIndex).

Definition validateImm (op : instr) : bool :=
  match op_field op with
  | Memarg alignmentLog2 _ =>
      negb (naturalAlignmentLog2 (get_code op) <? u8 alignmentLog2) && negb (space_size (m_memories m) =? 0)
  | _ => if existsb (Z.eqb (get_code op)) [current_memory_code; grow_memory_code]
         then negb (space_size (m_memories m) =? 0) else true
  end.

Definition call_type (t : FunctionType) (c : context) : option context :=
  then_ (popAndValidateOperands (parameters t) c) (fun c => Some (pushResult (ret t) c)).

Fixpoint targets_agree (targetDepths : list Z) (argument : Z) (c : context) : bool :=
  match targetDepths with
  | [] => true
  | d :: ds =>
      match getBranchTargetByDepth d c with
      | Some target => (branchArgumentType target =? argument) && targets_agree ds argument c
      | None => false
      end
  end.

Definition validate_control (resultType : Z) (type : ControlType) (branchArgumentType : Z) (c : context) : option context :=
  if validate_ResultType resultType then Some (pushControlStack type branchArgumentType resultType c) else None.

(** The members of [FunctionValidationContext] with the operators' names, by the code *)
Definition validate_op (functionType : FunctionType) (branchTables : list (list Z)) (op : instr) (c : context) : option context :=
  let code := get_code op in
  match op_field op with
  | Block result =>
      if code =? block_code then validate_control result C_block result c
      else if code =? loop_code then validate_control result C_loop rt_none c
      else if code =? if__code then
        if validate_ResultType result then then_ (popAndValidateOperand vt_i32 c) (validate_control result C_ifThen result) else None
      else None
  | Branchtable defaultTargetDepth branchTableIndex =>
      if negb (code =? br_table_code) then None else
      then_ (popAndValidateOperand vt_i32 c) (fun c =>
      then_ (getBranchTargetByDepth defaultTargetDepth c) (fun target =>
      let argument := branchArgumentType target in
      then_ (popAndValidateResultType argument c) (fun c =>
      then_ (nth_error branchTables (Z.to_nat branchTableIndex)) (fun targetDepths =>
      if targets_agree targetDepths argument c then enterUnreachable c else None))))
  | U32 v =>
      if code =? br_code then
        then_ (getBranchTargetByDepth v c) (fun target => then_ (popAndValidateResultType (branchArgumentType target) c) enterUnreachable)
      else if code =? br_if_code then
        then_ (popAndValidateOperand vt_i32 c) (fun c =>
        then_ (getBranchTargetByDepth v c) (fun target =>
        then_ (popAndValidateResultType (branchArgumentType target) c) (fun c => Some (pushResult (branchArgumentType target) c))))
      else if code =? call_code then then_ (validateFunctionIndex m v) (fun t => call_type t c)
      else if code =? call_indirect_code then
        if negb (valid_index v (size (m_types m))) || (space_size (m_tables m) =? 0) then None
        else then_ (nth_error (m_types m) (Z.to_nat v)) (fun t => then_ (popAndValidateOperand vt_i32 c) (call_type t))
      else if code =? get_local_code then then_ (validateLocalIndex functionType v) (fun t => Some (pushOperand t c))
      else if code =? set_local_code then then_ (validateLocalIndex functionType v) (fun t => popAndValidateOperand t c)
      else if code =? tee_local_code then
        then_ (validateLocalIndex functionType v) (fun t => then_ (popAndValidateOperand t c) (fun c => Some (pushOperand t c)))
      else if code =? get_global_code then then_ (validateGlobalIndex m v false false false) (fun t => Some (pushOperand t c))
      else if code =? set_global_code then then_ (validateGlobalIndex m v true false false) (fun t => popAndValidateOperand t c)
      else then_ (signature code) (fun '(ts, r) => then_ (popAndValidateOperands ts c) (fun c => Some (pushResult r c)))
  | _ =>
      if code =? else__code then
        match controlStack c with
        | back :: _ => then_ (popAndValidateResultType (resultType back) c) (popControlStack true)
        | [] => None
        end
      else if code =? end_code then
        match controlStack c with
        | back :: _ => then_ (popAndValidateResultType (resultType back) c) (popControlStack false)
        | [] => None
        end
      else if code =? return__code then then_ (popAndValidateResultType (ret functionType) c) enterUnreachable
      else if code =? unreachable_code then enterUnreachable c
      else if code =? drop_code then then_ (popOperand c) (fun '(_, c) => Some c)
      else if code =? select_code then
        then_ (popOperand c) (fun '(condition, c) =>
        then_ (popOperand c) (fun '(falseType, c) =>
        then_ (popOperand c) (fun '(trueType, c) =>
        if operand_type_ok vt_i32 condition && operand_type_ok falseType trueType then Some (pushOperand falseType c) else None)))
      else if validateImm op then
        then_ (signature code) (fun '(ts, r) => then_ (popAndValidateOperands ts c) (fun c => Some (pushResult r c)))
      else None
  end.

(** The constructor, and [finish] *)
Definition start_context (functionType : FunctionType) : context :=
  pushControlStack C_function (ret functionType) (ret functionType) (Checking [] []).
Definition finish (c : context) : bool := match controlStack c with [] => true | _ => false end.

Fixpoint validate_ops (functionType : FunctionType) (branchTables : list (list Z)) (ops : list instr) (c : context) : option context :=
  match ops with
  | [] => Some c
  | op :: ops => then_ (validate_op functionType branchTables op c) (validate_ops functionType branchTables ops)
  end.
End Code.

(** ** The part of a module that injection works on, and what it makes of the whole *)
Definition as_import (i : ImportOf Z) : FunctionImport := Import (of_type i) (of_module i) (of_export i).
Definition of_import (i : FunctionImport) : ImportOf Z := MkImport (import_type i) (moduleName i) (exportName i).
Definition as_module (m : Module) : Module_ :=
  MkModule (m_types m) (map as_import (space_imports (m_functions m))) (map def (space_defs (m_functions m)))
    (space_defs (m_memories m)) (m_exports m) (map indices (m_tableSegments m)) (m_start m).
Definition with_injected (m : Module) (m' : Module_) : Module :=
  IRModule (types m')
    (Space (map of_import (imports m')) (map (fun '(d, fd) => Definition_ fd (branchTables d)) (combine (space_defs (m_functions m)) (defs m'))))
    (m_tables m) (Space (space_imports (m_memories m)) (memories m')) (m_globals m) (exports m') (m_dataSegments m)
    (map (fun '(s, fs) => MkTableSegment (tableIndex s) (table_offset s) fs) (combine (m_tableSegments m) (tableSegments m')))
    (startFunctionIndex m').
