(* ===== verification/IRProofs.v ===== *)
(** The invariant of the validation of code, and what validation reads of the module. *)
From Stdlib Require Import ZArith Bool Lia String List.
From S2P Require Import Prelude Exceptions Memory Opcodes Ops OpsProofs Injection.
From S2P Require Import IR.
Import ListNotations.
Local Open Scope Z_scope.

Lemma then_some {A B} (o : option A) (k : A -> option B) (b : B) : then_ o k = Some b -> exists a, o = Some a /\ k a = Some b.
Proof. destruct o as [a|]; [intros H; exists a; auto|discriminate]. Qed.

(** ** The stacks *)

(** The operands of the control structures that are open, each with those below it *)
Fixpoint stacked (n : nat) (cs : list ControlContext) : Prop :=
  match cs with
  | [] => True
  | c :: cs => (outerStackSize c <= n)%nat /\ stacked (outerStackSize c) cs
  end.
Definition balanced (c : context) : Prop := stacked (length (operands c)) (controlStack c).

Lemma stacked_weaken (n k : nat) (cs : list ControlContext) : stacked n cs -> (n <= k)%nat -> stacked k cs.
Proof. destruct cs as [|c cs]; [auto|]. cbn. intros [A B] L. split; [lia|exact B]. Qed.

(** An operation on the operands of the innermost control structure *)
Record inside (c c' : context) : Prop := {
  inside_control : controlStack c' = controlStack c;
  inside_balanced : balanced c -> balanced c'
}.

Lemma inside_refl (c : context) : inside c c.
Proof. constructor; auto. Qed.
Lemma inside_trans (a b c : context) : inside a b -> inside b c -> inside a c.
Proof. intros [A1 A2] [B1 B2]. constructor; [congruence|auto]. Qed.

Lemma push_inside (t : Z) (c : context) : inside c (pushOperand t c).
Proof. constructor; [reflexivity|]. unfold balanced. cbn. intros H. eapply stacked_weaken; [exact H|lia]. Qed.
Lemma push_result_inside (t : Z) (c : context) : inside c (pushResult t c).
Proof. unfold pushResult. destruct (_ =? _); [apply inside_refl|apply push_inside]. Qed.

Lemma pop_inside (c c' : context) (t : Z) : popOperand c = Some (t, c') -> inside c c' /\ controlStack c <> [].
Proof.
  unfold popOperand. destruct (controlStack c) as [|back cs] eqn:C; [discriminate|].
  destruct (operands c) as [|x l] eqn:O.
  - destruct (isReachable back); [discriminate|]. intros [= <- <-]. split; [apply inside_refl|discriminate].
  - destruct (Nat.ltb_spec (outerStackSize back) (length (x :: l))) as [L|L].
    + intros [= <- <-]. split; [|discriminate]. constructor; [cbn; congruence|]. unfold balanced. rewrite C, O. cbn.
      intros [_ S]. cbn in L. split; [lia|exact S].
    + destruct (isReachable back); [discriminate|]. intros [= <- <-]. split; [apply inside_refl|discriminate].
Qed.

Lemma pop_type_inside (t : Z) (c c' : context) : popAndValidateOperand t c = Some c' -> inside c c' /\ controlStack c <> [].
Proof.
  intros H. apply then_some in H as ([a c1] & H & E). destruct (operand_type_ok t a); [|discriminate]. injection E as <-.
  exact (pop_inside _ _ _ H).
Qed.

Lemma pop_all_inside (ts : list Z) : forall c c', pop_all ts c = Some c' -> inside c c'.
Proof.
  induction ts as [|t ts IH]; intros c c' H; cbn [pop_all] in H; [injection H as <-; apply inside_refl|].
  apply then_some in H as (c1 & H1 & H2). exact (inside_trans _ _ _ (proj1 (pop_type_inside _ _ _ H1)) (IH _ _ H2)).
Qed.

Lemma pop_result_inside (t : Z) (c c' : context) : popAndValidateResultType t c = Some c' -> inside c c'.
Proof.
  unfold popAndValidateResultType. destruct (_ =? _); [intros [= <-]; apply inside_refl|]. intros H. exact (proj1 (pop_type_inside _ _ _ H)).
Qed.

Lemma call_inside (t : FunctionType) (c c' : context) : call_type t c = Some c' -> inside c c'.
Proof.
  intros H. apply then_some in H as (c1 & H & E). injection E as <-.
  exact (inside_trans _ _ _ (pop_all_inside _ _ _ H) (push_result_inside _ _)).
Qed.

(** ** Control structures *)

(** How many control structures an operator opens or closes. *)
Definition depth_change (op : instr) : Z :=
  if existsb (Z.eqb (get_code op)) [block_code; loop_code; if__code] then 1 else if get_code op =? end_code then -1 else 0.

Definition depth (c : context) : Z := size (controlStack c).

Lemma unreachable_spec (c c' : context) : enterUnreachable c = Some c' -> depth c' = depth c /\ (balanced c -> balanced c') /\ 0 < depth c.
Proof.
  unfold enterUnreachable, depth, size. destruct (controlStack c) as [|back cs] eqn:C; [discriminate|]. intros [= <-]. cbn.
  split; [lia|]. split; [|lia]. unfold balanced. rewrite C. cbn. intros [H S]. unfold resize_operands.
  destruct (Nat.leb_spec (outerStackSize back) (length (operands c))).
  - rewrite length_skipn. split; [lia|exact S].
  - lia.
Qed.

Lemma inside_depth (c c' : context) : inside c c' -> depth c' = depth c /\ (balanced c -> balanced c').
Proof. intros [C B]. unfold depth. rewrite C. auto. Qed.

Lemma pop_control_spec (e : bool) (c c' : context) : popControlStack e c = Some c' ->
  depth c' = depth c - (if e then 0 else 1) /\ (balanced c -> balanced c').
Proof.
  unfold popControlStack, depth, size, balanced. destruct (controlStack c) as [|back cs] eqn:C; [discriminate|].
  destruct (Nat.ltb_spec (outerStackSize back) (length (operands c))) as [|L]; [discriminate|].
  assert (P : forall c', match cs with [] => Some (Checking [] (operands c)) | _ => Some (pushResult (resultType back) (Checking cs (operands c))) end = Some c' ->
            Z.of_nat (length (controlStack c')) = Z.of_nat (length (back :: cs)) - 1 /\
            (stacked (length (operands c)) (back :: cs) -> stacked (length (operands c')) (controlStack c'))).
  { clear c'. intros c' H. destruct cs as [|b cs]; injection H as <-; [split; [reflexivity|intros _; exact I]|].
    destruct (push_result_inside (resultType back) (Checking (b :: cs) (operands c))) as [I1 I2]. cbn [controlStack] in I1. rewrite I1.
    split; [cbn [length]; lia|]. intros [H1 H2]. unfold balanced in I2. rewrite I1 in I2. apply I2. cbn [operands controlStack].
    eapply stacked_weaken; [exact H2|exact H1]. }
  destruct e, (control_type back) eqn:T; try discriminate; try (apply P).
  - intros [= <-]. split; [cbn [controlStack length]; lia|]. intros S. exact S.
  - destruct (negb _); [discriminate|apply P].
Qed.

(** ** One operator, and code *)
Lemma push_control_spec (result : Z) (type : ControlType) (branch : Z) (c c' : context) :
  validate_control result type branch c = Some c' -> depth c' = depth c + 1 /\ (balanced c -> balanced c').
Proof.
  unfold validate_control. destruct (validate_ResultType result); [|discriminate]. intros [= <-]. unfold depth, size, balanced, pushControlStack. cbn [controlStack length operands].
  split; [lia|]. cbn. intros S. split; [lia|exact S].
Qed.

Definition keeps_depth (k : Z) (c c' : context) : Prop := depth c' = depth c + k /\ (balanced c -> balanced c').
Lemma inside_keeps (c c' : context) : inside c c' -> keeps_depth 0 c c'.
Proof. intros I. destruct (inside_depth _ _ I). split; [lia|assumption]. Qed.
Lemma keeps_after (a b c : context) (k : Z) : inside a b -> keeps_depth k b c -> keeps_depth k a c.
Proof. intros I [D B]. destruct (inside_depth _ _ I) as [D' B']. split; [lia|auto]. Qed.
Lemma unreachable_keeps (c c' : context) : enterUnreachable c = Some c' -> keeps_depth 0 c c'.
Proof. intros H. destruct (unreachable_spec _ _ H) as (D & B & _). split; [lia|exact B]. Qed.
Lemma pop_one_inside (t : Z) (c c' : context) : popAndValidateOperand t c = Some c' -> inside c c'.
Proof. intros H. exact (proj1 (pop_type_inside _ _ _ H)). Qed.
Lemma pop_any_inside (t : Z) (c c' : context) : popOperand c = Some (t, c') -> inside c c'.
Proof. intros H. exact (proj1 (pop_inside _ _ _ H)). Qed.
Lemma pop_many_inside (ts : list Z) (c c' : context) : popAndValidateOperands ts c = Some c' -> inside c c'.
Proof. apply pop_all_inside. Qed.

(** Follows the steps of a member of the validation. *)
Ltac validated := repeat match goal with
  | [H : then_ _ _ = Some _ |- _] => apply then_some in H; destruct H as (? & ? & H)
  | [H : (let '(_, _) := ?p in _) = Some _ |- _] => destruct p
  | [H : (if ?b then _ else _) = Some _ |- _] => destruct b eqn:?
  | [H : match ?x with _ => _ end = Some _ |- _] => destruct x eqn:?
  | [H : None = Some _ |- _] => discriminate H
  | [H : Some _ = Some _ |- _] => injection H as <-
  end.
Lemma change_of (op : instr) (c : Z) (k : Z) : get_code op = c ->
  (if existsb (Z.eqb c) [block_code; loop_code; if__code] then 1 else if c =? end_code then -1 else 0) = k -> depth_change op = k.
Proof. unfold depth_change. intros ->. auto. Qed.

Lemma signature_plain (op : instr) (s : list Z * Z) : signature (get_code op) = Some s -> depth_change op = 0.
Proof.
  intros H. unfold depth_change. destruct (existsb _ _) eqn:E.
  - apply existsb_exists in E as (c & I & E). apply Z.eqb_eq in E. rewrite E in H. cbn [In] in I.
    destruct I as [<-|[<-|[<-|[]]]]; discriminate H.
  - destruct (Z.eqb_spec (get_code op) end_code) as [E'|_]; [rewrite E' in H; discriminate H|reflexivity].
Qed.

Lemma keeps_as (op : instr) (c : Z) (k : Z) (a b : context) : (get_code op =? c) = true ->
  (if existsb (Z.eqb c) [block_code; loop_code; if__code] then 1 else if c =? end_code then -1 else 0) = k -> keeps_depth k a b -> keeps_depth (depth_change op) a b.
Proof. intros E K. apply Z.eqb_eq in E. now rewrite (change_of op c k E K). Qed.

Lemma signature_keeps (op : instr) (s : list Z * Z) (c c' : context) :
  signature (get_code op) = Some s -> inside c c' -> keeps_depth (depth_change op) c c'.
Proof. intros S I. rewrite (signature_plain op s S). now apply inside_keeps. Qed.

Ltac by_code := match goal with H : (get_code ?op =? ?k) = true |- _ => apply (keeps_as op k _ _ _ H eq_refl); clear H end.

Lemma control_keeps (e : bool) (c c' : context) : popControlStack e c = Some c' -> keeps_depth (if e then 0 else -1) c c'.
Proof. intros H. destruct (pop_control_spec _ _ _ H) as [D B]. split; [destruct e; lia|exact B]. Qed.
Lemma open_keeps (result : Z) (type : ControlType) (branch : Z) (c c' : context) :
  validate_control result type branch c = Some c' -> keeps_depth 1 c c'.
Proof. apply push_control_spec. Qed.

(** From one state to the next, by the step that was taken. *)
Ltac next_inside lemma := match goal with
  | H : popOperand ?a = Some (_, _) |- context [?a] => lemma a (pop_any_inside _ _ _ H)
  | H : popAndValidateOperand _ ?a = Some _ |- context [?a] => lemma a (pop_one_inside _ _ _ H)
  | H : popAndValidateOperands _ ?a = Some _ |- context [?a] => lemma a (pop_many_inside _ _ _ H)
  | H : popAndValidateResultType _ ?a = Some _ |- context [?a] => lemma a (pop_result_inside _ _ _ H)
  | H : call_type _ ?a = Some _ |- context [?a] => lemma a (call_inside _ _ _ H)
  end.
Ltac inner := first [ apply inside_refl | apply push_inside | apply push_result_inside
  | next_inside ltac:(fun a I => eapply inside_trans; [exact I|]); inner ].
Ltac kept := first
  [ apply unreachable_keeps; eassumption
  | eapply open_keeps; eassumption
  | eapply (control_keeps true); eassumption
  | eapply (control_keeps false); eassumption
  | apply inside_keeps; inner
  | next_inside ltac:(fun a I => eapply keeps_after; [exact I|]); kept ].

Lemma validate_op_keeps (m : Module) (d : FunctionDef) (ft : FunctionType) (tables : list (list Z)) (op : instr) (c c' : context) :
  validate_op m d ft tables op c = Some c' -> keeps_depth (depth_change op) c c'.
Proof.
  unfold validate_op. cbv zeta. destruct (op_field op) eqn:F; intros H; validated;
    try (by_code; kept).
  all: try (match goal with S : negb (get_code _ =? _) = false |- _ => apply negb_false_iff in S end; by_code; kept).
  all: match goal with S : signature _ = Some _ |- _ => apply (signature_keeps op _ _ _ S) end; inner.
Qed.

Definition depth_of (ops : list instr) : Z := fold_right Z.add 0 (map depth_change ops).

Lemma validate_ops_keeps (m : Module) (d : FunctionDef) (ft : FunctionType) (tables : list (list Z)) (ops : list instr) :
  forall c c', validate_ops m d ft tables ops c = Some c' -> keeps_depth (depth_of ops) c c'.
Proof.
  induction ops as [|op ops IH]; intros c c' H; cbn [validate_ops] in H.
  - injection H as <-. exact (inside_keeps _ _ (inside_refl c)).
  - apply then_some in H as (c1 & H1 & H2). destruct (validate_op_keeps _ _ _ _ _ _ _ H1) as [D B], (IH _ _ H2) as [D' B'].
    unfold depth_of in *. cbn [map fold_right]. split; [lia|auto].
Qed.
