(* ===== verification/Utf8.v ===== *)
(** UTF-8: [encodeCodepoint] (Inline/UTF8.h), and what [validateString] accepts. *)
From Stdlib Require Import ZArith Bool Lia String List.
From S2P Require Import Prelude Exceptions Opcodes Ops OpsProofs.
From S2P Require Import Serialization SerializationProofs IR.
Import ListNotations.
Local Open Scope Z_scope.

(** [UTF8::validateString]: whether it reaches the end of the string. *)
Definition within_bytes (lo hi b : Z) : bool := negb ((b <? lo) || (hi <? b)).
Fixpoint validateString (s : list Z) : bool :=
  match s with
  | [] => true
  | c :: rest =>
      if c <? 0x80 then validateString rest
      else if (0xc2 <=? c) && (c <=? 0xdf) then
        match rest with
        | a :: rest => within_bytes 0x80 0xbf a && validateString rest
        | _ => false
        end
      else if c =? 0xe0 then
        match rest with
        | a :: b :: rest => within_bytes 0xa0 0xbf a && within_bytes 0x80 0xbf b && validateString rest
        | _ => false
        end
      else if c =? 0xed then
        match rest with
        | a :: b :: rest => within_bytes 0xa0 0x9f a && within_bytes 0x80 0xbf b && validateString rest
        | _ => false
        end
      else if (0xe1 <=? c) && (c <=? 0xef) then
        match rest with
        | a :: b :: rest => within_bytes 0x80 0xbf a && within_bytes 0x80 0xbf b && validateString rest
        | _ => false
        end
      else if c =? 0xf0 then
        match rest with
        | a :: b :: d :: rest => within_bytes 0x90 0xbf a && within_bytes 0x80 0xbf b && within_bytes 0x80 0xbf d && validateString rest
        | _ => false
        end
      else if (0xf1 <=? c) && (c <=? 0xf3) then
        match rest with
        | a :: b :: d :: rest => within_bytes 0x80 0xbf a && within_bytes 0x80 0xbf b && within_bytes 0x80 0xbf d && validateString rest
        | _ => false
        end
      else if c =? 0xf4 then
        match rest with
        | a :: b :: d :: rest => within_bytes 0x80 0x8f a && within_bytes 0x80 0xbf b && within_bytes 0x80 0xbf d && validateString rest
        | _ => false
        end
      else false
  end.

(** The bytes of a code point, after those of the output; at most 21 bits *)
Definition encodeCodepoint (codepoint : Z) (outString : list Z) : option (list Z) :=
  if codepoint <? 0x80 then Some (outString ++ [u8 codepoint])
  else if codepoint <? 0x800 then
    Some (outString ++ [u8 (Z.lor (Z.land (Z.shiftr codepoint 6) 0x1F) 0xC0); u8 (Z.lor (Z.land codepoint 0x3F) 0x80)])
  else if codepoint <? 0x10000 then
    Some (outString ++ [u8 (Z.lor (Z.land (Z.shiftr codepoint 12) 0x0F) 0xE0); u8 (Z.lor (Z.land (Z.shiftr codepoint 6) 0x3F) 0x80);
                        u8 (Z.lor (Z.land codepoint 0x3F) 0x80)])
  else if codepoint <? 0x200000 then
    Some (outString ++ [u8 (Z.lor (Z.land (Z.shiftr codepoint 18) 0x07) 0xF0); u8 (Z.lor (Z.land (Z.shiftr codepoint 12) 0x3F) 0x80);
                        u8 (Z.lor (Z.land (Z.shiftr codepoint 6) 0x3F) 0x80); u8 (Z.lor (Z.land codepoint 0x3F) 0x80)])
  else None.

Fixpoint encode_codepoints (codepoints : list Z) (outString : list Z) : option (list Z) :=
  match codepoints with
  | [] => Some outString
  | c :: cs => then_ (encodeCodepoint c outString) (encode_codepoints cs)
  end.

(** The code points that are accepted: neither the surrogates nor the range before them *)
Definition accepted (c : Z) : Prop := 0 <= c < 0xD000 \/ 0xE000 <= c < 0x110000.

(** ** The encodings, by their digits *)
Lemma tag_bits (n : nat) (tag : Z) : forallb (fun a => u8 (Z.lor (Z.of_nat a) tag) =? tag + Z.of_nat a) (seq 0 n) = true ->
  forall a, 0 <= a < Z.of_nat n -> u8 (Z.lor a tag) = tag + a.
Proof.
  intros H a L. rewrite forallb_forall in H. specialize (H (Z.to_nat a)). rewrite Z2Nat.id in H by lia.
  apply Z.eqb_eq, H, in_seq. lia.
Qed.
Lemma tag_lead2 (a : Z) : 0 <= a < 32 -> u8 (Z.lor a 0xC0) = 0xC0 + a.
Proof. apply (tag_bits 32). reflexivity. Qed.
Lemma tag_lead3 (a : Z) : 0 <= a < 16 -> u8 (Z.lor a 0xE0) = 0xE0 + a.
Proof. apply (tag_bits 16). reflexivity. Qed.
Lemma tag_lead4 (a : Z) : 0 <= a < 8 -> u8 (Z.lor a 0xF0) = 0xF0 + a.
Proof. apply (tag_bits 8). reflexivity. Qed.
Lemma tag_next (a : Z) : 0 <= a < 64 -> u8 (Z.lor a 0x80) = 0x80 + a.
Proof. apply (tag_bits 64). reflexivity. Qed.

Lemma digit (c k n : Z) : 0 <= k -> 0 <= n -> Z.land (Z.shiftr c k) (Z.ones n) = c / 2 ^ k mod 2 ^ n.
Proof. intros Hk Hn. rewrite Z.land_ones, Z.shiftr_div_pow2 by lia. reflexivity. Qed.

Lemma encode1 (c : Z) (out : list Z) : 0 <= c < 0x80 -> encodeCodepoint c out = Some (out ++ [c]).
Proof. intros L. unfold encodeCodepoint. destruct (Z.ltb_spec c 0x80); [|lia]. unfold uwrap. now rewrite Z.mod_small by lia. Qed.

Lemma encode2 (a b : Z) (out : list Z) : 2 <= a < 32 -> 0 <= b < 64 ->
  encodeCodepoint (a * 64 + b) out = Some (out ++ [0xC0 + a; 0x80 + b]).
Proof.
  intros La Lb. unfold encodeCodepoint. destruct (Z.ltb_spec (a * 64 + b) 0x80); [lia|]. destruct (Z.ltb_spec (a * 64 + b) 0x800); [|lia].
  change 0x1F with (Z.ones 5). change 0x3F with (Z.ones 6). rewrite digit, (Z.land_ones (a * 64 + b)) by lia.
  change (2 ^ 6) with 64. change (2 ^ 5) with 32.
  replace ((a * 64 + b) / 64 mod 32) with a by (Z.div_mod_to_equations; lia).
  replace ((a * 64 + b) mod 64) with b by (Z.div_mod_to_equations; lia).
  rewrite tag_lead2, tag_next by lia. reflexivity.
Qed.

Lemma encode3 (a b d : Z) (out : list Z) : 0 <= a < 16 -> 0 <= b < 64 -> 0 <= d < 64 -> 0x800 <= a * 4096 + b * 64 + d ->
  encodeCodepoint (a * 4096 + b * 64 + d) out = Some (out ++ [0xE0 + a; 0x80 + b; 0x80 + d]).
Proof.
  intros La Lb Ld Lc. unfold encodeCodepoint. set (c := a * 4096 + b * 64 + d) in *.
  destruct (Z.ltb_spec c 0x80); [lia|]. destruct (Z.ltb_spec c 0x800); [lia|]. destruct (Z.ltb_spec c 0x10000); [|lia].
  change 0x0F with (Z.ones 4). change 0x3F with (Z.ones 6). rewrite !digit, (Z.land_ones c) by lia.
  change (2 ^ 12) with 4096. change (2 ^ 6) with 64. change (2 ^ 4) with 16.
  replace (c / 4096 mod 16) with a by (Z.div_mod_to_equations; lia).
  replace (c / 64 mod 64) with b by (Z.div_mod_to_equations; lia).
  replace (c mod 64) with d by (Z.div_mod_to_equations; lia).
  rewrite tag_lead3, !tag_next by lia. reflexivity.
Qed.

Lemma encode4 (a b d e : Z) (out : list Z) : 0 <= a < 8 -> 0 <= b < 64 -> 0 <= d < 64 -> 0 <= e < 64 ->
  0x10000 <= a * 262144 + b * 4096 + d * 64 + e ->
  encodeCodepoint (a * 262144 + b * 4096 + d * 64 + e) out = Some (out ++ [0xF0 + a; 0x80 + b; 0x80 + d; 0x80 + e]).
Proof.
  intros La Lb Ld Le Lc. unfold encodeCodepoint. set (c := a * 262144 + b * 4096 + d * 64 + e) in *.
  destruct (Z.ltb_spec c 0x80); [lia|]. destruct (Z.ltb_spec c 0x800); [lia|]. destruct (Z.ltb_spec c 0x10000); [lia|].
  destruct (Z.ltb_spec c 0x200000); [|lia].
  change 0x07 with (Z.ones 3). change 0x3F with (Z.ones 6). rewrite !digit, (Z.land_ones c) by lia.
  change (2 ^ 18) with 262144. change (2 ^ 12) with 4096. change (2 ^ 6) with 64. change (2 ^ 3) with 8.
  replace (c / 262144 mod 8) with a by (Z.div_mod_to_equations; lia).
  replace (c / 4096 mod 64) with b by (Z.div_mod_to_equations; lia).
  replace (c / 64 mod 64) with d by (Z.div_mod_to_equations; lia).
  replace (c mod 64) with e by (Z.div_mod_to_equations; lia).
  rewrite tag_lead4, !tag_next by lia. reflexivity.
Qed.

(** ** The strings that are accepted *)
Lemma within_bytes_spec (lo hi b : Z) : within_bytes lo hi b = true <-> lo <= b <= hi.
Proof. unfold within_bytes. rewrite negb_true_iff, orb_false_iff, !Z.ltb_ge. lia. Qed.

(** One code point at the beginning of a string *)
Inductive encoding : list Z -> Z -> Prop :=
  | one_byte (c : Z) : 0 <= c < 0x80 -> encoding [c] c
  | two_bytes (a b : Z) : 2 <= a < 32 -> 0 <= b < 64 -> encoding [0xC0 + a; 0x80 + b] (a * 64 + b)
  | three_bytes (a b d : Z) : 0 <= a < 16 -> 0 <= b < 64 -> 0 <= d < 64 -> 0x800 <= a * 4096 + b * 64 + d -> a <> 13 ->
      encoding [0xE0 + a; 0x80 + b; 0x80 + d] (a * 4096 + b * 64 + d)
  | four_bytes (a b d e : Z) : 0 <= a < 8 -> 0 <= b < 64 -> 0 <= d < 64 -> 0 <= e < 64 ->
      0x10000 <= a * 262144 + b * 4096 + d * 64 + e < 0x110000 ->
      encoding [0xF0 + a; 0x80 + b; 0x80 + d; 0x80 + e] (a * 262144 + b * 4096 + d * 64 + e).

Lemma encoding_spec (s : list Z) (c : Z) (out : list Z) : encoding s c -> encodeCodepoint c out = Some (out ++ s) /\ accepted c /\ s <> [].
Proof.
  unfold accepted. destruct 1.
  - rewrite encode1 by assumption. repeat split; [lia|discriminate].
  - rewrite encode2 by assumption. repeat split; [lia|discriminate].
  - rewrite encode3 by assumption. repeat split; [lia|discriminate].
  - rewrite encode4 by (assumption || lia). repeat split; [lia|discriminate].
Qed.

Lemma accepted_encoding (c : Z) : accepted c -> exists s, encoding s c.
Proof.
  intros A. unfold accepted in A. assert (c < 0x80 \/ 0x80 <= c < 0x800 \/ 0x800 <= c < 0x10000 \/ 0x10000 <= c) as [L|[L|[L|L]]] by lia.
  - exists [c]. constructor. lia.
  - pose proof (two_bytes (c / 64) (c mod 64)) as H. replace (c / 64 * 64 + c mod 64) with c in H by (Z.div_mod_to_equations; lia).
    eexists. apply H; Z.div_mod_to_equations; lia.
  - pose proof (three_bytes (c / 4096) (c / 64 mod 64) (c mod 64)) as H.
    replace (c / 4096 * 4096 + c / 64 mod 64 * 64 + c mod 64) with c in H by (Z.div_mod_to_equations; lia).
    eexists. apply H; Z.div_mod_to_equations; lia.
  - pose proof (four_bytes (c / 262144) (c / 4096 mod 64) (c / 64 mod 64) (c mod 64)) as H.
    replace (c / 262144 * 262144 + c / 4096 mod 64 * 4096 + c / 64 mod 64 * 64 + c mod 64) with c in H by (Z.div_mod_to_equations; lia).
    eexists. apply H; Z.div_mod_to_equations; lia.
Qed.

(** Decides the tests on a byte. *)
Ltac byte_tests := repeat match goal with
  | |- context [Z.ltb ?a ?b] => destruct (Z.ltb_spec a b); [try lia|try lia]
  | |- context [Z.leb ?a ?b] => destruct (Z.leb_spec a b); [try lia|try lia]
  | |- context [Z.eqb ?a ?b] => destruct (Z.eqb_spec a b); [try lia|try lia]
  end; cbn [andb orb negb].

Lemma within_true (lo hi b : Z) : lo <= b <= hi -> within_bytes lo hi b = true.
Proof. apply within_bytes_spec. Qed.

Lemma validate_encoding (s rest : list Z) (c : Z) : encoding s c -> validateString (s ++ rest) = validateString rest.
Proof.
  destruct 1; cbn [app validateString]; byte_tests; rewrite ?within_true by lia; reflexivity.
Qed.

(** ... and from the bytes *)
Lemma encoding_two (x y : Z) : 0xC2 <= x <= 0xDF -> 0x80 <= y <= 0xBF -> exists c, encoding [x; y] c.
Proof.
  intros Lx Ly. pose proof (two_bytes (x - 0xC0) (y - 0x80)) as H.
  replace (0xC0 + (x - 0xC0)) with x in H by lia. replace (0x80 + (y - 0x80)) with y in H by lia. eexists. apply H; lia.
Qed.
Lemma encoding_three (x y z : Z) : 0xE0 <= x <= 0xEF -> x <> 0xED -> 0x80 <= y <= 0xBF -> (x = 0xE0 -> 0xA0 <= y) -> 0x80 <= z <= 0xBF ->
  exists c, encoding [x; y; z] c.
Proof.
  intros Lx N Ly Ln Lz. pose proof (three_bytes (x - 0xE0) (y - 0x80) (z - 0x80)) as H.
  replace (0xE0 + (x - 0xE0)) with x in H by lia. replace (0x80 + (y - 0x80)) with y in H by lia.
  replace (0x80 + (z - 0x80)) with z in H by lia. eexists. apply H; lia.
Qed.
Lemma encoding_four (x y z w : Z) : 0xF0 <= x <= 0xF4 -> 0x80 <= y <= 0xBF -> (x = 0xF0 -> 0x90 <= y) -> (x = 0xF4 -> y <= 0x8F) ->
  0x80 <= z <= 0xBF -> 0x80 <= w <= 0xBF -> exists c, encoding [x; y; z; w] c.
Proof.
  intros Lx Ly Ln Lm Lz Lw. pose proof (four_bytes (x - 0xF0) (y - 0x80) (z - 0x80) (w - 0x80)) as H.
  replace (0xF0 + (x - 0xF0)) with x in H by lia. replace (0x80 + (y - 0x80)) with y in H by lia.
  replace (0x80 + (z - 0x80)) with z in H by lia. replace (0x80 + (w - 0x80)) with w in H by lia. eexists. apply H; lia.
Qed.

Lemma validate_first (s : list Z) : Forall is_byte s -> s <> [] -> validateString s = true ->
  exists a c rest, s = a ++ rest /\ encoding a c /\ validateString rest = true.
Proof.
  intros B N V. destruct s as [|x s]; [now destruct N|]. inversion B as [|? ? Bx _]; subst. unfold is_byte in Bx. cbn [validateString] in V.
  assert (E : (exists y r, s = y :: r /\ validateString r = true /\ exists c, encoding [x; y] c) \/
              (exists y z r, s = y :: z :: r /\ validateString r = true /\ exists c, encoding [x; y; z] c) \/
              (exists y z w r, s = y :: z :: w :: r /\ validateString r = true /\ exists c, encoding [x; y; z; w] c) \/
              (validateString s = true /\ exists c, encoding [x] c)).
  { repeat match type of V with
    | (if ?b then _ else _) = true => destruct b eqn:?
    | match ?l with _ => _ end = true => destruct l as [|? ?]
    end; try discriminate;
    repeat match goal with
    | H : _ && _ = true |- _ => apply andb_true_iff in H as [? ?]
    | H : within_bytes _ _ _ = true |- _ => apply within_bytes_spec in H
    end; try lia.
    all: first [ right; right; right; split; [assumption|exists x; constructor; lia]
               | left; do 2 eexists; split; [reflexivity|]; split; [assumption|apply encoding_two; lia]
               | right; left; do 3 eexists; split; [reflexivity|]; split; [assumption|apply encoding_three; lia]
               | right; right; left; do 4 eexists; split; [reflexivity|]; split; [assumption|apply encoding_four; lia] ]. }
  destruct E as [(y & r & -> & V' & c & E)|[(y & z & r & -> & V' & c & E)|[(y & z & w & r & -> & V' & c & E)|(V' & c & E)]]].
  - exists [x; y], c, r. auto.
  - exists [x; y; z], c, r. auto.
  - exists [x; y; z; w], c, r. auto.
  - exists [x], c, s. auto.
Qed.

Lemma validate_codepoints (n : nat) : forall s out, (length s <= n)%nat -> Forall is_byte s -> validateString s = true ->
  exists cs, Forall accepted cs /\ encode_codepoints cs out = Some (out ++ s).
Proof.
  induction n as [|n IH]; intros s out L B V.
  - destruct s; [|cbn in L; lia]. exists []. split; [constructor|]. cbn. now rewrite app_nil_r.
  - destruct s as [|x s]; [exists []; split; [constructor|]; cbn; now rewrite app_nil_r|].
    destruct (validate_first (x :: s) B ltac:(discriminate) V) as (a & c & rest & E & Ec & V'). rewrite E in *.
    destruct (encoding_spec a c out Ec) as (W & A & N). apply Forall_app in B as [_ B].
    destruct (IH rest (out ++ a)) as (cs & Ac & Wc); [destruct a; [now destruct N|]; rewrite length_app in L; cbn in L; lia|exact B|exact V'|].
    exists (c :: cs). split; [now constructor|]. cbn [encode_codepoints]. rewrite W. cbn [then_]. now rewrite Wc, app_assoc.
Qed.

(** C38. Names are checked to be UTF-8 (Inline/UTF8.h): [validateString] accepts exactly the strings that [encodeCodepoint] makes
    of code points up to U+10FFFF, in their shortest form, except those from U+D000 to U+DFFF; of these only the
    surrogates, from U+D800 on, are not characters. *)
Theorem utf8_exact (s : list Z) : Forall is_byte s ->
  (validateString s = true <-> exists cs, Forall accepted cs /\ encode_codepoints cs [] = Some s).
Proof.
  intros B. split; [intros V; exact (validate_codepoints (length s) s [] (le_n _) B V)|].
  assert (G : forall cs out s', Forall accepted cs -> encode_codepoints cs out = Some s' -> exists t, s' = out ++ t /\ validateString t = true).
  { induction cs as [|c cs IH]; intros out s' A E; cbn [encode_codepoints] in E.
    - injection E as <-. exists []. now rewrite app_nil_r.
    - inversion A as [|? ? Ac As]; subst. destruct (accepted_encoding c Ac) as (a & Ea). rewrite (proj1 (encoding_spec a c out Ea)) in E.
      cbn [then_] in E. destruct (IH _ _ As E) as (t & -> & V). exists (a ++ t). rewrite app_assoc. split; [reflexivity|].
      now rewrite (validate_encoding a t c Ea). }
  intros (cs & A & E). destruct (G cs [] s A E) as (t & -> & V). exact V.
Qed.

Lemma utf8_exact_witness : let s := [0x61; 0xc3; 0xa9; 0xe2; 0x82; 0xac; 0xf0; 0x9f; 0x98; 0x80] in
  validateString s = true /\ encode_codepoints [0x61; 0xe9; 0x20ac; 0x1f600] [] = Some s.
Proof.
  intros s. assert (E : encode_codepoints [0x61; 0xe9; 0x20ac; 0x1f600] [] = Some s) by reflexivity. split; [|exact E].
  apply (utf8_exact s); [unfold s; repeat constructor; unfold is_byte; lia|]. exists [0x61; 0xe9; 0x20ac; 0x1f600].
  split; [|exact E]. repeat constructor; unfold accepted; lia.
Defined.
