(* ===== verification/Binary.v ===== *)
(** The binary format of modules: WASMSerialization.cpp, with Inline/UTF8.h and the checks of
    IR/Validate.cpp on the definitions of a module.  Every exception of the reader is answered in
    the same way, so that a reader returns a module or nothing. *)
From Stdlib Require Import ZArith Bool Lia String Ascii List.
From S2P Require Import Prelude Exceptions Memory Opcodes Ops OpsProofs Injection Validation.
From S2P Require Import Serialization Utf8 IR.
Import ListNotations.
Local Open Scope Z_scope.

(** ** Names *)
Definition bytes_of_string (s : string) : list Z := map (fun c => Z.of_nat (nat_of_ascii c)) (list_ascii_of_string s).
Definition string_of_bytes (l : list Z) : string := string_of_list_ascii (map (fun b => ascii_of_nat (Z.to_nat b)) l).

Definition serialize_string : codec string := fields string_of_bytes bytes_of_string serializeString.
(** [throwIfNotValidUTF8] *)
Definition valid_name (s : string) : bool := validateString (bytes_of_string s).

(** ** Types *)
Definition serialize_ValueType : codec Z := fields (fun e => u8 (- e)) (fun type => i8 (- i8 type)) serializeVarInt7.

Definition serialize_ResultType : codec Z :=
  Codec (fun r => if r =? rt_none then write serializeVarUInt1 0
                  else append (write serializeVarUInt1 1) (write serializeVarInt7 (i8 (- i8 r))))
        (fun l => match read serializeVarUInt1 l with
                  | Some (arity, l) =>
                      if arity =? 0 then Some (rt_none, l)
                      else match read serializeVarInt7 l with Some (e, l) => Some (u8 (- e), l) | None => None end
                  | None => None
                  end).

(** [SizeConstraints], a pair *)
Definition serialize_SizeConstraints (hasMax : bool) : codec (Z * Z) :=
  if hasMax then sequence serializeVarUInt32 (fun _ => serializeVarUInt32)
  else fields (fun min => (min, UINT64_MAX)) fst serializeVarUInt32.

Definition flags_of (size : Z * Z) : Z := if snd size =? UINT64_MAX then 0 else 1.
Definition serialize_MemoryType : codec (Z * Z) :=
  fields snd (fun size => (flags_of size, size))
    (sequence serializeVarUInt32 (fun flags => serialize_SizeConstraints (z2b (Z.land flags 1)))).

Definition serialize_TableType : codec TableType :=
  fields (fun '(e, s) => Table e s) (fun t => (elementType t, table_size t))
    (sequence (serializeNativeValue 1) (fun _ => serialize_MemoryType)).

(** [GlobalType]: mutability and type *)
Definition serialize_GlobalType : codec (bool * Z) :=
  fields (fun '(t, m) => (negb (m =? 0), t)) (fun '(b, t) => (t, b2z b))
    (sequence serialize_ValueType (fun _ => serializeVarUInt1)).

Definition kind_code (k : ObjectKind) : Z := match k with function => 0 | table => 1 | memory => 2 | global => 3 end.
Definition kind_of (c : Z) : option ObjectKind :=
  if c =? 0 then Some function else if c =? 1 then Some table else if c =? 2 then Some memory
  else if c =? 3 then Some global else None.
Definition serialize_ObjectKind : codec ObjectKind :=
  Codec (fun k => write (serializeNativeValue 1) (kind_code k))
        (fun l => match read (serializeNativeValue 1) l with
                  | Some (c, l) => match kind_of c with Some k => Some (k, l) | None => None end
                  | None => None
                  end).

Definition serialize_Export : codec Export :=
  fields (fun '(n, (k, i)) => MkExport n k i) (fun e => (export_name e, (kind e, index e)))
    (sequence (throw_unless valid_name serialize_string) (fun _ =>
     sequence serialize_ObjectKind (fun _ => serializeVarUInt32))).

(** ** Initializers *)
Definition end_opcode : Z := 0x0b.
Definition initializer_type (e : InitializerExpression) : Z :=
  match e with
  | i32_const _ => 0x41 | i64_const _ => 0x42 | f32_const _ => 0x43 | f64_const _ => 0x44 | get_global _ => 0x23
  | error => 0xff
  end.
Definition initializer_value (e : InitializerExpression) : Z :=
  match e with i32_const v | i64_const v | f32_const v | f64_const v | get_global v => v | error => 0 end.
Definition serialize_immediate (type : Z) : codec InitializerExpression :=
  if type =? 0x41 then fields i32_const initializer_value serializeVarInt32
  else if type =? 0x42 then fields i64_const initializer_value serializeVarInt64
  else if type =? 0x43 then fields f32_const initializer_value (serializeNativeValue 4)
  else if type =? 0x44 then fields f64_const initializer_value (serializeNativeValue 8)
  else if type =? 0x23 then fields get_global initializer_value serializeVarUInt32
  else Codec (fun _ => None) (fun _ => None).
Definition serialize_InitializerExpression : codec InitializerExpression :=
  fields (fun '(_, (e, _)) => e) (fun e => (initializer_type e, (e, tt)))
    (sequence (serializeNativeValue 1) (fun type =>
     sequence (serialize_immediate type) (fun _ => serializeConstant 1 end_opcode))).

Definition serialize_GlobalDef : codec GlobalDef := sequence serialize_GlobalType (fun _ => serialize_InitializerExpression).

Definition serialize_DataSegment : codec DataSegment :=
  fields (fun '(m, (o, d)) => Segment m o d) (fun s => (memoryIndex s, (baseOffset s, data s)))
    (sequence serializeVarUInt32 (fun _ =>
     sequence serialize_InitializerExpression (fun _ => serializeArray (serializeNativeValue 1)))).

Definition serialize_TableSegment : codec TableSegment :=
  fields (fun '(t, (o, i)) => MkTableSegment t o i) (fun s => (tableIndex s, (table_offset s, indices s)))
    (sequence serializeVarUInt32 (fun _ =>
     sequence serialize_InitializerExpression (fun _ => serializeArray serializeVarUInt32))).

Definition serialize_FunctionType : codec FunctionType :=
  fields (fun '(_, (ps, r)) => Function r ps) (fun t => (tt, (parameters t, ret t)))
    (sequence (serializeConstant 1 0x60) (fun _ =>
     sequence (serializeArray serialize_ValueType) (fun _ => serialize_ResultType))).

(** ** Operators *)
Definition maxSingleByteOpcode : Z := 0xcf.
Definition write_opcode (opcode : Z) : list Z :=
  if opcode <=? maxSingleByteOpcode then to_bytes 1 opcode
  else to_bytes 1 (Z.shiftr opcode 8) ++ to_bytes 1 opcode.
Definition read_opcode (l : list Z) : option (Z * list Z) :=
  match read (serializeNativeValue 1) l with
  | Some (opcode, l) =>
      if maxSingleByteOpcode <? opcode then
        match read (serializeNativeValue 1) l with
        | Some (low, l) => Some (Z.shiftl opcode 8 + low, l)
        | None => None
        end
      else Some (opcode, l)
  | None => None
  end.

Definition field_value (f : field) : Z := match f with Block v | Ops.U32 v | Ops.U64 v => v | _ => 0 end.
(** [ControlStructureImm]; -64 stands for no result. *)
Definition serialize_ControlStructureImm : codec field :=
  fields (fun e => Block (if e =? -64 then rt_none else u8 (- e)))
         (fun f => if field_value f =? rt_none then -64 else i8 (- i8 (field_value f))) serializeVarInt7.

(** [serialize(stream, imm, functionDef)] for the operators with immediates of their own; a branch table is apart. *)
Definition serialize_imm (opcode : Z) : codec field :=
  let among := existsb (Z.eqb opcode) in
  if among [block_code; loop_code; if__code] then serialize_ControlStructureImm
  else if opcode =? call_indirect_code then
    fields (fun '(v, _) => Ops.U32 v) (fun f => (field_value f, tt))
      (sequence serializeVarUInt32 (fun _ => serializeConstant 1 0))
  else if opcode =? i32_const_code then fields (fun v => Ops.U32 (u32 v)) (fun f => i32 (field_value f)) serializeVarInt32
  else if opcode =? i64_const_code then fields (fun v => Ops.U64 (u64 v)) (fun f => i64 (field_value f)) serializeVarInt64
  else if opcode =? f32_const_code then fields Ops.U32 field_value (serializeNativeValue 4)
  else if opcode =? f64_const_code then fields Ops.U64 field_value (serializeNativeValue 8)
  else if among [grow_memory_code; current_memory_code] then fields (fun _ => Void) (fun _ => tt) (serializeConstant 1 0)
  else match field_type_of opcode with
       | Some voidtype => Codec (fun _ => Some []) (fun l => Some (Void, l))
       | Some memarg =>
           fields (fun '(a, o) => Memarg a o) (fun f => match f with Memarg a o => (u8 a, o) | _ => (0, 0) end)
             (sequence serializeVarUInt7 (fun _ => serializeVarUInt32))
       | Some uint32_field => fields Ops.U32 field_value serializeVarUInt32
       | _ => Codec (fun _ => None) (fun _ => None)
       end.

(** [BranchTableImm]: the table, which is kept in the function, and the default target *)
Definition serialize_branch_table : codec (list Z * Z) :=
  sequence (serializeArray serializeVarUInt32) (fun _ => serializeVarUInt32).

Definition write_op (branchTables : list (list Z)) (op : instr) : option (list Z) :=
  match field_type_of (get_code op), op_field op with
  | Some branchtabletype, Branchtable target index =>
      match nth_error branchTables (Z.to_nat index) with
      | Some t => append (Some (write_opcode (get_code op))) (write serialize_branch_table (t, target))
      | None => None
      end
  | Some branchtabletype, _ => None
  | Some _, f => append (Some (write_opcode (get_code op))) (write (serialize_imm (get_code op)) f)
  | None, _ => None
  end.

(** One operator of a body, and the branch tables with its own *)
Definition read_op (branchTables : list (list Z)) (l : list Z) : option (instr * list (list Z) * list Z) :=
  match read_opcode l with
  | None => None
  | Some (opcode, l) =>
      match field_type_of opcode with
      | None => None
      | Some branchtabletype =>
          match read serialize_branch_table l with
          | Some ((t, target), l) =>
              Some (Instr opcode (Branchtable target (Z.of_nat (length branchTables))), branchTables ++ [t], l)
          | None => None
          end
      | Some _ =>
          match read (serialize_imm opcode) l with
          | Some (f, l) => Some (Instr opcode f, branchTables, l)
          | None => None
          end
      end
  end.

(** ** Function bodies *)

(** [LocalSet]: a number and a type; the runs of the locals of one type *)
Definition serialize_LocalSet : codec (Z * Z) := sequence serializeVarUInt32 (fun _ => serialize_ValueType).
Fixpoint local_sets (num type : Z) (locals : list Z) : list (Z * Z) :=
  let pending := if type =? vt_any then [] else [(num, type)] in
  match locals with
  | [] => pending
  | localType :: locals =>
      if type =? localType then local_sets (num + 1) type locals else pending ++ local_sets 1 localType locals
  end.

(** and back: their number in bytes is limited. *)
Fixpoint read_local_sets (n : nat) (locals_accum : Z) (locals : list Z) (l : list Z) : option (list Z * list Z) :=
  match n with
  | O => Some (locals, l)
  | S n =>
      match read serialize_LocalSet l with
      | Some ((num, type), l) =>
          let locals_accum := u64 (locals_accum + num * 4) in
          if maximum_func_local_bytes <? locals_accum then None
          else read_local_sets n locals_accum (locals ++ repeat type (Z.to_nat num)) l
      | None => None
      end
  end.

Definition maximum_code_size : Z := 20 * 1024 * 1024.

(** [while(irDecoderStream)] *)
Definition write_code (branchTables : list (list Z)) (code : list Z) : option (list Z) :=
  match decode_while (fun op written => match write_op branchTables op with
                                        | Some bytes => Value (written ++ bytes)
                                        | None => Throw wasm_serialization_exception
                                        end) code [] with
  | Value bytes => Some bytes
  | Throw _ => None
  end.

Definition write_body (d : FunctionDefinition) : option (list Z) :=
  let sets := local_sets 0 vt_any (nonParameterLocalTypes (def d)) in
  append (write serializeVarUInt32 (Z.of_nat (length sets)))
    (append (write_all serialize_LocalSet sets) (write_code (branchTables d) (code (def d)))).

Section Body.
Variable m : Module.

(** [while(bodyStream.capacity())]: each operator is read, validated and encoded; a round takes a byte or more. *)
Fixpoint read_ops (fuel : nat) (functionDef : FunctionDef) (functionType : FunctionType) (branchTables : list (list Z))
    (c : context) (l : list Z) : option (list instr * list (list Z) * context) :=
  match l with
  | [] => Some ([], branchTables, c)
  | _ =>
      match fuel with
      | O => None
      | S fuel =>
          match read_op branchTables l with
          | Some (op, branchTables, l) =>
              match validate_op m functionDef functionType branchTables op c with
              | Some c =>
                  match read_ops fuel functionDef functionType branchTables c l with
                  | Some (ops, branchTables, c) => Some (op :: ops, branchTables, c)
                  | None => None
                  end
              | None => None
              end
          | None => None
          end
      end
  end.

(** The body of a function of the type with index [type], in a stream of its own *)
Definition read_body (type : Z) (body : list Z) : option FunctionDefinition :=
  match read serializeVarUInt32 body with
  | Some (numLocalSets, l) =>
      if maximum_code_size <=? size body then None
      else if 1024 <=? numLocalSets then None
      else
        match read_local_sets (Z.to_nat numLocalSets) 0 [] l with
        | Some (locals, l) =>
            let functionDef := Def type locals [] in
            match function_type m functionDef with
            | Some functionType =>
                match read_ops (length l) functionDef functionType [] (start_context functionType) l with
                | Some (ops, branchTables, c) =>
                    if finish c then Some (Definition_ (Def type locals (encode_all ops)) branchTables) else None
                | None => None
                end
            | None => None
            end
        | None => None
        end
  | None => None
  end.

(** [serializeFunctionBody], of the function with index [type] *)
Definition serializeFunctionBody (type : Z) : codec FunctionDefinition :=
  Codec (fun d => match write_body d with
                  | Some body => append (write serializeVarUInt32 (size body)) (Some body)
                  | None => None
                  end)
        (fun l => match read serializeVarUInt32 l with
                  | Some (numBodyBytes, l) =>
                      match advance numBodyBytes l with
                      | Some (body, l) => match read_body type body with Some d => Some (d, l) | None => None end
                      | None => None
                      end
                  | None => None
                  end).

(** The loop of [serializeCodeSection], for the functions declared *)
Fixpoint read_bodies (types : list Z) (l : list Z) : option (list FunctionDefinition * list Z) :=
  match types with
  | [] => Some ([], l)
  | type :: types =>
      match read (serializeFunctionBody type) l with
      | Some (d, l) => match read_bodies types l with Some (ds, l) => Some (d :: ds, l) | None => None end
      | None => None
      end
  end.
Fixpoint write_bodies (ds : list FunctionDefinition) : option (list Z) :=
  match ds with
  | [] => Some []
  | d :: ds => append (write (serializeFunctionBody (type_index (def d))) d) (write_bodies ds)
  end.
Definition serializeCodeSection : codec (list FunctionDefinition) :=
  let types := map (fun d => type_index (def d)) (space_defs (m_functions m)) in
  Codec (fun ds => append (write serializeVarUInt32 (size ds)) (write_bodies ds))
        (fun l => match read serializeVarUInt32 l with
                  | Some (numFunctionBodies, l) => if negb (numFunctionBodies =? size types) then None else read_bodies types l
                  | None => None
                  end).
End Body.

(** ** Imports *)
Record import_lists : Type := Imports {
  function_imports : list (ImportOf Z);
  table_imports : list (ImportOf TableType);
  memory_imports : list (ImportOf (Z * Z));
  global_imports : list (ImportOf (bool * Z))
}.

Definition write_import {T} (kind : ObjectKind) (c : codec T) (i : ImportOf T) : option (list Z) :=
  append (write serialize_string (of_module i)) (append (write serialize_string (of_export i))
    (append (write serialize_ObjectKind kind) (write c (of_type i)))).
Fixpoint write_imports {T} (kind : ObjectKind) (c : codec T) (l : list (ImportOf T)) : option (list Z) :=
  match l with
  | [] => Some []
  | i :: l => append (write_import kind c i) (write_imports kind c l)
  end.

(** The names of an import, which are checked when they are read *)
Definition serialize_names : codec (string * string) :=
  check_read (fun '(moduleName, exportName) => valid_name moduleName && valid_name exportName)
    (sequence serialize_string (fun _ => serialize_string)).
Definition maximum_section_elements : Z := 1024.

(** One import, added to the list of its kind.  The limit is in each case that of the functions. *)
Definition read_import (types : list FunctionType) (found : import_lists) (l : list Z) : option (import_lists * list Z) :=
  let '(Imports fs ts ms gs) := found in
  let checked (found : import_lists) (l : list Z) :=
    if maximum_section_elements <=? size (function_imports found) then None else Some (found, l) in
  match read serialize_names l with
  | None => None
  | Some ((moduleName, exportName), l) =>
      match read serialize_ObjectKind l with
      | None => None
      | Some (function, l) =>
          match read serializeVarUInt32 l with
          | Some (t, l) =>
              if size types <=? t then None else checked (Imports (fs ++ [MkImport t moduleName exportName]) ts ms gs) l
          | None => None
          end
      | Some (table, l) =>
          match read serialize_TableType l with
          | Some (t, l) => checked (Imports fs (ts ++ [MkImport t moduleName exportName]) ms gs) l
          | None => None
          end
      | Some (memory, l) =>
          match read serialize_MemoryType l with
          | Some (t, l) => checked (Imports fs ts (ms ++ [MkImport t moduleName exportName]) gs) l
          | None => None
          end
      | Some (global, l) =>
          match read serialize_GlobalType l with
          | Some (t, l) => checked (Imports fs ts ms (gs ++ [MkImport t moduleName exportName])) l
          | None => None
          end
      end
  end.
Fixpoint read_imports (types : list FunctionType) (n : nat) (found : import_lists) (l : list Z) : option (import_lists * list Z) :=
  match n with
  | O => Some (found, l)
  | S n => match read_import types found l with Some (found, l) => read_imports types n found l | None => None end
  end.

Definition serializeImportSection (m : Module) : codec import_lists :=
  Codec (fun '(Imports fs ts ms gs) =>
           append (write serializeVarUInt32 (size fs + size ts + size ms + size gs))
             (append (write_imports function serializeVarUInt32 fs) (append (write_imports table serialize_TableType ts)
               (append (write_imports memory serialize_MemoryType ms) (write_imports global serialize_GlobalType gs)))))
        (fun l => match read serializeVarUInt32 l with
                  | Some (n, l) => read_imports (m_types m) (Z.to_nat n) (Imports [] [] [] []) l
                  | None => None
                  end).

(** ** Sections *)

(** [serializeFunctionSection]: the types of the functions *)
Definition serializeFunctionSection (m : Module) : codec (list Z) :=
  Codec (fun ts => append (write serializeVarUInt32 (size ts)) (write_all serializeVarUInt32 ts))
        (fun l => match read serializeVarUInt32 l with
                  | Some (numFunctions, l) =>
                      if maximum_section_elements <=? numFunctions then None
                      else read_all (check_read (fun t => negb (size (m_types m) <=? t)) serializeVarUInt32) (Z.to_nat numFunctions) l
                  | None => None
                  end).

(** A section: its number, what it holds of a module, how that is written in a module and read in the
    module that is there so far, and when it is written. *)
Record section : Type := Section_ {
  section_type : Z;
  content : Type;
  body : Module -> codec content;
  content_of : Module -> content;
  with_content : content -> Module -> Module;
  present : Module -> bool
}.

Definition nonempty {A} (l : list A) : bool := match l with [] => false | _ => true end.
Definition undefined (t : Z) : FunctionDefinition := Definition_ (Def t [] []) [].

Definition serializeTypeSection : section :=
  Section_ 1 (list FunctionType) (fun _ => serializeArray serialize_FunctionType) m_types
    (fun ts m => IRModule ts (m_functions m) (m_tables m) (m_memories m) (m_globals m) (m_exports m) (m_dataSegments m) (m_tableSegments m) (m_start m))
    (fun m => nonempty (m_types m)).
Definition import_section : section :=
  Section_ 2 import_lists serializeImportSection
    (fun m => Imports (space_imports (m_functions m)) (space_imports (m_tables m)) (space_imports (m_memories m)) (space_imports (m_globals m)))
    (fun '(Imports fs ts ms gs) m =>
       IRModule (m_types m) (Space fs (space_defs (m_functions m))) (Space ts (space_defs (m_tables m)))
         (Space ms (space_defs (m_memories m))) (Space gs (space_defs (m_globals m))) (m_exports m) (m_dataSegments m) (m_tableSegments m) (m_start m))
    (fun m => nonempty (space_imports (m_functions m)) || nonempty (space_imports (m_tables m))
              || nonempty (space_imports (m_memories m)) || nonempty (space_imports (m_globals m))).
Definition function_section : section :=
  Section_ 3 (list Z) serializeFunctionSection (fun m => map (fun d => type_index (def d)) (space_defs (m_functions m)))
    (fun ts m => IRModule (m_types m) (Space (space_imports (m_functions m)) (map undefined ts)) (m_tables m) (m_memories m)
                   (m_globals m) (m_exports m) (m_dataSegments m) (m_tableSegments m) (m_start m))
    (fun m => nonempty (space_defs (m_functions m))).
Definition serializeTableSection : section :=
  Section_ 4 (list TableType) (fun _ => serializeArray serialize_TableType) (fun m => space_defs (m_tables m))
    (fun ts m => IRModule (m_types m) (m_functions m) (Space (space_imports (m_tables m)) ts) (m_memories m)
                   (m_globals m) (m_exports m) (m_dataSegments m) (m_tableSegments m) (m_start m))
    (fun m => nonempty (space_defs (m_tables m))).
Definition serializeMemorySection : section :=
  Section_ 5 (list (Z * Z)) (fun _ => serializeArray serialize_MemoryType) (fun m => space_defs (m_memories m))
    (fun ms m => IRModule (m_types m) (m_functions m) (m_tables m) (Space (space_imports (m_memories m)) ms)
                   (m_globals m) (m_exports m) (m_dataSegments m) (m_tableSegments m) (m_start m))
    (fun m => nonempty (space_defs (m_memories m))).
Definition serializeGlobalSection : section :=
  Section_ 6 (list GlobalDef) (fun _ => serializeArray serialize_GlobalDef) (fun m => space_defs (m_globals m))
    (fun gs m => IRModule (m_types m) (m_functions m) (m_tables m) (m_memories m) (Space (space_imports (m_globals m)) gs)
                   (m_exports m) (m_dataSegments m) (m_tableSegments m) (m_start m))
    (fun m => nonempty (space_defs (m_globals m))).
Definition serializeExportSection : section :=
  Section_ 7 (list Export) (fun _ => serializeArray serialize_Export) m_exports
    (fun es m => IRModule (m_types m) (m_functions m) (m_tables m) (m_memories m) (m_globals m) es (m_dataSegments m) (m_tableSegments m) (m_start m))
    (fun m => nonempty (m_exports m)).
Definition serializeStartSection : section :=
  Section_ 8 Z (fun _ => serializeVarUInt32) m_start
    (fun i m => IRModule (m_types m) (m_functions m) (m_tables m) (m_memories m) (m_globals m) (m_exports m) (m_dataSegments m) (m_tableSegments m) i)
    (fun m => negb (m_start m =? UINTPTR_MAX)).
Definition serializeElementSection : section :=
  Section_ 9 (list TableSegment) (fun _ => serializeArray serialize_TableSegment) m_tableSegments
    (fun ss m => IRModule (m_types m) (m_functions m) (m_tables m) (m_memories m) (m_globals m) (m_exports m) (m_dataSegments m) ss (m_start m))
    (fun m => nonempty (m_tableSegments m)).
Definition code_section : section :=
  Section_ 10 (list FunctionDefinition) serializeCodeSection (fun m => space_defs (m_functions m))
    (fun ds m => IRModule (m_types m) (Space (space_imports (m_functions m)) ds) (m_tables m) (m_memories m)
                   (m_globals m) (m_exports m) (m_dataSegments m) (m_tableSegments m) (m_start m))
    (fun m => nonempty (space_defs (m_functions m))).
Definition serializeDataSection : section :=
  Section_ 11 (list DataSegment) (fun _ => serializeArray serialize_DataSegment) m_dataSegments
    (fun ss m => IRModule (m_types m) (m_functions m) (m_tables m) (m_memories m) (m_globals m) (m_exports m) ss (m_tableSegments m) (m_start m))
    (fun m => nonempty (m_dataSegments m)).

Definition sections : list section :=
  [ serializeTypeSection; import_section; function_section; serializeTableSection; serializeMemorySection; serializeGlobalSection;
    serializeExportSection; serializeStartSection; serializeElementSection; code_section; serializeDataSection ].

(** [serializeSection]: the length and the bytes; when reading there may be no more. *)
Definition serializeSection {A} (c : codec A) : codec A :=
  Codec (fun a => match write c a with
                  | Some bytes => append (write serializeVarUInt32 (size bytes)) (Some bytes)
                  | None => None
                  end)
        (fun l => match read serializeVarUInt32 l with
                  | Some (numSectionBytes, l) =>
                      match advance numSectionBytes l with
                      | Some (bytes, l) => match read c bytes with Some (a, []) => Some (a, l) | _ => None end
                      | None => None
                      end
                  | None => None
                  end).

Definition write_section (s : section) (m : Module) : option (list Z) :=
  if present s m then append (Some (to_bytes 1 (section_type s))) (write (serializeSection (body s m)) (content_of s m))
  else Some [].
Fixpoint write_sections (ss : list section) (m : Module) : option (list Z) :=
  match ss with
  | [] => Some []
  | s :: ss => append (write_section s m) (write_sections ss m)
  end.

Definition read_section (s : section) (m : Module) (l : list Z) : option (Module * list Z) :=
  match read (serializeSection (body s m)) l with Some (c, l) => Some (with_content s c m, l) | None => None end.

(** A user section, whose data is less than a page *)
Definition read_user_section (l : list Z) : option (UserSection * list Z) :=
  match read serializeVarUInt32 l with
  | Some (numSectionBytes, l) =>
      match advance numSectionBytes l with
      | Some (bytes, l) =>
          match read serialize_string bytes with
          | Some (name, data) =>
              if negb (valid_name name) then None
              else if size data <? 65536 then Some (User name data, l) else None
          | None => None
          end
      | None => None
      end
  | None => None
  end.

(** ** Modules *)
Definition magicNumber : Z := 0x6d736100.
Definition currentVersion : Z := 1.
Definition no_module : Module := IRModule [] (Space [] []) (Space [] []) (Space [] []) (Space [] []) [] [] [] UINTPTR_MAX.

(** [while(moduleStream.capacity())]: the numbers of the sections rise. *)
Fixpoint read_sections (fuel : nat) (lastKnownSectionType : Z) (m : Module) (userSections : list UserSection) (l : list Z)
    : option (Module * list UserSection) :=
  match l, fuel with
  | [], _ => Some (m, userSections)
  | _, O => None
  | sectionType :: l, S fuel =>
      if sectionType =? 0 then
        match read_user_section l with
        | Some (u, l) => read_sections fuel lastKnownSectionType m (userSections ++ [u]) l
        | None => None
        end
      else if negb (lastKnownSectionType <? sectionType) then None
      else match find (fun s => section_type s =? sectionType) sections with
           | Some s =>
               match read_section s m l with
               | Some (m, l) => read_sections fuel sectionType m userSections l
               | None => None
               end
           | None => None
           end
  end.

Definition header : codec (unit * unit) := sequence (serializeConstant 4 magicNumber) (fun _ => serializeConstant 4 currentVersion).
Definition serializeModule_read (l : list Z) : option (Module * list UserSection) :=
  match read header l with
  | Some (_, l) => read_sections (length l) 0 no_module [] l
  | None => None
  end.

(** A user section cannot be written: its data is resized to the capacity of the output, SIZE_MAX. *)
Definition serializeModule_write (m : Module) (userSections : list UserSection) : option (list Z) :=
  match userSections with
  | [] => append (write header (tt, tt)) (write_sections sections m)
  | _ => None
  end.

(** [WASM::serialize] *)
Definition parse_module (l : list Z) : option (Module * list UserSection) :=
  match serializeModule_read l with
  | Some (m, us) => if validateDefinitions m then Some (m, us) else None
  | None => None
  end.
