(* ===== verification/BinaryProofs.v ===== *)
(** Types, names, initializers and operators of the binary format are written and read again;
    whatever is read was written like this, perhaps in more bytes. *)
From Stdlib Require Import ZArith Bool Lia String Ascii List.
From S2P Require Import Prelude Exceptions Memory Opcodes Ops OpsProofs Injection Validation.
From S2P Require Import Serialization SerializationProofs Utf8 IR Binary.
Import ListNotations.
Local Open Scope Z_scope.

(** ** Values *)
Lemma var32_read (l rest : list Z) (v : Z) : read serializeVarUInt32 l = Some (v, rest) -> 0 <= v < 2 ^ 32.
Proof. intros H. apply varint_range in H. lia. Qed.

Lemma var7s_read (l rest : list Z) (v : Z) : read serializeVarInt7 l = Some (v, rest) -> -64 <= v <= 63.
Proof. apply varint_range. Qed.

Lemma var7s_canonical : canonical serializeVarInt7.
Proof. apply varint_canonical. split; [lia|]. split; reflexivity || lia. Qed.

Lemma var7_canonical : canonical serializeVarUInt7.
Proof. apply varint_canonical. split; [lia|]. cbn. lia. Qed.

Lemma var1_canonical : canonical serializeVarUInt1.
Proof. apply varint_canonical. split; [lia|]. cbn. lia. Qed.

Lemma var32s_canonical : canonical serializeVarInt32.
Proof. apply varint_canonical. split; [lia|]. cbn. lia. Qed.

Lemma var64s_canonical : canonical serializeVarInt64.
Proof. apply varint_canonical. split; [lia|]. cbn. lia. Qed.

(** A value that is read survives. *)
Lemma read_survives {A} (c : codec A) (l rest : list Z) (a : A) : canonical c -> Forall is_byte l ->
  read c l = Some (a, rest) -> exists pre bs, l = pre ++ rest /\ survives c a bs /\ (length bs <= length pre)%nat /\ Forall is_byte rest.
Proof.
  intros Hc Hl H. destruct (Hc l a rest Hl H) as (pre & bs & -> & S & L). exists pre, bs.
  repeat split; try apply S; try exact L. exact (rest_bytes _ _ Hl).
Qed.

(** ** Names *)
Lemma bytes_of_string_of (l : list Z) : Forall is_byte l -> bytes_of_string (string_of_bytes l) = l.
Proof.
  intros H. unfold bytes_of_string, string_of_bytes. rewrite list_ascii_of_string_of_list_ascii, map_map.
  rewrite <- (map_id l) at 2. apply map_ext_in. intros b Hb. rewrite Forall_forall in H. specialize (H b Hb). unfold is_byte in H.
  rewrite nat_ascii_embedding by (apply Nat.ltb_lt; apply Nat.ltb_lt; lia). lia.
Qed.

Lemma string_bytes (s : string) : Forall is_byte (bytes_of_string s).
Proof.
  unfold bytes_of_string. apply Forall_forall. intros b Hb. apply in_map_iff in Hb as (c & <- & _).
  pose proof (nat_ascii_bounded c). unfold is_byte. lia.
Qed.

Lemma string_of_bytes_of (s : string) : string_of_bytes (bytes_of_string s) = s.
Proof.
  unfold bytes_of_string, string_of_bytes. rewrite map_map. rewrite <- (string_of_list_ascii_of_string s) at 2. f_equal.
  rewrite <- (map_id (list_ascii_of_string s)) at 2. apply map_ext. intros c. rewrite Nat2Z.id. apply ascii_nat_embedding.
Qed.

Lemma name_canonical : canonical serialize_string.
Proof.
  apply canonical_fields_read; [|exact string_canonical]. intros l a rest Hl H. apply bytes_of_string_of.
  destruct (string_canonical l a rest Hl H) as (_ & bs & _ & (W & B & _) & _). cbn [write serializeString] in W.
  destruct (write serializeVarUInt32 (Z.of_nat (List.length a))) as [n|]; [|discriminate]. cbn in W. injection W as <-. now apply Forall_app in B.
Qed.

(** ** Types *)
Lemma negated_type (e : Z) : -64 <= e <= 63 -> i8 (- i8 (u8 (- e))) = e.
Proof.
  intros H. assert (B : forallb (fun k => i8 (- i8 (u8 (- (Z.of_nat k - 64)))) =? Z.of_nat k - 64) (seq 0 128) = true)
    by (vm_compute; reflexivity).
  rewrite forallb_forall in B. specialize (B (Z.to_nat (e + 64))). rewrite Z.eqb_eq in B.
  rewrite Z2Nat.id in B by lia. replace (e + 64 - 64) with e in B by lia. apply B. apply in_seq. lia.
Qed.

Lemma value_type_canonical : canonical serialize_ValueType.
Proof.
  apply canonical_fields_read; [|exact var7s_canonical]. intros l a rest _ H. apply negated_type. now apply var7s_read in H.
Qed.

Lemma arity_survives (b : Z) : 0 <= b <= 1 -> survives serializeVarUInt1 b [b].
Proof.
  intros H. pose proof (varint_survives false 64 1 0 1 b) as S.
  assert (b = 0 \/ b = 1) as [->| ->] by lia; apply S; repeat split; cbn; lia.
Qed.

Lemma result_type_canonical : canonical serialize_ResultType.
Proof.
  intros l r rest Hl H. cbn [read serialize_ResultType] in H.
  destruct (read serializeVarUInt1 l) as [[arity l1]|] eqn:E; [|discriminate]. pose proof (varint_range _ _ _ _ _ _ _ _ E) as Ra.
  destruct (read_survives _ _ _ _ var1_canonical Hl E) as (p1 & b1 & -> & S1 & L1 & Hl1).
  assert (A0 : survives serialize_ResultType rt_none [0]).
  { destruct (arity_survives 0 ltac:(lia)) as (W & B & R). split; [exact W|]. split; [exact B|]. intros rest'.
    cbn [read serialize_ResultType]. rewrite R. reflexivity. }
  assert (P1 : (1 <= length p1)%nat).
  { destruct S1 as (W1 & _). destruct (arity_survives arity ltac:(lia)) as (W' & _). rewrite W1 in W'. injection W' as ->. exact L1. }
  destruct (Z.eqb_spec arity 0) as [->|N].
  { injection H as <- <-. exists p1, [0]. split; [reflexivity|]. split; [exact A0|exact P1]. }
  destruct (read serializeVarInt7 l1) as [[e l2]|] eqn:E2; [|discriminate]. injection H as <- <-.
  pose proof (var7s_read _ _ _ E2) as Re.
  destruct (read_survives _ _ _ _ var7s_canonical Hl1 E2) as (p2 & b2 & -> & S2 & L2 & _).
  assert (Z1 : arity = 1) by lia. subst arity. exists (p1 ++ p2).
  destruct (Z.eqb_spec (u8 (- e)) rt_none) as [Z0|NZ].
  - rewrite Z0. exists [0]. split; [apply app_assoc|]. split; [exact A0|]. rewrite length_app. cbn. lia.
  - exists ([1] ++ b2). split; [apply app_assoc|]. split; [|rewrite !length_app; cbn; lia].
    destruct (arity_survives 1 ltac:(lia)) as (W & B & R). destruct S2 as (W2 & B2 & R2).
    assert (Hne : (u8 (- e) =? rt_none) = false) by (now apply Z.eqb_neq).
    split; [cbn [write serialize_ResultType]; rewrite Hne, W, negated_type, W2 by exact Re; reflexivity|].
    split; [now apply forall_app_byte|]. intros rest'. cbn [read serialize_ResultType]. rewrite <- app_assoc, R.
    change (1 =? 0) with false. cbv iota. now rewrite R2.
Qed.

(** Limits: the flags are written as 0 or 1. *)
Lemma memory_type_canonical : canonical serialize_MemoryType.
Proof.
  intros l t rest Hl H. unfold serialize_MemoryType, fields, sequence in H. cbn [read] in H.
  destruct (read serializeVarUInt32 l) as [[flags l1]|] eqn:E; [|discriminate].
  destruct (read_survives _ _ _ _ var32_canonical Hl E) as (p1 & b1 & -> & S1 & L1 & Hl1).
  destruct (read (serialize_SizeConstraints _) l1) as [[size l2]|] eqn:E2; [|discriminate]. injection H as <- <-.
  assert (F : survives serializeVarUInt32 (flags_of size) [flags_of size]).
  { unfold flags_of. destruct (snd size =? UINT64_MAX); (apply (varint_survives false 64 32); [split; lia|lia]). }
  assert (P1 : (1 <= length p1)%nat).
  { destruct p1; [|cbn; lia]. cbn in L1. destruct b1; [|cbn in L1; lia]. destruct S1 as (_ & _ & R). specialize (R []). discriminate R. }
  assert (S2 : exists p2 b2, l1 = p2 ++ l2 /\ survives (serialize_SizeConstraints (z2b (Z.land (flags_of size) 1))) size b2 /\
                (length b2 <= length p2)%nat).
  { unfold flags_of. unfold serialize_SizeConstraints in *. destruct (z2b (Z.land flags 1)).
    - pose proof E2 as E3. cbn [read sequence] in E3.
      destruct (read serializeVarUInt32 l1) as [[mn l3]|] eqn:Ea; [|discriminate].
      destruct (read serializeVarUInt32 l3) as [[mx l4]|] eqn:Eb; [|discriminate]. injection E3 as <- <-.
      apply var32_read in Eb. cbn [snd]. destruct (Z.eqb_spec mx UINT64_MAX) as [->|_]; [unfold UINT64_MAX in Eb; lia|].
      change (z2b (Z.land 1 1)) with true. cbv iota.
      exact (canonical_sequence _ _ var32_canonical (fun _ _ => var32_canonical) _ _ _ Hl1 E2).
    - cbn [read fields] in E2. destruct (read serializeVarUInt32 l1) as [[mn l3]|] eqn:Ea; [|discriminate]. injection E2 as <- <-.
      cbn [snd]. rewrite Z.eqb_refl. change (z2b (Z.land 0 1)) with false. cbv iota.
      destruct (var32_canonical _ _ _ Hl1 Ea) as (p & b & -> & S & L). exists p, b. split; [reflexivity|]. split; [|exact L].
      now apply survives_fields. }
  destruct S2 as (p2 & b2 & -> & S2 & L2). exists (p1 ++ p2), ([flags_of size] ++ b2). split; [apply app_assoc|].
  split; [|rewrite !length_app; cbn; lia]. apply survives_fields; [reflexivity|]. now apply survives_sequence.
Qed.

Lemma table_type_canonical : canonical serialize_TableType.
Proof.
  apply canonical_fields; [intros [e s] _; reflexivity|]. apply canonical_sequence; [apply native_canonical|].
  intros _ _. exact memory_type_canonical.
Qed.

Lemma global_type_canonical : canonical serialize_GlobalType.
Proof.
  apply canonical_fields_read.
  - intros l [t b] rest _ H. cbn [read sequence] in H. destruct (read serialize_ValueType l) as [[t' l1]|]; [|discriminate].
    destruct (read serializeVarUInt1 l1) as [[b' l2]|] eqn:E; [|discriminate]. injection H as <- <- <-.
    apply varint_range in E. assert (b' = 0 \/ b' = 1) as [->| ->] by lia; reflexivity.
  - apply canonical_sequence; [exact value_type_canonical|]. intros _ _. exact var1_canonical.
Qed.

Lemma kind_survives (k : ObjectKind) : survives serialize_ObjectKind k [kind_code k].
Proof.
  assert (R : 0 <= kind_code k < 2 ^ (8 * Z.of_nat 1)) by (destruct k; cbn; lia).
  destruct (native_survives 1 (kind_code k) R) as (W & B & Rd).
  assert (E : to_bytes 1 (kind_code k) = [kind_code k]) by (destruct k; reflexivity). rewrite E in *.
  split; [exact W|]. split; [exact B|]. intros rest. unfold serialize_ObjectKind. cbn [read]. rewrite Rd. destruct k; reflexivity.
Qed.

Lemma kind_canonical : canonical serialize_ObjectKind.
Proof.
  intros l k rest Hl H. unfold serialize_ObjectKind in H. cbn [read] in H.
  destruct (read (serializeNativeValue 1) l) as [[c l1]|] eqn:E; [|discriminate].
  destruct (kind_of c) as [k'|] eqn:K; [|discriminate]. injection H as <- <-.
  destruct (native_canonical 1 l c l1 Hl E) as (p & bs & -> & S & L). exists p, [kind_code k']. split; [reflexivity|].
  split; [apply kind_survives|]. destruct S as (W & _). injection W as <-. exact L.
Qed.

Lemma export_canonical : canonical serialize_Export.
Proof.
  apply canonical_fields; [intros [n [k i]] _; reflexivity|].
  apply canonical_sequence; [apply canonical_throw_unless, name_canonical|]. intros _ _.
  apply canonical_sequence; [exact kind_canonical|]. intros _ _. exact var32_canonical.
Qed.

(** ** Initializers *)
Lemma immediate_canonical (type : Z) : canonical (serialize_immediate type).
Proof.
  unfold serialize_immediate.
  destruct (type =? 0x41); [apply canonical_fields; [reflexivity|exact var32s_canonical]|].
  destruct (type =? 0x42); [apply canonical_fields; [reflexivity|exact var64s_canonical]|].
  destruct (type =? 0x43); [apply canonical_fields; [reflexivity|apply native_canonical]|].
  destruct (type =? 0x44); [apply canonical_fields; [reflexivity|apply native_canonical]|].
  destruct (type =? 0x23); [apply canonical_fields; [reflexivity|exact var32_canonical]|].
  intros l a rest _ H. discriminate H.
Qed.

Lemma immediate_type (type : Z) (l rest : list Z) (e : InitializerExpression) :
  read (serialize_immediate type) l = Some (e, rest) -> initializer_type e = type.
Proof.
  unfold serialize_immediate.
  destruct (Z.eqb_spec type 0x41) as [->|_]; [|destruct (Z.eqb_spec type 0x42) as [->|_];
    [|destruct (Z.eqb_spec type 0x43) as [->|_]; [|destruct (Z.eqb_spec type 0x44) as [->|_];
    [|destruct (Z.eqb_spec type 0x23) as [->|_]; [|discriminate]]]]]; cbn [read fields];
    destruct (read _ l) as [[v l1]|]; try discriminate; intros [= <- _]; reflexivity.
Qed.

Lemma initializer_canonical : canonical serialize_InitializerExpression.
Proof.
  apply canonical_fields_read.
  - intros l [type [e u]] rest _ H. cbn [read sequence] in H.
    destruct (read (serializeNativeValue 1) l) as [[t l1]|]; [|discriminate].
    destruct (read (serialize_immediate t) l1) as [[e' l2]|] eqn:E; [|discriminate].
    destruct (read (serializeConstant 1 end_opcode) l2) as [[u' l3]|]; [|discriminate]. injection H as <- <- <- _.
    destruct u'. now rewrite (immediate_type _ _ _ _ E).
  - apply canonical_sequence; [apply native_canonical|]. intros type _.
    apply canonical_sequence; [apply immediate_canonical|]. intros _ _. apply constant_canonical. cbn. unfold end_opcode. lia.
Qed.

Lemma global_def_canonical : canonical serialize_GlobalDef.
Proof. apply canonical_sequence; [exact global_type_canonical|]. intros _ _. exact initializer_canonical. Qed.

Lemma data_segment_canonical : canonical serialize_DataSegment.
Proof.
  apply canonical_fields; [intros [i [o d]] _; reflexivity|]. apply canonical_sequence; [exact var32_canonical|]. intros _ _.
  apply canonical_sequence; [exact initializer_canonical|]. intros _ _. apply array_canonical, native_canonical.
Qed.

Lemma table_segment_canonical : canonical serialize_TableSegment.
Proof.
  apply canonical_fields; [intros [i [o d]] _; reflexivity|]. apply canonical_sequence; [exact var32_canonical|]. intros _ _.
  apply canonical_sequence; [exact initializer_canonical|]. intros _ _. apply array_canonical, var32_canonical.
Qed.

Lemma function_type_canonical : canonical serialize_FunctionType.
Proof.
  apply canonical_fields; [intros [[] [ps r]] _; reflexivity|].
  apply canonical_sequence; [apply constant_canonical; cbn; lia|]. intros _ _.
  apply canonical_sequence; [apply array_canonical, value_type_canonical|]. intros _ _. exact result_type_canonical.
Qed.

(** ** Operators *)
Lemma control_canonical : canonical serialize_ControlStructureImm.
Proof.
  intros l f rest Hl H. unfold serialize_ControlStructureImm, fields in H. cbn [read] in H.
  destruct (read serializeVarInt7 l) as [[e l1]|] eqn:E; [|discriminate]. injection H as <- <-.
  pose proof (var7s_read _ _ _ E) as R. destruct (var7s_canonical l e l1 Hl E) as (p & bs & -> & S & L).
  assert (M : survives serializeVarInt7 (-64) [0x40]) by (apply (varint_survives true 8 7); [repeat split; lia|lia]).
  assert (P1 : (1 <= length p)%nat).
  { destruct p; [|cbn; lia]. destruct bs; [|cbn in L; lia]. destruct S as (_ & _ & R'). specialize (R' []). discriminate R'. }
  exists p. unfold serialize_ControlStructureImm.
  destruct (Z.eqb_spec e (-64)) as [->|N]; [exists [0x40]; split; [reflexivity|]; split; [|exact P1]; now apply survives_fields|].
  destruct (Z.eqb_spec (u8 (- e)) rt_none) as [Z0|NZ].
  - rewrite Z0. exists [0x40]. split; [reflexivity|]. split; [|exact P1]. now apply survives_fields.
  - exists bs. split; [reflexivity|]. split; [|exact L]. apply survives_fields; cbn [field_value];
      (destruct (Z.eqb_spec (u8 (- e)) rt_none) as [?|_]; [contradiction|]); rewrite negated_type by exact R;
      [destruct (Z.eqb_spec e (-64)); [contradiction|reflexivity]|exact S].
Qed.

Lemma imm_canonical (opcode : Z) : canonical (serialize_imm opcode).
Proof.
  unfold serialize_imm. cbv zeta. set (among := existsb (Z.eqb opcode)).
  destruct (among [block_code; _; _]); [exact control_canonical|].
  destruct (opcode =? call_indirect_code).
  { apply canonical_fields; [intros [v []] _; reflexivity|]. apply canonical_sequence; [exact var32_canonical|].
    intros _ _. apply constant_canonical. cbn. lia. }
  destruct (opcode =? i32_const_code).
  { apply canonical_fields_read; [|exact var32s_canonical]. intros l v rest _ H. apply varint_range in H. cbn [field_value].
    unfold uwrap. rewrite swrap_mod_idem by lia. apply swrap_small; lia. }
  destruct (opcode =? i64_const_code).
  { apply canonical_fields_read; [|exact var64s_canonical]. intros l v rest _ H. apply varint_range in H. cbn [field_value].
    unfold uwrap. rewrite swrap_mod_idem by lia. apply swrap_small; lia. }
  destruct (opcode =? f32_const_code); [apply canonical_fields; [reflexivity|apply native_canonical]|].
  destruct (opcode =? f64_const_code); [apply canonical_fields; [reflexivity|apply native_canonical]|].
  destruct (among [grow_memory_code; _]); [apply canonical_fields; [intros []; reflexivity|apply constant_canonical; cbn; lia]|].
  destruct (field_type_of opcode) as [[| | | | |]|]; try (intros l a rest _ H; discriminate H).
  - intros l f rest _ H. injection H as <- <-. exists [], []. split; [reflexivity|]. split; [|reflexivity].
    split; [reflexivity|]. split; [constructor|reflexivity].
  - apply canonical_fields; [reflexivity|exact var32_canonical].
  - apply canonical_fields_read.
    + intros l [a o] rest _ H. cbn [read sequence] in H. destruct (read serializeVarUInt7 l) as [[a' l1]|] eqn:E; [|discriminate].
      destruct (read serializeVarUInt32 l1) as [[o' l2]|]; [|discriminate]. injection H as <- <- _. apply varint_range in E.
      rewrite uwrap_small by lia. reflexivity.
    + apply canonical_sequence; [exact var7_canonical|]. intros _ _. exact var32_canonical.
Qed.

Lemma branch_table_canonical : canonical serialize_branch_table.
Proof. apply canonical_sequence; [apply array_canonical, var32_canonical|]. intros _ _. exact var32_canonical. Qed.

(** The codes of operators are bytes. *)
Lemma between_true (lo hi c : Z) : between lo hi c = true -> lo <= c <= hi.
Proof. unfold between. rewrite andb_true_iff, !Z.leb_le. tauto. Qed.

Lemma among_true (c : Z) (l : list Z) : existsb (Z.eqb c) l = true -> In c l.
Proof. intros H. apply existsb_exists in H as (x & I & E). apply Z.eqb_eq in E. now subst. Qed.

Ltac each_code H := apply among_true in H; repeat (destruct H as [<-|H]; [split; vm_compute; discriminate|]); destruct H.

Lemma opcode_range (c : Z) (t : field_type) : field_type_of c = Some t -> 0 <= c <= 0xbf.
Proof.
  unfold field_type_of. intros H.
  destruct (existsb (Z.eqb c) [end_code; _; _; _; _; _; _; _; _]) eqn:E1; [each_code E1|].
  destruct (between i32_eqz_code f64_reinterpret_i64_code c) eqn:E2;
    [apply between_true in E2; unfold i32_eqz_code, f64_reinterpret_i64_code in E2; lia|].
  cbn [orb] in H. destruct (existsb (Z.eqb c) [block_code; _; _]) eqn:E3; [each_code E3|].
  destruct (existsb (Z.eqb c) [br_code; _; _; _; _; _; _; _; _; _; _]) eqn:E4; [each_code E4|].
  destruct (between i32_load_code i64_store32_code c) eqn:E5;
    [apply between_true in E5; unfold i32_load_code, i64_store32_code in E5; lia|].
  destruct (existsb (Z.eqb c) [i64_const_code; _]) eqn:E6; [each_code E6|].
  destruct (Z.eqb_spec c br_table_code) as [->|_]; [split; vm_compute; discriminate|discriminate].
Qed.

Lemma opcode_survives (c : Z) : 0 <= c <= 0xbf ->
  write_opcode c = [c] /\ is_byte c /\ forall rest, read_opcode ([c] ++ rest) = Some (c, rest).
Proof.
  intros H. unfold write_opcode, read_opcode, maxSingleByteOpcode.
  destruct (Z.leb_spec c 0xcf) as [_|L]; [|lia]. destruct (native_survives 1 c ltac:(cbn; lia)) as (_ & _ & R).
  assert (E : to_bytes 1 c = [c]) by (cbn [to_bytes]; rewrite uwrap_small by lia; reflexivity). rewrite E in *.
  split; [reflexivity|]. split; [unfold is_byte; lia|]. intros rest. rewrite R. destruct (Z.ltb_spec 0xcf c); [lia|reflexivity].
Qed.

Lemma read_opcode_spec (l rest : list Z) (c : Z) (t : field_type) : Forall is_byte l -> read_opcode l = Some (c, rest) ->
  field_type_of c = Some t -> l = [c] ++ rest.
Proof.
  intros Hl H T. apply opcode_range in T. unfold read_opcode in H.
  destruct (read (serializeNativeValue 1) l) as [[b l1]|] eqn:E; [|discriminate].
  destruct (native_canonical 1 l b l1 Hl E) as (p & bs & -> & (W & B & R) & L).
  cbn [read serializeNativeValue] in E. destruct (advance _ _) as [[one l2]|] eqn:Ea; [|discriminate].
  injection E as <- ->. destruct (advance_spec _ _ _ _ (Nat2Z.is_nonneg _) Ea) as [E1 L1].
  destruct one as [|b [|x one]]; [discriminate L1| |cbn [List.length] in L1; lia]. cbn [of_bytes] in H, W.
  replace (b + 256 * 0) with b in H by lia. apply app_inv_tail in E1. subst p.
  unfold maxSingleByteOpcode in H. destruct (Z.ltb_spec 0xcf b) as [L2|L2].
  - cbn [read serializeNativeValue] in H. destruct (advance (Z.of_nat 1) l1) as [[one l2]|] eqn:Eb; [|discriminate].
    assert (Ec : c = Z.shiftl b 8 + of_bytes one) by congruence. clear H.
    destruct (advance_spec _ _ _ _ (Nat2Z.is_nonneg _) Eb) as [-> _]. apply Forall_app in Hl as [_ Hl]. apply Forall_app in Hl as [Ho _].
    pose proof (of_bytes_bounds one Ho). rewrite Z.shiftl_mul_pow2 in Ec by lia. change (2 ^ 8) with 256 in Ec. lia.
  - injection H as -> ->. reflexivity.
Qed.

(** The field of an operator that is read fits its type. *)
Lemma native_range (n : nat) (l rest : list Z) (v : Z) : Forall is_byte l -> read (serializeNativeValue n) l = Some (v, rest) ->
  0 <= v < 2 ^ (8 * Z.of_nat n).
Proof.
  intros Hl H. cbn [read serializeNativeValue] in H. destruct (advance _ _) as [[bs l2]|] eqn:Ea; [|discriminate]. injection H as <- <-.
  destruct (advance_spec _ _ _ _ (Nat2Z.is_nonneg _) Ea) as [-> L]. rewrite <- L. apply of_bytes_bounds. now apply Forall_app in Hl.
Qed.

Lemma imm_fits (c : Z) (l rest : list Z) (f : field) (t : field_type) : Forall is_byte l -> field_type_of c = Some t ->
  t <> branchtabletype -> read (serialize_imm c) l = Some (f, rest) -> field_fits t f.
Proof.
  intros Hl T Nb. unfold serialize_imm. cbv zeta.
  destruct (existsb (Z.eqb c) [block_code; _; _]) eqn:E1.
  { assert (t = blocktype) as -> by (apply among_true in E1; destruct E1 as [<-|[<-|[<-|[]]]]; injection T as <-; reflexivity).
    cbn [read fields serialize_ControlStructureImm]. destruct (read serializeVarInt7 l) as [[e l1]|]; [|discriminate].
    intros [= <- _]. cbn. destruct (e =? -64); [unfold word, rt_none; lia|apply uwrap_bound; lia]. }
  destruct (Z.eqb_spec c call_indirect_code) as [->|_].
  { injection T as <-. cbn [read fields sequence]. destruct (read serializeVarUInt32 l) as [[v l1]|] eqn:E; [|discriminate].
    destruct (read _ l1) as [[[] l2]|]; [|discriminate]. intros [= <- _]. exact (var32_read _ _ _ E). }
  destruct (Z.eqb_spec c i32_const_code) as [->|_].
  { injection T as <-. cbn [read fields]. destruct (read serializeVarInt32 l) as [[v l1]|]; [|discriminate].
    intros [= <- _]. apply uwrap_bound. lia. }
  destruct (Z.eqb_spec c i64_const_code) as [->|_].
  { injection T as <-. cbn [read fields]. destruct (read serializeVarInt64 l) as [[v l1]|]; [|discriminate].
    intros [= <- _]. apply uwrap_bound. lia. }
  destruct (Z.eqb_spec c f32_const_code) as [->|_].
  { injection T as <-. cbn [read fields]. destruct (read (serializeNativeValue 4) l) as [[v l1]|] eqn:E; [|discriminate].
    intros [= <- _]. exact (native_range 4 _ _ _ Hl E). }
  destruct (Z.eqb_spec c f64_const_code) as [->|_].
  { injection T as <-. cbn [read fields]. destruct (read (serializeNativeValue 8) l) as [[v l1]|] eqn:E; [|discriminate].
    intros [= <- _]. exact (native_range 8 _ _ _ Hl E). }
  destruct (existsb (Z.eqb c) [grow_memory_code; _]) eqn:E2.
  { assert (t = voidtype) as -> by (apply among_true in E2; destruct E2 as [<-|[<-|[]]]; injection T as <-; reflexivity).
    cbn [read fields]. destruct (read _ l) as [[v l1]|]; [|discriminate]. intros [= <- _]. exact I. }
  rewrite T. destruct t; try (intros H; discriminate H); try congruence.
  - intros [= <- _]. exact I.
  - cbn [read fields]. destruct (read serializeVarUInt32 l) as [[v l1]|] eqn:E; [|discriminate].
    intros [= <- _]. exact (var32_read _ _ _ E).
  - cbn [read fields sequence]. destruct (read serializeVarUInt7 l) as [[a l1]|] eqn:E; [|discriminate].
    destruct (read serializeVarUInt32 l1) as [[o l2]|] eqn:E'; [|discriminate]. intros [= <- _].
    apply varint_range in E. apply var32_read in E'. cbn. unfold word. lia.
Qed.

(** An operator that is read, with branch tables that begin with [bt] and end with anything *)
Record op_survives (bt bt' : list (list Z)) (op : instr) (bs : list Z) : Prop := {
  op_written : forall more, write_op (bt' ++ more) op = Some bs;
  op_bytes : Forall is_byte bs;
  op_read : forall rest, read_op bt (bs ++ rest) = Some (op, bt', rest);
  op_well_formed : well_formed op;
  op_some : bs <> [];
  op_prefix : exists x, bt' = bt ++ x
}.

Lemma read_op_canonical (bt bt' : list (list Z)) (op : instr) (l rest : list Z) : Forall is_byte l ->
  Z.of_nat (length bt) < 2 ^ 64 -> read_op bt l = Some (op, bt', rest) ->
  exists pre bs, l = pre ++ rest /\ op_survives bt bt' op bs /\ (length bs <= length pre)%nat /\ (length bt' <= S (length bt))%nat.
Proof.
  intros Hl Hb H. unfold read_op in H. destruct (read_opcode l) as [[c l1]|] eqn:E; [|discriminate].
  destruct (field_type_of c) as [t|] eqn:T; [|discriminate]. pose proof (read_opcode_spec _ _ _ _ Hl E T) as ->.
  pose proof (rest_bytes _ _ Hl) as Hl1. pose proof (opcode_range _ _ T) as Rc. destruct (opcode_survives c Rc) as (Wc & Bc & Rd).
  assert (Nt : t = branchtabletype \/ t <> branchtabletype) by (destruct t; auto; right; discriminate).
  destruct Nt as [->|Nt].
  - destruct (read serialize_branch_table l1) as [[[tbl target] l2]|] eqn:E2; [|discriminate]. injection H as <- <- <-.
    destruct (branch_table_canonical _ _ _ Hl1 E2) as (p & bs & -> & (W & B & R) & L).
    exists ([c] ++ p), ([c] ++ bs). split; [apply app_assoc|].
    split; [|split; [rewrite !length_app; cbn; lia|rewrite length_app; cbn; lia]]. constructor.
    + intros more. unfold write_op. cbn [get_code op_field]. rewrite T, <- app_assoc, Nat2Z.id.
      rewrite nth_error_app2, Nat.sub_diag by lia. cbn [nth_error app]. rewrite Wc, W. reflexivity.
    + constructor; assumption.
    + intros rest. unfold read_op. rewrite <- app_assoc, Rd, T, R. reflexivity.
    + split; [unfold word; cbn [get_code]; lia|]. exists branchtabletype. split; [exact T|]. cbn. unfold word.
      cbn [read sequence serialize_branch_table] in E2. destruct (read (serializeArray _) _) as [[tb l3]|]; [|discriminate].
      destruct (read serializeVarUInt32 l3) as [[v l4]|] eqn:E3; [|discriminate]. injection E2 as <- <- <-.
      apply var32_read in E3. lia.
    + discriminate.
    + now exists [tbl].
  - assert (H' : match read (serialize_imm c) l1 with Some (f, l) => Some (Instr c f, bt, l) | None => None end = Some (op, bt', rest))
      by (destruct t; try exact H; congruence). clear H.
    destruct (read (serialize_imm c) l1) as [[f l2]|] eqn:E2; [|discriminate]. injection H' as <- <- <-.
    destruct (imm_canonical _ _ _ _ Hl1 E2) as (p & bs & -> & (W & B & R) & L).
    exists ([c] ++ p), ([c] ++ bs). split; [apply app_assoc|]. split; [|split; [rewrite !length_app; cbn; lia|lia]]. constructor.
    + intros more. unfold write_op. cbn [get_code op_field]. rewrite T.
      assert (Q : append (Some (write_opcode c)) (write (serialize_imm c) f) = Some ([c] ++ bs)) by (rewrite Wc, W; reflexivity).
      destruct t; try exact Q; congruence.
    + constructor; assumption.
    + intros rest. unfold read_op. rewrite <- app_assoc, Rd, T, R. destruct t; try reflexivity; congruence.
    + split; [unfold word; cbn [get_code]; lia|]. exists t. split; [exact T|]. exact (imm_fits _ _ _ _ _ Hl1 T Nt E2).
    + discriminate.
    + exists []. now rewrite app_nil_r.
Qed.

(** ** Lengths *)
Lemma some_inj {A} (a b : A) : Some a = Some b -> a = b.
Proof. congruence. Qed.

Lemma var32_length (v w : Z) (bs cs : list Z) : 0 <= v <= w -> survives serializeVarUInt32 v bs -> survives serializeVarUInt32 w cs ->
  (length bs <= length cs)%nat.
Proof.
  intros H (W1 & _) (W2 & _).
  assert (B : w < 2 ^ 32).
  { unfold serializeVarUInt32, serializeVarInt in W2. cbn [write] in W2.
    destruct (Z.ltb_spec (2 ^ 32 - 1) w); [|lia]. rewrite orb_true_r in W2. discriminate W2. }
  destruct (varint_survives false 64 32 0 (2 ^ 32 - 1) v) as (W1' & _); [split; lia|lia|].
  destruct (varint_survives false 64 32 0 (2 ^ 32 - 1) w) as (W2' & _); [split; lia|lia|].
  unfold serializeVarUInt32 in *. rewrite W1 in W1'. rewrite W2 in W2'. apply some_inj in W1', W2'. subst bs cs.
  change (Z.to_nat ((32 + 6) / 7)) with 5%nat.
  destruct (leb_spec false 5 w ltac:(lia)) as (L & _ & F & _); [cbn; lia|].
  apply (leb_spec false 5 v); [lia|cbn; lia|lia|]. unfold fits in *. lia.
Qed.

(** Bytes with their number before them, in a stream of their own *)
Lemma sized_canonical (l l1 rest body bs : list Z) (n : Z) : Forall is_byte l -> read serializeVarUInt32 l = Some (n, l1) ->
  advance n l1 = Some (body, rest) -> (length bs <= length body)%nat ->
  exists pre nb, l = pre ++ rest /\ survives serializeVarUInt32 (size bs) nb /\ (length (nb ++ bs) <= length pre)%nat /\
    Forall is_byte body.
Proof.
  intros Hl E1 E2 L. pose proof (var32_read _ _ _ E1) as R.
  destruct (read_survives _ _ _ _ var32_canonical Hl E1) as (p & b & -> & S & Lp & Hl1).
  destruct (advance_spec _ _ _ _ (proj1 R) E2) as [-> Ln]. unfold size.
  destruct (var32_survives (Z.of_nat (length bs)) ltac:(lia)) as (nb & Sn & _).
  exists (p ++ body), nb. split; [apply app_assoc|]. split; [exact Sn|]. split; [|now apply Forall_app in Hl1].
  assert (length nb <= length b)%nat by (apply (var32_length (Z.of_nat (length bs)) n); [lia|exact Sn|exact S]).
  rewrite !length_app. lia.
Qed.

(** ** Local variables *)
Definition expand (sets : list (Z * Z)) : list Z := flat_map (fun '(num, type) => repeat type (Z.to_nat num)) sets.
Definition total (sets : list (Z * Z)) : Z := fold_right (fun s n => fst s + n) 0 sets.
(** Bytes of a set of so many locals *)
Definition set_cost (num : Z) : nat := if num <? 128 then 2 else 3.
Definition sets_cost (sets : list (Z * Z)) : nat := fold_right (fun s n => set_cost (fst s) + n)%nat 0%nat sets.
Definition writable_type (type : Z) : Prop := exists b, survives serialize_ValueType type [b].

Lemma set_cost_range (num : Z) : (2 <= set_cost num <= 3)%nat.
Proof. unfold set_cost. destruct (num <? 128); lia. Qed.

Lemma set_survives (num type : Z) : 0 <= num < 16384 -> writable_type type ->
  exists bs, survives serialize_LocalSet (num, type) bs /\ length bs = set_cost num.
Proof.
  intros H (b & S). exists (leb_bytes 5 false num ++ [b]). split.
  - apply survives_sequence; [|exact S]. apply (varint_survives false 64 32); [split; lia|lia].
  - rewrite length_app. cbn [length]. destruct (leb_spec false 5 num ltac:(lia)) as (L & _ & F & _ & _ & _ & Min); [cbn; lia|].
    set (k := length (leb_bytes 5 false num)) in *. unfold set_cost, fits in *.
    destruct (Z.ltb_spec num 128) as [B|B].
    + specialize (Min 1%nat ltac:(lia) ltac:(cbn; lia)). lia.
    + specialize (Min 2%nat ltac:(lia) ltac:(cbn; lia)). assert (k = 1 \/ k = 2)%nat as [->| ->] by lia; [cbn in F; lia|reflexivity].
Qed.

Lemma type_written (l rest : list Z) (type : Z) : Forall is_byte l -> read serialize_ValueType l = Some (type, rest) ->
  writable_type type.
Proof.
  intros Hl H. destruct (value_type_canonical _ _ _ Hl H) as (p & bs & _ & S & _). pose proof S as (W & _).
  cbn [read fields serialize_ValueType] in H. destruct (read serializeVarInt7 l) as [[e l1]|] eqn:E; [|discriminate]. injection H as <- <-.
  apply var7s_read in E. unfold serialize_ValueType, fields in W. cbn [write] in W. rewrite negated_type in W by exact E.
  destruct (varint_survives true 8 7 (-64) 63 e) as (W' & _); [repeat split; lia|lia|].
  unfold serializeVarInt7 in W. rewrite W in W'. apply some_inj in W'. subst bs. change (Z.to_nat ((7 + 6) / 7)) with 1%nat in S.
  destruct (leb_spec true 1 e ltac:(lia)) as (L & _); [cbn; lia|].
  destruct (leb_bytes 1 true e) as [|b [|]]; cbn in L; try lia. exists b. exact S.
Qed.

Lemma read_local_sets_spec (n : nat) : forall acc locals l locals' rest, Forall is_byte l -> 0 <= acc <= 8192 ->
  read_local_sets n acc locals l = Some (locals', rest) ->
  exists sets pre, l = pre ++ rest /\ length sets = n /\ locals' = locals ++ expand sets /\ acc + 4 * total sets <= 8192 /\
    Forall (fun s => 0 <= fst s /\ writable_type (snd s)) sets /\ (sets_cost sets <= length pre)%nat /\ 0 <= total sets.
Proof.
  induction n as [|n IH]; intros acc locals l locals' rest Hl Ha H; cbn [read_local_sets] in H.
  - injection H as <- <-. exists [], []. cbn. rewrite app_nil_r. repeat split; try lia. constructor.
  - destruct (read serialize_LocalSet l) as [[[num type] l1]|] eqn:E; [|discriminate]. cbv zeta in H.
    pose proof E as E'. cbn [read sequence serialize_LocalSet] in E'.
    destruct (read serializeVarUInt32 l) as [[num' l2]|] eqn:E1; [|discriminate].
    destruct (read serialize_ValueType l2) as [[type' l3]|] eqn:E2; [|discriminate]. injection E' as -> -> ->.
    pose proof (var32_read _ _ _ E1) as Rn. unfold uwrap in H. rewrite Z.mod_small in H by lia.
    unfold maximum_func_local_bytes in H. destruct (Z.ltb_spec 8192 (acc + num * 4)) as [|La]; [discriminate|].
    destruct (read_survives _ _ _ _ var32_canonical Hl E1) as (p1 & b1 & -> & S1 & L1 & Hl2).
    pose proof (type_written _ _ _ Hl2 E2) as Wt.
    destruct (read_survives _ _ _ _ value_type_canonical Hl2 E2) as (p2 & b2 & -> & S2 & L2 & Hl3).
    destruct (IH (acc + num * 4) _ _ _ _ Hl3 ltac:(lia) H) as (sets & p3 & -> & N & -> & T & F & C & P).
    exists ((num, type) :: sets), (p1 ++ p2 ++ p3). split; [now rewrite !app_assoc|]. split; [cbn; lia|].
    split; [cbn [expand flat_map]; now rewrite <- app_assoc|]. split; [cbn [total fold_right fst]; fold (total sets); lia|].
    split; [constructor; [split; [cbn; lia|exact Wt]|exact F]|]. split; [|cbn [total fold_right fst]; fold (total sets); lia].
    destruct (set_survives num type ltac:(lia) Wt) as (bs & (W & _) & Lb).
    pose proof (survives_sequence serializeVarUInt32 (fun _ => serialize_ValueType) _ _ _ _ S1 S2) as (W' & _).
    unfold serialize_LocalSet in W. rewrite W in W'. apply some_inj in W'. subst bs. rewrite length_app in Lb.
    cbn [sets_cost fold_right fst]. fold (sets_cost sets). rewrite !length_app. lia.
Qed.

(** The sets that are written for the locals of the sets that were read *)
Lemma local_sets_spec (sets : list (Z * Z)) : Forall (fun s => 0 <= fst s /\ writable_type (snd s)) sets ->
  Forall (fun t => t <> vt_any) (expand sets) ->
  forall num type, (type = vt_any /\ num = 0 \/ type <> vt_any /\ 1 <= num /\ writable_type type) ->
  let pending := if type =? vt_any then [] else [(num, type)] in
  let written := local_sets num type (expand sets) in
  expand written = repeat type (Z.to_nat num) ++ expand sets /\ (length written <= length pending + length sets)%nat /\
  (sets_cost written <= sets_cost pending + sets_cost sets)%nat /\ total written = num + total sets /\
  Forall (fun s => 0 <= fst s /\ writable_type (snd s)) written.
Proof.
  intros F. induction F as [|[n t] sets [Hn Wt] F IH]; intros A num type P pending written.
  - subst written pending. cbn [expand flat_map local_sets]. destruct (Z.eqb_spec type vt_any) as [E|E].
    + destruct P as [[-> ->]|[? _]]; [|contradiction]. repeat split; try reflexivity. constructor.
    + destruct P as [[-> ?]|(_ & N1 & Wty)]; [contradiction|]. cbn. rewrite app_nil_r. repeat split; try lia.
      constructor; [split; [cbn; lia|exact Wty]|constructor].
  - cbn [fst snd] in *. cbn [expand flat_map] in A. apply Forall_app in A as [At A].
    assert (C0 : forall a, total ((n, t) :: a) = n + total a /\ sets_cost ((n, t) :: a) = (set_cost n + sets_cost a)%nat) by (split; reflexivity).
    rewrite !(proj1 (C0 _)), !(proj2 (C0 _)). clear C0.
    assert (E : expand ((n, t) :: sets) = repeat t (Z.to_nat n) ++ expand sets) by reflexivity. rewrite E in *.
    set (rest := expand sets) in *.
    destruct (Z.to_nat n) as [|k] eqn:K.
    { specialize (IH A num type P). cbv zeta in IH. fold pending in IH. cbn [repeat app] in *. unfold written. rewrite E. cbn [length].
      destruct IH as (I1 & I2 & I3 & I4 & I5). split; [exact I1|]. split; [lia|]. split; [lia|]. split; [lia|exact I5]. }
    assert (Ht : t <> vt_any) by (inversion At; assumption).
    assert (G : forall j a, local_sets a t (repeat t j ++ rest) = local_sets (a + Z.of_nat j) t rest).
    { clear. induction j as [|j IHj]; intros a; [now rewrite Z.add_0_r|]. cbn [repeat app local_sets]. rewrite Z.eqb_refl, IHj.
      f_equal. lia. }
    subst written. rewrite E. cbn [repeat app local_sets]. fold pending. pose proof (set_cost_range n) as Cn.
    destruct (Z.eqb_spec type t) as [->|Nt].
    + destruct P as [[? _]|(_ & N1 & Wty)]; [contradiction|]. rewrite G.
      destruct (IH A (num + 1 + Z.of_nat k) t) as (I1 & I2 & I3 & I4 & I5);
        [right; repeat split; [exact Ht|lia|exact Wt]|].
      subst pending. destruct (Z.eqb_spec t vt_any); [contradiction|]. cbn [length sets_cost fold_right fst] in *.
      pose proof (set_cost_range (num + 1 + Z.of_nat k)). pose proof (set_cost_range num).
      split; [|repeat split; try lia; exact I5]. rewrite I1, app_comm_cons, app_assoc. f_equal.
      change (t :: repeat t k) with (repeat t (S k)). rewrite <- repeat_app. f_equal. lia.
    + rewrite G. destruct (IH A (1 + Z.of_nat k) t) as (I1 & I2 & I3 & I4 & I5); [right; repeat split; [exact Ht|lia|exact Wt]|].
      destruct (Z.eqb_spec t vt_any); [contradiction|]. cbn [length sets_cost fold_right fst] in I2, I3.
      replace (1 + Z.of_nat k) with n in * by lia. set (w := local_sets n t rest) in *. clearbody w.
      assert (Ex : expand (pending ++ w) = repeat type (Z.to_nat num) ++ expand w).
      { subst pending. destruct (Z.eqb_spec type vt_any) as [Ea|Ea]; [|reflexivity].
        destruct P as [[_ ->]|[? _]]; [reflexivity|contradiction]. }
      split; [rewrite Ex, I1, K; reflexivity|].
      split; [rewrite length_app; cbn [length]; lia|].
      subst pending. destruct (Z.eqb_spec type vt_any) as [Ea|Ea].
      * destruct P as [[_ ->]|[? _]]; [|contradiction]. cbn [app]. repeat split; try lia. exact I5.
      * destruct P as [[? _]|(_ & N1 & Wty)]; [contradiction|]. cbn [app sets_cost total fold_right fst].
        fold (sets_cost w) (total w). repeat split; try lia. constructor; [split; [cbn; lia|exact Wty]|exact I5].
Qed.

(** Written sets are read again. *)
Lemma sets_survive (sets : list (Z * Z)) : Forall (fun s => 0 <= fst s /\ writable_type (snd s)) sets -> total sets < 16384 ->
  exists bs, write_all serialize_LocalSet sets = Some bs /\ Forall is_byte bs /\ length bs = sets_cost sets /\
    forall acc locals rest, 0 <= acc -> acc + 4 * total sets <= 8192 ->
      read_local_sets (length sets) acc locals (bs ++ rest) = Some (locals ++ expand sets, rest).
Proof.
  induction 1 as [|[num type] sets [Hn Wt] F IH]; intros T.
  - exists []. split; [reflexivity|]. split; [constructor|]. split; [reflexivity|]. intros. cbn. now rewrite app_nil_r.
  - cbn [fst snd total fold_right] in *. fold (total sets) in *.
    assert (0 <= total sets).
    { clear -F. induction F as [|s sets [H _] _ IH]; cbn; [lia|]. fold (total sets). lia. }
    destruct (set_survives num type ltac:(lia) Wt) as (b1 & (W1 & B1 & R1) & L1).
    destruct (IH ltac:(lia)) as (b2 & W2 & B2 & L2 & R2). exists (b1 ++ b2).
    split; [cbn [write_all]; now rewrite W1, W2|]. split; [now apply forall_app_byte|].
    split; [rewrite length_app, L1, L2; reflexivity|]. intros acc locals rest Ha Hb.
    cbn [length read_local_sets]. rewrite <- app_assoc, R1. unfold uwrap. rewrite Z.mod_small by lia.
    unfold maximum_func_local_bytes. destruct (Z.ltb_spec 8192 (acc + num * 4)); [lia|]. rewrite R2 by lia.
    cbn [expand flat_map]. now rewrite <- app_assoc.
Qed.

(** ** Code *)
Definition write_operator (bt : list (list Z)) (op : instr) (written : list Z) : result (list Z) :=
  match write_op bt op with Some bytes => Value (written ++ bytes) | None => Throw wasm_serialization_exception end.

(** Operators one after the other, with the branch tables before and after them *)
Inductive ops_survive : list (list Z) -> list instr -> list (list Z) -> list Z -> Prop :=
  | ops_nil (bt : list (list Z)) : ops_survive bt [] bt []
  | ops_cons (bt bt1 bt2 : list (list Z)) (op : instr) (ops : list instr) (xs ys : list Z) :
      op_survives bt bt1 op xs -> ops_survive bt1 ops bt2 ys -> ops_survive bt (op :: ops) bt2 (xs ++ ys).

Lemma ops_prefix (bt bt' : list (list Z)) (ops : list instr) (bs : list Z) : ops_survive bt ops bt' bs -> exists x, bt' = bt ++ x.
Proof.
  induction 1 as [bt|bt bt1 bt2 op ops xs ys H _ (x2 & ->)]; [exists []; now rewrite app_nil_r|].
  destruct (op_prefix _ _ _ _ H) as (x1 & ->). exists (x1 ++ x2). now rewrite app_assoc.
Qed.

(** The table of an operator is there when it is validated. *)
Lemma validate_op_tables (m : Module) (fd : FunctionDef) (ft : FunctionType) (bt bt' more : list (list Z)) (op : instr) (bs : list Z)
    (c : context) : op_survives bt bt' op bs -> validate_op m fd ft (bt' ++ more) op c = validate_op m fd ft bt' op c.
Proof.
  intros S. unfold validate_op. cbv zeta. destruct (op_field op) as [| | | | |d i] eqn:F; try reflexivity.
  assert (N : nth_error (bt' ++ more) (Z.to_nat i) = nth_error bt' (Z.to_nat i)).
  { apply nth_error_app1. pose proof (op_written _ _ _ _ S []) as W. rewrite app_nil_r in W. unfold write_op in W. rewrite F in W.
    destruct (op_well_formed _ _ _ _ S) as (_ & t & T & Fit). rewrite F in Fit. rewrite T in W. destruct t; cbn in Fit; try contradiction.
    apply nth_error_Some. intros E. rewrite E in W. discriminate W. }
  now rewrite N.
Qed.

Section Ops.
Variables (m : Module) (fd : FunctionDef) (ft : FunctionType).

(** Code that survives and is valid is written, and read again. *)
Lemma ops_survive_spec (bt bt' : list (list Z)) (ops : list instr) (bs : list Z) : ops_survive bt ops bt' bs ->
  Forall is_byte bs /\ Forall well_formed ops /\
  (forall more written, fold_ops (write_operator (bt' ++ more)) ops written = Value (written ++ bs)) /\
  forall c c' fuel, validate_ops m fd ft bt' ops c = Some c' -> (length bs <= fuel)%nat ->
    read_ops m fuel fd ft bt c bs = Some (ops, bt', c').
Proof.
  induction 1 as [bt|bt bt1 bt2 op ops xs ys S H (B & W & F & R)].
  - split; [constructor|]. split; [constructor|]. split; [intros; cbn; now rewrite app_nil_r|].
    intros c c' [|fuel] [= ->] _; reflexivity.
  - destruct (ops_prefix _ _ _ _ H) as (x & X). split; [apply forall_app_byte; [apply S|exact B]|].
    split; [constructor; [apply S|exact W]|]. split.
    + intros more written. cbn [fold_ops]. unfold write_operator at 1. rewrite X, <- app_assoc, (op_written _ _ _ _ S). cbn [rbind].
      rewrite app_assoc, <- X, F, app_assoc. reflexivity.
    + intros c c' fuel V L. cbn [validate_ops] in V. rewrite X, (validate_op_tables _ _ _ _ _ _ _ _ _ S), <- X in V.
      destruct (validate_op m fd ft bt1 op c) as [c1|] eqn:V1; [|discriminate]. cbn [then_] in V.
      assert (P : (1 <= length xs)%nat) by (destruct xs; [now destruct (op_some _ _ _ _ S)|cbn; lia]).
      rewrite length_app in L. destruct fuel as [|fuel]; [lia|]. pose proof (op_read _ _ _ _ S ys) as Rd.
      destruct (xs ++ ys) as [|b0 all] eqn:Q; [destruct xs; [cbn in P; lia|discriminate]|].
      cbn [read_ops]. rewrite Rd, V1, (R c1 c' fuel V) by lia. reflexivity.
Qed.

(** What is read survives and is valid. *)
Lemma read_ops_survive (fuel : nat) : forall bt c l ops bt' c', Forall is_byte l ->
  Z.of_nat (length bt + length l) < 2 ^ 64 -> read_ops m fuel fd ft bt c l = Some (ops, bt', c') ->
  exists bs, ops_survive bt ops bt' bs /\ (length bs <= length l)%nat /\ validate_ops m fd ft bt' ops c = Some c'.
Proof.
  induction fuel as [|fuel IH]; intros bt c l ops bt' c' Hl Hb H; (destruct l as [|b l];
    [injection H as <- <- <-; exists []; split; [constructor|]; split; reflexivity|]); [discriminate|].
  set (all := b :: l) in *. assert (H' : match read_op bt all with
      | Some (op, bt1, l1) => match validate_op m fd ft bt1 op c with
          | Some c1 => match read_ops m fuel fd ft bt1 c1 l1 with Some (ops, bt2, c2) => Some (op :: ops, bt2, c2) | None => None end
          | None => None end
      | None => None end = Some (ops, bt', c')) by exact H.
  clear H. clearbody all. destruct (read_op bt all) as [[[op bt1] l1]|] eqn:E; [|discriminate].
  destruct (validate_op m fd ft bt1 op c) as [c1|] eqn:V; [|discriminate].
  destruct (read_ops m fuel fd ft bt1 c1 l1) as [[[ops1 bt2] c2]|] eqn:R; [|discriminate]. injection H' as <- <- <-.
  destruct (read_op_canonical bt bt1 op all l1 Hl ltac:(lia) E) as (p & b1 & -> & S & L1 & Lb).
  pose proof (rest_bytes _ _ Hl) as Hl1. rewrite length_app in Hb.
  assert (P1 : (1 <= length b1)%nat) by (destruct b1; [now destruct (op_some _ _ _ _ S)|cbn; lia]).
  destruct (IH bt1 c1 l1 ops1 bt2 c2 Hl1 ltac:(lia) R) as (b2 & S2 & L2 & V2).
  exists (b1 ++ b2). split; [exact (ops_cons _ _ _ _ _ _ _ S S2)|]. split; [rewrite !length_app; lia|].
  cbn [validate_ops]. destruct (ops_prefix _ _ _ _ S2) as (x & X). rewrite X, (validate_op_tables _ _ _ _ _ _ _ _ _ S), V. cbn [then_].
  rewrite <- X. exact V2.
Qed.

(** More fuel changes nothing. *)
Lemma read_ops_fuel (fuel : nat) : forall more bt c l, Forall is_byte l -> Z.of_nat (length bt + length l) < 2 ^ 64 ->
  (length l <= fuel)%nat -> (length l <= more)%nat -> read_ops m fuel fd ft bt c l = read_ops m more fd ft bt c l.
Proof.
  induction fuel as [|fuel IH]; intros more bt c l Hl Hb L M; (destruct l as [|b l]; [now destruct more|]); [cbn in L; lia|].
  destruct more as [|more]; [cbn in M; lia|]. cbn [read_ops].
  destruct (read_op bt (b :: l)) as [[[op bt1] l1]|] eqn:E; [|reflexivity].
  destruct (read_op_canonical bt bt1 op (b :: l) l1 Hl ltac:(lia) E) as (p & bs & Q & S & L1 & Lb).
  assert (P : (1 <= length bs)%nat) by (destruct bs; [now destruct (op_some _ _ _ _ S)|cbn; lia]).
  rewrite Q in *. pose proof (rest_bytes _ _ Hl) as Hl1. rewrite length_app in *.
  destruct (validate_op m fd ft bt1 op c) as [c1|]; [|reflexivity]. rewrite (IH more); [reflexivity|exact Hl1|lia|lia|lia].
Qed.
End Ops.

Lemma write_code_spec (bt : list (list Z)) (ops : list instr) (bs : list Z) : ops_survive [] ops bt bs ->
  write_code bt (encode_all ops) = Some bs.
Proof.
  intros S. destruct (ops_survive_spec no_module (Def 0 [] []) (Function 0 []) _ _ _ _ S) as (_ & W & F & _).
  unfold write_code. replace (decode_while _ (encode_all ops) []) with (decode_while (write_operator bt) (encode_all ops) []) by reflexivity.
  rewrite decode_while_fold by exact W. specialize (F [] []). rewrite app_nil_r in F. now rewrite F.
Qed.
