(* ===== verification/ModuleProofs.v ===== *)
(** Modules are written and read again: function bodies, imports, sections, and the round trip of the
    binary format.  A module that is read is written in no more bytes, which are read as the same module. *)
From Stdlib Require Import ZArith Bool Lia String Ascii List.
From S2P Require Import Prelude Exceptions Memory Opcodes Ops OpsProofs Injection Validation.
From S2P Require Import Serialization SerializationProofs Utf8 IR IRProofs Binary BinaryProofs.
Import ListNotations.
Local Open Scope Z_scope.

(** ** Function bodies *)
Definition no_any (d : FunctionDefinition) : Prop := Forall (fun t => t <> vt_any) (nonParameterLocalTypes (def d)).

(** Local variables that can be written *)
Record locals_ok (locals : list Z) : Prop := {
  locals_typed : Forall (fun t => t <> vt_any) locals;
  locals_writable : Forall writable_type locals;
  locals_few : 4 * size locals <= 8192;
  locals_runs : Z.of_nat (length (local_sets 0 vt_any locals)) < 1024
}.

Lemma total_expand (sets : list (Z * Z)) : Forall (fun s => 0 <= fst s /\ writable_type (snd s)) sets ->
  total sets = size (expand sets) /\ Forall writable_type (expand sets).
Proof.
  unfold size. induction 1 as [|[n t] sets [Hn Ht] _ [IH1 IH2]]; [split; [reflexivity|constructor]|].
  cbn [fst snd expand flat_map total fold_right] in *. fold (expand sets) (total sets) in *. rewrite length_app, repeat_length.
  split; [lia|]. apply Forall_app. split; [|exact IH2]. clear -Ht. induction (Z.to_nat n); constructor; assumption.
Qed.

(** The sets of one local each *)
Lemma expand_single (locals : list Z) : expand (map (fun t => (1, t)) locals) = locals.
Proof. induction locals as [|t l IH]; [reflexivity|]. cbn [map expand flat_map] in *. fold (expand (map (fun t => (1, t)) l)). now rewrite IH. Qed.

Lemma locals_survive (locals : list Z) : locals_ok locals ->
  let sets := local_sets 0 vt_any locals in
  exists nb bs, survives serializeVarUInt32 (size sets) nb /\ write_all serialize_LocalSet sets = Some bs /\
    Forall is_byte bs /\ length bs = sets_cost sets /\
    forall rest, read_local_sets (length sets) 0 [] (bs ++ rest) = Some (locals, rest).
Proof.
  intros [T W F R] sets. set (single := map (fun t => (1, t)) locals).
  assert (Fs : Forall (fun s => 0 <= fst s /\ writable_type (snd s)) single).
  { apply Forall_map. eapply Forall_impl; [|exact W]. cbn. intros t Ht. split; [lia|exact Ht]. }
  pose proof (expand_single locals) as Es. fold single in Es. pose proof (local_sets_spec single Fs) as L. rewrite Es in L.
  destruct (L T 0 vt_any (or_introl (conj eq_refl eq_refl))) as (X & _ & _ & Tt & Fw). fold sets in X, Tt, Fw. cbn [Z.to_nat repeat app] in X.
  assert (Ts : total sets = size locals) by (rewrite <- X; exact (proj1 (total_expand sets Fw))).
  destruct (sets_survive sets Fw ltac:(lia)) as (bs & Wb & Bb & Lb & Rb).
  destruct (var32_survives (size sets)) as (nb & Sn & _); [unfold size, sets; lia|].
  exists nb, bs. split; [exact Sn|]. split; [exact Wb|]. split; [exact Bb|]. split; [exact Lb|].
  intros rest. rewrite Rb by lia. cbn [app]. now rewrite X.
Qed.

(** A function whose body can be written, and read in [m] *)
Record body_ok (m : Module) (d : FunctionDefinition) (ops : list instr) (bs : list Z) : Prop := {
  body_locals : locals_ok (nonParameterLocalTypes (def d));
  body_code : code (def d) = encode_all ops;
  body_ops : ops_survive [] ops (branchTables d) bs;
  body_valid : exists ft c, function_type m (def d) = Some ft /\ finish c = true /\
    validate_ops m (def d) ft (branchTables d) ops (start_context ft) = Some c
}.

Lemma body_survives (m : Module) (d : FunctionDefinition) (ops : list instr) (bs : list Z) : body_ok m d ops bs ->
  let sets := local_sets 0 vt_any (nonParameterLocalTypes (def d)) in
  exists nb ls, survives serializeVarUInt32 (size sets) nb /\ length ls = sets_cost sets /\
    write_body d = Some (nb ++ ls ++ bs) /\ Forall is_byte (nb ++ ls ++ bs) /\
    (size (nb ++ ls ++ bs) < maximum_code_size -> read_body m (type_index (def d)) (nb ++ ls ++ bs) = Some d).
Proof.
  intros [L C O (ft & c & Ft & Fc & V)] sets. destruct (locals_survive _ L) as (nb & ls & Sn & Wl & Bl & Ll & Rl).
  exists nb, ls. split; [exact Sn|]. split; [exact Ll|]. pose proof Sn as (Wn & Bn & Rn).
  destruct (ops_survive_spec m (Def (type_index (def d)) (nonParameterLocalTypes (def d)) []) ft _ _ _ _ O) as (Bo & _ & _ & Ro).
  split; [unfold write_body; fold sets; rewrite C, (write_code_spec _ _ _ O); unfold size in Wn; fold sets in Wn, Wl; rewrite Wn, Wl; reflexivity|].
  split; [apply forall_app_byte; [exact Bn|now apply forall_app_byte]|]. intros S. unfold read_body. rewrite Rn. fold sets.
  destruct (Z.leb_spec maximum_code_size (size (nb ++ ls ++ bs))); [lia|].
  pose proof (locals_runs _ L). destruct (Z.leb_spec 1024 (size sets)) as [|_]; [unfold size, sets in *; lia|].
  unfold size. rewrite Nat2Z.id. fold sets in Rl. rewrite Rl. cbv zeta.
  destruct d as [[ty lc cd] bt]. cbn [def type_index nonParameterLocalTypes code branchTables] in *.
  change (function_type m (Def ty lc [])) with (function_type m (Def ty lc cd)). rewrite Ft.
  change (validate_ops m (Def ty lc cd)) with (validate_ops m (Def ty lc [])) in V.
  rewrite (Ro _ _ _ V (le_n _)), Fc, C. reflexivity.
Qed.

Lemma read_body_ok (m : Module) (type : Z) (body : list Z) (d : FunctionDefinition) : Forall is_byte body ->
  read_body m type body = Some d -> no_any d -> type_index (def d) = type /\
  exists ops bs, body_ok m d ops bs /\ forall nb ls, let sets := local_sets 0 vt_any (nonParameterLocalTypes (def d)) in
    survives serializeVarUInt32 (size sets) nb -> length ls = sets_cost sets ->
    (length (nb ++ ls ++ bs) <= length body)%nat /\ size body < maximum_code_size.
Proof.
  intros Hl H A. unfold read_body in H. destruct (read serializeVarUInt32 body) as [[n l1]|] eqn:E1; [|discriminate].
  pose proof (var32_read _ _ _ E1) as Rn. destruct (read_survives _ _ _ _ var32_canonical Hl E1) as (p1 & b1 & -> & S1 & L1 & Hl1).
  destruct (Z.leb_spec maximum_code_size (size (p1 ++ l1))) as [|Lm]; [discriminate|].
  destruct (Z.leb_spec 1024 n) as [|Ln]; [discriminate|].
  destruct (read_local_sets (Z.to_nat n) 0 [] l1) as [[locals l2]|] eqn:E2; [|discriminate].
  destruct (read_local_sets_spec _ 0 _ _ _ _ Hl1 ltac:(lia) E2) as (sets & p2 & -> & N & El & T & F & C & P). cbn [app] in El. subst locals.
  pose proof (rest_bytes _ _ Hl1) as Hl2. cbv zeta in H. set (fd := Def type (expand sets) []) in *.
  destruct (function_type m fd) as [ft|] eqn:Ft; [|discriminate].
  destruct (read_ops m _ fd ft [] (start_context ft) l2) as [[[ops bt] c]|] eqn:E3; [|discriminate].
  destruct (finish c) eqn:Fc; [|discriminate]. injection H as <-. unfold no_any in A. cbn [def nonParameterLocalTypes type_index] in *.
  split; [reflexivity|]. unfold size in Lm. rewrite !length_app in Lm. unfold maximum_code_size in Lm.
  destruct (read_ops_survive m fd ft (length l2) [] (start_context ft) l2 ops bt c Hl2 ltac:(cbn [length]; lia) E3) as (b3 & S3 & L3 & V3).
  destruct (local_sets_spec sets F A 0 vt_any (or_introl (conj eq_refl eq_refl))) as (X & Lw & Cw & Tw & Fw).
  change (vt_any =? vt_any) with true in Lw, Cw. cbn [length sets_cost fold_right Nat.add] in Lw, Cw.
  destruct (total_expand sets F) as [Te We]. exists ops, b3. split.
  - constructor; cbn [def nonParameterLocalTypes code branchTables]; [|reflexivity|exact S3|exists ft, c; auto].
    constructor; [exact A|exact We|lia|lia].
  - cbv zeta. intros nb ls Sn Ll. unfold size, maximum_code_size in *. rewrite !length_app. split; [|lia].
    assert (length nb <= length b1)%nat by (apply (var32_length (Z.of_nat (length (local_sets 0 vt_any (expand sets)))) n); [lia|exact Sn|exact S1]).
    lia.
Qed.

Lemma function_body_canonical (m : Module) (type : Z) (l rest : list Z) (d : FunctionDefinition) : Forall is_byte l ->
  read (serializeFunctionBody m type) l = Some (d, rest) -> no_any d ->
  (exists pre bs, l = pre ++ rest /\ survives (serializeFunctionBody m type) d bs /\ (length bs <= length pre)%nat) /\
  exists ops bs, body_ok m d ops bs.
Proof.
  intros Hl H A. cbn [read serializeFunctionBody] in H. destruct (read serializeVarUInt32 l) as [[n l1]|] eqn:E1; [|discriminate].
  destruct (advance n l1) as [[body l2]|] eqn:E2; [|discriminate].
  destruct (read_body m type body) as [d'|] eqn:E3; [|discriminate]. injection H as <- <-.
  assert (Hb : Forall is_byte body).
  { pose proof (var32_read _ _ _ E1) as R. destruct (read_survives _ _ _ _ var32_canonical Hl E1) as (p & b & -> & _ & _ & Hl1).
    destruct (advance_spec _ _ _ _ (proj1 R) E2) as [-> _]. now apply Forall_app in Hl1. }
  destruct (read_body_ok m type body d' Hb E3 A) as (Ty & ops & bo & O & Len). split; [|exists ops, bo; exact O].
  destruct (body_survives m d' ops bo O) as (nb & ls & Sn & Ll & W & B & R). destruct (Len nb ls Sn Ll) as [L M]. subst type.
  set (bs := nb ++ ls ++ bo) in *. unfold size in *.
  destruct (sized_canonical _ _ _ _ bs _ Hl E1 E2 L) as (pre & hb & -> & (Wn & Bn & Rn) & Lh & _).
  exists pre, (hb ++ bs). split; [reflexivity|]. split; [|exact Lh]. unfold survives, serializeFunctionBody. cbn [write read].
  rewrite W, Wn. split; [reflexivity|]. split; [now apply forall_app_byte|]. intros rest. rewrite <- app_assoc, Rn.
  rewrite advance_app by reflexivity. now rewrite R by lia.
Qed.

(** ** Imports *)
Definition import_survives {T} (kind : ObjectKind) (c : codec T) (i : ImportOf T) (bs : list Z) : Prop :=
  exists xs ys zs, bs = xs ++ ys ++ zs /\ survives serialize_names (of_module i, of_export i) xs /\
    survives serialize_ObjectKind kind ys /\ survives c (of_type i) zs.
Inductive imports_survive {T} (kind : ObjectKind) (c : codec T) : list (ImportOf T) -> list Z -> Prop :=
  | imports_nil : imports_survive kind c [] []
  | imports_cons (i : ImportOf T) (l : list (ImportOf T)) (xs ys : list Z) :
      import_survives kind c i xs -> imports_survive kind c l ys -> imports_survive kind c (i :: l) (xs ++ ys).

Lemma imports_snoc {T} (kind : ObjectKind) (c : codec T) (l : list (ImportOf T)) (i : ImportOf T) (xs ys : list Z) :
  imports_survive kind c l xs -> import_survives kind c i ys -> imports_survive kind c (l ++ [i]) (xs ++ ys).
Proof.
  intros H Hi. induction H as [|j l a b Hj _ IH].
  - cbn [app]. pose proof (imports_cons kind c i [] ys [] Hi (imports_nil kind c)) as Q. rewrite app_nil_r in Q. exact Q.
  - cbn [app]. rewrite <- app_assoc. constructor; assumption.
Qed.

Lemma append_assoc (a b c : option (list Z)) : append a (append b c) = append (append a b) c.
Proof. destruct a, b, c; cbn; try reflexivity. now rewrite app_assoc. Qed.

Lemma imports_written {T} (kind : ObjectKind) (c : codec T) (l : list (ImportOf T)) (bs : list Z) : imports_survive kind c l bs ->
  write_imports kind c l = Some bs /\ Forall is_byte bs.
Proof.
  induction 1 as [|i l xs ys (n & k & z & -> & (Wn & Bn & _) & (Wk & Bk & _) & (Wz & Bz & _)) _ [W B]]; [split; [reflexivity|constructor]|].
  split; [|repeat apply forall_app_byte; assumption]. cbn [write_imports]. unfold write_import. rewrite append_assoc.
  cbn [write check_read sequence serialize_names] in Wn. rewrite Wn, Wk, Wz, W. reflexivity.
Qed.

(** The list of a kind with one more *)
Definition push_function (i : ImportOf Z) (s : import_lists) : import_lists :=
  Imports (function_imports s ++ [i]) (table_imports s) (memory_imports s) (global_imports s).
Definition push_table (i : ImportOf TableType) (s : import_lists) : import_lists :=
  Imports (function_imports s) (table_imports s ++ [i]) (memory_imports s) (global_imports s).
Definition push_memory (i : ImportOf (Z * Z)) (s : import_lists) : import_lists :=
  Imports (function_imports s) (table_imports s) (memory_imports s ++ [i]) (global_imports s).
Definition push_global (i : ImportOf (bool * Z)) (s : import_lists) : import_lists :=
  Imports (function_imports s) (table_imports s) (memory_imports s) (global_imports s ++ [i]).

(** An import that is read: its bytes, and what becomes of the lists *)
Inductive pushes (types : list FunctionType) (s : import_lists) (bs : list Z) : import_lists -> Prop :=
  | pushes_function (i : ImportOf Z) : import_survives function serializeVarUInt32 i bs -> of_type i < size types ->
      pushes types s bs (push_function i s)
  | pushes_table (i : ImportOf TableType) : import_survives table serialize_TableType i bs -> pushes types s bs (push_table i s)
  | pushes_memory (i : ImportOf (Z * Z)) : import_survives memory serialize_MemoryType i bs -> pushes types s bs (push_memory i s)
  | pushes_global (i : ImportOf (bool * Z)) : import_survives global serialize_GlobalType i bs -> pushes types s bs (push_global i s).

Lemma names_canonical : canonical serialize_names.
Proof. apply canonical_check_read, canonical_sequence; [exact name_canonical|]. intros _ _. exact name_canonical. Qed.

Section Imports.
Variable types : list FunctionType.

Lemma read_pushes (s s' : import_lists) (bs rest : list Z) : pushes types s bs s' -> size (function_imports s') < 1024 ->
  read_import types s (bs ++ rest) = Some (s', rest).
Proof.
  intros H L. destruct s as [fs ts ms gs].
  destruct H as [i (n & k & z & -> & (_ & _ & Rn) & (_ & _ & Rk) & (_ & _ & Rz)) Ht|i (n & k & z & -> & (_ & _ & Rn) & (_ & _ & Rk) & (_ & _ & Rz))
    |i (n & k & z & -> & (_ & _ & Rn) & (_ & _ & Rk) & (_ & _ & Rz))|i (n & k & z & -> & (_ & _ & Rn) & (_ & _ & Rk) & (_ & _ & Rz))];
    unfold read_import; rewrite <- !app_assoc, Rn, Rk, Rz; cbv zeta; destruct i as [t mn en]; cbn [of_type of_module of_export] in *;
    unfold push_function, push_table, push_memory, push_global in *;
    cbn [function_imports table_imports memory_imports global_imports] in *; unfold maximum_section_elements;
    try (destruct (Z.leb_spec (size types) t); [lia|]);
    (destruct (Z.leb_spec 1024 (size (fs ++ [MkImport t mn en]))) || destruct (Z.leb_spec 1024 (size fs))); try lia; reflexivity.
Qed.

Lemma import_pieces {T} (kind : ObjectKind) (c : codec T) (l l1 l2 rest : list Z) (mn en : string) (t : T) : canonical c ->
  Forall is_byte l -> read serialize_names l = Some ((mn, en), l1) -> read serialize_ObjectKind l1 = Some (kind, l2) ->
  read c l2 = Some (t, rest) ->
  exists pre bs, l = pre ++ rest /\ import_survives kind c (MkImport t mn en) bs /\ (length bs <= length pre)%nat.
Proof.
  intros Hc Hl E1 E2 E3. destruct (read_survives _ _ _ _ names_canonical Hl E1) as (p1 & b1 & -> & S1 & L1 & Hl1).
  destruct (read_survives _ _ _ _ kind_canonical Hl1 E2) as (p2 & b2 & -> & S2 & L2 & Hl2).
  destruct (read_survives _ _ _ _ Hc Hl2 E3) as (p3 & b3 & -> & S3 & L3 & _).
  exists (p1 ++ p2 ++ p3), (b1 ++ b2 ++ b3). split; [now rewrite !app_assoc|]. split; [|rewrite !length_app; lia].
  exists b1, b2, b3. auto.
Qed.

Lemma read_import_canonical (s s' : import_lists) (l rest : list Z) : Forall is_byte l -> read_import types s l = Some (s', rest) ->
  exists pre bs, l = pre ++ rest /\ pushes types s bs s' /\ (length bs <= length pre)%nat /\ size (function_imports s') < 1024.
Proof.
  intros Hl H. destruct s as [fs ts ms gs]. unfold read_import in H. cbv zeta in H. unfold maximum_section_elements in H.
  destruct (read serialize_names l) as [[[mn en] l1]|] eqn:E1; [|discriminate].
  destruct (read serialize_ObjectKind l1) as [[k l2]|] eqn:E2; [|discriminate]. destruct k.
  - destruct (read serializeVarUInt32 l2) as [[t l3]|] eqn:E3; [|discriminate].
    destruct (Z.leb_spec (size types) t); [discriminate|]. cbn [function_imports] in H.
    destruct (Z.leb_spec 1024 (size (fs ++ [MkImport t mn en]))); [discriminate|]. injection H as <- <-.
    destruct (import_pieces _ _ _ _ _ _ _ _ _ var32_canonical Hl E1 E2 E3) as (p & b & -> & S & L). exists p, b.
    split; [reflexivity|]. split; [apply (pushes_function types (Imports fs ts ms gs)) in S; [exact S|exact H0]|]. split; [exact L|assumption].
  - destruct (read serialize_TableType l2) as [[t l3]|] eqn:E3; [|discriminate]. cbn [function_imports] in H.
    destruct (Z.leb_spec 1024 (size fs)); [discriminate|]. injection H as <- <-.
    destruct (import_pieces _ _ _ _ _ _ _ _ _ table_type_canonical Hl E1 E2 E3) as (p & b & -> & S & L). exists p, b.
    split; [reflexivity|]. split; [exact (pushes_table types (Imports fs ts ms gs) b _ S)|]. split; [exact L|assumption].
  - destruct (read serialize_MemoryType l2) as [[t l3]|] eqn:E3; [|discriminate]. cbn [function_imports] in H.
    destruct (Z.leb_spec 1024 (size fs)); [discriminate|]. injection H as <- <-.
    destruct (import_pieces _ _ _ _ _ _ _ _ _ memory_type_canonical Hl E1 E2 E3) as (p & b & -> & S & L). exists p, b.
    split; [reflexivity|]. split; [exact (pushes_memory types (Imports fs ts ms gs) b _ S)|]. split; [exact L|assumption].
  - destruct (read serialize_GlobalType l2) as [[t l3]|] eqn:E3; [|discriminate]. cbn [function_imports] in H.
    destruct (Z.leb_spec 1024 (size fs)); [discriminate|]. injection H as <- <-.
    destruct (import_pieces _ _ _ _ _ _ _ _ _ global_type_canonical Hl E1 E2 E3) as (p & b & -> & S & L). exists p, b.
    split; [reflexivity|]. split; [exact (pushes_global types (Imports fs ts ms gs) b _ S)|]. split; [exact L|assumption].
Qed.

(** The bytes of the four lists *)
Record lists_survive (s : import_lists) (bf bt bm bg : list Z) : Prop := {
  fs_survive : imports_survive function serializeVarUInt32 (function_imports s) bf;
  fs_types : Forall (fun i => of_type i < size types) (function_imports s);
  ts_survive : imports_survive table serialize_TableType (table_imports s) bt;
  ms_survive : imports_survive memory serialize_MemoryType (memory_imports s) bm;
  gs_survive : imports_survive global serialize_GlobalType (global_imports s) bg
}.
Definition imports_number (s : import_lists) : nat :=
  length (function_imports s) + length (table_imports s) + length (memory_imports s) + length (global_imports s).

Lemma pushes_survive (s s' : import_lists) (bs bf bt bm bg : list Z) : pushes types s bs s' -> lists_survive s bf bt bm bg ->
  exists bf' bt' bm' bg', lists_survive s' bf' bt' bm' bg' /\
    length (bf' ++ bt' ++ bm' ++ bg') = (length (bf ++ bt ++ bm ++ bg) + length bs)%nat /\ imports_number s' = S (imports_number s).
Proof.
  intros H [F Ft T M G]. unfold imports_number. destruct H as [i Hi Hty|i Hi|i Hi|i Hi].
  - exists (bf ++ bs), bt, bm, bg. split; [constructor; cbn; try assumption; [now apply imports_snoc|]|].
    + apply Forall_app. auto.
    + cbn. rewrite !length_app. cbn. lia.
  - exists bf, (bt ++ bs), bm, bg. split; [constructor; cbn; try assumption; now apply imports_snoc|]. cbn. rewrite !length_app. cbn. lia.
  - exists bf, bt, (bm ++ bs), bg. split; [constructor; cbn; try assumption; now apply imports_snoc|]. cbn. rewrite !length_app. cbn. lia.
  - exists bf, bt, bm, (bg ++ bs). split; [constructor; cbn; try assumption; now apply imports_snoc|]. cbn. rewrite !length_app. cbn. lia.
Qed.

Lemma read_imports_canonical (n : nat) : forall s s' l rest bf bt bm bg, Forall is_byte l -> lists_survive s bf bt bm bg ->
  size (function_imports s) < 1024 -> read_imports types n s l = Some (s', rest) ->
  exists pre bf' bt' bm' bg', l = pre ++ rest /\ lists_survive s' bf' bt' bm' bg' /\ size (function_imports s') < 1024 /\
    (length (bf' ++ bt' ++ bm' ++ bg') <= length (bf ++ bt ++ bm ++ bg) + length pre)%nat /\ imports_number s' = (imports_number s + n)%nat.
Proof.
  induction n as [|n IH]; intros s s' l rest bf bt bm bg Hl S L H; cbn [read_imports] in H.
  - injection H as <- <-. exists [], bf, bt, bm, bg. repeat split; try apply S; try exact L; cbn; lia.
  - destruct (read_import types s l) as [[s1 l1]|] eqn:E; [|discriminate].
    destruct (read_import_canonical _ _ _ _ Hl E) as (p1 & b1 & -> & P & L1 & K). pose proof (rest_bytes _ _ Hl) as Hl1.
    destruct (pushes_survive _ _ _ _ _ _ _ P S) as (f1 & t1 & m1 & g1 & S1 & N1 & C1).
    destruct (IH _ _ _ _ _ _ _ _ Hl1 S1 K H) as (p2 & f2 & t2 & m2 & g2 & -> & S2 & K2 & N2 & C2).
    exists (p1 ++ p2), f2, t2, m2, g2. split; [apply app_assoc|]. split; [exact S2|]. split; [exact K2|].
    rewrite (length_app p1 p2). lia.
Qed.

(** The imports of one kind are read one after the other. *)
Lemma read_group {T} (kind : ObjectKind) (c : codec T) (push : ImportOf T -> import_lists -> import_lists) (l : list (ImportOf T)) (bs : list Z) :
  (forall i b s, In i l -> import_survives kind c i b -> pushes types s b (push i s)) -> imports_survive kind c l bs ->
  forall n s rest, (forall k, size (function_imports (fold_left (fun s i => push i s) (firstn k l) s)) < 1024) ->
  read_imports types (length l + n) s (bs ++ rest) = read_imports types n (fold_left (fun s i => push i s) l s) rest.
Proof.
  intros Hp H. induction H as [|i l xs ys Hi _ IH]; intros n s rest Hs; [reflexivity|].
  cbn [length Nat.add read_imports fold_left]. rewrite <- app_assoc.
  rewrite (read_pushes s (push i s)); [|apply Hp; [now left|exact Hi]|exact (Hs 1%nat)].
  apply IH; [intros j b s' I; apply Hp; now right|]. intros k. exact (Hs (S k)).
Qed.

Lemma push_all (s : import_lists) :
  (forall l, fold_left (fun s i => push_function i s) l s = Imports (function_imports s ++ l) (table_imports s) (memory_imports s) (global_imports s)) /\
  (forall l, fold_left (fun s i => push_table i s) l s = Imports (function_imports s) (table_imports s ++ l) (memory_imports s) (global_imports s)) /\
  (forall l, fold_left (fun s i => push_memory i s) l s = Imports (function_imports s) (table_imports s) (memory_imports s ++ l) (global_imports s)) /\
  (forall l, fold_left (fun s i => push_global i s) l s = Imports (function_imports s) (table_imports s) (memory_imports s) (global_imports s ++ l)).
Proof.
  repeat split; intros l; revert s; induction l as [|i l IH]; intros s; cbn [fold_left];
    try (rewrite app_nil_r; now destruct s); rewrite IH; cbn; now rewrite <- app_assoc.
Qed.

Lemma imports_read_again (s : import_lists) (bf bt bm bg rest : list Z) : lists_survive s bf bt bm bg -> size (function_imports s) < 1024 ->
  read_imports types (imports_number s) (Imports [] [] [] []) ((bf ++ bt ++ bm ++ bg) ++ rest) = Some (s, rest).
Proof.
  intros [F Ft T M G] L. destruct s as [fs ts ms gs]. unfold imports_number. cbn [function_imports table_imports memory_imports global_imports] in *.
  rewrite <- !Nat.add_assoc, <- !app_assoc.
  assert (K : forall k a b c, size (function_imports (Imports (firstn k fs) a b c)) < 1024)
    by (intros; cbn; unfold size in *; rewrite length_firstn; lia).
  rewrite (read_group function serializeVarUInt32 push_function fs bf).
  2:{ intros i b s I. intros S. apply pushes_function; [exact S|]. rewrite Forall_forall in Ft. now apply Ft. }
  2:{ exact F. }
  2:{ intros k. rewrite (proj1 (push_all _)). apply K. }
  rewrite (proj1 (push_all _)). cbn [function_imports table_imports memory_imports global_imports app].
  rewrite (read_group table serialize_TableType push_table ts bt (fun i b s _ S => pushes_table types s b i S) T).
  2:{ intros k. rewrite (proj1 (proj2 (push_all _))). exact L. }
  rewrite (proj1 (proj2 (push_all _))). cbn [function_imports table_imports memory_imports global_imports app].
  rewrite (read_group memory serialize_MemoryType push_memory ms bm (fun i b s _ S => pushes_memory types s b i S) M).
  2:{ intros k. rewrite (proj1 (proj2 (proj2 (push_all _)))). exact L. }
  rewrite (proj1 (proj2 (proj2 (push_all _)))). cbn [function_imports table_imports memory_imports global_imports app].
  rewrite <- (Nat.add_0_r (length gs)).
  rewrite (read_group global serialize_GlobalType push_global gs bg (fun i b s _ S => pushes_global types s b i S) G).
  2:{ intros k. rewrite (proj2 (proj2 (proj2 (push_all _)))). exact L. }
  rewrite (proj2 (proj2 (proj2 (push_all _)))). reflexivity.
Qed.
End Imports.

Lemma import_section_canonical (m : Module) : canonical (serializeImportSection m).
Proof.
  intros l s rest Hl H. cbn [read serializeImportSection] in H. destruct (read serializeVarUInt32 l) as [[n l1]|] eqn:E; [|discriminate].
  pose proof (var32_read _ _ _ E) as Rn. destruct (read_survives _ _ _ _ var32_canonical Hl E) as (p1 & b1 & -> & (W1 & B1 & R1) & L1 & Hl1).
  destruct (read_imports_canonical (m_types m) (Z.to_nat n) (Imports [] [] [] []) s l1 rest [] [] [] [] Hl1 ltac:(repeat constructor) ltac:(cbn; lia) H)
    as (p2 & bf & bt & bm & bg & -> & S & K & L2 & C).
  exists (p1 ++ p2), (b1 ++ bf ++ bt ++ bm ++ bg). split; [apply app_assoc|]. split; [|cbn [app length] in L2; rewrite (length_app p1), (length_app b1); lia].
  pose proof S as [F _ T M G].
  destruct (imports_written _ _ _ _ F) as [WF BF], (imports_written _ _ _ _ T) as [WT BT], (imports_written _ _ _ _ M) as [WM BM],
    (imports_written _ _ _ _ G) as [WG BG].
  cbn in C. assert (En : n = Z.of_nat (imports_number s)) by lia.
  split; [|split].
  - destruct s as [fs ts ms gs]. cbn [write serializeImportSection function_imports table_imports memory_imports global_imports] in *.
    replace (size fs + size ts + size ms + size gs) with n by (rewrite En; unfold imports_number, size; cbn; lia).
    rewrite W1, WF, WT, WM, WG. reflexivity.
  - repeat apply forall_app_byte; assumption.
  - intros rest'. cbn [read serializeImportSection]. rewrite <- app_assoc, R1, En, Nat2Z.id. now apply imports_read_again.
Qed.

(** ** Functions *)
Lemma write_all_check {A} (p : A -> bool) (c : codec A) (l : list A) : write_all (check_read p c) l = write_all c l.
Proof. induction l as [|a l IH]; [reflexivity|]. cbn [write_all]. now rewrite IH. Qed.

Lemma function_section_canonical (m : Module) : canonical (serializeFunctionSection m).
Proof.
  intros l ts rest Hl H. cbn [read serializeFunctionSection] in H. destruct (read serializeVarUInt32 l) as [[n l1]|] eqn:E; [|discriminate].
  pose proof (var32_read _ _ _ E) as Rn. destruct (read_survives _ _ _ _ var32_canonical Hl E) as (p1 & b1 & -> & (W1 & B1 & R1) & L1 & Hl1).
  destruct (maximum_section_elements <=? n) eqn:Q; [discriminate|].
  destruct (read_all_canonical _ (canonical_check_read _ _ var32_canonical) _ _ _ _ Hl1 H) as (p2 & b2 & -> & S2 & L2 & N2).
  destruct (survive_all_spec _ _ _ S2) as (W2 & B2 & R2). rewrite write_all_check in W2.
  assert (En : n = size ts) by (unfold size; lia).
  exists (p1 ++ p2), (b1 ++ b2). split; [apply app_assoc|]. split; [|rewrite !length_app; lia].
  split; [cbn [write serializeFunctionSection]; rewrite <- En, W1, W2; reflexivity|]. split; [now apply forall_app_byte|].
  intros rest'. cbn [read serializeFunctionSection]. rewrite <- app_assoc, R1, Q, <- N2. apply R2.
Qed.

Lemma body_type (m : Module) (type : Z) (l rest : list Z) (d : FunctionDefinition) :
  read (serializeFunctionBody m type) l = Some (d, rest) -> type_index (def d) = type.
Proof.
  cbn [read serializeFunctionBody]. destruct (read serializeVarUInt32 l) as [[n l1]|]; [|discriminate].
  destruct (advance n l1) as [[body l2]|]; [|discriminate]. destruct (read_body m type body) as [d'|] eqn:E; [|discriminate].
  intros [= <- _]. revert E. unfold read_body. destruct (read serializeVarUInt32 body) as [[k l3]|]; [|discriminate].
  destruct (maximum_code_size <=? _); [discriminate|]. destruct (1024 <=? k); [discriminate|].
  destruct (read_local_sets _ _ _ _) as [[locals l4]|]; [|discriminate]. cbv zeta.
  destruct (function_type _ _) as [ft|]; [|discriminate]. destruct (read_ops _ _ _ _ _ _ _) as [[[ops bt] c]|]; [|discriminate].
  destruct (finish c); [|discriminate]. intros [= <-]. reflexivity.
Qed.

Lemma bodies_types (m : Module) (types : list Z) : forall l ds rest, read_bodies m types l = Some (ds, rest) ->
  map (fun d => type_index (def d)) ds = types.
Proof.
  induction types as [|t types IH]; intros l ds rest H; cbn [read_bodies] in H; [now injection H as <- _|].
  destruct (read (serializeFunctionBody m t) l) as [[d l1]|] eqn:E; [|discriminate].
  destruct (read_bodies m types l1) as [[ds1 l2]|] eqn:E2; [|discriminate]. injection H as <- _.
  cbn [map]. now rewrite (body_type _ _ _ _ _ E), (IH _ _ _ E2).
Qed.

Lemma read_bodies_canonical (m : Module) (types : list Z) : forall l ds rest, Forall is_byte l ->
  read_bodies m types l = Some (ds, rest) -> Forall no_any ds ->
  exists pre bs, l = pre ++ rest /\ write_bodies m ds = Some bs /\ Forall is_byte bs /\ (length bs <= length pre)%nat /\
    forall rest', read_bodies m types (bs ++ rest') = Some (ds, rest').
Proof.
  induction types as [|t types IH]; intros l ds rest Hl H A; cbn [read_bodies] in H.
  - injection H as <- <-. exists [], []. repeat split; constructor.
  - destruct (read (serializeFunctionBody m t) l) as [[d l1]|] eqn:E; [|discriminate].
    destruct (read_bodies m types l1) as [[ds1 l2]|] eqn:E2; [|discriminate]. injection H as <- <-. inversion A as [|? ? A1 A2]; subst.
    destruct (function_body_canonical _ _ _ _ _ Hl E A1) as [(p1 & b1 & -> & (W1 & B1 & R1) & L1) _]. pose proof (rest_bytes _ _ Hl) as Hl1.
    destruct (IH _ _ _ Hl1 E2 A2) as (p2 & b2 & -> & W2 & B2 & L2 & R2). exists (p1 ++ p2), (b1 ++ b2). split; [apply app_assoc|].
    split; [cbn [write_bodies]; rewrite (body_type _ _ _ _ _ E), W1, W2; reflexivity|]. split; [now apply forall_app_byte|].
    split; [rewrite !length_app; lia|]. intros rest'. cbn [read_bodies]. rewrite <- app_assoc, R1, R2. reflexivity.
Qed.

Lemma code_types (m : Module) (l rest : list Z) (ds : list FunctionDefinition) : read (serializeCodeSection m) l = Some (ds, rest) ->
  map (fun d => type_index (def d)) ds = map (fun d => type_index (def d)) (space_defs (m_functions m)).
Proof.
  cbn [read serializeCodeSection]. destruct (read serializeVarUInt32 l) as [[n l1]|]; [|discriminate]. cbv zeta.
  destruct (negb _); [discriminate|]. apply bodies_types.
Qed.

Lemma code_section_canonical (m : Module) (l rest : list Z) (ds : list FunctionDefinition) : Forall is_byte l ->
  read (serializeCodeSection m) l = Some (ds, rest) -> Forall no_any ds ->
  exists pre bs, l = pre ++ rest /\ survives (serializeCodeSection m) ds bs /\ (length bs <= length pre)%nat.
Proof.
  intros Hl H A. pose proof (code_types _ _ _ _ H) as T. cbn [read serializeCodeSection] in H. cbv zeta in H.
  destruct (read serializeVarUInt32 l) as [[n l1]|] eqn:E; [|discriminate].
  destruct (read_survives _ _ _ _ var32_canonical Hl E) as (p1 & b1 & -> & (W1 & B1 & R1) & L1 & Hl1).
  destruct (negb (n =? _)) eqn:En; [discriminate|]. pose proof En as En'. apply negb_false_iff, Z.eqb_eq in En'.
  destruct (read_bodies_canonical _ _ _ _ _ Hl1 H A) as (p2 & b2 & -> & W2 & B2 & L2 & R2).
  exists (p1 ++ p2), (b1 ++ b2). split; [apply app_assoc|]. split; [|rewrite !length_app; lia].
  assert (Sn : size ds = n) by (rewrite En', <- T; unfold size; now rewrite length_map).
  split; [cbn [write serializeCodeSection]; cbv zeta; rewrite Sn, W1, W2; reflexivity|]. split; [now apply forall_app_byte|].
  intros rest'. cbn [read serializeCodeSection]. cbv zeta. rewrite <- app_assoc, R1, En. apply R2.
Qed.

(** ** Sections *)
Definition no_any_module (m : Module) : Prop := Forall no_any (space_defs (m_functions m)).
Definition coded (m : Module) : Prop := Forall (fun d => code (def d) <> []) (space_defs (m_functions m)).
(** A section that has not been read *)
Definition untouched (s : section) (m : Module) : Prop :=
  present s m = false \/ section_type s = 10 /\ Forall (fun d => code (def d) = []) (space_defs (m_functions m)).
Definition was_read (s : section) (m : Module) (c : content s) : Prop := exists l rest, read (body s m) l = Some (c, rest).

Ltac each_section H :=
  cbn [sections In] in H;
  destruct H as [<-|[<-|[<-|[<-|[<-|[<-|[<-|[<-|[<-|[<-|[<-|[]]]]]]]]]]]].

Section Laws.
Variable s : section.
Hypothesis Hs : In s sections.

Lemma section_canonical (m final : Module) (l rest : list Z) (c : content s) : Forall is_byte l ->
  read (body s m) l = Some (c, rest) -> no_any_module final -> content_of s final = c ->
  exists pre bs, l = pre ++ rest /\ survives (body s m) c bs /\ (length bs <= length pre)%nat.
Proof.
  each_section Hs; intros Hl H A <-; cbn [body content] in *.
  - exact (array_canonical _ function_type_canonical _ _ _ Hl H).
  - exact (import_section_canonical _ _ _ _ Hl H).
  - exact (function_section_canonical _ _ _ _ Hl H).
  - exact (array_canonical _ table_type_canonical _ _ _ Hl H).
  - exact (array_canonical _ memory_type_canonical _ _ _ Hl H).
  - exact (array_canonical _ global_def_canonical _ _ _ Hl H).
  - exact (array_canonical _ export_canonical _ _ _ Hl H).
  - exact (var32_canonical _ _ _ Hl H).
  - exact (array_canonical _ table_segment_canonical _ _ _ Hl H).
  - exact (code_section_canonical _ _ _ _ Hl H A).
  - exact (array_canonical _ data_segment_canonical _ _ _ Hl H).
Qed.

Lemma section_writer (m m' : Module) (c : content s) : write (body s m) c = write (body s m') c.
Proof.
  each_section Hs; reflexivity.
Qed.

Lemma section_content (m : Module) (c : content s) : content_of s (with_content s c m) = c.
Proof.
  each_section Hs; cbn; try reflexivity; [now destruct c|]. rewrite map_map. apply map_id.
Qed.

Lemma section_found : find (fun x => section_type x =? section_type s) sections = Some s /\ 0 < section_type s < 256.
Proof. each_section Hs; split; (reflexivity || split; reflexivity). Qed.
End Laws.

(** Reading code keeps the number of the functions. *)
Lemma code_same (m : Module) (ds : list FunctionDefinition) : was_read code_section m ds ->
  map (fun d => type_index (def d)) ds = map (fun d => type_index (def d)) (space_defs (m_functions m)) /\
  nonempty ds = nonempty (space_defs (m_functions m)).
Proof.
  intros (l & rest & H). apply code_types in H. split; [exact H|]. apply (f_equal (@List.length Z)) in H. rewrite !length_map in H.
  destruct ds, (space_defs (m_functions m)); cbn in *; (reflexivity || discriminate).
Qed.

(** What the other sections leave of a section *)
Lemma section_kept (s s' : section) (m : Module) (c : content s') : In s sections -> In s' sections ->
  section_type s < section_type s' -> was_read s' m c ->
  content_of s (with_content s' c m) = content_of s m /\ present s (with_content s' c m) = present s m.
Proof.
  intros Hs Hs' L R. each_section Hs; each_section Hs'; try (cbn in L; lia); try (split; reflexivity);
    try (destruct c; split; reflexivity). apply code_same in R as [R1 R2]. split; [exact R1|exact R2].
Qed.

Lemma section_untouched (s s' : section) (m : Module) (c : content s') : In s sections -> In s' sections ->
  section_type s <> section_type s' -> was_read s' m c -> untouched s m -> untouched s (with_content s' c m).
Proof.
  intros Hs Hs' L R [U|[U F]].
  - each_section Hs; each_section Hs'; try (exfalso; apply L; reflexivity); try (left; exact U); try (destruct c; left; exact U).
    + left. apply code_same in R as [_ R]. cbn in *. congruence.
    + right. split; [reflexivity|]. cbn. apply Forall_forall. intros d I. apply in_map_iff in I as (t & <- & _). reflexivity.
  - each_section Hs; try discriminate U.
    each_section Hs'; try (exfalso; apply L; reflexivity); try (right; split; [reflexivity|exact F]); try (destruct c; right; split; [reflexivity|exact F]).
    right. split; [reflexivity|]. cbn. apply Forall_forall. intros d I. apply in_map_iff in I as (t & <- & _). reflexivity.
Qed.

Lemma untouched_absent (s : section) (m : Module) : In s sections -> untouched s m -> coded m -> present s m = false.
Proof.
  intros Hs [U|[U F]] C; [exact U|]. each_section Hs; try discriminate U. cbn. unfold coded in C.
  destruct (space_defs (m_functions m)) as [|d ds]; [reflexivity|]. inversion F; inversion C; contradiction.
Qed.

(** A section without content changes nothing. *)
Lemma section_empty (s : section) (m : Module) (c : content s) : In s sections -> was_read s m c -> untouched s m ->
  present s (with_content s c m) = false -> with_content s c m = m.
Proof.
  intros Hs R U P. destruct m as [ty [fi fd] [ti td] [mi md] [gi gd] ex da ta st]. unfold untouched in U.
  each_section Hs; cbn in *; try (destruct U as [U|[U _]]; [|discriminate U]).
  - destruct c, ty; (reflexivity || discriminate).
  - destruct c as [[] [] [] []], fi, ti, mi, gi; (reflexivity || discriminate).
  - destruct c, fd; (reflexivity || discriminate).
  - destruct c, td; (reflexivity || discriminate).
  - destruct c, md; (reflexivity || discriminate).
  - destruct c, gd; (reflexivity || discriminate).
  - destruct c, ex; (reflexivity || discriminate).
  - destruct R as (l & rest & R). apply var32_read in R. apply negb_false_iff, Z.eqb_eq in P. unfold UINTPTR_MAX in P. lia.
  - destruct c, ta; (reflexivity || discriminate).
  - apply code_same in R as [_ R]. cbn in R. destruct c, fd; (reflexivity || discriminate).
  - destruct c, da; (reflexivity || discriminate).
Qed.

(** The content of a section in a stream of its own *)
Lemma section_stream (s : section) (m final : Module) (l rest : list Z) (c : content s) : In s sections -> Forall is_byte l ->
  read (serializeSection (body s m)) l = Some (c, rest) -> no_any_module final -> content_of s final = c ->
  was_read s m c /\
  exists pre bs, l = pre ++ rest /\ survives (serializeSection (body s m)) c bs /\ (length bs <= length pre)%nat.
Proof.
  intros Hs Hl H A Ec. cbn [read serializeSection] in H. destruct (read serializeVarUInt32 l) as [[n l1]|] eqn:E1; [|discriminate].
  destruct (advance n l1) as [[bytes l2]|] eqn:E2; [|discriminate].
  destruct (read (body s m) bytes) as [[c' [|x more]]|] eqn:E3; [|discriminate|discriminate]. injection H as -> ->.
  split; [exists bytes, []; exact E3|].
  assert (Hb : Forall is_byte bytes).
  { pose proof (var32_read _ _ _ E1) as R. destruct (read_survives _ _ _ _ var32_canonical Hl E1) as (p & b & -> & _ & _ & Hl1).
    destruct (advance_spec _ _ _ _ (proj1 R) E2) as [-> _]. now apply Forall_app in Hl1. }
  destruct (section_canonical s Hs m final _ _ _ Hb E3 A Ec) as (p & bs & Q & (W & B & R) & L). rewrite app_nil_r in Q. subst p.
  destruct (sized_canonical _ _ _ _ bs _ Hl E1 E2 L) as (pre & nb & -> & (Wn & Bn & Rn) & Ln & _).
  exists pre, (nb ++ bs). split; [reflexivity|]. split; [|exact Ln]. unfold survives, serializeSection. cbn [write read].
  rewrite W, Wn. split; [reflexivity|]. split; [now apply forall_app_byte|]. intros rest'. rewrite <- app_assoc, Rn.
  rewrite advance_app by reflexivity. specialize (R []). rewrite app_nil_r in R. now rewrite R.
Qed.

(** ** The order of the sections *)
Definition after (last : Z) (ss : list section) : list section := filter (fun s => last <? section_type s) ss.

Fixpoint rising (last : Z) (ss : list section) : Prop :=
  match ss with [] => True | s :: ss => last < section_type s /\ rising (section_type s) ss end.

Lemma rising_after (ss : list section) : forall k last, rising k ss -> last <= k -> after last ss = ss.
Proof.
  induction ss as [|s ss IH]; intros k last R L; [reflexivity|]. destruct R as [R1 R2]. unfold after. cbn [filter].
  destruct (Z.ltb_spec last (section_type s)); [|lia]. f_equal. apply (IH (section_type s)); [exact R2|lia].
Qed.

Lemma after_split (s : section) (last : Z) (ss : list section) : forall k, rising k ss -> In s ss -> last < section_type s ->
  exists skipped, after last ss = skipped ++ s :: after (section_type s) ss /\
    Forall (fun x => In x ss /\ last < section_type x < section_type s) skipped.
Proof.
  induction ss as [|x ss IH]; intros k R I L; [destruct I|]. destruct R as [R1 R2]. unfold after. cbn [filter].
  destruct I as [->|I].
  - exists []. destruct (Z.ltb_spec last (section_type s)); [|lia]. destruct (Z.ltb_spec (section_type s) (section_type s)); [lia|].
    cbn [app]. fold (after last ss) (after (section_type s) ss). split; [|constructor]. f_equal.
    rewrite (rising_after ss (section_type s) last R2), (rising_after ss (section_type s) (section_type s) R2) by lia. reflexivity.
  - assert (Lx : section_type x < section_type s).
    { clear -R2 I. revert x R2. induction ss as [|y ss IH]; intros x R2; [destruct I|]. destruct R2 as [Ry R2]. destruct I as [->|I]; [exact Ry|].
      specialize (IH I y R2). lia. }
    destruct (IH _ R2 I L) as (sk & E & F). fold (after last ss) (after (section_type s) ss).
    destruct (Z.ltb_spec (section_type s) (section_type x)); [lia|]. rewrite E.
    assert (F' : Forall (fun y => In y (x :: ss) /\ last < section_type y < section_type s) sk)
      by (eapply Forall_impl; [|exact F]; intros y [? ?]; split; [now right|assumption]).
    destruct (Z.ltb_spec last (section_type x)); [|exists sk; split; [reflexivity|exact F']].
    exists (x :: sk). split; [reflexivity|]. constructor; [split; [now left|lia]|exact F'].
Qed.

Lemma sections_rise : rising 0 sections.
Proof. cbn. lia. Qed.

Lemma write_skipped (skipped ss : list section) (m : Module) : Forall (fun s => present s m = false) skipped ->
  write_sections (skipped ++ ss) m = write_sections ss m.
Proof.
  induction 1 as [|s l H _ IH]; [reflexivity|]. cbn [app write_sections]. unfold write_section. rewrite H, IH.
  destruct (write_sections ss m); reflexivity.
Qed.

Lemma user_section_rest (l rest : list Z) (u : UserSection) : Forall is_byte l -> read_user_section l = Some (u, rest) ->
  Forall is_byte rest /\ (length rest <= length l)%nat.
Proof.
  intros Hl H. unfold read_user_section in H. destruct (read serializeVarUInt32 l) as [[n l1]|] eqn:E1; [|discriminate].
  destruct (advance n l1) as [[bytes l2]|] eqn:E2; [|discriminate].
  destruct (read serialize_string bytes) as [[name data]|]; [|discriminate]. destruct (negb _); [discriminate|].
  destruct (size data <? 65536); [|discriminate]. injection H as <- <-. pose proof (var32_read _ _ _ E1) as R.
  destruct (read_survives _ _ _ _ var32_canonical Hl E1) as (p & b & -> & _ & _ & Hl1).
  destruct (advance_spec _ _ _ _ (proj1 R) E2) as [-> _]. split; [exact (rest_bytes _ _ Hl1)|]. rewrite !length_app. lia.
Qed.

Lemma section_rest {A} (c : codec A) (l rest : list Z) (a : A) : Forall is_byte l -> read (serializeSection c) l = Some (a, rest) ->
  Forall is_byte rest /\ (length rest <= length l)%nat /\ exists bytes, read c bytes = Some (a, []).
Proof.
  intros Hl E. cbn [read serializeSection] in E. destruct (read serializeVarUInt32 l) as [[n l1]|] eqn:E1; [|discriminate].
  destruct (advance n l1) as [[bytes l2]|] eqn:E2; [|discriminate]. destruct (read c bytes) as [[a' [|x more]]|] eqn:E3; try discriminate.
  apply some_inj in E. assert (Ea : a' = a) by congruence. assert (El : l2 = rest) by congruence. subst a' l2. clear E.
  pose proof (var32_read _ _ _ E1) as R. destruct (read_survives _ _ _ _ var32_canonical Hl E1) as (p & b & -> & _ & _ & Hl1).
  destruct (advance_spec _ _ _ _ (proj1 R) E2) as [-> _]. split; [exact (rest_bytes _ _ Hl1)|]. split; [rewrite !length_app; lia|].
  now exists bytes.
Qed.

(** More fuel than bytes changes nothing. *)
Lemma read_sections_fuel (fuel : nat) : forall more last m us l, Forall is_byte l -> (length l <= fuel)%nat -> (length l <= more)%nat ->
  read_sections fuel last m us l = read_sections more last m us l.
Proof.
  induction fuel as [|fuel IH]; intros more last m us l Hl L M; (destruct l as [|t l]; [now destruct more|]); cbn [length] in *; [lia|].
  destruct more as [|more]; [lia|]. inversion Hl as [|? ? _ Hl1]; subst. cbn [read_sections]. destruct (t =? 0).
  - destruct (read_user_section l) as [[u r]|] eqn:E; [|reflexivity]. destruct (user_section_rest _ _ _ Hl1 E). apply IH; [assumption|lia|lia].
  - destruct (negb _); [reflexivity|]. destruct (find _ sections) as [s|]; [|reflexivity]. unfold read_section.
    destruct (read _ l) as [[c r]|] eqn:E; [|reflexivity]. destruct (section_rest _ _ _ _ Hl1 E) as (H1 & H2 & _). apply IH; [exact H1|lia|lia].
Qed.

(** ** The loop over the sections *)
Record written (last : Z) (m final : Module) (n : nat) (bs : list Z) : Prop := {
  w_sections : write_sections (after last sections) final = Some bs;
  w_length : (length bs <= n)%nat;
  w_bytes : Forall is_byte bs;
  w_read : forall fuel us, (length bs <= fuel)%nat -> read_sections fuel last m us bs = Some (final, us);
  w_kept : forall s, In s sections -> section_type s <= last -> content_of s final = content_of s m /\ present s final = present s m;
  w_untouched : forall s, In s sections -> section_type s <= last -> untouched s m -> untouched s final
}.

Lemma written_none (last : Z) (m : Module) (n : nat) : (forall s, In s sections -> last < section_type s -> untouched s m) -> coded m ->
  written last m m n [].
Proof.
  intros U C. constructor; [|cbn; lia|constructor|intros [|fuel] us _; reflexivity|auto|auto].
  rewrite <- (app_nil_r (after last sections)). rewrite write_skipped; [reflexivity|]. apply Forall_forall. intros s I.
  apply filter_In in I as [I L]. apply Z.ltb_lt in L. apply untouched_absent; [exact I|now apply U|exact C].
Qed.

(** No section that is written is a user section. *)
Lemma sections_begin (m : Module) (ss : list section) : forall bs, (forall x, In x ss -> In x sections) -> write_sections ss m = Some bs ->
  hd_error bs <> Some 0.
Proof.
  induction ss as [|x ss IH]; intros bs I H; [injection H as <-; discriminate|]. cbn [write_sections] in H. unfold write_section in H.
  destruct (present x m).
  - destruct (write (serializeSection (body x m)) (content_of x m)) as [w|]; [|discriminate].
    destruct (write_sections ss m) as [w'|]; [|discriminate]. apply some_inj in H. subst bs.
    destruct (section_found x (I x (or_introl eq_refl))) as [_ B]. cbn [to_bytes app hd_error]. rewrite uwrap_small by lia.
    intros Q. apply some_inj in Q. lia.
  - destruct (write_sections ss m) as [w'|] eqn:Ew; [|discriminate]. apply some_inj in H. subst bs.
    apply IH; [intros y Hy; apply I; now right|reflexivity].
Qed.

Lemma written_section (s : section) (last : Z) (m final : Module) (c : content s) (p bs bs' : list Z) (n : nat) :
  In s sections -> last < section_type s -> (forall x, In x sections -> last < section_type x -> untouched x m) -> coded final ->
  was_read s m c -> survives (serializeSection (body s m)) c bs -> (length bs <= length p)%nat ->
  written (section_type s) (with_content s c m) final n bs' ->
  exists b, written last m final (S (length p + n)) b.
Proof.
  intros Hs L U C R (W & B & Rd) Lb [W1 L1 B1 R1 K1 U1].
  assert (Un : forall x, In x sections -> section_type x < section_type s -> untouched x m -> untouched x final).
  { intros x I N Ux. assert (Ne : section_type x <> section_type s) by lia. assert (Le : section_type x <= section_type s) by lia.
    exact (U1 x I Le (section_untouched x s m c I Hs Ne R Ux)). }
  destruct (after_split s last sections 0 sections_rise Hs L) as (sk & E & F).
  assert (Sk : Forall (fun x => present x final = false) sk).
  { eapply Forall_impl; [|exact F]. intros x [I [Lx Ls]]. exact (untouched_absent x final I (Un x I Ls (U x I Lx)) C). }
  assert (Kept : forall x, In x sections -> section_type x <= last -> content_of x final = content_of x m /\ present x final = present x m).
  { intros x I Lx. destruct (K1 x I ltac:(lia)) as [A1 A2], (section_kept x s m c I Hs ltac:(lia) R) as [A3 A4]. split; congruence. }
  assert (Utd : forall x, In x sections -> section_type x <= last -> untouched x m -> untouched x final).
  { intros x I Lx. apply (Un x I). lia. }
  destruct (K1 s Hs ltac:(lia)) as [Ks Kp]. rewrite (section_content s Hs) in Ks.
  destruct (section_found s Hs) as [Fd Ft].
  destruct (present s final) eqn:P.
  - assert (E1 : to_bytes 1 (section_type s) = [section_type s]) by (cbn [to_bytes]; rewrite uwrap_small by lia; reflexivity).
    exists ([section_type s] ++ bs ++ bs'). constructor; [| | | |exact Kept|exact Utd].
    + rewrite E, write_skipped by exact Sk. cbn [write_sections]. unfold write_section. rewrite P, E1, Ks, W1.
      assert (Wf : write (serializeSection (body s final)) c = Some bs).
      { rewrite <- W. cbn [write serializeSection]. now rewrite (section_writer s Hs final m). }
      rewrite Wf. reflexivity.
    + cbn. rewrite length_app. lia.
    + constructor; [unfold is_byte; lia|]. now apply forall_app_byte.
    + intros fuel us Lf. cbn in Lf. rewrite length_app in Lf. destruct fuel as [|fuel]; [lia|]. cbn [app read_sections].
      destruct (Z.eqb_spec (section_type s) 0); [lia|]. destruct (Z.ltb_spec last (section_type s)); [|lia]. cbn [negb]. rewrite Fd.
      unfold read_section. rewrite Rd. apply R1. lia.
  - assert (Em : with_content s c m = m).
    { apply section_empty; [exact Hs|exact R|apply U; [exact Hs|exact L]|congruence]. }
    rewrite Em in *. exists bs'. constructor; [|lia|exact B1| |exact Kept|exact Utd].
    + rewrite E, write_skipped by exact Sk. cbn [write_sections]. unfold write_section. rewrite P, W1. reflexivity.
    + intros fuel us Lf. specialize (R1 fuel us Lf). destruct bs' as [|t l]; [destruct fuel; exact R1|].
      destruct fuel as [|fuel]; [cbn in Lf; lia|]. cbn [read_sections] in *. destruct (Z.eqb_spec t 0) as [->|N].
      * exfalso. apply (sections_begin final (after (section_type s) sections) (0 :: l)); [|exact W1|reflexivity].
        intros x I. apply filter_In in I. exact (proj1 I).
      * destruct (Z.ltb_spec (section_type s) t); [|discriminate]. destruct (Z.ltb_spec last t); [|lia]. exact R1.
Qed.

Lemma read_sections_written (fuel : nat) : forall last m us l final us', Forall is_byte l ->
  (forall s, In s sections -> last < section_type s -> untouched s m) -> coded final -> no_any_module final ->
  read_sections fuel last m us l = Some (final, us') -> exists bs, written last m final (length l) bs.
Proof.
  induction fuel as [|fuel IH]; intros last m us l final us' Hl U C A H; (destruct l as [|t l];
    [cbn in H; injection H as <- _; exists []; now apply written_none|]); [discriminate|].
  cbn [read_sections] in H. inversion Hl as [|? ? Ht Hl1]; subst. destruct (Z.eqb_spec t 0) as [->|Nt].
  - destruct (read_user_section l) as [[u l1]|] eqn:E; [|discriminate]. destruct (user_section_rest _ _ _ Hl1 E) as [Hr Lr].
    destruct (IH _ _ _ _ _ _ Hr U C A H) as (bs & [W1 W2 W3 W4 W5 W6]). exists bs. constructor; try assumption. cbn [length]. lia.
  - destruct (Z.ltb_spec last t) as [Lt|]; [cbn [negb] in H|discriminate].
    destruct (find (fun s => section_type s =? t) sections) as [s|] eqn:Fd; [|discriminate].
    apply find_some in Fd as [Hs Es]. apply Z.eqb_eq in Es. subst t. unfold read_section in H.
    destruct (read (serializeSection (body s m)) l) as [[c l1]|] eqn:E; [|discriminate].
    destruct (section_rest _ _ _ _ Hl1 E) as (Hr & _ & bytes & R0').
    assert (R0 : was_read s m c) by (exists bytes, []; exact R0').
    assert (U1 : forall x, In x sections -> section_type s < section_type x -> untouched x (with_content s c m)).
    { intros x I Lx. assert (Ne : section_type x <> section_type s) by lia. assert (Lx' : last < section_type x) by lia.
      exact (section_untouched x s m c I Hs Ne R0 (U x I Lx')). }
    destruct (IH _ _ _ _ _ _ Hr U1 C A H) as (bs' & W).
    assert (Le : section_type s <= section_type s) by lia.
    pose proof (w_kept _ _ _ _ _ W s Hs Le) as [K _]. rewrite (section_content s Hs) in K.
    destruct (section_stream s m final l l1 c Hs Hl1 E A K) as (_ & p & bs & -> & S & L).
    destruct (written_section s last m final c p bs bs' (length l1) Hs Lt U C R0 S L W) as (b & Wb). exists b.
    cbn [length]. rewrite length_app. exact Wb.
Qed.

(** The declarations that validation accepts have types. *)
Lemma valid_locals (m : Module) : validateDefinitions m = true -> no_any_module m.
Proof.
  unfold validateDefinitions. rewrite !andb_true_iff. intros H.
  assert (F : forallb (validate_FunctionDef m) (space_defs (m_functions m)) = true) by tauto. clear H.
  unfold no_any_module. apply Forall_forall. intros d I. rewrite forallb_forall in F. specialize (F d I).
  unfold validate_FunctionDef in F. apply andb_true_iff in F as [_ F]. rewrite forallb_forall in F.
  apply Forall_forall. intros t It. specialize (F t It). unfold validate_ValueType in F. intros ->. discriminate F.
Qed.

Lemma header_survives : survives header (tt, tt) [0; 97; 115; 109; 1; 0; 0; 0].
Proof.
  apply (survives_sequence _ _ _ _ [0; 97; 115; 109] [1; 0; 0; 0]);
    (apply (constant_survives 4 magicNumber) || apply (constant_survives 4 currentVersion)); split; (discriminate || reflexivity).
Qed.

Lemma header_canonical : canonical header.
Proof.
  apply canonical_sequence; [apply constant_canonical; unfold magicNumber; cbn; lia|]. intros _ _. apply constant_canonical. unfold currentVersion. cbn. lia.
Qed.

(** A module with a function [apply], one page of memory and a user section *)
Definition sample_binary_bytes : list Z :=
  [0; 97; 115; 109; 1; 0; 0; 0; 1; 5; 1; 96; 1; 0x7e; 0; 3; 2; 1; 0; 5; 3; 1; 0; 1; 7; 9; 1; 5; 97; 112; 112; 108; 121; 0; 0;
   10; 12; 1; 10; 2; 1; 0x7f; 0x81; 0; 0x7f; 0x20; 0; 0x1a; 0x0b; 0; 3; 1; 65; 7].
Definition sample_binary : Module * list UserSection :=
  match parse_module sample_binary_bytes with Some r => r | None => (no_module, []) end.

(** C12. The binary format of modules is read and written consistently (WASMSerialization.cpp): whatever bytes the reader
    accepts as a module whose functions all have code, the writer gives bytes for that module, no more than there were, and
    reading those gives the same module, without the user sections, which are lost.  The bytes may differ: the reader
    accepts padded LEB128 numbers, one local variable declared at a time and sections that hold nothing, the writer has one form. *)
Theorem module_roundtrip (l : list Z) (m : Module) (us : list UserSection) : Forall is_byte l -> parse_module l = Some (m, us) -> coded m ->
  exists bs, serializeModule_write m [] = Some bs /\ (length bs <= length l)%nat /\ Forall is_byte bs /\ parse_module bs = Some (m, []).
Proof.
  intros Hl H C. unfold parse_module, serializeModule_read in H. destruct (read header l) as [[u l1]|] eqn:E; [|discriminate].
  destruct (read_sections (length l1) 0 no_module [] l1) as [[m' us']|] eqn:R; [|discriminate].
  destruct (validateDefinitions m') eqn:V; [|discriminate]. injection H as <- <-.
  destruct (read_survives _ _ _ _ header_canonical Hl E) as (p & b & -> & (W & B & Rd) & L & Hl1). destruct u as [[] []].
  pose proof header_survives as (W' & B' & Rd'). rewrite W in W'. apply some_inj in W'. subst b.
  assert (U : forall s, In s sections -> 0 < section_type s -> untouched s no_module) by (intros s I _; left; each_section I; reflexivity).
  destruct (read_sections_written _ _ _ _ _ _ _ Hl1 U C (valid_locals _ V) R) as (bs & [W1 L1 B1 R1 _ _]).
  exists ([0; 97; 115; 109; 1; 0; 0; 0] ++ bs).
  split; [unfold serializeModule_write; rewrite W; change (after 0 sections) with sections in W1; rewrite W1; reflexivity|].
  split; [rewrite !length_app; lia|]. split; [now apply forall_app_byte|].
  unfold parse_module, serializeModule_read. rewrite Rd', R1 by lia. now rewrite V.
Qed.

Lemma module_roundtrip_witness : exists bs, serializeModule_write (fst sample_binary) [] = Some bs /\ (length bs <= length sample_binary_bytes)%nat /\
  Forall is_byte bs /\ parse_module bs = Some (fst sample_binary, []).
Proof.
  apply (module_roundtrip sample_binary_bytes (fst sample_binary) (snd sample_binary)).
  - unfold sample_binary_bytes. repeat constructor; unfold is_byte; lia.
  - vm_compute. reflexivity.
  - assert (H : forallb (fun d => nonempty (code (def d))) (space_defs (m_functions (fst sample_binary))) = true) by (vm_compute; reflexivity).
    unfold coded. rewrite forallb_forall in H. apply Forall_forall. intros d I E. specialize (H d I). rewrite E in H. discriminate H.
Defined.

(** C37. The loops of the reader end: one over the operators of a function body, one over the sections of a module.  Each
    round takes a byte or more, so that as many rounds as there are bytes are enough, and with more the answer is the same. *)
Theorem reading_terminates (m : Module) (fd : FunctionDef) (ft : FunctionType) (c : context) (last : Z) (us : list UserSection) (l : list Z) (fuel : nat) :
  Forall is_byte l -> Z.of_nat (length l) < 2 ^ 64 -> (length l <= fuel)%nat ->
  read_ops m fuel fd ft [] c l = read_ops m (length l) fd ft [] c l /\ read_sections fuel last m us l = read_sections (length l) last m us l.
Proof.
  intros Hl B L. split; [apply read_ops_fuel; (assumption || lia || exact B)|apply read_sections_fuel; (assumption || lia)].
Qed.

Lemma reading_terminates_witness :
  read_ops no_module 100 (Def 0 [] []) (Function 0 []) [] (start_context (Function 0 [])) [0x0b] =
    read_ops no_module 1 (Def 0 [] []) (Function 0 []) [] (start_context (Function 0 [])) [0x0b] /\
  read_sections 100 0 no_module [] [0x0b] = read_sections 1 0 no_module [] [0x0b].
Proof.
  apply (reading_terminates no_module (Def 0 [] []) (Function 0 []) (start_context (Function 0 [])) 0 [] [0x0b] 100);
    [repeat constructor; unfold is_byte; lia|reflexivity|cbn; lia].
Defined.

Lemma validate_ops_app (m : Module) (fd : FunctionDef) (ft : FunctionType) (tables : list (list Z)) (p s : list instr) : forall c,
  validate_ops m fd ft tables (p ++ s) c = then_ (validate_ops m fd ft tables p c) (validate_ops m fd ft tables s).
Proof.
  induction p as [|op p IH]; intros c; [reflexivity|]. cbn [app validate_ops]. destruct (validate_op m fd ft tables op c); [apply IH|reflexivity].
Qed.

(** C15. The invariant of the validation of code (FunctionValidationContext of IR/Validate.cpp): a function body that is read is
    the encoding of operators whose control structures are balanced, the last of them closing that of the function; and
    at each of them the validator has as many control structures as have been opened and not closed, each
    with its operands above those of the structures around it. *)
Theorem validated_code_balanced (m : Module) (type : Z) (body : list Z) (d : FunctionDefinition) : Forall is_byte body ->
  read_body m type body = Some d ->
  exists ops ft, code (def d) = encode_all ops /\ Forall well_formed ops /\ function_type m (def d) = Some ft /\ depth_of ops = -1 /\
    forall p s, ops = p ++ s -> exists c, validate_ops m (def d) ft (branchTables d) p (start_context ft) = Some c /\
      balanced c /\ depth c = 1 + depth_of p.
Proof.
  intros Hl H. unfold read_body in H. destruct (read serializeVarUInt32 body) as [[n l1]|] eqn:E1; [|discriminate].
  pose proof (var32_read _ _ _ E1) as Rn. destruct (read_survives _ _ _ _ var32_canonical Hl E1) as (p1 & b1 & -> & S1 & L1 & Hl1).
  destruct (Z.leb_spec maximum_code_size (size (p1 ++ l1))) as [|Lm]; [discriminate|]. destruct (1024 <=? n); [discriminate|].
  destruct (read_local_sets (Z.to_nat n) 0 [] l1) as [[locals l2]|] eqn:E2; [|discriminate].
  destruct (read_local_sets_spec _ 0 _ _ _ _ Hl1 ltac:(lia) E2) as (sets & p2 & -> & _). pose proof (rest_bytes _ _ Hl1) as Hl2.
  cbv zeta in H. set (fd := Def type locals []) in *. destruct (function_type m fd) as [ft|] eqn:Ft; [|discriminate].
  destruct (read_ops m _ fd ft [] (start_context ft) l2) as [[[ops bt] c]|] eqn:E3; [|discriminate].
  destruct (finish c) eqn:Fc; [|discriminate]. injection H as <-. unfold size, maximum_code_size in Lm. rewrite !length_app in Lm.
  destruct (read_ops_survive m fd ft (length l2) [] (start_context ft) l2 ops bt c Hl2 ltac:(cbn [length]; lia) E3) as (b3 & S3 & _ & V3).
  exists ops, ft. cbn [def code branchTables]. split; [reflexivity|]. destruct (ops_survive_spec m fd ft _ _ _ _ S3) as (_ & W & _).
  split; [exact W|]. split; [exact Ft|]. assert (B0 : balanced (start_context ft)) by (cbn; auto). split.
  - destruct (validate_ops_keeps _ _ _ _ _ _ _ V3) as [D _]. unfold finish in Fc. unfold depth, size in D.
    destruct (controlStack c); [|discriminate]. cbn [length controlStack start_context pushControlStack] in D. lia.
  - intros p s ->. change (validate_ops m (Def type locals (encode_all (p ++ s)))) with (validate_ops m fd). rewrite validate_ops_app in V3.
    apply then_some in V3 as (c1 & V1 & _). exists c1. split; [exact V1|]. destruct (validate_ops_keeps _ _ _ _ _ _ _ V1) as [D B].
    split; [exact (B B0)|exact D].
Qed.

Lemma validated_code_balanced_witness : exists d, read_body (fst sample_binary) 0 [0; 0x20; 0; 0x1a; 0x0b] = Some d /\
  exists ops ft, code (def d) = encode_all ops /\ Forall well_formed ops /\ function_type (fst sample_binary) (def d) = Some ft /\ depth_of ops = -1 /\
    forall p s, ops = p ++ s -> exists c, validate_ops (fst sample_binary) (def d) ft (branchTables d) p (start_context ft) = Some c /\
      balanced c /\ depth c = 1 + depth_of p.
Proof.
  eexists. split; [vm_compute; reflexivity|].
  apply (validated_code_balanced (fst sample_binary) 0 [0; 0x20; 0; 0x1a; 0x0b]); [repeat constructor; unfold is_byte; lia|vm_compute; reflexivity].
Defined.

(** Operators that pop nothing are accepted after the end of a function. *)
Lemma code_after_end_accepted : exists d, read_body (fst sample_binary) 0 [0; 0x0b; 0x01; 0x41; 0] = Some d /\
  code (def d) = encode_all [Instr end_code Void; Instr nop_code Void; Instr i32_const_code (Ops.U32 0)].
Proof. eexists. split; vm_compute; reflexivity. Qed.
