(* ===== verification/ReadBack.v ===== *)
(** What the engine writes of a module it reads back, for any module whose parts can be written and whose
    code is valid, if its definitions are; and what is read can be written. *)
From Stdlib Require Import ZArith Bool Lia String Ascii List.
From S2P Require Import Prelude Exceptions Memory Opcodes Ops OpsProofs Injection.
From S2P Require Import Serialization SerializationProofs Utf8 IR IRProofs Binary BinaryProofs ModuleProofs.
Import ListNotations.
Local Open Scope Z_scope.

(** ** The validation of code, and what it depends on *)
(** Two modules that are the same to the validation of code *)
Record alike (m n : Module) : Prop := {
  alike_types : m_types n = m_types m;
  alike_imports : space_imports (m_functions n) = space_imports (m_functions m);
  alike_defs : map (fun d => type_index (def d)) (space_defs (m_functions n)) = map (fun d => type_index (def d)) (space_defs (m_functions m));
  alike_tables : m_tables n = m_tables m;
  alike_memories : m_memories n = m_memories m;
  alike_globals : m_globals n = m_globals m
}.

Lemma alike_function (m n : Module) (f : Z) : alike m n -> validateFunctionIndex n f = validateFunctionIndex m f.
Proof.
  intros [Et Ei Ed _ _ _]. unfold validateFunctionIndex, space_type, space_size. rewrite Et, Ei, <- !nth_error_map, Ed.
  assert (E : size (space_defs (m_functions n)) = size (space_defs (m_functions m))).
  { unfold size. apply (f_equal (@length _)) in Ed. rewrite !length_map in Ed. now rewrite Ed. }
  now rewrite E.
Qed.

Lemma alike_op (m n : Module) (d : FunctionDef) (ft : FunctionType) (bt : list (list Z)) (op : instr) (c : context) : alike m n ->
  validate_op n d ft bt op c = validate_op m d ft bt op c.
Proof.
  intros A. unfold validate_op, validateImm, validateGlobalIndex. rewrite (alike_types _ _ A), (alike_tables _ _ A), (alike_memories _ _ A), (alike_globals _ _ A).
  destruct (op_field op); try reflexivity. now rewrite (alike_function _ _ _ A).
Qed.

Lemma alike_ops (m n : Module) (d : FunctionDef) (ft : FunctionType) (bt : list (list Z)) (ops : list instr) : alike m n ->
  forall c, validate_ops n d ft bt ops c = validate_ops m d ft bt ops c.
Proof.
  intros A. induction ops as [|op ops IH]; intros c; [reflexivity|]. cbn [validate_ops]. rewrite (alike_op _ _ _ _ _ _ _ A).
  destruct (validate_op m d ft bt op c); [apply IH|reflexivity].
Qed.

Definition short (ops : list instr) : Prop := Z.of_nat (length ops) < 2 ^ 32.

Lemma ops_survive_length (bt bt' : list (list Z)) (ops : list instr) (bs : list Z) : ops_survive bt ops bt' bs -> (length ops <= length bs)%nat.
Proof.
  induction 1 as [|bt bt1 bt2 op ops xs ys S _ IH]; [cbn; lia|]. rewrite length_app. cbn [length].
  assert (1 <= length xs)%nat by (destruct xs; [now destruct (op_some _ _ _ _ S)|cbn; lia]). lia.
Qed.

Lemma section_bytes {A} (c : codec A) (l rest : list Z) (a : A) : Forall is_byte l -> read (serializeSection c) l = Some (a, rest) ->
  Forall is_byte rest /\ exists bytes, Forall is_byte bytes /\ read c bytes = Some (a, []) /\ (length bytes + length rest <= length l)%nat.
Proof.
  intros Hl E. cbn [read serializeSection] in E. destruct (read serializeVarUInt32 l) as [[n l1]|] eqn:E1; [|discriminate].
  destruct (advance n l1) as [[bytes l2]|] eqn:E2; [|discriminate]. destruct (read c bytes) as [[a' [|x more]]|] eqn:E3; try discriminate.
  apply some_inj in E. assert (Ea : a' = a) by congruence. assert (El : l2 = rest) by congruence. subst a' l2. clear E.
  pose proof (var32_read _ _ _ E1) as R. destruct (read_survives _ _ _ _ var32_canonical Hl E1) as (p & b & -> & _ & _ & Hl1).
  destruct (advance_spec _ _ _ _ (proj1 R) E2) as [-> _]. apply Forall_app in Hl1 as [Hb Hr]. split; [exact Hr|].
  exists bytes. split; [exact Hb|]. split; [exact E3|]. rewrite !length_app. lia.
Qed.

Lemma read_all_length {A} (c : codec A) (n : nat) : forall l as_ rest, read_all c n l = Some (as_, rest) -> length as_ = n.
Proof.
  induction n as [|n IH]; intros l as_ rest H; cbn [read_all] in H; [injection H as <- _; reflexivity|].
  destruct (read c l) as [[a l1]|]; [|discriminate]. destruct (read_all c n l1) as [[bs l2]|] eqn:E; [|discriminate].
  injection H as <- _. cbn. now rewrite (IH _ _ _ E).
Qed.

(** ** The parts of a module *)
Definition able {A} (c : codec A) (a : A) : Prop := exists bs, survives c a bs.
Definition import_able {T} (kind : ObjectKind) (c : codec T) (i : ImportOf T) : Prop := exists bs, import_survives kind c i bs.

Lemma all_able {A} (c : codec A) (l : list A) : Forall (able c) l -> exists bs, survive_all c l bs.
Proof.
  induction 1 as [|a l (xs & S) _ (ys & Ss)]; [exists []; constructor|]. exists (xs ++ ys). now constructor.
Qed.
Lemma able_all {A} (c : codec A) (l : list A) (bs : list Z) : survive_all c l bs -> Forall (able c) l.
Proof. induction 1 as [|a l xs ys S _ IH]; constructor; [now exists xs|exact IH]. Qed.

Lemma array_able {A} (c : codec A) (l : list A) : Forall (able c) l -> size l < 8192 -> able (serializeArray c) l.
Proof.
  intros F L. destruct (all_able c l F) as (bs & S). destruct (array_survives c l bs S L) as (n & Sn & _). now exists (n ++ bs).
Qed.

Lemma imports_able {T} (kind : ObjectKind) (c : codec T) (l : list (ImportOf T)) : Forall (import_able kind c) l -> exists bs, imports_survive kind c l bs.
Proof.
  induction 1 as [|a l (xs & S) _ (ys & Ss)]; [exists []; constructor|]. exists (xs ++ ys). now constructor.
Qed.
Lemma able_imports {T} (kind : ObjectKind) (c : codec T) (l : list (ImportOf T)) (bs : list Z) : imports_survive kind c l bs -> Forall (import_able kind c) l.
Proof. induction 1 as [|a l xs ys S _ IH]; constructor; [now exists xs|exact IH]. Qed.

(** A module whose declarations can be written, and be read within the limits of the reader *)
Record writable (m : Module) : Prop := {
  types_able : Forall (able serialize_FunctionType) (m_types m) /\ size (m_types m) < 8192;
  function_imports_able : Forall (import_able function serializeVarUInt32) (space_imports (m_functions m)) /\
    Forall (fun i => of_type i < size (m_types m)) (space_imports (m_functions m)) /\ size (space_imports (m_functions m)) < 1024;
  other_imports_able : Forall (import_able table serialize_TableType) (space_imports (m_tables m)) /\
    Forall (import_able memory serialize_MemoryType) (space_imports (m_memories m)) /\
    Forall (import_able global serialize_GlobalType) (space_imports (m_globals m)) /\
    size (space_imports (m_tables m)) + size (space_imports (m_memories m)) + size (space_imports (m_globals m)) < 2 ^ 31;
  functions_able : Forall (fun d => 0 <= type_index (def d) < size (m_types m)) (space_defs (m_functions m)) /\
    size (space_defs (m_functions m)) < 1024;
  tables_able : Forall (able serialize_TableType) (space_defs (m_tables m)) /\ size (space_defs (m_tables m)) < 8192;
  memories_able : Forall (able serialize_MemoryType) (space_defs (m_memories m)) /\ size (space_defs (m_memories m)) < 8192;
  globals_able : Forall (able serialize_GlobalDef) (space_defs (m_globals m)) /\ size (space_defs (m_globals m)) < 8192;
  exports_able : Forall (able serialize_Export) (m_exports m) /\ size (m_exports m) < 8192;
  start_able : m_start m = UINTPTR_MAX \/ 0 <= m_start m < 2 ^ 32;
  elements_able : Forall (able serialize_TableSegment) (m_tableSegments m) /\ size (m_tableSegments m) < 8192;
  data_able : Forall (able serialize_DataSegment) (m_dataSegments m) /\ size (m_dataSegments m) < 8192
}.

(** A function whose body can be written *)
Definition body_able (m : Module) (d : FunctionDefinition) : Prop := exists ops bs, body_ok m d ops bs.
Definition body_small (d : FunctionDefinition) : Prop := forall b, write_body d = Some b -> size b < maximum_code_size.

(** ** Sections *)

(** The module that has been read when [k] sections have *)
Definition partial (k : Z) (F : Module) : Module :=
  let upto {A} (t : Z) (l : list A) := if t <=? k then l else [] in
  let types := map (fun d => type_index (def d)) (space_defs (m_functions F)) in
  IRModule (upto 1 (m_types F))
    (Space (upto 2 (space_imports (m_functions F))) (if 10 <=? k then space_defs (m_functions F) else upto 3 (map undefined types)))
    (Space (upto 2 (space_imports (m_tables F))) (upto 4 (space_defs (m_tables F))))
    (Space (upto 2 (space_imports (m_memories F))) (upto 5 (space_defs (m_memories F))))
    (Space (upto 2 (space_imports (m_globals F))) (upto 6 (space_defs (m_globals F))))
    (upto 7 (m_exports F)) (upto 11 (m_dataSegments F)) (upto 9 (m_tableSegments F)) (if 8 <=? k then m_start F else UINTPTR_MAX).

Lemma partial_none (F : Module) : partial 0 F = no_module.
Proof. reflexivity. Qed.
Lemma partial_all (F : Module) : partial 11 F = F.
Proof. destruct F as [ty [fi fd] [ti td] [mi md] [gi gd] ex da ta st]. reflexivity. Qed.

(** Reading a section, or finding that it is not there, is a step. *)
Lemma partial_step (s : section) (F : Module) : In s sections ->
  (if present s F then with_content s (content_of s F) (partial (section_type s - 1) F) else partial (section_type s - 1) F) = partial (section_type s) F.
Proof.
  intros Hs. destruct F as [ty [fi fd] [ti td] [mi md] [gi gd] ex da ta st].
  each_section Hs; unfold partial; cbn -[Z.eqb UINTPTR_MAX map].
  - destruct ty; reflexivity.
  - destruct fi, ti, mi, gi; reflexivity.
  - destruct fd; reflexivity.
  - destruct td; reflexivity.
  - destruct md; reflexivity.
  - destruct gd; reflexivity.
  - destruct ex; reflexivity.
  - destruct (Z.eqb_spec st UINTPTR_MAX) as [->|]; reflexivity.
  - destruct ta; reflexivity.
  - destruct fd; reflexivity.
  - destruct da; reflexivity.
Qed.

Lemma import_section_able (m : Module) (s : import_lists) : Forall (import_able function serializeVarUInt32) (function_imports s) ->
  Forall (fun i => of_type i < size (m_types m)) (function_imports s) -> size (function_imports s) < 1024 ->
  Forall (import_able table serialize_TableType) (table_imports s) -> Forall (import_able memory serialize_MemoryType) (memory_imports s) ->
  Forall (import_able global serialize_GlobalType) (global_imports s) ->
  size (table_imports s) + size (memory_imports s) + size (global_imports s) < 2 ^ 31 -> able (serializeImportSection m) s.
Proof.
  intros F Ft Fn T M G N. destruct (imports_able _ _ _ F) as (bf & SF), (imports_able _ _ _ T) as (bt & ST), (imports_able _ _ _ M) as (bm & SM),
    (imports_able _ _ _ G) as (bg & SG).
  destruct (imports_written _ _ _ _ SF) as [WF BF], (imports_written _ _ _ _ ST) as [WT BT], (imports_written _ _ _ _ SM) as [WM BM],
    (imports_written _ _ _ _ SG) as [WG BG].
  destruct (var32_survives (Z.of_nat (imports_number s))) as (n & (Wn & Bn & Rn) & _); [unfold imports_number, size in *; lia|].
  exists (n ++ bf ++ bt ++ bm ++ bg). split; [|split].
  - destruct s as [fs ts ms gs]. cbn [write serializeImportSection function_imports table_imports memory_imports global_imports] in *.
    replace (size fs + size ts + size ms + size gs) with (Z.of_nat (imports_number (Imports fs ts ms gs))) by (unfold imports_number, size; cbn; lia).
    rewrite Wn, WF, WT, WM, WG. reflexivity.
  - repeat apply forall_app_byte; assumption.
  - intros rest'. cbn [read serializeImportSection]. rewrite <- app_assoc, Rn, Nat2Z.id. apply imports_read_again; [|exact Fn]. now constructor.
Qed.

Lemma function_section_able (m : Module) (ts : list Z) : Forall (fun t => 0 <= t < size (m_types m)) ts -> size (m_types m) < 8192 -> size ts < 1024 ->
  able (serializeFunctionSection m) ts.
Proof.
  intros F M L. destruct (var32_survives (size ts)) as (n & (W1 & B1 & R1) & _); [unfold size in *; lia|].
  destruct (all_able (check_read (fun t => negb (size (m_types m) <=? t)) serializeVarUInt32) ts) as (bs & S).
  { eapply Forall_impl; [|exact F]. cbn beta. intros t Ht. destruct (var32_survives t ltac:(lia)) as (b & Sb & _). exists b.
    apply survives_check_read; [|exact Sb]. rewrite negb_true_iff. apply Z.leb_gt. lia. }
  destruct (survive_all_spec _ _ _ S) as (W2 & B2 & R2). rewrite write_all_check in W2. exists (n ++ bs).
  split; [cbn [write serializeFunctionSection]; rewrite W1, W2; reflexivity|]. split; [now apply forall_app_byte|].
  intros rest'. cbn [read serializeFunctionSection]. rewrite <- app_assoc, R1. unfold maximum_section_elements.
  destruct (Z.leb_spec 1024 (size ts)); [lia|]. unfold size. rewrite Nat2Z.id. apply R2.
Qed.

Lemma function_body_able (m : Module) (d : FunctionDefinition) : body_able m d -> body_small d -> able (serializeFunctionBody m (type_index (def d))) d.
Proof.
  intros (ops & bo & O) Sm. destruct (body_survives m d ops bo O) as (nb & ls & _ & _ & W & B & R). set (bs := nb ++ ls ++ bo) in *.
  specialize (Sm bs W). destruct (var32_survives (size bs)) as (n & (Wn & Bn & Rn) & _); [unfold maximum_code_size, size in *; lia|].
  exists (n ++ bs). unfold survives, serializeFunctionBody. cbn [write read]. rewrite W, Wn. split; [reflexivity|].
  split; [now apply forall_app_byte|]. intros rest. rewrite <- app_assoc, Rn, advance_app by reflexivity. now rewrite R.
Qed.

Lemma code_section_able (m : Module) (ds : list FunctionDefinition) : Forall (body_able m) ds -> Forall body_small ds -> size ds < 2 ^ 31 ->
  map (fun d => type_index (def d)) (space_defs (m_functions m)) = map (fun d => type_index (def d)) ds -> able (serializeCodeSection m) ds.
Proof.
  intros A Sm L T. destruct (var32_survives (size ds)) as (n & (W1 & B1 & R1) & _); [unfold size in *; lia|].
  assert (exists bs, write_bodies m ds = Some bs /\ Forall is_byte bs /\
            forall rest, read_bodies m (map (fun d => type_index (def d)) ds) (bs ++ rest) = Some (ds, rest)) as (bs & W2 & B2 & R2).
  { clear -A Sm. induction ds as [|d ds IH]; [exists []; repeat split; constructor|]. inversion_clear A as [|? ? A1 A2]. inversion_clear Sm as [|? ? S1 S2].
    destruct (function_body_able m d A1 S1) as (b1 & W1 & B1 & R1), (IH A2 S2) as (b2 & W2 & B2 & R2). exists (b1 ++ b2).
    split; [cbn [write_bodies]; rewrite W1, W2; reflexivity|]. split; [now apply forall_app_byte|]. intros rest.
    cbn [map read_bodies]. rewrite <- app_assoc, R1, R2. reflexivity. }
  exists (n ++ bs). split; [cbn [write serializeCodeSection]; cbv zeta; rewrite W1, W2; reflexivity|]. split; [now apply forall_app_byte|].
  intros rest. unfold serializeCodeSection. cbv zeta. cbn [read]. rewrite <- app_assoc, R1, T.
  assert (E : size (map (fun d => type_index (def d)) ds) = size ds) by (unfold size; now rewrite length_map). rewrite E, Z.eqb_refl. apply R2.
Qed.

Lemma alike_body_ok (m n : Module) (d : FunctionDefinition) (ops : list instr) (bs : list Z) : alike m n -> body_ok m d ops bs -> body_ok n d ops bs.
Proof.
  intros A [L Cd O (ft & c & T & Fc & V)]. constructor; [exact L|exact Cd|exact O|].
  exists ft, c. unfold function_type in *. rewrite (alike_types _ _ A). split; [exact T|]. split; [exact Fc|].
  now rewrite (alike_ops _ _ _ _ _ _ A).
Qed.

Lemma alike_body (m n : Module) (d : FunctionDefinition) : alike m n -> body_able m d -> body_able n d.
Proof. intros A (ops & bs & O). exists ops, bs. exact (alike_body_ok _ _ _ _ _ A O). Qed.

Lemma partial_alike (F : Module) : alike F (partial 9 F).
Proof.
  destruct F as [ty [fi fd] [ti td] [mi md] [gi gd] ex da ta st]. constructor; try reflexivity. cbn -[map]. rewrite map_map. apply map_id.
Qed.

Section ReadBack.
Variable F : Module.
Hypothesis Hw : writable F.
Hypothesis Hc : Forall (body_able F) (space_defs (m_functions F)).
Hypothesis Hs : Forall body_small (space_defs (m_functions F)).

(** What a section holds can be written, and read when the sections before it have been. *)
Lemma content_able (s : section) : In s sections -> present s F = true -> able (body s (partial (section_type s - 1) F)) (content_of s F).
Proof.
  intros I P. destruct Hw. each_section I; cbn [body content_of section_type serializeTypeSection import_section function_section serializeTableSection
    serializeMemorySection serializeGlobalSection serializeExportSection serializeStartSection serializeElementSection code_section serializeDataSection] in *.
  - now apply array_able.
  - decompose [and] function_imports_able0. decompose [and] other_imports_able0. now apply import_section_able.
  - apply function_section_able; [apply Forall_map; apply functions_able0|apply types_able0|unfold size; rewrite length_map; apply functions_able0].
  - now apply array_able.
  - now apply array_able.
  - now apply array_able.
  - now apply array_able.
  - destruct start_able0 as [E|L]; [|destruct (var32_survives _ L) as (b & S & _); now exists b].
    exfalso. cbn [present serializeStartSection] in P. rewrite E in P. discriminate P.
  - now apply array_able.
  - apply code_section_able; [|exact Hs| |].
    + eapply Forall_impl; [|exact Hc]. intros d. apply alike_body. exact (partial_alike F).
    + destruct functions_able0. lia.
    + exact (alike_defs _ _ (partial_alike F)).
  - now apply array_able.
Qed.

Lemma sections_at (k : nat) : (k < 11)%nat -> exists s, skipn k sections = s :: skipn (S k) sections /\ section_type s = Z.of_nat k + 1 /\ In s sections.
Proof.
  intros L. do 11 (destruct k as [|k]; [eexists; split; [reflexivity|split; [reflexivity|cbn; tauto]]|]). lia.
Qed.

Lemma append_some (a b : option (list Z)) (c : list Z) : append a b = Some c -> exists x y, a = Some x /\ b = Some y /\ c = x ++ y.
Proof. destruct a as [x|], b as [y|]; try discriminate. intros H. apply some_inj in H. subst c. now exists x, y. Qed.

(** The sections that are left are written as bytes that are read as they were. *)
Lemma sections_read_back (n : nat) : forall k bs fuel last us, (k + n = 11)%nat -> write_sections (skipn k sections) F = Some bs ->
  last <= Z.of_nat k -> (length bs <= fuel)%nat -> read_sections fuel last (partial (Z.of_nat k) F) us bs = Some (F, us).
Proof.
  induction n as [|n IH]; intros k bs fuel last us Kn H L Lf.
  - assert (k = 11%nat) as -> by lia. apply some_inj in H. subst bs. cbn [Z.of_nat]. change (Z.of_nat 11) with 11. rewrite partial_all.
    destruct fuel; reflexivity.
  - destruct (sections_at k ltac:(lia)) as (s & E & T & I). rewrite E in H. cbn [write_sections] in H.
    apply append_some in H as (w & r & Ww & Wr & ->). pose proof (partial_step s F I) as P.
    replace (section_type s - 1) with (Z.of_nat k) in P by lia. replace (section_type s) with (Z.of_nat (S k)) in P by lia.
    unfold write_section in Ww. destruct (present s F) eqn:Pr.
    + apply append_some in Ww as (t & b & Wt & Wb & ->). apply some_inj in Wt. destruct (section_found s I) as [Fd Ft].
      cbn [to_bytes] in Wt. rewrite uwrap_small in Wt by lia. subst t. cbn [write serializeSection] in Wb.
      destruct (write (body s F) (content_of s F)) as [c|] eqn:Wc; [|discriminate]. apply append_some in Wb as (x & y & Wx & Wy & ->).
      apply some_inj in Wy. subst y. destruct (content_able s I Pr) as (c' & Wc' & Bc & Rc).
      assert (c' = c) as -> by (rewrite (section_writer s I _ F) in Wc'; congruence).
      assert (Sx : survives serializeVarUInt32 (size c) x).
      { assert (Lc : 0 <= size c < 2 ^ 32).
        { unfold serializeVarUInt32, serializeVarInt in Wx. cbn [write] in Wx. destruct (negb _) eqn:Q; [|discriminate].
          rewrite negb_true_iff, orb_false_iff, !Z.ltb_ge in Q. lia. }
        destruct (var32_survives _ Lc) as (x' & Sx & _). destruct Sx as (W' & Sx). assert (x' = x) as -> by congruence. exact (conj W' Sx). }
      destruct Sx as (_ & _ & Rx). rewrite <- !app_assoc in *. cbn [app length] in *. destruct fuel as [|fuel]; [lia|]. cbn [read_sections].
      destruct (Z.eqb_spec (section_type s) 0); [lia|]. destruct (Z.ltb_spec last (section_type s)); [|lia]. cbn [negb]. rewrite Fd.
      unfold read_section. cbn [read serializeSection]. rewrite Rx, advance_app by reflexivity. specialize (Rc []). rewrite app_nil_r in Rc.
      replace (section_type s - 1) with (Z.of_nat k) in Rc by lia. rewrite Rc, P.
      apply (IH (S k)); [lia|exact Wr|lia|]. rewrite !length_app in Lf. lia.
    + apply some_inj in Ww. subst w. cbn [app] in *. rewrite P. apply (IH (S k)); [lia|exact Wr|lia|exact Lf].
Qed.

Lemma module_read_back (bs : list Z) : serializeModule_write F [] = Some bs ->
  parse_module bs = if validateDefinitions F then Some (F, []) else None.
Proof.
  intros H. unfold serializeModule_write in H. apply append_some in H as (h & b & Wh & Wb & ->).
  destruct header_survives as (W & _ & R). rewrite W in Wh. apply some_inj in Wh. subst h.
  unfold parse_module, serializeModule_read. rewrite R. rewrite <- (partial_none F).
  pose proof (sections_read_back 11 0 b (length b) 0 [] eq_refl Wb (Z.le_refl 0) (le_n _)) as Q. change (Z.of_nat 0) with 0 in Q.
  now rewrite Q.
Qed.
End ReadBack.

(** ** What is read can be written *)
Lemma array_read {A} (c : codec A) (l rest : list Z) (v : list A) : canonical c -> Forall is_byte l -> read (serializeArray c) l = Some (v, rest) ->
  Forall (able c) v /\ size v < 8192.
Proof.
  intros Hc Hl H. cbn [read serializeArray] in H. destruct (read serializeVarUInt32 l) as [[n l1]|] eqn:E; [|discriminate].
  destruct (read_survives _ _ _ _ var32_canonical Hl E) as (p1 & b1 & -> & _ & _ & Hl1). pose proof (var32_read _ _ _ E) as Rn.
  destruct (Z.leb_spec max_size n) as [|Ln]; [discriminate|]. destruct (read_all_canonical c Hc _ _ _ _ Hl1 H) as (p2 & b2 & _ & S & _ & N).
  split; [exact (able_all _ _ _ S)|]. unfold size, max_size in *. lia.
Qed.

Lemma imports_length {T} (kind : ObjectKind) (c : codec T) (l : list (ImportOf T)) (bs : list Z) : imports_survive kind c l bs -> (length l <= length bs)%nat.
Proof.
  induction 1 as [|i l xs ys (n & k & z & -> & _ & (Wk & _) & _) _ IH]; [cbn; lia|]. destruct (kind_survives kind) as (W & _).
  rewrite W in Wk. apply some_inj in Wk. subst k. rewrite !length_app. cbn [length]. lia.
Qed.

Lemma imports_read (m : Module) (l rest : list Z) (s : import_lists) : Forall is_byte l -> read (serializeImportSection m) l = Some (s, rest) ->
  exists bf bt bm bg, lists_survive (m_types m) s bf bt bm bg /\ size (function_imports s) < 1024 /\ (imports_number s <= length l)%nat.
Proof.
  intros Hl H. cbn [read serializeImportSection] in H. destruct (read serializeVarUInt32 l) as [[n l1]|] eqn:E; [|discriminate].
  destruct (read_survives _ _ _ _ var32_canonical Hl E) as (p1 & b1 & -> & _ & _ & Hl1).
  destruct (read_imports_canonical (m_types m) (Z.to_nat n) (Imports [] [] [] []) s l1 rest [] [] [] [] Hl1 ltac:(repeat constructor) ltac:(cbn; lia) H)
    as (p2 & bf & bt & bm & bg & -> & S & K & L2 & _). exists bf, bt, bm, bg. split; [exact S|]. split; [exact K|].
  destruct S as [A _ B C D]. apply imports_length in A, B, C, D. unfold imports_number. cbn [app length Nat.add] in L2. rewrite !length_app in *. lia.
Qed.

(** ... with the operators of its code *)
Definition body_read (m : Module) (d : FunctionDefinition) : Prop := exists ops bs, body_ok m d ops bs /\ short ops.
Lemma read_able (m : Module) (d : FunctionDefinition) : body_read m d -> body_able m d.
Proof. intros (ops & bs & O & _). now exists ops, bs. Qed.

Lemma read_bodies_able (m : Module) (types : list Z) : forall l ds rest, Forall is_byte l -> read_bodies m types l = Some (ds, rest) ->
  Forall (fun d => no_any d -> body_read m d) ds.
Proof.
  induction types as [|t types IH]; intros l ds rest Hl H; cbn [read_bodies] in H; [injection H as <- _; constructor|].
  cbn [read serializeFunctionBody] in H. destruct (read serializeVarUInt32 l) as [[n l1]|] eqn:E1; [|discriminate].
  destruct (advance n l1) as [[body l2]|] eqn:E2; [|discriminate]. destruct (read_body m t body) as [d|] eqn:E3; [|discriminate].
  destruct (read_bodies m types l2) as [[ds' l3]|] eqn:E4; [|discriminate]. injection H as <- <-.
  pose proof (var32_read _ _ _ E1) as Rn. destruct (read_survives _ _ _ _ var32_canonical Hl E1) as (p1 & b1 & -> & _ & _ & Hl1).
  destruct (advance_spec _ _ _ _ (proj1 Rn) E2) as [-> _]. apply Forall_app in Hl1 as [Hb Hl2]. constructor; [|exact (IH _ _ _ Hl2 E4)].
  intros A. destruct (read_body_ok _ _ _ _ Hb E3 A) as (_ & ops & bs & O & Len). exists ops, bs. split; [exact O|].
  destruct (body_survives m d ops bs O) as (nb & ls & Sn & Ll & _). destruct (Len nb ls Sn Ll) as [L1 L2].
  pose proof (ops_survive_length _ _ _ _ (body_ops _ _ _ _ O)). rewrite !length_app in L1. unfold short, maximum_code_size, size in *. lia.
Qed.

(** What is known of the parts of a module while its sections are read *)
Record parts_so_far (last : Z) (m : Module) : Prop := {
  parts_writable : writable m;
  parts_order : (last < 2 -> space_imports (m_functions m) = []) /\ (last < 3 -> space_defs (m_functions m) = []);
  parts_uncoded : last < 10 -> Forall (fun d => code (def d) = []) (space_defs (m_functions m));
  parts_coded : Forall (fun d => code (def d) = [] \/ (no_any d -> body_read m d)) (space_defs (m_functions m))
}.

Lemma no_module_parts : parts_so_far 0 no_module.
Proof.
  constructor; [|split; reflexivity|constructor|constructor]. constructor; cbn; repeat split; try constructor; try reflexivity.
Qed.

Lemma alike_read (m n : Module) (d : FunctionDefinition) : alike m n -> body_read m d -> body_read n d.
Proof. intros A (ops & bs & O & S). exists ops, bs. split; [exact (alike_body_ok _ _ _ _ _ A O)|exact S]. Qed.

Lemma uncoded (m : Module) (ds : list FunctionDefinition) : Forall (fun d => code (def d) = []) ds ->
  Forall (fun d => code (def d) = [] \/ (no_any d -> body_read m d)) ds.
Proof. apply Forall_impl. auto. Qed.

Lemma coded_alike (m n : Module) (ds : list FunctionDefinition) : alike m n ->
  Forall (fun d => code (def d) = [] \/ (no_any d -> body_read m d)) ds -> Forall (fun d => code (def d) = [] \/ (no_any d -> body_read n d)) ds.
Proof. intros A. apply Forall_impl. intros d [E|B]; [now left|]. right. intros N. exact (alike_read _ _ _ A (B N)). Qed.

Lemma function_types_read (m : Module) (l rest : list Z) (ts : list Z) : Forall is_byte l -> read (serializeFunctionSection m) l = Some (ts, rest) ->
  Forall (fun t => 0 <= t < size (m_types m)) ts /\ size ts < 1024.
Proof.
  intros Hl H. cbn [read serializeFunctionSection] in H. destruct (read serializeVarUInt32 l) as [[n l1]|] eqn:E; [|discriminate].
  pose proof (var32_read _ _ _ E) as Rn. destruct (read_survives _ _ _ _ var32_canonical Hl E) as (p1 & b1 & -> & _ & _ & Hl1).
  destruct (Z.leb_spec maximum_section_elements n) as [|Ln]; [discriminate|]. split.
  - clear -H. revert l1 ts H. induction (Z.to_nat n) as [|k IH]; intros l1 ts H; cbn [read_all] in H; [injection H as <- _; constructor|].
    destruct (read _ l1) as [[t l2]|] eqn:E; [|discriminate]. destruct (read_all _ k l2) as [[ts' l3]|] eqn:E2; [|discriminate].
    injection H as <- ->. constructor; [|exact (IH _ _ E2)]. cbn [read check_read] in E. destruct (read serializeVarUInt32 l1) as [[t' l4]|] eqn:E3; [|discriminate].
    apply var32_read in E3. destruct (Z.leb_spec (size (m_types m)) t') as [|L]; [discriminate|]. cbn [negb] in E. injection E as <- _. lia.
  - apply read_all_length in H. unfold size, maximum_section_elements in *. lia.
Qed.

Lemma Forall_compose {A B} (P : B -> Prop) (f : A -> B) (l : list A) : Forall P (map f l) <-> Forall (fun a => P (f a)) l.
Proof. apply Forall_map. Qed.

Lemma parts_section (s : section) (last : Z) (m : Module) (c : content s) (bytes : list Z) : In s sections -> last < section_type s ->
  Forall is_byte bytes -> size bytes < 2 ^ 31 -> read (body s m) bytes = Some (c, []) -> parts_so_far last m ->
  parts_so_far (section_type s) (with_content s c m).
Proof.
  intros Hs L Hb Lb R [[] [O1 O2] U Cd].
  assert (U' : section_type s < 10 -> Forall (fun d => code (def d) = []) (space_defs (m_functions m))) by (intros; apply U; lia).
  each_section Hs; cbn [section_type with_content content body serializeTypeSection import_section function_section serializeTableSection
    serializeMemorySection serializeGlobalSection serializeExportSection serializeStartSection serializeElementSection code_section serializeDataSection] in *;
    try specialize (U' eq_refl).
  - rewrite (O1 ltac:(lia)), (O2 ltac:(lia)) in *. pose proof (array_read _ _ _ _ function_type_canonical Hb R) as T.
    constructor; [constructor; cbn; try assumption|split; intros; cbn; [apply O1|apply O2]; lia|intros; cbn; rewrite O2 by lia; constructor|cbn; rewrite O2 by lia; constructor].
    + rewrite O1 by lia. repeat split; constructor.
    + rewrite O2 by lia. repeat split; constructor.
  - destruct c as [fs ts ms gs]. destruct (imports_read _ _ _ _ Hb R) as (bf & bt & bm & bg & [S1 S2 S3 S4 S5] & K & N).
    unfold imports_number in N. cbn [function_imports table_imports memory_imports global_imports] in *.
    apply able_imports in S1, S3, S4, S5.
    constructor; [constructor; cbn; try assumption|split; intros; cbn; [lia|apply O2; lia]|intros; exact U'|exact (uncoded _ _ U')].
    + auto.
    + repeat split; try assumption. unfold size in *. lia.
  - destruct (function_types_read _ _ _ _ Hb R) as [T N].
    assert (V : Forall (fun d => code (def d) = []) (map undefined c)) by (apply Forall_map, Forall_forall; intros; reflexivity).
    constructor; [constructor; cbn; try assumption|split; intros; lia|intros; exact V|exact (uncoded _ _ V)].
    split; [apply Forall_map; exact T|]. unfold size in *. now rewrite length_map.
  - pose proof (array_read _ _ _ _ table_type_canonical Hb R). constructor; [constructor; cbn; assumption|split; intros; lia|intros; exact U'|exact (uncoded _ _ U')].
  - pose proof (array_read _ _ _ _ memory_type_canonical Hb R). constructor; [constructor; cbn; assumption|split; intros; lia|intros; exact U'|exact (uncoded _ _ U')].
  - pose proof (array_read _ _ _ _ global_def_canonical Hb R). constructor; [constructor; cbn; assumption|split; intros; lia|intros; exact U'|exact (uncoded _ _ U')].
  - pose proof (array_read _ _ _ _ export_canonical Hb R). constructor; [constructor; cbn; assumption|split; intros; lia|intros; exact U'|exact (uncoded _ _ U')].
  - apply var32_read in R. constructor; [constructor; cbn; try assumption|split; intros; lia|intros; exact U'|exact (uncoded _ _ U')]. now right.
  - pose proof (array_read _ _ _ _ table_segment_canonical Hb R). constructor; [constructor; cbn; assumption|split; intros; lia|intros; exact U'|exact (uncoded _ _ U')].
  - pose proof (code_types _ _ _ _ R) as T. unfold serializeCodeSection in R. cbv zeta in R. cbn [read] in R.
    destruct (read serializeVarUInt32 bytes) as [[n l1]|] eqn:E1; [|discriminate].
    destruct (negb _); [discriminate|]. destruct (read_survives _ _ _ _ var32_canonical Hb E1) as (p1 & b1 & -> & _ & _ & Hl1).
    pose proof (read_bodies_able _ _ _ _ _ Hl1 R) as B.
    constructor; [constructor; cbn; try assumption|split; intros; lia|intros; lia|].
    + rewrite <- Forall_compose with (f := fun d => type_index (def d)) (P := fun t => 0 <= t < size (m_types m)), T, Forall_map.
      destruct functions_able0 as [A1 A2]. split; [exact A1|]. unfold size in *. apply (f_equal (@length _)) in T. rewrite !length_map in T. lia.
    + eapply Forall_impl; [|exact B]. intros d Bd. right. intros N. eapply alike_read; [|exact (Bd N)]. constructor; try reflexivity. exact T.
  - pose proof (array_read _ _ _ _ data_segment_canonical Hb R).
    constructor; [constructor; cbn; assumption|split; intros; lia|intros; lia|]. cbn. eapply coded_alike; [|exact Cd]. constructor; reflexivity.
Qed.

Lemma read_sections_parts (fuel : nat) : forall last m us l final us', Forall is_byte l -> size l < 2 ^ 31 -> parts_so_far last m ->
  read_sections fuel last m us l = Some (final, us') -> exists last', parts_so_far last' final.
Proof.
  induction fuel as [|fuel IH]; intros last m us l final us' Hl Ll I H; (destruct l as [|t l]; [cbn in H; injection H as <- _; now exists last|]); [discriminate|].
  cbn [read_sections] in H. inversion Hl as [|? ? Ht Hl1]; subst. unfold size in Ll. cbn [length] in Ll. destruct (t =? 0).
  - destruct (read_user_section l) as [[u l1]|] eqn:E; [|discriminate]. destruct (user_section_rest _ _ _ Hl1 E) as [Hr Lr].
    refine (IH _ _ _ _ _ _ Hr _ I H). unfold size. lia.
  - destruct (Z.ltb_spec last t) as [Lt|]; [cbn [negb] in H|discriminate].
    destruct (find (fun s => section_type s =? t) sections) as [s|] eqn:Fd; [|discriminate].
    apply find_some in Fd as [Hs Es]. apply Z.eqb_eq in Es. subst t. unfold read_section in H.
    destruct (read (serializeSection (body s m)) l) as [[c l1]|] eqn:E; [|discriminate].
    destruct (section_bytes _ _ _ _ Hl1 E) as (Hr & bytes & Hb & R & Lb).
    refine (IH _ _ _ _ _ _ Hr _ (parts_section s last m c bytes Hs Lt Hb _ R I) H); unfold size; lia.
Qed.

(** A module that is read, and whose functions all have code, can be written. *)
Lemma parsed_parts (l : list Z) (m : Module) (us : list UserSection) : Forall is_byte l -> size l < 2 ^ 31 -> parse_module l = Some (m, us) -> coded m ->
  validateDefinitions m = true /\ writable m /\ Forall (body_read m) (space_defs (m_functions m)).
Proof.
  intros Hl Ll H C. unfold parse_module, serializeModule_read in H. destruct (read header l) as [[u l1]|] eqn:E; [|discriminate].
  destruct (read_sections (length l1) 0 no_module [] l1) as [[m' us']|] eqn:R; [|discriminate].
  destruct (validateDefinitions m') eqn:V; [|discriminate]. injection H as <- <-.
  destruct (read_survives _ _ _ _ header_canonical Hl E) as (p & b & -> & _ & _ & Hl1). unfold size in Ll. rewrite length_app in Ll.
  destruct (read_sections_parts _ _ _ _ _ _ _ Hl1 ltac:(unfold size; lia) no_module_parts R) as (last & [W _ _ Cd]).
  split; [exact V|]. split; [exact W|]. pose proof (valid_locals _ V) as N. unfold coded, no_any_module in *.
  rewrite Forall_forall in *. intros d I. destruct (Cd d I) as [Z|B]; [destruct (C d I Z)|exact (B (N d I))].
Qed.
