(* ===== verification/InjectValid.v ===== *)
(** Injection and the validation of the engine composed: the module that the engine reads is one that injection
    may be applied to, and what injection makes of it is valid again. *)
From Stdlib Require Import ZArith Bool Lia String List.
From S2P Require Import Prelude Exceptions Memory Opcodes Ops OpsProofs Injection GasInjection Linking InjectCorrect.
From S2P Require Import Serialization SerializationProofs Utf8 IR IRProofs Binary BinaryProofs ModuleProofs ReadBack.
Import ListNotations.
Local Open Scope Z_scope.

(** The control structures are closed at the end of the code, that of the function by the last operator only. *)
Fixpoint closes (depth : Z) (ops : list instr) : bool :=
  match ops with
  | [] => true
  | op :: ops => (0 <? depth) && closes (depth + depth_change op) ops
  end.

(** A function whose code the engine has checked *)
Record checked (m : Module) (d : FunctionDefinition) (ops : list instr) : Prop := {
  checked_code : code (def d) = encode_all ops;
  checked_operators : Forall well_formed ops;
  checked_valid : exists ft c, function_type m (def d) = Some ft /\ finish c = true /\
    validate_ops m (def d) ft (branchTables d) ops (start_context ft) = Some c
}.

Record valid (m : Module) (opss : list (list instr)) : Prop := {
  valid_definitions : validateDefinitions m = true;
  valid_start_index : 0 <= m_start m;
  valid_functions : Forall2 (checked m) (space_defs (m_functions m)) opss
}.

(** ** A module with more imports and types *)
Section Extension.
Context (names : list injected) (m m2 : Module) (extra : list FunctionType) (imps : list (ImportOf Z)).
Context (Htypes : m_types m2 = m_types m ++ extra).
Context (Himports : space_imports (m_functions m2) = imps ++ space_imports (m_functions m)).
Context (Hinjected : Forall2 (fun i imp => 0 <= of_type imp /\ nth_error (m_types m2) (Z.to_nat (of_type imp)) = Some (snd i)) names imps).
Context (Hdefs : map (fun d => type_index (def d)) (space_defs (m_functions m2)) = map (fun d => type_index (def d)) (space_defs (m_functions m))).
Context (Hmemories : space_size (m_memories m2) = space_size (m_memories m)).
Context (Htables : space_size (m_tables m2) = space_size (m_tables m)).
Context (Hglobals : m_globals m2 = m_globals m).

Lemma size_imports : size (space_imports (m_functions m2)) = size names + size (space_imports (m_functions m)).
Proof. rewrite Himports, size_app. unfold size. now rewrite (Forall2_length _ _ _ Hinjected). Qed.
Lemma size_defs : size (space_defs (m_functions m2)) = size (space_defs (m_functions m)).
Proof. unfold size. apply (f_equal (@length _)) in Hdefs. rewrite !length_map in Hdefs. now rewrite Hdefs. Qed.
Lemma size_functions : space_size (m_functions m2) = size names + space_size (m_functions m).
Proof. unfold space_size. rewrite size_imports, size_defs. lia. Qed.
Lemma type_kept (i : nat) (t : FunctionType) : nth_error (m_types m) i = Some t -> nth_error (m_types m2) i = Some t.
Proof.
  intros H. rewrite Htypes, nth_error_app1; [exact H|]. apply nth_error_Some. congruence.
Qed.

Lemma type_at_def (n : nat) : option_map (fun d => type_index (def d)) (nth_error (space_defs (m_functions m2)) n)
  = option_map (fun d => type_index (def d)) (nth_error (space_defs (m_functions m)) n).
Proof. rewrite <- !nth_error_map. now rewrite Hdefs. Qed.

Lemma callee_moved (f : Z) (t : FunctionType) : 0 <= f -> validateFunctionIndex m f = Some t ->
  validateFunctionIndex m2 (f + size names) = Some t.
Proof.
  intros Hf. unfold validateFunctionIndex, valid_index, space_type. rewrite size_functions, size_imports.
  pose proof (size_nonneg names). pose proof (size_nonneg (space_imports (m_functions m))).
  destruct (Z.leb_spec (space_size (m_functions m)) f) as [|L]; [discriminate|]. cbn [negb].
  destruct (Z.leb_spec (size names + space_size (m_functions m)) (f + size names)); [lia|]. cbn [negb].
  pose proof (Forall2_length _ _ _ Hinjected) as Li.
  destruct (Z.ltb_spec f (size (space_imports (m_functions m)))), (Z.ltb_spec (f + size names) (size names + size (space_imports (m_functions m))));
    try lia.
  - rewrite Himports, nth_error_app2 by (unfold size in *; lia).
    replace (Z.to_nat (f + size names) - length imps)%nat with (Z.to_nat f) by (unfold size in *; lia).
    destruct (nth_error _ (Z.to_nat f)) as [i|]; [|discriminate]. cbn [option_map]. apply type_kept.
  - rewrite type_at_def. replace (f + size names - (size names + size (space_imports (m_functions m)))) with (f - size (space_imports (m_functions m))) by lia.
    destruct (option_map _ _) as [i|]; [|discriminate]. apply type_kept.
Qed.

Lemma callee_injected (i : injected) : NoDup (map fst names) -> In i names ->
  validateFunctionIndex m2 (index_of (fst i) names) = Some (snd i).
Proof.
  intros D I. pose proof (index_of_bound (fst i) names (in_map _ _ _ I)) as B.
  unfold validateFunctionIndex, valid_index, space_type. rewrite size_functions, size_imports.
  assert (0 <= space_size (m_functions m)) by (unfold space_size, size; lia). pose proof (size_nonneg (space_imports (m_functions m))).
  destruct (Z.leb_spec (size names + space_size (m_functions m)) (index_of (fst i) names)); [lia|]. cbn [negb].
  destruct (Z.ltb_spec (index_of (fst i) names) (size names + size (space_imports (m_functions m)))); [|lia].
  destruct (Forall2_nth _ _ _ Hinjected _ _ (index_of_nth names i D I)) as (imp & N & _ & T).
  rewrite Himports, nth_error_app1 by (apply nth_error_Some; congruence). rewrite N. exact T.
Qed.

Lemma global_kept (i : Z) (a b c : bool) : validateGlobalIndex m2 i a b c = validateGlobalIndex m i a b c.
Proof. unfold validateGlobalIndex. now rewrite Hglobals. Qed.
Lemma imm_kept (op : instr) : validateImm m2 op = validateImm m op.
Proof. unfold validateImm. now rewrite Hmemories. Qed.

Lemma replaced_signature (c : Z) (i : injected) : replacement c = Some i ->
  field_type_of c = Some voidtype /\ signature c = Some (parameters (snd i), ret (snd i)) /\
  existsb (Z.eqb c) [current_memory_code; grow_memory_code] = false /\
  existsb (Z.eqb c) [else__code; end_code; return__code; unreachable_code; drop_code; select_code] = false.
Proof.
  intros R. pose proof (replacement_code c i R) as B.
  assert (A := code_cases (fun c => match replacement c with
    | Some i => match field_type_of c, signature c with
        | Some voidtype, Some (ps, r) => list_eqb ps (parameters (snd i)) && (r =? ret (snd i))
        | _, _ => false end && negb (existsb (Z.eqb c) [current_memory_code; grow_memory_code])
        && negb (existsb (Z.eqb c) [else__code; end_code; return__code; unreachable_code; drop_code; select_code])
    | None => true end) ltac:(vm_compute; reflexivity) c B). cbv beta in A. rewrite R in A.
  apply andb_true_iff in A as [A A3]. apply andb_true_iff in A as [A A2]. apply negb_true_iff in A2, A3.
  destruct (field_type_of c) as [[]|]; try discriminate. destruct (signature c) as [[ps r]|]; [|discriminate].
  apply andb_true_iff in A as [A1 A4]. apply list_eqb_eq in A1. apply Z.eqb_eq in A4. subst. auto.
Qed.

Lemma validate_replaced (d : FunctionDef) (ft : FunctionType) (bt : list (list Z)) (op : instr) (i : injected) (c : context) :
  well_formed op -> replacement (get_code op) = Some i -> validate_op m d ft bt op c = call_type (snd i) c.
Proof.
  intros (_ & t & T & F) R. destruct (replaced_signature _ _ R) as (V & S & M & P). rewrite V in T. injection T as <-.
  unfold validate_op, validateImm. destruct (op_field op); try contradiction. cbv zeta. cbn [existsb] in P.
  repeat match type of P with _ || _ = false => apply orb_false_iff in P as [?P P] end.
  rewrite P0, P1, P2, P3, P4, P5, M, S. reflexivity.
Qed.

Lemma validate_call (n : Module) (d : FunctionDef) (ft : FunctionType) (bt : list (list Z)) (f : Z) (c : context) :
  validate_op n d ft bt (Instr call_code (Ops.U32 f)) c = then_ (validateFunctionIndex n f) (fun t => call_type t c).
Proof. reflexivity. Qed.

Lemma validate_other (d : FunctionDef) (ft : FunctionType) (bt : list (list Z)) (op : instr) (c c1 : context) :
  (get_code op =? call_code) = false -> validate_op m d ft bt op c = Some c1 -> validate_op m2 d ft bt op c = Some c1.
Proof.
  intros N H. unfold validate_op in *. cbv zeta in *. rewrite imm_kept. destruct (op_field op); try exact H.
  destruct (get_code op =? br_code); [exact H|]. destruct (get_code op =? br_if_code); [exact H|]. rewrite N in *.
  destruct (get_code op =? call_indirect_code).
  - rewrite Htables. destruct (_ =? 0); [rewrite orb_true_r in *; discriminate|]. rewrite orb_false_r in *.
    unfold valid_index in *. destruct (Z.leb_spec (size (m_types m)) v) as [|L]; [discriminate|]. cbn [negb] in H.
    apply then_some in H as (t & T & H). rewrite (type_kept _ _ T). rewrite Htypes, size_app. pose proof (size_nonneg extra).
    destruct (Z.leb_spec (size (m_types m) + size extra) v); [lia|]. exact H.
  - destruct (get_code op =? get_local_code); [exact H|]. destruct (get_code op =? set_local_code); [exact H|].
    destruct (get_code op =? tee_local_code); [exact H|]. rewrite !global_kept. exact H.
Qed.

(** An operator and the one that injection puts in its place have the same effect. *)
Lemma lower_valid (d : FunctionDef) (ft : FunctionType) (bt : list (list Z)) (op : instr) (c c1 : context) :
  NoDup (map fst names) -> size names < 2 ^ 31 -> mentions names op -> well_formed op ->
  validate_op m d ft bt op c = Some c1 -> validate_op m2 d ft bt (lower names op) c = Some c1.
Proof.
  intros D B M W H. unfold lower. destruct (replacement (get_code op)) as [i|] eqn:R.
  - rewrite (validate_replaced _ _ _ _ i c W R) in H. unfold call_inst. pose proof (index_of_bound (fst i) names (in_map _ _ _ (M i R))).
    rewrite uwrap_small by lia. rewrite validate_call, callee_injected by auto. exact H.
  - destruct (Z.eqb_spec (get_code op) call_code) as [E|N].
    + destruct W as (_ & t & T & F). rewrite E in T. vm_compute in T. injection T as <-. destruct op as [k f]. cbn in E. subst k.
      destruct f; try contradiction. cbn [op_field] in *. rewrite validate_call in *. apply then_some in H as (t & T & H).
      rewrite (callee_moved v t (proj1 F) T). exact H.
    + apply Z.eqb_neq in N. exact (validate_other _ _ _ _ _ _ N H).
Qed.

(** A charge pushes what use_gas pops. *)
Lemma charge_valid (d : FunctionDef) (ft : FunctionType) (bt : list (list Z)) (g : Z) (c : context) (rest : list injected) :
  names = use_gas_import :: rest -> balanced c -> 0 < depth c -> validate_ops m2 d ft bt (charge 0 g) c = Some c.
Proof.
  intros E B P. unfold charge. destruct (0 <? g); [|reflexivity].
  assert (U : validateFunctionIndex m2 0 = Some (snd use_gas_import)).
  { unfold validateFunctionIndex, valid_index, space_type. rewrite size_functions, size_imports.
    assert (1 <= size names) by (rewrite E; unfold size; cbn [length]; lia).
    assert (0 <= space_size (m_functions m)) by (unfold space_size, size; lia). pose proof (size_nonneg (space_imports (m_functions m))).
    destruct (Z.leb_spec (size names + space_size (m_functions m)) 0); [lia|]. cbn [negb].
    destruct (Z.ltb_spec 0 (size names + size (space_imports (m_functions m)))); [|lia].
    assert (F : nth_error names 0 = Some use_gas_import) by (rewrite E; reflexivity).
    destruct (Forall2_nth _ _ _ Hinjected 0%nat _ F) as (imp & N & _ & T). change (Z.to_nat 0) with 0%nat.
    rewrite Himports, nth_error_app1 by (apply nth_error_Some; congruence). rewrite N. exact T. }
  cbn [validate_ops]. unfold const_inst, call_inst. change (u32 0) with 0.
  change (validate_op m2 d ft bt (Instr i64_const_code (Ops.U64 (u64 g))) c) with (Some (pushOperand vt_i64 c)). cbn [then_].
  rewrite validate_call, U. cbn [then_]. unfold call_type, popAndValidateOperands. cbn [use_gas_import snd parameters rev app pop_all].
  unfold depth, size, balanced in *. destruct c as [[|back cs] l]; [cbn in P; lia|]. cbn [controlStack operands stacked] in B.
  unfold popAndValidateOperand, popOperand, pushOperand. cbn [controlStack operands length].
  destruct (Nat.ltb_spec (outerStackSize back) (S (length l))); [reflexivity|lia].
Qed.

Lemma finished_valid (d : FunctionDef) (ft : FunctionType) (bt : list (list Z)) (rest : list injected) (ops : list instr) :
  names = use_gas_import :: rest -> NoDup (map fst names) -> size names < 2 ^ 31 ->
  forall start c c1, Forall (mentions names) ops -> Forall well_formed ops -> balanced c -> closes (depth c) ops = true ->
  validate_ops m d ft bt ops c = Some c1 -> validate_ops m2 d ft bt (finished names start ops) c = Some c1.
Proof.
  intros E D B. induction ops as [|op ops IH]; intros start c c1 M W Bc Cl H; [exact H|].
  cbn [finished closes validate_ops] in *. apply andb_true_iff in Cl as [P Cl]. apply Z.ltb_lt in P.
  inversion_clear M as [|? ? M1 M2]. inversion_clear W as [|? ? W1 W2]. apply then_some in H as (c2 & H1 & H2).
  destruct (validate_op_keeps _ _ _ _ _ _ _ H1) as [D1 B1]. rewrite <- D1 in Cl.
  assert (Q : validate_ops m2 d ft bt (if start then charge 0 (line_gas (op :: ops)) else []) c = Some c).
  { destruct start; [now apply (charge_valid _ _ _ _ _ rest)|reflexivity]. }
  rewrite validate_ops_app, Q. cbn [then_ validate_ops]. rewrite (lower_valid _ _ _ _ _ _ D B M1 W1 H1). cbn [then_].
  apply IH; auto.
Qed.
End Extension.

(** ** What injection needs *)
Definition max_pages : Z := maximum_linear_memory / wasm_page_size.
(** The memory declared can be limited. *)
Definition memory_fits (m : Module) : bool :=
  match space_defs (m_memories m) with (min, max) :: _ => (max <=? max_pages) || (min <=? max_pages) | [] => true end.

Lemma closes_split (a b : list instr) : forall k, closes k (a ++ b) = true -> closes (k + depth_of a) b = true.
Proof.
  induction a as [|op a IH]; intros k H; unfold depth_of in *; cbn [app closes map fold_right] in *; [now rewrite Z.add_0_r|].
  apply andb_true_iff in H as [_ H]. rewrite Z.add_assoc. now apply IH.
Qed.

Lemma depth_of_app (a b : list instr) : depth_of (a ++ b) = depth_of a + depth_of b.
Proof. unfold depth_of. induction a as [|op a IH]; cbn [app map fold_right]; [reflexivity|]. rewrite IH. lia. Qed.

(** Code that closes what it opens ends with [end]. *)
Lemma closes_flushing (ops : list instr) : closes 1 ops = true -> depth_of ops = -1 -> ends_flushing ops.
Proof.
  intros C D. destruct (exists_last (l := ops)) as (body & op & ->); [intros ->; discriminate D|].
  exists body, op. split; [reflexivity|]. apply closes_split in C. cbn [closes] in C. rewrite andb_true_r in C. apply Z.ltb_lt in C.
  rewrite depth_of_app in D. unfold depth_of at 2 in D. cbn [map fold_right] in D.
  unfold depth_change in D. destruct (existsb _ _); [lia|]. destruct (Z.eqb_spec (get_code op) end_code) as [E|]; [|lia].
  unfold flushing. rewrite E. reflexivity.
Qed.

Lemma checked_depth (m : Module) (d : FunctionDefinition) (ops : list instr) : checked m d ops -> depth_of ops = -1.
Proof.
  intros [_ _ (ft & c & _ & Fc & V)]. destruct (validate_ops_keeps _ _ _ _ _ _ _ V) as [D _]. unfold finish in Fc. unfold depth, size in D.
  destruct (controlStack c); [|discriminate]. cbn [length controlStack start_context pushControlStack] in D. lia.
Qed.

(** Every call of checked code is of a function of the module. *)
Lemma validate_ops_calls (m : Module) (d : FunctionDef) (ft : FunctionType) (bt : list (list Z)) (ops : list instr) :
  Forall well_formed ops -> forall c c1, validate_ops m d ft bt ops c = Some c1 -> Forall (calls_below (space_size (m_functions m))) ops.
Proof.
  induction 1 as [|op ops W Ws IH]; intros c c1 H; [constructor|]. cbn [validate_ops] in H. apply then_some in H as (c2 & H1 & H2).
  constructor; [|exact (IH _ _ H2)]. intros E. destruct W as (_ & t & T & F). rewrite E in T. vm_compute in T. injection T as <-.
  destruct op as [k f]. cbn in E. subst k. destruct f; try contradiction. exists v. split; [reflexivity|].
  rewrite validate_call in H1. apply then_some in H1 as (t & T & _). unfold validateFunctionIndex, valid_index in T.
  destruct (Z.leb_spec (space_size (m_functions m)) v); [discriminate|assumption].
Qed.

Lemma base_of_module (m : Module) : base_of (as_module m) = space_size (m_functions m).
Proof. unfold base_of, space_size, as_module, size. cbn. now rewrite !length_map. Qed.

Lemma valid_start (m : Module) : validateDefinitions m = true -> validate_start m = true.
Proof. unfold validateDefinitions. rewrite !andb_true_iff. tauto. Qed.

Lemma valid_memories (m : Module) : validateDefinitions m = true -> forallb validate_MemoryType (space_defs (m_memories m)) = true.
Proof. unfold validateDefinitions. rewrite !andb_true_iff. tauto. Qed.

(** A module that the engine has validated is one that injection may be applied to. *)
Lemma valid_ready (m : Module) (opss : list (list instr)) : valid m opss -> Forall (fun ops => closes 1 ops = true) opss ->
  Forall (fun ops => Z.of_nat (length ops) < 2 ^ 32) opss -> space_size (m_functions m) < 2 ^ 31 -> ready (as_module m) opss.
Proof.
  intros [V P F] C Sh B. constructor.
  - now rewrite base_of_module.
  - rewrite base_of_module. pose proof (valid_start m V) as S. unfold validate_start in S. cbn [startFunctionIndex as_module].
    destruct (Z.eqb_spec (m_start m) UINTPTR_MAX); [now left|]. right. split; [exact P|].
    destruct (validateFunctionIndex m (m_start m)) eqn:E; [|discriminate]. unfold validateFunctionIndex, valid_index in E.
    destruct (Z.leb_spec (space_size (m_functions m)) (m_start m)); [discriminate|assumption].
  - rewrite base_of_module. cbn [defs as_module]. induction F as [|d ops ds opss K F IH]; [constructor|].
    inversion_clear C as [|? ? C1 C2]. inversion_clear Sh as [|? ? S1 S2]. cbn [map]. constructor; [|now apply IH].
    pose proof (checked_depth _ _ _ K) as Dp. destruct K as [Kc Kw (ft & c & _ & _ & Kv)].
    split; [split; assumption|]. split; [now apply closes_flushing|]. split; [lia|]. exact (validate_ops_calls _ _ _ _ _ Kw _ _ Kv).
Qed.

(** ** What injection makes *)
Definition injected_function (names : list injected) (d : FunctionDefinition) (ops : list instr) : FunctionDefinition :=
  Definition_ (with_code (def d) (encode_all (finished names true ops))) (branchTables d).

Lemma zip_functions (names : list injected) (ds : list FunctionDefinition) : forall opss,
  map (fun '(d, fd) => Definition_ fd (branchTables d))
    (combine ds (map (fun '(fd, ops) => with_code fd (encode_all (finished names true ops))) (combine (map def ds) opss))) =
  map (fun '(d, ops) => injected_function names d ops) (combine ds opss).
Proof. induction ds as [|d ds IH]; intros [|ops opss]; try reflexivity. cbn [map combine]. f_equal. apply IH. Qed.

Lemma zip_types (names : list injected) (ds : list FunctionDefinition) : forall opss, length ds = length opss ->
  map (fun d => type_index (def d)) (map (fun '(d, ops) => injected_function names d ops) (combine ds opss)) = map (fun d => type_index (def d)) ds.
Proof. induction ds as [|d ds IH]; intros [|ops opss] E; try discriminate; [reflexivity|]. cbn [map combine]. f_equal. apply IH. cbn in E. lia. Qed.

Lemma zip_checked (P Q : FunctionDefinition -> list instr -> Prop) (f : FunctionDefinition -> list instr -> FunctionDefinition)
    (g : list instr -> list instr) (R : list instr -> Prop) (ds : list FunctionDefinition) (opss : list (list instr)) :
  (forall d ops, P d ops -> R ops -> Q (f d ops) (g ops)) -> Forall2 P ds opss -> Forall R opss ->
  Forall2 Q (map (fun '(d, ops) => f d ops) (combine ds opss)) (map g opss).
Proof.
  intros H F. induction F as [|d ops ds opss K F IH]; intros A; [constructor|]. inversion_clear A as [|? ? A1 A2].
  cbn [combine map]. constructor; [now apply H|now apply IH].
Qed.

Lemma lower_well_formed (names : list injected) (base : Z) (op : instr) : base < 2 ^ 31 -> size names < 2 ^ 31 -> calls_below base op ->
  well_formed op -> well_formed (lower names op).
Proof.
  intros B N Cb W. unfold lower. assert (Cw : forall k, well_formed (call_inst k)).
  { intros k. split; [split; [discriminate|reflexivity]|]. exists uint32_field. split; [reflexivity|]. apply uwrap_bound. lia. }
  destruct (replacement (get_code op)) as [i|]; [apply Cw|]. destruct (Z.eqb_spec (get_code op) call_code) as [E|]; [|exact W].
  destruct (Cb E) as (f & Ef & Lf). rewrite Ef. destruct W as (_ & t & T & F). rewrite E in T. vm_compute in T. injection T as <-. rewrite Ef in F.
  split; [split; [discriminate|reflexivity]|]. exists uint32_field. split; [reflexivity|]. destruct F as [F _]. pose proof (size_nonneg names).
  cbn [field_fits op_field]. unfold word. lia.
Qed.

Lemma finished_well_formed (names : list injected) (base : Z) (ops : list instr) : base < 2 ^ 31 -> size names < 2 ^ 31 ->
  Forall (calls_below base) ops -> Forall well_formed ops -> forall start, Forall well_formed (finished names start ops).
Proof.
  intros B N Cb W. induction ops as [|op ops IH]; intros start; [constructor|]. inversion_clear Cb as [|? ? C1 C2]. inversion_clear W as [|? ? W1 W2].
  cbn [finished]. apply Forall_app. split.
  - destruct start; [|constructor]. unfold charge. destruct (0 <? _); [|constructor].
    repeat constructor; try discriminate; [exists uint64_field|exists uint32_field]; (split; [reflexivity|]); apply uwrap_bound; lia.
  - constructor; [now apply (lower_well_formed names base)|now apply IH].
Qed.

Section Injected.
Context (m : Module) (opss : list (list instr)) (names rest : list injected) (m' : Module_).
Context (V : valid m opss) (C : Forall (fun ops => closes 1 ops = true) opss).
Context (Base : space_size (m_functions m) < 2 ^ 31).
Context (Wr : rewritten (as_module m) opss names m') (En : names = use_gas_import :: rest) (D : NoDup (map fst names)).
Context (Known : incl names injectable) (Mentioned : Forall (Forall (mentions names)) opss).

Lemma injected_functions : space_defs (m_functions (with_injected m m')) =
  map (fun '(d, ops) => injected_function names d ops) (combine (space_defs (m_functions m)) opss).
Proof. cbn [m_functions with_injected space_defs]. rewrite (rewritten_defs _ _ _ _ Wr). apply zip_functions. Qed.

Lemma injected_imports : exists imps, space_imports (m_functions (with_injected m m')) = imps ++ space_imports (m_functions m) /\
  Forall2 (fun i imp => 0 <= of_type imp /\ nth_error (m_types (with_injected m m')) (Z.to_nat (of_type imp)) = Some (snd i)) names imps /\
  Forall2 (fun i imp => of_export imp = fst i /\ of_module imp = EOSIO_INJECTED_MODULE_NAME) names imps.
Proof.
  destruct (rewritten_imports _ _ _ _ Wr) as (imps & E & F). exists (map of_import imps). split.
  - cbn [m_functions with_injected space_imports]. rewrite E, map_app. f_equal. cbn [imports as_module]. rewrite map_map.
    rewrite (map_ext _ (fun i => i)); [apply map_id|]. intros [t a b]. reflexivity.
  - clear -F. split; (induction F as [|i imp ns l (A & B & P & T) _ IH]; [constructor|constructor; [cbn; auto|exact IH]]).
Qed.

Lemma injected_types : exists extra, m_types (with_injected m m') = m_types m ++ extra /\ incl extra (map snd names).
Proof. destruct (rewritten_types _ _ _ _ Wr) as (extra & E & I & _). exists extra. auto. Qed.

Lemma injected_def_types :
  map (fun d => type_index (def d)) (space_defs (m_functions (with_injected m m'))) = map (fun d => type_index (def d)) (space_defs (m_functions m)).
Proof. rewrite injected_functions. apply zip_types. exact (Forall2_length _ _ _ (valid_functions _ _ V)). Qed.

Lemma injected_memories : space_size (m_memories (with_injected m m')) = space_size (m_memories m).
Proof.
  unfold space_size. cbn [m_memories with_injected space_imports space_defs]. rewrite (rewritten_memories _ _ _ _ Wr). cbn [memories as_module].
  unfold max_memory_injection. destruct (space_defs (m_memories m)) as [|[a b] l]; [reflexivity|]. destruct (_ <? b); reflexivity.
Qed.

Lemma names_few : size names < 2 ^ 31.
Proof. pose proof (names_bound (as_module m) names D Known). lia. Qed.

Lemma injected_checked : Forall2 (checked (with_injected m m')) (space_defs (m_functions (with_injected m m'))) (map (finished names true) opss).
Proof.
  rewrite injected_functions. apply (zip_checked (checked m) _ (injected_function names) _ (fun ops => Forall (mentions names) ops /\ closes 1 ops = true)).
  - intros d ops [Kc Kw (ft & c & Kt & Kf & Kv)] [M Cl]. destruct injected_imports as (imps & Ei & Fi & _). destruct injected_types as (extra & Et & _).
    constructor; cbn [injected_function def branchTables]; [reflexivity| |].
    + apply (finished_well_formed names (space_size (m_functions m))); [exact Base|exact names_few| |exact Kw].
      exact (validate_ops_calls _ _ _ _ _ Kw _ _ Kv).
    + exists ft, c. split; [exact (type_kept _ _ extra Et _ _ Kt)|]. split; [exact Kf|].
      change (validate_ops (with_injected m m') (with_code (def d) (encode_all (finished names true ops)))) with (validate_ops (with_injected m m') (def d)).
      apply (finished_valid names m (with_injected m m') extra imps Et Ei Fi injected_def_types injected_memories eq_refl eq_refl (def d) ft _ rest);
        try assumption; [exact names_few|cbn; auto].
  - exact (valid_functions _ _ V).
  - apply Forall_and; assumption.
Qed.

Lemma injectable_types_valid (i : injected) : In i injectable -> validate_FunctionType (snd i) = true.
Proof. intros I. assert (A : forallb (fun i => validate_FunctionType (snd i)) injectable = true) by (vm_compute; reflexivity).
  rewrite forallb_forall in A. exact (A i I). Qed.

Lemma index_weaken (i n k : Z) : valid_index i n = true -> n <= k -> valid_index i k = true.
Proof. unfold valid_index. rewrite !negb_true_iff, !Z.leb_gt. lia. Qed.

Lemma index_shift (i n k : Z) : valid_index i n = true -> valid_index (i + k) (k + n) = true.
Proof. unfold valid_index. rewrite !negb_true_iff, !Z.leb_gt. lia. Qed.

Lemma types_grow : size (m_types m) <= size (m_types (with_injected m m')).
Proof. destruct injected_types as (extra & E & _). rewrite E, size_app. pose proof (size_nonneg extra). lia. Qed.

Lemma functions_grow : space_size (m_functions (with_injected m m')) = size names + space_size (m_functions m).
Proof.
  destruct injected_imports as (imps & Ei & Fi & _). destruct injected_types as (extra & Et & _).
  exact (size_functions names m (with_injected m m') imps Ei Fi injected_def_types).
Qed.

Lemma export_kept (e : Export) : validate_Export m e = true -> validate_Export (with_injected m m') (shift_export_by (size names) e) = true.
Proof.
  unfold validate_Export, shift_export_by. destruct e as [n k i]; destruct k; cbn [kind index].
  - intros H. rewrite functions_grow. now apply index_shift.
  - exact (fun H => H).
  - intros H. rewrite injected_memories. exact H.
  - exact (fun H => H).
Qed.

Lemma start_kept : validate_start m = true -> validate_start (with_injected m m') = true.
Proof.
  unfold validate_start. cbn [m_start with_injected]. rewrite (rewritten_start _ _ _ _ Wr). unfold shift_start. cbn [startFunctionIndex as_module].
  destruct (Z.eqb_spec (m_start m) UINTPTR_MAX) as [E|N]; [rewrite E, Z.eqb_refl; auto|].
  destruct (validateFunctionIndex m (m_start m)) as [t|] eqn:T; [|discriminate]. intros H.
  destruct injected_imports as (imps & Ei & Fi & _). destruct injected_types as (extra & Et & _).
  rewrite (callee_moved names m (with_injected m m') extra imps Et Ei Fi injected_def_types _ t (valid_start_index _ _ V) T).
  destruct (_ =? UINTPTR_MAX); [reflexivity|exact H].
Qed.

Lemma memory_kept : forallb validate_MemoryType (space_defs (m_memories m)) = true ->
  forallb validate_MemoryType (space_defs (m_memories (with_injected m m'))) = memory_fits m.
Proof.
  cbn [m_memories with_injected space_defs]. rewrite (rewritten_memories _ _ _ _ Wr). cbn [memories as_module]. unfold max_memory_injection, memory_fits.
  destruct (space_defs (m_memories m)) as [|[min max] l]; [auto|].
  change (maximum_linear_memory / wasm_page_size) with max_pages in *. destruct (Z.ltb_spec max_pages max) as [L|L], (Z.leb_spec max max_pages); try lia; [|auto].
  cbn [forallb]. rewrite andb_true_iff. intros [_ ->]. rewrite andb_true_r. unfold validate_MemoryType, validate_size. cbn [fst snd orb].
  change (max_pages =? UINT64_MAX) with false. change (maxMemoryPages <? max_pages) with false. cbn [negb].
  rewrite andb_true_r. destruct (Z.ltb_spec max_pages min), (Z.leb_spec min max_pages); try lia; reflexivity.
Qed.

Lemma forallb_weaken {A} (f g : A -> bool) (l : list A) : (forall a, f a = true -> g a = true) -> forallb f l = true -> forallb g l = true.
Proof. rewrite !forallb_forall. auto. Qed.

Lemma segments_kept (l : list TableSegment) : forall fs, fs = map (map (fun i => i + size names)) (map indices l) ->
  forallb (fun s => valid_index (tableIndex s) (space_size (m_tables m)) && validateInitializer m (table_offset s) vt_i32
                    && forallb (fun i => valid_index i (space_size (m_functions m))) (indices s)) l = true ->
  forallb (fun s => valid_index (tableIndex s) (space_size (m_tables (with_injected m m'))) && validateInitializer (with_injected m m') (table_offset s) vt_i32
                    && forallb (fun i => valid_index i (space_size (m_functions (with_injected m m')))) (indices s))
    (map (fun '(s, fs) => MkTableSegment (tableIndex s) (table_offset s) fs) (combine l fs)) = true.
Proof.
  induction l as [|s l IH]; intros fs ->; [reflexivity|]. cbn [map combine forallb tableIndex table_offset indices]. rewrite !andb_true_iff.
  intros [[[A B] Cc] R]. repeat split; try assumption; [|now apply IH]. rewrite functions_grow.
  rewrite forallb_forall in *. intros x I. apply in_map_iff in I as (y & <- & I). apply index_shift. now apply Cc.
Qed.

Lemma injected_definitions : memory_fits m = true -> validateDefinitions (with_injected m m') = true.
Proof.
  intros Fits. destruct injected_imports as (imps & Ei & Fi & _). destruct injected_types as (extra & Et & It).
  pose proof (valid_definitions _ _ V) as H. unfold validateDefinitions in *. rewrite !andb_true_iff in *.
  decompose [and] H. repeat split; try assumption.
  - rewrite Et, forallb_app, andb_true_iff. split; [assumption|]. apply forallb_forall. intros t I. apply It in I.
    apply in_map_iff in I as (i & <- & I). apply injectable_types_valid. now apply Known.
  - rewrite Ei, forallb_app, andb_true_iff. split.
    + apply forallb_forall. intros imp I. destruct (In_nth_error _ _ I) as (n & N).
      assert (exists i, nth_error names n = Some i) as (i & Ni).
      { destruct (nth_error names n) eqn:Q; [eauto|]. apply nth_error_None in Q. pose proof (Forall2_length _ _ _ Fi).
        assert (nth_error imps n <> None) as Z by congruence. apply nth_error_Some in Z. lia. }
      destruct (Forall2_nth _ _ _ Fi _ _ Ni) as (imp' & N' & P & T). rewrite N in N'. injection N' as <-.
      unfold valid_index. rewrite negb_true_iff. apply Z.leb_gt. assert (nth_error (m_types (with_injected m m')) (Z.to_nat (of_type imp)) <> None) as Z by congruence.
      apply nth_error_Some in Z. unfold size. lia.
    + eapply forallb_weaken; [|eassumption]. intros i I. cbn in I. eapply index_weaken; [exact I|exact types_grow].
  - rewrite injected_functions. apply forallb_forall. intros d I. apply in_map_iff in I as ([d0 ops] & <- & I). apply in_combine_l in I.
    match goal with K : forallb (validate_FunctionDef m) _ = true |- _ => rewrite forallb_forall in K; specialize (K d0 I) end.
    unfold validate_FunctionDef in *. cbn [injected_function def with_code type_index nonParameterLocalTypes]. rewrite andb_true_iff in *.
    match goal with K : _ /\ _ |- _ => destruct K end. split; [|assumption]. eapply index_weaken; [eassumption|exact types_grow].
  - rewrite memory_kept by assumption. exact Fits.
  - rewrite injected_memories. assumption.
  - cbn [m_exports with_injected]. rewrite (rewritten_exports _ _ _ _ Wr). cbn [exports as_module]. rewrite forallb_forall in *. intros e I.
    apply in_map_iff in I as (e0 & <- & I). apply export_kept. auto.
  - cbn [m_exports with_injected]. rewrite (rewritten_exports _ _ _ _ Wr), map_map. cbn [exports as_module].
    rewrite (map_ext _ export_name); [assumption|]. intros [n k i]; destruct k; reflexivity.
  - apply start_kept. assumption.
  - eapply forallb_weaken; [|eassumption]. intros s K. cbn beta in *. rewrite injected_memories. exact K.
  - cbn [m_tableSegments with_injected]. apply segments_kept; [|assumption]. rewrite (rewritten_tables _ _ _ _ Wr). reflexivity.
Qed.

Lemma injected_valid : validateDefinitions (with_injected m m') = memory_fits m.
Proof.
  destruct (memory_fits m) eqn:E; [exact (injected_definitions E)|]. destruct (validateDefinitions (with_injected m m')) eqn:K; [|reflexivity].
  apply valid_memories in K. rewrite memory_kept in K by (apply valid_memories, V). congruence.
Qed.
End Injected.

(** ** From the bytes *)
Lemma read_checked (m : Module) (d : FunctionDefinition) (ops : list instr) (bs : list Z) : body_ok m d ops bs -> checked m d ops.
Proof.
  intros [_ Cd O (ft & c & T & Fc & V)]. destruct (ops_survive_spec m (def d) ft _ _ _ _ O) as (_ & W & _).
  constructor; [exact Cd|exact W|]. exists ft, c. auto.
Qed.

Lemma read_functions (m : Module) (ds : list FunctionDefinition) : Forall (body_read m) ds ->
  exists opss, Forall2 (fun d ops => exists bs, body_ok m d ops bs) ds opss /\ Forall short opss.
Proof.
  induction 1 as [|d ds (ops & bs & O & S) _ (opss & Os & Ss)]; [exists []; split; constructor|].
  exists (ops :: opss). split; constructor; try assumption. now exists bs.
Qed.

Lemma functions_few (m : Module) : writable m -> space_size (m_functions m) < 2048.
Proof. intros [_ (_ & _ & A) _ (_ & B) _ _ _ _ _ _ _]. unfold space_size. lia. Qed.

(** A module that is read, and whose functions all have code, is valid. *)
Lemma parsed_valid (m : Module) (opss : list (list instr)) : validateDefinitions m = true -> writable m ->
  Forall2 (fun d ops => exists bs, body_ok m d ops bs) (space_defs (m_functions m)) opss -> valid m opss.
Proof.
  intros V W F. constructor; [exact V| |].
  - destruct (start_able _ W) as [->|L]; [discriminate|lia].
  - clear -F. induction F as [|d ops ds opss (bs & O) _ IH]; constructor; [exact (read_checked _ _ _ _ O)|exact IH].
Qed.

(** The operators of a function *)
Definition operators (code : list Z) : result (list instr) := decode_while (fun op ops => Value (ops ++ [op])) code [].

Lemma operators_spec (ops : list instr) : Forall well_formed ops -> operators (encode_all ops) = Value ops.
Proof.
  intros W. unfold operators. rewrite decode_while_fold by exact W.
  assert (G : forall l acc, fold_ops (fun op ops => Value (ops ++ [op])) l acc = Value (acc ++ l)).
  { induction l as [|op l IH]; intros acc; cbn [fold_ops]; [now rewrite app_nil_r|]. cbn [rbind]. rewrite IH. now rewrite <- app_assoc. }
  now rewrite G.
Qed.

(** No function has code after its end. *)
Definition ends_once (m : Module) : bool :=
  forallb (fun d => match operators (code (def d)) with Value ops => closes 1 ops | Throw _ => false end) (space_defs (m_functions m)).

Lemma ends_once_closes (m : Module) (ds : list FunctionDefinition) (opss : list (list instr)) : Forall2 (checked m) ds opss ->
  forallb (fun d => match operators (code (def d)) with Value ops => closes 1 ops | Throw _ => false end) ds = true ->
  Forall (fun ops => closes 1 ops = true) opss.
Proof.
  induction 1 as [|d ops ds opss K F IH]; [constructor|]. cbn [forallb]. rewrite andb_true_iff. intros [A B]. constructor; [|exact (IH B)].
  destruct K as [Kc Kw _]. rewrite Kc, operators_spec in A by exact Kw. exact A.
Qed.

(** What injection makes of a module that is read *)
Record injected_module (m : Module) (opss : list (list instr)) (names : list injected) (m' : Module_) : Prop := {
  was_valid : Forall2 (checked m) (space_defs (m_functions m)) opss;
  is_rewritten : rewritten (as_module m) opss names m';
  begins_with_gas : hd_error names = Some use_gas_import;
  injected_once : NoDup (map fst names);
  injected_known : incl names injectable;
  mentioned : Forall (Forall (mentions names)) opss;
  definitions_valid : validateDefinitions (with_injected m m') = memory_fits m;
  functions_valid : Forall2 (checked (with_injected m m')) (space_defs (m_functions (with_injected m m'))) (map (finished names true) opss)
}.

Lemma read_injected (m : Module) (opss : list (list instr)) : validateDefinitions m = true -> writable m ->
  Forall2 (fun d ops => exists bs, body_ok m d ops bs) (space_defs (m_functions m)) opss -> Forall short opss ->
  ends_once m = true ->
  exists names m', ready (as_module m) opss /\ inject (as_module m) = Value m' /\ injected_module m opss names m'.
Proof.
  intros Vd Wt F Sh E. pose proof (parsed_valid m opss Vd Wt F) as V.
  pose proof (ends_once_closes m _ opss (valid_functions _ _ V) E) as C.
  assert (Base : space_size (m_functions m) < 2 ^ 31) by (pose proof (functions_few m Wt); lia).
  pose proof (valid_ready m opss V C Sh Base) as Rd. destruct (inject_spec (as_module m) opss Rd) as (rest & m' & I & W & D & Kn & M).
  assert (Kn' : incl (use_gas_import :: rest) injectable) by (intros x [<-|Hx]; [now left|now apply Kn]).
  exists (use_gas_import :: rest), m'. split; [exact Rd|]. split; [exact I|]. constructor; try assumption; [exact (valid_functions _ _ V)|reflexivity| |].
  - exact (injected_valid m opss _ m' V W Kn').
  - exact (injected_checked m opss _ rest m' V C Base W eq_refl D Kn' M).
Qed.

(** C13. Injection preserves validity: a module that the engine reads and accepts, whose functions all have code with nothing
    after its end, is one that injection does not fail on, and what it makes of it
    the engine's validation accepts again if the memory, of which injection limits the maximum, asks for no more: the
    definitions (types, imports, exports, start function, segments, memory),
    and the code, operator by operator, with every call that replaces an operator and every charge in front of a line,
    on the stack of operands that the validation has at that point. *)
Theorem injection_keeps_validity (l : list Z) (m : Module) (us : list UserSection) : Forall is_byte l -> size l < 2 ^ 31 ->
  parse_module l = Some (m, us) -> coded m -> ends_once m = true ->
  exists opss names m', Forall2 (checked m) (space_defs (m_functions m)) opss /\
    inject (as_module m) = Value m' /\ rewritten (as_module m) opss names m' /\ hd_error names = Some use_gas_import /\
    validateDefinitions (with_injected m m') = memory_fits m /\
    Forall2 (checked (with_injected m m')) (space_defs (m_functions (with_injected m m'))) (map (finished names true) opss).
Proof.
  intros Hl Ll H Cd E. destruct (parsed_parts l m us Hl Ll H Cd) as (V & W & B).
  destruct (read_functions m _ B) as (opss & F & Sh). destruct (read_injected m opss V W F Sh E) as (names & m' & _ & I & [? ? ? _ _ _ ? ?]).
  exists opss, names, m'. auto 10.
Qed.

(** A module with an imported function, a table, a memory that may grow to 1024 pages, and a function [apply] that calls
    the import and divides *)
Definition sample_contract_bytes : list Z :=
  [0; 97; 115; 109; 1; 0; 0; 0;
   1; 8; 2; 0x60; 0; 0; 0x60; 1; 0x7f; 0;
   2; 9; 1; 3; 101; 110; 118; 1; 112; 0; 1;
   3; 2; 1; 0;
   4; 4; 1; 0x70; 0; 1;
   5; 5; 1; 1; 1; 0x80; 8;
   7; 9; 1; 5; 97; 112; 112; 108; 121; 0; 1;
   9; 8; 1; 0; 0x41; 0; 0x0b; 2; 0; 1;
   10; 14; 1; 12; 0; 0x41; 7; 0x10; 0; 0x41; 6; 0x41; 2; 0x6d; 0x1a; 0x0b].
Definition sample_contract : Module := match parse_module sample_contract_bytes with Some (m, _) => m | None => no_module end.

Lemma sample_contract_read : Forall is_byte sample_contract_bytes /\ size sample_contract_bytes < 2 ^ 31 /\
  parse_module sample_contract_bytes = Some (sample_contract, []) /\ coded sample_contract /\ ends_once sample_contract = true.
Proof.
  split; [unfold sample_contract_bytes; repeat constructor; unfold is_byte; lia|]. split; [reflexivity|].
  split; [vm_compute; reflexivity|]. split; [|vm_compute; reflexivity].
  vm_compute. constructor; [discriminate|constructor].
Qed.

Lemma injection_keeps_validity_witness : exists m', inject (as_module sample_contract) = Value m' /\
  validateDefinitions (with_injected sample_contract m') = true /\ memories m' = [(1, 528)].
Proof.
  destruct sample_contract_read as (H1 & H2 & H3 & H4 & H5).
  destruct (injection_keeps_validity sample_contract_bytes sample_contract [] H1 H2 H3 H4 H5) as (opss & names & m' & _ & I & R & _ & V & _).
  exists m'. split; [exact I|]. split; [exact V|]. rewrite (rewritten_memories _ _ _ _ R). vm_compute. reflexivity.
Defined.
