(* ===== verification/InjectedBinary.v ===== *)
(** The module that injection makes, as the engine writes it and reads it back. *)
From Stdlib Require Import ZArith Bool Lia String List.
From S2P Require Import Prelude Exceptions Memory Opcodes Ops OpsProofs Injection GasInjection Linking InjectCorrect.
From S2P Require Import Serialization SerializationProofs Utf8 IR IRProofs Binary BinaryProofs ModuleProofs ReadBack InjectValid.
Import ListNotations.
Local Open Scope Z_scope.

(** ** What can be written, by its parts *)
Lemma able_sequence {A B} (c : codec A) (d : A -> codec B) (a : A) (b : B) : canonical c -> able (sequence c d) (a, b) ->
  able c a /\ (canonical (d a) -> able (d a) b).
Proof.
  intros Hc (bs & _ & Hb & R). specialize (R []). rewrite app_nil_r in R. cbn [read sequence] in R.
  destruct (read c bs) as [[a' l1]|] eqn:E1; [|discriminate]. destruct (read (d a') l1) as [[b' l2]|] eqn:E2; [|discriminate].
  injection R as -> -> ->. destruct (read_survives _ _ _ _ Hc Hb E1) as (p & b1 & _ & S1 & _ & H1). split; [now exists b1|].
  intros Hd. destruct (read_survives _ _ _ _ Hd H1 E2) as (_ & b2 & _ & S2 & _). now exists b2.
Qed.

Lemma sequence_able {A B} (c : codec A) (d : A -> codec B) (a : A) (b : B) : able c a -> able (d a) b -> able (sequence c d) (a, b).
Proof. intros (xs & S) (ys & Ss). exists (xs ++ ys). now apply survives_sequence. Qed.

Lemma able_fields {A B} (make : A -> B) (tuple : B -> A) (c : codec A) (b : B) : (forall a, tuple (make a) = a) ->
  able (fields make tuple c) b -> able c (tuple b).
Proof.
  intros E (bs & W & Hb & R). exists bs. split; [exact W|]. split; [exact Hb|]. intros rest. specialize (R rest). cbn [read fields] in R.
  destruct (read c (bs ++ rest)) as [[a l]|]; [|discriminate]. injection R as <- <-. now rewrite E.
Qed.

Lemma fields_able {A B} (make : A -> B) (tuple : B -> A) (c : codec A) (b : B) : make (tuple b) = b ->
  able c (tuple b) -> able (fields make tuple c) b.
Proof. intros E (bs & S). exists bs. now apply survives_fields. Qed.

Lemma var32_able (v : Z) : 0 <= v < 2 ^ 32 -> able serializeVarUInt32 v.
Proof. intros H. destruct (var32_survives v H) as (bs & S & _). now exists bs. Qed.
Lemma able_var32 (v : Z) : able serializeVarUInt32 v -> 0 <= v < 2 ^ 32.
Proof. intros (bs & _ & _ & R). exact (var32_read _ _ _ (R [])). Qed.

Lemma able_array {A} (c : codec A) (l : list A) : canonical c -> able (serializeArray c) l -> Forall (able c) l /\ size l < 8192.
Proof. intros Hc (bs & _ & Hb & R). specialize (R []). rewrite app_nil_r in R. exact (array_read _ _ _ _ Hc Hb R). Qed.

(** What is read from what is written for it can be written. *)
Lemma able_computed {A B} (c : codec B) (f : A -> B) (l : list A) : canonical c ->
  forallb (fun a => match write c (f a) with Some bs => forallb (fun b => (0 <=? b) && (b <? 256)) bs | None => false end) l = true ->
  map (fun a => read c (match write c (f a) with Some bs => bs | None => [] end)) l = map (fun a => Some (f a, [])) l ->
  Forall (fun a => able c (f a)) l.
Proof.
  intros Hc. induction l as [|a l IH]; [constructor|]. cbn [forallb map]. rewrite andb_true_iff. intros [Hb Hbs] H.
  injection H as E Es. constructor; [|exact (IH Hbs Es)]. destruct (write c (f a)) as [bs|]; [|discriminate].
  assert (Bb : Forall is_byte bs).
  { apply Forall_forall. intros b I. rewrite forallb_forall in Hb. specialize (Hb b I). unfold is_byte. lia. }
  destruct (read_survives _ _ _ _ Hc Bb E) as (_ & bs' & _ & S & _). now exists bs'.
Qed.

Lemma injectable_types_able : Forall (fun i : injected => able serialize_FunctionType (snd i)) injectable.
Proof. apply able_computed; [exact function_type_canonical| |]; vm_compute; reflexivity. Qed.
Lemma injectable_names_able : Forall (fun i : injected => able serialize_names (EOSIO_INJECTED_MODULE_NAME, fst i)) injectable.
Proof. apply (able_computed serialize_names (fun i : injected => (EOSIO_INJECTED_MODULE_NAME, fst i))); [exact names_canonical| |]; vm_compute; reflexivity. Qed.

(** ** Parts that injection changes *)
Lemma able_export (e : Export) : able serialize_Export e ->
  able (throw_unless valid_name serialize_string) (export_name e) /\ able serialize_ObjectKind (kind e) /\ 0 <= index e < 2 ^ 32.
Proof.
  intros A. apply able_fields in A; [|intros [n [o i]]; reflexivity]. apply able_sequence in A as [An A]; [|apply canonical_throw_unless, name_canonical].
  specialize (A ltac:(apply canonical_sequence; [exact kind_canonical|intros _ _; exact var32_canonical])).
  apply able_sequence in A as [Ak A]; [|exact kind_canonical]. specialize (A var32_canonical). apply able_var32 in A. auto.
Qed.

Lemma export_able (k : Z) (e : Export) : able serialize_Export e -> 0 <= k <= 64 -> index e < 2 ^ 31 -> able serialize_Export (shift_export_by k e).
Proof.
  intros A K I. apply able_export in A as (An & Ak & A).
  unfold shift_export_by. destruct (kind e) eqn:Ek; (apply fields_able; [destruct e; reflexivity|]); destruct e as [n o i]; cbn in Ek; subst o;
    cbn [export_name kind index] in *; repeat apply sequence_able; try assumption; apply var32_able; lia.
Qed.

Lemma able_segment (s : TableSegment) : able serialize_TableSegment s ->
  able serializeVarUInt32 (tableIndex s) /\ able serialize_InitializerExpression (table_offset s) /\
  Forall (able serializeVarUInt32) (indices s) /\ size (indices s) < 8192.
Proof.
  intros A. apply able_fields in A; [|intros [n [o i]]; reflexivity]. apply able_sequence in A as [At A]; [|exact var32_canonical].
  specialize (A ltac:(apply canonical_sequence; [exact initializer_canonical|intros _ _; exact (array_canonical _ var32_canonical)])).
  apply able_sequence in A as [Ao A]; [|exact initializer_canonical]. specialize (A (array_canonical _ var32_canonical)).
  apply able_array in A as [A N]; [auto|exact var32_canonical].
Qed.

Lemma segment_able (k : Z) (s : TableSegment) : able serialize_TableSegment s -> 0 <= k <= 64 -> Forall (fun i => i < 2 ^ 31) (indices s) ->
  able serialize_TableSegment (MkTableSegment (tableIndex s) (table_offset s) (map (fun i => i + k) (indices s))).
Proof.
  intros A K I. apply able_segment in A as (At & Ao & A & N). apply fields_able; [reflexivity|]. repeat apply sequence_able; try assumption.
  cbn [indices]. apply array_able; [|unfold size in *; now rewrite length_map]. apply Forall_map. rewrite Forall_forall in *. intros i Hi.
  specialize (A i Hi). apply able_var32 in A. specialize (I i Hi). apply var32_able. lia.
Qed.

Lemma able_memory (size : Z * Z) : able serialize_MemoryType size -> 0 <= fst size < 2 ^ 32 /\ (0 <= snd size < 2 ^ 32 \/ snd size = UINT64_MAX).
Proof.
  intros (bs & _ & _ & R). specialize (R []). unfold serialize_MemoryType, fields, sequence in R. cbn [read] in R.
  destruct (read serializeVarUInt32 (bs ++ [])) as [[flags l1]|]; [|discriminate].
  destruct (read (serialize_SizeConstraints _) l1) as [[sz l2]|] eqn:E2; [|discriminate]. injection R as -> _.
  unfold serialize_SizeConstraints in E2. destruct (z2b (Z.land flags 1)); cbn [read sequence fields] in E2;
    (destruct (read serializeVarUInt32 l1) as [[mn l3]|] eqn:Ea; [|discriminate]).
  - destruct (read serializeVarUInt32 l3) as [[mx l4]|] eqn:Eb; [|discriminate]. injection E2 as <- _. cbn [fst snd].
    split; [exact (var32_read _ _ _ Ea)|left; exact (var32_read _ _ _ Eb)].
  - injection E2 as <- _. cbn [fst snd]. split; [exact (var32_read _ _ _ Ea)|now right].
Qed.

Lemma able_table (t : TableType) : able serialize_TableType t ->
  0 <= fst (table_size t) < 2 ^ 32 /\ (0 <= snd (table_size t) < 2 ^ 32 \/ snd (table_size t) = UINT64_MAX).
Proof.
  intros A. apply able_fields in A; [|intros [e s]; reflexivity]. apply able_sequence in A as [_ A]; [|apply native_canonical].
  exact (able_memory _ (A memory_type_canonical)).
Qed.

Lemma memory_able (min max : Z) : able serialize_MemoryType (min, max) -> able serialize_MemoryType (min, max_pages).
Proof.
  intros A. apply able_memory in A as [M _]. apply fields_able; [reflexivity|]. apply sequence_able; [apply var32_able; cbn; lia|]. cbn [fst] in *.
  change (serialize_SizeConstraints (z2b (Z.land (flags_of (min, max_pages)) 1))) with (sequence serializeVarUInt32 (fun _ : Z => serializeVarUInt32)).
  apply sequence_able; apply var32_able; [exact M|unfold max_pages; vm_compute; split; congruence].
Qed.

(** ** Operators *)
Lemma plain_op_survives (bt : list (list Z)) (c : Z) (t : field_type) (f : field) (bs : list Z) : field_type_of c = Some t ->
  t <> branchtabletype -> field_fits t f -> survives (serialize_imm c) f bs -> op_survives bt bt (Instr c f) ([c] ++ bs).
Proof.
  intros T N F (W & B & R). pose proof (opcode_range _ _ T) as Rc. destruct (opcode_survives c Rc) as (Wc & Bc & Rd). constructor.
  - intros more. unfold write_op. cbn [get_code op_field]. rewrite T.
    assert (Q : append (Some (write_opcode c)) (write (serialize_imm c) f) = Some ([c] ++ bs)) by (rewrite Wc, W; reflexivity).
    destruct t; try exact Q; congruence.
  - constructor; assumption.
  - intros rest. unfold read_op. rewrite <- app_assoc, Rd, T, R. destruct t; try reflexivity; congruence.
  - split; [unfold word; cbn [get_code]; lia|]. exists t. split; [exact T|exact F].
  - discriminate.
  - exists []. now rewrite app_nil_r.
Qed.

Lemma plain_tables (bt bt' : list (list Z)) (op : instr) (bs : list Z) (t : field_type) : op_survives bt bt' op bs ->
  field_type_of (get_code op) = Some t -> t <> branchtabletype -> bt' = bt.
Proof.
  intros O T N. pose proof (op_read _ _ _ _ O []) as R. unfold read_op in R. destruct (read_opcode (bs ++ [])) as [[c l]|]; [|discriminate].
  destruct (field_type_of c) as [t'|] eqn:T'; [|discriminate].
  assert (Q : t' <> branchtabletype).
  { intros ->. destruct (read serialize_branch_table l) as [[[tbl target] l2]|]; [|discriminate]. injection R as <- _ _. cbn [get_code] in T. congruence. }
  assert (P : match read (serialize_imm c) l with Some (f, l) => Some (Instr c f, bt, l) | None => None end = Some (op, bt', []))
    by (destruct t'; try exact R; congruence).
  destruct (read (serialize_imm c) l) as [[f l2]|]; [|discriminate]. now injection P.
Qed.

Lemma call_able (bt : list (list Z)) (f : Z) : 0 <= f < 2 ^ 32 -> exists bs, op_survives bt bt (Instr call_code (Ops.U32 f)) bs.
Proof.
  intros F. destruct (var32_able f F) as (bs & S). exists ([call_code] ++ bs). apply (plain_op_survives bt call_code uint32_field);
    [reflexivity|discriminate|cbn; unfold word; lia|]. change (serialize_imm call_code) with (fields Ops.U32 field_value serializeVarUInt32).
  now apply survives_fields.
Qed.

Lemma const_able (bt : list (list Z)) (g : Z) : exists bs, op_survives bt bt (const_inst g) bs.
Proof.
  assert (B : - 2 ^ 63 <= i64 (u64 g) <= 2 ^ 63 - 1) by (unfold swrap; pose proof (Z.mod_pos_bound (u64 g + 2 ^ (64 - 1)) (2 ^ 64) ltac:(lia)); lia).
  exists ([i64_const_code] ++ leb_bytes 10 true (i64 (u64 g))). apply (plain_op_survives bt i64_const_code uint64_field);
    [reflexivity|discriminate|apply uwrap_bound; lia|].
  change (serialize_imm i64_const_code) with (fields (fun v => Ops.U64 (u64 v)) (fun f => i64 (field_value f)) serializeVarInt64).
  apply survives_fields; cbn [field_value].
  - f_equal. unfold swrap, uwrap. rewrite Zminus_mod_idemp_l, Z.add_simpl_r. apply Z.mod_mod. lia.
  - apply (varint_survives true 64 64); [repeat split; lia|exact B].
Qed.

Lemma lower_able (names : list injected) (base : Z) (bt bt1 : list (list Z)) (op : instr) (bs : list Z) : 0 <= size names <= 64 -> base < 2 ^ 31 ->
  calls_below base op -> op_survives bt bt1 op bs -> exists bs', op_survives bt bt1 (lower names op) bs'.
Proof.
  intros N B Cb S. unfold lower. destruct (replacement (get_code op)) as [i|] eqn:R.
  - rewrite (plain_tables _ _ _ _ _ S (proj1 (replaced_signature _ _ R))) by discriminate. apply call_able, uwrap_bound. lia.
  - destruct (Z.eqb_spec (get_code op) call_code) as [E|]; [|now exists bs]. destruct (Cb E) as (f & Ef & Lf). rewrite Ef.
    pose proof (op_well_formed _ _ _ _ S) as (_ & t & T & F). rewrite E in T. vm_compute in T. injection T as <-. rewrite Ef in F.
    assert (bt1 = bt) as -> by (apply (plain_tables _ _ _ _ uint32_field S); [rewrite E; reflexivity|discriminate]).
    apply call_able. destruct F as [F _]. lia.
Qed.

Lemma finished_able (names : list injected) (base : Z) (bt bt' : list (list Z)) (ops : list instr) (bs : list Z) : 0 <= size names <= 64 ->
  base < 2 ^ 31 -> ops_survive bt ops bt' bs -> Forall (calls_below base) ops ->
  forall start, exists bs', ops_survive bt (finished names start ops) bt' bs'.
Proof.
  intros N B. induction 1 as [bt|bt bt1 bt2 op ops xs ys S _ IH]; intros Cb start; [exists []; constructor|].
  inversion_clear Cb as [|? ? C1 C2]. destruct (IH C2 (flushing op)) as (zs & Z'), (lower_able names base bt bt1 op xs N B C1 S) as (xs' & S').
  assert (Q : exists bs', ops_survive bt (lower names op :: finished names (flushing op) ops) bt2 bs') by (exists (xs' ++ zs); econstructor; eassumption).
  cbn [finished]. destruct start; [|exact Q]. unfold charge. destruct (0 <? _); [|exact Q]. destruct Q as (qs & Q).
  destruct (const_able bt (line_gas (op :: ops))) as (k1 & K1), (call_able bt (u32 0) ltac:(cbn; lia)) as (k2 & K2).
  exists (k1 ++ k2 ++ qs). cbn [app]. econstructor; [exact K1|]. econstructor; [exact K2|exact Q].
Qed.

(** ** The module *)
Section Written.
Context (m : Module) (opss : list (list instr)) (names : list injected) (m' : Module_).
Context (Vd : validateDefinitions m = true) (Wt : writable m) (J : injected_module m opss names m').
Context (Bodies : Forall2 (fun d ops => exists bs, body_ok m d ops bs) (space_defs (m_functions m)) opss).
Context (Types : size (m_types m) + 64 < 8192) (Imports : size (space_imports (m_functions m)) + 64 < 1024).

Local Abbreviation F := (with_injected m m').
Local Abbreviation V := (parsed_valid m opss Vd Wt Bodies).

Lemma names_64 : 0 <= size names <= 64.
Proof.
  split; [apply size_nonneg|]. exact (names_bound (as_module m) names (injected_once _ _ _ _ J) (injected_known _ _ _ _ J)).
Qed.

Lemma types_able_again : Forall (able serialize_FunctionType) (m_types F) /\ size (m_types F) < 8192.
Proof.
  destruct (rewritten_types _ _ _ _ (is_rewritten _ _ _ _ J)) as (extra & E & I & L). cbn [m_types with_injected]. rewrite E. cbn [types as_module].
  pose proof names_64. split; [|rewrite size_app; unfold size in *; lia]. apply Forall_app. split; [apply Wt|].
  apply Forall_forall. intros t Ht. apply I, in_map_iff in Ht as (i & <- & Hi). pose proof injectable_types_able as A. rewrite Forall_forall in A.
  exact (A i (injected_known _ _ _ _ J i Hi)).
Qed.

Lemma function_imports_again : Forall (import_able function serializeVarUInt32) (space_imports (m_functions F)) /\
  Forall (fun i => of_type i < size (m_types F)) (space_imports (m_functions F)) /\ size (space_imports (m_functions F)) < 1024.
Proof.
  pose proof (is_rewritten _ _ _ _ J) as Wr. destruct (injected_imports m opss names m' Wr) as (imps & Ei & Fi & Fn). rewrite Ei.
  destruct (function_imports_able _ Wt) as (A & Lt & N). pose proof (types_grow m opss names m' Wr) as G. pose proof names_64.
  destruct types_able_again as [_ T].
  split; [|split].
  - apply Forall_app. split; [|exact A]. pose proof (injected_known _ _ _ _ J) as Kn. clear -Fi Fn Kn T.
    induction Fi as [|i imp ns imps [P Ti] Fi IH]; [constructor|]. inversion_clear Fn as [|? ? ? ? [E1 E2] Fn'].
    constructor; [|apply IH; [exact Fn'|intros y Hy; apply Kn; now right]].
    pose proof injectable_names_able as Nm. rewrite Forall_forall in Nm. destruct (Nm i (Kn i (or_introl eq_refl))) as (xs & Sx).
    rewrite <- E1, <- E2 in Sx. assert (Lt : of_type imp < size (m_types F)).
    { assert (nth_error (m_types F) (Z.to_nat (of_type imp)) <> None) as Q by congruence. apply nth_error_Some in Q. unfold size. lia. }
    destruct (var32_able (of_type imp) ltac:(lia)) as (zs & Sz). exists (xs ++ [kind_code function] ++ zs), xs, [kind_code function], zs.
    repeat split; try apply Sx; try apply Sz; apply kind_survives.
  - apply Forall_app. split.
    + clear -Fi. induction Fi as [|i imp ns imps [P Ti] Fi IH]; constructor; [|exact IH].
      assert (nth_error (m_types F) (Z.to_nat (of_type imp)) <> None) as Q by congruence. apply nth_error_Some in Q. unfold size. lia.
    + eapply Forall_impl; [|exact Lt]. cbn beta. intros. lia.
  - rewrite size_app. pose proof (Forall2_length _ _ _ Fi). unfold size in *. lia.
Qed.

Lemma functions_again : Forall (fun d => 0 <= type_index (def d) < size (m_types F)) (space_defs (m_functions F)) /\
  size (space_defs (m_functions F)) < 1024.
Proof.
  pose proof (is_rewritten _ _ _ _ J) as Wr. pose proof (injected_def_types m opss names m' V Wr) as E.
  destruct (functions_able _ Wt) as [A N]. pose proof (types_grow m opss names m' Wr) as G. split.
  - rewrite <- Forall_compose with (f := fun d => type_index (def d)) (P := fun t => 0 <= t < size (m_types F)), E, Forall_map.
    eapply Forall_impl; [|exact A]. cbn beta. intros. lia.
  - unfold size in *. apply (f_equal (@length _)) in E. rewrite !length_map in E. lia.
Qed.

Lemma memories_again : Forall (able serialize_MemoryType) (space_defs (m_memories F)) /\ size (space_defs (m_memories F)) < 8192.
Proof.
  pose proof (is_rewritten _ _ _ _ J) as Wr. destruct (memories_able _ Wt) as [A N]. cbn [m_memories with_injected space_defs].
  rewrite (rewritten_memories _ _ _ _ Wr). cbn [memories as_module]. unfold max_memory_injection.
  destruct (space_defs (m_memories m)) as [|[mn mx] l]; [auto|]. destruct (_ <? mx); [|auto].
  inversion_clear A as [|? ? A1 A2]. split; [|exact N]. constructor; [exact (memory_able _ _ A1)|exact A2].
Qed.

Lemma exports_again : Forall (able serialize_Export) (m_exports F) /\ size (m_exports F) < 8192.
Proof.
  pose proof (is_rewritten _ _ _ _ J) as Wr. destruct (exports_able _ Wt) as [A N]. cbn [m_exports with_injected].
  rewrite (rewritten_exports _ _ _ _ Wr). cbn [exports as_module]. split; [|unfold size in *; now rewrite length_map].
  apply Forall_map. rewrite Forall_forall in *. intros e He. specialize (A e He).
  pose proof (functions_few m Wt) as L. pose proof Vd as X. unfold validateDefinitions in X. rewrite !andb_true_iff in X.
  assert (Ve : validate_Export m e = true).
  { destruct X as [[[[[_ X] _] _] _] _]. rewrite forallb_forall in X. exact (X e He). }
  unfold shift_export_by. destruct (kind e) eqn:K; try exact A.
  replace (MkExport _ _ _) with (shift_export_by (size names) e) by (unfold shift_export_by; now rewrite K).
  apply export_able; [exact A|exact names_64|]. unfold validate_Export in Ve. rewrite K in Ve. unfold valid_index in Ve.
  rewrite negb_true_iff, Z.leb_gt in Ve. lia.
Qed.

Lemma start_again : m_start F = UINTPTR_MAX \/ 0 <= m_start F < 2 ^ 32.
Proof.
  pose proof (is_rewritten _ _ _ _ J) as Wr. cbn [m_start with_injected]. rewrite (rewritten_start _ _ _ _ Wr). unfold shift_start. cbn [startFunctionIndex as_module].
  destruct (Z.eqb_spec (m_start m) UINTPTR_MAX) as [E|N]; [now left|]. right. destruct (start_able _ Wt) as [|S]; [contradiction|].
  pose proof (valid_start m Vd) as K. unfold validate_start in K. destruct (Z.eqb_spec (m_start m) UINTPTR_MAX); [contradiction|].
  destruct (validateFunctionIndex m (m_start m)) eqn:T; [|discriminate]. unfold validateFunctionIndex, valid_index in T.
  destruct (Z.leb_spec (space_size (m_functions m)) (m_start m)); [discriminate|]. pose proof (functions_few m Wt). pose proof names_64. lia.
Qed.

Lemma elements_again : Forall (able serialize_TableSegment) (m_tableSegments F) /\ size (m_tableSegments F) < 8192.
Proof.
  pose proof (is_rewritten _ _ _ _ J) as Wr. destruct (elements_able _ Wt) as [A N]. cbn [m_tableSegments with_injected].
  rewrite (rewritten_tables _ _ _ _ Wr). cbn [tableSegments as_module]. pose proof (functions_few m Wt) as L.
  pose proof Vd as X. unfold validateDefinitions in X. rewrite !andb_true_iff in X. destruct X as [_ X]. pose proof names_64 as N64. clear -A N L X N64.
  assert (G : Forall (able serialize_TableSegment) (map (fun '(s, fs) => MkTableSegment (tableIndex s) (table_offset s) fs)
      (combine (m_tableSegments m) (map (map (fun i => i + size names)) (map indices (m_tableSegments m)))))).
  { clear N. revert X A. generalize (m_tableSegments m). induction l as [|s l IH]; intros X A; [constructor|]. cbn [map combine forallb] in *.
    rewrite !andb_true_iff in X. destruct X as [[_ Xi] X]. inversion_clear A as [|? ? A1 A2]. constructor; [|exact (IH X A2)].
    apply segment_able; [exact A1|exact N64|]. apply Forall_forall. intros i Hi. rewrite forallb_forall in Xi. specialize (Xi i Hi).
    unfold valid_index in Xi. rewrite negb_true_iff, Z.leb_gt in Xi. lia. }
  split; [exact G|]. unfold size in *. rewrite length_map, length_combine, !length_map. lia.
Qed.

Lemma writable_again : writable F.
Proof.
  constructor; [exact types_able_again|exact function_imports_again|exact (other_imports_able _ Wt)|exact functions_again|exact (tables_able _ Wt)
    |exact memories_again|exact (globals_able _ Wt)|exact exports_again|exact start_again|exact elements_again|exact (data_able _ Wt)].
Qed.

Lemma bodies_again : Forall (body_able F) (space_defs (m_functions F)).
Proof.
  pose proof (is_rewritten _ _ _ _ J) as Wr. pose proof (functions_few m Wt) as L.
  assert (G : Forall2 (fun d ops => locals_ok (nonParameterLocalTypes (def d)) /\ exists bs, ops_survive [] ops (branchTables d) bs)
                (space_defs (m_functions F)) (map (finished names true) opss)).
  { rewrite (injected_functions m opss names m' Wr). apply (zip_checked (fun d ops => exists bs, body_ok m d ops bs) _ (injected_function names) _ (fun _ => True));
      [|exact Bodies|apply Forall_forall; intros; exact I]. intros d ops (bs & [Lo _ O (ft & c & _ & _ & Vo)]) _. split; [exact Lo|].
    destruct (ops_survive_spec m (def d) ft _ _ _ _ O) as (_ & W & _).
    exact (finished_able names (space_size (m_functions m)) _ _ _ _ names_64 ltac:(lia) O (validate_ops_calls _ _ _ _ _ W _ _ Vo) true). }
  pose proof (functions_valid _ _ _ _ J) as K. revert G K. generalize (map (finished names true) opss), (space_defs (m_functions F)).
  induction 1 as [|d ops ds opss' (Lo & bs & O) _ IH]; intros K; [constructor|]. inversion_clear K as [|? ? ? ? [Kc _ Kv] K'].
  constructor; [|exact (IH K')]. exists ops, bs. constructor; assumption.
Qed.
End Written.

(** ** Sizes *)

(** A body that the reader does not take, or a section whose length has no encoding *)
Definition too_long (m : Module) : Prop :=
  (exists d b, In d (space_defs (m_functions m)) /\ write_body d = Some b /\ maximum_code_size <= size b) \/
  (exists s b, In s sections /\ write (body s m) (content_of s m) = Some b /\ 2 ^ 32 <= size b).

Lemma small_or_not (ds : list FunctionDefinition) :
  Forall body_small ds \/ exists d b, In d ds /\ write_body d = Some b /\ maximum_code_size <= size b.
Proof.
  induction ds as [|d ds [IH|(d' & b & I & W & L)]]; [left; constructor| |right; exists d', b; cbn; auto].
  destruct (write_body d) as [b|] eqn:W; [destruct (Z.lt_ge_cases (size b) maximum_code_size) as [L|L]|].
  - left. constructor; [|exact IH]. intros b' W'. rewrite W in W'. apply some_inj in W'. now subst b'.
  - right. exists d, b. cbn. auto.
  - left. constructor; [|exact IH]. intros b' W'. congruence.
Qed.

(** A module whose parts can be written can be written, if it is not too long. *)
Lemma written_or_not (m : Module) : writable m -> Forall (body_able m) (space_defs (m_functions m)) ->
  Forall body_small (space_defs (m_functions m)) ->
  (exists bs, serializeModule_write m [] = Some bs) \/ exists s b, In s sections /\ write (body s m) (content_of s m) = Some b /\ 2 ^ 32 <= size b.
Proof.
  intros Wt A Sm. assert (G : forall ss, incl ss sections -> (exists bs, write_sections ss m = Some bs) \/
    exists s b, In s sections /\ write (body s m) (content_of s m) = Some b /\ 2 ^ 32 <= size b).
  { induction ss as [|s ss IH]; intros I; [left; now exists []|]. pose proof (I s (or_introl eq_refl)) as Is.
    destruct IH as [(bs & W)|R]; [intros x Hx; apply I; now right| |now right]. cbn [write_sections]. rewrite W. unfold write_section.
    destruct (present s m) eqn:P; [|left; now exists bs]. destruct (content_able m Wt A Sm s Is P) as (b & Wb & _).
    rewrite (section_writer s Is _ m) in Wb. cbn [write serializeSection]. rewrite Wb. destruct (Z.lt_ge_cases (size b) (2 ^ 32)) as [L|L].
    - destruct (var32_survives (size b)) as (n & (Wn & _) & _); [pose proof (size_nonneg b); lia|]. rewrite Wn. left. cbn [append]. eauto.
    - right. now exists s, b. }
  destruct (G sections (incl_refl _)) as [(bs & W)|R]; [left|now right]. unfold serializeModule_write.
  destruct header_survives as (Wh & _). rewrite Wh, W. cbn [append]. eauto.
Qed.

(** There is room for what injection may add. *)
Definition room (m : Module) : bool := (size (m_types m) + 64 <? 8192) && (size (space_imports (m_functions m)) + 64 <? 1024).

(** The module that injection makes, as the engine finds it *)
Lemma injected_again (m : Module) (opss : list (list instr)) (names : list injected) (m' : Module_) : validateDefinitions m = true -> writable m ->
  Forall2 (fun d ops => exists bs, body_ok m d ops bs) (space_defs (m_functions m)) opss -> injected_module m opss names m' -> room m = true ->
  too_long (with_injected m m') \/
  exists bs, serializeModule_write (with_injected m m') [] = Some bs /\ parse_module bs = if memory_fits m then Some (with_injected m m', []) else None.
Proof.
  intros V W F J R. apply andb_true_iff in R as [T N]. apply Z.ltb_lt in T, N.
  pose proof (writable_again m opss names m' V W J F T N) as W'. pose proof (bodies_again m opss names m' W J F) as B'.
  destruct (small_or_not (space_defs (m_functions (with_injected m m')))) as [Sm|Big]; [|left; now left].
  destruct (written_or_not _ W' B' Sm) as [(bs & Wr)|Big]; [|left; now right]. right. exists bs. split; [exact Wr|].
  rewrite <- (definitions_valid _ _ _ _ J). exact (module_read_back _ W' B' Sm bs Wr).
Qed.

(** C14. The engine reads back the module that injection makes and that it writes: for a module read from bytes as
    above, with room for the 64 types and imports that injection may add, injection gives a module that the writer writes
    and that the reader reads as that same module, unless it has grown too long: a function of 20 MiB, which the
    reader refuses, or a section of 4 GiB.  A module that declares more than 528 pages of memory is refused then, as
    its maximum is below its minimum. *)
Theorem injected_read_back (l : list Z) (m : Module) (us : list UserSection) : Forall is_byte l -> size l < 2 ^ 31 ->
  parse_module l = Some (m, us) -> coded m -> ends_once m = true -> room m = true ->
  exists m', inject (as_module m) = Value m' /\
    (too_long (with_injected m m') \/
     exists bs, serializeModule_write (with_injected m m') [] = Some bs /\
       parse_module bs = if memory_fits m then Some (with_injected m m', []) else None).
Proof.
  intros Hl Ll H Cd E R. destruct (parsed_parts l m us Hl Ll H Cd) as (V & W & B).
  destruct (read_functions m _ B) as (opss & F & Sh). destruct (read_injected m opss V W F Sh E) as (names & m' & _ & I & J).
  exists m'. split; [exact I|]. exact (injected_again m opss names m' V W F J R).
Qed.

Definition short_enough (m : Module) : bool :=
  forallb (fun d => match write_body d with Some b => size b <? maximum_code_size | None => true end) (space_defs (m_functions m)) &&
  forallb (fun s => match write (body s m) (content_of s m) with Some b => size b <? 2 ^ 32 | None => true end) sections.

Lemma short_enough_spec (m : Module) : short_enough m = true -> ~ too_long m.
Proof.
  unfold short_enough. rewrite andb_true_iff, !forallb_forall. intros [L1 L2].
  intros [(d & b & Hd & W & L)|(s & b & Hs & W & L)]; [specialize (L1 d Hd); rewrite W in L1|specialize (L2 s Hs); rewrite W in L2]; lia.
Qed.

Lemma injected_read_back_witness : exists m' bs, inject (as_module sample_contract) = Value m' /\
  serializeModule_write (with_injected sample_contract m') [] = Some bs /\ parse_module bs = Some (with_injected sample_contract m', []).
Proof.
  destruct sample_contract_read as (H1 & H2 & H3 & H4 & H5).
  destruct (injected_read_back sample_contract_bytes sample_contract [] H1 H2 H3 H4 H5) as (m' & I & [Big|(bs & W & R)]); [reflexivity| |].
  - exfalso. revert Big. apply short_enough_spec. assert (A : match inject (as_module sample_contract) with
      | Value m' => short_enough (with_injected sample_contract m')
      | Throw _ => false
      end = true) by (vm_compute; reflexivity). now rewrite I in A.
  - exists m', bs. split; [exact I|]. split; [exact W|exact R].
Defined.
