(* ===== verification/Execute.v ===== *)
(** Runs of contracts: execute (wasmlib.cpp) through wasm_interface.hpp and wavm.cpp, from
    the bytes of a module down to the call of the contract, and what the process does while contracts run.  A contract
    may call another: its callback into the embedder may execute a contract before it returns.  Its function may return, be left by
    ftl_exit, by an exception or by a hardware trap.
    The global variables of the engine and of the runtime are explicit, memories are
    objects in a heap, and a gas counter is a variable of the embedder behind a pointer. *)
From Stdlib Require Import ZArith Bool Lia String List.
From S2P Require Import Softfloat Builtins CompilerBuiltins.
From S2P Require Import Prelude Exceptions Memory Opcodes Ops Injection Serialization IR Binary Validation Host.
Import ListNotations.
Local Open Scope Z_scope.

(** [e.code()] for the classes of exceptions.hpp; the engine's exceptions are not of them. *)
Definition code_of (e : exception) : option Z :=
  match e with
  | invalid_name_exception => Some 20001
  | invalid_address_exception => Some 20002
  | wasm_runtime_exception => Some 20003
  | wasm_serialization_exception => Some 20004
  | overlapping_memory_error => Some 20005
  | crypto_api_exception => Some 20006
  | arithmetic_exception => Some 20007
  | accessViolation | outOfMemory | invalidSegmentOffset | invokeSignatureMismatch => None
  end.

(** What a run uses of the rest of the program: the registry of intrinsics, which are all functions, and the hash of
    the embedder. *)
Class Engine : Type := {
  intrinsic : string -> string -> FunctionType -> bool;
  cb_sha256 : list Z -> list Z
}.

(** The part of a module that validation works on *)
Definition as_contract (m : Module) : contract :=
  Contract (as_module m) (map (fun t => fst (table_size t)) (space_defs (m_tables m))) (map fst (space_defs (m_globals m))) (m_dataSegments m).

(** [WASM::serialize], its exceptions turned into one of wasmlib *)
Definition read_module (code : list Z) : result Module :=
  match parse_module code with Some (m, _) => Value m | None => Throw wasm_serialization_exception end.
Definition write_module (m : Module) : result (list Z) :=
  match serializeModule_write m [] with Some bytes => Value bytes | None => Throw wasm_serialization_exception end.

(** [wasm_instantiated_module], with the default memory of its instance *)
Record instance : Type := Instance {
  initial_memory : list Z;
  default_memory : option nat;
  instance_module : Module
}.

(** The arguments of [execute]: [remainedGas] is an address. *)
Record arguments : Type := Arguments {
  codeBytes : list Z;
  actionBytes : list Z;
  fromAddrBytes : list Z;
  toAddrBytes : list Z;
  ownerAddrBytes : list Z;
  userAddrBytes : list Z;
  transferAmount : Z;
  remainedGas : Z;
  stateKey : Z
}.

(** [memcpy(&action_name, actionBytes, sizeof(uint64_t))] *)
Fixpoint little_endian (l : list Z) : Z := match l with [] => 0 | b :: l => b + 2 ^ 8 * little_endian l end.
Definition action_name (args : arguments) : Z := little_endian (firstn 8 (actionBytes args)).

(** A run that has reached its contract: its arguments, the memory of its [wasm_context], the type of the function [apply]
    and the values for it, the functions that the module imports, whether it is in the start function of the module; and, of the call of
    [catchHardwareTraps] that it is in, its frame and the jump target that it has saved ([oldSignalReturnEnv]). *)
Record activation : Type := Activation {
  act_arguments : arguments;
  act_memory : option nat;
  act_entry : FunctionType;
  act_values : list Z;
  act_imports : list (string * string);
  act_starting : bool;
  act_frame : nat;
  act_saved : option nat
}.

(** The functions that a module imports, by module and name *)
Definition imported (m : Module) : list (string * string) :=
  map (fun i => (of_module i, of_export i)) (space_imports (m_functions m)).

(** What each intrinsic is registered as *)
Definition env_import (call : env_call) : string * string :=
  match call with
  | E_memcpy _ _ _ => ("env", "memcpy")%string
  | E_memmove _ _ _ => ("env", "memmove")%string
  | E_memcmp _ _ _ => ("env", "memcmp")%string
  | E_memset _ _ _ => ("env", "memset")%string
  | E_read_action_data _ _ => ("env", "read_action_data")%string
  | E_action_data_size => ("env", "action_data_size")%string
  | E_get_from _ _ => ("env", "get_from")%string
  | E_get_to _ _ => ("env", "get_to")%string
  | E_get_owner _ _ => ("env", "get_owner")%string
  | E_get_user _ _ => ("env", "get_user")%string
  | E_transfer _ _ _ => ("env", "transfer")%string
  | E_get_amount => ("env", "get_amount")%string
  | E_call_action _ _ _ _ _ _ _ => ("env", "call_action")%string
  | E_call_result _ _ => ("env", "call_result")%string
  | E_set_result _ _ => ("env", "set_result")%string
  | E_current_time => ("env", "current_time")%string
  | E_current_height => ("env", "current_height")%string
  | E_current_hash _ _ => ("env", "current_hash")%string
  | E_log_0 _ _ _ => ("env", "log_0")%string
  | E_log_1 _ _ _ _ => ("env", "log_1")%string
  | E_log_2 _ _ _ _ _ => ("env", "log_2")%string
  | E_abort => ("env", "abort")%string
  | E_ftl_assert _ _ => ("env", "ftl_assert")%string
  | E_ftl_assert_message _ _ _ => ("env", "ftl_assert_message")%string
  | E_ftl_assert_code _ _ => ("env", "ftl_assert_code")%string
  | E_ftl_exit _ => ("env", "ftl_exit")%string
  | E_db_store _ _ _ _ _ => ("env", "db_store")%string
  | E_db_load _ _ _ _ _ => ("env", "db_load")%string
  | E_db_has_key _ _ _ => ("env", "db_has_key")%string
  | E_db_remove_key _ _ _ => ("env", "db_remove_key")%string
  | E_db_has_table _ => ("env", "db_has_table")%string
  | E_db_remove_table _ => ("env", "db_remove_table")%string
  | E_assert_recover_key _ _ _ _ _ => ("env", "assert_recover_key")%string
  | E_recover_key _ _ _ _ _ => ("env", "recover_key")%string
  | E_assert_sha256 _ _ _ => ("env", "assert_sha256")%string
  | E_sha256 _ _ _ => ("env", "sha256")%string
  | E_use_gas _ => (EOSIO_INJECTED_MODULE_NAME, "use_gas")%string
  | E_prints _ => ("env", "prints")%string
  | E_prints_l _ _ => ("env", "prints_l")%string
  | E_printi _ => ("env", "printi")%string
  | E_printui _ => ("env", "printui")%string
  | E_printsf _ => ("env", "printsf")%string
  | E_printdf _ => ("env", "printdf")%string
  | E_printqf _ => ("env", "printqf")%string
  | E_printn _ => ("env", "printn")%string
  | E_printhex _ _ => ("env", "printhex")%string
  end.

Definition builtin_import (call : builtin_call) : string * string :=
  match call with
  | B_ashlti3 _ _ _ _ => ("env", "__ashlti3")%string
  | B_ashrti3 _ _ _ _ => ("env", "__ashrti3")%string
  | B_lshlti3 _ _ _ _ => ("env", "__lshlti3")%string
  | B_lshrti3 _ _ _ _ => ("env", "__lshrti3")%string
  | B_divti3 _ _ _ _ _ => ("env", "__divti3")%string
  | B_udivti3 _ _ _ _ _ => ("env", "__udivti3")%string
  | B_modti3 _ _ _ _ _ => ("env", "__modti3")%string
  | B_umodti3 _ _ _ _ _ => ("env", "__umodti3")%string
  | B_multi3 _ _ _ _ _ => ("env", "__multi3")%string
  | B_addtf3 _ _ _ _ _ => ("env", "__addtf3")%string
  | B_subtf3 _ _ _ _ _ => ("env", "__subtf3")%string
  | B_multf3 _ _ _ _ _ => ("env", "__multf3")%string
  | B_divtf3 _ _ _ _ _ => ("env", "__divtf3")%string
  | B_eqtf2 _ _ _ _ => ("env", "__eqtf2")%string
  | B_netf2 _ _ _ _ => ("env", "__netf2")%string
  | B_getf2 _ _ _ _ => ("env", "__getf2")%string
  | B_gttf2 _ _ _ _ => ("env", "__gttf2")%string
  | B_lttf2 _ _ _ _ => ("env", "__lttf2")%string
  | B_letf2 _ _ _ _ => ("env", "__letf2")%string
  | B_cmptf2 _ _ _ _ => ("env", "__cmptf2")%string
  | B_unordtf2 _ _ _ _ => ("env", "__unordtf2")%string
  | B_negtf2 _ _ _ => ("env", "__negtf2")%string
  | B_floatsitf _ _ => ("env", "__floatsitf")%string
  | B_floatunsitf _ _ => ("env", "__floatunsitf")%string
  | B_floatditf _ _ => ("env", "__floatditf")%string
  | B_floatunditf _ _ => ("env", "__floatunditf")%string
  | B_floattidf _ _ => ("env", "__floattidf")%string
  | B_floatuntidf _ _ => ("env", "__floatuntidf")%string
  | B_floatsidf _ => ("env", "__floatsidf")%string
  | B_extendsftf2 _ _ => ("env", "__extendsftf2")%string
  | B_extenddftf2 _ _ => ("env", "__extenddftf2")%string
  | B_fixtfti _ _ _ => ("env", "__fixtfti")%string
  | B_fixtfdi _ _ => ("env", "__fixtfdi")%string
  | B_fixtfsi _ _ => ("env", "__fixtfsi")%string
  | B_fixunstfti _ _ _ => ("env", "__fixunstfti")%string
  | B_fixunstfdi _ _ => ("env", "__fixunstfdi")%string
  | B_fixunstfsi _ _ => ("env", "__fixunstfsi")%string
  | B_fixsfti _ _ => ("env", "__fixsfti")%string
  | B_fixdfti _ _ => ("env", "__fixdfti")%string
  | B_fixunssfti _ _ => ("env", "__fixunssfti")%string
  | B_fixunsdfti _ _ => ("env", "__fixunsdfti")%string
  | B_trunctfdf2 _ _ => ("env", "__trunctfdf2")%string
  | B_trunctfsf2 _ _ => ("env", "__trunctfsf2")%string
  end.

(** Those of softfloat_api that may throw *)
Definition float_truncations : list string :=
  ["_eosio_f32_trunc_i32s"; "_eosio_f64_trunc_i32s"; "_eosio_f32_trunc_i32u"; "_eosio_f64_trunc_i32u";
   "_eosio_f32_trunc_i64s"; "_eosio_f64_trunc_i64s"; "_eosio_f32_trunc_i64u"; "_eosio_f64_trunc_i64u"]%string.

Section Runs.
Context {W : Type} {C : Callbacks W} {En : Engine} {Un : Undefined}.

(** The memories that are allocated and the global variables: [Runtime::theMemoryInstance],
    [the_running_instance_context] (a context is known by the number of runs below its own),
    the users of [__runtime_guard_ptr]; what belongs to the embedder; [signalReturnEnv], the frame that a trap or
    ftl_exit jumps to, and [signalOperand] (with [signalCallStack]), the frame in which the handler of traps stores what it has found.
    Frames, those of the calls of [catchHardwareTraps], are numbered in the order of the calls. *)
Record process : Type := Process {
  heap : list MemoryInstance;
  theMemoryInstance : option nat;
  running_memory : option nat;
  running_ctx : option nat;
  use_count : nat;
  counters : Z -> Z;
  embedder : W;
  signalReturnEnv : option nat;
  signalOperand : option nat;
  frames : nat
}.

Definition set_heap (h : list MemoryInstance) (p : process) : process :=
  Process h (theMemoryInstance p) (running_memory p) (running_ctx p) (use_count p) (counters p) (embedder p)
    (signalReturnEnv p) (signalOperand p) (frames p).
Definition set_theMemoryInstance (m : option nat) (p : process) : process :=
  Process (heap p) m (running_memory p) (running_ctx p) (use_count p) (counters p) (embedder p)
    (signalReturnEnv p) (signalOperand p) (frames p).
Definition set_running (m c : option nat) (p : process) : process :=
  Process (heap p) (theMemoryInstance p) m c (use_count p) (counters p) (embedder p)
    (signalReturnEnv p) (signalOperand p) (frames p).
Definition set_use_count (n : nat) (p : process) : process :=
  Process (heap p) (theMemoryInstance p) (running_memory p) (running_ctx p) n (counters p) (embedder p)
    (signalReturnEnv p) (signalOperand p) (frames p).
Definition set_embedder (k : Z -> Z) (w : W) (p : process) : process :=
  Process (heap p) (theMemoryInstance p) (running_memory p) (running_ctx p) (use_count p) k w (signalReturnEnv p) (signalOperand p) (frames p).
Definition set_signals (env operand : option nat) (n : nat) (p : process) : process :=
  Process (heap p) (theMemoryInstance p) (running_memory p) (running_ctx p) (use_count p) (counters p) (embedder p) env operand n.

(** Assignment through a pointer to a memory *)
Definition assign_memory (a : nat) (m : MemoryInstance) (p : process) : process :=
  set_heap (firstn a (heap p) ++ m :: skipn (S a) (heap p)) p.

(** ** Computations of the process, which may throw *)
Definition Proc (A : Type) : Type := process -> result A * process.
Definition pret {A} (a : A) : Proc A := fun p => (Value a, p).
Definition pbind {A B} (m : Proc A) (k : A -> Proc B) : Proc B := fun p =>
  match m p with
  | (Value a, p) => k a p
  | (Throw e, p) => (Throw e, p)
  end.
Definition lift {A} (r : result A) : Proc A := fun p => (r, p).

Local Notation "'let!' x := m 'in' k" := (pbind m (fun x => k))
  (at level 10, x name, m at level 100, k at level 200).
Local Notation "m ;! k" := (pbind m (fun _ => k)) (at level 95, right associativity).

(** ** Linking and instantiation *)

(** [root_resolver::resolve], with [IntrinsicResolver::resolve]; there is no intrinsic that is not a function. *)
Definition resolve (validating : bool) (mod_name export_name : string) (type : option FunctionType) : result bool :=
  rbind (FTL_ASSERT (negb (validating && negb (String.eqb mod_name "env"))) wasm_runtime_exception) (fun _ =>
  if negb (String.eqb mod_name "wavmIntrinsics") && match type with Some t => intrinsic mod_name export_name t | None => false end
  then Value true
  else Throw wasm_runtime_exception).

(** [linkModule]: it resolves each import, or the resolver throws. *)
Fixpoint link_imports {T} (validating : bool) (type_of : T -> option FunctionType) (l : list (ImportOf T)) : result unit :=
  match l with
  | [] => Value tt
  | i :: l => rbind (resolve validating (of_module i) (of_export i) (type_of (of_type i))) (fun _ => link_imports validating type_of l)
  end.
Definition linkModule (validating : bool) (m : Module) : result unit :=
  rbind (link_imports validating (fun t => nth_error (m_types m) (Z.to_nat t)) (space_imports (m_functions m))) (fun _ =>
  rbind (link_imports validating (fun _ => None) (space_imports (m_tables m))) (fun _ =>
  rbind (link_imports validating (fun _ => None) (space_imports (m_memories m))) (fun _ =>
  link_imports validating (fun _ => None) (space_imports (m_globals m))))).

(** [createMemory]: a new memory grown from no page to the minimum of its type *)
Definition createMemory (commit : bool) (type : Z * Z) : Proc nat := fun p =>
  let (r, m) := growMemory commit (Memory 0 (fst type) (snd type) (fun _ => 0)) (fst type) in
  if r =? -1 then (Throw outOfMemory, p) else (Value (List.length (heap p)), set_heap (heap p ++ [m]) p).

(** [growTable] and [createTable]: the number of elements of a table, [commit] the answer of the operating system
    as for a memory *)
Definition growTable (commit : bool) (size_max numElements numNewElements : Z) : option Z :=
  if 0 <? numNewElements then
    if (size_max <? numNewElements) || (u64 (size_max - numNewElements) <? numElements) then None
    else if negb commit then None
    else Some (numElements + numNewElements)
  else Some numElements.
Definition createTable (commit : bool) (type : TableType) : option Z := growTable commit (snd (table_size type)) 0 (fst (table_size type)).
Fixpoint createTables (commit : bool) (l : list TableType) : result (list Z) :=
  match l with
  | [] => Value []
  | t :: l =>
      match createTable commit t with
      | Some n => rbind (createTables commit l) (fun ns => Value (n :: ns))
      | None => Throw outOfMemory
      end
  end.

(** The memory that is there, or a new one *)
Definition instance_memory (commit : bool) (m : Module) : Proc (option nat) := fun p =>
  match space_defs (m_memories m) with
  | [] => (Value None, p)
  | type :: _ =>
      match theMemoryInstance p with
      | Some a => (Value (Some a), p)
      | None => (let! a := createMemory commit type in fun p => (Value (Some a), set_theMemoryInstance (Some a) p)) p
      end
  end.

(** A table segment lies in its table.  An offset that is not a constant is that of an imported global, which
    linking has refused. *)
Definition segment_in_table (tables : list Z) (s : TableSegment) : bool :=
  match nth_error tables (Z.to_nat (tableIndex s)), table_offset s with
  | Some elements, i32_const v => negb ((elements <? u32 v) || (elements - u32 v <? Injection.size (indices s)))
  | _, _ => false
  end.

(** [instantiateModule], as far as tables and memory go *)
Definition instantiateModule (commit : bool) (m : Module) : Proc (option nat) :=
  let! tables := lift (createTables commit (space_defs (m_tables m))) in
  let! memory := instance_memory commit m in
  lift (FTL_ASSERT (forallb (segment_in_table tables) (m_tableSegments m)) invalidSegmentOffset) ;!
  pret memory.

(** [wavm_runtime::instantiate_module] *)
Definition instantiate_module (commit : bool) (code_bytes initial_memory : list Z) : Proc instance :=
  let! module := lift (read_module code_bytes) in
  lift (linkModule false module) ;!
  let! memory := instantiateModule commit module in
  pret (Instance initial_memory memory module).

(** [wasm_interface::get_instantiated_module], with its [instantiation_cache] *)
Definition get_instantiated_module (commit : bool) (cache : list (list Z * instance)) (code_id code : list Z)
    : Proc (instance * list (list Z * instance)) :=
  match lookup list_eqb code_id cache with
  | Some it => pret (it, cache)
  | None =>
      let! module := lift (read_module code) in
      let! injected := lift (inject (as_module module)) in
      let module := with_injected module injected in
      let! bytes := lift (write_module module) in
      let! image := lift (parse_initial_memory (map fst (space_defs (m_memories module))) (m_dataSegments module)) in
      let! it := instantiate_module commit bytes image in
      pret (it, emplace list_eqb code_id it cache)
  end.

(** [wasm_interface::validate] *)
Definition validate_code (code : list Z) : result unit :=
  rbind (read_module code) (fun module =>
  rbind (Validation.validate (as_contract module)) (fun _ => linkModule true module)).

(** ** The call of the contract *)

(** [asFunctionNullable(getInstanceExport(_instance, "apply"))], as its type *)
Definition entry_point (m : Module_) : option FunctionType :=
  match find (fun e => String.eqb (export_name e) "apply") (exports m) with
  | Some e => if is_function e then getType m (index e) else None
  | None => None
  end.

(** The memory of an instance is reset and filled; there is none for a null pointer. *)
Definition reset_default (commit : bool) (it : instance) : Proc unit := fun p =>
  match default_memory it, space_defs (m_memories (instance_module it)) with
  | Some a, (min, max) :: _ =>
      match nth_error (heap p) a with
      | Some old =>
          match prepare_memory commit old min max (initial_memory it) with
          | Some m => (Value tt, assign_memory a m p)
          | None => (Throw outOfMemory, p)
          end
      | None => (Value tt, p)
      end
  | _, _ => (Value tt, p)
  end.

(** [catchHardwareTraps]: [sigsetjmp] before the thunk is called; the old target put back, and [signalOperand] null, after it has
    returned or control has jumped back.  An exception that leaves the thunk leaves both as they are. *)
Definition enter (p : process) : process := set_signals (Some (frames p)) (Some (frames p)) (S (frames p)) p.
Definition restore (a : activation) (p : process) : process := set_signals (act_saved a) None (frames p) p.

(** [Runtime::invokeFunction], up to the code of the function: its parameters have the types of the values, which for
    [Value(uint64_t)] is i64. *)
Definition check_parameters (t : FunctionType) (values : list Z) : result unit :=
  FTL_ASSERT (list_eqb (parameters t) (map (fun _ => vt_i64) values)) invokeSignatureMismatch.
Definition invoke (run : nat -> option nat -> activation) : Proc (option activation) := fun p =>
  (Value (Some (run (frames p) (signalReturnEnv p))), enter p).

(** [wasm_instantiated_module::apply] and [call], up to the code of the contract, with [depth]
    runs below; [None] when there is nothing to call.  What is first invoked is the start function of the module, if it has one
    ([runInstanceStartFunc]); it has no parameters, as the engine has checked.  The globals of a new instance have their initial values. *)
Definition call_apply (commit : bool) (depth : nat) (args : arguments) (it : instance) : Proc (option activation) :=
  let values := [u64 (action_name args)] in
  match entry_point (as_module (instance_module it)) with
  | None => pret None
  | Some t =>
      lift (FTL_ASSERT (Injection.size (parameters t) =? Injection.size values) wasm_runtime_exception) ;!
      reset_default commit it ;!
      (fun p => (Value tt, set_running (default_memory it) (Some depth) p)) ;!
      let run := Activation args (default_memory it) t values (imported (instance_module it)) in
      if negb (m_start (instance_module it) =? UINTPTR_MAX) then invoke (run true)
      else lift (check_parameters t values) ;! invoke (run false)
  end.

(** [wavm_runtime::wavm_runtime], and its destruction: the last one frees the objects. *)
Definition acquire (p : process) : process := set_use_count (S (use_count p)) p.
Definition freeUnreferencedObjects (p : process) : process :=
  match heap p with
  | [] => p
  | _ => set_theMemoryInstance None (set_heap [] p)
  end.
Definition release (p : process) : process :=
  let p := set_use_count (Nat.pred (use_count p)) p in
  match use_count p with O => freeUnreferencedObjects p | S _ => p end.

(** ** execute *)

(** Where [execute] is: in the code of the contract, or back with a code, or left by an
    exception that it does not catch. *)
Inductive progress : Type := Runs (a : activation) | Returned (code : Z) | Escaped.

(** The end of a run: the handler of [ftl::exception], and [return 0]. *)
Definition outcome {A} (r : result A) : progress :=
  match r with
  | Value _ => Returned 0
  | Throw e => match code_of e with Some n => Returned (i32 n) | None => Escaped end
  end.

(** [execute] up to the code of the contract *)
Definition execute (commit_create commit_reset : bool) (depth : nat) (args : arguments) (p : process) : progress * process :=
  let code_id := cb_sha256 (codeBytes args) in
  let run :=
    let! it := get_instantiated_module commit_create [] code_id (codeBytes args) in
    call_apply commit_reset depth args (fst it) in
  match run (acquire p) with
  | (Value (Some a), p) => (Runs a, p)
  | (r, p) => (outcome r, release p)
  end.

(** ** While contracts run *)

(** The context that an intrinsic works on: that of the activation, with its counter, the
    memory of [the_running_instance_context] and the embedder's state.  What has been printed before is left out, as nothing reads it. *)
Definition context_of (a : activation) (p : process) : @wasm_context W :=
  let args := act_arguments a in
  Context (skipn 8 (actionBytes args)) (fromAddrBytes args) (toAddrBytes args) (ownerAddrBytes args) (userAddrBytes args)
    (stateKey args) (transferAmount args) (counters p (remainedGas args))
    (match running_memory p with Some m => nth_error (heap p) m | None => None end) [] (embedder p).

(** What it leaves. *)
Definition store_context (a : activation) (c : @wasm_context W) (p : process) : process :=
  let p := set_embedder (fun k => if k =? remainedGas (act_arguments a) then remained_gas c else counters p k) (world c) p in
  match running_memory p, Host.memory c with
  | Some m, Some b => assign_memory m b p
  | _, _ => p
  end.

(** The running context, looked up in the stack of runs. *)
Definition running (stack : list activation) (p : process) : option (nat * activation) :=
  match running_ctx p with
  | Some n => match nth_error (rev stack) n with Some a => Some (n, a) | None => None end
  | None => None
  end.

(** The same with the state of SoftFloat, for the intrinsics of compiler_builtins *)
Definition with_embedder {V} (w : V) {V'} (c : @wasm_context V') : @wasm_context V :=
  Context (act_data c) (from_addr_bytes c) (to_addr_bytes c) (owner_addr_bytes c) (user_addr_bytes c) (state_key c) (transfer_amount c)
    (remained_gas c) (Host.memory c) (console c) w.
Definition builtin_context (a : activation) (e : env) (p : process) : @wasm_context (W * env) :=
  with_embedder (embedder p, e) (context_of a p).
Definition store_builtin (a : activation) (c : @wasm_context (W * env)) (p : process) : process :=
  store_context a (with_embedder (fst (world c)) c) p.

(** [call_action] up to the callback *)
Definition before_callback (address size action action_size : Z) : @Host W (list Z * list Z) :=
  hbind (array_arg action action_size) (fun a =>
  hbind (array_arg address size) (fun p =>
  hbind (use_gas GAS_CALL_BASE) (fun _ =>
  hbind (host_assert (length_arg size =? 20) invalid_address_exception) (fun _ =>
  hbind (read p 20) (fun to =>
  hbind (read a (length_arg action_size)) (fun act => hret (to, act))))))).

Inductive party : Type := TheContract | TheEmbedder.

(** The runs that are active and the contexts of the calls of [call_action] that have not
    returned, the latest first, and whose code is running. *)
Record state : Type := State { stack : list activation; callers : list nat; control : party; proc : process }.

Definition calls_action (call : env_call) : bool := match call with E_call_action _ _ _ _ _ _ _ => true | _ => false end.

(** Once the function that was invoked has come to its end, by returning or by ftl_exit: [apply] is invoked after the
    start function, and its end is that of the run. *)
Definition applying (a : activation) (p : process) : activation :=
  Activation (act_arguments a) (act_memory a) (act_entry a) (act_values a) (act_imports a) false (frames p) (signalReturnEnv p).
Definition function_ends (a : activation) (s : list activation) (cs : list nat) (p : process) : state :=
  let p := restore a p in
  match act_starting a, check_parameters (act_entry a) (act_values a) with
  | true, Value _ => State (applying a p :: s) cs TheContract (enter p)
  | _, _ => State s cs TheEmbedder (release p)
  end.

(** The steps that leave [signalReturnEnv] as they should.  A contract calls what its module imports, and works on its own
    memory; what its code does otherwise is left open.  A call of softfloat_api that returns changes the state of SoftFloat only, which is
    any when compiler_builtins is called. *)
Inductive proceeds : state -> state -> Prop :=
  | (** the embedder's own code, and its answers; it may catch what execute does not *)
    embedder_computes (s : list activation) (cs : list nat) (p : process) (k : Z -> Z) (w : W) :
      proceeds (State s cs TheEmbedder p) (State s cs TheEmbedder (set_embedder k w p))
  | embedder_executes (s : list activation) (cs : list nat) (p p' : process) (cc cr : bool) (args : arguments) (a : activation) :
      execute cc cr (List.length s) args p = (Runs a, p') ->
      proceeds (State s cs TheEmbedder p) (State (a :: s) cs TheContract p')
  | embedder_answered (s : list activation) (cs : list nat) (p p' : process) (cc cr : bool) (args : arguments) (r : progress) :
      execute cc cr (List.length s) args p = (r, p') -> (forall a, r <> Runs a) ->
      proceeds (State s cs TheEmbedder p) (State s cs TheEmbedder p')
  | (** the contract's own code works on the memory of its instance *)
    contract_computes (s : list activation) (cs : list nat) (a : activation) (p : process) (m : nat) (b : MemoryInstance) :
      act_memory a = Some m ->
      proceeds (State (a :: s) cs TheContract p) (State (a :: s) cs TheContract (assign_memory m b p))
  | intrinsic_returns (s : list activation) (cs : list nat) (n : nat) (a b : activation) (p : process) (call : env_call)
        (r : Z) (c : @wasm_context W) :
      In (env_import call) (act_imports b) -> calls_action call = false -> exits call = false ->
      running (b :: s) p = Some (n, a) -> run call (context_of a p) = (Value r, c) ->
      proceeds (State (b :: s) cs TheContract p) (State (b :: s) cs TheContract (store_context a c p))
  | builtin_returns (s : list activation) (cs : list nat) (n : nat) (a b : activation) (p : process) (call : builtin_call)
        (r : Z) (e : env) (c : @wasm_context (W * env)) :
      In (builtin_import call) (act_imports b) ->
      running (b :: s) p = Some (n, a) -> run_builtin call (builtin_context a e p) = (Value r, c) ->
      proceeds (State (b :: s) cs TheContract p) (State (b :: s) cs TheContract (store_builtin a c p))
  | (** [Runtime::theMemoryInstance = NULL] and the callback *)
    action_called (s : list activation) (cs : list nat) (n : nat) (a b : activation) (p : process)
        (address size action action_size : Z) (r : list Z * list Z) (c : @wasm_context W) :
      In ("env", "call_action")%string (act_imports b) ->
      running (b :: s) p = Some (n, a) -> before_callback address size action action_size (context_of a p) = (Value r, c) ->
      proceeds (State (b :: s) cs TheContract p)
        (State (b :: s) (n :: cs) TheEmbedder (set_theMemoryInstance None (store_context a c p)))
  | (** and after it *)
    callback_returns (s : list activation) (cs : list nat) (n : nat) (a : activation) (p : process) :
      nth_error (rev s) n = Some a ->
      proceeds (State s (n :: cs) TheEmbedder p)
        (State s cs TheContract (set_theMemoryInstance (act_memory a) (set_running (act_memory a) (Some n) p)))
  | function_returns (s : list activation) (cs : list nat) (a : activation) (p : process) :
      proceeds (State (a :: s) cs TheContract p) (function_ends a s cs p)
  | (** ftl_exit jumps to where [signalReturnEnv] says, which is undefined if the frame is not there any more *)
    contract_exits (s : list activation) (cs : list nat) (n : nat) (a b : activation) (p : process) (code r : Z)
        (c : @wasm_context W) :
      In (env_import (E_ftl_exit code)) (act_imports b) -> running (b :: s) p = Some (n, a) ->
      run (E_ftl_exit code) (context_of a p) = (Value r, c) -> signalReturnEnv p = Some (act_frame b) ->
      proceeds (State (b :: s) cs TheContract p) (function_ends b s cs (store_context a c p))
  | (** so does the handler of a hardware trap, once it has stored through [signalOperand]; [handleHardwareTrap] then throws one of
        the engine's exceptions *)
    contract_traps (s : list activation) (cs : list nat) (b : activation) (p : process) :
      signalReturnEnv p = Some (act_frame b) -> signalOperand p = Some (act_frame b) ->
      proceeds (State (b :: s) cs TheContract p) (State s cs TheEmbedder (release (restore b p))).

(** An exception unwinds the run, to the handler of execute or out of it. *)
Inductive unwinds : state -> state -> Prop :=
  | intrinsic_throws (s : list activation) (cs : list nat) (n : nat) (a b : activation) (p : process) (call : env_call)
        (e : exception) (c : @wasm_context W) :
      In (env_import call) (act_imports b) -> running (b :: s) p = Some (n, a) -> run call (context_of a p) = (Throw e, c) ->
      unwinds (State (b :: s) cs TheContract p) (State s cs TheEmbedder (release (store_context a c p)))
  | builtin_throws (s : list activation) (cs : list nat) (n : nat) (a b : activation) (p : process) (call : builtin_call)
        (e : exception) (f : env) (c : @wasm_context (W * env)) :
      In (builtin_import call) (act_imports b) -> running (b :: s) p = Some (n, a) ->
      run_builtin call (builtin_context a f p) = (Throw e, c) ->
      unwinds (State (b :: s) cs TheContract p) (State s cs TheEmbedder (release (store_builtin a c p)))
  | (** a conversion to an integer that is out of range *)
    float_throws (s : list activation) (cs : list nat) (b : activation) (p : process) (name : string) :
      In name float_truncations -> In (EOSIO_INJECTED_MODULE_NAME, name) (act_imports b) ->
      unwinds (State (b :: s) cs TheContract p) (State s cs TheEmbedder (release p))
  | (** an exception of the engine: [unreachable], a call of an undefined table element and the like *)
    engine_throws (s : list activation) (cs : list nat) (b : activation) (p : process) :
      unwinds (State (b :: s) cs TheContract p) (State s cs TheEmbedder (release p)).

Inductive step : state -> state -> Prop :=
  | step_proceeds (s t : state) : proceeds s t -> step s t
  | step_unwinds (s t : state) : unwinds s t -> step s t.

Inductive steps : state -> state -> Prop :=
  | steps_refl (s : state) : steps s s
  | steps_next (s t u : state) : steps s t -> step t u -> steps s u.

(** No run so far has been ended by an exception. *)
Inductive orderly : state -> state -> Prop :=
  | orderly_refl (s : state) : orderly s s
  | orderly_next (s t u : state) : orderly s t -> proceeds t u -> orderly s u.

(** Before the first run. *)
Definition idle (k : Z -> Z) (w : W) (ctx mem : option nat) : state :=
  State [] [] TheEmbedder (Process [] None mem ctx 0 k w None None 0).
End Runs.
