(* ===== verification/ExecuteProofs.v ===== *)
(** Runs of contracts: what a reachable state looks like, and what the run of one contract
    leaves of the others. *)
From Stdlib Require Import ZArith Bool Lia String List.
From S2P Require Import Softfloat Builtins CompilerBuiltins.
From S2P Require Import Prelude Exceptions Memory Opcodes Ops OpsProofs Injection Linking InjectCorrect.
From S2P Require Import IR Binary ModuleProofs.
From S2P Require Import Validation ValidationProofs Host HostCorrect Execute.
Import ListNotations.
Local Open Scope nat_scope.

(** ** The heap *)
Section Heap.
Context {W : Type}.
Abbreviation process := (@process W).

Lemma assign_heap (a : nat) (m : MemoryInstance) (p : process) : a < length (heap p) ->
  length (heap (assign_memory a m p)) = length (heap p) /\ nth_error (heap (assign_memory a m p)) a = Some m /\
  forall k, k <> a -> nth_error (heap (assign_memory a m p)) k = nth_error (heap p) k.
Proof.
  intros Ha. unfold assign_memory. cbn [heap set_heap]. set (h := heap p) in *. clearbody h.
  assert (F : length (firstn a h) = a) by (rewrite length_firstn; lia). split; [|split].
  - rewrite length_app. cbn [length]. rewrite length_skipn, F. lia.
  - rewrite nth_error_app2, F, Nat.sub_diag by lia. reflexivity.
  - intros k Hk. destruct (Nat.lt_ge_cases k a) as [L|L].
    + rewrite nth_error_app1, nth_error_firstn by lia. destruct (Nat.ltb_spec k a); [reflexivity|lia].
    + rewrite nth_error_app2, F by lia. replace (k - a) with (S (k - S a)) by lia. cbn [nth_error].
      rewrite nth_error_skipn. f_equal. lia.
Qed.

(** What the start of a run may change: it allocates at most one memory, and writes to the
    one that [theMemoryInstance] points to. *)
Record touches (p p' : process) : Prop := {
  t_count : use_count p' = use_count p;
  t_counters : counters p' = counters p;
  t_embedder : embedder p' = embedder p;
  t_heap : length (heap p) <= length (heap p');
  t_old : forall k, k < length (heap p) -> theMemoryInstance p <> Some k -> nth_error (heap p') k = nth_error (heap p) k;
  t_new : theMemoryInstance p' = theMemoryInstance p \/
          theMemoryInstance p = None /\ exists m, theMemoryInstance p' = Some m /\ length (heap p) <= m < length (heap p')
}.

Lemma touches_refl (p : process) : touches p p.
Proof. constructor; auto. Qed.

Lemma touches_trans (p q r : process) : touches p q -> touches q r -> touches p r.
Proof.
  intros [C1 K1 E1 L1 O1 N1] [C2 K2 E2 L2 O2 N2]. constructor; try congruence; try lia.
  - intros k Hk N. rewrite O2, O1; try assumption; try reflexivity; [lia|].
    destruct N1 as [->|(_ & m & -> & B)]; [exact N|]. intros [= ->]. lia.
  - destruct N1 as [E|(E & m & E' & B)].
    + destruct N2 as [E''|(E'' & m' & -> & B)]; [left; congruence|right]. split; [congruence|]. exists m'. split; [reflexivity|lia].
    + destruct N2 as [E''|(E'' & _)]; [right|congruence]. split; [exact E|]. exists m. split; [congruence|lia].
Qed.

Lemma pbind_inv {A B} (m : Proc A) (k : A -> Proc B) (p p' : process) (r : result B) : pbind m k p = (r, p') ->
  (exists e, m p = (Throw e, p') /\ r = Throw e) \/ exists a p1, m p = (Value a, p1) /\ k a p1 = (r, p').
Proof.
  unfold pbind. destruct (m p) as [[e|a] p1].
  - intros [= <- <-]. left. exists e. auto.
  - intros E. right. exists a, p1. auto.
Qed.
End Heap.

Ltac next H := apply pbind_inv in H as [(? & H & ->)|(? & ? & ?E & H)].

Section Starts.
Context {W : Type} {C : Callbacks W} {En : Engine}.
Abbreviation process := (@process W).

Lemma lift_same {A} (o : result A) (p p' : process) (r : result A) : lift o p = (r, p') -> p' = p /\ r = o.
Proof. intros [= <- <-]. auto. Qed.

Lemma instance_memory_touches (commit : bool) (m : Module) (p p' : process) (r : result (option nat)) :
  instance_memory commit m p = (r, p') ->
  touches p p' /\ forall a, r = Value (Some a) -> theMemoryInstance p' = Some a.
Proof.
  unfold instance_memory. destruct (space_defs (m_memories m)) as [|t l].
  { intros [= <- <-]. split; [apply touches_refl|discriminate]. }
  destruct (theMemoryInstance p) as [a|] eqn:T.
  { intros [= <- <-]. split; [apply touches_refl|]. intros b [= ->]. exact T. }
  intros H. next H; unfold createMemory in *; destruct (growMemory _ _ _) as [n b]; destruct (n =? -1)%Z.
  - injection H as <- <-. split; [apply touches_refl|discriminate].
  - discriminate H.
  - discriminate E.
  - injection E as <- <-. injection H as <- <-. split; [|intros a [= ->]; reflexivity].
    constructor; cbn; auto.
    + rewrite length_app. cbn. lia.
    + intros k Hk _. apply nth_error_app1. exact Hk.
    + right. split; [exact T|]. eexists. split; [reflexivity|]. rewrite length_app. cbn. lia.
Qed.

Lemma instantiateModule_touches (commit : bool) (m : Module) (p p' : process) (r : result (option nat)) :
  instantiateModule commit m p = (r, p') ->
  touches p p' /\ forall a, r = Value (Some a) -> theMemoryInstance p' = Some a.
Proof.
  unfold instantiateModule. intros H.
  next H; [apply lift_same in H as [-> _]; split; [apply touches_refl|discriminate]|apply lift_same in E as [-> _]].
  next H; [apply instance_memory_touches in H as [T _]; split; [exact T|discriminate]|apply instance_memory_touches in E as [T D]].
  next H; [apply lift_same in H as [-> _]; split; [exact T|discriminate]|apply lift_same in E as [-> _]].
  injection H as <- <-. split; [exact T|]. intros a [= ->]. now apply D.
Qed.

Lemma get_instance_touches (commit : bool) (id code : list Z) (p p' : process) r :
  get_instantiated_module commit [] id code p = (r, p') ->
  touches p p' /\ forall it cache a, r = Value (it, cache) -> default_memory it = Some a -> theMemoryInstance p' = Some a.
Proof.
  unfold get_instantiated_module, instantiate_module. cbn [lookup]. intros H.
  next H; [apply lift_same in H as [-> _]; split; [apply touches_refl|discriminate]|apply lift_same in E as [-> _]].
  next H; [apply lift_same in H as [-> _]; split; [apply touches_refl|discriminate]|apply lift_same in E as [-> _]].
  next H; [apply lift_same in H as [-> _]; split; [apply touches_refl|discriminate]|apply lift_same in E as [-> _]].
  next H; [apply lift_same in H as [-> _]; split; [apply touches_refl|discriminate]|apply lift_same in E as [-> _]].
  assert (K : forall r q, instantiate_module commit x1 x2 p = (r, q) ->
            touches p q /\ forall it a, r = Value it -> default_memory it = Some a -> theMemoryInstance q = Some a).
  { clear. intros r q H. unfold instantiate_module in H.
    next H; [apply lift_same in H as [-> _]; split; [apply touches_refl|discriminate]|apply lift_same in E as [-> _]].
    next H; [apply lift_same in H as [-> _]; split; [apply touches_refl|discriminate]|apply lift_same in E as [-> _]].
    next H; [apply instantiateModule_touches in H as [T _]; split; [exact T|discriminate]|].
    apply instantiateModule_touches in E as [T D]. injection H as <- <-. split; [exact T|].
    intros it a [= <-]. cbn [default_memory]. intros ->. now apply D. }
  next H; [apply K in H as [T _]; split; [exact T|discriminate]|].
  apply K in E as [T D]. injection H as <- <-. split; [exact T|]. intros it cache a [= <- _]. now apply D.
Qed.

Lemma reset_touches (commit : bool) (it : instance) (p p' : process) (r : result unit) :
  (forall a, default_memory it = Some a -> theMemoryInstance p = Some a) -> reset_default commit it p = (r, p') ->
  touches p p' /\ theMemoryInstance p' = theMemoryInstance p.
Proof.
  intros D. unfold reset_default. destruct (default_memory it) as [a|]; [|intros [= <- <-]; split; [apply touches_refl|reflexivity]].
  specialize (D a eq_refl). destruct (space_defs _) as [|[min max] l]; [intros [= <- <-]; split; [apply touches_refl|reflexivity]|].
  destruct (nth_error (heap p) a) as [old|] eqn:N; [|intros [= <- <-]; split; [apply touches_refl|reflexivity]].
  destruct (prepare_memory _ _ _ _ _) as [m|]; intros [= <- <-]; [|split; [apply touches_refl|reflexivity]].
  assert (L : a < length (heap p)) by (apply nth_error_Some; congruence). destruct (assign_heap a m p L) as (H1 & _ & H2).
  split; [|reflexivity]. constructor; auto.
  - rewrite H1. reflexivity.
  - intros k _ Hk. apply H2. intros ->. now apply Hk.
Qed.

(** How the pointers change when a function is invoked: not at all. *)
Lemma touches_moved (p : process) (m c : option nat) (e o : option nat) (n : nat) : touches p (set_signals e o n (set_running m c p)).
Proof. constructor; auto. Qed.

Lemma call_apply_touches (commit : bool) (d : nat) (args : arguments) (it : instance) (p p' : process) r :
  (forall a, default_memory it = Some a -> theMemoryInstance p = Some a) -> call_apply commit d args it p = (r, p') ->
  touches p p' /\
  forall a, r = Value (Some a) -> act_arguments a = args /\ act_memory a = default_memory it /\
    running_ctx p' = Some d /\ running_memory p' = act_memory a /\ theMemoryInstance p' = theMemoryInstance p.
Proof.
  intros D. unfold call_apply. destruct (entry_point _) as [t|]; [|intros [= <- <-]; split; [apply touches_refl|discriminate]].
  intros H. next H; [apply lift_same in H as [-> _]; split; [apply touches_refl|discriminate]|apply lift_same in E as [-> _]].
  next H; [apply reset_touches in H as [T _]; [split; [exact T|discriminate]|exact D]|].
  apply reset_touches in E as [T E]; [|exact D]. next H; [discriminate H|]. injection E0 as _ <-.
  pose proof (touches_moved x1 (default_memory it) (Some d)) as M. destruct (negb _).
  - injection H as <- <-. split; [apply (touches_trans _ _ _ T), M|]. intros a [= <-]. cbn. auto.
  - next H; [apply lift_same in H as [-> _]; split; [exact (touches_trans _ _ _ T (M (signalReturnEnv x1) (signalOperand x1) (frames x1)))|discriminate]|].
    apply lift_same in E0 as [-> _]. injection H as <- <-. split; [apply (touches_trans _ _ _ T), M|]. intros a [= <-]. cbn. auto.
Qed.

(** A run that has begun, or that is over before its contract is called. *)
Lemma execute_touches (cc cr : bool) (d : nat) (args : arguments) (p p' : process) (r : progress) :
  execute cc cr d args p = (r, p') ->
  (exists a, r = Runs a /\ touches (acquire p) p' /\ act_arguments a = args /\ running_ctx p' = Some d /\
     running_memory p' = act_memory a /\ forall m, act_memory a = Some m -> theMemoryInstance p' = Some m) \/
  (forall a, r <> Runs a) /\ exists q, touches (acquire p) q /\ p' = release q.
Proof.
  unfold execute. set (run := pbind _ _). destruct (run (acquire p)) as [o q] eqn:E.
  assert (T : touches (acquire p) q /\ forall a, o = Value (Some a) -> act_arguments a = args /\ running_ctx q = Some d /\
     running_memory q = act_memory a /\ forall m, act_memory a = Some m -> theMemoryInstance q = Some m).
  { subst run. apply pbind_inv in E as [(e & E & ->)|([it cache] & q1 & E1 & E)].
    - apply get_instance_touches in E as [T _]. split; [exact T|discriminate].
    - apply get_instance_touches in E1 as [T D]. cbn [fst] in E.
      assert (D' : forall a, default_memory it = Some a -> theMemoryInstance q1 = Some a) by (intros a; now apply D with cache).
      apply call_apply_touches in E as [T' D2]; [|exact D']. split; [exact (touches_trans _ _ _ T T')|].
      intros a Ha. destruct (D2 a Ha) as (A1 & A2 & A3 & A4 & A5). split; [exact A1|]. split; [exact A3|]. split; [exact A4|].
      intros m Hm. rewrite A5. apply D'. congruence. }
  destruct T as [T D]. destruct o as [e|[a|]]; intros [= <- <-].
  - right. split; [|exists q; auto]. intros a. unfold outcome. destruct (code_of e); discriminate.
  - left. exists a. split; [reflexivity|]. split; [exact T|]. exact (D a eq_refl).
  - right. split; [discriminate|]. exists q. auto.
Qed.
End Starts.

(** ** The states that can be reached *)
Section Reachable.
Context {W : Type} {C : Callbacks W} {En : Engine} {Un : Undefined}.
Abbreviation process := (@process W).
Abbreviation state := (@state W).

(** The memories of some runs. *)
Fixpoint memories_of (s : list activation) : list nat :=
  match s with
  | [] => []
  | a :: s => match act_memory a with Some m => m :: memories_of s | None => memories_of s end
  end.

(** The runs that wait for a callback: all of them, or all but the latest. *)
Definition waiting (s : state) : list activation :=
  match control s with TheEmbedder => stack s | TheContract => tl (stack s) end.

Record isolated (s : state) : Prop := {
  iso_count : use_count (proc s) = length (stack s);
  iso_live : Forall (fun m => m < length (heap (proc s))) (memories_of (stack s));
  iso_distinct : NoDup (memories_of (stack s));
  iso_free : forall m, theMemoryInstance (proc s) = Some m -> m < length (heap (proc s)) /\ ~ In m (memories_of (waiting s));
  iso_idle : stack s = [] -> heap (proc s) = [];
  iso_callers : callers s = rev (seq 0 (length (waiting s)));
  iso_running : control s = TheContract -> exists a rest, stack s = a :: rest /\
    running_ctx (proc s) = Some (length rest) /\ running_memory (proc s) = act_memory a
}.

Lemma running_top (a : activation) (s : list activation) (p : process) :
  running_ctx p = Some (length s) -> running (a :: s) p = Some (length s, a).
Proof.
  intros E. unfold running. rewrite E. cbn [rev]. rewrite nth_error_app2, length_rev, Nat.sub_diag by (rewrite length_rev; lia).
  reflexivity.
Qed.

Lemma memories_cons (a : activation) (s : list activation) (m : nat) :
  In m (memories_of (a :: s)) <-> act_memory a = Some m \/ In m (memories_of s).
Proof.
  cbn [memories_of]. destruct (act_memory a) as [n|]; [|intuition discriminate].
  cbn [In]. intuition congruence.
Qed.

Lemma callers_push (n : nat) : rev (seq 0 (S n)) = n :: rev (seq 0 n).
Proof. rewrite seq_S, rev_app_distr. reflexivity. Qed.

(** What an intrinsic leaves: only the memory of the running contract changes. *)
Lemma store_same (a : activation) (c : @wasm_context W) (p : process) (Live : forall m, running_memory p = Some m -> m < length (heap p)) :
  let p' := store_context a c p in
  use_count p' = use_count p /\ theMemoryInstance p' = theMemoryInstance p /\ running_ctx p' = running_ctx p /\
  running_memory p' = running_memory p /\ length (heap p') = length (heap p) /\
  forall k, running_memory p <> Some k -> nth_error (heap p') k = nth_error (heap p) k.
Proof.
  unfold store_context. cbn [running_memory set_embedder]. destruct (running_memory p) as [m|] eqn:R; [|cbn; auto 10].
  destruct (Host.memory c) as [b|]; [|cbn; auto 10].
  destruct (assign_heap m b (set_embedder (fun k => if (k =? remainedGas (act_arguments a))%Z then remained_gas c else counters p k) (world c) p)
    (Live m eq_refl)) as (H1 & _ & H2).
  split; [reflexivity|]. split; [reflexivity|]. split; [reflexivity|]. split; [exact R|]. split; [exact H1|].
  intros k Hk. apply H2. congruence.
Qed.

(** The end of a run. *)
Lemma release_spec (p : process) : (forall m, theMemoryInstance p = Some m -> m < length (heap p)) ->
  use_count (release p) = Nat.pred (use_count p) /\
  (use_count (release p) <> 0 -> heap (release p) = heap p /\ theMemoryInstance (release p) = theMemoryInstance p) /\
  (use_count (release p) = 0 -> heap (release p) = [] /\ theMemoryInstance (release p) = None).
Proof.
  intros L. unfold release. cbn [use_count set_use_count]. destruct (Nat.pred (use_count p)) as [|n] eqn:U.
  - unfold freeUnreferencedObjects. cbn [heap set_use_count]. destruct (heap p) as [|m h] eqn:H.
    + split; [reflexivity|]. split; [cbn; congruence|]. intros _. split; [exact H|]. cbn.
      destruct (theMemoryInstance p) as [k|]; [|reflexivity]. specialize (L k eq_refl). cbn in L. lia.
    + split; [reflexivity|]. split; [cbn; congruence|]. auto.
  - split; [reflexivity|]. split; [auto|]. cbn. discriminate.
Qed.

Lemma waiting_live (s : state) : isolated s -> forall m, In m (memories_of (waiting s)) -> m < length (heap (proc s)).
Proof.
  intros I m Hm. pose proof (iso_live s I) as L. rewrite Forall_forall in L. apply L. unfold waiting in Hm.
  destruct (control s); [|exact Hm]. destruct (stack s) as [|a l]; [destruct Hm|]. apply memories_cons. now right.
Qed.

Lemma isolated_ended (s : list activation) (a : activation) (cs : list nat) (p q : process) :
  isolated (State (a :: s) cs TheContract p) -> use_count q = use_count p -> theMemoryInstance q = theMemoryInstance p ->
  length (heap q) = length (heap p) -> isolated (State s cs TheEmbedder (release q)).
Proof.
  intros I U T L. pose proof (iso_count _ I) as IC. pose proof (iso_free _ I) as IF. cbn [proc stack] in *.
  destruct (release_spec q) as (R1 & R2 & R3). { intros m Hm. rewrite L. apply IF. congruence. }
  rewrite U, IC in R1. cbn in R1.
  assert (Z : s = [] \/ use_count (release q) <> 0) by (rewrite R1; destruct s; [left; reflexivity|right; discriminate]).
  pose proof (iso_live _ I) as IL. pose proof (iso_distinct _ I) as ID. pose proof (iso_callers _ I) as IK.
  unfold waiting in IF, IK. cbn [proc stack control tl callers length] in *.
  assert (IL' : Forall (fun m => m < length (heap p)) (memories_of s)).
  { rewrite Forall_forall in *. intros m Hm. apply IL. apply memories_cons. now right. }
  assert (ID' : NoDup (memories_of s)).
  { cbn [memories_of] in ID. destruct (act_memory a); [now inversion ID|exact ID]. }
  constructor; unfold waiting; cbn [proc stack control callers].
  - exact R1.
  - destruct Z as [-> |Z]; [constructor|]. rewrite (proj1 (R2 Z)), L. exact IL'.
  - exact ID'.
  - destruct Z as [-> |Z]; [intros m; rewrite (proj2 (R3 R1)); discriminate|]. destruct (R2 Z) as [-> ->]. rewrite T, L. exact IF.
  - intros ->. exact (proj1 (R3 R1)).
  - exact IK.
  - discriminate.
Qed.

(** A change of the process that moves no pointer. *)
Lemma isolated_moved (s : list activation) (cs : list nat) (w : party) (p q : process) :
  isolated (State s cs w p) -> use_count q = use_count p -> theMemoryInstance q = theMemoryInstance p ->
  length (heap q) = length (heap p) -> running_ctx q = running_ctx p -> running_memory q = running_memory p ->
  isolated (State s cs w q).
Proof.
  intros [I1 I2 I3 I4 I5 I6 I7] U T L R1 R2. constructor; unfold waiting in *; cbn [proc stack control callers] in *; try congruence.
  - rewrite L. exact I2.
  - intros m. rewrite T, L. apply I4.
  - intros H. specialize (I5 H). rewrite I5 in L. destruct (heap q); [reflexivity|discriminate L].
  - intros H. destruct (I7 H) as (a & r & E1 & E2 & E3). exists a, r. split; [exact E1|]. split; congruence.
Qed.

(** What a run that starts finds, and what it leaves of the pointers. *)
Lemma start_pointers (s : list activation) (cs : list nat) (p q : process) :
  isolated (State s cs TheEmbedder p) -> touches (acquire p) q ->
  use_count q = S (length s) /\ Forall (fun m => m < length (heap q)) (memories_of s) /\
  forall m, theMemoryInstance q = Some m -> m < length (heap q) /\ ~ In m (memories_of s).
Proof.
  intros [I1 I2 _ I4 _ _ _] [T1 _ _ T4 _ T6].
  unfold waiting in *. cbn [proc stack control use_count acquire set_use_count heap theMemoryInstance] in *.
  split; [congruence|]. split; [eapply Forall_impl; [|exact I2]; intros; cbn in *; lia|]. intros m Hm.
  destruct T6 as [T6|(_ & m' & T6 & B)].
  - destruct (I4 m) as [L N]; [congruence|]. split; [lia|exact N].
  - assert (m' = m) as -> by congruence. split; [lia|]. intros Hin. rewrite Forall_forall in I2. specialize (I2 m Hin). lia.
Qed.

Lemma isolated_entered (s : list activation) (cs : list nat) (a : activation) (p q : process) :
  isolated (State s cs TheEmbedder p) -> touches (acquire p) q -> running_ctx q = Some (length s) ->
  running_memory q = act_memory a -> (forall m, act_memory a = Some m -> theMemoryInstance q = Some m) ->
  isolated (State (a :: s) cs TheContract q).
Proof.
  intros I T Ec Em Et. destruct (start_pointers s cs p q I T) as (U & L & M). destruct I as [_ _ I3 _ _ I6 _].
  unfold waiting in *. cbn [proc stack control callers] in *.
  constructor; unfold waiting; cbn [proc stack control callers tl length memories_of]; try assumption.
  - destruct (act_memory a) as [m|]; [|exact L]. constructor; [apply (M m), Et; reflexivity|exact L].
  - destruct (act_memory a) as [m|]; [|exact I3]. constructor; [apply (M m), Et; reflexivity|exact I3].
  - discriminate.
  - intros _. exists a, s. auto.
Qed.

Lemma isolated_answered (s : list activation) (cs : list nat) (p q : process) :
  isolated (State s cs TheEmbedder p) -> touches (acquire p) q -> isolated (State s cs TheEmbedder (release q)).
Proof.
  intros I T. destruct (start_pointers s cs p q I T) as (U & L & M). destruct I as [_ _ I3 _ _ I6 _].
  destruct (release_spec q) as (R1 & R2 & R3); [intros m Hm; apply (M m Hm)|]. rewrite U in R1. cbn [Nat.pred] in R1.
  assert (Z : s = [] \/ use_count (release q) <> 0) by (rewrite R1; destruct s; [left; reflexivity|right; discriminate]).
  unfold waiting in *. cbn [proc stack control callers] in *.
  constructor; unfold waiting; cbn [proc stack control callers]; try assumption.
  - destruct Z as [-> |Z]; [constructor|]. rewrite (proj1 (R2 Z)). exact L.
  - destruct Z as [-> |Z]; [intros m; rewrite (proj2 (R3 R1)); discriminate|]. destruct (R2 Z) as [-> ->]. exact M.
  - intros ->. exact (proj1 (R3 R1)).
  - discriminate.
Qed.

Lemma live_top (a : activation) (rest : list activation) (cs : list nat) (w : party) (p : process) :
  isolated (State (a :: rest) cs w p) -> forall m, act_memory a = Some m -> m < length (heap p).
Proof.
  intros I m Hm. pose proof (iso_live _ I) as L. rewrite Forall_forall in L. apply (L m). apply memories_cons. now left.
Qed.

(** The running context is that of the latest run, and what its intrinsics leave. *)
Lemma running_run (s : list activation) (cs : list nat) (p : process) (n : nat) (a : activation) :
  isolated (State s cs TheContract p) -> running s p = Some (n, a) -> exists rest, s = a :: rest /\ n = length rest /\
    running_memory p = act_memory a /\ forall (c : @wasm_context W), let q := store_context a c p in
    (use_count q = use_count p /\ theMemoryInstance q = theMemoryInstance p /\ length (heap q) = length (heap p) /\
     running_ctx q = running_ctx p /\ running_memory q = running_memory p) /\
    forall k, act_memory a <> Some k -> nth_error (heap q) k = nth_error (heap p) k.
Proof.
  intros I R. destruct (iso_running _ I eq_refl) as (a' & rest & Es & Rc & Rm). cbn [proc stack] in *. subst s.
  rewrite running_top in R by exact Rc. injection R as <- <-. exists rest. split; [reflexivity|]. split; [reflexivity|].
  split; [exact Rm|]. intros c.
  destruct (store_same a' c p) as (S1 & S2 & S3 & S4 & S5 & S6); [intros m Hm; apply (live_top _ _ _ _ _ I); congruence|].
  rewrite Rm in S6. auto 10.
Qed.

Lemma isolated_called (s : list activation) (cs : list nat) (n : nat) (p q : process) :
  isolated (State s cs TheContract p) -> S n = length s -> use_count q = use_count p -> length (heap q) = length (heap p) ->
  isolated (State s (n :: cs) TheEmbedder (set_theMemoryInstance None q)).
Proof.
  intros [I1 I2 I3 _ _ I6 _] N U L. unfold waiting in *. cbn [proc stack control callers] in *.
  constructor; unfold waiting; cbn [proc stack control callers theMemoryInstance set_theMemoryInstance use_count heap];
    try discriminate; try congruence.
  - rewrite L. exact I2.
  - intros ->. discriminate N.
  - destruct s as [|a s]; [discriminate N|]. injection N as ->. rewrite I6. cbn [length tl]. now rewrite callers_push.
Qed.

Lemma isolated_resumed (s : list activation) (cs : list nat) (n : nat) (a : activation) (p : process) :
  isolated (State s (n :: cs) TheEmbedder p) -> nth_error (rev s) n = Some a ->
  isolated (State s cs TheContract (set_theMemoryInstance (act_memory a) (set_running (act_memory a) (Some n) p))).
Proof.
  intros [I1 I2 I3 _ I5 I6 _] E. unfold waiting in *. cbn [proc stack control callers] in *.
  destruct s as [|b s]; [discriminate I6|]. cbn [length] in I6. rewrite callers_push in I6. injection I6 as -> ->.
  assert (a = b) as ->.
  { cbn [rev] in E. rewrite nth_error_app2, length_rev, Nat.sub_diag in E by (rewrite length_rev; lia). now injection E. }
  constructor; unfold waiting; cbn [proc stack control callers tl theMemoryInstance set_theMemoryInstance use_count heap set_running]; auto.
  - intros m Hm. split; [rewrite Forall_forall in I2; apply I2, memories_cons; now left|].
    cbn [memories_of] in I3. rewrite Hm in I3. now inversion I3.
  - intros _. exists b, s. auto.
Qed.

(** The code of a run moves on to another function. *)
Lemma isolated_top (a b : activation) (s : list activation) (cs : list nat) (w : party) (p : process) :
  act_memory b = act_memory a -> isolated (State (a :: s) cs w p) -> isolated (State (b :: s) cs w p).
Proof.
  intros E [I1 I2 I3 I4 I5 I6 I7].
  assert (M : memories_of (b :: s) = memories_of (a :: s)) by (cbn [memories_of]; now rewrite E).
  constructor; unfold waiting in *; cbn [proc stack control callers tl length] in *; try assumption.
  - now rewrite M.
  - now rewrite M.
  - destruct w; [exact I4|]. rewrite M. exact I4.
  - discriminate.
  - destruct w; exact I6.
  - intros Hw. destruct (I7 Hw) as (a' & r & [= -> ->] & E2 & E3). exists b, r. split; [reflexivity|]. split; congruence.
Qed.

(** What a run that goes on leaves of the pointers: all of them *)
Definition moved (p q : process) : Prop :=
  use_count q = use_count p /\ theMemoryInstance q = theMemoryInstance p /\ length (heap q) = length (heap p) /\
  running_ctx q = running_ctx p /\ running_memory q = running_memory p.

Lemma isolated_function_ends (a : activation) (s : list activation) (cs : list nat) (p q : process) :
  isolated (State (a :: s) cs TheContract p) -> moved p q -> isolated (function_ends a s cs q).
Proof.
  intros I (U1 & U2 & U3 & U4 & U5). unfold function_ends.
  assert (E : isolated (State s cs TheEmbedder (release (restore a q)))) by (now apply (isolated_ended s a cs p)).
  destruct (act_starting a); [|exact E]. destruct (check_parameters _ _); [exact E|].
  apply (isolated_top a); [reflexivity|]. now apply (isolated_moved _ _ _ p).
Qed.

Lemma isolated_proceeds (s t : state) : isolated s -> proceeds s t -> isolated t.
Proof.
  intros I St. destruct St as [s cs p k w|s cs p p' cc cr args a E|s cs p p' cc cr args r E N|s cs a p m b E|s cs n a b p call r c _ _ _ R E
    |s cs n a b p call r e c _ R E|s cs n a b p address size action action_size r c _ R E|s cs n a p E|s cs a p|s cs n a b p code r c _ R E _|s cs b p _ _].
  - apply (isolated_moved s cs TheEmbedder p); auto.
  - destruct (execute_touches _ _ _ _ _ _ _ E) as [(a' & [= <-] & T & Ea & Ec & Em & Et)|[N _]]; [|now destruct (N a)].
    now apply (isolated_entered s cs a p).
  - destruct (execute_touches _ _ _ _ _ _ _ E) as [(a & F & _)|(_ & q & T & ->)]; [now destruct (N a)|].
    now apply (isolated_answered s cs p).
  - destruct (assign_heap m b p) as (H & _ & _); [exact (live_top _ _ _ _ _ I m E)|].
    apply (isolated_moved (a :: s) cs TheContract p); auto.
  - destruct (running_run _ cs p n a I R) as (rest & _ & _ & _ & S). destruct (S c) as ((S1 & S2 & S3 & S4 & S5) & _).
    now apply (isolated_moved _ cs TheContract p).
  - destruct (running_run _ cs p n a I R) as (rest & _ & _ & _ & S). destruct (S (with_embedder (fst (world c)) c)) as ((S1 & S2 & S3 & S4 & S5) & _).
    now apply (isolated_moved _ cs TheContract p).
  - destruct (running_run _ cs p n a I R) as (rest & [= <- <-] & -> & _ & S). destruct (S c) as ((S1 & S2 & S3 & _) & _).
    now apply (isolated_called _ cs _ p).
  - now apply isolated_resumed.
  - apply (isolated_function_ends a s cs p); [exact I|]. repeat split; reflexivity.
  - destruct (running_run _ cs p n a I R) as (rest & _ & _ & _ & S). destruct (S c) as (S1 & _).
    now apply (isolated_function_ends b s cs p).
  - now apply (isolated_ended s b cs p).
Qed.

Lemma isolated_unwinds (s t : state) : isolated s -> unwinds s t -> isolated t.
Proof.
  intros I St. destruct St as [s cs n a b p call e c _ R _|s cs n a b p call e f c _ R _|s cs b p name _ _|s cs b p].
  - destruct (running_run _ cs p n a I R) as (rest & _ & _ & _ & S). destruct (S c) as ((S1 & S2 & S3 & _) & _).
    now apply (isolated_ended s b cs p).
  - destruct (running_run _ cs p n a I R) as (rest & _ & _ & _ & S). destruct (S (with_embedder (fst (world c)) c)) as ((S1 & S2 & S3 & _) & _).
    now apply (isolated_ended s b cs p).
  - now apply (isolated_ended s b cs p).
  - now apply (isolated_ended s b cs p).
Qed.

Lemma isolated_step (s t : state) : isolated s -> step s t -> isolated t.
Proof. intros I St. destruct St as [? ? St|? ? St]; [exact (isolated_proceeds _ _ I St)|exact (isolated_unwinds _ _ I St)]. Qed.

Lemma isolated_steps (s t : state) : steps s t -> isolated s -> isolated t.
Proof. induction 1 as [s|s t u _ IH St]; [auto|]. intros I. apply (isolated_step t u); auto. Qed.

Lemma isolated_idle (k : Z -> Z) (w : W) (ctx mem : option nat) : isolated (idle k w ctx mem).
Proof. constructor; cbn; auto; try discriminate; constructor. Qed.
End Reachable.

(** ** A call of another contract *)

(** A host computation that does not write to the memory. *)
Definition no_write {W A} (m : @Host W A) : Prop := forall c r c', m c = (r, c') -> Host.memory c' = Host.memory c.

Lemma no_write_bind {W A B} (m : @Host W A) (k : A -> @Host W B) : no_write m -> (forall a, no_write (k a)) -> no_write (hbind m k).
Proof.
  intros Hm Hk c r c'. unfold hbind. destruct (m c) as [[e|a] c1] eqn:E; intros H.
  - injection H as <- <-. exact (Hm _ _ _ E).
  - rewrite (Hk a _ _ _ H). exact (Hm _ _ _ E).
Qed.

Lemma no_write_arg {W} (p n : Z) : no_write (W := W) (array_arg p n).
Proof.
  intros c r c'. unfold array_arg, array_ptr_impl. destruct (Host.memory c) eqn:M; [destruct (_ || _)|]; intros [= <- <-]; exact M.
Qed.

Lemma no_write_before_callback {W} (address size action action_size : Z) :
  no_write (W := W) (before_callback address size action action_size).
Proof.
  unfold before_callback. apply no_write_bind; [apply no_write_arg|intros p]. apply no_write_bind; [apply no_write_arg|intros q].
  apply no_write_bind. { intros c r c'. unfold use_gas. destruct (_ <? _)%Z; intros [= <- <-]; reflexivity. }
  intros _. apply no_write_bind. { intros c r c'. unfold host_assert. destruct (_ =? _)%Z; intros [= <- <-]; reflexivity. }
  intros _. apply no_write_bind; [intros c r c' [= <- <-]; reflexivity|intros l].
  apply no_write_bind; [|intros k]; intros c r c' [= <- <-]; reflexivity.
Qed.

Section Nested.
Context {W : Type} {C : Callbacks W} {En : Engine} {Un : Undefined}.
Abbreviation process := (@process W).
Abbreviation state := (@state W).

(** What happens while more than [n] calls of [call_action] have not returned. *)
Inductive during (n : nat) : state -> state -> Prop :=
  | during_refl (s : state) : during n s s
  | during_next (s t u : state) : during n s t -> step t u -> n < length (callers u) -> during n s u.

Lemma during_steps (n : nat) (s t : state) : during n s t -> steps s t.
Proof. induction 1 as [|s t u _ IH St _]; [constructor|]. econstructor; eauto. Qed.

(** The runs below are there, and their memories hold what they did. *)
Definition kept (st : list activation) (h : list MemoryInstance) (s : state) : Prop :=
  exists top, stack s = top ++ st /\
    forall m, In m (memories_of st) -> nth_error (heap (proc s)) m = nth_error h m.

Lemma memories_app (s t : list activation) : memories_of (s ++ t) = memories_of s ++ memories_of t.
Proof. induction s as [|a s IH]; [reflexivity|]. cbn [app memories_of]. rewrite IH. destruct (act_memory a); reflexivity. Qed.

(** A run that is not below, and its memory *)
Lemma kept_top (st : list activation) (h : list MemoryInstance) (a : activation) (rest : list activation) (cs : list nat)
    (p : process) : st <> [] -> isolated (State (a :: rest) cs TheContract p) -> kept st h (State (a :: rest) cs TheContract p) ->
  length st <= length rest -> exists top, rest = top ++ st /\
    (forall m, In m (memories_of st) -> act_memory a <> Some m) /\
    (forall m, In m (memories_of st) -> nth_error (heap p) m = nth_error h m).
Proof.
  intros Hs I (top & E & K) L. cbn [stack proc] in *. destruct top as [|b top].
  { apply (f_equal (@length _)) in E. cbn in E. lia. }
  injection E as <- E. exists top. split; [exact E|]. split; [|exact K]. intros m Hm Ha.
  pose proof (iso_distinct _ I) as D. cbn [stack memories_of] in D. rewrite Ha in D. inversion D as [|? ? N _].
  apply N. rewrite E, memories_app. apply in_or_app. now right.
Qed.

Lemma release_keeps (p : process) : 1 < use_count p -> heap (release p) = heap p.
Proof.
  intros H. unfold release. cbn [use_count set_use_count]. destruct (use_count p) as [|[|n]]; [lia|lia|reflexivity].
Qed.

Lemma pop_count (top st : list activation) : st <> [] -> 1 < S (length (top ++ st)).
Proof. rewrite length_app. destruct st; [congruence|cbn; lia]. Qed.

(** The run that is going on leaves those below alone, and so does its end. *)
Lemma kept_ended (st : list activation) (h : list MemoryInstance) (a : activation) (rest : list activation) (cs : list nat)
    (p q : process) : st <> [] -> isolated (State (a :: rest) cs TheContract p) -> kept st h (State (a :: rest) cs TheContract p) ->
  length st <= length rest -> use_count q = use_count p ->
  (forall k, act_memory a <> Some k -> nth_error (heap q) k = nth_error (heap p) k) ->
  kept st h (State rest cs TheEmbedder (release q)).
Proof.
  intros Hs I K L Cq Hq. destruct (kept_top st h a rest cs p Hs I K L) as (top & -> & N & K'). exists top. split; [reflexivity|].
  intros k Hk. cbn [proc]. rewrite release_keeps, Hq; [now apply K'|now apply N|].
  pose proof (iso_count _ I) as Ip. cbn [proc stack] in Ip. rewrite Cq, Ip. exact (pop_count top st Hs).
Qed.

Lemma kept_goes_on (st : list activation) (h : list MemoryInstance) (a b : activation) (rest : list activation) (cs cs' : list nat) (w : party)
    (p q : process) : st <> [] -> isolated (State (a :: rest) cs TheContract p) -> kept st h (State (a :: rest) cs TheContract p) ->
  length st <= length rest -> (forall k, act_memory a <> Some k -> nth_error (heap q) k = nth_error (heap p) k) ->
  kept st h (State (b :: rest) cs' w q).
Proof.
  intros Hs I K L Hq. destruct (kept_top st h a rest cs p Hs I K L) as (top & -> & N & K'). exists (b :: top). split; [reflexivity|].
  intros k Hk. cbn [proc]. rewrite Hq; [now apply K'|now apply N].
Qed.

Lemma kept_function_ends (st : list activation) (h : list MemoryInstance) (a : activation) (rest : list activation) (cs : list nat)
    (p q : process) : st <> [] -> isolated (State (a :: rest) cs TheContract p) -> kept st h (State (a :: rest) cs TheContract p) ->
  length st <= length rest -> use_count q = use_count p ->
  (forall k, act_memory a <> Some k -> nth_error (heap q) k = nth_error (heap p) k) ->
  kept st h (function_ends a rest cs q).
Proof.
  intros Hs I K L Cq Hq. unfold function_ends.
  assert (E : kept st h (State rest cs TheEmbedder (release (restore a q)))) by now apply (kept_ended st h a rest cs p).
  destruct (act_starting a); [|exact E]. destruct (check_parameters _ _); [exact E|]. now apply (kept_goes_on st h a _ rest cs _ _ p).
Qed.

(** What the start of a run leaves of the memories of the waiting ones *)
Lemma kept_started (st : list activation) (h : list MemoryInstance) (s : list activation) (cs : list nat) (p q : process) :
  isolated (State s cs TheEmbedder p) -> touches (acquire p) q -> kept st h (State s cs TheEmbedder p) ->
  exists top, s = top ++ st /\ forall m, In m (memories_of st) -> nth_error (heap q) m = nth_error h m.
Proof.
  intros I T (top & Et & K). cbn [stack proc] in *. exists top. split; [exact Et|]. intros m Hm. rewrite <- K by exact Hm.
  assert (B : In m (memories_of s)) by (rewrite Et, memories_app; apply in_or_app; now right).
  apply (t_old _ _ T); cbn; [now apply (waiting_live _ I)|]. intros H. now apply (iso_free _ I m H).
Qed.

Lemma kept_proceeds (st : list activation) (h : list MemoryInstance) (s t : state) : st <> [] -> isolated s -> proceeds s t ->
  length st <= length (callers s) -> kept st h s -> kept st h t.
Proof.
  intros Hs I St L K. pose proof (iso_callers _ I) as IC. rewrite IC, length_rev, length_seq in L. clear IC. unfold waiting in L.
  destruct St as [s cs p k w|s cs p p' cc cr args a E|s cs p p' cc cr args r E N|s cs a p m b E|s cs n a b p call r c _ _ _ R E
    |s cs n a b p call r e c _ R E|s cs n a b p address size action action_size r c _ R E|s cs n a p E|s cs a p|s cs n a b p code r c _ R E _|s cs b p _ _];
    cbn [stack control proc callers tl] in *.
  - exact K.
  - destruct (execute_touches _ _ _ _ _ _ _ E) as [(a' & _ & T & _)|[N _]]; [|now destruct (N a)].
    destruct (kept_started st h s cs p p' I T K) as (top & -> & K'). exists (a :: top). split; [reflexivity|exact K'].
  - destruct (execute_touches _ _ _ _ _ _ _ E) as [(a & F & _)|(_ & q & T & ->)]; [now destruct (N a)|].
    destruct (kept_started st h s cs p q I T K) as (top & -> & K'). exists top. split; [reflexivity|]. intros m Hm. cbn [proc].
    rewrite release_keeps; [now apply K'|]. rewrite (t_count _ _ T). pose proof (iso_count _ I) as Ip. cbn in Ip |- *.
    rewrite Ip. exact (pop_count top st Hs).
  - apply (kept_goes_on st h a a s cs cs _ p); try assumption. intros k Hk.
    apply (assign_heap m b p); [apply (live_top _ _ _ _ _ I), E|congruence].
  - destruct (running_run _ cs p n a I R) as (rest & [= <- <-] & _ & _ & S).
    apply (kept_goes_on st h b b s cs cs _ p); try assumption. apply (S c).
  - destruct (running_run _ cs p n a I R) as (rest & [= <- <-] & _ & _ & S).
    apply (kept_goes_on st h b b s cs cs _ p); try assumption. apply (S (with_embedder (fst (world c)) c)).
  - destruct (running_run _ cs p n a I R) as (rest & [= <- <-] & _ & _ & S).
    apply (kept_goes_on st h b b s cs _ _ p); try assumption. apply (S c).
  - exact K.
  - now apply (kept_function_ends st h a s cs p).
  - destruct (running_run _ cs p n a I R) as (rest & [= <- <-] & _ & _ & S). destruct (S c) as ((S1 & _) & S6).
    now apply (kept_function_ends st h b s cs p).
  - now apply (kept_ended st h b s cs p).
Qed.

Lemma kept_unwinds (st : list activation) (h : list MemoryInstance) (s t : state) : st <> [] -> isolated s -> unwinds s t ->
  length st <= length (callers s) -> kept st h s -> kept st h t.
Proof.
  intros Hs I St L K. pose proof (iso_callers _ I) as IC. rewrite IC, length_rev, length_seq in L. clear IC. unfold waiting in L.
  destruct St as [s cs n a b p call e c _ R _|s cs n a b p call e f c _ R _|s cs b p name _ _|s cs b p]; cbn [stack control proc callers tl] in *;
    try (destruct (running_run _ cs p n a I R) as (rest & [= <- <-] & _ & _ & S)).
  - destruct (S c) as ((S1 & _) & S6). now apply (kept_ended st h b s cs p).
  - destruct (S (with_embedder (fst (world c)) c)) as ((S1 & _) & S6). now apply (kept_ended st h b s cs p).
  - now apply (kept_ended st h b s cs p).
  - now apply (kept_ended st h b s cs p).
Qed.

Lemma kept_step (st : list activation) (h : list MemoryInstance) (s t : state) : st <> [] -> isolated s -> step s t ->
  length st <= length (callers s) -> kept st h s -> kept st h t.
Proof.
  intros Hs I St. destruct St as [s t St|s t St]; intros L K; [exact (kept_proceeds st h s t Hs I St L K)|exact (kept_unwinds st h s t Hs I St L K)].
Qed.

Lemma kept_during (st : list activation) (h : list MemoryInstance) (s t : state) : st <> [] -> during (length st - 1) s t ->
  isolated s -> kept st h s -> length st <= length (callers s) -> isolated t /\ kept st h t /\ length st <= length (callers t).
Proof.
  intros Hs D I K L. assert (Lp : 1 <= length st) by (destruct st; [congruence|cbn; lia]).
  induction D as [s|s t u D IH St Lu]; [auto|]. destruct (IH I K L) as (I' & K' & L').
  split; [exact (isolated_step t u I' St)|]. split; [exact (kept_step st h t u Hs I' St L' K')|]. lia.
Qed.

Lemma function_ends_callers (a : activation) (s : list activation) (cs : list nat) (p : process) : callers (function_ends a s cs p) = cs.
Proof. unfold function_ends. destruct (act_starting a); [destruct (check_parameters _ _)|]; reflexivity. Qed.

(** A step that answers a call. *)
Lemma callback_inv (s t : state) : step s t -> length (callers t) < length (callers s) ->
  control s = TheEmbedder /\ exists n a, callers s = n :: callers t /\ nth_error (rev (stack s)) n = Some a /\
    t = State (stack s) (callers t) TheContract (set_theMemoryInstance (act_memory a) (set_running (act_memory a) (Some n) (proc s))).
Proof.
  intros St L. destruct St as [? ? St|? ? St]; destruct St; rewrite ?function_ends_callers in L; cbn [callers length] in L; try lia.
  split; [reflexivity|]. exists n, a. auto.
Qed.

(** A step that makes one. *)
Lemma call_inv (s t : state) : step s t -> length (callers s) < length (callers t) ->
  control s = TheContract /\ exists n a address size action action_size r c,
    running (stack s) (proc s) = Some (n, a) /\
    before_callback address size action action_size (context_of a (proc s)) = (Value r, c) /\
    t = State (stack s) (n :: callers s) TheEmbedder (set_theMemoryInstance None (store_context a c (proc s))).
Proof.
  intros St L. destruct St as [? ? St|? ? St]; destruct St; rewrite ?function_ends_callers in L; cbn [callers length] in L; try lia. split; [reflexivity|].
  exists n, a, address, size, action, action_size, r, c. auto.
Qed.

Lemma store_kept (a : activation) (c : @wasm_context W) (p : process) :
  Host.memory c = Host.memory (context_of a p) -> forall k, nth_error (heap (store_context a c p)) k = nth_error (heap p) k.
Proof.
  intros E k. unfold store_context. cbn [running_memory set_embedder]. unfold context_of in E. cbn [Host.memory] in E. rewrite E.
  destruct (running_memory p) as [m|]; [|reflexivity].
  destruct (nth_error (heap p) m) as [b|] eqn:N; [|reflexivity].
  assert (L : m < length (heap p)) by (apply nth_error_Some; congruence).
  destruct (assign_heap m b (set_embedder (fun k => if (k =? remainedGas (act_arguments a))%Z then remained_gas c else counters p k) (world c) p) L)
    as (_ & H1 & H2).
  destruct (Nat.eq_dec k m) as [-> |Hk]; [rewrite H1; now rewrite N|]. now rewrite H2.
Qed.
(** ** Properties *)

(** C8. What the global variables of the process mean in every state that can be
    reached from the one before the first call of execute, whatever contracts and
    embedder do (short of jumping to a frame that is gone, which is undefined).  The runtime is used by as many runs as there are; each run that has a
    memory has one of its own, which has not been freed; theMemoryInstance never points
    to the memory of a run that waits for a callback, so that a new run does not reset
    it; when a contract runs, the running context is the one of the latest run and the
    memory its intrinsics work on is that run's; and when no run is left, every memory has
    been freed and theMemoryInstance is null. *)
Theorem reachable_runs (k : Z -> Z) (w : W) (ctx mem : option nat) (s : state) : steps (idle k w ctx mem) s ->
  use_count (proc s) = length (stack s) /\
  NoDup (memories_of (stack s)) /\ Forall (fun m => m < length (heap (proc s))) (memories_of (stack s)) /\
  (forall m, theMemoryInstance (proc s) = Some m -> m < length (heap (proc s)) /\ ~ In m (memories_of (waiting s))) /\
  (control s = TheContract -> exists a rest, stack s = a :: rest /\
     running (stack s) (proc s) = Some (length rest, a) /\ running_memory (proc s) = act_memory a) /\
  (stack s = [] -> heap (proc s) = [] /\ theMemoryInstance (proc s) = None).
Proof.
  intros R. pose proof (isolated_steps _ _ R (isolated_idle k w ctx mem)) as I.
  split; [apply I|]. split; [apply I|]. split; [apply I|]. split; [apply I|]. split.
  - intros Ct. destruct (iso_running _ I Ct) as (a & rest & E & Rc & Rm). exists a, rest. split; [exact E|].
    split; [|exact Rm]. rewrite E. now apply running_top.
  - intros E. pose proof (iso_idle _ I E) as H. split; [exact H|].
    destruct (theMemoryInstance (proc s)) as [m|] eqn:T; [|reflexivity].
    destruct (iso_free _ I m T) as [L _]. rewrite H in L. cbn in L. lia.
Qed.

(** C7. A contract that calls another finds its own world as it left it.  Between
    the call of call_action and its return any number of contracts may be executed,
    and call others in turn, exit, trap, run out of gas or be refused; then the runs that are active
    are the same, the contract that called is the running one, with its own memory behind
    the_running_instance_context and theMemoryInstance, and the memories of all the runs
    that were active hold what they held before the call. *)
Theorem nested_calls_isolated (k : Z -> Z) (w : W) (ctx mem : option nat) (s t u v : state) :
  steps (idle k w ctx mem) s -> step s t -> length (callers s) < length (callers t) ->
  during (length (callers s)) t u -> step u v -> length (callers v) <= length (callers s) ->
  stack v = stack s /\ callers v = callers s /\ control v = TheContract /\
  running (stack v) (proc v) = running (stack s) (proc s) /\
  running_memory (proc v) = running_memory (proc s) /\ theMemoryInstance (proc v) = running_memory (proc s) /\
  use_count (proc v) = use_count (proc s) /\
  forall m, In m (memories_of (stack s)) -> nth_error (heap (proc v)) m = nth_error (heap (proc s)) m.
Proof.
  intros R St Lc D Sv Lv. pose proof (isolated_steps _ _ R (isolated_idle k w ctx mem)) as I.
  destruct (call_inv s t St Lc) as (Ct & n & a & address & size & action & action_size & r & c & Ra & B & Et).
  destruct (iso_running _ I Ct) as (a' & rest & Es & Rc & Rm). pose proof (iso_callers _ I) as Ic.
  unfold waiting in Ic. rewrite Ct, Es in Ic. cbn [tl] in Ic. assert (Lr : length (callers s) = length rest) by (rewrite Ic, length_rev, length_seq; reflexivity).
  assert (Ra' : running (stack s) (proc s) = Some (length rest, a')) by (rewrite Es; now apply running_top).
  rewrite Ra' in Ra. injection Ra as <- <-.
  assert (K : kept (stack s) (heap (proc s)) t).
  { rewrite Et. exists []. split; [reflexivity|]. intros m _. cbn [proc set_theMemoryInstance heap]. apply store_kept.
    exact (no_write_before_callback _ _ _ _ _ _ _ B). }
  rewrite Lr in D. replace (length rest) with (length (stack s) - 1) in D by (rewrite Es; cbn; lia).
  assert (Lt : length (stack s) <= length (callers t)) by (rewrite Et, Es; cbn; lia).
  destruct (kept_during (stack s) (heap (proc s)) t u ltac:(rewrite Es; discriminate) D (isolated_step s t I St) K Lt)
    as (Iu & (top & Eu & Ku) & Lu).
  rewrite Es in Lu. cbn [length] in Lu.
  destruct (callback_inv u v Sv ltac:(lia)) as (Cu & n & b & Ecu & Nb & ->). cbn [callers stack proc control] in *.
  pose proof (iso_callers _ Iu) as Icu. unfold waiting in Icu. rewrite Cu, Eu in Icu.
  assert (top = []) as ->.
  { apply (f_equal (@length _)) in Icu. rewrite Ecu, length_rev, length_seq, length_app, Es in Icu. cbn [length] in Icu.
    destruct top; [reflexivity|]. cbn [length] in Icu. lia. }
  cbn [app] in *. rewrite Es in Icu. cbn [length] in Icu. rewrite callers_push, Ecu in Icu. injection Icu as -> Icv.
  assert (b = a') as ->.
  { rewrite Eu, Es in Nb. cbn [rev] in Nb. rewrite nth_error_app2, length_rev, Nat.sub_diag in Nb by (rewrite length_rev; lia).
    now injection Nb. }
  split; [exact Eu|]. split; [congruence|]. split; [reflexivity|]. split.
  { rewrite Ra', Eu, Es. now apply running_top. }
  split; [cbn; congruence|]. split; [cbn; congruence|]. split; [|exact Ku].
  cbn. rewrite (iso_count _ Iu), (iso_count _ I). congruence.
Qed.

End Nested.

(** ** The target of jumps *)
Section Targets.
Context {W : Type} {C : Callbacks W} {En : Engine} {Un : Undefined}.
Abbreviation process := (@process W).
Abbreviation state := (@state W).

Definition same_target (p q : process) : Prop := signalReturnEnv q = signalReturnEnv p /\ frames q = frames p.

Lemma same_target_trans (p q r : process) : same_target p q -> same_target q r -> same_target p r.
Proof. intros [A B] [D E]. split; congruence. Qed.

(** A computation that calls no function *)
Definition still {A} (m : Proc A) : Prop := forall p r q, m p = (r, q) -> same_target p q.

Lemma still_bind {A B} (m : Proc A) (k : A -> Proc B) : still m -> (forall a, still (k a)) -> still (pbind m k).
Proof.
  intros Hm Hk p r q E. apply pbind_inv in E as [(e & E & _)|(a & p1 & E1 & E2)]; [exact (Hm _ _ _ E)|].
  exact (same_target_trans _ _ _ (Hm _ _ _ E1) (Hk a _ _ _ E2)).
Qed.

Lemma still_lift {A} (o : result A) : still (lift o).
Proof. intros p r q [= <- <-]. split; reflexivity. Qed.

Lemma still_memory (commit : bool) (m : Module) : still (instance_memory commit m).
Proof.
  intros p r q. unfold instance_memory, pbind, createMemory. destruct (space_defs _); [intros [= <- <-]; split; reflexivity|].
  destruct (theMemoryInstance p); [intros [= <- <-]; split; reflexivity|].
  destruct (growMemory _ _ _) as [n b]. destruct (n =? -1)%Z; intros [= <- <-]; split; reflexivity.
Qed.

Lemma still_instance (commit : bool) (id code : list Z) : still (get_instantiated_module commit [] id code).
Proof.
  unfold get_instantiated_module, instantiate_module, instantiateModule. cbn [lookup].
  repeat first [apply still_lift|apply still_memory|apply still_bind; [|intros ?]].
Qed.

Lemma still_reset (commit : bool) (it : instance) : still (reset_default commit it).
Proof.
  intros p r q. unfold reset_default, assign_memory. destruct (default_memory it); [|intros [= <- <-]; split; reflexivity].
  destruct (space_defs _) as [|[min max] l]; [intros [= <- <-]; split; reflexivity|].
  destruct (nth_error _ _); [destruct (prepare_memory _ _ _ _ _)|]; intros [= <- <-]; split; reflexivity.
Qed.

(** What a run that starts makes of the target *)
Definition entered (p : process) (a : activation) (q : process) : Prop :=
  act_frame a = frames p /\ act_saved a = signalReturnEnv p /\ signalReturnEnv q = Some (frames p) /\ frames q = S (frames p).

Lemma call_target (commit : bool) (d : nat) (args : arguments) (it : instance) (p q : process) (r : result (option activation)) :
  call_apply commit d args it p = (r, q) -> match r with Value (Some a) => entered p a q | _ => same_target p q end.
Proof.
  unfold call_apply. destruct (entry_point _) as [t|]; [|intros [= <- <-]; split; reflexivity].
  intros H. next H; [exact (still_lift _ _ _ _ H)|apply lift_same in E as [-> _]].
  next H; [exact (still_reset _ _ _ _ _ H)|]. apply still_reset in E as [E1 E2]. next H; [discriminate H|]. injection E as _ <-.
  unfold entered, same_target. rewrite <- E1, <- E2.
  destruct (negb _); [injection H as <- <-; cbn; auto|].
  next H; [apply lift_same in H as [-> _]; split; reflexivity|apply lift_same in E as [-> _]]. injection H as <- <-. cbn. auto.
Qed.

Lemma release_target (p : process) : same_target p (release p).
Proof.
  unfold release, freeUnreferencedObjects. destruct (use_count _); [|split; reflexivity]. destruct (heap _); split; reflexivity.
Qed.

Lemma store_target (a : activation) (c : @wasm_context W) (p : process) : same_target p (store_context a c p).
Proof. unfold store_context. cbn [running_memory set_embedder]. destruct (running_memory p), (Host.memory c); split; reflexivity. Qed.

Lemma execute_target (cc cr : bool) (d : nat) (args : arguments) (p q : process) (r : progress) :
  execute cc cr d args p = (r, q) -> match r with Runs a => entered p a q | _ => same_target p q end.
Proof.
  unfold execute. set (run := pbind _ _). destruct (run (acquire p)) as [o p1] eqn:E.
  assert (T : match o with Value (Some a) => entered p a p1 | _ => same_target p p1 end).
  { subst run. apply pbind_inv in E as [(e & E & ->)|([it cache] & p2 & E1 & E)].
    - exact (still_instance _ _ _ _ _ _ E).
    - apply still_instance in E1 as [E1 E2]. apply call_target in E. cbn [signalReturnEnv frames acquire set_use_count] in *.
      destruct o as [|[a|]]; unfold entered, same_target in *; rewrite <- E1, <- E2; exact E. }
  destruct o as [e|[a|]]; intros [= <- <-].
  - unfold outcome. destruct (code_of e); exact (same_target_trans _ _ _ T (release_target p1)).
  - exact T.
  - exact (same_target_trans _ _ _ T (release_target p1)).
Qed.

(** The target is the frame of the latest run, what this one has saved is that of the one below, and so on. *)
Fixpoint nested_frames (target : option nat) (n : nat) (s : list activation) : Prop :=
  match s with
  | [] => True
  | a :: s => target = Some (act_frame a) /\ act_frame a < n /\ nested_frames (act_saved a) (act_frame a) s
  end.

Definition targets (s : state) : Prop := nested_frames (signalReturnEnv (proc s)) (frames (proc s)) (stack s).

Lemma nested_more (target : option nat) (n m : nat) (s : list activation) : n <= m -> nested_frames target n s -> nested_frames target m s.
Proof. intros L. destruct s as [|a s]; [auto|]. intros (H1 & H2 & H3). split; [exact H1|]. split; [lia|exact H3]. Qed.

Lemma frames_below (s : list activation) : forall (target : option nat) (n : nat), nested_frames target n s -> Forall (fun a => act_frame a < n) s.
Proof.
  induction s as [|a s IH]; intros t n H; [constructor|]. destruct H as (_ & H2 & H3). constructor; [exact H2|].
  eapply Forall_impl; [|exact (IH _ _ H3)]. cbn. lia.
Qed.

Lemma targets_same (s : list activation) (cs cs' : list nat) (w w' : party) (p q : process) : same_target p q ->
  targets (State s cs w p) -> targets (State s cs' w' q).
Proof. unfold targets. cbn [proc stack]. intros [-> ->]. auto. Qed.

Lemma targets_function_ends (a : activation) (s : list activation) (cs : list nat) (p q : process) : same_target p q ->
  targets (State (a :: s) cs TheContract p) -> targets (function_ends a s cs q).
Proof.
  intros [E1 E2] (H1 & H2 & H3). unfold function_ends. cbn [proc] in *.
  assert (R : targets (State s cs TheEmbedder (release (restore a q)))).
  { apply (targets_same s cs cs TheEmbedder TheEmbedder _ _ (release_target _)). unfold targets. cbn. rewrite E2.
    apply (nested_more _ (act_frame a)); [lia|exact H3]. }
  destruct (act_starting a); [|exact R]. destruct (check_parameters _ _); [exact R|].
  unfold targets. cbn. split; [reflexivity|]. split; [lia|]. rewrite E2. apply (nested_more _ (act_frame a)); [lia|exact H3].
Qed.

Lemma targets_proceeds (s t : state) : targets s -> proceeds s t -> targets t.
Proof.
  intros T St. destruct St as [s cs p k w|s cs p p' cc cr args a E|s cs p p' cc cr args r E N|s cs a p m b E|s cs n a b p call r c _ _ _ R E
    |s cs n a b p call r e c _ R E|s cs n a b p address size action action_size r c _ R E|s cs n a p E|s cs a p|s cs n a b p code r c _ R E _|s cs b p _ _].
  - exact T.
  - apply execute_target in E as (E1 & E2 & E3 & E4). unfold targets in *. cbn [proc stack nested_frames] in *. rewrite E1, E2, E3, E4.
    split; [reflexivity|]. split; [lia|exact T].
  - apply execute_target in E. destruct r as [a| |]; [now destruct (N a)|exact (targets_same _ _ _ _ _ _ _ E T)..].
  - exact T.
  - exact (targets_same _ _ _ _ _ _ _ (store_target a c p) T).
  - exact (targets_same _ _ _ _ _ _ _ (store_target a (with_embedder (fst (world c)) c) p) T).
  - exact (targets_same _ _ _ _ _ _ (set_theMemoryInstance None (store_context a c p)) (store_target a c p) T).
  - exact T.
  - apply (targets_function_ends a s cs p); [split; reflexivity|exact T].
  - exact (targets_function_ends b s cs p _ (store_target a c p) T).
  - destruct T as (H1 & H2 & H3). apply (targets_same s cs cs TheEmbedder TheEmbedder _ _ (release_target _)). unfold targets. cbn.
    apply (nested_more _ (act_frame b)); [cbn in *; lia|exact H3].
Qed.

Lemma targets_orderly (s t : state) : orderly s t -> targets s -> targets t.
Proof. induction 1 as [|s t u _ IH St]; [auto|]. intros T. exact (targets_proceeds _ _ (IH T) St). Qed.

Lemma orderly_steps (s t : state) : orderly s t -> steps s t.
Proof. induction 1 as [|s t u _ IH St]; [constructor|]. econstructor; [exact IH|now constructor]. Qed.

Lemma unwinds_target (s t : state) : unwinds s t ->
  exists b, stack s = b :: stack t /\ same_target (proc s) (proc t).
Proof.
  intros St. destruct St as [s cs n a b p call e c _ _ _|s cs n a b p call e f c _ _ _|s cs b p name _ _|s cs b p]; exists b; (split; [reflexivity|]); cbn [proc].
  - exact (same_target_trans _ _ _ (store_target a c p) (release_target _)).
  - exact (same_target_trans _ _ _ (store_target a _ p) (release_target _)).
  - apply release_target.
  - apply release_target.
Qed.
(** A step that ends a run without an exception, or a function of it *)
Lemma function_ends_operand (a : activation) (s : list activation) (cs : list nat) (p : process) :
  control (function_ends a s cs p) = TheEmbedder -> signalOperand (proc (function_ends a s cs p)) = None.
Proof.
  unfold function_ends. assert (R : forall q : process, signalOperand (release q) = signalOperand q).
  { intros q. unfold release, freeUnreferencedObjects. destruct (use_count _); [destruct (heap _)|]; reflexivity. }
  destruct (act_starting a); [destruct (check_parameters _ _)|]; cbn [proc control]; try discriminate; intros _; rewrite R; reflexivity.
Qed.

Lemma proceeds_operand (s t : state) : proceeds s t -> control s = TheContract -> control t = TheEmbedder ->
  length (callers t) <= length (callers s) -> signalOperand (proc t) = None.
Proof.
  intros St. destruct St; cbn [control callers length]; try discriminate; intros _ Hc Hl; try discriminate Hc; try lia;
    try (now apply function_ends_operand).
  cbn [proc]. unfold release, freeUnreferencedObjects. destruct (use_count _); [destruct (heap _)|]; reflexivity.
Qed.

End Targets.

(** ** Witnesses *)
Local Open Scope Z_scope.

(** A contract whose apply takes the name of the action, with three bytes in its memory, which imports call_action and
    ftl_exit; every intrinsic is there. *)
Definition entry_code : list Z :=
  [0; 97; 115; 109; 1; 0; 0; 0;
   1; 20; 3; 0x60; 1; 0x7e; 0; 0x60; 7; 0x7f; 0x7f; 0x7f; 0x7f; 0x7e; 0x7f; 0x7f; 1; 0x7f; 0x60; 1; 0x7f; 0;
   2; 34; 2; 3; 101; 110; 118; 11; 99; 97; 108; 108; 95; 97; 99; 116; 105; 111; 110; 0; 1;
   3; 101; 110; 118; 8; 102; 116; 108; 95; 101; 120; 105; 116; 0; 2;
   3; 2; 1; 0;
   5; 4; 1; 1; 1; 2;
   7; 18; 2; 6; 109; 101; 109; 111; 114; 121; 2; 0; 5; 97; 112; 112; 108; 121; 0; 2;
   10; 4; 1; 2; 0; 0x0b;
   11; 9; 1; 0; 0x41; 16; 0x0b; 3; 1; 2; 3].
Definition entry_module : Module := match parse_module entry_code with Some (m, _) => m | None => no_module end.

#[local] Existing Instance wrapping.
#[export] Instance sample_engine : Engine := { intrinsic _ _ _ := true; cb_sha256 bytes := bytes }.

Definition sample_arguments (code : list Z) : arguments :=
  let address := repeat 7 20 in Arguments code [1; 2; 3; 4; 5; 6; 7; 8; 9] address address address address 0 0 0.
Definition sample_idle : @state store := idle (fun _ => 5000) [] None None.
Definition sample_imports : list (string * string) :=
  [("eosio_injection", "use_gas"); ("env", "call_action"); ("env", "ftl_exit")]%string.
Definition sample_activation (m : nat) (saved : option nat) : activation :=
  Activation (sample_arguments entry_code) (Some m) (Function rt_none [vt_i64]) [0x0807060504030201] sample_imports false m saved.
Definition outer : activation := sample_activation 0 None.
Definition inner : activation := sample_activation 1 (Some 0%nat).

Lemma execute_surjective (d : nat) (args : arguments) (p : @process store) (r : progress) :
  fst (execute true true d args p) = r -> execute true true d args p = (r, snd (execute true true d args p)).
Proof. intros <-. apply surjective_pairing. Qed.

(** The first run, its call of another contract, the run of that one, and its answer *)
Definition first_process : @process store := snd (execute true true 0 (sample_arguments entry_code) (proc sample_idle)).
Definition called_context : @wasm_context store := snd (before_callback 0 20 0 0 (context_of outer first_process)).
Definition called_process : @process store :=
  set_theMemoryInstance None (store_context outer called_context first_process).
Definition second_process : @process store := snd (execute true true 1 (sample_arguments entry_code) called_process).
Definition wrote_process : @process store := assign_memory 1 (Memory 1 1 2 (fun _ => 255)) second_process.
Definition ended_process : @process store := release (restore inner wrote_process).
Definition back_process : @process store :=
  set_theMemoryInstance (Some 0%nat) (set_running (Some 0%nat) (Some 0%nat) ended_process).
Definition sample_first : @state store := State [outer] [] TheContract first_process.
Definition sample_called : @state store := State [outer] [0%nat] TheEmbedder called_process.
Definition sample_wrote : @state store := State [inner; outer] [0%nat] TheContract wrote_process.
Definition sample_ended : @state store := State [outer] [0%nat] TheEmbedder ended_process.
Definition sample_back : @state store := State [outer] [] TheContract back_process.

Lemma sample_starts : proceeds sample_idle sample_first.
Proof.
  apply (embedder_executes [] [] _ first_process true true (sample_arguments entry_code)).
  apply execute_surjective. vm_compute. reflexivity.
Qed.

Lemma sample_calls : proceeds sample_first sample_called.
Proof.
  apply (action_called [] [] 0 outer outer first_process 0 20 0 0 (repeat 0 16 ++ [1; 2; 3; 0], []) called_context);
    [right; now left|vm_compute; reflexivity|].
  unfold called_context. rewrite (surjective_pairing (before_callback _ _ _ _ _)). f_equal.
Qed.

Lemma sample_second :
  proceeds sample_called (State [inner; outer] [0%nat] TheContract second_process).
Proof.
  apply (embedder_executes [outer] [0%nat] called_process second_process true true (sample_arguments entry_code)).
  apply execute_surjective. vm_compute. reflexivity.
Qed.

Lemma sample_writes : proceeds (State [inner; outer] [0%nat] TheContract second_process) sample_wrote.
Proof. apply (contract_computes [outer] [0%nat] inner). reflexivity. Qed.

Lemma sample_ends : proceeds sample_wrote sample_ended.
Proof. apply (function_returns [outer] [0%nat] inner). Qed.

Lemma sample_returns : proceeds sample_ended sample_back.
Proof. apply (callback_returns [outer] [] 0 outer ended_process). reflexivity. Qed.

Lemma sample_nested : during 0 sample_called sample_ended.
Proof.
  econstructor; [|exact (step_proceeds _ _ sample_ends)|cbn; lia]. econstructor; [|exact (step_proceeds _ _ sample_writes)|cbn; lia].
  econstructor; [constructor|exact (step_proceeds _ _ sample_second)|cbn; lia].
Qed.

(** In the nested run: two runs with the memories 1 and 0. *)
Lemma sample_reaches : orderly sample_idle sample_wrote.
Proof.
  econstructor; [|exact sample_writes]. econstructor; [|exact sample_second]. econstructor; [|exact sample_calls].
  econstructor; [constructor|exact sample_starts].
Qed.

Lemma reachable_runs_witness :
  memories_of (stack sample_wrote) = [1%nat; 0%nat] /\ use_count (proc sample_wrote) = 2%nat /\
  running (stack sample_wrote) (proc sample_wrote) = Some (1%nat, inner).
Proof.
  destruct (reachable_runs _ _ _ _ _ (orderly_steps _ _ sample_reaches)) as (A & _ & _ & _ & B & _). split; [reflexivity|]. split; [exact A|].
  destruct (B eq_refl) as (a & rest & E & R & _). injection E as <- <-. exact R.
Defined.

Lemma nested_calls_isolated_witness :
  stack sample_back = stack sample_first /\ theMemoryInstance (proc sample_back) = running_memory (proc sample_first) /\
  nth_error (heap (proc sample_back)) 0 = nth_error (heap (proc sample_first)) 0.
Proof.
  destruct (nested_calls_isolated _ _ _ _ _ _ _ _ (steps_next _ _ _ (steps_refl _) (step_proceeds _ _ sample_starts))
    (step_proceeds _ _ sample_calls) ltac:(cbn; lia) sample_nested (step_proceeds _ _ sample_returns) ltac:(cbn; lia))
    as (A & _ & _ & _ & _ & B & _ & D).
  split; [exact A|]. split; [exact B|]. apply D. left. reflexivity.
Defined.

