(* ===== verification/ExecuteCorrect.v ===== *)
(** What execute and validate answer, from the bytes of a module: the reader, the validation, injection, the writer,
    linking and instantiation composed. *)
From Stdlib Require Import ZArith Bool Lia String List.
From S2P Require Import Prelude Exceptions Memory Opcodes Ops OpsProofs Injection Linking InjectCorrect.
From S2P Require Import Validation ValidationProofs Host HostCorrect Execute ExecuteProofs.
From S2P Require Import Serialization SerializationProofs IR IRProofs Binary BinaryProofs ModuleProofs ReadBack InjectValid InjectedBinary.
Import ListNotations.
Local Open Scope Z_scope.

Lemma find_map {A B} (f : A -> B) (q : B -> bool) (l : list A) : List.find q (map f l) = option_map f (List.find (fun x => q (f x)) l).
Proof. induction l as [|x l IH]; [reflexivity|]. cbn [map List.find]. destruct (q (f x)); [reflexivity|exact IH]. Qed.

Lemma find_same {A} (q r : A -> bool) (l : list A) : (forall x, q x = r x) -> List.find q l = List.find r l.
Proof. intros H. induction l as [|x l IH]; [reflexivity|]. cbn [List.find]. now rewrite H, IH. Qed.

(** The exported functions exist, as the engine has checked. *)
Definition exports_exist (m : Module_) : Prop :=
  Forall (fun e => kind e = function -> 0 <= index e /\ getType m (index e) <> None) (exports m).

(** Injection keeps the entry point. *)
Lemma entry_point_moved (m m' : Module_) (opss : list (list instr)) (names : list injected) :
  rewritten m opss names m' -> length (defs m) = length opss -> exports_exist m -> entry_point m' = entry_point m.
Proof.
  intros R L X. unfold entry_point. rewrite (rewritten_exports _ _ _ _ R), find_map.
  rewrite (find_same _ (fun e => String.eqb (export_name e) "apply")) by (intros e; unfold shift_export_by; now destruct (kind e)).
  destruct (List.find _ (exports m)) as [e|] eqn:F; [|reflexivity]. cbn [option_map].
  apply find_some in F as [I _]. unfold exports_exist in X. rewrite Forall_forall in X. specialize (X e I).
  unfold is_function, shift_export_by. destruct (kind e) eqn:K; cbn [kind index]; rewrite ?K; try reflexivity.
  destruct (X eq_refl) as [P T]. destruct (getType m (index e)) as [t|] eqn:G; [|congruence].
  exact (getType_moved m m' opss names (index e) t R L P G).
Qed.

(** What injection made, as it is seen when the module is entered *)
Lemma entry_point_view (m : Module) (m' : Module_) (opss : list (list instr)) (names : list injected) : rewritten (as_module m) opss names m' ->
  entry_point (as_module (with_injected m m')) = entry_point m'.
Proof.
  intros Wr. unfold entry_point. cbn [exports as_module m_exports with_injected]. destruct (List.find _ (exports m')) as [e|]; [|reflexivity].
  destruct (is_function e); [|reflexivity]. unfold getType. cbn [imports as_module types defs m_functions m_types with_injected space_imports space_defs].
  rewrite map_map, (map_ext _ (fun i => i)), map_id by (intros []; reflexivity).
  rewrite (rewritten_defs _ _ _ _ Wr). cbn [defs as_module]. rewrite map_map.
  assert (E : forall ds (opss : list (list instr)), map (fun x : FunctionDefinition * FunctionDef => def (let '(d, fd) := x in Definition_ fd (branchTables d)))
      (combine ds (map (fun '(fd, ops) => with_code fd (encode_all (finished names true ops))) (combine (map def ds) opss))) =
      map (fun '(fd, ops) => with_code fd (encode_all (finished names true ops))) (combine (map def ds) opss)).
  { induction ds as [|d ds IH]; intros [|ops l]; try reflexivity. cbn [map combine]. f_equal. apply IH. }
  now rewrite E.
Qed.

(** Types of functions, by the engine and by the validation of wasmlib *)
Lemma getType_index (m : Module) (f : Z) : f < space_size (m_functions m) -> getType (as_module m) f = validateFunctionIndex m f.
Proof.
  intros L. unfold getType, validateFunctionIndex, valid_index, space_type. cbn [imports as_module types defs].
  assert (E : Injection.size (map as_import (space_imports (m_functions m))) = size (space_imports (m_functions m)))
    by (unfold Injection.size, size; now rewrite length_map).
  rewrite E. destruct (Z.leb_spec (space_size (m_functions m)) f); [lia|]. cbn [negb]. rewrite !nth_error_map.
  destruct (f <? _); destruct (nth_error _ _); reflexivity.
Qed.

Lemma types_found (m : Module) (f : Z) : validateDefinitions m = true -> writable m -> 0 <= f < space_size (m_functions m) ->
  validateFunctionIndex m f <> None.
Proof.
  intros V W Lf. unfold validateFunctionIndex, valid_index, space_type. destruct (Z.leb_spec (space_size (m_functions m)) f); [lia|]. cbn [negb].
  destruct (function_imports_able _ W) as (A & Lt & _), (functions_able _ W) as [B _]. unfold space_size in Lf.
  assert (G : forall t, 0 <= t < size (m_types m) -> nth_error (m_types m) (Z.to_nat t) <> None) by (intros t Ht; apply nth_error_Some; unfold size in Ht; lia).
  destruct (Z.ltb_spec f (size (space_imports (m_functions m)))) as [L|L].
  - destruct (nth_error (space_imports (m_functions m)) (Z.to_nat f)) as [i|] eqn:N; [|apply nth_error_None in N; unfold size in *; lia].
    cbn [option_map]. apply G. apply nth_error_In in N. rewrite Forall_forall in A, Lt. specialize (Lt i N).
    destruct (A i N) as (bs & xs & ys & zs & _ & _ & _ & S). assert (R : able serializeVarUInt32 (of_type i)) by now exists zs.
    apply able_var32 in R. lia.
  - destruct (nth_error (space_defs (m_functions m)) (Z.to_nat (f - size (space_imports (m_functions m))))) as [fd|] eqn:N;
      [|apply nth_error_None in N; unfold size in *; lia].
    cbn [option_map]. apply nth_error_In in N. rewrite Forall_forall in B. exact (G _ (B fd N)).
Qed.

Lemma valid_exports (m : Module) : validateDefinitions m = true -> writable m -> exports_exist (as_module m).
Proof.
  intros V W. apply Forall_forall. intros e I K. cbn [exports as_module] in I. pose proof V as X. unfold validateDefinitions in X.
  rewrite !andb_true_iff in X. destruct X as [[[[[_ X] _] _] _] _]. rewrite forallb_forall in X. specialize (X e I).
  unfold validate_Export in X. rewrite K in X. unfold valid_index in X. rewrite negb_true_iff, Z.leb_gt in X.
  destruct (exports_able _ W) as [A _]. rewrite Forall_forall in A. destruct (able_export e (A e I)) as (_ & _ & Hi).
  split; [lia|]. rewrite getType_index by exact X. apply types_found; auto. lia.
Qed.

(** The memory that [theMemoryInstance] points to can be used. *)
Definition memory_ready {W} (p : @process W) : Prop := forall k, theMemoryInstance p = Some k ->
  exists old, nth_error (heap p) k = Some old /\ 1 <= numPages old <= 65536.

(** The table segments lie in the tables. *)
Definition elements_fit (m : Module) : bool := forallb (segment_in_table (map (fun t => fst (table_size t)) (space_defs (m_tables m)))) (m_tableSegments m).

(** The tables of a module that has been read can be created. *)
Lemma tables_created (m : Module) : validateDefinitions m = true -> writable m ->
  createTables true (space_defs (m_tables m)) = Value (map (fun t => fst (table_size t)) (space_defs (m_tables m))).
Proof.
  intros V W. destruct (tables_able _ W) as [A _]. pose proof V as X. unfold validateDefinitions in X. rewrite !andb_true_iff in X.
  destruct X as [[[[[[[[[_ X] _] _] _] _] _] _] _] _]. clear -A X. induction (space_defs (m_tables m)) as [|t l IH]; [reflexivity|].
  cbn [forallb] in X. rewrite andb_true_iff in X. destruct X as [X1 X2]. inversion_clear A as [|? ? A1 A2]. cbn [createTables map].
  assert (E : createTable true t = Some (fst (table_size t))).
  { pose proof (able_table t A1) as [B C]. unfold validate_TableType, validate_size in X1. rewrite !andb_true_iff, !negb_true_iff, !Z.ltb_ge in X1.
    destruct X1 as [_ [X1 _]]. unfold createTable, growTable. destruct (Z.ltb_spec 0 (fst (table_size t))) as [P|P]; [|f_equal; lia].
    assert (L : fst (table_size t) <= snd (table_size t) < 2 ^ 64).
    { destruct (Z.eqb_spec (snd (table_size t)) UINT64_MAX) as [E|]; unfold UINT64_MAX, UINT32_MAX in *; lia. }
    destruct (Z.ltb_spec (snd (table_size t)) (fst (table_size t))); [lia|]. rewrite uwrap_small by lia.
    destruct (Z.ltb_spec (snd (table_size t) - fst (table_size t)) 0); [lia|reflexivity]. }
  rewrite E, IH by assumption. reflexivity.
Qed.

Lemma elements_kept (m : Module) (m' : Module_) (opss : list (list instr)) (names : list injected) : rewritten (as_module m) opss names m' ->
  elements_fit (with_injected m m') = elements_fit m.
Proof.
  intros Wr. unfold elements_fit. cbn [m_tables m_tableSegments with_injected]. rewrite (rewritten_tables _ _ _ _ Wr). cbn [tableSegments as_module].
  generalize (map (fun t => fst (table_size t)) (space_defs (m_tables m))). intros ns. induction (m_tableSegments m) as [|x l IH]; [reflexivity|].
  cbn [map combine forallb]. rewrite IH. f_equal. unfold segment_in_table. cbn [tableIndex table_offset indices]. unfold Injection.size.
  now rewrite length_map.
Qed.

Section Answers.
Context {W : Type} {C : Callbacks W} {En : Engine}.
Abbreviation process := (@process W).

Lemma grow_new (min max : Z) : 0 <= min <= max -> max < 2 ^ 64 ->
  exists c, growMemory true (Memory 0 min max (fun _ => 0)) min = (0, Memory min min max c).
Proof.
  intros H1 H2. unfold growMemory, set_pages. cbn [numPages size_min size_max contents].
  destruct (Z.ltb_spec 0 min) as [L|L].
  - destruct (Z.ltb_spec max min); [lia|]. rewrite uwrap_small by lia. destruct (Z.ltb_spec (max - min) 0); [lia|].
    eexists. reflexivity.
  - replace min with 0 by lia. eexists. reflexivity.
Qed.

(** The memory of an instance: the one that is there, or a new one *)
Lemma instance_memory_spec (m : Module) (p : process) (min max : Z) (rest : list (Z * Z)) :
  space_defs (m_memories m) = (min, max) :: rest -> 0 <= min <= 65536 -> min <= max < 2 ^ 64 -> memory_ready p ->
  exists a q old, instance_memory true m p = (Value (Some a), q) /\ nth_error (heap q) a = Some old /\
    (1 <= numPages old <= 65536 \/ min = 0 /\ numPages old = 0).
Proof.
  intros E Hmin Hmax R. unfold instance_memory. rewrite E. destruct (theMemoryInstance p) as [a|] eqn:T.
  - destruct (R a T) as (old & N & B). exists a, p, old. auto.
  - unfold pbind, createMemory. cbn [fst snd]. destruct (grow_new min max) as (c & ->); [lia|lia|]. cbn. eexists _, _, _. split; [reflexivity|].
    split; [cbn; now rewrite nth_error_app2, Nat.sub_diag by lia|]. cbn. lia.
Qed.

(** The links of a module are all found, or it is refused. *)
Lemma link_imports_cases {T} (v : bool) (type_of : T -> option FunctionType) (l : list (ImportOf T)) :
  link_imports v type_of l = Value tt \/ link_imports v type_of l = Throw wasm_runtime_exception.
Proof.
  induction l as [|i l IH]; [now left|]. cbn [link_imports]. unfold resolve.
  destruct (v && _)%bool; cbn [negb FTL_ASSERT rbind]; [now right|]. destruct (_ && _)%bool; cbn [rbind]; [exact IH|now right].
Qed.

Lemma linkModule_cases (v : bool) (m : Module) : linkModule v m = Value tt \/ linkModule v m = Throw wasm_runtime_exception.
Proof.
  unfold linkModule. repeat match goal with |- context [link_imports v ?t ?l] => destruct (link_imports_cases v t l) as [E|E]; rewrite E; clear E; cbn [rbind] end;
    auto.
Qed.

(** A contract that the engine reads, and its injected form, which it writes and reads back if its memory fits *)
Record prepared (code : list Z) (m : Module) (m' : Module_) (opss : list (list instr)) (names : list injected) : Prop := {
  prepared_read : read_module code = Value m;
  prepared_valid : validateDefinitions m = true;
  prepared_parts : writable m;
  prepared_inject : inject (as_module m) = Value m';
  prepared_form : injected_module m opss names m';
  prepared_ready : ready (as_module m) opss;
  prepared_again : exists bytes, write_module (with_injected m m') = Value bytes /\
    read_module bytes = if memory_fits m then Value (with_injected m m') else Throw wasm_serialization_exception
}.

(** The engine prepares what it reads. *)
Lemma read_prepared (code : list Z) (m : Module) (us : list UserSection) : Forall is_byte code -> size code < 2 ^ 31 ->
  parse_module code = Some (m, us) -> coded m -> ends_once m = true -> room m = true ->
  exists opss names m', inject (as_module m) = Value m' /\ (too_long (with_injected m m') \/ prepared code m m' opss names).
Proof.
  intros Hl Ll H Cd E R. destruct (parsed_parts code m us Hl Ll H Cd) as (V & Wt & B).
  destruct (read_functions m _ B) as (opss & F & Sh). destruct (read_injected m opss V Wt F Sh E) as (names & m' & Rd & I & J).
  exists opss, names, m'. split; [exact I|]. destruct (injected_again m opss names m' V Wt F J R) as [Big|(bs & Wr & Rb)]; [now left|right].
  constructor; try assumption; [unfold read_module; now rewrite H|]. exists bs. unfold write_module, read_module. rewrite Wr, Rb.
  split; [reflexivity|]. destruct (memory_fits m); reflexivity.
Qed.

(** The memories of the injected module are those of the module, with another maximum. *)
Lemma injected_minimum (m : Module) (m' : Module_) (opss : list (list instr)) (names : list injected) : rewritten (as_module m) opss names m' ->
  map fst (space_defs (m_memories (with_injected m m'))) = map fst (space_defs (m_memories m)).
Proof.
  intros Wr. cbn [m_memories with_injected space_defs]. rewrite (rewritten_memories _ _ _ _ Wr). cbn [memories as_module]. unfold max_memory_injection.
  destruct (space_defs (m_memories m)) as [|[min max] l]; [reflexivity|]. destruct (_ <? max); reflexivity.
Qed.

Lemma injected_maximum (m : Module) (m' : Module_) (opss : list (list instr)) (names : list injected) (min max : Z) (rest : list (Z * Z)) :
  rewritten (as_module m) opss names m' -> validateDefinitions m = true -> writable m -> space_defs (m_memories m) = (min, max) :: rest ->
  0 <= min <= 65536 /\ exists max' rest', space_defs (m_memories (with_injected m m')) = (min, max') :: rest' /\ max' <= 528 /\
    (memory_fits m = true -> min <= max').
Proof.
  intros Wr V Wt E. destruct (memories_able _ Wt) as [A _]. rewrite E in A. inversion_clear A as [|? ? A1 _]. apply able_memory in A1 as [A1 A2].
  pose proof (valid_memories m V) as X. rewrite E in X. cbn [forallb] in X. rewrite andb_true_iff in X. destruct X as [X _].
  unfold validate_MemoryType, validate_size in X. cbn [fst snd] in *. rewrite andb_true_iff, !negb_true_iff, !Z.ltb_ge in X.
  assert (B : min <= max /\ min <= 65536).
  { destruct (Z.eqb_spec max UINT64_MAX) as [U|]; unfold UINT64_MAX, maxMemoryPages in *; lia. }
  split; [lia|]. cbn [m_memories with_injected space_defs]. rewrite (rewritten_memories _ _ _ _ Wr). cbn [memories as_module].
  unfold memory_fits. rewrite E. unfold max_memory_injection, max_pages. change (maximum_linear_memory / wasm_page_size) with 528.
  destruct (Z.ltb_spec 528 max) as [L|L].
  - exists 528, rest. split; [reflexivity|]. split; [lia|]. lia.
  - exists max, rest. split; [reflexivity|]. split; lia.
Qed.

Lemma get_instance_spec (id code : list Z) (m : Module) (m' : Module_) opss names (p : process) : prepared code m m' opss names ->
  get_instantiated_module true [] id code p =
    match parse_initial_memory (map fst (space_defs (m_memories m))) (m_dataSegments m) with
    | Throw e => (Throw e, p)
    | Value image =>
        if memory_fits m then
          match linkModule false (with_injected m m') with
          | Throw e => (Throw e, p)
          | Value _ =>
              match instantiateModule true (with_injected m m') p with
              | (Throw e, q) => (Throw e, q)
              | (Value a, q) => (Value (Instance image a (with_injected m m'), [(id, Instance image a (with_injected m m'))]), q)
              end
          end
        else (Throw wasm_serialization_exception, p)
    end.
Proof.
  intros [P _ _ I [_ Wr _ _ _ _ _ _] _ (bytes & Pr & Pb)]. unfold get_instantiated_module, instantiate_module. cbn [lookup].
  unfold pbind, lift, pret. rewrite P, I, Pr, (injected_minimum _ _ _ _ Wr). cbn [m_dataSegments with_injected].
  destruct (parse_initial_memory _ _) as [e|image]; [reflexivity|]. rewrite Pb. destruct (memory_fits m); [|reflexivity].
  destruct (linkModule false _) as [e|]; [reflexivity|]. destruct (instantiateModule _ _ _) as [[?|?] ?]; reflexivity.
Qed.

(** Instantiation, when nothing is imported but functions *)
Lemma instantiate_spec (m : Module) (m' : Module_) opss names (code : list Z) (p : process) : prepared code m m' opss names ->
  instantiateModule true (with_injected m m') p =
    match instance_memory true (with_injected m m') p with
    | (Value a, q) => if elements_fit m then (Value a, q) else (Throw invalidSegmentOffset, q)
    | (Throw e, q) => (Throw e, q)
    end.
Proof.
  intros [_ V Wt _ [_ Wr _ _ _ _ _ _] _ _]. unfold instantiateModule, pbind, lift, pret.
  change (m_tables (with_injected m m')) with (m_tables m). rewrite (tables_created m V Wt).
  destruct (instance_memory _ _ _) as [[e|a] q]; [reflexivity|].
  pose proof (elements_kept m m' opss names Wr) as E. unfold elements_fit at 1 in E. change (m_tables (with_injected m m')) with (m_tables m) in E.
  rewrite E. destruct (elements_fit m); reflexivity.
Qed.

(** What is invoked first *)
Definition first_function (mc : Module) (run : bool -> nat -> option nat -> activation) (t : FunctionType) (p : process)
    : result (option activation) * process :=
  if negb (m_start mc =? UINTPTR_MAX) then (Value (Some (run true (frames p) (signalReturnEnv p))), enter p)
  else if list_eqb (parameters t) [vt_i64] then (Value (Some (run false (frames p) (signalReturnEnv p))), enter p)
  else (Throw invokeSignatureMismatch, p).

Lemma invoked_first (mc : Module) (run : bool -> nat -> option nat -> activation) (t : FunctionType) (v : Z) (p : process) :
  (if negb (m_start mc =? UINTPTR_MAX) then invoke (run true) else pbind (lift (check_parameters t [v])) (fun _ => invoke (run false))) p =
  first_function mc run t p.
Proof.
  unfold first_function, check_parameters. cbn [map]. destruct (negb _); [reflexivity|]. unfold pbind, lift.
  destruct (list_eqb _ _); reflexivity.
Qed.

(** The call of a contract whose memory has been found *)
Lemma call_spec (d : nat) (args : arguments) (image : list Z) (a : nat) (mc : Module) (q : process) (t : FunctionType)
    (min max : Z) (rest : list (Z * Z)) (old : MemoryInstance) :
  entry_point (as_module mc) = Some t -> space_defs (m_memories mc) = (min, max) :: rest -> nth_error (heap q) a = Some old ->
  call_apply true d args (Instance image (Some a) mc) q =
    if Injection.size (parameters t) =? 1 then
      match prepare_memory true old min max image with
      | Some b => first_function mc (Activation args (Some a) t [u64 (action_name args)] (imported mc)) t (set_running (Some a) (Some d) (assign_memory a b q))
      | None => (Throw outOfMemory, q)
      end
    else (Throw wasm_runtime_exception, q).
Proof.
  intros E M N. unfold call_apply, pbind, lift. cbn [instance_module]. rewrite E. change (Injection.size [_]) with 1. destruct (_ =? 1); cbn [FTL_ASSERT]; [|reflexivity].
  unfold reset_default. cbn [default_memory instance_module initial_memory]. rewrite M, N.
  destruct (prepare_memory _ _ _ _ _) as [b|]; [|reflexivity]. now rewrite <- (invoked_first _ _ _ (u64 (action_name args))).
Qed.

(** What execute answers for a module that the engine has read, and that injection makes [F] of: a code, an exception that
    it does not catch, or a call: of the start function of the module, or of its apply of type [t]. *)
Inductive answer : Type := Answers (code : Z) | Leaves | Enters (starting : bool) (t : FunctionType).
Definition called (F : Module) (t : FunctionType) : answer :=
  if negb (m_start F =? UINTPTR_MAX) then Enters true t
  else if list_eqb (parameters t) [vt_i64] then Enters false t else Leaves.
Definition answer_to (m F : Module) : answer :=
  match parse_initial_memory (map fst (space_defs (m_memories m))) (m_dataSegments m) with
  | Throw _ => Answers 20003
  | Value _ =>
      if negb (memory_fits m) then Answers 20004
      else match linkModule false F with
           | Throw _ => Answers 20003
           | Value _ =>
               if negb (elements_fit m) then Leaves
               else match entry_point (as_module m) with
                    | None => Answers 0
                    | Some t =>
                        if negb (Injection.size (parameters t) =? 1) then Answers 20003
                        else match space_defs (m_memories m) with
                             | (0, _) :: _ => Leaves
                             | _ => called F t
                             end
                    end
           end
  end.

(** The memory that a contract is called with *)
Definition fresh_memory (m : Module) (mem : option nat) (p : process) : Prop :=
  match space_defs (m_memories m) with
  | [] => mem = None
  | (min, _) :: _ => exists a b, mem = Some a /\ nth_error (heap p) a = Some b /\ theMemoryInstance p = Some a /\
      numPages b = min /\ size_max b <= 528 /\ forall i, 0 <= i < memory_bytes b -> contents b i = initial_byte (m_dataSegments m) i
  end.

Definition answered (d : nat) (args : arguments) (m F : Module) (p : process) (a : answer) (r : progress * process) : Prop :=
  match a with
  | Answers n => fst r = Returned n
  | Leaves => fst r = Escaped
  | Enters starting t => exists mem q,
      r = (Runs (Activation args mem t [u64 (action_name args)] (imported F) starting (frames p) (signalReturnEnv p)), q) /\
      signalReturnEnv q = Some (frames p) /\ running_ctx q = Some d /\ running_memory q = mem /\ fresh_memory m mem q
  end.

Lemma called_answered (d : nat) (args : arguments) (m F : Module) (mem : option nat) (t : FunctionType) (p q : process) :
  same_target p q -> running_ctx q = Some d -> running_memory q = mem -> fresh_memory m mem q ->
  answered d args m F p (called F t)
    (match first_function F (Activation args mem t [u64 (action_name args)] (imported F)) t q with
     | (Value (Some a), p) => (Runs a, p)
     | (r, p) => (outcome r, release p)
     end).
Proof.
  intros [E1 E2] Rc Rm Fm. unfold called, first_function. rewrite E1, E2.
  destruct (negb _); [|destruct (list_eqb _ _); [|reflexivity]]; eexists _, _; (split; [reflexivity|]); cbn; rewrite E2; auto.
Qed.

Lemma parse_throws (mins : list Z) (segments : list DataSegment) : forall (image : list Z) (e : exception),
  parse_segments mins segments image = Throw e -> e = wasm_runtime_exception.
Proof.
  induction segments as [|x l IH]; intros image e; [discriminate|]. cbn [parse_segments].
  destruct (parse_segment mins image x) as [e'|i] eqn:E; [|apply IH]. intros [= <-]. unfold parse_segment in E.
  destruct (baseOffset x), mins; try (injection E as <-; reflexivity). destruct (_ || _); [now injection E as <-|discriminate].
Qed.

(** A module whose initial memory can be made has its data segments in its memory. *)
Lemma parse_fits (min : Z) (rest : list Z) (segments : list DataSegment) (image : list Z) : 0 <= min <= 65536 ->
  parse_initial_memory (min :: rest) segments = Value image -> Forall (segment_fits min) segments.
Proof.
  intros Hmin. unfold parse_initial_memory. assert (I0 : Memory.size (@nil Z) <= min * numBytesPerPage) by (unfold Memory.size, numBytesPerPage; cbn; lia).
  revert I0. generalize (@nil Z) as acc. induction segments as [|s l IH]; intros acc I0 H; [constructor|]. cbn [parse_segments] in H.
  destruct (parse_segment (min :: rest) acc s) as [e|acc1] eqn:E; [discriminate|].
  assert (Fs : segment_fits min s).
  { unfold parse_segment in E. destruct (baseOffset s) as [b| | | | |] eqn:Bo; try discriminate. cbv zeta in E.
    destruct (_ || _) eqn:O in E; [discriminate|]. apply orb_false_iff in O as [O1 O2]. apply Z.leb_gt in O1. apply Z.ltb_ge in O2.
    assert (Mb : u64 (Z.shiftl min numBytesPerPageLog2) = min * numBytesPerPage).
    { unfold numBytesPerPageLog2, numBytesPerPage. rewrite Z.shiftl_mul_pow2 by lia. apply uwrap_small. lia. }
    rewrite Mb in *. exists b. auto. }
  constructor; [exact Fs|]. destruct (parse_segments_fit min rest [s] Hmin ltac:(repeat constructor; exact Fs) acc I0) as (acc' & E' & I' & _).
  cbn [parse_segments] in E'. rewrite E in E'. cbn [rbind] in E'. injection E' as <-. exact (IH acc1 I' H).
Qed.

Lemma execute_entered (d : nat) (args : arguments) (m : Module) (p : process) (m' : Module_) opss names (image : list Z) (q : process)
    (t : FunctionType) (min max : Z) (rest : list (Z * Z)) (a : nat) (old : MemoryInstance) :
  prepared (codeBytes args) m m' opss names -> parse_initial_memory (map fst (space_defs (m_memories m))) (m_dataSegments m) = Value image ->
  memory_fits m = true -> entry_point (as_module (with_injected m m')) = Some t ->
  space_defs (m_memories m) = (min, max) :: rest -> nth_error (heap q) a = Some old -> theMemoryInstance q = Some a ->
  (1 <= numPages old <= 65536 \/ min = 0 /\ numPages old = 0) -> same_target p q ->
  answered d args m (with_injected m m') p
    (if negb (Injection.size (parameters t) =? 1) then Answers 20003 else match min with 0 => Leaves | _ => called (with_injected m m') t end)
    (match call_apply true d args (Instance image (Some a) (with_injected m m')) q with
     | (Value (Some a), p) => (Runs a, p)
     | (r, p) => (outcome r, release p)
     end).
Proof.
  intros [_ V Wt _ [_ Wr _ _ _ _ _ _] _ _] Pi Fit Ep M N T B St.
  destruct (injected_maximum m m' opss names min max rest Wr V Wt M) as (Hmin & max' & rest' & Mf & Hm & Hx). specialize (Hx Fit).
  rewrite (call_spec d args image a _ q t min max' rest' old Ep Mf N). destruct (Z.eqb_spec (Injection.size (parameters t)) 1) as [E1|N1]; cbn [negb]; [|reflexivity].
  rewrite M in Pi. pose proof (parse_fits _ _ _ _ Hmin Pi) as F.
  destruct (Z.eq_dec min 0) as [->|Nz].
  - cbn [answered]. unfold prepare_memory. replace (resetMemory true old 0 max') with (@None MemoryInstance); [reflexivity|].
    symmetry. destruct B as [B|[_ B]]; [apply reset_zero; lia|now apply reset_none].
  - destruct B as [B|[B _]]; [|contradiction].
    destruct (prepare_fit old min max' (map fst rest) (m_dataSegments m) B ltac:(lia) ltac:(lia) F) as (image' & b & Ei' & _ & Pb & Nb & _ & Xb & Cb).
    cbn [map fst] in Pi. rewrite Pi in Ei'. injection Ei' as <-. rewrite Pb.
    replace (match min with 0 => Leaves | _ => called (with_injected m m') t end) with (called (with_injected m m') t)
      by (destruct min; [contradiction|reflexivity|reflexivity]).
    assert (La : (a < List.length (heap q))%nat) by (apply nth_error_Some; congruence).
    apply called_answered; [exact St|reflexivity|reflexivity|]. unfold fresh_memory. rewrite M.
    exists a, b. split; [reflexivity|]. split; [exact (proj1 (proj2 (assign_heap a b q La)))|]. split; [exact T|]. split; [exact Nb|]. split; [lia|exact Cb].
Qed.

Lemma execute_prepared (d : nat) (args : arguments) (p : process) (m : Module) (m' : Module_) opss names :
  prepared (codeBytes args) m m' opss names -> memory_ready p ->
  answered d args m (with_injected m m') p (answer_to m (with_injected m m')) (execute true true d args p).
Proof.
  intros P R. pose proof P as [_ V Wt _ [_ Wr _ _ _ _ _ _] Rd _].
  assert (Ep : entry_point (as_module (with_injected m m')) = entry_point (as_module m)).
  { rewrite <- (entry_point_moved _ _ _ _ Wr); [|exact (Forall2_length _ _ _ (ready_code _ _ Rd))|exact (valid_exports m V Wt)].
    exact (entry_point_view m m' opss names Wr). }
  unfold execute, pbind. rewrite (get_instance_spec _ _ _ _ _ _ _ P). unfold answer_to.
  destruct (parse_initial_memory _ _) as [e|image] eqn:Pi; [now rewrite (parse_throws _ _ _ _ Pi)|].
  destruct (memory_fits m) eqn:Fit; cbn [negb]; [|reflexivity].
  destruct (linkModule_cases false (with_injected m m')) as [L|L]; rewrite L; [|reflexivity].
  rewrite (instantiate_spec _ _ _ _ _ _ P). pose proof (injected_minimum _ _ _ _ Wr) as Mn.
  destruct (space_defs (m_memories m)) as [|[min max] rest] eqn:M.
  - assert (Im : instance_memory true (with_injected m m') (acquire p) = (Value None, acquire p)).
    { unfold instance_memory. destruct (space_defs (m_memories (with_injected m m'))); [reflexivity|discriminate Mn]. }
    rewrite Im. destruct (elements_fit m); cbn [negb]; [|reflexivity]. unfold call_apply. cbn [fst instance_module]. rewrite Ep.
    destruct (entry_point (as_module m)) as [t|]; [|reflexivity]. unfold pbind, lift. change (Injection.size [u64 (action_name args)]) with 1.
    destruct (_ =? 1); cbn [FTL_ASSERT negb]; [|reflexivity]. cbn [reset_default default_memory instance_module].
    pose proof (called_answered d args m (with_injected m m') None t p (set_running None (Some d) (acquire p))) as A.
    rewrite <- (invoked_first _ _ _ (u64 (action_name args))) in A. apply A; [split; reflexivity|reflexivity|reflexivity|].
    unfold fresh_memory. now rewrite M.
  - destruct (injected_maximum m m' opss names min max rest Wr V Wt M) as (Hmin & max' & rest' & Mf & Hm & Hx). specialize (Hx Fit).
    destruct (instance_memory_spec (with_injected m m') (acquire p) min max' rest' Mf Hmin ltac:(lia) R) as (a & q & old & Iq & N & B). rewrite Iq.
    destruct (elements_fit m); cbn [negb]; [|reflexivity]. cbn [fst].
    assert (T : theMemoryInstance q = Some a) by (apply (instance_memory_touches _ _ _ _ _ Iq); reflexivity).
    rewrite <- Ep. destruct (entry_point (as_module (with_injected m m'))) as [t|] eqn:Et.
    + rewrite <- M in Pi. pose proof (execute_entered d args m p m' opss names image q t min max rest a old P Pi Fit Et M N T B
        (still_memory _ _ _ _ _ Iq)) as A.
      destruct min; exact A.
    + unfold call_apply. cbn [instance_module]. rewrite Et. reflexivity.
Qed.

(** C6. What a call of execute comes to, for any bytes, if theMemoryInstance is null or a memory of 1 to 65536 pages, as it is before a first run.
    Bytes that are not a module are answered with 20004 (wasm_serialization_exception).  Of a module it is required that every function have
    code ([coded]) and none after its final end ([ends_once]), and that there be room for what injection adds to its types and imports
    ([room]: fewer than 8128 and 960).  Injection then gives another module, and unless that one has grown too long
    for the engine (a function of 20 MiB, or a section of 4 GiB): a data segment outside the memory that the module declares, or an import that is not
    found, is answered with 20003 (wasm_runtime_exception), and so is an apply that takes another number of arguments
    than one; a module that asks for more than 528 pages with 20004, as injection has put the maximum below the minimum; one that
    exports no function apply with 0, and nothing of it is run.  A table segment outside its table, a memory declared with no page, or
    an apply whose argument is not an i64, in a module without a start function, throws an exception that execute does not catch.  Otherwise
    the start function is called, if there is one, and else apply, with the
    name in the first 8 bytes of the action; jumps go to the frame of this call; the intrinsics work on a memory of as many pages as the module declares, in which every
    byte is that of the last segment that covers it or zero, whatever a contract before it left
    there, and it is this memory that the next instance would find in
    theMemoryInstance. *)
Theorem execute_correct (d : nat) (args : arguments) (p : process) :
  Forall is_byte (codeBytes args) -> size (codeBytes args) < 2 ^ 31 -> memory_ready p ->
  match parse_module (codeBytes args) with
  | None => fst (execute true true d args p) = Returned 20004
  | Some (m, _) => coded m -> ends_once m = true -> room m = true ->
      exists m', inject (as_module m) = Value m' /\
        (too_long (with_injected m m') \/ answered d args m (with_injected m m') p (answer_to m (with_injected m m')) (execute true true d args p))
  end.
Proof.
  intros Hb Hl R. destruct (parse_module (codeBytes args)) as [[m us]|] eqn:P.
  - intros Hc E Rm. destruct (read_prepared _ m us Hb Hl P Hc E Rm) as (opss & names & m' & I & [Big|Pr]); exists m'; (split; [exact I|]).
    + now left.
    + right. exact (execute_prepared d args p m m' opss names Pr R).
  - unfold execute, get_instantiated_module, pbind, lift, read_module. cbn [lookup]. rewrite P. reflexivity.
Qed.
End Answers.

(** ** The validation of a submitted module *)
Lemma able_value (t : Z) : able serialize_ValueType t -> 0 <= t.
Proof.
  intros (bs & _ & _ & R). specialize (R []). cbn [read fields serialize_ValueType] in R.
  destruct (read serializeVarInt7 (bs ++ [])) as [[e l]|]; [|discriminate]. injection R as <- _. apply uwrap_bound. lia.
Qed.

Lemma known_value (t : Z) : validate_ValueType t = true -> 0 <= t -> value_type t.
Proof.
  unfold validate_ValueType, value_type, rt_max. rewrite negb_true_iff, orb_false_iff, Z.eqb_neq, Z.ltb_ge. unfold vt_any, vt_i32, vt_i64, vt_f32, vt_f64. cbn.
  lia.
Qed.

Lemma able_types (t : FunctionType) : able serialize_FunctionType t -> Forall (able serialize_ValueType) (parameters t) /\ size (parameters t) < 8192.
Proof.
  intros A. apply able_fields in A; [|intros [[] [ps r]]; reflexivity]. apply able_sequence in A as [_ A]; [|apply constant_canonical; cbn; lia].
  specialize (A ltac:(apply canonical_sequence; [apply array_canonical, value_type_canonical|intros _ _; exact result_type_canonical])).
  apply able_sequence in A as [A _]; [|apply array_canonical, value_type_canonical]. apply able_array in A; [exact A|exact value_type_canonical].
Qed.

Lemma able_global (g : GlobalDef) : able serialize_GlobalDef g -> 0 <= snd (fst g).
Proof.
  intros A. destruct g as [[b t] e]. apply able_sequence in A as [(bs & _ & _ & R) _]; [|exact global_type_canonical]. specialize (R []).
  cbn [read fields sequence serialize_GlobalType] in R. destruct (read serialize_ValueType (bs ++ [])) as [[t' l]|] eqn:E; [|discriminate].
  destruct (read serializeVarUInt1 l) as [[x l2]|]; [|discriminate]. injection R as _ -> _. cbn [fst snd]. cbn [read fields serialize_ValueType] in E.
  destruct (read serializeVarInt7 (bs ++ [])) as [[y l3]|]; [|discriminate]. injection E as <- _. apply uwrap_bound. lia.
Qed.

Lemma able_data (s : DataSegment) : able serialize_DataSegment s -> size (data s) < 8192.
Proof.
  intros A. apply able_fields in A; [|intros [i [o l]]; reflexivity]. apply able_sequence in A as [_ A]; [|exact var32_canonical].
  specialize (A ltac:(apply canonical_sequence; [exact initializer_canonical|intros _ _; apply array_canonical, native_canonical])).
  apply able_sequence in A as [_ A]; [|exact initializer_canonical]. specialize (A ltac:(apply array_canonical, native_canonical)).
  apply able_array in A as [_ A]; [exact A|apply native_canonical].
Qed.

Lemma value_types (l : list Z) : forallb validate_ValueType l = true -> Forall (fun t => 0 <= t) l -> Forall value_type l.
Proof. rewrite forallb_forall, !Forall_forall. intros V P t I. apply known_value; auto. Qed.

(** The engine's reader guarantees what the validation of wasmlib takes for granted. *)
Lemma read_parsed (m : Module) (opss : list (list instr)) : validateDefinitions m = true -> writable m ->
  Forall2 (fun d ops => exists bs, body_ok m d ops bs) (space_defs (m_functions m)) opss -> parsed (as_contract m) opss.
Proof.
  intros V Wt F. pose proof V as X. unfold validateDefinitions in X. rewrite !andb_true_iff in X. decompose [and] X. clear X. constructor.
  - cbn [module as_contract defs as_module]. clear -F. induction F as [|d ops ds opss (bs & O) F IH]; constructor; [|exact IH].
    destruct (read_checked m d ops bs O) as [Kc Kw _]. auto.
  - cbn [globals as_contract]. apply Forall_map. destruct (globals_able _ Wt) as [A _]. rewrite Forall_forall in *. intros g I. right. right.
    apply known_value; [|exact (able_global g (A g I))].
    match goal with K : forallb (fun g => validate_GlobalType (fst g) && _) _ = true |- _ => rewrite forallb_forall in K; specialize (K g I) end.
    rewrite andb_true_iff in *. tauto.
  - cbn [globals as_contract]. destruct (globals_able _ Wt) as [_ N]. apply (Z.le_lt_trans _ (size (space_defs (m_globals m)))); [|lia].
    unfold Injection.size, size. rewrite length_map. apply Z.le_refl.
  - cbn [module as_contract defs as_module]. apply Forall_map. destruct (functions_able _ Wt) as [A _], (types_able _ Wt) as [B _].
    match goal with K : forallb (validate_FunctionDef m) _ = true |- _ => rename K into Kd end.
    match goal with K : forallb validate_FunctionType _ = true |- _ => rename K into Kt end.
    rewrite forallb_forall in Kd, Kt. apply Forall_forall. intros d I. rewrite Forall_forall in A, B. specialize (A d I). specialize (Kd d I).
    assert (exists ops bs, body_ok m d ops bs) as (ops & bs & [Lo _ _ _]).
    { clear -F I. induction F as [|d' ops ds opss (bs & O) F IH]; [destruct I|]. destruct I as [->|I]; [now exists ops, bs|exact (IH I)]. }
    unfold validate_FunctionDef in Kd. rewrite andb_true_iff in Kd. destruct Lo as [_ Lw Lf _].
    assert (P : Forall value_type (function_parameters (as_module m) (def d)) /\ size (function_parameters (as_module m) (def d)) < 8192).
    { unfold function_parameters. cbn [types as_module]. destruct (nth_error (m_types m) (Z.to_nat (type_index (def d)))) as [t|] eqn:N;
        [|split; [constructor|reflexivity]]. apply nth_error_In in N. destruct (able_types t (B t N)) as [Pa Pn]. split; [|exact Pn].
      specialize (Kt t N). unfold validate_FunctionType in Kt. rewrite andb_true_iff in Kt. apply value_types; [apply Kt|].
      eapply Forall_impl; [|exact Pa]. exact able_value. }
    split; [apply value_types; [apply Kd|]|split; [apply P|]].
    + eapply Forall_impl; [|exact Lw]. intros t (b & S). apply able_value. now exists [b].
    + destruct P as [_ P]. unfold Injection.size, size in *. lia.
  - cbn [dataSegments as_contract]. destruct (data_able _ Wt) as [A _]. eapply Forall_impl; [|exact A]. intros s Hs. apply able_data in Hs.
    unfold Memory.size, size in *. lia.
Qed.

(** The imports that are found when a module is validated: intrinsics of the module env *)
Definition imports_env {En : Engine} (m : Module) : Prop :=
  Forall (fun i => of_module i = "env"%string /\ exists t, nth_error (m_types m) (Z.to_nat (of_type i)) = Some t /\ intrinsic "env" (of_export i) t = true)
    (space_imports (m_functions m)) /\
  space_imports (m_tables m) = [] /\ space_imports (m_memories m) = [] /\ space_imports (m_globals m) = [].

Lemma resolve_env {En : Engine} (mn en : string) (t : option FunctionType) :
  resolve true mn en t = Value true /\ (mn = "env"%string /\ exists t', t = Some t' /\ intrinsic "env" en t' = true) \/
  resolve true mn en t = Throw wasm_runtime_exception /\ ~ (mn = "env"%string /\ exists t', t = Some t' /\ intrinsic "env" en t' = true).
Proof.
  unfold resolve. destruct (String.eqb_spec mn "env") as [->|N]; cbn [negb andb FTL_ASSERT rbind]; [|right; split; [reflexivity|tauto]].
  change (negb ("env" =? "wavmIntrinsics")%string) with true. cbn [andb]. destruct t as [t|]; [|right; split; [reflexivity|]; intros (_ & t' & E & _); discriminate].
  destruct (intrinsic "env" en t) eqn:I; [left; split; [reflexivity|]; eauto|right; split; [reflexivity|]].
  intros (_ & t' & [= <-] & I'). congruence.
Qed.

Lemma link_env {En : Engine} {T} (type_of : T -> option FunctionType) (l : list (ImportOf T)) :
  link_imports true type_of l = Value tt <->
  Forall (fun i => of_module i = "env"%string /\ exists t, type_of (of_type i) = Some t /\ intrinsic "env" (of_export i) t = true) l.
Proof.
  induction l as [|i l IH]; [split; [constructor|reflexivity]|]. cbn [link_imports].
  destruct (resolve_env (of_module i) (of_export i) (type_of (of_type i))) as [[E K]|[E K]]; rewrite E; cbn [rbind].
  - rewrite IH. split; [intros F; constructor; assumption|intros F; now inversion F].
  - split; [discriminate|]. intros F. inversion F. contradiction.
Qed.

Lemma link_none {En : Engine} {T} (l : list (ImportOf T)) : link_imports true (fun _ => None) l = Value tt <-> l = [].
Proof.
  rewrite link_env. split; [|intros ->; constructor]. intros F. destruct F as [|i l (_ & t & E & _)]; [reflexivity|discriminate].
Qed.

Lemma links_env {En : Engine} (m : Module) : linkModule true m = Value tt <-> imports_env m.
Proof.
  unfold linkModule, imports_env. rewrite <- link_env with (type_of := fun t => nth_error (m_types m) (Z.to_nat t)).
  rewrite <- !link_none. 
  destruct (link_imports true (fun t => nth_error (m_types m) (Z.to_nat t)) _) as [|[]]; cbn [rbind]; [intuition discriminate|].
  destruct (link_imports true _ (space_imports (m_tables m))) as [|[]]; cbn [rbind]; [intuition discriminate|].
  destruct (link_imports true _ (space_imports (m_memories m))) as [|[]]; cbn [rbind]; intuition discriminate.
Qed.

(** C11. What validate comes to.  Bytes that are not a module throw wasm_serialization_exception.  A module all of whose functions have
    code ([coded]; the engine's reader takes a function without one if the code section is missing)
    is accepted exactly when its memory, tables, globals, segments, local variables and code are within the limits of
    wasm_constraints.hpp, it exports an apply of three arguments, and every import is an intrinsic of the module env; otherwise
    wasm_runtime_exception is thrown. *)
Theorem validate_code_correct {En : Engine} (code : list Z) : Forall is_byte code -> size code < 2 ^ 31 ->
  match parse_module code with
  | None => validate_code code = Throw wasm_serialization_exception
  | Some (m, _) => coded m -> exists opss, Forall2 (checked m) (space_defs (m_functions m)) opss /\
      (acceptable (as_contract m) opss /\ imports_env m -> validate_code code = Value tt) /\
      (~ (acceptable (as_contract m) opss /\ imports_env m) -> validate_code code = Throw wasm_runtime_exception)
  end.
Proof.
  intros Hb Hl. destruct (parse_module code) as [[m us]|] eqn:P; [|unfold validate_code, read_module; now rewrite P].
  intros Cd. destruct (parsed_parts code m us Hb Hl P Cd) as (V & Wt & B). destruct (read_functions m _ B) as (opss & F & _).
  exists opss. split; [exact (valid_functions _ _ (parsed_valid m opss V Wt F))|].
  unfold validate_code, read_module. rewrite P. cbn [rbind]. pose proof (links_env m) as L.
  destruct (validate_checks _ _ (read_parsed m opss V Wt F)) as [[-> A]|[-> A]]; cbn [rbind].
  - destruct (linkModule_cases true m) as [E|E]; rewrite E in *; (split; [intros [_ K]|intros N]); try reflexivity.
    + exfalso. apply N. split; [exact A|]. now apply L.
    + apply L in K. discriminate.
  - split; [tauto|reflexivity].
Qed.

Lemma export_names_nodup (names : list string) : forall seen, distinct_names names seen = true -> NoDup names /\ forall n, In n names -> ~ In n seen.
Proof.
  induction names as [|n names IH]; intros seen H; [split; [constructor|intros n []]|]. cbn [distinct_names] in H. rewrite andb_true_iff, negb_true_iff in H.
  destruct H as [H1 H2]. destruct (IH _ H2) as [D N]. split.
  - constructor; [|exact D]. intros I. apply (N n I). now left.
  - intros x [<-|I] J; [|apply (N x I); now right]. assert (E : existsb (String.eqb n) seen = true) by (apply existsb_exists; exists n; split; [exact J|apply String.eqb_refl]).
    congruence.
Qed.

(** C39. A contract that validate accepts cannot be run.  Validation demands that apply be exported with three
    parameters, and execute calls it with one argument, which call asserts to be the number of parameters.  For bytes that validate has
    accepted, of a module all of whose functions have code ([coded]) with nothing after its final end ([ends_once]) and that leaves room for what
    injection adds to its types and imports ([room]), while theMemoryInstance is null or a memory of 1 to 65536 pages: unless injection makes the
    module too long for the engine (then it is refused before that), execute ends with code 20003, or by an exception if a table segment is outside its
    table, and nothing of the contract is run. *)
Theorem validated_never_runs {W : Type} {C : Callbacks W} {En : Engine} (d : nat) (args : arguments) (p : @process W) (m : Module) (us : list UserSection) :
  Forall is_byte (codeBytes args) -> size (codeBytes args) < 2 ^ 31 -> memory_ready p ->
  parse_module (codeBytes args) = Some (m, us) -> coded m -> ends_once m = true -> room m = true -> validate_code (codeBytes args) = Value tt ->
  exists m', inject (as_module m) = Value m' /\
    (too_long (with_injected m m') \/
     fst (execute true true d args p) = Returned 20003 \/ elements_fit m = false /\ fst (execute true true d args p) = Escaped).
Proof.
  intros Hb Hl R P Cd E Rm A. destruct (parsed_parts _ m us Hb Hl P Cd) as (V & Wt & B). destruct (read_functions m _ B) as (ops0 & F0 & _).
  destruct (read_prepared _ m us Hb Hl P Cd E Rm) as (opss & names & m' & I & [Big|Pr]); exists m'; (split; [exact I|]); [now left|right].
  pose proof (execute_prepared d args p m m' opss names Pr R) as X. unfold validate_code, read_module in A. rewrite P in A. cbn [rbind] in A.
  destruct (validate_checks _ _ (read_parsed m ops0 V Wt F0)) as [[_ (Mo & _ & _ & _ & _ & (e & Ie & K & En' & T) & _)]|[Q _]]; [|rewrite Q in A; discriminate].
  assert (Ep : entry_point (as_module m) = Some apply_type).
  { unfold entry_point. rewrite (find_apply _ e); [unfold is_function; now rewrite K| |exact Ie|exact En']. cbn [exports as_module].
    apply (export_names_nodup _ []). pose proof V as Y. unfold validateDefinitions in Y. rewrite !andb_true_iff in Y. tauto. }
  assert (Fit : memory_fits m = true).
  { unfold memory_fits. unfold memory_ok in Mo. cbn [memories module as_contract as_module] in Mo. destruct (space_defs (m_memories m)) as [|[mn mx] l]; [reflexivity|].
    change max_pages with 528. destruct (Z.leb_spec mn 528); [apply orb_true_r|lia]. }
  unfold answer_to in X. rewrite Fit, Ep in X. cbn [negb] in X.
  destruct (parse_initial_memory _ _) as [|image]; [left; exact X|]. destruct (linkModule false _) as [|]; [left; exact X|].
  destruct (elements_fit m) eqn:El; cbn [negb] in X; [left; exact X|right; auto].
Qed.

(** ** Witnesses *)
Lemma entry_code_read : Forall is_byte entry_code /\ parse_module entry_code = Some (entry_module, []) /\ coded entry_module.
Proof.
  split; [unfold entry_code; repeat constructor; unfold is_byte; lia|]. split; [vm_compute; reflexivity|].
  vm_compute. constructor; [discriminate|constructor].
Qed.

Lemma sample_answer (m' : Module_) : inject (as_module entry_module) = Value m' ->
  short_enough (with_injected entry_module m') = true /\
  answer_to entry_module (with_injected entry_module m') = Enters false (Function rt_none [vt_i64]) /\
  imported (with_injected entry_module m') = sample_imports.
Proof.
  intros I. assert (A : match inject (as_module entry_module) with
    | Value m' => short_enough (with_injected entry_module m') = true /\ answer_to entry_module (with_injected entry_module m') = Enters false (Function rt_none [vt_i64]) /\
      imported (with_injected entry_module m') = sample_imports
    | Throw _ => False
    end) by (vm_compute; split; [|split]; reflexivity).
  now rewrite I in A.
Qed.

(** The contract is entered with its three bytes in a memory of one page; nothing can be read from no bytes. *)
Lemma execute_correct_witness :
  (exists a b p', execute true true 0 (sample_arguments entry_code) (proc sample_idle) =
     (Runs (Activation (sample_arguments entry_code) (Some a) (Function rt_none [vt_i64]) [0x0807060504030201] sample_imports false 0 None), p') /\
     nth_error (heap p') a = Some b /\ numPages b = 1 /\ contents b 17 = 2 /\ contents b 20 = 0) /\
  fst (execute true true 0 (sample_arguments []) (proc sample_idle)) = Returned 20004.
Proof.
  assert (R : memory_ready (proc sample_idle)) by (intros k; discriminate). destruct entry_code_read as (Hb & Hp & Hc).
  split; [|exact (execute_correct 0 (sample_arguments []) (proc sample_idle) (Forall_nil _) eq_refl R)].
  pose proof (execute_correct 0 (sample_arguments entry_code) (proc sample_idle) Hb eq_refl R) as E.
  change (codeBytes (sample_arguments entry_code)) with entry_code in E. rewrite Hp in E.
  destruct (E Hc eq_refl eq_refl) as (m' & I & [Big|A]); destruct (sample_answer m' I) as (S & An & Im).
  - destruct (short_enough_spec _ S Big).
  - rewrite An in A. cbn [answered] in A. rewrite Im in A. destruct A as (mem & p' & Ex & _ & _ & _ & a & b & -> & N & _ & Np & _ & Cb). exists a, b, p'.
    split; [exact Ex|]. split; [exact N|]. split; [exact Np|]. unfold memory_bytes, getMemoryNumPages in Cb. rewrite Np in Cb.
    assert (L : forall i, 0 <= i < 65536 -> contents b i = initial_byte (m_dataSegments entry_module) i)
      by (intros i Hi; apply Cb; change (u64 (join [1] 0)) with 1; exact Hi).
    split; (rewrite L by lia; vm_compute; reflexivity).
Defined.

(** A contract whose apply takes three arguments *)
Definition deployed_code : list Z :=
  [0; 97; 115; 109; 1; 0; 0; 0;
   1; 7; 1; 0x60; 3; 0x7e; 0x7e; 0x7e; 0;
   3; 2; 1; 0;
   5; 4; 1; 1; 1; 2;
   7; 9; 1; 5; 97; 112; 112; 108; 121; 0; 0;
   10; 4; 1; 2; 0; 0x0b;
   11; 9; 1; 0; 0x41; 16; 0x0b; 3; 1; 2; 3].
Definition deployed_module : Module := match parse_module deployed_code with Some (m, _) => m | None => no_module end.

(** Bytes that are not a module, and a contract whose apply takes one argument *)
Lemma validate_code_correct_witness : validate_code [] = Throw wasm_serialization_exception /\
  exists opss, Forall2 (checked entry_module) (space_defs (m_functions entry_module)) opss /\ ~ (acceptable (as_contract entry_module) opss /\ imports_env entry_module).
Proof.
  split; [exact (validate_code_correct [] (Forall_nil _) eq_refl)|]. destruct entry_code_read as (Hb & Hp & Hc).
  pose proof (validate_code_correct entry_code Hb eq_refl) as E. rewrite Hp in E. destruct (E Hc) as (opss & F & A & _). exists opss. split; [exact F|].
  intros K. specialize (A K). vm_compute in A. discriminate A.
Defined.

Lemma validated_never_runs_witness : fst (execute true true 0 (sample_arguments deployed_code) (proc sample_idle)) = Returned 20003.
Proof.
  assert (R : memory_ready (proc sample_idle)) by (intros k; discriminate).
  destruct (validated_never_runs 0 (sample_arguments deployed_code) (proc sample_idle) deployed_module [])
    as (m' & I & [Big|[E|[E _]]]); [|reflexivity|exact R|vm_compute; reflexivity| |vm_compute; reflexivity|reflexivity|vm_compute; reflexivity| |exact E|].
  - unfold sample_arguments, deployed_code. cbn [codeBytes]. repeat constructor; unfold is_byte; lia.
  - vm_compute. constructor; [discriminate|constructor].
  - exfalso. revert Big. apply short_enough_spec.
    assert (A : match inject (as_module deployed_module) with Value m' => short_enough (with_injected deployed_module m') | Throw _ => false end = true)
      by (vm_compute; reflexivity).
    now rewrite I in A.
  - vm_compute in E. discriminate E.
Defined.
