(* ===== verification/FloatApi.v ===== *)
(** The floating-point intrinsics of softfloat_api (wasm_interface.cpp), which
    replace the floating-point instructions of a contract.  A [float] or
    [double] argument is its bit pattern; the truncations to integers throw. *)
From Stdlib Require Import ZArith Bool Lia String List.
From S2P Require Import Prelude Ieee Exceptions Softfloat F32 F64 Convert FromInt Integral.
Import ListNotations.
Local Open Scope Z_scope.
Local Open Scope c_scope.
Local Open Scope M_scope.

(** ** softfloat.hpp *)
Definition f32_sign_bit (f : Z) : bool := z2b (f >> 31).
Definition f64_sign_bit (f : Z) : bool := z2b (f >> 63).
Definition f32_is_nan (f : Z) : bool := 0x7F800000 <? f .& 0x7FFFFFFF.
Definition f64_is_nan (f : Z) : bool := 0x7FF0000000000000 <? f .& 0x7FFFFFFFFFFFFFFF.

Definition inv_float_eps : Z := 0x4B000000.
Definition inv_double_eps : Z := 0x4330000000000000.

(** Computations that may throw, the flags raised so far being kept. *)
Definition T (A : Type) : Type := env -> result A * env.
Definition tthrow {A} (e : exception) : T A := fun s => (Throw e, s).
Definition tlift {A} (m : M A) : T A := fun s => let (a, s) := m s in (Value a, s).
Definition tbind {A B} (m : M A) (k : A -> T B) : T B := fun s => let (a, s) := m s in k a s.
(** [a || b] on computations: the second is not run when the first holds. *)
Definition por (a b : M bool) : M bool := c <- a ;; if c then ret true else b.

(** ** The 32-bit operations *)
Definition _eosio_f32_add (a b : Z) : M Z := f32_add a b.
Definition _eosio_f32_sub (a b : Z) : M Z := f32_sub a b.
Definition _eosio_f32_div (a b : Z) : M Z := f32_div a b.
Definition _eosio_f32_mul (a b : Z) : M Z := f32_mul a b.

Definition _eosio_f32_min (a b : Z) : M Z :=
  if f32_is_nan a then ret a
  else if f32_is_nan b then ret b
  else if negb (Bool.eqb (f32_sign_bit a) (f32_sign_bit b)) then ret (if f32_sign_bit a then a else b)
  else c <- f32_lt a b ;; ret (if c then a else b).

Definition _eosio_f32_max (a b : Z) : M Z :=
  if f32_is_nan a then ret a
  else if f32_is_nan b then ret b
  else if negb (Bool.eqb (f32_sign_bit a) (f32_sign_bit b)) then ret (if f32_sign_bit a then b else a)
  else c <- f32_lt a b ;; ret (if c then b else a).

Definition _eosio_f32_copysign (a b : Z) : Z :=
  let sign_of_b := b >> 31 in
  (a .& 0x7FFFFFFF) .| u32 (sign_of_b << 31).
Definition _eosio_f32_abs (a : Z) : Z := a .& 0x7FFFFFFF.
Definition _eosio_f32_neg (a : Z) : Z :=
  let sign := a >> 31 in
  (a .& 0x7FFFFFFF) .| (b2z (negb (z2b sign)) << 31).

Definition _eosio_f32_ceil (a : Z) : Z :=
  let e := (a >> 23 .& 0xFF) - 0x7F in
  if 23 <=? e then a
  else if 0 <=? e then
    let m := 0x007FFFFF >> e in
    if (a .& m) =? 0 then a
    else
      let a := if (a >> 31) =? 0 then u32 (a + m) else a in
      a .& u32 (Z.lnot m)
  else if z2b (a >> 31) then 0x80000000
  else if z2b (u32 (a << 1)) then 0x3F800000 else a.

Definition _eosio_f32_floor (a : Z) : Z :=
  let e := (a >> 23 .& 0xFF) - 0x7F in
  if 23 <=? e then a
  else if 0 <=? e then
    let m := 0x007FFFFF >> e in
    if (a .& m) =? 0 then a
    else
      let a := if z2b (a >> 31) then u32 (a + m) else a in
      a .& u32 (Z.lnot m)
  else if (a >> 31) =? 0 then 0
  else if z2b (u32 (a << 1)) then 0xBF800000 else a.

Definition _eosio_f32_trunc (a : Z) : Z :=
  let e := (a >> 23 .& 0xFF) - 0x7F + 9 in
  if 23 + 9 <=? e then a
  else
    let e := if e <? 9 then 1 else e in
    let m := 0xFFFFFFFF >> e in
    if (a .& m) =? 0 then a else a .& u32 (Z.lnot m).

Definition _eosio_f32_nearest (a : Z) : M Z :=
  let e := a >> 23 .& 0xFF in
  let s := z2b (a >> 31) in
  if 0x7F + 23 <=? e then ret a
  else
    y <- (if s then t <- f32_sub a inv_float_eps ;; f32_add t inv_float_eps
          else t <- f32_add a inv_float_eps ;; f32_sub t inv_float_eps) ;;
    z <- f32_eq y 0 ;;
    ret (if z then (if s then 0x80000000 else 0) else y).

Definition _eosio_f32_eq (a b : Z) : M bool := f32_eq a b.
Definition _eosio_f32_ne (a b : Z) : M bool := c <- f32_eq a b ;; ret (negb c).
Definition _eosio_f32_lt (a b : Z) : M bool := f32_lt a b.
Definition _eosio_f32_le (a b : Z) : M bool := f32_le a b.
Definition _eosio_f32_gt (a b : Z) : M bool :=
  if f32_is_nan a then ret false
  else if f32_is_nan b then ret false
  else c <- f32_le a b ;; ret (negb c).
Definition _eosio_f32_ge (a b : Z) : M bool :=
  if f32_is_nan a then ret false
  else if f32_is_nan b then ret false
  else c <- f32_lt a b ;; ret (negb c).

(** ** The 64-bit operations *)
Definition _eosio_f64_add (a b : Z) : M Z := f64_add a b.
Definition _eosio_f64_sub (a b : Z) : M Z := f64_sub a b.
Definition _eosio_f64_div (a b : Z) : M Z := f64_div a b.
Definition _eosio_f64_mul (a b : Z) : M Z := f64_mul a b.

Definition _eosio_f64_min (a b : Z) : M Z :=
  if f64_is_nan a then ret a
  else if f64_is_nan b then ret b
  else if negb (Bool.eqb (f64_sign_bit a) (f64_sign_bit b)) then ret (if f64_sign_bit a then a else b)
  else c <- f64_lt a b ;; ret (if c then a else b).

Definition _eosio_f64_max (a b : Z) : M Z :=
  if f64_is_nan a then ret a
  else if f64_is_nan b then ret b
  else if negb (Bool.eqb (f64_sign_bit a) (f64_sign_bit b)) then ret (if f64_sign_bit a then b else a)
  else c <- f64_lt a b ;; ret (if c then b else a).

Definition _eosio_f64_copysign (a b : Z) : Z :=
  let sign_of_b := b >> 63 in
  (a .& 0x7FFFFFFFFFFFFFFF) .| u64 (sign_of_b << 63).
Definition _eosio_f64_abs (a : Z) : Z := a .& 0x7FFFFFFFFFFFFFFF.
Definition _eosio_f64_neg (a : Z) : Z :=
  let sign := a >> 63 in
  (a .& 0x7FFFFFFFFFFFFFFF) .| (b2z (negb (z2b sign)) << 63).

Definition _eosio_f64_ceil (a : Z) : M Z :=
  let e := a >> 52 .& 0x7FF in
  z <- (if 0x3FF + 52 <=? e then ret true else f64_eq a 0) ;;
  if z then ret a
  else
    y <- (if z2b (a >> 63)
          then t <- f64_sub a inv_double_eps ;; t <- f64_add t inv_double_eps ;; f64_sub t a
          else t <- f64_add a inv_double_eps ;; t <- f64_sub t inv_double_eps ;; f64_sub t a) ;;
    if e <=? 0x3FF - 1 then ret (if z2b (a >> 63) then 0x8000000000000000 else 0x3FF0000000000000)
    else
      c <- f64_lt y 0 ;;
      if c then t <- f64_add a y ;; f64_add t 0x3FF0000000000000
      else f64_add a y.

Definition _eosio_f64_floor (a : Z) : M Z :=
  let e := a >> 52 .& 0x7FF in
  if a =? 0x8000000000000000 then ret a
  else if (0x3FF + 52 <=? e) || (a =? 0) then ret a
  else
    y <- (if z2b (a >> 63)
          then t <- f64_sub a inv_double_eps ;; t <- f64_add t inv_double_eps ;; f64_sub t a
          else t <- f64_add a inv_double_eps ;; t <- f64_sub t inv_double_eps ;; f64_sub t a) ;;
    if e <=? 0x3FF - 1 then ret (if z2b (a >> 63) then 0xBFF0000000000000 else 0)
    else
      c <- f64_le y 0 ;;
      if negb c then t <- f64_add a y ;; f64_sub t 0x3FF0000000000000
      else f64_add a y.

Definition _eosio_f64_trunc (a : Z) : Z :=
  let e := (a >> 52 .& 0x7FF) - 0x3FF + 12 in
  if 52 + 12 <=? e then a
  else
    let e := if e <? 12 then 1 else e in
    let m := 0xFFFFFFFFFFFFFFFF >> e in
    if (a .& m) =? 0 then a else a .& u64 (Z.lnot m).

Definition _eosio_f64_nearest (a : Z) : M Z :=
  let e := a >> 52 .& 0x7FF in
  let s := z2b (a >> 63) in
  if 0x3FF + 52 <=? e then ret a
  else
    y <- (if s then t <- f64_sub a inv_double_eps ;; f64_add t inv_double_eps
          else t <- f64_add a inv_double_eps ;; f64_sub t inv_double_eps) ;;
    z <- f64_eq y 0 ;;
    ret (if z then (if s then 0x8000000000000000 else 0) else y).

Definition _eosio_f64_eq (a b : Z) : M bool := f64_eq a b.
Definition _eosio_f64_ne (a b : Z) : M bool := c <- f64_eq a b ;; ret (negb c).
Definition _eosio_f64_lt (a b : Z) : M bool := f64_lt a b.
Definition _eosio_f64_le (a b : Z) : M bool := f64_le a b.
Definition _eosio_f64_gt (a b : Z) : M bool :=
  if f64_is_nan a then ret false
  else if f64_is_nan b then ret false
  else c <- f64_le a b ;; ret (negb c).
Definition _eosio_f64_ge (a b : Z) : M bool :=
  if f64_is_nan a then ret false
  else if f64_is_nan b then ret false
  else c <- f64_lt a b ;; ret (negb c).

(** ** Conversions *)
Definition _eosio_f32_promote (a : Z) : M Z := f32_to_f64 a.
Definition _eosio_f64_demote (a : Z) : M Z := f64_to_f32 a.

Definition _eosio_f32_trunc_i32s (a : Z) : T Z :=
  tbind (por (_eosio_f32_ge a 0x4F000000) (_eosio_f32_lt a 0xCF000000)) (fun out_of_range =>
    if out_of_range then tthrow wasm_runtime_exception
    else if f32_is_nan a then tthrow wasm_runtime_exception
    else tlift (f32_to_i32 (_eosio_f32_trunc a) 0 false)).
Definition _eosio_f64_trunc_i32s (a : Z) : T Z :=
  tbind (por (_eosio_f64_ge a 0x41E0000000000000) (_eosio_f64_lt a 0xC1E0000000000000)) (fun out_of_range =>
    if out_of_range then tthrow wasm_runtime_exception
    else if f64_is_nan a then tthrow wasm_runtime_exception
    else tlift (f64_to_i32 (_eosio_f64_trunc a) 0 false)).
Definition _eosio_f32_trunc_i32u (a : Z) : T Z :=
  tbind (por (_eosio_f32_ge a 0x4F800000) (_eosio_f32_le a 0xBF800000)) (fun out_of_range =>
    if out_of_range then tthrow wasm_runtime_exception
    else if f32_is_nan a then tthrow wasm_runtime_exception
    else tlift (f32_to_ui32 (_eosio_f32_trunc a) 0 false)).
Definition _eosio_f64_trunc_i32u (a : Z) : T Z :=
  tbind (por (_eosio_f64_ge a 0x41F0000000000000) (_eosio_f64_le a 0xBFF0000000000000)) (fun out_of_range =>
    if out_of_range then tthrow wasm_runtime_exception
    else if f64_is_nan a then tthrow wasm_runtime_exception
    else tlift (f64_to_ui32 (_eosio_f64_trunc a) 0 false)).
Definition _eosio_f32_trunc_i64s (a : Z) : T Z :=
  tbind (por (_eosio_f32_ge a 0x5F000000) (_eosio_f32_lt a 0xDF000000)) (fun out_of_range =>
    if out_of_range then tthrow wasm_runtime_exception
    else if f32_is_nan a then tthrow wasm_runtime_exception
    else tlift (f32_to_i64 (_eosio_f32_trunc a) 0 false)).
Definition _eosio_f64_trunc_i64s (a : Z) : T Z :=
  tbind (por (_eosio_f64_ge a 0x43E0000000000000) (_eosio_f64_lt a 0xC3E0000000000000)) (fun out_of_range =>
    if out_of_range then tthrow wasm_runtime_exception
    else if f64_is_nan a then tthrow wasm_runtime_exception
    else tlift (f64_to_i64 (_eosio_f64_trunc a) 0 false)).
Definition _eosio_f32_trunc_i64u (a : Z) : T Z :=
  tbind (por (_eosio_f32_ge a 0x5F800000) (_eosio_f32_le a 0xBF800000)) (fun out_of_range =>
    if out_of_range then tthrow wasm_runtime_exception
    else if f32_is_nan a then tthrow wasm_runtime_exception
    else tlift (f32_to_ui64 (_eosio_f32_trunc a) 0 false)).
Definition _eosio_f64_trunc_i64u (a : Z) : T Z :=
  tbind (por (_eosio_f64_ge a 0x43F0000000000000) (_eosio_f64_le a 0xBFF0000000000000)) (fun out_of_range =>
    if out_of_range then tthrow wasm_runtime_exception
    else if f64_is_nan a then tthrow wasm_runtime_exception
    else tlift (f64_to_ui64 (_eosio_f64_trunc a) 0 false)).
Definition _eosio_i32_to_f32 (a : Z) : M Z := i32_to_f32 a.
Definition _eosio_i64_to_f32 (a : Z) : M Z := i64_to_f32 a.
Definition _eosio_ui32_to_f32 (a : Z) : M Z := ui32_to_f32 a.
Definition _eosio_ui64_to_f32 (a : Z) : M Z := ui64_to_f32 a.
Definition _eosio_i32_to_f64 (a : Z) : M Z := i32_to_f64 a.
Definition _eosio_i64_to_f64 (a : Z) : M Z := i64_to_f64 a.
Definition _eosio_ui32_to_f64 (a : Z) : M Z := ui32_to_f64 a.
Definition _eosio_ui64_to_f64 (a : Z) : M Z := ui64_to_f64 a.

(** ** Registration *)

(** The intrinsics by name, as REGISTER_INJECTED_INTRINSICS lists them for
    softfloat_api, except the two square roots.  The I32 or
    I64 of a contract is converted to the parameter's type. *)
Inductive native : Type :=
  | Unary (fn : Z -> T Z)
  | Binary (fn : Z -> Z -> T Z).
Definition softfloat_natives : list (string * native) :=
  [("_eosio_f32_add", Binary (fun a b => tlift (_eosio_f32_add a b)));
   ("_eosio_f32_sub", Binary (fun a b => tlift (_eosio_f32_sub a b)));
   ("_eosio_f32_mul", Binary (fun a b => tlift (_eosio_f32_mul a b)));
   ("_eosio_f32_div", Binary (fun a b => tlift (_eosio_f32_div a b)));
   ("_eosio_f32_min", Binary (fun a b => tlift (_eosio_f32_min a b)));
   ("_eosio_f32_max", Binary (fun a b => tlift (_eosio_f32_max a b)));
   ("_eosio_f32_copysign", Binary (fun a b => tlift (ret (_eosio_f32_copysign a b))));
   ("_eosio_f32_abs", Unary (fun a => tlift (ret (_eosio_f32_abs a))));
   ("_eosio_f32_neg", Unary (fun a => tlift (ret (_eosio_f32_neg a))));
   ("_eosio_f32_ceil", Unary (fun a => tlift (ret (_eosio_f32_ceil a))));
   ("_eosio_f32_floor", Unary (fun a => tlift (ret (_eosio_f32_floor a))));
   ("_eosio_f32_trunc", Unary (fun a => tlift (ret (_eosio_f32_trunc a))));
   ("_eosio_f32_nearest", Unary (fun a => tlift (_eosio_f32_nearest a)));
   ("_eosio_f32_eq", Binary (fun a b => tlift (c <- _eosio_f32_eq a b ;; ret (b2z c))));
   ("_eosio_f32_ne", Binary (fun a b => tlift (c <- _eosio_f32_ne a b ;; ret (b2z c))));
   ("_eosio_f32_lt", Binary (fun a b => tlift (c <- _eosio_f32_lt a b ;; ret (b2z c))));
   ("_eosio_f32_le", Binary (fun a b => tlift (c <- _eosio_f32_le a b ;; ret (b2z c))));
   ("_eosio_f32_gt", Binary (fun a b => tlift (c <- _eosio_f32_gt a b ;; ret (b2z c))));
   ("_eosio_f32_ge", Binary (fun a b => tlift (c <- _eosio_f32_ge a b ;; ret (b2z c))));
   ("_eosio_f64_add", Binary (fun a b => tlift (_eosio_f64_add a b)));
   ("_eosio_f64_sub", Binary (fun a b => tlift (_eosio_f64_sub a b)));
   ("_eosio_f64_mul", Binary (fun a b => tlift (_eosio_f64_mul a b)));
   ("_eosio_f64_div", Binary (fun a b => tlift (_eosio_f64_div a b)));
   ("_eosio_f64_min", Binary (fun a b => tlift (_eosio_f64_min a b)));
   ("_eosio_f64_max", Binary (fun a b => tlift (_eosio_f64_max a b)));
   ("_eosio_f64_copysign", Binary (fun a b => tlift (ret (_eosio_f64_copysign a b))));
   ("_eosio_f64_abs", Unary (fun a => tlift (ret (_eosio_f64_abs a))));
   ("_eosio_f64_neg", Unary (fun a => tlift (ret (_eosio_f64_neg a))));
   ("_eosio_f64_ceil", Unary (fun a => tlift (_eosio_f64_ceil a)));
   ("_eosio_f64_floor", Unary (fun a => tlift (_eosio_f64_floor a)));
   ("_eosio_f64_trunc", Unary (fun a => tlift (ret (_eosio_f64_trunc a))));
   ("_eosio_f64_nearest", Unary (fun a => tlift (_eosio_f64_nearest a)));
   ("_eosio_f64_eq", Binary (fun a b => tlift (c <- _eosio_f64_eq a b ;; ret (b2z c))));
   ("_eosio_f64_ne", Binary (fun a b => tlift (c <- _eosio_f64_ne a b ;; ret (b2z c))));
   ("_eosio_f64_lt", Binary (fun a b => tlift (c <- _eosio_f64_lt a b ;; ret (b2z c))));
   ("_eosio_f64_le", Binary (fun a b => tlift (c <- _eosio_f64_le a b ;; ret (b2z c))));
   ("_eosio_f64_gt", Binary (fun a b => tlift (c <- _eosio_f64_gt a b ;; ret (b2z c))));
   ("_eosio_f64_ge", Binary (fun a b => tlift (c <- _eosio_f64_ge a b ;; ret (b2z c))));
   ("_eosio_f32_promote", Unary (fun a => tlift (_eosio_f32_promote a)));
   ("_eosio_f64_demote", Unary (fun a => tlift (_eosio_f64_demote a)));
   ("_eosio_f32_trunc_i32s", Unary _eosio_f32_trunc_i32s);
   ("_eosio_f64_trunc_i32s", Unary _eosio_f64_trunc_i32s);
   ("_eosio_f32_trunc_i32u", Unary _eosio_f32_trunc_i32u);
   ("_eosio_f64_trunc_i32u", Unary _eosio_f64_trunc_i32u);
   ("_eosio_f32_trunc_i64s", Unary _eosio_f32_trunc_i64s);
   ("_eosio_f64_trunc_i64s", Unary _eosio_f64_trunc_i64s);
   ("_eosio_f32_trunc_i64u", Unary _eosio_f32_trunc_i64u);
   ("_eosio_f64_trunc_i64u", Unary _eosio_f64_trunc_i64u);
   ("_eosio_i32_to_f32", Unary (fun a => tlift (_eosio_i32_to_f32 (i32 a))));
   ("_eosio_i64_to_f32", Unary (fun a => tlift (_eosio_i64_to_f32 (i64 a))));
   ("_eosio_ui32_to_f32", Unary (fun a => tlift (_eosio_ui32_to_f32 (u32 a))));
   ("_eosio_ui64_to_f32", Unary (fun a => tlift (_eosio_ui64_to_f32 (u64 a))));
   ("_eosio_i32_to_f64", Unary (fun a => tlift (_eosio_i32_to_f64 (i32 a))));
   ("_eosio_i64_to_f64", Unary (fun a => tlift (_eosio_i64_to_f64 (i64 a))));
   ("_eosio_ui32_to_f64", Unary (fun a => tlift (_eosio_ui32_to_f64 (u32 a))));
   ("_eosio_ui64_to_f64", Unary (fun a => tlift (_eosio_ui64_to_f64 (u64 a))))]%string%list.
