(* ===== verification/FloatBits.v ===== *)
(** The floating-point intrinsics that work on the bits: NaN and sign tests,
    signs, and the roundings that mask the fraction, which agree with the
    rounding to an integral value of the library. *)
From Stdlib Require Import ZArith Bool Lia Reals Lra.
From S2P Require Import Prelude Ieee Rounding Softfloat Machine Contract Interface F32 F32Round F32Arith F64 F64Round F64Arith.
From S2P Require Import Integral FloatApi.
Local Open Scope Z_scope.
Local Open Scope c_scope.

(** ** The sign bit and the rest of a word *)
Section Word.
Context (f : format) {V : ValidFormat f} (k : Z).
Context (Hk : sign_weight f = 2 ^ k) (Pk : 0 < k < 64).

Lemma word_split (a : Z) : is_enc f a ->
  a = b2z (sign_of f a) * 2 ^ k + pattern_of f a /\ 0 <= pattern_of f a < 2 ^ k /\ 0 <= a < 2 * 2 ^ k.
Proof.
  intros Ha. pose proof (pattern_bounds f a) as B. pose proof (enc_split f a Ha) as E. unfold with_sign in E.
  unfold is_enc in Ha. rewrite Hk in *. auto.
Qed.

Lemma word_sign (a : Z) : is_enc f a -> a >> k = b2z (sign_of f a).
Proof.
  intros Ha. destruct (word_split a Ha) as (E & B & _). rewrite shr_div by lia. symmetry.
  apply Z.div_unique_pos with (pattern_of f a); lia.
Qed.

Lemma word_sign_bit (a : Z) : is_enc f a -> z2b (a >> k) = sign_of f a.
Proof. intros Ha. rewrite (word_sign a Ha). now destruct (sign_of f a). Qed.

Lemma word_low (a m : Z) : is_enc f a -> m = 2 ^ k - 1 -> a .& m = pattern_of f a.
Proof.
  intros Ha ->. rewrite (land_low _ _ k) by (try (rewrite Z.ones_equiv); lia).
  unfold pattern_of. now rewrite Hk.
Qed.

Lemma word_high (a m : Z) : is_enc f a -> m = 2 ^ k -> a .& m = b2z (sign_of f a) * 2 ^ k.
Proof.
  intros Ha ->. rewrite (land_field a (2 ^ k) k 1) by (change (Z.ones 1) with 1; lia).
  rewrite <- shr_div, (word_sign a Ha) by lia. now destruct (sign_of f a).
Qed.

Lemma word_join (sg : bool) (p : Z) : 0 <= p < 2 ^ k -> p .| (b2z sg * 2 ^ k) = with_sign f sg p.
Proof.
  intros Hp. rewrite Z.lor_comm, (lor_disjoint _ _ k) by lia. unfold with_sign. now rewrite Hk.
Qed.
End Word.

Lemma sign_weight32 : sign_weight F32 = 2 ^ 31.
Proof. reflexivity. Qed.
Lemma sign_weight64 : sign_weight F64 = 2 ^ 63.
Proof. reflexivity. Qed.

(** ** The tests *)
Lemma f32_sign_bit_eq (a : Z) : is_enc F32 a -> f32_sign_bit a = sign_of F32 a.
Proof. apply (word_sign_bit F32 31); [reflexivity|lia]. Qed.
Lemma f64_sign_bit_eq (a : Z) : is_enc F64 a -> f64_sign_bit a = sign_of F64 a.
Proof. apply (word_sign_bit F64 63); [reflexivity|lia]. Qed.
Lemma f32_is_nan_eq (a : Z) : is_enc F32 a -> f32_is_nan a = nanb F32 a.
Proof. intros Ha. unfold f32_is_nan, nanb. rewrite (word_low F32 31) by (reflexivity || lia || assumption). reflexivity. Qed.
Lemma f64_is_nan_eq (a : Z) : is_enc F64 a -> f64_is_nan a = nanb F64 a.
Proof. intros Ha. unfold f64_is_nan, nanb. rewrite (word_low F64 63) by (reflexivity || lia || assumption). reflexivity. Qed.

(** ** Signs *)
Lemma copysign_abs_neg32 (a b : Z) : is_enc F32 a -> is_enc F32 b ->
  _eosio_f32_copysign a b = with_sign F32 (sign_of F32 b) (pattern_of F32 a) /\
  _eosio_f32_abs a = with_sign F32 false (pattern_of F32 a) /\
  _eosio_f32_neg a = negate F32 a.
Proof.
  intros Ha Hb. unfold _eosio_f32_copysign, _eosio_f32_abs, _eosio_f32_neg, negate.
  destruct (word_split F32 31 sign_weight32 a Ha) as (_ & B & _).
  rewrite (word_low F32 31) by (reflexivity || lia || assumption).
  rewrite (word_sign F32 31 sign_weight32 ltac:(lia) b Hb), (word_sign F32 31 sign_weight32 ltac:(lia) a Ha).
  autorewrite with bits. split; [|split; [reflexivity|]].
  - rewrite uwrap_small by (destruct (sign_of F32 b); split; (discriminate || reflexivity)).
    now apply (word_join F32 31 sign_weight32).
  - replace (z2b (b2z (sign_of F32 a))) with (sign_of F32 a) by (now destruct (sign_of F32 a)).
    now apply (word_join F32 31 sign_weight32).
Qed.

Lemma copysign_abs_neg64 (a b : Z) : is_enc F64 a -> is_enc F64 b ->
  _eosio_f64_copysign a b = with_sign F64 (sign_of F64 b) (pattern_of F64 a) /\
  _eosio_f64_abs a = with_sign F64 false (pattern_of F64 a) /\
  _eosio_f64_neg a = negate F64 a.
Proof.
  intros Ha Hb. unfold _eosio_f64_copysign, _eosio_f64_abs, _eosio_f64_neg, negate.
  destruct (word_split F64 63 sign_weight64 a Ha) as (_ & B & _).
  rewrite (word_low F64 63) by (reflexivity || lia || assumption).
  rewrite (word_sign F64 63 sign_weight64 ltac:(lia) b Hb), (word_sign F64 63 sign_weight64 ltac:(lia) a Ha).
  autorewrite with bits. split; [|split; [reflexivity|]].
  - rewrite uwrap_small by (destruct (sign_of F64 b); split; (discriminate || reflexivity)).
    now apply (word_join F64 63 sign_weight64).
  - replace (z2b (b2z (sign_of F64 a))) with (sign_of F64 a) by (now destruct (sign_of F64 a)).
    now apply (word_join F64 63 sign_weight64).
Qed.

(** ** Clearing low bits *)
Lemma clear_low (w x k m : Z) : 0 < w -> 0 <= k <= w -> m = 2 ^ k - 1 -> 0 <= x < 2 ^ w ->
  x .& uwrap w (Z.lnot m) = x - x mod 2 ^ k.
Proof.
  intros Hw Hk -> Hx. assert (0 < 2 ^ k <= 2 ^ w) by (split; [apply Z.pow_pos_nonneg|apply Z.pow_le_mono_r]; lia).
  rewrite Z.land_comm, land_lnot by lia. now rewrite Z.land_comm, (land_low _ _ k) by (try (rewrite Z.ones_equiv); lia).
Qed.

Lemma ones_shr (n e : Z) : 0 <= e <= n -> (2 ^ n - 1) >> e = 2 ^ (n - e) - 1.
Proof.
  intros He. rewrite shr_div by lia. assert (0 < 2 ^ e /\ 0 < 2 ^ (n - e)) by (split; apply Z.pow_pos_nonneg; lia).
  assert (E : 2 ^ n = 2 ^ (n - e) * 2 ^ e) by (rewrite <- Z.pow_add_r by lia; f_equal; lia).
  rewrite E. symmetry. apply Z.div_unique_pos with (2 ^ e - 1); lia.
Qed.

(** Rounding up by adding the mask and clearing it does nothing to a multiple. *)
Lemma round_up_multiple (x k : Z) : 0 <= k -> x mod 2 ^ k = 0 -> x + (2 ^ k - 1) - (x + (2 ^ k - 1)) mod 2 ^ k = x.
Proof.
  intros Hk E. assert (0 < 2 ^ k) by (apply Z.pow_pos_nonneg; lia). pose proof (Z.div_mod x (2 ^ k) ltac:(lia)) as D.
  replace ((x + (2 ^ k - 1)) mod 2 ^ k) with (2 ^ k - 1) by (apply Z.mod_unique_pos with (x / 2 ^ k); lia). lia.
Qed.

(** Clearing the low [k] bits, after adding ones below them when [up], rounds
    the word to a multiple of [2 ^ k]. *)
Lemma mask_round (w k a m : Z) (up : bool) : 0 < w -> 1 <= k <= w -> m = 2 ^ k - 1 -> 0 <= a < 2 ^ w ->
  (up = true -> a + m < 2 ^ w) ->
  (if a .& m =? 0 then a
   else let a := if up then uwrap w (a + m) else a in a .& uwrap w (Z.lnot m)) =
  2 ^ k * round_sig (if up then AwayFromZero else TowardZero) k a.
Proof.
  intros Hw Hk -> Ha Hup. assert (P : 0 < 2 ^ k) by (apply two_pow_pos; lia).
  rewrite (land_low a _ k) by (try (rewrite Z.ones_equiv); lia).
  assert (R : forall x, x - x mod 2 ^ k = 2 ^ k * (x / 2 ^ k)) by (intros x; pose proof (Z.div_mod x (2 ^ k) ltac:(lia)); lia).
  unfold round_sig. cbv zeta. destruct up; cbn [is_nearest_even andb increment].
  - specialize (Hup eq_refl). rewrite (uwrap_small w (a + _)) by lia. rewrite (clear_low w _ k) by lia.
    rewrite R. destruct (Z.eqb_spec (a mod 2 ^ k) 0) as [E|E]; [|reflexivity].
    rewrite <- R. symmetry. apply round_up_multiple; [lia|assumption].
  - rewrite Z.add_0_r. rewrite (clear_low w _ k), R by lia.
    destruct (Z.eqb_spec (a mod 2 ^ k) 0) as [E|E]; [|reflexivity]. rewrite <- R. lia.
Qed.

(** ** The library's rounding to an integral value, by exponent *)
Lemma round_middle32 (a mode : Z) (s : env) (k := 0x96 - expF32UI a) : is_enc F32 a -> 0x7F <= expF32UI a < 0x96 ->
  fst (f32_roundToInt a mode false s) = u32 (2 ^ k * round_sig (mag_direction mode (sign_of F32 a)) k a).
Proof.
  intros Ha He. unfold f32_roundToInt. cbv zeta. fold k.
  replace (expF32UI a <=? 0x7E) with false by lia. replace (0x96 <=? expF32UI a) with false by lia.
  destruct (F32_fields a Ha) as (-> & _). assert (Ha' := Ha). unfold is_enc in Ha'. change (2 * sign_weight F32) with (2 ^ 32) in Ha'.
  assert (2 ^ k <= 2 ^ 23) by (apply Z.pow_le_mono_r; lia).
  pose proof (round_word mode (sign_of F32 a) a k ltac:(lia) ltac:(lia) ltac:(lia)) as R. cbv zeta in R.
  rewrite R. unfold bind, when, ret. destruct (negb (_ =? a)); reflexivity.
Qed.

Lemma round_middle64 (a mode : Z) (s : env) (k := 0x433 - expF64UI a) : is_enc F64 a -> 0x3FF <= expF64UI a < 0x433 ->
  fst (f64_roundToInt a mode false s) = 2 ^ k * round_sig (mag_direction mode (sign_of F64 a)) k a.
Proof.
  intros Ha He. unfold f64_roundToInt. cbv zeta. fold k.
  replace (expF64UI a <=? 0x3FE) with false by lia. replace (0x433 <=? expF64UI a) with false by lia.
  destruct (F64_fields a Ha) as (-> & _ & Hm & Pa & Wa). assert (2 ^ k <= 2 ^ 52) by (apply Z.pow_le_mono_r; lia).
  assert (B : 0 <= a /\ a + 2 ^ k <= 2 ^ 64).
  { split; [apply Ha|]. rewrite Wa. unfold with_sign. change (sign_weight F64) with (2 ^ 63). rewrite Pa.
    destruct (sign_of F64 a); cbn [b2z]; lia. }
  pose proof (round_word mode (sign_of F64 a) a k ltac:(lia) ltac:(lia) ltac:(lia)) as R. cbv zeta in R.
  rewrite R. unfold bind, when, ret. destruct (negb (_ =? a)); reflexivity.
Qed.

(** Below one, with the tests of the intrinsics. *)
Definition below (one : Z) (mode : Z) (sg : bool) : Z :=
  if mode =? softfloat_round_min then (if sg then one else 0)
  else if mode =? softfloat_round_max then (if sg then 0 else one) else 0.

Lemma round_below32 (a mode : Z) (s : env) : is_enc F32 a -> expF32UI a <= 0x7E ->
  mode = softfloat_round_minMag \/ mode = softfloat_round_min \/ mode = softfloat_round_max ->
  fst (f32_roundToInt a mode false s) =
  if pattern_of F32 a =? 0 then a else with_sign F32 (sign_of F32 a) (below 0x3F800000 mode (sign_of F32 a)).
Proof.
  intros Ha He Hm. unfold f32_roundToInt. cbv zeta. replace (expF32UI a <=? 0x7E) with true by lia.
  pose proof (both_zero32 a a) as Z0. rewrite Z.lor_diag, andb_diag in Z0. unfold z2b at 1. rewrite negb_involutive, Z0.
  destruct (Z.eqb_spec (pattern_of F32 a) 0) as [E|E]; [reflexivity|].
  rewrite (word_high F32 31 sign_weight32 ltac:(lia) a (packToF32UI true 0 0) Ha eq_refl).
  destruct Hm as [-> | [-> | ->]]; destruct (sign_of F32 a); reflexivity.
Qed.

Lemma round_below64 (a mode : Z) (s : env) : is_enc F64 a -> expF64UI a <= 0x3FE ->
  mode = softfloat_round_minMag \/ mode = softfloat_round_min \/ mode = softfloat_round_max ->
  fst (f64_roundToInt a mode false s) =
  if pattern_of F64 a =? 0 then a else with_sign F64 (sign_of F64 a) (below 0x3FF0000000000000 mode (sign_of F64 a)).
Proof.
  intros Ha He Hm. unfold f64_roundToInt. cbv zeta. replace (expF64UI a <=? 0x3FE) with true by lia.
  pose proof (both_zero64 a a) as Z0. rewrite Z.lor_diag, andb_diag in Z0. unfold z2b at 1. rewrite negb_involutive, Z0.
  destruct (Z.eqb_spec (pattern_of F64 a) 0) as [E|E]; [reflexivity|].
  rewrite (word_high F64 63 sign_weight64 ltac:(lia) a (packToF64UI true 0 0) Ha eq_refl).
  destruct Hm as [-> | [-> | ->]]; destruct (sign_of F64 a); reflexivity.
Qed.

(** Numbers so large that all are integral. *)
Lemma round_large32 (a mode : Z) (s : env) : number F32 a -> 0x96 <= expF32UI a -> f32_roundToInt a mode false s = (a, s).
Proof.
  intros [Ha Na] He. destruct (F32_fields a Ha) as (_ & Ea & Ma & Pa & _).
  destruct (classes F32 a _ _ Ea Ma Pa) as (N & _). change (2 ^ eb F32 - 1) with 0xFF in N. rewrite Na in N.
  unfold f32_roundToInt. cbv zeta. replace (expF32UI a <=? 0x7E) with false by lia.
  replace (0x96 <=? expF32UI a) with true by lia. now rewrite <- N.
Qed.

Lemma round_large64 (a mode : Z) (s : env) : number F64 a -> 0x433 <= expF64UI a -> f64_roundToInt a mode false s = (a, s).
Proof.
  intros [Ha Na] He. destruct (F64_fields a Ha) as (_ & Ea & Ma & Pa & _).
  destruct (classes F64 a _ _ Ea Ma Pa) as (N & _). change (2 ^ eb F64 - 1) with 0x7FF in N. rewrite Na in N.
  unfold f64_roundToInt. cbv zeta. replace (expF64UI a <=? 0x3FE) with false by lia.
  replace (0x433 <=? expF64UI a) with true by lia. now rewrite <- N.
Qed.

(** A NaN has the largest exponent. *)
Lemma nan_exponent32 (a : Z) : is_enc F32 a -> nanb F32 a = true -> expF32UI a = 0xFF.
Proof.
  intros Ha N. destruct (F32_fields a Ha) as (_ & Ea & Ma & Pa & _).
  destruct (classes F32 a _ _ Ea Ma Pa) as (E & _). rewrite N in E. symmetry in E. now apply andb_prop in E as [E%Z.eqb_eq _].
Qed.
Lemma nan_exponent64 (a : Z) : is_enc F64 a -> nanb F64 a = true -> expF64UI a = 0x7FF.
Proof.
  intros Ha N. destruct (F64_fields a Ha) as (_ & Ea & Ma & Pa & _).
  destruct (classes F64 a _ _ Ea Ma Pa) as (E & _). rewrite N in E. symmetry in E. now apply andb_prop in E as [E%Z.eqb_eq _].
Qed.

Lemma mask_bound (w k a : Z) (up : bool) : 1 <= k -> 0 <= a < 2 ^ w -> (up = true -> a + (2 ^ k - 1) < 2 ^ w) ->
  0 <= 2 ^ k * round_sig (if up then AwayFromZero else TowardZero) k a < 2 ^ w.
Proof.
  intros Hk Ha Hup. assert (P : 0 < 2 ^ k) by (apply two_pow_pos; lia). unfold round_sig.
  destruct up; cbn [is_nearest_even andb increment].
  - specialize (Hup eq_refl). pose proof (Z.mul_div_le (a + (2 ^ k - 1)) (2 ^ k) P).
    assert (0 <= (a + (2 ^ k - 1)) / 2 ^ k) by (apply Z.div_pos; lia). nia.
  - rewrite Z.add_0_r. pose proof (Z.mul_div_le a (2 ^ k) P). assert (0 <= a / 2 ^ k) by (apply Z.div_pos; lia). nia.
Qed.

(** ** ceil, floor and trunc in 32 bits, trunc in 64 bits *)
Section Round32.
Context (a : Z) (s : env) (Ha : is_enc F32 a).
Let e := expF32UI a.
Let k := 0x96 - e.

#[local] Lemma word32 : 0 <= a < 2 ^ 32 /\ a .& 0x7FFFFFFF = pattern_of F32 a /\ a >> 31 = b2z (sign_of F32 a) /\
  a = b2z (sign_of F32 a) * 2 ^ 31 + pattern_of F32 a /\ 0 <= pattern_of F32 a < 2 ^ 31.
Proof.
  destruct (word_split F32 31 sign_weight32 a Ha) as (E & B & C).
  split; [lia|]. split; [apply (word_low F32 31); (reflexivity || lia || assumption)|].
  split; [apply (word_sign F32 31); (reflexivity || lia || assumption)|]. auto.
Qed.

#[local] Lemma word_nonzero32 : z2b (u32 (a << 1)) = negb (pattern_of F32 a =? 0).
Proof.
  destruct word32 as (_ & _ & _ & E & B). rewrite shl_mul by lia. unfold z2b. f_equal.
  unfold uwrap. replace (a * 2 ^ 1) with (2 * pattern_of F32 a + b2z (sign_of F32 a) * 2 ^ 32) by lia.
  rewrite Z.mod_add, Z.mod_small by lia. apply eq_true_iff_eq. rewrite !Z.eqb_eq. lia.
Qed.

#[local] Lemma number32 : e < 0xFF -> nanb F32 a = false.
Proof. intros L. destruct (nanb F32 a) eqn:N; [|reflexivity]. apply (nan_exponent32 a Ha) in N. fold e in N. lia. Qed.

(** The middle range, for a routine that adds the mask when [up]. *)
#[local] Lemma masked32 (up : bool) (mode : Z) (m : Z) : 0x7F <= e < 0x96 -> m = 2 ^ k - 1 ->
  mag_direction mode (sign_of F32 a) = (if up then AwayFromZero else TowardZero) ->
  (if a .& m =? 0 then a else let a := if up then u32 (a + m) else a in a .& u32 (Z.lnot m)) =
  fst (f32_roundToInt a mode false s).
Proof.
  intros He Em Hd. destruct word32 as (B & _). assert (Hk : 1 <= k <= 23) by (unfold k; lia).
  assert (P : 2 ^ k <= 2 ^ 23) by (apply Z.pow_le_mono_r; lia).
  assert (U : a + (2 ^ k - 1) < 2 ^ 32).
  { destruct word32 as (_ & _ & _ & E & _). destruct (F32_fields a Ha) as (_ & _ & Hm & Pa & _). fold e in Pa.
    destruct (sign_of F32 a); cbn [b2z] in E; lia. }
  rewrite (mask_round 32 k) by (lia || assumption). rewrite round_middle32 by (assumption || exact He).
  fold e k. rewrite Hd. symmetry. apply uwrap_small. apply mask_bound; lia.
Qed.

Lemma f32_ceil_round : _eosio_f32_ceil a = if nanb F32 a then a else fst (f32_roundToInt a softfloat_round_max false s).
Proof.
  unfold _eosio_f32_ceil. fold (expF32UI a). fold e. cbv zeta. destruct word32 as (B & _ & S & E & Bp). rewrite S.
  destruct (Z.leb_spec 23 (e - 0x7F)) as [L|L].
  { destruct (nanb F32 a) eqn:N; [reflexivity|]. rewrite round_large32 by ((split; assumption) || (unfold e in *; lia)). reflexivity. }
  rewrite number32 by lia. destruct (Z.leb_spec 0 (e - 0x7F)) as [L0|L0].
  - change 0x007FFFFF with (2 ^ 23 - 1). rewrite ones_shr by lia. replace (23 - (e - 0x7F)) with k by (unfold k; lia).
    rewrite <- (masked32 (negb (sign_of F32 a)) _ (2 ^ k - 1)) by (lia || (destruct (sign_of F32 a); reflexivity)).
    destruct (sign_of F32 a); reflexivity.
  - rewrite round_below32 by (assumption || auto || (unfold e in *; lia)). rewrite word_nonzero32.
    destruct (Z.eqb_spec (pattern_of F32 a) 0) as [P|P]; cbn [negb].
    + destruct (sign_of F32 a); cbn [b2z z2b Z.eqb negb] in *; [rewrite E, P; reflexivity|reflexivity].
    + destruct (sign_of F32 a); reflexivity.
Qed.

Lemma f32_floor_round : _eosio_f32_floor a = if nanb F32 a then a else fst (f32_roundToInt a softfloat_round_min false s).
Proof.
  unfold _eosio_f32_floor. fold (expF32UI a). fold e. cbv zeta. destruct word32 as (B & _ & S & E & Bp). rewrite S.
  destruct (Z.leb_spec 23 (e - 0x7F)) as [L|L].
  { destruct (nanb F32 a) eqn:N; [reflexivity|]. rewrite round_large32 by ((split; assumption) || (unfold e in *; lia)). reflexivity. }
  rewrite number32 by lia. destruct (Z.leb_spec 0 (e - 0x7F)) as [L0|L0].
  - change 0x007FFFFF with (2 ^ 23 - 1). rewrite ones_shr by lia. replace (23 - (e - 0x7F)) with k by (unfold k; lia).
    rewrite <- (masked32 (sign_of F32 a) _ (2 ^ k - 1)) by (lia || (destruct (sign_of F32 a); reflexivity)).
    destruct (sign_of F32 a); reflexivity.
  - rewrite round_below32 by (assumption || auto || (unfold e in *; lia)). rewrite word_nonzero32.
    destruct (Z.eqb_spec (pattern_of F32 a) 0) as [P|P]; cbn [negb].
    + destruct (sign_of F32 a); cbn [b2z z2b Z.eqb negb] in *; [reflexivity|rewrite E, P; reflexivity].
    + destruct (sign_of F32 a); reflexivity.
Qed.

Lemma f32_trunc_round : _eosio_f32_trunc a = if nanb F32 a then a else fst (f32_roundToInt a softfloat_round_minMag false s).
Proof.
  unfold _eosio_f32_trunc. fold (expF32UI a). fold e. cbv zeta. destruct word32 as (B & Lo & S & E & Bp).
  destruct (Z.leb_spec (23 + 9) (e - 0x7F + 9)) as [L|L].
  { destruct (nanb F32 a) eqn:N; [reflexivity|]. rewrite round_large32 by ((split; assumption) || (unfold e in *; lia)). reflexivity. }
  rewrite number32 by lia. change 0xFFFFFFFF with (2 ^ 32 - 1). destruct (Z.ltb_spec (e - 0x7F + 9) 9) as [L0|L0].
  - rewrite ones_shr by lia. change (2 ^ (32 - 1) - 1) with 0x7FFFFFFF. rewrite Lo.
    rewrite round_below32 by (assumption || auto || (unfold e in *; lia)).
    destruct (Z.eqb_spec (pattern_of F32 a) 0) as [P|P]; [reflexivity|].
    rewrite (clear_low 32 a 31) by lia. change (a mod 2 ^ 31) with (pattern_of F32 a).
    unfold with_sign. change (sign_weight F32) with (2 ^ 31). cbn -[Z.pow]. lia.
  - rewrite ones_shr by lia. replace (32 - (e - 0x7F + 9)) with k by (unfold k; lia).
    rewrite <- (masked32 false _ (2 ^ k - 1)) by (lia || (destruct (sign_of F32 a); reflexivity)). reflexivity.
Qed.
End Round32.

Lemma exponent64 (a : Z) : is_enc F64 a -> (a >> 52) .& 0x7FF = expF64UI a.
Proof.
  intros Ha. destruct (word_split F64 63 sign_weight64 a Ha) as (_ & _ & C). unfold expF64UI.
  rewrite !(land_low _ 0x7FF 11), !shr_div by (reflexivity || lia).
  rewrite swrap_small; [reflexivity|lia|]. clear - C. split; [zdm|]. change (2 ^ (64 - 1)) with (2 ^ 63). zdm.
Qed.

Section Round64.
Context (a : Z) (s : env) (Ha : is_enc F64 a).

Lemma f64_trunc_round : _eosio_f64_trunc a = if nanb F64 a then a else fst (f64_roundToInt a softfloat_round_minMag false s).
Proof.
  unfold _eosio_f64_trunc. cbv zeta. destruct (word_split F64 63 sign_weight64 a Ha) as (E & B & C).
  rewrite (exponent64 a Ha). set (e := expF64UI a) in *. set (k := 0x433 - e).
  destruct (Z.leb_spec (52 + 12) (e - 0x3FF + 12)) as [L|L].
  { destruct (nanb F64 a) eqn:N; [reflexivity|]. rewrite round_large64 by ((split; assumption) || (unfold e in *; lia)). reflexivity. }
  assert (N : nanb F64 a = false) by (destruct (nanb F64 a) eqn:N; [apply (nan_exponent64 a Ha) in N; fold e in N; lia|reflexivity]).
  rewrite N. change 0xFFFFFFFFFFFFFFFF with (2 ^ 64 - 1). destruct (Z.ltb_spec (e - 0x3FF + 12) 12) as [L0|L0].
  - rewrite ones_shr by lia. change (2 ^ (64 - 1) - 1) with (2 ^ 63 - 1).
    rewrite (word_low F64 63 sign_weight64 ltac:(lia) a _ Ha) by reflexivity.
    rewrite round_below64 by (assumption || auto || (unfold e in *; lia)).
    destruct (Z.eqb_spec (pattern_of F64 a) 0) as [P|P]; [reflexivity|].
    rewrite (clear_low 64 a 63) by lia. change (a mod 2 ^ 63) with (pattern_of F64 a).
    unfold with_sign. change (sign_weight F64) with (2 ^ 63). cbn -[Z.pow]. lia.
  - rewrite ones_shr by lia. replace (64 - (e - 0x3FF + 12)) with k by (unfold k; lia).
    rewrite round_middle64 by (assumption || (fold e; lia)). fold e k.
    replace (mag_direction softfloat_round_minMag (sign_of F64 a)) with TowardZero by (destruct (sign_of F64 a); reflexivity).
    refine (mask_round 64 k a (2 ^ k - 1) false _ _ _ _ _); unfold k; lia.
Qed.
End Round64.
