(* ===== verification/FloatTrick.v ===== *)
(** Rounding to an integer by arithmetic: adding and subtracting [2 ^ mb], at
    which the format has no fraction left, rounds a smaller number to the
    nearest integer, and the distance to it is exact.  Proved against the
    interface, for any format whose exponents reach far enough. *)
From Stdlib Require Import ZArith Bool Lia Reals Lra.
From S2P Require Import Prelude Ieee Rounding RoundPack Softfloat Machine Contract Interface Laws.
Local Open Scope Z_scope.
Local Open Scope c_scope.
Local Open Scope M_scope.

(** ** Rounding a real to an integer *)
Lemma rint_unique (d : direction) (y : R) (n n' : Z) : rint d y n -> rint d y n' -> n = n'.
Proof.
  intros A B. assert (C : n < n' \/ n = n' \/ n' < n) by lia.
  assert (W : forall i j, i < j -> rint d y i -> rint d y j -> False); [|destruct C as [C|[C|C]]; [|assumption|]; exfalso; eauto].
  clear. intros i j L A B. assert (D : (IZR i + 1 <= IZR j)%R) by (rewrite <- plus_IZR; apply IZR_le; lia).
  destruct d; simpl in A, B; try lra.
  assert (E : (IZR j = IZR i + 1)%R) by (revert A B; case_rabs; lra).
  rewrite <- plus_IZR in E. apply eq_IZR in E. subst j. rewrite plus_IZR in *.
  destruct A as [A|[A Ea]], B as [B|[B Eb]]; revert A B; try (case_rabs; lra).
  rewrite Z.even_add, Ea in Eb. discriminate.
Qed.

Lemma rint_shift (y : R) (n c : Z) : Z.even c = true -> rint NearestEven y n -> rint NearestEven (y + IZR c) (c + n).
Proof.
  intros Ec H. simpl in *. rewrite plus_IZR, Z.even_add, Ec. replace (y + IZR c - (IZR c + IZR n))%R with (y - IZR n)%R by ring.
  destruct H as [H|[H E]]; [now left|right; rewrite E; auto].
Qed.

Lemma rint_near (y : R) (n : Z) : rint NearestEven y n -> (- / 2 <= IZR n - y <= / 2)%R.
Proof. simpl. case_rabs; lra. Qed.

Section Trick.
Context {f : format} {O : FloatOps f} {L : FloatLaws f}.
Context (Emin : emin f <= - 2 * mb f) (Bias : mb f + 1 <= bias f).

(** The exponent field at which the significand is an integer. *)
Let q : Z := mb f + bias f - 1.
Definition unit_exponent : Z := (mb f + bias f) * 2 ^ mb f.
Definition shifter : Z := with_sign f false unit_exponent.

#[local] Lemma q_range : 0 <= q <= 2 ^ eb f - 3 /\ q + emin f = 0 /\ 1 <= mb f.
Proof.
  destruct laws_format. unfold q, emin, bias in *.
  assert (2 ^ eb f = 2 * 2 ^ (eb f - 1)) by (rewrite <- Z.pow_succ_r by lia; f_equal; lia). lia.
Qed.

(** A significand at that exponent. *)
#[local] Lemma packed (n : Z) : 0 <= n <= 2 ^ mb f ->
  let b := q * 2 ^ mb f + (2 ^ mb f + n) in 0 <= b < inf_pattern f /\ mag f b = (IZR (2 ^ mb f) + IZR n)%R.
Proof.
  intros Hn b. pose proof q_range as (Hq & Eq & Hm). pose proof (pow_mb_pos f) as P.
  assert (Q2 : q + 2 <= 2 ^ eb f - 2).
  { unfold q, bias in *. destruct laws_format. assert (2 ^ eb f = 2 * 2 ^ (eb f - 1)) by (rewrite <- Z.pow_succ_r by lia; f_equal; lia). lia. }
  split; [unfold b, inf_pattern; nia|]. unfold b. rewrite (mag_pack f) by lia. rewrite Eq, pow2_0, plus_IZR. ring.
Qed.

#[local] Lemma shifter_finite : is_finite f shifter /\ sign_of f shifter = false /\ value f shifter = IZR (2 ^ mb f).
Proof.
  pose proof (packed 0 ltac:(pose proof (pow_mb_pos f); lia)) as [B Mg]. cbv zeta in *.
  replace (q * 2 ^ mb f + (2 ^ mb f + 0)) with unit_exponent in * by (unfold unit_exponent, q; ring).
  destruct (finite_pattern f false unit_exponent B) as (F & S & _ & V). split; [exact F|]. split; [exact S|].
  unfold shifter. rewrite V, Mg. cbn [signR]. ring.
Qed.

(** Below the shifter a number is smaller than [2 ^ mb]. *)
Lemma below_shifter (b : Z) : 0 <= b < unit_exponent -> (mag f b < IZR (2 ^ mb f))%R.
Proof.
  intros Hb. pose proof (packed 0 ltac:(pose proof (pow_mb_pos f); lia)) as [_ Mg]. cbv zeta in Mg.
  replace (q * 2 ^ mb f + (2 ^ mb f + 0)) with unit_exponent in Mg by (unfold unit_exponent, q; ring).
  rewrite Rplus_0_r in Mg. rewrite <- Mg. now apply (mag_lt f).
Qed.

Definition one : Z := with_sign f false (bias f * 2 ^ mb f).

Lemma one_mag : 0 <= bias f * 2 ^ mb f < inf_pattern f /\ mag f (bias f * 2 ^ mb f) = 1%R.
Proof.
  pose proof q_range as (Hq & Eq & Hmb). pose proof (pow_mb_pos f) as P.
  split; [unfold q in Hq; unfold inf_pattern; nia|].
  rewrite <- (Z.add_0_r (bias f * _)), (mag_fields f) by lia. replace (bias f =? 0) with false by lia.
  rewrite Z.add_0_r, <- pow2_IZR, <- pow2_add by lia. replace (mb f + _) with 0 by (unfold emin; lia). apply pow2_0.
Qed.

Lemma from_one (b : Z) : bias f * 2 ^ mb f <= b -> (1 <= mag f b)%R.
Proof.
  intros Hb. destruct one_mag as [B <-]. apply (mag_le f). lia.
Qed.

Context (a : Z) (Fa : is_finite f a).
Let sg := sign_of f a.
Let m := mag f (pattern_of f a).
Context (Hm : (m < IZR (2 ^ mb f))%R).

#[local] Lemma m_nonneg : (0 <= m)%R.
Proof. apply (mag_nonneg f). apply (pattern_bounds f). Qed.

Definition near_even (s : env) : Prop := softfloat_roundingMode s = softfloat_round_near_even.

#[local] Lemma near_even_valid (s : env) : near_even s -> valid_mode s /\ env_direction s sg = NearestEven /\
  (softfloat_roundingMode s =? softfloat_round_min) = false.
Proof. intros E. unfold valid_mode, env_direction. rewrite E. split; [cbv; split; discriminate|]. now split. Qed.

(** [sg]-magnitude sums and differences. *)
#[local] Lemma value_a : value f a = signR sg m.
Proof. reflexivity. Qed.

#[local] Lemma round_to_integer (s : env) (r : Z * env) (N : Z) : near_even s -> rint NearestEven m N -> 0 <= N <= 2 ^ mb f ->
  correctly_rounded f s (signR sg (m + IZR (2 ^ mb f))) r ->
  exists fl, r = (with_sign f sg (q * 2 ^ mb f + (2 ^ mb f + N)), raised_env fl s).
Proof.
  intros Hs HN BN [Cp Cn]. destruct (near_even_valid s Hs) as (_ & D & _). pose proof m_nonneg as M0.
  pose proof q_range as (Hq & Eq & Hmb). pose proof (pow_mb_pos f) as P. assert (P' : (0 < IZR (2 ^ mb f))%R) by (apply IZR_lt; lia).
  assert (Rr : rounded_result f s sg (m + IZR (2 ^ mb f)) r).
  { destruct sg; cbn [signR] in Cp, Cn; [|apply Cp; lra].
    rewrite <- (Ropp_involutive (m + IZR (2 ^ mb f))). apply Cn. lra. }
  destruct Rr as (b & fl & -> & R & _). exists fl. do 2 f_equal. rewrite D in R.
  apply (rounds_to_unique f _ _ _ _ R). rewrite <- (Rmult_1_r (m + _)), <- pow2_0, <- Eq.
  apply (rounds_to_pack f); [lia|lra|right; lra|rewrite mult_IZR; lra|]. apply rint_shift; [|assumption].
  replace (mb f) with (Z.succ (mb f - 1)) by lia. rewrite Z.pow_succ_r by lia. now rewrite Z.even_mul.
Qed.

(** A number of the format with the value of an integer. *)
#[local] Lemma exact_integer (s : env) (sign : bool) (N c : Z) (r : Z * env) : 0 <= c < inf_pattern f -> mag f c = IZR N -> 0 < N ->
  correctly_rounded f s (signR sign (IZR N)) r -> r = (with_sign f sign c, s).
Proof.
  intros Hc Mc HN C. destruct (finite_pattern f sign c Hc) as (F & _ & _ & V). assert (0 < IZR N)%R by now apply IZR_lt.
  apply (correctly_rounded_exact f s); [exact F|rewrite V, Mc; destruct sign; cbn [signR]; lra|]. now rewrite V, Mc.
Qed.

Lemma near_trick (s : env) : near_even s -> exists N c fl,
  rint NearestEven m N /\ 0 <= N <= 2 ^ mb f /\ 0 <= c < inf_pattern f /\ mag f c = IZR N /\
  (if sg then t <- fsub a shifter ;; fadd t shifter else t <- fadd a shifter ;; fsub t shifter) s =
  (with_sign f (sg && negb (N =? 0)) c, raised_env fl s).
Proof.
  intros Hs. destruct (near_even_valid s Hs) as (Hv & _). pose proof m_nonneg as M0. pose proof (pow_mb_pos f) as P.
  destruct (rint_exists NearestEven m) as [N HN].
  assert (BN : 0 <= N <= 2 ^ mb f).
  { split; [apply (rint_mono_Z _ m N 0 HN), M0|apply (rint_mono_Z _ m N _ HN); lra]. }
  pose proof q_range as (_ & _ & Hmb).
  destruct (representable_int f N) as (c & Hc & Mc);
    [split; [lia|]; apply Z.le_trans with (2 ^ mb f); [lia|]; apply Z.pow_le_mono_r; lia|lia|lia|].
  destruct shifter_finite as (Fs & Ss & Vs). destruct (packed N BN) as [Bt Mt]. cbv zeta in *.
  set (b := q * 2 ^ mb f + (2 ^ mb f + N)) in *. destruct (finite_pattern f sg b Bt) as (Ft & St & _ & Vt).
  assert (First : exists fl, (if sg then fsub a shifter s else fadd a shifter s) = (with_sign f sg b, raised_env fl s)).
  { apply (round_to_integer s _ N Hs HN BN). pose proof value_a as Va.
    destruct (sub_finite a shifter s Hv Fa Fs) as [_ C1]. destruct (add_finite a shifter s Hv Fa Fs) as [_ C2].
    rewrite Vs in C1, C2. destruct sg; cbn [signR] in *.
    - replace (- (m + IZR (2 ^ mb f)))%R with (value f a - IZR (2 ^ mb f))%R by (rewrite Va; ring). exact C1.
    - rewrite Va in C2. exact C2. }
  destruct First as [fl First]. exists N, c, fl. split; [exact HN|]. split; [exact BN|]. split; [exact Hc|]. split; [exact Mc|].
  assert (Hs' : near_even (raised_env fl s)) by exact Hs. destruct (near_even_valid _ Hs') as (Hv' & _ & Hmin).
  destruct (sub_finite _ shifter _ Hv' Ft Fs) as [Z1 C1]. destruct (add_finite _ shifter _ Hv' Ft Fs) as [Z2 C2].
  rewrite Vt, Vs, Mt, St, Ss, ?Hmin in *.
  destruct (Z.eqb_spec N 0) as [E|E].
  - assert (c = 0) as -> by (apply (mag_inj f); [lia|lia|]; rewrite Mc, E; symmetry; apply (mag_zero f)).
    rewrite andb_false_r. subst N. destruct sg; cbn [signR Bool.eqb] in *; unfold bind; rewrite First.
    + apply Z2. ring.
    + apply Z1. ring.
  - rewrite andb_true_r. destruct sg; cbn [signR] in *; unfold bind; rewrite First.
    + apply (exact_integer _ true N); [assumption..|lia|]. cbn [signR].
      replace (- IZR N)%R with (- (IZR (2 ^ mb f) + IZR N) + IZR (2 ^ mb f))%R by ring. exact C2.
    + apply (exact_integer _ false N); [assumption..|lia|]. cbn [signR].
      replace (IZR N) with (IZR (2 ^ mb f) + IZR N - IZR (2 ^ mb f))%R by ring. exact C1.
Qed.

(** The library's rounding, from the integer it should be. *)
Lemma round_determined (s : env) (mode N c : Z) : rint (mag_direction mode sg) m N -> 0 <= c < inf_pattern f ->
  mag f c = IZR N -> fst (froundToInt a mode false s) = with_sign f sg c.
Proof.
  intros HN Hc Mc. pose proof (round_law a mode false s (proj1 Fa)) as R. unfold integral_spec in R.
  destruct (finite_classes f a Fa) as [E1 E2]. rewrite E1, E2 in R. destruct R as (b & n & Hn & Mb & Hb & fl & -> & _).
  fold sg m in Hn. rewrite (rint_unique _ _ _ _ Hn HN), <- Mc in Mb. apply (mag_inj f) in Mb as ->; [reflexivity|lia..].
Qed.

Lemma number_zero : number f 0 /\ value f 0 = 0%R.
Proof.
  pose proof (inf_pattern_pos f) as I. destruct (finite_pattern f false 0 ltac:(lia)) as (F & _ & _ & V).
  change (with_sign f false 0) with 0 in *. split; [split; [apply F|apply (finite_classes f 0 F)]|]. rewrite V. apply (mag_zero f).
Qed.

Lemma finite_number (z : Z) : is_finite f z -> number f z.
Proof. intros F. split; [apply F|apply (finite_classes f z F)]. Qed.

(** ** nearest *)
Lemma nearest_round (s : env) : near_even s ->
  fst ((y <- (if sg then t <- fsub a shifter ;; fadd t shifter else t <- fadd a shifter ;; fsub t shifter) ;;
        z <- feq y 0 ;; ret (if z then with_sign f sg 0 else y)) s) =
  fst (froundToInt a softfloat_round_near_even false s).
Proof.
  intros Hs. destruct (near_trick s Hs) as (N & c & fl & HN & BN & Hc & Mc & E).
  rewrite (round_determined s softfloat_round_near_even N c HN Hc Mc). unfold bind at 1. rewrite E. unfold bind, ret.
  destruct (finite_pattern f (sg && negb (N =? 0)) c Hc) as (F & _ & _ & V). destruct number_zero as [F0 V0].
  destruct (eq_law_number (with_sign f (sg && negb (N =? 0)) c) 0 (raised_env fl s) (finite_number _ F) F0) as [Es Ev].
  destruct (feq _ 0 _) as [z s']. cbn [fst snd] in *. rewrite V, V0, Mc in Ev. destruct (Z.eqb_spec N 0) as [-> |N0].
  - assert (c = 0) as -> by (apply (mag_inj f); [lia|lia|]; rewrite Mc; symmetry; apply (mag_zero f)).
    replace z with true; [reflexivity|]. symmetry. apply Ev. rewrite andb_false_r. reflexivity.
  - rewrite andb_true_r. destruct z; [|reflexivity]. exfalso. apply (not_0_IZR N N0). destruct Ev as [Ev _]. specialize (Ev eq_refl).
    destruct (sg && negb false); cbn [signR] in Ev; lra.
Qed.

(** ** The distance to the nearest integer *)
Context (Hm1 : (1 <= m)%R).

(** The number and its distance to an integer near it have the same exponent. *)
#[local] Lemma scaled : exists j n, 1 <= j <= mb f /\ m = (IZR n * pow2 (- j))%R.
Proof.
  pose proof (pattern_bounds f a) as B. destruct (unpack f (pattern_of f a) ltac:(lia)) as (p & n & E & Hp & Hn & C).
  assert (Em : m = (IZR n * pow2 (p + emin f))%R) by (unfold m; rewrite E at 1; apply (mag_pack f); lia).
  pose proof (pow_mb_pos f) as P. pose proof q_range as (_ & _ & Hmb). exists (- (p + emin f)), n. rewrite Z.opp_involutive.
  split; [|exact Em]. split.
  - destruct (Z.lt_ge_cases (p + emin f) 0) as [|G]; [lia|exfalso].
    assert (p <> 0) by (intros ->; lia). assert (2 ^ mb f <= n) by lia.
    rewrite pow2_IZR, <- mult_IZR in Em by lia. assert (1 <= 2 ^ (p + emin f)) by (apply (Z.pow_le_mono_r 2 0); lia).
    rewrite Em in Hm. apply lt_IZR in Hm. nia.
  - destruct (Z.lt_ge_cases (p + emin f) (- mb f)) as [G|]; [exfalso|lia].
    assert (K : (m < IZR (2 * 2 ^ mb f) * pow2 (- mb f - 1))%R).
    { rewrite Em. apply Rlt_le_trans with (IZR (2 * 2 ^ mb f) * pow2 (p + emin f))%R.
      - apply Rmult_lt_compat_r; [apply pow2_pos|]. apply IZR_lt. lia.
      - apply Rmult_le_compat_l; [apply IZR_le; lia|]. apply pow2_le. lia. }
    replace (IZR (2 * 2 ^ mb f) * pow2 (- mb f - 1))%R with 1%R in K; [lra|].
    replace (2 * 2 ^ mb f) with (2 ^ (mb f + 1)) by (rewrite Z.pow_add_r by lia; ring). rewrite <- pow2_IZR, <- pow2_add by lia.
    replace (mb f + 1 + (- mb f - 1)) with 0 by lia. symmetry. apply pow2_0.
Qed.

#[local] Lemma distance_representable (N : Z) : rint NearestEven m N ->
  exists sy cy, 0 <= cy < inf_pattern f /\ signR sy (mag f cy) = (IZR N - m)%R.
Proof.
  intros HN. destruct scaled as (j & n & Hj & Em). pose proof (rint_near m N HN) as Near.
  set (D := N * 2 ^ j - n). assert (ED : (IZR N - m = IZR D * pow2 (- j))%R).
  { unfold D. rewrite minus_IZR, mult_IZR, <- pow2_IZR, Em by lia. rewrite Rmult_minus_distr_r, Rmult_assoc, <- pow2_add.
    replace (j + - j) with 0 by lia. rewrite pow2_0. ring. }
  assert (P : 2 ^ j = 2 * 2 ^ (j - 1)) by (rewrite <- Z.pow_succ_r by lia; f_equal; lia).
  assert (BD : Z.abs D <= 2 ^ (j - 1)).
  { assert (K : forall x, (x * pow2 (- j) * IZR (2 ^ j) = x)%R).
    { intros x. rewrite <- pow2_IZR, Rmult_assoc, <- pow2_add by lia. replace (- j + j) with 0 by lia. rewrite pow2_0. ring. }
    assert (Pj : (0 < IZR (2 ^ j))%R) by (apply IZR_lt, two_pow_pos; lia). rewrite ED in Near. pose proof (K (IZR D)) as KD.
    assert (Q : (IZR (2 ^ j) = 2 * IZR (2 ^ (j - 1)))%R) by (rewrite P at 1; apply mult_IZR).
    apply Z.abs_le. split; apply le_IZR; rewrite ?opp_IZR; nra. }
  destruct (Z.eq_dec D 0) as [E0|N0].
  - exists false, 0. split; [pose proof (inf_pattern_pos f); lia|]. rewrite ED, E0. cbn [signR]. rewrite (mag_zero f). ring.
  - assert (L0 : 0 <= Z.log2 (Z.abs D) <= j - 1).
    { split; [apply Z.log2_nonneg|]. rewrite <- (Z.log2_pow2 (j - 1)) by lia. now apply Z.log2_le_mono. }
    assert (2 ^ (j - 1) < 2 ^ (mb f + 1)) by (apply Z.pow_lt_mono_r; lia).
    destruct (representable f (Z.abs D) (- j)) as (c & Hc & Mc); [lia..|].
    exists (D <? 0), c. split; [lia|]. rewrite Mc, ED.
    destruct (Z.ltb_spec D 0); cbn [signR]; [rewrite Z.abs_neq, opp_IZR by lia; ring|now rewrite Z.abs_eq by lia].
Qed.

(** ** ceil and floor *)
Definition distance : M Z :=
  if sg then t <- fsub a shifter ;; t <- fadd t shifter ;; fsub t a
  else t <- fadd a shifter ;; t <- fsub t shifter ;; fsub t a.

#[local] Lemma distance_exact (s : env) : near_even s -> exists N c y fl,
  rint NearestEven m N /\ 1 <= N <= 2 ^ mb f /\ 0 <= c < inf_pattern f /\ mag f c = IZR N /\
  is_finite f y /\ value f y = signR sg (IZR N - m) /\ distance s = (y, raised_env fl s) /\
  forall s', near_even s' -> fadd a y s' = (with_sign f sg c, s').
Proof.
  intros Hs. destruct (near_trick s Hs) as (N & c & fl & HN & BN & Hc & Mc & E).
  assert (N1 : 1 <= N) by (apply (rint_mono_Z _ m N 1 HN), Hm1).
  replace (sg && negb (N =? 0)) with sg in E by (destruct (Z.eqb_spec N 0); [lia|now rewrite andb_true_r]).
  destruct (finite_pattern f sg c Hc) as (Ft & St & _ & Vt). rewrite Mc in Vt.
  assert (Hs' : near_even (raised_env fl s)) by exact Hs. destruct (near_even_valid _ Hs') as (Hv & _).
  assert (Y : exists y, is_finite f y /\ value f y = signR sg (IZR N - m) /\
                        fsub (with_sign f sg c) a (raised_env fl s) = (y, raised_env fl s)).
  { destruct (sub_finite _ a _ Hv Ft Fa) as [Z0 C]. rewrite Vt, value_a in Z0, C.
    destruct (distance_representable N HN) as (sy & cy & Hy & Vy). pose proof (mag_nonneg f cy ltac:(lia)) as My.
    assert (Ed : (signR sg (IZR N) - signR sg m)%R = signR sg (IZR N - m)) by (destruct sg; cbn [signR]; ring). rewrite Ed in Z0, C.
    destruct (Req_dec (signR sg (IZR N - m)) 0) as [E0|N0].
    - pose proof (inf_pattern_pos f). match type of Z0 with _ -> _ = (with_sign f ?z 0, _) =>
        destruct (finite_pattern f z 0 ltac:(lia)) as (F & _ & _ & V) end.
      eexists. split; [exact F|]. split; [|exact (Z0 E0)]. rewrite V, E0, (mag_zero f). match goal with |- signR ?z _ = _ => destruct z end; cbn [signR]; ring.
    - destruct (finite_pattern f (xorb sg sy) cy Hy) as (F & _ & _ & V).
      assert (V' : value f (with_sign f (xorb sg sy) cy) = signR sg (IZR N - m)) by (rewrite V, <- Vy; destruct sg, sy; cbn [xorb signR]; ring).
      eexists. split; [exact F|]. split; [exact V'|]. apply (correctly_rounded_exact f); [exact F|rewrite V'; exact N0|]. now rewrite V'. }
  destruct Y as (y & Fy & Vy & Ey). exists N, c, y, fl. do 6 (split; [assumption || lia|]). split.
  - unfold distance. destruct sg; unfold bind in *.
    + destruct (fsub a shifter s) as [t1 s1]. destruct (fadd t1 shifter s1) as [t2 s2]. injection E as -> ->. exact Ey.
    + destruct (fadd a shifter s) as [t1 s1]. destruct (fsub t1 shifter s1) as [t2 s2]. injection E as -> ->. exact Ey.
  - intros s' Hs2. destruct (near_even_valid _ Hs2) as (Hv2 & _). apply add_exact; [assumption..| |].
    + rewrite Vt. assert (0 < IZR N)%R by (apply IZR_lt; lia). destruct sg; cbn [signR]; lra.
    + rewrite Vt, Vy, value_a. destruct sg; cbn [signR]; ring.
Qed.

#[local] Lemma one_finite : is_finite f one /\ value f one = 1%R.
Proof.
  destruct one_mag as [B Mg]. destruct (finite_pattern f false _ B) as (F & _ & _ & V). split; [exact F|]. unfold one. now rewrite V, Mg.
Qed.

(** One step towards or away from zero. *)
#[local] Lemma step_exact (s : env) (N c : Z) : near_even s -> 1 <= N <= 2 ^ mb f -> 0 <= c < inf_pattern f -> mag f c = IZR N ->
  (sg = false \/ 2 <= N -> exists c', 0 <= c' < inf_pattern f /\ mag f c' = IZR (if sg then N - 1 else N + 1) /\
     fadd (with_sign f sg c) one s = (with_sign f sg c', s)) /\
  (sg = true \/ 2 <= N -> exists c', 0 <= c' < inf_pattern f /\ mag f c' = IZR (if sg then N + 1 else N - 1) /\
     fsub (with_sign f sg c) one s = (with_sign f sg c', s)).
Proof.
  intros Hs BN Hc Mc. destruct one_finite as [F1 V1]. pose proof q_range as (_ & _ & Hmb).
  destruct (finite_pattern f sg c Hc) as (Fc & _ & _ & Vc). rewrite Mc in Vc. destruct (near_even_valid s Hs) as (Hv & _).
  assert (P : 2 ^ (mb f + 1) = 2 * 2 ^ mb f) by (rewrite Z.pow_add_r by lia; ring).
  destruct (add_finite _ one s Hv Fc F1) as [_ C1]. destruct (sub_finite _ one s Hv Fc F1) as [_ C2]. rewrite Vc, V1 in C1, C2.
  split; intros K.
  - destruct (representable_int f (if sg then N - 1 else N + 1)) as (c' & Hc' & Mc'); [destruct sg; lia|lia|lia|].
    exists c'. split; [exact Hc'|]. split; [exact Mc'|]. apply (exact_integer s sg _ c' _ Hc' Mc'); [destruct sg; [destruct K; [discriminate|]|]; lia|].
    replace (signR sg (IZR (if sg then N - 1 else N + 1))) with (signR sg (IZR N) + 1)%R; [exact C1|].
    destruct sg; cbn [signR]; rewrite ?minus_IZR, ?plus_IZR; ring.
  - destruct (representable_int f (if sg then N + 1 else N - 1)) as (c' & Hc' & Mc'); [destruct sg; lia|lia|lia|].
    exists c'. split; [exact Hc'|]. split; [exact Mc'|]. apply (exact_integer s sg _ c' _ Hc' Mc'); [destruct sg; [|destruct K; [discriminate|]]; lia|].
    replace (signR sg (IZR (if sg then N + 1 else N - 1))) with (signR sg (IZR N) - 1)%R; [exact C2|].
    destruct sg; cbn [signR]; rewrite ?minus_IZR, ?plus_IZR; ring.
Qed.

Lemma ceil_round (s : env) : near_even s ->
  fst ((y <- distance ;; c <- flt y 0 ;; if c then t <- fadd a y ;; fadd t one else fadd a y) s) =
  fst (froundToInt a softfloat_round_max false s).
Proof.
  intros Hs. destruct (distance_exact s Hs) as (N & c & y & fl & HN & BN & Hc & Mc & Fy & Vy & Ey & Ay).
  assert (Hs' : near_even (raised_env fl s)) by exact Hs. specialize (Ay _ Hs'). destruct number_zero as [F0 V0].
  destruct (lt_law y 0 (raised_env fl s) (finite_number _ Fy) F0) as [Es Ev]. rewrite Vy, V0 in Ev.
  unfold bind at 1. rewrite Ey. unfold bind at 1. destruct (flt y 0 _) as [lt s']. cbn [fst snd] in *. subst s'.
  pose proof (rint_near m N HN) as Near.
  destruct (step_exact _ N c Hs' BN Hc Mc) as [Up _]. destruct lt.
  - destruct Ev as [Ev _]. specialize (Ev eq_refl). unfold bind. rewrite Ay.
    assert (K : sg = false \/ 2 <= N).
    { destruct sg; [right|now left]. cbn [signR] in Ev. assert (1 < N) by (apply lt_IZR; lra). lia. }
    destruct (Up K) as (c' & Hc' & Mc' & ->). symmetry. apply (round_determined s _ (if sg then N - 1 else N + 1)); [|assumption..].
    destruct sg; cbn [signR] in Ev; cbn; rewrite ?minus_IZR, ?plus_IZR; lra.
  - rewrite Ay. symmetry. apply (round_determined s _ N); [|assumption..].
    assert (Ev' : ~ (signR sg (IZR N - m) < 0)%R) by (intros X; apply Ev in X; discriminate).
    destruct sg; cbn [signR] in Ev'; cbn; lra.
Qed.

Lemma floor_round (s : env) : near_even s ->
  fst ((y <- distance ;; c <- fle y 0 ;; if negb c then t <- fadd a y ;; fsub t one else fadd a y) s) =
  fst (froundToInt a softfloat_round_min false s).
Proof.
  intros Hs. destruct (distance_exact s Hs) as (N & c & y & fl & HN & BN & Hc & Mc & Fy & Vy & Ey & Ay).
  assert (Hs' : near_even (raised_env fl s)) by exact Hs. specialize (Ay _ Hs'). destruct number_zero as [F0 V0].
  destruct (le_law y 0 (raised_env fl s) (finite_number _ Fy) F0) as [Es Ev]. rewrite Vy, V0 in Ev.
  unfold bind at 1. rewrite Ey. unfold bind at 1. destruct (fle y 0 _) as [le s']. cbn [fst snd] in *. subst s'.
  pose proof (rint_near m N HN) as Near.
  destruct (step_exact _ N c Hs' BN Hc Mc) as [_ Down]. destruct le; cbn [negb].
  - destruct Ev as [Ev _]. specialize (Ev eq_refl). rewrite Ay. symmetry. apply (round_determined s _ N); [|assumption..].
    destruct sg; cbn [signR] in Ev; cbn; lra.
  - assert (Ev' : (0 < signR sg (IZR N - m))%R) by (apply Rnot_le_lt; intros X; apply Ev in X; discriminate).
    unfold bind. rewrite Ay. assert (K : sg = true \/ 2 <= N).
    { destruct sg; [now left|right]. cbn [signR] in Ev'. assert (1 < N) by (apply lt_IZR; lra). lia. }
    destruct (Down K) as (c' & Hc' & Mc' & ->). symmetry. apply (round_determined s _ (if sg then N + 1 else N - 1)); [|assumption..].
    destruct sg; cbn [signR] in Ev'; cbn; rewrite ?minus_IZR, ?plus_IZR; lra.
Qed.
End Trick.
