(* ===== verification/FloatRound.v ===== *)
(** The rounding intrinsics that compute with the shifter round as the library
    does in the mode of their name, when the library rounds to nearest; the intrinsics that
    select or compare (min, max, the six relations) and the truncations to integers. *)
From Stdlib Require Import ZArith Bool Lia.
From S2P Require Import Prelude Exceptions.
From Stdlib Require Import Reals Lra.
From S2P Require Import Ieee Softfloat Machine Contract Interface Laws F32 F32Round F32Arith F64 F64Round F64Arith Convert Integral ToInt Truncate Formats FloatApi FloatBits FloatTrick.
Local Open Scope Z_scope.
Local Open Scope c_scope.
Local Open Scope M_scope.

#[local] Opaque f32_add f32_sub f32_eq f32_le f32_lt f32_roundToInt f64_add f64_sub f64_eq f64_le f64_lt f64_roundToInt.

(** An exponent below the largest is that of a finite number. *)
Lemma finite32 (a : Z) : is_enc F32 a -> expF32UI a < 0xFF ->
  is_finite F32 a /\ nanb F32 a = false /\ pattern_of F32 a = expF32UI a * 2 ^ 23 + fracF32UI a /\ 0 <= fracF32UI a < 2 ^ 23 /\ 0 <= expF32UI a.
Proof.
  intros Ha He. destruct (F32_fields a Ha) as (_ & Ea & Ma & Pa & _). destruct (classes F32 a _ _ Ea Ma Pa) as (N & I & _).
  change (2 ^ eb F32 - 1) with 0xFF in *. replace (expF32UI a =? 0xFF) with false in * by lia. cbn [andb] in *.
  split; [now apply finite_intro|]. repeat split; try assumption; lia.
Qed.
Lemma finite64 (a : Z) : is_enc F64 a -> expF64UI a < 0x7FF ->
  is_finite F64 a /\ nanb F64 a = false /\ pattern_of F64 a = expF64UI a * 2 ^ 52 + fracF64UI a /\ 0 <= fracF64UI a < 2 ^ 52 /\ 0 <= expF64UI a.
Proof.
  intros Ha He. destruct (F64_fields a Ha) as (_ & Ea & Ma & Pa & _). destruct (classes F64 a _ _ Ea Ma Pa) as (N & I & _).
  change (2 ^ eb F64 - 1) with 0x7FF in *. replace (expF64UI a =? 0x7FF) with false in * by lia. cbn [andb] in *.
  split; [now apply finite_intro|]. repeat split; try assumption; lia.
Qed.

Lemma f32_nearest_round (a : Z) (s : env) : is_enc F32 a -> near_even s ->
  fst (_eosio_f32_nearest a s) = if nanb F32 a then a else fst (f32_roundToInt a softfloat_round_near_even false s).
Proof.
  intros Ha Hs. unfold _eosio_f32_nearest. fold (expF32UI a). cbv zeta.
  rewrite (word_sign_bit F32 31 sign_weight32) by (lia || assumption).
  destruct (Z.leb_spec (0x7F + 23) (expF32UI a)) as [L|L].
  { destruct (nanb F32 a) eqn:N; [reflexivity|]. rewrite round_large32 by ((split; assumption) || lia). reflexivity. }
  destruct (finite32 a Ha ltac:(lia)) as (F & -> & P & Hm & He).
  assert (B : (mag F32 (pattern_of F32 a) < IZR (2 ^ mb F32))%R).
  { apply (below_shifter (f := F32) (O := F32_ops)); [discriminate..|]. rewrite P. change (unit_exponent (f := F32)) with (150 * 2 ^ 23). lia. }
  pose proof (nearest_round (f := F32) (O := F32_ops) ltac:(discriminate) ltac:(discriminate) a F B s Hs) as R.
  cbn [fadd fsub feq froundToInt F32_ops] in R. change (shifter (f := F32)) with inv_float_eps in R.
  rewrite <- R. now destruct (sign_of F32 a).
Qed.

(** The fields and bounds of a 64-bit number below the shifter. *)
Section Round64.
Context (a : Z) (s : env) (Ha : is_enc F64 a) (Hs : near_even s).

#[local] Lemma large64 (mode : Z) : 0x3FF + 52 <= expF64UI a ->
  a = if nanb F64 a then a else fst (f64_roundToInt a mode false s).
Proof.
  intros L. destruct (nanb F64 a) eqn:N; [reflexivity|]. rewrite round_large64 by ((split; assumption) || lia). reflexivity.
Qed.

#[local] Lemma below64 : expF64UI a < 0x3FF + 52 -> is_finite F64 a /\ nanb F64 a = false /\
  (mag F64 (pattern_of F64 a) < IZR (2 ^ mb F64))%R /\ (0x3FF <= expF64UI a -> (1 <= mag F64 (pattern_of F64 a))%R).
Proof.
  intros L. destruct (finite64 a Ha ltac:(lia)) as (F & N & P & Hm & He). split; [exact F|]. split; [exact N|]. split.
  - apply (below_shifter (f := F64) (O := F64_ops)); [discriminate..|]. rewrite P. change (unit_exponent (f := F64)) with (0x433 * 2 ^ 52). lia.
  - intros L1. apply (from_one (f := F64) (O := F64_ops)); [discriminate..|]. rewrite P. change (bias F64 * 2 ^ mb F64) with (0x3FF * 2 ^ 52). lia.
Qed.

Lemma f64_nearest_round :
  fst (_eosio_f64_nearest a s) = if nanb F64 a then a else fst (f64_roundToInt a softfloat_round_near_even false s).
Proof.
  unfold _eosio_f64_nearest. rewrite (exponent64 a Ha). cbv zeta. rewrite (word_sign_bit F64 63 sign_weight64) by (lia || assumption).
  destruct (Z.leb_spec (0x3FF + 52) (expF64UI a)) as [L|L]; [now apply large64|].
  destruct (below64 L) as (F & -> & B & _).
  pose proof (nearest_round (f := F64) (O := F64_ops) ltac:(discriminate) ltac:(discriminate) a F B s Hs) as R.
  cbn [fadd fsub feq froundToInt F64_ops] in R. change (shifter (f := F64)) with inv_double_eps in R.
  rewrite <- R. now destruct (sign_of F64 a).
Qed.

#[local] Lemma is_zero64 : is_finite F64 a -> f64_eq a 0 s = (pattern_of F64 a =? 0, s).
Proof.
  intros F. destruct (number_zero (f := F64) (O := F64_ops)) as [N0 V0].
  destruct (eq_law_number (f := F64) (O := F64_ops) a 0 s (finite_number a F) N0) as [Es Ev].
  cbn [feq F64_ops] in Es, Ev. destruct (f64_eq a 0 s) as [z s']. cbn [fst snd] in *. subst s'. f_equal.
  rewrite V0 in Ev. apply eq_true_iff_eq. rewrite Ev, Z.eqb_eq, <- V0. destruct (value_key F64 a 0) as (_ & _ & ->).
  unfold key. change (sign_of F64 0) with false. change (pattern_of F64 0) with 0. destruct (sign_of F64 a); lia.
Qed.

Lemma f64_ceil_round :
  fst (_eosio_f64_ceil a s) = if nanb F64 a then a else fst (f64_roundToInt a softfloat_round_max false s).
Proof.
  unfold _eosio_f64_ceil. rewrite (exponent64 a Ha). cbv zeta. rewrite (word_sign_bit F64 63 sign_weight64) by (lia || assumption).
  destruct (Z.leb_spec (0x3FF + 52) (expF64UI a)) as [L|L]; [now apply large64|].
  destruct (below64 L) as (F & -> & B & B1). unfold bind at 1. rewrite (is_zero64 F).
  destruct (Z.leb_spec (expF64UI a) (0x3FF - 1)) as [L0|L0].
  - rewrite round_below64 by (assumption || auto). destruct (pattern_of F64 a =? 0); [reflexivity|].
    unfold bind at 1. destruct (sign_of F64 a); match goal with |- fst (let (_, _) := ?m in _) = _ => now destruct m end.
  - replace (pattern_of F64 a =? 0) with false by (symmetry; apply Z.eqb_neq; intros P0; specialize (B1 ltac:(lia)); rewrite P0, (mag_zero F64) in B1; lra).
    pose proof (ceil_round (f := F64) (O := F64_ops) ltac:(discriminate) ltac:(discriminate) a F B (B1 ltac:(lia)) s Hs) as R.
    unfold distance in R. cbn [fadd fsub flt froundToInt F64_ops] in R. change (shifter (f := F64)) with inv_double_eps in R.
    change (one (f := F64)) with 0x3FF0000000000000 in R. exact R.
Qed.

Lemma f64_floor_round :
  fst (_eosio_f64_floor a s) = if nanb F64 a then a else fst (f64_roundToInt a softfloat_round_min false s).
Proof.
  unfold _eosio_f64_floor. rewrite (exponent64 a Ha). cbv zeta. rewrite (word_sign_bit F64 63 sign_weight64) by (lia || assumption).
  destruct (word_split F64 63 sign_weight64 a Ha) as (E & _ & _).
  destruct (Z.eqb_spec a 0x8000000000000000) as [E1|E1].
  { rewrite E1. change (nanb F64 0x8000000000000000) with false. cbv iota. rewrite round_below64; [reflexivity|encoding|discriminate|auto]. }
  destruct (Z.leb_spec (0x3FF + 52) (expF64UI a)) as [L|L]; [now apply large64|]. cbn [orb].
  destruct (below64 L) as (F & -> & B & B1).
  assert (Z0 : (a =? 0) = (pattern_of F64 a =? 0)).
  { apply eq_true_iff_eq. rewrite !Z.eqb_eq. destruct (sign_of F64 a); cbn [b2z] in E; [|lia].
    pose proof (pattern_bounds F64 a). lia. }
  rewrite Z0. destruct (Z.leb_spec (expF64UI a) (0x3FF - 1)) as [L0|L0].
  - rewrite round_below64 by (assumption || auto). destruct (pattern_of F64 a =? 0); [reflexivity|].
    unfold bind at 1. destruct (sign_of F64 a); match goal with |- fst (let (_, _) := ?m in _) = _ => now destruct m end.
  - replace (pattern_of F64 a =? 0) with false by (symmetry; apply Z.eqb_neq; intros P0; specialize (B1 ltac:(lia)); rewrite P0, (mag_zero F64) in B1; lra).
    pose proof (floor_round (f := F64) (O := F64_ops) ltac:(discriminate) ltac:(discriminate) a F B (B1 ltac:(lia)) s Hs) as R.
    unfold distance in R. cbn [fadd fsub fle froundToInt F64_ops] in R. change (shifter (f := F64)) with inv_double_eps in R.
    change (one (f := F64)) with 0x3FF0000000000000 in R. exact R.
Qed.
End Round64.

(** ** The intrinsics that select or compare - min, max, the six relations - and the truncations to integers *)

#[local] Opaque f32_add f32_sub f32_eq f32_le f32_lt f32_roundToInt f64_add f64_sub f64_eq f64_le f64_lt f64_roundToInt.

(** ** What they promise *)

(** A NaN operand is returned as it is, the first of two; otherwise one of the
    operands, of the lesser (greater) value, -0 being less than +0. *)
Definition min_spec (f : format) (a b r : Z) : Prop :=
  if nanb f a then r = a else if nanb f b then r = b
  else (r = a \/ r = b) /\ value f r = Rmin (value f a) (value f b) /\ sign_of f r = sign_of f a || sign_of f b.
Definition max_spec (f : format) (a b r : Z) : Prop :=
  if nanb f a then r = a else if nanb f b then r = b
  else (r = a \/ r = b) /\ value f r = Rmax (value f a) (value f b) /\ sign_of f r = sign_of f a && sign_of f b.

(** A relation: its value on numbers, and [unordered] when an operand is a NaN. *)
Definition relation_spec (f : format) (unordered : bool) (rel : R -> R -> Prop) (a b : Z) (r : bool) : Prop :=
  if nanb f a || nanb f b then r = unordered else r = true <-> rel (value f a) (value f b).

Definition relations_spec (f : format) (eq_ ne lt le gt ge : Z -> Z -> M bool) (s : env) (a b : Z) : Prop :=
  relation_spec f false eq a b (fst (eq_ a b s)) /\ relation_spec f true (fun x y => x <> y) a b (fst (ne a b s)) /\
  relation_spec f false Rlt a b (fst (lt a b s)) /\ relation_spec f false Rle a b (fst (le a b s)) /\
  relation_spec f false Rgt a b (fst (gt a b s)) /\ relation_spec f false Rge a b (fst (ge a b s)).

(** ** Against the interface *)
Lemma signs_order (f : format) {V : ValidFormat f} (a b : Z) : sign_of f a = true -> sign_of f b = false ->
  (value f a <= value f b)%R.
Proof.
  intros Sa Sb. unfold value. rewrite Sa, Sb. cbn [signR].
  pose proof (mag_nonneg f (pattern_of f a) (proj1 (pattern_bounds f a))).
  pose proof (mag_nonneg f (pattern_of f b) (proj1 (pattern_bounds f b))). lra.
Qed.

Lemma fst_choice (m : M bool) (s : env) (x y : Z) : fst ((c <- m ;; ret (if c then x else y)) s) = if fst (m s) then x else y.
Proof. unfold bind, ret. now destruct (m s) as [[|] ?]. Qed.

Lemma fst_negb (m : M bool) (s : env) : fst ((c <- m ;; ret (negb c)) s) = negb (fst (m s)).
Proof. unfold bind, ret. now destruct (m s). Qed.

Section Select.
Context {f : format} {O : FloatOps f} {L : FloatLaws f}.
Context (a b : Z) (s : env) (Ha : is_enc f a) (Hb : is_enc f b).

Lemma choose_min : min_spec f a b
  (fst ((if nanb f a then ret a else if nanb f b then ret b
         else if negb (Bool.eqb (sign_of f a) (sign_of f b)) then ret (if sign_of f a then a else b)
         else c <- flt a b ;; ret (if c then a else b)) s)).
Proof.
  unfold min_spec. destruct (nanb f a) eqn:Na; [reflexivity|]. destruct (nanb f b) eqn:Nb; [reflexivity|].
  pose proof (signs_order f a b) as Oab. pose proof (signs_order f b a) as Oba.
  destruct (lt_law a b s (conj Ha Na) (conj Hb Nb)) as [_ Lt]. pose proof (fst_choice (flt a b) s) as E.
  set (c := fst (flt a b s)) in *.
  assert (C : if c then Rmin (value f a) (value f b) = value f a else Rmin (value f a) (value f b) = value f b).
  { destruct c; [apply Rmin_left, Rlt_le; now apply Lt|apply Rmin_right, Rnot_lt_le; intros K; apply Lt in K; discriminate]. }
  destruct (sign_of f a) eqn:Sa, (sign_of f b) eqn:Sb; cbn [Bool.eqb negb orb]; rewrite ?E; clearbody c.
  - destruct c; cbn [fst]; (split; [auto|split; [now rewrite C|assumption]]).
  - split; [auto|]. split; [|assumption]. symmetry. apply Rmin_left. auto.
  - split; [auto|]. split; [|assumption]. symmetry. apply Rmin_right. auto.
  - destruct c; cbn [fst]; (split; [auto|split; [now rewrite C|assumption]]).
Qed.

Lemma choose_max : max_spec f a b
  (fst ((if nanb f a then ret a else if nanb f b then ret b
         else if negb (Bool.eqb (sign_of f a) (sign_of f b)) then ret (if sign_of f a then b else a)
         else c <- flt a b ;; ret (if c then b else a)) s)).
Proof.
  unfold max_spec. destruct (nanb f a) eqn:Na; [reflexivity|]. destruct (nanb f b) eqn:Nb; [reflexivity|].
  pose proof (signs_order f a b) as Oab. pose proof (signs_order f b a) as Oba.
  destruct (lt_law a b s (conj Ha Na) (conj Hb Nb)) as [_ Lt]. pose proof (fst_choice (flt a b) s) as E.
  set (c := fst (flt a b s)) in *.
  assert (C : if c then Rmax (value f a) (value f b) = value f b else Rmax (value f a) (value f b) = value f a).
  { destruct c; [apply Rmax_right, Rlt_le; now apply Lt|apply Rmax_left, Rnot_lt_le; intros K; apply Lt in K; discriminate]. }
  destruct (sign_of f a) eqn:Sa, (sign_of f b) eqn:Sb; cbn [Bool.eqb negb andb]; rewrite ?E; clearbody c.
  - destruct c; cbn [fst]; (split; [auto|split; [now rewrite C|assumption]]).
  - split; [auto|]. split; [|assumption]. symmetry. apply Rmax_right. auto.
  - split; [auto|]. split; [|assumption]. symmetry. apply Rmax_left. auto.
  - destruct c; cbn [fst]; (split; [auto|split; [now rewrite C|assumption]]).
Qed.

(** The contract of a comparison, as a relation. *)
Lemma relation_of (signaling : bool) (rel : R -> R -> Prop) (r : bool * env) :
  compare_spec f signaling rel s a b r -> relation_spec f false rel a b (fst r).
Proof. unfold compare_spec, relation_spec. destruct (_ || _); [now intros ->|now intros [_ H]]. Qed.

Lemma relations : relations_spec f feq (fun a b => c <- feq a b ;; ret (negb c)) flt fle
  (fun a b => if nanb f a then ret false else if nanb f b then ret false else c <- fle a b ;; ret (negb c))
  (fun a b => if nanb f a then ret false else if nanb f b then ret false else c <- flt a b ;; ret (negb c)) s a b.
Proof.
  destruct (eq_law a b s Ha Hb) as [Eq _]. destruct (order_law a b s Ha Hb) as (Le & Lt & _).
  apply relation_of in Eq, Le, Lt. unfold relations_spec. rewrite fst_negb.
  split; [exact Eq|]. split; [|split; [exact Lt|split; [exact Le|]]]; revert Eq Le Lt; unfold relation_spec.
  - generalize (fst (feq a b s)). intros e. destruct (_ || _); [now intros ->|]. intros E _ _. destruct e; cbn [negb].
    + split; [discriminate|]. intros X. exfalso. now apply X, E.
    + split; [|reflexivity]. intros _ X. apply E in X. discriminate.
  - destruct (nanb f a), (nanb f b); cbn [orb]; try (intros _ _ _; split; reflexivity). rewrite !fst_negb.
    generalize (fst (fle a b s)) (fst (flt a b s)). intros le lt _ E1 E2. split.
    + destruct le; cbn [negb]; (split; [|try reflexivity]).
      * discriminate.
      * intros X. destruct E1 as [E1 _]. specialize (E1 eq_refl). lra.
      * intros _. apply Rnot_le_gt. intros X. apply E1 in X. discriminate.
    + destruct lt; cbn [negb]; (split; [|try reflexivity]).
      * discriminate.
      * intros X. destruct E2 as [E2 _]. specialize (E2 eq_refl). lra.
      * intros _. apply Rnot_lt_ge. intros X. apply E2 in X. discriminate.
Qed.
End Select.

(** ** The intrinsics *)

(** What the selecting and sign intrinsics promise together. *)
Definition selections_spec (f : format) (min_ max_ copysign abs neg : Z) (a b : Z) : Prop :=
  min_spec f a b min_ /\ max_spec f a b max_ /\ copysign = with_sign f (sign_of f b) (pattern_of f a) /\
  abs = with_sign f false (pattern_of f a) /\ neg = negate f a.

Lemma select32 (a b : Z) (s : env) : is_enc F32 a -> is_enc F32 b ->
  selections_spec F32 (fst (_eosio_f32_min a b s)) (fst (_eosio_f32_max a b s))
    (_eosio_f32_copysign a b) (_eosio_f32_abs a) (_eosio_f32_neg a) a b /\
  relations_spec F32 _eosio_f32_eq _eosio_f32_ne _eosio_f32_lt _eosio_f32_le _eosio_f32_gt _eosio_f32_ge s a b.
Proof.
  intros Ha Hb. destruct (copysign_abs_neg32 a b Ha Hb) as (E1 & E2 & E3). unfold selections_spec.
  rewrite E1, E2, E3. unfold _eosio_f32_min, _eosio_f32_max, relations_spec, _eosio_f32_gt, _eosio_f32_ge.
  rewrite !f32_is_nan_eq, !f32_sign_bit_eq by assumption. split; [split; [|split; [|auto]]|].
  - exact (choose_min (f := F32) (O := F32_ops) a b s Ha Hb).
  - exact (choose_max (f := F32) (O := F32_ops) a b s Ha Hb).
  - exact (relations (f := F32) (O := F32_ops) a b s Ha Hb).
Qed.

Lemma select64 (a b : Z) (s : env) : is_enc F64 a -> is_enc F64 b ->
  selections_spec F64 (fst (_eosio_f64_min a b s)) (fst (_eosio_f64_max a b s))
    (_eosio_f64_copysign a b) (_eosio_f64_abs a) (_eosio_f64_neg a) a b /\
  relations_spec F64 _eosio_f64_eq _eosio_f64_ne _eosio_f64_lt _eosio_f64_le _eosio_f64_gt _eosio_f64_ge s a b.
Proof.
  intros Ha Hb. destruct (copysign_abs_neg64 a b Ha Hb) as (E1 & E2 & E3). unfold selections_spec.
  rewrite E1, E2, E3. unfold _eosio_f64_min, _eosio_f64_max, relations_spec, _eosio_f64_gt, _eosio_f64_ge.
  rewrite !f64_is_nan_eq, !f64_sign_bit_eq by assumption. split; [split; [|split; [|auto]]|].
  - exact (choose_min (f := F64) (O := F64_ops) a b s Ha Hb).
  - exact (choose_max (f := F64) (O := F64_ops) a b s Ha Hb).
  - exact (relations (f := F64) (O := F64_ops) a b s Ha Hb).
Qed.
