(* ===== verification/FloatTrunc.v ===== *)
(** The truncations of softfloat_api: the integer part of the operand when it
    passes the range check, and wasm_runtime_exception otherwise. *)
From Stdlib Require Import ZArith Bool Lia.
From S2P Require Import Prelude Exceptions.
From Stdlib Require Import Reals Lra.
From S2P Require Import Ieee Softfloat Machine Contract Interface Laws Formats.
From S2P Require Import F32 F64 Convert Integral ToInt Truncate FloatTrick FloatApi FloatBits.
Local Open Scope Z_scope.
Local Open Scope c_scope.
Local Open Scope M_scope.
#[local] Opaque f32_add f32_sub f32_eq f32_le f32_lt f32_roundToInt f64_add f64_sub f64_eq f64_le f64_lt f64_roundToInt.

(** The values that the check lets through. *)
Definition signed_range (w : Z) (x : R) : Prop := (- IZR (2 ^ (w - 1)) <= x < IZR (2 ^ (w - 1)))%R.
Definition unsigned_range (w : Z) (x : R) : Prop := (-1 < x < IZR (2 ^ w))%R.

Definition truncation_spec (f : format) (range : R -> Prop) (s : env) (a : Z) (r : result Z * env) : Prop :=
  if nanb f a then r = (Throw wasm_runtime_exception, raised_env softfloat_flag_invalid s)
  else (range (value f a) -> exists n, rint TowardZero (mag f (pattern_of f a)) n /\
          r = (Value (if sign_of f a then - n else n), s)) /\
       (~ range (value f a) -> r = (Throw wasm_runtime_exception, s)).

Section Truncation.
Context {f : format} {O : FloatOps f} {L : FloatLaws f}.

(** A power of two. *)
Lemma value_pow2 (sg : bool) (e : Z) : 1 <= e -> e * 2 ^ mb f < inf_pattern f ->
  number f (with_sign f sg (e * 2 ^ mb f)) /\ value f (with_sign f sg (e * 2 ^ mb f)) = signR sg (pow2 (e - bias f)).
Proof.
  intros He Hi. pose proof (pow_mb_pos f) as P. destruct (finite_pattern f sg (e * 2 ^ mb f) ltac:(nia)) as (F & _ & _ & V).
  split; [exact (finite_number _ F)|]. rewrite V. f_equal. rewrite <- (Z.add_0_r (e * _)), (mag_fields f) by lia.
  replace (e =? 0) with false by lia. destruct laws_format. rewrite Z.add_0_r, <- pow2_IZR, <- pow2_add by lia. f_equal. unfold emin. lia.
Qed.

(** The tests, as the intrinsics make them. *)
Lemma ge_test (a h : Z) (s : env) : number f a -> number f h -> exists g,
  (if nanb f a then ret false else if nanb f h then ret false else c <- flt a h ;; ret (negb c)) s = (g, s) /\
  (g = true <-> (value f h <= value f a)%R).
Proof.
  intros [Ha Na] [Hh Nh]. rewrite Na, Nh. destruct (lt_law a h s (conj Ha Na) (conj Hh Nh)) as [E1 E2].
  unfold bind, ret. destruct (flt a h s) as [c s']. cbn [fst snd] in *. subst s'. exists (negb c). split; [reflexivity|].
  destruct c; cbn [negb]; split; try discriminate; try reflexivity.
  - intros X. destruct E2 as [E2 _]. specialize (E2 eq_refl). lra.
  - intros _. apply Rnot_lt_le. intros X. apply E2 in X. discriminate.
Qed.

(** The rounded operand is the integer part. *)
Lemma trunc_value (a : Z) (s : env) : is_finite f a -> exists n, rint TowardZero (mag f (pattern_of f a)) n /\
  let t := fst (froundToInt a softfloat_round_minMag false s) in
  is_finite f t /\ value f t = IZR (if sign_of f a then - n else n).
Proof.
  intros Fa. pose proof (round_law a softfloat_round_minMag false s (proj1 Fa)) as R. unfold integral_spec in R.
  destruct (finite_classes f a Fa) as [E1 E2]. rewrite E1, E2 in R. destruct R as (b & n & Hn & Mb & Hb & fl & -> & _).
  exists n. replace (mag_direction softfloat_round_minMag (sign_of f a)) with TowardZero in Hn by (destruct (sign_of f a); reflexivity).
  split; [exact Hn|]. cbn [fst]. destruct (finite_pattern f (sign_of f a) b Hb) as (F & _ & _ & V). split; [exact F|].
  rewrite V, Mb. destruct (sign_of f a); cbn [signR]; [now rewrite opp_IZR|reflexivity].
Qed.

Context (big : (IZR (2 ^ 64) <= mag f (inf_pattern f))%R).

(** Where the range is bounded the number is finite. *)
Lemma bounded_finite (a : Z) : number f a -> (- IZR (2 ^ 64) < value f a < IZR (2 ^ 64))%R -> is_finite f a.
Proof.
  intros [Ha Na] B. apply finite_intro; [assumption..|]. unfold infb. apply Z.eqb_neq. intros E. unfold value in B. rewrite E in B.
  destruct (sign_of f a); cbn [signR] in B; lra.
Qed.

Context (range : R -> Prop) (lo hi code : Z) (ge low : M bool) (conv : Z -> M Z) (a : Z) (s : env).
Context (bounded : forall x, range x -> (- IZR (2 ^ 64) < x < IZR (2 ^ 64))%R).
Context (in_range : forall n, rint TowardZero (mag f (pattern_of f a)) n -> range (value f a) ->
           lo <= (if sign_of f a then - n else n) <= hi).
Context (checks : number f a -> exists g l, ge s = (g, s) /\ low s = (l, s) /\ (g || l = false <-> range (value f a))).
Context (nan_checks : nanb f a = true -> ge s = (false, s) /\ low s = (false, raised_env softfloat_flag_invalid s)).
Context (conv_ok : forall z, is_enc f z -> to_int_spec lo hi code f s (mag_direction 0 (sign_of f z)) false z (conv z s)).

Lemma truncation_correct : is_enc f a -> truncation_spec f range s a
  (tbind (por ge low) (fun out_of_range =>
     if out_of_range then tthrow wasm_runtime_exception
     else if nanb f a then tthrow wasm_runtime_exception
     else tlift (conv (if nanb f a then a else fst (froundToInt a softfloat_round_minMag false s)))) s).
Proof.
  intros Ha. unfold truncation_spec. destruct (nanb f a) eqn:Na.
  - destruct (nan_checks eq_refl) as [Eg El]. unfold tbind, por, bind, ret, tthrow. now rewrite Eg, El.
  - destruct (checks (conj Ha Na)) as (g & l & Eg & El & C).
    assert (E : por ge low s = (g || l, s)) by (unfold por, bind, ret; rewrite Eg; now destruct g).
    unfold tbind. rewrite E. destruct (g || l) eqn:K.
    + split; [intros X; apply C in X; discriminate|reflexivity].
    + split; [|intros X; exfalso; now apply X, C]. intros Rg. pose proof (bounded_finite a (conj Ha Na) (bounded _ Rg)) as Fa.
      destruct (trunc_value a s Fa) as (n & Hn & Ft & Vt). cbv zeta in *. exists n. split; [exact Hn|].
      unfold tlift. now rewrite (to_int_exact f lo hi code _ _ s 0 false _ Ft Vt (in_range n Hn Rg) (conv_ok _ (proj1 Ft))).
Qed.
End Truncation.

(** ** The ranges *)
Section Ranges.
Context (f : format) {V : ValidFormat f} (a n w : Z) (Hw : 1 <= w <= 64).
Context (Hn : rint TowardZero (mag f (pattern_of f a)) n).

#[local] Lemma integer_part_nonneg : 0 <= n.
Proof.
  pose proof (mag_nonneg f (pattern_of f a) (proj1 (pattern_bounds f a))). assert (-1 < n) by (apply lt_IZR; cbn in Hn; lra). lia.
Qed.

Lemma signed_in_range : signed_range w (value f a) -> - 2 ^ (w - 1) <= (if sign_of f a then - n else n) <= 2 ^ (w - 1) - 1.
Proof.
  intros [A B]. pose proof integer_part_nonneg. assert (0 < 2 ^ (w - 1)) by (apply two_pow_pos; lia).
  unfold value in *. cbn in Hn. destruct (sign_of f a); cbn [signR] in *.
  - assert (n <= 2 ^ (w - 1)) by (apply le_IZR; lra). lia.
  - assert (n < 2 ^ (w - 1)) by (apply lt_IZR; lra). lia.
Qed.

Lemma unsigned_in_range : unsigned_range w (value f a) -> 0 <= (if sign_of f a then - n else n) <= 2 ^ w - 1.
Proof.
  intros [A B]. pose proof integer_part_nonneg. assert (0 < 2 ^ w) by (apply two_pow_pos; lia).
  unfold value in *. cbn in Hn. destruct (sign_of f a); cbn [signR] in *.
  - assert (n < 1) by (apply lt_IZR; lra). lia.
  - assert (n < 2 ^ w) by (apply lt_IZR; lra). lia.
Qed.
End Ranges.

Lemma signed_bounded (w : Z) (x : R) : 1 <= w <= 64 -> signed_range w x -> (- IZR (2 ^ 64) < x < IZR (2 ^ 64))%R.
Proof.
  intros Hw [A B]. assert (L : 2 ^ (w - 1) < 2 ^ 64) by (apply Z.pow_lt_mono_r; lia). apply IZR_lt in L. lra.
Qed.
Lemma unsigned_bounded (w : Z) (x : R) : 1 <= w <= 64 -> unsigned_range w x -> (- IZR (2 ^ 64) < x < IZR (2 ^ 64))%R.
Proof.
  intros Hw [A B]. assert (L : 2 ^ w <= 2 ^ 64) by (apply Z.pow_le_mono_r; lia). apply IZR_le in L.
  assert (1 < IZR (2 ^ 64))%R by (apply IZR_lt; reflexivity). lra.
Qed.

Lemma unchanged {A} (r : A * env) (s : env) : snd r = s -> r = (fst r, s).
Proof. destruct r. cbn. now intros ->. Qed.

(** ** The two kinds of truncation *)
Section Kinds.
Context {f : format} {O : FloatOps f} {L : FloatLaws f}.
Context (wide : 64 <= 2 ^ eb f - 1 - bias f).

#[local] Lemma big : (IZR (2 ^ 64) <= mag f (inf_pattern f))%R.
Proof.
  pose proof (pow_mb_pos f) as P. destruct laws_format. unfold inf_pattern.
  assert (2 ^ 2 <= 2 ^ eb f) by (apply Z.pow_le_mono_r; lia).
  rewrite <- (Z.add_0_r (_ * _)), (mag_fields f) by lia. replace (2 ^ eb f - 1 =? 0) with false by lia.
  rewrite Z.add_0_r, <- !pow2_IZR, <- pow2_add by lia. apply pow2_le. unfold emin. lia.
Qed.

Context (w e : Z) (Hw : 1 <= w <= 64) (conv : Z -> M Z) (a : Z) (s : env) (Ha : is_enc f a).
Context (Pe : 1 <= e /\ e * 2 ^ mb f < inf_pattern f).

(** [x >= y] as in the intrinsics *)
#[local] Definition at_least (x y : Z) : M bool :=
  if nanb f x then ret false else if nanb f y then ret false else c <- flt x y ;; ret (negb c).
#[local] Definition guarded (low : M bool) : T Z :=
  tbind (por (at_least a (with_sign f false (e * 2 ^ mb f))) low) (fun out_of_range =>
    if out_of_range then tthrow wasm_runtime_exception
    else if nanb f a then tthrow wasm_runtime_exception
    else tlift (conv (if nanb f a then a else fst (froundToInt a softfloat_round_minMag false s)))).

#[local] Lemma nan_tests (y : Z) (Na : nanb f a = true) (low : M bool) (cmp : R -> R -> Prop) :
  compare_spec f true cmp s a y (low s) ->
  at_least a (with_sign f false (e * 2 ^ mb f)) s = (false, s) /\ low s = (false, raised_env softfloat_flag_invalid s).
Proof. unfold compare_spec, at_least. rewrite Na. now split. Qed.

Lemma signed_truncation : e - bias f = w - 1 ->
  (forall z, is_enc f z -> to_int_spec (- 2 ^ (w - 1)) (2 ^ (w - 1) - 1) (- 2 ^ (w - 1)) f s (mag_direction 0 (sign_of f z)) false z (conv z s)) ->
  truncation_spec f (signed_range w) s a (guarded (flt a (with_sign f true (e * 2 ^ mb f))) s).
Proof.
  intros Ew Hc. refine (truncation_correct big (signed_range w) _ _ _ _ _ conv a s _ _ _ _ Hc Ha).
  - intros x. now apply signed_bounded.
  - intros n Hn. now apply (signed_in_range f a n w).
  - intros Na. destruct (value_pow2 false e (proj1 Pe) (proj2 Pe)) as [Nh Vh]. destruct (value_pow2 true e (proj1 Pe) (proj2 Pe)) as [Nl Vl].
    cbn [signR] in *. rewrite Ew, pow2_IZR in Vh, Vl by lia. destruct (ge_test a _ s Na Nh) as (g & Eg & Tg).
    destruct (lt_law a _ s Na Nl) as [El Tl]. exists g, (fst (flt a (with_sign f true (e * 2 ^ mb f)) s)).
    split; [exact Eg|]. split; [now apply unchanged|]. rewrite Vh in Tg. rewrite Vl in Tl. unfold signed_range.
    rewrite orb_false_iff, <- !not_true_iff_false, Tg, Tl. lra.
  - intros Na. destruct (value_pow2 true e (proj1 Pe) (proj2 Pe)) as [[Nl _] _]. refine (nan_tests _ Na _ Rlt _). now apply order_law.
Qed.

Lemma unsigned_truncation : e - bias f = w -> bias f * 2 ^ mb f < inf_pattern f -> 1 <= bias f ->
  (forall z, is_enc f z -> to_int_spec 0 (2 ^ w - 1) (2 ^ w - 1) f s (mag_direction 0 (sign_of f z)) false z (conv z s)) ->
  truncation_spec f (unsigned_range w) s a (guarded (fle a (with_sign f true (bias f * 2 ^ mb f))) s).
Proof.
  intros Ew Hb Hb1 Hc. refine (truncation_correct big (unsigned_range w) _ _ _ _ _ conv a s _ _ _ _ Hc Ha).
  - intros x. now apply unsigned_bounded.
  - intros n Hn. now apply (unsigned_in_range f a n w).
  - intros Na. destruct (value_pow2 false e (proj1 Pe) (proj2 Pe)) as [Nh Vh]. destruct (value_pow2 true (bias f) Hb1 Hb) as [Nl Vl].
    cbn [signR] in *. rewrite Ew, pow2_IZR in Vh by lia. rewrite Z.sub_diag, pow2_0 in Vl. destruct (ge_test a _ s Na Nh) as (g & Eg & Tg).
    destruct (le_law a _ s Na Nl) as [El Tl]. exists g, (fst (fle a (with_sign f true (bias f * 2 ^ mb f)) s)).
    split; [exact Eg|]. split; [now apply unchanged|]. rewrite Vh in Tg. rewrite Vl in Tl. unfold unsigned_range.
    rewrite orb_false_iff, <- !not_true_iff_false, Tg, Tl. lra.
  - intros Na. destruct (value_pow2 true (bias f) Hb1 Hb) as [[Nl _] _]. refine (nan_tests _ Na _ Rle _). now apply order_law.
Qed.
End Kinds.

(** ** The eight intrinsics *)
Section Intrinsics.
Context (a : Z) (s : env).

Lemma f32_trunc_correct : is_enc F32 a ->
  truncation_spec F32 (signed_range 32) s a (_eosio_f32_trunc_i32s a s) /\
  truncation_spec F32 (unsigned_range 32) s a (_eosio_f32_trunc_i32u a s) /\
  truncation_spec F32 (signed_range 64) s a (_eosio_f32_trunc_i64s a s) /\
  truncation_spec F32 (unsigned_range 64) s a (_eosio_f32_trunc_i64u a s).
Proof.
  intros Ha. unfold _eosio_f32_trunc_i32s, _eosio_f32_trunc_i32u, _eosio_f32_trunc_i64s, _eosio_f32_trunc_i64u.
  unfold _eosio_f32_ge, _eosio_f32_lt, _eosio_f32_le. rewrite (f32_trunc_round a s Ha), !f32_is_nan_eq by (encoding || assumption).
  split; [|split; [|split]].
  - refine (signed_truncation (f := F32) (O := F32_ops) _ 32 158 _ (fun z => f32_to_i32 z 0 false) a s Ha _ _ _);
      try (cbn; lia). intros z Hz. now apply f32_to_i32_spec.
  - refine (unsigned_truncation (f := F32) (O := F32_ops) _ 32 159 _ (fun z => f32_to_ui32 z 0 false) a s Ha _ _ _ _ _);
      try (cbn; lia). intros z Hz. now apply f32_to_ui32_spec.
  - refine (signed_truncation (f := F32) (O := F32_ops) _ 64 190 _ (fun z => f32_to_i64 z 0 false) a s Ha _ _ _);
      try (cbn; lia). intros z Hz. now apply f32_to_i64_spec.
  - refine (unsigned_truncation (f := F32) (O := F32_ops) _ 64 191 _ (fun z => f32_to_ui64 z 0 false) a s Ha _ _ _ _ _);
      try (cbn; lia). intros z Hz. now apply f32_to_ui64_spec.
Qed.

Lemma f64_trunc_correct : is_enc F64 a ->
  truncation_spec F64 (signed_range 32) s a (_eosio_f64_trunc_i32s a s) /\
  truncation_spec F64 (unsigned_range 32) s a (_eosio_f64_trunc_i32u a s) /\
  truncation_spec F64 (signed_range 64) s a (_eosio_f64_trunc_i64s a s) /\
  truncation_spec F64 (unsigned_range 64) s a (_eosio_f64_trunc_i64u a s).
Proof.
  intros Ha. unfold _eosio_f64_trunc_i32s, _eosio_f64_trunc_i32u, _eosio_f64_trunc_i64s, _eosio_f64_trunc_i64u.
  unfold _eosio_f64_ge, _eosio_f64_lt, _eosio_f64_le. rewrite (f64_trunc_round a s Ha), !f64_is_nan_eq by (encoding || assumption).
  split; [|split; [|split]].
  - refine (signed_truncation (f := F64) (O := F64_ops) _ 32 1054 _ (fun z => f64_to_i32 z 0 false) a s Ha _ _ _);
      try (cbn; lia). intros z Hz. now apply f64_to_i32_spec.
  - refine (unsigned_truncation (f := F64) (O := F64_ops) _ 32 1055 _ (fun z => f64_to_ui32 z 0 false) a s Ha _ _ _ _ _);
      try (cbn; lia). intros z Hz. now apply f64_to_ui32_spec.
  - refine (signed_truncation (f := F64) (O := F64_ops) _ 64 1086 _ (fun z => f64_to_i64 z 0 false) a s Ha _ _ _);
      try (cbn; lia). intros z Hz. now apply f64_to_i64_spec.
  - refine (unsigned_truncation (f := F64) (O := F64_ops) _ 64 1087 _ (fun z => f64_to_ui64 z 0 false) a s Ha _ _ _ _ _);
      try (cbn; lia). intros z Hz. now apply f64_to_ui64_spec.
Qed.
End Intrinsics.
