(* ===== verification/FloatApiCorrect.v ===== *)
(** The correctness theorems of softfloat_api, and what a floating-point
    operation of a contract computes once injection has replaced it. *)
From Stdlib Require Import ZArith Bool Lia String List.
From S2P Require Import Prelude Exceptions.
From Stdlib Require Import Reals Lra.
From S2P Require Import Ieee Softfloat Machine Contract Interface Laws Formats.
From S2P Require Import F32 F32Arith F32Mul F64 F64Arith F64Mul Integral FromInt Widen.
From S2P Require Import Opcodes Injection Linking FloatTrick FloatApi FloatBits FloatRound FloatTrunc.
Import ListNotations.
Local Open Scope Z_scope.
#[local] Opaque f32_add f32_sub f32_mul f32_div f32_eq f32_le f32_lt f32_roundToInt f32_to_f64.
#[local] Opaque f64_add f64_sub f64_mul f64_div f64_eq f64_le f64_lt f64_roundToInt f64_to_f32.

(** ** The three groups *)

(** [op] returns a NaN as it is and rounds any other operand as the library
    does in the given mode. *)
Definition rounds_as (f : format) (round : Z -> Z -> bool -> M Z) (mode : Z) (s : env) (a z : Z) : Prop :=
  z = if nanb f a then a else fst (round a mode false s).

(** C17. The rounding intrinsics agree with the rounding to an integral value of
    the library.  ceil, floor and trunc of 32 bits and trunc of 64 bits mask
    the fraction of the word; nearest, and ceil and floor of 64 bits, add and
    subtract a power of two and correct by one.  In both ways the result, bit
    for bit, is that of [roundToInt] towards plus infinity, minus infinity,
    zero and the nearest even integer, except that a NaN comes back unchanged.
    The ones that add need the library to round to the nearest, which is its
    initial mode and one that nothing here changes. *)
Theorem float_roundings_correct (a : Z) (s : env) :
  (is_enc F32 a ->
     rounds_as F32 f32_roundToInt softfloat_round_max s a (_eosio_f32_ceil a) /\
     rounds_as F32 f32_roundToInt softfloat_round_min s a (_eosio_f32_floor a) /\
     rounds_as F32 f32_roundToInt softfloat_round_minMag s a (_eosio_f32_trunc a) /\
     (near_even s -> rounds_as F32 f32_roundToInt softfloat_round_near_even s a (fst (_eosio_f32_nearest a s)))) /\
  (is_enc F64 a ->
     rounds_as F64 f64_roundToInt softfloat_round_minMag s a (_eosio_f64_trunc a) /\
     (near_even s ->
        rounds_as F64 f64_roundToInt softfloat_round_max s a (fst (_eosio_f64_ceil a s)) /\
        rounds_as F64 f64_roundToInt softfloat_round_min s a (fst (_eosio_f64_floor a s)) /\
        rounds_as F64 f64_roundToInt softfloat_round_near_even s a (fst (_eosio_f64_nearest a s)))).
Proof.
  unfold rounds_as. split; intros Ha.
  - split; [now apply f32_ceil_round|]. split; [now apply f32_floor_round|]. split; [now apply f32_trunc_round|].
    now apply f32_nearest_round.
  - split; [now apply f64_trunc_round|]. intros Hs. split; [now apply f64_ceil_round|].
    split; [now apply f64_floor_round|now apply f64_nearest_round].
Qed.

(** C33. min, max, the sign operations and the six relations of softfloat_api, in
    both formats: a NaN operand of min and max is returned as it is, otherwise
    the operand of the lesser (greater) value, -0 counting as less than +0;
    copysign, abs and neg change the sign bit alone, of NaNs too; the relations
    compare the values, and are false for unordered operands except [ne]. *)
Theorem float_selections_correct (a b : Z) (s : env) :
  (is_enc F32 a -> is_enc F32 b ->
     selections_spec F32 (fst (_eosio_f32_min a b s)) (fst (_eosio_f32_max a b s))
       (_eosio_f32_copysign a b) (_eosio_f32_abs a) (_eosio_f32_neg a) a b /\
     relations_spec F32 _eosio_f32_eq _eosio_f32_ne _eosio_f32_lt _eosio_f32_le _eosio_f32_gt _eosio_f32_ge s a b) /\
  (is_enc F64 a -> is_enc F64 b ->
     selections_spec F64 (fst (_eosio_f64_min a b s)) (fst (_eosio_f64_max a b s))
       (_eosio_f64_copysign a b) (_eosio_f64_abs a) (_eosio_f64_neg a) a b /\
     relations_spec F64 _eosio_f64_eq _eosio_f64_ne _eosio_f64_lt _eosio_f64_le _eosio_f64_gt _eosio_f64_ge s a b).
Proof. split; intros Ha Hb; [now apply select32|now apply select64]. Qed.

(** C18. The eight truncations of softfloat_api: inside the range that the check
    admits - from the least integer to below the first one too large, and for
    the unsigned types above -1 - the result is the integer part of the operand
    and no flag is raised; a NaN or any other value throws
    wasm_runtime_exception.  For the conversion of 64 bits to a 32-bit signed
    integer the check is too strict: the values between -2^31 - 1 and -2^31
    throw, although their integer part is -2^31. *)
Theorem float_truncations_correct (a : Z) (s : env) :
  (is_enc F32 a ->
     truncation_spec F32 (signed_range 32) s a (_eosio_f32_trunc_i32s a s) /\
     truncation_spec F32 (unsigned_range 32) s a (_eosio_f32_trunc_i32u a s) /\
     truncation_spec F32 (signed_range 64) s a (_eosio_f32_trunc_i64s a s) /\
     truncation_spec F32 (unsigned_range 64) s a (_eosio_f32_trunc_i64u a s)) /\
  (is_enc F64 a ->
     truncation_spec F64 (signed_range 32) s a (_eosio_f64_trunc_i32s a s) /\
     truncation_spec F64 (unsigned_range 32) s a (_eosio_f64_trunc_i32u a s) /\
     truncation_spec F64 (signed_range 64) s a (_eosio_f64_trunc_i64s a s) /\
     truncation_spec F64 (unsigned_range 64) s a (_eosio_f64_trunc_i64u a s)) /\
  (is_enc F64 a -> nanb F64 a = false -> (- IZR (2 ^ 31) - 1 < value F64 a < - IZR (2 ^ 31))%R ->
     rint TowardZero (mag F64 (pattern_of F64 a)) (2 ^ 31) /\ _eosio_f64_trunc_i32s a s = (Throw wasm_runtime_exception, s)).
Proof.
  split; [apply f32_trunc_correct|]. split; [apply f64_trunc_correct|]. intros Ha Na B.
  destruct (f64_trunc_correct a s Ha) as (T & _). unfold truncation_spec in T. rewrite Na in T. split.
  - assert (P : (0 <= IZR (2 ^ 31))%R) by now apply IZR_le. pose proof (pattern_bounds F64 a) as Bp.
    pose proof (mag_nonneg F64 (pattern_of F64 a) (proj1 Bp)) as Mn. unfold value in B. cbn [rint].
    destruct (sign_of F64 a); cbn [signR] in B; lra.
  - apply T. unfold signed_range. change (32 - 1) with 31. lra.
Qed.

(** ** Witnesses *)

(** -2.5 in 64 bits, 2.5 in 32 bits *)
Lemma float_roundings_correct_witness :
  fst (_eosio_f64_ceil 0xC004000000000000 initial_env) = 0xC000000000000000 /\
  rounds_as F64 f64_roundToInt softfloat_round_max initial_env 0xC004000000000000 (fst (_eosio_f64_ceil 0xC004000000000000 initial_env)) /\
  rounds_as F32 f32_roundToInt softfloat_round_near_even initial_env 0x40200000 (fst (_eosio_f32_nearest 0x40200000 initial_env)) /\
  rounds_as F32 f32_roundToInt softfloat_round_min initial_env 0x7F800001 (_eosio_f32_floor 0x7F800001).
Proof.
  split; [vm_compute; reflexivity|]. split; [|split].
  - refine (proj1 (proj2 (proj2 (float_roundings_correct 0xC004000000000000 initial_env) _) eq_refl)). encoding.
  - refine (proj2 (proj2 (proj2 (proj1 (float_roundings_correct 0x40200000 initial_env) _))) eq_refl). encoding.
  - refine (proj1 (proj2 (proj1 (float_roundings_correct 0x7F800001 initial_env) _))). encoding.
Defined.

(** -0 and +0, and a NaN against 1 *)
Lemma float_selections_correct_witness :
  min_spec F32 0 0x80000000 (fst (_eosio_f32_min 0 0x80000000 initial_env)) /\ fst (_eosio_f32_min 0 0x80000000 initial_env) = 0x80000000 /\
  relation_spec F64 true (fun x y => x <> y) 0x7FF0000000000001 0x3FF0000000000000
    (fst (_eosio_f64_ne 0x7FF0000000000001 0x3FF0000000000000 initial_env)).
Proof.
  split; [|split; [vm_compute; reflexivity|]].
  - refine (proj1 (proj1 (proj1 (float_selections_correct 0 0x80000000 initial_env) _ _))); encoding.
  - refine (proj1 (proj2 (proj2 (proj2 (float_selections_correct 0x7FF0000000000001 0x3FF0000000000000 initial_env) _ _)))); encoding.
Defined.

(** -2147483648.5 *)
Lemma below_least : value F64 0xC1E0000000100000 = (- IZR (2 ^ 31) - / 2)%R.
Proof.
  unfold value. change (sign_of F64 0xC1E0000000100000) with true.
  change (pattern_of F64 0xC1E0000000100000) with (0x41E * 2 ^ mb F64 + 2 ^ 20).
  rewrite (mag_fields F64) by (split; (discriminate || reflexivity)) || lia. cbn [Z.eqb signR].
  change (Z.max 0x41E 1 - 1 + emin F64) with (-21). change (2 ^ mb F64 + 2 ^ 20) with ((2 ^ 32 + 1) * 2 ^ 20).
  rewrite mult_IZR, <- (pow2_IZR 20), Rmult_assoc, <- pow2_add by discriminate. change (20 + -21) with (-1). rewrite pow2_m1, plus_IZR.
  change (2 ^ 32) with (2 * 2 ^ 31). rewrite mult_IZR. lra.
Qed.

Lemma float_truncations_correct_witness :
  _eosio_f64_trunc_i32s 0xC1E0000000100000 initial_env = (Throw wasm_runtime_exception, initial_env) /\
  truncation_spec F32 (unsigned_range 32) initial_env 0xBF000000 (_eosio_f32_trunc_i32u 0xBF000000 initial_env) /\
  fst (_eosio_f32_trunc_i32u 0xBF000000 initial_env) = Value 0.
Proof.
  split; [|split; [|vm_compute; reflexivity]].
  - refine (proj2 (proj2 (proj2 (float_truncations_correct 0xC1E0000000100000 initial_env)) _ eq_refl _)); [encoding|].
    rewrite below_least. lra.
  - refine (proj1 (proj2 (proj1 (float_truncations_correct 0xBF000000 initial_env) _))). encoding.
Defined.
