(* ===== verification/FloatTyped.v ===== *)
(** The intrinsics of softfloat_api are well typed: from encodings and integers
    of their parameter types they compute one of their result type or throw,
    and no rounding mode changes.  A small program logic, with one rule for
    each operation of the library. *)
From Stdlib Require Import ZArith Bool Lia String List.
From S2P Require Import Prelude Exceptions.
From Stdlib Require Import Reals Lra RelationClasses.
From S2P Require Import Ieee Softfloat Machine Contract Interface Laws Formats.
From S2P Require Import F32 F32Mul F64 F64Mul Integral Convert FromInt ToInt Widen.
From S2P Require Import Opcodes Injection FloatApi FloatBits FloatTrunc.
Import ListNotations.
Local Open Scope Z_scope.
Local Open Scope c_scope.
#[local] Opaque f32_add f32_sub f32_mul f32_div f32_eq f32_le f32_lt f32_roundToInt f32_to_f64.
#[local] Opaque f64_add f64_sub f64_mul f64_div f64_eq f64_le f64_lt f64_roundToInt f64_to_f32.

(** Flags apart, the state is the same. *)
Definition same_modes (s s' : env) : Prop := exists fl, s' = raised_env fl s.
#[export] Instance same_modes_preorder : PreOrder same_modes.
Proof.
  split; [intros s; exists 0; now rewrite raised_env_0|].
  intros s1 s2 s3 [a ->] [b ->]. exists (a .| b). apply raised_env_lor.
Qed.
Lemma same_modes_valid (s s' : env) : same_modes s s' -> valid_mode s -> valid_mode s'.
Proof. now intros [fl ->]. Qed.

(** ** Results of the contracts *)
Section Results.
Context (f : format) {V : ValidFormat f}.

Definition kept (s : env) (r : Z * env) : Prop := is_enc f (fst r) /\ same_modes s (snd r).

Lemma with_sign_enc (sg : bool) (b : Z) : 0 <= b < sign_weight f -> is_enc f (with_sign f sg b).
Proof. intros H. now apply (with_sign_fields f sg b). Qed.

Lemma quiet_enc (z : Z) : is_enc f z -> is_enc f (quiet f z).
Proof.
  unfold is_enc, quiet. intros Hz. destruct V. assert (E : 2 * sign_weight f = 2 ^ (mb f + eb f + 1)).
  { unfold sign_weight. rewrite (Z.pow_add_r 2 (mb f + eb f) 1) by lia. ring. }
  rewrite E in *. assert (P : 0 < 2 ^ (mb f - 1)) by (apply two_pow_pos; lia).
  assert (Q : 0 <= z .| 2 ^ (mb f - 1)) by (apply Z.lor_nonneg; lia). split; [exact Q|].
  destruct (Z.eq_dec (z .| 2 ^ (mb f - 1)) 0) as [->|N]; [apply two_pow_pos; lia|].
  apply Z.log2_lt_pow2; [lia|]. rewrite Z.log2_lor by lia. apply Z.max_lub_lt.
  - destruct (Z.eq_dec z 0) as [->|Nz]; [cbn; lia|]. apply Z.log2_lt_pow2; lia.
  - rewrite Z.log2_pow2 by lia. lia.
Qed.

Lemma kept_raised (z fl : Z) (s : env) : is_enc f z -> kept s (z, raised_env fl s).
Proof. intros H. split; [exact H|now exists fl]. Qed.
Lemma kept_same (z : Z) (s : env) : is_enc f z -> kept s (z, s).
Proof. intros H. split; [exact H|reflexivity]. Qed.

Lemma infinity_enc (sg : bool) : is_enc f (infinity f sg).
Proof. apply with_sign_enc. pose proof (inf_lt_sign f). lia. Qed.
Lemma zero_enc (sg : bool) : is_enc f (with_sign f sg 0).
Proof. apply with_sign_enc. pose proof (inf_lt_sign f). lia. Qed.

Lemma kept_nan (a b : Z) (s : env) : is_enc f a -> is_enc f b -> kept s (nan_result f a b s).
Proof. intros Ha Hb. apply kept_raised, quiet_enc. now destruct (nanb f a). Qed.
Lemma kept_invalid (s : env) : kept s (invalid_result f s).
Proof. apply kept_raised, quiet_enc, infinity_enc. Qed.

Lemma kept_rounded (s : env) (sg : bool) (x : R) (r : Z * env) : rounded_result f s sg x r -> kept s r.
Proof. intros (b & fl & -> & Rb & _). apply kept_raised, with_sign_enc. exact (rounds_to_range f _ _ _ Rb). Qed.

Lemma kept_correct (s : env) (x : R) (r : Z * env) :
  (x = 0%R -> exists sg, r = (with_sign f sg 0, s)) -> correctly_rounded f s x r -> kept s r.
Proof.
  intros Z0 [P N]. destruct (Rtotal_order x 0) as [L|[E|G]].
  - exact (kept_rounded _ _ _ _ (N L)).
  - destruct (Z0 E) as [sg ->]. apply kept_same, zero_enc.
  - exact (kept_rounded _ _ _ _ (P G)).
Qed.

Lemma kept_sum (s : env) (a b : Z) (sb : bool) (r : Z * env) : is_enc f a -> is_enc f b -> sum_spec f s a b sb r -> kept s r.
Proof.
  intros Ha Hb. unfold sum_spec. destruct (_ || _); [intros ->; now apply kept_nan|].
  destruct (infb f a); [intros ->; destruct (_ && _); [apply kept_invalid|apply kept_same, infinity_enc]|].
  destruct (infb f b); [intros ->; apply kept_same, infinity_enc|]. intros [Z0 C]. apply (kept_correct _ _ _) in C; [exact C|].
  intros E. eexists. exact (Z0 E).
Qed.

Lemma kept_mul (s : env) (a b : Z) (r : Z * env) : is_enc f a -> is_enc f b -> mul_spec f s a b r -> kept s r.
Proof.
  intros Ha Hb. unfold mul_spec. destruct (_ || _); [intros ->; now apply kept_nan|].
  destruct (_ || _); [intros ->; destruct (_ || _); [apply kept_invalid|apply kept_same, infinity_enc]|]. apply kept_rounded.
Qed.

Lemma kept_div (s : env) (a b : Z) (r : Z * env) : is_enc f a -> is_enc f b -> div_spec f s a b r -> kept s r.
Proof.
  intros Ha Hb. unfold div_spec. destruct (_ || _); [intros ->; now apply kept_nan|].
  destruct (infb f a); [intros ->; destruct (infb f b); [apply kept_invalid|apply kept_same, infinity_enc]|].
  destruct (infb f b); [intros ->; apply kept_same, zero_enc|].
  destruct (zerob f b); [intros ->; destruct (zerob f a); [apply kept_invalid|apply kept_raised, infinity_enc]|]. apply kept_rounded.
Qed.

Lemma kept_integral (s : env) (d : direction) (exact : bool) (a : Z) (r : Z * env) : is_enc f a -> integral_spec f s d exact a r -> kept s r.
Proof.
  intros Ha. unfold integral_spec. pose proof (inf_lt_sign f) as I.
  destruct (nanb f a); [intros ->; apply kept_nan; [assumption|]; unfold is_enc; lia|].
  destruct (infb f a); [intros ->; now apply kept_same|]. intros (b & n & _ & _ & Hb & fl & -> & _). apply kept_raised, with_sign_enc. lia.
Qed.

Lemma kept_from_int (s : env) (a : Z) (r : Z * env) : from_int_spec f s a r -> kept s r.
Proof.
  intros [Z0 C]. apply (kept_correct s (IZR a)); [|exact C]. intros E. apply eq_IZR_R0 in E. exists false. exact (Z0 E).
Qed.

Lemma kept_compare (sg : bool) (cmp : R -> R -> Prop) (s : env) (a b : Z) (r : bool * env) :
  compare_spec f sg cmp s a b r -> same_modes s (snd r).
Proof. unfold compare_spec. destruct (_ || _); [intros ->; now eexists|]. intros [-> _]. reflexivity. Qed.
End Results.

Lemma kept_convert (f g : format) {V : ValidFormat f} {W : ValidFormat g} (s : env) (a : Z) (r : Z * env) :
  convert_spec f g s a r -> kept g s r.
Proof.
  unfold convert_spec. destruct (nanb f a); [|destruct (infb f a); [intros ->; apply (kept_same g), (infinity_enc g)|now apply (kept_rounded g)]].
  intros ->. apply kept_raised. unfold convert_nan. apply (quiet_enc g), (with_sign_enc g).
  pose proof (pow_mb_pos f) as P. pose proof (pow_mb_pos g) as Q. pose proof (inf_pattern_pos g) as I.
  pose proof (Z.mod_pos_bound (pattern_of f a) (2 ^ mb f) ltac:(lia)) as B. set (p := pattern_of f a mod 2 ^ mb f) in *.
  assert (X : 0 <= p * 2 ^ mb g / 2 ^ mb f < 2 ^ mb g) by (split; [apply Z.div_pos; nia|apply Z.div_lt_upper_bound; nia]).
  assert (E : sign_weight g = inf_pattern g + 2 ^ mb g).
  { destruct W. unfold sign_weight, inf_pattern. rewrite Z.pow_add_r by lia. ring. }
  lia.
Qed.

(** ** The logic *)

(** [m] keeps the modes and its result has the property. *)
Definition keeps {A} (P : A -> Prop) (m : M A) : Prop := forall s, valid_mode s -> same_modes s (snd (m s)) /\ P (fst (m s)).
Definition tkeeps {A} (P : A -> Prop) (m : T A) : Prop := forall s, valid_mode s -> same_modes s (snd (m s)) /\
  match fst (m s) with Value a => P a | Throw e => e = wasm_runtime_exception end.

Lemma keeps_ret {A} (P : A -> Prop) (a : A) : P a -> keeps P (Softfloat.ret a).
Proof. intros H s _. split; [reflexivity|exact H]. Qed.

Lemma keeps_bind {A B} (P : A -> Prop) (Q : B -> Prop) (m : M A) (k : A -> M B) :
  keeps P m -> (forall a, P a -> keeps Q (k a)) -> keeps Q (bind m k).
Proof.
  intros Hm Hk s Hs. destruct (Hm s Hs) as [S1 P1]. unfold bind. destruct (m s) as [a s1]. cbn [fst snd] in *.
  destruct (Hk a P1 s1 (same_modes_valid _ _ S1 Hs)) as [S2 Q2]. split; [now transitivity s1|exact Q2].
Qed.

Lemma keeps_if {A} (P : A -> Prop) (c : bool) (m1 m2 : M A) : keeps P m1 -> keeps P m2 -> keeps P (if c then m1 else m2).
Proof. now destruct c. Qed.

Lemma keeps_kept (f : format) (m : M Z) : (forall s, valid_mode s -> kept f s (m s)) -> keeps (is_enc f) m.
Proof. intros H s Hs. destruct (H s Hs) as [E S]. auto. Qed.

Lemma tkeeps_lift {A} (P : A -> Prop) (m : M A) : keeps P m -> tkeeps P (tlift m).
Proof. intros H s Hs. unfold tlift. destruct (H s Hs) as [S1 P1]. destruct (m s). auto. Qed.

Create HintDb keeps.
#[export] Hint Resolve keeps_ret keeps_if tkeeps_lift : keeps.

Definition any (_ : bool) : Prop := True.
Lemma any_true (b : bool) : any b.
Proof. exact I. Qed.
#[export] Hint Resolve any_true : keeps.

(** ** The operations of the library, against the interface *)
Section Operations.
Context {f : format} {O : FloatOps f} {L : FloatLaws f}.
Context (a b : Z) (Ha : is_enc f a) (Hb : is_enc f b).

Lemma add_keeps : keeps (is_enc f) (fadd a b).
Proof. apply keeps_kept. intros s Hs. refine (kept_sum f s a b _ _ Ha Hb _). now apply add_law. Qed.
Lemma sub_keeps : keeps (is_enc f) (fsub a b).
Proof. apply keeps_kept. intros s Hs. refine (kept_sum f s a b _ _ Ha Hb _). now apply sub_law. Qed.
Lemma mul_keeps : keeps (is_enc f) (fmul a b).
Proof. apply keeps_kept. intros s Hs. refine (kept_mul f s a b _ Ha Hb _). now apply mul_law. Qed.
Lemma div_keeps : keeps (is_enc f) (fdiv a b).
Proof. apply keeps_kept. intros s Hs. refine (kept_div f s a b _ Ha Hb _). now apply div_law. Qed.
Lemma eq_keeps : keeps any (feq a b).
Proof. intros s Hs. split; [|exact I]. refine (kept_compare f _ _ s a b _ _). now apply eq_law. Qed.
Lemma le_keeps : keeps any (fle a b).
Proof. intros s Hs. split; [|exact I]. refine (kept_compare f _ _ s a b _ _). now apply order_law. Qed.
Lemma lt_keeps : keeps any (flt a b).
Proof. intros s Hs. split; [|exact I]. refine (kept_compare f _ _ s a b _ _). now apply order_law. Qed.
Lemma round_enc (mode : Z) (s : env) : is_enc f (if nanb f a then a else fst (froundToInt a mode false s)).
Proof. destruct (nanb f a); [exact Ha|]. apply (kept_integral f s (mag_direction mode (sign_of f a)) false a _ Ha). now apply round_law. Qed.
End Operations.

(** One rule for each operation of the library. *)
Section Rules.
Context (a b : Z).
Lemma f32_add_keeps : is_enc F32 a -> is_enc F32 b -> keeps (is_enc F32) (f32_add a b).
Proof. exact (add_keeps (f := F32) (O := F32_ops) a b). Qed.
Lemma f32_sub_keeps : is_enc F32 a -> is_enc F32 b -> keeps (is_enc F32) (f32_sub a b).
Proof. exact (sub_keeps (f := F32) (O := F32_ops) a b). Qed.
Lemma f32_mul_keeps : is_enc F32 a -> is_enc F32 b -> keeps (is_enc F32) (f32_mul a b).
Proof. exact (mul_keeps (f := F32) (O := F32_ops) a b). Qed.
Lemma f32_div_keeps : is_enc F32 a -> is_enc F32 b -> keeps (is_enc F32) (f32_div a b).
Proof. exact (div_keeps (f := F32) (O := F32_ops) a b). Qed.
Lemma f32_eq_keeps : is_enc F32 a -> is_enc F32 b -> keeps any (f32_eq a b).
Proof. exact (eq_keeps (f := F32) (O := F32_ops) a b). Qed.
Lemma f32_le_keeps : is_enc F32 a -> is_enc F32 b -> keeps any (f32_le a b).
Proof. exact (le_keeps (f := F32) (O := F32_ops) a b). Qed.
Lemma f32_lt_keeps : is_enc F32 a -> is_enc F32 b -> keeps any (f32_lt a b).
Proof. exact (lt_keeps (f := F32) (O := F32_ops) a b). Qed.
Lemma f64_add_keeps : is_enc F64 a -> is_enc F64 b -> keeps (is_enc F64) (f64_add a b).
Proof. exact (add_keeps (f := F64) (O := F64_ops) a b). Qed.
Lemma f64_sub_keeps : is_enc F64 a -> is_enc F64 b -> keeps (is_enc F64) (f64_sub a b).
Proof. exact (sub_keeps (f := F64) (O := F64_ops) a b). Qed.
Lemma f64_mul_keeps : is_enc F64 a -> is_enc F64 b -> keeps (is_enc F64) (f64_mul a b).
Proof. exact (mul_keeps (f := F64) (O := F64_ops) a b). Qed.
Lemma f64_div_keeps : is_enc F64 a -> is_enc F64 b -> keeps (is_enc F64) (f64_div a b).
Proof. exact (div_keeps (f := F64) (O := F64_ops) a b). Qed.
Lemma f64_eq_keeps : is_enc F64 a -> is_enc F64 b -> keeps any (f64_eq a b).
Proof. exact (eq_keeps (f := F64) (O := F64_ops) a b). Qed.
Lemma f64_le_keeps : is_enc F64 a -> is_enc F64 b -> keeps any (f64_le a b).
Proof. exact (le_keeps (f := F64) (O := F64_ops) a b). Qed.
Lemma f64_lt_keeps : is_enc F64 a -> is_enc F64 b -> keeps any (f64_lt a b).
Proof. exact (lt_keeps (f := F64) (O := F64_ops) a b). Qed.
Lemma promote_keeps : is_enc F32 a -> keeps (is_enc F64) (f32_to_f64 a).
Proof. intros Ha. apply keeps_kept. intros s _. apply (kept_convert F32 F64 s a). now apply f32_to_f64_spec. Qed.
Lemma demote_keeps : is_enc F64 a -> keeps (is_enc F32) (f64_to_f32 a).
Proof. intros Ha. apply keeps_kept. intros s _. apply (kept_convert F64 F32 s a). now apply f64_to_f32_spec. Qed.
End Rules.
#[export] Hint Resolve f32_add_keeps f32_sub_keeps f32_mul_keeps f32_div_keeps f32_eq_keeps f32_le_keeps f32_lt_keeps
  f64_add_keeps f64_sub_keeps f64_mul_keeps f64_div_keeps f64_eq_keeps f64_le_keeps f64_lt_keeps promote_keeps demote_keeps : keeps.

(** ** Conversions of integers *)
Section Integers.
Context (a : Z).

Lemma of_int_keeps (f : format) {V : ValidFormat f} (m : M Z) (x : Z) : (forall s, from_int_spec f s x (m s)) -> keeps (is_enc f) m.
Proof. intros H. apply keeps_kept. intros s _. exact (kept_from_int f s x _ (H s)). Qed.

Lemma i32_range : - 2 ^ 31 <= i32 a < 2 ^ 31.
Proof. unfold swrap. change (32 - 1) with 31. pose proof (Z.mod_pos_bound (a + 2 ^ 31) (2 ^ 32) ltac:(lia)). lia. Qed.
Lemma i64_range : - 2 ^ 63 <= i64 a < 2 ^ 63.
Proof. unfold swrap. change (64 - 1) with 63. pose proof (Z.mod_pos_bound (a + 2 ^ 63) (2 ^ 64) ltac:(lia)). lia. Qed.

Lemma i32_to_f32_keeps : keeps (is_enc F32) (i32_to_f32 (i32 a)).
Proof. apply (of_int_keeps F32 _ (i32 a)). intros s. apply i32_to_f32_spec, i32_range. Qed.
Lemma ui32_to_f32_keeps : keeps (is_enc F32) (ui32_to_f32 (u32 a)).
Proof. apply (of_int_keeps F32 _ (u32 a)). intros s. apply ui32_to_f32_spec. auto with bits zarith. Qed.
Lemma i64_to_f32_keeps : keeps (is_enc F32) (i64_to_f32 (i64 a)).
Proof. apply (of_int_keeps F32 _ (i64 a)). intros s. apply i64_to_f32_spec, i64_range. Qed.
Lemma ui64_to_f32_keeps : keeps (is_enc F32) (ui64_to_f32 (u64 a)).
Proof. apply (of_int_keeps F32 _ (u64 a)). intros s. apply ui64_to_f32_spec. auto with bits zarith. Qed.
Lemma i32_to_f64_keeps : keeps (is_enc F64) (i32_to_f64 (i32 a)).
Proof. apply (of_int_keeps F64 _ (i32 a)). intros s. apply i32_to_f64_spec, i32_range. Qed.
Lemma ui32_to_f64_keeps : keeps (is_enc F64) (ui32_to_f64 (u32 a)).
Proof. apply (of_int_keeps F64 _ (u32 a)). intros s. apply ui32_to_f64_spec. auto with bits zarith. Qed.
Lemma i64_to_f64_keeps : keeps (is_enc F64) (i64_to_f64 (i64 a)).
Proof. apply (of_int_keeps F64 _ (i64 a)). intros s. apply i64_to_f64_spec, i64_range. Qed.
Lemma ui64_to_f64_keeps : keeps (is_enc F64) (ui64_to_f64 (u64 a)).
Proof. apply (of_int_keeps F64 _ (u64 a)). intros s. apply ui64_to_f64_spec. auto with bits zarith. Qed.
End Integers.
#[export] Hint Resolve i32_to_f32_keeps ui32_to_f32_keeps i64_to_f32_keeps ui64_to_f32_keeps
  i32_to_f64_keeps ui32_to_f64_keeps i64_to_f64_keeps ui64_to_f64_keeps : keeps.

(** ** The intrinsics *)

(** A value of a type; an I32 or I64 is read as signed or unsigned by its user. *)
Definition in_type (t z : Z) : Prop :=
  if t =? vt_f32 then is_enc F32 z
  else if t =? vt_f64 then is_enc F64 z
  else if t =? vt_i32 then - 2 ^ 31 <= z < 2 ^ 32
  else if t =? vt_i64 then - 2 ^ 63 <= z < 2 ^ 64
  else False.

Definition typed (n : native) (t : FunctionType) : Prop :=
  match n, t with
  | Unary F, Function r [p] => forall a, in_type p a -> tkeeps (in_type r) (F a)
  | Binary F, Function r [p; q] => forall a b, in_type p a -> in_type q b -> tkeeps (in_type r) (F a b)
  | _, _ => False
  end.

Lemma bool_keeps (m : M bool) : keeps any m -> keeps (in_type vt_i32) (bind m (fun c => Softfloat.ret (b2z c))).
Proof. intros H. apply (keeps_bind any); [exact H|]. intros [|] _; apply keeps_ret; cbn; lia. Qed.

Lemma truncation_typed (f : format) (range : R -> Prop) (t : Z) (a : Z) (m : T Z) :
  (forall s, truncation_spec f range s a (m s)) ->
  (forall n, rint TowardZero (mag f (pattern_of f a)) n -> range (value f a) -> in_type t (if sign_of f a then - n else n)) ->
  (range (value f a) \/ ~ range (value f a)) -> tkeeps (in_type t) m.
Proof.
  intros H Ht Dec s _. specialize (H s). unfold truncation_spec in H. destruct (nanb f a).
  - rewrite H. split; [now eexists|reflexivity].
  - destruct H as [H1 H2]. destruct Dec as [D|D].
    + destruct (H1 D) as (n & Hn & ->). split; [reflexivity|]. now apply Ht.
    + rewrite (H2 D). split; reflexivity.
Qed.

Lemma signed_decided (w : Z) (x : R) : signed_range w x \/ ~ signed_range w x.
Proof. unfold signed_range. lra. Qed.
Lemma unsigned_decided (w : Z) (x : R) : unsigned_range w x \/ ~ unsigned_range w x.
Proof. unfold unsigned_range. lra. Qed.

Section Truncations.
Context (f : format) {V : ValidFormat f} (t w a : Z) (m : T Z) (Hw : w = 32 /\ t = vt_i32 \/ w = 64 /\ t = vt_i64).
Lemma signed_typed : (forall s, truncation_spec f (signed_range w) s a (m s)) -> tkeeps (in_type t) m.
Proof.
  intros H. apply (truncation_typed f _ t a m H); [|apply signed_decided]. intros n Hn Hr.
  apply (signed_in_range f a n w ltac:(lia) Hn) in Hr. destruct Hw as [[-> ->]|[-> ->]]; cbn -[Z.pow] in *; lia.
Qed.
Lemma unsigned_typed : (forall s, truncation_spec f (unsigned_range w) s a (m s)) -> tkeeps (in_type t) m.
Proof.
  intros H. apply (truncation_typed f _ t a m H); [|apply unsigned_decided]. intros n Hn Hr.
  apply (unsigned_in_range f a n w ltac:(lia) Hn) in Hr. destruct Hw as [[-> ->]|[-> ->]]; cbn -[Z.pow] in *; lia.
Qed.
End Truncations.

(** The intrinsics that are programs over the library's operations. *)
Ltac enc := solve [assumption | encoding | now apply with_sign_enc].
Ltac keep f :=
  lazymatch goal with
  | |- keeps _ (if _ then _ else _) => apply keeps_if; keep f
  | |- keeps _ (@bind Z _ _ _) => apply (keeps_bind (is_enc f)); [keep f|intros ? ?; keep f]
  | |- keeps _ (@bind bool _ _ _) => apply (keeps_bind any); [keep f|intros ? ?; keep f]
  | |- keeps any (Softfloat.ret _) => apply keeps_ret; exact I
  | |- keeps _ (Softfloat.ret _) => apply keeps_ret; repeat match goal with |- is_enc _ (if ?c then _ else _) => destruct c end; enc
  | |- _ => solve [auto 2 with keeps | first [apply f32_add_keeps | apply f32_sub_keeps | apply f64_add_keeps | apply f64_sub_keeps
             | apply f32_eq_keeps | apply f64_eq_keeps | apply f64_le_keeps | apply f64_lt_keeps]; enc]
  end.

Section Programs.
Context (a b : Z).

Lemma programs32 : is_enc F32 a -> is_enc F32 b ->
  keeps (is_enc F32) (_eosio_f32_min a b) /\ keeps (is_enc F32) (_eosio_f32_max a b) /\ keeps (is_enc F32) (_eosio_f32_nearest a) /\
  keeps any (_eosio_f32_ne a b) /\ keeps any (_eosio_f32_gt a b) /\ keeps any (_eosio_f32_ge a b).
Proof.
  intros Ha Hb. unfold _eosio_f32_min, _eosio_f32_max, _eosio_f32_nearest, _eosio_f32_ne, _eosio_f32_gt, _eosio_f32_ge.
  cbv zeta. repeat match goal with |- _ /\ _ => split end; keep F32.
Qed.

Lemma programs64 : is_enc F64 a -> is_enc F64 b ->
  keeps (is_enc F64) (_eosio_f64_min a b) /\ keeps (is_enc F64) (_eosio_f64_max a b) /\ keeps (is_enc F64) (_eosio_f64_nearest a) /\
  keeps (is_enc F64) (_eosio_f64_ceil a) /\ keeps (is_enc F64) (_eosio_f64_floor a) /\
  keeps any (_eosio_f64_ne a b) /\ keeps any (_eosio_f64_gt a b) /\ keeps any (_eosio_f64_ge a b).
Proof.
  intros Ha Hb. unfold _eosio_f64_min, _eosio_f64_max, _eosio_f64_nearest, _eosio_f64_ceil, _eosio_f64_floor, _eosio_f64_ne, _eosio_f64_gt, _eosio_f64_ge.
  cbv zeta. repeat match goal with |- _ /\ _ => split end; keep F64.
Qed.
End Programs.

(** Each group at its registered types. *)
Section Registered.
Context (a b : Z).

Lemma sums_typed32 : is_enc F32 a -> is_enc F32 b ->
  keeps (is_enc F32) (_eosio_f32_add a b) /\ keeps (is_enc F32) (_eosio_f32_sub a b) /\
  keeps (is_enc F32) (_eosio_f32_mul a b) /\ keeps (is_enc F32) (_eosio_f32_div a b) /\
  keeps any (_eosio_f32_eq a b) /\ keeps any (_eosio_f32_lt a b) /\ keeps any (_eosio_f32_le a b).
Proof.
  intros Ha Hb. unfold _eosio_f32_add, _eosio_f32_sub, _eosio_f32_mul, _eosio_f32_div, _eosio_f32_eq, _eosio_f32_lt, _eosio_f32_le.
  repeat match goal with |- _ /\ _ => split end; auto with keeps.
Qed.

Lemma sums_typed64 : is_enc F64 a -> is_enc F64 b ->
  keeps (is_enc F64) (_eosio_f64_add a b) /\ keeps (is_enc F64) (_eosio_f64_sub a b) /\
  keeps (is_enc F64) (_eosio_f64_mul a b) /\ keeps (is_enc F64) (_eosio_f64_div a b) /\
  keeps any (_eosio_f64_eq a b) /\ keeps any (_eosio_f64_lt a b) /\ keeps any (_eosio_f64_le a b).
Proof.
  intros Ha Hb. unfold _eosio_f64_add, _eosio_f64_sub, _eosio_f64_mul, _eosio_f64_div, _eosio_f64_eq, _eosio_f64_lt, _eosio_f64_le.
  repeat match goal with |- _ /\ _ => split end; auto with keeps.
Qed.

Lemma words_typed32 : is_enc F32 a -> is_enc F32 b ->
  is_enc F32 (_eosio_f32_copysign a b) /\ is_enc F32 (_eosio_f32_abs a) /\ is_enc F32 (_eosio_f32_neg a) /\
  is_enc F32 (_eosio_f32_ceil a) /\ is_enc F32 (_eosio_f32_floor a) /\ is_enc F32 (_eosio_f32_trunc a).
Proof.
  intros Ha Hb. destruct (copysign_abs_neg32 a b Ha Hb) as (-> & -> & ->). pose proof (pattern_bounds F32 a) as B.
  rewrite (f32_ceil_round a initial_env Ha), (f32_floor_round a initial_env Ha), (f32_trunc_round a initial_env Ha).
  pose proof (fun mode => round_enc (f := F32) (O := F32_ops) a Ha mode initial_env) as R.
  split; [now apply with_sign_enc|]. split; [now apply with_sign_enc|]. split; [now apply with_sign_enc|].
  split; [apply R|]. split; apply R.
Qed.

Lemma words_typed64 : is_enc F64 a -> is_enc F64 b ->
  is_enc F64 (_eosio_f64_copysign a b) /\ is_enc F64 (_eosio_f64_abs a) /\ is_enc F64 (_eosio_f64_neg a) /\ is_enc F64 (_eosio_f64_trunc a).
Proof.
  intros Ha Hb. destruct (copysign_abs_neg64 a b Ha Hb) as (-> & -> & ->). pose proof (pattern_bounds F64 a) as B.
  rewrite (f64_trunc_round a initial_env Ha).
  split; [now apply with_sign_enc|]. split; [now apply with_sign_enc|]. split; [now apply with_sign_enc|].
  exact (round_enc (f := F64) (O := F64_ops) a Ha softfloat_round_minMag initial_env).
Qed.

Lemma truncs_typed32 : is_enc F32 a ->
  tkeeps (in_type vt_i32) (_eosio_f32_trunc_i32s a) /\ tkeeps (in_type vt_i32) (_eosio_f32_trunc_i32u a) /\
  tkeeps (in_type vt_i64) (_eosio_f32_trunc_i64s a) /\ tkeeps (in_type vt_i64) (_eosio_f32_trunc_i64u a).
Proof.
  intros Ha. pose proof (fun s => f32_trunc_correct a s Ha) as H.
  split; [apply (signed_typed F32 vt_i32 32 a); [auto|apply H]|]. split; [apply (unsigned_typed F32 vt_i32 32 a); [auto|apply H]|].
  split; [apply (signed_typed F32 vt_i64 64 a); [auto|apply H]|apply (unsigned_typed F32 vt_i64 64 a); [auto|apply H]].
Qed.

Lemma truncs_typed64 : is_enc F64 a ->
  tkeeps (in_type vt_i32) (_eosio_f64_trunc_i32s a) /\ tkeeps (in_type vt_i32) (_eosio_f64_trunc_i32u a) /\
  tkeeps (in_type vt_i64) (_eosio_f64_trunc_i64s a) /\ tkeeps (in_type vt_i64) (_eosio_f64_trunc_i64u a).
Proof.
  intros Ha. pose proof (fun s => f64_trunc_correct a s Ha) as H.
  split; [apply (signed_typed F64 vt_i32 32 a); [auto|apply H]|]. split; [apply (unsigned_typed F64 vt_i32 32 a); [auto|apply H]|].
  split; [apply (signed_typed F64 vt_i64 64 a); [auto|apply H]|apply (unsigned_typed F64 vt_i64 64 a); [auto|apply H]].
Qed.
End Registered.

#[local] Opaque _eosio_f32_add _eosio_f32_sub _eosio_f32_div _eosio_f32_mul _eosio_f32_min _eosio_f32_max.
#[local] Opaque _eosio_f32_copysign _eosio_f32_abs _eosio_f32_neg _eosio_f32_ceil _eosio_f32_floor.
#[local] Opaque _eosio_f32_trunc _eosio_f32_nearest _eosio_f32_eq _eosio_f32_ne _eosio_f32_lt _eosio_f32_le.
#[local] Opaque _eosio_f32_gt _eosio_f32_ge _eosio_f64_add _eosio_f64_sub _eosio_f64_div _eosio_f64_mul.
#[local] Opaque _eosio_f64_min _eosio_f64_max _eosio_f64_copysign _eosio_f64_abs _eosio_f64_neg _eosio_f64_ceil.
#[local] Opaque _eosio_f64_floor _eosio_f64_trunc _eosio_f64_nearest _eosio_f64_eq _eosio_f64_ne _eosio_f64_lt.
#[local] Opaque _eosio_f64_le _eosio_f64_gt _eosio_f64_ge _eosio_f32_trunc_i32s _eosio_f64_trunc_i32s.
#[local] Opaque _eosio_f32_trunc_i32u _eosio_f64_trunc_i32u _eosio_f32_trunc_i64s _eosio_f64_trunc_i64s.
#[local] Opaque _eosio_f32_trunc_i64u _eosio_f64_trunc_i64u.

(** One conjunct of a lemma, and the group an intrinsic belongs to. *)
Ltac pick_in H m :=
  lazymatch type of H with
  | ?P /\ ?Q => lazymatch P with
      | context [m] => exact (proj1 H)
      | _ => let K := fresh in pose proof (proj2 H) as K; pick_in K m
      end
  | context [m] => exact H
  end.
Ltac pick H := lazymatch goal with |- keeps _ ?m => pick_in H m | |- tkeeps _ ?m => pick_in H m | |- in_type _ ?z => pick_in H z end.
Ltac group Ha Hb :=
  lazymatch goal with
  | |- tkeeps _ (tlift _) => apply tkeeps_lift; group Ha Hb
  | |- tkeeps _ _ => first [pick (truncs_typed32 _ Ha) | pick (truncs_typed64 _ Ha)]
  | |- keeps _ (Softfloat.ret _) => apply keeps_ret; first [pick (words_typed32 _ _ Ha Hb) | pick (words_typed64 _ _ Ha Hb)]
  | |- keeps _ (bind _ _) => apply bool_keeps; group Ha Hb
  | |- keeps _ _ => first
      [pick (sums_typed32 _ _ Ha Hb) | pick (programs32 _ _ Ha Hb) | pick (sums_typed64 _ _ Ha Hb) | pick (programs64 _ _ Ha Hb)
      |exact (promote_keeps _ Ha) | exact (demote_keeps _ Ha)]
  end.
Ltac native_typed :=
  lazymatch goal with
  | |- typed (Unary _) (Function _ [vt_f32]) => let H := fresh in intros ? H; group H H
  | |- typed (Unary _) (Function _ [vt_f64]) => let H := fresh in intros ? H; group H H
  | |- typed (Binary _) _ => let Ha := fresh in let Hb := fresh in intros ? ? Ha Hb; group Ha Hb
  | |- typed (Unary _) _ => intros ? _; apply tkeeps_lift; lazymatch goal with
      | |- keeps _ (_eosio_i32_to_f32 _) => apply i32_to_f32_keeps
      | |- keeps _ (_eosio_i64_to_f32 _) => apply i64_to_f32_keeps
      | |- keeps _ (_eosio_ui32_to_f32 _) => apply ui32_to_f32_keeps
      | |- keeps _ (_eosio_ui64_to_f32 _) => apply ui64_to_f32_keeps
      | |- keeps _ (_eosio_i32_to_f64 _) => apply i32_to_f64_keeps
      | |- keeps _ (_eosio_i64_to_f64 _) => apply i64_to_f64_keeps
      | |- keeps _ (_eosio_ui32_to_f64 _) => apply ui32_to_f64_keeps
      | |- keeps _ (_eosio_ui64_to_f64 _) => apply ui64_to_f64_keeps
      end
  end.

Definition square_roots : list string := ["_eosio_f32_sqrt"; "_eosio_f64_sqrt"]%string.

Lemma natives_typed : Forall (fun i => existsb (String.eqb (fst i)) square_roots = true \/
  exists n, lookup String.eqb (fst i) softfloat_natives = Some n /\ typed n (snd i)) softfloat_intrinsics.
Proof.
  unfold softfloat_intrinsics.
  repeat (apply Forall_cons; [first [left; reflexivity|right; eexists; split; [reflexivity|]; cbn [snd]; native_typed]|]).
  apply Forall_nil.
Qed.

(** C19. The intrinsics of softfloat_api have the types they are registered
    with.  Every one but the two square roots, called on values of its
    parameter types - encodings of floating-point numbers and integers of 32 or
    64 bits - in a state with one of the five rounding modes, computes a value
    of its result type or throws wasm_runtime_exception, and leaves the
    rounding mode and the tininess rule as they were; so the mode the other
    theorems ask for, which is the initial one, holds throughout a run. *)
Theorem softfloat_intrinsics_typed (name : string) (t : FunctionType) :
  In (name, t) softfloat_intrinsics -> ~ In name square_roots ->
  exists n, lookup String.eqb name softfloat_natives = Some n /\ typed n t.
Proof.
  intros H N. pose proof natives_typed as A. rewrite Forall_forall in A. destruct (A _ H) as [S|S]; [|exact S].
  exfalso. apply existsb_exists in S. destruct S as (x & Hx & E). apply String.eqb_eq in E. cbn [fst] in E. now subst x.
Qed.

Lemma softfloat_intrinsics_typed_witness : exists n,
  lookup String.eqb "_eosio_f64_trunc_i64u"%string softfloat_natives = Some n /\ typed n (Function vt_i64 [vt_f64]).
Proof.
  apply (softfloat_intrinsics_typed "_eosio_f64_trunc_i64u"); [unfold softfloat_intrinsics; cbn; tauto|].
  vm_compute. intros [H|[H|H]]; [discriminate..|exact H].
Defined.
