(* ===== verification/FloatCalls.v ===== *)
(** What a floating-point operation of a contract computes: injection calls an
    intrinsic in its place, and the intrinsic meets the specification of the
    operation. *)
From Stdlib Require Import ZArith Bool Lia String List.
From S2P Require Import Prelude Exceptions.
From Stdlib Require Import Reals Lra.
From S2P Require Import Ieee Softfloat Machine Contract Interface Laws Formats.
From S2P Require Import F32 F32Arith F32Mul F64 F64Arith F64Mul Integral FromInt Widen.
From S2P Require Import Opcodes Injection Linking InjectCorrect FloatTrick FloatApi FloatBits FloatRound FloatTrunc FloatTyped.
Import ListNotations.
Local Open Scope Z_scope.
#[local] Opaque f32_add f32_sub f32_mul f32_div f32_eq f32_le f32_lt f32_roundToInt f32_to_f64.
#[local] Opaque f64_add f64_sub f64_mul f64_div f64_eq f64_le f64_lt f64_roundToInt f64_to_f32.

(** ** The operations *)

(** A total operation of one or two operands of a format, given by what its
    result and the flags have to be, or a truncation, which may throw. *)
Inductive operation : Type :=
  | Unop (f : format) (P : env -> Z -> Z * env -> Prop)
  | Binop (f : format) (P : env -> Z -> Z -> Z * env -> Prop)
  | Truncation (f : format) (range : R -> Prop).

(** The encoding, with the sign of the operand, of the integer it rounds to. *)
Definition integral_value (f : format) (mode : Z) (s : env) (a : Z) (r : Z * env) : Prop :=
  if nanb f a || infb f a then fst r = a
  else exists b n, rint (mag_direction mode (sign_of f a)) (mag f (pattern_of f a)) n /\
    0 <= b < inf_pattern f /\ mag f b = IZR n /\ fst r = with_sign f (sign_of f a) b.
(** 1 or 0 *)
Definition relation_value (f : format) (unordered : bool) (rel : R -> R -> Prop) (s : env) (a b : Z) (r : Z * env) : Prop :=
  exists c, fst r = b2z c /\ relation_spec f unordered rel a b c.

Definition wasm_operations : list (Z * operation) :=
  [(f32_eq_code, Binop F32 (relation_value F32 false eq));
   (f32_ne_code, Binop F32 (relation_value F32 true (fun x y => x <> y)));
   (f32_lt_code, Binop F32 (relation_value F32 false Rlt));
   (f32_gt_code, Binop F32 (relation_value F32 false Rgt));
   (f32_le_code, Binop F32 (relation_value F32 false Rle));
   (f32_ge_code, Binop F32 (relation_value F32 false Rge));
   (f64_eq_code, Binop F64 (relation_value F64 false eq));
   (f64_ne_code, Binop F64 (relation_value F64 true (fun x y => x <> y)));
   (f64_lt_code, Binop F64 (relation_value F64 false Rlt));
   (f64_gt_code, Binop F64 (relation_value F64 false Rgt));
   (f64_le_code, Binop F64 (relation_value F64 false Rle));
   (f64_ge_code, Binop F64 (relation_value F64 false Rge));
   (f32_abs_code, Unop F32 (fun s a r => fst r = with_sign F32 false (pattern_of F32 a)));
   (f32_neg_code, Unop F32 (fun s a r => fst r = negate F32 a));
   (f32_ceil_code, Unop F32 (integral_value F32 softfloat_round_max));
   (f32_floor_code, Unop F32 (integral_value F32 softfloat_round_min));
   (f32_trunc_code, Unop F32 (integral_value F32 softfloat_round_minMag));
   (f32_nearest_code, Unop F32 (integral_value F32 softfloat_round_near_even));
   (f32_add_code, Binop F32 (fun s a b => sum_spec F32 s a b (sign_of F32 b)));
   (f32_sub_code, Binop F32 (fun s a b => sum_spec F32 s a b (negb (sign_of F32 b))));
   (f32_mul_code, Binop F32 (mul_spec F32));
   (f32_div_code, Binop F32 (div_spec F32));
   (f32_min_code, Binop F32 (fun s a b r => min_spec F32 a b (fst r)));
   (f32_max_code, Binop F32 (fun s a b r => max_spec F32 a b (fst r)));
   (f32_copysign_code, Binop F32 (fun s a b r => fst r = with_sign F32 (sign_of F32 b) (pattern_of F32 a)));
   (f64_abs_code, Unop F64 (fun s a r => fst r = with_sign F64 false (pattern_of F64 a)));
   (f64_neg_code, Unop F64 (fun s a r => fst r = negate F64 a));
   (f64_ceil_code, Unop F64 (integral_value F64 softfloat_round_max));
   (f64_floor_code, Unop F64 (integral_value F64 softfloat_round_min));
   (f64_trunc_code, Unop F64 (integral_value F64 softfloat_round_minMag));
   (f64_nearest_code, Unop F64 (integral_value F64 softfloat_round_near_even));
   (f64_add_code, Binop F64 (fun s a b => sum_spec F64 s a b (sign_of F64 b)));
   (f64_sub_code, Binop F64 (fun s a b => sum_spec F64 s a b (negb (sign_of F64 b))));
   (f64_mul_code, Binop F64 (mul_spec F64));
   (f64_div_code, Binop F64 (div_spec F64));
   (f64_min_code, Binop F64 (fun s a b r => min_spec F64 a b (fst r)));
   (f64_max_code, Binop F64 (fun s a b r => max_spec F64 a b (fst r)));
   (f64_copysign_code, Binop F64 (fun s a b r => fst r = with_sign F64 (sign_of F64 b) (pattern_of F64 a)));
   (i32_trunc_s_f32_code, Truncation F32 (signed_range 32));
   (i32_trunc_s_f64_code, Truncation F64 (signed_range 32));
   (i32_trunc_u_f32_code, Truncation F32 (unsigned_range 32));
   (i32_trunc_u_f64_code, Truncation F64 (unsigned_range 32));
   (i64_trunc_s_f32_code, Truncation F32 (signed_range 64));
   (i64_trunc_s_f64_code, Truncation F64 (signed_range 64));
   (i64_trunc_u_f32_code, Truncation F32 (unsigned_range 64));
   (i64_trunc_u_f64_code, Truncation F64 (unsigned_range 64));
   (f64_promote_f32_code, Unop F32 (convert_spec F32 F64));
   (f32_demote_f64_code, Unop F64 (convert_spec F64 F32))].

Definition implements (n : native) (op : operation) : Prop :=
  match n, op with
  | Unary F, Unop f P => forall a s, near_even s -> is_enc f a -> exists r s', F a s = (Value r, s') /\ P s a (r, s')
  | Binary F, Binop f P => forall a b s, near_even s -> is_enc f a -> is_enc f b ->
      exists r s', F a b s = (Value r, s') /\ P s a b (r, s')
  | Unary F, Truncation f range => forall a s, is_enc f a -> truncation_spec f range s a (F a s)
  | _, _ => False
  end.

(** ** Lifting the contracts *)
Lemma unop_ok (f : format) (P : env -> Z -> Z * env -> Prop) (g : Z -> M Z) :
  (forall a s, near_even s -> is_enc f a -> P s a (g a s)) -> implements (Unary (fun a => tlift (g a))) (Unop f P).
Proof. intros H a s Hs Ha. specialize (H a s Hs Ha). unfold tlift. destruct (g a s) as [r s']. eauto. Qed.

Lemma binop_ok (f : format) (P : env -> Z -> Z -> Z * env -> Prop) (g : Z -> Z -> M Z) :
  (forall a b s, near_even s -> is_enc f a -> is_enc f b -> P s a b (g a b s)) ->
  implements (Binary (fun a b => tlift (g a b))) (Binop f P).
Proof. intros H a b s Hs Ha Hb. specialize (H a b s Hs Ha Hb). unfold tlift. destruct (g a b s) as [r s']. eauto. Qed.

Lemma relation_ok (f : format) (unordered : bool) (rel : R -> R -> Prop) (g : Z -> Z -> M bool) :
  (forall a b s, is_enc f a -> is_enc f b -> relation_spec f unordered rel a b (fst (g a b s))) ->
  implements (Binary (fun a b => tlift (bind (g a b) (fun c => Softfloat.ret (b2z c))))) (Binop f (relation_value f unordered rel)).
Proof.
  intros H. apply binop_ok. intros a b s _ Ha Hb. specialize (H a b s Ha Hb). unfold bind, Softfloat.ret.
  destruct (g a b s) as [c s']. exists c. auto.
Qed.

Lemma integral_ok (f : format) {O : FloatOps f} {L : FloatLaws f} (mode : Z) (g : Z -> M Z) :
  (forall a s, near_even s -> is_enc f a -> fst (g a s) = if nanb f a then a else fst (froundToInt a mode false s)) ->
  implements (Unary (fun a => tlift (g a))) (Unop f (integral_value f mode)).
Proof.
  intros H. apply unop_ok. intros a s Hs Ha. unfold integral_value. rewrite (H a s Hs Ha).
  pose proof (round_law a mode false s Ha) as Rd. unfold integral_spec in Rd. destruct (nanb f a); [reflexivity|]. cbn [orb].
  destruct (infb f a); [now rewrite Rd|]. destruct Rd as (b & n & Hn & Mb & Hb & fl & -> & _). exists b, n. auto.
Qed.

Lemma near_even_is_valid (s : env) : near_even s -> valid_mode s.
Proof. unfold near_even, valid_mode. intros ->. split; discriminate. Qed.


(** ** Each group of operations *)
Section Groups.
Context {f : format} {O : FloatOps f} {L : FloatLaws f}.

Lemma arithmetic_ok :
  implements (Binary (fun a b => tlift (fadd a b))) (Binop f (fun s a b => sum_spec f s a b (sign_of f b))) /\
  implements (Binary (fun a b => tlift (fsub a b))) (Binop f (fun s a b => sum_spec f s a b (negb (sign_of f b)))) /\
  implements (Binary (fun a b => tlift (fmul a b))) (Binop f (mul_spec f)) /\
  implements (Binary (fun a b => tlift (fdiv a b))) (Binop f (div_spec f)).
Proof.
  split; [|split; [|split]]; apply binop_ok; intros a b s Hs%near_even_is_valid Ha Hb;
    [now apply add_law|now apply sub_law|now apply mul_law|now apply div_law].
Qed.
End Groups.

Lemma relations_ok (f : format) (eq_ ne lt le gt ge : Z -> Z -> M bool) :
  (forall a b s, is_enc f a -> is_enc f b -> relations_spec f eq_ ne lt le gt ge s a b) ->
  let op g unordered rel := implements (Binary (fun a b => tlift (bind (g a b) (fun c => Softfloat.ret (b2z c))))) (Binop f (relation_value f unordered rel)) in
  op eq_ false eq /\ op ne true (fun x y => x <> y) /\ op lt false Rlt /\ op le false Rle /\ op gt false Rgt /\ op ge false Rge.
Proof.
  intros H op. split; [|split; [|split; [|split; [|split]]]]; apply relation_ok; intros a b s Ha Hb;
    destruct (H a b s Ha Hb) as (H1 & H2 & H3 & H4 & H5 & H6); assumption.
Qed.

Lemma relations32 (a b : Z) (s : env) : is_enc F32 a -> is_enc F32 b ->
  relations_spec F32 _eosio_f32_eq _eosio_f32_ne _eosio_f32_lt _eosio_f32_le _eosio_f32_gt _eosio_f32_ge s a b.
Proof. intros Ha Hb. now apply select32. Qed.
Lemma relations64 (a b : Z) (s : env) : is_enc F64 a -> is_enc F64 b ->
  relations_spec F64 _eosio_f64_eq _eosio_f64_ne _eosio_f64_lt _eosio_f64_le _eosio_f64_gt _eosio_f64_ge s a b.
Proof. intros Ha Hb. now apply select64. Qed.

Lemma arithmetic32 :
  implements (Binary (fun a b => tlift (_eosio_f32_add a b))) (Binop F32 (fun s a b => sum_spec F32 s a b (sign_of F32 b))) /\
  implements (Binary (fun a b => tlift (_eosio_f32_sub a b))) (Binop F32 (fun s a b => sum_spec F32 s a b (negb (sign_of F32 b)))) /\
  implements (Binary (fun a b => tlift (_eosio_f32_mul a b))) (Binop F32 (mul_spec F32)) /\
  implements (Binary (fun a b => tlift (_eosio_f32_div a b))) (Binop F32 (div_spec F32)).
Proof. exact (arithmetic_ok (f := F32) (O := F32_ops)). Qed.

Lemma selections32 :
  implements (Binary (fun a b => tlift (_eosio_f32_min a b))) (Binop F32 (fun s a b r => min_spec F32 a b (fst r))) /\
  implements (Binary (fun a b => tlift (_eosio_f32_max a b))) (Binop F32 (fun s a b r => max_spec F32 a b (fst r))) /\
  implements (Binary (fun a b => tlift (Softfloat.ret (_eosio_f32_copysign a b)))) (Binop F32 (fun s a b r => fst r = with_sign F32 (sign_of F32 b) (pattern_of F32 a))) /\
  implements (Unary (fun a => tlift (Softfloat.ret (_eosio_f32_abs a)))) (Unop F32 (fun s a r => fst r = with_sign F32 false (pattern_of F32 a))) /\
  implements (Unary (fun a => tlift (Softfloat.ret (_eosio_f32_neg a)))) (Unop F32 (fun s a r => fst r = negate F32 a)).
Proof.
  split; [|split; [|split; [|split]]]; [apply binop_ok; intros a b s _ Ha Hb..|apply unop_ok; intros a s _ Ha|apply unop_ok; intros a s _ Ha].
  1,2,3: now destruct (select32 a b s Ha Hb) as ((? & ? & ? & _) & _).
  all: now destruct (select32 a a s Ha Ha) as ((_ & _ & _ & ? & ?) & _).
Qed.

Lemma integrals32 :
  implements (Unary (fun a => tlift (Softfloat.ret (_eosio_f32_ceil a)))) (Unop F32 (integral_value F32 softfloat_round_max)) /\
  implements (Unary (fun a => tlift (Softfloat.ret (_eosio_f32_floor a)))) (Unop F32 (integral_value F32 softfloat_round_min)) /\
  implements (Unary (fun a => tlift (Softfloat.ret (_eosio_f32_trunc a)))) (Unop F32 (integral_value F32 softfloat_round_minMag)) /\
  implements (Unary (fun a => tlift (_eosio_f32_nearest a))) (Unop F32 (integral_value F32 softfloat_round_near_even)).
Proof.
  split; [|split; [|split]]; apply (integral_ok F32 (O := F32_ops)); intros a s Hs Ha;
    [now apply f32_ceil_round|now apply f32_floor_round|now apply f32_trunc_round|now apply f32_nearest_round].
Qed.

Lemma truncations32 :
  implements (Unary _eosio_f32_trunc_i32s) (Truncation F32 (signed_range 32)) /\
  implements (Unary _eosio_f32_trunc_i32u) (Truncation F32 (unsigned_range 32)) /\
  implements (Unary _eosio_f32_trunc_i64s) (Truncation F32 (signed_range 64)) /\
  implements (Unary _eosio_f32_trunc_i64u) (Truncation F32 (unsigned_range 64)).
Proof.
  split; [|split; [|split]]; intros a s Ha; destruct (f32_trunc_correct a s Ha) as (T1 & T2 & T3 & T4); assumption.
Qed.

Lemma arithmetic64 :
  implements (Binary (fun a b => tlift (_eosio_f64_add a b))) (Binop F64 (fun s a b => sum_spec F64 s a b (sign_of F64 b))) /\
  implements (Binary (fun a b => tlift (_eosio_f64_sub a b))) (Binop F64 (fun s a b => sum_spec F64 s a b (negb (sign_of F64 b)))) /\
  implements (Binary (fun a b => tlift (_eosio_f64_mul a b))) (Binop F64 (mul_spec F64)) /\
  implements (Binary (fun a b => tlift (_eosio_f64_div a b))) (Binop F64 (div_spec F64)).
Proof. exact (arithmetic_ok (f := F64) (O := F64_ops)). Qed.

Lemma selections64 :
  implements (Binary (fun a b => tlift (_eosio_f64_min a b))) (Binop F64 (fun s a b r => min_spec F64 a b (fst r))) /\
  implements (Binary (fun a b => tlift (_eosio_f64_max a b))) (Binop F64 (fun s a b r => max_spec F64 a b (fst r))) /\
  implements (Binary (fun a b => tlift (Softfloat.ret (_eosio_f64_copysign a b)))) (Binop F64 (fun s a b r => fst r = with_sign F64 (sign_of F64 b) (pattern_of F64 a))) /\
  implements (Unary (fun a => tlift (Softfloat.ret (_eosio_f64_abs a)))) (Unop F64 (fun s a r => fst r = with_sign F64 false (pattern_of F64 a))) /\
  implements (Unary (fun a => tlift (Softfloat.ret (_eosio_f64_neg a)))) (Unop F64 (fun s a r => fst r = negate F64 a)).
Proof.
  split; [|split; [|split; [|split]]]; [apply binop_ok; intros a b s _ Ha Hb..|apply unop_ok; intros a s _ Ha|apply unop_ok; intros a s _ Ha].
  1,2,3: now destruct (select64 a b s Ha Hb) as ((? & ? & ? & _) & _).
  all: now destruct (select64 a a s Ha Ha) as ((_ & _ & _ & ? & ?) & _).
Qed.

Lemma integrals64 :
  implements (Unary (fun a => tlift (_eosio_f64_ceil a))) (Unop F64 (integral_value F64 softfloat_round_max)) /\
  implements (Unary (fun a => tlift (_eosio_f64_floor a))) (Unop F64 (integral_value F64 softfloat_round_min)) /\
  implements (Unary (fun a => tlift (Softfloat.ret (_eosio_f64_trunc a)))) (Unop F64 (integral_value F64 softfloat_round_minMag)) /\
  implements (Unary (fun a => tlift (_eosio_f64_nearest a))) (Unop F64 (integral_value F64 softfloat_round_near_even)).
Proof.
  split; [|split; [|split]]; apply (integral_ok F64 (O := F64_ops)); intros a s Hs Ha;
    [now apply f64_ceil_round|now apply f64_floor_round|now apply f64_trunc_round|now apply f64_nearest_round].
Qed.

Lemma truncations64 :
  implements (Unary _eosio_f64_trunc_i32s) (Truncation F64 (signed_range 32)) /\
  implements (Unary _eosio_f64_trunc_i32u) (Truncation F64 (unsigned_range 32)) /\
  implements (Unary _eosio_f64_trunc_i64s) (Truncation F64 (signed_range 64)) /\
  implements (Unary _eosio_f64_trunc_i64u) (Truncation F64 (unsigned_range 64)).
Proof.
  split; [|split; [|split]]; intros a s Ha; destruct (f64_trunc_correct a s Ha) as (T1 & T2 & T3 & T4); assumption.
Qed.

Lemma conversions_ok :
  implements (Unary (fun a => tlift (_eosio_f32_promote a))) (Unop F32 (convert_spec F32 F64)) /\
  implements (Unary (fun a => tlift (_eosio_f64_demote a))) (Unop F64 (convert_spec F64 F32)).
Proof. split; apply unop_ok; intros a s _ Ha; [exact (f32_to_f64_spec a s Ha)|exact (f64_to_f32_spec a s Ha)]. Qed.

(** ** Every operation *)
#[local] Opaque _eosio_f32_add _eosio_f32_sub _eosio_f32_div _eosio_f32_mul _eosio_f32_min _eosio_f32_max.
#[local] Opaque _eosio_f32_copysign _eosio_f32_abs _eosio_f32_neg _eosio_f32_ceil _eosio_f32_floor.
#[local] Opaque _eosio_f32_trunc _eosio_f32_nearest _eosio_f32_eq _eosio_f32_ne _eosio_f32_lt _eosio_f32_le.
#[local] Opaque _eosio_f32_gt _eosio_f32_ge _eosio_f64_add _eosio_f64_sub _eosio_f64_div _eosio_f64_mul.
#[local] Opaque _eosio_f64_min _eosio_f64_max _eosio_f64_copysign _eosio_f64_abs _eosio_f64_neg _eosio_f64_ceil.
#[local] Opaque _eosio_f64_floor _eosio_f64_trunc _eosio_f64_nearest _eosio_f64_eq _eosio_f64_ne _eosio_f64_lt.
#[local] Opaque _eosio_f64_le _eosio_f64_gt _eosio_f64_ge _eosio_f32_promote _eosio_f64_demote.
#[local] Opaque _eosio_f32_trunc_i32s _eosio_f64_trunc_i32s _eosio_f32_trunc_i32u _eosio_f64_trunc_i32u.
#[local] Opaque _eosio_f32_trunc_i64s _eosio_f64_trunc_i64s _eosio_f32_trunc_i64u _eosio_f64_trunc_i64u.
#[local] Opaque _eosio_i32_to_f32 _eosio_i64_to_f32 _eosio_ui32_to_f32 _eosio_ui64_to_f32 _eosio_i32_to_f64.
#[local] Opaque _eosio_i64_to_f64 _eosio_ui32_to_f64 _eosio_ui64_to_f64.

Ltac by_group :=
  lazymatch goal with |- implements ?n _ => first
    [pick_in arithmetic32 n | pick_in arithmetic64 n | pick_in selections32 n | pick_in selections64 n
    |pick_in integrals32 n | pick_in integrals64 n | pick_in truncations32 n | pick_in truncations64 n | pick_in conversions_ok n
    |let H := fresh in pose proof (relations_ok F32 _ _ _ _ _ _ relations32) as H; cbv beta zeta in H; pick_in H n
    |let H := fresh in pose proof (relations_ok F64 _ _ _ _ _ _ relations64) as H; cbv beta zeta in H; pick_in H n]
  end.

Definition runs (c : Z) (op : operation) : Prop := exists name t n,
  replacement c = Some (name, t) /\ lookup String.eqb name softfloat_natives = Some n /\ implements n op.

Lemma operations_run : Forall (fun p => runs (fst p) (snd p)) wasm_operations.
Proof.
  unfold wasm_operations.
  repeat (apply Forall_cons; [do 3 eexists; split; [reflexivity|]; split; [reflexivity|]; cbn [snd]; by_group|]). apply Forall_nil.
Qed.

(** C10. What a floating-point operation of a contract computes.  Injection
    replaces it by a call of an intrinsic, and the intrinsic registered under
    that name is correct for the operation: sums, products and quotients are
    those of IEEE 754, correctly rounded; the roundings give the integer in
    their direction, with the sign of the operand; min, max, the signs and the
    relations are exact; promotion and demotion convert the value; and the
    truncations return the integer part or throw.  This covers every operation
    that injection replaces, except the two square roots. *)
Theorem replaced_operations_correct :
  (forall c op, In (c, op) wasm_operations -> runs c op) /\
  (forall c i, replacement c = Some i -> c <> f32_sqrt_code -> c <> f64_sqrt_code -> exists op, In (c, op) wasm_operations).
Proof.
  pose proof operations_run as A. rewrite Forall_forall in A. split; [intros c op H; exact (A _ H)|].
  intros c i H N1 N2. pose proof (replacement_code c i H) as Hc.
  assert (B := code_cases (fun c => match replacement c with Some _ => (c =? f32_sqrt_code) || (c =? f64_sqrt_code) ||
                                      existsb (Z.eqb c) (map fst wasm_operations) | None => true end)
                 ltac:(vm_compute; reflexivity) c Hc). cbv beta in B. rewrite H in B.
  apply Z.eqb_neq in N1, N2. rewrite N1, N2 in B. cbn [orb] in B. apply existsb_exists in B. destruct B as (k & Hk & E).
  apply Z.eqb_eq in E. subst k. apply in_map_iff in Hk. destruct Hk as ([k op] & E & Hop). cbn [fst] in E. subst k. now exists op.
Qed.

Lemma replaced_operations_correct_witness :
  runs f64_ceil_code (Unop F64 (integral_value F64 softfloat_round_max)) /\
  exists op, In (i64_trunc_u_f32_code, op) wasm_operations.
Proof.
  split.
  - refine (proj1 replaced_operations_correct f64_ceil_code _ _). unfold wasm_operations. cbn; tauto.
  - refine (proj2 replaced_operations_correct i64_trunc_u_f32_code _ eq_refl _ _); discriminate.
Defined.
